(* ===== verification/_CoqProject ===== *)
-Q . S2P
Prelude.v
IDSet.v
Bitfield.v
Signature.v
Types.v
Samples.v
Ecdsa.v
BlockChain.v
Certs.v
Rules.v
Replica.v
ReplicaFrame.v
SimpleLocal.v
Safety.v
SafetySample.v
ReplicaFacts.v
Voting.v
Flaws.v
EventQueue.v
EventLoop.v
CryptoCache.v
Leaders.v
Eddsa.v
Convert.v
Server.v
Partition.v
Handel.v
CmdCache.v
TmBits.v
TmValidators.v
TmPriority.v
TmValUpdate.v
TmTypes.v
TmCommit.v
TmVotes.v
TmVoteInv.v
TmVoteSafety.v
TmMerkle.v
TmPartSet.v
TmPrivval.v
TmHeightVotes.v
TmBlock.v
TmStore.v
TmState.v
TmConsensus.v
TmConsVotes.v
TmConsInv.v
TmConsStep.v
TmConsSafety.v
TmExec.v
TmStoreFacts.v
TmBlockFacts.v
TmExecFacts.v
TmConsFlaws.v
TmConsSample.v
TmLight.v
TmEvidence.v
TmEvPool.v
TmEvSample.v
TmLightStore.v
TmClient.v
TmClientFacts.v
TmClientRuns.v
TmClientSample.v
TmStateStore.v
TmStateFacts.v
TmStateRuns.v
TmGenesis.v
TmStateSample.v
TmCList.v
TmMempool.v
TmMempoolFacts.v
TmMempoolRuns.v
TmMempoolSample.v
