(* ===== verification/Prelude.v ===== *)
(** * NimbleChain: two consensus engines, from messages to the executed chain

    The repository holds two consensus engines, a HotStuff replica under
    src/sourcecodes/hotstuff and a fork of Tendermint under src/sourcecodes/tendermint.
    This development models the core of both.  The files whose name starts with [Tm] are
    about Tendermint, the others about HotStuff; paths below are relative to the
    directory of the engine.

    ** HotStuff

    A replica is a set of modules around one event loop.  Messages arrive at the
    backend (backend/server.go), which finds out who sent them, converts them from
    protobuf (internal/proto/hotstuffpb/convert.go) and adds an event to the loop
    (eventloop/).  The handlers are those of the consensus module
    (consensus/consensus.go, with a rule set such as consensus/simplehotstuff), the
    voting machine (consensus/votingmachine.go) and the synchronizer
    (synchronizer/synchronizer.go), which call each other: handling a proposal may
    commit blocks, advance the view, propose and vote.  They share the block store
    (blockchain/), the certificates (crypto/crypto.go) over a signature scheme
    (crypto/ecdsa, crypto/eddsa, behind crypto/cache.go), the leader rotation
    (leaderrotation/) and the command cache (replica/cmdcache.go).  Votes go to the
    next leader, or are aggregated by Handel (handel/).

    - Prelude.v: outcomes of Go calls ([Ok], [Panic], [Diverge] for exhausted fuel),
      the state-passing monad [M], machine integers, byte strings; [respects] and
      [triple] for reasoning about computations; shared lemmas and hints.
    - IDSet.v, Bitfield.v: sets of replica IDs (types.go, crypto/bitfield.go) and
      their contract [IDSet_ok].
    - Signature.v, Types.v: multi-signatures; blocks, certificates, messages and
      their bytes (types.go, block.go, events.go, genesis.go, helper.go).
    - Samples.v: concrete parameters for the witnesses (a small hash function, a
      computable signature scheme, a few blocks).
    - Ecdsa.v, Eddsa.v: the two signature schemes, instances of [CryptoBase].
    - BlockChain.v: the block store.  Certs.v: creating and verifying certificates.
    - Rules.v: the interface [Rules], chained, fast and simple HotStuff, and the
      Byzantine wrappers.
    - Replica.v: consensus.go, votingmachine.go and synchronizer.go as operations on
      one [Replica] record; effects (executed blocks, sent messages, new events,
      timers) are appended to [r_out].
    - ReplicaFrame.v, SimpleLocal.v, Safety.v, SafetySample.v: the safety proof of
      simple HotStuff.
    - ReplicaFacts.v, Voting.v, Flaws.v: further theorems about the replica.
    - EventQueue.v, EventLoop.v: eventloop/.  CryptoCache.v: crypto/cache.go.
      Leaders.v: leaderrotation/.  CmdCache.v: replica/cmdcache.go and clientsrv.go.
    - Convert.v, Server.v: convert.go and backend/.
    - Partition.v, Handel.v: handel/.

    ** Tendermint

    A node is the consensus state machine (consensus/state.go).  Its receive routine
    takes proposals, block parts and votes of peers and of itself, timeouts and the news
    of transactions, one at a time.  It keeps the votes of a height
    (consensus/types/height_vote_set.go) in vote sets (types/vote_set.go) over the
    validators and their bit arrays (types/validator_set.go, libs/bits), collects the
    parts of the proposed block (types/part_set.go, checked by Merkle proofs,
    crypto/merkle), signs its own votes and proposals with the private validator
    (privval/file.go), and moves through the steps of a round.  A block with two thirds of
    the precommits is saved in the block store (store/store.go) and applied by the executor
    (state/execution.go), which validates it (state/validation.go) against the state of the
    chain (state/state.go), talks to the application and computes the next state, which
    the state store keeps (state/store.go) and which starts from the genesis
    (types/genesis.go).  Validators that sign twice are accused by evidence
    (types/evidence.go, evidence/verify.go), which the evidence pool keeps and hands to
    proposers (evidence/pool.go).  Transactions wait in the mempool (mempool/v0 with its
    cache, over the list of libs/clist) until a block has them.  A light client (light/client.go, with the verifier, the
    detector of attacks and a store beside it) follows the chain by its headers alone.

    - TmBits.v: bit arrays.  TmValidators.v: validator sets, with TmPriority.v (the choice
      of proposers) and TmValUpdate.v (updates).
    - TmTypes.v: votes, block IDs, commits and their verification, with TmCommit.v.
    - TmVotes.v: vote sets, with TmVoteInv.v and TmVoteSafety.v.  TmHeightVotes.v: the
      votes of a height.
    - TmMerkle.v, TmPartSet.v, TmPrivval.v: Merkle trees, part sets, the signer.
    - TmBlock.v, TmBlockFacts.v: blocks, headers, light blocks and evidence (types/block.go,
      evidence.go, light.go).
    - TmStore.v, TmStoreFacts.v: the block store, a map per kind of key.
    - TmState.v: the state of the chain and the interface of the executor the state machine
      is written against, [BlockExecutor], with what the proofs need of it, [KeepsState].
    - TmConsensus.v: the state machine, [CState], with one definition per handler; messages,
      timeouts, saved and applied blocks are appended to [cs_out].
    - TmConsVotes.v, TmConsInv.v, TmConsStep.v, TmConsSafety.v: what votes of a node mean,
      the invariant of a node, that every handler keeps it and justifies what it sends, and
      agreement.  TmConsFlaws.v: inputs that stop a node.
    - TmExec.v, TmExecFacts.v: the executor, an instance of [BlockExecutor], and that it
      discharges [KeepsState]; median time; proposed blocks are valid.
    - TmConsSample.v: a network of three nodes and a silent fourth validator that decides
      and applies a block, for the witnesses.
    - TmStateStore.v: the state store, a map per kind of key, with its lemmas in
      TmStateFacts.v and its specification [Hist] and the refinement in TmStateRuns.v.
      TmGenesis.v: genesis documents and the first state.  TmStateSample.v: witnesses.
    - TmEvidence.v: evidence and its verification.  TmEvPool.v: the evidence pool.
      TmEvSample.v: witnesses for both.
    - TmCList.v: the concurrent list.  TmMempool.v: the mempool, with its invariant in
      TmMempoolFacts.v, what a block does to it in TmMempoolRuns.v, and TmMempoolSample.v.
    - TmLight.v: the verifier of the light client.  TmLightStore.v: its store.
      TmClient.v: the client and the detector, [Client] beside its store and providers,
      with TmClientFacts.v (what every operation keeps), TmClientRuns.v (termination and
      flaws) and TmClientSample.v (witnesses).

    ** What the theorems show

    Safety of Tendermint.  [agreement]: in every run ([TmConsSafety.wreach]) in which
    anything is delivered to the nodes in any order, two nodes that apply blocks at one
    height apply blocks with the same hash, while the validators that are not correct nodes
    have at most a third of the power of that height.  [no_equivocation]: a node sends at
    most one vote per height, round and type.  A run starts from started nodes; assumed are
    that nobody signs for a correct node, that votes of peers have passed the checks on
    receipt ([received]), that a timeout was scheduled, and an executor that follows a
    schedule of validators ([KeepsState], shown of the executor of TmExec.v when the
    application leaves the validators alone, [exec_keeps]).  A node that restarts from its
    write-ahead log within a height is not part of a run; for the signer alone restarts are
    covered by [sign_once].  The parts it stands on: [majority_safety],
    [vote_set_invariant], [height_votes_invariant], [addVote_results], [VerifyCommit_correct],
    [conflicting_commits], [light_verification], [MakeCommit_verifies].

    Light clients.  [light_client_sound]: a header accepted by a chain of verifications from
    a genuine one is genuine and committed by more than two thirds of the power of its height;
    [light_client_store_sound]: every block that the operations of the client save or return
    has such a header and the validators of its height.  Assumed ([TmLight.Chain]): correct validators precommit only genuine
    headers, the faulty ones have at most a third of the power at every height, and no two
    hashed inputs collide; the providers answer with blocks of the requested height that
    passed ValidateBasic; and the client does not go backwards, where it can be deceived
    ([backwards_unverified]).  [verifySkipping_returns]: bisection ends for heights below
    2^63 / 9, whatever blocks the provider sends; above, the pivot can overflow and the loop
    go on for ever ([skipping_never_returns]).

    Evidence.  [duplicate_vote_evidence_accepted]: two conflicting votes of a validator make
    evidence that is accepted; [evidence_accuses_faulty]: accepted evidence of duplicate
    votes never names a correct validator; [evidence_committed_once]: over every run of the
    pool, with restarts, committed evidence is never pending or accepted again;
    [pending_evidence_proposable]: what the pool proposes fits the limit.

    State.  [state_store_refines]: the state store implements a history that remembers the
    validators and parameters of every height that was not pruned, although it stores most
    heights as pointers.  [genesis_state]: a genesis with proper validators gives a state
    the store saves and reads back.

    Transactions.  [clist_refines]: the list is a sequence, and readers on a removed element
    find their way on.  [mempool_invariant]: whatever arrives in whichever order, the mempool
    does not panic and stays within its limits; assumed are an application that answers in
    the order it is asked, blocks that come after the connection was flushed (as the executor
    does), removals by key and flushes of the mempool that were not made during a recheck, and
    keys that do not collide.  [block_clears_mempool]: a block takes out its transactions, as
    long as the cache has room and the mempool was flushed only with no answer outstanding;
    not otherwise ([committed_tx_stays], [flush_doubles]).

    Blocks and the chain.  [MakeBlock_valid]: a correct proposer's block passes the
    validation, unless the median time of the commit is too early, which takes faulty votes
    of at least half of its power.  [header_hash_covers]: the hash binds all fields but two.
    [SaveBlock_LoadBlock], [PruneBlocks_exact]: the store.  [merkle_iterative],
    [merkle_proofs_complete], [merkle_proofs_sound], [part_set_roundtrip],
    [part_set_authentic]: blocks in parts.  [WeightedMedian_honest]: when the time of a
    block lies between honest times; [MedianTime_set_back]: one faulty validator of four is
    already too many.  [proposer_fairness], [IncrementProposerPriority_balanced],
    [updateWithChangeSet_correct]: validators.

    Where Tendermint fails.  [undecodable_block_stops], [early_precommit_stops],
    [keyless_node_stops]: inputs on which the state machine panics.
    [SetRound_max]: a round that is never reached.
    [VerifyCommit_ignores_addresses], [attack_evidence_hash_truncated],
    [part_set_misplaced], [bit_array_padding], [majority_vote_not_recorded].
    [backwards_unverified], [detector_deafened], [lone_witness_kept],
    [cleanupAfter_keeps_latest], [shared_counter]: the light client trusts a forged header,
    overlooks a witness, or keeps what it should drop.  [amnesia_evidence_refused]: evidence
    that is refused once it was sent.  [committed_tx_stays], [reap_one_too_many],
    [flush_while_rechecking], [flush_doubles]: the mempool.  The second half of [genesis_state]: documents on which
    the node panics.

    Safety of HotStuff.  [Safety.step] delivers any event to any correct replica, with any
    answers of the network, as long as the certificates it carries are authentic:
    their correct signers have voted.  [simple_hotstuff_safety]: in every reachable
    world the executed blocks of two correct replicas are below decided blocks of one
    chain of certificates; and if the parent of every block is its certified block
    ([blocks_linked]), the executed sequences are prefixes of each other and
    [executed_chain]: each is a chain of certificates.  The hypotheses
    ([Safety.setting]: a set of blocks without hash collisions, fetches that find
    existing blocks, at most f faulty replicas; and [blocks_linked], which the code
    does not check) are not idle, as Flaws.v shows: with a failing
    fetch a replica votes without its lock ([simple_vote_without_lock]), with a
    parent that is not the certified block it executes a block nobody voted for
    ([uncertified_block_executed]), and chained HotStuff is not safe at all
    ([chained_hotstuff_conflict]).

    HotStuff: certificates and votes.  [quorum_intersection], [VerifyQuorumCert_sound],
    [verifyCert_quorum], [ec_Combine_correct], [ec_BatchVerify_sound],
    [high_of_maximal], [handel_qc_valid] (Handel under every interleaving of its two
    threads).  What certificates do not guarantee: [VerifyQuorumCert_ignores_view],
    [OnNewView_unsigned], [duplicate_vote_blocks], [Block_ToBytes_ambiguous],
    [handel_overlap_blocks], [handel_choice_lost].

    Data structures refine their specifications.  [Bitfield_Add_refines],
    [Bitfield_implements_IDSet], [queue_push_refines], [queue_pop_refines],
    [processEvent_order], [Extends_correct], [PruneToHeight_correct],
    [cache_Verify_transparent], [Get_correct], [proposed_not_accepted],
    [Exec_Fork_replies], [levels_partition], [bit_array_ops], [bit_array_tests],
    [bit_array_json]; with [lost_wakeup] and [cache_BatchVerify_any_batch] where they do not.

    Messages.  [proposal_delivered], [timeout_roundtrip], [fetch_correct] (which is
    what the block store assumes of the network), [Connect_correct],
    [connection_metadata_roundtrip].  Leaders: [round_robin_fair], [carousel_leader].

    ** Bounds and fuel

    Integers are [Z]; where the code can wrap around, [u64], [u32], [u8], [i64] or [i32] is
    written out.  Loops over a slice are structural.  Walks along parent links take
    fuel; [Extends_correct] gives a bound that suffices, and the safety theorems hold for
    every fuel.  AdvanceView, Propose and OnPropose call each other: the recursion
    takes a depth, and [AdvanceView_nests_once] shows that depth two gives the result of any
    greater depth when no certificate claims the view 2^64 - 1; one that does makes the
    calls nest without end ([last_view_never_returns]).  [Handel.levels_fuel] and the fuel of [CmdCache.Get] are
    shown to suffice ([updateOutgoing_terminates], [Get_correct]).  Merkle trees take the
    number of items as fuel, which suffices ([HashFromByteSlices_total]).  The handlers of
    the consensus state machine call each other without cycles and need none.  The loops of
    the light client that depend on what providers answer take fuel; for bisection
    [verifySkipping_returns] shows that some fuel is enough, for heights below 2^63/9 (above
    that the computation of the pivot can wrap around).  Walks along the concurrent list
    take the number of elements as fuel, which suffices ([mempool_invariant]).  [state_store_refines] needs heights
    below 2^63 - 2.

    ** Parameters

    SHA-256, the primitive sign and verify functions, gRPC and gorums, protobuf
    encoding, Go's seeded random numbers and BLS point decompression are not part of
    the repository: they are arguments, and what is assumed of them is a
    hypothesis of the theorem that needs it, with a witness that it can hold.  For
    Tendermint: [GoSort] is what sort.Slice promises, [Crypto] the signatures and the
    encoding of what is signed, [BlockCodec] the hash function and the encodings of blocks,
    [Host] a node's private key, clock, configuration and executor, [Services] the
    application, the pools and the state store as the executor calls them.  An
    answer that may differ between calls takes the number of the call.

    ** What is not modelled

    Logging, metrics, orchestration, key generation and generated code.  HotStuff: the
    reputation-based leader rotation and the view duration (floating-point
    numbers; the synchronizer is verified against an interface); the BLS operations
    (pairings); contexts and the cancellation of pending fetches; the twins test
    harness.  Tendermint: the statistics and learned timeouts kept by finalizeCommit
    (floating-point numbers that only choose durations, the files they are written to and the
    service that is asked for them), whose other lines are [finalizeCommit], [apply_decided] and
    [enter_next_height]; a private validator that changes its key; the write-ahead log and replay;
    the reactors and the peer-to-peer layer (goroutines over channels and connections); the
    prioritized mempool, which is not the default; the HTTP provider and the proxy of the light client; the JSON form of a
    genesis; fast sync and state sync; RPC, indexing and the commands.

    The interfaces between Tendermint's parts are left abstract where they are
    used: the executor sees the pools and the state store as [Services], and the
    evidence pool sees the stores as parameters; [agreement] covers applications that leave
    the validators alone. *)

From stdpp Require Export prelude base gmap list sets fin_maps sorting.
From Stdlib Require Export ZArith Lia.

#[global] Open Scope Z_scope.
#[global] Set Default Goal Selector "!".

(** * Outcomes: a Go call returns, panics, or (for a loop run on fuel) does
    not finish within the fuel it was given. *)
Inductive outcome (A : Type) : Type :=
| Ok (a : A)
| Panic
| Diverge.
Arguments Ok {A} a.
Arguments Panic {A}.
Arguments Diverge {A}.

Definition outcome_bind {A B} (o : outcome A) (k : A → outcome B) : outcome B :=
  match o with
  | Ok a => k a
  | Panic => Panic
  | Diverge => Diverge
  end.

(** * State-passing computations over a mutable state [S]. *)
Definition M (S A : Type) : Type := S → outcome (A * S).

Definition ret {S A} (a : A) : M S A := λ s, Ok (a, s).
Definition bind {S A B} (m : M S A) (k : A → M S B) : M S B :=
  λ s, outcome_bind (m s) (λ '(a, s'), k a s').
Definition panic {S A} : M S A := λ _, Panic.
Definition diverge {S A} : M S A := λ _, Diverge.
Definition gets {S A} (f : S → A) : M S A := λ s, Ok (f s, s).
Definition modify {S} (f : S → S) : M S unit := λ s, Ok (tt, f s).
Definition lift {S A} (o : outcome A) : M S A := λ s, outcome_bind o (λ a, Ok (a, s)).

Declare Scope go_scope.
Delimit Scope go_scope with go.
Notation "x <- m ;; k" := (bind m (λ x, k))
  (at level 100, m at next level, right associativity) : go_scope.
Notation "m ;;; k" := (bind m (λ _, k))
  (at level 100, right associativity) : go_scope.
#[global] Open Scope go_scope.

(** Sequencing of outcomes without state. *)
Notation "'let!' x := o 'in' k" := (outcome_bind o (λ x, k))
  (at level 10, x pattern, o at level 100, k at level 200) : go_scope.

(** Run a computation on a component [T] of the state [S]. *)
Definition zoom {S T A} (get : S → T) (put : T → S → S) (m : M T A) : M S A :=
  λ s, outcome_bind (m (get s)) (λ '(a, t), Ok (a, put t s)).

(** A [for] loop over a slice whose body may change the state. *)
Fixpoint for_each {S A} (f : A → M S unit) (l : list A) : M S unit :=
  match l with
  | [] => ret tt
  | x :: l' => f x ;;; for_each f l'
  end.

(** * Machine integers *)
Definition two64 : Z := 2 ^ 64.
Definition two32 : Z := 2 ^ 32.
Definition u64 (z : Z) : Z := z mod two64.
Definition u32 (z : Z) : Z := z mod two32.
Definition u8 (z : Z) : Z := z mod 256.

Definition is_u64 (z : Z) : Prop := 0 ≤ z < two64.
Definition is_u32 (z : Z) : Prop := 0 ≤ z < two32.
Definition is_u8 (z : Z) : Prop := 0 ≤ z < 256.

(** * Byte strings *)
Abbreviation bytes := (list Z).

(** [binary.LittleEndian.PutUint32] and [PutUint64] write [n] bytes, the
    least significant first. *)
Fixpoint le_bytes (n : nat) (z : Z) : bytes :=
  match n with
  | O => []
  | S n' => z mod 256 :: le_bytes n' (z / 256)
  end.

Fixpoint le_value (bs : bytes) : Z :=
  match bs with
  | [] => 0
  | b :: bs' => b + 256 * le_value bs'
  end.

(** [big.Int.Bytes] (big endian, no leading zero byte) and [SetBytes]. *)
Fixpoint be_bytes_fuel (fuel : nat) (z : Z) (acc : bytes) : bytes :=
  match fuel with
  | O => acc
  | S f => if decide (z ≤ 0) then acc else be_bytes_fuel f (z / 256) (z mod 256 :: acc)
  end.
Definition be_bytes (z : Z) : bytes := be_bytes_fuel (Z.to_nat (Z.log2 z / 8 + 1)) z [].
Definition be_value (bs : bytes) : Z := foldl (λ a b, 256 * a + b) 0 bs.

(** [copy(h[:], bs)] into a zeroed array of [n] bytes. *)
Definition copy_array (n : nat) (bs : bytes) : bytes :=
  take n bs ++ replicate (n - length bs)%nat 0.

(** * Slices: an index out of range panics. *)
Definition slice_get {A} (l : list A) (i : Z) : outcome A :=
  if decide (0 ≤ i) then match l !! Z.to_nat i with Some x => Ok x | None => Panic end
  else Panic.
Definition slice_set {A} (l : list A) (i : Z) (x : A) : outcome (list A) :=
  if decide (0 ≤ i < Z.of_nat (length l)) then Ok (<[Z.to_nat i := x]> l) else Panic.

(** * Tactics *)

(** Unfold the monad at a concrete state and split the calls one by one. *)
Ltac go_unfold :=
  unfold bind, ret, gets, modify, lift, panic, diverge, zoom, outcome_bind in *.

(** Case analysis on the scrutinee of the first [match] of a hypothesis. *)
Ltac split_match_in H :=
  match type of H with
  | context [match ?x with _ => _ end] =>
      lazymatch x with
      | context [match _ with _ => _ end] => fail
      | _ => let E := fresh "E" in destruct x eqn:E
      end
  end.

Ltac split_match :=
  match goal with
  | |- context [match ?x with _ => _ end] =>
      lazymatch x with
      | context [match _ with _ => _ end] => fail
      | _ => let E := fresh "E" in destruct x eqn:E
      end
  end.

Create HintDb nimble.

(** * Reasoning about computations *)

Lemma bind_Ok {S A B} (m : M S A) (k : A → M S B) s r :
  bind m k s = Ok r ↔ ∃ a s', m s = Ok (a, s') ∧ k a s' = Ok r.
Proof.
  unfold bind, outcome_bind. destruct (m s) as [[a s']| |]; naive_solver.
Qed.

(** Running the first of two computations. *)
Lemma bind_run {S A B} (m : M S A) (k : A → M S B) s a s' : m s = Ok (a, s') → bind m k s = k a s'.
Proof. intros E. unfold bind. by rewrite E. Qed.

(** [respects R m]: every run of [m] that returns relates its initial and its
    final state by [R].  With a preorder [R] this composes along [bind]; the
    instances below let [typeclasses eauto] frame a whole handler. *)
Definition respects {S A} (R : S → S → Prop) (m : M S A) : Prop :=
  ∀ s a s', m s = Ok (a, s') → R s s'.

Section respects.
Context {S : Type} (R : S → S → Prop) `{!PreOrder R}.

Lemma respects_ret {A} (a : A) : respects R (ret a).
Proof. intros s b s' H. unfold ret in H. by simplify_eq. Qed.

Lemma respects_panic {A} : respects R (panic (A := A)).
Proof. intros s b s' H. done. Qed.

Lemma respects_diverge {A} : respects R (diverge (A := A)).
Proof. intros s b s' H. done. Qed.

Lemma respects_gets {A} (f : S → A) : respects R (gets f).
Proof. intros s b s' H. unfold gets in H. by simplify_eq. Qed.

Lemma respects_lift {A} (o : outcome A) : respects R (lift o).
Proof. intros s b s' H. unfold lift, outcome_bind in H. by destruct o; simplify_eq. Qed.

Lemma respects_modify (f : S → S) : (∀ s, R s (f s)) → respects R (modify f).
Proof. intros Hf s b s' H. unfold modify in H. by simplify_eq. Qed.

Lemma respects_bind {A B} (m : M S A) (k : A → M S B) :
  respects R m → (∀ a, respects R (k a)) → respects R (bind m k).
Proof.
  intros Hm Hk s b s' (a & s1 & H1 & H2)%bind_Ok. etrans; [by eapply Hm|by eapply Hk].
Qed.

(** The same, with what is known of a returned result. *)
Lemma respects_bind_result {A B} (m : M S A) (k : A → M S B) :
  respects R m → (∀ a s s', m s = Ok (a, s') → respects R (k a)) → respects R (bind m k).
Proof.
  intros Hm Hk s b s' (a & s1 & H1 & H2)%bind_Ok. etrans; [by eapply Hm|]. by eapply (Hk a s s1).
Qed.

Lemma respects_for_each {A} (f : A → M S unit) l :
  (∀ a, a ∈ l → respects R (f a)) → respects R (for_each f l).
Proof.
  induction l as [|x l IH]; simpl; intros Hf; [apply respects_ret|].
  apply respects_bind; [apply Hf; set_solver|]. intros _. apply IH. set_solver.
Qed.
End respects.

#[export] Hint Resolve respects_ret respects_gets respects_lift respects_panic respects_diverge respects_bind : nimble.
#[export] Hint Extern 1 (PreOrder _) => apply _ : nimble.

Lemma respects_zoom {S T A} (R : S → S → Prop) (RT : T → T → Prop)
    (get : S → T) (put : T → S → S) (m : M T A) :
  (∀ s t, RT (get s) t → R s (put t s)) →
  respects RT m → respects R (zoom get put m).
Proof.
  intros HR Hm s a s' H. unfold zoom, outcome_bind in H.
  destruct (m (get s)) as [[b t]| |] eqn:E; simplify_eq. apply HR. by eapply Hm.
Qed.

(** Partial-correctness triples: the postcondition may mention the result. *)
Definition triple {S A} (P : S → Prop) (m : M S A) (Q : A → S → Prop) : Prop :=
  ∀ s a s', P s → m s = Ok (a, s') → Q a s'.

Lemma triple_bind {S A B} (P : S → Prop) (m : M S A) (Q : A → S → Prop)
    (k : A → M S B) (T : B → S → Prop) :
  triple P m Q → (∀ a, triple (Q a) (k a) T) → triple P (bind m k) T.
Proof. intros Hm Hk s b s' HP (a & s1 & H1 & H2)%bind_Ok. eapply Hk; eauto. Qed.

Lemma triple_ret {S A} (P : S → Prop) (a : A) (Q : A → S → Prop) :
  (∀ s, P s → Q a s) → triple P (ret a) Q.
Proof. intros HQ s b s' HP E. unfold ret in E. simplify_eq. auto. Qed.

Lemma triple_modify {S} (P : S → Prop) (f : S → S) (Q : unit → S → Prop) :
  (∀ s, P s → Q tt (f s)) → triple P (modify f) Q.
Proof. intros H s b s' HP E. unfold modify in E. simplify_eq. auto. Qed.

Lemma triple_gets {S A} (P : S → Prop) (f : S → A) (Q : A → S → Prop) :
  (∀ s, P s → Q (f s) s) → triple P (gets f) Q.
Proof. intros H s b s' HP E. unfold gets in E. simplify_eq. auto. Qed.

Lemma triple_conseq {S A} (P P' : S → Prop) (m : M S A) (Q Q' : A → S → Prop) :
  triple P m Q → (∀ s, P' s → P s) → (∀ a s, Q a s → Q' a s) → triple P' m Q'.
Proof. intros H HP HQ s a s' Hs E. eapply HQ, H; eauto. Qed.

(** * Byte encodings *)

Lemma length_le_bytes n z : length (le_bytes n z) = n.
Proof. revert z. induction n; intros z; simpl; auto. Qed.

Lemma le_value_bytes n z : le_value (le_bytes n z) = z mod 256 ^ (Z.of_nat n).
Proof.
  revert z. induction n as [|n IH]; intros z.
  { simpl. change (256 ^ Z.of_nat 0) with 1. by rewrite Z.mod_1_r. }
  cbn [le_bytes le_value]. rewrite IH, Nat2Z.inj_succ, Z.pow_succ_r by lia.
  rewrite Z.rem_mul_r by lia. lia.
Qed.

Lemma le_bytes_inj n z1 z2 :
  0 ≤ z1 < 256 ^ Z.of_nat n → 0 ≤ z2 < 256 ^ Z.of_nat n →
  le_bytes n z1 = le_bytes n z2 → z1 = z2.
Proof.
  intros H1 H2 E. apply (f_equal le_value) in E.
  rewrite !le_value_bytes, !Z.mod_small in E; auto.
Qed.

Lemma le_bytes_range n z : Forall is_u8 (le_bytes n z).
Proof.
  revert z. induction n; intros z; simpl; constructor; auto.
  unfold is_u8. pose proof (Z.mod_pos_bound z 256). lia.
Qed.

Lemma be_value_app bs b : be_value (bs ++ [b]) = 256 * be_value bs + b.
Proof. unfold be_value. by rewrite foldl_app. Qed.

Lemma foldl_be_acc bs a :
  foldl (λ a b, 256 * a + b) a bs = a * 256 ^ Z.of_nat (length bs) + be_value bs.
Proof.
  unfold be_value. revert a. induction bs as [|b bs IH]; intros a; cbn [foldl length].
  - change (256 ^ Z.of_nat 0) with 1. lia.
  - rewrite IH. rewrite (IH (256 * 0 + b)). rewrite Nat2Z.inj_succ, Z.pow_succ_r by lia. lia.
Qed.

Lemma be_value_cons b bs :
  be_value (b :: bs) = b * 256 ^ Z.of_nat (length bs) + be_value bs.
Proof. unfold be_value at 1. cbn [foldl]. rewrite foldl_be_acc. lia. Qed.

Lemma be_bytes_fuel_value f z acc :
  0 ≤ z < 256 ^ Z.of_nat f →
  be_value (be_bytes_fuel f z acc) = z * 256 ^ Z.of_nat (length acc) + be_value acc.
Proof.
  revert z acc. induction f as [|f IH]; intros z acc Hz.
  { change (256 ^ Z.of_nat 0) with 1 in Hz. replace z with 0 by lia. simpl. lia. }
  cbn [be_bytes_fuel]. case_decide; [replace z with 0 by lia; lia|].
  rewrite IH.
  - cbn [length]. rewrite be_value_cons, Nat2Z.inj_succ, Z.pow_succ_r by lia.
    pose proof (Z.div_mod z 256). nia.
  - rewrite Nat2Z.inj_succ, Z.pow_succ_r in Hz by lia.
    split; [apply Z.div_pos; lia|]. apply Z.div_lt_upper_bound; lia.
Qed.

(** [new(big.Int).SetBytes(x.Bytes())] is [x] for every non-negative [x]. *)
Lemma be_value_bytes z : 0 ≤ z → be_value (be_bytes z) = z.
Proof.
  intros Hz. unfold be_bytes. rewrite be_bytes_fuel_value; [unfold be_value; simpl; lia|].
  split; [done|]. destruct (decide (z = 0)) as [->|Hne]; [apply Z.pow_pos_nonneg; lia|].
  pose proof (Z.log2_spec z). pose proof (Z.log2_nonneg z).
  rewrite Z2Nat.id by (pose proof (Z.div_pos (Z.log2 z) 8); lia).
  change 256 with (2 ^ 8). rewrite <-Z.pow_mul_r by (pose proof (Z.div_pos (Z.log2 z) 8); lia).
  eapply Z.lt_le_trans; [apply H; lia|]. apply Z.pow_le_mono_r; [lia|].
  pose proof (Z.div_mod (Z.log2 z) 8). pose proof (Z.mod_pos_bound (Z.log2 z) 8). lia.
Qed.

Lemma copy_array_id n bs : length bs = n → copy_array n bs = bs.
Proof.
  intros H. unfold copy_array. rewrite take_ge by lia.
  replace (n - length bs)%nat with 0%nat by lia. by rewrite app_nil_r.
Qed.

Lemma length_copy_array n bs : length (copy_array n bs) = n.
Proof. unfold copy_array. rewrite length_app, length_take, length_replicate. lia. Qed.

(** * Lists *)
Lemma omap_filter_fmap {A B} (f : A → B) (p : A → bool) (l : list A) :
  omap (λ x, if p x then Some (f x) else None) l = f <$> filter (λ x, p x = true) l.
Proof.
  induction l as [|x l IH]; [done|]. rewrite filter_cons. csimpl.
  case_decide as Hp; [rewrite Hp, fmap_cons|apply not_true_is_false in Hp; rewrite Hp];
    by rewrite <-IH.
Qed.

Lemma omap_ext_in {A B} (f g : A → option B) (l : list A) :
  (∀ x, x ∈ l → f x = g x) → omap f l = omap g l.
Proof.
  induction l as [|x l IH]; intros H; [done|]. csimpl.
  rewrite (H x) by set_solver. by rewrite IH by set_solver.
Qed.

Lemma bind_ext_in {A B} (f g : A → list B) (l : list A) :
  (∀ x, x ∈ l → f x = g x) → l ≫= f = l ≫= g.
Proof.
  induction l as [|x l IH]; intros H; [done|]. cbn.
  rewrite (H x) by set_solver. f_equal. apply IH. set_solver.
Qed.

Lemma list_filter_fmap {A B} (f : A → B) (P : B → Prop) `{!∀ x, Decision (P x)} (l : list A) :
  filter P (f <$> l) = f <$> filter (λ x, P (f x)) l.
Proof.
  induction l as [|x l IH]; [done|]. rewrite fmap_cons, !filter_cons.
  case_decide; by rewrite ?fmap_cons, IH.
Qed.

Lemma list_filter_ext_in {A} (P Q : A → Prop) `{!∀ x, Decision (P x), !∀ x, Decision (Q x)} (l : list A) :
  (∀ x, x ∈ l → P x ↔ Q x) → filter P l = filter Q l.
Proof.
  induction l as [|x l IH]; intros HPQ; [done|]. rewrite !filter_cons, IH by set_solver.
  pose proof (HPQ x ltac:(set_solver)). repeat case_decide; tauto.
Qed.

Lemma list_filter_all {A} (P : A → Prop) `{!∀ x, Decision (P x)} (l : list A) :
  (∀ x, x ∈ l → P x) → filter P l = l.
Proof.
  induction l as [|x l IH]; intros Hall; [done|]. rewrite filter_cons, decide_True, IH; [done|..];
    intros; apply Hall; set_solver.
Qed.

Lemma prefix_of_agree {A} (l1 l2 : list A) :
  (length l1 ≤ length l2)%nat →
  (∀ k x y, l1 !! k = Some x → l2 !! k = Some y → x = y) → l1 `prefix_of` l2.
Proof.
  revert l2. induction l1 as [|x l1 IH]; intros [|y l2] Hlen Hag; cbn in Hlen;
    [apply prefix_nil|apply prefix_nil|lia|].
  rewrite (Hag 0%nat x y eq_refl eq_refl). apply prefix_cons, IH; [lia|].
  intros k. apply (Hag (S k)).
Qed.

(** The element before the end of a list with a head. *)
Lemma lookup_cons_length {A} (x : A) (l : list A) : (x :: l) !! length l = Some (List.last l x).
Proof.
  destruct l as [|e l _] using rev_ind; [done|].
  rewrite List.last_last, length_app, Nat.add_comm.
  change ((l ++ [e]) !! length l = Some e). by rewrite lookup_app_r, Nat.sub_diag by lia.
Qed.

(** Adding one new element to a filtered duplicate-free list. *)
Lemma length_filter_or {A} (P Q : A → Prop) `{!∀ x, Decision (P x), !∀ x, Decision (Q x)}
    (l : list A) (a : A) :
  NoDup l → a ∈ l → ¬ P a → (∀ x, x ∈ l → Q x ↔ P x ∨ x = a) →
  length (filter Q l) = S (length (filter P l)).
Proof.
  intros Hl Ha HP HQ. change (S _) with (length (a :: filter P l)).
  apply Permutation_length, NoDup_Permutation.
  - by apply NoDup_filter.
  - constructor; [|by apply NoDup_filter]. by intros [? _]%list_elem_of_filter.
  - intros x. rewrite list_elem_of_filter, elem_of_cons, list_elem_of_filter.
    split.
    + intros [H1 H2]. apply HQ in H1; naive_solver.
    + intros [->|[H1 H2]]; split; try done; apply HQ; naive_solver.
Qed.

Lemma slice_get_Ok {A} (l : list A) i x :
  slice_get l i = Ok x ↔ 0 ≤ i ∧ l !! Z.to_nat i = Some x.
Proof. unfold slice_get. case_decide; destruct (l !! Z.to_nat i); naive_solver. Qed.

Lemma slice_get_in {A} (l : list A) i :
  0 ≤ i < Z.of_nat (length l) → ∃ x, slice_get l i = Ok x ∧ l !! Z.to_nat i = Some x.
Proof.
  intros H. destruct (lookup_lt_is_Some_2 l (Z.to_nat i)) as [x Hx]; [lia|].
  exists x. split; [|done]. apply slice_get_Ok. split; [lia|done].
Qed.

Lemma slice_set_Ok {A} (l : list A) i x :
  0 ≤ i < Z.of_nat (length l) → slice_set l i x = Ok (<[Z.to_nat i := x]> l).
Proof. intros H. unfold slice_set. by rewrite decide_True. Qed.

(** * Finite sets *)
Lemma size_union_inter {K} `{Countable K} (A B : gset K) :
  (size (A ∪ B) + size (A ∩ B) = size A + size B)%nat.
Proof.
  rewrite size_union_alt, size_difference_alt, (intersection_comm_L B A).
  assert (size (A ∩ B) ≤ size B)%nat by (apply subseteq_size; set_solver). lia.
Qed.

Lemma size_list_to_set_le {K} `{Countable K} (l : list K) :
  (size (list_to_set l : gset K) ≤ length l)%nat.
Proof.
  induction l as [|x l IH]; simpl; [done|].
  rewrite size_union_alt, size_singleton.
  assert (size (list_to_set l ∖ {[ x ]} : gset K) ≤ size (list_to_set l : gset K))%nat
    by (apply subseteq_size; set_solver). lia.
Qed.

Lemma size_list_to_set_NoDup {K} `{Countable K} (l : list K) :
  size (list_to_set l : gset K) = length l → NoDup l.
Proof.
  induction l as [|x l IH]; simpl; intros Hs; [constructor|].
  pose proof (size_list_to_set_le l). destruct (decide (x ∈ l)) as [Hx|Hx].
  - replace ({[ x ]} ∪ list_to_set l : gset K) with (list_to_set l : gset K) in Hs by set_solver. lia.
  - constructor; [done|]. apply IH.
    rewrite size_union, size_singleton in Hs by set_solver. lia.
Qed.

(** * Signed 64-bit counters *)
Definition i64 (z : Z) : Z := (z + 2 ^ 63) mod 2 ^ 64 - 2 ^ 63.

Lemma i64_id z : - 2 ^ 63 ≤ z < 2 ^ 63 → i64 z = z.
Proof. intros H. unfold i64. rewrite Z.mod_small; lia. Qed.

(** * Sums of integers *)
Definition zsum (l : list Z) : Z := foldr Z.add 0 l.

Lemma zsum_cons x l : zsum (x :: l) = x + zsum l.
Proof. done. Qed.

Lemma zsum_app l1 l2 : zsum (l1 ++ l2) = zsum l1 + zsum l2.
Proof. unfold zsum. induction l1 as [|x l1 IH]; cbn; lia. Qed.

#[global] Instance zsum_perm : Proper ((≡ₚ) ==> (=)) zsum.
Proof. unfold zsum. induction 1; cbn; lia. Qed.

Lemma foldl_add_zsum {A} (f : A → Z) l a : foldl (λ s v, s + f v) a l = a + zsum (f <$> l).
Proof. revert a. induction l as [|x l IH]; intros a; cbn; [unfold zsum; cbn; lia|]. rewrite IH. unfold zsum. cbn. lia. Qed.

Lemma zsum_insert l i x y : l !! i = Some x → zsum (<[i := y]> l) = zsum l - x + y.
Proof.
  revert i. unfold zsum. induction l as [|z l IH]; intros [|i] H; [done..| |].
  - injection H as ->. cbn. lia.
  - change (<[S i := y]> (z :: l)) with (z :: <[i := y]> l). cbn [foldr].
    rewrite (IH i H). lia.
Qed.

Lemma zsum_fmap_add {A} (f g : A → Z) l : zsum ((λ x, f x + g x) <$> l) = zsum (f <$> l) + zsum (g <$> l).
Proof. unfold zsum. induction l as [|x l IH]; cbn in *; lia. Qed.

Lemma zsum_fmap_sub_const {A} (f : A → Z) c l :
  zsum ((λ x, f x - c) <$> l) = zsum (f <$> l) - c * Z.of_nat (length l).
Proof. unfold zsum. induction l as [|x l IH]; cbn [fmap list_fmap foldr length] in *; lia. Qed.

Lemma zsum_lower l lo : Forall (λ x, lo ≤ x) l → lo * Z.of_nat (length l) ≤ zsum l.
Proof. induction 1 as [|x l Hx _ IH]; cbn [length zsum foldr]; [lia|]. unfold zsum in IH. lia. Qed.

Lemma zsum_upper l hi : Forall (λ x, x ≤ hi) l → zsum l ≤ hi * Z.of_nat (length l).
Proof. induction 1 as [|x l Hx _ IH]; cbn [length zsum foldr]; [lia|]. unfold zsum in IH. lia. Qed.

Lemma zsum_nonneg l : Forall (λ x, 0 ≤ x) l → 0 ≤ zsum l.
Proof. intros H. apply zsum_lower in H. lia. Qed.

(** An element is what the others leave of the sum. *)
Lemma zsum_elem_le l lo i x : Forall (λ y, lo ≤ y) l → l !! i = Some x →
  x ≤ zsum l - lo * (Z.of_nat (length l) - 1).
Proof.
  intros Hl Hi. pose proof (lookup_lt_Some _ _ _ Hi).
  pose proof (zsum_insert l i x lo Hi) as E.
  assert (Forall (λ y, lo ≤ y) (<[i := lo]> l)) as Hl' by (apply Forall_insert; [done|lia]).
  apply zsum_lower in Hl'. rewrite length_insert in Hl'. lia.
Qed.

Lemma zsum_elem_nonneg l i x : Forall (λ y, 0 ≤ y) l → l !! i = Some x → x ≤ zsum l.
Proof. intros Hl Hi. pose proof (zsum_elem_le l 0 i x Hl Hi). lia. Qed.
