(* ===== verification/IDSet.v ===== *)
(** Sets of replica IDs (src/sourcecodes/hotstuff/types.go, lines 15-83).

    The Go interface [IDSet] is a record of read operations; [IDSet_ok] states
    what its clients (quorum counting in crypto.go) rely on.  The map-backed
    implementation [idSetMap] is here, the bit field is in Bitfield.v and the
    multi-signature in Signature.v. *)

From S2P Require Import Prelude.

(** [hotstuff.ID] is a [uint32]. *)
Abbreviation ID := Z.

(** ** The interface

    [RangeList] is the order in which [RangeWhile] and [ForEach] visit the
    elements. *)
Record IDSet := mkIDSet {
  Contains : ID → bool;
  RangeList : list ID;
  Len : Z;
}.

(** [RangeWhile] calls [f] on each element until it returns false. *)
Fixpoint range_while {S} (f : ID → M S bool) (l : list ID) : M S unit :=
  match l with
  | [] => ret tt
  | i :: l' => more <- f i ;; if (more : bool) then range_while f l' else ret tt
  end.
Definition RangeWhile {S} (s : IDSet) (f : ID → M S bool) : M S unit :=
  range_while f (RangeList s).

Definition ForEach {S} (s : IDSet) (f : ID → M S unit) : M S unit :=
  range_while (λ i, f i ;;; ret true) (RangeList s).

(** The contract between an implementation and its clients. *)
Record IDSet_ok (s : IDSet) : Prop := {
  ok_nodup : NoDup (RangeList s);
  ok_contains : ∀ i, Contains s i = true ↔ i ∈ RangeList s;
  ok_len : Len s = Z.of_nat (length (RangeList s));
}.

(** ** The map-backed implementation *)
Module idSetMap.
Definition NewIDSet : gset ID := ∅.
Definition Add (s : gset ID) (id : ID) : gset ID := {[ id ]} ∪ s.
Definition Contains (s : gset ID) (id : ID) : bool := bool_decide (id ∈ s).
Definition Len (s : gset ID) : Z := Z.of_nat (size s).
Definition as_IDSet (s : gset ID) : IDSet :=
  {| IDSet.Contains := Contains s; RangeList := elements s; IDSet.Len := Len s |}.

Lemma idSetMap_IDSet_ok s : IDSet_ok (as_IDSet s).
Proof.
  split; simpl.
  - apply NoDup_elements.
  - intros i. unfold Contains. rewrite bool_decide_eq_true. set_solver.
  - unfold Len. done.
Qed.

Lemma Contains_Add s i j : Contains (Add s i) j = bool_decide (i = j) || Contains s j.
Proof. unfold Contains, Add. repeat case_bool_decide; set_solver. Qed.
End idSetMap.

(** [ForEach] is the loop over the iteration order. *)
Lemma ForEach_for_each {S} (s : IDSet) (f : ID → M S unit) σ :
  ForEach s f σ = for_each f (RangeList s) σ.
Proof.
  unfold ForEach. revert σ. induction (RangeList s) as [|i l IH]; intros σ; [done|].
  cbn [range_while for_each]. unfold bind, ret, outcome_bind.
  destruct (f i σ) as [[[] σ']| |]; [|done..]. apply IH.
Qed.
