(* ===== verification/Bitfield.v ===== *)
(** The bit-field set of IDs (src/sourcecodes/hotstuff/crypto/bitfield.go).

    Every slice access and every shift that panics in Go is a [Panic] here;
    the theorems show that IDs from 1 never reach one and that the structure
    implements a set of IDs. *)

From S2P Require Import Prelude IDSet.

Record Bitfield := mkBitfield { bf_data : bytes; bf_len : Z }.

(** [bf.data = append(bf.data, make([]byte, nBytes)...)]; a negative length panics. *)
Definition extend (bf : Bitfield) (nBytes : Z) : outcome Bitfield :=
  if decide (nBytes < 0) then Panic
  else Ok {| bf_data := bf_data bf ++ replicate (Z.to_nat nBytes) 0; bf_len := bf_len bf |}.

(** [bf.data[byteIdx]&(1<<bitIdx) != 0], on bytes. *)
Definition isSet (bf : Bitfield) (byteIdx bitIdx : Z) : outcome bool :=
  if decide (byteIdx < 0) then Panic else
  match bf_data bf !! Z.to_nat byteIdx with
  | None => Panic
  | Some b =>
      if decide (bitIdx < 0) then Panic
      else Ok (negb (bool_decide (Z.land b (u8 (Z.shiftl 1 bitIdx)) = 0)))
  end.

Definition set (bf : Bitfield) (byteIdx bitIdx : Z) : outcome Bitfield :=
  outcome_bind (isSet bf byteIdx bitIdx) (λ present : bool,
    let len := if present then bf_len bf else bf_len bf + 1 in
    match bf_data bf !! Z.to_nat byteIdx with
    | None => Panic
    | Some b =>
        Ok {| bf_data := <[ Z.to_nat byteIdx := Z.lor b (u8 (Z.shiftl 1 bitIdx)) ]> (bf_data bf);
              bf_len := len |}
    end).

(** Go's [/] and [%] truncate towards zero. *)
Definition index (id : ID) : Z * Z :=
  let i := id - 1 in (Z.quot i 8, Z.rem i 8).

Definition id (byteIdx bitIdx : Z) : ID := u32 (1 + byteIdx * 8 + bitIdx).

Definition Add (bf : Bitfield) (i : ID) : outcome Bitfield :=
  let '(byteIdx, bitIdx) := index i in
  outcome_bind
    (if decide (Z.of_nat (length (bf_data bf)) ≤ byteIdx)
     then extend bf (byteIdx + 1 - Z.of_nat (length (bf_data bf)))
     else Ok bf)
    (λ bf', set bf' byteIdx bitIdx).

Definition Contains (bf : Bitfield) (i : ID) : outcome bool :=
  let '(byteIdx, bitIdx) := index i in
  if decide (Z.of_nat (length (bf_data bf)) ≤ byteIdx) then Ok false
  else isSet bf byteIdx bitIdx.

(** The two nested loops of [RangeWhile], as the list of IDs they visit. *)
Definition ids_of_byte (bf : Bitfield) (byteIdx : Z) : list ID :=
  omap (λ bitIdx, match isSet bf byteIdx bitIdx with
                  | Ok true => Some (id byteIdx bitIdx)
                  | _ => None
                  end) (seqZ 0 8).
Definition RangeIDs (bf : Bitfield) : list ID :=
  seqZ 0 (Z.of_nat (length (bf_data bf))) ≫= ids_of_byte bf.

Definition BitfieldFromBytes (b : bytes) : Bitfield :=
  let bf := {| bf_data := b; bf_len := 0 |} in
  {| bf_data := b; bf_len := Z.of_nat (length (RangeIDs bf)) |}.

Definition as_IDSet (bf : Bitfield) : IDSet :=
  {| IDSet.Contains := λ i, match Contains bf i with Ok b => b | _ => false end;
     RangeList := RangeIDs bf; Len := bf_len bf |}.

(** ** Well-formedness: bytes in range, no ID beyond [uint32], and the cached
    length counts the set bits. *)
Definition bit (bf : Bitfield) (i : Z) : bool :=
  match bf_data bf !! Z.to_nat (i / 8) with
  | Some b => Z.testbit b (i mod 8)
  | None => false
  end.

Record wf (bf : Bitfield) : Prop := {
  wf_bytes : Forall is_u8 (bf_data bf);
  wf_size : 8 * Z.of_nat (length (bf_data bf)) < two32;
  wf_len : bf_len bf = Z.of_nat (length (RangeIDs bf));
}.

(** ** Lemmas *)
Lemma land_bit_eq b k :
  0 ≤ k < 8 → negb (bool_decide (Z.land b (u8 (Z.shiftl 1 k)) = 0)) = Z.testbit b k.
Proof.
  intros Hk. unfold u8. rewrite Z.shiftl_1_l, Z.mod_small.
  2: { split; [apply Z.pow_nonneg; lia|]. change 256 with (2 ^ 8). apply Z.pow_lt_mono_r; lia. }
  destruct (Z.testbit b k) eqn:E.
  - rewrite bool_decide_eq_false_2; [done|]. intros H0.
    apply (f_equal (λ z, Z.testbit z k)) in H0.
    rewrite Z.land_spec, Z.pow2_bits_true, E, Z.testbit_0_l in H0; [done|lia].
  - rewrite bool_decide_eq_true_2; [done|]. apply Z.bits_inj'. intros j Hj.
    rewrite Z.land_spec, Z.testbit_0_l, Z.pow2_bits_eqb by lia.
    destruct (Z.eqb_spec k j) as [->|]; [by rewrite E|by rewrite andb_false_r].
Qed.

Lemma isSet_bit bf byteIdx bitIdx :
  0 ≤ byteIdx < Z.of_nat (length (bf_data bf)) → 0 ≤ bitIdx < 8 →
  isSet bf byteIdx bitIdx = Ok (bit bf (8 * byteIdx + bitIdx)).
Proof.
  intros H1 H2. unfold isSet, bit. rewrite decide_False by lia.
  replace ((8 * byteIdx + bitIdx) / 8) with byteIdx
    by (rewrite Z.mul_comm, Z.div_add_l, Z.div_small by lia; lia).
  replace ((8 * byteIdx + bitIdx) mod 8) with bitIdx
    by (rewrite Z.mul_comm, Z.add_comm, Z.mod_add, Z.mod_small by lia; lia).
  destruct (bf_data bf !! Z.to_nat byteIdx) as [b|] eqn:E.
  - rewrite decide_False by lia. by rewrite land_bit_eq.
  - apply lookup_ge_None in E. lia.
Qed.

Lemma bit_out_of_range bf i : 8 * Z.of_nat (length (bf_data bf)) ≤ i → bit bf i = false.
Proof.
  intros H. unfold bit. rewrite lookup_ge_None_2; [done|].
  assert (Z.of_nat (length (bf_data bf)) ≤ i / 8) by (apply Z.div_le_lower_bound; lia). lia.
Qed.

(** The visited IDs are the positions of the set bits, in increasing order. *)
Definition positions (bf : Bitfield) : list Z :=
  filter (λ i, bit bf i = true) (seqZ 0 (8 * Z.of_nat (length (bf_data bf)))).

Lemma ids_of_byte_positions bf k :
  0 ≤ k < Z.of_nat (length (bf_data bf)) →
  ids_of_byte bf k = (λ i, u32 (1 + i)) <$> filter (λ i, bit bf i = true) (seqZ (8 * k) 8).
Proof.
  intros Hk. unfold ids_of_byte.
  rewrite (omap_ext_in _ (λ j, if bit bf (8 * k + j) then Some (id k j) else None)).
  - rewrite (omap_filter_fmap (id k) (λ j, bit bf (8 * k + j))).
    replace (seqZ (8 * k) 8) with (Z.add (8 * k) <$> seqZ 0 8)
      by (rewrite fmap_add_seqZ; f_equal; lia).
    rewrite list_filter_fmap, <-list_fmap_compose.
    apply list_fmap_ext. intros i x _. unfold id, compose. f_equal. lia.
  - intros j Hj%elem_of_seqZ. rewrite isSet_bit by lia. by destruct (bit bf _).
Qed.

Lemma RangeIDs_positions bf : RangeIDs bf = (λ i, u32 (1 + i)) <$> positions bf.
Proof.
  unfold RangeIDs, positions.
  rewrite (bind_ext_in _ (λ k, (λ i, u32 (1 + i)) <$> filter (λ i, bit bf i = true) (seqZ (8 * k) 8))).
  2: { intros k Hk%elem_of_seqZ. apply ids_of_byte_positions. lia. }
  generalize (length (bf_data bf)). intros n. induction n as [|n IH]; [done|].
  rewrite Nat2Z.inj_succ, <-Z.add_1_r, Z.mul_add_distr_l.
  rewrite (seqZ_app 0 (Z.of_nat n)), (seqZ_app 0 (8 * Z.of_nat n)) by lia.
  rewrite bind_app, filter_app, fmap_app, IH. f_equal.
  rewrite (seqZ_cons (0 + Z.of_nat n)) by lia. cbn -[seqZ].
  rewrite (seqZ_nil (Z.succ _)) by lia. cbn -[seqZ]. rewrite app_nil_r.
  by rewrite !Z.add_0_l.
Qed.

Lemma NoDup_positions bf : NoDup (positions bf).
Proof. apply NoDup_filter, NoDup_seqZ. Qed.

Lemma elem_of_positions bf i : i ∈ positions bf ↔ 0 ≤ i ∧ bit bf i = true.
Proof.
  unfold positions. rewrite list_elem_of_filter, elem_of_seqZ.
  destruct (decide (8 * Z.of_nat (length (bf_data bf)) ≤ i)) as [H|H].
  - rewrite bit_out_of_range by done. naive_solver.
  - naive_solver lia.
Qed.

Lemma wf_RangeIDs bf : wf bf → RangeIDs bf = Z.add 1 <$> positions bf.
Proof.
  intros Hwf. rewrite RangeIDs_positions. apply list_fmap_ext.
  intros k i Hi%list_elem_of_lookup_2. unfold positions in Hi.
  apply list_elem_of_filter in Hi as [_ Hi%elem_of_seqZ].
  unfold u32. apply Z.mod_small. pose proof (wf_size _ Hwf). lia.
Qed.

Lemma elem_of_RangeIDs bf i : wf bf → i ∈ RangeIDs bf ↔ 1 ≤ i ∧ bit bf (i - 1) = true.
Proof.
  intros Hwf. rewrite wf_RangeIDs, list_elem_of_fmap by done. split.
  - intros (j & -> & [Hj Hb]%elem_of_positions). replace (1 + j - 1) with j by lia. split; [lia|done].
  - intros [H1 H2]. exists (i - 1). split; [lia|]. apply elem_of_positions. split; [lia|done].
Qed.

Lemma index_pos i : 1 ≤ i → index i = ((i - 1) / 8, (i - 1) mod 8).
Proof. intros H. unfold index. by rewrite Z.quot_div_nonneg, Z.rem_mod_nonneg by lia. Qed.

Lemma div_mod_8 i : 8 * (i / 8) + i mod 8 = i.
Proof. pose proof (Z.div_mod i 8). lia. Qed.

Lemma Contains_bit bf i : 1 ≤ i → Contains bf i = Ok (bit bf (i - 1)).
Proof.
  intros Hi. unfold Contains. rewrite index_pos by done.
  pose proof (Z.mod_pos_bound (i - 1) 8). pose proof (Z.div_pos (i - 1) 8).
  pose proof (div_mod_8 (i - 1)). case_decide.
  - rewrite bit_out_of_range by lia. done.
  - rewrite isSet_bit by lia. by rewrite div_mod_8.
Qed.

(** The write [bf.data[byteIdx] |= 1 << bitIdx] sets exactly one bit. *)
Lemma set_spec bf i :
  0 ≤ i < 8 * Z.of_nat (length (bf_data bf)) →
  ∃ bf', set bf (i / 8) (i mod 8) = Ok bf' ∧
    length (bf_data bf') = length (bf_data bf) ∧
    bf_len bf' = (if bit bf i then bf_len bf else bf_len bf + 1) ∧
    (Forall is_u8 (bf_data bf) → Forall is_u8 (bf_data bf')) ∧
    ∀ j, 0 ≤ j → bit bf' j = bit bf j || bool_decide (j = i).
Proof.
  intros Hi. pose proof (Z.mod_pos_bound i 8) as Hm. pose proof (Z.div_pos i 8).
  assert (Hd : i / 8 < Z.of_nat (length (bf_data bf))) by (apply Z.div_lt_upper_bound; lia).
  unfold set. rewrite isSet_bit by lia. rewrite div_mod_8. cbn [outcome_bind].
  destruct (lookup_lt_is_Some_2 (bf_data bf) (Z.to_nat (i / 8))) as [b Hb]; [lia|].
  rewrite Hb. set (m := u8 (Z.shiftl 1 (i mod 8))).
  assert (Hmask : m = 2 ^ (i mod 8)).
  { unfold m, u8. rewrite Z.shiftl_1_l. apply Z.mod_small.
    split; [apply Z.pow_nonneg; lia|]. change 256 with (2 ^ 8). apply Z.pow_lt_mono_r; lia. }
  eexists. split; [done|]. cbn. split_and!.
  - by rewrite length_insert.
  - by destruct (bit bf i).
  - intros Hall. apply Forall_insert; [done|].
    pose proof (proj1 (Forall_lookup _ _) Hall _ _ Hb) as Hu. unfold is_u8 in *.
    rewrite Hmask. split; [apply Z.lor_nonneg; split; [lia|apply Z.pow_nonneg; lia]|].
    change 256 with (2 ^ 8) in *. apply Z.log2_lt_cancel.
    rewrite Z.log2_lor, Z.log2_pow2, (Z.log2_pow2 8) by (try apply Z.pow_nonneg; lia).
    apply Z.max_lub_lt; [|lia]. destruct (decide (b = 0)) as [->|]; [by rewrite Z.log2_nonpos|].
    apply Z.log2_lt_pow2; lia.
  - intros j Hj. unfold bit at 1. cbn. rewrite list_lookup_insert. case_decide as Hc.
    + assert (j / 8 = i / 8) as Heq by (pose proof (Z.div_pos j 8); lia).
      rewrite Z.lor_spec, Hmask, Z.pow2_bits_eqb by lia. unfold bit. rewrite Heq, Hb.
      f_equal. destruct (Z.eqb_spec (i mod 8) (j mod 8)) as [He|He].
      * rewrite bool_decide_eq_true_2; [done|].
        rewrite <-(div_mod_8 j), <-(div_mod_8 i), Heq, He. done.
      * rewrite bool_decide_eq_false_2; [done|]. congruence.
    + unfold bit. rewrite (bool_decide_eq_false_2 (j = i)); [by rewrite orb_false_r|].
      intros ->. destruct Hc. split; [done|]. lia.
Qed.

Lemma extend_spec bf n :
  0 ≤ n → ∃ bf', extend bf n = Ok bf' ∧
    Z.of_nat (length (bf_data bf')) = Z.of_nat (length (bf_data bf)) + n ∧
    bf_len bf' = bf_len bf ∧
    (Forall is_u8 (bf_data bf) → Forall is_u8 (bf_data bf')) ∧
    ∀ j, 0 ≤ j → bit bf' j = bit bf j.
Proof.
  intros Hn. unfold extend. rewrite decide_False by lia. eexists. split; [done|]. cbn. split_and!.
  - rewrite length_app, length_replicate. lia.
  - done.
  - intros H. apply Forall_app. split; [done|]. apply Forall_replicate. unfold is_u8. lia.
  - intros j Hj. unfold bit. cbn. destruct (bf_data bf !! Z.to_nat (j / 8)) as [b|] eqn:E.
    + by rewrite (lookup_app_l_Some _ _ _ _ E).
    + apply lookup_ge_None in E. rewrite lookup_app_r by done.
      destruct (replicate _ 0 !! _) as [z|] eqn:Ez; [|done].
      apply lookup_replicate in Ez as [-> _]. apply Z.testbit_0_l.
Qed.

Lemma length_positions_ext bf bf' :
  (∀ j, 0 ≤ j → bit bf' j = bit bf j) → length (positions bf') = length (positions bf).
Proof.
  intros H. apply Permutation_length, NoDup_Permutation; [apply NoDup_positions..|].
  intros j. rewrite !elem_of_positions. split; intros [H1 H2]; (split; [done|]).
  - by rewrite <-H.
  - by rewrite H.
Qed.

Lemma length_positions_add bf bf' i :
  0 ≤ i → (∀ j, 0 ≤ j → bit bf' j = bit bf j || bool_decide (j = i)) →
  length (positions bf') = (if bit bf i then length (positions bf) else S (length (positions bf))).
Proof.
  intros Hi H. destruct (bit bf i) eqn:Ei.
  - apply length_positions_ext. intros j Hj. rewrite H by done.
    case_bool_decide; [subst; by rewrite Ei|by rewrite orb_false_r].
  - change (S _) with (length (i :: positions bf)).
    apply Permutation_length, NoDup_Permutation; [apply NoDup_positions| |].
    + constructor; [|apply NoDup_positions]. intros [_ ?]%elem_of_positions. congruence.
    + intros j. rewrite elem_of_cons, !elem_of_positions. split.
      * intros [Hj Hb]. rewrite H in Hb by done. apply orb_true_iff in Hb as [|Hb]; [naive_solver|].
        apply bool_decide_eq_true in Hb. by left.
      * intros [->|[Hj Hb]]; (split; [done|]); rewrite H by done.
        -- by rewrite bool_decide_eq_true_2, orb_true_r.
        -- by rewrite Hb.
Qed.

Lemma Add_bits bf i :
  wf bf → 1 ≤ i ≤ two32 - 8 →
  ∃ bf', Add bf i = Ok bf' ∧ wf bf' ∧
    ∀ j, 0 ≤ j → bit bf' j = bit bf j || bool_decide (j = i - 1).
Proof.
  intros Hwf Hi. unfold Add. rewrite index_pos by lia. set (p := i - 1).
  assert (Hp : 0 ≤ p < two32 - 8) by lia.
  pose proof (Z.div_pos p 8). pose proof (div_mod_8 p). pose proof (Z.mod_pos_bound p 8).
  assert (Hext : ∃ bf1, (if decide (Z.of_nat (length (bf_data bf)) ≤ p / 8)
      then extend bf (p / 8 + 1 - Z.of_nat (length (bf_data bf))) else Ok bf) = Ok bf1 ∧
      p < 8 * Z.of_nat (length (bf_data bf1)) < two32 ∧ bf_len bf1 = bf_len bf ∧
      Forall is_u8 (bf_data bf1) ∧ ∀ j, 0 ≤ j → bit bf1 j = bit bf j).
  { case_decide.
    - destruct (extend_spec bf (p / 8 + 1 - Z.of_nat (length (bf_data bf))))
        as (bf1 & E1 & E2 & E3 & E4 & E5); [lia|].
      exists bf1. split_and!; [done|lia|lia|done|apply E4, Hwf|done].
    - exists bf. pose proof (wf_size _ Hwf). split_and!; [done|lia|lia|done|apply Hwf|done]. }
  destruct Hext as (bf1 & -> & Hlen & Hl & Hb & Hbit). cbn [outcome_bind].
  destruct (set_spec bf1 p) as (bf2 & E1 & E2 & E3 & E4 & E5); [lia|].
  exists bf2. split; [done|].
  assert (Hall : ∀ j, 0 ≤ j → bit bf2 j = bit bf j || bool_decide (j = p)).
  { intros j Hj. rewrite E5, Hbit by done. done. }
  split; [|done]. split.
  - by apply E4.
  - rewrite E2. lia.
  - rewrite RangeIDs_positions, length_fmap, (length_positions_add bf bf2 p) by (done || lia).
    rewrite E3, Hbit, Hl, (wf_len _ Hwf), RangeIDs_positions, length_fmap by lia.
    destruct (bit bf p); lia.
Qed.

Lemma wf_as_IDSet_nodup bf : wf bf → NoDup (RangeIDs bf).
Proof.
  intros Hwf. rewrite wf_RangeIDs by done. apply NoDup_fmap_2; [|apply NoDup_positions].
  intros x y. lia.
Qed.

Lemma BitfieldFromBytes_wf b :
  Forall is_u8 b → 8 * Z.of_nat (length b) < two32 → wf (BitfieldFromBytes b).
Proof. intros H1 H2. split; done. Qed.

(** ** Theorems *)

(** Adding an ID (from 1) to a well-formed bit field returns without
    panicking, keeps the field well formed (the cached [len] is again the
    number of set bits), and the set of IDs it denotes grows by exactly that ID. *)
Theorem Bitfield_Add_refines (bf : Bitfield) (i : ID) :
  wf bf → 1 ≤ i ≤ two32 - 8 →
  ∃ bf', Add bf i = Ok bf' ∧ wf bf' ∧
    (list_to_set (RangeIDs bf') : gset ID) = {[ i ]} ∪ list_to_set (RangeIDs bf) ∧
    bf_len bf' = Z.of_nat (size ({[ i ]} ∪ list_to_set (RangeIDs bf) : gset ID)).
Proof.
  intros Hwf Hi. destruct (Add_bits bf i Hwf Hi) as (bf' & H1 & Hwf' & Hb).
  assert (Hset : (list_to_set (RangeIDs bf') : gset ID) = {[ i ]} ∪ list_to_set (RangeIDs bf)).
  { apply set_eq. intros j. rewrite elem_of_union, elem_of_singleton, !elem_of_list_to_set,
      !elem_of_RangeIDs by done. split.
    - intros [Hj Hbit]. rewrite Hb in Hbit by lia.
      apply orb_true_iff in Hbit as [|Hbit%bool_decide_eq_true]; [by right|left; lia].
    - intros [->|[Hj Hbit]]; (split; [lia|]); rewrite Hb by lia.
      + by rewrite bool_decide_eq_true_2, orb_true_r.
      + by rewrite Hbit. }
  exists bf'. split_and!; [done..|]. rewrite <-Hset.
  rewrite size_list_to_set by (by apply wf_as_IDSet_nodup). apply Hwf'.
Qed.

Example empty_wf : wf {| bf_data := []; bf_len := 0 |}.
Proof. split; [constructor|done|done]. Qed.

Lemma Bitfield_Add_refines_witness :
  ∃ bf', Add {| bf_data := []; bf_len := 0 |} 12 = Ok bf' ∧ wf bf' ∧
    (list_to_set (RangeIDs bf') : gset ID) = {[ 12 ]} ∪ ∅ ∧ bf_len bf' = 1.
Proof.
  destruct (Bitfield_Add_refines {| bf_data := []; bf_len := 0 |} 12) as (bf' & H).
  - apply empty_wf.
  - unfold two32. lia.
  - exists bf'. exact H.
Defined.

(** A well-formed bit field satisfies the [IDSet] contract for IDs from 1:
    [ForEach] visits every member once, [Contains] agrees with the visited IDs
    without panicking, and [Len] is their number. *)
Theorem Bitfield_implements_IDSet (bf : Bitfield) :
  wf bf →
  NoDup (RangeIDs bf) ∧
  (∀ i, 1 ≤ i → Contains bf i = Ok (bool_decide (i ∈ RangeIDs bf))) ∧
  Len (as_IDSet bf) = Z.of_nat (length (RangeIDs bf)).
Proof.
  intros Hwf. split_and!.
  - by apply wf_as_IDSet_nodup.
  - intros i Hi. rewrite Contains_bit by done. f_equal. symmetry.
    destruct (bit bf (i - 1)) eqn:E; [apply bool_decide_eq_true_2|apply bool_decide_eq_false_2];
      rewrite elem_of_RangeIDs by done; naive_solver congruence.
  - apply Hwf.
Qed.

Lemma Bitfield_implements_IDSet_witness :
  wf (BitfieldFromBytes [5; 128]) ∧
  RangeIDs (BitfieldFromBytes [5; 128]) = [1; 3; 16] ∧
  Contains (BitfieldFromBytes [5; 128]) 16
    = Ok (bool_decide (16 ∈ RangeIDs (BitfieldFromBytes [5; 128]))).
Proof.
  assert (Hwf : wf (BitfieldFromBytes [5; 128])).
  { apply BitfieldFromBytes_wf; [|done]. repeat constructor; done. }
  destruct (Bitfield_implements_IDSet _ Hwf) as (_ & H & _).
  split_and!; [exact Hwf|reflexivity|apply H; lia].
Defined.

(** ID 0 has no bit: [index] yields a negative shift count, which panics. *)
Lemma Add_zero_panics bf : Add bf 0 = Panic.
Proof.
  unfold Add, index. cbn [Z.quot Z.rem]. change (Z.quot (0 - 1) 8) with 0. change (Z.rem (0 - 1) 8) with (-1).
  case_decide.
  - unfold extend. rewrite decide_False by lia. cbn [outcome_bind]. unfold set, isSet. cbn.
    by destruct (_ !! _).
  - cbn. unfold set, isSet. cbn. by destruct (_ !! _).
Qed.
