(* ===== verification/Signature.v ===== *)
(** Quorum signatures (crypto/multisignature.go, and the signature types of
    crypto/ecdsa/ecdsa.go, crypto/eddsa/eddsa.go and crypto/bls12/bls12.go of
    src/sourcecodes/hotstuff).

    A [hotstuff.QuorumSignature] is one of three dynamic types, so it is an
    inductive type with three constructors; a nil interface value is [None] of
    [option QuorumSignature]. *)

From S2P Require Import Prelude IDSet.
From S2P Require Bitfield.

(** The interface [crypto.Signature]. *)
Class Signature (T : Type) := {
  Signer : T → ID;
  ToBytes : T → bytes;
}.

(** ** ECDSA and EdDSA partial signatures *)
Record ECDSASignature := mkECDSA { ec_r : Z; ec_s : Z; ec_signer : ID }.
#[export] Instance ECDSASignature_eq_dec : EqDecision ECDSASignature.
Proof. solve_decision. Defined.

Definition ECDSA_ToBytes (sig : ECDSASignature) : bytes :=
  be_bytes (ec_r sig) ++ be_bytes (ec_s sig).
#[export] Instance ECDSA_Signature : Signature ECDSASignature :=
  {| Signer := ec_signer; ToBytes := ECDSA_ToBytes |}.

Record EDDSASignature := mkEDDSA { ed_signer : ID; ed_sign : bytes }.
#[export] Instance EDDSASignature_eq_dec : EqDecision EDDSASignature.
Proof. solve_decision. Defined.

#[export] Instance EDDSA_Signature : Signature EDDSASignature :=
  {| Signer := ed_signer; ToBytes := ed_sign |}.

(** ** [Multi[T]]: a map from the signer to its signature *)
Abbreviation Multi T := (gmap ID T).

Module Multi.
Section Multi.
Context {T : Type} `{!Signature T}.

Definition Restore (signatures : list T) : Multi T :=
  foldl (λ sig s, <[ Signer s := s ]> sig) ∅ signatures.

(** The signers are collected in map order and sorted; [sig[id]] is then
    looked up.  A signer that is not a key would dereference a nil pointer;
    [Multi_wf] below rules it out for every value the code builds. *)
Definition order (sig : Multi T) : list ID :=
  merge_sort Z.le ((λ kv, Signer kv.2) <$> map_to_list sig).
Definition ToBytes (sig : Multi T) : bytes :=
  order sig ≫= λ id, match sig !! id with
                     | Some s => Signature.ToBytes s
                     | None => []
                     end.

Definition Contains (sig : Multi T) (id : ID) : bool := bool_decide (is_Some (sig !! id)).
Definition Len (sig : Multi T) : Z := Z.of_nat (size sig).
Definition as_IDSet (sig : Multi T) : IDSet :=
  {| IDSet.Contains := Contains sig; RangeList := (map_to_list sig).*1; IDSet.Len := Len sig |}.

(** Every entry is stored under its signer. *)
Definition wf (sig : Multi T) : Prop := map_Forall (λ id s, Signer s = id) sig.

Lemma Multi_IDSet_ok sig : IDSet_ok (as_IDSet sig).
Proof.
  split; simpl.
  - apply NoDup_fst_map_to_list.
  - intros i. unfold Contains. rewrite bool_decide_eq_true, list_elem_of_fmap. split.
    + intros [s Hs]. exists (i, s). by rewrite elem_of_map_to_list.
    + intros ([j s] & -> & Hin%elem_of_map_to_list). by exists s.
  - unfold Len. by rewrite length_fmap, length_map_to_list.
Qed.

Lemma wf_insert sig s : wf sig → wf (<[ Signer s := s ]> sig).
Proof. intros H. by apply map_Forall_insert_2. Qed.

Lemma wf_Restore l : wf (Restore l).
Proof.
  unfold Restore. cut (∀ m, wf m → wf (foldl (λ sig s, <[ Signer s := s ]> sig) m l)).
  { intros H. apply H. apply map_Forall_empty. }
  induction l as [|s l IH]; intros m Hm; simpl; [done|]. by apply IH, wf_insert.
Qed.

(** The nil-pointer case of [ToBytes] is unreachable on well-formed maps. *)
Lemma wf_order_lookup sig id : wf sig → id ∈ order sig → is_Some (sig !! id).
Proof.
  intros Hwf. unfold order. rewrite merge_sort_Permutation, list_elem_of_fmap.
  intros ([k s] & -> & Hin%elem_of_map_to_list). cbn.
  rewrite (Hwf _ _ Hin). by exists s.
Qed.

(** [Restore] of the values of a well-formed map is that map, in whatever
    order the values are visited. *)
Lemma Restore_lookup l id :
  NoDup (Signer <$> l) →
  Restore l !! id = list_find (λ s, Signer s = id) l ≫= (λ p, Some p.2).
Proof.
  unfold Restore. intros Hnd.
  assert (Hgen : ∀ m : Multi T, foldl (λ sig s, <[ Signer s := s ]> sig) m l !! id =
    match list_find (λ s, Signer s = id) l with Some p => Some p.2 | None => m !! id end).
  { induction l as [|s l IH]; intros m; [done|].
    apply NoDup_cons in Hnd as [Hs Hnd]. simpl. rewrite IH by done.
    destruct (decide (Signer s = id)) as [<-|Hne].
    - destruct (list_find (λ s0, Signer s0 = Signer s) l) as [[k x]|] eqn:E; simpl.
      + apply list_find_Some in E as (E1 & E2 & _). destruct Hs.
        rewrite <-E2. apply list_elem_of_fmap. exists x. split; [done|].
        by eapply list_elem_of_lookup_2.
      + apply lookup_insert_eq.
    - destruct (list_find (λ s0, Signer s0 = id) l) as [[k x]|]; simpl; [done|].
      by rewrite lookup_insert_ne. }
  rewrite Hgen. by destruct (list_find _ l).
Qed.

Lemma Restore_values sig l :
  wf sig → l ≡ₚ (map_to_list sig).*2 → Restore l = sig.
Proof.
  intros Hwf Hl.
  assert (Hsig : Signer <$> l ≡ₚ (map_to_list sig).*1).
  { rewrite Hl, <-list_fmap_compose. erewrite list_fmap_ext; [done|].
    intros k [i s] Hk%list_elem_of_lookup_2%elem_of_map_to_list. by apply Hwf in Hk. }
  apply map_eq. intros i. rewrite Restore_lookup.
  2: { rewrite Hsig. apply NoDup_fst_map_to_list. }
  destruct (list_find (λ s, Signer s = i) l) as [[k s]|] eqn:E.
  - apply list_find_Some in E as (E1 & E2 & _). cbn.
    apply list_elem_of_lookup_2 in E1. rewrite Hl in E1.
    apply list_elem_of_fmap in E1 as ([j s'] & -> & Hin%elem_of_map_to_list).
    cbn in *. pose proof (Hwf _ _ Hin) as Hw. cbn in Hw. congruence.
  - cbn. symmetry. destruct (sig !! i) as [s|] eqn:Ei; [|done].
    apply list_find_None in E. rewrite Forall_forall in E.
    exfalso. eapply (E s).
    + rewrite Hl. apply list_elem_of_fmap. exists (i, s). by rewrite elem_of_map_to_list.
    + by apply Hwf in Ei.
Qed.
End Multi.
End Multi.

(** ** BLS aggregate signatures: the compressed point and the participants *)
Record AggregateSignature := mkAggSig { bls_sig : bytes; bls_participants : Bitfield.Bitfield }.
#[export] Instance Bitfield_eq_dec : EqDecision Bitfield.Bitfield.
Proof. solve_decision. Defined.
#[export] Instance AggregateSignature_eq_dec : EqDecision AggregateSignature.
Proof. solve_decision. Defined.

(** ** [hotstuff.QuorumSignature] *)
Inductive QuorumSignature :=
| SigECDSA (ms : Multi ECDSASignature)
| SigEDDSA (ms : Multi EDDSASignature)
| SigBLS12 (agg : AggregateSignature).
#[export] Instance QuorumSignature_eq_dec : EqDecision QuorumSignature.
Proof. solve_decision. Defined.

Definition Participants (sig : QuorumSignature) : IDSet :=
  match sig with
  | SigECDSA ms => Multi.as_IDSet ms
  | SigEDDSA ms => Multi.as_IDSet ms
  | SigBLS12 agg => Bitfield.as_IDSet (bls_participants agg)
  end.

Definition QuorumSignature_ToBytes (sig : QuorumSignature) : bytes :=
  match sig with
  | SigECDSA ms => Multi.ToBytes ms
  | SigEDDSA ms => Multi.ToBytes ms
  | SigBLS12 agg => bls_sig agg
  end.

(** Well-formed signatures: what [Sign], [Combine] and [Restore] build. *)
Definition QuorumSignature_wf (sig : QuorumSignature) : Prop :=
  match sig with
  | SigECDSA ms => Multi.wf ms
  | SigEDDSA ms => Multi.wf ms
  | SigBLS12 agg => Bitfield.wf (bls_participants agg)
  end.

(** The iteration order of the participants has no duplicates and [Len] counts it. *)
Lemma Participants_counts sig :
  QuorumSignature_wf sig →
  NoDup (RangeList (Participants sig)) ∧
  Len (Participants sig) = Z.of_nat (length (RangeList (Participants sig))).
Proof.
  destruct sig as [ms|ms|agg]; simpl; intros Hwf.
  - destruct (Multi.Multi_IDSet_ok ms) as [? _ ?]. done.
  - destruct (Multi.Multi_IDSet_ok ms) as [? _ ?]. done.
  - split; [by apply Bitfield.wf_as_IDSet_nodup|apply Hwf].
Qed.
