(* ===== verification/Types.v ===== *)
(** The protocol data of HotStuff (hotstuff.go, types.go, block.go, events.go,
    genesis.go, helper.go and modules/options.go of src/sourcecodes/hotstuff). *)

From S2P Require Import Prelude IDSet Signature.

(** [View] is a [uint64], [Hash] a 32-byte array, [Command] an immutable byte string. *)
Abbreviation View := Z.
Abbreviation Hash := bytes.
Abbreviation Command := bytes.

Definition ID_ToBytes (id : ID) : bytes := le_bytes 4 id.
Definition View_ToBytes (v : View) : bytes := le_bytes 8 v.

(** [Hash{}] *)
Definition zero_hash : Hash := replicate 32 0.

(** ** Certificates *)
Record PartialCert := mkPartialCert {
  pc_signer : ID;
  pc_signature : option QuorumSignature;
  pc_blockHash : Hash;
}.

(** The signer is the first participant visited; a nil signature panics. *)
Definition NewPartialCert (signature : option QuorumSignature) (blockHash : Hash)
    : outcome PartialCert :=
  match signature with
  | None => Panic
  | Some sig =>
      let signer := default 0 (head (RangeList (Participants sig))) in
      Ok {| pc_signer := signer; pc_signature := signature; pc_blockHash := blockHash |}
  end.

(** A nil signature panics. *)
Definition PartialCert_ToBytes (pc : PartialCert) : outcome bytes :=
  match pc_signature pc with
  | None => Panic
  | Some sig => Ok (pc_blockHash pc ++ QuorumSignature_ToBytes sig)
  end.

Record QuorumCert := mkQuorumCert {
  qc_signature : option QuorumSignature;
  qc_view : View;
  qc_hash : Hash;
}.
#[export] Instance QuorumCert_eq_dec : EqDecision QuorumCert.
Proof. solve_decision. Defined.

(** [QuorumCert{}] *)
Definition zero_QuorumCert : QuorumCert := mkQuorumCert None 0 zero_hash.

Definition sig_bytes (s : option QuorumSignature) : bytes :=
  match s with Some sig => QuorumSignature_ToBytes sig | None => [] end.

Definition QuorumCert_ToBytes (qc : QuorumCert) : bytes :=
  View_ToBytes (qc_view qc) ++ qc_hash qc ++ sig_bytes (qc_signature qc).

Definition QuorumCert_Equals (qc other : QuorumCert) : bool :=
  if decide (qc_view qc ≠ qc_view other) then false
  else if decide (qc_hash qc ≠ qc_hash other) then false
  else match qc_signature qc, qc_signature other with
       | Some s1, Some s2 =>
           bool_decide (QuorumSignature_ToBytes s1 = QuorumSignature_ToBytes s2)
       | None, None => true
       | _, _ => false
       end.

Record TimeoutCert := mkTimeoutCert {
  tc_signature : option QuorumSignature;
  tc_view : View;
}.
#[export] Instance TimeoutCert_eq_dec : EqDecision TimeoutCert.
Proof. solve_decision. Defined.

Definition TimeoutCert_ToBytes (tc : TimeoutCert) : outcome bytes :=
  match tc_signature tc with
  | None => Panic
  | Some sig => Ok (View_ToBytes (tc_view tc) ++ QuorumSignature_ToBytes sig)
  end.

Record AggregateQC := mkAggregateQC {
  agg_qcs : gmap ID QuorumCert;
  agg_sig : option QuorumSignature;
  agg_view : View;
}.
#[export] Instance AggregateQC_eq_dec : EqDecision AggregateQC.
Proof. solve_decision. Defined.

(** ** [SyncInfo]: the highest certificates a replica knows *)
Record SyncInfo := mkSyncInfo {
  si_qc : option QuorumCert;
  si_tc : option TimeoutCert;
  si_aggQC : option AggregateQC;
}.
#[export] Instance SyncInfo_eq_dec : EqDecision SyncInfo.
Proof. solve_decision. Defined.

Definition NewSyncInfo : SyncInfo := mkSyncInfo None None None.
Definition WithQC (si : SyncInfo) (qc : QuorumCert) : SyncInfo :=
  mkSyncInfo (Some qc) (si_tc si) (si_aggQC si).
Definition WithTC (si : SyncInfo) (tc : TimeoutCert) : SyncInfo :=
  mkSyncInfo (si_qc si) (Some tc) (si_aggQC si).
Definition WithAggQC (si : SyncInfo) (aggQC : AggregateQC) : SyncInfo :=
  mkSyncInfo (si_qc si) (si_tc si) (Some aggQC).

(** ** Blocks

    [b_hash] caches the hash, as in the code. *)
Record Block := mkBlock {
  b_hash : Hash;
  b_parent : Hash;
  b_proposer : ID;
  b_cmd : Command;
  b_cert : QuorumCert;
  b_view : View;
}.
#[export] Instance Block_eq_dec : EqDecision Block.
Proof. solve_decision. Defined.

Definition Block_ToBytes (b : Block) : bytes :=
  b_parent b ++ le_bytes 4 (b_proposer b) ++ le_bytes 8 (b_view b) ++ b_cmd b
    ++ QuorumCert_ToBytes (b_cert b).

(** SHA-256 is a parameter: the code calls crypto/sha256. *)
Class Sha256 := sha256 : bytes → Hash.

Definition NewBlock `{Sha256} (parent : Hash) (cert : QuorumCert) (cmd : Command)
    (view : View) (proposer : ID) : Block :=
  let b := mkBlock zero_hash parent proposer cmd cert view in
  mkBlock (sha256 (Block_ToBytes b)) parent proposer cmd cert view.

Definition GetGenesis `{Sha256} : Block := NewBlock zero_hash zero_QuorumCert [] 0 0.

(** A block as every constructor of the program makes it: its cached hash is
    the hash of its bytes. *)
Definition Block_hashed `{Sha256} (b : Block) : Prop := b_hash b = sha256 (Block_ToBytes b).

(** ** Messages *)
Record ProposeMsg := mkProposeMsg {
  pm_ID : ID;
  pm_Block : Block;
  pm_AggregateQC : option AggregateQC;
}.

Record VoteMsg := mkVoteMsg {
  vm_ID : ID;
  vm_PartialCert : PartialCert;
  vm_Deferred : bool;
}.

Record TimeoutMsg := mkTimeoutMsg {
  tm_ID : ID;
  tm_View : View;
  tm_ViewSignature : option QuorumSignature;
  tm_MsgSignature : option QuorumSignature;
  tm_SyncInfo : SyncInfo;
}.

Definition TimeoutMsg_ToBytes (timeout : TimeoutMsg) : bytes :=
  ID_ToBytes (tm_ID timeout) ++ View_ToBytes (tm_View timeout)
    ++ match si_qc (tm_SyncInfo timeout) with
       | Some qc => QuorumCert_ToBytes qc
       | None => []
       end.

Record NewViewMsg := mkNewViewMsg { nv_ID : ID; nv_SyncInfo : SyncInfo }.

(** ** Quorum arithmetic (helper.go); Go's [/] truncates *)
Definition NumFaulty (n : Z) : Z := Z.quot (n - 1) 3.
Definition QuorumSize (n : Z) : Z := n - NumFaulty n.

(** ** The runtime options the handlers read (modules/options.go) *)
Record Options := mkOptions {
  opt_id : ID;
  opt_shouldUseAggQC : bool;
  opt_shouldUseHandel : bool;
  opt_shouldVerifyVotesSync : bool;
  opt_sharedRandomSeed : Z;
}.

(** ** Lemmas and theorems *)

Lemma Block_hashed_NewBlock `{Sha256} parent cert cmd view proposer :
  Block_hashed (NewBlock parent cert cmd view proposer).
Proof. done. Qed.

Lemma NumFaulty_pos n : 1 ≤ n → NumFaulty n = (n - 1) / 3.
Proof. intros H. unfold NumFaulty. by rewrite Z.quot_div_nonneg by lia. Qed.

Lemma QuorumSize_bounds n :
  1 ≤ n → 0 ≤ NumFaulty n ∧ 3 * NumFaulty n < n ∧ QuorumSize n = n - NumFaulty n.
Proof.
  intros H. rewrite NumFaulty_pos by done. split_and!.
  - apply Z.div_pos; lia.
  - pose proof (Z.mul_div_le (n - 1) 3). lia.
  - unfold QuorumSize. by rewrite NumFaulty_pos.
Qed.

Lemma quorum_overlap (n : Z) (U A B : gset ID) :
  1 ≤ n → Z.of_nat (size U) = n → A ⊆ U → B ⊆ U →
  QuorumSize n ≤ Z.of_nat (size A) → QuorumSize n ≤ Z.of_nat (size B) →
  NumFaulty n < Z.of_nat (size (A ∩ B)).
Proof.
  intros Hn HU HA HB HqA HqB. destruct (QuorumSize_bounds n Hn) as (H1 & H2 & H3).
  assert (size (A ∪ B) ≤ size U)%nat by (apply subseteq_size; set_solver).
  pose proof (size_union_inter A B). lia.
Qed.

(** Any two quorums (sets of [QuorumSize n] of the [n] configured replicas)
    share a replica that is not faulty, whenever at most [NumFaulty n] replicas
    are faulty. *)
Theorem quorum_intersection (n : Z) (U F A B : gset ID) :
  1 ≤ n → Z.of_nat (size U) = n → Z.of_nat (size F) ≤ NumFaulty n → A ⊆ U → B ⊆ U →
  QuorumSize n ≤ Z.of_nat (size A) → QuorumSize n ≤ Z.of_nat (size B) →
  ∃ i, i ∈ A ∧ i ∈ B ∧ i ∉ F.
Proof.
  intros Hn HU HF HA HB HqA HqB.
  pose proof (quorum_overlap n U A B Hn HU HA HB HqA HqB) as Hov.
  destruct (set_choose_or_empty ((A ∩ B) ∖ F)) as [[i Hi]|Hempty]; [set_solver|].
  assert (size (A ∩ B) ≤ size F)%nat by (apply subseteq_size; set_solver). lia.
Qed.

Lemma quorum_intersection_witness :
  ∃ i, i ∈ ({[ 1; 2; 3 ]} : gset ID) ∧ i ∈ ({[ 2; 3; 4 ]} : gset ID) ∧ i ∉ ({[ 2 ]} : gset ID).
Proof.
  apply (quorum_intersection 4 {[ 1; 2; 3; 4 ]} {[ 2 ]} {[ 1; 2; 3 ]} {[ 2; 3; 4 ]});
    try done; try set_solver; vm_compute; congruence.
Defined.

(** [QuorumSize] is the documented [2f + 1] exactly for configurations of
    [3f + 1] replicas; for every other size it is larger. *)
Theorem QuorumSize_vs_2f1 (n : Z) :
  1 ≤ n →
  2 * NumFaulty n + 1 ≤ QuorumSize n ∧
  (QuorumSize n = 2 * NumFaulty n + 1 ↔ n mod 3 = 1).
Proof.
  intros Hn. unfold QuorumSize. rewrite NumFaulty_pos by done.
  pose proof (Z.div_mod (n - 1) 3). pose proof (Z.mod_pos_bound (n - 1) 3).
  pose proof (Z.div_mod n 3). pose proof (Z.mod_pos_bound n 3).
  split; [lia|]. split; intros; lia.
Qed.

Lemma QuorumSize_vs_2f1_witness : QuorumSize 5 = 4 ∧ 2 * NumFaulty 5 + 1 = 3 ∧ 2 * NumFaulty 4 + 1 ≤ QuorumSize 4.
Proof. split_and!; [reflexivity..|]. apply (QuorumSize_vs_2f1 4). lia. Defined.

(** The hash input determines the block once the command length is fixed: the
    only ambiguity is the boundary between the command and the certificate. *)
Lemma Block_ToBytes_fields b1 b2 :
  length (b_parent b1) = 32%nat → length (b_parent b2) = 32%nat →
  length (qc_hash (b_cert b1)) = 32%nat → length (qc_hash (b_cert b2)) = 32%nat →
  is_u32 (b_proposer b1) → is_u32 (b_proposer b2) →
  is_u64 (b_view b1) → is_u64 (b_view b2) →
  is_u64 (qc_view (b_cert b1)) → is_u64 (qc_view (b_cert b2)) →
  length (b_cmd b1) = length (b_cmd b2) →
  Block_ToBytes b1 = Block_ToBytes b2 →
  b_parent b1 = b_parent b2 ∧ b_proposer b1 = b_proposer b2 ∧ b_view b1 = b_view b2 ∧
  b_cmd b1 = b_cmd b2 ∧ qc_view (b_cert b1) = qc_view (b_cert b2) ∧
  qc_hash (b_cert b1) = qc_hash (b_cert b2) ∧
  sig_bytes (qc_signature (b_cert b1)) = sig_bytes (qc_signature (b_cert b2)).
Proof.
  unfold is_u32, is_u64, two32, two64. intros Hp1 Hp2 Hh1 Hh2 ?????? Hc H.
  unfold Block_ToBytes, QuorumCert_ToBytes, View_ToBytes in H.
  apply app_inj_1 in H as [Ep H]; [|lia].
  apply app_inj_1 in H as [Epr H]; [|by rewrite !length_le_bytes].
  apply app_inj_1 in H as [Ev H]; [|by rewrite !length_le_bytes].
  apply app_inj_1 in H as [Ec H]; [|done].
  apply app_inj_1 in H as [Eqv H]; [|by rewrite !length_le_bytes].
  apply app_inj_1 in H as [Eqh H]; [|lia].
  apply le_bytes_inj in Epr; [|done..]. apply le_bytes_inj in Ev; [|done..].
  apply le_bytes_inj in Eqv; [|done..]. done.
Qed.

(** The hash of a block does not commit to its command: two blocks with
    different commands and different certificates have the same bytes, hence
    the same hash under every hash function, because the command is written
    without its length. *)
Theorem Block_ToBytes_ambiguous :
  ∃ parent cert1 cmd1 cert2 cmd2 view proposer,
    cmd1 ≠ cmd2 ∧ cert1 ≠ cert2 ∧
    length (qc_hash cert1) = 32%nat ∧ length (qc_hash cert2) = 32%nat ∧
    ∀ H : Sha256,
      b_hash (NewBlock parent cert1 cmd1 view proposer)
        = b_hash (NewBlock parent cert2 cmd2 view proposer).
Proof.
  set (h1 := seqZ 100 32). set (tail := seqZ 1 40).
  set (sig := SigECDSA {[ 1 := mkECDSA (be_value tail) 0 1 ]}).
  exists zero_hash, (mkQuorumCert (Some sig) 7 h1), [],
    (mkQuorumCert None (le_value (take 8 tail)) (drop 8 tail)), (le_bytes 8 7 ++ h1), 9, 1.
  split_and!; [done| |done|done|].
  - intros E. by apply (f_equal qc_signature) in E.
  - intros H. unfold NewBlock, b_hash. f_equal.
Qed.
