(* ===== verification/Samples.v ===== *)
(** Concrete instances of the parameters, for the witnesses: a small hash
    function in the place of SHA-256, a signature scheme that can be computed,
    and blocks built with them. *)

From S2P Require Import Prelude IDSet Signature Types.

Definition sample_sha256 : Sha256 :=
  λ bs, le_bytes 32 (foldl (λ a b, (a * 257 + b + 1) mod (2 ^ 61 - 1)) 7 bs).

(** The key of replica [i] is [i]; a signature repeats the key and the hash. *)
Definition sample_replicas : gmap ID Z := list_to_map ((λ i, (i, i)) <$> [1; 2; 3; 4]).
Definition sample_sign (i : ID) (h : Hash) : option (Z * Z) := Some (i, le_value h).
Definition sample_verify (pk : Z) (h : Hash) (r s : Z) : bool :=
  bool_decide (r = pk) && bool_decide (s = le_value h).

Section sample_blocks.
#[local] Existing Instance sample_sha256.

(** The certificate of [b] signed by replicas 1, 2 and 3. *)
Definition sample_signature (b : Block) : QuorumSignature :=
  SigECDSA (Multi.Restore
    ((λ i, mkECDSA i (le_value (sha256 (Block_ToBytes b))) i) <$> [1; 2; 3])).
Definition sample_genesis : Block := GetGenesis.
Definition sample_genesis_qc : QuorumCert := mkQuorumCert None 0 (b_hash sample_genesis).
Definition sample_qc (b : Block) : QuorumCert :=
  mkQuorumCert (Some (sample_signature b)) (b_view b) (b_hash b).

(** A proposal on top of [parent], which it certifies. *)
Definition sample_child (parent : Block) (view : View) (proposer : ID) : Block :=
  NewBlock (b_hash parent)
    (if decide (b_view parent = 0) then sample_genesis_qc else sample_qc parent)
    [view] view proposer.
End sample_blocks.

(** A chain of three blocks on the genesis block and a fork at view 4. *)
Definition sample_b1 : Block := sample_child sample_genesis 1 2.
Definition sample_b2 : Block := sample_child sample_b1 2 3.
Definition sample_b3 : Block := sample_child sample_b2 3 4.
Definition sample_fork : Block := sample_child sample_b1 4 1.
Definition sample_chain : list Block :=
  [sample_genesis; sample_b1; sample_b2; sample_b3; sample_fork].
