(* ===== verification/Ecdsa.v ===== *)
(** The ECDSA implementation of [modules.CryptoBase]
    (src/sourcecodes/hotstuff/crypto/ecdsa/ecdsa.go, crypto/errors.go).

    The curve operations of crypto/ecdsa are parameters: [ecdsa_sign] is the
    outcome of signing with this replica's key, [ecdsa_verify] the check of
    one signature.  The goroutines of [Verify] and [BatchVerify] only write to
    a channel whose values are all read back and conjoined, so they are a
    conjunction over the entries of the map. *)

From S2P Require Import Prelude IDSet Signature Types.

Inductive CryptoErr := ErrSign | ErrCombineMultiple | ErrCombineOverlap.

(** ** The interface [modules.CryptoBase] (modules/cryptoiface.go)

    A nil signature is [None]. *)
Class CryptoBase := {
  Sign : bytes → CryptoErr + QuorumSignature;
  Combine : list (option QuorumSignature) → outcome (CryptoErr + QuorumSignature);
  Verify : option QuorumSignature → bytes → outcome bool;
  BatchVerify : option QuorumSignature → gmap ID bytes → outcome bool;
}.

Section Ecdsa.
Context `{SHA : Sha256} {PublicKey : Type}.
Context (selfID : ID) (replicas : gmap ID PublicKey).
Context (ecdsa_sign : Hash → option (Z * Z)).
Context (ecdsa_verify : PublicKey → Hash → Z → Z → bool).

Definition ec_Sign (message : bytes) : CryptoErr + QuorumSignature :=
  match ecdsa_sign (sha256 message) with
  | None => inl ErrSign
  | Some (r, s) => inr (SigECDSA {[ selfID := mkECDSA r s selfID ]})
  end.

(** The inner loop of [Combine]: copy the entries, stop at a duplicate. *)
Fixpoint add_entries {T} (ts : Multi T) (l : list (ID * T)) : option (Multi T) :=
  match l with
  | [] => Some ts
  | (id, s) :: l' =>
      match ts !! id with
      | Some _ => None
      | None => add_entries (<[ id := s ]> ts) l'
      end
  end.

Fixpoint combine_loop (ts : Multi ECDSASignature) (signatures : list (option QuorumSignature))
    : outcome (CryptoErr + QuorumSignature) :=
  match signatures with
  | [] => Ok (inr (SigECDSA ts))
  | Some (SigECDSA sig2) :: rest =>
      match add_entries ts (map_to_list sig2) with
      | None => Ok (inl ErrCombineOverlap)
      | Some ts' => combine_loop ts' rest
      end
  | _ :: _ => Panic  (* logger.Panicf: incompatible type *)
  end.

Definition ec_Combine (signatures : list (option QuorumSignature))
    : outcome (CryptoErr + QuorumSignature) :=
  if decide (length signatures < 2)%nat then Ok (inl ErrCombineMultiple)
  else combine_loop ∅ signatures.

Definition verifySingle (sig : ECDSASignature) (hash : Hash) : bool :=
  match replicas !! Signer sig with
  | None => false
  | Some pk => ecdsa_verify pk hash (ec_r sig) (ec_s sig)
  end.

Definition ec_Verify (signature : option QuorumSignature) (message : bytes) : outcome bool :=
  match signature with
  | Some (SigECDSA s) =>
      if decide (Multi.Len s = 0) then Ok false
      else Ok (forallb (λ kv, verifySingle kv.2 (sha256 message)) (map_to_list s))
  | _ => Panic
  end.

(** Every participant needs a message in the batch; [set] holds the hashes. *)
Definition ec_BatchVerify (signature : option QuorumSignature) (batch : gmap ID bytes)
    : outcome bool :=
  match signature with
  | Some (SigECDSA s) =>
      if decide (Multi.Len s = 0) then Ok false
      else
        match mapM (λ kv : ID * ECDSASignature,
                      message ← batch !! kv.1; Some (kv.2, sha256 message)) (map_to_list s) with
        | None => Ok false
        | Some pairs =>
            let set : gset Hash := list_to_set (pairs.*2) in
            let valid := forallb (λ p, verifySingle p.1 p.2) pairs in
            Ok (valid && bool_decide (size set = size batch))
        end
  | _ => Panic
  end.

#[local] Instance ecdsaBase : CryptoBase :=
  {| Sign := ec_Sign; Combine := ec_Combine; Verify := ec_Verify; BatchVerify := ec_BatchVerify |}.

(** ** Lemmas *)
Lemma add_entries_spec {T} (ts : Multi T) l ts' :
  NoDup l.*1 →
  add_entries ts l = Some ts' ↔
    (∀ id, id ∈ l.*1 → ts !! id = None) ∧ ts' = list_to_map l ∪ ts.
Proof.
  intros Hnd. revert ts. induction l as [|[id s] l IH]; intros ts; simpl.
  { split; [intros [= <-]; split; [set_solver|by rewrite (left_id_L ∅ (∪))]|].
    intros [_ ->]. by rewrite (left_id_L ∅ (∪)). }
  apply NoDup_cons in Hnd as [Hid Hnd]. destruct (ts !! id) as [x|] eqn:E.
  { split; [done|]. intros [Hn _]. rewrite (Hn id) in E; [done|]. set_solver. }
  rewrite IH by done. split.
  - intros [Hn ->]. split.
    + intros i [->|Hi]%elem_of_cons; [done|].
      specialize (Hn i Hi). rewrite lookup_insert_ne in Hn; [done|]. set_solver.
    + rewrite <-insert_union_r, insert_union_l; [done|]. by apply not_elem_of_list_to_map.
  - intros [Hn ->]. split.
    + intros i Hi. rewrite lookup_insert_ne; [apply Hn; set_solver|]. set_solver.
    + rewrite <-insert_union_r, insert_union_l; [done|]. by apply not_elem_of_list_to_map.
Qed.

Lemma add_entries_map {T} (ts m : Multi T) :
  add_entries ts (map_to_list m) =
    if decide (m ##ₘ ts) then Some (m ∪ ts) else None.
Proof.
  destruct (add_entries ts (map_to_list m)) as [ts'|] eqn:E.
  - apply add_entries_spec in E as [Hn ->]; [|apply NoDup_fst_map_to_list].
    rewrite list_to_map_to_list. rewrite decide_True; [done|].
    apply map_disjoint_spec. intros i x y Hx Hy. rewrite (Hn i) in Hy; [done|].
    apply list_elem_of_fmap. exists (i, x). by rewrite elem_of_map_to_list.
  - case_decide as Hd; [|done]. exfalso.
    assert (add_entries ts (map_to_list m) = Some (m ∪ ts)); [|congruence].
    apply add_entries_spec; [apply NoDup_fst_map_to_list|]. split.
    + intros i ([j x] & -> & Hin%elem_of_map_to_list)%list_elem_of_fmap.
      cbn. destruct (ts !! j) as [y|] eqn:Ey; [|done].
      by destruct (proj1 (map_disjoint_spec _ _) Hd j x y).
    + by rewrite list_to_map_to_list.
Qed.

(** A combination that succeeds keeps every entry and adds none. *)
Lemma combine_loop_spec sigs ts out :
  combine_loop ts sigs = Ok (inr out) →
  ∃ ms m, sigs = (λ m, Some (SigECDSA m)) <$> ms ∧ out = SigECDSA m ∧
    Z.of_nat (size m) = Z.of_nat (size ts) + foldr Z.add 0 (Multi.Len <$> ms) ∧
    ∀ id s, m !! id = Some s ↔ ts !! id = Some s ∨ ∃ m', m' ∈ ms ∧ m' !! id = Some s.
Proof.
  revert ts. induction sigs as [|[[m| |]|] sigs IH]; intros ts E; cbn in E; try done.
  { simplify_eq. exists [], ts. cbn. split_and!; [done|done|lia|set_solver]. }
  rewrite add_entries_map in E. case_decide as Hd; [|done].
  destruct (IH _ E) as (ms & m1 & -> & -> & Hsize & Hl).
  exists (m :: ms), m1. cbn. split_and!; [done|done| |].
  - rewrite Hsize, map_size_disj_union by done. unfold Multi.Len at 2. lia.
  - intros id s. rewrite Hl, lookup_union_Some by done.
    setoid_rewrite elem_of_cons. naive_solver.
Qed.

(** Overlapping signers make the combination fail whatever precedes them. *)
Lemma combine_loop_overlap ms ts id :
  (is_Some (ts !! id) ∧ (∃ m, m ∈ ms ∧ is_Some (m !! id))) ∨
  (∃ k1 k2 m1 m2, (k1 < k2)%nat ∧ ms !! k1 = Some m1 ∧ ms !! k2 = Some m2 ∧
      is_Some (m1 !! id) ∧ is_Some (m2 !! id)) →
  combine_loop ts ((λ m, Some (SigECDSA m)) <$> ms) = Ok (inl ErrCombineOverlap).
Proof.
  revert ts. induction ms as [|m ms IH]; intros ts Hov.
  { destruct Hov as [(_ & m & ? & _)|(k1 & k2 & ? & ? & _ & ? & _)]; [set_solver|done]. }
  cbn. rewrite add_entries_map. case_decide as Hd; [|done]. apply IH.
  destruct Hov as [([x Hx] & m' & Hm' & Hid)|(k1 & k2 & m1 & m2 & Hk & H1 & H2 & Hid1 & Hid2)].
  - left. split; [by rewrite lookup_union_is_Some; right; exists x|].
    apply elem_of_cons in Hm' as [->|?]; [|by exists m'].
    destruct Hid as [y Hy]. by destruct (proj1 (map_disjoint_spec _ _) Hd id y x).
  - destruct k2 as [|k2]; [lia|]. destruct k1 as [|k1]; cbn in H1, H2.
    + simplify_eq. left. split; [by rewrite lookup_union_is_Some; left|].
      exists m2. split; [by eapply list_elem_of_lookup_2|done].
    + right. exists k1, k2, m1, m2. split_and!; [lia|done..].
Qed.

Lemma ec_Verify_true s msg :
  ec_Verify (Some (SigECDSA s)) msg = Ok true → Multi.wf s →
  ∀ id, id ∈ RangeList (Participants (SigECDSA s)) →
    ∃ pk x, replicas !! id = Some pk ∧ s !! id = Some x ∧
            ecdsa_verify pk (sha256 msg) (ec_r x) (ec_s x) = true.
Proof.
  unfold ec_Verify. case_decide; [done|]. intros [= Hall] Hwf id Hid. cbn in Hid.
  apply list_elem_of_fmap in Hid as ([k x] & -> & Hin).
  rewrite forallb_forall in Hall. specialize (Hall (k, x)). cbn in Hall.
  rewrite <-list_elem_of_In in Hall. specialize (Hall Hin).
  apply elem_of_map_to_list in Hin. unfold verifySingle in Hall.
  rewrite (Hwf _ _ Hin) in Hall. cbn.
  destruct (replicas !! k) as [pk|] eqn:Ek; [|done]. by exists pk, x.
Qed.
End Ecdsa.

(** [Combine] of ECDSA signatures either fails or returns the multi-signature
    whose entries are exactly those of its inputs, each signer contributing once:
    the number of participants is the sum of the inputs'. *)
Theorem ec_Combine_correct (sigs : list (option QuorumSignature)) (out : QuorumSignature) :
  ec_Combine sigs = Ok (inr out) →
  ∃ ms m, sigs = (λ m, Some (SigECDSA m)) <$> ms ∧ out = SigECDSA m ∧ (2 ≤ length ms)%nat ∧
    Multi.Len m = foldr Z.add 0 (Multi.Len <$> ms) ∧
    ∀ id s, m !! id = Some s ↔ ∃ m', m' ∈ ms ∧ m' !! id = Some s.
Proof.
  unfold ec_Combine. case_decide; [done|]. intros E.
  destruct (combine_loop_spec _ _ _ E) as (ms & m & -> & -> & Hsize & Hl).
  rewrite length_fmap in *. exists ms, m. split_and!; [done|done|lia| |].
  - unfold Multi.Len at 1. rewrite Hsize, map_size_empty. lia.
  - intros id s. rewrite Hl, lookup_empty. naive_solver.
Qed.

Definition sample_partial (id : ID) : Multi ECDSASignature := {[ id := mkECDSA (10 * id) 3 id ]}.

Lemma ec_Combine_correct_witness :
  ∃ m, ec_Combine (Some ∘ SigECDSA ∘ sample_partial <$> [1; 2; 3]) = Ok (inr (SigECDSA m)) ∧
    Multi.Len m = 3.
Proof.
  destruct (ec_Combine_correct (Some ∘ SigECDSA ∘ sample_partial <$> [1; 2; 3])
    (SigECDSA (list_to_map ((λ i, (i, mkECDSA (10 * i) 3 i)) <$> [1; 2; 3]))))
    as (ms & m & H1 & H2 & _ & Hlen & _).
  - vm_compute. reflexivity.
  - eexists. split; [vm_compute; reflexivity|reflexivity].
Defined.

(** A batch that [BatchVerify] accepts has exactly the participants' messages,
    pairwise different (by hash), and every participant is a configured replica
    whose signature verifies its own message. *)
Theorem ec_BatchVerify_sound `{Sha256} {PublicKey : Type} (replicas : gmap ID PublicKey)
    (ecdsa_verify : PublicKey → Hash → Z → Z → bool)
    (s : Multi ECDSASignature) (batch : gmap ID bytes) :
  Multi.wf s →
  ec_BatchVerify replicas ecdsa_verify (Some (SigECDSA s)) batch = Ok true →
  dom batch = dom s ∧
  (∀ i j mi mj, batch !! i = Some mi → batch !! j = Some mj → sha256 mi = sha256 mj → i = j) ∧
  (∀ i m, batch !! i = Some m → ∃ pk x, replicas !! i = Some pk ∧ s !! i = Some x ∧
      ecdsa_verify pk (sha256 m) (ec_r x) (ec_s x) = true).
Proof.
  intros Hwf. unfold ec_BatchVerify. case_decide; [done|].
  destruct (mapM _ (map_to_list s)) as [pairs|] eqn:E; [|done]. intros [= Hb].
  apply andb_true_iff in Hb as [Hvalid Hsize%bool_decide_eq_true].
  apply mapM_Some_1 in E. pose proof (Forall2_length _ _ _ E) as Hlen.
  rewrite length_map_to_list in Hlen.
  assert (Hpair : ∀ i x, s !! i = Some x → ∃ k m, map_to_list s !! k = Some (i, x) ∧
    batch !! i = Some m ∧ pairs !! k = Some (x, sha256 m)).
  { intros i x Hi%elem_of_map_to_list. apply list_elem_of_lookup in Hi as [k Hk].
    destruct (Forall2_lookup_l _ _ _ _ _ E Hk) as (y & Hy & Ey). cbn in Ey.
    destruct (batch !! i) as [m|] eqn:Em; [|done]. cbn in Ey. simplify_eq. by exists k, m. }
  assert (Hsub : dom s ⊆ dom batch).
  { intros i [x Hx]%elem_of_dom. destruct (Hpair i x Hx) as (k & m & _ & Hm & _).
    apply elem_of_dom. by exists m. }
  pose proof (subseteq_size _ _ Hsub) as Hle. rewrite !size_dom in Hle.
  pose proof (size_list_to_set_le (pairs.*2)) as Hset. rewrite length_fmap in Hset.
  assert (Hdom : dom batch = dom s).
  { symmetry. apply leibniz_equiv, set_subseteq_size_equiv; [done|]. rewrite !size_dom. lia. }
  assert (Hnd : NoDup pairs.*2).
  { apply size_list_to_set_NoDup. rewrite length_fmap. lia. }
  assert (Hin : ∀ i m, batch !! i = Some m → ∃ k x, map_to_list s !! k = Some (i, x) ∧
    s !! i = Some x ∧ pairs !! k = Some (x, sha256 m)).
  { intros i m Hm. assert (i ∈ dom s) as [x Hx]%elem_of_dom.
    { rewrite <-Hdom. apply elem_of_dom. by exists m. }
    destruct (Hpair i x Hx) as (k & m' & Hk & Hm' & Hp). simplify_eq. by exists k, x. }
  split_and!; [done| |].
  - intros i j mi mj Hi Hj Heq.
    destruct (Hin i mi Hi) as (k1 & x1 & Hk1 & _ & Hp1).
    destruct (Hin j mj Hj) as (k2 & x2 & Hk2 & _ & Hp2).
    assert (k1 = k2); [|congruence].
    eapply (NoDup_lookup _ _ _ (sha256 mi) Hnd); rewrite list_lookup_fmap.
    + by rewrite Hp1.
    + rewrite Hp2. cbn. by rewrite Heq.
  - intros i m Hi. destruct (Hin i m Hi) as (k & x & _ & Hx & Hp).
    rewrite forallb_forall in Hvalid. specialize (Hvalid (x, sha256 m)).
    rewrite <-list_elem_of_In in Hvalid.
    specialize (Hvalid (list_elem_of_lookup_2 _ _ _ Hp)). cbn in Hvalid.
    unfold verifySingle in Hvalid. rewrite (Hwf _ _ Hx) in Hvalid.
    destruct (replicas !! i) as [pk|]; [|done]. by exists pk, x.
Qed.

Lemma ec_BatchVerify_sound_witness :
  let s : Multi ECDSASignature := Multi.Restore [mkECDSA 10 3 1; mkECDSA 20 3 2] in
  let batch : gmap ID bytes := <[ 1 := [1] ]> {[ 2 := [2] ]} in
  let verify := (λ (pk : Z) (h : Hash) (r _ : Z), bool_decide (h = [pk] ∧ r = 10 * pk)) in
  dom batch = dom s ∧ ∃ x, s !! 2 = Some x ∧ verify 2 [2] (ec_r x) (ec_s x) = true.
Proof.
  intros s batch verify.
  destruct (@ec_BatchVerify_sound (λ m, m) Z (<[ 1 := 1 ]> {[ 2 := 2 ]}) verify s batch)
    as (Hdom & _ & Hv).
  - apply Multi.wf_Restore.
  - vm_compute. reflexivity.
  - split; [exact Hdom|]. destruct (Hv 2 [2]) as (pk & x & Hpk & Hx & Hok); [reflexivity|].
    exists x. split; [exact Hx|]. vm_compute in Hpk. simplify_eq. exact Hok.
Defined.
