(* ===== verification/BlockChain.v ===== *)
(** The block store (src/sourcecodes/hotstuff/blockchain/blockchain.go).

    [Get] may ask the network: [fetch k h] is the environment's answer to the
    [k]-th request, the blocks other goroutines store while the mutex is
    released and the block the quorum call returns.  [FetchQF]
    (backend/config.go, lines 337-349) only returns a block whose hash is the
    requested one, which is what [Network_ok] states.  The map of pending
    fetches (used to cancel them) and the timing fields are not modelled. *)

From S2P Require Import Prelude IDSet Signature Types Samples.

Record BlockChain := mkBlockChain {
  pruneHeight : View;
  blocks : gmap Hash Block;
  blockAtHeight : gmap View Block;
  fetches : nat;  (* number of network requests made so far *)
}.

(** The network: [Configuration.Fetch]. *)
Class Network := fetch : nat → Hash → list Block * option Block.

Section BlockChain.
Context `{SHA : Sha256} `{NET : Network}.

Definition Store (block : Block) (chain : BlockChain) : BlockChain :=
  mkBlockChain (pruneHeight chain) (<[ b_hash block := block ]> (blocks chain))
    (<[ b_view block := block ]> (blockAtHeight chain)) (fetches chain).

Definition New : BlockChain := Store GetGenesis (mkBlockChain 0 ∅ ∅ 0).

Definition LocalGet (hash : Hash) (chain : BlockChain) : option Block := blocks chain !! hash.

(** The blocks other goroutines store between [Unlock] and [Lock]. *)
Definition concurrent_stores (arrived : list Block) (chain : BlockChain) : BlockChain :=
  foldl (λ c b, Store b c)
    (mkBlockChain (pruneHeight chain) (blocks chain) (blockAtHeight chain) (S (fetches chain)))
    arrived.

Definition Get (hash : Hash) : M BlockChain (option Block) := λ chain,
  match blocks chain !! hash with
  | Some block => Ok (Some block, chain)
  | None =>
      let '(arrived, res) := fetch (fetches chain) hash in
      let chain := concurrent_stores arrived chain in
      match res with
      | None => Ok (blocks chain !! hash, chain)  (* it may have arrived meanwhile *)
      | Some block =>
          Ok (Some block,
              mkBlockChain (pruneHeight chain) (<[ hash := block ]> (blocks chain))
                (<[ b_view block := block ]> (blockAtHeight chain)) (fetches chain))
      end
  end.

(** [for ok && current.View() > target.View() { current, ok = Get(current.Parent()) }] *)
Fixpoint Extends (fuel : nat) (current target : Block) : M BlockChain bool :=
  match fuel with
  | O => diverge
  | S fuel' =>
      if decide (b_view target < b_view current) then
        next <- Get (b_parent current) ;;
        match next with
        | None => ret false
        | Some parent => Extends fuel' parent target
        end
      else ret (bool_decide (b_hash current = b_hash target))
  end.

(** The first loop of [PruneToHeight] collects the views on the committed branch. *)
Fixpoint committed_views (fuel : nat) (chain : BlockChain) (h : View) (acc : gset View)
    : outcome (gset View) :=
  match fuel with
  | O => Diverge
  | S fuel' =>
      if decide (pruneHeight chain ≤ h) then
        match blockAtHeight chain !! h with
        | None => Ok acc
        | Some block =>
            match blocks chain !! b_parent block with
            | None => Ok acc
            | Some parent =>
                if decide (b_view parent < pruneHeight chain) then Ok acc
                else committed_views fuel' chain (b_view parent) ({[ b_view parent ]} ∪ acc)
            end
        end
      else Ok acc
  end.

(** One iteration of the second loop. *)
Definition prune_step (committedViews : gset View)
    (acc : list Block * gmap View Block) (h : View) : list Block * gmap View Block :=
  let '(forkedBlocks, heights) := acc in
  let forkedBlocks :=
    if decide (h ∈ committedViews) then forkedBlocks
    else match heights !! h with
         | Some block => forkedBlocks ++ [block]
         | None => forkedBlocks
         end in
  (forkedBlocks, delete h heights).

(** The heights the second loop visits: [height], [height - 1], down to [pruneHeight + 1]. *)
Definition prune_range (lo height : View) : list View := reverse (seqZ (lo + 1) (height - lo)).

(** [committedHeight] is [chain.consensus.CommittedBlock().View()]. *)
Definition PruneToHeight (fuel : nat) (committedHeight height : View) : M BlockChain (list Block) :=
  λ chain,
    outcome_bind (committed_views fuel chain committedHeight {[ committedHeight ]})
      (λ committedViews,
        let '(forkedBlocks, heights) :=
          foldl (prune_step committedViews) ([], blockAtHeight chain)
            (prune_range (pruneHeight chain) height) in
        Ok (forkedBlocks, mkBlockChain height (blocks chain) heights (fetches chain))).

(** ** Invariant: blocks are stored under their hash, and hashes are honest *)

(** A set [U] of blocks without hash collisions that contains every block
    the replica ever sees. *)
Record universe (U : Block → Prop) : Prop := {
  U_hashed : ∀ b, U b → Block_hashed b;
  U_inj : ∀ b1 b2, U b1 → U b2 → b_hash b1 = b_hash b2 → b1 = b2;
}.

Definition Network_ok (U : Block → Prop) : Prop :=
  ∀ k h, Forall U (fetch k h).1 ∧ ∀ b, (fetch k h).2 = Some b → U b ∧ b_hash b = h.

Record chain_ok (U : Block → Prop) (c : BlockChain) : Prop := {
  ok_hash : ∀ h b, blocks c !! h = Some b → b_hash b = h;
  ok_U : ∀ h b, blocks c !! h = Some b → U b;
}.

(** The store only grows. *)
Definition chain_le (c c' : BlockChain) : Prop := blocks c ⊆ blocks c'.

#[global] Instance chain_le_preorder : PreOrder chain_le.
Proof. unfold chain_le. split; [by intros c|]. intros c1 c2 c3 H1 H2. by etrans. Qed.

Section ok.
Context (U : Block → Prop) (HU : universe U).

Lemma insert_ok (m : gmap Hash Block) (b : Block) :
  (∀ h b, m !! h = Some b → b_hash b = h ∧ U b) → U b →
  (∀ h b', <[ b_hash b := b ]> m !! h = Some b' → b_hash b' = h ∧ U b') ∧
  m ⊆ <[ b_hash b := b ]> m.
Proof.
  intros Hm Hb. split.
  - intros h b' [[<- <-]|[_ ?]]%lookup_insert_Some; [done|by apply Hm].
  - apply map_subseteq_spec. intros h b' Hh. apply lookup_insert_Some.
    destruct (decide (b_hash b = h)) as [<-|]; [left|by right].
    destruct (Hm _ _ Hh) as [E Hb']. split; [done|]. by apply (U_inj U HU).
Qed.

Lemma Store_ok b c : chain_ok U c → U b → chain_ok U (Store b c) ∧ chain_le c (Store b c).
Proof.
  intros [H1 H2] Hb. destruct (insert_ok (blocks c) b) as [Hn Hle]; [naive_solver|done|].
  split; [split; intros h b' Hh; by destruct (Hn _ _ Hh)|done].
Qed.

Lemma concurrent_stores_ok l c :
  Forall U l → chain_ok U c →
  chain_ok U (concurrent_stores l c) ∧ chain_le c (concurrent_stores l c).
Proof.
  unfold concurrent_stores. intros Hl Hc.
  assert (Hgen : ∀ c', chain_ok U c' →
    chain_ok U (foldl (λ c b, Store b c) c' l) ∧ chain_le c' (foldl (λ c b, Store b c) c' l)).
  { clear Hc. induction Hl as [|b l Hb _ IH]; intros c' Hc'; [done|]. simpl.
    destruct (Store_ok b c' Hc' Hb) as [Ho Hle]. destruct (IH _ Ho) as [Ho' Hle'].
    split; [done|by etrans]. }
  apply (Hgen (mkBlockChain _ (blocks c) _ _)). split; apply Hc.
Qed.

Context (HN : Network_ok U).

(** What [Get] promises to its callers. *)
Lemma Get_ok h c r c' :
  chain_ok U c → Get h c = Ok (r, c') →
  chain_ok U c' ∧ chain_le c c' ∧ r = blocks c' !! h.
Proof.
  intros Hc. unfold Get. destruct (blocks c !! h) as [b|] eqn:Eb.
  { intros [= <- <-]. split_and!; [done|done|by rewrite Eb]. }
  destruct (HN (fetches c) h) as [Harr Hres].
  destruct (fetch (fetches c) h) as [arrived res]. simpl in *.
  destruct (concurrent_stores_ok arrived c Harr Hc) as [Ho Hle].
  destruct res as [b|]; [|intros [= <- <-]; done].
  intros [= <- <-]. destruct (Hres b eq_refl) as [Hb <-].
  destruct (insert_ok (blocks (concurrent_stores arrived c)) b) as [Hn Hle'];
    [intros ?? Hl; split; by eapply Ho|done|].
  split_and!.
  - split; cbn; intros ?? Hl; by destruct (Hn _ _ Hl).
  - etrans; [done|]. done.
  - cbn. by rewrite lookup_insert_eq.
Qed.

Lemma Get_Some h c b c' :
  chain_ok U c → Get h c = Ok (Some b, c') →
  chain_ok U c' ∧ chain_le c c' ∧ b_hash b = h ∧ U b ∧ blocks c' !! h = Some b.
Proof.
  intros Hc E. destruct (Get_ok _ _ _ _ Hc E) as (Ho & Hle & Hr). symmetry in Hr.
  split_and!; [done|done|by eapply Ho|by eapply Ho|done].
Qed.

Lemma Get_present h c b : blocks c !! h = Some b → Get h c = Ok (Some b, c).
Proof. intros E. unfold Get. by rewrite E. Qed.

Lemma Get_total h c : ∃ r c', Get h c = Ok (r, c').
Proof.
  unfold Get. destruct (blocks c !! h); [eauto|].
  destruct (fetch (fetches c) h) as [? []]; eauto.
Qed.

Lemma chain_le_lookup c c' h b :
  chain_le c c' → blocks c !! h = Some b → blocks c' !! h = Some b.
Proof. intros Hle Hb. by eapply lookup_weaken. Qed.
End ok.
End BlockChain.

(** ** [Extends]: the branch of a block *)

(** [links c target b]: following parent hashes in the store from [b], the
    first block whose view is not above the target's is the target. *)
Inductive links (c : BlockChain) (target : Block) : Block → Prop :=
| links_here b : b_view b ≤ b_view target → b_hash b = b_hash target → links c target b
| links_parent b p :
    b_view target < b_view b → blocks c !! b_parent b = Some p →
    links c target p → links c target b.

(** Views strictly decrease along parent links (for the blocks of [U]). *)
Definition views_decrease (U : Block → Prop) : Prop :=
  ∀ b p, U b → U p → b_parent b = b_hash p → b_view p < b_view b.

Lemma links_above c t b p :
  b_view t < b_view b → blocks c !! b_parent b = Some p → links c t b ↔ links c t p.
Proof.
  intros Hv Hp. split; [|by apply links_parent].
  intros Hl. inversion Hl; simplify_eq; [lia|done].
Qed.

(** On a store without hash collisions whose parent links decrease the
    view, [Extends] terminates within [b.View() - target.View()] steps, keeps
    every stored block and the store's invariant, and answers exactly whether
    the branch of [b] contains [target], reading the chain it leaves behind. *)
Theorem Extends_correct `{Sha256} `{Network} (U : Block → Prop) (fuel : nat)
    (b target : Block) (c : BlockChain) :
  universe U → Network_ok U → views_decrease U → chain_ok U c → U b →
  (Z.to_nat (b_view b - b_view target) < fuel)%nat →
  ∃ r c', Extends fuel b target c = Ok (r, c') ∧ chain_ok U c' ∧ chain_le c c' ∧
    (r = true ↔ links c' target b).
Proof.
  intros HU HN HD. revert b c. induction fuel as [|fuel IH]; intros b c Hc Hb Hfuel; [lia|].
  cbn [Extends]. case_decide as Hv.
  - destruct (Get_total (b_parent b) c) as (o & c1 & E).
    unfold bind, outcome_bind. rewrite E. destruct o as [p|].
    + destruct (Get_Some U HU HN _ _ _ _ Hc E) as (Hc1 & Hle & Hh & Hp & Hl).
      assert (b_view p < b_view b) by (by apply HD).
      destruct (IH p c1) as (r & c' & E' & Hc' & Hle' & Hr); [done|done|lia|].
      exists r, c'. split_and!; [done|done|by etrans|]. rewrite Hr.
      symmetry. apply links_above; [done|]. by eapply chain_le_lookup.
    + destruct (Get_ok U HU HN _ _ _ _ Hc E) as (Hc1 & Hle & Hr).
      exists false, c1. split_and!; [done|done|done|]. split; [done|].
      intros Hl. inversion Hl; simplify_eq; [lia|congruence].
  - exists (bool_decide (b_hash b = b_hash target)), c. split_and!; [done|done|done|].
    rewrite bool_decide_eq_true. split; [intros; apply links_here; [lia|done]|].
    intros Hl. inversion Hl; simplify_eq; [done|lia].
Qed.

(** *** A finite store to evaluate on *)

(** A list of blocks is a universe when no two of them collide; decidable. *)
Definition collision_free `{Sha256} (l : list Block) : bool :=
  forallb (λ b, bool_decide (b_hash b = sha256 (Block_ToBytes b)) &&
    forallb (λ b', bool_decide (b_hash b ≠ b_hash b') || bool_decide (b = b')) l) l.

Lemma collision_free_universe `{Sha256} l : collision_free l = true → universe (λ b, b ∈ l).
Proof.
  unfold collision_free. rewrite forallb_forall. intros Hall.
  assert (Hall' : ∀ b, b ∈ l → Block_hashed b ∧ ∀ b', b' ∈ l → b_hash b = b_hash b' → b = b').
  { intros b Hb. specialize (Hall b (proj1 (list_elem_of_In _ _) Hb)).
    apply andb_true_iff in Hall as [Hh%bool_decide_eq_true Hrest]. split; [done|].
    intros b' Hb' E. rewrite forallb_forall in Hrest.
    specialize (Hrest b' (proj1 (list_elem_of_In _ _) Hb')).
    apply orb_true_iff in Hrest as [Hr%bool_decide_eq_true|Hr%bool_decide_eq_true]; done. }
  split; [intros b Hb; by apply Hall'|]. intros b1 b2 H1 H2. by apply Hall'.
Qed.

(** The network that never answers. *)
Definition no_network : Network := λ _ _, ([], None).
Lemma no_network_ok U : Network_ok (NET := no_network) U.
Proof. intros k h. split; [constructor|done]. Qed.

Definition store_all (l : list Block) : BlockChain :=
  foldl (λ c b, Store b c) (mkBlockChain 0 ∅ ∅ 0) l.

Lemma store_all_ok `{Sha256} l : universe (λ b, b ∈ l) → chain_ok (λ b, b ∈ l) (store_all l).
Proof.
  intros HU.
  assert (Hgen : ∀ l' c, (∀ b, b ∈ l' → b ∈ l) → chain_ok (λ b, b ∈ l) c →
    chain_ok (λ b, b ∈ l) (foldl (λ c b, Store b c) c l')).
  { intros l'. induction l' as [|b l' IH]; intros c Hin Hc; [done|]. simpl. apply IH; [set_solver|].
    destruct (Store_ok (λ b, b ∈ l) HU b c Hc) as [? _]; [apply Hin; set_solver|done]. }
  apply Hgen; [done|]. split; intros h b Hb; cbn in Hb; by rewrite lookup_empty in Hb.
Qed.

(** Views decrease along the parent links of the list; decidable. *)
Definition decreasing (l : list Block) : bool :=
  forallb (λ b, forallb (λ p, bool_decide (b_parent b ≠ b_hash p) ||
                              bool_decide (b_view p < b_view b)) l) l.

Lemma decreasing_views l : decreasing l = true → views_decrease (λ b, b ∈ l).
Proof.
  unfold decreasing. rewrite forallb_forall. intros Hall b p Hb Hp E.
  specialize (Hall b (proj1 (list_elem_of_In _ _) Hb)). rewrite forallb_forall in Hall.
  specialize (Hall p (proj1 (list_elem_of_In _ _) Hp)).
  by apply orb_true_iff in Hall as [Hr%bool_decide_eq_true|Hr%bool_decide_eq_true].
Qed.

Lemma sample_chain_universe : universe (SHA := sample_sha256) (λ b, b ∈ sample_chain).
Proof. apply (collision_free_universe (H := sample_sha256)). vm_compute. reflexivity. Qed.

Lemma Extends_correct_witness :
  ∃ r c', Extends (NET := no_network) 9 sample_b3 sample_b1 (store_all sample_chain) = Ok (r, c') ∧
    (r = true ↔ links c' sample_b1 sample_b3) ∧ r = true.
Proof.
  destruct (@Extends_correct sample_sha256 no_network (λ b, b ∈ sample_chain) 9 sample_b3 sample_b1
    (store_all sample_chain)) as (r & c' & E & _ & _ & Hr).
  - apply sample_chain_universe.
  - apply no_network_ok.
  - apply decreasing_views. vm_compute. reflexivity.
  - apply (store_all_ok (H := sample_sha256)), sample_chain_universe.
  - apply list_elem_of_In. vm_compute. auto 10.
  - vm_compute. lia.
  - exists r, c'. split_and!; [exact E|exact Hr|].
    assert (E' : Extends (NET := no_network) 9 sample_b3 sample_b1 (store_all sample_chain)
      = Ok (true, store_all sample_chain)) by (vm_compute; reflexivity). congruence.
Defined.

(** ** [PruneToHeight] *)

(** The views on the branch of the committed block, down to the prune height,
    as the store's height index gives them. *)
Inductive committed_view (c : BlockChain) (start : View) : View → Prop :=
| cv_start : committed_view c start start
| cv_parent h b p :
    committed_view c start h → pruneHeight c ≤ h →
    blockAtHeight c !! h = Some b → blocks c !! b_parent b = Some p →
    pruneHeight c ≤ b_view p → committed_view c start (b_view p).

(** The height index points to blocks of that view whose stored parent has a lower one. *)
Definition heights_ok (c : BlockChain) : Prop :=
  ∀ h b p, blockAtHeight c !! h = Some b → blocks c !! b_parent b = Some p → b_view p < h.

(** Unfolding a branch from its first view. *)
Lemma committed_view_front c h v :
  committed_view c h v ↔ v = h ∨ ∃ b p, pruneHeight c ≤ h ∧ blockAtHeight c !! h = Some b ∧
    blocks c !! b_parent b = Some p ∧ pruneHeight c ≤ b_view p ∧ committed_view c (b_view p) v.
Proof.
  split.
  - induction 1 as [|v b p Hcv IH Hle Hb Hp Hpv]; [by left|]. right.
    destruct IH as [->|(b' & p' & ? & ? & ? & ? & ?)].
    + exists b, p. split_and!; [done..|constructor].
    + exists b', p'. split_and!; [done..|]. by eapply cv_parent.
  - intros [->|(b & p & H1 & H2 & H3 & H4 & Hcv)]; [constructor|].
    induction Hcv as [|v b' p' Hcv IH]; [|by eapply cv_parent].
    apply (cv_parent c h h b p); auto. constructor.
Qed.

Lemma committed_views_spec fuel c h acc :
  heights_ok c → h ∈ acc → (Z.to_nat (h - pruneHeight c + 1) < fuel)%nat →
  ∃ cv, committed_views fuel c h acc = Ok cv ∧ ∀ v, v ∈ cv ↔ v ∈ acc ∨ committed_view c h v.
Proof.
  intros Hok. revert h acc. induction fuel as [|fuel IH]; intros h acc Hh Hfuel; [lia|].
  assert (Hstop : (∀ v, committed_view c h v → v = h) →
    ∃ cv, Ok acc = Ok cv ∧ ∀ v, v ∈ cv ↔ v ∈ acc ∨ committed_view c h v).
  { intros Hlast. exists acc. split; [done|]. intros v. split; [by left|].
    intros [?|E%Hlast]; by subst. }
  cbn [committed_views].
  case_decide as Hge; [|apply Hstop; intros v [?|(?&?&?&_)]%committed_view_front; [done|lia]].
  destruct (blockAtHeight c !! h) as [b|] eqn:Eb;
    [|apply Hstop; intros v [?|(?&?&?&?&_)]%committed_view_front; congruence].
  destruct (blocks c !! b_parent b) as [p|] eqn:Ep;
    [|apply Hstop; intros v [?|(?&?&?&?&?&_)]%committed_view_front; [done|simplify_eq]].
  pose proof (Hok _ _ _ Eb Ep) as Hdec.
  case_decide as Hpv;
    [apply Hstop; intros v [?|(?&?&?&?&?&?&_)]%committed_view_front; [done|simplify_eq; lia]|].
  destruct (IH (b_view p) ({[ b_view p ]} ∪ acc)) as (cv & E & Hcv); [set_solver|lia|].
  exists cv. split; [done|]. intros v. rewrite Hcv, (committed_view_front c h v). split.
  - intros [[E1%elem_of_singleton|?]%elem_of_union|?]; [|by left|].
    + subst v. right. right. exists b, p. split_and!; [done..|lia|constructor].
    + right. right. exists b, p. split_and!; [done..|lia|done].
  - intros [?|[->|(b' & p' & _ & ? & ? & _ & ?)]]; [left; set_solver|left; set_solver|].
    simplify_eq. by right.
Qed.

Lemma elem_of_prune_range lo height h : h ∈ prune_range lo height ↔ lo < h ≤ height.
Proof. unfold prune_range. rewrite elem_of_reverse, elem_of_seqZ. lia. Qed.

Lemma prune_fold cv l forked heights :
  NoDup l →
  foldl (prune_step cv) (forked, heights) l =
    (forked ++ omap (λ h, if decide (h ∈ cv) then None else heights !! h) l,
     foldl (λ m h, delete h m) heights l).
Proof.
  intros Hl. revert forked heights. induction Hl as [|h l Hh Hl IH]; intros forked heights.
  { simpl. by rewrite app_nil_r. }
  cbn [foldl prune_step]. rewrite IH. f_equal.
  rewrite (omap_ext_in _ (λ h, if decide (h ∈ cv) then None else heights !! h)).
  2: { intros h' Hin. case_decide; [done|]. rewrite lookup_delete_ne; [done|]. set_solver. }
  csimpl. case_decide; [done|]. destruct (heights !! h); [by rewrite <-(assoc_L (++))|done].
Qed.

Lemma foldl_delete_lookup {A} (l : list View) (m : gmap View A) h :
  foldl (λ m h, delete h m) m l !! h = if decide (h ∈ l) then None else m !! h.
Proof.
  revert m. induction l as [|x l IH]; intros m; [done|]. cbn [foldl]. rewrite IH.
  destruct (decide (h ∈ l)) as [Hin|Hin].
  - by rewrite decide_True by (by apply list_elem_of_further).
  - destruct (decide (h = x)) as [->|Hne].
    + by rewrite lookup_delete_eq, decide_True by (apply list_elem_of_here).
    + rewrite lookup_delete_ne, decide_False by (done || by rewrite elem_of_cons; naive_solver). done.
Qed.

(** [PruneToHeight] returns, in decreasing height, exactly the indexed
    blocks above the old prune height and up to [height] that are not on the
    committed branch; it forgets the index of those heights, moves the prune
    height, and removes no block from the store. *)
Theorem PruneToHeight_correct (fuel : nat) (committedHeight height : View) (c : BlockChain) :
  heights_ok c → (Z.to_nat (committedHeight - pruneHeight c + 1) < fuel)%nat →
  ∃ forked c', PruneToHeight fuel committedHeight height c = Ok (forked, c') ∧
    (∀ b, b ∈ forked ↔ ∃ h, pruneHeight c < h ≤ height ∧ blockAtHeight c !! h = Some b ∧
                            ¬ committed_view c committedHeight h) ∧
    (∀ h, blockAtHeight c' !! h =
            if decide (pruneHeight c < h ≤ height) then None else blockAtHeight c !! h) ∧
    pruneHeight c' = height ∧ blocks c' = blocks c.
Proof.
  intros Hok Hfuel.
  destruct (committed_views_spec fuel c committedHeight {[ committedHeight ]})
    as (cv & E & Hcv); [done|set_solver|done|].
  assert (Hcv' : ∀ v, v ∈ cv ↔ committed_view c committedHeight v).
  { intros v. rewrite Hcv, elem_of_singleton. split; [|by right]. intros [->|?]; [constructor|done]. }
  unfold PruneToHeight. rewrite E. cbn [outcome_bind].
  rewrite prune_fold. 2: { unfold prune_range. rewrite reverse_Permutation. apply NoDup_seqZ. }
  eexists _, _. split; [done|]. split_and!; [| |done|done].
  - intros b. rewrite app_nil_l, list_elem_of_omap. split.
    + intros (h & Hin%elem_of_prune_range & Hb). case_decide as Hd; [done|].
      exists h. by rewrite <-Hcv'.
    + intros (h & Hin & Hb & Hn). exists h. rewrite elem_of_prune_range. split; [done|].
      rewrite decide_False; [done|]. by rewrite Hcv'.
  - intros h. cbn. rewrite foldl_delete_lookup.
    repeat case_decide; rewrite elem_of_prune_range in *; done.
Qed.

Definition heights_okb (c : BlockChain) : bool :=
  forallb (λ kv, match blocks c !! b_parent kv.2 with
                 | Some p => bool_decide (b_view p < kv.1)
                 | None => true
                 end) (map_to_list (blockAtHeight c)).

Lemma heights_okb_ok c : heights_okb c = true → heights_ok c.
Proof.
  unfold heights_okb. rewrite forallb_forall. intros Hall h b p Hb Hp.
  specialize (Hall (h, b)). rewrite <-list_elem_of_In, elem_of_map_to_list in Hall.
  specialize (Hall Hb). cbn in Hall. rewrite Hp in Hall. by apply bool_decide_eq_true in Hall.
Qed.

Lemma PruneToHeight_correct_witness :
  ∃ c', PruneToHeight 9 3 4 (store_all sample_chain) = Ok ([sample_fork], c') ∧ pruneHeight c' = 4.
Proof.
  destruct (PruneToHeight_correct 9 3 4 (store_all sample_chain))
    as (forked & c' & E & _ & _ & Hh & _).
  - apply heights_okb_ok. vm_compute. reflexivity.
  - vm_compute. lia.
  - exists c'. split; [|exact Hh].
    assert (E' : ∃ c'', PruneToHeight 9 3 4 (store_all sample_chain) = Ok ([sample_fork], c''))
      by (eexists; vm_compute; reflexivity).
    destruct E' as [c'' E']. congruence.
Defined.
