(* ===== verification/Certs.v ===== *)
(** Creating and verifying certificates (src/sourcecodes/hotstuff/crypto/crypto.go).

    The methods of the struct [crypto] over an arbitrary [CryptoBase]; the
    block store they consult is threaded as state because [Get] may fetch.
    [numReplicas] is [configuration.Len()]. *)

From S2P Require Import Prelude IDSet Signature Types Samples Ecdsa BlockChain.

Section Certs.
Context `{SHA : Sha256} `{NET : Network} `{CB : CryptoBase} (numReplicas : Z).

Definition CreatePartialCert (block : Block) : outcome (CryptoErr + PartialCert) :=
  match Sign (Block_ToBytes block) with
  | inl err => Ok (inl err)
  | inr sig => outcome_bind (NewPartialCert (Some sig) (b_hash block)) (λ pc, Ok (inr pc))
  end.

Definition CreateQuorumCert (block : Block) (signatures : list PartialCert)
    : outcome (CryptoErr + QuorumCert) :=
  if decide (b_hash block = b_hash GetGenesis) then
    Ok (inr (mkQuorumCert None 0 (b_hash GetGenesis)))
  else
    outcome_bind (Combine (pc_signature <$> signatures)) (λ r,
      match r with
      | inl err => Ok (inl err)
      | inr sig => Ok (inr (mkQuorumCert (Some sig) (b_view block) (b_hash block)))
      end).

Definition CreateTimeoutCert (view : View) (timeouts : list TimeoutMsg)
    : outcome (CryptoErr + TimeoutCert) :=
  if decide (view = 0) then Ok (inr (mkTimeoutCert None 0))
  else
    outcome_bind (Combine (tm_ViewSignature <$> timeouts)) (λ r,
      match r with
      | inl err => Ok (inl err)
      | inr sig => Ok (inr (mkTimeoutCert (Some sig) view))
      end).

(** The loop of [CreateAggregateQC]: collect the QCs and the message signatures. *)
Definition collect_qcs (timeouts : list TimeoutMsg) : gmap ID QuorumCert :=
  foldl (λ qcs t, match si_qc (tm_SyncInfo t) with
                  | Some qc => <[ tm_ID t := qc ]> qcs
                  | None => qcs
                  end) ∅ timeouts.
Definition collect_sigs (timeouts : list TimeoutMsg) : list (option QuorumSignature) :=
  filter (λ s, is_Some s) (tm_MsgSignature <$> timeouts).

Definition CreateAggregateQC (view : View) (timeouts : list TimeoutMsg)
    : outcome (CryptoErr + AggregateQC) :=
  outcome_bind (Combine (collect_sigs timeouts)) (λ r,
    match r with
    | inl err => Ok (inl err)
    | inr sig => Ok (inr (mkAggregateQC (collect_qcs timeouts) (Some sig) view))
    end).

Definition VerifyPartialCert (cert : PartialCert) : M BlockChain bool :=
  block <- Get (pc_blockHash cert) ;;
  match block with
  | None => ret false
  | Some block => lift (Verify (pc_signature cert) (Block_ToBytes block))
  end.

(** A nil signature is dereferenced by [qc.Signature().Participants()]. *)
Definition VerifyQuorumCert (qc : QuorumCert) : M BlockChain bool :=
  if decide (qc_hash qc = b_hash GetGenesis) then ret true
  else
    match qc_signature qc with
    | None => panic
    | Some sig =>
        if decide (Len (Participants sig) < QuorumSize numReplicas) then ret false
        else
          block <- Get (qc_hash qc) ;;
          match block with
          | None => ret false
          | Some block => lift (Verify (Some sig) (Block_ToBytes block))
          end
    end.

Definition VerifyTimeoutCert (tc : TimeoutCert) : outcome bool :=
  if decide (tc_view tc = 0) then Ok true
  else
    match tc_signature tc with
    | None => Panic
    | Some sig =>
        if decide (Len (Participants sig) < QuorumSize numReplicas) then Ok false
        else Verify (Some sig) (View_ToBytes (tc_view tc))
    end.

(** One iteration of the selection of the highest QC. *)
Definition select_high (highQC qc : QuorumCert) : QuorumCert :=
  if decide (qc_view highQC < qc_view qc ∨ highQC = zero_QuorumCert) then qc else highQC.
(** The loop, for an arbitrary iteration order of the map. *)
Definition high_of (order : list (ID * QuorumCert)) : QuorumCert :=
  foldl select_high zero_QuorumCert order.*2.

Definition agg_messages (aggQC : AggregateQC) : gmap ID bytes :=
  map_imap (λ id qc, Some (TimeoutMsg_ToBytes
    (mkTimeoutMsg id (agg_view aggQC) None None (WithQC NewSyncInfo qc)))) (agg_qcs aggQC).

(** [None] stands for [(QuorumCert{}, false)]. *)
Definition VerifyAggregateQC (aggQC : AggregateQC) : M BlockChain (option QuorumCert) :=
  let highQC := high_of (map_to_list (agg_qcs aggQC)) in
  match agg_sig aggQC with
  | None => panic
  | Some sig =>
      if decide (Len (Participants sig) < QuorumSize numReplicas) then ret None
      else
        valid <- lift (BatchVerify (Some sig) (agg_messages aggQC)) ;;
        if (valid : bool) then
          ok <- VerifyQuorumCert highQC ;;
          if (ok : bool) then ret (Some highQC) else ret None
        else ret None
  end.

(** ** Lemmas: verification only reads and extends the store *)
Section frame.
Context (U : Block → Prop) (HU : universe U) (HN : Network_ok U).

(** The relation every computation on the store respects. *)
Definition chain_step (c c' : BlockChain) : Prop :=
  chain_ok U c → chain_ok U c' ∧ chain_le c c'.
#[global] Instance chain_step_preorder : PreOrder chain_step.
Proof.
  split.
  - intros c Hc. done.
  - intros c1 c2 c3 H12 H23 Hc. destruct (H12 Hc) as [Hc2 ?].
    destruct (H23 Hc2) as [? ?]. split; [done|by etrans].
Qed.

Lemma Get_step h : respects chain_step (Get h).
Proof.
  intros c r c' E Hc. destruct (Get_ok U HU HN _ _ _ _ Hc E) as (? & ? & _). done.
Qed.

#[local] Hint Resolve Get_step : nimble.

Lemma VerifyPartialCert_step cert : respects chain_step (VerifyPartialCert cert).
Proof. apply respects_bind; auto with nimble. intros [b|]; auto with nimble. Qed.

Lemma VerifyQuorumCert_step qc : respects chain_step (VerifyQuorumCert qc).
Proof.
  unfold VerifyQuorumCert. case_decide; auto with nimble. destruct (qc_signature qc); auto with nimble.
  case_decide; auto with nimble. apply respects_bind; auto with nimble. intros [b|]; auto with nimble.
Qed.
#[local] Hint Resolve VerifyQuorumCert_step : nimble.

Lemma VerifyAggregateQC_step aggQC : respects chain_step (VerifyAggregateQC aggQC).
Proof.
  unfold VerifyAggregateQC. destruct (agg_sig aggQC); auto with nimble. case_decide; auto with nimble.
  apply respects_bind; auto with nimble. intros []; auto with nimble.
  apply respects_bind; auto with nimble. intros []; auto with nimble.
Qed.

(** What an accepted quorum certificate guarantees. *)
Lemma VerifyQuorumCert_true qc c c' :
  chain_ok U c → VerifyQuorumCert qc c = Ok (true, c') →
  chain_ok U c' ∧ chain_le c c' ∧
  (qc_hash qc = b_hash GetGenesis ∨
   ∃ sig b, qc_signature qc = Some sig ∧ blocks c' !! qc_hash qc = Some b ∧
     QuorumSize numReplicas ≤ Len (Participants sig) ∧
     Verify (Some sig) (Block_ToBytes b) = Ok true).
Proof.
  intros Hc E. destruct (VerifyQuorumCert_step qc c true c' E Hc) as [Hc' Hle].
  split_and!; [done|done|]. unfold VerifyQuorumCert in E.
  case_decide as Hg; [by left|]. right.
  destruct (qc_signature qc) as [sig|]; [|done]. case_decide as Hq; [done|].
  apply bind_Ok in E as (o & c1 & E1 & E2). destruct o as [b|]; [|done].
  destruct (Get_Some U HU HN _ _ _ _ Hc E1) as (_ & _ & _ & _ & Hb).
  unfold lift, outcome_bind in E2. destruct (Verify _ _) as [v| |] eqn:Ev; [|done..].
  simplify_eq. exists sig, b. split_and!; [done|done|lia|done].
Qed.
End frame.

(** The selected QC has the highest view of all, whatever the order. *)
Lemma select_high_spec l high :
  (high = zero_QuorumCert ∨ 0 ≤ qc_view high) →
  Forall (λ qc, 0 ≤ qc_view qc) l →
  let r := foldl select_high high l in
  (r = high ∨ r ∈ l) ∧ qc_view high ≤ qc_view r ∧ Forall (λ qc, qc_view qc ≤ qc_view r) l ∧
  (l ≠ [] → high = zero_QuorumCert → r ∈ l).
Proof.
  revert high. induction l as [|qc l IH]; intros high Hhigh Hl; simpl.
  { split_and!; [by left|done|constructor|done]. }
  apply Forall_cons in Hl as [Hqc Hl].
  assert (Hsel : select_high high qc = qc ∧ qc_view high ≤ qc_view qc ∨
                 select_high high qc = high ∧ qc_view qc ≤ qc_view high ∧ high ≠ zero_QuorumCert).
  { unfold select_high. case_decide as Hd; [left|right].
    - split; [done|]. destruct Hd as [?| ->]; [lia|done].
    - apply Decidable.not_or in Hd as [??]. split_and!; [done|lia|done]. }
  destruct Hsel as [(-> & Hle)|(-> & Hle & Hne)].
  - destruct (IH qc) as (H1 & H2 & H3 & _); [by right|done|].
    assert (foldl select_high qc l ∈ qc :: l) by (destruct H1 as [->|]; set_solver).
    split_and!; [by right|lia|by constructor|done].
  - destruct (IH high) as (H1 & H2 & H3 & _); [done|done|].
    split_and!; [destruct H1; [by left|right; set_solver]|done|constructor; [lia|done]|done].
Qed.
End Certs.

(** ** Theorems *)

(** Replace the view a certificate claims. *)
Definition with_view (qc : QuorumCert) (v : View) : QuorumCert :=
  mkQuorumCert (qc_signature qc) v (qc_hash qc).

Section EcdsaCerts.
Context `{SHA : Sha256} `{NET : Network} {PublicKey : Type} (selfID : ID) (replicas : gmap ID PublicKey).
Context (ecdsa_sign : Hash → option (Z * Z)).
Context (ecdsa_verify : PublicKey → Hash → Z → Z → bool).
Let ec := ecdsaBase selfID replicas ecdsa_sign ecdsa_verify.
Let numReplicas := Z.of_nat (size replicas).

(** A replica whose signature on the block is part of the multi-signature. *)
Definition signed_by (ms : Multi ECDSASignature) (b : Block) (i : ID) : Prop :=
  ∃ pk x, replicas !! i = Some pk ∧ ms !! i = Some x ∧
          ecdsa_verify pk (sha256 (Block_ToBytes b)) (ec_r x) (ec_s x) = true.

(** The set of replicas behind an accepted ECDSA certificate is a quorum of
    configured replicas. *)
Lemma verified_quorum (ms : Multi ECDSASignature) (b : Block) :
  Multi.wf ms → QuorumSize numReplicas ≤ Multi.Len ms →
  ec_Verify replicas ecdsa_verify (Some (SigECDSA ms)) (Block_ToBytes b) = Ok true →
  dom ms ⊆ dom replicas ∧ QuorumSize numReplicas ≤ Z.of_nat (size (dom ms)) ∧
  ∀ i, i ∈ dom ms → signed_by ms b i.
Proof.
  intros Hwf Hq Hv.
  assert (Hall : ∀ i, i ∈ dom ms → signed_by ms b i).
  { intros i Hi. destruct (ec_Verify_true _ _ _ _ Hv Hwf i) as (pk & x & ? & ? & ?).
    - cbn. apply elem_of_dom in Hi as [x Hx]. apply list_elem_of_fmap.
      exists (i, x). by rewrite elem_of_map_to_list.
    - by exists pk, x. }
  split_and!; [| |done].
  - intros i (pk & x & Hpk & _)%Hall. apply elem_of_dom. by exists pk.
  - by rewrite size_dom.
Qed.
End EcdsaCerts.

(** C33: A quorum certificate that [VerifyQuorumCert] accepts (with ECDSA) is for the
    genesis block, or names a stored block for which at least [QuorumSize]
    distinct configured replicas have a valid signature in it. *)
Theorem VerifyQuorumCert_sound `{Sha256} `{Network} {PublicKey : Type} (selfID : ID)
    (replicas : gmap ID PublicKey) (ecdsa_sign : Hash → option (Z * Z))
    (ecdsa_verify : PublicKey → Hash → Z → Z → bool)
    (U : Block → Prop) (qc : QuorumCert) (c c' : BlockChain) :
  universe U → Network_ok U → chain_ok U c →
  (∀ sig, qc_signature qc = Some sig → QuorumSignature_wf sig) →
  VerifyQuorumCert (CB := ecdsaBase selfID replicas ecdsa_sign ecdsa_verify)
    (Z.of_nat (size replicas)) qc c = Ok (true, c') →
  qc_hash qc = b_hash GetGenesis ∨
  ∃ ms b, qc_signature qc = Some (SigECDSA ms) ∧ blocks c' !! qc_hash qc = Some b ∧
    dom ms ⊆ dom replicas ∧
    QuorumSize (Z.of_nat (size replicas)) ≤ Z.of_nat (size (dom ms)) ∧
    ∀ i, i ∈ dom ms → signed_by replicas ecdsa_verify ms b i.
Proof.
  intros HU HN Hc Hwf E.
  destruct (VerifyQuorumCert_true (CB := ecdsaBase selfID replicas ecdsa_sign ecdsa_verify)
    _ U HU HN qc c c' Hc E) as (_ & _ & [Hg|(sig & b & Hs & Hb & Hq & Hv)]); [by left|right].
  cbn in Hv. destruct sig as [ms|ms|agg]; [|done|done].
  specialize (Hwf _ Hs). destruct (verified_quorum replicas ecdsa_verify ms b Hwf Hq Hv)
    as (H1 & H2 & H3). by exists ms, b.
Qed.

Lemma VerifyQuorumCert_sound_witness :
  ∃ ms b, qc_signature (sample_qc sample_b2) = Some (SigECDSA ms) ∧
    blocks (store_all sample_chain) !! b_hash sample_b2 = Some b ∧
    QuorumSize 4 ≤ Z.of_nat (size (dom ms)).
Proof.
  destruct (@VerifyQuorumCert_sound sample_sha256 no_network Z 1 sample_replicas (sample_sign 1)
    sample_verify (λ b, b ∈ sample_chain) (sample_qc sample_b2)
    (store_all sample_chain) (store_all sample_chain)) as [Hg|(ms & b & Hs & Hb & _ & Hq & _)].
  - apply sample_chain_universe.
  - apply no_network_ok.
  - apply (store_all_ok (H := sample_sha256)), sample_chain_universe.
  - intros sig [= <-]. apply Multi.wf_Restore.
  - vm_compute. reflexivity.
  - vm_compute in Hg. discriminate Hg.
  - exists ms, b. split_and!; [exact Hs|exact Hb|exact Hq].
Defined.

(** Verification never looks at the view a certificate claims: changing it
    changes nothing, and a certificate naming the genesis block is accepted
    with any view and no signature at all. *)
Theorem VerifyQuorumCert_ignores_view `{Sha256} `{Network} `{CryptoBase} (n : Z)
    (qc : QuorumCert) (v : View) (c : BlockChain) :
  VerifyQuorumCert n (with_view qc v) c = VerifyQuorumCert n qc c ∧
  VerifyQuorumCert n (mkQuorumCert None v (b_hash GetGenesis)) c = Ok (true, c).
Proof.
  split; [done|]. unfold VerifyQuorumCert. cbn. by rewrite decide_True.
Qed.

(** Whatever the iteration order of the QC map, the certificate selected by
    [VerifyAggregateQC] is one of the map's and no other has a higher view. *)
Theorem high_of_maximal (qcs : gmap ID QuorumCert) (order : list (ID * QuorumCert)) :
  order ≡ₚ map_to_list qcs → qcs ≠ ∅ → map_Forall (λ _ qc, 0 ≤ qc_view qc) qcs →
  ∃ id, qcs !! id = Some (high_of order) ∧
    ∀ id' qc, qcs !! id' = Some qc → qc_view qc ≤ qc_view (high_of order).
Proof.
  intros Hord Hne Hpos.
  assert (Hin : ∀ qc, qc ∈ order.*2 ↔ ∃ id, qcs !! id = Some qc).
  { intros qc. rewrite Hord, list_elem_of_fmap. split.
    - intros ([i q] & -> & Hi%elem_of_map_to_list). by exists i.
    - intros [i Hi]. exists (i, qc). by rewrite elem_of_map_to_list. }
  destruct (select_high_spec order.*2 zero_QuorumCert) as (_ & _ & Hmax & Hmem).
  - by left.
  - apply Forall_forall. intros qc (i & Hi)%Hin. by apply Hpos in Hi.
  - assert (order.*2 ≠ []) as Hnil.
    { intros E%fmap_nil_inv. subst. symmetry in Hord. apply Permutation_nil_r in Hord.
      by apply map_to_list_empty_iff in Hord. }
    destruct (proj1 (Hin _) (Hmem Hnil eq_refl)) as [id Hid].
    exists id. split; [done|]. intros id' qc Hqc.
    rewrite Forall_forall in Hmax. apply Hmax, Hin. by exists id'.
Qed.

Lemma high_of_maximal_witness :
  ∃ id, (<[ 1 := mkQuorumCert None 5 zero_hash ]> {[ 2 := mkQuorumCert None 9 zero_hash ]}
          : gmap ID QuorumCert) !! id
        = Some (high_of [(2, mkQuorumCert None 9 zero_hash); (1, mkQuorumCert None 5 zero_hash)]).
Proof.
  destruct (high_of_maximal
    (<[ 1 := mkQuorumCert None 5 zero_hash ]> {[ 2 := mkQuorumCert None 9 zero_hash ]})
    [(2, mkQuorumCert None 9 zero_hash); (1, mkQuorumCert None 5 zero_hash)]) as (id & Hid & _).
  - rewrite map_to_list_insert by done. rewrite map_to_list_singleton. apply perm_swap.
  - apply insert_non_empty.
  - apply map_Forall_insert_2; [done|]. apply map_Forall_singleton. done.
  - exists id. exact Hid.
Defined.
