(* ===== verification/Rules.v ===== *)
(** The consensus rules: chained, fast and simple HotStuff, and the Byzantine
    wrappers (src/sourcecodes/hotstuff/consensus/chainedhotstuff/chainedhotstuff.go,
    fasthotstuff/fasthotstuff.go, simplehotstuff/simplehotstuff.go,
    byzantine/byzantine.go). *)

From S2P Require Import Prelude IDSet Signature Types Ecdsa BlockChain Certs.

(** What a rule implementation sees: the block store, its own locked block and
    (read only) the synchronizer's current view and highest QC. *)
Record RuleState := mkRuleState {
  rs_chain : BlockChain;
  rs_locked : Block;
  rs_view : View;
  rs_highQC : QuorumCert;
}.

Definition set_chain (c : BlockChain) (s : RuleState) : RuleState :=
  mkRuleState c (rs_locked s) (rs_view s) (rs_highQC s).
Definition set_locked (b : Block) (s : RuleState) : RuleState :=
  mkRuleState (rs_chain s) b (rs_view s) (rs_highQC s).
Definition on_chain {A} (m : M BlockChain A) : M RuleState A := zoom rs_chain set_chain m.

(** The interfaces [consensus.Rules] and, when present, [ProposeRuler]. *)
Class Rules := {
  VoteRule : ProposeMsg → M RuleState bool;
  CommitRule : Block → M RuleState (option Block);
  ChainLength : Z;
  ProposeRule : option (SyncInfo → Command → M RuleState (option ProposeMsg));
}.

Section Rules.
Context `{SHA : Sha256} `{NET : Network} (fuel : nat).

(** [qcRef] of chained and fast HotStuff. *)
Definition qcRef (qc : QuorumCert) : M RuleState (option Block) :=
  if decide (zero_hash = qc_hash qc) then ret None else on_chain (Get (qc_hash qc)).

(** ** Chained HotStuff *)
Definition chained_CommitRule (block : Block) : M RuleState (option Block) :=
  o1 <- qcRef (b_cert block) ;;
  match o1 with
  | None => ret None
  | Some block1 =>
      o2 <- qcRef (b_cert block1) ;;
      match o2 with
      | None => ret None
      | Some block2 =>
          modify (λ s, if decide (b_view (rs_locked s) < b_view block2)
                       then set_locked block2 s else s) ;;;
          o3 <- qcRef (b_cert block2) ;;
          match o3 with
          | None => ret None
          | Some block3 =>
              if decide (b_parent block1 = b_hash block2 ∧ b_parent block2 = b_hash block3)
              then ret (Some block3) else ret None
          end
      end
  end.

Definition chained_VoteRule (proposal : ProposeMsg) : M RuleState bool :=
  let block := pm_Block proposal in
  qcBlock <- on_chain (Get (qc_hash (b_cert block))) ;;
  bLock <- gets rs_locked ;;
  match qcBlock with
  | Some q =>
      if decide (b_view bLock < b_view q) then ret true
      else on_chain (Extends fuel block bLock)
  | None => on_chain (Extends fuel block bLock)
  end.

Definition ChainedHotStuff : Rules :=
  {| VoteRule := chained_VoteRule; CommitRule := chained_CommitRule;
     ChainLength := 3; ProposeRule := None |}.

(** ** Fast HotStuff *)
Definition fast_CommitRule (block : Block) : M RuleState (option Block) :=
  o1 <- qcRef (b_cert block) ;;
  match o1 with
  | None => ret None
  | Some parent =>
      o2 <- qcRef (b_cert parent) ;;
      match o2 with
      | None => ret None
      | Some grandparent =>
          if decide (b_parent block = b_hash parent ∧ b_view block = u64 (b_view parent + 1) ∧
                     b_parent parent = b_hash grandparent ∧
                     b_view parent = u64 (b_view grandparent + 1))
          then ret (Some grandparent) else ret None
      end
  end.

Definition fast_VoteRule (proposal : ProposeMsg) : M RuleState bool :=
  let block := pm_Block proposal in
  match pm_AggregateQC proposal with
  | Some _ =>
      hqcBlock <- on_chain (Get (qc_hash (b_cert block))) ;;
      match hqcBlock with
      | None => ret false
      | Some hqcBlock => on_chain (Extends fuel block hqcBlock)
      end
  | None =>
      view <- gets rs_view ;;
      ret (bool_decide (view ≤ b_view block) &&
           bool_decide (b_view block = u64 (qc_view (b_cert block) + 1)))
  end.

Definition FastHotStuff : Rules :=
  {| VoteRule := fast_VoteRule; CommitRule := fast_CommitRule;
     ChainLength := 2; ProposeRule := None |}.

(** ** Simple HotStuff *)
Definition simple_VoteRule (proposal : ProposeMsg) : M RuleState bool :=
  let block := pm_Block proposal in
  view <- gets rs_view ;;
  if decide (b_view block < view) then ret false
  else
    parent <- on_chain (Get (qc_hash (b_cert block))) ;;
    match parent with
    | None => ret false
    | Some parent =>
        locked <- gets rs_locked ;;
        if decide (b_view parent < b_view locked) then ret false else ret true
    end.

Definition simple_CommitRule (block : Block) : M RuleState (option Block) :=
  p <- on_chain (Get (qc_hash (b_cert block))) ;;
  match p with
  | None => ret None
  | Some p =>
      gp <- on_chain (Get (qc_hash (b_cert p))) ;;
      match gp with
      | None => ret None
      | Some gp =>
          modify (λ s, if decide (b_view (rs_locked s) < b_view gp)
                       then set_locked gp s else s) ;;;
          ggp <- on_chain (Get (qc_hash (b_cert gp))) ;;
          match ggp with
          | Some ggp => if decide (u64 (b_view ggp + 2) = b_view p) then ret (Some ggp) else ret None
          | None => ret None
          end
      end
  end.

Definition SimpleHotStuff : Rules :=
  {| VoteRule := simple_VoteRule; CommitRule := simple_CommitRule;
     ChainLength := 3; ProposeRule := None |}.

(** ** Byzantine wrappers: they only replace the proposal *)
Definition NewSilence (rules : Rules) : Rules :=
  {| VoteRule := VoteRule (Rules := rules); CommitRule := CommitRule (Rules := rules);
     ChainLength := ChainLength (Rules := rules);
     ProposeRule := Some (λ _ _, ret None) |}.

Definition fork_ProposeRule (opts : Options) (cert : SyncInfo) (cmd : Command)
    : M RuleState (option ProposeMsg) :=
  highQC <- gets rs_highQC ;;
  block <- on_chain (Get (qc_hash highQC)) ;;
  match block with
  | None => ret None
  | Some block =>
      parent <- on_chain (Get (b_parent block)) ;;
      match parent with
      | None => ret None
      | Some parent =>
          grandparent <- on_chain (Get (b_hash parent)) ;;
          match grandparent with
          | None => ret None
          | Some grandparent =>
              view <- gets rs_view ;;
              ret (Some (mkProposeMsg (opt_id opts)
                (NewBlock (b_hash grandparent) (b_cert grandparent) cmd view (opt_id opts))
                (if opt_shouldUseAggQC opts then si_aggQC cert else None)))
          end
      end
  end.

Definition NewFork (opts : Options) (rules : Rules) : Rules :=
  {| VoteRule := VoteRule (Rules := rules); CommitRule := CommitRule (Rules := rules);
     ChainLength := ChainLength (Rules := rules);
     ProposeRule := Some (fork_ProposeRule opts) |}.

(** ** What every rule call preserves *)
Section frame.
Context (U : Block → Prop) (HU : universe U) (HN : Network_ok U).

(** The store and the lock are well formed. *)
Definition rule_ok (s : RuleState) : Prop := chain_ok U (rs_chain s) ∧ U (rs_locked s).

(** The store only grows, the lock's view never decreases, and the
    read-only part is unchanged. *)
Record rule_le (s s' : RuleState) : Prop := {
  rule_chain : chain_le (rs_chain s) (rs_chain s');
  rule_lock : b_view (rs_locked s) ≤ b_view (rs_locked s');
  rule_view : rs_view s' = rs_view s;
  rule_high : rs_highQC s' = rs_highQC s;
}.
#[global] Instance rule_le_preorder : PreOrder rule_le.
Proof.
  split.
  - intros s. by split.
  - intros s1 s2 s3 [Ha1 Ha2 Ha4 Ha5] [Hb1 Hb2 Hb4 Hb5].
    split; [by etrans|lia|congruence|congruence].
Qed.

Definition rule_step (s s' : RuleState) : Prop := rule_ok s → rule_ok s' ∧ rule_le s s'.
#[global] Instance rule_step_preorder : PreOrder rule_step.
Proof.
  split; [by intros s|]. intros s1 s2 s3 H12 H23 H1.
  destruct (H12 H1) as [H2 ?]. destruct (H23 H2) as [??]. split; [done|by etrans].
Qed.

Lemma on_chain_step {A} (m : M BlockChain A) :
  respects (chain_step U) m → respects rule_step (on_chain m).
Proof.
  apply respects_zoom. intros s c Hs [Hc Hl]. destruct (Hs Hc) as [??].
  split; [done|]. split; cbn; done.
Qed.

Lemma Extends_step b t : respects (chain_step U) (Extends fuel b t).
Proof.
  generalize fuel. intros n. revert b. induction n as [|n IH]; intros b; cbn [Extends].
  { apply respects_diverge. }
  case_decide; [|apply respects_ret, _].
  apply respects_bind; [apply _|by apply Get_step|]. intros [p|]; [apply IH|apply respects_ret, _].
Qed.

(** After a lookup, the continuation may rely on the block being one of [U]. *)
Lemma Get_bind_step {A} h (k : option Block → M RuleState A) :
  (∀ b, U b → b_hash b = h → respects rule_step (k (Some b))) → respects rule_step (k None) →
  respects rule_step (bind (on_chain (Get h)) k).
Proof.
  intros Hs Hn s a s' (o & s1 & E1 & E2)%bind_Ok [Hc Hl].
  unfold on_chain, zoom, outcome_bind in E1.
  destruct (Get h (rs_chain s)) as [[o' c1]| |] eqn:E; simplify_eq.
  destruct (Get_step U HU HN h _ _ _ E Hc) as [Hc1 Hle].
  assert (Hk : respects rule_step (k o)).
  { destruct o as [b|]; [|done].
    destruct (Get_Some U HU HN _ _ _ _ Hc E) as (_ & _ & ? & ? & _). by apply Hs. }
  destruct (Hk _ _ _ E2) as [Hok Hrl]; [done|]. split; [done|].
  etrans; [|exact Hrl]. by split.
Qed.

Lemma lock_step b :
  U b →
  respects rule_step (modify (λ s, if decide (b_view (rs_locked s) < b_view b)
                                   then set_locked b s else s)).
Proof.
  intros Hb. apply respects_modify. intros s [Hc Hl]. case_decide; [|by split].
  split; [done|]. split; cbn; [done|lia|done|done].
Qed.

Lemma qcRef_bind_step {A} qc (k : option Block → M RuleState A) :
  (∀ b, U b → b_hash b = qc_hash qc → respects rule_step (k (Some b))) →
  respects rule_step (k None) →
  respects rule_step (bind (qcRef qc) k).
Proof.
  intros Hs Hn. unfold qcRef. case_decide; [|by apply Get_bind_step].
  intros s a s' E. by apply Hn in E.
Qed.
End frame.
End Rules.

(** Discharge the frame of a rule by following its calls. *)
Ltac rule_frame :=
  repeat first
    [ progress intros
    | apply respects_ret, _
    | apply respects_gets, _
    | apply qcRef_bind_step; [assumption..| |]
    | apply Get_bind_step; [assumption..| |]
    | apply respects_bind; [apply _| |]
    | apply lock_step; assumption
    | apply on_chain_step, Extends_step; assumption
    | case_decide | case_match ].

(** ** The contract of an implementation of [Rules]

    The base implementation (consensus.go) relies on nothing else. *)
Class RulesOk `{SHA : Sha256} `{NET : Network} (U : Block → Prop) (rules : Rules) : Prop := {
  VoteRule_step proposal : respects (rule_step U) (VoteRule (Rules := rules) proposal);
  CommitRule_step block : respects (rule_step U) (CommitRule (Rules := rules) block);
}.

Section instances.
Context `{SHA : Sha256} `{NET : Network} (U : Block → Prop) (HU : universe U) (HN : Network_ok U).

Lemma ChainedHotStuff_ok fuel : RulesOk U (ChainedHotStuff fuel).
Proof.
  split; intros x; cbn.
  - unfold chained_VoteRule. rule_frame.
  - unfold chained_CommitRule. rule_frame.
Qed.

Lemma FastHotStuff_ok fuel : RulesOk U (FastHotStuff fuel).
Proof.
  split; intros x; cbn.
  - unfold fast_VoteRule. rule_frame.
  - unfold fast_CommitRule. rule_frame.
Qed.

Lemma SimpleHotStuff_ok : RulesOk U SimpleHotStuff.
Proof.
  split; intros x; cbn.
  - unfold simple_VoteRule. rule_frame.
  - unfold simple_CommitRule. rule_frame.
Qed.

Lemma NewSilence_ok rules : RulesOk U rules → RulesOk U (NewSilence rules).
Proof. intros [Hv Hc]. by split. Qed.
Lemma NewFork_ok opts rules : RulesOk U rules → RulesOk U (NewFork opts rules).
Proof. intros [Hv Hc]. by split. Qed.
End instances.

(** ** Simple HotStuff, in terms of the store it leaves behind *)
Section simple.
Context `{SHA : Sha256} `{NET : Network} (U : Block → Prop) (HU : universe U) (HN : Network_ok U).

(** [certifies c b b']: the block [b'] that the certificate of [b] names. *)
Definition certifies (c : BlockChain) (b b' : Block) : Prop :=
  blocks c !! qc_hash (b_cert b) = Some b'.

Lemma on_chain_Get_Ok h s o s' :
  rule_ok U s → on_chain (Get h) s = Ok (o, s') →
  rule_ok U s' ∧ rule_le s s' ∧ rs_locked s' = rs_locked s ∧ o = blocks (rs_chain s') !! h.
Proof.
  intros Hs E. destruct (on_chain_step U (Get h) (Get_step U HU HN h) _ _ _ E Hs) as [Hok Hle].
  unfold on_chain, zoom, outcome_bind in E.
  destruct (Get h (rs_chain s)) as [[o' c1]| |] eqn:E1; simplify_eq.
  destruct (Get_ok U HU HN _ _ _ _ (proj1 Hs) E1) as (_ & _ & Ho). done.
Qed.

Lemma simple_VoteRule_true proposal s s' :
  rule_ok U s → simple_VoteRule proposal s = Ok (true, s') →
  rule_ok U s' ∧ rule_le s s' ∧ rs_locked s' = rs_locked s ∧
  rs_view s ≤ b_view (pm_Block proposal) ∧
  ∃ parent, certifies (rs_chain s') (pm_Block proposal) parent ∧
            b_view (rs_locked s) ≤ b_view parent.
Proof.
  intros Hs E. unfold simple_VoteRule in E.
  apply bind_Ok in E as (v & s1 & [= <- <-] & E). case_decide as Hv; [done|].
  apply bind_Ok in E as (o & s2 & E1 & E).
  destruct (on_chain_Get_Ok _ _ _ _ Hs E1) as (Hok & Hle & Hl & Ho).
  destruct o as [parent|]; [|done].
  apply bind_Ok in E as (l & s3 & [= <- <-] & E). case_decide as Hp; [done|].
  unfold ret in E. simplify_eq. rewrite Hl in Hp.
  split_and!; [done|done|done|lia|]. exists parent. split; [done|lia].
Qed.

Lemma simple_CommitRule_spec block s r s' :
  rule_ok U s → simple_CommitRule block s = Ok (r, s') →
  rule_ok U s' ∧ rule_le s s' ∧
  (∀ p gp, certifies (rs_chain s') block p → certifies (rs_chain s') p gp →
           b_view gp ≤ b_view (rs_locked s')) ∧
  (∀ b, r = Some b → ∃ p gp, certifies (rs_chain s') block p ∧ certifies (rs_chain s') p gp ∧
           certifies (rs_chain s') gp b ∧ u64 (b_view b + 2) = b_view p).
Proof.
  intros Hs E.
  destruct (CommitRule_step (RulesOk := SimpleHotStuff_ok U HU HN) block _ _ _ E Hs) as [Hok' Hle'].
  split; [done|]. split; [done|]. unfold simple_CommitRule in E.
  apply bind_Ok in E as (o1 & s1 & E1 & E).
  destruct (on_chain_Get_Ok _ _ _ _ Hs E1) as (Hok1 & Hle1 & Hl1 & Ho1).
  destruct o1 as [p|]; [|unfold ret in E; simplify_eq; unfold certifies; naive_solver congruence].
  apply bind_Ok in E as (o2 & s2 & E2 & E).
  destruct (on_chain_Get_Ok _ _ _ _ Hok1 E2) as (Hok2 & Hle2 & Hl2 & Ho2).
  assert (Hp2 : certifies (rs_chain s2) block p) by (eapply chain_le_lookup; [apply Hle2|done]).
  destruct o2 as [gp|]; [|unfold ret in E; simplify_eq; unfold certifies in *; naive_solver congruence].
  apply bind_Ok in E as ([] & s3 & [= <-] & E).
  match type of E with bind _ _ ?st = _ => set (s3 := st) in * end.
  assert (Hc3 : rs_chain s3 = rs_chain s2) by (unfold s3; by case_decide).
  assert (Hl3 : b_view gp ≤ b_view (rs_locked s3)) by (unfold s3; case_decide; cbn; lia).
  assert (Hok3 : rule_ok U s3).
  { unfold s3. case_decide; [|done]. split; [apply Hok2|]. cbn. by eapply Hok2. }
  apply bind_Ok in E as (o3 & s4 & E3 & E).
  destruct (on_chain_Get_Ok _ _ _ _ Hok3 E3) as (Hok4 & Hle4 & Hl4 & Ho4).
  assert (s' = s4) as -> by (destruct o3; [case_decide|]; unfold ret in E; by simplify_eq).
  assert (Hp4 : certifies (rs_chain s4) block p)
    by (eapply chain_le_lookup; [apply Hle4|by rewrite Hc3]).
  assert (Hgp4 : certifies (rs_chain s4) p gp)
    by (eapply chain_le_lookup; [apply Hle4|by rewrite Hc3]).
  split.
  - intros p' gp' Hp' Hgp'. unfold certifies in *. simplify_eq. rewrite Hl4. done.
  - intros b ->. exists p, gp. destruct o3 as [ggp|]; [|done].
    case_decide as Hv; unfold ret in E; simplify_eq. split_and!; done.
Qed.

(** *** With a network that delivers every block that exists *)

(** [par b p]: the certificate of [b] names the block [p]. *)
Definition par (b p : Block) : Prop := U p ∧ b_hash p = qc_hash (b_cert b).

Lemma par_functional b p p' : par b p → par b p' → p = p'.
Proof. intros [Hp E] [Hp' E']. apply (U_inj U HU); congruence. Qed.

Definition Network_live : Prop := ∀ k b, U b → (fetch k (b_hash b)).2 = Some b.

Context (HL : Network_live).

Lemma Get_live b p s o s' :
  rule_ok U s → on_chain (Get (qc_hash (b_cert b))) s = Ok (o, s') → par b p → o = Some p.
Proof.
  intros Hs E [Hp Eh]. rewrite <-Eh in E. unfold on_chain, zoom, outcome_bind, Get in E.
  destruct (blocks (rs_chain s) !! b_hash p) as [p'|] eqn:Eb.
  - simplify_eq. f_equal. apply (U_inj U HU); [by eapply Hs|done|by eapply Hs].
  - pose proof (HL (fetches (rs_chain s)) p Hp) as Hf.
    destruct (fetch (fetches (rs_chain s)) (b_hash p)) as [arrived res]. cbn in Hf. subst res.
    by simplify_eq.
Qed.

Lemma Get_par b p s s' :
  rule_ok U s → on_chain (Get (qc_hash (b_cert b))) s = Ok (Some p, s') → par b p.
Proof.
  intros Hs E. destruct (on_chain_Get_Ok _ _ _ _ Hs E) as (Hok & _ & _ & Ho). symmetry in Ho.
  split; [by eapply Hok|by eapply Hok].
Qed.

(** Voting needs a parent at least as high as the lock; the lock stays. *)
Lemma simple_VoteRule_live proposal s s' :
  rule_ok U s → simple_VoteRule proposal s = Ok (true, s') →
  rule_ok U s' ∧ rule_le s s' ∧ rs_locked s' = rs_locked s ∧
  ∃ p, par (pm_Block proposal) p ∧ b_view (rs_locked s) ≤ b_view p.
Proof.
  intros Hs E. destruct (simple_VoteRule_true _ _ _ Hs E) as (Hok & Hle & Hl & _ & p & Hp & Hv).
  split_and!; [done|done|done|]. exists p. split; [|done].
  unfold certifies in Hp. split; by eapply Hok.
Qed.

(** The lock moves up to the grandparent's view, and not above it. *)
Lemma simple_CommitRule_live block s r s' :
  rule_ok U s → simple_CommitRule block s = Ok (r, s') →
  rule_ok U s' ∧ rule_le s s' ∧
  (∀ p gp, par block p → par p gp → b_view gp ≤ b_view (rs_locked s')) ∧
  (∀ z, (∀ p gp, par block p → par p gp → b_view gp ≤ z) →
        b_view (rs_locked s) ≤ z → b_view (rs_locked s') ≤ z) ∧
  (∀ b, r = Some b → ∃ p gp, par block p ∧ par p gp ∧ par gp b ∧ u64 (b_view b + 2) = b_view p).
Proof.
  intros Hs E.
  destruct (CommitRule_step (RulesOk := SimpleHotStuff_ok U HU HN) block _ _ _ E Hs) as [Hok' Hle'].
  split; [done|]. split; [done|]. unfold simple_CommitRule in E.
  apply bind_Ok in E as (o1 & s1 & E1 & E).
  destruct (on_chain_Get_Ok _ _ _ _ Hs E1) as (Hok1 & Hle1 & Hl1 & Ho1).
  destruct o1 as [p|].
  2: { unfold ret in E. simplify_eq. rewrite Hl1. split_and!; [|done|done].
       intros p gp Hp _. by discriminate (Get_live _ _ _ _ _ Hs E1 Hp). }
  pose proof (Get_par _ _ _ _ Hs E1) as Hp.
  apply bind_Ok in E as (o2 & s2 & E2 & E).
  destruct (on_chain_Get_Ok _ _ _ _ Hok1 E2) as (Hok2 & Hle2 & Hl2 & Ho2).
  destruct o2 as [gp|].
  2: { unfold ret in E. simplify_eq. rewrite Hl2, Hl1. split_and!; [|done|done].
       intros p' gp Hp' Hgp. pose proof (par_functional _ _ _ Hp Hp'). subst p'.
       by discriminate (Get_live _ _ _ _ _ Hok1 E2 Hgp). }
  pose proof (Get_par _ _ _ _ Hok1 E2) as Hgp.
  apply bind_Ok in E as ([] & s3 & [= <-] & E).
  match type of E with bind _ _ ?st = _ => set (s3 := st) in * end.
  assert (Hok3 : rule_ok U s3).
  { unfold s3. case_decide; [|done]. split; [apply Hok2|]. cbn. by eapply Hok2. }
  assert (Hl3 : b_view (rs_locked s3) = Z.max (b_view (rs_locked s)) (b_view gp)).
  { unfold s3. case_decide; cbn; rewrite Hl2, Hl1 in *; lia. }
  apply bind_Ok in E as (o3 & s4 & E3 & E).
  destruct (on_chain_Get_Ok _ _ _ _ Hok3 E3) as (Hok4 & Hle4 & Hl4 & Ho4).
  assert (s' = s4) as -> by (destruct o3; [case_decide|]; unfold ret in E; by simplify_eq).
  rewrite Hl4, Hl3. split_and!.
  - intros p' gp' Hp' Hgp'. rewrite <-(par_functional _ _ _ Hp Hp') in Hgp'.
    rewrite <-(par_functional _ _ _ Hgp Hgp'). lia.
  - intros z Hz Hlz. specialize (Hz _ _ Hp Hgp). lia.
  - intros b ->. exists p, gp. destruct o3 as [ggp|]; [|done].
    pose proof (Get_par _ _ _ _ Hok3 E3) as Hggp.
    case_decide as Hv; unfold ret in E; simplify_eq. split_and!; done.
Qed.
End simple.
