(* ===== verification/Replica.v ===== *)
(** A HotStuff replica: the consensus base, the synchronizer and the voting
    machine (consensus/consensus.go, synchronizer/synchronizer.go,
    consensus/votingmachine.go of src/sourcecodes/hotstuff).

    The three modules call each other ([AdvanceView] proposes, a proposal is
    handled by [OnPropose], which advances the view), so they share one state
    and one file.  Calls that leave the replica (sending, executing, adding an
    event, starting a timer) are appended to [r_out], oldest first.

    Parameters: the rules, the leader rotation, the acceptor and command queue
    and the view duration are interfaces of the code and type classes here;
    [members] is the configuration.  [fuel] bounds the walks along parent links
    and [depth] the nesting of [AdvanceView] calls; ReplicaFacts.v shows how
    much is enough. *)

From S2P Require Import Prelude IDSet Signature Types Ecdsa BlockChain Certs Rules.

(** ** Interfaces *)

(** [modules.LeaderRotation] *)
Class LeaderRotation := GetLeader : View → ID.

(** [modules.Acceptor] and [modules.CommandQueue] on a state [A].  [GetCmd]
    returns the batch, or the empty command when none arrived in time. *)
Class CommandCache (A : Type) := {
  Accept : Command → A → bool;
  Proposed : Command → A → A;
  GetCmd : A → Command * A;
}.

(** [synchronizer.ViewDuration] on a state [D]. *)
Class ViewDuration (D : Type) := {
  Duration : D → Z;
  ViewStarted : D → D;
  ViewSucceeded : View → ID → D → D;
  ViewTimeout : View → D → D;
}.

(** ** Events and effects *)
Inductive Event :=
| EPropose (p : ProposeMsg)
| EVote (v : VoteMsg)
| ENewView (m : NewViewMsg)
| ERemoteTimeout (m : TimeoutMsg)
| ETimeout (view : View)                              (* TimeoutEvent *)
| EViewChange (view : View) (timeout : bool)          (* ViewChangeEvent *)
| EVerifyCert (cert : PartialCert) (block : Block).   (* the goroutine of OnVote *)

Inductive Action :=
| AExec (b : Block)                                   (* executor.Exec *)
| AFork (b : Block)                                   (* forkHandler.Fork *)
| APropose (p : ProposeMsg)                           (* configuration.Propose *)
| AVote (to : ID) (pc : PartialCert)                  (* leader.Vote *)
| AHandel (pc : PartialCert)                          (* handel.Begin *)
| ATimeout (m : TimeoutMsg)                           (* configuration.Timeout *)
| ANewView (to : ID) (si : SyncInfo)                  (* replica.NewView *)
| AAddEvent (e : Event)                               (* eventLoop.AddEvent *)
| ADelayUntilPropose (v : VoteMsg)                    (* eventLoop.DelayUntil *)
| ASpawn (e : Event)                                  (* go ... *)
| AStartTimer (view : View) (d : Z)
| AStopTimer.

(** ** State *)
Record Consensus := mkConsensus { lastVote : View; bExec : Block; Count : Z }.

Record Synchronizer (D : Type) := mkSynchronizer {
  currentView : View;
  highTC : TimeoutCert;
  highQC : QuorumCert;
  lastTimeout : option TimeoutMsg;
  is_timeout : bool;
  timeouts : gmap View (gmap ID TimeoutMsg);
  duration : D;
}.
Arguments mkSynchronizer {D}.
Arguments currentView {D}.
Arguments highTC {D}.
Arguments highQC {D}.
Arguments lastTimeout {D}.
Arguments is_timeout {D}.
Arguments timeouts {D}.
Arguments duration {D}.

Record Replica (A D : Type) := mkReplica {
  r_chain : BlockChain;
  r_locked : Block;
  r_cs : Consensus;
  r_sync : Synchronizer D;
  r_verifiedVotes : gmap Hash (list PartialCert);
  r_cmds : A;
  r_out : list Action;
}.
Arguments mkReplica {A D}.
Arguments r_chain {A D}.
Arguments r_locked {A D}.
Arguments r_cs {A D}.
Arguments r_sync {A D}.
Arguments r_verifiedVotes {A D}.
Arguments r_cmds {A D}.
Arguments r_out {A D}.

Section setters.
Context {A D : Type}.
Implicit Types (r : Replica A D) (s : Synchronizer D).

Definition up_chain (c : BlockChain) r := mkReplica c (r_locked r) (r_cs r) (r_sync r) (r_verifiedVotes r) (r_cmds r) (r_out r).
Definition up_rules (rs : RuleState) r := mkReplica (rs_chain rs) (rs_locked rs) (r_cs r) (r_sync r) (r_verifiedVotes r) (r_cmds r) (r_out r).
Definition up_cs (f : Consensus → Consensus) r := mkReplica (r_chain r) (r_locked r) (f (r_cs r)) (r_sync r) (r_verifiedVotes r) (r_cmds r) (r_out r).
Definition up_sync (f : Synchronizer D → Synchronizer D) r := mkReplica (r_chain r) (r_locked r) (r_cs r) (f (r_sync r)) (r_verifiedVotes r) (r_cmds r) (r_out r).
Definition up_votes (v : gmap Hash (list PartialCert)) r := mkReplica (r_chain r) (r_locked r) (r_cs r) (r_sync r) v (r_cmds r) (r_out r).
Definition up_cmds (a : A) r := mkReplica (r_chain r) (r_locked r) (r_cs r) (r_sync r) (r_verifiedVotes r) a (r_out r).
Definition up_out (a : Action) r := mkReplica (r_chain r) (r_locked r) (r_cs r) (r_sync r) (r_verifiedVotes r) (r_cmds r) (r_out r ++ [a]).

Definition set_lastVote (v : View) (c : Consensus) := mkConsensus v (bExec c) (Count c).
Definition set_currentView (v : View) s := mkSynchronizer v (highTC s) (highQC s) (lastTimeout s) (is_timeout s) (timeouts s) (duration s).
Definition set_highTC (t : TimeoutCert) s := mkSynchronizer (currentView s) t (highQC s) (lastTimeout s) (is_timeout s) (timeouts s) (duration s).
Definition set_highQC (q : QuorumCert) s := mkSynchronizer (currentView s) (highTC s) q (lastTimeout s) (is_timeout s) (timeouts s) (duration s).
Definition set_lastTimeout (m : option TimeoutMsg) s := mkSynchronizer (currentView s) (highTC s) (highQC s) m (is_timeout s) (timeouts s) (duration s).
Definition set_is_timeout (b : bool) s := mkSynchronizer (currentView s) (highTC s) (highQC s) (lastTimeout s) b (timeouts s) (duration s).
Definition set_timeouts (t : gmap View (gmap ID TimeoutMsg)) s := mkSynchronizer (currentView s) (highTC s) (highQC s) (lastTimeout s) (is_timeout s) t (duration s).
Definition set_duration (d : D) s := mkSynchronizer (currentView s) (highTC s) (highQC s) (lastTimeout s) (is_timeout s) (timeouts s) d.
End setters.

Section Replica.
Context `{SHA : Sha256} `{NET : Network} `{CB : CryptoBase} `{RU : Rules} `{LR : LeaderRotation}.
Context {A D : Type} `{CC : CommandCache A} `{VD : ViewDuration D}.
Context (opts : Options) (members : gset ID) (fuel : nat).

Abbreviation R := (Replica A D).
Definition numReplicas : Z := Z.of_nat (size members).

Definition emit (a : Action) : M R unit := modify (up_out a).
Definition with_chain {T} (m : M BlockChain T) : M R T := zoom r_chain up_chain m.
Definition rule_view_of (r : R) : RuleState :=
  mkRuleState (r_chain r) (r_locked r) (currentView (r_sync r)) (highQC (r_sync r)).
Definition with_rules {T} (m : M RuleState T) : M R T := zoom rule_view_of up_rules m.
Definition modify_sync (f : Synchronizer D → Synchronizer D) : M R unit := modify (up_sync f).
Definition modify_duration (f : D → D) : M R unit :=
  modify_sync (λ s, set_duration (f (duration s)) s).
Definition getView : M R View := gets (λ r, currentView (r_sync r)).
Definition getSyncInfo : M R SyncInfo :=
  gets (λ r, WithTC (WithQC NewSyncInfo (highQC (r_sync r))) (highTC (r_sync r))).

(** ** consensus.go *)
Definition CommittedBlock : M R Block := gets (λ r, bExec (r_cs r)).
Definition StopVoting (view : View) : M R unit :=
  modify (up_cs (λ c, if decide (lastVote c < view) then set_lastVote view c else c)).

Fixpoint commitInner (n : nat) (block : Block) : M R bool :=
  match n with
  | O => diverge
  | S n' =>
      exec <- gets (λ r, bExec (r_cs r)) ;;
      if decide (b_view block ≤ b_view exec) then ret true
      else
        parent <- with_chain (Get (b_parent block)) ;;
        match parent with
        | None => ret false    (* failed to locate block *)
        | Some parent =>
            ok <- commitInner n' parent ;;
            if (ok : bool) then
              emit (AExec block) ;;;
              modify (up_cs (λ c, mkConsensus (lastVote c) block (i64 (Count c + 1)))) ;;;
              ret true
            else ret false
        end
  end.

Definition commit (block : Block) : M R unit :=
  ok <- commitInner fuel block ;;
  if (ok : bool) then
    exec <- gets (λ r, bExec (r_cs r)) ;;
    forkedBlocks <- with_chain (PruneToHeight fuel (b_view exec) (b_view block)) ;;
    for_each (λ b, emit (AFork b)) forkedBlocks
  else ret tt.

(** Tell the acceptor that the block certified by [hash] was proposed. *)
Definition acceptor_proposed (hash : Hash) : M R unit :=
  qcBlock <- with_chain (Get hash) ;;
  match qcBlock with
  | Some b => modify (λ r, up_cmds (Proposed (b_cmd b) (r_cmds r)) r)
  | None => ret tt
  end.

(** The last part of [OnPropose]: sign and send the vote. *)
Definition vote_for (block : Block) : M R unit :=
  last <- gets (λ r, lastVote (r_cs r)) ;;
  if decide (b_view block ≤ last) then ret tt     (* block view too old *)
  else
    r <- lift (CreatePartialCert block) ;;
    match r with
    | inl _ => ret tt                             (* failed to sign block *)
    | inr pc =>
        modify (up_cs (set_lastVote (b_view block))) ;;;
        if opt_shouldUseHandel opts then emit (AHandel pc)
        else
          let leaderID := GetLeader (u64 (b_view block + 1)) in
          if decide (leaderID = opt_id opts) then
            emit (AAddEvent (EVote (mkVoteMsg (opt_id opts) pc false)))
          else if decide (leaderID ∈ members) then emit (AVote leaderID pc)
          else ret tt
    end.

(** [advance] is the synchronizer's [AdvanceView]. *)
Definition OnPropose_with (advance : SyncInfo → M R unit) (proposal : ProposeMsg) : M R unit :=
  let block := pm_Block proposal in
  aggOk <- (match pm_AggregateQC proposal with
            | Some aggQC =>
                if opt_shouldUseAggQC opts then
                  high <- with_chain (VerifyAggregateQC numReplicas aggQC) ;;
                  match high with
                  | None => ret false
                  | Some high => ret (QuorumCert_Equals (b_cert block) high)
                  end
                else ret true
            | None => ret true
            end) ;;
  if negb aggOk then ret tt else
  qcOk <- with_chain (VerifyQuorumCert numReplicas (b_cert block)) ;;
  if negb qcOk then ret tt else
  if decide (pm_ID proposal ≠ GetLeader (b_view block)) then ret tt else
  safe <- with_rules (VoteRule proposal) ;;
  if negb safe then ret tt else
  acceptor_proposed (qc_hash (b_cert block)) ;;;
  accepted <- gets (λ r, Accept (b_cmd block) (r_cmds r)) ;;
  if negb accepted then ret tt else
  modify (λ r, up_chain (Store block (r_chain r)) r) ;;;
  toCommit <- with_rules (CommitRule block) ;;
  match toCommit with Some b => commit b | None => ret tt end ;;;
  advance (WithQC NewSyncInfo (b_cert block)) ;;;
  vote_for block.

(** The proposal of [Propose]: the rule's own, or a block on the QC's block. *)
Definition make_proposal (cert : SyncInfo) (cmd : Command) : M R (option ProposeMsg) :=
  match ProposeRule with
  | Some rule => with_rules (rule cert cmd)
  | None =>
      let qc := default zero_QuorumCert (si_qc cert) in
      view <- getView ;;
      ret (Some (mkProposeMsg (opt_id opts)
             (NewBlock (qc_hash qc) qc cmd view (opt_id opts))
             (if opt_shouldUseAggQC opts then si_aggQC cert else None)))
  end.

Definition UpdateLeaderTimer : M R unit :=
  view <- getView ;;
  modify_duration (λ d, ViewStarted (ViewSucceeded view (opt_id opts) d)).

Definition Propose_with (advance : SyncInfo → M R unit) (cert : SyncInfo) : M R unit :=
  match si_qc cert with
  | Some qc => acceptor_proposed (qc_hash qc)
  | None => ret tt
  end ;;;
  cmd <- (λ r, Ok ((GetCmd (r_cmds r)).1, up_cmds (GetCmd (r_cmds r)).2 r)) ;;
  proposal <- make_proposal cert cmd ;;
  match proposal with
  | None => ret tt
  | Some proposal =>
      modify (λ r, up_chain (Store (pm_Block proposal) (r_chain r)) r) ;;;
      emit (APropose proposal) ;;;
      UpdateLeaderTimer ;;;
      OnPropose_with advance proposal
  end.

(** ** synchronizer.go *)
Definition HighQC : M R QuorumCert := gets (λ r, highQC (r_sync r)).
(** Whether a local timeout happened and [view] is not beyond the next view. *)
Definition CheckTimeout (view : View) : M R bool :=
  gets (λ r, is_timeout (r_sync r) && bool_decide (view ≤ u64 (currentView (r_sync r) + 1))).
Definition startTimeoutTimer : M R unit :=
  view <- getView ;;
  d <- gets (λ r, Duration (duration (r_sync r))) ;;
  emit (AStartTimer view d).

Definition updateHighQC (qc : QuorumCert) : M R unit :=
  newBlock <- with_chain (Get (qc_hash qc)) ;;
  match newBlock with
  | None => ret tt
  | Some b =>
      modify_sync (λ s, if decide (qc_view (highQC s) < b_view b) then set_highQC qc s else s)
  end.

Definition updateHighTC (tc : TimeoutCert) : M R unit :=
  modify_sync (λ s, if decide (tc_view (highTC s) < tc_view tc) then set_highTC tc s else s).

(** The certificate checks of [AdvanceView].  The result is [None] when one
    fails, otherwise the view reached, whether it was by timeout, and the
    sync info with the true high QC. *)
Definition check_TC (syncInfo : SyncInfo) : M R (option (View * bool)) :=
  match si_tc syncInfo with
  | None => ret (Some (0, false))
  | Some tc =>
      ok <- lift (VerifyTimeoutCert numReplicas tc) ;;
      if (ok : bool) then updateHighTC tc ;;; ret (Some (tc_view tc, true)) else ret None
  end.

Definition check_QC (syncInfo : SyncInfo) (v : View) (timeout : bool)
    : M R (option (View * bool * SyncInfo * option QuorumCert)) :=
  match si_aggQC syncInfo, opt_shouldUseAggQC opts with
  | Some aggQC, true =>
      high <- with_chain (VerifyAggregateQC numReplicas aggQC) ;;
      match high with
      | None => ret None
      | Some high =>
          if decide (v ≤ agg_view aggQC)
          then ret (Some (agg_view aggQC, true, WithQC syncInfo high, Some high))
          else ret (Some (v, timeout, WithQC syncInfo high, Some high))
      end
  | _, _ =>
      match si_qc syncInfo with
      | None => ret (Some (v, timeout, syncInfo, None))
      | Some qc =>
          ok <- with_chain (VerifyQuorumCert numReplicas qc) ;;
          if (ok : bool) then ret (Some (v, timeout, syncInfo, Some qc)) else ret None
      end
  end.

Definition use_QC (qc : option QuorumCert) (v : View) (timeout : bool) : M R (View * bool) :=
  match qc with
  | None => ret (v, timeout)
  | Some qc =>
      updateHighQC qc ;;;
      if decide (v ≤ qc_view qc) then ret (qc_view qc, false) else ret (v, timeout)
  end.

(** Entering the view after [v]. *)
Definition enter_view (v : View) (timeout : bool) : M R View :=
  emit AStopTimer ;;;
  (if timeout then ret tt
   else view <- getView ;; modify_duration (ViewSucceeded view (GetLeader (u64 (v + 1))))) ;;;
  let newView := u64 (v + 1) in
  modify_sync (λ s, set_lastTimeout None (set_currentView newView s)) ;;;
  modify_duration ViewStarted ;;;
  startTimeoutTimer ;;;
  emit (AAddEvent (EViewChange newView timeout)) ;;;
  ret newView.

Definition AdvanceView_with (propose : SyncInfo → M R unit) (syncInfo : SyncInfo) : M R unit :=
  tc <- check_TC syncInfo ;;
  match tc with
  | None => ret tt
  | Some (v, timeout) =>
      checked <- check_QC syncInfo v timeout ;;
      match checked with
      | None => ret tt
      | Some (v, timeout, syncInfo, qc) =>
          vt <- use_QC qc v timeout ;;
          view <- getView ;;
          if decide (vt.1 < view) then ret tt
          else
            newView <- enter_view vt.1 vt.2 ;;
            let leader := GetLeader newView in
            if decide (leader = opt_id opts) then
              modify_sync (set_currentView newView) ;;;
              propose syncInfo
            else if decide (leader ∈ members) then emit (ANewView leader syncInfo)
            else ret tt
      end
  end.

(** The recursive knot: a view change may propose, which may change the view. *)
Fixpoint AdvanceView (depth : nat) (syncInfo : SyncInfo) : M R unit :=
  match depth with
  | O => diverge
  | S depth' => AdvanceView_with (Propose_with (AdvanceView depth')) syncInfo
  end.
Definition Propose (depth : nat) : SyncInfo → M R unit := Propose_with (AdvanceView depth).
Definition OnPropose (depth : nat) : ProposeMsg → M R unit := OnPropose_with (AdvanceView depth).

(** The deferred cleanup of [OnRemoteTimeout]. *)
Definition cleanup_timeouts (currView : View) : M R unit :=
  modify_sync (λ s, set_timeouts (filter (λ kv, ¬ kv.1 < currView) (timeouts s)) s).

Definition record_timeout (timeout : TimeoutMsg) (m : gmap View (gmap ID TimeoutMsg))
    : gmap View (gmap ID TimeoutMsg) :=
  let ts := default ∅ (m !! tm_View timeout) in
  let ts := match ts !! tm_ID timeout with
            | Some _ => ts
            | None => <[ tm_ID timeout := timeout ]> ts
            end in
  <[ tm_View timeout := ts ]> m.

(** From a quorum of timeouts to the next view. *)
Definition timeout_quorum (depth : nat) (currView view : View) (ts : gmap ID TimeoutMsg) : M R unit :=
  let timeoutList := (map_to_list ts).*2 in
  tc <- lift (CreateTimeoutCert view timeoutList) ;;
  match tc with
  | inl _ => ret tt
  | inr tc =>
      si <- getSyncInfo ;;
      si <- (if opt_shouldUseAggQC opts then
               agg <- lift (CreateAggregateQC currView timeoutList) ;;
               match agg with
               | inl _ => ret (WithTC si tc)
               | inr agg => ret (WithAggQC (WithTC si tc) agg)
               end
             else ret (WithTC si tc)) ;;
      modify_sync (λ s, set_timeouts (delete view (timeouts s)) s) ;;;
      AdvanceView depth si
  end.

Definition OnRemoteTimeout (depth : nat) (timeout : TimeoutMsg) : M R unit :=
  currView <- getView ;;
  valid <- lift (Verify (tm_ViewSignature timeout) (View_ToBytes (tm_View timeout))) ;;
  (if negb valid then ret tt
   else
     AdvanceView depth (tm_SyncInfo timeout) ;;;
     modify_sync (λ s, set_timeouts (record_timeout timeout (timeouts s)) s) ;;;
     ts <- gets (λ r, default ∅ (timeouts (r_sync r) !! tm_View timeout)) ;;
     if decide (Z.of_nat (size ts) < QuorumSize numReplicas) then ret tt
     else timeout_quorum depth currView (tm_View timeout) ts) ;;;
  cleanup_timeouts currView.

(** The new timeout message of [OnLocalTimeout]; [None] when signing fails. *)
Definition make_timeout (view : View) (si : SyncInfo) : option TimeoutMsg :=
  match Sign (View_ToBytes view) with
  | inl _ => None
  | inr sig =>
      let msg := mkTimeoutMsg (opt_id opts) view (Some sig) None si in
      if opt_shouldUseAggQC opts then
        match Sign (TimeoutMsg_ToBytes msg) with
        | inl _ => None
        | inr sig2 => Some (mkTimeoutMsg (opt_id opts) view (Some sig) (Some sig2) si)
        end
      else Some msg
  end.

Definition OnLocalTimeout (depth : nat) : M R unit :=
  startTimeoutTimer ;;;
  view <- getView ;;
  modify_sync (set_is_timeout true) ;;;
  last <- gets (λ r, lastTimeout (r_sync r)) ;;
  let again := m ← last; if decide (tm_View m = view) then Some m else None in
  match again with
  | Some m => emit (ATimeout m)                    (* send the last timeout again *)
  | None =>
      modify_duration (ViewTimeout view) ;;;
      si <- getSyncInfo ;;
      match make_timeout view si with
      | None => ret tt
      | Some msg =>
          modify_sync (set_lastTimeout (Some msg)) ;;;
          StopVoting view ;;;
          emit (ATimeout msg) ;;;
          OnRemoteTimeout depth msg
      end
  end.

Definition OnNewView (depth : nat) (newView : NewViewMsg) : M R unit :=
  AdvanceView depth (nv_SyncInfo newView).

Definition Start (depth : nat) : M R unit :=
  startTimeoutTimer ;;;
  view <- getView ;;
  if decide (view = 1 ∧ GetLeader view = opt_id opts) then
    si <- getSyncInfo ;; Propose depth si
  else ret tt.

(** ** votingmachine.go *)

(** The deferred cleanup of [verifyCert]. *)
Definition keep_votes (r : R) (hash : Hash) : Prop :=
  match LocalGet hash (r_chain r) with
  | Some b => qc_view (highQC (r_sync r)) < b_view b
  | None => False
  end.
#[global] Instance keep_votes_dec r h : Decision (keep_votes r h).
Proof. unfold keep_votes. destruct (LocalGet h (r_chain r)); apply _. Defined.
Definition cleanup_votes : M R unit :=
  modify (λ r, up_votes (filter (λ kv, keep_votes r kv.1) (r_verifiedVotes r)) r).

Definition verifyCert (cert : PartialCert) (block : Block) : M R unit :=
  valid <- with_chain (VerifyPartialCert cert) ;;
  if negb valid then ret tt
  else
    votes <- gets (λ r, default [] (r_verifiedVotes r !! pc_blockHash cert) ++ [cert]) ;;
    modify (λ r, up_votes (<[ pc_blockHash cert := votes ]> (r_verifiedVotes r)) r) ;;;
    (if decide (Z.of_nat (length votes) < QuorumSize numReplicas) then ret tt
     else
       qc <- lift (CreateQuorumCert block votes) ;;
       match qc with
       | inl _ => ret tt
       | inr qc =>
           modify (λ r, up_votes (delete (pc_blockHash cert) (r_verifiedVotes r)) r) ;;;
           emit (AAddEvent (ENewView (mkNewViewMsg (opt_id opts) (WithQC NewSyncInfo qc))))
       end) ;;;
    cleanup_votes.

Definition check_and_verify (cert : PartialCert) (block : Block) : M R unit :=
  high <- gets (λ r, qc_view (highQC (r_sync r))) ;;
  if decide (b_view block ≤ high) then ret tt      (* too old *)
  else if opt_shouldVerifyVotesSync opts then verifyCert cert block
  else emit (ASpawn (EVerifyCert cert block)).

Definition OnVote (vote : VoteMsg) : M R unit :=
  let cert := vm_PartialCert vote in
  if negb (vm_Deferred vote) then
    block <- gets (λ r, LocalGet (pc_blockHash cert) (r_chain r)) ;;
    match block with
    | None => emit (ADelayUntilPropose (mkVoteMsg (vm_ID vote) cert true))
    | Some block => check_and_verify cert block
    end
  else
    block <- with_chain (Get (pc_blockHash cert)) ;;
    match block with
    | None => ret tt
    | Some block => check_and_verify cert block
    end.

(** ** The handlers registered on the event loop *)
Definition handle (depth : nat) (e : Event) : M R unit :=
  match e with
  | EPropose p => OnPropose depth p
  | EVote v => OnVote v
  | ENewView m => OnNewView depth m
  | ERemoteTimeout m => OnRemoteTimeout depth m
  | ETimeout view => cur <- getView ;; if decide (cur = view) then OnLocalTimeout depth else ret tt
  | EViewChange _ _ => ret tt
  | EVerifyCert cert block => verifyCert cert block
  end.

(** [New] of the three modules, after [InitModule]. *)
Definition init (cmds : A) (d : D) : R :=
  mkReplica New GetGenesis (mkConsensus 0 GetGenesis 0)
    (mkSynchronizer 1 (mkTimeoutCert None 0) (mkQuorumCert None 0 (b_hash GetGenesis))
       None false ∅ d)
    ∅ cmds [].
End Replica.
