(* ===== verification/ReplicaFrame.v ===== *)
(** What the handlers of a replica leave alone.

    [quiet] is the relation of every computation that neither votes nor
    executes a block: the log only grows, the block store stays well formed,
    the lock and [lastVote] only move up.  It is proved once for each operation
    of consensus.go, synchronizer.go and votingmachine.go that is not itself a
    vote or a commit, and the protocol proofs compose it. *)

From S2P Require Import Prelude IDSet Signature Types Ecdsa BlockChain Certs Rules Replica.

(** ** Reading the log *)
Definition vote_hash (a : Action) : option Hash :=
  match a with
  | AVote _ pc | AHandel pc => Some (pc_blockHash pc)
  | AAddEvent (EVote v) => Some (pc_blockHash (vm_PartialCert v))
  | _ => None
  end.
Definition exec_block (a : Action) : option Block :=
  match a with AExec b => Some b | _ => None end.

(** The blocks voted for and the blocks executed, oldest first. *)
Definition votes {A D} (r : Replica A D) : list Hash := omap vote_hash (r_out r).
Definition execs {A D} (r : Replica A D) : list Block := omap exec_block (r_out r).

(** An action that is neither a vote nor an execution. *)
Definition silent (a : Action) : Prop := vote_hash a = None ∧ exec_block a = None.

(** ** The log *)
Section OutPrimitives.
Context {A D : Type} `{CC : CommandCache A}.
Abbreviation R := (Replica A D).

(** The log is only appended to. *)
Definition out_le (r r' : R) : Prop := r_out r `prefix_of` r_out r'.
#[global] Instance out_le_preorder : PreOrder out_le.
Proof. unfold out_le. split; [by intros r|]. intros r1 r2 r3 ??. by etrans. Qed.

Lemma emit_out a : respects out_le (emit a).
Proof. apply respects_modify. intros r. by exists [a]. Qed.
Lemma modify_out f : (∀ r : R, r_out (f r) = r_out r) → respects out_le (modify f).
Proof. intros Hf. apply respects_modify. intros r. unfold out_le. by rewrite Hf. Qed.
Lemma with_chain_out {T} (m : M BlockChain T) : respects out_le (with_chain m).
Proof. eapply respects_zoom with (RT := λ _ _, True); [|done]. intros r c _. by unfold out_le. Qed.
Lemma with_rules_out {T} (m : M RuleState T) : respects out_le (with_rules m).
Proof. eapply respects_zoom with (RT := λ _ _, True); [|done]. intros r c _. by unfold out_le. Qed.
Lemma GetCmd_out :
  respects out_le (λ r : R, Ok ((GetCmd (r_cmds r)).1, up_cmds (GetCmd (r_cmds r)).2 r)).
Proof. intros r a r' E. simplify_eq. by unfold out_le. Qed.

End OutPrimitives.

Ltac out_step :=
  lazymatch goal with
  | |- respects _ (ret _) => apply respects_ret, _
  | |- respects _ (gets _) => apply respects_gets, _
  | |- respects _ getView => apply respects_gets, _
  | |- respects _ (lift _) => apply respects_lift, _
  | |- respects _ panic => apply respects_panic
  | |- respects _ diverge => apply respects_diverge
  | |- respects _ (emit _) => apply emit_out
  | |- respects _ (bind _ _) => apply respects_bind; [apply _| |]
  | |- respects _ (match _ with _ => _ end) => first [case_decide | case_match]
  | |- respects _ (with_chain _) => apply with_chain_out
  | |- respects _ (with_rules _) => apply with_rules_out
  | |- respects _ (modify _) => apply modify_out; done
  | |- respects _ (modify_sync _) => apply modify_out; done
  | |- respects _ (modify_duration _) => apply modify_out; done
  | |- respects _ (for_each _ _) => apply respects_for_each; [apply _|]
  | |- respects _ (λ r, Ok ((GetCmd _).1, _)) => apply GetCmd_out
  | |- ∀ _, _ => intros ?
  end.
Ltac out_frame := repeat out_step.

Section Out.
Context `{SHA : Sha256} `{NET : Network} `{CB : CryptoBase} `{RU : Rules} `{LR : LeaderRotation}.
Context {A D : Type} `{CC : CommandCache A} `{VD : ViewDuration D}.
Context (opts : Options) (members : gset ID) (fuel : nat).
Abbreviation R := (Replica A D).
Abbreviation out_le := (@out_le A D).

(** Every handler only appends to the log. *)
Lemma commitInner_out n b : respects out_le (commitInner n b).
Proof. revert b. induction n as [|n IH]; intros b; cbn [commitInner]; out_frame. apply IH. Qed.
Lemma vote_for_out b : respects out_le (vote_for opts members b).
Proof. unfold vote_for. out_frame. Qed.
Lemma OnPropose_with_out advance p :
  (∀ si, respects out_le (advance si)) → respects out_le (OnPropose_with opts members fuel advance p).
Proof.
  intros Ha. unfold OnPropose_with, acceptor_proposed, commit.
  out_frame; auto using vote_for_out, commitInner_out.
Qed.
Lemma Propose_with_out advance si :
  (∀ si, respects out_le (advance si)) → respects out_le (Propose_with opts members fuel advance si).
Proof.
  intros Ha. unfold Propose_with, acceptor_proposed, make_proposal, UpdateLeaderTimer.
  out_frame. by apply OnPropose_with_out.
Qed.
Lemma AdvanceView_out depth si : respects out_le (AdvanceView opts members fuel depth si).
Proof.
  revert si. induction depth as [|depth IH]; intros si; cbn [AdvanceView]; [apply respects_diverge|].
  unfold AdvanceView_with, check_TC, check_QC, use_QC, enter_view, updateHighQC, updateHighTC,
    startTimeoutTimer. out_frame. by apply Propose_with_out.
Qed.
Lemma timeout_quorum_out depth c v ts : respects out_le (timeout_quorum opts members fuel depth c v ts).
Proof. unfold timeout_quorum, getSyncInfo. out_frame; apply AdvanceView_out. Qed.
Lemma OnRemoteTimeout_out depth m : respects out_le (OnRemoteTimeout opts members fuel depth m).
Proof.
  unfold OnRemoteTimeout, cleanup_timeouts. out_frame; auto using AdvanceView_out, timeout_quorum_out.
Qed.
Lemma OnLocalTimeout_out depth : respects out_le (OnLocalTimeout opts members fuel depth).
Proof.
  unfold OnLocalTimeout, startTimeoutTimer, getSyncInfo, StopVoting. out_frame. apply OnRemoteTimeout_out.
Qed.
End Out.

(** ** Quiet computations *)
Section Frame.
Context `{SHA : Sha256} `{NET : Network} `{CB : CryptoBase} `{RU : Rules} `{LR : LeaderRotation}.
Context {A D : Type} `{CC : CommandCache A} `{VD : ViewDuration D}.
Context (opts : Options) (members : gset ID) (fuel : nat).
Context (U : Block → Prop) (HU : universe U) (HN : Network_ok U) (HR : RulesOk U RU).
Context (K : QuorumCert → Prop).

Abbreviation R := (Replica A D).

Definition base_ok (r : R) : Prop := chain_ok U (r_chain r) ∧ U (r_locked r).

Record quiet (r r' : R) : Prop := {
  q_out : ∃ new, r_out r' = r_out r ++ new ∧ Forall silent new;
  q_base : base_ok r → base_ok r' ∧ b_view (r_locked r) ≤ b_view (r_locked r');
  q_lastVote : lastVote (r_cs r) ≤ lastVote (r_cs r');
  q_bExec : bExec (r_cs r') = bExec (r_cs r);
  q_high : K (highQC (r_sync r)) → K (highQC (r_sync r'));
}.

#[global] Instance quiet_preorder : PreOrder quiet.
Proof.
  split.
  - intros r. split; [|done..]. exists []. by rewrite app_nil_r.
  - intros r1 r2 r3 [(n1 & E1 & S1) B1 V1 X1 K1] [(n2 & E2 & S2) B2 V2 X2 K2]. split.
    + exists (n1 ++ n2). rewrite E2, E1, <-app_assoc. split; [done|by apply Forall_app].
    + intros Hb. destruct (B1 Hb) as [Hb2 ?]. destruct (B2 Hb2) as [? ?]. split; [done|lia].
    + lia.
    + congruence.
    + auto.
Qed.

Lemma quiet_out_le r r' : quiet r r' → out_le r r'.
Proof. intros [(new & E & _) _ _ _ _]. exists new. done. Qed.

Lemma omap_silent new :
  Forall silent new → omap vote_hash new = [] ∧ omap exec_block new = [].
Proof.
  induction 1 as [|a new [Hv He] _ [IH1 IH2]]; [done|]. csimpl. by rewrite Hv, He.
Qed.

Lemma quiet_votes r r' : quiet r r' → votes r' = votes r.
Proof.
  intros [(new & E & Hs) _ _ _ _]. unfold votes. rewrite E, omap_app.
  destruct (omap_silent _ Hs) as [-> _]. by rewrite app_nil_r.
Qed.
Lemma quiet_execs r r' : quiet r r' → execs r' = execs r.
Proof.
  intros [(new & E & Hs) _ _ _ _]. unfold execs. rewrite E, omap_app.
  destruct (omap_silent _ Hs) as [_ ->]. by rewrite app_nil_r.
Qed.

(** *** The primitives *)
Lemma quiet_same (r r' : R) :
  r_out r' = r_out r → r_chain r' = r_chain r → r_locked r' = r_locked r →
  lastVote (r_cs r) ≤ lastVote (r_cs r') → bExec (r_cs r') = bExec (r_cs r) →
  (K (highQC (r_sync r)) → K (highQC (r_sync r'))) → quiet r r'.
Proof.
  intros Eo Ec El Hv Hx HK. split; [|unfold base_ok; rewrite Ec, El; done|done|done|done].
  exists []. by rewrite app_nil_r.
Qed.

Lemma emit_quiet a : silent a → respects quiet (emit a).
Proof.
  intros Ha. apply respects_modify. intros r. split; [|done..]. exists [a]. split; [done|].
  by apply Forall_singleton.
Qed.
Lemma with_chain_quiet {T} (m : M BlockChain T) :
  respects (chain_step U) m → respects quiet (with_chain m).
Proof.
  apply respects_zoom. intros r c Hc. split; [|unfold base_ok|done..].
  - exists []. by rewrite app_nil_r.
  - intros [Hb Hl]. cbn. destruct (Hc Hb). done.
Qed.
Lemma with_rules_quiet {T} (m : M RuleState T) :
  respects (rule_step U) m → respects quiet (with_rules m).
Proof.
  apply respects_zoom. intros r c Hc. split; [|unfold base_ok|done..].
  - exists []. by rewrite app_nil_r.
  - intros Hb. destruct (Hc Hb) as [Hok Hle]. split; [exact Hok|apply Hle].
Qed.
Lemma modify_sync_quiet f :
  (∀ s, K (highQC s) → K (highQC (f s))) → respects quiet (modify_sync f).
Proof. intros Hf. apply respects_modify. intros r. apply quiet_same; try done. apply Hf. Qed.
Lemma modify_duration_quiet f : respects quiet (modify_duration f).
Proof. by apply modify_sync_quiet. Qed.
Lemma up_votes_quiet f : respects quiet (modify (λ r, up_votes (f r) r)).
Proof. apply respects_modify. intros r. by apply quiet_same. Qed.
Lemma up_cmds_quiet f : respects quiet (modify (λ r, up_cmds (f r) r)).
Proof. apply respects_modify. intros r. by apply quiet_same. Qed.
Lemma StopVoting_quiet v : respects quiet (StopVoting v).
Proof.
  apply respects_modify. intros r. apply quiet_same; try done; cbn; case_decide; cbn; try done; lia.
Qed.
Lemma Store_quiet b : U b → respects quiet (modify (λ r, up_chain (Store b (r_chain r)) r)).
Proof.
  intros Hb. apply respects_modify. intros r. split; [|unfold base_ok|done..].
  - exists []. by rewrite app_nil_r.
  - cbn. intros [Hc Hl]. destruct (Store_ok U HU b _ Hc Hb). done.
Qed.
Lemma GetCmd_quiet :
  respects quiet (λ r : R, Ok ((GetCmd (r_cmds r)).1, up_cmds (GetCmd (r_cmds r)).2 r)).
Proof. intros r a r' E. simplify_eq. by apply quiet_same. Qed.

(** Follow a computation call by call. *)
Ltac quiet_step :=
  lazymatch goal with
  | |- respects _ (ret _) => apply respects_ret, _
  | |- respects _ (gets _) => apply respects_gets, _
  | |- respects _ (lift _) => apply respects_lift, _
  | |- respects _ panic => apply respects_panic
  | |- respects _ diverge => apply respects_diverge
  | |- respects _ (emit _) => apply emit_quiet; done
  | |- respects _ (bind _ _) => apply respects_bind; [apply _| |]
  | |- respects _ (match _ with _ => _ end) => first [case_decide | case_match]
  | |- respects _ (with_chain _) => apply with_chain_quiet; first
        [ apply Get_step; done | apply VerifyQuorumCert_step; done
        | apply VerifyPartialCert_step; done | apply VerifyAggregateQC_step; done ]
  | |- respects _ (modify (λ r, up_votes _ _)) => apply up_votes_quiet
  | |- respects _ (modify (λ r, up_cmds _ _)) => apply up_cmds_quiet
  | |- respects _ (modify_duration _) => apply modify_duration_quiet
  | |- respects _ (modify_sync _) => apply modify_sync_quiet; by auto
  | |- respects _ (StopVoting _) => apply StopVoting_quiet
  | |- respects _ (λ r, Ok ((GetCmd _).1, _)) => apply GetCmd_quiet
  | |- ∀ _, _ => intros ?
  end.
Ltac quiet := repeat quiet_step.

(** *** The operations without votes or executions *)
Lemma getView_quiet : respects quiet (getView (A := A) (D := D)).
Proof. apply respects_gets, _. Qed.
Lemma acceptor_proposed_quiet h : respects quiet (acceptor_proposed h).
Proof. unfold acceptor_proposed. quiet. Qed.
Lemma UpdateLeaderTimer_quiet : respects quiet (UpdateLeaderTimer opts).
Proof. unfold UpdateLeaderTimer, getView. quiet. Qed.
Lemma startTimeoutTimer_quiet : respects quiet startTimeoutTimer.
Proof. unfold startTimeoutTimer, getView. quiet. Qed.
Lemma updateHighTC_quiet tc : respects quiet (updateHighTC tc).
Proof. apply modify_sync_quiet. intros s. by case_decide. Qed.
Lemma updateHighQC_quiet qc : K qc → respects quiet (updateHighQC qc).
Proof.
  intros Hqc. unfold updateHighQC. quiet. apply modify_sync_quiet. intros s. by case_decide.
Qed.
Lemma check_TC_quiet si : respects quiet (check_TC members si).
Proof. unfold check_TC. quiet. apply updateHighTC_quiet. Qed.
Lemma check_QC_quiet si v t : respects quiet (check_QC opts members si v t).
Proof. unfold check_QC. quiet. Qed.
Lemma use_QC_quiet qc v t : (∀ q, qc = Some q → K q) → respects quiet (use_QC qc v t).
Proof. intros Hq. unfold use_QC. quiet. apply updateHighQC_quiet. auto. Qed.
Lemma enter_view_quiet v t : respects quiet (enter_view v t).
Proof. unfold enter_view, getView. quiet. apply startTimeoutTimer_quiet. Qed.
Lemma cleanup_timeouts_quiet v : respects quiet (cleanup_timeouts v).
Proof. by apply modify_sync_quiet. Qed.
Lemma verifyCert_quiet cert b : respects quiet (verifyCert opts members cert b).
Proof. unfold verifyCert, cleanup_votes. quiet. Qed.
Lemma OnVote_quiet vote : respects quiet (OnVote opts members vote).
Proof. unfold OnVote, check_and_verify. quiet; apply verifyCert_quiet. Qed.
Lemma VoteRule_quiet p : respects quiet (with_rules (VoteRule p)).
Proof. apply with_rules_quiet, HR. Qed.
Lemma CommitRule_quiet b : respects quiet (with_rules (CommitRule b)).
Proof. apply with_rules_quiet, HR. Qed.
Lemma PruneToHeight_quiet h v : respects quiet (with_chain (PruneToHeight fuel h v)).
Proof.
  apply with_chain_quiet. intros c a c' E Hc. unfold PruneToHeight, outcome_bind in E.
  destruct (committed_views _ _ _ _); [|done..]. destruct (foldl _ _ _). simplify_eq.
  split; [split; apply Hc|by unfold chain_le].
Qed.
End Frame.
