(* ===== verification/SimpleLocal.v ===== *)
(** One replica running simple HotStuff (consensus.go with
    simplehotstuff.go): the invariant of its votes, its lock and its executed
    blocks, and what one handler may add to them.

    [U] is the set of blocks of the run, [Q p] says that the block [p] is
    backed by a quorum when the handler starts.  Safety.v composes these facts
    over all replicas. *)

From S2P Require Import Prelude IDSet Signature Types Ecdsa BlockChain Certs Rules Replica ReplicaFrame.

(** [anc U a b]: the block [a] is [b] or reached from it by following certificates. *)
Definition anc (U : Block → Prop) (a b : Block) : Prop := rtc (par U) b a.

(** [link U b q]: [q] is the block that [b] names as its parent; [below U a b]: the
    block [a] is [b] or reached from it by following parents.  Nothing in the code
    makes the parent of a block the one that its certificate is for. *)
Definition link (U : Block → Prop) (b q : Block) : Prop := U q ∧ b_hash q = b_parent b.
Definition below (U : Block → Prop) (a b : Block) : Prop := rtc (link U) b a.
Definition blocks_linked (U : Block → Prop) : Prop := ∀ b, U b → b_parent b = qc_hash (b_cert b).

Lemma link_functional `{SHA : Sha256} U b q q' : universe U → link U b q → link U b q' → q = q'.
Proof. intros HU [Hq E] [Hq' E']. apply (U_inj _ HU); [done|done|by rewrite E, E']. Qed.
Lemma link_par U b q : blocks_linked U → U b → link U b q ↔ par U b q.
Proof. intros HL Hb. unfold link, par. by rewrite HL. Qed.
Lemma below_anc U a b : blocks_linked U → U b → below U a b → anc U a b.
Proof.
  intros HL Hb Ha. revert Hb. induction Ha as [b|b q a Hq _ IH]; intros Hb; [constructor|].
  eapply rtc_l; [by apply link_par|]. apply IH, Hq.
Qed.

(** The blocks of proposals the replica sent are blocks of the run. *)
Definition proposals_in {A D} (U : Block → Prop) (r : Replica A D) : Prop :=
  ∀ p, APropose p ∈ r_out r → U (pm_Block p).

(** The replica voted for the block [b] of the run. *)
Definition voted {A D} (U : Block → Prop) (r : Replica A D) (b : Block) : Prop :=
  U b ∧ b_hash b ∈ votes r.

Section Simple.
Context `{SHA : Sha256} `{NET : Network} `{CB : CryptoBase} `{LR : LeaderRotation}.
Context {A D : Type} `{CC : CommandCache A} `{VD : ViewDuration D}.
Context (opts : Options) (members : gset ID) (fuel : nat).
Context (U : Block → Prop) (HU : universe U) (HN : Network_ok U) (HL : Network_live U).
Context (Ugen : U GetGenesis) (Uviews : ∀ b, U b → is_u64 (b_view b)).
Context (Q : Block → Prop) (Qgen : Q GetGenesis).
Context (noAgg : opt_shouldUseAggQC opts = false).

Abbreviation R := (Replica A D).
#[local] Existing Instance SimpleHotStuff.
#[local] Instance rules_ok : RulesOk U SimpleHotStuff := SimpleHotStuff_ok U HU HN.

(** A certificate with a valid quorum of signatures is for a block of [Q]. *)
Definition known (qc : QuorumCert) : Prop :=
  ∀ sig p, qc_signature qc = Some sig → U p → b_hash p = qc_hash qc →
    QuorumSize (numReplicas members) ≤ Len (Participants sig) →
    Verify (Some sig) (Block_ToBytes p) = Ok true → Q p.

Implicit Types (r : R).
Abbreviation quiet := (quiet U known).

(** The condition under which a block is committed. *)
Definition decided (d : Block) : Prop :=
  ∃ p gp, Q p ∧ U p ∧ par U p gp ∧ par U gp d ∧ u64 (b_view d + 2) = b_view p.

(** Consecutive blocks [a], [c] of the executed sequence: either [a] is the
    parent of [c], or its parent is not above [a]. *)
Definition follows (a c : Block) : Prop :=
  U c ∧ 0 < b_view c ∧ ∀ q, link U c q → b_view q ≤ b_view a ∧ (a = q ∨ b_view a < b_view c).
Definition exec_ok (r : R) : Prop :=
  bExec (r_cs r) = List.last (execs r) GetGenesis ∧
  ∀ k a c, (GetGenesis :: execs r) !! k = Some a → execs r !! k = Some c → follows a c.

Record Loc (r : R) : Prop := {
  l_base : base_ok U r;
  l_known : known (highQC (r_sync r));
  l_last : 0 ≤ lastVote (r_cs r);
  l_view : ∀ b, voted U r b → 0 < b_view b ≤ lastVote (r_cs r);
  l_once : ∀ b1 b2, voted U r b1 → voted U r b2 → b_view b1 = b_view b2 → b1 = b2;
  l_lock : ∀ b p gp, voted U r b → par U b p → par U p gp → b_view gp ≤ b_view (r_locked r);
  l_order : ∀ b1 b2 p1 gp1 p2, voted U r b1 → voted U r b2 → b_view b1 < b_view b2 →
    par U b1 p1 → par U p1 gp1 → par U b2 p2 → b_view gp1 ≤ b_view p2;
  l_exec : exec_ok r;
}.

(** What a handler adds. *)
Record ext (r r' : R) : Prop := {
  e_last : lastVote (r_cs r) ≤ lastVote (r_cs r');
  e_mono : ∀ h, h ∈ votes r → h ∈ votes r';
  e_votes : ∀ b, voted U r' b →
    voted U r b ∨ lastVote (r_cs r) < b_view b ∧ ∃ p, par U b p ∧ Q p;
  e_execs : ∀ b, b ∈ execs r' → b ∈ execs r ∨ U b ∧ ∃ d, decided d ∧ below U b d;
}.
#[global] Instance ext_preorder : PreOrder ext.
Proof.
  split.
  - intros r. split; try done; auto.
  - intros r1 r2 r3 [L1 M1 V1 X1] [L2 M2 V2 X2]. split; [lia|auto| |].
    + intros b [Hb|[? ?]]%V2; [|right; split; [lia|done]]. apply V1 in Hb as [?|?]; auto.
    + intros b [Hb|?]%X2; auto.
Qed.

(** It is safe to vote for a block with certificate [qc], and voting for it
    does not move the lock. *)
Definition Safe (qc : QuorumCert) (r : R) : Prop :=
  ∀ p, U p → b_hash p = qc_hash qc →
    (∀ b p1 gp1, voted U r b → par U b p1 → par U p1 gp1 → b_view gp1 ≤ b_view p) ∧
    (∀ gp, par U p gp → b_view gp ≤ b_view (r_locked r)).

(** The relation of every handler: the log grows, and if the proposals sent
    are blocks of the run, the invariant and [P] are kept. *)
Definition T (P : R → Prop) (r r' : R) : Prop :=
  out_le r r' ∧
  (proposals_in U r' → Loc r → Loc r' ∧ ext r r' ∧ (P r → P r')).

Lemma proposals_in_le r r' : out_le r r' → proposals_in U r' → proposals_in U r.
Proof. intros [new E] Hp p Hin. apply Hp. rewrite E. set_solver. Qed.

#[global] Instance T_preorder P : PreOrder (T P).
Proof.
  split.
  - intros r. split; [done|]. done.
  - intros r1 r2 r3 [O1 H1] [O2 H2]. split; [by etrans|]. intros Hg HL1.
    destruct (H1 (proposals_in_le _ _ O2 Hg) HL1) as (HL2 & E12 & P12).
    destruct (H2 Hg HL2) as (HL3 & E23 & P23). split_and!; [done|by etrans|auto].
Qed.

Lemma T_weaken P r r' : T P r r' → T (λ _, True) r r'.
Proof. intros [O HT]. split; [done|]. intros Hg Hl. destruct (HT Hg Hl) as (?&?&?). done. Qed.

(** *** Quiet computations *)
Lemma quiet_voted r r' b : quiet r r' → voted U r' b ↔ voted U r b.
Proof. intros Hq. unfold voted. by rewrite (quiet_votes _ _ _ _ Hq). Qed.

Lemma quiet_Loc r r' : quiet r r' → Loc r → Loc r'.
Proof.
  intros Hq [Hb Hk Hl Hv Ho Hlk Hor [Hx1 Hx2]].
  destruct (q_base _ _ _ _ Hq Hb) as [Hb' Hlk']. pose proof (q_lastVote _ _ _ _ Hq) as Hlv.
  split; [done|by apply (q_high _ _ _ _ Hq)|lia|..];
    try (intros *; rewrite !(quiet_voted _ _ _ Hq)).
  - intros Hvb. destruct (Hv _ Hvb). lia.
  - apply Ho.
  - intros ???. etrans; [by eapply Hlk|done].
  - apply Hor.
  - unfold exec_ok. by rewrite (quiet_execs _ _ _ _ Hq), (q_bExec _ _ _ _ Hq).
Qed.

Lemma quiet_ext r r' : quiet r r' → ext r r'.
Proof.
  intros Hq. split; [by apply (q_lastVote _ _ _ _ Hq)|..].
  - intros h. by rewrite (quiet_votes _ _ _ _ Hq).
  - intros b. rewrite (quiet_voted _ _ _ Hq). by left.
  - intros b. rewrite (quiet_execs _ _ _ _ Hq). by left.
Qed.

Lemma quiet_Safe qc r r' : quiet r r' → base_ok U r → Safe qc r → Safe qc r'.
Proof.
  intros Hq Hb HS p Hp Eh. destruct (HS p Hp Eh) as [H1 H2].
  destruct (q_base _ _ _ _ Hq Hb) as [_ ?]. split.
  - intros b p1 gp1. rewrite (quiet_voted _ _ _ Hq). apply H1.
  - intros gp Hgp. specialize (H2 gp Hgp). lia.
Qed.

Lemma quiet_T qc r r' : quiet r r' → T (Safe qc) r r'.
Proof.
  intros Hq. split; [by eapply quiet_out_le|]. intros _ Hl.
  split_and!; [by eapply quiet_Loc|by apply quiet_ext|by apply quiet_Safe; [|apply Hl]].
Qed.
Lemma quiet_respects {X} qc (m : M R X) : respects quiet m → respects (T (Safe qc)) m.
Proof. intros Hm r a r' E. eapply quiet_T, Hm, E. Qed.

(** *** Verified certificates *)
Lemma verified_Q qc r r' :
  base_ok U r → known qc →
  with_chain (VerifyQuorumCert (numReplicas members) qc) r = Ok (true, r') →
  ∃ p, U p ∧ b_hash p = qc_hash qc ∧ Q p.
Proof.
  intros [Hc _] Hk E. unfold with_chain, zoom, outcome_bind in E.
  destruct (VerifyQuorumCert _ qc (r_chain r)) as [[b c']| |] eqn:Ev; [|done..].
  simplify_eq.
  destruct (VerifyQuorumCert_true _ U HU HN _ _ _ Hc Ev) as (Hc' & _ & [Hg|(sig & p & Es & Ep & Hq & Hv)]).
  - exists GetGenesis. done.
  - assert (U p ∧ b_hash p = qc_hash qc) as [? ?] by (split; by eapply Hc').
    exists p. split_and!; [done|done|]. by eapply Hk.
Qed.

(** *** Voting *)
Lemma votes_emit a h r :
  vote_hash a = Some h → exec_block a = None →
  votes (up_out a r) = votes r ++ [h] ∧ execs (up_out a r) = execs r.
Proof.
  intros Hv He. unfold votes, execs. cbn. rewrite !omap_app. csimpl. rewrite Hv, He.
  by rewrite app_nil_r.
Qed.

(** The ways a vote leaves the replica. *)
Lemma vote_for_cases b r r' :
  vote_for opts members b r = Ok (tt, r') →
  r' = r ∨
  lastVote (r_cs r) < b_view b ∧
  (r' = up_cs (set_lastVote (b_view b)) r ∨
   ∃ a, vote_hash a = Some (b_hash b) ∧ exec_block a = None ∧
        r' = up_out a (up_cs (set_lastVote (b_view b)) r)).
Proof.
  intros E. unfold vote_for in E. apply bind_Ok in E as (last & r1 & [= <- <-] & E).
  case_decide as Hl; [unfold ret in E; simplify_eq; by left|].
  apply bind_Ok in E as (pc & r2 & E1 & E).
  unfold lift, outcome_bind in E1.
  destruct (CreatePartialCert b) as [[err|pc']| |] eqn:Ec; simplify_eq.
  { unfold ret in E. simplify_eq. by left. }
  right. split; [lia|].
  assert (Hpc : pc_blockHash pc' = b_hash b).
  { unfold CreatePartialCert in Ec. destruct (Sign _); simplify_eq.
    unfold NewPartialCert, outcome_bind in Ec. repeat case_match; by simplify_eq. }
  apply bind_Ok in E as ([] & r3 & [= <-] & E). unfold emit, modify, ret in E.
  destruct (opt_shouldUseHandel opts); [|case_decide; [|case_decide]]; simplify_eq.
  all: first [by left | right; eexists; split_and!; [| |reflexivity]; cbn; by rewrite ?Hpc].
Qed.

Lemma Loc_lastVote b r :
  U b → lastVote (r_cs r) < b_view b → Loc r → Loc (up_cs (set_lastVote (b_view b)) r).
Proof.
  intros Hb Hlt Hr. eapply quiet_Loc; [|done]. apply quiet_same; try done. cbn. lia.
Qed.

Lemma voted_snoc r r' b x :
  U b → votes r' = votes r ++ [b_hash b] → voted U r' x ↔ voted U r x ∨ x = b.
Proof.
  intros Hb Ev. unfold voted. rewrite Ev. split.
  - intros [Hx [?|E%list_elem_of_singleton]%elem_of_app]; [by left; split|right].
    by apply (U_inj U HU).
  - intros [[? ?]| ->]; (split; [done|]); set_solver.
Qed.

Section vote.
Context (b p : Block) (Hb : U b) (Hp : par U b p) (HQ : Q p) (r r' : R).
Context (Hlt : lastVote (r_cs r) < b_view b) (HLoc : Loc r) (HS : Safe (b_cert b) r).
Context (Hbase : base_ok U r') (Hsync : r_sync r' = r_sync r) (Hlocked : r_locked r' = r_locked r).
Context (Hlast : lastVote (r_cs r') = b_view b) (Hexec : bExec (r_cs r') = bExec (r_cs r)).
Context (Hvotes : votes r' = votes r ++ [b_hash b]) (Hexecs : execs r' = execs r).

Lemma vote_once x : voted U r x → b_view x < b_view b.
Proof. intros Hx. destruct (l_view _ HLoc x Hx). lia. Qed.

Lemma vote_Loc : Loc r'.
Proof.
  destruct HLoc as [_ Hk Hl Hv Ho Hlk Hor [Hx1 Hx2]]. destruct (HS p) as [HS1 HS2]; [apply Hp..|].
  split; [done|by rewrite Hsync|lia|..];
    try (intros *; rewrite !(voted_snoc r r' b _ Hb Hvotes)).
  - rewrite Hlast. intros [Hx| ->]; [pose proof (vote_once _ Hx); destruct (Hv _ Hx); lia|lia].
  - intros [H1| ->] [H2| ->] E; try done.
    + by apply Ho.
    + pose proof (vote_once _ H1). lia.
    + pose proof (vote_once _ H2). lia.
  - rewrite Hlocked. intros [H1| ->] Hp1 Hgp; [by eapply Hlk|].
    rewrite (par_functional U HU _ _ _ Hp1 Hp) in Hgp. by apply HS2.
  - intros [H1| ->] [H2| ->] Hlt' Hp1 Hgp1 Hp2.
    + exact (Hor _ _ _ _ _ H1 H2 Hlt' Hp1 Hgp1 Hp2).
    + rewrite (par_functional U HU _ _ _ Hp2 Hp). by eapply HS1.
    + pose proof (vote_once _ H2). lia.
    + lia.
  - unfold exec_ok. by rewrite Hexecs, Hexec.
Qed.

Lemma vote_ext : ext r r'.
Proof.
  split; [lia|rewrite Hvotes; set_solver| |rewrite Hexecs; by left].
  intros x. rewrite (voted_snoc r r' b _ Hb Hvotes). intros [?| ->]; [by left|right].
  split; [done|by exists p].
Qed.

Lemma vote_Safe : (∀ gp, par U p gp → b_view gp ≤ b_view p) → Safe (b_cert b) r'.
Proof.
  intros Hgp q Hq Eq. destruct (HS q Hq Eq) as [HS1 HS2]. split; [|by rewrite Hlocked].
  intros x p1 gp1. rewrite (voted_snoc r r' b _ Hb Hvotes). intros [?| ->] Hp1 Hgp1; [by eapply HS1|].
  rewrite (par_functional U HU _ _ _ Hp1 Hp) in Hgp1.
  assert (q = p) as -> by (apply (par_functional U HU b); [done|apply Hp]). by apply Hgp.
Qed.
End vote.

Lemma vote_for_Loc b p r r' :
  U b → par U b p → Q p → Loc r → Safe (b_cert b) r → vote_for opts members b r = Ok (tt, r') →
  Loc r' ∧ ext r r' ∧ ((∀ gp, par U p gp → b_view gp ≤ b_view p) → Safe (b_cert b) r').
Proof.
  intros Hb Hp HQ Hr HS E. destruct (vote_for_cases _ _ _ E) as [->|(Hlt & [->|(a & Hv & Hx & ->)])].
  - done.
  - assert (Hq : quiet r (up_cs (set_lastVote (b_view b)) r)) by (apply quiet_same; try done; cbn; lia).
    split_and!; [by eapply quiet_Loc|by apply quiet_ext|]. intros _.
    eapply quiet_Safe; [done|apply Hr|done].
  - destruct (votes_emit a (b_hash b) (up_cs (set_lastVote (b_view b)) r) Hv Hx) as [Ev Ex].
    split_and!; [eapply vote_Loc|eapply vote_ext|eapply vote_Safe]; try done; apply Hr.
Qed.

(** *** Executing *)
Lemma exec_ok_snoc r r' x :
  exec_ok r → execs r' = execs r ++ [x] → bExec (r_cs r') = x → follows (bExec (r_cs r)) x →
  exec_ok r'.
Proof.
  intros [Hx1 Hx2] Ex Eb Hf. split; [rewrite Ex, List.last_last; done|].
  rewrite Ex. intros k a c Ha [Hc|[Hk Hc]]%lookup_app_Some.
  - eapply Hx2; [|done]. rewrite app_comm_cons in Ha.
    apply lookup_app_Some in Ha as [?|[Hlen _]]; [done|].
    apply lookup_lt_Some in Hc. cbn in Hlen. lia.
  - apply list_lookup_singleton_Some in Hc as [Hk' <-].
    replace k with (length (execs r)) in Ha by lia. rewrite Hx1 in Hf.
    assert (a = List.last (execs r) GetGenesis) as ->; [|done].
    rewrite app_comm_cons, lookup_app_l, lookup_cons_length in Ha by (cbn; lia). by simplify_eq.
Qed.

Lemma exec_ok_U r : exec_ok r → U (bExec (r_cs r)).
Proof.
  intros [-> Hx]. destruct (execs r) as [|e l _] eqn:El using rev_ind; [done|]. rewrite List.last_last.
  destruct (lookup_lt_is_Some_2 (GetGenesis :: l ++ [e]) (length l)) as [a Ha].
  { cbn. rewrite length_app. lia. }
  eapply (Hx (length l) a e Ha). by rewrite lookup_app_r, Nat.sub_diag by lia.
Qed.

Lemma below_refl b : below U b b.
Proof. apply rtc_refl. Qed.
Lemma below_link a p b : link U b p → below U a p → below U a b.
Proof. intros Hp Ha. eapply rtc_l; [exact Hp|exact Ha]. Qed.

(** What executing a branch up to [x] changes. *)
Record executed (x : Block) (r r' : R) : Prop := {
  x_new : ∃ new, r_out r' = r_out r ++ (AExec <$> new) ∧ Forall (λ y, U y ∧ below U y x) new;
  x_base : base_ok U r';
  x_locked : r_locked r' = r_locked r;
  x_sync : r_sync r' = r_sync r;
  x_last : lastVote (r_cs r') = lastVote (r_cs r);
  x_exec : exec_ok r';
}.

Lemma omap_AExec new : omap vote_hash (AExec <$> new) = [] ∧ omap exec_block (AExec <$> new) = new.
Proof. induction new as [|x new [IH1 IH2]]; [done|]. csimpl. rewrite IH1, IH2. done. Qed.

Lemma commitInner_spec n x r ok r' :
  base_ok U r → exec_ok r → U x → commitInner n x r = Ok (ok, r') →
  executed x r r' ∧
  (ok = true → b_view x ≤ b_view (bExec (r_cs r')) ∧
               (bExec (r_cs r') = bExec (r_cs r) ∨ bExec (r_cs r') = x)).
Proof.
  revert x r ok r'. induction n as [|n IH]; intros x r ok r' Hr Hx HUx E; [done|].
  cbn [commitInner] in E. apply bind_Ok in E as (e & r0 & [= <- <-] & E). case_decide as Hv.
  { unfold ret in E. simplify_eq. split; [|by auto]. split; try done. exists []. by rewrite app_nil_r. }
  apply bind_Ok in E as (o & r1 & E1 & E).
  unfold with_chain, zoom, outcome_bind in E1.
  destruct (Get (b_parent x) (r_chain r)) as [[o' c1]| |] eqn:EG; simplify_eq.
  destruct (Get_ok U HU HN _ _ _ _ (proj1 Hr) EG) as (Hc1 & _ & Ho).
  assert (Hr1 : base_ok U (up_chain c1 r)) by (split; [done|apply Hr]).
  destruct o as [q|].
  2: { unfold ret in E. simplify_eq. split; [|done]. split; try done. exists []. by rewrite app_nil_r. }
  assert (Hq : link U x q) by (split; by eapply Hc1).
  apply bind_Ok in E as (b & r2 & E2 & E).
  destruct (IH q _ _ _ Hr1 Hx (proj1 Hq) E2) as [[(new & Eo & Hnew) Hb2 Hl2 Hs2 Hv2 Hx2] Hok].
  assert (Hnew' : Forall (λ y, U y ∧ below U y x) new).
  { eapply Forall_impl; [done|]. intros y [??]. split; [done|by eapply below_link]. }
  destruct b.
  2: { unfold ret in E. simplify_eq. split; [|done]. split; try done. by exists new. }
  apply bind_Ok in E as ([] & r3 & [= <-] & E). apply bind_Ok in E as ([] & r4 & [= <-] & E).
  unfold ret in E. simplify_eq. split; [|cbn; intros _; split; [lia|by right]].
  destruct (Hok eq_refl) as [Hle Hor]. split; try done.
  - exists (new ++ [x]). cbn. rewrite Eo, fmap_app, <-app_assoc. split; [done|].
    apply Forall_app. split; [done|]. apply Forall_singleton. split; [done|apply below_refl].
  - eapply exec_ok_snoc; [exact Hx2| |done|].
    + unfold execs. cbn. rewrite omap_app. done.
    + split; [done|]. split; [pose proof (Uviews _ (exec_ok_U _ Hx)) as [??]; cbn; lia|].
      intros q' Hq'. rewrite (link_functional U _ _ _ HU Hq' Hq). split; [done|].
      destruct Hor as [->| ->]; [right; cbn; lia|by left].
Qed.

Lemma executed_Loc qc d r r' :
  decided d → Loc r → executed d r r' → Loc r' ∧ ext r r' ∧ (Safe qc r → Safe qc r').
Proof.
  intros Hd Hr [(new & Eo & Hnew) Hb Hl Hs Hv Hx]. destruct (omap_AExec new) as [N1 N2].
  assert (Ev : votes r' = votes r) by (unfold votes; by rewrite Eo, omap_app, N1, app_nil_r).
  assert (Ex : execs r' = execs r ++ new) by (unfold execs; by rewrite Eo, omap_app, N2).
  assert (HV : ∀ b, voted U r' b ↔ voted U r b) by (intros b; unfold voted; by rewrite Ev).
  split_and!.
  - destruct Hr as [_ Hk Hla Hvw Ho Hlk Hor _].
    split; [done|by rewrite Hs|lia|..|done]; try (intros *; rewrite !HV); rewrite ?Hv, ?Hl; eauto.
  - split; [lia|by rewrite Ev| |].
    + intros b. rewrite HV. by left.
    + rewrite Ex. intros b [?|Hb']%elem_of_app; [by left|right].
      rewrite Forall_forall in Hnew. destruct (Hnew b Hb'). split; [done|]. by exists d.
  - intros HS p Hp Eh. destruct (HS p Hp Eh) as [H1 H2]. rewrite Hl. split; [|done].
    intros *. rewrite HV. apply H1.
Qed.

Lemma Tpost_trans qc r1 r2 r3 :
  (Loc r2 ∧ ext r1 r2 ∧ (Safe qc r1 → Safe qc r2)) →
  (Loc r3 ∧ ext r2 r3 ∧ (Safe qc r2 → Safe qc r3)) →
  Loc r3 ∧ ext r1 r3 ∧ (Safe qc r1 → Safe qc r3).
Proof. intros (?&?&?) (?&?&?). split_and!; [done|by etrans|auto]. Qed.

Lemma commit_Loc qc d r r' :
  decided d → Loc r → commit fuel d r = Ok (tt, r') →
  Loc r' ∧ ext r r' ∧ (Safe qc r → Safe qc r').
Proof.
  intros Hd Hr E. unfold commit in E. apply bind_Ok in E as (ok & r1 & E1 & E).
  assert (HUd : U d) by (destruct Hd as (? & ? & _ & _ & _ & [? _] & _); done).
  destruct (commitInner_spec _ _ _ _ _ (l_base _ Hr) (l_exec _ Hr) HUd E1) as [Hx _].
  eapply Tpost_trans; [by apply (executed_Loc qc d)|].
  destruct (executed_Loc qc d r r1 Hd Hr Hx) as [Hr1 _].
  assert (Hq : quiet r1 r').
  { destruct ok; [|unfold ret in E; by simplify_eq].
    revert E. generalize r1. intros s E. eapply respects_bind in E; [exact E|apply _|..].
    - apply respects_gets, _.
    - intros b. apply respects_bind; [apply _|by apply PruneToHeight_quiet|].
      intros l. apply respects_for_each; [apply _|]. intros f _. by apply emit_quiet. }
  split_and!; [by eapply quiet_Loc|by apply quiet_ext|by apply quiet_Safe; [|apply Hr1]].
Qed.

(** *** Handling a proposal *)
Section proposal.
Context (advance : SyncInfo → M R unit).
Context (Hout : ∀ si, respects out_le (advance si)).
Context (Hadv : ∀ qc, known qc → respects (T (Safe qc)) (advance (WithQC NewSyncInfo qc))).

(** The part of [OnPropose] before the rules are consulted changes nothing. *)
Lemma OnPropose_start proposal r r' :
  OnPropose_with opts members fuel advance proposal r = Ok (tt, r') → Loc r →
  quiet r r' ∨
  ∃ r1, quiet r r1 ∧ (known (b_cert (pm_Block proposal)) →
                      ∃ p, par U (pm_Block proposal) p ∧ Q p) ∧
    (safe <- with_rules (VoteRule proposal) ;;
     if negb safe then ret tt else
     acceptor_proposed (qc_hash (b_cert (pm_Block proposal))) ;;;
     accepted <- gets (λ r, Accept (b_cmd (pm_Block proposal)) (r_cmds r)) ;;
     if negb accepted then ret tt else
     modify (λ r, up_chain (Store (pm_Block proposal) (r_chain r)) r) ;;;
     toCommit <- with_rules (CommitRule (pm_Block proposal)) ;;
     match toCommit with Some b => commit fuel b | None => ret tt end ;;;
     advance (WithQC NewSyncInfo (b_cert (pm_Block proposal))) ;;;
     vote_for opts members (pm_Block proposal)) r1 = Ok (tt, r').
Proof.
  intros E Hr. unfold OnPropose_with in E. apply bind_Ok in E as (ok & r0 & E0 & E).
  assert (ok = true ∧ r0 = r) as [-> ->].
  { rewrite noAgg in E0. destruct (pm_AggregateQC proposal); unfold ret in E0; by simplify_eq. }
  cbn [negb] in E. apply bind_Ok in E as (qcOk & r1 & E1 & E).
  assert (Hq : quiet r r1).
  { eapply with_chain_quiet; [by apply VerifyQuorumCert_step|exact E1]. }
  destruct qcOk; cbn [negb] in E; [|left; unfold ret in E; by simplify_eq].
  case_decide; [left; unfold ret in E; by simplify_eq|]. right. exists r1. split_and!; [done| |done].
  intros Hk. destruct (verified_Q _ _ _ (l_base _ Hr) Hk E1) as (p & ? & ? & ?). by exists p.
Qed.

Lemma with_rules_Ok {X} (m : M RuleState X) r x r' :
  with_rules m r = Ok (x, r') → ∃ s', m (rule_view_of r) = Ok (x, s') ∧ r' = up_rules s' r.
Proof.
  unfold with_rules, zoom, outcome_bind. destruct (m _) as [[y s]| |]; [|done..].
  intros. simplify_eq. by exists s.
Qed.

Lemma Loc_rule_ok r : Loc r → rule_ok U (rule_view_of r).
Proof. intros Hr. apply (l_base _ Hr). Qed.

(** The lock allows the proposal: it is safe to vote for it. *)
Lemma VoteRule_Safe proposal r r' p :
  Loc r → par U (pm_Block proposal) p →
  with_rules (VoteRule proposal) r = Ok (true, r') →
  quiet r r' ∧ b_view (r_locked r) ≤ b_view p ∧
  ∀ b p1 gp1, voted U r' b → par U b p1 → par U p1 gp1 → b_view gp1 ≤ b_view p.
Proof.
  intros Hr Hp E.
  assert (Hq : quiet r r') by (eapply VoteRule_quiet; [by apply rules_ok|exact E]).
  apply with_rules_Ok in E as (s' & E & ->).
  destruct (simple_VoteRule_live U HU HN _ _ _ (Loc_rule_ok _ Hr) E) as (_ & _ & _ & p' & Hp' & Hlk).
  rewrite (par_functional U HU _ _ _ Hp' Hp) in Hlk. split_and!; [done|done|].
  intros b p1 gp1 Hv H1 H2. rewrite (quiet_voted _ _ _ Hq) in Hv.
  etrans; [by eapply (l_lock _ Hr)|exact Hlk].
Qed.

Lemma CommitRule_Safe block r r' p o :
  Loc r → par U block p → Q p →
  (∀ b p1 gp1, voted U r b → par U b p1 → par U p1 gp1 → b_view gp1 ≤ b_view p) →
  with_rules (CommitRule block) r = Ok (o, r') →
  quiet r r' ∧ Safe (b_cert block) r' ∧ (∀ d, o = Some d → decided d).
Proof.
  intros Hr Hp HQ Hvs E.
  assert (Hq : quiet r r') by (eapply CommitRule_quiet; [by apply rules_ok|exact E]).
  apply with_rules_Ok in E as (s' & E & ->).
  destruct (simple_CommitRule_live U HU HN HL _ _ _ _ (Loc_rule_ok _ Hr) E) as (_ & _ & Hlk & _ & Hd).
  split_and!; [done| |].
  - intros p' Hp' Eh. assert (p' = p) as -> by (apply (par_functional U HU block); done).
    split; [|intros gp Hgp; by apply (Hlk p gp)].
    intros b p1 gp1 Hv. rewrite (quiet_voted _ _ _ Hq) in Hv. by apply Hvs.
  - intros d ->. destruct (Hd d eq_refl) as (p' & gp & Hp' & Hgp & Hd' & Hv).
    rewrite (par_functional U HU _ _ _ Hp' Hp) in *. exists p, gp. split_and!; try done. apply Hp.
Qed.

Lemma quiet_post qc r r' :
  quiet r r' → Loc r → Loc r' ∧ ext r r' ∧ (Safe qc r → Safe qc r').
Proof.
  intros Hq Hr. split_and!; [by eapply quiet_Loc|by apply quiet_ext|by apply quiet_Safe; [|apply Hr]].
Qed.

(** Storing, committing, changing the view and voting, once the rules accept. *)
Lemma OnPropose_finish block p r r' :
  U block → known (b_cert block) → par U block p → Q p → Loc r → proposals_in U r' →
  (∀ b p1 gp1, voted U r b → par U b p1 → par U p1 gp1 → b_view gp1 ≤ b_view p) →
  (modify (λ r, up_chain (Store block (r_chain r)) r) ;;;
   toCommit <- with_rules (CommitRule block) ;;
   match toCommit with Some b => commit fuel b | None => ret tt end ;;;
   advance (WithQC NewSyncInfo (b_cert block)) ;;;
   vote_for opts members block) r = Ok (tt, r') →
  Loc r' ∧ ext r r' ∧ ((∀ gp, par U p gp → b_view gp ≤ b_view p) → Safe (b_cert block) r').
Proof.
  intros Hb Hk Hp HQ Hr Hg Hvs E. apply bind_Ok in E as ([] & r1 & E1 & E).
  assert (Hq1 : quiet r r1) by (eapply Store_quiet; done).
  apply bind_Ok in E as (o & r2 & E2 & E). pose proof (quiet_Loc _ _ Hq1 Hr) as Hr1.
  assert (Hvs1 : ∀ b p1 gp1, voted U r1 b → par U b p1 → par U p1 gp1 → b_view gp1 ≤ b_view p).
  { intros b p1 gp1. rewrite (quiet_voted _ _ _ Hq1). apply Hvs. }
  destruct (CommitRule_Safe _ _ _ _ _ Hr1 Hp HQ Hvs1 E2) as (Hq2 & HS2 & Hd).
  pose proof (quiet_Loc _ _ Hq2 Hr1) as Hr2.
  apply bind_Ok in E as ([] & r3 & E3 & E).
  assert (Loc r3 ∧ ext r2 r3 ∧ (Safe (b_cert block) r2 → Safe (b_cert block) r3)) as (Hr3 & X3 & S3).
  { destruct o as [d|]; [by apply (commit_Loc _ d); [apply Hd|..]|].
    unfold ret in E3. by simplify_eq. }
  apply bind_Ok in E as ([] & r4 & E4 & E).
  destruct (Hadv _ Hk _ _ _ E4) as [O4 H4].
  destruct H4 as (Hr4 & X4 & S4); [|done|].
  { eapply proposals_in_le; [|exact Hg]. eapply vote_for_out, E. }
  destruct (vote_for_Loc _ _ _ _ Hb Hp HQ Hr4 (S4 (S3 HS2)) E) as (Hr5 & X5 & S5).
  split_and!; [done| |done].
  etrans; [apply quiet_ext; etrans; [exact Hq1|exact Hq2]|].
  etrans; [exact X3|]. etrans; [exact X4|exact X5].
Qed.

Lemma OnPropose_with_T proposal :
  U (pm_Block proposal) → known (b_cert (pm_Block proposal)) →
  respects (T (Safe (b_cert (pm_Block proposal)))) (OnPropose_with opts members fuel advance proposal).
Proof.
  intros Hb Hk r [] r' E. split; [by eapply OnPropose_with_out|]. intros Hg Hr.
  destruct (OnPropose_start _ _ _ E Hr) as [Hq|(r1 & Hq1 & HQ & E1)]; [by apply quiet_post|].
  destruct (HQ Hk) as (p & Hp & HQp). pose proof (quiet_Loc _ _ Hq1 Hr) as Hr1.
  apply bind_Ok in E1 as (safe & r2 & E2 & E1). destruct safe; cbn [negb] in E1.
  2: { unfold ret in E1. simplify_eq. apply quiet_post; [|done]. etrans; [exact Hq1|].
       eapply VoteRule_quiet; [by apply rules_ok|exact E2]. }
  destruct (VoteRule_Safe _ _ _ _ Hr1 Hp E2) as (Hq2 & Hlk & Hvs).
  apply bind_Ok in E1 as ([] & r3 & E3 & E1).
  assert (Hq3 : quiet r2 r3) by (eapply acceptor_proposed_quiet; done).
  apply bind_Ok in E1 as (acc & r4 & [= <- <-] & E1).
  assert (Hq : quiet r r3) by (etrans; [exact Hq1|etrans; [exact Hq2|exact Hq3]]).
  case_match; [unfold ret in E1; simplify_eq; by apply quiet_post|].
  pose proof (quiet_Loc _ _ Hq Hr) as Hr3.
  assert (Hvs3 : ∀ b p1 gp1, voted U r3 b → par U b p1 → par U p1 gp1 → b_view gp1 ≤ b_view p).
  { intros b p1 gp1. rewrite (quiet_voted _ _ _ Hq3). apply Hvs. }
  destruct (OnPropose_finish _ _ _ _ Hb Hk Hp HQp Hr3 Hg Hvs3 E1) as (Hr' & X' & S').
  split_and!; [done|etrans; [by apply quiet_ext|done]|]. intros HS. apply S'. intros gp Hgp.
  destruct (HS p (proj1 Hp) (proj2 Hp)) as [_ HS2]. specialize (HS2 gp Hgp).
  destruct (q_base _ _ _ _ Hq1 (l_base _ Hr)) as [_ ?]. lia.
Qed.

(** *** Proposing: the block goes to the log before it is handled *)
Definition si_cert (si : SyncInfo) : QuorumCert := default zero_QuorumCert (si_qc si).

Lemma Propose_with_T si :
  known (si_cert si) → respects (T (Safe (si_cert si))) (Propose_with opts members fuel advance si).
Proof.
  intros Hk. unfold Propose_with. apply respects_bind; [apply _| |intros _].
  { apply quiet_respects. destruct (si_qc si); [by apply acceptor_proposed_quiet|apply respects_ret, _]. }
  apply respects_bind; [apply _|by apply quiet_respects, GetCmd_quiet|]. intros cmd r [] r' E.
  apply bind_Ok in E as (o & r1 & E1 & E). unfold make_proposal in E1. cbn [ProposeRule SimpleHotStuff] in E1.
  apply bind_Ok in E1 as (v & r1' & [= <- <-] & [= <- <-]).
  fold (si_cert si) in E. set (prop := mkProposeMsg _ _ _) in E.
  apply bind_Ok in E as ([] & r2 & [= <-] & E). apply bind_Ok in E as ([] & r3 & [= <-] & E).
  set (r2 := up_out _ _) in E.
  assert (Hle : out_le r2 r').
  { revert E. generalize r2. intros s E. eapply respects_bind in E; [exact E|apply _|..].
    - apply respects_bind; [apply _|apply respects_gets, _|]. intros. by apply modify_out.
    - intros []. by apply OnPropose_with_out. }
  split; [etrans; [|exact Hle]; by exists [APropose prop]|]. intros Hg Hr.
  assert (HU' : U (pm_Block prop)).
  { apply (proposals_in_le _ _ Hle Hg prop). cbn. set_solver. }
  assert (Hq : quiet r r2).
  { etrans; [by eapply (Store_quiet U HU known (pm_Block prop))|]. by eapply (emit_quiet U known (APropose prop)). }
  apply bind_Ok in E as ([] & r4 & E4 & E).
  assert (Hq4 : quiet r r4) by (etrans; [exact Hq|by eapply UpdateLeaderTimer_quiet]).
  eapply Tpost_trans; [by apply quiet_post|].
  by eapply (OnPropose_with_T prop HU'); [|exact E| |eapply quiet_Loc].
Qed.
End proposal.

Lemma check_QC_result si v t r r' res :
  check_QC opts members si v t r = Ok (Some res, r') → res = (v, t, si, si_qc si).
Proof.
  unfold check_QC. rewrite noAgg. intros E.
  assert (Hcase : (match si_qc si with
    | None => ret (Some (v, t, si, None))
    | Some qc => ok <- with_chain (VerifyQuorumCert (numReplicas members) qc) ;;
        if (ok : bool) then ret (Some (v, t, si, Some qc)) else ret None
    end) r = Ok (Some res, r')) by (destruct (si_aggQC si); exact E).
  destruct (si_qc si); [|unfold ret in Hcase; by simplify_eq].
  apply bind_Ok in Hcase as ([] & r1 & _ & Hc); unfold ret in Hc; by simplify_eq.
Qed.

Lemma AdvanceView_T depth si :
  known (si_cert si) →
  respects (T (Safe (si_cert si))) (AdvanceView opts members fuel depth si).
Proof.
  revert si. induction depth as [|depth IH]; intros si Hk; cbn [AdvanceView]; [apply respects_diverge|].
  unfold AdvanceView_with. apply respects_bind; [apply _|by apply quiet_respects, check_TC_quiet|].
  intros [[v t]|]; [|apply respects_ret, _].
  apply respects_bind_result; [apply _|by apply quiet_respects, check_QC_quiet|].
  intros [res|] s s' E; [|apply respects_ret, _]. pose proof (check_QC_result _ _ _ _ _ _ E) as ->.
  apply respects_bind; [apply _|apply quiet_respects, use_QC_quiet; [done..|]|].
  { intros qc Eq. unfold si_cert in Hk. by rewrite Eq in Hk. }
  intros vt. apply respects_bind; [apply _|apply respects_gets, _|]. intros view.
  case_decide; [apply respects_ret, _|].
  apply respects_bind; [apply _|apply quiet_respects, enter_view_quiet|]. intros newView.
  case_decide; [|case_decide; [by apply quiet_respects, emit_quiet|apply respects_ret, _]].
  apply respects_bind; [apply _|by apply quiet_respects, modify_sync_quiet|]. intros _.
  apply Propose_with_T; [apply AdvanceView_out| |done].
  intros qc Hqc. by apply (IH (WithQC NewSyncInfo qc)).
Qed.

(** *** The other handlers *)
Abbreviation T0 := (T (λ _, True)).

Lemma quiet_respects0 {X} (m : M R X) : respects quiet m → respects T0 m.
Proof. intros Hm r a r' E. eapply T_weaken, (quiet_T zero_QuorumCert), Hm, E. Qed.

Lemma AdvanceView_T0 depth si :
  known (si_cert si) → respects T0 (AdvanceView opts members fuel depth si).
Proof. intros Hk r a r' E. eapply T_weaken, AdvanceView_T, E. done. Qed.

(** The replica's own high QC is known. *)
Lemma getSyncInfo_T0 {X} (k : SyncInfo → M R X) :
  (∀ si, respects out_le (k si)) → (∀ si, known (si_cert si) → respects T0 (k si)) →
  respects T0 (bind getSyncInfo k).
Proof.
  intros Hout Hk r a r' (si & r1 & E1 & E)%bind_Ok. unfold getSyncInfo, gets in E1. simplify_eq.
  split; [by eapply Hout|]. intros Hg Hr. eapply (Hk _); [|exact E|done|done]. apply Hr.
Qed.

Lemma timeout_quorum_T0 depth c v ts : respects T0 (timeout_quorum opts members fuel depth c v ts).
Proof.
  unfold timeout_quorum. apply respects_bind; [apply _|apply respects_lift, _|].
  intros [err|tc]; [apply respects_ret, _|]. apply getSyncInfo_T0.
  - intros si. rewrite noAgg. out_frame; apply AdvanceView_out.
  - intros si Hk. rewrite noAgg. intros r a r' (si' & r1 & E1 & E)%bind_Ok.
    unfold ret in E1. simplify_eq. revert r1 a r' E. apply respects_bind; [apply _| |intros _].
    + by apply quiet_respects0, modify_sync_quiet.
    + by apply AdvanceView_T0.
Qed.

Lemma OnRemoteTimeout_T0 depth m :
  known (si_cert (tm_SyncInfo m)) → respects T0 (OnRemoteTimeout opts members fuel depth m).
Proof.
  intros Hk. unfold OnRemoteTimeout. apply respects_bind; [apply _|apply respects_gets, _|]. intros v.
  apply respects_bind; [apply _|apply respects_lift, _|]. intros valid.
  apply respects_bind; [apply _| |intros _; by apply quiet_respects0, modify_sync_quiet].
  destruct valid; [cbn [negb]|apply respects_ret, _].
  apply respects_bind; [apply _|by apply AdvanceView_T0|intros _].
  apply respects_bind; [apply _|by apply quiet_respects0, modify_sync_quiet|intros _].
  apply respects_bind; [apply _|apply respects_gets, _|intros ts].
  case_decide; [apply respects_ret, _|apply timeout_quorum_T0].
Qed.

Lemma make_timeout_si v si m : make_timeout opts v si = Some m → tm_SyncInfo m = si.
Proof. unfold make_timeout. intros E. repeat case_match; by simplify_eq. Qed.

Lemma OnLocalTimeout_T0 depth : respects T0 (OnLocalTimeout opts members fuel depth).
Proof.
  unfold OnLocalTimeout.
  apply respects_bind; [apply _|by apply quiet_respects0, startTimeoutTimer_quiet|intros _].
  apply respects_bind; [apply _|apply respects_gets, _|intros v].
  apply respects_bind; [apply _|by apply quiet_respects0, modify_sync_quiet|intros _].
  apply respects_bind; [apply _|apply respects_gets, _|intros last].
  case_match; [by apply quiet_respects0, emit_quiet|].
  apply respects_bind; [apply _|by apply quiet_respects0, modify_duration_quiet|intros _].
  apply getSyncInfo_T0.
  - intros si. unfold StopVoting. out_frame. apply OnRemoteTimeout_out.
  - intros si Hk. destruct (make_timeout opts v si) as [m|] eqn:Em; [|apply respects_ret, _].
    pose proof (make_timeout_si _ _ _ Em) as Hsi.
    apply respects_bind; [apply _|by apply quiet_respects0, modify_sync_quiet|intros _].
    apply respects_bind; [apply _|by apply quiet_respects0, StopVoting_quiet|intros _].
    apply respects_bind; [apply _|by apply quiet_respects0, emit_quiet|intros _].
    apply OnRemoteTimeout_T0. by rewrite Hsi.
Qed.

(** Events from the network carry blocks of the run and known certificates. *)
Definition event_ok (e : Event) : Prop :=
  match e with
  | EPropose p => U (pm_Block p) ∧ known (b_cert (pm_Block p))
  | ENewView m => known (si_cert (nv_SyncInfo m))
  | ERemoteTimeout m => known (si_cert (tm_SyncInfo m))
  | _ => True
  end.

Lemma handle_T0 depth e : event_ok e → respects T0 (handle opts members fuel depth e).
Proof.
  intros He. destruct e as [p|v|m|m|view|view t|cert b]; cbn [handle].
  - intros r a r' E. eapply T_weaken. eapply (OnPropose_with_T (AdvanceView opts members fuel depth)).
    + apply AdvanceView_out.
    + intros qc Hqc. by apply (AdvanceView_T depth (WithQC NewSyncInfo qc)).
    + apply He.
    + apply He.
    + exact E.
  - by apply quiet_respects0, OnVote_quiet.
  - by apply AdvanceView_T0.
  - by apply OnRemoteTimeout_T0.
  - apply respects_bind; [apply _|apply respects_gets, _|intros cur].
    case_decide; [apply OnLocalTimeout_T0|apply respects_ret, _].
  - apply respects_ret, _.
  - by apply quiet_respects0, verifyCert_quiet.
Qed.

Lemma Start_T0 depth : respects T0 (Start opts members fuel depth).
Proof.
  unfold Start. apply respects_bind; [apply _|by apply quiet_respects0, startTimeoutTimer_quiet|intros _].
  apply respects_bind; [apply _|apply respects_gets, _|intros v].
  case_decide; [|apply respects_ret, _]. apply getSyncInfo_T0.
  - intros si. apply Propose_with_out, AdvanceView_out.
  - intros si Hk r a r' E. eapply T_weaken.
    eapply (Propose_with_T (AdvanceView opts members fuel depth)); [apply AdvanceView_out| |exact Hk|exact E].
    intros qc Hqc. by apply (AdvanceView_T depth (WithQC NewSyncInfo qc)).
Qed.

(** The state a replica starts in. *)
Lemma init_Loc cmds d : Loc (init cmds d).
Proof.
  assert (Hno : ∀ b, ¬ voted U (init cmds d) b) by (intros b [_ Hb]; by apply not_elem_of_nil in Hb).
  split; try (intros; by exfalso; eapply Hno); try done.
  - split; [|done]. apply (Store_ok U HU); [|done]. split; intros h b Hb; cbn in Hb; by rewrite lookup_empty in Hb.
Qed.
End Simple.
