(* ===== verification/Safety.v ===== *)
(** Safety of simple HotStuff: replicas that run consensus.go,
    synchronizer.go and votingmachine.go with the rules of simplehotstuff.go
    never execute conflicting blocks.

    A world is the state of every correct replica.  A step lets one of them
    handle one event, which the adversary chooses: any message in any order,
    lost, repeated or made up, from any sender.  Two things bound the
    adversary: it does not find hash collisions (the blocks of the run form a
    universe [U]), and a certificate it delivers carries the signature of a
    correct replica on a block only when that replica has voted for the block.
    Block fetches may take any route but succeed ([Network_live]): without them
    a replica votes without its lock (Flaws.v).  What replicas decide is then on one
    chain of certificates; that what they execute is a sequence of that chain
    needs [blocks_linked], the parent of each block being the block its
    certificate is for, which the code does not check (Flaws.v). *)

From S2P Require Import Prelude IDSet Signature Types Ecdsa BlockChain Certs Rules Replica ReplicaFrame SimpleLocal.

Section Safety.
Context `{SHA : Sha256} {A D : Type} `{CC : CommandCache A} `{VD : ViewDuration D}.
Context (opts : ID → Options) (crypto : ID → CryptoBase) (leaders : ID → LeaderRotation).
Context (members correct : gset ID) (U : Block → Prop).

Abbreviation world := (ID → Replica A D).
Implicit Types (w : world).

(** The assumptions on the configuration and on the blocks of the run. *)
Record setting : Prop := {
  s_members : 1 ≤ Z.of_nat (size members);
  s_correct : correct ⊆ members;
  s_faulty : Z.of_nat (size (members ∖ correct)) ≤ NumFaulty (Z.of_nat (size members));
  s_noAgg : ∀ i, opt_shouldUseAggQC (opts i) = false;
  s_universe : universe U;
  s_genesis : U GetGenesis;
  s_views : ∀ b, U b → is_u64 (b_view b);
  s_nonzero : ∀ b, U b → b_hash b ≠ zero_hash;
}.

Definition quorum (S : gset ID) : Prop :=
  S ⊆ members ∧ QuorumSize (numReplicas members) ≤ Z.of_nat (size S).

(** Every correct replica of a quorum voted for [p]. *)
Definition certified w (p : Block) : Prop :=
  U p ∧ ∃ S, quorum S ∧ ∀ j, j ∈ S → j ∈ correct → voted U (w j) p.
Definition supported w (p : Block) : Prop := p = GetGenesis ∨ certified w p.

(** The signatures of a certificate are those of members, and those of
    correct replicas were given. *)
Definition authentic w (i : ID) (qc : QuorumCert) : Prop :=
  ∀ sig b, qc_signature qc = Some sig → U b →
    Verify (CryptoBase := crypto i) (Some sig) (Block_ToBytes b) = Ok true →
    let S : gset ID := list_to_set (RangeList (Participants sig)) in
    S ⊆ members ∧ Len (Participants sig) = Z.of_nat (size S) ∧
    ∀ j, j ∈ S → j ∈ correct → voted U (w j) b.

Definition event_certs (e : Event) : list QuorumCert :=
  match e with
  | EPropose p => [b_cert (pm_Block p)]
  | ENewView m => [si_cert (nv_SyncInfo m)]
  | ERemoteTimeout m => [si_cert (tm_SyncInfo m)]
  | _ => []
  end.

(** What the adversary may deliver to replica [i]. *)
Definition deliverable w (i : ID) (e : Event) : Prop :=
  (∀ p, e = EPropose p → U (pm_Block p)) ∧ ∀ qc, qc ∈ event_certs e → authentic w i qc.

Definition simple_handle (NET : Network) (i : ID) (fuel depth : nat) (e : Event)
    : M (Replica A D) unit :=
  handle (NET := NET) (CB := crypto i) (RU := SimpleHotStuff) (LR := leaders i)
    (opts i) members fuel depth e.
Definition simple_Start (NET : Network) (i : ID) (fuel depth : nat) : M (Replica A D) unit :=
  Start (NET := NET) (CB := crypto i) (RU := SimpleHotStuff) (LR := leaders i)
    (opts i) members fuel depth.

Definition set_replica (i : ID) (r : Replica A D) w : world :=
  λ j, if decide (j = i) then r else w j.

Inductive step w : world → Prop :=
| step_handle NET i fuel depth e r' :
    i ∈ correct → Network_ok U → Network_live U → deliverable w i e →
    simple_handle NET i fuel depth e (w i) = Ok (tt, r') → proposals_in U r' →
    step w (set_replica i r' w)
| step_start NET i fuel depth r' :
    i ∈ correct → Network_ok U → Network_live U →
    simple_Start NET i fuel depth (w i) = Ok (tt, r') → proposals_in U r' →
    step w (set_replica i r' w).

Definition init_world (cmds : ID → A) (durations : ID → D) : world :=
  λ i, init (cmds i) (durations i).
Definition reachable (cmds : ID → A) (durations : ID → D) : world → Prop :=
  rtc step (init_world cmds durations).

(** ** The invariant of all correct replicas *)
Context (HS : setting).

(** The block a voted block certifies has a quorum whose correct members
    voted for it before they voted for the block. *)
Definition backed w (b : Block) : Prop :=
  0 < b_view b ∧ ∃ q, par U b q ∧
  (q = GetGenesis ∨ ∃ S, quorum S ∧ ∀ k, k ∈ S → k ∈ correct →
     voted U (w k) q ∧ (voted U (w k) b → b_view q < b_view b)).

Record Inv w : Prop := {
  i_local : ∀ i, i ∈ correct → Loc (CB := crypto i) members U (supported w) (w i);
  i_votes : ∀ i b, i ∈ correct → voted U (w i) b → backed w b;
  i_execs : ∀ i b, i ∈ correct → b ∈ execs (w i) →
    U b ∧ ∃ d, decided U (supported w) d ∧ below U b d;
}.

Lemma Inv_init cmds durations : Inv (init_world cmds durations).
Proof.
  split.
  - intros i _. apply init_Loc; apply HS.
  - intros i b _ [_ Hv]. by apply not_elem_of_nil in Hv.
  - intros i b _ Hb. by apply not_elem_of_nil in Hb.
Qed.

(** *** Votes are never taken back *)
Definition votes_le w w' : Prop := ∀ j b, voted U (w j) b → voted U (w' j) b.

Lemma supported_mono w w' p : votes_le w w' → supported w p → supported w' p.
Proof. intros Hle [->|(HU & S & HQ & HV)]; [by left|right]. split; [done|]. exists S. split; auto. Qed.

Lemma decided_mono (Q Q' : Block → Prop) d :
  (∀ p, Q p → Q' p) → decided U Q d → decided U Q' d.
Proof. intros HQ (p & gp & Hp & ?). exists p, gp. split; [by apply HQ|done]. Qed.

Lemma Loc_mono (CB : CryptoBase) (Q Q' : Block → Prop) (r : Replica A D) :
  (∀ p, Q p → Q' p) → Loc (CB := CB) members U Q r → Loc (CB := CB) members U Q' r.
Proof.
  intros HQ [Hb Hk Hl Hv Ho Hlk Hor Hx]. split; try done.
  intros sig p E Hp Eh Hq Hver. apply HQ. by eapply Hk.
Qed.

Lemma authentic_known w i qc :
  authentic w i qc → known (CB := crypto i) members U (supported w) qc.
Proof.
  intros Ha sig p E Hp Eh Hq Hver. destruct (Ha sig p E Hp Hver) as (Hm & Hlen & HV).
  right. split; [done|]. eexists. split; [|exact HV]. split; [done|]. by rewrite <-Hlen.
Qed.

Lemma deliverable_event_ok w i e :
  deliverable w i e → event_ok (CB := crypto i) members U (supported w) e.
Proof.
  intros [HU Hc]. destruct e; cbn in *; try done.
  - split; [by apply HU|]. apply authentic_known, Hc. set_solver.
  - apply authentic_known, Hc. set_solver.
  - apply authentic_known, Hc. set_solver.
Qed.

Lemma set_replica_cases i r' w j (P : ID → Replica A D → Prop) :
  P i r' → (j ≠ i → P j (w j)) → P j (set_replica i r' w j).
Proof. unfold set_replica. case_decide; subst; auto. Qed.

Lemma set_replica_votes_le i r' w :
  ext U (supported w) (w i) r' → votes_le w (set_replica i r' w).
Proof.
  intros Hx j b [Hb Hv]. split; [done|]. unfold set_replica. case_decide; subst; [|done].
  by apply (e_mono _ _ _ _ Hx).
Qed.

(** The first correct vote for a block fixes the quorum behind it. *)
Lemma backed_step w i r' b :
  Inv w → i ∈ correct → Loc (CB := crypto i) members U (supported w) r' →
  ext U (supported w) (w i) r' →
  (∃ k, k ∈ correct ∧ voted U (set_replica i r' w k) b) → backed (set_replica i r' w) b.
Proof.
  intros HI Hi HL' Hx (k & Hk & Hkb). pose proof (set_replica_votes_le _ _ _ Hx) as Hle.
  assert (Hnew : ∀ j, j ∈ correct → voted U (set_replica i r' w j) b →
    voted U (w j) b ∨ j = i ∧ lastVote (r_cs (w i)) < b_view b ∧ ∃ q, par U b q ∧ supported w q).
  { intros j Hj. unfold set_replica. case_decide; [subst|by left].
    intros [?|[? ?]]%(e_votes _ _ _ _ Hx); auto. }
  assert (Hold : ∀ j q, j ∈ correct → voted U (w j) q → b_view q ≤ lastVote (r_cs (w j))).
  { intros j q Hj Hq. by destruct (l_view _ _ _ _ (i_local _ HI j Hj) q Hq). }
  assert (Hcase : backed w b ∨ (∀ j, j ∈ correct → ¬ voted U (w j) b)).
  { destruct (Hnew k Hk Hkb) as [?|(-> & Hlt & q & Hq & HQ)]; [left; by eapply (i_votes _ HI)|].
    destruct (decide (set_Exists (λ j, b_hash b ∈ votes (w j)) correct)) as [(j & Hj & Hjb)|Hno].
    - left. eapply (i_votes _ HI j); [done|]. split; [apply Hkb|done].
    - right. intros j Hj [_ Hjb]. apply Hno. by exists j. }
  destruct Hcase as [(Hpos & q & Hq & Hcase)|Hno].
  - split; [done|]. exists q. split; [done|]. destruct Hcase as [->|(S & HSq & HSv)]; [by left|right].
    exists S. split; [done|]. intros j Hj Hjc. destruct (HSv j Hj Hjc) as [Hv Hlt].
    split; [by apply Hle|]. intros [Hb|(-> & Hlt' & _)]%Hnew; [by apply Hlt| |done].
    specialize (Hold i q Hi Hv). lia.
  - destruct (Hnew k Hk Hkb) as [Hkw|(-> & Hlt & q & Hq & HQ)]; [by destruct (Hno k Hk)|].
    pose proof (l_last _ _ _ _ (i_local _ HI i Hi)).
    split; [lia|]. exists q. split; [done|]. destruct HQ as [->|(HUq & S & HSq & HSv)]; [by left|right].
    exists S. split; [done|]. intros j Hj Hjc. split; [by apply Hle, HSv|].
    intros [Hb|(-> & Hlt' & _)]%Hnew; [by destruct (Hno j Hjc)| |done].
    specialize (Hold i q Hi (HSv i Hj Hi)). lia.
Qed.

Lemma Inv_extend w i r' :
  Inv w → i ∈ correct → Loc (CB := crypto i) members U (supported w) r' →
  ext U (supported w) (w i) r' → Inv (set_replica i r' w).
Proof.
  intros HI Hi HL' Hx. pose proof (set_replica_votes_le _ _ _ Hx) as Hle.
  assert (HQ : ∀ p, supported w p → supported (set_replica i r' w) p)
    by (intros p; by apply supported_mono).
  split.
  - intros j. apply (set_replica_cases i r' w j (λ j r, j ∈ correct → Loc (CB := crypto j) members U _ r)).
    + intros _. by eapply Loc_mono.
    + intros _ Hj. eapply Loc_mono; [done|]. by apply HI.
  - intros j b Hj Hv. eapply backed_step; try done. by exists j.
  - intros j b Hj. unfold set_replica at 1. case_decide; [subst|].
    + intros [Hb|(HUb & d & Hd & Ha)]%(e_execs _ _ _ _ Hx).
      * destruct (i_execs _ HI _ _ Hi Hb) as (HUb & d & Hd & Ha). split; [done|].
        exists d. split; [by eapply decided_mono|done].
      * split; [done|]. exists d. split; [by eapply decided_mono|done].
    + intros Hb. destruct (i_execs _ HI _ _ Hj Hb) as (HUb & d & Hd & Ha). split; [done|].
      exists d. split; [by eapply decided_mono|done].
Qed.

Lemma Inv_step w w' : Inv w → step w w' → Inv w'.
Proof.
  intros HI Hstep. destruct Hstep as [NET i fuel depth e r' Hi HN HL Hd E Hp|NET i fuel depth r' Hi HN HL E Hp].
  - destruct (handle_T0 (CB := crypto i) (LR := leaders i) (opts i) members fuel U (s_universe HS) HN HL
      (s_genesis HS) (s_views HS) (supported w) (or_introl eq_refl) (s_noAgg HS i)
      depth e (deliverable_event_ok _ _ _ Hd) _ _ _ E) as [_ HT].
    destruct (HT Hp (i_local _ HI i Hi)) as (? & ? & _). by apply Inv_extend.
  - destruct (Start_T0 (CB := crypto i) (LR := leaders i) (opts i) members fuel U (s_universe HS) HN HL
      (s_genesis HS) (s_views HS) (supported w) (or_introl eq_refl) (s_noAgg HS i)
      depth _ _ _ E) as [_ HT].
    destruct (HT Hp (i_local _ HI i Hi)) as (? & ? & _). by apply Inv_extend.
Qed.

Lemma Inv_reachable cmds durations w : reachable cmds durations w → Inv w.
Proof.
  unfold reachable. generalize (Inv_init cmds durations). generalize (init_world cmds durations).
  intros w0 H0 Hr. induction Hr; eauto using Inv_step.
Qed.

(** ** Agreement *)
Section agreement.
Context (w : world) (HI : Inv w).

Lemma quorum_correct S1 S2 :
  quorum S1 → quorum S2 → ∃ j, j ∈ S1 ∧ j ∈ S2 ∧ j ∈ correct.
Proof.
  intros [M1 Q1] [M2 Q2].
  pose proof (quorum_overlap _ members S1 S2 (s_members HS) eq_refl M1 M2 Q1 Q2) as Hov.
  destruct (decide (S1 ∩ S2 ∩ correct = ∅)) as [He|(j & Hj)%set_choose_L]; [|set_solver].
  assert (size (S1 ∩ S2) ≤ size (members ∖ correct))%nat by (apply subseteq_size; set_solver).
  pose proof (s_faulty HS). lia.
Qed.

Lemma certified_voter p : certified w p → ∃ j, j ∈ correct ∧ voted U (w j) p.
Proof.
  intros (_ & S & HQ & HV). destruct (quorum_correct S S HQ HQ) as (j & Hj & _ & Hc). exists j. auto.
Qed.
Lemma certified_common p1 p2 :
  certified w p1 → certified w p2 → ∃ j, j ∈ correct ∧ voted U (w j) p1 ∧ voted U (w j) p2.
Proof.
  intros (_ & S1 & HQ1 & HV1) (_ & S2 & HQ2 & HV2).
  destruct (quorum_correct S1 S2 HQ1 HQ2) as (j & ? & ? & ?). exists j. auto.
Qed.

Lemma certified_pos p : certified w p → 0 < b_view p.
Proof.
  intros (j & Hj & Hv)%certified_voter. by destruct (l_view _ _ _ _ (i_local _ HI j Hj) p Hv).
Qed.
Lemma certified_unique p1 p2 :
  certified w p1 → certified w p2 → b_view p1 = b_view p2 → p1 = p2.
Proof.
  intros H1 H2 E. destruct (certified_common _ _ H1 H2) as (j & Hj & Hv1 & Hv2).
  by eapply (l_once _ _ _ _ (i_local _ HI j Hj)).
Qed.

Lemma genesis_view : b_view GetGenesis = 0.
Proof. done. Qed.
Lemma supported_U p : supported w p → U p.
Proof. intros [->|[? _]]; [apply HS|done]. Qed.
Lemma supported_view p : supported w p → 0 ≤ b_view p.
Proof. intros Hp. by destruct (s_views HS p (supported_U p Hp)). Qed.
Lemma supported_unique p1 p2 :
  supported w p1 → supported w p2 → b_view p1 = b_view p2 → p1 = p2.
Proof.
  intros [->|H1] [->|H2] E; [done|..|by apply certified_unique].
  - pose proof (certified_pos _ H2). rewrite genesis_view in E. lia.
  - pose proof (certified_pos _ H1). rewrite genesis_view in E. lia.
Qed.
Lemma genesis_no_par p : ¬ par U GetGenesis p.
Proof. intros [Hp E]. by apply (s_nonzero HS p Hp). Qed.

(** A certified block certifies a supported block of a lower view. *)
Lemma certified_par p :
  certified w p → ∃ q, par U p q ∧ supported w q ∧ b_view q < b_view p.
Proof.
  intros Hp. destruct (certified_voter _ Hp) as (j & Hj & Hv).
  destruct (i_votes _ HI j p Hj Hv) as (Hpos & q & Hq & [->|(S & HQ & HSv)]).
  - exists GetGenesis. split_and!; [done|by left|]. by rewrite genesis_view.
  - destruct Hp as (HUp & Sp & HQp & HVp). destruct (quorum_correct _ _ HQ HQp) as (k & Hk & Hkp & Hkc).
    exists q. split_and!; [done| |by apply (HSv k Hk Hkc), HVp].
    right. split; [apply Hq|]. exists S. split; [done|]. intros i Hi Hic. by apply HSv.
Qed.
Lemma supported_par p q :
  supported w p → par U p q → certified w p ∧ supported w q ∧ b_view q < b_view p.
Proof.
  intros [->|Hp] Hq; [by destruct (genesis_no_par q)|].
  destruct (certified_par _ Hp) as (q' & Hq' & Hs & Hv).
  by rewrite (par_functional U (s_universe HS) _ _ _ Hq Hq').
Qed.

(** Ancestors of supported blocks are supported, with lower views. *)
Lemma supported_anc a b :
  anc U a b → supported w b → supported w a ∧ (a = b ∨ b_view a < b_view b).
Proof.
  intros Ha. induction Ha as [b|b q a Hq Ha IH]; intros Hb; [auto|].
  destruct (supported_par _ _ Hb Hq) as (_ & Hs & Hv). destruct (IH Hs) as [? [->|?]].
  - auto.
  - split; [done|right; lia].
Qed.

Lemma anc_par_of a b q : anc U a b → a ≠ b → par U b q → anc U a q.
Proof.
  intros Ha Hne Hq. inversion Ha as [|? q' ? Hq' Ha']; simplify_eq.
  by rewrite (par_functional U (s_universe HS) _ _ _ Hq Hq').
Qed.
Lemma anc_comparable a b c : anc U a c → anc U b c → anc U a b ∨ anc U b a.
Proof.
  intros Ha Hb. revert Hb. induction Ha as [c|c q a Hq Ha IH]; intros Hb; [by right|].
  destruct (decide (b = c)) as [->|Hne]; [left; by eapply rtc_l|].
  by apply IH, (anc_par_of b c q).
Qed.

(** The three blocks behind a decision have consecutive views. *)
Lemma decided_chain d :
  decided U (supported w) d →
  ∃ p gp, certified w p ∧ certified w gp ∧ supported w d ∧ par U p gp ∧ par U gp d ∧
    b_view gp = b_view d + 1 ∧ b_view p = b_view d + 2.
Proof.
  intros (p & gp & Hp & HUp & Hgp & Hd & Hv).
  destruct (supported_par _ _ Hp Hgp) as (Hcp & Hsg & Hvg).
  destruct (supported_par _ _ Hsg Hd) as (Hcg & Hsd & Hvd).
  exists p, gp. pose proof (supported_view _ Hsd). destruct (s_views HS p HUp) as [_ Hmax].
  unfold u64 in Hv. rewrite Z.mod_small in Hv by lia. split_and!; try done; lia.
Qed.

(** Every certified block not below a decided one extends it. *)
Lemma decided_extended d x :
  decided U (supported w) d → certified w x → b_view d ≤ b_view x → anc U d x.
Proof.
  intros Hd. destruct (decided_chain d Hd) as (p & gp & Hp & Hgp & Hsd & Ppg & Pgd & Vg & Vp).
  remember (Z.to_nat (b_view x)) as n eqn:En. revert x En.
  induction n as [n IH] using lt_wf_ind. intros x En Hx Hle.
  destruct (decide (b_view x = b_view d)) as [E|N0].
  { rewrite (supported_unique x d); [constructor|by right|done|done]. }
  destruct (decide (b_view x = b_view d + 1)) as [E|N1].
  { rewrite (certified_unique x gp Hx Hgp) by lia. eapply rtc_l; [exact Pgd|constructor]. }
  destruct (decide (b_view x = b_view d + 2)) as [E|N2].
  { rewrite (certified_unique x p Hx Hp) by lia. eapply rtc_l; [exact Ppg|].
    eapply rtc_l; [exact Pgd|constructor]. }
  destruct (certified_par x Hx) as (y & Hy & Hsy & Hvy). eapply rtc_l; [exact Hy|].
  destruct (certified_common _ _ Hp Hx) as (j & Hj & Hvp & Hvx).
  assert (Hdy : b_view d ≤ b_view y).
  { eapply (l_order _ _ _ _ (i_local _ HI j Hj) p x); try done. lia. }
  pose proof (supported_view _ Hsd). pose proof (supported_view _ Hsy).
  destruct Hsy as [->|Hcy].
  - rewrite genesis_view in *. rewrite (supported_unique d GetGenesis); [constructor|done|by left|].
    rewrite genesis_view. lia.
  - eapply (IH (Z.to_nat (b_view y))); [lia|done|done|done].
Qed.

Lemma decided_comparable d1 d2 :
  decided U (supported w) d1 → decided U (supported w) d2 → anc U d1 d2 ∨ anc U d2 d1.
Proof.
  assert (Hw : ∀ d1 d2, decided U (supported w) d1 → decided U (supported w) d2 →
    b_view d1 ≤ b_view d2 → anc U d1 d2).
  { intros e1 e2 H1 H2 Hle. destruct (decided_chain _ H1) as (_ & _ & _ & _ & Hs1 & _).
    destruct (decided_chain _ H2) as (_ & _ & _ & _ & Hs2 & _).
    destruct Hs2 as [->|Hc2]; [|by apply decided_extended].
    pose proof (supported_view _ Hs1). rewrite genesis_view in Hle.
    rewrite (supported_unique e1 GetGenesis); [constructor|done|by left|]. rewrite genesis_view. lia. }
  intros H1 H2. destruct (Z.le_ge_cases (b_view d1) (b_view d2)); auto.
Qed.

(** *** The executed sequences *)

(** An ancestor of a decided block, which every executed block is when the blocks are linked. *)
Definition committed (b : Block) : Prop := ∃ d, decided U (supported w) d ∧ anc U b d.

Lemma committed_supported b : committed b → supported w b.
Proof.
  intros (d & Hd & Ha). destruct (decided_chain d Hd) as (_ & _ & _ & _ & Hs & _).
  by apply (supported_anc b d).
Qed.
Lemma committed_comparable a b : committed a → committed b → anc U a b ∨ anc U b a.
Proof.
  assert (Hw : ∀ a b d e, anc U a d → anc U b e → anc U d e → anc U a b ∨ anc U b a).
  { intros x y d e Hx Hy Hde. apply (anc_comparable x y e); [|done]. unfold anc in *. by etrans. }
  intros (d & Hd & Ha) (e & He & Hb).
  destruct (decided_comparable d e Hd He); [by eapply Hw|]. apply or_comm. by eapply Hw.
Qed.
Lemma committed_anc a b : anc U a b → committed b → committed a.
Proof. intros Ha (d & Hd & Hb). exists d. split; [done|]. unfold anc in *. by etrans. Qed.

Lemma supported_genesis_anc b : supported w b → anc U GetGenesis b.
Proof.
  remember (Z.to_nat (b_view b)) as n eqn:En. revert b En.
  induction n as [n IH] using lt_wf_ind. intros b En [->|Hb]; [constructor|].
  destruct (certified_par b Hb) as (q & Hq & Hs & Hv). eapply rtc_l; [exact Hq|].
  pose proof (supported_view _ Hs). eapply IH; [|done|done]. lia.
Qed.

Lemma decided_U d : decided U (supported w) d → U d.
Proof. by intros (_ & _ & _ & _ & _ & [? _] & _). Qed.

Context (Hlinked : blocks_linked U).
Lemma exec_committed i b : i ∈ correct → b ∈ execs (w i) → committed b.
Proof.
  intros Hi Hb. destruct (i_execs _ HI i b Hi Hb) as (_ & d & Hd & Ha). exists d. split; [done|].
  apply below_anc; [done|by apply decided_U|done].
Qed.

(** Each executed block certifies the one executed before it. *)
Lemma exec_linked i k a c :
  i ∈ correct → (GetGenesis :: execs (w i)) !! k = Some a → execs (w i) !! k = Some c →
  par U c a ∧ b_view a < b_view c.
Proof.
  intros Hi Ha Hc. destruct (l_exec _ _ _ _ (i_local _ HI i Hi)) as [_ Hf].
  destruct (Hf k a c Ha Hc) as (HUc & Hpos & Hq).
  assert (Hcc : committed c) by (eapply exec_committed; [done|]; by eapply list_elem_of_lookup_2).
  assert (Hac : committed a).
  { destruct k as [|k]; cbn in Ha; simplify_eq.
    - eapply committed_anc; [|exact Hcc]. by apply supported_genesis_anc, committed_supported.
    - eapply exec_committed; [done|]. by eapply list_elem_of_lookup_2. }
  pose proof (committed_supported _ Hcc) as Hsc. destruct Hsc as [->|Hcert]; [done|].
  destruct (certified_par c Hcert) as (q & Pq & Hsq & Hvq). destruct (Hq q) as [Hle [->|Hlt]]; [by apply link_par|done|].
  assert (Haq : anc U a q).
  { apply (anc_par_of a c q); [|intros ->; lia|done].
    destruct (committed_comparable a c Hac Hcc) as [?|Hca]; [done|].
    destruct (supported_anc _ _ Hca (committed_supported _ Hac)) as [_ [->|?]]; [lia|lia]. }
  destruct (supported_anc _ _ Haq Hsq) as [_ [->|?]]; [done|lia].
Qed.

Lemma logs_agree i j k c1 c2 :
  i ∈ correct → j ∈ correct → execs (w i) !! k = Some c1 → execs (w j) !! k = Some c2 → c1 = c2.
Proof.
  intros Hi Hj. revert c1 c2. induction k as [k IH] using lt_wf_ind. intros c1 c2 H1 H2.
  assert (∃ a, (GetGenesis :: execs (w i)) !! k = Some a ∧ (GetGenesis :: execs (w j)) !! k = Some a)
    as (a & Ha1 & Ha2).
  { destruct k as [|k]; [by exists GetGenesis|]. cbn.
    destruct (lookup_lt_is_Some_2 (execs (w i)) k) as [a1 E1]; [apply lookup_lt_Some in H1; lia|].
    destruct (lookup_lt_is_Some_2 (execs (w j)) k) as [a2 E2]; [apply lookup_lt_Some in H2; lia|].
    exists a1. split; [done|]. by rewrite (IH k (Nat.lt_succ_diag_r k) a1 a2 E1 E2). }
  destruct (exec_linked i k a c1 Hi Ha1 H1) as [P1 V1].
  destruct (exec_linked j k a c2 Hj Ha2 H2) as [P2 V2].
  assert (C1 : committed c1) by (eapply (exec_committed i); [done|by eapply list_elem_of_lookup_2]).
  assert (C2 : committed c2) by (eapply (exec_committed j); [done|by eapply list_elem_of_lookup_2]).
  assert (Hw : ∀ x y, par U y a → b_view a < b_view x → committed y → anc U x y → x = y).
  { intros x y Py Vx Cy Hxy. destruct (decide (x = y)) as [->|Hne]; [done|].
    pose proof (anc_par_of x y a Hxy Hne Py) as Hxa.
    destruct (supported_par _ _ (committed_supported _ Cy) Py) as (_ & Hsa & _).
    destruct (supported_anc _ _ Hxa Hsa) as [_ [->|?]]; lia. }
  destruct (committed_comparable c1 c2 C1 C2); [by apply Hw|symmetry; by apply Hw].
Qed.
End agreement.

(** A block [d] that a correct replica may commit: [d], a block that certifies it and one that
    certifies that, in consecutive views, the last two with quorums of votes. *)
Definition decision w (d : Block) : Prop :=
  ∃ gp p, par U gp d ∧ par U p gp ∧ certified w gp ∧ certified w p ∧
    b_view gp = b_view d + 1 ∧ b_view p = b_view d + 2.
Lemma decided_decision w d : Inv w → decided U (supported w) d → decision w d.
Proof.
  intros HI Hd. destruct (decided_chain w HI d Hd) as (p & gp & ? & ? & _ & ? & ? & ? & ?). by exists gp, p.
Qed.

(** C2: Safety of simple HotStuff, when block fetches succeed, whatever the Byzantine replicas do and
    whatever becomes of the messages.  Every block a correct replica has executed is
    below (by parents) a decided block, one with certified blocks on it in the next two views, and the
    decided blocks of two correct replicas are on one chain of certificates.  If moreover the parent of
    every block is the block its certificate is for, which the code does not check, the sequences
    of executed blocks agree: one is a prefix of the other. *)
Theorem simple_hotstuff_safety cmds durations w i j :
  reachable cmds durations w → i ∈ correct → j ∈ correct →
  (∀ b1 b2, b1 ∈ execs (w i) → b2 ∈ execs (w j) →
    ∃ d1 d2, below U b1 d1 ∧ below U b2 d2 ∧ decision w d1 ∧ decision w d2 ∧ (anc U d1 d2 ∨ anc U d2 d1)) ∧
  (blocks_linked U →
    execs (w i) `prefix_of` execs (w j) ∨ execs (w j) `prefix_of` execs (w i)).
Proof.
  intros Hr%Inv_reachable Hi Hj. split.
  - intros b1 b2 H1 H2. destruct (i_execs _ Hr i b1 Hi H1) as (_ & d1 & Hd1 & B1).
    destruct (i_execs _ Hr j b2 Hj H2) as (_ & d2 & Hd2 & B2). exists d1, d2.
    split_and!; [done|done|by apply decided_decision..|by apply (decided_comparable w Hr)].
  - intros HL. destruct (Nat.le_ge_cases (length (execs (w i))) (length (execs (w j)))).
    + left. apply prefix_of_agree; [done|]. intros k c1 c2. by apply (logs_agree w Hr HL).
    + right. apply prefix_of_agree; [done|]. intros k c1 c2. by apply (logs_agree w Hr HL).
Qed.

(** C18: When block fetches succeed and the parent of every block is the block its certificate is
    for, the blocks a correct replica has executed are a gapless chain of certified blocks: each has a quorum of
    votes, the first certifies the genesis block, each next one certifies the one executed
    before it, and their views increase; so no block is executed twice or skipped. *)
Theorem executed_chain cmds durations w i k a c :
  blocks_linked U → reachable cmds durations w → i ∈ correct →
  (GetGenesis :: execs (w i)) !! k = Some a → execs (w i) !! k = Some c →
  certified w c ∧ qc_hash (b_cert c) = b_hash a ∧ b_view a < b_view c.
Proof.
  intros HL Hr%Inv_reachable Hi Ha Hc. destruct (exec_linked w Hr HL i k a c Hi Ha Hc) as [[HUa Eh] Hv].
  split_and!; [|by rewrite Eh|done].
  assert (Hs : supported w c) by (eapply (committed_supported w Hr), (exec_committed w Hr HL i); [done|by eapply list_elem_of_lookup_2]).
  destruct Hs as [->|?]; [|done]. pose proof (s_views HS a HUa) as [? _]. rewrite genesis_view in Hv. lia.
Qed.
End Safety.
