(* ===== verification/SafetySample.v ===== *)
(** A run of simple HotStuff that can be evaluated: four replicas, of which
    1, 2 and 3 are correct, a fixed leader and a chain of five blocks.  It shows
    that the assumptions of Safety.v can hold together, with ECDSA-style
    multi-signatures (Ecdsa.v) as the crypto implementation. *)

From S2P Require Import Prelude IDSet Signature Types Samples Ecdsa BlockChain Certs Rules Replica ReplicaFrame SimpleLocal Safety.

#[local] Existing Instance sample_sha256.

(** ** Environment *)
#[export] Instance sample_cmds : CommandCache unit :=
  {| Accept := λ _ _, true; Proposed := λ _ a, a; GetCmd := λ a, ([], a) |}.
#[export] Instance sample_duration : ViewDuration unit :=
  {| Duration := λ _, 0; ViewStarted := λ d, d; ViewSucceeded := λ _ _ d, d; ViewTimeout := λ _ d, d |}.

Definition sample_opts (i : ID) : Options := mkOptions i false false false 0.
Definition sample_crypto (i : ID) : CryptoBase := ecdsaBase i sample_replicas (sample_sign i) sample_verify.
Definition sample_leader (l : ID) : LeaderRotation := λ _, l.
Definition sample_members : gset ID := dom sample_replicas.

(** The network that delivers the blocks of a list. *)
Definition net_of (l : list Block) : Network := λ _ h,
  ([], head (filter (λ b, b_hash b = h) l)).

Lemma net_of_ok l : universe (λ b, b ∈ l) →
  Network_ok (NET := net_of l) (λ b, b ∈ l) ∧ Network_live (NET := net_of l) (λ b, b ∈ l).
Proof.
  intros HU.
  assert (Hres : ∀ k h b, (fetch (Network := net_of l) k h).2 = Some b → b ∈ l ∧ b_hash b = h).
  { intros k h b Hb. apply head_Some_elem_of, list_elem_of_filter in Hb as [??]. done. }
  split; [intros k h; split; [constructor|]; intros b Hb; by eapply Hres|].
  intros k b Hb. destruct (fetch (Network := net_of l) k (b_hash b)).2 as [b'|] eqn:E.
  - destruct (Hres _ _ _ E) as [Hb' Eh]. f_equal. by apply (U_inj _ HU).
  - cbn in E. apply head_None in E. assert (Hin : b ∈ filter (λ b', b_hash b' = b_hash b) l).
    { by apply list_elem_of_filter. }
    rewrite E in Hin. by apply not_elem_of_nil in Hin.
Qed.

(** ** A checked run *)
Section run.
Context (l : list Block) (correct : list ID) (leader : ID).
Abbreviation U := (λ b, b ∈ l).
Abbreviation correct_set := (list_to_set correct : gset ID).
Abbreviation world := (ID → Replica unit unit).
Context (HU : universe U).

Definition authenticb (w : world) (i : ID) (qc : QuorumCert) : bool :=
  match qc_signature qc with
  | None => true
  | Some sig =>
      forallb (λ b,
        match Verify (CryptoBase := sample_crypto i) (Some sig) (Block_ToBytes b) with
        | Ok true =>
            let S : gset ID := list_to_set (RangeList (Participants sig)) in
            bool_decide (S ⊆ sample_members) &&
            bool_decide (Len (Participants sig) = Z.of_nat (size S)) &&
            forallb (λ j, bool_decide (j ∉ S) || bool_decide (b_hash b ∈ votes (w j))) correct
        | _ => true
        end) l
  end.

Lemma authenticb_ok w i qc :
  authenticb w i qc = true → authentic sample_crypto sample_members correct_set U w i qc.
Proof.
  unfold authenticb. intros Hb sig b Es Hin Hv. rewrite Es, forallb_forall in Hb.
  specialize (Hb b (proj1 (list_elem_of_In _ _) Hin)). rewrite Hv in Hb.
  apply andb_true_iff in Hb as [[H1%bool_decide_eq_true H2%bool_decide_eq_true]%andb_true_iff H3].
  split_and!; [done|done|]. intros j Hj Hc. split; [done|]. rewrite forallb_forall in H3.
  apply elem_of_list_to_set in Hc. specialize (H3 j (proj1 (list_elem_of_In _ _) Hc)).
  by apply orb_true_iff in H3 as [H3%bool_decide_eq_true|H3%bool_decide_eq_true].
Qed.

Definition proposals_inb (r : Replica unit unit) : bool :=
  forallb (λ a, match a with APropose p => bool_decide (pm_Block p ∈ l) | _ => true end) (r_out r).

Lemma proposals_inb_ok r : proposals_inb r = true → proposals_in U r.
Proof.
  unfold proposals_inb. rewrite forallb_forall. intros Hall p Hp%list_elem_of_In.
  apply Hall in Hp. by apply bool_decide_eq_true in Hp.
Qed.

(** One delivery of a proposal, if it is allowed. *)
Definition deliver (w : world) (i : ID) (p : ProposeMsg) : option world :=
  if bool_decide (i ∈ correct) && bool_decide (pm_Block p ∈ l) &&
     authenticb w i (b_cert (pm_Block p))
  then
    match simple_handle sample_opts sample_crypto (λ _, sample_leader leader) sample_members
            (net_of l) i 20 3 (EPropose p) (w i) with
    | Ok (_, r) => if proposals_inb r then Some (set_replica i r w) else None
    | _ => None
    end
  else None.

Fixpoint run (w : world) (evs : list (ID * ProposeMsg)) : option world :=
  match evs with
  | [] => Some w
  | (i, p) :: evs => match deliver w i p with Some w => run w evs | None => None end
  end.

Abbreviation sample_step :=
  (step sample_opts sample_crypto (λ _, sample_leader leader) sample_members correct_set U).

Lemma deliver_step w i p w' : deliver w i p = Some w' → sample_step w w'.
Proof.
  unfold deliver. destruct (bool_decide (i ∈ correct)) eqn:Ei; [|done].
  destruct (bool_decide (pm_Block p ∈ l)) eqn:Ep; [|done]. cbn [andb].
  destruct (authenticb w i _) eqn:Ea; [|done].
  destruct (simple_handle _ _ _ _ _ _ _ _ _ _) as [[[] r]| |] eqn:Eh; [|done..].
  destruct (proposals_inb r) eqn:Er; [|done]. intros [= <-].
  apply bool_decide_eq_true in Ei, Ep. destruct (net_of_ok l HU) as [Hok Hlive].
  eapply (step_handle _ _ _ _ _ _ _ (net_of l)); [set_solver|done|done| |exact Eh|by apply proposals_inb_ok].
  split; [by intros ? [= <-]|]. intros qc Hqc. cbn in Hqc. apply list_elem_of_singleton in Hqc as ->.
  by apply authenticb_ok.
Qed.

Lemma run_steps evs w w' : run w evs = Some w' → rtc sample_step w w'.
Proof.
  revert w. induction evs as [|[i p] evs IH]; intros w; cbn; [intros [= ->]; constructor|].
  destruct (deliver w i p) as [w1|] eqn:E; [|done]. intros Hr.
  eapply rtc_l; [by eapply deliver_step|by apply IH].
Qed.
End run.

(** ** The run *)
Definition run_b1 : Block := sample_child sample_genesis 1 4.
Definition run_b2 : Block := sample_child run_b1 2 4.
Definition run_b3 : Block := sample_child run_b2 3 4.
Definition run_b4 : Block := sample_child run_b3 4 4.
Definition run_b5 : Block := sample_child run_b4 5 4.
Definition run_blocks : list Block := [sample_genesis; run_b1; run_b2; run_b3; run_b4; run_b5].

Definition propose (b : Block) : ProposeMsg := mkProposeMsg 4 b None.
(** Replicas 1 to 3 see every block up to [run_b4], replica 1 also [run_b5]. *)
Definition run_events : list (ID * ProposeMsg) :=
  (b ← [run_b1; run_b2; run_b3; run_b4]; i ← [1; 2; 3]; [(i, propose b)]) ++ [(1, propose run_b5)].

Definition run_init : ID → Replica unit unit := init_world (λ _, tt) (λ _, tt).
Definition run_world : ID → Replica unit unit :=
  default run_init (run run_blocks [1; 2; 3] 4 run_init run_events).

Lemma run_universe : universe (λ b, b ∈ run_blocks).
Proof. apply collision_free_universe. vm_compute. reflexivity. Qed.

Lemma run_reachable :
  reachable sample_opts sample_crypto (λ _, sample_leader 4) sample_members
    (list_to_set [1; 2; 3]) (λ b, b ∈ run_blocks) (λ _, tt) (λ _, tt) run_world.
Proof.
  unfold run_world. destruct (run run_blocks [1; 2; 3] 4 run_init run_events) as [w|] eqn:E; cbn [default].
  - eapply run_steps; [apply run_universe|exact E].
  - constructor.
Qed.

Lemma run_executed : execs (run_world 1) = [run_b1; run_b2] ∧ execs (run_world 2) = [run_b1].
Proof. split; vm_compute; reflexivity. Qed.

Lemma all_blocks (P : Block → Prop) `{!∀ b, Decision (P b)} l :
  forallb (λ b, bool_decide (P b)) l = true → ∀ b, b ∈ l → P b.
Proof.
  rewrite forallb_forall. intros HP b Hb%list_elem_of_In. by apply (bool_decide_eq_true_1 (P b)), HP.
Qed.

Lemma run_setting :
  setting sample_opts sample_members (list_to_set [1; 2; 3]) (λ b, b ∈ run_blocks).
Proof.
  split.
  - vm_compute. done.
  - apply (bool_decide_unpack _). vm_compute. done.
  - vm_compute. done.
  - done.
  - apply run_universe.
  - left.
  - apply (all_blocks (λ b, 0 ≤ b_view b < two64)). vm_compute. done.
  - apply (all_blocks (λ b, b_hash b ≠ zero_hash)). vm_compute. done.
Qed.
Lemma run_linked : blocks_linked (λ b, b ∈ run_blocks).
Proof. unfold blocks_linked. apply (all_blocks (λ b, b_parent b = qc_hash (b_cert b))). vm_compute. done. Qed.

(** The sequences of replicas 1 and 2 in the run. *)
Lemma simple_hotstuff_safety_witness :
  (execs (run_world 1) `prefix_of` execs (run_world 2) ∨
   execs (run_world 2) `prefix_of` execs (run_world 1)) ∧
  execs (run_world 1) = [run_b1; run_b2].
Proof.
  split; [|apply run_executed].
  apply (simple_hotstuff_safety sample_opts sample_crypto (λ _, sample_leader 4) sample_members
    (list_to_set [1; 2; 3]) (λ b, b ∈ run_blocks) run_setting (λ _, tt) (λ _, tt) run_world 1 2).
  - apply run_reachable.
  - set_solver.
  - set_solver.
  - apply run_linked.
Defined.

Lemma executed_chain_witness :
  certified sample_members (list_to_set [1; 2; 3]) (λ b, b ∈ run_blocks) run_world run_b2 ∧
  qc_hash (b_cert run_b2) = b_hash run_b1 ∧ b_view run_b1 < b_view run_b2.
Proof.
  apply (executed_chain sample_opts sample_crypto (λ _, sample_leader 4) sample_members
    (list_to_set [1; 2; 3]) (λ b, b ∈ run_blocks) run_setting (λ _, tt) (λ _, tt) run_world 1 1).
  - apply run_linked.
  - apply run_reachable.
  - set_solver.
  - destruct run_executed as [-> _]. reflexivity.
  - destruct run_executed as [-> _]. reflexivity.
Defined.
