(* ===== verification/ReplicaFacts.v ===== *)
(** Behaviour of the handlers of Replica.v, whatever the rules: how deep view
    changes nest, how much fuel executing a branch needs, which votes and views
    are accepted. *)

From S2P Require Import Prelude IDSet Signature Types Samples Ecdsa BlockChain Certs Rules Replica ReplicaFrame SafetySample.

Section Facts.
Context `{SHA : Sha256} `{NET : Network} `{CB : CryptoBase} `{RU : Rules} `{LR : LeaderRotation}.
Context {A D : Type} `{CC : CommandCache A} `{VD : ViewDuration D}.
Context (opts : Options) (members : gset ID) (fuel : nat).

Abbreviation R := (Replica A D).
Implicit Types (r : R) (propose advance : SyncInfo → M R unit).

(** ** View changes nest at most once

    [AdvanceView] proposes, the proposal is handled at once, and handling it
    advances the view again with the same certificate.  That inner call finds
    the view already reached and returns. *)

(** Computations that leave the synchronizer alone. *)
Definition same_sync (r r' : R) : Prop := r_sync r' = r_sync r.
#[local] Instance same_sync_preorder : PreOrder same_sync.
Proof. unfold same_sync. split; [done|]. intros r1 r2 r3 ??. congruence. Qed.

Lemma modify_same f : (∀ r : R, r_sync (f r) = r_sync r) → respects same_sync (modify f).
Proof. intros Hf. apply respects_modify. intros r. apply Hf. Qed.
Lemma with_chain_same {T} (m : M BlockChain T) : respects same_sync (with_chain m).
Proof. by eapply respects_zoom with (RT := λ _ _, True). Qed.
Lemma with_rules_same {T} (m : M RuleState T) : respects same_sync (with_rules m).
Proof. by eapply respects_zoom with (RT := λ _ _, True). Qed.

Ltac same_step :=
  lazymatch goal with
  | |- respects _ (ret _) => apply respects_ret, _
  | |- respects _ (gets _) => apply respects_gets, _
  | |- respects _ getView => apply respects_gets, _
  | |- respects _ (lift _) => apply respects_lift, _
  | |- respects _ panic => apply respects_panic
  | |- respects _ diverge => apply respects_diverge
  | |- respects _ (bind _ _) => apply respects_bind; [apply _| |]
  | |- respects _ (match _ with _ => _ end) => first [case_decide | case_match]
  | |- respects _ (with_chain _) => apply with_chain_same
  | |- respects _ (with_rules _) => apply with_rules_same
  | |- respects _ (emit _) => apply modify_same; done
  | |- respects _ (modify _) => apply modify_same; done
  | |- respects _ (for_each _ _) => apply respects_for_each; [apply _|]
  | |- ∀ _, _ => intros ?
  end.
Ltac same := repeat same_step.

Lemma commitInner_same n b : respects same_sync (commitInner n b).
Proof. revert b. induction n as [|n IH]; intros b; cbn [commitInner]; same. apply IH. Qed.
Lemma commit_same b : respects same_sync (commit fuel b).
Proof. unfold commit. same. apply commitInner_same. Qed.
Lemma acceptor_proposed_same h : respects same_sync (acceptor_proposed h).
Proof. unfold acceptor_proposed. same. Qed.

(** Two runs of [bind] that agree after the first call agree. *)
Lemma bind_agree {S X Y} (m : M S X) (k1 k2 : X → M S Y) s :
  (∀ a s', m s = Ok (a, s') → k1 a s' = k2 a s') → bind m k1 s = bind m k2 s.
Proof. intros Hk. unfold bind, outcome_bind. destruct (m s) as [[a s']| |] eqn:E; auto. Qed.

Lemma bind_agree_same {X Y} (m : M R X) (k1 k2 : X → M R Y) (v : View) r :
  respects same_sync m → currentView (r_sync r) = v →
  (∀ a r', currentView (r_sync r') = v → k1 a r' = k2 a r') → bind m k1 r = bind m k2 r.
Proof. intros Hm Hv Hk. apply bind_agree. intros a r' E. apply Hk. by rewrite (Hm _ _ _ E). Qed.

Definition same_view (r r' : R) : Prop := currentView (r_sync r') = currentView (r_sync r).
Lemma updateHighQC_view qc r r' : updateHighQC qc r = Ok (tt, r') → same_view r r'.
Proof.
  intros E. unfold updateHighQC in E. apply bind_Ok in E as (o & r1 & E1 & E).
  pose proof (with_chain_same _ _ _ _ E1) as H1. unfold same_view. rewrite <-H1.
  destruct o as [b|]; [|unfold ret in E; by simplify_eq].
  unfold modify_sync, modify in E. simplify_eq. cbn. by case_decide.
Qed.

(** With a QC below the current view, [AdvanceView] never proposes. *)
Lemma AdvanceView_old (propose1 propose2 : SyncInfo → M R unit) qc r :
  0 ≤ qc_view qc < currentView (r_sync r) →
  AdvanceView_with opts members propose1 (WithQC NewSyncInfo qc) r =
  AdvanceView_with opts members propose2 (WithQC NewSyncInfo qc) r.
Proof.
  intros Hqc. unfold AdvanceView_with. apply bind_agree. intros tc r1 E1.
  unfold check_TC in E1. cbn in E1. unfold ret in E1. simplify_eq.
  apply bind_agree. intros res r2 E2.
  assert (H2 : r_sync r2 = r_sync r1).
  { eapply (respects_bind same_sync) in E2; [exact E2|apply with_chain_same|].
    intros b. destruct b; apply respects_ret, _. }
  unfold check_QC in E2. cbn in E2. apply bind_Ok in E2 as (ok & r2' & _ & E2).
  destruct ok; unfold ret in E2; simplify_eq; [|done]. cbn beta iota.
  apply bind_agree. intros vt r3 E3. unfold use_QC in E3. apply bind_Ok in E3 as ([] & r3' & E3 & E4).
  pose proof (updateHighQC_view _ _ _ E3) as H3. rewrite decide_True in E4 by lia.
  unfold ret in E4. simplify_eq. apply bind_agree. intros view r4 [= <- <-].
  rewrite H3, H2. cbn. by rewrite !decide_True by lia.
Qed.

Section nesting.
Context (honest : ProposeRule = None).

Lemma OnPropose_with_agree (advance1 advance2 : SyncInfo → M R unit) p r :
  (∀ r', currentView (r_sync r') = currentView (r_sync r) →
     advance1 (WithQC NewSyncInfo (b_cert (pm_Block p))) r' =
     advance2 (WithQC NewSyncInfo (b_cert (pm_Block p))) r') →
  OnPropose_with opts members fuel advance1 p r = OnPropose_with opts members fuel advance2 p r.
Proof.
  intros Hadv. unfold OnPropose_with. remember (currentView (r_sync r)) as v eqn:Ev. symmetry in Ev.
  eapply bind_agree_same; [|exact Ev|].
  { same. }
  intros ok r1 V1. destruct ok; cbn [negb]; [|done].
  eapply bind_agree_same; [apply with_chain_same|exact V1|]. intros qcOk r2 V2.
  destruct qcOk; cbn [negb]; [|done]. case_decide; [done|].
  eapply bind_agree_same; [apply with_rules_same|exact V2|]. intros safe r3 V3.
  destruct safe; cbn [negb]; [|done].
  eapply bind_agree_same; [apply acceptor_proposed_same|exact V3|]. intros _ r4 V4.
  eapply bind_agree_same; [apply respects_gets, _|exact V4|]. intros acc r5 V5.
  destruct acc; cbn [negb]; [|done].
  eapply bind_agree_same; [by apply modify_same|exact V5|]. intros _ r6 V6.
  eapply bind_agree_same; [apply with_rules_same|exact V6|]. intros o r7 V7.
  eapply bind_agree_same; [destruct o; [apply commit_same|apply respects_ret, _]|exact V7|].
  intros _ r8 V8. unfold bind. by rewrite Hadv.
Qed.

Lemma Propose_with_agree (advance1 advance2 : SyncInfo → M R unit) si r :
  (∀ r', currentView (r_sync r') = currentView (r_sync r) →
     advance1 (WithQC NewSyncInfo (default zero_QuorumCert (si_qc si))) r' =
     advance2 (WithQC NewSyncInfo (default zero_QuorumCert (si_qc si))) r') →
  Propose_with opts members fuel advance1 si r = Propose_with opts members fuel advance2 si r.
Proof.
  intros Hadv. unfold Propose_with. remember (currentView (r_sync r)) as v eqn:Ev. symmetry in Ev.
  eapply bind_agree_same; [destruct (si_qc si); [apply acceptor_proposed_same|apply respects_ret, _]|exact Ev|].
  intros _ r1 V1. eapply (bind_agree_same _ _ _ v); [|exact V1|].
  { intros s a s' E. by simplify_eq. }
  intros cmd r2 V2. apply bind_agree. intros prop r3 E3. unfold make_proposal in E3. rewrite honest in E3.
  apply bind_Ok in E3 as (view & r3' & [= <- <-] & [= <- <-]).
  eapply bind_agree_same; [by apply modify_same|exact V2|]. intros _ r4 V4.
  eapply bind_agree_same; [by apply modify_same|exact V4|]. intros _ r5 V5.
  apply bind_agree. intros [] r6 E6.
  assert (V6 : currentView (r_sync r6) = v).
  { unfold UpdateLeaderTimer in E6. apply bind_Ok in E6 as (? & ? & [= <- <-] & [= <-]). done. }
  apply OnPropose_with_agree. intros r' V'. apply Hadv. congruence.
Qed.

Lemma enter_view_view v t r newView r' :
  enter_view v t r = Ok (newView, r') → newView = u64 (v + 1) ∧ currentView (r_sync r') = newView.
Proof.
  unfold enter_view. intros E. apply bind_Ok in E as ([] & r1 & _ & E).
  apply bind_Ok in E as ([] & r2 & _ & E). apply bind_Ok in E as ([] & r3 & [= <-] & E).
  apply bind_Ok in E as ([] & r4 & [= <-] & E). apply bind_Ok in E as ([] & r5 & [= <-] & E).
  apply bind_Ok in E as ([] & r6 & [= <-] & [= <- <-]). done.
Qed.

(** The view reached is that of the QC used, or higher. *)
Lemma use_QC_view qc v t r vt r' :
  use_QC qc v t r = Ok (vt, r') →
  match qc with Some q => vt.1 = Z.max v (qc_view q) | None => vt.1 = v end.
Proof.
  intros E. unfold use_QC in E. destruct qc as [q|]; [|unfold ret in E; by simplify_eq].
  apply bind_Ok in E as ([] & r1 & _ & E). case_decide; unfold ret in E; simplify_eq; cbn; lia.
Qed.
Lemma check_QC_high si v t r v' t' si' qc r' :
  check_QC opts members si v t r = Ok (Some (v', t', si', qc), r') → si_qc si' = qc.
Proof.
  intros E. unfold check_QC in E.
  destruct (si_aggQC si) as [agg|], (opt_shouldUseAggQC opts);
    [|destruct (si_qc si) eqn:Eq|destruct (si_qc si) eqn:Eq|destruct (si_qc si) eqn:Eq].
  all: try (unfold ret in E; by simplify_eq).
  - apply bind_Ok in E as (high & r1 & _ & E).
    destruct high; [|by unfold ret in E; simplify_eq]. case_decide; unfold ret in E; by simplify_eq.
  - apply bind_Ok in E as ([] & r1 & _ & E); unfold ret in E; by simplify_eq.
  - apply bind_Ok in E as ([] & r1 & _ & E); unfold ret in E; by simplify_eq.
  - apply bind_Ok in E as ([] & r1 & _ & E); unfold ret in E; by simplify_eq.
Qed.

(** No certificate of the sync info claims the last view. *)
Definition view_ok (v : View) : Prop := 0 ≤ v < two64 - 1.
Record views_ok (si : SyncInfo) : Prop := {
  ok_tc : ∀ tc, si_tc si = Some tc → view_ok (tc_view tc);
  ok_qc : ∀ qc, si_qc si = Some qc → view_ok (qc_view qc);
  ok_agg : ∀ agg, si_aggQC si = Some agg →
    view_ok (agg_view agg) ∧ map_Forall (λ _ qc, view_ok (qc_view qc)) (agg_qcs agg);
}.

Lemma high_of_view_ok agg :
  map_Forall (λ _ qc, view_ok (qc_view qc)) (agg_qcs agg) →
  view_ok (qc_view (high_of (map_to_list (agg_qcs agg)))).
Proof.
  intros Hall. unfold high_of.
  assert (Hl : Forall (λ qc, view_ok (qc_view qc)) (map_to_list (agg_qcs agg)).*2).
  { apply Forall_fmap, Forall_forall. intros [i qc] Hin%elem_of_map_to_list. by eapply Hall. }
  destruct (select_high_spec (map_to_list (agg_qcs agg)).*2 zero_QuorumCert) as ([-> |Hin] & _).
  - by left.
  - eapply Forall_impl; [done|]. intros qc [? _]. done.
  - done.
  - rewrite Forall_forall in Hl. by apply Hl.
Qed.

Lemma VerifyAggregateQC_high n agg c high c' :
  VerifyAggregateQC n agg c = Ok (Some high, c') → high = high_of (map_to_list (agg_qcs agg)).
Proof.
  unfold VerifyAggregateQC. intros E. destruct (agg_sig agg) as [sig|]; [|done].
  case_decide; [unfold ret in E; by simplify_eq|]. apply bind_Ok in E as ([] & c1 & _ & E).
  - apply bind_Ok in E as ([] & c2 & _ & E); unfold ret in E; by simplify_eq.
  - unfold ret in E. by simplify_eq.
Qed.

Lemma check_TC_view si r v t r' :
  views_ok si → check_TC members si r = Ok (Some (v, t), r') → view_ok v.
Proof.
  intros Hsi E. unfold check_TC in E. destruct (si_tc si) as [tc|] eqn:Et.
  - apply bind_Ok in E as ([] & r1 & _ & E); [|unfold ret in E; by simplify_eq].
    apply bind_Ok in E as ([] & r2 & _ & E). unfold ret in E. simplify_eq. by apply Hsi.
  - unfold ret in E. by simplify_eq.
Qed.

Lemma check_QC_view si v t r v' t' si' qc r' :
  views_ok si → view_ok v → check_QC opts members si v t r = Ok (Some (v', t', si', qc), r') →
  view_ok v' ∧ ∀ q, qc = Some q → view_ok (qc_view q).
Proof.
  intros Hsi Hv E.
  assert (Hplain : (match si_qc si with
    | None => ret (Some (v, t, si, None))
    | Some qc => ok <- with_chain (VerifyQuorumCert (numReplicas members) qc) ;;
        if (ok : bool) then ret (Some (v, t, si, Some qc)) else ret None
    end) r = Ok (Some (v', t', si', qc), r') → view_ok v' ∧ ∀ q, qc = Some q → view_ok (qc_view q)).
  { destruct (si_qc si) as [qc0|] eqn:Eq; [|unfold ret; intros; by simplify_eq].
    intros ([] & r1 & _ & E')%bind_Ok; unfold ret in E'; simplify_eq. split; [done|].
    intros q [= <-]. by apply Hsi. }
  unfold check_QC in E. destruct (si_aggQC si) as [agg|] eqn:Ea; [|by apply Hplain].
  destruct (opt_shouldUseAggQC opts); [|by apply Hplain].
  apply bind_Ok in E as (high & r1 & E1 & E). destruct high as [high|]; [|by unfold ret in E; simplify_eq].
  destruct (ok_agg _ Hsi agg Ea) as [Hav Hqcs].
  assert (Hhigh : view_ok (qc_view high)).
  { unfold with_chain, zoom, outcome_bind in E1.
    destruct (VerifyAggregateQC _ agg (r_chain r)) as [[o c]| |] eqn:EV; simplify_eq.
    rewrite (VerifyAggregateQC_high _ _ _ _ _ EV). by apply high_of_view_ok. }
  case_decide; unfold ret in E; simplify_eq; (split; [done|]); by intros q [= <-].
Qed.

(** C35: With rules that leave the proposal to [Propose], and for a sync info whose certificates do not
    claim the view 2^64 - 1, however deep calls may nest, [AdvanceView] gives the same result as with
    two levels: the view change made by handling the replica's own proposal
    never proposes again.  (A certificate that claims that view makes the counter wrap, and
    the calls nest without end: [last_view_never_returns] in Flaws.v.) *)
Theorem AdvanceView_nests_once depth si r :
  views_ok si → AdvanceView opts members fuel (S (S depth)) si r = AdvanceView opts members fuel 2 si r.
Proof.
  intros Hsi. cbn [AdvanceView]. unfold AdvanceView_with at 1 3.
  apply bind_agree. intros [[v t]|] r1 E1; [|done]. pose proof (check_TC_view _ _ _ _ _ Hsi E1) as Hv.
  apply bind_agree. intros [[[[v' t'] si'] qc]|] r2 E2; [|done].
  destruct (check_QC_view _ _ _ _ _ _ _ _ _ Hsi Hv E2) as [Hv' Hqc].
  pose proof (check_QC_high _ _ _ _ _ _ _ _ _ E2) as Esi.
  apply bind_agree. intros vt r3 E3. apply bind_agree. intros view r4 [= <- <-].
  case_decide as Hlt; [done|]. apply bind_agree. intros newView r5 E5.
  destruct (enter_view_view _ _ _ _ _ E5) as [-> V5]. case_decide; [|done].
  apply bind_agree. intros [] r6 [= <-]. apply Propose_with_agree. intros r' V'. cbn in V'.
  apply AdvanceView_old. rewrite V'. pose proof (use_QC_view _ _ _ _ _ _ E3) as Hvt. subst qc.
  unfold view_ok in *. assert (0 ≤ vt.1 < two64 - 1).
  { destruct (si_qc si') as [q|]; [destruct (Hqc q eq_refl)|]; lia. }
  unfold u64. rewrite Z.mod_small by lia.
  destruct (si_qc si') as [q|]; cbn; [destruct (Hqc q eq_refl)|]; lia.
Qed.
End nesting.

(** ** Views are not authenticated *)

Lemma silent_emit a r : silent a → votes (up_out a r) = votes r ∧ execs (up_out a r) = execs r.
Proof.
  intros [Hv Hx]. unfold votes, execs. cbn. rewrite !omap_app. csimpl. rewrite Hv, Hx. by rewrite !app_nil_r.
Qed.
Lemma enter_view_Ok v t r :
  ∃ r', enter_view v t r = Ok (u64 (v + 1), r') ∧ currentView (r_sync r') = u64 (v + 1) ∧
        votes r' = votes r ∧ execs r' = execs r.
Proof.
  unfold enter_view, bind, outcome_bind, emit, modify. destruct t.
  all: eexists; split; [reflexivity|]; split; [reflexivity|].
  all: unfold votes, execs; cbn; rewrite !omap_app; csimpl; by rewrite !app_nil_r.
Qed.

(** A certificate for the genesis block that claims view [v]; nobody signed it. *)
Definition genesis_cert (v : View) : QuorumCert := mkQuorumCert None v (b_hash GetGenesis).
Definition forged_new_view (id : ID) (v : View) : Event :=
  ENewView (mkNewViewMsg id (WithQC NewSyncInfo (genesis_cert v))).

(** One unsigned message moves a replica to any later view: a [NewViewMsg]
    whose QC names the genesis block and claims view [v] is accepted from anyone
    and takes the replica to view [v + 1]. *)
Theorem OnNewView_unsigned depth id v r g :
  blocks (r_chain r) !! b_hash GetGenesis = Some g →
  0 ≤ currentView (r_sync r) ≤ v → v < two64 - 1 → GetLeader (v + 1) ≠ opt_id opts →
  ∃ r', handle opts members fuel (S depth) (forged_new_view id v) r = Ok (tt, r') ∧
        currentView (r_sync r') = v + 1 ∧ votes r' = votes r ∧ execs r' = execs r.
Proof.
  intros Hg Hv Hmax Hl. unfold handle, forged_new_view, OnNewView. cbn [AdvanceView nv_SyncInfo].
  assert (Hu : u64 (v + 1) = v + 1) by (unfold u64; rewrite Z.mod_small; lia).
  set (r1 := up_sync (λ s, if decide (qc_view (highQC s) < b_view g) then set_highQC (genesis_cert v) s else s) r).
  assert (E1 : updateHighQC (genesis_cert v) r = Ok (tt, r1)).
  { unfold updateHighQC, with_chain, bind, zoom, outcome_bind. cbn [qc_hash genesis_cert].
    rewrite (Get_present _ _ _ Hg). unfold modify_sync, modify. destruct r; cbn. done. }
  unfold AdvanceView_with, check_TC, check_QC, bind, outcome_bind, ret. cbn [si_tc si_aggQC si_qc WithQC NewSyncInfo].
  unfold with_chain, zoom, VerifyQuorumCert, outcome_bind. cbn [qc_hash genesis_cert].
  rewrite decide_True by done. unfold ret, use_QC, bind, outcome_bind.
  replace (up_chain (r_chain r) r) with r by (by destruct r). rewrite E1. cbn [qc_view genesis_cert].
  rewrite (decide_True (P := 0 ≤ v)) by lia. unfold ret, getView, gets. cbn [fst snd].
  rewrite decide_False by (cbn; case_decide; cbn; lia).
  destruct (enter_view_Ok v false r1) as (r2 & -> & V2 & Hv2 & Hx2). rewrite Hu in *.
  rewrite (decide_False (P := _ = opt_id opts)) by done. case_decide.
  - eexists. split; [reflexivity|]. destruct (silent_emit (ANewView (GetLeader (v + 1))
      (WithQC NewSyncInfo (genesis_cert v))) r2) as [-> ->]; [done|]. done.
  - eexists. split; [reflexivity|]. done.
Qed.
End Facts.

(** ** Samples *)
Section samples.
#[local] Existing Instance sample_sha256.
#[local] Existing Instance no_network.

(** Replica 4 leads: it proposes for view 6 and handles its own proposal. *)
Lemma AdvanceView_nests_once_witness :
  ∃ r', AdvanceView (CB := sample_crypto 4) (RU := SimpleHotStuff) (LR := sample_leader 4) (sample_opts 4) sample_members 5 9
          (WithQC NewSyncInfo (genesis_cert 5)) (init tt tt) = Ok (tt, r') ∧
        length (votes r') = 1%nat ∧ currentView (r_sync r') = 6.
Proof.
  eexists. split.
  - rewrite (AdvanceView_nests_once (CB := sample_crypto 4) (RU := SimpleHotStuff) (LR := sample_leader 4) (sample_opts 4)
      sample_members 5 eq_refl 7 (WithQC NewSyncInfo (genesis_cert 5)) (init tt tt)).
    + vm_compute. reflexivity.
    + split; cbn; [done| |done]. intros qc [= <-]. vm_compute. split; [discriminate|reflexivity].
  - split; vm_compute; reflexivity.
Defined.

Lemma OnNewView_unsigned_witness :
  ∃ r', handle (CB := sample_crypto 1) (RU := SimpleHotStuff) (LR := sample_leader 4) (sample_opts 1) sample_members 5 2
          (forged_new_view 3 1000) (init tt tt) = Ok (tt, r') ∧ currentView (r_sync r') = 1001.
Proof.
  destruct (OnNewView_unsigned (CB := sample_crypto 1) (RU := SimpleHotStuff) (LR := sample_leader 4) (sample_opts 1) sample_members 5 1
    3 1000 (init tt tt) GetGenesis) as (r' & E & V & _).
  - vm_compute. reflexivity.
  - vm_compute. split; discriminate.
  - vm_compute. reflexivity.
  - vm_compute. discriminate.
  - exists r'. split; [exact E|exact V].
Defined.
End samples.
