(* ===== verification/Voting.v ===== *)
(** Collecting votes (consensus/votingmachine.go) with ECDSA signatures: a
    quorum of valid votes from different replicas becomes a certificate that
    every replica accepts, and one repeated vote prevents it for good. *)

From S2P Require Import Prelude IDSet Signature Types Samples Ecdsa BlockChain Certs Rules Replica ReplicaFrame SafetySample.

Section Voting.
Context `{SHA : Sha256} `{NET : Network} {PublicKey : Type} (replicas : gmap ID PublicKey).
Context (ecdsa_sign : Hash → option (Z * Z)).
Context (ecdsa_verify : PublicKey → Hash → Z → Z → bool).
Context {A D : Type}.
Context (opts : Options).
Let members : gset ID := dom replicas.
#[local] Instance crypto : CryptoBase := ecdsaBase (opt_id opts) replicas ecdsa_sign ecdsa_verify.
Implicit Types (r : Replica A D).

(** The partial certificate of one signer, as [CreatePartialCert] makes it. *)
Definition vote_of (b : Block) (v : ID * ECDSASignature) : PartialCert :=
  mkPartialCert v.1 (Some (SigECDSA {[ v.1 := v.2 ]})) (b_hash b).

(** A vote for [b] that verifies. *)
Definition valid_vote (b : Block) (v : ID * ECDSASignature) : Prop :=
  ec_signer v.2 = v.1 ∧ verifySingle replicas ecdsa_verify v.2 (sha256 (Block_ToBytes b)) = true.

(** *** Combining *)
Lemma combine_disjoint (vs : list (ID * ECDSASignature)) ts :
  NoDup vs.*1 → (∀ i, i ∈ vs.*1 → ts !! i = None) →
  combine_loop ts ((λ v : ID * ECDSASignature, Some (SigECDSA {[ v.1 := v.2 ]})) <$> vs) =
    Ok (inr (SigECDSA (list_to_map vs ∪ ts))).
Proof.
  revert ts. induction vs as [|[i x] vs IH]; intros ts Hnd Hts.
  { cbn. by rewrite (left_id_L ∅ (∪)). }
  rewrite fmap_cons. cbn [combine_loop fst snd]. cbn in Hnd. apply NoDup_cons in Hnd as [Hi Hnd]. rewrite add_entries_map.
  assert (Hti : ts !! i = None) by (apply Hts; cbn; set_solver).
  rewrite decide_True by (by apply map_disjoint_singleton_l_2). rewrite IH.
  - do 3 f_equal. rewrite <-insert_union_singleton_l, <-insert_union_r, insert_union_l; [done|].
    by apply not_elem_of_list_to_map.
  - done.
  - intros j Hj. rewrite lookup_union_None. split; [|apply Hts; cbn; set_solver].
    apply lookup_singleton_None. set_solver.
Qed.

Lemma Combine_votes b vs :
  NoDup vs.*1 → (2 ≤ length vs)%nat →
  Combine (pc_signature <$> (vote_of b <$> vs)) = Ok (inr (SigECDSA (list_to_map vs))).
Proof.
  intros Hnd Hlen. cbn. unfold ec_Combine. rewrite <-list_fmap_compose, length_fmap.
  rewrite decide_False by lia.
  pose proof (combine_disjoint vs ∅ Hnd) as Hc. rewrite (right_id_L ∅ (∪)) in Hc. apply Hc.
  intros i _. apply lookup_empty.
Qed.

Lemma Combine_duplicate b vs k1 k2 v1 v2 :
  (k1 < k2)%nat → vs !! k1 = Some v1 → vs !! k2 = Some v2 → v1.1 = v2.1 →
  Combine (pc_signature <$> (vote_of b <$> vs)) = Ok (inl ErrCombineOverlap).
Proof.
  intros Hk H1 H2 E. cbn. unfold ec_Combine. rewrite <-list_fmap_compose, length_fmap.
  pose proof (lookup_lt_Some _ _ _ H2). rewrite decide_False by lia.
  pose proof (combine_loop_overlap ((λ v : ID * ECDSASignature, {[ v.1 := v.2 ]}) <$> vs) ∅ v1.1) as Hc.
  rewrite <-list_fmap_compose in Hc. apply Hc. right.
  exists k1, k2, {[ v1.1 := v1.2 ]}, {[ v2.1 := v2.2 ]}. rewrite !list_lookup_fmap, H1, H2.
  split_and!; [done|done|done|by rewrite lookup_singleton_eq|by rewrite E, lookup_singleton_eq].
Qed.

Definition cert_of (b : Block) (vs : list (ID * ECDSASignature)) : QuorumCert :=
  mkQuorumCert (Some (SigECDSA (list_to_map vs))) (b_view b) (b_hash b).

Lemma Verify_votes b vs :
  NoDup vs.*1 → (2 ≤ length vs)%nat → Forall (valid_vote b) vs →
  Verify (Some (SigECDSA (list_to_map vs))) (Block_ToBytes b) = Ok true.
Proof.
  intros Hnd Hlen Hall. cbn. unfold ec_Verify, Multi.Len.
  rewrite map_size_list_to_map by done. rewrite decide_False by lia. f_equal.
  apply forallb_forall. intros [i x] Hin%list_elem_of_In%elem_of_map_to_list. cbn.
  apply elem_of_list_to_map_2 in Hin. rewrite Forall_forall in Hall. by apply (Hall (i, x)).
Qed.

Lemma cert_of_verifies b vs (c : BlockChain) :
  blocks c !! b_hash b = Some b → NoDup vs.*1 → (2 ≤ length vs)%nat →
  QuorumSize (numReplicas members) ≤ Z.of_nat (length vs) → Forall (valid_vote b) vs →
  VerifyQuorumCert (numReplicas members) (cert_of b vs) c = Ok (true, c).
Proof.
  intros Hb Hnd Hlen HQ Hall. unfold VerifyQuorumCert. case_decide; [done|]. cbn [qc_signature cert_of].
  assert (HL : Len (Participants (SigECDSA (list_to_map vs))) = Z.of_nat (length vs)).
  { cbn. unfold Multi.Len. by rewrite map_size_list_to_map by done. }
  rewrite HL. rewrite decide_False by lia. unfold bind, outcome_bind. cbn [qc_hash].
  rewrite (Get_present _ _ _ Hb). rewrite Verify_votes by done. done.
Qed.

(** *** The voting machine *)
Definition pending r (b : Block) : list PartialCert := default [] (r_verifiedVotes r !! b_hash b).

(** A valid vote is recorded before the quorum is checked. *)
Lemma verifyCert_records b v r :
  blocks (r_chain r) !! b_hash b = Some b → valid_vote b v →
  with_chain (VerifyPartialCert (vote_of b v)) r = Ok (true, r).
Proof.
  intros Hb [Hs Hv]. unfold with_chain, zoom, VerifyPartialCert, bind, outcome_bind. cbn [pc_blockHash vote_of].
  rewrite (Get_present _ _ _ Hb). cbn [pc_signature].
  assert (E : Verify (Some (SigECDSA {[ v.1 := v.2 ]})) (Block_ToBytes b) = Ok true).
  { cbn. unfold ec_Verify, Multi.Len. rewrite map_size_singleton. rewrite decide_False by done.
    rewrite map_to_list_singleton. cbn. by rewrite Hv. }
  unfold vote_of, pc_signature. rewrite E. cbn. by destruct r.
Qed.

(** When the votes of a quorum of different replicas, all valid, have been
    collected, the voting machine announces their certificate in one new-view
    event and forgets the votes; and that certificate passes [VerifyQuorumCert]
    on any store that holds the block. *)
Theorem verifyCert_quorum b vs v r :
  blocks (r_chain r) !! b_hash b = Some b → b_hash b ≠ b_hash GetGenesis →
  pending r b = vote_of b <$> vs → NoDup (vs ++ [v]).*1 → Forall (valid_vote b) (vs ++ [v]) →
  (2 ≤ length (vs ++ [v]))%nat → QuorumSize (numReplicas members) ≤ Z.of_nat (length (vs ++ [v])) →
  ∃ r', verifyCert opts members (vote_of b v) b r = Ok (tt, r') ∧
    r_out r' = r_out r ++
      [AAddEvent (ENewView (mkNewViewMsg (opt_id opts) (WithQC NewSyncInfo (cert_of b (vs ++ [v])))))] ∧
    r_verifiedVotes r' !! b_hash b = None ∧
    ∀ c, blocks c !! b_hash b = Some b →
      VerifyQuorumCert (numReplicas members) (cert_of b (vs ++ [v])) c = Ok (true, c).
Proof.
  intros Hb Hg Hp Hnd Hall Hlen HQ.
  assert (Hv : valid_vote b v) by (rewrite Forall_app, Forall_singleton in Hall; apply Hall).
  unfold verifyCert, bind at 1, outcome_bind at 1. rewrite (verifyCert_records b v r Hb Hv). cbn [negb].
  unfold bind, outcome_bind, gets, modify. cbn [pc_blockHash vote_of].
  fold (pending r b). rewrite Hp.
  assert (E : (vote_of b <$> vs) ++ [vote_of b v] = vote_of b <$> (vs ++ [v])) by (by rewrite fmap_app).
  fold (vote_of b v). rewrite E, length_fmap. rewrite decide_False by lia.
  unfold lift, outcome_bind, CreateQuorumCert. rewrite decide_False by done.
  rewrite Combine_votes by done. cbn [outcome_bind].
  eexists. split; [reflexivity|]. cbn. split_and!.
  - done.
  - apply map_lookup_filter_None_2. left. apply lookup_delete_eq.
  - intros c Hc. by apply cert_of_verifies.
Qed.

(** A repeated vote blocks the certificate: once two votes of one replica for
    a block are stored, each further valid vote leaves the repeated votes in
    place and never produces a certificate, however many replicas vote. *)
Theorem duplicate_vote_blocks b vs v r k1 k2 v1 v2 :
  blocks (r_chain r) !! b_hash b = Some b → b_hash b ≠ b_hash GetGenesis →
  pending r b = vote_of b <$> vs → valid_vote b v →
  (k1 < k2)%nat → (vs ++ [v]) !! k1 = Some v1 → (vs ++ [v]) !! k2 = Some v2 → v1.1 = v2.1 →
  ∃ r', verifyCert opts members (vote_of b v) b r = Ok (tt, r') ∧ r_out r' = r_out r ∧
    (qc_view (highQC (r_sync r)) < b_view b → pending r' b = vote_of b <$> (vs ++ [v])).
Proof.
  intros Hb Hg Hp Hv Hk H1 H2 E12.
  unfold verifyCert, bind at 1, outcome_bind at 1. rewrite (verifyCert_records b v r Hb Hv). cbn [negb].
  unfold bind, outcome_bind, gets, modify. cbn [pc_blockHash vote_of].
  fold (pending r b). rewrite Hp.
  assert (E : (vote_of b <$> vs) ++ [vote_of b v] = vote_of b <$> (vs ++ [v])) by (by rewrite fmap_app).
  fold (vote_of b v). rewrite E.
  set (r1 := up_votes _ r).
  assert (Hr1 : ∀ r', cleanup_votes r1 = Ok (tt, r') → r_out r' = r_out r ∧
    (qc_view (highQC (r_sync r)) < b_view b → pending r' b = vote_of b <$> (vs ++ [v]))).
  { intros r' [= <-]. split; [done|]. intros Hh. unfold pending. cbn.
    rewrite (map_lookup_filter_Some_2 _ _ _ (vote_of b <$> (vs ++ [v]))); [done| |].
    - by rewrite lookup_insert_eq.
    - cbn. unfold keep_votes, LocalGet. cbn. by rewrite Hb. }
  case_decide.
  - eexists. split; [reflexivity|]. by apply Hr1.
  - unfold lift, outcome_bind, CreateQuorumCert. rewrite (decide_False (P := b_hash b = _)) by done.
    rewrite (Combine_duplicate b _ k1 k2 v1 v2) by done. cbn [outcome_bind].
    eexists. split; [reflexivity|]. by apply Hr1.
Qed.
End Voting.

(** *** Samples *)
Section samples.
#[local] Existing Instance sample_sha256.
#[local] Existing Instance no_network.

(** The vote of replica [i] for [run_b1]. *)
Definition sample_vote (i : ID) : ID * ECDSASignature :=
  (i, mkECDSA i (le_value (sha256 (Block_ToBytes run_b1))) i).
(** A replica that holds [run_b1] and the given votes for it. *)
Definition sample_voting (vs : list (ID * ECDSASignature)) : Replica unit unit :=
  up_votes {[ b_hash run_b1 := vote_of run_b1 <$> vs ]}
    (up_chain (Store run_b1 New) (init tt tt)).

Lemma verifyCert_quorum_witness :
  ∃ r', verifyCert (CB := sample_crypto 4) (sample_opts 4) sample_members (vote_of run_b1 (sample_vote 3)) run_b1
          (sample_voting (sample_vote <$> [1; 2])) = Ok (tt, r') ∧
    r_out r' ≠ [] ∧ r_verifiedVotes r' !! b_hash run_b1 = None.
Proof.
  destruct (verifyCert_quorum sample_replicas (sample_sign 4) sample_verify (sample_opts 4) run_b1
    (sample_vote <$> [1; 2]) (sample_vote 3) (sample_voting (sample_vote <$> [1; 2]))) as (r' & E & Ho & Hn & _).
  - vm_compute. reflexivity.
  - vm_compute. discriminate.
  - vm_compute. reflexivity.
  - apply (bool_decide_unpack _). vm_compute. done.
  - repeat constructor.
  - cbn. lia.
  - vm_compute. discriminate.
  - exists r'. split_and!; [exact E|by rewrite Ho|exact Hn].
Defined.

(** Replica 1 voted twice; replicas 2 and 3 then make no certificate. *)
Lemma duplicate_vote_blocks_witness :
  ∃ r', verifyCert (CB := sample_crypto 4) (sample_opts 4) sample_members (vote_of run_b1 (sample_vote 3)) run_b1
          (sample_voting (sample_vote <$> [1; 1; 2])) = Ok (tt, r') ∧ r_out r' = [].
Proof.
  destruct (duplicate_vote_blocks sample_replicas (sample_sign 4) sample_verify (sample_opts 4) run_b1
    (sample_vote <$> [1; 1; 2]) (sample_vote 3) (sample_voting (sample_vote <$> [1; 1; 2]))
    0 1 (sample_vote 1) (sample_vote 1)) as (r' & E & Ho & _).
  - vm_compute. reflexivity.
  - vm_compute. discriminate.
  - vm_compute. reflexivity.
  - split; vm_compute; reflexivity.
  - lia.
  - reflexivity.
  - reflexivity.
  - reflexivity.
  - exists r'. split; [exact E|exact Ho].
Defined.
End samples.
