(* ===== verification/Flaws.v ===== *)
(** Runs on which the code does not do what it means to.  Each is evaluated on
    the handlers of Replica.v with four replicas, ECDSA-style certificates signed
    by replicas 1, 2 and 3, and replica 4 as leader. *)

From S2P Require Import Prelude IDSet Signature Types Samples Ecdsa BlockChain Certs Rules Replica ReplicaFrame SafetySample ReplicaFacts.

#[local] Existing Instance sample_sha256.

(** Replica [i] handles proposals in order, with fetches answered from [l]. *)
Section single.
Context (rules : Network → Rules) (l : list Block) (i : ID).
Definition handle_proposal (b : Block) : M (Replica unit unit) unit :=
  handle (NET := net_of l) (CB := sample_crypto i) (RU := rules (net_of l)) (LR := sample_leader 4)
    (sample_opts i) sample_members 20 3 (EPropose (propose b)).
Definition handle_all (bs : list Block) : outcome (unit * Replica unit unit) :=
  for_each handle_proposal bs (init tt tt).
(** The blocks voted for and executed after the proposals [bs]. *)
Definition outcome_of (bs : list Block) : option (list Hash * list Block) :=
  match handle_all bs with Ok (_, r) => Some (votes r, execs r) | _ => None end.
End single.

(** ** Chained HotStuff commits without consecutive views *)

(** Two chains on the genesis block, their views interleaved. *)
Definition x1 : Block := sample_child sample_genesis 1 4.
Definition y2 : Block := sample_child sample_genesis 2 4.
Definition x3 : Block := sample_child x1 3 4.
Definition y4 : Block := sample_child y2 4 4.
Definition x5 : Block := sample_child x3 5 4.
Definition y6 : Block := sample_child y4 6 4.
Definition x7 : Block := sample_child x5 7 4.
Definition y8 : Block := sample_child y6 8 4.
Definition interleaved : list Block := [x1; y2; x3; y4; x5; y6; x7; y8].

(** C36: Chained HotStuff executes conflicting blocks.  Correct replicas 1, 2 and 3,
    given the proposals of two interleaved chains, vote for every one of them (so
    the certificates in them exist) and execute first [x1] and then [y2], two
    different blocks on the genesis block: [CommitRule] asks for parent links but
    not for consecutive views. *)
Theorem chained_hotstuff_conflict i :
  i ∈ [1; 2; 3] →
  outcome_of (λ net, ChainedHotStuff (NET := net) 20) (sample_genesis :: interleaved) i interleaved =
    Some (b_hash <$> interleaved, [x1; y2]) ∧
  b_parent x1 = b_hash sample_genesis ∧ b_parent y2 = b_hash sample_genesis ∧ x1 ≠ y2.
Proof.
  intros Hi. split; [|by vm_compute].
  repeat (apply elem_of_cons in Hi as [->|Hi]; [vm_compute; reflexivity|]).
  by apply not_elem_of_nil in Hi.
Qed.
Lemma chained_hotstuff_conflict_witness :
  outcome_of (λ net, ChainedHotStuff (NET := net) 20) (sample_genesis :: interleaved) 2 interleaved =
    Some (b_hash <$> interleaved, [x1; y2]).
Proof. apply (chained_hotstuff_conflict 2). set_solver. Defined.

(** The same proposals under simple HotStuff: nothing is executed. *)
Lemma simple_hotstuff_interleaved :
  outcome_of (λ net, SimpleHotStuff (NET := net)) (sample_genesis :: interleaved) 1 interleaved =
    Some (b_hash <$> interleaved, []).
Proof. vm_compute. reflexivity. Qed.

(** ** A vote without a lock *)

(** Simple HotStuff votes without locking when a fetch fails.  A replica that can
    fetch the parent of a proposal but not its grandparent votes for it, and its
    lock stays on the genesis block instead of moving to the grandparent. *)
Theorem simple_vote_without_lock :
  ∃ r, handle_all (λ net, SimpleHotStuff (NET := net)) [run_b2] 1 [run_b3] = Ok (tt, r) ∧
    votes r = [b_hash run_b3] ∧ r_locked r = GetGenesis ∧
    (∃ r', handle_all (λ net, SimpleHotStuff (NET := net)) [run_b1; run_b2] 1 [run_b3] = Ok (tt, r') ∧
           votes r' = [b_hash run_b3] ∧ r_locked r' = run_b1).
Proof.
  eexists. split; [vm_compute; reflexivity|]. split; [vm_compute; reflexivity|].
  split; [vm_compute; reflexivity|].
  eexists. split; [vm_compute; reflexivity|]. split; vm_compute; reflexivity.
Qed.

(** ** The parent link is never compared with the certificate *)

(** [evil] is a block nobody voted for; [w2] names it as parent but certifies
    the genesis block. *)
Definition evil : Block := sample_child sample_genesis 1 4.
Definition w2 : Block := NewBlock (b_hash evil) sample_genesis_qc [2] 2 4.
Definition w3 : Block := sample_child w2 3 4.
Definition w4 : Block := sample_child w3 4 4.
Definition w5 : Block := sample_child w4 5 4.

(** Simple HotStuff executes a block without a certificate.  The replica votes for
    four proposals whose certificates are valid and form a chain from the genesis
    block; but [commitInner] follows [Parent()], which no check ties to the
    certificate, and so executes [evil], which nobody voted for. *)
Theorem uncertified_block_executed :
  outcome_of (λ net, SimpleHotStuff (NET := net)) [evil; w2; w3; w4; w5] 1 [w2; w3; w4; w5] =
    Some (b_hash <$> [w2; w3; w4; w5], [evil; w2]) ∧
  qc_hash (b_cert w2) = b_hash sample_genesis ∧ b_parent w2 = b_hash evil.
Proof. vm_compute. done. Qed.

(** ** The last view *)

(** Simple HotStuff with replica 4 as leader, and a sync info whose certificate names the genesis block and claims the
    view 2^64 - 1: entering the next view wraps the view to 0, below the certificate. *)
Section last_view.
#[local] Existing Instance no_network.
#[local] Existing Instance SimpleHotStuff.
#[local] Instance lead_4 : LeaderRotation := sample_leader 4.
#[local] Instance crypto_4 : CryptoBase := sample_crypto 4.
Abbreviation advance_with := (AdvanceView_with (sample_opts 4) sample_members).
Abbreviation propose_with := (Propose_with (sample_opts 4) sample_members 5).
Implicit Types (advance : SyncInfo → M (Replica unit unit) unit).

Definition last_view : SyncInfo := WithQC NewSyncInfo (genesis_cert (two64 - 1)).

(** The replica when it advances its view again for its own proposal; what it sent and how often it asked the
    network is different each time. *)
Definition one_lap (r : Replica unit unit) : Replica unit unit :=
  match advance_with (propose_with (λ _ r, Ok (tt, r))) last_view r with Ok (_, r) => r | _ => r end.
Definition lapping (k : nat) (out : list Action) : Replica unit unit :=
  let r := one_lap (init tt tt) in
  mkReplica (mkBlockChain (pruneHeight (r_chain r)) (blocks (r_chain r)) (blockAtHeight (r_chain r)) k)
    (r_locked r) (r_cs r) (r_sync r) (r_verifiedVotes r) (r_cmds r) out.

Ltac next_lap advance H :=
  match goal with |- context [advance ?s ?r] =>
    let H' := fresh in pose proof (H (fetches (r_chain r)) (r_out r)) as H'; vm_compute in H';
    match type of H' with ?rhs = _ =>
      let E := fresh in assert (E : advance s r = Diverge) by (transitivity rhs; [reflexivity|exact H']);
      clear H'; revert E; generalize (advance s r); intros ? ->; reflexivity
    end
  end.

Lemma lap_again advance : (∀ k out, advance last_view (lapping k out) = Diverge) →
  ∀ k out, advance_with (propose_with advance) last_view (lapping k out) = Diverge.
Proof. intros H k out. vm_compute. next_lap advance H. Qed.
Lemma first_lap advance : (∀ k out, advance last_view (lapping k out) = Diverge) →
  advance_with (propose_with advance) last_view (init tt tt) = Diverge.
Proof. intros H. vm_compute. next_lap advance H. Qed.
Lemma lapping_forever depth : ∀ k out, AdvanceView (sample_opts 4) sample_members 5 depth last_view (lapping k out) = Diverge.
Proof. induction depth as [|d IH]; intros k out; [done|]. cbn [AdvanceView]. by apply lap_again. Qed.

(** One unsigned message stops a leader: a NewViewMsg from anyone with a certificate that names the genesis block and
    claims the view 2^64 - 1 makes it propose and handle its proposal without end, however deep calls may nest. *)
Theorem last_view_never_returns depth id :
  handle (sample_opts 4) sample_members 5 depth (forged_new_view id (two64 - 1)) (init tt tt) = Diverge.
Proof.
  destruct depth as [|d]; [done|]. unfold handle, forged_new_view, OnNewView. cbn [nv_SyncInfo AdvanceView].
  apply first_lap, lapping_forever.
Qed.
End last_view.
