(* ===== verification/EventQueue.v ===== *)
(** The event queue of the event loop (src/sourcecodes/hotstuff/eventloop/queue.go):
    a bounded circular buffer that drops its oldest entry when full. *)

From S2P Require Import Prelude.

Section Queue.
Context {E : Type} (nil : E).

Record queue := mkQueue { entries : list E; q_head : Z; q_tail : Z }.

Definition capacity (q : queue) : Z := Z.of_nat (length (entries q)).
Definition newQueue (cap : nat) : queue := mkQueue (replicate cap nil) (-1) (-1).

Definition push (entry : E) (q : queue) : outcome queue :=
  if decide (capacity q = 0) then Panic
  else
    let pos := if decide (q_tail q + 1 = capacity q) then 0 else q_tail q + 1 in
    let head :=
      if decide (pos = q_head q)
      then if decide (q_head q + 1 = capacity q) then 0 else q_head q + 1
      else q_head q in
    let head := if decide (head = -1) then pos else head in
    Ok (mkQueue (<[ Z.to_nat pos := entry ]> (entries q)) head pos).

Definition pop (q : queue) : outcome (option E * queue) :=
  if decide (q_head q = -1) then Ok (None, q)
  else
    match entries q !! Z.to_nat (q_head q) with
    | None => Panic
    | Some entry =>
        Ok (Some entry,
            if decide (q_head q = q_tail q) then mkQueue (entries q) (-1) (-1)
            else mkQueue (entries q)
                   (if decide (q_head q + 1 = capacity q) then 0 else q_head q + 1) (q_tail q))
    end.

Definition len (q : queue) : Z :=
  if decide (q_head q = -1) then 0
  else if decide (q_head q ≤ q_tail q) then q_tail q - q_head q + 1
  else capacity q - q_head q + q_tail q + 1.

(** ** Abstraction: the entries in order, oldest first *)
Definition wrap (cap i : Z) : Z := if decide (i < cap) then i else i - cap.
Definition at_index (q : queue) (k : Z) : E :=
  nth (Z.to_nat (wrap (capacity q) (q_head q + k))) (entries q) nil.
Definition contents (q : queue) : list E := at_index q <$> seqZ 0 (len q).

Record wf (q : queue) : Prop := {
  wf_empty : q_head q = -1 ↔ q_tail q = -1;
  wf_head : -1 ≤ q_head q < capacity q;
  wf_tail : -1 ≤ q_tail q < capacity q;
}.

(** What the queue promises: a list of at most [cap] entries. *)
Definition bounded_push (cap : Z) (x : E) (l : list E) : list E :=
  (if decide (Z.of_nat (length l) < cap) then l else tail l) ++ [x].

(** ** Lemmas *)
Ltac queue_cases := unfold len, wrap in *; repeat case_decide; try lia.

Lemma len_bounds q : wf q → 0 ≤ len q ≤ capacity q.
Proof. intros [He Hh Ht]. queue_cases. Qed.

Lemma length_contents q : wf q → Z.of_nat (length (contents q)) = len q.
Proof.
  intros Hq. pose proof (len_bounds q Hq). unfold contents. rewrite length_fmap, length_seqZ. lia.
Qed.

Lemma lookup_contents q (k : nat) :
  Z.of_nat k < len q → contents q !! k = Some (at_index q (Z.of_nat k)).
Proof. intros Hk. unfold contents. rewrite list_lookup_fmap, lookup_seqZ_lt by lia. done. Qed.

(** Lists of entries are equal when they agree at every position. *)
Lemma contents_ext q l :
  wf q → Z.of_nat (length l) = len q →
  (∀ k : nat, Z.of_nat k < len q → l !! k = Some (at_index q (Z.of_nat k))) → contents q = l.
Proof.
  intros Hq Hlen Hl. apply list_eq. intros k. destruct (decide (Z.of_nat k < len q)).
  - by rewrite lookup_contents, Hl.
  - rewrite !lookup_ge_None_2; [done| |].
    + lia.
    + pose proof (length_contents q Hq). lia.
Qed.

Lemma nth_insert (l : list E) (i j : nat) x :
  (i < length l)%nat → nth j (<[ i := x ]> l) nil = if decide (j = i) then x else nth j l nil.
Proof.
  intros Hi. rewrite !nth_lookup. case_decide as Hj; [subst|].
  - by rewrite list_lookup_insert_eq.
  - by rewrite list_lookup_insert_ne.
Qed.
Lemma newQueue_wf cap : wf (newQueue cap) ∧ contents (newQueue cap) = [].
Proof. split; [|done]. split; cbn; unfold capacity; lia. Qed.

(** The shape of the queue after a push. *)
Lemma push_shape x q :
  wf q → 0 < capacity q →
  ∃ q', push x q = Ok q' ∧ wf q' ∧ capacity q' = capacity q ∧
    entries q' = <[ Z.to_nat (q_tail q') := x ]> (entries q) ∧ 0 ≤ q_tail q' ∧
    len q' = (if decide (len q < capacity q) then len q + 1 else len q) ∧
    q_tail q' = wrap (capacity q') (q_head q' + len q' - 1) ∧
    (0 < len q → q_head q' = if decide (len q < capacity q) then q_head q
                             else wrap (capacity q) (q_head q + 1)).
Proof.
  intros [He Hh Ht] Hcap. unfold push. rewrite decide_False by lia.
  eexists. split; [reflexivity|].
  assert (Hc : ∀ i h t, capacity (mkQueue (<[ i := x ]> (entries q)) h t) = capacity q).
  { intros i h t. unfold capacity. cbn. by rewrite length_insert. }
  split; [|split; [apply Hc|split; [done|]]].
  - split; cbn [q_head q_tail]; rewrite ?Hc; queue_cases.
  - unfold len. rewrite !Hc. cbn [q_head q_tail]. unfold wrap. repeat case_decide; lia.
Qed.

Lemma pop_shape q :
  wf q → 0 < len q →
  ∃ q', pop q = Ok (Some (at_index q 0), q') ∧ wf q' ∧ capacity q' = capacity q ∧
    entries q' = entries q ∧ len q' = len q - 1 ∧
    (0 < len q' → q_head q' = wrap (capacity q) (q_head q + 1)).
Proof.
  intros [He Hh Ht] Hlen. unfold pop. rewrite decide_False by queue_cases.
  destruct (entries q !! Z.to_nat (q_head q)) as [y|] eqn:Ey.
  2: { apply lookup_ge_None_1 in Ey. unfold capacity, len in *. case_decide; lia. }
  eexists. split.
  { do 3 f_equal. unfold at_index. rewrite Z.add_0_r. unfold wrap. rewrite decide_True by lia.
    symmetry. rewrite nth_lookup. by rewrite Ey. }
  assert (Hc : ∀ h t, capacity (mkQueue (entries q) h t) = capacity q) by done.
  case_decide; (split; [|split; [apply Hc|split; [done|]]]).
  - split; cbn [q_head q_tail]; rewrite ?Hc; lia.
  - unfold len in *. cbn [q_head q_tail] in *. repeat case_decide; lia.
  - split; cbn [q_head q_tail]; rewrite ?Hc; queue_cases.
  - unfold len in *. rewrite !Hc. cbn [q_head q_tail] in *. unfold wrap. repeat case_decide; lia.
Qed.

Lemma wf_len_head q : wf q → 0 < len q → 0 ≤ q_head q.
Proof. intros [He Hh Ht]. queue_cases. Qed.

Lemma queue_push_spec x q :
  wf q → 0 < capacity q →
  ∃ q', push x q = Ok q' ∧ wf q' ∧ capacity q' = capacity q ∧
        contents q' = bounded_push (capacity q) x (contents q).
Proof.
  intros Hq Hcap. destruct (push_shape x q Hq Hcap) as (q' & Eq & Hq' & Hc & He & Ht & Hl & Htl & Hh).
  exists q'. split_and!; [done|done|done|]. pose proof (length_contents q Hq) as HL.
  pose proof (len_bounds q Hq) as HB. pose proof (len_bounds q' Hq') as HB'.
  assert (Hlb : Z.of_nat (length (bounded_push (capacity q) x (contents q))) = len q').
  { unfold bounded_push. rewrite length_app, HL, Hl. cbn [length]. case_decide; [lia|].
    rewrite length_tl. lia. }
  apply contents_ext; [done|done|]. intros k Hk.
  assert (Hpos : 0 ≤ q_head q') by (apply wf_len_head; [done|lia]).
  pose proof (wf_head q' Hq') as Hh'.
  unfold at_index at 1. rewrite He, Hc, nth_insert.
  2: { pose proof (wf_tail q' Hq'). unfold capacity in *. lia. }
  unfold bounded_push. rewrite HL. destruct (decide (Z.of_nat k = len q' - 1)) as [Hlast|Hold].
  - rewrite (decide_True (P := _ = Z.to_nat _)).
    2: { rewrite Htl, Hc. do 2 f_equal. lia. }
    rewrite lookup_app_r; case_decide; rewrite ?length_tl; try lia.
    + replace (k - _)%nat with 0%nat by lia. done.
    + replace (k - _)%nat with 0%nat by lia. done.
  - rewrite (decide_False (P := _ = Z.to_nat _)).
    2: { rewrite Htl, Hc. unfold wrap. repeat case_decide; lia. }
    specialize (Hh ltac:(case_decide; lia)).
    rewrite lookup_app_l; case_decide; rewrite ?length_tl; try lia.
    + rewrite lookup_contents by lia. unfold at_index. by rewrite Hh.
    + rewrite lookup_tail, lookup_contents by lia. unfold at_index. do 3 f_equal. rewrite Hh.
      unfold wrap. pose proof (wf_len_head q Hq ltac:(lia)). pose proof (wf_head q Hq).
      repeat case_decide; lia.
Qed.

(** [push] refines the bounded list: it never fails on a queue with capacity,
    keeps the queue well formed, and its entries afterwards are the old ones,
    less the oldest when the queue was full, followed by the new one. *)
Theorem queue_push_refines x q :
  wf q → 0 < capacity q →
  ∃ q', push x q = Ok q' ∧ wf q' ∧ capacity q' = capacity q ∧
        contents q' = bounded_push (capacity q) x (contents q).
Proof. apply queue_push_spec. Qed.

(** [pop] returns nothing on an empty queue and otherwise removes and returns
    the oldest entry; [len] is the number of entries. *)
Theorem queue_pop_refines q :
  wf q →
  match contents q with
  | [] => pop q = Ok (None, q)
  | x :: l => ∃ q', pop q = Ok (Some x, q') ∧ wf q' ∧ capacity q' = capacity q ∧ contents q' = l
  end ∧ len q = Z.of_nat (length (contents q)).
Proof.
  intros Hq. pose proof (length_contents q Hq) as HL. split; [|lia].
  destruct (contents q) as [|x l] eqn:Ec; cbn [length] in HL.
  - unfold pop. rewrite decide_True; [done|]. destruct Hq. queue_cases.
  - destruct (pop_shape q Hq) as (q' & Eq & Hq' & Hc & He & Hl & Hh); [lia|].
    pose proof (lookup_contents q 0 ltac:(lia)) as H0. rewrite Ec in H0. cbn in H0. simplify_eq.
    exists q'. split_and!; [done|done|done|]. apply contents_ext; [done|lia|]. intros k Hk.
    pose proof (lookup_contents q (S k) ltac:(lia)) as HS. rewrite Ec in HS. cbn in HS. etrans; [exact HS|].
    unfold at_index. rewrite He, Hc, Hh by lia. do 3 f_equal. unfold wrap.
    pose proof (wf_len_head q Hq ltac:(lia)). pose proof (wf_head q Hq). pose proof (len_bounds q Hq).
    repeat case_decide; lia.
Qed.
End Queue.

(** A queue of capacity 2 that has dropped an entry. *)
Definition sample_queue : queue := mkQueue (E := Z) [3; 2] 1 0.
Lemma queue_push_refines_witness :
  ∃ q', push 4 sample_queue = Ok q' ∧ contents 0 q' = [3; 4].
Proof.
  destruct (queue_push_refines 0 4 sample_queue) as (q' & Eq & _ & _ & Hc).
  - split; unfold capacity; cbn; lia.
  - vm_compute. reflexivity.
  - exists q'. split; [exact Eq|rewrite Hc; vm_compute; reflexivity].
Defined.
Lemma queue_pop_refines_witness : ∃ q', pop sample_queue = Ok (Some 2, q') ∧ contents 0 q' = [3].
Proof.
  destruct (queue_pop_refines 0 sample_queue) as [Hp _].
  - split; unfold capacity; cbn; lia.
  - destruct Hp as (q' & Eq & _ & _ & Hc). exists q'. split; [exact Eq|exact Hc].
Defined.

(** ** The hand-off between [push] and the loop of [Run]

    [Run] pops; on an empty queue it enters a [select] that receives from the
    unbuffered channel [readyChan].  [push] sends on it without blocking, so the
    send has an effect only when the loop already waits in the [select]. *)
Inductive loop_state := Polling | Selecting | Waiting.

Inductive handoff {E} : queue (E := E) * loop_state → queue (E := E) * loop_state → Prop :=
| handoff_pop x q q' : pop q = Ok (Some x, q') → handoff (q, Polling) (q', Polling)
| handoff_empty q q' : pop q = Ok (None, q') → handoff (q, Polling) (q', Selecting)
| handoff_wait q : handoff (q, Selecting) (q, Waiting)
| handoff_push x q q' c :
    push x q = Ok q' → handoff (q, c) (q', match c with Waiting => Polling | _ => c end).

(** A wake-up can be lost.  An event pushed after the loop found the queue empty
    and before it waits is not signalled: the loop then waits although the queue
    holds the event, until some other event is pushed. *)
Theorem lost_wakeup (x : Z) :
  ∃ q, rtc handoff (newQueue 0 4, Polling) (q, Waiting) ∧ contents 0 q = [x].
Proof.
  exists (mkQueue [x; 0; 0; 0] 0 0). split; [|reflexivity].
  eapply rtc_l; [by apply handoff_empty|].
  eapply rtc_l; [by apply (handoff_push x)|].
  eapply rtc_l; [by apply handoff_wait|]. constructor.
Qed.
