(* ===== verification/EventLoop.v ===== *)
(** The event loop (src/sourcecodes/hotstuff/eventloop/eventloop.go): handlers
    registered per event type, delayed events, tickers, and the dispatch of the
    events of the queue (EventQueue.v).

    Event types are [T] (Go's [reflect.Type]), events [Ev]; a callback is named
    by a [C], and [run_callback] says what it does to the loop and to the state
    [S] of the modules. *)

From S2P Require Import Prelude EventQueue.

Section EventLoop.
Context {T : Type} `{Countable T} {Ev C S : Type} (typ : Ev → T).

Record handlerOpts := mkHandlerOpts { runInAddEvent : bool; priority : bool }.
Definition UnsafeRunInAddEvent (o : handlerOpts) : handlerOpts := mkHandlerOpts true (priority o).
Definition Prioritize (o : handlerOpts) : handlerOpts := mkHandlerOpts (runInAddEvent o) true.

(** An unregistered slot has no callback. *)
Record handler := mkHandler { callback : option C; opts : handlerOpts }.

(** What the queue holds; [Nil] is the zero value of a slot. *)
Inductive item := Nil | Event (e : Ev) | StartTicker (id : Z).

Record EventLoop := mkEventLoop {
  eventQ : queue (E := item);
  waitingEvents : gmap T (list Ev);
  handlers : gmap T (list handler);
  tickers : gmap Z bool;             (* whether it runs *)
  tickerID : Z;
}.
Definition New (bufferSize : nat) : EventLoop := mkEventLoop (newQueue Nil bufferSize) ∅ ∅ ∅ 0.

Definition set_eventQ (q : queue) (el : EventLoop) : EventLoop :=
  mkEventLoop q (waitingEvents el) (handlers el) (tickers el) (tickerID el).
Definition set_waiting (w : gmap T (list Ev)) (el : EventLoop) : EventLoop :=
  mkEventLoop (eventQ el) w (handlers el) (tickers el) (tickerID el).
Definition set_handlers (h : gmap T (list handler)) (el : EventLoop) : EventLoop :=
  mkEventLoop (eventQ el) (waitingEvents el) h (tickers el) (tickerID el).
Definition set_tickers (t : gmap Z bool) (id : Z) (el : EventLoop) : EventLoop :=
  mkEventLoop (eventQ el) (waitingEvents el) (handlers el) t id.

(** ** Registration *)

(** The first free slot, or the end of the list. *)
Fixpoint free_slot (hs : list handler) : nat :=
  match hs with
  | [] => 0
  | h :: hs' => match callback h with None => 0 | Some _ => Datatypes.S (free_slot hs') end
  end.

Definition registerHandler (t : T) (options : list (handlerOpts → handlerOpts)) (cb : C)
    (el : EventLoop) : nat * EventLoop :=
  let h := mkHandler (Some cb) (foldl (λ o f, f o) (mkHandlerOpts false false) options) in
  let hs := default [] (handlers el !! t) in
  let i := free_slot hs in
  let hs := if decide (i = length hs) then hs ++ [h] else <[ i := h ]> hs in
  (i, set_handlers (<[ t := hs ]> (handlers el)) el).

(** An index out of range panics. *)
Definition UnregisterHandler (t : T) (id : nat) (el : EventLoop) : outcome EventLoop :=
  let hs := default [] (handlers el !! t) in
  match hs !! id with
  | None => Panic
  | Some h => Ok (set_handlers (<[ t := <[ id := mkHandler None (opts h) ]> hs ]> (handlers el)) el)
  end.

Definition DelayUntil (t : T) (e : Ev) (el : EventLoop) : EventLoop :=
  set_waiting (<[ t := default [] (waitingEvents el !! t) ++ [e] ]> (waitingEvents el)) el.

(** ** Dispatch *)
Context (run_callback : C → Ev → M (EventLoop * S) unit).
Abbreviation st := (EventLoop * S)%type.

Definition on_loop (f : EventLoop → EventLoop) : M st unit := modify (λ s, (f s.1, s.2)).
Definition push_item (x : item) : M st unit :=
  zoom (λ s : st, eventQ s.1) (λ q s, (set_eventQ q s.1, s.2))
    (λ q, outcome_bind (push x q) (λ q', Ok (tt, q'))).

(** The callbacks an event runs, those with priority and the others. *)
Definition selected (running prio : bool) (hs : list handler) : list C :=
  omap (λ h, if bool_decide (runInAddEvent (opts h) = running) && bool_decide (priority (opts h) = prio)
             then callback h else None) hs.

Definition run_handlers (e : Ev) (running : bool) : M st unit :=
  hs <- gets (λ s : st, default [] (handlers s.1 !! typ e)) ;;
  for_each (λ c, run_callback c e) (selected running true hs) ;;;
  for_each (λ c, run_callback c e) (selected running false hs).

Definition AddEvent (e : Ev) : M st unit :=
  run_handlers e true ;;;      (* processEvent(event, true) *)
  push_item (Event e).

Definition dispatchDelayedEvents (t : T) : M st unit :=
  events <- gets (λ s : st, default [] (waitingEvents s.1 !! t)) ;;
  on_loop (λ el, set_waiting (delete t (waitingEvents el)) el) ;;;
  for_each AddEvent events.

Definition processEvent (e : Ev) : M st unit :=
  run_handlers e false ;;;
  dispatchDelayedEvents (typ e).   (* deferred *)

(** ** Tickers *)
Definition AddTicker : M st Z :=
  id <- gets (λ s : st, tickerID s.1) ;;
  on_loop (λ el, set_tickers (<[ id := false ]> (tickers el)) (i64 (id + 1)) el) ;;;
  push_item (StartTicker id) ;;;
  ret id.

Definition RemoveTicker (id : Z) : M st bool :=
  t <- gets (λ s : st, tickers s.1 !! id) ;;
  match t with
  | None => ret false
  | Some _ => on_loop (λ el, set_tickers (delete id (tickers el)) (tickerID el) el) ;;; ret true
  end.

Definition startTicker (id : Z) : M st unit :=
  on_loop (λ el, match tickers el !! id with
                 | None => el
                 | Some _ => set_tickers (<[ id := true ]> (tickers el)) (tickerID el) el
                 end).

(** ** The loop *)
Definition pop_item : M st (option item) :=
  zoom (λ s : st, eventQ s.1) (λ q s, (set_eventQ q s.1, s.2)) pop.

Definition handle_item (x : item) : M st unit :=
  match x with
  | Nil => ret tt
  | Event e => processEvent e
  | StartTicker id => startTicker id
  end.

Definition Tick : M st bool :=
  x <- pop_item ;;
  match x with
  | None => ret false
  | Some x => handle_item x ;;; ret true
  end.

(** When its context is cancelled, [Run] handles the events queued at that time. *)
Definition drain : M st unit :=
  l <- gets (λ s : st, len (eventQ s.1)) ;;
  for_each (λ _, x <- pop_item ;;
                 match x with Some (Event e) => processEvent e | _ => ret tt end)
    (replicate (Z.to_nat l) tt).

(** ** Registration never overwrites a live handler *)
Lemma free_slot_spec hs :
  (free_slot hs ≤ length hs)%nat ∧ ∀ h, hs !! free_slot hs = Some h → callback h = None.
Proof.
  induction hs as [|h hs [IH1 IH2]]; cbn; [split; [lia|done]|].
  destruct (callback h) eqn:Eh; cbn; (split; [lia|]).
  - intros h'. apply IH2.
  - intros h' Hh. by simplify_eq.
Qed.

(** [RegisterHandler] puts the callback in a slot that held none, returns that
    slot's index, and leaves every other slot and every other event type alone. *)
Theorem registerHandler_spec t options cb el :
  let '(i, el') := registerHandler t options cb el in
  let hs := default [] (handlers el !! t) in
  ∃ hs', handlers el' = <[ t := hs' ]> (handlers el) ∧
    (∃ o, hs' !! i = Some (mkHandler (Some cb) o) ∧
          o = foldl (λ o f, f o) (mkHandlerOpts false false) options) ∧
    (∀ j, j ≠ i → hs' !! j = hs !! j) ∧ (∀ h, hs !! i = Some h → callback h = None).
Proof.
  unfold registerHandler. set (hs := default [] _). set (o := foldl _ _ _).
  destruct (free_slot_spec hs) as [Hle Hfree]. eexists. split; [done|]. case_decide as Hi.
  - rewrite Hi. split; [exists o; split; [by rewrite lookup_app_r, Nat.sub_diag by lia|done]|].
    split; [|intros h Hh%lookup_lt_Some; lia]. intros j Hj.
    destruct (decide (j < length hs)%nat).
    + by rewrite lookup_app_l by lia.
    + rewrite lookup_app_r by lia. rewrite !lookup_ge_None_2; [done|lia|cbn; lia].
  - split; [exists o; split; [by rewrite list_lookup_insert_eq by lia|done]|].
    split; [|done]. intros j Hj. by rewrite list_lookup_insert_ne.
Qed.

(** ** What processing an event does, for callbacks that only record their call *)
Section order.
Context (log : S → list (C * Ev)) (record : C * Ev → S → S).
Context (log_record : ∀ c s, log (record c s) = log s ++ [c]).
Context (Hcb : ∀ c e s, run_callback c e s = Ok (tt, (s.1, record (c, e) s.2))).

Lemma for_each_callbacks e cs s :
  ∃ u, for_each (λ c, run_callback c e) cs s = Ok (tt, (s.1, u)) ∧
       log u = log s.2 ++ ((λ c, (c, e)) <$> cs).
Proof.
  revert s. induction cs as [|c cs IH]; intros [el u]; cbn [for_each].
  { exists u. cbn. by rewrite app_nil_r. }
  unfold bind at 1, outcome_bind at 1. rewrite Hcb. cbn [fst snd]. destruct (IH (el, record (c, e) u)) as (u' & -> & Hu').
  exists u'. split; [done|]. rewrite Hu'. cbn. rewrite log_record, <-app_assoc. done.
Qed.

(** The calls an event makes when it is handled ([running] false) or added. *)
Definition calls (el : EventLoop) (running : bool) (e : Ev) : list (C * Ev) :=
  let hs := default [] (handlers el !! typ e) in
  (λ c, (c, e)) <$> selected running true hs ++ selected running false hs.

Lemma run_handlers_spec e running s :
  ∃ u, run_handlers e running s = Ok (tt, (s.1, u)) ∧ log u = log s.2 ++ calls s.1 running e.
Proof.
  unfold run_handlers, bind, gets. cbn. set (hs := default [] _).
  destruct (for_each_callbacks e (selected running true hs) s) as (u1 & -> & H1). cbn.
  destruct (for_each_callbacks e (selected running false hs) (s.1, u1)) as (u2 & -> & H2).
  exists u2. split; [done|]. rewrite H2. cbn. rewrite H1. unfold calls. by rewrite fmap_app, app_assoc.
Qed.

Definition loop_ok (el : EventLoop) : Prop := wf (eventQ el) ∧ 0 < capacity (eventQ el).

Lemma AddEvent_spec e s :
  loop_ok s.1 →
  ∃ q' u, AddEvent e s = Ok (tt, (set_eventQ q' s.1, u)) ∧
    log u = log s.2 ++ calls s.1 true e ∧ wf q' ∧ capacity q' = capacity (eventQ s.1) ∧
    contents Nil q' = bounded_push (capacity (eventQ s.1)) (Event e) (contents Nil (eventQ s.1)).
Proof.
  intros [Hwf Hcap]. unfold AddEvent, bind at 1, outcome_bind at 1.
  destruct (run_handlers_spec e true s) as (u & -> & Hu). unfold push_item, zoom, outcome_bind. cbn [fst snd].
  destruct (queue_push_spec Nil (Event e) (eventQ s.1) Hwf Hcap) as (q' & -> & Hq).
  exists q', u. done.
Qed.

(** Adding several events: their handlers see them in order, the queue gets
    them in order. *)
Lemma AddEvents_spec es s :
  loop_ok s.1 →
  ∃ q' u, for_each AddEvent es s = Ok (tt, (set_eventQ q' s.1, u)) ∧
    log u = log s.2 ++ (es ≫= calls s.1 true) ∧ wf q' ∧ capacity q' = capacity (eventQ s.1) ∧
    contents Nil q' = foldl (λ l e, bounded_push (capacity (eventQ s.1)) (Event e) l)
                        (contents Nil (eventQ s.1)) es.
Proof.
  revert s. induction es as [|e es IH]; intros s Hs; cbn [for_each].
  { exists (eventQ s.1), s.2. cbn. rewrite app_nil_r. destruct s as [[] u]. split_and!; [done|done|apply Hs|done|done]. }
  unfold bind at 1, outcome_bind at 1.
  destruct (AddEvent_spec e s Hs) as (q1 & u1 & -> & Hl1 & Hw1 & Hc1 & Hq1).
  destruct (IH (set_eventQ q1 s.1, u1)) as (q2 & u2 & -> & Hl2 & Hw2 & Hc2 & Hq2).
  { split; cbn; [done|]. rewrite Hc1. apply Hs. }
  exists q2, u2. cbn in *. rewrite Hc1 in *. split_and!; [done| |done|done|by rewrite Hq2, Hq1].
  rewrite Hl2, Hl1, <-app_assoc. done.
Qed.

Lemma processEvent_spec e s :
  loop_ok s.1 →
  let delayed := default [] (waitingEvents s.1 !! typ e) in
  ∃ q' u, processEvent e s =
      Ok (tt, (set_eventQ q' (set_waiting (delete (typ e) (waitingEvents s.1)) s.1), u)) ∧
    log u = log s.2 ++ calls s.1 false e ++ (delayed ≫= calls s.1 true) ∧
    contents Nil q' = foldl (λ l d, bounded_push (capacity (eventQ s.1)) (Event d) l)
                        (contents Nil (eventQ s.1)) delayed.
Proof.
  intros Hs delayed. unfold processEvent, bind at 1, outcome_bind at 1.
  destruct (run_handlers_spec e false s) as (u1 & -> & H1).
  unfold dispatchDelayedEvents, bind at 1, outcome_bind at 1, gets. cbn [fst snd]. fold delayed.
  unfold bind at 1, outcome_bind at 1, on_loop, modify. cbn [fst snd].
  destruct (AddEvents_spec delayed (set_waiting (delete (typ e) (waitingEvents s.1)) s.1, u1))
    as (q2 & u2 & -> & H2 & _ & _ & Hq); [done|].
  exists q2, u2. split_and!; [done| |done]. rewrite H2. cbn. by rewrite H1, <-app_assoc.
Qed.
End order.
End EventLoop.

(** Processing an event calls, in this order, the registered callbacks for its type
    that have priority and then the others, each once and in slot order; it then adds
    the events delayed until this type to the queue, in the order they were delayed,
    and forgets them.  (Stated for callbacks that only record that they were called.) *)
Theorem processEvent_order {T} `{Countable T} {Ev C : Type} (typ : Ev → T) (e : Ev)
    (el : EventLoop) (u : list (C * Ev)) :
  loop_ok el →
  let record c e : M (EventLoop * list (C * Ev)) unit := λ s, Ok (tt, (s.1, s.2 ++ [(c, e)])) in
  let hs := default [] (handlers el !! typ e) in
  let delayed := default [] (waitingEvents el !! typ e) in
  ∃ el' u', processEvent typ record e (el, u) = Ok (tt, (el', u')) ∧
    u' = u ++ ((λ c, (c, e)) <$> selected false true hs ++ selected false false hs) ++
              (delayed ≫= calls typ el true) ∧
    contents Nil (eventQ el') = foldl (λ l d, bounded_push (capacity (eventQ el)) (Event d) l)
                                  (contents Nil (eventQ el)) delayed ∧
    waitingEvents el' = delete (typ e) (waitingEvents el) ∧ handlers el' = handlers el.
Proof.
  intros Hs record hs delayed.
  destruct (processEvent_spec typ record id (λ c s, s ++ [c]) (λ _ _, eq_refl) (λ _ _ _, eq_refl) e (el, u) Hs)
    as (q' & u' & -> & Hu & Hq).
  eexists _, u'. split_and!; [done|exact Hu|exact Hq|done|done].
Qed.

(** Two handlers and one delayed event. *)
Definition sample_loop : EventLoop (T := Z) (Ev := Z) (C := nat) :=
  DelayUntil 7 8 (registerHandler 7 [Prioritize] 2%nat (registerHandler 7 [] 1%nat (New 3)).2).2.
Lemma processEvent_order_witness :
  ∃ el', processEvent id (λ c e s, Ok (tt, (s.1, s.2 ++ [(c, e)]))) 7 (sample_loop, []) =
    Ok (tt, (el', [(2%nat, 7); (1%nat, 7)])) ∧ contents Nil (eventQ el') = [Event 8].
Proof.
  destruct (processEvent_order id 7 sample_loop []) as (el' & u' & E & Hu & Hq & _).
  - split; [split; unfold capacity; cbn; lia|vm_compute; reflexivity].
  - exists el'. split; [etrans; [exact E|rewrite Hu; vm_compute; reflexivity]|rewrite Hq; vm_compute; reflexivity].
Defined.
