(* ===== verification/CryptoCache.v ===== *)
(** The signature cache (src/sourcecodes/hotstuff/crypto/cache.go): a bounded
    least-recently-used set of keys in front of a [CryptoBase].

    Its operations change the cache, so they are computations on it; the wrapped
    implementation [impl] is the parameter. *)

From S2P Require Import Prelude IDSet Signature Types Samples Ecdsa.

(** [entries] maps a key to its element of [accessOrder] (front first). *)
Record cache := mkCache { capacity : Z; entries : gset bytes; accessOrder : list bytes }.

Definition NewCache (cap : Z) : cache := mkCache cap ∅ [].

Definition MoveToFront (key : bytes) (l : list bytes) : list bytes :=
  key :: filter (λ k, k ≠ key) l.

(** Removing the back of an empty list dereferences nil. *)
Definition evict (c : cache) : outcome cache :=
  if decide (Z.of_nat (size (entries c)) < capacity c) then Ok c
  else
    match last (accessOrder c) with
    | None => Panic
    | Some key =>
        Ok (mkCache (capacity c) (entries c ∖ {[ key ]}) (removelast (accessOrder c)))
    end.

Definition insert (key : bytes) : M cache unit := λ c,
  if decide (key ∈ entries c) then
    Ok (tt, mkCache (capacity c) (entries c) (MoveToFront key (accessOrder c)))
  else
    outcome_bind (evict c) (λ c,
      Ok (tt, mkCache (capacity c) ({[ key ]} ∪ entries c) (key :: accessOrder c))).

Definition check (key : bytes) : M cache bool := λ c,
  if decide (key ∈ entries c) then
    Ok (true, mkCache (capacity c) (entries c) (MoveToFront key (accessOrder c)))
  else Ok (false, c).

Section Cache.
Context `{SHA : Sha256} (impl : CryptoBase).

Definition message_key (sig : QuorumSignature) (message : bytes) : bytes :=
  sha256 message ++ QuorumSignature_ToBytes sig.
(** [hasher.Sum(hash[:])] appends to a full slice and leaves [hash] zero. *)
Definition batch_key (sig : QuorumSignature) (batch : gmap ID bytes) : bytes :=
  zero_hash ++ QuorumSignature_ToBytes sig.

Definition cache_Sign (message : bytes) : M cache (CryptoErr + QuorumSignature) :=
  match Sign message with
  | inl err => ret (inl err)
  | inr sig => insert (message_key sig message) ;;; ret (inr sig)
  end.

Definition cached (key : bytes) (verify : outcome bool) : M cache bool :=
  hit <- check key ;;
  if (hit : bool) then ret true
  else
    ok <- lift verify ;;
    if (ok : bool) then insert key ;;; ret true else ret false.

Definition cache_Verify (signature : option QuorumSignature) (message : bytes) : M cache bool :=
  match signature with
  | None => panic
  | Some sig => cached (message_key sig message) (Verify signature message)
  end.

Definition cache_BatchVerify (signature : option QuorumSignature) (batch : gmap ID bytes) : M cache bool :=
  match signature with
  | None => panic
  | Some sig => cached (batch_key sig batch) (BatchVerify signature batch)
  end.

Definition cache_Combine (signatures : list (option QuorumSignature))
    : M cache (CryptoErr + QuorumSignature) := lift (Combine signatures).

(** ** The cache as a set *)
Record wf (c : cache) : Prop := {
  wf_cap : 0 < capacity c;
  wf_nodup : NoDup (accessOrder c);
  wf_order : ∀ k, k ∈ accessOrder c ↔ k ∈ entries c;
  wf_size : Z.of_nat (size (entries c)) ≤ capacity c;
}.

Lemma wf_length c : wf c → length (accessOrder c) = size (entries c).
Proof.
  intros [_ Hnd Ho _]. replace (entries c) with (list_to_set (accessOrder c) : gset bytes) by set_solver.
  by rewrite size_list_to_set.
Qed.

Lemma wf_touch c k :
  wf c → k ∈ entries c → wf (mkCache (capacity c) (entries c) (MoveToFront k (accessOrder c))).
Proof.
  intros [Hc Hnd Ho Hs] Hk. split; cbn; [done| | |done].
  - constructor; [|by apply NoDup_filter]. by intros [? _]%list_elem_of_filter.
  - intros k'. unfold MoveToFront. rewrite elem_of_cons, list_elem_of_filter, <-Ho.
    destruct (decide (k' = k)) as [->|]; [|naive_solver]. rewrite Ho. naive_solver.
Qed.

(** Evicting makes room and only drops keys. *)
Lemma evict_wf c :
  wf c → ∃ c', evict c = Ok c' ∧ wf c' ∧ capacity c' = capacity c ∧ entries c' ⊆ entries c ∧
    Z.of_nat (size (entries c')) < capacity c.
Proof.
  intros Hc. pose proof (wf_length c Hc) as Hlen. destruct Hc as [Hcap Hnd Ho Hs]. unfold evict.
  case_decide as Hfull; [by exists c|].
  destruct (accessOrder c) as [|k l _] eqn:El using rev_ind; [cbn in Hlen; lia|].
  rewrite last_snoc, List.removelast_last. eexists. split; [done|]. cbn.
  apply NoDup_app in Hnd as (Hnd & Hdis & _).
  assert (Hk : k ∈ entries c) by (apply Ho; set_solver).
  assert (Hsz : size (entries c ∖ {[ k ]}) = (size (entries c) - 1)%nat).
  { rewrite size_difference, size_singleton; set_solver. }
  assert (0 < size (entries c))%nat by (rewrite length_app in Hlen; cbn in Hlen; lia).
  split_and!; [|done|set_solver|lia]. split; cbn; [done|done| |lia].
  intros k'. rewrite elem_of_difference, elem_of_singleton, <-Ho. set_solver.
Qed.

(** *** The frame of every operation *)
Definition keeps_wf (c c' : cache) : Prop := wf c → wf c' ∧ capacity c' = capacity c.
#[global] Instance keeps_wf_preorder : PreOrder keeps_wf.
Proof.
  split; [done|]. intros c1 c2 c3 H1 H2 Hc. destruct (H1 Hc) as [Hc2 ?]. destruct (H2 Hc2). split; [done|congruence].
Qed.

Lemma insert_result k c :
  wf c → ∃ c', insert k c = Ok (tt, c') ∧ wf c' ∧ capacity c' = capacity c ∧
    k ∈ entries c' ∧ ∀ k', k' ∈ entries c' → k' = k ∨ k' ∈ entries c.
Proof.
  intros Hc. unfold insert. case_decide as Hk.
  { eexists. split_and!; [done|by apply wf_touch|done|done|cbn; auto]. }
  destruct (evict_wf c Hc) as (c1 & -> & Hc1 & Ecap & Hsub & Hroom). cbn.
  eexists. split_and!; [done| |done|cbn; set_solver|cbn; set_solver].
  destruct Hc1 as [Hcap Hnd Ho Hs]. assert (Hk1 : k ∉ entries c1) by set_solver. split; cbn.
  - done.
  - constructor; [|done]. by rewrite Ho.
  - intros k'. rewrite elem_of_cons, elem_of_union, elem_of_singleton, Ho. done.
  - rewrite size_union, size_singleton by set_solver. lia.
Qed.

Lemma check_result k c :
  wf c → ∃ c', check k c = Ok (bool_decide (k ∈ entries c), c') ∧ wf c' ∧
    capacity c' = capacity c ∧ entries c' = entries c.
Proof.
  intros Hc. unfold check. case_decide as Hk.
  - rewrite bool_decide_true by done. eexists. split_and!; [done|by apply wf_touch|done|done].
  - rewrite bool_decide_false by done. by exists c.
Qed.

Lemma cached_result k v c b c' :
  wf c → cached k v c = Ok (b, c') →
  wf c' ∧ capacity c' = capacity c ∧
  (if b then k ∈ entries c' ∧ (k ∈ entries c ∨ v = Ok true) else v = Ok false) ∧
  ∀ k', k' ∈ entries c' → k' ∈ entries c ∨ k' = k ∧ v = Ok true.
Proof.
  intros Hc E. unfold cached in E. apply bind_Ok in E as (hit & c1 & E1 & E).
  destruct (check_result k c Hc) as (c1' & E1' & Hc1 & Hcap & He). rewrite E1 in E1'. simplify_eq.
  case_bool_decide as Hk.
  { unfold ret in E. simplify_eq. rewrite He. split_and!; [done|done|done|by left|by left]. }
  apply bind_Ok in E as (ok & c2 & E2 & E). unfold lift, outcome_bind in E2.
  destruct v as [v| |]; simplify_eq. destruct ok.
  - apply bind_Ok in E as ([] & c3 & E3 & E).
    destruct (insert_result k c2 Hc1) as (c3' & E3' & Hc3 & Hcap3 & Hk3 & Hin).
    rewrite E3 in E3'. unfold ret in E. simplify_eq. split_and!; [done|congruence|done|by right|].
    intros k' [->|?]%Hin; [auto|left; by rewrite <-He].
  - unfold ret in E. simplify_eq. split_and!; [done|done|done|]. intros k'. rewrite He. auto.
Qed.

(** ** Sequences of operations *)
Inductive cache_op :=
| OpSign (message : bytes)
| OpVerify (signature : option QuorumSignature) (message : bytes)
| OpBatchVerify (signature : option QuorumSignature) (batch : gmap ID bytes)
| OpCombine (signatures : list (option QuorumSignature)).

Definition run_op (op : cache_op) : M cache unit :=
  match op with
  | OpSign m => cache_Sign m ;;; ret tt
  | OpVerify s m => cache_Verify s m ;;; ret tt
  | OpBatchVerify s b => cache_BatchVerify s b ;;; ret tt
  | OpCombine l => cache_Combine l ;;; ret tt
  end.

(** Keys of messages are those of signatures that verify. *)
Definition sound (c : cache) : Prop :=
  ∀ s m, message_key s m ∈ entries c → Verify (Some s) m = Ok true.

Section transparent.
Context (Hlen : ∀ m, length (sha256 m) = 32%nat) (Hnz : ∀ m, sha256 m ≠ zero_hash).
Context (Hkey : ∀ s1 m1 s2 m2, message_key s1 m1 = message_key s2 m2 →
  Verify (Some s1) m1 = Verify (Some s2) m2).
Context (Hsign : ∀ m s, Sign m = inr s → Verify (Some s) m = Ok true).

Lemma message_not_batch s1 m s2 batch : message_key s1 m ≠ batch_key s2 batch.
Proof.
  unfold message_key, batch_key. intros [E _]%app_inj_1; [by apply (Hnz m)|].
  by rewrite Hlen.
Qed.

Lemma run_op_sound op c c' :
  wf c → sound c → run_op op c = Ok (tt, c') → wf c' ∧ capacity c' = capacity c ∧ sound c'.
Proof.
  intros Hc Hs E. destruct op as [m|[sig|] m|[sig|] b|l]; apply bind_Ok in E as (x & c1 & E1 & [= <-]); [..|done| |done|].
  - unfold cache_Sign in E1. destruct (Sign m) as [err|sig] eqn:Es; [unfold ret in E1; by simplify_eq|].
    apply bind_Ok in E1 as ([] & c2 & E2 & [= <- <-]).
    destruct (insert_result (message_key sig m) c Hc) as (c2' & E2' & Hc2 & Hcap & _ & Hin).
    rewrite E2 in E2'. simplify_eq. split_and!; [done|done|]. intros s' m' [Hk|?]%Hin; [|by apply Hs].
    rewrite (Hkey _ _ _ _ Hk). by apply Hsign.
  - destruct (cached_result _ _ _ _ _ Hc E1) as (Hc1 & Hcap & _ & Hin). split_and!; [done|done|].
    intros s' m' [?|[Hk Hv]]%Hin; [by apply Hs|]. by rewrite (Hkey _ _ _ _ Hk).
  - destruct (cached_result _ _ _ _ _ Hc E1) as (Hc1 & Hcap & _ & Hin). split_and!; [done|done|].
    intros s' m' [?|[Hk Hv]]%Hin; [by apply Hs|]. by destruct (message_not_batch _ _ _ _ Hk).
  - unfold cache_Combine, lift, outcome_bind in E1. destruct (Combine l); by simplify_eq.
Qed.

Lemma run_ops_sound ops c c' :
  wf c → sound c → for_each run_op ops c = Ok (tt, c') →
  wf c' ∧ capacity c' = capacity c ∧ sound c'.
Proof.
  revert c. induction ops as [|op ops IH]; intros c Hc Hs E; cbn in E.
  { unfold ret in E. by simplify_eq. }
  apply bind_Ok in E as ([] & c1 & E1 & E).
  destruct (run_op_sound _ _ _ Hc Hs E1) as (Hc1 & Hcap1 & Hs1).
  destruct (IH _ Hc1 Hs1 E) as (? & ? & ?). split_and!; [done|congruence|done].
Qed.

(** After any sequence of operations, the cache holds at most [capacity] keys, its
    access order lists each of them once, and [Verify] through the cache answers
    what the wrapped implementation answers.  (No two pairs of a signature and a
    message that verify differently have the same key, and nothing hashes to zero.) *)
Theorem cache_Verify_transparent ops cap s m c b c' :
  0 < cap → for_each run_op ops (NewCache cap) = Ok (tt, c) → cache_Verify (Some s) m c = Ok (b, c') →
  Verify (Some s) m = Ok b ∧ wf c' ∧ capacity c' = cap.
Proof.
  intros Hcap E E'.
  assert (H0 : wf (NewCache cap)) by (split; cbn; [done|constructor|set_solver|rewrite size_empty; lia]).
  assert (H0s : sound (NewCache cap)) by (intros s' m' Hin; set_solver).
  destruct (run_ops_sound ops _ _ H0 H0s E) as (Hc & Hcap' & Hs).
  destruct (cached_result _ _ _ _ _ Hc E') as (Hc' & Hcap'' & Hb & _).
  split_and!; [|done|by rewrite Hcap'', Hcap']. destruct b; [|done]. destruct Hb as [_ [?|?]]; [by apply Hs|done].
Qed.
End transparent.

(** [BatchVerify] through the cache accepts any batch once it has accepted one:
    the key of a batch does not depend on its messages, because the result of
    [hasher.Sum] is discarded. *)
Theorem cache_BatchVerify_any_batch sig batch1 batch2 c c' :
  wf c → cache_BatchVerify (Some sig) batch1 c = Ok (true, c') →
  ∃ c'', cache_BatchVerify (Some sig) batch2 c' = Ok (true, c'').
Proof.
  intros Hc E. destruct (cached_result _ _ _ _ _ Hc E) as (Hc' & _ & [Hk _] & _).
  unfold cache_BatchVerify, cached, bind, outcome_bind.
  destruct (check_result (batch_key sig batch2) c' Hc') as (c'' & -> & _).
  rewrite bool_decide_true by exact Hk. by exists c''.
Qed.
End Cache.

(** ** Samples *)

(** A scheme that can be computed: the signature of a message is its hash. *)
Definition tag_sha256 : Sha256 := λ bs, 1 :: le_bytes 31 (foldl (λ a b, (a * 257 + b + 1) mod (2 ^ 61 - 1)) 7 bs).
Lemma length_tag m : length (tag_sha256 m) = 32%nat.
Proof. unfold tag_sha256. cbn [length]. by rewrite length_le_bytes. Qed.
Definition tag_sig (bs : bytes) : QuorumSignature := SigBLS12 (mkAggSig bs (Bitfield.mkBitfield [] 0)).
Definition tag_crypto : CryptoBase := {|
  Sign := λ m, inr (tag_sig (tag_sha256 m));
  Combine := λ _, Ok (inl ErrCombineMultiple);
  Verify := λ s m, match s with
                   | Some sig => Ok (bool_decide (QuorumSignature_ToBytes sig = tag_sha256 m))
                   | None => Panic
                   end;
  BatchVerify := λ s b, Ok (bool_decide (b = {[ 1 := [5] ]}));
|}.

Lemma cache_Verify_transparent_witness :
  ∃ c', cache_Verify (SHA := tag_sha256) tag_crypto (Some (tag_sig (tag_sha256 [3]))) [3]
          (mkCache 2 {[ message_key (SHA := tag_sha256) (tag_sig (tag_sha256 [3])) [3] ]}
             [message_key (SHA := tag_sha256) (tag_sig (tag_sha256 [3])) [3]]) = Ok (true, c') ∧
        Verify (CryptoBase := tag_crypto) (Some (tag_sig (tag_sha256 [3]))) [3] = Ok true.
Proof.
  eexists. split; [vm_compute; reflexivity|].
  eapply (cache_Verify_transparent (SHA := tag_sha256) tag_crypto) with (ops := [OpSign [3]]) (cap := 2).
  - apply length_tag.
  - intros m. unfold sha256, tag_sha256. discriminate.
  - intros s1 m1 s2 m2 E. unfold message_key in E.
    apply app_inj_1 in E as [E1 E2]; [|by rewrite !length_tag]. cbn. change (tag_sha256 m1 = tag_sha256 m2) in E1. by rewrite E2, E1.
  - intros m s [= <-]. cbn. by rewrite bool_decide_true.
  - lia.
  - vm_compute. reflexivity.
  - vm_compute. reflexivity.
Defined.

(** The second batch is one the implementation rejects. *)
Lemma cache_BatchVerify_any_batch_witness :
  BatchVerify (CryptoBase := tag_crypto) (Some (tag_sig [])) {[ 1 := [6] ]} = Ok false ∧
  ∃ c' c'', cache_BatchVerify tag_crypto (Some (tag_sig [])) {[ 1 := [5] ]} (NewCache 2) = Ok (true, c') ∧
    cache_BatchVerify tag_crypto (Some (tag_sig [])) {[ 1 := [6] ]} c' = Ok (true, c'').
Proof.
  split; [vm_compute; reflexivity|].
  assert (E : ∃ c', cache_BatchVerify tag_crypto (Some (tag_sig [])) {[ 1 := [5] ]} (NewCache 2) = Ok (true, c'))
    by (eexists; vm_compute; reflexivity).
  destruct E as [c' E]. exists c'.
  destruct (cache_BatchVerify_any_batch tag_crypto (tag_sig []) {[ 1 := [5] ]} {[ 1 := [6] ]} (NewCache 2) c')
    as [c'' E'].
  - split; cbn; [lia|constructor|set_solver|rewrite size_empty; lia].
  - exact E.
  - exists c''. split; [exact E|exact E'].
Defined.
