(* ===== verification/Leaders.v ===== *)
(** Leader rotation: fixed, round-robin and carousel
    (src/sourcecodes/hotstuff/leaderrotation/fixed.go, roundrobin.go, carousel.go). *)

From S2P Require Import Prelude IDSet Signature Types Samples BlockChain SafetySample.

(** ** Fixed and round-robin *)
Definition fixed_GetLeader (leader : ID) (_ : View) : ID := leader.

(** [hotstuff.ID(view%hotstuff.View(numReplicas) + 1)]; a modulo by zero panics. *)
Definition chooseRoundRobin (view : View) (numReplicas : Z) : outcome ID :=
  if decide (u64 numReplicas = 0) then Panic
  else Ok (u32 (u64 (view mod u64 numReplicas + 1))).

Lemma chooseRoundRobin_Ok view n :
  0 < n < two32 → 0 ≤ view → chooseRoundRobin view n = Ok (view mod n + 1).
Proof.
  intros Hn Hv. unfold chooseRoundRobin. assert (E : u64 n = n).
  { unfold u64, two64, two32 in *. rewrite Z.mod_small; lia. }
  rewrite E. rewrite decide_False by lia. f_equal.
  assert (Hx : 0 ≤ view mod n + 1 < two32) by (pose proof (Z.mod_pos_bound view n); lia).
  revert Hx. generalize (view mod n + 1). intros x Hx. unfold u64, two64, u32, two32 in *.
  rewrite (Z.mod_small x (2 ^ 64)), Z.mod_small by lia. done.
Qed.

Lemma mod_inj_window n v x y :
  0 < n → v ≤ x < v + n → v ≤ y < v + n → x mod n = y mod n → x = y.
Proof.
  intros Hn Hx Hy E. pose proof (Z.div_mod x n). pose proof (Z.div_mod y n).
  assert (x / n = y / n) by nia. lia.
Qed.

(** Round-robin is fair: it never panics for a configuration of [n] replicas, and in
    any [n] consecutive views each of the replicas 1 to [n] leads exactly once. *)
Theorem round_robin_fair view (n : nat) :
  0 < Z.of_nat n < two32 → 0 ≤ view →
  ∃ leaders, mapM (λ v, match chooseRoundRobin v (Z.of_nat n) with Ok l => Some l | _ => None end)
               (seqZ view (Z.of_nat n)) = Some leaders ∧
    leaders ≡ₚ seqZ 1 (Z.of_nat n).
Proof.
  intros Hn Hv. exists ((λ v, v mod Z.of_nat n + 1) <$> seqZ view (Z.of_nat n)). split.
  - apply mapM_Some, Forall2_fmap_r, Forall_Forall2_diag, Forall_forall. intros v Hv'%elem_of_seqZ.
    by rewrite chooseRoundRobin_Ok by lia.
  - apply submseteq_length_Permutation; [|by rewrite length_fmap, !length_seqZ].
    apply NoDup_submseteq.
    + apply NoDup_fmap_2_strong; [|apply NoDup_seqZ]. intros x y Hx%elem_of_seqZ Hy%elem_of_seqZ E.
      eapply (mod_inj_window (Z.of_nat n) view); lia.
    + intros l (v & -> & _)%list_elem_of_fmap. apply elem_of_seqZ.
      pose proof (Z.mod_pos_bound v (Z.of_nat n)). lia.
Qed.
Lemma round_robin_fair_witness :
  ∃ leaders, mapM (λ v, match chooseRoundRobin v 4 with Ok l => Some l | _ => None end) (seqZ 6 4) = Some leaders ∧
    leaders ≡ₚ seqZ 1 4.
Proof. apply (round_robin_fair 6 4); unfold two32; lia. Defined.

(** ** Carousel *)
Section Carousel.
Context `{SHA : Sha256} `{NET : Network}.
(** [rand.New(rand.NewSource(seed)).Int()], a non-negative number. *)
Context (rand_Int : Z → Z).

(** The proposers of the last [n] blocks of the branch, stopping at the genesis
    block or at a block that cannot be found. *)
Fixpoint last_authors (n : nat) (block : Block) : M BlockChain (gset ID) :=
  match n with
  | O => ret ∅
  | S n' =>
      if decide (block = GetGenesis) then ret ∅
      else
        next <- Get (b_parent block) ;;
        match next with
        | None => ret {[ b_proposer block ]}
        | Some parent => rest <- last_authors n' parent ;; ret ({[ b_proposer block ]} ∪ rest)
        end
  end.

(** The voters that did not propose recently, in increasing order. *)
Definition candidates (voters : IDSet) (lastAuthors : gset ID) : list ID :=
  merge_sort Z.le (filter (λ id, id ∉ lastAuthors) (RangeList voters)).

Definition carousel_GetLeader (commitHead : Block) (chainLength numReplicas seed : Z) (round : View)
    : M BlockChain ID :=
  match qc_signature (b_cert commitHead) with
  | None => lift (chooseRoundRobin round numReplicas)
  | Some sig =>
      if decide (b_view commitHead ≠ u64 (round - chainLength)) then lift (chooseRoundRobin round numReplicas)
      else
        lastAuthors <- last_authors (Z.to_nat (NumFaulty numReplicas)) commitHead ;;
        let cs := candidates (Participants sig) lastAuthors in
        if decide (cs = []) then panic
        else
          let k := rand_Int (i64 (seed + round)) mod Z.of_nat (length cs) in
          ret (default 0 (cs !! Z.to_nat k))
  end.

Lemma last_authors_size n block c s c' :
  last_authors n block c = Ok (s, c') → (size s ≤ n)%nat.
Proof.
  revert block c s c'. induction n as [|n IH]; intros block c s c' E; cbn in E.
  { unfold ret in E. simplify_eq. by rewrite size_empty. }
  case_decide; [unfold ret in E; simplify_eq; rewrite size_empty; lia|].
  apply bind_Ok in E as ([p|] & c1 & _ & E).
  - apply bind_Ok in E as (rest & c2 & E2 & E). unfold ret in E. simplify_eq.
    specialize (IH _ _ _ _ E2). rewrite size_union_alt, size_singleton.
    assert (size (rest ∖ {[ b_proposer block ]}) ≤ size rest)%nat by (apply subseteq_size; set_solver). lia.
  - unfold ret in E. simplify_eq. rewrite size_singleton. lia.
Qed.
Lemma last_authors_total n block c : ∃ s c', last_authors n block c = Ok (s, c').
Proof.
  revert block c. induction n as [|n IH]; intros block c; cbn; [by eexists _, _|].
  case_decide; [by eexists _, _|]. unfold bind at 1, outcome_bind at 1.
  destruct (Get_total (b_parent block) c) as (o & c1 & ->). destruct o as [p|]; [|by eexists _, _].
  unfold bind, outcome_bind. destruct (IH p c1) as (s & c2 & ->). by eexists _, _.
Qed.

Lemma candidates_elem voters authors id :
  id ∈ candidates voters authors ↔ id ∈ RangeList voters ∧ id ∉ authors.
Proof.
  unfold candidates. rewrite (merge_sort_Permutation Z.le), list_elem_of_filter. tauto.
Qed.

(** More voters than authors leave a candidate. *)
Lemma candidates_nonempty voters (authors : gset ID) :
  NoDup (RangeList voters) → (size authors < length (RangeList voters))%nat →
  candidates voters authors ≠ [].
Proof.
  intros Hnd Hlt E.
  assert (Hsub : (list_to_set (RangeList voters) : gset ID) ⊆ authors).
  { intros id Hid%elem_of_list_to_set. destruct (decide (id ∈ authors)) as [|Hn]; [done|].
    assert (Hc : id ∈ candidates voters authors) by (by apply candidates_elem).
    rewrite E in Hc. by apply not_elem_of_nil in Hc. }
  apply subseteq_size in Hsub. rewrite size_list_to_set in Hsub by done. lia.
Qed.

(** When the committed block is [ChainLength] views old and carries a quorum of
    signatures, carousel always finds a leader: a replica whose signature is in the
    block's certificate and that proposed none of the last [f] committed blocks. *)
Theorem carousel_leader commitHead sig chainLength numReplicas seed round c :
  1 ≤ numReplicas → (∀ z, 0 ≤ rand_Int z) →
  qc_signature (b_cert commitHead) = Some sig → QuorumSignature_wf sig →
  QuorumSize numReplicas ≤ Len (Participants sig) → b_view commitHead = u64 (round - chainLength) →
  ∃ leader authors c',
    last_authors (Z.to_nat (NumFaulty numReplicas)) commitHead c = Ok (authors, c') ∧
    carousel_GetLeader commitHead chainLength numReplicas seed round c = Ok (leader, c') ∧
    leader ∈ RangeList (Participants sig) ∧ leader ∉ authors.
Proof.
  intros Hn Hr Es Hwf HQ Hv. destruct (last_authors_total (Z.to_nat (NumFaulty numReplicas)) commitHead c)
    as (authors & c' & E). pose proof (last_authors_size _ _ _ _ _ E) as Hsz.
  destruct (Participants_counts sig Hwf) as [Hnd Hlen]. destruct (QuorumSize_bounds numReplicas Hn) as (Hf & H3f & Hq).
  set (cs := candidates (Participants sig) authors).
  assert (Hne : cs ≠ []) by (apply candidates_nonempty; [done|lia]).
  assert (Hpos : 0 < Z.of_nat (length cs)) by (destruct cs; [done|cbn; lia]).
  set (k := rand_Int (i64 (seed + round)) mod Z.of_nat (length cs)).
  pose proof (Z.mod_pos_bound (rand_Int (i64 (seed + round))) (Z.of_nat (length cs)) Hpos) as Hk. fold k in Hk.
  destruct (lookup_lt_is_Some_2 cs (Z.to_nat k)) as [leader El]; [lia|].
  exists leader, authors, c'. split; [done|].
  assert (Hin : leader ∈ cs) by (by eapply list_elem_of_lookup_2).
  apply candidates_elem in Hin as [Hin Hout]. split_and!; [|done|done].
  unfold carousel_GetLeader. rewrite Es. rewrite decide_False by (intros Hx; by apply Hx).
  unfold bind, outcome_bind. rewrite E. fold cs. rewrite decide_False by done. fold k. by rewrite El.
Qed.
End Carousel.

Lemma carousel_leader_witness :
  ∃ leader c', carousel_GetLeader (SHA := sample_sha256) (NET := no_network) (λ z, Z.abs z) run_b3 3 4 7 6
      (store_all run_blocks) = Ok (leader, c') ∧ leader ≠ 4.
Proof.
  destruct (carousel_leader (SHA := sample_sha256) (NET := no_network) (λ z, Z.abs z) run_b3
    (sample_signature run_b2) 3 4 7 6 (store_all run_blocks)) as (leader & authors & c' & Ea & E & Hin & Hout).
  - lia.
  - intros z. lia.
  - reflexivity.
  - apply Multi.wf_Restore.
  - vm_compute. discriminate.
  - vm_compute. reflexivity.
  - exists leader, c'. split; [exact E|]. intros ->. revert Hin. vm_compute. intros Hin.
    repeat (apply elem_of_cons in Hin as [Hx|Hin]; [discriminate Hx|]). by apply not_elem_of_nil in Hin.
Defined.
