(* ===== verification/Eddsa.v ===== *)
(** The EdDSA crypto implementation (src/sourcecodes/hotstuff/crypto/eddsa/eddsa.go).
    Unlike ECDSA it signs messages, not their hashes. *)

From S2P Require Import Prelude IDSet Signature Types Samples Ecdsa.

Section Eddsa.
Context `{SHA : Sha256} {PublicKey : Type}.
Context (selfID : ID) (replicas : gmap ID PublicKey).
Context (ed25519_sign : bytes → bytes).
Context (ed25519_verify : PublicKey → bytes → bytes → bool).

Definition ed_Sign (message : bytes) : CryptoErr + QuorumSignature :=
  inr (SigEDDSA {[ selfID := mkEDDSA selfID (ed25519_sign message) ]}).

Fixpoint ed_combine_loop (ts : Multi EDDSASignature) (signatures : list (option QuorumSignature))
    : outcome (CryptoErr + QuorumSignature) :=
  match signatures with
  | [] => Ok (inr (SigEDDSA ts))
  | Some (SigEDDSA sig2) :: rest =>
      match add_entries ts (map_to_list sig2) with
      | None => Ok (inl ErrCombineOverlap)
      | Some ts' => ed_combine_loop ts' rest
      end
  | _ :: _ => Panic
  end.

Definition ed_Combine (signatures : list (option QuorumSignature))
    : outcome (CryptoErr + QuorumSignature) :=
  if decide (length signatures < 2)%nat then Ok (inl ErrCombineMultiple)
  else ed_combine_loop ∅ signatures.

Definition ed_verifySingle (sig : EDDSASignature) (message : bytes) : bool :=
  match replicas !! Signer sig with
  | None => false
  | Some pk => ed25519_verify pk message (ed_sign sig)
  end.

Definition ed_Verify (signature : option QuorumSignature) (message : bytes) : outcome bool :=
  match signature with
  | Some (SigEDDSA s) =>
      if decide (Multi.Len s = 0) then Ok false
      else Ok (forallb (λ kv, ed_verifySingle kv.2 message) (map_to_list s))
  | _ => Panic
  end.

Definition ed_BatchVerify (signature : option QuorumSignature) (batch : gmap ID bytes)
    : outcome bool :=
  match signature with
  | Some (SigEDDSA s) =>
      if decide (Multi.Len s = 0) then Ok false
      else
        match mapM (λ kv : ID * EDDSASignature,
                      message ← batch !! kv.1; Some (kv.2, message)) (map_to_list s) with
        | None => Ok false
        | Some pairs =>
            let set : gset Hash := list_to_set ((sha256 <$> pairs.*2)) in
            let valid := forallb (λ p, ed_verifySingle p.1 p.2) pairs in
            Ok (valid && bool_decide (size set = size batch))
        end
  | _ => Panic
  end.

Definition eddsaBase : CryptoBase :=
  {| Sign := ed_Sign; Combine := ed_Combine; Verify := ed_Verify; BatchVerify := ed_BatchVerify |}.

Lemma ed_combine_loop_map sigs ts out :
  ed_combine_loop ts sigs = Ok (inr out) →
  ∃ ms m, sigs = (λ m, Some (SigEDDSA m)) <$> ms ∧ out = SigEDDSA m ∧
    ∀ id s, m !! id = Some s ↔ ts !! id = Some s ∨ ∃ m', m' ∈ ms ∧ m' !! id = Some s.
Proof using Type.
  revert ts. induction sigs as [|[[m|m|]|] sigs IH]; intros ts E; cbn in E; try done.
  { simplify_eq. exists [], ts. cbn. split_and!; [done|done|set_solver]. }
  rewrite add_entries_map in E. case_decide as Hd; [|done].
  destruct (IH _ E) as (ms & m1 & -> & -> & Hl). exists (m :: ms), m1. split_and!; [done|done|].
  intros id s. rewrite Hl, lookup_union_Some by done. setoid_rewrite elem_of_cons. naive_solver.
Qed.

Lemma ed_Verify_entries s msg :
  ed_Verify (Some (SigEDDSA s)) msg = Ok true ↔
  s ≠ ∅ ∧ map_Forall (λ _ x, ed_verifySingle x msg = true) s.
Proof using Type.
  unfold ed_Verify, Multi.Len. case_decide as Hs.
  { split; [done|]. intros [Hne _]. destruct Hne. apply map_size_empty_inv. lia. }
  split.
  - intros [= Hall]. split; [intros ->; by rewrite map_size_empty in Hs|].
    intros i x Hx. rewrite forallb_forall in Hall. apply (Hall (i, x)), list_elem_of_In. by apply elem_of_map_to_list.
  - intros [_ Hall]. f_equal. apply forallb_forall. intros [i x] Hin%list_elem_of_In%elem_of_map_to_list.
    by apply (Hall i x).
Qed.

(** Combining keeps validity: when [Combine] of EdDSA signatures succeeds, the result
    verifies a message exactly when every input does (no input being empty). *)
Theorem ed_Combine_Verify sigs out msg :
  ed_Combine sigs = Ok (inr out) → Forall (λ s, s ≠ Some (SigEDDSA ∅)) sigs →
  ed_Verify (Some out) msg = Ok true ↔ Forall (λ s, ed_Verify s msg = Ok true) sigs.
Proof using Type.
  unfold ed_Combine. case_decide as Hlen; [done|]. intros E Hne.
  destruct (ed_combine_loop_map _ _ _ E) as (ms & m & -> & -> & Hl). rewrite length_fmap in Hlen.
  rewrite Forall_fmap, Forall_forall in Hne.
  assert (HF : Forall (λ s, ed_Verify s msg = Ok true) ((λ m, Some (SigEDDSA m)) <$> ms) ↔
    ∀ m', m' ∈ ms → m' ≠ ∅ ∧ map_Forall (λ _ x, ed_verifySingle x msg = true) m').
  { rewrite Forall_fmap, Forall_forall. split; intros Ha m' Hm'; by apply ed_Verify_entries, Ha. }
  rewrite HF, ed_Verify_entries. split.
  - intros [_ Hall] m' Hm'. split; [intros ->; by apply (Hne ∅)|].
    intros i x Hx. apply (Hall i x), Hl. right. by exists m'.
  - intros Hall. split.
    + destruct ms as [|m1 ms]; [cbn in Hlen; lia|]. destruct (Hall m1) as [Hm1 _]; [left|].
      apply map_choose in Hm1 as (i & x & Hx). intros ->.
      assert (Hin : (∅ : Multi EDDSASignature) !! i = Some x) by (apply Hl; right; exists m1; split; [left|done]).
      by rewrite lookup_empty in Hin.
    + intros i x Hx. apply Hl in Hx as [Hx|(m' & Hm' & Hx)]; [by rewrite lookup_empty in Hx|]. by destruct (Hall m' Hm') as [_ Ha]; apply (Ha i x).
Qed.
End Eddsa.

(** The signature of a message is the key followed by the message. *)
Definition sample_ed (i : ID) : Multi EDDSASignature := {[ i := mkEDDSA i [i; 5] ]}.
Lemma ed_Combine_Verify_witness :
  ed_Combine [Some (SigEDDSA (sample_ed 1)); Some (SigEDDSA (sample_ed 2))] =
    Ok (inr (SigEDDSA (sample_ed 1 ∪ sample_ed 2))) ∧
  ed_Verify sample_replicas (λ pk m s, bool_decide (s = pk :: m))
    (Some (SigEDDSA (sample_ed 1 ∪ sample_ed 2))) [5] = Ok true.
Proof.
  split; [vm_compute; reflexivity|].
  apply (ed_Combine_Verify sample_replicas (λ pk m s, bool_decide (s = pk :: m))
    [Some (SigEDDSA (sample_ed 1)); Some (SigEDDSA (sample_ed 2))]).
  - vm_compute. reflexivity.
  - repeat constructor; discriminate.
  - repeat constructor.
Defined.
