(* ===== verification/Convert.v ===== *)
(** Messages on the wire
    (src/sourcecodes/hotstuff/internal/proto/hotstuffpb/convert.go): the
    conversions between the types of Types.v and the generated protobuf types,
    which are records here.  A nil or empty [QuorumSignature] message is [None];
    a nil pointer to another message is [None] of an option. *)

From S2P Require Import Prelude IDSet Bitfield Signature Types Samples.

(** ** The protobuf messages *)
Record PbECDSASignature := mkPbECDSA { pbe_Signer : Z; pbe_R : bytes; pbe_S : bytes }.
Record PbEDDSASignature := mkPbEDDSA { pbd_Signer : Z; pbd_Sig : bytes }.
Record PbBLS12Signature := mkPbBLS12 { pbb_Sig : bytes; pbb_Participants : bytes }.
Inductive PbSig :=
| PbECDSASigs (sigs : list PbECDSASignature)
| PbEDDSASigs (sigs : list PbEDDSASignature)
| PbBLS12Sig (sig : PbBLS12Signature).
Abbreviation PbQuorumSignature := (option PbSig).

Record PbPartialCert := mkPbPartialCert { pbpc_Sig : PbQuorumSignature; pbpc_Hash : bytes }.
Record PbQuorumCert := mkPbQuorumCert { pbqc_Sig : PbQuorumSignature; pbqc_View : Z; pbqc_Hash : bytes }.
Record PbTimeoutCert := mkPbTimeoutCert { pbtc_Sig : PbQuorumSignature; pbtc_View : Z }.
Record PbAggQC := mkPbAggQC { pba_QCs : gmap Z PbQuorumCert; pba_Sig : PbQuorumSignature; pba_View : Z }.
Record PbSyncInfo := mkPbSyncInfo { pbsi_QC : option PbQuorumCert; pbsi_TC : option PbTimeoutCert; pbsi_AggQC : option PbAggQC }.
Record PbBlock := mkPbBlock { pbb_Parent : bytes; pbb_QC : PbQuorumCert; pbb_View : Z; pbb_Command : bytes; pbb_Proposer : Z }.
Record PbProposal := mkPbProposal { pbp_Block : option PbBlock; pbp_AggQC : option PbAggQC }.
(** What the getters of a nil block return. *)
Definition nil_PbBlock : PbBlock := mkPbBlock [] (mkPbQuorumCert None 0 []) 0 [] 0.
(** [pbtm_ViewSig] is [None] for a nil pointer. *)
Record PbTimeoutMsg := mkPbTimeoutMsg {
  pbtm_View : Z;
  pbtm_SyncInfo : PbSyncInfo;
  pbtm_ViewSig : option PbQuorumSignature;
  pbtm_MsgSig : option PbQuorumSignature;
}.

Section Convert.
Context `{SHA : Sha256}.
(** Whether [bls12.NewG2().FromCompressed] accepts a point. *)
Context (FromCompressed_ok : bytes → bool).

(** ** Signatures *)
Definition QuorumSignatureToProto (sig : option QuorumSignature) : PbQuorumSignature :=
  match sig with
  | None => None
  | Some (SigECDSA ms) =>
      Some (PbECDSASigs ((λ kv, mkPbECDSA (Signer kv.2) (be_bytes (ec_r kv.2)) (be_bytes (ec_s kv.2))) <$> map_to_list ms))
  | Some (SigEDDSA ms) =>
      Some (PbEDDSASigs ((λ kv, mkPbEDDSA (Signer kv.2) (Signature.ToBytes kv.2)) <$> map_to_list ms))
  | Some (SigBLS12 agg) =>
      Some (PbBLS12Sig (mkPbBLS12 (bls_sig agg) (bf_data (bls_participants agg))))
  end.

Definition RestoreAggregateSignature (sig : bytes) (participants : Bitfield.Bitfield) : option AggregateSignature :=
  if FromCompressed_ok sig then Some (mkAggSig sig participants) else None.

Definition QuorumSignatureFromProto (sig : PbQuorumSignature) : option QuorumSignature :=
  match sig with
  | None => None
  | Some (PbECDSASigs sigs) =>
      Some (SigECDSA (Multi.Restore
        ((λ s, mkECDSA (be_value (pbe_R s)) (be_value (pbe_S s)) (pbe_Signer s)) <$> sigs)))
  | Some (PbEDDSASigs sigs) =>
      Some (SigEDDSA (Multi.Restore ((λ s, mkEDDSA (pbd_Signer s) (pbd_Sig s)) <$> sigs)))
  | Some (PbBLS12Sig s) =>
      SigBLS12 <$> RestoreAggregateSignature (pbb_Sig s) (BitfieldFromBytes (pbb_Participants s))
  end.

(** ** Certificates *)
Definition hash_of (bs : bytes) : Hash := copy_array 32 bs.

Definition PartialCertToProto (cert : PartialCert) : PbPartialCert :=
  mkPbPartialCert (QuorumSignatureToProto (pc_signature cert)) (pc_blockHash cert).
Definition PartialCertFromProto (cert : PbPartialCert) : outcome PartialCert :=
  NewPartialCert (QuorumSignatureFromProto (pbpc_Sig cert)) (hash_of (pbpc_Hash cert)).

Definition QuorumCertToProto (qc : QuorumCert) : PbQuorumCert :=
  mkPbQuorumCert (QuorumSignatureToProto (qc_signature qc)) (qc_view qc) (qc_hash qc).
Definition QuorumCertFromProto (qc : PbQuorumCert) : QuorumCert :=
  mkQuorumCert (QuorumSignatureFromProto (pbqc_Sig qc)) (pbqc_View qc) (hash_of (pbqc_Hash qc)).

Definition TimeoutCertToProto (tc : TimeoutCert) : PbTimeoutCert :=
  mkPbTimeoutCert (QuorumSignatureToProto (tc_signature tc)) (tc_view tc).
Definition TimeoutCertFromProto (m : PbTimeoutCert) : TimeoutCert :=
  mkTimeoutCert (QuorumSignatureFromProto (pbtc_Sig m)) (pbtc_View m).

Definition AggregateQCToProto (aggQC : AggregateQC) : PbAggQC :=
  mkPbAggQC (QuorumCertToProto <$> agg_qcs aggQC) (QuorumSignatureToProto (agg_sig aggQC)) (agg_view aggQC).
Definition AggregateQCFromProto (m : PbAggQC) : AggregateQC :=
  mkAggregateQC (QuorumCertFromProto <$> pba_QCs m) (QuorumSignatureFromProto (pba_Sig m)) (pba_View m).

Definition SyncInfoToProto (si : SyncInfo) : PbSyncInfo :=
  mkPbSyncInfo (QuorumCertToProto <$> si_qc si) (TimeoutCertToProto <$> si_tc si)
    (AggregateQCToProto <$> si_aggQC si).
Definition SyncInfoFromProto (m : PbSyncInfo) : SyncInfo :=
  let si := NewSyncInfo in
  let si := match pbsi_QC m with Some qc => WithQC si (QuorumCertFromProto qc) | None => si end in
  let si := match pbsi_TC m with Some tc => WithTC si (TimeoutCertFromProto tc) | None => si end in
  match pbsi_AggQC m with Some agg => WithAggQC si (AggregateQCFromProto agg) | None => si end.

(** ** Blocks and messages *)
Definition BlockToProto (b : Block) : PbBlock :=
  mkPbBlock (b_parent b) (QuorumCertToProto (b_cert b)) (b_view b) (b_cmd b) (b_proposer b).
Definition BlockFromProto (b : PbBlock) : Block :=
  NewBlock (hash_of (pbb_Parent b)) (QuorumCertFromProto (pbb_QC b)) (pbb_Command b) (pbb_View b) (pbb_Proposer b).

Definition ProposalToProto (p : ProposeMsg) : PbProposal :=
  mkPbProposal (Some (BlockToProto (pm_Block p))) (AggregateQCToProto <$> pm_AggregateQC p).
(** The sender's ID is not on the wire; the server fills it in. *)
Definition ProposalFromProto (id : ID) (p : PbProposal) : ProposeMsg :=
  mkProposeMsg id (BlockFromProto (default nil_PbBlock (pbp_Block p))) (AggregateQCFromProto <$> pbp_AggQC p).

Definition TimeoutMsgToProto (m : TimeoutMsg) : PbTimeoutMsg :=
  mkPbTimeoutMsg (tm_View m) (SyncInfoToProto (tm_SyncInfo m))
    (Some (QuorumSignatureToProto (tm_ViewSignature m)))
    (match tm_MsgSignature m with Some s => Some (QuorumSignatureToProto (Some s)) | None => None end).
Definition TimeoutMsgFromProto (id : ID) (m : PbTimeoutMsg) : TimeoutMsg :=
  mkTimeoutMsg id (pbtm_View m) (mjoin (QuorumSignatureFromProto <$> pbtm_ViewSig m))
    (match pbtm_ViewSig m with
     | Some _ => mjoin (QuorumSignatureFromProto <$> pbtm_MsgSig m)
     | None => None
     end)
    (SyncInfoFromProto (pbtm_SyncInfo m)).

(** ** What the code puts on the wire *)
Definition sig_ok (sig : QuorumSignature) : Prop :=
  QuorumSignature_wf sig ∧
  match sig with
  | SigECDSA ms => map_Forall (λ _ s, 0 ≤ ec_r s ∧ 0 ≤ ec_s s) ms
  | SigEDDSA _ => True
  | SigBLS12 agg => FromCompressed_ok (bls_sig agg) = true
  end.
Definition osig_ok (sig : option QuorumSignature) : Prop := ∀ s, sig = Some s → sig_ok s.
Record qc_ok (qc : QuorumCert) : Prop := { qc_sig_ok : osig_ok (qc_signature qc); qc_hash_ok : length (qc_hash qc) = 32%nat }.
Record agg_ok (agg : AggregateQC) : Prop := { agg_sig_ok : osig_ok (agg_sig agg); agg_qcs_ok : map_Forall (λ _, qc_ok) (agg_qcs agg) }.
Record si_ok (si : SyncInfo) : Prop := {
  si_qc_ok : ∀ qc, si_qc si = Some qc → qc_ok qc;
  si_tc_ok : ∀ tc, si_tc si = Some tc → osig_ok (tc_signature tc);
  si_agg_ok : ∀ agg, si_aggQC si = Some agg → agg_ok agg;
}.
Record block_ok (b : Block) : Prop := {
  block_hashed : Block_hashed b;
  block_parent_ok : length (b_parent b) = 32%nat;
  block_cert_ok : qc_ok (b_cert b);
}.

(** ** Round trips *)
Lemma sig_roundtrip sig : osig_ok sig → QuorumSignatureFromProto (QuorumSignatureToProto sig) = sig.
Proof.
  destruct sig as [[ms|ms|agg]|]; intros Hok; [| | |done]; destruct (Hok _ eq_refl) as [Hwf Hx]; cbn.
  - do 2 f_equal. apply Multi.Restore_values; [done|]. rewrite <-list_fmap_compose.
    erewrite list_fmap_ext; [done|]. intros k [i s] Hk%list_elem_of_lookup_2%elem_of_map_to_list.
    destruct (Hx _ _ Hk) as [Hr Hs]. cbn. rewrite !be_value_bytes by done. by destruct s.
  - do 2 f_equal. apply Multi.Restore_values; [done|]. rewrite <-list_fmap_compose.
    erewrite list_fmap_ext; [done|]. intros k [i s] _. cbn. by destruct s.
  - unfold RestoreAggregateSignature. rewrite Hx. cbn. do 2 f_equal. destruct agg as [b bf]. cbn in *. f_equal.
    destruct Hwf as [_ _ Hlen]. destruct bf as [data n]. unfold BitfieldFromBytes. cbn in *. by rewrite Hlen.
Qed.

Lemma qc_roundtrip qc : qc_ok qc → QuorumCertFromProto (QuorumCertToProto qc) = qc.
Proof.
  intros [Hs Hh]. unfold QuorumCertFromProto, QuorumCertToProto, hash_of. cbn [pbqc_Sig pbqc_View pbqc_Hash].
  rewrite sig_roundtrip, copy_array_id by done. by destruct qc.
Qed.

Lemma tc_roundtrip tc : osig_ok (tc_signature tc) → TimeoutCertFromProto (TimeoutCertToProto tc) = tc.
Proof. intros Hs. unfold TimeoutCertFromProto, TimeoutCertToProto. cbn. rewrite sig_roundtrip by done. by destruct tc. Qed.

Lemma agg_roundtrip agg : agg_ok agg → AggregateQCFromProto (AggregateQCToProto agg) = agg.
Proof.
  intros [Hs Hq]. unfold AggregateQCFromProto, AggregateQCToProto. cbn. rewrite sig_roundtrip by done.
  rewrite <-map_fmap_compose. destruct agg as [qcs sig v]. cbn in *. f_equal.
  rewrite <-(map_fmap_id qcs) at 2. apply map_fmap_ext. intros i qc Hqc. cbn. by apply qc_roundtrip, (Hq i).
Qed.

Lemma si_roundtrip si : si_ok si → SyncInfoFromProto (SyncInfoToProto si) = si.
Proof.
  intros [Hq Ht Ha]. destruct si as [qc tc agg]. unfold SyncInfoFromProto. cbn in *.
  destruct qc as [qc|], tc as [tc|], agg as [agg|]; cbn; unfold WithQC, WithTC, WithAggQC; cbn;
    rewrite ?qc_roundtrip, ?tc_roundtrip, ?agg_roundtrip; auto.
Qed.

Lemma block_roundtrip b : block_ok b → BlockFromProto (BlockToProto b) = b.
Proof.
  intros [Hh Hp Hc]. unfold BlockFromProto, BlockToProto, hash_of.
  cbn [pbb_Parent pbb_QC pbb_View pbb_Command pbb_Proposer]. rewrite qc_roundtrip, copy_array_id by done.
  unfold Block_hashed in Hh. destruct b as [h p pr cmd cert v]. cbn in *. unfold NewBlock. f_equal. by rewrite Hh.
Qed.

Lemma proposal_roundtrip_eq p :
  block_ok (pm_Block p) → (∀ agg, pm_AggregateQC p = Some agg → agg_ok agg) →
  ProposalFromProto (pm_ID p) (ProposalToProto p) = p.
Proof.
  intros Hb Ha. unfold ProposalFromProto, ProposalToProto. cbn. rewrite block_roundtrip by done.
  destruct p as [i b [agg|]]; cbn in *; [|done]. by rewrite agg_roundtrip by auto.
Qed.

(** Timeout messages survive the wire, with all the certificates they carry. *)
Theorem timeout_roundtrip m :
  osig_ok (tm_ViewSignature m) → osig_ok (tm_MsgSignature m) → si_ok (tm_SyncInfo m) →
  TimeoutMsgFromProto (tm_ID m) (TimeoutMsgToProto m) = m.
Proof.
  intros Hv Hm Hs. unfold TimeoutMsgFromProto, TimeoutMsgToProto. cbn [pbtm_View pbtm_ViewSig pbtm_MsgSig pbtm_SyncInfo].
  rewrite si_roundtrip by done. destruct m as [i v sv [sm|] si]; cbn [fmap option_fmap option_map mjoin option_join tm_ViewSignature tm_MsgSignature tm_ID tm_View tm_SyncInfo] in *;
    rewrite !sig_roundtrip by done; done.
Qed.

(** A vote without a signature crashes its receiver: converting a partial
    certificate whose signature is missing, or is a BLS signature that does not
    decompress, dereferences a nil signature. *)
Theorem PartialCertFromProto_nil_panics hash bs parts :
  PartialCertFromProto (mkPbPartialCert None hash) = Panic ∧
  (FromCompressed_ok bs = false →
   PartialCertFromProto (mkPbPartialCert (Some (PbBLS12Sig (mkPbBLS12 bs parts))) hash) = Panic).
Proof.
  split; [done|]. intros Hbs. unfold PartialCertFromProto. cbn. unfold RestoreAggregateSignature. by rewrite Hbs.
Qed.
End Convert.

(** ** Samples *)
Lemma sample_cert_ok : qc_ok (λ _, true) (sample_qc sample_b1).
Proof.
  split; [|vm_compute; reflexivity]. intros s [= <-]. split; [apply Multi.wf_Restore|].
  apply (bool_decide_unpack _). vm_compute. exact I.
Qed.

Lemma timeout_roundtrip_witness :
  TimeoutMsgFromProto (λ _, true) 2
    (TimeoutMsgToProto (mkTimeoutMsg 2 5 None None (WithQC NewSyncInfo (sample_qc sample_b1)))) =
  mkTimeoutMsg 2 5 None None (WithQC NewSyncInfo (sample_qc sample_b1)).
Proof.
  apply (timeout_roundtrip (λ _, true)
    (mkTimeoutMsg 2 5 None None (WithQC NewSyncInfo (sample_qc sample_b1)))).
  - discriminate.
  - discriminate.
  - split; [|discriminate|discriminate]. intros qc [= <-]. apply sample_cert_ok.
Defined.

Lemma PartialCertFromProto_nil_panics_witness :
  PartialCertFromProto (λ _, false) (mkPbPartialCert (Some (PbBLS12Sig (mkPbBLS12 [1] []))) []) = Panic.
Proof. apply (PartialCertFromProto_nil_panics (λ _, false) [] [1] []). reflexivity. Defined.
