(* ===== verification/Server.v ===== *)
(** The connection between replicas (src/sourcecodes/hotstuff/backend): the
    client side (config.go: the configuration of replicas, [Connect], the
    senders and the quorum function of [Fetch]) and the server side (server.go:
    who sent a message, and the event each request becomes).

    gRPC and gorums are not part of the repository.  What they know of a
    connection is the record [Ctx]; which nodes a configuration holds, and what a
    quorum call returns, are parameters.  Strings are byte strings. *)

From stdpp Require Import strings.
From S2P Require Import Prelude IDSet Bitfield Signature Types Samples BlockChain Ecdsa Rules Replica Convert.

(** A string literal as bytes. *)
Definition str (s : string) : bytes := (λ c, Z.of_N (Ascii.N_of_ascii c)) <$> String.list_ascii_of_string s.

(** ** Decimal numbers: [strconv.Atoi] and the verb [%d] *)
Definition is_digit (c : Z) : bool := bool_decide (48 ≤ c ≤ 57).
Definition digits_value (ds : bytes) : Z := foldl (λ a c, 10 * a + (c - 48)) 0 ds.

Definition Atoi (s : bytes) : option Z :=
  let '(neg, ds) := match s with
                    | c :: r => if decide (c = 45) then (true, r)
                                else if decide (c = 43) then (false, r) else (false, s)
                    | [] => (false, s)
                    end in
  let v := if neg : bool then - digits_value ds else digits_value ds in
  if decide (ds ≠ []) then
    if forallb is_digit ds && bool_decide (- 2 ^ 63 ≤ v < 2 ^ 63) then Some v else None
  else None.

Fixpoint digits_fuel (fuel : nat) (z : Z) (acc : bytes) : bytes :=
  match fuel with
  | O => acc
  | S f => let acc := (48 + z mod 10) :: acc in
           if decide (z < 10) then acc else digits_fuel f (z / 10) acc
  end.
(** [fmt.Sprintf("%d", id)] for an unsigned 32-bit number: ten digits at most. *)
Definition decimal (z : Z) : bytes := digits_fuel 10 z [].

(** ** What gRPC knows of an incoming connection *)
Abbreviation MD := (gmap bytes (list bytes)).
Inductive AuthInfo :=
| NoTLS                                  (* nil, or an AuthType other than tls *)
| WrongTLS                               (* AuthType tls, but not a TLSInfo *)
| TLSInfo (commonNames : list bytes).    (* the subjects of the PeerCertificates *)
Record Ctx := mkCtx { ctx_peer : option AuthInfo; ctx_metadata : option MD }.

Inductive PeerErr := NoPeer | WrongAuthInfo | NoMatchingCertificate | NoMetadata | NoIDField | BadIDField.

Definition subject_matches (cn : bytes) (replicaID : ID) : bool :=
  match Atoi cn with
  | Some subject => bool_decide (u32 subject = replicaID)
  | None => false
  end.

(** [replicas] are the keys of [cfg.Replicas()], in the order of the map iteration. *)
Definition GetPeerIDFromContext (ctx : Ctx) (replicas : list ID) : PeerErr + ID :=
  match ctx_peer ctx with
  | None => inl NoPeer
  | Some WrongTLS => inl WrongAuthInfo
  | Some (TLSInfo names) =>
      match names with
      | [] => inl NoMatchingCertificate
      | cn :: _ =>
          match filter (λ r, subject_matches cn r = true) replicas with
          | replicaID :: _ => inr replicaID
          | [] => inl NoMatchingCertificate
          end
      end
  | Some NoTLS =>
      match ctx_metadata ctx with
      | None => inl NoMetadata
      | Some md =>
          match md !! str "id" with
          | None | Some [] => inl NoIDField
          | Some (v :: _) =>
              match Atoi v with
              | None => inl BadIDField
              | Some id => inr (u32 id)
              end
          end
      end
  end.

(** ** The service: the event a request adds to the event loop, if any *)
Section Server.
Context `{SHA : Sha256}.
Context (FromCompressed_ok : bytes → bool).
Context (replicas : list ID).

Definition set_Proposer (id : ID) (b : PbBlock) : PbBlock :=
  mkPbBlock (pbb_Parent b) (pbb_QC b) (pbb_View b) (pbb_Command b) (u32 id).

Definition srv_Propose (ctx : Ctx) (proposal : PbProposal) : outcome (option Event) :=
  match GetPeerIDFromContext ctx replicas with
  | inl _ => Ok None
  | inr id =>
      match pbp_Block proposal with
      | None => Panic  (* proposal.Block.Proposer = ... *)
      | Some block =>
          let proposal := mkPbProposal (Some (set_Proposer id block)) (pbp_AggQC proposal) in
          Ok (Some (EPropose (ProposalFromProto FromCompressed_ok id proposal)))
      end
  end.

Definition srv_Vote (ctx : Ctx) (cert : PbPartialCert) : outcome (option Event) :=
  match GetPeerIDFromContext ctx replicas with
  | inl _ => Ok None
  | inr id => outcome_bind (PartialCertFromProto FromCompressed_ok cert)
                (λ pc, Ok (Some (EVote (mkVoteMsg id pc false))))
  end.

Definition srv_NewView (ctx : Ctx) (msg : PbSyncInfo) : outcome (option Event) :=
  match GetPeerIDFromContext ctx replicas with
  | inl _ => Ok None
  | inr id => Ok (Some (ENewView (mkNewViewMsg id (SyncInfoFromProto FromCompressed_ok msg))))
  end.

(** An error only gets logged: the message goes on with the ID 0. *)
Definition srv_Timeout (ctx : Ctx) (msg : PbTimeoutMsg) : outcome (option Event) :=
  let id := match GetPeerIDFromContext ctx replicas with inl _ => 0 | inr id => id end in
  Ok (Some (ERemoteTimeout (TimeoutMsgFromProto FromCompressed_ok id msg))).

Definition srv_Fetch (hash : bytes) (chain : BlockChain) : option PbBlock :=
  BlockToProto <$> LocalGet (hash_of hash) chain.

(** ** The client side of [Fetch] *)

(** [replies] in the order of the map iteration. *)
Fixpoint FetchQF (h : bytes) (replies : list (ID * PbBlock)) : option PbBlock :=
  match replies with
  | [] => None
  | (_, b) :: rest =>
      if decide (hash_of h = b_hash (BlockFromProto FromCompressed_ok b)) then Some b else FetchQF h rest
  end.

(** [QuorumCall qf]: what the quorum call returns when [qf] is its quorum function
    ([None] for an error). *)
Definition cfg_Fetch (QuorumCall : (list (ID * PbBlock) → option PbBlock) → option PbBlock) (hash : Hash)
    : option Block :=
  BlockFromProto FromCompressed_ok <$> QuorumCall (FetchQF hash).
End Server.

(** ** The configuration (config.go) *)
Definition keyPrefix : bytes := str "hotstuff-".

(** [strings.Cut(s, sep)]: what follows the first [sep] in [s]. *)
Fixpoint Cut (s sep : bytes) : option bytes :=
  if decide (take (length sep) s = sep) then Some (drop (length sep) s)
  else match s with
       | [] => None
       | _ :: s' => Cut s' sep
       end.

Record CfgReplica (K : Type) := mkCfgReplica {
  cr_id : ID;
  cr_pubKey : K;
  cr_node : option ID;           (* nil until connected *)
  cr_md : gmap bytes bytes;
}.
Arguments mkCfgReplica {K}.
Arguments cr_id {K}.
Arguments cr_pubKey {K}.
Arguments cr_node {K}.
Arguments cr_md {K}.

Record Config (K : Type) := mkConfig {
  connected : bool;
  cfg_nodes : option (list ID);  (* cfg.cfg *)
  cfg_replicas : gmap ID (CfgReplica K);
}.
Arguments mkConfig {K}.
Arguments connected {K}.
Arguments cfg_nodes {K}.
Arguments cfg_replicas {K}.

Record ReplicaInfo (K : Type) := mkReplicaInfo { ri_ID : ID; ri_Address : bytes; ri_PubKey : K }.
Arguments mkReplicaInfo {K}.
Arguments ri_ID {K}.
Arguments ri_Address {K}.
Arguments ri_PubKey {K}.

Inductive WireMsg :=
| WPropose (p : PbProposal)
| WVote (pc : PbPartialCert)
| WNewView (si : PbSyncInfo)
| WTimeout (m : PbTimeoutMsg).

Section Config.
Context {K : Type}.
(** [metadata.MD.Set] converts the key with [lower]; [NewConfiguration] is the
    gorums manager, which connects to the nodes of an address map. *)
Context (lower : bytes → bytes) (NewConfiguration : gmap bytes ID → option (list ID)).
Implicit Types (cfg : Config K) (r : CfgReplica K).

Definition NewConfig : Config K := mkConfig false None ∅.

(** [order]: the entries of the map, in the order of the iteration. *)
Definition mapToMetadata (order : list (bytes * bytes)) : MD :=
  foldl (λ md kv, <[ lower (keyPrefix ++ kv.1) := [kv.2] ]> md) ∅ order.

Fixpoint readMetadata (order : list (bytes * list bytes)) (m : gmap bytes bytes) : outcome (gmap bytes bytes) :=
  match order with
  | [] => Ok m
  | (k, values) :: rest =>
      match Cut k keyPrefix with
      | None => readMetadata rest m
      | Some key =>
          match values with
          | [] => Panic  (* values[0] *)
          | v :: _ => readMetadata rest (<[ key := v ]> m)
          end
      end
  end.

(** The metadata [Connect] attaches to every connection. *)
Definition own_metadata (self : ID) (order : list (bytes * bytes)) : MD :=
  <[ lower (str "id") := [decimal self] ]> (mapToMetadata order).

Definition init_replica (m : gmap ID (CfgReplica K)) (info : ReplicaInfo K) : gmap ID (CfgReplica K) :=
  <[ ri_ID info := mkCfgReplica (ri_ID info) (ri_PubKey info) None ∅ ]> m.

Definition add_mapping (self : ID) (m : gmap bytes ID) (info : ReplicaInfo K) : gmap bytes ID :=
  if decide (ri_ID info ≠ self) then <[ ri_Address info := u32 (ri_ID info) ]> m else m.

Definition set_node r (id : ID) : CfgReplica K := mkCfgReplica (cr_id r) (cr_pubKey r) (Some id) (cr_md r).

Fixpoint set_nodes (nodes : list ID) (m : gmap ID (CfgReplica K)) : outcome (gmap ID (CfgReplica K)) :=
  match nodes with
  | [] => Ok m
  | id :: rest =>
      match m !! id with
      | None => Panic  (* cfg.replicas[id].( *Replica) *)
      | Some r => set_nodes rest (<[ id := set_node r id ]> m)
      end
  end.

(** The result says whether there was no error; on success [ConnectedEvent] is
    added to the event loop as well. *)
Definition Connect (self : ID) (infos : list (ReplicaInfo K)) cfg : outcome (bool * Config K) :=
  let replicas := foldl init_replica (cfg_replicas cfg) infos in
  match NewConfiguration (foldl (add_mapping self) ∅ infos) with
  | None => Ok (false, mkConfig (connected cfg) None replicas)
  | Some nodes =>
      outcome_bind (set_nodes nodes replicas) (λ replicas, Ok (true, mkConfig true (Some nodes) replicas))
  end.

Definition set_md r (m : gmap bytes bytes) : CfgReplica K := mkCfgReplica (cr_id r) (cr_pubKey r) (cr_node r) m.

(** The handler of a [replicaConnected] event; [None] when the event is delayed
    until the [ConnectedEvent]. *)
Definition replicaConnected (ctx : Ctx) cfg : outcome (option (Config K)) :=
  if connected cfg then
    match ctx_peer ctx, ctx_metadata ctx with
    | Some _, Some md =>
        match GetPeerIDFromContext ctx (map_to_list (cfg_replicas cfg)).*1 with
        | inl _ => Ok (Some cfg)
        | inr id =>
            match cfg_replicas cfg !! id with
            | None => Ok (Some cfg)
            | Some r => outcome_bind (readMetadata (map_to_list md) ∅) (λ m,
                Ok (Some (mkConfig (connected cfg) (cfg_nodes cfg) (<[ id := set_md r m ]> (cfg_replicas cfg)))))
            end
        end
    | _, _ => Ok (Some cfg)
    end
  else Ok None.

(** [SubConfig]: an unknown ID becomes a nil replica. *)
Definition SubConfig (ids : list ID) cfg : gmap ID (option (CfgReplica K)) :=
  foldl (λ m id, <[ id := cfg_replicas cfg !! id ]> m) ∅ ids.

Definition cfg_Len cfg : Z := Z.of_nat (size (cfg_replicas cfg)).
Definition cfg_QuorumSize cfg : Z := QuorumSize (cfg_Len cfg).

(** ** The senders: the messages handed to gorums, with their destination *)
Definition r_Vote (cert : PartialCert) r : list (ID * WireMsg) :=
  match cr_node r with
  | None => []
  | Some n => [(n, WVote (PartialCertToProto cert))]
  end.

Definition r_NewView (msg : SyncInfo) r : list (ID * WireMsg) :=
  match cr_node r with
  | None => []
  | Some n => [(n, WNewView (SyncInfoToProto msg))]
  end.

Definition multicast (m : WireMsg) cfg : list (ID * WireMsg) := (λ n, (n, m)) <$> default [] (cfg_nodes cfg).
Definition cfg_Propose (proposal : ProposeMsg) cfg : list (ID * WireMsg) :=
  multicast (WPropose (ProposalToProto proposal)) cfg.
Definition cfg_Timeout (msg : TimeoutMsg) cfg : list (ID * WireMsg) :=
  multicast (WTimeout (TimeoutMsgToProto msg)) cfg.
End Config.

(** ** Decimal numbers round trip *)
Lemma digits_value_app ds c : digits_value (ds ++ [c]) = 10 * digits_value ds + (c - 48).
Proof. unfold digits_value. by rewrite foldl_app. Qed.

Lemma digits_fuel_spec f z acc :
  0 ≤ z < 10 ^ Z.of_nat (S f) →
  ∃ ds, digits_fuel (S f) z acc = ds ++ acc ∧ ds ≠ [] ∧ forallb is_digit ds = true ∧ digits_value ds = z.
Proof.
  revert z acc. induction f as [|f IH]; intros z acc Hz.
  - exists [48 + z mod 10]. change (10 ^ Z.of_nat 1) with 10 in Hz. cbn -[Z.modulo].
    rewrite decide_True by lia. rewrite Z.mod_small by lia.
    split; [done|]. split; [done|]. unfold is_digit, digits_value. cbn. rewrite bool_decide_true by lia.
    split; [done|lia].
  - assert (0 ≤ z mod 10 < 10) by (apply Z.mod_pos_bound; lia).
    change (digits_fuel (S (S f)) z acc) with
      (let acc := (48 + z mod 10) :: acc in if decide (z < 10) then acc else digits_fuel (S f) (z / 10) acc).
    cbv zeta. case_decide as Hlt.
    + exists [48 + z mod 10]. rewrite Z.mod_small in * by lia. split; [done|]. split; [done|].
      unfold is_digit, digits_value. cbn. rewrite bool_decide_true by lia. split; [done|lia].
    + destruct (IH (z / 10) ((48 + z mod 10) :: acc)) as (ds & Hds & Hne & Hdig & Hv).
      { rewrite Nat2Z.inj_succ, Z.pow_succ_r in Hz by lia. split; [apply Z.div_pos; lia|].
        apply Z.div_lt_upper_bound; lia. }
      exists (ds ++ [48 + z mod 10]). rewrite Hds, <-app_assoc. split; [done|].
      split; [by destruct ds|]. rewrite forallb_app, Hdig, digits_value_app, Hv. cbn [forallb andb].
      unfold is_digit. rewrite bool_decide_true by lia. split; [done|].
      pose proof (Z.div_mod z 10). lia.
Qed.

Lemma Atoi_decimal z : is_u32 z → Atoi (decimal z) = Some z.
Proof.
  intros [H1 H2]. destruct (digits_fuel_spec 9 z []) as (ds & Hds & Hne & Hdig & Hv).
  { split; [done|]. unfold two32 in H2. change (10 ^ Z.of_nat 10) with 10000000000. lia. }
  unfold decimal. change (digits_fuel 10 z []) with (digits_fuel (S 9) z []). rewrite Hds, app_nil_r.
  unfold Atoi. destruct ds as [|c ds]; [done|].
  assert (48 ≤ c ≤ 57) by (cbn in Hdig; apply andb_prop in Hdig as [Hc _]; by apply bool_decide_eq_true in Hc).
  rewrite !decide_False by lia. rewrite decide_True by done. rewrite Hdig, Hv. cbn.
  unfold two32 in H2. rewrite bool_decide_true by lia. done.
Qed.

Lemma u32_id z : is_u32 z → u32 z = z.
Proof. intros [? ?]. unfold u32. by apply Z.mod_small. Qed.

(** ** Who sent a message *)

(** [ctx] is a connection replica [i] opened: with its TLS certificate, or with
    the metadata of [Connect] when TLS is off. *)
Definition opened_by (replicas : list ID) (ctx : Ctx) (i : ID) : Prop :=
  (∃ names, ctx_peer ctx = Some (TLSInfo (decimal i :: names)) ∧ i ∈ replicas) ∨
  (∃ md, ctx_peer ctx = Some NoTLS ∧ ctx_metadata ctx = Some md ∧ md !! str "id" = Some [decimal i]).

Lemma GetPeerID_opened replicas ctx i :
  is_u32 i → opened_by replicas ctx i → GetPeerIDFromContext ctx replicas = inr i.
Proof.
  intros Hi [(names & Hp & Hin)|(md & Hp & Hm & Hid)]; unfold GetPeerIDFromContext; rewrite Hp.
  - assert (Hall : ∀ r, subject_matches (decimal i) r = true ↔ r = i).
    { intros r. unfold subject_matches. rewrite Atoi_decimal, u32_id by done. rewrite bool_decide_eq_true. naive_solver. }
    destruct (filter _ replicas) as [|r l] eqn:Hf.
    + exfalso. assert (i ∈ @nil ID) as Hnil; [|by apply not_elem_of_nil in Hnil].
      rewrite <-Hf. apply list_elem_of_filter. split; [by apply Hall|done].
    + assert (r ∈ filter (λ r, subject_matches (decimal i) r = true) replicas) as Hr by (rewrite Hf; left).
      apply list_elem_of_filter in Hr as [Hr%Hall _]. by subst.
  - rewrite Hm, Hid, Atoi_decimal, u32_id by done. done.
Qed.

(** Over TLS the sender is always a member of the configuration. *)
Lemma GetPeerID_TLS replicas ctx names i :
  ctx_peer ctx = Some (TLSInfo names) → GetPeerIDFromContext ctx replicas = inr i →
  i ∈ replicas ∧ ∃ cn rest n, names = cn :: rest ∧ Atoi cn = Some n ∧ u32 n = i.
Proof.
  unfold GetPeerIDFromContext. intros -> Hi. destruct names as [|cn rest]; [done|].
  destruct (filter _ replicas) as [|r l] eqn:Hf; [done|]. injection Hi as ->.
  assert (i ∈ filter (λ r, subject_matches cn r = true) replicas) as Hr by (rewrite Hf; left).
  apply list_elem_of_filter in Hr as [Hr Hin]. split; [done|]. unfold subject_matches in Hr.
  destruct (Atoi cn) as [n|] eqn:Hn; [|done]. apply bool_decide_eq_true in Hr. eauto 6.
Qed.

(** ** From the sender's message to the receiver's event *)
Section delivery.
Context `{SHA : Sha256}.
Context (FromCompressed_ok : bytes → bool).

(** A proposal that replica [i] made and sent arrives as the same event, block hash
    and certificates included.  In general, the sender the server records and the
    proposer in the block are the identified peer, whatever the message claims, and
    over TLS that peer is a member of the configuration. *)
Theorem proposal_delivered replicas ctx i :
  is_u32 i → opened_by replicas ctx i →
  (∀ p, pm_ID p = i → b_proposer (pm_Block p) = i → block_ok FromCompressed_ok (pm_Block p) →
     (∀ agg, pm_AggregateQC p = Some agg → agg_ok FromCompressed_ok agg) →
     srv_Propose FromCompressed_ok replicas ctx (ProposalToProto p) = Ok (Some (EPropose p))) ∧
  (∀ w p, srv_Propose FromCompressed_ok replicas ctx w = Ok (Some (EPropose p)) →
     pm_ID p = i ∧ b_proposer (pm_Block p) = i ∧
     (∀ names, ctx_peer ctx = Some (TLSInfo names) → i ∈ replicas)).
Proof.
  intros Hi Hctx. pose proof (GetPeerID_opened _ _ _ Hi Hctx) as Hid. unfold srv_Propose. rewrite Hid. split.
  - intros p Hp Hb Hok Hagg. cbn [ProposalToProto pbp_Block pbp_AggQC]. do 3 f_equal.
    assert (Hset : set_Proposer i (BlockToProto (pm_Block p)) = BlockToProto (pm_Block p)).
    { unfold set_Proposer, BlockToProto. cbn. by rewrite u32_id, Hb. }
    rewrite Hset, <-Hp. by apply proposal_roundtrip_eq.
  - intros w p Hw. destruct (pbp_Block w) as [b|]; [|done]. injection Hw as <-. cbn. rewrite u32_id by done.
    split; [done|]. split; [done|]. intros names Hn. by apply (GetPeerID_TLS _ _ _ _ Hn Hid).
Qed.

(** ** Fetching a block *)
Lemma FetchQF_Some h replies b :
  FetchQF FromCompressed_ok h replies = Some b →
  b ∈ replies.*2 ∧ b_hash (BlockFromProto FromCompressed_ok b) = hash_of h.
Proof.
  induction replies as [|[j c] rest IH]; cbn; [done|]. case_decide as Hh.
  - intros [= <-]. split; [left|done].
  - intros [Hb ?]%IH. split; [by right|done].
Qed.

Lemma FetchQF_finds h replies b :
  b ∈ replies.*2 → b_hash (BlockFromProto FromCompressed_ok b) = hash_of h →
  is_Some (FetchQF FromCompressed_ok h replies).
Proof.
  induction replies as [|[j c] rest IH]; cbn; intros Hb Hh; [by apply not_elem_of_nil in Hb|].
  case_decide as Hc; [eauto|]. apply elem_of_cons in Hb as [->|Hb]; [congruence|auto].
Qed.

(** What gorums promises of a quorum call in which [replies] arrive: it returns what
    the quorum function made of some of them, and fails only when the quorum
    function refused all of them together. *)
Record QuorumCall_ok (replies : list (ID * PbBlock))
    (call : (list (ID * PbBlock) → option PbBlock) → option PbBlock) : Prop := {
  call_sound : ∀ qf r, call qf = Some r → ∃ some, some ⊆ replies ∧ qf some = Some r;
  call_complete : ∀ qf, call qf = None → ∃ order, order ≡ₚ replies ∧ qf order = None;
}.

(** [Fetch] is correct, whatever the other replicas answer and in whatever order.
    A block it returns has the requested hash, recomputed from the block's content.
    When one of the answers is that of a replica that runs [srv_Fetch] on a store
    holding the block, a block is returned, and it is that one when no other block
    has its hash. *)
Theorem fetch_correct h replies call :
  length h = 32%nat → QuorumCall_ok replies call →
  (∀ b, cfg_Fetch FromCompressed_ok call h = Some b → b_hash b = h ∧ Block_hashed b) ∧
  (∀ j chain b, LocalGet h chain = Some b → b_hash b = h → block_ok FromCompressed_ok b →
     (∃ w, srv_Fetch h chain = Some w ∧ (j, w) ∈ replies) →
     ∃ b', cfg_Fetch FromCompressed_ok call h = Some b' ∧
           ((∀ x, Block_hashed x → b_hash x = h → x = b) → b' = b)).
Proof.
  intros Hh [Hs Hc]. assert (Hof : hash_of h = h) by (by apply copy_array_id).
  assert (Hsound : ∀ b, cfg_Fetch FromCompressed_ok call h = Some b → b_hash b = h ∧ Block_hashed b).
  { unfold cfg_Fetch. intros b (w & Hw & ->)%fmap_Some. destruct (Hs _ _ Hw) as (some & _ & Hq).
    apply FetchQF_Some in Hq as [_ Hq]. rewrite Hof in Hq. by split. }
  split; [done|]. intros j chain b Hb Hbh Hok (w & Hw & Hin).
  unfold srv_Fetch in Hw. rewrite Hof, Hb in Hw. injection Hw as <-.
  assert (is_Some (cfg_Fetch FromCompressed_ok call h)) as [b' Hb'].
  { unfold cfg_Fetch. destruct (call _) as [r|] eqn:Hr; [by eexists|]. exfalso.
    destruct (Hc _ Hr) as (order & Hperm & Hq).
    destruct (FetchQF_finds h order (BlockToProto b)) as [x Hx]; [| |congruence].
    - apply list_elem_of_fmap. exists (j, BlockToProto b). split; [done|]. by rewrite Hperm.
    - rewrite block_roundtrip by done. by rewrite Hof. }
  destruct (Hsound _ Hb') as [Hh' Hhashed]. exists b'. eauto.
Qed.
End delivery.

(** ** Connections *)
Lemma Cut_prefix sep k : Cut (sep ++ k) sep = Some k.
Proof. destruct sep as [|c sep], k as [|d k]; cbn; rewrite decide_True; rewrite ?take_app_length, ?drop_app_length, ?app_nil_r, ?firstn_all, ?drop_all; done. Qed.

Lemma readMetadata_spec order acc m :
  (∀ k vs key, (k, vs) ∈ order → Cut k keyPrefix = Some key → ∃ v, vs = [v] ∧ m !! key = Some v) →
  (∀ key v, m !! key = Some v → acc !! key = Some v ∨ ∃ k, (k, [v]) ∈ order ∧ Cut k keyPrefix = Some key) →
  acc ⊆ m → readMetadata order acc = Ok m.
Proof.
  revert acc. induction order as [|[k vs] rest IH]; intros acc Hval Hall Hsub; cbn [readMetadata].
  - f_equal. apply (map_subseteq_po.(partial_order_anti_symm)); [done|].
    apply map_subseteq_spec. intros key v [?|(k & Hk & _)]%Hall; [done|by apply not_elem_of_nil in Hk].
  - destruct (Cut k keyPrefix) as [key|] eqn:Hcut.
    + destruct (Hval k vs key) as (v & -> & Hv); [left|done|]. apply IH.
      * intros k' vs' key' Hin. apply Hval. by right.
      * intros key' v' Hm. destruct (decide (key = key')) as [<-|Hne].
        { left. rewrite lookup_insert_eq. congruence. }
        rewrite lookup_insert_ne by done. destruct (Hall _ _ Hm) as [?|(k' & [[= -> ->]|Hin]%elem_of_cons & Hc)]; [by left|congruence|].
        right. eauto.
      * apply insert_subseteq_l; done.
    + apply IH; [|  |done].
      * intros k' vs' key' Hin. apply Hval. by right.
      * intros key' v' Hm. destruct (Hall _ _ Hm) as [?|(k' & [[= -> ->]|Hin]%elem_of_cons & Hc)]; [by left|congruence|].
        right. eauto.
Qed.

Lemma mapToMetadata_elem lower order k vs :
  mapToMetadata lower order !! k = Some vs → ∃ kv, kv ∈ order ∧ k = lower (keyPrefix ++ kv.1) ∧ vs = [kv.2].
Proof.
  unfold mapToMetadata. induction order as [|kv order IH] using rev_ind; [done|].
  rewrite foldl_snoc. intros [[<- <-]|[Hne Hk]]%lookup_insert_Some.
  - exists kv. set_solver.
  - destruct (IH Hk) as (kv' & ? & ? & ?). exists kv'. set_solver.
Qed.

Lemma mapToMetadata_lookup lower order kv :
  NoDup order.*1 → (∀ kv, kv ∈ order → lower (keyPrefix ++ kv.1) = keyPrefix ++ kv.1) → kv ∈ order →
  mapToMetadata lower order !! (keyPrefix ++ kv.1) = Some [kv.2].
Proof.
  unfold mapToMetadata. induction order as [|kv' order IH] using rev_ind; intros Hnd Hlow Hin.
  { by apply not_elem_of_nil in Hin. }
  rewrite foldl_snoc. rewrite fmap_app, NoDup_app in Hnd. destruct Hnd as (Hnd & Hdis & _).
  rewrite (Hlow kv') by set_solver. apply elem_of_app in Hin as [Hin|Hin%list_elem_of_singleton].
  - rewrite lookup_insert_ne.
    + apply IH; [done|set_solver|done].
    + intros ?%app_inv_head. apply (Hdis kv.1); [by apply list_elem_of_fmap_2|]. cbn. set_solver.
  - subst. apply lookup_insert_eq.
Qed.

(** The metadata a server sees on a connection that replica [self] opened with the
    options [m]: what [Connect] attached, and headers of gRPC's own. *)
Definition received_metadata (lower : bytes → bytes) (self : ID) (m : gmap bytes bytes) (md : MD) : Prop :=
  ∃ order, order ≡ₚ map_to_list m ∧ own_metadata lower self order ⊆ md ∧
    ∀ k, is_Some (md !! k) → own_metadata lower self order !! k = None → Cut k keyPrefix = None.

(** Connection metadata round trip.  When gRPC leaves lower-case keys as they are and
    adds no header with the prefix of the program, a server reads back exactly the
    metadata the connecting replica was configured with, in any iteration order, and,
    without TLS, takes the connection to be that replica's. *)
Theorem connection_metadata_roundtrip lower self m md :
  is_u32 self → lower (str "id") = str "id" →
  (∀ k, is_Some (m !! k) → lower (keyPrefix ++ k) = keyPrefix ++ k) →
  received_metadata lower self m md →
  (∀ order, order ≡ₚ map_to_list md → readMetadata order ∅ = Ok m) ∧
  (∀ replicas, GetPeerIDFromContext (mkCtx (Some NoTLS) (Some md)) replicas = inr self).
Proof.
  intros Hself Hid Hlow (ord & Hperm & Hown & Hextra).
  assert (Hnd : NoDup ord.*1) by (rewrite Hperm; apply NoDup_fst_map_to_list).
  assert (Hin : ∀ kv, kv ∈ ord ↔ m !! kv.1 = Some kv.2).
  { intros [k v]. rewrite Hperm. apply elem_of_map_to_list. }
  assert (Hlow' : ∀ kv, kv ∈ ord → lower (keyPrefix ++ kv.1) = keyPrefix ++ kv.1).
  { intros kv ?%Hin. by apply Hlow. }
  assert (Hne : ∀ k, str "id" ≠ keyPrefix ++ k) by (intros k; vm_compute; congruence).
  split.
  - intros order Ho. apply readMetadata_spec; [| |apply map_empty_subseteq].
    + intros k vs key Hk Hcut. rewrite Ho, elem_of_map_to_list in Hk.
      destruct (own_metadata lower self ord !! k) as [vs'|] eqn:Ek.
      2: { rewrite (Hextra k) in Hcut by eauto. done. }
      pose proof (lookup_weaken _ _ _ _ Ek Hown) as Hk'. rewrite Hk in Hk'. injection Hk' as <-.
      unfold own_metadata in Ek. rewrite Hid in Ek. apply lookup_insert_Some in Ek as [[<- _]|[_ Ek]].
      { vm_compute in Hcut. done. }
      apply mapToMetadata_elem in Ek as (kv & Hkv & -> & ->). rewrite Hlow', Cut_prefix in Hcut by done.
      injection Hcut as <-. exists kv.2. split; [done|]. by apply Hin.
    + intros key v Hm. right. exists (keyPrefix ++ key). rewrite Cut_prefix. split; [|done].
      rewrite Ho, elem_of_map_to_list. eapply lookup_weaken; [|exact Hown].
      unfold own_metadata. rewrite Hid, lookup_insert_ne by apply Hne.
      apply (mapToMetadata_lookup lower ord (key, v)); [done|done|]. by apply Hin.
  - intros replicas. apply GetPeerID_opened; [done|]. right. exists md. do 2 (split; [done|]).
    eapply lookup_weaken; [|exact Hown]. unfold own_metadata. rewrite Hid. apply lookup_insert_eq.
Qed.

Section Connect.
Context {K : Type}.
Implicit Types (infos : list (ReplicaInfo K)) (m : gmap ID (CfgReplica K)).

Lemma init_replicas_lookup infos m j :
  j ∈ ri_ID <$> infos → ∃ info, info ∈ infos ∧ ri_ID info = j ∧
    foldl init_replica m infos !! j = Some (mkCfgReplica j (ri_PubKey info) None ∅).
Proof.
  induction infos as [|info infos IH] using rev_ind; intros Hj; [by apply not_elem_of_nil in Hj|].
  rewrite foldl_snoc. unfold init_replica at 1. destruct (decide (ri_ID info = j)) as [<-|Hne].
  - exists info. rewrite lookup_insert_eq. set_solver.
  - rewrite lookup_insert_ne by done. destruct IH as (i & Hi & Hij & Hl); [set_solver|]. exists i. set_solver.
Qed.

Lemma init_replicas_notin infos m j : j ∉ ri_ID <$> infos → foldl init_replica m infos !! j = m !! j.
Proof.
  induction infos as [|info infos IH] using rev_ind; intros Hj; [done|].
  rewrite foldl_snoc. unfold init_replica at 1. rewrite lookup_insert_ne by set_solver. apply IH. set_solver.
Qed.

Lemma mapping_range self infos j :
  NoDup (ri_Address <$> infos) → Forall (λ info, is_u32 (ri_ID info)) infos →
  (∃ a, foldl (add_mapping self) ∅ infos !! a = Some j) ↔ j ≠ self ∧ j ∈ ri_ID <$> infos.
Proof.
  intros Hnd Hu.
  assert (Hl : ∀ a, foldl (add_mapping self) ∅ infos !! a = Some j ↔
    ∃ info, info ∈ infos ∧ ri_Address info = a ∧ ri_ID info = j ∧ j ≠ self); [|split].
  - intros a. revert Hnd Hu. induction infos as [|info infos IH] using rev_ind; intros Hnd Hu.
    { cbn. split; [done|]. intros (? & H & _). by apply not_elem_of_nil in H. }
    rewrite foldl_snoc. unfold add_mapping at 1. apply Forall_app in Hu as [Hu [Hi _]%Forall_cons].
    rewrite fmap_app in Hnd. apply NoDup_app in Hnd as (Hnd & Hdis & _). specialize (IH Hnd Hu).
    assert (Hnew : ri_Address info ∉ ri_Address <$> infos) by (intros ?; eapply Hdis; [done|]; cbn; set_solver).
    case_decide as Hself.
    + rewrite lookup_insert_Some, IH, (u32_id _ Hi). split.
      * intros [[<- <-]|[Hne (i & ? & ? & ?)]]; [exists info|exists i]; set_solver.
      * intros (i & [Hin| ->%list_elem_of_singleton]%elem_of_app & Ha & Hj & Hs); [right|left; done].
        split; [|eauto]. intros Heq. apply Hnew. rewrite Heq, <-Ha. by apply list_elem_of_fmap_2.
    + rewrite IH. split; intros (i & Hin & ? & ? & ?); exists i; [set_solver|].
      apply elem_of_app in Hin as [?| ->%list_elem_of_singleton]; [done|]. by assert (j = self) by congruence.
  - intros (a & (info & ? & ? & <- & ?)%Hl). split; [done|]. by apply list_elem_of_fmap_2.
  - intros (Hs & (info & -> & Hin)%list_elem_of_fmap). exists (ri_Address info). apply Hl. eauto.
Qed.

Lemma set_nodes_spec nodes m :
  (∀ j, j ∈ nodes → is_Some (m !! j)) →
  ∃ m', set_nodes nodes m = Ok m' ∧ dom m' = dom m ∧
    ∀ j r, m !! j = Some r → m' !! j = Some (if decide (j ∈ nodes) then set_node r j else r).
Proof.
  revert m. induction nodes as [|i nodes IH]; intros m Hin; cbn [set_nodes].
  - exists m. split; [done|]. split; [done|]. intros j r Hj. rewrite decide_False by apply not_elem_of_nil. done.
  - destruct (Hin i) as [r Hr]; [left|]. rewrite Hr. destruct (IH (<[i:=set_node r i]> m)) as (m' & Hm' & Hdom & Hl).
    { intros j Hj. destruct (decide (i = j)) as [<-|]; [by rewrite lookup_insert_eq|].
      rewrite lookup_insert_ne by done. apply Hin. by right. }
    exists m'. split; [done|]. split.
    { rewrite Hdom, dom_insert_L. apply elem_of_dom_2 in Hr. set_solver. }
    intros j r' Hj. destruct (decide (i = j)) as [<-|Hne].
    + rewrite (Hl i (set_node r i)) by apply lookup_insert_eq. rewrite (decide_True (P := i ∈ i :: nodes)) by left.
      assert (r' = r) as -> by congruence. by case_decide.
    + rewrite (Hl j r') by (by rewrite lookup_insert_ne).
      destruct (decide (j ∈ nodes)); destruct (decide (j ∈ i :: nodes)); set_solver.
Qed.

(** [Connect] builds the configuration the protocol relies on.  For replicas with
    distinct addresses, when gorums connects to the nodes of the address map, no lookup
    fails; the configuration has exactly the given replicas (so its quorum size is that
    of their number); every replica but the local one has its own node, so that votes
    and new-view messages go to the replica they are meant for; and a broadcast goes
    to every other replica and only to them. *)
Theorem Connect_correct NewConfiguration self infos nodes :
  NoDup (ri_ID <$> infos) → NoDup (ri_Address <$> infos) → Forall (λ info, is_u32 (ri_ID info)) infos →
  NewConfiguration (foldl (add_mapping self) ∅ infos) = Some nodes →
  (∀ j, j ∈ nodes ↔ ∃ a, foldl (add_mapping self) ∅ infos !! a = Some j) →
  ∃ cfg, Connect NewConfiguration self infos NewConfig = Ok (true, cfg) ∧
    (∀ j, is_Some (cfg_replicas cfg !! j) ↔ j ∈ ri_ID <$> infos) ∧
    cfg_QuorumSize cfg = QuorumSize (Z.of_nat (length infos)) ∧
    (∀ j r, cfg_replicas cfg !! j = Some r →
       (∀ cert, r_Vote cert r = if decide (j = self) then [] else [(j, WVote (PartialCertToProto cert))]) ∧
       (∀ si, r_NewView si r = if decide (j = self) then [] else [(j, WNewView (SyncInfoToProto si))])) ∧
    (∀ p j w, (j, w) ∈ cfg_Propose p cfg ↔
       w = WPropose (ProposalToProto p) ∧ j ≠ self ∧ j ∈ ri_ID <$> infos).
Proof.
  intros Hid Haddr Hu Hnew Hnodes.
  assert (Hn : ∀ j, j ∈ nodes ↔ j ≠ self ∧ j ∈ ri_ID <$> infos) by (intros j; rewrite Hnodes; by apply mapping_range).
  set (m0 := foldl init_replica (∅ : gmap ID (CfgReplica K)) infos).
  assert (Hdom0 : ∀ j, is_Some (m0 !! j) ↔ j ∈ ri_ID <$> infos).
  { intros j. split.
    - intros Hs. destruct (decide (j ∈ ri_ID <$> infos)) as [?|Hj]; [done|].
      unfold m0 in Hs. rewrite init_replicas_notin in Hs by done. by destruct Hs.
    - intros Hj. destruct (init_replicas_lookup infos ∅ j Hj) as (? & _ & _ & Hl). unfold m0. rewrite Hl. eauto. }
  destruct (set_nodes_spec nodes m0) as (m & Hm & Hdom & Hl).
  { intros j Hj. apply Hdom0. by apply Hn. }
  assert (Hdom' : ∀ j, is_Some (m !! j) ↔ j ∈ ri_ID <$> infos).
  { intros j. rewrite <-elem_of_dom, Hdom, elem_of_dom. apply Hdom0. }
  exists (mkConfig true (Some nodes) m). unfold Connect. rewrite Hnew. cbn [NewConfig cfg_replicas].
  fold m0. rewrite Hm. cbn [outcome_bind]. split; [done|]. split; [done|]. split; [|split].
  - unfold cfg_QuorumSize, cfg_Len. cbn [cfg_replicas]. do 2 f_equal. rewrite <-size_dom.
    rewrite <-(length_fmap ri_ID infos), <-(size_list_to_set (C := gset ID)) by done. f_equal.
    apply set_eq. intros j. by rewrite elem_of_dom, Hdom', elem_of_list_to_set.
  - intros j r Hr. cbn [cfg_replicas] in Hr.
    destruct (init_replicas_lookup infos ∅ j) as (info & _ & _ & Hl0); [by apply Hdom'|].
    fold m0 in Hl0. rewrite (Hl _ _ Hl0) in Hr. injection Hr as <-. unfold r_Vote, r_NewView.
    assert (Hj : j ∈ ri_ID <$> infos) by (apply Hdom0; eauto).
    destruct (decide (j ∈ nodes)) as [Hin|Hout]; rewrite Hn in *; destruct (decide (j = self)); cbn; naive_solver.
  - intros p j w. unfold cfg_Propose, multicast. cbn [cfg_nodes default]. rewrite list_elem_of_fmap. split.
    + intros (n & [= -> ->] & ?%Hn). done.
    + intros (-> & Hj). exists j. rewrite Hn. done.
Qed.
End Connect.

(** ** Samples: four replicas on four addresses *)
Definition sample_infos : list (ReplicaInfo Z) := (λ i, mkReplicaInfo i [65 + i] i) <$> [1; 2; 3; 4].
Definition sample_manager (m : gmap bytes ID) : option (list ID) := Some (map_to_list m).*2.
Definition sample_ctx (i : ID) : Ctx := mkCtx (Some (TLSInfo [decimal i])) None.

Lemma proposal_delivered_witness :
  srv_Propose (SHA := sample_sha256) (λ _, true) [1; 2; 3; 4] (sample_ctx 3) (ProposalToProto (mkProposeMsg 3 sample_b2 None))
    = Ok (Some (EPropose (mkProposeMsg 3 sample_b2 None))).
Proof.
  refine (proj1 (proposal_delivered (SHA := sample_sha256) (λ _, true) [1; 2; 3; 4] (sample_ctx 3) 3 _ _)
    (mkProposeMsg 3 sample_b2 None) _ _ _ _).
  - by vm_compute.
  - left. exists []. split; [done|]. apply (bool_decide_unpack _). by vm_compute.
  - done.
  - done.
  - split; [reflexivity|vm_compute; reflexivity|apply sample_cert_ok].
  - discriminate.
Defined.

Lemma fetch_correct_witness :
  ∃ b', cfg_Fetch (SHA := sample_sha256) (λ _, true) (λ qf, qf [(2, BlockToProto sample_b2)]) (b_hash sample_b2) = Some b' ∧
    ((∀ x, Block_hashed (H := sample_sha256) x → b_hash x = b_hash sample_b2 → x = sample_b2) → b' = sample_b2).
Proof.
  refine (proj2 (fetch_correct (SHA := sample_sha256) (λ _, true) (b_hash sample_b2) [(2, BlockToProto sample_b2)]
    (λ qf, qf [(2, BlockToProto sample_b2)]) _ _) 2 (store_all sample_chain) sample_b2 _ _ _ _).
  - vm_compute. reflexivity.
  - split; [intros qf r Hr; eexists; split; [reflexivity|done]|intros qf Hq; eexists; split; [reflexivity|done]].
  - vm_compute. reflexivity.
  - reflexivity.
  - split; [reflexivity|vm_compute; reflexivity|apply sample_cert_ok].
  - eexists. split; [vm_compute; reflexivity|]. left.
Defined.

Lemma connection_metadata_roundtrip_witness :
  readMetadata [(str "id", [decimal 7]); (keyPrefix ++ [97], [[98]])] ∅ = Ok {[ [97] := [98] ]}.
Proof.
  refine (proj1 (connection_metadata_roundtrip (λ k, k) 7 {[ [97] := [98] ]}
    (<[ str "id" := [decimal 7] ]> {[ keyPrefix ++ [97] := [[98]] ]}) _ _ _ _) _ _).
  - by vm_compute.
  - done.
  - done.
  - exists [([97], [98])]. rewrite map_to_list_singleton. split; [done|]. split.
    + reflexivity.
    + intros k [vs Hk] Hnone. unfold own_metadata in Hnone.
      change (mapToMetadata (λ k, k) [([97], [98])]) with (<[keyPrefix ++ [97] := [[98]]]> (∅ : MD)) in Hnone.
      unfold singletonM, map_singleton in Hk. congruence.
  - rewrite map_to_list_insert, map_to_list_singleton; [done|]. by rewrite lookup_singleton_ne.
Defined.

Lemma Connect_correct_witness :
  ∃ cfg, Connect sample_manager 2 sample_infos NewConfig = Ok (true, cfg) ∧ cfg_QuorumSize cfg = 3.
Proof.
  destruct (Connect_correct sample_manager 2 sample_infos
    (map_to_list (foldl (add_mapping 2) ∅ sample_infos)).*2) as (cfg & Hc & _ & Hq & _).
  - apply (bool_decide_unpack _). by vm_compute.
  - apply (bool_decide_unpack _). by vm_compute.
  - apply (bool_decide_unpack _). by vm_compute.
  - reflexivity.
  - intros j. rewrite list_elem_of_fmap. split.
    + intros ([a i] & -> & Ha). exists a. by apply elem_of_map_to_list in Ha.
    + intros (a & Ha). exists (a, j). split; [done|]. by apply elem_of_map_to_list.
  - exists cfg. split; [exact Hc|exact Hq].
Defined.
