(* ===== verification/Partition.v ===== *)
(** How Handel divides the replicas into levels
    (src/sourcecodes/hotstuff/handel/partitioner.go): level [l] of a replica is
    the half of a subtree of the (shuffled) list of IDs that does not contain the
    replica, the highest level the biggest half. *)

From S2P Require Import Prelude IDSet.

Record partitioner := mkPartitioner { ids : list ID; selfIndex : Z }.

(** The first index of [selfID], 0 when it is not there. *)
Definition newPartitioner (selfID : ID) (allIDs : list ID) : partitioner :=
  mkPartitioner allIDs
    (match list_find (λ v, selfID = v) allIDs with
     | Some (i, _) => Z.of_nat i
     | None => 0
     end).

(** [int(math.Ceil(math.Log2(float64(n))))] for [n] from 1. *)
Definition ceil_log2 (n : Z) : Z := Z.log2_up n.

(** The loop of [rangeLevel]; [n] is [curLevel - level]. *)
Fixpoint range_loop (self : Z) (n : nat) (min max : Z) : Z * Z :=
  let mid := Z.quot (min + max) 2 in
  match n with
  | O => if decide (mid < self) then (min, mid) else (mid + 1, max)
  | S n' => if decide (mid < self) then range_loop self n' (mid + 1) max else range_loop self n' min mid
  end.

Definition rangeLevel (p : partitioner) (level : Z) : outcome (Z * Z) :=
  let maxLevel := ceil_log2 (Z.of_nat (length (ids p))) in
  if decide (level < 0 ∨ maxLevel < level) then Panic
  else Ok (range_loop (selfIndex p) (Z.to_nat (maxLevel - level)) 0 (Z.of_nat (length (ids p)) - 1)).

(** [ids[min : max+1]] *)
Definition partition (p : partitioner) (level : Z) : outcome (list ID) :=
  outcome_bind (rangeLevel p level) (λ '(min, max),
    if decide (0 ≤ min ≤ max + 1 ∧ max + 1 ≤ Z.of_nat (length (ids p)))
    then Ok (take (Z.to_nat (max + 1 - min)) (drop (Z.to_nat min) (ids p)))
    else Panic).

Definition part_size (p : partitioner) (level : Z) : outcome Z :=
  outcome_bind (rangeLevel p level) (λ '(min, max), Ok ((max - min) + 1)).

(** ** The ranges of the levels *)
Definition in_range (r : Z * Z) (j : Z) : Prop := r.1 ≤ j ≤ r.2.
#[export] Instance in_range_dec r j : Decision (in_range r j).
Proof. unfold in_range. apply _. Defined.

Lemma quot_mid min max : 0 ≤ min ≤ max → min ≤ Z.quot (min + max) 2 ≤ max.
Proof. intros. rewrite Z.quot_div_nonneg by lia. split; [apply Z.div_le_lower_bound|apply Z.div_le_upper_bound]; lia. Qed.

Lemma quot_mid_lt min max : 0 ≤ min < max → Z.quot (min + max) 2 < max.
Proof. intros. rewrite Z.quot_div_nonneg by lia. apply Z.div_lt_upper_bound; lia. Qed.

Lemma range_loop_bounds self n min max :
  0 ≤ min ≤ max → min ≤ self ≤ max →
  min ≤ (range_loop self n min max).1 ∧ (range_loop self n min max).2 ≤ max ∧
  (range_loop self n min max).1 ≤ (range_loop self n min max).2 + 1.
Proof.
  revert min max. induction n as [|n IH]; intros min max Hm Hs; cbn [range_loop];
    pose proof (quot_mid min max Hm); case_decide; cbn; try lia.
  - destruct (IH (Z.quot (min + max) 2 + 1) max) as (? & ? & ?); lia.
  - destruct (IH min (Z.quot (min + max) 2)) as (? & ? & ?); lia.
Qed.

Lemma range_loop_not_self self n min max :
  0 ≤ min ≤ max → min ≤ self ≤ max → ¬ in_range (range_loop self n min max) self.
Proof.
  unfold in_range. revert min max. induction n as [|n IH]; intros min max Hm Hs; cbn [range_loop];
    pose proof (quot_mid min max Hm); case_decide; cbn; try lia; apply IH; lia.
Qed.

(** [N] levels cover a range of at most [2 ^ N] replicas, each other replica once. *)
Lemma range_loop_unique self N min max j :
  0 ≤ min ≤ max → min ≤ self ≤ max → max - min < 2 ^ Z.of_nat N → min ≤ j ≤ max → j ≠ self →
  ∃ n, (n < N)%nat ∧ in_range (range_loop self n min max) j ∧
    ∀ n', in_range (range_loop self n' min max) j → n' = n.
Proof.
  revert min max. induction N as [|N IH]; intros min max Hm Hs HN Hj Hne.
  { change (2 ^ Z.of_nat 0) with 1 in HN. lia. }
  pose proof (quot_mid min max Hm) as Hmid. set (mid := Z.quot (min + max) 2) in *.
  rewrite Nat2Z.inj_succ, Z.pow_succ_r in HN by lia.
  assert (Hhalf : max - (mid + 1) < 2 ^ Z.of_nat N ∧ mid - min < 2 ^ Z.of_nat N).
  { unfold mid. rewrite Z.quot_div_nonneg by lia. pose proof (Z.div_mod (min + max) 2).
    pose proof (Z.mod_pos_bound (min + max) 2). lia. }
  assert (Hout : ∀ n lo hi, 0 ≤ lo ≤ hi → lo ≤ self ≤ hi → in_range (range_loop self n lo hi) j → lo ≤ j ≤ hi).
  { intros n lo hi Hl Hh Hin. unfold in_range in Hin. pose proof (range_loop_bounds self n lo hi Hl Hh). lia. }
  destruct (decide (mid < self)) as [Hself|Hself], (decide (mid < j)) as [Hjm|Hjm].
  - destruct (IH (mid + 1) max) as (n & Hn & Hin & Huniq); [lia..|]. exists (S n). split; [lia|].
    cbn [range_loop]. fold mid. rewrite decide_True by lia. split; [done|]. intros [|n'].
    + cbn [range_loop]. fold mid. rewrite decide_True by lia. unfold in_range. cbn. lia.
    + cbn [range_loop]. fold mid. rewrite decide_True by lia. intros ?%Huniq. lia.
  - exists O. split; [lia|]. cbn [range_loop]. fold mid. rewrite decide_True by lia. split; [unfold in_range; cbn; lia|].
    intros [|n']; [done|]. cbn [range_loop]. fold mid. rewrite decide_True by lia. intros ?%Hout; lia.
  - exists O. split; [lia|]. cbn [range_loop]. fold mid. rewrite decide_False by lia. split; [unfold in_range; cbn; lia|].
    intros [|n']; [done|]. cbn [range_loop]. fold mid. rewrite decide_False by lia. intros ?%Hout; lia.
  - destruct (IH min mid) as (n & Hn & Hin & Huniq); [lia..|]. exists (S n). split; [lia|].
    cbn [range_loop]. fold mid. rewrite decide_False by lia. split; [done|]. intros [|n'].
    + cbn [range_loop]. fold mid. rewrite decide_False by lia. unfold in_range. cbn. lia.
    + cbn [range_loop]. fold mid. rewrite decide_False by lia. intros ?%Huniq. lia.
Qed.

(** Two replicas see each other at the same level. *)
Lemma range_loop_sym i j n min max :
  0 ≤ min ≤ max → min ≤ i ≤ max → min ≤ j ≤ max →
  in_range (range_loop i n min max) j → in_range (range_loop j n min max) i.
Proof.
  revert min max. induction n as [|n IH]; intros min max Hm Hi Hj; cbn [range_loop];
    pose proof (quot_mid min max Hm); unfold in_range; repeat case_decide; cbn; try lia.
  - apply IH; lia.
  - intros Hin. pose proof (range_loop_bounds i n (Z.quot (min + max) 2 + 1) max). lia.
  - intros Hin. pose proof (range_loop_bounds i n min (Z.quot (min + max) 2)). lia.
  - apply IH; lia.
Qed.

(** ** Partitions of IDs *)
Lemma newPartitioner_index selfID allIDs :
  selfID ∈ allIDs → allIDs !! Z.to_nat (selfIndex (newPartitioner selfID allIDs)) = Some selfID ∧
    0 ≤ selfIndex (newPartitioner selfID allIDs) ≤ Z.of_nat (length allIDs) - 1.
Proof.
  intros Hin. unfold newPartitioner. cbn. destruct (list_find _ _) as [[i x]|] eqn:Hf.
  - apply list_find_Some in Hf as (Hi & -> & _). rewrite Nat2Z.id. split; [done|].
    apply lookup_lt_Some in Hi. lia.
  - apply list_find_None in Hf. rewrite Forall_forall in Hf. by destruct (Hf selfID).
Qed.

Lemma elem_of_slice (l : list ID) min max x :
  0 ≤ min → x ∈ take (Z.to_nat (max + 1 - min)) (drop (Z.to_nat min) l) ↔
    ∃ i : nat, l !! i = Some x ∧ min ≤ Z.of_nat i ≤ max.
Proof.
  intros Hmin. rewrite list_elem_of_lookup. split.
  - intros [k Hk]. apply lookup_take_Some in Hk as [Hk Hlt]. rewrite lookup_drop in Hk. eexists. split; [done|]. lia.
  - intros (i & Hi & Hr). exists (i - Z.to_nat min)%nat. rewrite lookup_take_lt by lia. rewrite lookup_drop.
    by replace (Z.to_nat min + (i - Z.to_nat min))%nat with i by lia.
Qed.

Definition maxLevel (allIDs : list ID) : Z := ceil_log2 (Z.of_nat (length allIDs)).

(** [id] is in the partition of replica [self] at [level]. *)
Definition at_level (allIDs : list ID) (self : ID) (level : Z) (id : ID) : Prop :=
  ∃ l, partition (newPartitioner self allIDs) level = Ok l ∧ id ∈ l.

Section levels.
Context (allIDs : list ID) (Hnd : NoDup allIDs).
Local Abbreviation index_of self := (selfIndex (newPartitioner self allIDs)).
Local Abbreviation range self level :=
  (range_loop (index_of self) (Z.to_nat (maxLevel allIDs - level)) 0 (Z.of_nat (length allIDs) - 1)).

Lemma partition_spec self level :
  self ∈ allIDs → 0 ≤ level ≤ maxLevel allIDs →
  ∃ l, partition (newPartitioner self allIDs) level = Ok l ∧
    ∀ x, x ∈ l ↔ ∃ i : nat, allIDs !! i = Some x ∧ in_range (range self level) (Z.of_nat i).
Proof using Type.
  intros Hself Hlev. destruct (newPartitioner_index _ _ Hself) as [_ Hidx].
  unfold partition, rangeLevel. cbn [newPartitioner ids].
  change (ceil_log2 (Z.of_nat (length allIDs))) with (maxLevel allIDs).
  rewrite decide_False by lia. cbn [outcome_bind].
  change (selfIndex (mkPartitioner allIDs _)) with (index_of self).
  destruct (range_loop_bounds (index_of self) (Z.to_nat (maxLevel allIDs - level)) 0 (Z.of_nat (length allIDs) - 1)) as (H1 & H2 & H3); [lia..|].
  destruct (range self level) as [min max]. cbn in H1, H2, H3. rewrite decide_True by lia.
  eexists. split; [done|]. intros x. rewrite elem_of_slice by lia. done.
Qed.

Lemma at_level_iff self level id :
  self ∈ allIDs → 0 ≤ level ≤ maxLevel allIDs → id ∈ allIDs →
  at_level allIDs self level id ↔ in_range (range self level) (index_of id).
Proof using Hnd.
  intros Hself Hlev Hid. destruct (partition_spec self level Hself Hlev) as (l & Hl & Hin).
  destruct (newPartitioner_index _ _ Hid) as [Hlook Hidx]. unfold at_level. split.
  - intros (l' & Hl' & Hin'). rewrite Hl in Hl'. injection Hl' as <-. apply Hin in Hin' as (i & Hi & Hr).
    assert (i = Z.to_nat (index_of id)) as -> by (eapply NoDup_lookup; eauto). by rewrite Z2Nat.id in Hr by lia.
  - intros Hr. exists l. split; [done|]. apply Hin. exists (Z.to_nat (index_of id)). split; [done|].
    by rewrite Z2Nat.id by lia.
Qed.

Lemma levels_cover n : 1 ≤ n → n - 1 < 2 ^ ceil_log2 n.
Proof using Type. intros Hn. unfold ceil_log2. destruct (decide (n = 1)) as [->|]; [done|]. pose proof (Z.log2_log2_up_spec n). lia. Qed.
End levels.

(** The levels of Handel partition the replicas.  For any number of replicas, not only
    powers of two, [partition] is defined at every level and never contains the
    replica itself; every other replica is in the partition of exactly one of the
    levels 1 to [maxLevel]; and two replicas see each other at the same level, so that
    what one sends at a level the other expects at that level. *)
Theorem levels_partition (allIDs : list ID) (self : ID) :
  NoDup allIDs → self ∈ allIDs →
  (∀ level, 0 ≤ level ≤ maxLevel allIDs →
     ∃ l, partition (newPartitioner self allIDs) level = Ok l ∧ (self ∉ l) ∧ (l ⊆ allIDs)) ∧
  (∀ id, id ∈ allIDs → id ≠ self →
     ∃ level, 1 ≤ level ≤ maxLevel allIDs ∧ at_level allIDs self level id ∧
       ∀ level', 0 ≤ level' ≤ maxLevel allIDs → at_level allIDs self level' id → level' = level) ∧
  (∀ level id, 0 ≤ level ≤ maxLevel allIDs → id ∈ allIDs →
     at_level allIDs self level id → at_level allIDs id level self).
Proof.
  intros Hnd Hself. destruct (newPartitioner_index _ _ Hself) as [Hlook Hidx]. split; [|split].
  - intros level Hlev. destruct (partition_spec allIDs self level Hself Hlev) as (l & Hl & Hin).
    exists l. split; [done|]. split.
    + intros Hs. assert (at_level allIDs self level self) as Hat by (by exists l).
      apply at_level_iff in Hat; [|done..]. revert Hat. apply range_loop_not_self; lia.
    + intros x (i & Hi & _)%Hin. by eapply list_elem_of_lookup_2.
  - intros id Hid Hne. destruct (newPartitioner_index _ _ Hid) as [Hlook' Hidx'].
    destruct (range_loop_unique (selfIndex (newPartitioner self allIDs)) (Z.to_nat (maxLevel allIDs)) 0
      (Z.of_nat (length allIDs) - 1) (selfIndex (newPartitioner id allIDs))) as (n & Hn & Hin & Huniq); [lia|lia| |lia| |].
    + rewrite Z2Nat.id by apply Z.log2_up_nonneg. pose proof (levels_cover (Z.of_nat (length allIDs))). unfold maxLevel. lia.
    + intros Heq. rewrite Heq in Hlook'. congruence.
    + exists (maxLevel allIDs - Z.of_nat n). split; [lia|]. split.
      * apply at_level_iff; [done|done|lia|done|].
        by replace (Z.to_nat (maxLevel allIDs - (maxLevel allIDs - Z.of_nat n))) with n by lia.
      * intros level' Hlev' Hat. apply at_level_iff in Hat; [|done..]. apply Huniq in Hat. lia.
  - intros level id Hlev Hid Hat. destruct (newPartitioner_index _ _ Hid) as [_ Hidx'].
    apply at_level_iff in Hat; [|done..]. apply at_level_iff; [done..|]. apply range_loop_sym; [lia..|done].
Qed.

Lemma levels_partition_witness :
  ∃ level, 1 ≤ level ≤ maxLevel [4; 2; 5; 1; 3] ∧ at_level [4; 2; 5; 1; 3] 1 level 5.
Proof.
  destruct (levels_partition [4; 2; 5; 1; 3] 1) as (_ & H & _).
  - apply (bool_decide_unpack _). by vm_compute.
  - apply (bool_decide_unpack _). by vm_compute.
  - destruct (H 5) as (level & Hl & Hat & _).
    + apply (bool_decide_unpack _). by vm_compute.
    + done.
    + exists level. split; [exact Hl|exact Hat].
Defined.
