(* ===== verification/Handel.v ===== *)
(** Handel, the tree-based aggregation of votes
    (src/sourcecodes/hotstuff/handel/handel.go and session.go).

    A session aggregates the signatures of one block.  Its operations run on the
    event loop ([handleContribution], [sendContributions], [advanceLevel]) and in the
    goroutine [verifyContributions]; they share the session, and [out] collects
    what they hand to the event loop and to the network.  The session mutex makes
    each operation below one step; [step] interleaves them.  Go's seeded
    pseudo-random shuffle is a parameter, as are the signature scheme and
    the node connections. *)

From S2P Require Import Prelude IDSet Signature Types Samples BlockChain Ecdsa Certs Eddsa Partition Convert Server.

(** ** Data *)
Record contribution := mkContribution {
  c_hash : Hash;
  c_sender : ID;
  c_level : Z;
  c_signature : QuorumSignature;
  c_individual : QuorumSignature;
  c_verified : bool;
  c_deferred : bool;
  c_score : Z;
}.

Record level := mkLevel {
  vp : gmap ID Z;
  cp : gmap ID Z;
  incoming : option QuorumSignature;
  outgoing : option QuorumSignature;
  individual : gmap ID QuorumSignature;
  pending : list contribution;
  done : bool;
}.

Record window := mkWindow { w_window : Z; w_min : Z; w_max : Z; increaseFactor : Z; decreaseFactor : Z }.

Record session := mkSession {
  s_hash : Hash;
  s_seed : Z;
  s_part : partitioner;
  s_levels : list level;
  activeLevelIndex : Z;
  s_window : window;
}.

(** [handelpb.Contribution] *)
Record PbContribution := mkPbContribution {
  pbh_ID : Z; pbh_Level : Z; pbh_Signature : PbQuorumSignature; pbh_Individual : PbQuorumSignature; pbh_Hash : bytes }.

Inductive HandelOut :=
| OEvent (c : contribution)                          (* eventLoop.AddEvent *)
| ONewView (si : SyncInfo)                           (* eventLoop.AddEvent(NewViewMsg) *)
| OSessionDone (hash : Hash)                         (* eventLoop.AddEvent(sessionDoneEvent) *)
| OContribute (to : ID) (msg : PbContribution)       (* node.Contribute *)
| ONotify                                            (* newContributions <- *)
| ODelay (c : contribution)                          (* eventLoop.DelayUntil(ProposeMsg{}, c) *)
| ODelayBegin (pc : PartialCert).                    (* eventLoop.DelayUntil(ConnectedEvent{}, ...) *)

Definition set_score (score : Z) (c : contribution) : contribution :=
  mkContribution (c_hash c) (c_sender c) (c_level c) (c_signature c) (c_individual c) (c_verified c) (c_deferred c) score.
Definition set_cp (m : gmap ID Z) (l : level) := mkLevel (vp l) m (incoming l) (outgoing l) (individual l) (pending l) (done l).
Definition set_incoming (s : option QuorumSignature) (l : level) := mkLevel (vp l) (cp l) s (outgoing l) (individual l) (pending l) (done l).
Definition set_outgoing (s : option QuorumSignature) (l : level) := mkLevel (vp l) (cp l) (incoming l) s (individual l) (pending l) (done l).
Definition set_individual (m : gmap ID QuorumSignature) (l : level) := mkLevel (vp l) (cp l) (incoming l) (outgoing l) m (pending l) (done l).
Definition set_pending (p : list contribution) (l : level) := mkLevel (vp l) (cp l) (incoming l) (outgoing l) (individual l) p (done l).
Definition set_done (b : bool) (l : level) := mkLevel (vp l) (cp l) (incoming l) (outgoing l) (individual l) (pending l) b.
Definition set_levels (ls : list level) (s : session) := mkSession (s_hash s) (s_seed s) (s_part s) ls (activeLevelIndex s) (s_window s).
Definition set_active (i : Z) (s : session) := mkSession (s_hash s) (s_seed s) (s_part s) (s_levels s) i (s_window s).
Definition set_window (w : window) (s : session) := mkSession (s_hash s) (s_seed s) (s_part s) (s_levels s) (activeLevelIndex s) w.

(** ** The verification window *)
Definition win_increase (w : window) : window :=
  let v := w_window w * increaseFactor w in
  mkWindow (if decide (w_max w < v) then w_max w else v) (w_min w) (w_max w) (increaseFactor w) (decreaseFactor w).
Definition win_decrease (w : window) : window :=
  let v := Z.quot (w_window w) (decreaseFactor w) in
  mkWindow (if decide (v < w_min w) then w_min w else v) (w_min w) (w_max w) (increaseFactor w) (decreaseFactor w).

(** [sort.Search(n, f)]: binary search for the first index where [f] holds. *)
Fixpoint search_loop (fuel : nat) (f : nat → bool) (i j : nat) : nat :=
  match fuel with
  | O => i
  | S fuel' =>
      if decide (i < j)%nat then
        let h := ((i + j) / 2)%nat in
        if f h then search_loop fuel' f i h else search_loop fuel' f (S h) j
      else i
  end.
Definition sort_Search (n : nat) (f : nat → bool) : nat := search_loop (S n) f 0 n.

Definition insert_at {A} (i : nat) (x : A) (l : list A) : list A := take i l ++ x :: drop i l.

Section Handel.
Context `{CRYPTO : CryptoBase}.
Context (selfID : ID) (allReplicas : list ID) (sharedSeed : Z) (nodes : gset ID).
(** [rand.New(rand.NewSource(seed)).Shuffle] on a slice. *)
Context (shuffle : Z → list Z → list Z).
(** [synchronizer.View()] when the operation runs. *)
Context (view : View).

Definition cfgLen : Z := Z.of_nat (length allReplicas).
Definition h_maxLevel : Z := ceil_log2 cfgLen.
Definition quorumSize : Z := QuorumSize cfgLen.

Abbreviation St := (session * list HandelOut)%type.
Definition emit_out (o : HandelOut) : M St unit := modify (λ st, (st.1, st.2 ++ [o])).
Definition get_session : M St session := gets fst.
Definition modify_session (f : session → session) : M St unit := modify (λ st, (f st.1, st.2)).
Definition get_level (i : Z) : M St level := λ st,
  if decide (0 ≤ i) then
    match s_levels st.1 !! Z.to_nat i with
    | Some l => Ok (l, st)
    | None => Panic
    end
  else Panic.
Definition modify_level (i : Z) (f : level → level) : M St unit :=
  l <- get_level i ;; modify_session (λ s, set_levels (<[ Z.to_nat i := f l ]> (s_levels s)) s).

(** ** Priorities *)
Fixpoint assign (self : ID) (l : list ID) (numbers : list Z) (m : gmap ID Z) : outcome (gmap ID Z) :=
  match l with
  | [] => Ok m
  | id :: rest =>
      if decide (id = self) then assign self rest numbers m
      else match numbers with
           | [] => Panic  (* numbers[i] *)
           | n :: ns => assign self rest ns (<[ id := n ]> m)
           end
  end.

Definition verificationPriority (l : list ID) (seed : Z) (self : ID) (lev : Z) : outcome (gmap ID Z) :=
  if decide (l = []) then Panic  (* make([]int, -1) *)
  else assign self l (shuffle (i64 (seed + lev)) (seqZ 0 (Z.of_nat (length l) - 1))) ∅.

Fixpoint contribution_loop (l : list ID) (seed : Z) (self : ID) (lev : Z) (todo : list ID) (m : gmap ID Z)
    : outcome (gmap ID Z) :=
  match todo with
  | [] => Ok m
  | id :: rest =>
      if decide (id = self) then contribution_loop l seed self lev rest m
      else outcome_bind (verificationPriority l seed id lev) (λ vp,
             contribution_loop l seed self lev rest (<[ id := default 0 (vp !! self) ]> m))
  end.
Definition contributionPriority (l : list ID) (seed : Z) (self : ID) (lev : Z) : outcome (gmap ID Z) :=
  contribution_loop l seed self lev l ∅.

(** ** Scoring *)
Definition canMergeContributions (a b : option QuorumSignature) : bool :=
  match a, b with
  | Some a, Some b =>
      negb (existsb (λ i, existsb (λ j, bool_decide (i = j)) (RangeList (Participants b))) (RangeList (Participants a)))
  | _, _ => false
  end.

Definition sig_len (s : QuorumSignature) : Z := Len (Participants s).

Definition score (s : session) (c : contribution) : outcome Z :=
  if decide (c_level c < 1 ∨ h_maxLevel < c_level c) then Ok 0
  else match s_levels s !! Z.to_nat (c_level c) with
  | None => Panic
  | Some lev =>
      outcome_bind (part_size (s_part s) (c_level c)) (λ size,
        let need := if decide (c_level c = h_maxLevel) then quorumSize else size in
        if match incoming lev with Some cur => bool_decide (need ≤ sig_len cur) | None => false end then Ok 0
        else
          let participants : gset ID := list_to_set (RangeList (Participants (c_signature c))) in
          let '(finalParticipants, indivAdded) :=
            foldl (λ acc id, if decide (id ∈ acc.1) then acc else ({[ id ]} ∪ acc.1, acc.2 + 1))
              (participants, 0) (map_to_list (individual lev)).*1 in
          let '(total, added) :=
            match incoming lev with
            | None => (idSetMap.Len finalParticipants, idSetMap.Len finalParticipants)
            | Some curBest =>
                if canMergeContributions (Some (c_signature c)) (Some curBest) then
                  let final := list_to_set (RangeList (Participants curBest)) ∪ finalParticipants in
                  (idSetMap.Len final, idSetMap.Len final - sig_len curBest)
                else (idSetMap.Len finalParticipants, idSetMap.Len finalParticipants - sig_len curBest)
            end in
          if decide (added ≤ 0) then
            Ok (if decide (individual lev !! c_sender c = None) then 1 else 0)
          else if decide (total = need) then Ok (1000000 - c_level c * 10 - indivAdded)
          else Ok (100000 - c_level c * 100 + added * 10 - indivAdded))
  end.

Definition validLevel (l : Z) : bool := bool_decide (0 < l) && bool_decide (l ≤ h_maxLevel).

Definition vp_of (lev : level) (id : ID) : Z := default 0 (vp lev !! id).

Definition sender_at (p : list contribution) (i : nat) : option ID := c_sender <$> p !! i.

(** The index where [c] goes, and the new queue. *)
Definition place (lev : level) (c : contribution) : list contribution :=
  let p := pending lev in
  let i := sort_Search (length p)
             (λ i, match sender_at p i with
                   | Some other => bool_decide (vp_of lev other ≤ vp_of lev (c_sender c))
                   | None => false
                   end) in
  if decide (sender_at p i = Some (c_sender c)) then <[ i := c ]> p else insert_at i c p.

Definition insertPending (c : contribution) : M St unit :=
  if validLevel (c_level c) then
    lev <- get_level (c_level c) ;;
    s <- get_session ;;
    sc <- lift (score s c) ;;
    if decide (sc < 0) then ret tt
    else modify_level (c_level c) (set_pending (place lev c)) ;;; emit_out ONotify
  else ret tt.
(** ** Aggregation *)
Definition next_outgoing (prev : level) : outcome (CryptoErr + option QuorumSignature) :=
  match outgoing prev, incoming prev with
  | None, inc => Ok (inr inc)
  | out, None => Ok (inr out)
  | Some out, Some inc =>
      outcome_bind (Combine [Some inc; Some out]) (λ r,
        Ok (match r with inl err => inl err | inr sig => inr (Some sig) end))
  end.

Fixpoint updateOutgoing (n : nat) (levelIndex : Z) : M St unit :=
  if decide (levelIndex = 0) then panic
  else
    prev <- get_level (levelIndex - 1) ;;
    r <- lift (next_outgoing prev) ;;
    match r with
    | inl _ => ret tt
    | inr None => panic  (* outgoing.Participants() *)
    | inr (Some sig) =>
        if decide (h_maxLevel < levelIndex) then
          if decide (quorumSize ≤ sig_len sig) then
            s <- get_session ;;
            emit_out (ONewView (WithQC NewSyncInfo (mkQuorumCert (Some sig) view (s_hash s)))) ;;;
            emit_out (OSessionDone (s_hash s))
          else ret tt
        else
          modify_level levelIndex (set_outgoing (Some sig)) ;;;
          match n with
          | O => diverge
          | S n' => updateOutgoing n' (levelIndex + 1)
          end
    end.

(** Enough for the highest level. *)
Definition levels_fuel : nat := S (Z.to_nat h_maxLevel).

Definition isLevelComplete (levelIndex : Z) : M St bool :=
  lev <- get_level levelIndex ;;
  s <- get_session ;;
  part <- lift (partition (s_part s) levelIndex) ;;
  match incoming lev with
  | Some sig => ret (forallb (Contains (Participants sig)) part)
  | None => if decide (part = []) then ret true else panic
  end.

Definition advanceLevel : M St unit :=
  modify_session (λ s, if decide (h_maxLevel < activeLevelIndex s + 1) then s else set_active (activeLevelIndex s + 1) s).

(** ** Sending *)
Definition best_of (cps : gmap ID Z) (part : list ID) (first : ID) : ID :=
  (foldl (λ acc i, let c := default 0 (cps !! i) in if decide (c < acc.2) then (i, c) else acc)
     (first, default 0 (cps !! first)) part).1.

Definition sendContributionToLevel (levelIndex : Z) : M St unit :=
  lev <- get_level levelIndex ;;
  match outgoing lev with
  | None => ret tt
  | Some out =>
      s <- get_session ;;
      part <- lift (partition (s_part s) levelIndex) ;;
      match part with
      | [] => panic  (* part[0] *)
      | first :: _ =>
          let id := best_of (cp lev) part first in
          (if decide (id ∈ nodes) then
             zero <- get_level 0 ;;
             emit_out (OContribute id (mkPbContribution (u32 selfID) (u32 levelIndex)
               (QuorumSignatureToProto (Some out)) (QuorumSignatureToProto (incoming zero)) (s_hash s)))
           else ret tt) ;;;
          modify_level levelIndex (λ l, set_cp (<[ id := default 0 (cp l !! id) + Z.of_nat (length (ids (s_part s))) ]> (cp l)) l)
      end
  end.

Definition sendContributions : M St unit :=
  s <- get_session ;;
  for_each (λ i,
    lev <- get_level i ;;
    if done lev then ret tt else sendContributionToLevel i) (seqZ 1 (activeLevelIndex s)).

Definition sendFastPath (levelIndex : Z) : M St unit :=
  s <- get_session ;;
  n <- lift (part_size (s_part s) levelIndex) ;;
  for_each (λ _, sendContributionToLevel levelIndex) (seqZ 0 (if decide (10 < n) then 10 else n)).

Definition updateIncoming (c : contribution) : M St unit :=
  lev <- get_level (c_level c) ;;
  (if decide (individual lev !! c_sender c = None)
   then modify_level (c_level c) (λ l, set_individual (<[ c_sender c := c_signature c ]> (individual l)) l)
   else ret tt) ;;;
  if match incoming lev with Some inc => bool_decide (sig_len (c_signature c) ≤ sig_len inc) | None => false end
  then ret tt
  else
    modify_level (c_level c) (set_incoming (Some (c_signature c))) ;;;
    complete <- isLevelComplete (c_level c) ;;
    (if complete : bool then
       modify_level (c_level c) (set_done true) ;;;
       advanceLevel ;;;
       (if decide (c_level c + 1 ≤ h_maxLevel) then sendFastPath (c_level c + 1) else ret tt)
     else ret tt) ;;;
    updateOutgoing levels_fuel (c_level c + 1).

Definition handleContribution (c : contribution) : M St unit :=
  if c_verified c then updateIncoming c else insertPending c.

(** ** Choosing what to verify *)
Definition rescore (s : session) (c : contribution) : outcome contribution :=
  outcome_bind (score s c) (λ sc, Ok (set_score sc c)).

(** [level.pending[i].score = s.score(level.pending[i])] for every [i]. *)
Fixpoint rescore_all (s : session) (p : list contribution) : outcome (list contribution) :=
  match p with
  | [] => Ok []
  | c :: p' => outcome_bind (rescore s c) (λ c, outcome_bind (rescore_all s p') (λ l, Ok (c :: l)))
  end.

Definition score_at (p : list contribution) (i : nat) : Z := default 0 (c_score <$> p !! i).

(** The best index within the window. *)
Definition best_index (win : Z) (p : list contribution) : nat :=
  foldl (λ best i, if decide (Z.of_nat i < win ∧ score_at p best < score_at p i) then i else best) O
    (seq 1 (length p - 1)).

Fixpoint keep_others (best i : nat) (p : list contribution) : list contribution :=
  match p with
  | [] => []
  | c :: p' => if decide (0 < c_score c ∧ i ≠ best) then c :: keep_others best (S i) p' else keep_others best (S i) p'
  end.

Definition chooseContributionFromLevel (levelIndex : Z) : M St (option contribution) :=
  lev <- get_level levelIndex ;;
  if decide (pending lev = [] ∨ done lev = true) then ret None
  else
    s <- get_session ;;
    p <- lift (rescore_all s (pending lev)) ;;
    let best := best_index (w_window (s_window s)) p in
    modify_level levelIndex (set_pending (keep_others best 0 p)) ;;;
    match p !! best with
    | None => panic
    | Some c => ret (if decide (c_score c = 0) then None else Some c)
    end.

Fixpoint choices_loop (todo : list Z) : M St (list contribution) :=
  match todo with
  | [] => ret []
  | i :: rest =>
      lev <- get_level i ;;
      c <- (if done lev then ret None else chooseContributionFromLevel i) ;;
      others <- choices_loop rest ;;
      ret (match c with Some c => c :: others | None => others end)
  end.

Definition best_choice (choices : list contribution) : nat :=
  foldl (λ best i, if decide (score_at choices best < score_at choices i) then i else best) O (seq 0 (length choices)).

(** The other choices are put back into [s.levels[choiceIndex]]: the position among
    the choices, not the level of the choice. *)
Definition put_back (choiceIndex : nat) (c : contribution) : M St unit :=
  lev <- get_level (Z.of_nat choiceIndex) ;;
  let p := pending lev in
  let pos := sort_Search (length p)
               (λ i, match sender_at p i with
                     | Some other => bool_decide (vp_of lev other < vp_of lev (c_sender c))
                     | None => false
                     end) in
  modify_level (Z.of_nat choiceIndex) (set_pending (insert_at pos c p)).

Definition chooseContribution : M St (option (contribution * bool)) :=
  s <- get_session ;;
  choices <- choices_loop (seqZ 1 (activeLevelIndex s)) ;;
  let best := best_choice choices in
  match choices !! best with
  | None => ret None
  | Some c =>
      for_each (λ ic, if decide (ic.1 = best) then ret tt else put_back ic.1 ic.2)
        (zip (seq 0 (length choices)) choices) ;;;
      lev <- get_level (c_level c) ;;
      ret (Some (c, bool_decide (is_Some (individual lev !! c_sender c))))
  end.

(** ** Verifying *)
Definition merge (sig : QuorumSignature) (other : option QuorumSignature) : outcome QuorumSignature :=
  if canMergeContributions (Some sig) other then
    outcome_bind (Combine [Some sig; other]) (λ r, Ok (match r with inr merged => merged | inl _ => sig end))
  else Ok sig.

(** [values] is the order of the iteration over the individual signatures. *)
Definition improveSignature (values : gmap ID QuorumSignature → list QuorumSignature) (c : contribution)
    : M St QuorumSignature :=
  lev <- get_level (c_level c) ;;
  lift (foldl (λ sig indiv, outcome_bind sig (λ sig, merge sig (Some indiv)))
          (merge (c_signature c) (incoming lev)) (values (individual lev))).

(** [block] is what [blockChain.Get(s.hash)] returned. *)
Definition verifyContribution (block : option Block) (c : contribution) (sig : QuorumSignature) (verifyIndiv : bool)
    : M St unit :=
  match block with
  | None => ret tt
  | Some block =>
      aggVerified <- lift (Verify (Some sig) (Block_ToBytes block)) ;;
      indivVerified <- (if verifyIndiv then lift (Verify (Some (c_individual c)) (Block_ToBytes block)) else ret false) ;;
      s <- get_session ;;
      if (indivVerified || negb verifyIndiv) && aggVerified then
        emit_out (OEvent (mkContribution (s_hash s) (c_sender c) (c_level c) sig (c_individual c) true false 0)) ;;;
        modify_session (λ s, set_window (win_increase (s_window s)) s)
      else modify_session (λ s, set_window (win_decrease (s_window s)) s)
  end.

(** ** Sessions *)
Definition newLevel (part : partitioner) (seed : Z) (i : Z) : outcome level :=
  outcome_bind (verificationPriority (ids part) seed selfID i) (λ vp,
    outcome_bind (contributionPriority (ids part) seed selfID i) (λ cp,
      Ok (mkLevel vp cp None None ∅ [] false))).

Fixpoint new_levels (part : partitioner) (seed : Z) (todo : list Z) : outcome (list level) :=
  match todo with
  | [] => Ok []
  | i :: rest =>
      outcome_bind (newLevel part seed i) (λ l,
        outcome_bind (partition part i) (λ _,  (* logged *)
          outcome_bind (new_levels part seed rest) (λ ls, Ok (l :: ls))))
  end.

(** [allReplicas] are the keys of the configuration, sorted. *)
Definition newSession (hash : Hash) (sig : QuorumSignature) : outcome St :=
  let seed := i64 (sharedSeed + i64 (le_value (take 8 hash))) in
  let part := newPartitioner selfID (shuffle seed allReplicas) in
  outcome_bind (new_levels part seed (seqZ 0 (h_maxLevel + 1))) (λ ls,
    let st := (mkSession hash seed part ls 0 (mkWindow cfgLen 2 cfgLen 2 4), []) in
    outcome_bind ((modify_level 0 (λ l, set_incoming (Some sig) (set_individual (<[ selfID := sig ]> (individual l)) l)) ;;;
                   updateOutgoing levels_fuel 1) st) (λ '(_, st), Ok st)).

(** The service: a contribution from the network.  When the sender is not known, its ID is 0. *)
Definition Contribute (FromCompressed_ok : bytes → bool) (ctx : Ctx) (msg : PbContribution) : option contribution :=
  let id := match GetPeerIDFromContext ctx allReplicas with inl _ => 0 | inr id => id end in
  match QuorumSignatureFromProto FromCompressed_ok (pbh_Signature msg),
        QuorumSignatureFromProto FromCompressed_ok (pbh_Individual msg) with
  | Some sig, Some indiv => Some (mkContribution (hash_of (pbh_Hash msg)) id (pbh_Level msg) sig indiv false false 0)
  | _, _ => None
  end.

(** ** The module: a table of sessions *)
Record HandelModule := mkHandelModule { sessions : gmap Hash session; initDone : bool; h_out : list HandelOut }.

Definition h_emit (o : HandelOut) : M HandelModule unit :=
  modify (λ hm, mkHandelModule (sessions hm) (initDone hm) (h_out hm ++ [o])).

(** Run an operation on the session of [hash], if there is one. *)
Definition in_session (hash : Hash) (m : M St unit) : M HandelModule unit := λ hm,
  match sessions hm !! hash with
  | None => Ok (tt, hm)
  | Some s => outcome_bind (m (s, h_out hm)) (λ '(_, (s', out)),
                Ok (tt, mkHandelModule (<[ hash := s' ]> (sessions hm)) (initDone hm) out))
  end.

Definition set_deferred (c : contribution) : contribution :=
  mkContribution (c_hash c) (c_sender c) (c_level c) (c_signature c) (c_individual c) (c_verified c) true (c_score c).

Definition on_contribution (c : contribution) : M HandelModule unit :=
  known <- gets (λ hm, bool_decide (is_Some (sessions hm !! c_hash c))) ;;
  if known : bool then in_session (c_hash c) (handleContribution c)
  else if c_deferred c then ret tt
  else h_emit (ODelay (set_deferred c)).

Definition on_sessionDone (hash : Hash) : M HandelModule unit :=
  modify (λ hm, mkHandelModule (delete hash (sessions hm)) (initDone hm) (h_out hm)).
Definition on_disseminate (hash : Hash) : M HandelModule unit := in_session hash sendContributions.
Definition on_levelActivate (hash : Hash) : M HandelModule unit := in_session hash advanceLevel.

(** The verification goroutine of the new session is [verifyContributions]. *)
Definition Begin (pc : PartialCert) : M HandelModule unit :=
  ready <- gets initDone ;;
  if negb ready then h_emit (ODelayBegin pc)
  else
    match pc_signature pc with
    | None => panic  (* the outgoing signature of level 1 is nil *)
    | Some sig =>
        st <- lift (newSession (pc_blockHash pc) sig) ;;
        modify (λ hm, mkHandelModule (<[ pc_blockHash pc := st.1 ]> (sessions hm)) (initDone hm) (h_out hm ++ st.2))
    end.
End Handel.

(** [levels_fuel] is enough: [updateOutgoing] never runs out of it. *)
Lemma updateOutgoing_terminates `{CRYPTO : CryptoBase} allReplicas view n i st :
  (∀ l, Combine l ≠ Diverge) → h_maxLevel allReplicas - i < Z.of_nat n →
  updateOutgoing allReplicas view n i st ≠ Diverge.
Proof.
  intros Hcomb. revert i st. induction n as [|n IH]; intros i st Hn; cbn [updateOutgoing];
    (case_decide; [done|]); unfold bind, get_level, outcome_bind at 1; (case_decide; [|done]);
    (destruct (s_levels st.1 !! _) as [prev|]; [|done]); unfold lift, outcome_bind at 1 2;
    (destruct (next_outgoing prev) as [[err|[sig|]]| |] eqn:Hnext; [done| |done|done|]);
    try (unfold next_outgoing, outcome_bind in Hnext; pose proof (Hcomb [incoming prev; outgoing prev]);
         by repeat case_match).
  - rewrite decide_True by lia. by case_decide.
  - case_decide; [by case_decide|]. unfold modify_level, bind, get_level, outcome_bind at 1 2.
    case_decide; [|done]. destruct (s_levels st.1 !! _); [|done]. cbn. apply IH. lia.
Qed.

(** ** What a signature scheme promises to Handel *)
Class CombineLaws (crypto : CryptoBase) : Prop :=
  combine_valid : ∀ a b c m, Combine [Some a; Some b] = Ok (inr c) →
    Verify (Some a) m = Ok true → Verify (Some b) m = Ok true → Verify (Some c) m = Ok true.

Lemma ec_Verify_entries `{Sha256} {PK} (replicas : gmap ID PK) verify s msg :
  ec_Verify replicas verify (Some (SigECDSA s)) msg = Ok true ↔
  s ≠ ∅ ∧ map_Forall (λ _ x, verifySingle replicas verify x (sha256 msg) = true) s.
Proof.
  unfold ec_Verify, Multi.Len. case_decide as Hs.
  { split; [done|]. intros [Hne _]. destruct Hne. apply map_size_empty_inv. lia. }
  split.
  - intros [= Hall]. split; [intros ->; by rewrite map_size_empty in Hs|].
    intros i x Hx. rewrite forallb_forall in Hall. apply (Hall (i, x)), list_elem_of_In. by apply elem_of_map_to_list.
  - intros [_ Hall]. f_equal. apply forallb_forall. intros [i x] Hin%list_elem_of_In%elem_of_map_to_list.
    by apply (Hall i x).
Qed.

#[export] Instance ecdsa_combine_laws `{Sha256} {PK} (self : ID) (replicas : gmap ID PK) sign verify :
  CombineLaws (ecdsaBase self replicas sign verify).
Proof.
  intros a b c m Hc Ha Hb. cbn [Combine Verify ecdsaBase] in *. unfold ec_Combine in Hc. rewrite decide_False in Hc by (cbn; lia).
  destruct a as [ma| |], b as [mb| |]; try done.
  change (combine_loop ∅ [Some (SigECDSA ma); Some (SigECDSA mb)]) with
    (match add_entries ∅ (map_to_list ma) with
     | None => Ok (inl ErrCombineOverlap)
     | Some ts => match add_entries ts (map_to_list mb) with
                  | None => Ok (inl ErrCombineOverlap)
                  | Some ts => Ok (inr (SigECDSA ts))
                  end
     end) in Hc.
  rewrite add_entries_map in Hc. destruct (decide (ma ##ₘ ∅)) as [_|]; [|done].
  rewrite add_entries_map in Hc. destruct (decide (mb ##ₘ _)) as [Hd|]; [|done]. injection Hc as <-.
  apply ec_Verify_entries in Ha as [Hne1 Ha], Hb as [Hne2 Hb]. apply ec_Verify_entries.
  rewrite (right_id_L ∅ (∪)) in *. split.
  - apply map_choose in Hne2 as (i & x & Hx). intros Hemp.
    apply (lookup_union_Some_l _ ma) in Hx. by rewrite Hemp, lookup_empty in Hx.
  - apply map_Forall_union; [done|]. by split.
Qed.

#[export] Instance eddsa_combine_laws `{Sha256} {PK} (self : ID) (replicas : gmap ID PK) sign verify :
  CombineLaws (eddsaBase self replicas sign verify).
Proof.
  intros a b c m Hc Ha Hb. cbn [Combine Verify eddsaBase] in *. unfold ed_Combine in Hc.
  rewrite decide_False in Hc by (cbn; lia).
  destruct (ed_combine_loop_map _ _ _ Hc) as (ms & mc & Hms & -> & Hl).
  destruct ms as [|ma [|mb [|? ?]]]; try done. injection Hms as -> ->.
  apply ed_Verify_entries in Ha as [Hne1 Ha], Hb as [Hne2 Hb]. apply ed_Verify_entries. split.
  - apply map_choose in Hne1 as (i & x & Hx). intros ->.
    assert ((∅ : Multi EDDSASignature) !! i = Some x) as Hi by (apply Hl; right; exists ma; split; [left|done]).
    by rewrite lookup_empty in Hi.
  - intros i x [Hx|(m' & Hin & Hx)]%Hl; [by rewrite lookup_empty in Hx|].
    apply elem_of_cons in Hin as [->| ->%list_elem_of_singleton]; [by apply (Ha i)|by apply (Hb i)].
Qed.

(** ** Every signature a session holds is valid *)
Section Valid.
Context `{SHA : Sha256} `{CRYPTO : CryptoBase} `{LAWS : !CombineLaws CRYPTO}.
Context (selfID : ID) (allReplicas : list ID) (sharedSeed : Z).
Context (shuffle : Z → list Z → list Z).
Context (h : Hash) (msg : bytes).
Abbreviation St := (session * list HandelOut)%type.

Definition valid (sig : QuorumSignature) : Prop := Verify (Some sig) msg = Ok true.
Definition ovalid (sig : option QuorumSignature) : Prop := ∀ s, sig = Some s → valid s.

Record level_ok (l : level) : Prop := {
  ok_incoming : ovalid (incoming l);
  ok_outgoing : ovalid (outgoing l);
  ok_individual : map_Forall (λ _, valid) (individual l);
}.

Definition out_ok (o : HandelOut) : Prop :=
  match o with
  | OEvent c => c_verified c = true ∧ valid (c_signature c)
  | ONewView si => ∃ sig v, si = WithQC NewSyncInfo (mkQuorumCert (Some sig) v h) ∧ valid sig ∧
                            quorumSize allReplicas ≤ Len (Participants sig)
  | _ => True
  end.

Record Inv (st : St) : Prop := {
  inv_hash : s_hash st.1 = h;
  inv_levels : Forall level_ok (s_levels st.1);
  inv_out : Forall out_ok st.2;
}.

Abbreviation keeps m := (triple Inv m (λ _, Inv)).

Lemma keeps_ret {A} (a : A) : keeps (ret a).
Proof using Type. by apply triple_ret. Qed.
Lemma keeps_panic {A} : keeps (panic (A := A)).
Proof using Type. by intros s a s' _. Qed.
Lemma keeps_diverge {A} : keeps (diverge (A := A)).
Proof using Type. by intros s a s' _. Qed.
Lemma keeps_lift {A} (o : outcome A) : keeps (lift o).
Proof using Type. intros s a s' HI. unfold lift, outcome_bind. destruct o; [|done..]. by intros [= <- <-]. Qed.
Lemma keeps_lift_result {A} (o : outcome A) : triple Inv (lift o) (λ a st, Inv st ∧ o = Ok a).
Proof using Type. intros s a s' HI. unfold lift, outcome_bind. destruct o; [|done..]. by intros [= <- <-]. Qed.
Lemma keeps_bind {A B} (m : M St A) (k : A → M St B) : keeps m → (∀ a, keeps (k a)) → keeps (bind m k).
Proof using Type. intros Hm Hk. by eapply triple_bind. Qed.
Lemma keeps_bind_result {A B} (m : M St A) (k : A → M St B) (P : A → Prop) :
  triple Inv m (λ a st, Inv st ∧ P a) → (∀ a, P a → keeps (k a)) → keeps (bind m k).
Proof using Type. intros Hm Hk. eapply triple_bind; [exact Hm|]. intros a s b s' [HI HP]. by apply Hk. Qed.
Lemma keeps_for_each {A} (f : A → M St unit) l : (∀ x, keeps (f x)) → keeps (for_each f l).
Proof using Type. intros Hf. induction l; [apply keeps_ret|]. by apply keeps_bind. Qed.

Lemma keeps_get_session : keeps get_session.
Proof using Type. by apply triple_gets. Qed.
Lemma keeps_session_hash : triple Inv get_session (λ s st, Inv st ∧ s_hash s = h).
Proof using Type. apply triple_gets. intros st HI. split; [done|apply HI]. Qed.
Lemma keeps_emit o : out_ok o → keeps (emit_out o).
Proof using Type. intros Ho. apply triple_modify. intros st [? ? ?]. split; [done..|]. cbn. apply Forall_app. by repeat constructor. Qed.

Lemma get_level_ok i : triple Inv (get_level i) (λ l st, Inv st ∧ level_ok l).
Proof using Type.
  intros st l st' HI. unfold get_level. case_decide; [|done]. destruct (_ !! _) as [l'|] eqn:Hl; [|done].
  intros [= <- <-]. split; [done|]. eapply Forall_lookup_1; [apply HI|done].
Qed.

Lemma keeps_modify_level i f : (∀ l, level_ok l → level_ok (f l)) → keeps (modify_level i f).
Proof using Type.
  intros Hf. eapply keeps_bind_result; [apply get_level_ok|]. intros l Hl.
  apply triple_modify. intros st [? Hls ?]. split; [done| |done]. cbn. apply Forall_insert; auto.
Qed.

Lemma keeps_session_frame f :
  (∀ s, s_hash (f s) = s_hash s ∧ s_levels (f s) = s_levels s) → keeps (modify_session f).
Proof using Type.
  intros Hf. apply triple_modify. intros st [Hh Hl Ho]. destruct (Hf st.1) as [H1 H2].
  split; cbn; [by rewrite H1|by rewrite H2|done].
Qed.

(** One step of the proof that an operation keeps the invariant. *)
Ltac keep_step :=
  match goal with
  | |- triple Inv (ret _) _ => apply keeps_ret
  | |- triple Inv panic _ => apply keeps_panic
  | |- triple Inv diverge _ => apply keeps_diverge
  | |- triple Inv (lift _) _ => apply keeps_lift
  | |- triple Inv get_session _ => apply keeps_get_session
  | |- triple Inv (bind (get_level _) _) _ => eapply keeps_bind_result; [apply get_level_ok|intros ? ?]
  | |- triple Inv (bind (A := session) get_session _) _ => eapply keeps_bind_result; [apply keeps_session_hash|intros ? ?]
  | |- triple Inv (bind _ _) _ => apply keeps_bind; [|intros ?]
  | |- triple Inv (for_each _ _) _ => apply keeps_for_each; intros ?
  | |- triple Inv (emit_out _) _ => apply keeps_emit
  | |- triple Inv (modify_level _ _) _ => apply keeps_modify_level; intros ? [? ? ?]; split; cbn; auto
  | |- triple Inv (match ?x with _ => _ end) _ => destruct x eqn:?
  | |- out_ok ONotify => exact I
  | |- out_ok (OSessionDone _) => exact I
  | |- out_ok (OContribute _ _) => exact I
  end.
Ltac keep := repeat keep_step.

Lemma keeps_insertPending c : keeps (insertPending allReplicas c).
Proof using Type. unfold insertPending. keep. Qed.

Lemma next_outgoing_valid prev s : level_ok prev → next_outgoing prev = Ok (inr s) → ovalid s.
Proof using LAWS.
  intros [Hin Hout _]. unfold next_outgoing. destruct (outgoing prev) as [out|], (incoming prev) as [inc|];
    try (intros [= <-]; done). unfold outcome_bind. destruct (Combine _) as [[err|sig]| |] eqn:Hc; try done.
  intros [= <-] x [= <-]. exact (combine_valid _ _ _ _ Hc (Hin _ eq_refl) (Hout _ eq_refl)).
Qed.

Lemma keeps_updateOutgoing view n i : keeps (updateOutgoing allReplicas view n i).
Proof using LAWS.
  revert i. induction n as [|n IH]; intros i; cbn [updateOutgoing]; (case_decide; [keep|]);
    (eapply keeps_bind_result; [apply get_level_ok|intros prev Hprev]);
    (eapply keeps_bind_result; [apply keeps_lift_result|]).
  all: intros [err|[sig|]] Hr; [keep| |keep]; pose proof (next_outgoing_valid _ _ Hprev Hr sig eq_refl) as Hv.
  all: (case_decide as Hmax; [case_decide as Hq|]); keep; try apply IH.
  all: try (exists sig, view; split; [congruence|split; [done|exact Hq]]); try (by intros s [= <-]).
Qed.

Lemma keeps_isLevelComplete i : keeps (isLevelComplete i).
Proof using Type. unfold isLevelComplete. keep. Qed.

Lemma keeps_advanceLevel : keeps (advanceLevel allReplicas).
Proof using Type. apply keeps_session_frame. intros s. by case_decide. Qed.

Lemma keeps_sendContributionToLevel nodes i : keeps (sendContributionToLevel selfID nodes i).
Proof using Type. unfold sendContributionToLevel. keep. Qed.

Lemma keeps_sendContributions nodes : keeps (sendContributions selfID nodes).
Proof using Type. unfold sendContributions. keep. apply keeps_sendContributionToLevel. Qed.

Lemma keeps_sendFastPath nodes i : keeps (sendFastPath selfID nodes i).
Proof using Type. unfold sendFastPath. keep; apply keeps_sendContributionToLevel. Qed.

Lemma keeps_updateIncoming nodes view c :
  valid (c_signature c) → keeps (updateIncoming selfID allReplicas nodes view c).
Proof using LAWS.
  intros Hv. unfold updateIncoming. keep.
  all: try apply keeps_isLevelComplete; try apply keeps_advanceLevel; try apply keeps_sendFastPath;
    try apply keeps_updateOutgoing; try (by apply map_Forall_insert_2); try (by intros s [= <-]).
Qed.

Lemma keeps_chooseFromLevel i : keeps (chooseContributionFromLevel allReplicas i).
Proof using Type. unfold chooseContributionFromLevel. keep. Qed.

Lemma keeps_choices l : keeps (choices_loop allReplicas l).
Proof using Type. induction l; cbn [choices_loop]; keep; auto using keeps_chooseFromLevel. Qed.

Lemma keeps_chooseContribution : keeps (chooseContribution allReplicas).
Proof using Type. unfold chooseContribution, put_back. keep. apply keeps_choices. Qed.

Lemma keeps_improveSignature values c : keeps (improveSignature values c).
Proof using Type. unfold improveSignature. keep. Qed.

Lemma keeps_verifyContribution block c sig vi :
  (∀ b, block = Some b → Block_ToBytes b = msg) → keeps (verifyContribution block c sig vi).
Proof using Type.
  intros Hb. unfold verifyContribution. destruct block as [b|]; [|keep]. rewrite (Hb b eq_refl).
  eapply keeps_bind_result; [apply keeps_lift_result|]. intros agg Hagg. keep.
  all: try (apply keeps_session_frame; done).
  split; [done|]. unfold valid. cbn. by destruct agg; [|rewrite andb_false_r in *].
Qed.

(** ** Runs: the event loop and the verification goroutine take turns *)
Inductive verifier := PIdle | PChosen (c : contribution) (verifyIndiv : bool)
| PImproved (c : contribution) (sig : QuorumSignature) (verifyIndiv : bool).

(** A contribution is handled when it comes from the network (and is not verified), or when
    the goroutine added it.  Views, connections and iteration orders may differ from
    step to step. *)
Inductive hstep : St * verifier → St * verifier → Prop :=
| h_contribution nodes view c st st' p :
    c_verified c = false ∨ OEvent c ∈ st.2 →
    handleContribution selfID allReplicas nodes view c st = Ok (tt, st') → hstep (st, p) (st', p)
| h_disseminate nodes st st' p : sendContributions selfID nodes st = Ok (tt, st') → hstep (st, p) (st', p)
| h_activate st st' p : advanceLevel allReplicas st = Ok (tt, st') → hstep (st, p) (st', p)
| h_choose st st' r :
    chooseContribution allReplicas st = Ok (r, st') →
    hstep (st, PIdle) (st', match r with Some (c, vi) => PChosen c vi | None => PIdle end)
| h_improve values st st' c sig vi :
    improveSignature values c st = Ok (sig, st') → hstep (st, PChosen c vi) (st', PImproved c sig vi)
| h_verify block st st' c sig vi :
    (∀ b, block = Some b → Block_ToBytes b = msg) →
    verifyContribution block c sig vi st = Ok (tt, st') → hstep (st, PImproved c sig vi) (st', PIdle).

Lemma hstep_Inv x y : hstep x y → Inv x.1 → Inv y.1.
Proof using LAWS.
  intros Hs HI. destruct Hs as [nodes view c st st' p Hc E|nodes st st' p E|st st' p E|st st' r E|values st st' c sig vi E|block st st' c sig vi Hb E].
  - unfold handleContribution in E. destruct (c_verified c) eqn:Hv.
    + eapply keeps_updateIncoming; [|exact HI|exact E]. destruct Hc as [?|Hin]; [done|].
      pose proof (inv_out _ HI) as Ho. rewrite Forall_forall in Ho. by apply (Ho _ Hin).
    + by eapply keeps_insertPending.
  - by eapply keeps_sendContributions.
  - by eapply keeps_advanceLevel.
  - by eapply keeps_chooseContribution.
  - by eapply keeps_improveSignature.
  - by eapply keeps_verifyContribution.
Qed.

Lemma hsteps_Inv x y : rtc hstep x y → Inv x.1 → Inv y.1.
Proof using LAWS. induction 1; eauto using hstep_Inv. Qed.

Lemma new_levels_ok part seed todo ls : new_levels selfID shuffle part seed todo = Ok ls → Forall level_ok ls.
Proof using Type.
  revert ls. induction todo as [|i todo IH]; intros ls; cbn [new_levels].
  { intros [= <-]. constructor. }
  unfold newLevel, outcome_bind. destruct (verificationPriority _ _ _ _ _); [|done..].
  destruct (contributionPriority _ _ _ _ _); [|done..]. destruct (partition part i); [|done..].
  destruct (new_levels _ _ _ _ _) as [ls'| |]; [|done..]. intros [= <-]. constructor; [|by apply IH].
  by split; cbn; [..|apply map_Forall_empty].
Qed.

Lemma newSession_Inv view sig st :
  valid sig → newSession selfID allReplicas sharedSeed shuffle view h sig = Ok st → Inv st.
Proof using LAWS.
  intros Hv. unfold newSession, outcome_bind. destruct (new_levels _ _ _ _ _) as [ls| |] eqn:Hls; [|done..].
  destruct ((_ ;;; _) _) as [[[] st']| |] eqn:E; [|done..]. intros [= <-].
  revert E. apply keeps_bind.
  - apply keeps_modify_level. intros l [? ? ?]. split; cbn; [by intros s [= <-]|done|by apply map_Forall_insert_2].
  - intros _. apply keeps_updateOutgoing.
  - split; [done|by eapply new_levels_ok|constructor].
Qed.
End Valid.

(** C32: Handel only makes valid certificates.  Start a session for a block with a valid
    signature of one's own, and let the event loop and the verification goroutine
    interleave in any way, with any contributions from the network (their
    signatures, levels and senders arbitrary).  Then every certificate the session
    announces is one that [VerifyQuorumCert] accepts at a replica that has the block:
    a quorum of participants and a valid aggregate.  This holds for every signature
    scheme with [CombineLaws], ECDSA and EdDSA among them. *)
Theorem handel_qc_valid `{SHA : Sha256} `{NET : Network} `{CRYPTO : CryptoBase} `{LAWS : !CombineLaws CRYPTO}
    selfID allReplicas sharedSeed shuffle view block sig st0 st p si chain :
  Verify (Some sig) (Block_ToBytes block) = Ok true →
  newSession selfID allReplicas sharedSeed shuffle view (b_hash block) sig = Ok st0 →
  rtc (hstep selfID allReplicas (Block_ToBytes block)) (st0, PIdle) (st, p) →
  ONewView si ∈ st.2 → blocks chain !! b_hash block = Some block →
  ∃ qc, si = WithQC NewSyncInfo qc ∧ qc_hash qc = b_hash block ∧
    VerifyQuorumCert (Z.of_nat (length allReplicas)) qc chain = Ok (true, chain).
Proof.
  intros Hsig Hnew Hrun Hin Hchain.
  assert (HI : Inv allReplicas (b_hash block) (Block_ToBytes block) st).
  { change st with (st, p).1. eapply hsteps_Inv; [exact Hrun|]. by eapply newSession_Inv. }
  pose proof (inv_out _ _ _ _ HI) as Ho. rewrite Forall_forall in Ho.
  destruct (Ho _ Hin) as (s & v & -> & Hv & Hq). eexists. split; [done|]. split; [done|].
  unfold VerifyQuorumCert. cbn [qc_hash qc_signature]. case_decide; [done|].
  unfold quorumSize, cfgLen in Hq. rewrite decide_False by lia.
  unfold bind, Get. rewrite Hchain. cbn [outcome_bind]. unfold lift. by rewrite Hv.
Qed.

(** ** Sample runs: replica 1 of four, the identity as shuffle *)
Section samples.
#[local] Existing Instance sample_sha256.
#[local] Instance sample_ecdsa : CryptoBase := ecdsaBase 1 sample_replicas (sample_sign 1) sample_verify.
Abbreviation St := (session * list HandelOut)%type.
Definition four : list ID := [1; 2; 3; 4].
Definition sig_of (signers : list ID) : QuorumSignature :=
  SigECDSA (Multi.Restore ((λ i, mkECDSA i (le_value (sha256 (Block_ToBytes sample_b1))) i) <$> signers)).
Definition from (sender : ID) (lev : Z) (signers : list ID) : contribution :=
  mkContribution (b_hash sample_b1) sender lev (sig_of signers) (sig_of [sender]) false false 0.
Definition values_of (m : gmap ID QuorumSignature) : list QuorumSignature := (map_to_list m).*2.
Definition last_event (st : St) : option contribution :=
  last (omap (λ o, match o with OEvent c => Some c | _ => None end) st.2).

(** The goroutine chooses, improves and verifies a contribution, and the event loop
    handles the last verified one. *)
Definition verify_once : M St unit :=
  r <- chooseContribution four ;;
  match r with
  | None => ret tt
  | Some (c, vi) =>
      sig <- improveSignature values_of c ;;
      verifyContribution (Some sample_b1) c sig vi ;;;
      e <- gets last_event ;;
      match e with
      | Some c => handleContribution 1 four ∅ 1 c
      | None => ret tt
      end
  end.
Definition deliver (c : contribution) : M St unit := handleContribution 1 four ∅ 1 c ;;; verify_once.

Lemma last_event_elem st c : last_event st = Some c → OEvent c ∈ st.2.
Proof. intros Hl%last_Some_elem_of. apply list_elem_of_omap in Hl as ([] & ? & [= <-]). done. Qed.

Lemma deliver_hsteps c st st' :
  c_verified c = false → deliver c st = Ok (tt, st') →
  rtc (hstep 1 four (Block_ToBytes sample_b1)) (st, PIdle) (st', PIdle).
Proof.
  intros Hc. unfold deliver, verify_once. intros ([] & st1 & E1 & (r & st2 & E2 & E)%bind_Ok)%bind_Ok.
  eapply rtc_l; [by eapply h_contribution; [left|]|]. eapply rtc_l; [by eapply h_choose|].
  destruct r as [[c' vi]|]; [|by injection E as <-].
  apply bind_Ok in E as (sig & st3 & E3 & ([] & st4 & E4 & (e & st5 & E5 & E)%bind_Ok)%bind_Ok).
  injection E5 as <- <-. eapply rtc_l; [by eapply h_improve|].
  eapply rtc_l; [eapply h_verify; [|done]; by intros b [= <-]|].
  destruct (last_event st4) as [c''|] eqn:He; [|by injection E as <-].
  eapply rtc_l; [|done]. eapply h_contribution; [|done]. right. by apply last_event_elem.
Qed.

Definition start : outcome (unit * St) :=
  outcome_bind (newSession 1 four 0 (λ _ l, l) 1 (b_hash sample_b1) (sig_of [1])) (advanceLevel four).
Definition run (cs : list contribution) : outcome (unit * St) :=
  outcome_bind start (λ '(_, st), for_each deliver cs st).
Definition certificates (o : outcome (unit * St)) : option (list (list ID)) :=
  match o with
  | Ok (_, (_, out)) =>
      Some (omap (λ o, match o with ONewView si => qc ← si_qc si; s ← qc_signature qc; Some (RangeList (Participants s)) | _ => None end) out)
  | _ => None
  end.

Lemma deliver_all_hsteps cs st st' :
  Forall (λ c, c_verified c = false) cs → for_each deliver cs st = Ok (tt, st') →
  rtc (hstep 1 four (Block_ToBytes sample_b1)) (st, PIdle) (st', PIdle).
Proof.
  intros Hcs. revert st. induction Hcs as [|c cs Hc Hcs IH]; intros st; [by intros [= <-]|].
  cbn [for_each]. intros ([] & st1 & E1 & E2)%bind_Ok. etrans; [by eapply deliver_hsteps|by apply IH].
Qed.

Lemma run_hsteps cs st :
  Forall (λ c, c_verified c = false) cs → run cs = Ok (tt, st) →
  ∃ st0, newSession 1 four 0 (λ _ l, l) 1 (b_hash sample_b1) (sig_of [1]) = Ok st0 ∧
    rtc (hstep 1 four (Block_ToBytes sample_b1)) (st0, PIdle) (st, PIdle).
Proof.
  intros Hcs. unfold run, start. destruct (newSession _ _ _ _ _ _ _) as [st0| |]; [|done..].
  cbn [outcome_bind]. destruct (advanceLevel four st0) as [[[] st1]| |] eqn:Ea; [|done..]. cbn [outcome_bind].
  intros E. exists st0. split; [done|]. eapply rtc_l; [by apply h_activate|]. by eapply deliver_all_hsteps.
Qed.

(** The vote of replica 2, then the votes of 3 and 4, which 3 has combined. *)
Definition good_run : list contribution := [from 2 1 [2]; from 3 2 [3; 4]].

Lemma run_announces cs st ps :
  run cs = Ok (tt, st) → certificates (run cs) = Some [ps] → ∃ si, ONewView si ∈ st.2.
Proof.
  intros ->. destruct st as [s out]. cbn. intros [= Hp].
  match type of Hp with omap ?f _ = _ => assert (Hin : ps ∈ omap f out) by (rewrite Hp; left) end.
  apply list_elem_of_omap in Hin as ([| si | | | | |] & Hin & Hs); try done. by exists si.
Qed.

Lemma handel_qc_valid_witness :
  ∃ qc, qc_hash qc = b_hash sample_b1 ∧
    VerifyQuorumCert (NET := no_network) 4 qc (store_all sample_chain) = Ok (true, store_all sample_chain).
Proof.
  destruct (run good_run) as [[[] st]| |] eqn:Hr.
  2, 3: exfalso; vm_compute in Hr; discriminate.
  destruct (run_hsteps good_run st ltac:(repeat constructor) Hr) as (st0 & Hnew & Hsteps).
  destruct (run_announces good_run st [3; 4; 2; 1] Hr ltac:(vm_compute; reflexivity)) as [si Hsi].
  destruct (handel_qc_valid (NET := no_network) 1 four 0 (λ _ l, l) 1 sample_b1 (sig_of [1]) st0 st PIdle si
    (store_all sample_chain)) as (qc & _ & Hh & Hq).
  - vm_compute. reflexivity.
  - exact Hnew.
  - exact Hsteps.
  - exact Hsi.
  - vm_compute. reflexivity.
  - exists qc. split; [exact Hh|exact Hq].
Defined.

(** ** What goes wrong *)

(** One faulty replica can keep a session from ever finishing.  Contributions are not checked
    against the partition of their level: when replica 4 adds replica 1's own vote to
    its contribution, it stays the best of its level (a later one must have more
    signers), and combining it with what replica 1 has fails because of the common
    signer.  The votes of replicas 2, 3 and 4, which make a certificate otherwise, then
    make none, though all contributions are valid and verified. *)
Theorem handel_overlap_blocks :
  certificates (run good_run) = Some [[3; 4; 2; 1]] ∧
  certificates (run (from 4 2 [1; 4] :: good_run)) = Some [] ∧
  certificates (run (from 4 2 [1; 4] :: good_run ++ [from 3 2 [3]; from 4 2 [4]; from 4 2 [3; 4]])) = Some [].
Proof. split_and!; vm_compute; reflexivity. Qed.

Definition pending_senders (o : outcome (unit * St)) : option (list (list ID)) :=
  match o with
  | Ok (_, (s, _)) => Some ((λ l, c_sender <$> pending l) <$> s_levels s)
  | _ => None
  end.

(** Level 2 is active; contributions of replica 3 (level 2) and replica 2 (level 1) arrive. *)
Definition both_pending : outcome (unit * St) :=
  outcome_bind start (λ '(_, st),
    (advanceLevel four ;;; handleContribution 1 four ∅ 1 (from 3 2 [3; 4]) ;;; handleContribution 1 four ∅ 1 (from 2 1 [2])) st).

(** Contributions get lost, and some replicas crash.  When contributions of two levels are
    pending, the one that is not chosen is put back into the level whose number is
    its position among the choices: here replica 3's contribution, of level 2, ends up
    in level 1, where it stays once level 1 is done, and no certificate is made.  And
    in a configuration of three, a replica can have a level without any peer; when
    that level is activated, sending to it indexes an empty slice. *)
Theorem handel_choice_lost :
  pending_senders both_pending = Some [[]; [2]; [3]] ∧
  (∃ c st, outcome_bind both_pending (λ '(_, st), chooseContribution four st) = Ok (Some (c, false), st) ∧
     c_sender c = 2 ∧ pending_senders (Ok (tt, st)) = Some [[]; [3]; []]) ∧
  (∃ st, outcome_bind both_pending (λ '(_, st), (verify_once ;;; verify_once) st) = Ok (tt, st) ∧
     certificates (Ok (tt, st)) = Some [] ∧ pending_senders (Ok (tt, st)) = Some [[]; [3]; []] ∧
     chooseContribution four st = Ok (None, st)) ∧
  outcome_bind (newSession 3 [1; 2; 3] 0 (λ _ l, l) 1 (b_hash sample_b1) (sig_of [3])) (λ st,
    (advanceLevel [1; 2; 3] ;;; sendContributions 3 ∅) st) = Panic.
Proof.
  split_and!; [vm_compute; reflexivity| | |vm_compute; reflexivity].
  - eexists _, _. split; [vm_compute; reflexivity|]. split; vm_compute; reflexivity.
  - eexists. split; [vm_compute; reflexivity|]. split_and!; vm_compute; reflexivity.
Qed.
End samples.
