(* ===== verification/CmdCache.v ===== *)
(** Client commands (src/sourcecodes/hotstuff/replica/cmdcache.go, clientsrv.go):
    the queue of commands a leader proposes from, the check that a batch is new,
    and the replies to clients when a batch is executed or forked away.

    Protobuf encoding is the parameter: [unmarshal] and [marshal]. *)

From S2P Require Import Prelude Types.

Record Cmd := mkCmd { ClientID : Z; SequenceNumber : Z; Data : bytes }.

Record cmdCache := mkCmdCache {
  batchSize : Z;
  serialNumbers : gmap Z Z;      (* highest proposed serial number per client *)
  cache : list Cmd;
}.
Definition newCmdCache (size : Z) : cmdCache := mkCmdCache size ∅ [].

Definition serial (c : cmdCache) (client : Z) : Z := default 0 (serialNumbers c !! client).
(** The command was not proposed yet. *)
Definition fresh (c : cmdCache) (cmd : Cmd) : Prop := ¬ SequenceNumber cmd ≤ serial c (ClientID cmd).
#[export] Instance fresh_dec c cmd : Decision (fresh c cmd).
Proof. unfold fresh. apply _. Defined.

(** The flag says whether [Get] is notified. *)
Definition addCommand (cmd : Cmd) (c : cmdCache) : bool * cmdCache :=
  if decide (fresh c cmd) then
    let c := mkCmdCache (batchSize c) (serialNumbers c) (cache c ++ [cmd]) in
    (bool_decide (batchSize c ≤ Z.of_nat (length (cache c))), c)
  else (false, c).

(** The loop that fills a batch of at most [n] commands; old commands are
    dropped and not counted. *)
Fixpoint fill (c : cmdCache) (n : nat) (l : list Cmd) : list Cmd * list Cmd :=
  match n, l with
  | O, _ => ([], l)
  | _, [] => ([], [])
  | S n', cmd :: l' =>
      if decide (fresh c cmd) then let '(batch, rest) := fill c n' l' in (cmd :: batch, rest)
      else fill c n l'
  end.

Inductive GetResult := Waiting | Batch (cmds : list Cmd).

(** [Get] until it has a batch or must wait for a notification.  The fuel counts
    the jumps back to [awaitBatch]. *)
Fixpoint Get (fuel : nat) (c : cmdCache) : outcome (GetResult * cmdCache) :=
  match fuel with
  | O => Diverge
  | S fuel' =>
      if decide (Z.of_nat (length (cache c)) ≤ batchSize c) then Ok (Waiting, c)
      else
        let '(batch, rest) := fill c (Z.to_nat (batchSize c)) (cache c) in
        let c := mkCmdCache (batchSize c) (serialNumbers c) rest in
        if decide (batch = []) then Get fuel' c else Ok (Batch batch, c)
  end.

Section encoding.
Context (unmarshal : Command → option (list Cmd)).

Definition Accept (cmd : Command) (c : cmdCache) : bool :=
  match unmarshal cmd with
  | None => false
  | Some batch => forallb (λ cmd, bool_decide (fresh c cmd)) batch
  end.

Definition propose_one (c : cmdCache) (cmd : Cmd) : cmdCache :=
  if decide (serial c (ClientID cmd) < SequenceNumber cmd)
  then mkCmdCache (batchSize c) (<[ ClientID cmd := SequenceNumber cmd ]> (serialNumbers c)) (cache c)
  else c.
Definition Proposed (cmd : Command) (c : cmdCache) : cmdCache :=
  match unmarshal cmd with
  | None => c
  | Some batch => foldl propose_one c batch
  end.

(** ** Serial numbers only grow *)
Definition serial_le (c c' : cmdCache) : Prop := ∀ client, serial c client ≤ serial c' client.
#[export] Instance serial_le_preorder : PreOrder serial_le.
Proof. split; [intros c k; lia|]. intros c1 c2 c3 H1 H2 k. specialize (H1 k). specialize (H2 k). lia. Qed.

Lemma propose_one_le c cmd :
  serial_le c (propose_one c cmd) ∧ SequenceNumber cmd ≤ serial (propose_one c cmd) (ClientID cmd).
Proof.
  unfold propose_one. case_decide as Hd; [|split; [done|lia]]. split.
  - intros k. unfold serial in *. cbn. destruct (decide (k = ClientID cmd)) as [->|Hk].
    + rewrite lookup_insert_eq. cbn. lia.
    + by rewrite lookup_insert_ne.
  - unfold serial. cbn. rewrite lookup_insert_eq. done.
Qed.

Lemma foldl_propose_le batch c :
  serial_le c (foldl propose_one c batch) ∧
  ∀ cmd, cmd ∈ batch → SequenceNumber cmd ≤ serial (foldl propose_one c batch) (ClientID cmd).
Proof.
  revert c. induction batch as [|x batch IH]; intros c; cbn; [split; [done|set_solver]|].
  destruct (propose_one_le c x) as [Hle Hx]. destruct (IH (propose_one c x)) as [Hle' Hin].
  split; [by etrans|]. intros cmd [->|Hc]%elem_of_cons; [|by apply Hin].
  specialize (Hle' (ClientID x)). lia.
Qed.

Lemma Proposed_le cmd c : serial_le c (Proposed cmd c).
Proof. unfold Proposed. destruct (unmarshal cmd); [apply foldl_propose_le|done]. Qed.

(** ** Filling a batch *)
Lemma fill_spec c n l batch rest :
  fill c n l = (batch, rest) →
  filter (fresh c) l = batch ++ filter (fresh c) rest ∧ (length batch ≤ n)%nat ∧
  Forall (fresh c) batch ∧ (length batch < n → rest = [])%nat ∧ (length rest ≤ length l)%nat.
Proof.
  revert n batch rest. induction l as [|x l IH]; intros n batch rest E.
  { destruct n; cbn in E; simplify_eq; cbn; split_and!; done || lia. }
  destruct n as [|n]; cbn in E; [simplify_eq; cbn [length app]; split_and!; try done; lia|].
  rewrite filter_cons. case_decide as Hx.
  - destruct (fill c n l) as [b r] eqn:Ef. simplify_eq. destruct (IH _ _ _ Ef) as (H1 & H2 & H3 & H4 & H5).
    rewrite H1. cbn [length app]. split_and!; [done|lia|by constructor|intros; apply H4; lia|lia].
  - destruct (IH _ _ _ E) as (H1 & H2 & H3 & H4 & H5). cbn [length]. split_and!; [done..|lia].
Qed.

Lemma fill_progress c n l batch rest :
  fill c (S n) l = (batch, rest) → l ≠ [] → (length rest < length l)%nat.
Proof.
  destruct l as [|x l]; [done|]. cbn. intros E _. case_decide.
  - destruct (fill c n l) as [b r] eqn:Ef. simplify_eq. destruct (fill_spec _ _ _ _ _ Ef) as (_ & _ & _ & _ & ?). lia.
  - destruct (fill_spec _ _ _ _ _ E) as (_ & _ & _ & _ & ?). lia.
Qed.

(** A proposed batch is never accepted again: after [Proposed], as long as serial
    numbers only grow (as all operations make them), [Accept] refuses the batch. *)
Theorem proposed_not_accepted cmd batch c c' :
  unmarshal cmd = Some batch → batch ≠ [] → serial_le (Proposed cmd c) c' → Accept cmd c' = false.
Proof.
  intros Eb Hne Hle. unfold Accept. rewrite Eb. destruct batch as [|x batch]; [done|]. cbn.
  rewrite bool_decide_false; [done|]. unfold fresh. intros Hx. apply Hx.
  unfold Proposed in Hle. rewrite Eb in Hle. destruct (foldl_propose_le (x :: batch) c) as [_ Hin].
  specialize (Hle (ClientID x)). specialize (Hin x ltac:(set_solver)). lia.
Qed.
End encoding.

(** [Get] always ends, at most one jump back after it started: it either waits for
    more commands, or returns a batch of between one and [batchSize] commands, all new,
    which are the oldest new commands in the order they arrived; no other new command
    is lost. *)
Theorem Get_correct c :
  0 < batchSize c →
  ∃ res c', Get 2 c = Ok (res, c') ∧ serialNumbers c' = serialNumbers c ∧ batchSize c' = batchSize c ∧
    match res with
    | Waiting => filter (fresh c) (cache c') = filter (fresh c) (cache c) ∧
                 Z.of_nat (length (cache c')) ≤ batchSize c
    | Batch cmds => cmds ≠ [] ∧ Z.of_nat (length cmds) ≤ batchSize c ∧ Forall (fresh c) cmds ∧
                    filter (fresh c) (cache c) = cmds ++ filter (fresh c) (cache c')
    end.
Proof.
  intros Hb. cbn [Get]. case_decide; [by eexists _, _|].
  destruct (fill c (Z.to_nat (batchSize c)) (cache c)) as [batch rest] eqn:Ef.
  destruct (fill_spec _ _ _ _ _ Ef) as (H1 & H2 & H3 & H4 & H5). case_decide as Hne.
  - subst batch. cbn in H4. rewrite H4 by lia. cbn [length cache batchSize]. rewrite decide_True by (cbn; lia).
    eexists _, _. split; [done|]. rewrite H1, H4 by lia. cbn. split_and!; [done..|lia].
  - eexists _, _. split; [done|]. cbn. split_and!; [done..|lia|done|done].
Qed.
Lemma Get_correct_witness :
  ∃ c', Get 2 (mkCmdCache 2 {[ 7 := 4 ]} [mkCmd 7 4 []; mkCmd 7 5 []; mkCmd 8 1 []; mkCmd 8 2 []]) =
    Ok (Batch [mkCmd 7 5 []; mkCmd 8 1 []], c').
Proof.
  destruct (Get_correct (mkCmdCache 2 {[ 7 := 4 ]} [mkCmd 7 4 []; mkCmd 7 5 []; mkCmd 8 1 []; mkCmd 8 2 []]))
    as (res & c' & E & _).
  - cbn. lia.
  - exists c'. assert (E' := E). vm_compute in E'. rewrite E. congruence.
Defined.

Lemma proposed_not_accepted_witness :
  Accept (λ _, Some [mkCmd 7 5 []]) [1] (Proposed (λ _, Some [mkCmd 7 5 []]) [1] (newCmdCache 2)) = false.
Proof.
  apply (proposed_not_accepted (λ _, Some [mkCmd 7 5 []]) [1] [mkCmd 7 5 []] (newCmdCache 2)).
  - reflexivity.
  - discriminate.
  - reflexivity.
Defined.

(** A full batch is not sent: when the command that completes a batch arrives, [Get]
    is notified, and yet it goes on waiting; the batch leaves only once one command
    more than [batchSize] is queued. *)
Theorem full_batch_waits cmd c fuel :
  fresh c cmd → Z.of_nat (length (cache c)) + 1 = batchSize c →
  ∃ c', addCommand cmd c = (true, c') ∧ cache c' = cache c ++ [cmd] ∧ Get (S fuel) c' = Ok (Waiting, c').
Proof.
  intros Hf Hlen. unfold addCommand. rewrite decide_True by done. cbn.
  assert (E : Z.of_nat (length (cache c ++ [cmd])) = batchSize c) by (rewrite length_app; cbn; lia).
  rewrite E. rewrite bool_decide_true by lia. eexists. split_and!; [done|done|].
  cbn. rewrite E. by rewrite decide_True by lia.
Qed.
Lemma full_batch_waits_witness :
  ∃ c', addCommand (mkCmd 7 1 []) (newCmdCache 1) = (true, c') ∧ Get 5 c' = Ok (Waiting, c').
Proof.
  destruct (full_batch_waits (mkCmd 7 1 []) (newCmdCache 1) 4) as (c' & E & _ & Hg).
  - vm_compute. intros Hx. by apply Hx.
  - reflexivity.
  - exists c'. split; [exact E|exact Hg].
Defined.

(** ** Replies to clients (clientsrv.go) *)
Inductive Reply := ReplyOk | ReplyForked.
Abbreviation cmdID := (Z * Z)%type.

Record clientSrv := mkClientSrv {
  awaitingCmds : gset cmdID;
  hashed : bytes;                   (* what was written to the running hash *)
  cmdCount : Z;
  replies : list (cmdID * Reply);   (* sent, oldest first *)
}.
Definition id_of (cmd : Cmd) : cmdID := (ClientID cmd, SequenceNumber cmd).

Definition ExecCommand (cmd : Cmd) (srv : clientSrv) : clientSrv :=
  mkClientSrv ({[ id_of cmd ]} ∪ awaitingCmds srv) (hashed srv) (cmdCount srv) (replies srv).

Definition answer (r : Reply) (cmd : Cmd) (srv : clientSrv) : clientSrv :=
  if decide (id_of cmd ∈ awaitingCmds srv)
  then mkClientSrv (awaitingCmds srv ∖ {[ id_of cmd ]}) (hashed srv) (cmdCount srv)
         (replies srv ++ [(id_of cmd, r)])
  else srv.

Section replies.
Context (unmarshal : Command → option (list Cmd)).

Definition exec_one (srv : clientSrv) (cmd : Cmd) : clientSrv :=
  answer ReplyOk cmd
    (mkClientSrv (awaitingCmds srv) (hashed srv ++ Data cmd) (u32 (cmdCount srv + 1)) (replies srv)).
Definition Exec (cmd : Command) (srv : clientSrv) : clientSrv :=
  match unmarshal cmd with Some batch => foldl exec_one srv batch | None => srv end.
Definition Fork (cmd : Command) (srv : clientSrv) : clientSrv :=
  match unmarshal cmd with
  | Some batch => foldl (λ s c, answer ReplyForked c s) srv batch
  | None => srv
  end.

Lemma answer_spec r cmd srv :
  awaitingCmds (answer r cmd srv) = awaitingCmds srv ∖ {[ id_of cmd ]} ∧
  ∃ new, replies (answer r cmd srv) = replies srv ++ ((λ i, (i, r)) <$> new) ∧
    NoDup new ∧ ∀ i, i ∈ new ↔ i = id_of cmd ∧ i ∈ awaitingCmds srv.
Proof.
  unfold answer. case_decide as Hd; cbn.
  - split; [done|]. exists [id_of cmd]. split_and!; [done|apply NoDup_singleton|]. set_solver.
  - split; [set_solver|]. exists []. rewrite app_nil_r. split_and!; [done|constructor|]. set_solver.
Qed.

(** Answering the commands of a batch one by one. *)
Lemma foldl_answer_spec r (f : clientSrv → Cmd → clientSrv) batch srv :
  (∀ s c, ∃ h n, f s c = answer r c (mkClientSrv (awaitingCmds s) h n (replies s))) →
  let srv' := foldl f srv batch in
  awaitingCmds srv' = awaitingCmds srv ∖ list_to_set (id_of <$> batch) ∧
  ∃ new, replies srv' = replies srv ++ ((λ i, (i, r)) <$> new) ∧ NoDup new ∧
    ∀ i, i ∈ new ↔ i ∈ id_of <$> batch ∧ i ∈ awaitingCmds srv.
Proof.
  intros Hf. revert srv. induction batch as [|x batch IH]; intros srv; cbn.
  { split; [set_solver|]. exists []. rewrite app_nil_r. split_and!; [done|constructor|set_solver]. }
  destruct (Hf srv x) as (h & n & Ex). destruct (answer_spec r x (mkClientSrv (awaitingCmds srv) h n (replies srv)))
    as (Ha & new1 & Hr1 & Hnd1 & Hin1). rewrite <-Ex in Ha, Hr1. cbn in Ha, Hr1, Hin1.
  destruct (IH (f srv x)) as (Ha2 & new2 & Hr2 & Hnd2 & Hin2). split; [rewrite Ha2, Ha; set_solver|].
  exists (new1 ++ new2). rewrite Hr2, Hr1, fmap_app, app_assoc. split_and!; [done| |].
  - apply NoDup_app. split_and!; [done| |done]. intros i Hi1 Hi2. apply Hin1 in Hi1 as [-> _].
    apply Hin2 in Hi2 as [_ Hi2]. rewrite Ha in Hi2. set_solver.
  - intros i. rewrite elem_of_app, Hin1, Hin2, Ha, elem_of_cons, elem_of_difference, elem_of_singleton.
    destruct (decide (i = id_of x)); tauto.
Qed.

(** Executing a batch answers each waiting client command of the batch exactly once,
    with success, and no other; answered commands no longer wait.  A forked batch is
    answered in the same way, with the fork error. *)
Theorem Exec_Fork_replies cmd batch srv :
  unmarshal cmd = Some batch →
  (∃ new, replies (Exec cmd srv) = replies srv ++ ((λ i, (i, ReplyOk)) <$> new) ∧ NoDup new ∧
     (∀ i, i ∈ new ↔ i ∈ id_of <$> batch ∧ i ∈ awaitingCmds srv) ∧
     awaitingCmds (Exec cmd srv) = awaitingCmds srv ∖ list_to_set (id_of <$> batch)) ∧
  (∃ new, replies (Fork cmd srv) = replies srv ++ ((λ i, (i, ReplyForked)) <$> new) ∧ NoDup new ∧
     (∀ i, i ∈ new ↔ i ∈ id_of <$> batch ∧ i ∈ awaitingCmds srv) ∧
     awaitingCmds (Fork cmd srv) = awaitingCmds srv ∖ list_to_set (id_of <$> batch)).
Proof.
  intros Eb. unfold Exec, Fork. rewrite Eb. split.
  - destruct (foldl_answer_spec ReplyOk exec_one batch srv) as (Ha & new & Hr & Hnd & Hin); [intros s c; unfold exec_one; by eexists _, _|].
    by exists new.
  - destruct (foldl_answer_spec ReplyForked (λ s c, answer ReplyForked c s) batch srv) as (Ha & new & Hr & Hnd & Hin).
    { intros s c. exists (hashed s), (cmdCount s). by destruct s. }
    by exists new.
Qed.
End replies.

Lemma Exec_Fork_replies_witness :
  replies (Exec (λ _, Some [mkCmd 1 1 []; mkCmd 1 1 []; mkCmd 2 9 []]) [] (ExecCommand (mkCmd 1 1 []) (mkClientSrv ∅ [] 0 [])))
    = [((1, 1), ReplyOk)].
Proof.
  destruct (Exec_Fork_replies (λ _, Some [mkCmd 1 1 []; mkCmd 1 1 []; mkCmd 2 9 []]) []
    [mkCmd 1 1 []; mkCmd 1 1 []; mkCmd 2 9 []] (ExecCommand (mkCmd 1 1 []) (mkClientSrv ∅ [] 0 [])))
    as [(new & Hr & _) _]; [reflexivity|]. vm_compute. reflexivity.
Defined.
