(* ===== verification/TmBits.v ===== *)
(** Bit arrays (src/sourcecodes/tendermint/libs/bits/bit_array.go).

    A bit array is [Bits] together with a slice of 64-bit words; the nil pointer is
    [None].  The abstraction [bits_of] is the list of its bits, and the theorems say
    which list operation each method is.  The words may carry bits beyond [Bits]
    ([Not] sets them): [clean] says that they do not, and the theorems show which
    methods need it. *)

From S2P Require Import Prelude.

Record BitArray := mkBitArray { Bits : Z; Elems : list Z }.

#[global] Instance BitArray_eq_dec : EqDecision BitArray.
Proof. solve_decision. Defined.

(** [x << n] on [uint64], for an unsigned [n]. *)
Definition shl64 (x n : Z) : Z := if decide (n < 64) then u64 (Z.shiftl x n) else 0.
(** [^x] on [uint64]. *)
Definition not64 (x : Z) : Z := two64 - 1 - x.

Definition nWords (bits : Z) : Z := Z.quot (bits + 63) 64.

Definition NewBitArray (bits : Z) : option BitArray :=
  if decide (bits ≤ 0) then None
  else Some {| Bits := bits; Elems := replicate (Z.to_nat (nWords bits)) 0 |}.

Definition Size (bA : option BitArray) : Z :=
  match bA with None => 0 | Some b => Bits b end.

Definition mask_of (i : Z) : Z := shl64 1 (u64 (Z.rem i 64)).

Definition getIndex (bA : BitArray) (i : Z) : outcome bool :=
  if decide (Bits bA ≤ i) then Ok false else
  let! e := slice_get (Elems bA) (Z.quot i 64) in
  Ok (bool_decide (0 < Z.land e (mask_of i))).

Definition GetIndex (bA : option BitArray) (i : Z) : outcome bool :=
  match bA with None => Ok false | Some b => getIndex b i end.

Definition setIndex (bA : BitArray) (i : Z) (v : bool) : outcome (bool * BitArray) :=
  if decide (Bits bA ≤ i) then Ok (false, bA) else
  let! e := slice_get (Elems bA) (Z.quot i 64) in
  let e' := if v then Z.lor e (mask_of i) else Z.land e (not64 (mask_of i)) in
  let! es := slice_set (Elems bA) (Z.quot i 64) e' in
  Ok (true, {| Bits := Bits bA; Elems := es |}).

Definition SetIndex (bA : option BitArray) (i : Z) (v : bool) : outcome (bool * option BitArray) :=
  match bA with
  | None => Ok (false, None)
  | Some b => let! (r, b') := setIndex b i v in Ok (r, Some b')
  end.

(** [copy(c, bA.Elems)] into a zeroed slice of [n] words. *)
Definition copy_words (n : nat) (es : list Z) : list Z :=
  take n es ++ replicate (n - length es) 0.

Definition copy (bA : BitArray) : BitArray :=
  {| Bits := Bits bA; Elems := copy_words (length (Elems bA)) (Elems bA) |}.

Definition Copy (bA : option BitArray) : option BitArray := copy <$> bA.

Definition copyBits (bA : BitArray) (bits : Z) : BitArray :=
  {| Bits := bits; Elems := copy_words (Z.to_nat (nWords bits)) (Elems bA) |}.

(** [for i := 0; i < n; i++ { c[i] = op(c[i], o[i]) }] *)
Fixpoint update_words (op : Z → Z → Z) (n : nat) (c o : list Z) : outcome (list Z) :=
  match n with
  | O => Ok c
  | S n' =>
      match c, o with
      | x :: c', y :: o' => let! r := update_words op n' c' o' in Ok (op x y :: r)
      | _, _ => Panic
      end
  end.

Definition Or (bA o : option BitArray) : outcome (option BitArray) :=
  match bA, o with
  | None, None => Ok None
  | None, Some _ => Ok (Copy o)
  | Some _, None => Ok (Copy bA)
  | Some a, Some b =>
      let c := copyBits a (Z.max (Bits a) (Bits b)) in
      let smaller := Nat.min (length (Elems a)) (length (Elems b)) in
      let! es := update_words Z.lor smaller (Elems c) (Elems b) in
      Ok (Some {| Bits := Bits c; Elems := es |})
  end.

Definition and (a b : BitArray) : outcome BitArray :=
  let c := copyBits a (Z.min (Bits a) (Bits b)) in
  let! es := update_words Z.land (length (Elems c)) (Elems c) (Elems b) in
  Ok {| Bits := Bits c; Elems := es |}.

Definition And (bA o : option BitArray) : outcome (option BitArray) :=
  match bA, o with
  | Some a, Some b => let! c := and a b in Ok (Some c)
  | _, _ => Ok None
  end.

Definition not (bA : BitArray) : BitArray :=
  let c := copy bA in {| Bits := Bits c; Elems := not64 <$> Elems c |}.

Definition Not (bA : option BitArray) : option BitArray := not <$> bA.

Definition Sub (bA o : option BitArray) : outcome (option BitArray) :=
  match bA, o with
  | Some a, Some b =>
      let c := copyBits a (Bits a) in
      let smaller := Nat.min (length (Elems a)) (length (Elems b)) in
      let! es := update_words (λ x y, Z.land x (not64 y)) smaller (Elems c) (Elems b) in
      Ok (Some {| Bits := Bits c; Elems := es |})
  | _, _ => Ok None
  end.

Definition IsEmpty (bA : option BitArray) : bool :=
  match bA with
  | None => true
  | Some b => negb (existsb (λ e, bool_decide (0 < e)) (Elems b))
  end.

Definition IsFull (bA : option BitArray) : outcome bool :=
  match bA with
  | None => Ok true
  | Some b =>
      match last (Elems b) with
      | None => Panic
      | Some lastElem =>
          if existsb (λ e, negb (bool_decide (not64 e = 0))) (take (length (Elems b) - 1) (Elems b))
          then Ok false
          else
            let lastElemBits := Z.rem (Bits b + 63) 64 + 1 in
            Ok (bool_decide (Z.land (u64 (lastElem + 1)) (u64 (shl64 1 lastElemBits - 1)) = 0))
      end
  end.

(** The bits [0 .. n) of a word that are set, counted from [cur]. *)
Definition word_indices (e cur : Z) (n : Z) : list Z :=
  omap (λ j, if bool_decide (0 < Z.land e (shl64 1 j)) then Some (cur + j) else None) (seqZ 0 n).

Fixpoint getTrueIndices_go (bits cur : Z) (es : list Z) : outcome (list Z) :=
  match es with
  | [] => Panic
  | [lastElem] => Ok (word_indices lastElem cur (bits - cur))
  | e :: es' =>
      let! r := getTrueIndices_go bits (cur + 64) es' in
      Ok ((if decide (e = 0) then [] else word_indices e cur 64) ++ r)
  end.

Definition getTrueIndices (bA : BitArray) : outcome (list Z) :=
  getTrueIndices_go (Bits bA) 0 (Elems bA).

(** [tmrand.Intn(n)] is the argument [rnd]. *)
Definition PickRandom (rnd : Z → Z) (bA : option BitArray) : outcome (Z * bool) :=
  match bA with
  | None => Ok (0, false)
  | Some b =>
      let! idx := getTrueIndices b in
      match idx with
      | [] => Ok (0, false)
      | _ => let! i := slice_get idx (rnd (Z.of_nat (length idx))) in Ok (i, true)
      end
  end.

(** [copy(bytes[i*8:], elemBytes[:])] for each word. *)
Fixpoint put_words (off : nat) (es : list Z) (bs : bytes) : outcome bytes :=
  match es with
  | [] => Ok bs
  | e :: es' =>
      if decide (off ≤ length bs)%nat then
        put_words (off + 8) es' (take (length bs) (take off bs ++ le_bytes 8 e ++ drop (off + 8) bs))
      else Panic
  end.

Definition Bytes (bA : BitArray) : outcome bytes :=
  put_words 0 (Elems bA) (replicate (Z.to_nat (Z.quot (Bits bA + 7) 8)) 0).

Definition Update (bA o : option BitArray) : option BitArray :=
  match bA, o with
  | Some a, Some b =>
      Some {| Bits := Bits a;
              Elems := take (length (Elems a)) (Elems b) ++ drop (length (Elems b)) (Elems a) |}
  | _, _ => bA
  end.

(** The characters of the JSON form. *)
Definition dquote : Z := 34.
Definition ch_x : Z := 120.
Definition ch_underscore : Z := 95.
Definition json_null : bytes := [110; 117; 108; 108].

Fixpoint json_bits (bA : BitArray) (idx : list Z) : outcome bytes :=
  match idx with
  | [] => Ok []
  | i :: idx' =>
      let! b := getIndex bA i in
      let! r := json_bits bA idx' in
      Ok ((if b then ch_x else ch_underscore) :: r)
  end.

Definition MarshalJSON (bA : option BitArray) : outcome bytes :=
  match bA with
  | None => Ok json_null
  | Some b =>
      let! s := json_bits b (seqZ 0 (Bits b)) in
      Ok ([dquote] ++ s ++ [dquote])
  end.

(** The regular expression: a quote, characters [_] and [x], a quote; the result is the
    text between the quotes. *)
Definition bitArrayJSONRegexp (bz : bytes) : option bytes :=
  match bz with
  | q :: rest =>
      match last rest with
      | Some q' =>
          let body := take (length rest - 1) rest in
          if decide (q = dquote ∧ q' = dquote ∧ Forall (λ c, c = ch_x ∨ c = ch_underscore) body)
          then Some body else None
      | None => None
      end
  | [] => None
  end.

Fixpoint set_bits (bA : option BitArray) (i : Z) (bits : bytes) : outcome (option BitArray) :=
  match bits with
  | [] => Ok bA
  | c :: bits' =>
      let! bA' := (if decide (c = ch_x) then let! (_, b) := SetIndex bA i true in Ok b else Ok bA) in
      set_bits bA' (i + 1) bits'
  end.

(** The new contents of the receiver, or [None] for an error.  [*bA = *bA2] panics
    when [bA2] is nil. *)
Definition UnmarshalJSON (bz : bytes) : outcome (option BitArray) :=
  if decide (bz = json_null) then Ok (Some {| Bits := 0; Elems := [] |}) else
  match bitArrayJSONRegexp bz with
  | None => Ok None
  | Some bits =>
      let! b := set_bits (NewBitArray (Z.of_nat (length bits))) 0 bits in
      match b with
      | None => Panic
      | Some b' => Ok (Some b')
      end
  end.

(** Protobuf has the same two fields. *)
Definition ToProto (bA : option BitArray) : option BitArray :=
  match bA with
  | Some b => if decide (Elems b = []) then None else Some b
  | None => None
  end.

Definition FromProto (bA : BitArray) (p : option BitArray) : BitArray :=
  match p with
  | None => bA
  | Some q => {| Bits := Bits q; Elems := if decide (Elems q = []) then Elems bA else Elems q |}
  end.

(** ** The abstraction *)

Definition bit_at (es : list Z) (i : Z) : bool :=
  Z.testbit (default 0 (es !! Z.to_nat (i / 64))) (i mod 64).

(** The bits of an array: nothing beyond its size. *)
Definition has (bA : option BitArray) (i : Z) : bool :=
  match bA with
  | None => false
  | Some b => bool_decide (0 ≤ i < Bits b) && bit_at (Elems b) i
  end.

Record wf (b : BitArray) : Prop := {
  wf_pos : 0 < Bits b;
  wf_len : length (Elems b) = Z.to_nat (nWords (Bits b));
  wf_words : Forall is_u64 (Elems b);
}.

Definition clean (b : BitArray) : Prop := ∀ i, Bits b ≤ i → bit_at (Elems b) i = false.

(** A pointer to a bit array that is nil or well formed with clear padding. *)
Definition good (bA : option BitArray) : Prop :=
  match bA with None => True | Some b => wf b ∧ clean b end.

(** ** Words *)
Lemma is_u64_bits x : is_u64 x ↔ 0 ≤ x ∧ ∀ j, 64 ≤ j → Z.testbit x j = false.
Proof.
  unfold is_u64, two64. split.
  - intros [H1 H2]. split; [done|]. intros j Hj.
    rewrite <-(Z.mod_small x (2 ^ 64)) by lia. by rewrite Z.mod_pow2_bits_high by lia.
  - intros [H1 H2]. split; [done|]. rewrite <-(Z.mod_small x (2 ^ 64)) at 1.
    + apply Z.mod_pos_bound. lia.
    + split; [done|]. destruct (decide (x = 0)) as [->|Hx]; [lia|].
      apply Z.log2_lt_pow2; [lia|]. destruct (decide (Z.log2 x < 64)); [done|].
      specialize (H2 (Z.log2 x) ltac:(lia)). rewrite Z.bit_log2 in H2; [done|lia].
Qed.

Lemma mask_u64 k : 0 ≤ k < 64 → shl64 1 k = 2 ^ k.
Proof.
  intros Hk. unfold shl64. rewrite decide_True by lia. unfold u64, two64.
  rewrite Z.shiftl_1_l, Z.mod_small; [done|].
  split; [apply Z.pow_nonneg; lia|]. apply Z.pow_lt_mono_r; lia.
Qed.

Lemma pow2_u64 k : 0 ≤ k < 64 → is_u64 (2 ^ k).
Proof.
  intros Hk. unfold is_u64, two64. split; [apply Z.pow_nonneg; lia|apply Z.pow_lt_mono_r; lia].
Qed.

Lemma mask_of_eq i : 0 ≤ i → mask_of i = 2 ^ (i mod 64).
Proof.
  intros Hi. unfold mask_of. rewrite Z.rem_mod_nonneg by lia.
  pose proof (Z.mod_pos_bound i 64 ltac:(lia)). unfold u64.
  rewrite (Z.mod_small _ two64) by (unfold two64; lia). apply mask_u64. lia.
Qed.

Lemma land_mask e k : 0 ≤ k < 64 → bool_decide (0 < Z.land e (2 ^ k)) = Z.testbit e k.
Proof.
  intros Hk. destruct (Z.testbit e k) eqn:E.
  - apply bool_decide_eq_true_2.
    assert (0 ≤ Z.land e (2 ^ k)) by (apply Z.land_nonneg; right; apply Z.pow_nonneg; lia).
    assert (Z.land e (2 ^ k) ≠ 0); [|lia]. intros H0.
    apply (f_equal (λ z, Z.testbit z k)) in H0.
    rewrite Z.land_spec, Z.pow2_bits_true, E, Z.testbit_0_l in H0; [done|lia].
  - apply bool_decide_eq_false_2. replace (Z.land e (2 ^ k)) with 0; [lia|].
    symmetry. apply Z.bits_inj'. intros j Hj. rewrite Z.land_spec, Z.testbit_0_l, Z.pow2_bits_eqb by lia.
    destruct (Z.eqb_spec k j) as [->|]; [by rewrite E|by rewrite andb_false_r].
Qed.

Lemma not64_lnot x : is_u64 x → not64 x = Z.lnot x mod 2 ^ 64.
Proof.
  unfold is_u64, two64, not64, Z.lnot. intros Hx.
  apply (Z.mod_unique_pos _ _ (-1)); unfold two64; lia.
Qed.

Lemma not64_bits x j : is_u64 x → 0 ≤ j < 64 → Z.testbit (not64 x) j = negb (Z.testbit x j).
Proof. intros Hx Hj. rewrite not64_lnot, Z.mod_pow2_bits_low, Z.lnot_spec by (done || lia). done. Qed.

Lemma not64_u64 x : is_u64 x → is_u64 (not64 x).
Proof. unfold is_u64, not64. lia. Qed.

Lemma lor_u64 x y : is_u64 x → is_u64 y → is_u64 (Z.lor x y).
Proof.
  rewrite !is_u64_bits. intros [Hx1 Hx2] [Hy1 Hy2]. split; [by apply Z.lor_nonneg|].
  intros j Hj. rewrite Z.lor_spec, Hx2, Hy2 by lia. done.
Qed.

Lemma land_u64 x y : is_u64 x → is_u64 y → is_u64 (Z.land x y).
Proof.
  rewrite !is_u64_bits. intros [Hx1 Hx2] [Hy1 Hy2]. split; [apply Z.land_nonneg; by left|].
  intros j Hj. rewrite Z.land_spec, Hx2 by lia. done.
Qed.

Lemma zero_u64 : is_u64 0.
Proof. unfold is_u64, two64. lia. Qed.
#[export] Hint Resolve not64_u64 lor_u64 land_u64 zero_u64 pow2_u64 : nimble.

(** ** Word arrays *)
Lemma nWords_div n : 0 ≤ n → nWords n = (n + 63) / 64.
Proof. intros H. unfold nWords. apply Z.quot_div_nonneg; lia. Qed.

Lemma word_index_lt i n : 0 ≤ i < n → (Z.to_nat (i / 64) < Z.to_nat (nWords n))%nat.
Proof.
  intros H. rewrite nWords_div by lia.
  assert (i / 64 < (n + 63) / 64); [|pose proof (Z.div_pos i 64); lia].
  pose proof (Z.div_mod i 64). pose proof (Z.mod_pos_bound i 64).
  pose proof (Z.div_mod (n + 63) 64). pose proof (Z.mod_pos_bound (n + 63) 64). lia.
Qed.

Lemma bit_at_ge es i : (length es ≤ Z.to_nat (i / 64))%nat → bit_at es i = false.
Proof. intros H. unfold bit_at. by rewrite lookup_ge_None_2, Z.testbit_0_l by done. Qed.

Lemma has_clean b i : clean b → 0 ≤ i → has (Some b) i = bit_at (Elems b) i.
Proof.
  intros Hc Hi. unfold has. case_bool_decide; [done|]. rewrite Hc by lia. done.
Qed.

Lemma lookup_copy_words n es k :
  copy_words n es !! k = if decide (k < n)%nat then Some (default 0 (es !! k)) else None.
Proof.
  unfold copy_words. case_decide as Hk.
  - destruct (es !! k) as [x|] eqn:E; cbn [default].
    + rewrite lookup_app_l, lookup_take_lt; [done|lia|].
      apply lookup_lt_Some in E. rewrite length_take. lia.
    + apply lookup_ge_None in E. rewrite lookup_app_r, length_take by (rewrite length_take; lia).
      apply lookup_replicate_2. lia.
  - apply lookup_ge_None. rewrite length_app, length_take, length_replicate. lia.
Qed.

Lemma length_copy_words n es : length (copy_words n es) = n.
Proof. unfold copy_words. rewrite length_app, length_take, length_replicate. lia. Qed.

Lemma copy_words_id es : copy_words (length es) es = es.
Proof. unfold copy_words. by rewrite take_ge, Nat.sub_diag, app_nil_r by lia. Qed.

Lemma bit_at_copy_words n es i :
  bit_at (copy_words n es) i = bool_decide (Z.to_nat (i / 64) < n)%nat && bit_at es i.
Proof.
  unfold bit_at. rewrite lookup_copy_words. case_decide as H; case_bool_decide; try done.
  by rewrite Z.testbit_0_l.
Qed.

Lemma copy_words_u64 n es : Forall is_u64 es → Forall is_u64 (copy_words n es).
Proof.
  intros H. unfold copy_words. apply Forall_app_2; [by apply Forall_take|].
  apply Forall_replicate, zero_u64.
Qed.

Lemma update_words_spec op n c o :
  (n ≤ length c)%nat → (n ≤ length o)%nat →
  ∃ r, update_words op n c o = Ok r ∧ length r = length c ∧
    ∀ k, r !! k = if decide (k < n)%nat then Some (op (default 0 (c !! k)) (default 0 (o !! k))) else c !! k.
Proof.
  revert c o. induction n as [|n IH]; intros c o Hc Ho.
  { exists c. split; [done|]. split; [done|]. intros k. by rewrite decide_False by lia. }
  destruct c as [|x c]; cbn [length] in Hc; [lia|].
  destruct o as [|y o]; cbn [length] in Ho; [lia|].
  destruct (IH c o) as (r & Hr & Hl & Hk); [lia|lia|]. exists (op x y :: r). cbn [update_words].
  rewrite Hr. split; [done|]. split; [cbn; lia|]. intros [|k]; [done|].
  cbn [lookup list_lookup]. rewrite Hk. repeat case_decide; (done || lia).
Qed.

Lemma update_words_u64 op n c o r :
  (∀ x y, is_u64 x → is_u64 y → is_u64 (op x y)) → Forall is_u64 c → Forall is_u64 o →
  update_words op n c o = Ok r → Forall is_u64 r.
Proof.
  intros Hop. revert c o r. induction n as [|n IH]; intros c o r Hc Ho E; cbn in E; [by simplify_eq|].
  destruct Hc as [|x c]; [done|]. destruct Ho as [|y o]; [done|].
  destruct (update_words op n c o) eqn:E'; cbn in E; simplify_eq. constructor; eauto.
Qed.

Lemma word_u64 es k : Forall is_u64 es → is_u64 (default 0 (es !! k)).
Proof.
  intros H. destruct (es !! k) as [x|] eqn:E; cbn; [by eapply Forall_lookup_1|apply zero_u64].
Qed.

(** A word-wise operation that is bit-wise [opb] is [opb] on the bits it reaches. *)
Definition bitwise (op : Z → Z → Z) (opb : bool → bool → bool) : Prop :=
  (∀ x y, is_u64 x → is_u64 y → is_u64 (op x y)) ∧
  (∀ x y j, is_u64 x → is_u64 y → 0 ≤ j < 64 →
     Z.testbit (op x y) j = opb (Z.testbit x j) (Z.testbit y j)).

Lemma bitwise_lor : bitwise Z.lor orb.
Proof. split; [auto with nimble|]. intros. apply Z.lor_spec. Qed.
Lemma bitwise_land : bitwise Z.land andb.
Proof. split; [auto with nimble|]. intros. apply Z.land_spec. Qed.
Lemma bitwise_andnot : bitwise (λ x y, Z.land x (not64 y)) (λ x y, x && negb y).
Proof. split; [auto with nimble|]. intros. by rewrite Z.land_spec, not64_bits. Qed.

Lemma update_words_bits op opb n c o :
  bitwise op opb → Forall is_u64 c → Forall is_u64 o →
  (n ≤ length c)%nat → (n ≤ length o)%nat →
  ∃ r, update_words op n c o = Ok r ∧ length r = length c ∧ Forall is_u64 r ∧
    ∀ i, 0 ≤ i →
      bit_at r i = if decide (Z.to_nat (i / 64) < n)%nat then opb (bit_at c i) (bit_at o i)
                   else bit_at c i.
Proof.
  intros [Hu Hb] Hc Ho Hnc Hno. destruct (update_words_spec op n c o Hnc Hno) as (r & E & Hl & Hk).
  exists r. split; [done|]. split; [done|]. split; [exact (update_words_u64 op n c o r Hu Hc Ho E)|].
  intros i Hi. unfold bit_at. rewrite Hk. case_decide; [|done]. cbn [default].
  apply Hb; auto using word_u64. apply Z.mod_pos_bound. lia.
Qed.

Lemma copyBits_clean b i : wf b → clean b → 0 ≤ i →
  ∀ n, bit_at (Elems (copyBits b n)) i
       = bool_decide (Z.to_nat (i / 64) < Z.to_nat (nWords n))%nat && bit_at (Elems b) i.
Proof. intros Hw Hc Hi n. cbn [copyBits Elems]. apply bit_at_copy_words. Qed.

Lemma nWords_mono m n : 0 ≤ m ≤ n → nWords m ≤ nWords n.
Proof. intros H. rewrite !nWords_div by lia. apply Z.div_le_mono; lia. Qed.

(** Either a bit's word exists in the array, or the bit is clear. *)
Lemma bit_at_word b i : wf b → (Z.to_nat (nWords (Bits b)) ≤ Z.to_nat (i / 64))%nat →
  bit_at (Elems b) i = false.
Proof. intros Hw Hi. apply bit_at_ge. by rewrite (wf_len b Hw). Qed.

(** ** The operations *)
Lemma getIndex_has b i : wf b → 0 ≤ i → getIndex b i = Ok (has (Some b) i).
Proof.
  intros Hw Hi. unfold getIndex, has. case_decide; [by rewrite bool_decide_eq_false_2 by lia|].
  rewrite bool_decide_eq_true_2, Z.quot_div_nonneg by lia.
  destruct (slice_get_in (Elems b) (i / 64)) as (x & -> & Hx).
  { rewrite (wf_len b Hw). pose proof (word_index_lt i (Bits b) ltac:(lia)).
    pose proof (Z.div_pos i 64). lia. }
  cbn [outcome_bind]. rewrite mask_of_eq by done. unfold bit_at. rewrite Hx. cbn [default].
  rewrite land_mask; [done|]. apply Z.mod_pos_bound. lia.
Qed.

Lemma bit_at_insert es i j e' :
  0 ≤ i → 0 ≤ j → (Z.to_nat (i / 64) < length es)%nat →
  bit_at (<[Z.to_nat (i / 64) := e']> es) j
  = if decide (j / 64 = i / 64) then Z.testbit e' (j mod 64) else bit_at es j.
Proof.
  intros Hi Hj Hl. unfold bit_at. pose proof (Z.div_pos i 64). pose proof (Z.div_pos j 64).
  case_decide as E.
  - rewrite E, list_lookup_insert_eq by done. done.
  - rewrite list_lookup_insert_ne by lia. done.
Qed.

Lemma same_bit i j : 0 ≤ i → 0 ≤ j → j / 64 = i / 64 → (i mod 64 = j mod 64 ↔ i = j).
Proof. intros. pose proof (Z.div_mod i 64). pose proof (Z.div_mod j 64). split; [lia|by intros ->]. Qed.

Lemma setIndex_bit es i j (v : bool) e :
  Forall is_u64 es → 0 ≤ i → 0 ≤ j → es !! Z.to_nat (i / 64) = Some e →
  bit_at (<[Z.to_nat (i / 64) :=
            if v then Z.lor e (mask_of i) else Z.land e (not64 (mask_of i))]> es) j
  = if decide (j = i) then v else bit_at es j.
Proof.
  intros Hu Hi Hj He. rewrite bit_at_insert by (done || by eapply lookup_lt_Some).
  pose proof (Z.mod_pos_bound i 64 ltac:(lia)). pose proof (Z.mod_pos_bound j 64 ltac:(lia)).
  case_decide as E; [|by rewrite decide_False by (intros ->; done)].
  assert (bit_at es j = Z.testbit e (j mod 64)) as -> by (unfold bit_at; by rewrite E, He).
  pose proof (same_bit i j Hi Hj E) as Hij. rewrite mask_of_eq by done.
  destruct v; [rewrite Z.lor_spec|rewrite Z.land_spec, not64_bits by eauto with nimble];
    rewrite Z.pow2_bits_eqb by lia;
    destruct (Z.eqb_spec (i mod 64) (j mod 64)); case_decide; try tauto; try naive_solver;
    by rewrite ?orb_true_r, ?orb_false_r, ?andb_true_r, ?andb_false_r.
Qed.

Lemma setIndex_spec b i v : wf b → 0 ≤ i < Bits b →
  ∃ b', setIndex b i v = Ok (true, b') ∧ wf b' ∧ Bits b' = Bits b ∧
    ∀ j, 0 ≤ j → bit_at (Elems b') j = if decide (j = i) then v else bit_at (Elems b) j.
Proof.
  intros Hw Hi. unfold setIndex. rewrite decide_False, Z.quot_div_nonneg by lia.
  pose proof (word_index_lt i (Bits b) Hi). pose proof (Z.div_pos i 64).
  destruct (slice_get_in (Elems b) (i / 64)) as (e & -> & He); [rewrite (wf_len b Hw); lia|].
  cbn [outcome_bind]. rewrite slice_set_Ok by (rewrite (wf_len b Hw); lia). cbn [outcome_bind].
  eexists. split; [done|]. split.
  - split; cbn [Bits Elems]; [apply Hw|by rewrite length_insert, (wf_len b Hw)|].
    apply Forall_insert; [apply Hw|]. pose proof (Forall_lookup_1 _ _ _ _ (wf_words b Hw) He) as Hu.
    pose proof (Z.mod_pos_bound i 64 ltac:(lia)).
    rewrite mask_of_eq by lia. destruct v; auto with nimble.
  - split; [done|]. intros j Hj. cbn [Elems]. apply setIndex_bit; (done || apply Hw || lia).
Qed.

Lemma clean_of b : (∀ i, Bits b ≤ i → 0 ≤ i → bit_at (Elems b) i = false) → 0 ≤ Bits b → clean b.
Proof. intros H Hb i Hi. apply H; lia. Qed.

Lemma mk_clean n es : (∀ i, n ≤ i → bit_at es i = false) → clean {| Bits := n; Elems := es |}.
Proof. by intros H i Hi; apply H. Qed.

(** The shape shared by Or, And and Sub: copy [n] bits of the receiver, then update the
    first [k] words. *)
Lemma combine_spec op opb a b n k :
  bitwise op opb → wf a → wf b → 0 < n →
  (k ≤ Z.to_nat (nWords n))%nat → (k ≤ length (Elems b))%nat →
  ∃ es, update_words op k (Elems (copyBits a n)) (Elems b) = Ok es ∧
    wf {| Bits := n; Elems := es |} ∧
    ∀ i, 0 ≤ i → bit_at es i
      = if decide (Z.to_nat (i / 64) < k)%nat then opb (bit_at (Elems a) i) (bit_at (Elems b) i)
        else bool_decide (Z.to_nat (i / 64) < Z.to_nat (nWords n))%nat && bit_at (Elems a) i.
Proof.
  intros Hop Ha Hb Hn Hk1 Hk2.
  destruct (update_words_bits op opb k (Elems (copyBits a n)) (Elems b)) as (r & E & Hl & Hu & Hbit);
    auto using wf_words; cbn [copyBits Elems] in *.
  { apply copy_words_u64, Ha. } { by rewrite length_copy_words. }
  exists r. split; [done|]. split.
  - split; cbn; [done| |done]. by rewrite Hl, length_copy_words.
  - intros i Hi. rewrite Hbit, bit_at_copy_words by done. case_decide; [|done].
    by rewrite bool_decide_eq_true_2 by lia.
Qed.

Lemma GetIndex_spec bA i : good bA → 0 ≤ i → GetIndex bA i = Ok (has bA i).
Proof. destruct bA as [b|]; cbn; [intros [Hw _]; by apply getIndex_has|done]. Qed.

Lemma NewBitArray_good n : good (NewBitArray n) ∧ Size (NewBitArray n) = Z.max 0 n ∧
  ∀ i, has (NewBitArray n) i = false.
Proof.
  unfold NewBitArray. case_decide; cbn; [split_and!; (done || lia)|].
  assert (∀ i, bit_at (replicate (Z.to_nat (nWords n)) 0) i = false) as Hz.
  { intros i. unfold bit_at. destruct (_ !! _) eqn:E; cbn; [|apply Z.testbit_0_l].
    apply lookup_replicate in E as [-> _]. apply Z.testbit_0_l. }
  split_and!; [|by intros i Hi; apply Hz|lia|by intros i; rewrite Hz, andb_false_r].
  split; cbn; [lia|by rewrite length_replicate|apply Forall_replicate, zero_u64].
Qed.

Lemma SetIndex_spec bA i v : good bA → 0 ≤ i →
  ∃ c, SetIndex bA i v = Ok (bool_decide (i < Size bA), c) ∧ good c ∧ Size c = Size bA ∧
    ∀ j, 0 ≤ j → has c j = if decide (j = i ∧ i < Size bA) then v else has bA j.
Proof.
  intros Hg Hi. destruct bA as [b|]; cbn [Size SetIndex good] in *.
  2: { exists None. rewrite bool_decide_eq_false_2 by lia. split_and!; [done..|].
       intros j Hj. by rewrite decide_False by lia. }
  destruct Hg as [Hw Hc]. case_bool_decide as Hib.
  - destruct (setIndex_spec b i v) as (b' & -> & Hw' & HB & Hbit); [done|lia|].
    exists (Some b'). cbn. split_and!; [done|done| |done|].
    + intros j Hj. pose proof (wf_pos b Hw). rewrite HB in Hj. rewrite Hbit, decide_False by lia.
      apply Hc. lia.
    + intros j Hj. rewrite HB, Hbit by done. destruct (decide (j = i)) as [->|].
      * by rewrite decide_True, bool_decide_eq_true_2 by lia.
      * by rewrite (decide_False (P := j = i ∧ _)) by tauto.
  - unfold setIndex. rewrite decide_True by lia. exists (Some b). cbn. split_and!; try done.
    intros j Hj. by rewrite decide_False by lia.
Qed.

Lemma good_has_beyond bA i : good bA → Size bA ≤ i → has bA i = false.
Proof.
  destruct bA as [b|]; cbn; [|done]. intros _ H. by rewrite bool_decide_eq_false_2 by lia.
Qed.

(** Or never looks at the words of [o] that [bA] does not have. *)
Lemma Or_spec a b : good a → good b → (a = None ∨ nWords (Size b) ≤ nWords (Size a)) →
  ∃ c, Or a b = Ok c ∧ good c ∧ Size c = Z.max (Size a) (Size b) ∧
    ∀ i, 0 ≤ i → has c i = has a i || has b i.
Proof.
  intros Ha Hb Hlen. destruct a as [a|], b as [b|]; cbn [Or good Size] in *.
  - destruct Hlen as [?|Hlen]; [done|].
    destruct Ha as [Hwa Hca], Hb as [Hwb Hcb]. pose proof (wf_pos a Hwa). pose proof (wf_pos b Hwb).
    pose proof (nWords_mono (Bits a) (Z.max (Bits a) (Bits b)) ltac:(lia)).
    destruct (combine_spec Z.lor orb a b (Z.max (Bits a) (Bits b))
                (Nat.min (length (Elems a)) (length (Elems b)))) as (es & -> & Hw & Hbit);
      [apply bitwise_lor|done|done|lia|rewrite (wf_len a Hwa); lia|lia|].
    assert (∀ i, 0 ≤ i → bit_at es i = bit_at (Elems a) i || bit_at (Elems b) i) as Hor.
    { intros i Hi. rewrite Hbit by done. case_decide as Hk; [done|].
      rewrite (wf_len a Hwa), (wf_len b Hwb) in Hk.
      rewrite (bit_at_word b i), orb_false_r by (done || lia).
      case_bool_decide; [done|]. by rewrite (bit_at_word a i) by (done || lia). }
    assert (clean {| Bits := Z.max (Bits a) (Bits b); Elems := es |}) as Hc.
    { intros i Hi. cbn in *. rewrite Hor, Hca, Hcb by lia. done. }
    exists (Some {| Bits := Z.max (Bits a) (Bits b); Elems := es |}). split_and!; [done..|].
    intros i Hi. rewrite !has_clean by done. by apply Hor.
  - exists (Some a). unfold Copy, copy. cbn. rewrite copy_words_id. destruct a as [n es]. cbn in *.
    split_and!; [done|apply Ha..|destruct Ha as [Ha _]; pose proof (wf_pos _ Ha); cbn in *; lia|].
    intros i Hi. by rewrite orb_false_r.
  - exists (Some b). unfold Copy, copy. cbn. rewrite copy_words_id. destruct b as [n es]. cbn in *.
    split_and!; [done|apply Hb..|destruct Hb as [Hb _]; pose proof (wf_pos _ Hb); cbn in *; lia|done].
  - exists None. split_and!; done.
Qed.

Lemma And_spec a b : good a → good b →
  ∃ c, And a b = Ok c ∧ good c ∧ (c ≠ None → Size c = Z.min (Size a) (Size b)) ∧
    ∀ i, 0 ≤ i → has c i = has a i && has b i.
Proof.
  intros Ha Hb. destruct a as [a|], b as [b|]; unfold And, TmBits.and; cbn [good Size] in *;
    [|exists None; split_and!; try done; intros; by rewrite ?andb_false_r..].
  destruct Ha as [Hwa Hca], Hb as [Hwb Hcb]. pose proof (wf_pos a Hwa). pose proof (wf_pos b Hwb).
  pose proof (nWords_mono (Z.min (Bits a) (Bits b)) (Bits b) ltac:(lia)).
  destruct (combine_spec Z.land andb a b (Z.min (Bits a) (Bits b))
              (length (Elems (copyBits a (Z.min (Bits a) (Bits b))))))
    as (es & -> & Hw & Hbit);
    [apply bitwise_land|done|done|lia|cbn; by rewrite length_copy_words
    |cbn; rewrite length_copy_words, (wf_len b Hwb); lia|].
  assert (∀ i, 0 ≤ i → bit_at es i = bit_at (Elems a) i && bit_at (Elems b) i) as Hand.
  { intros i Hi. rewrite Hbit by done. cbn. rewrite length_copy_words.
    case_decide as Hk; [done|]. rewrite bool_decide_eq_false_2 by done. cbn.
    destruct (decide (i < Z.min (Bits a) (Bits b))).
    - pose proof (word_index_lt i (Z.min (Bits a) (Bits b))). lia.
    - destruct (decide (Bits a ≤ i)); [by rewrite Hca by done|].
      rewrite (Hcb i), andb_false_r by lia. done. }
  assert (clean {| Bits := Z.min (Bits a) (Bits b); Elems := es |}) as Hc.
  { intros i Hi. cbn in *. rewrite Hand by lia. destruct (decide (Bits a ≤ i)).
    - by rewrite Hca.
    - rewrite (Hcb i), andb_false_r by lia. done. }
  exists (Some {| Bits := Z.min (Bits a) (Bits b); Elems := es |}). split_and!; [done..|].
  intros i Hi. rewrite !has_clean by done. by apply Hand.
Qed.

Lemma Sub_spec a b : good a → good b →
  ∃ c, Sub a b = Ok c ∧ good c ∧
    (a ≠ None → b ≠ None → Size c = Size a ∧ ∀ i, 0 ≤ i → has c i = has a i && negb (has b i)).
Proof.
  intros Ha Hb. destruct a as [a|], b as [b|]; cbn [Sub good Size] in *;
    [|exists None; by split_and!..].
  destruct Ha as [Hwa Hca], Hb as [Hwb Hcb]. pose proof (wf_pos a Hwa).
  destruct (combine_spec (λ x y, Z.land x (not64 y)) (λ x y, x && negb y) a b (Bits a)
              (Nat.min (length (Elems a)) (length (Elems b)))) as (es & -> & Hw & Hbit);
    [apply bitwise_andnot|done|done|lia|rewrite (wf_len a Hwa); lia|lia|].
  assert (∀ i, 0 ≤ i → bit_at es i = bit_at (Elems a) i && negb (bit_at (Elems b) i)) as Hsub.
  { intros i Hi. rewrite Hbit by done. case_decide as Hk; [done|].
    rewrite (wf_len a Hwa), (wf_len b Hwb) in Hk. case_bool_decide as Ha.
    - rewrite (bit_at_word b i) by (done || lia). by rewrite andb_true_r.
    - by rewrite (bit_at_word a i) by (done || lia). }
  assert (clean {| Bits := Bits a; Elems := es |}) as Hc.
  { intros i Hi. cbn in *. rewrite Hsub, Hca by lia. done. }
  exists (Some {| Bits := Bits a; Elems := es |}). split_and!; [done..|]. intros _ _.
  split; [done|]. intros i Hi. rewrite !has_clean by done. by apply Hsub.
Qed.

Lemma Not_spec a : wf a →
  wf (not a) ∧ Bits (not a) = Bits a ∧
  ∀ i, 0 ≤ i < Bits a → has (Some (not a)) i = negb (has (Some a) i).
Proof.
  intros Hw. unfold not, copy. cbn [Bits Elems]. rewrite copy_words_id. split; [|split; [done|]].
  - split; cbn; [apply Hw|by rewrite length_fmap, (wf_len a Hw)|].
    apply Forall_fmap. eapply Forall_impl; [apply Hw|]. intros x. apply not64_u64.
  - intros i Hi. unfold has. cbn [Bits Elems]. rewrite bool_decide_eq_true_2 by lia. cbn.
    unfold bit_at. pose proof (word_index_lt i (Bits a) Hi). rewrite <-(wf_len a Hw) in H.
    apply lookup_lt_is_Some_2 in H as [x Hx]. rewrite list_lookup_fmap, Hx. cbn.
    apply not64_bits; [by eapply Forall_lookup_1, Hx; apply Hw|]. apply Z.mod_pos_bound. lia.
Qed.

(** ** Emptiness, fullness, the set bits *)
Lemma word_zero x : is_u64 x → (∀ j, 0 ≤ j < 64 → Z.testbit x j = false) → x = 0.
Proof.
  intros Hx Hz. apply Z.bits_inj'. intros j Hj. rewrite Z.testbit_0_l.
  destruct (decide (j < 64)); [apply Hz; lia|]. apply is_u64_bits in Hx as [_ Hx]. apply Hx. lia.
Qed.

Lemma bit_at_nth es k j : 0 ≤ j < 64 → bit_at es (64 * Z.of_nat k + j) = Z.testbit (default 0 (es !! k)) j.
Proof.
  intros Hj. unfold bit_at. rewrite Z.mul_comm, Z.div_add_l, Z.div_small by lia.
  replace ((Z.of_nat k * 64 + j) mod 64) with j.
  - by replace (Z.to_nat (Z.of_nat k + 0)) with k by lia.
  - rewrite Z.add_comm, Z.mod_add, Z.mod_small by lia. done.
Qed.

Lemma IsEmpty_spec bA : good bA → IsEmpty bA = true ↔ ∀ i, 0 ≤ i → has bA i = false.
Proof.
  destruct bA as [b|]; cbn [good IsEmpty]; [|done]. intros [Hw Hc].
  rewrite negb_true_iff, <-not_true_iff_false, existsb_exists. split.
  - intros H i Hi. rewrite has_clean by done. unfold bit_at.
    destruct (Elems b !! _) as [x|] eqn:E; cbn; [|apply Z.testbit_0_l].
    replace x with 0; [apply Z.testbit_0_l|]. destruct (decide (0 < x)).
    + exfalso. apply H. exists x. split; [by eapply list_elem_of_In, list_elem_of_lookup_2|].
      by apply bool_decide_eq_true_2.
    + pose proof (Forall_lookup_1 _ _ _ _ (wf_words b Hw) E) as [? _]. lia.
  - intros H (x & Hx & Hpos%bool_decide_eq_true_1).
    apply list_elem_of_In, list_elem_of_lookup_1 in Hx as [k Hk].
    pose proof (Forall_lookup_1 _ _ _ _ (wf_words b Hw) Hk) as Hu.
    assert (x = 0); [|lia]. apply word_zero; [done|]. intros j Hj.
    specialize (H (64 * Z.of_nat k + j) ltac:(lia)).
    by rewrite has_clean, bit_at_nth, Hk in H by (done || lia).
Qed.

(** [(w + 1) & (2^k - 1) == 0] says that the low [k] bits of [w] are ones. *)
Lemma low_ones w k : is_u64 w → 1 ≤ k ≤ 64 →
  Z.land (u64 (w + 1)) (u64 (shl64 1 k - 1)) = 0 ↔ ∀ j, 0 ≤ j < k → Z.testbit w j = true.
Proof.
  intros Hw Hk.
  assert (u64 (shl64 1 k - 1) = Z.ones k) as ->.
  { rewrite Z.ones_equiv. unfold shl64. case_decide.
    - unfold u64, two64. rewrite Z.shiftl_1_l, (Z.mod_small (2 ^ k)).
      + apply Z.mod_small. assert (2 ^ k < 2 ^ 64) by (apply Z.pow_lt_mono_r; lia).
        assert (0 < 2 ^ k) by (apply Z.pow_pos_nonneg; lia). lia.
      + split; [apply Z.pow_nonneg; lia|]. apply Z.pow_lt_mono_r; lia.
    - by replace k with 64 by lia. }
  rewrite Z.land_ones by lia.
  assert (u64 (w + 1) mod 2 ^ k = (w + 1) mod 2 ^ k) as ->.
  { unfold u64, two64. replace (2 ^ 64) with (2 ^ k * 2 ^ (64 - k)).
    - rewrite Z.rem_mul_r, (Z.mul_comm (2 ^ k)) by (apply Z.pow_nonzero || apply Z.pow_pos_nonneg; lia).
      rewrite Z.mod_add by (apply Z.pow_nonzero; lia). by rewrite Z.mod_mod by (apply Z.pow_nonzero; lia).
    - rewrite <-Z.pow_add_r by lia. f_equal. lia. }
  assert (0 < 2 ^ k) by (apply Z.pow_pos_nonneg; lia).
  pose proof (Z.mod_pos_bound w (2 ^ k) ltac:(lia)) as Hm. pose proof (Z.div_mod w (2 ^ k) ltac:(lia)) as Hd.
  assert ((w + 1) mod 2 ^ k = 0 ↔ w mod 2 ^ k = Z.ones k) as ->.
  { rewrite Z.ones_equiv. split.
    - intros H0. destruct (decide (w mod 2 ^ k = 2 ^ k - 1)); [lia|].
      assert ((w + 1) mod 2 ^ k = w mod 2 ^ k + 1); [|lia].
      symmetry. apply (Z.mod_unique_pos _ _ (w / 2 ^ k)); lia.
    - intros H1. rewrite Z.add_mod, H1 by lia. rewrite Z.add_mod_idemp_r by lia.
      replace (Z.pred (2 ^ k) + 1) with (2 ^ k) by lia. apply Z.mod_same. lia. }
  split.
  - intros E j Hj. rewrite <-(Z.mod_pow2_bits_low w k j), E by lia. apply Z.ones_spec_low. lia.
  - intros E. apply Z.bits_inj'. intros j Hj. destruct (decide (j < k)).
    + rewrite Z.mod_pow2_bits_low, Z.ones_spec_low, E by lia. done.
    + rewrite Z.mod_pow2_bits_high, Z.ones_spec_high by lia. done.
Qed.

Lemma nWords_last n : 0 < n → n = 64 * (nWords n - 1) + (Z.rem (n + 63) 64 + 1).
Proof.
  intros Hn. rewrite nWords_div, Z.rem_mod_nonneg by lia. pose proof (Z.div_mod (n + 63) 64). lia.
Qed.

Lemma wf_snoc b : wf b → ∃ init e, Elems b = init ++ [e] ∧ Z.of_nat (length init) = nWords (Bits b) - 1 ∧
  Forall is_u64 init ∧ is_u64 e.
Proof.
  intros Hw. pose proof (wf_pos b Hw). pose proof (wf_len b Hw) as Hl. pose proof (wf_words b Hw) as Hu.
  assert (1 ≤ nWords (Bits b)) by (rewrite nWords_div by lia; apply Z.div_le_lower_bound; lia).
  destruct (Elems b) as [|e init _] using rev_ind; cbn in Hl; [lia|].
  rewrite length_app in Hl. cbn in Hl. apply Forall_app in Hu as [Hi He].
  exists init, e. split_and!; [done|lia|done|by apply Forall_singleton].
Qed.

Lemma full_word e : is_u64 e → not64 e = 0 ↔ ∀ j, 0 ≤ j < 64 → Z.testbit e j = true.
Proof.
  intros He. split.
  - intros E j Hj. pose proof (not64_bits e j He Hj) as H. rewrite E, Z.testbit_0_l in H.
    by destruct (Z.testbit e j).
  - intros H. apply word_zero; [by apply not64_u64|]. intros j Hj. by rewrite not64_bits, H.
Qed.

Lemma IsFull_spec bA : good bA →
  ∃ r, IsFull bA = Ok r ∧ (r = true ↔ ∀ i, 0 ≤ i < Size bA → has bA i = true).
Proof.
  destruct bA as [b|]; cbn [good IsFull Size].
  2: { intros _. exists true. split; [done|]. split; [|done]. intros _ i Hi. lia. }
  intros [Hw _]. destruct (wf_snoc b Hw) as (init & e & E & Hl & Hi & He).
  rewrite E, last_snoc, length_app. cbn [length].
  replace (length init + 1 - 1)%nat with (length init) by lia.
  rewrite take_app_length. pose proof (nWords_last _ (wf_pos b Hw)) as Hn.
  pose proof (Z.rem_bound_pos (Bits b + 63) 64 ltac:(pose proof (wf_pos b Hw); lia) ltac:(lia)).
  assert (∀ k x, init !! k = Some x → (∀ j, 0 ≤ j < 64 → Z.testbit x j = true) ↔
            ∀ j, 0 ≤ j < 64 → has (Some b) (64 * Z.of_nat k + j) = true) as Hword.
  { intros k x Hk. pose proof (lookup_lt_Some _ _ _ Hk). unfold has. rewrite E.
    split; intros Hx j Hj; specialize (Hx j Hj); revert Hx;
      by rewrite bit_at_nth, lookup_app_l, Hk, bool_decide_eq_true_2 by lia. }
  destruct (existsb _ init) eqn:Ex; eexists; (split; [done|]).
  - split; [done|]. intros H0. apply existsb_exists in Ex as (x & Hx & Hne).
    apply list_elem_of_In, list_elem_of_lookup_1 in Hx as [k Hk].
    apply negb_true_iff, bool_decide_eq_false_1 in Hne. destruct Hne. apply full_word.
    { by eapply Forall_lookup_1. }
    apply (Hword k x Hk). intros j Hj. apply H0. apply lookup_lt_Some in Hk. lia.
  - rewrite bool_decide_eq_true, low_ones by (done || lia). split.
    + intros Hlast i Hib. set (k := Z.to_nat (i / 64)).
      pose proof (Z.div_mod i 64). pose proof (Z.mod_pos_bound i 64 ltac:(lia)).
      assert (i = 64 * Z.of_nat k + i mod 64) as Hik by (unfold k; pose proof (Z.div_pos i 64); lia).
      destruct (decide (k < length init)%nat) as [Hk|Hk].
      * apply lookup_lt_is_Some_2 in Hk as [x Hx]. rewrite Hik. apply (Hword k x Hx); [|lia].
        apply full_word; [by eapply Forall_lookup_1|].
        destruct (decide (not64 x = 0)) as [|Hne]; [done|]. exfalso.
        apply not_true_iff_false in Ex. apply Ex, existsb_exists. exists x.
        split; [by eapply list_elem_of_In, list_elem_of_lookup_2|].
        by rewrite bool_decide_eq_false_2.
      * unfold has. rewrite E, bool_decide_eq_true_2 by lia. rewrite Hik, bit_at_nth by lia.
        replace k with (length init + 0)%nat by lia. rewrite lookup_app_r by lia.
        replace (length init + 0 - length init)%nat with 0%nat by lia. cbn. apply Hlast. lia.
    + intros Hall j Hj. specialize (Hall (64 * Z.of_nat (length init) + j) ltac:(lia)). revert Hall.
      unfold has. rewrite E, bit_at_nth, lookup_app_r, Nat.sub_diag by lia. cbn.
      by rewrite andb_true_iff; intros [_ ?].
Qed.

Lemma word_indices_spec e cur n : 0 ≤ n ≤ 64 →
  word_indices e cur n = filter (λ i, Z.testbit e (i - cur) = true) (seqZ cur n).
Proof.
  intros Hn. unfold word_indices.
  replace (seqZ cur n) with (Z.add cur <$> seqZ 0 n) by (by rewrite fmap_add_seqZ, Z.add_0_r).
  rewrite list_filter_fmap, <-omap_filter_fmap. apply omap_ext_in.
  intros j [Hj1 Hj2]%elem_of_seqZ. rewrite mask_u64, land_mask by lia.
  by replace (cur + j - cur) with j by lia.
Qed.

Lemma getTrueIndices_go_spec bits cur es :
  es ≠ [] → cur + 64 * (Z.of_nat (length es) - 1) ≤ bits ≤ cur + 64 * Z.of_nat (length es) →
  getTrueIndices_go bits cur es
  = Ok (filter (λ i, bit_at es (i - cur) = true) (seqZ cur (bits - cur))).
Proof.
  revert cur. induction es as [|e es IH]; intros cur Hne Hb; [done|]. cbn [length] in Hb.
  destruct es as [|e' es].
  - cbn [getTrueIndices_go length] in *. rewrite word_indices_spec by lia. f_equal.
    apply list_filter_ext_in. intros i [Hi1 Hi2]%elem_of_seqZ.
    unfold bit_at. by rewrite Z.div_small, Z.mod_small by lia.
  - change (getTrueIndices_go bits cur (e :: e' :: es)) with
      (let! r := getTrueIndices_go bits (cur + 64) (e' :: es) in
       Ok ((if decide (e = 0) then [] else word_indices e cur 64) ++ r)).
    rewrite IH by (done || lia). cbn [outcome_bind]. f_equal.
    replace (bits - cur) with (64 + (bits - (cur + 64))) by lia.
    rewrite seqZ_app, filter_app by (cbn [length] in Hb; lia). f_equal.
    + transitivity (word_indices e cur 64).
      { case_decide as He; [|done]. subst e. unfold word_indices. symmetry.
        induction (seqZ 0 64); [done|]. cbn. by rewrite Z.land_0_l. }
      rewrite word_indices_spec by lia. apply list_filter_ext_in. intros i [Hi1 Hi2]%elem_of_seqZ.
      unfold bit_at. by rewrite Z.div_small, Z.mod_small by lia.
    + apply list_filter_ext_in. intros i [Hi1 Hi2]%elem_of_seqZ.
      assert (bit_at (e :: e' :: es) (i - cur) = bit_at (e' :: es) (i - (cur + 64))) as ->; [|done].
      unfold bit_at. replace (i - cur) with (i - (cur + 64) + 1 * 64) by lia.
      rewrite Z.div_add, Z.mod_add by lia. pose proof (Z.div_pos (i - (cur + 64)) 64).
      by replace (Z.to_nat ((i - (cur + 64)) / 64 + 1)) with (S (Z.to_nat ((i - (cur + 64)) / 64))) by lia.
Qed.

Lemma getTrueIndices_spec b : wf b →
  getTrueIndices b = Ok (filter (λ i, has (Some b) i = true) (seqZ 0 (Bits b))).
Proof.
  intros Hw. unfold getTrueIndices. destruct (wf_snoc b Hw) as (init & e & E & Hl & _).
  pose proof (nWords_last _ (wf_pos b Hw)) as Hn. pose proof (wf_pos b Hw).
  pose proof (Z.rem_bound_pos (Bits b + 63) 64 ltac:(lia) ltac:(lia)).
  rewrite getTrueIndices_go_spec.
  - rewrite Z.sub_0_r. f_equal. apply list_filter_ext_in. intros i [Hi1 Hi2]%elem_of_seqZ.
    unfold has. by rewrite Z.sub_0_r, bool_decide_eq_true_2 by lia.
  - rewrite E. by destruct init.
  - rewrite E, length_app. cbn. lia.
Qed.

(** ** JSON *)
Definition bit_char (v : bool) : Z := if v then ch_x else ch_underscore.

Lemma json_bits_spec b idx : wf b → (∀ i, i ∈ idx → 0 ≤ i) →
  json_bits b idx = Ok ((λ i, bit_char (has (Some b) i)) <$> idx).
Proof.
  intros Hw. induction idx as [|i idx IH]; intros Hi; [done|]. cbn [json_bits].
  rewrite getIndex_has by (done || (apply Hi; set_solver)). cbn [outcome_bind].
  by rewrite IH by set_solver.
Qed.

Lemma set_bits_spec bits : ∀ bA i, good bA → 0 ≤ i → i + Z.of_nat (length bits) ≤ Size bA →
  ∃ c, set_bits bA i bits = Ok c ∧ good c ∧ Size c = Size bA ∧
    ∀ j, 0 ≤ j → has c j = has bA j || (bool_decide (i ≤ j) && bool_decide (bits !! Z.to_nat (j - i) = Some ch_x)).
Proof.
  induction bits as [|ch bits IH]; intros bA i Hg Hi Hl; cbn [set_bits length] in *.
  { exists bA. split_and!; [done..|]. intros j Hj.
    rewrite (bool_decide_eq_false_2 ([] !! _ = _)) by done. by rewrite andb_false_r, orb_false_r. }
  assert (∃ b1, (if decide (ch = ch_x) then let! (_, b) := SetIndex bA i true in Ok b else Ok bA) = Ok b1 ∧
            good b1 ∧ Size b1 = Size bA ∧
            ∀ j, 0 ≤ j → has b1 j = has bA j || bool_decide (j = i ∧ ch = ch_x)) as (b1 & -> & Hg1 & Hs1 & Hb1).
  { case_decide as Hc.
    - destruct (SetIndex_spec bA i true) as (c & -> & Hg1 & Hs1 & Hh); [done|done|].
      exists c. split_and!; [done..|]. intros j Hj. rewrite Hh by done. destruct (decide (j = i)) as [->|Hne].
      + by rewrite decide_True, (bool_decide_eq_true_2 (i = i ∧ _)), orb_true_r by (done || lia).
      + by rewrite decide_False, (bool_decide_eq_false_2 (j = i ∧ _)), orb_false_r by tauto.
    - exists bA. split_and!; [done..|]. intros j Hj. rewrite bool_decide_eq_false_2 by (intros [_ ?]; done).
      by rewrite orb_false_r. }
  cbn [outcome_bind]. destruct (IH b1 (i + 1)) as (c & -> & Hg2 & Hs2 & Hb2); [done|lia|lia|].
  exists c. split_and!; [done..|congruence|]. intros j Hj. rewrite Hb2, Hb1, <-orb_assoc by done. f_equal.
  destruct (decide (j = i)) as [->|Hne].
  - rewrite Z.sub_diag. cbn. rewrite (bool_decide_eq_false_2 (i + 1 ≤ i)), (bool_decide_eq_true_2 (i ≤ i)) by lia.
    rewrite orb_false_r. cbn. apply bool_decide_ext. naive_solver.
  - rewrite (bool_decide_eq_false_2 (j = i ∧ _)) by tauto. cbn.
    destruct (decide (i ≤ j)).
    + rewrite !(bool_decide_eq_true_2 (_ ≤ j)) by lia. cbn.
      replace (Z.to_nat (j - i)) with (S (Z.to_nat (j - (i + 1)))) by lia. done.
    + by rewrite !(bool_decide_eq_false_2 (_ ≤ j)) by lia.
Qed.

Lemma regexp_quoted body : Forall (λ c, c = ch_x ∨ c = ch_underscore) body →
  bitArrayJSONRegexp ([dquote] ++ body ++ [dquote]) = Some body.
Proof.
  intros H. unfold bitArrayJSONRegexp. cbn [app]. rewrite last_snoc, length_app. cbn [length].
  replace (length body + 1 - 1)%nat with (length body) by lia. rewrite take_app_length.
  by rewrite decide_True by done.
Qed.

Lemma regexp_inv bz body : bitArrayJSONRegexp bz = Some body →
  bz = [dquote] ++ body ++ [dquote] ∧ Forall (λ c, c = ch_x ∨ c = ch_underscore) body.
Proof.
  unfold bitArrayJSONRegexp. destruct bz as [|q rest]; [done|].
  destruct rest as [|q' rest _] using rev_ind; [done|]. rewrite last_snoc, length_app. cbn [length].
  replace (length rest + 1 - 1)%nat with (length rest) by lia. rewrite take_app_length.
  case_decide as H; [|done]. intros [= <-]. destruct H as (-> & -> & H). done.
Qed.

Lemma UnmarshalJSON_quoted body :
  Forall (λ c, c = ch_x ∨ c = ch_underscore) body → body ≠ [] →
  ∃ b, UnmarshalJSON ([dquote] ++ body ++ [dquote]) = Ok (Some b) ∧ wf b ∧ clean b ∧
    Bits b = Z.of_nat (length body) ∧
    ∀ i, 0 ≤ i → has (Some b) i = bool_decide (body !! Z.to_nat i = Some ch_x).
Proof.
  intros Hb Hne. unfold UnmarshalJSON. rewrite decide_False by done. rewrite regexp_quoted by done.
  destruct (NewBitArray_good (Z.of_nat (length body))) as (Hg & Hs & Hz).
  destruct (set_bits_spec body _ 0 Hg) as (c & -> & Hgc & Hsc & Hc); [lia|lia|].
  cbn [outcome_bind]. assert (length body ≠ 0%nat) by (by destruct body).
  destruct c as [b|]; cbn in Hgc, Hsc; [|lia]. exists b. destruct Hgc as [Hw Hcl].
  split_and!; [done..|lia|]. intros i Hi. rewrite Hc, Hz, Z.sub_0_r by done. cbn.
  by rewrite bool_decide_eq_true_2 by done.
Qed.

(** ** Properties *)

(** C34: On non-nil or nil bit arrays whose padding is clear, GetIndex and SetIndex at an index that is not negative, And, Sub (of arrays
    that are not nil), Not,
    and Or when [bA] has at least as many words as [o], are the operations on finite sets of indices that their comments
    describe and do not panic: And has the smaller of the two sizes, Or the larger and the others that of [bA].
    All but Not keep the padding clear; Not complements the bits below its size. *)
Theorem bit_array_ops a b i v :
  good a → good b → 0 ≤ i →
  GetIndex a i = Ok (has a i) ∧
  (∃ c, SetIndex a i v = Ok (bool_decide (i < Size a), c) ∧ good c ∧ Size c = Size a ∧
     ∀ j, 0 ≤ j → has c j = if decide (j = i ∧ i < Size a) then v else has a j) ∧
  (∃ c, And a b = Ok c ∧ good c ∧ (c ≠ None → Size c = Z.min (Size a) (Size b)) ∧ ∀ j, 0 ≤ j → has c j = has a j && has b j) ∧
  (∃ c, Sub a b = Ok c ∧ good c ∧
     (a ≠ None → b ≠ None → Size c = Size a ∧ ∀ j, 0 ≤ j → has c j = has a j && negb (has b j))) ∧
  (nWords (Size b) ≤ nWords (Size a) →
   ∃ c, Or a b = Ok c ∧ good c ∧ Size c = Z.max (Size a) (Size b) ∧
     ∀ j, 0 ≤ j → has c j = has a j || has b j) ∧
  match a, Not a with
  | Some a', Some c => wf c ∧ Bits c = Bits a' ∧ ∀ j, 0 ≤ j < Bits a' → has (Some c) j = negb (has a j)
  | None, None => True
  | _, _ => False
  end.
Proof.
  intros Ha Hb Hi. split_and!.
  - by apply GetIndex_spec.
  - by apply SetIndex_spec.
  - by apply And_spec.
  - by apply Sub_spec.
  - intros Hl. apply Or_spec; auto.
  - destruct a as [a|]; [|done]. apply Not_spec, Ha.
Qed.

Definition sample_bits : option BitArray := Some {| Bits := 70; Elems := [5; 33] |}.
Lemma sample_bits_good : good sample_bits.
Proof.
  split; [split; cbn; [lia|done|]|].
  - repeat constructor; unfold two64; lia.
  - intros i Hi. cbn in Hi. unfold bit_at. cbn [Elems].
    assert (1 ≤ i / 64) by (apply Z.div_le_lower_bound; lia).
    destruct (decide (i / 64 = 1)) as [E|].
    + rewrite E. change (default 0 ([5; 33] !! Z.to_nat 1)) with 33.
      pose proof (Z.div_mod i 64). apply Z.bits_above_log2; [lia|]. change (Z.log2 33) with 5. lia.
    + rewrite lookup_ge_None_2; [apply Z.testbit_0_l|]. cbn [length]. lia.
Qed.

Lemma bit_array_ops_witness : good sample_bits ∧ GetIndex sample_bits 69 = Ok true ∧
  (∃ c, Or sample_bits sample_bits = Ok c ∧ good c).
Proof.
  split; [apply sample_bits_good|].
  destruct (bit_array_ops sample_bits sample_bits 69 true sample_bits_good sample_bits_good) as (H1 & _ & _ & _ & H2 & _);
    [lia|].
  split; [exact H1|]. destruct (H2 ltac:(lia)) as (c & ? & ? & _). eauto.
Defined.

(** IsFull holds exactly of the arrays with every bit set (whatever the padding of the last
    word), IsEmpty exactly of those with none, and PickRandom returns a set bit whenever
    there is one, for every random source that stays within its bound. *)
Theorem bit_array_tests b rnd :
  wf b → clean b → (∀ n, 0 < n → 0 ≤ rnd n < n) →
  (∃ r, IsFull (Some b) = Ok r ∧ (r = true ↔ ∀ i, 0 ≤ i < Bits b → has (Some b) i = true)) ∧
  (IsEmpty (Some b) = true ↔ ∀ i, 0 ≤ i → has (Some b) i = false) ∧
  (∃ i ok, PickRandom rnd (Some b) = Ok (i, ok) ∧
     (ok = true → 0 ≤ i < Bits b ∧ has (Some b) i = true) ∧
     (ok = false → ∀ j, 0 ≤ j → has (Some b) j = false)).
Proof.
  intros Hw Hc Hr. split_and!; [by apply IsFull_spec|by apply IsEmpty_spec|].
  unfold PickRandom. rewrite getTrueIndices_spec by done. cbn [outcome_bind].
  destruct (filter _ _) as [|x l] eqn:E.
  - exists 0, false. split_and!; [done..|]. intros _ j Hj. destruct (has (Some b) j) eqn:Hh; [|done].
    assert (j ∈ filter (λ i, has (Some b) i = true) (seqZ 0 (Bits b))) as Hin.
    { apply list_elem_of_filter. split; [done|]. apply elem_of_seqZ. cbn in Hh.
      apply andb_true_iff in Hh as [Hh%bool_decide_eq_true_1 _]. lia. }
    rewrite E in Hin. by apply elem_of_nil in Hin.
  - rewrite <-E. destruct (slice_get_in (filter (λ i, has (Some b) i = true) (seqZ 0 (Bits b)))
      (rnd (Z.of_nat (length (filter (λ i, has (Some b) i = true) (seqZ 0 (Bits b))))))) as (i & -> & Hi).
    { apply Hr. rewrite E. cbn. lia. }
    exists i, true. split_and!; [done| |done]. intros _.
    apply list_elem_of_lookup_2, list_elem_of_filter in Hi as [Hi1 [Hi2 Hi3]%elem_of_seqZ].
    split; [lia|done].
Qed.

Lemma bit_array_tests_witness :
  ∃ i ok, PickRandom (λ n, n - 1) sample_bits = Ok (i, ok) ∧ (ok = true → 0 ≤ i < 70 ∧ has sample_bits i = true).
Proof.
  destruct sample_bits_good as [Hw Hc].
  destruct (bit_array_tests {| Bits := 70; Elems := [5; 33] |} (λ n, n - 1) Hw Hc) as (_ & _ & i & ok & H1 & H2 & _);
    [intros; lia|].
  exists i, ok. split; [exact H1|exact H2].
Defined.

(** The JSON form of every well-formed array is read back as an array of the same size with
    the same bits, its padding cleared. *)
Theorem bit_array_json b : wf b →
  ∃ s b', MarshalJSON (Some b) = Ok s ∧ UnmarshalJSON s = Ok (Some b') ∧
    wf b' ∧ clean b' ∧ Bits b' = Bits b ∧ ∀ i, 0 ≤ i → has (Some b') i = has (Some b) i.
Proof.
  intros Hw. unfold MarshalJSON. rewrite json_bits_spec; [|done|intros i [? _]%elem_of_seqZ; done].
  cbn [outcome_bind]. set (body := _ <$> _). pose proof (wf_pos b Hw).
  assert (length body = Z.to_nat (Bits b)) as Hl by (unfold body; by rewrite length_fmap, length_seqZ).
  destruct (UnmarshalJSON_quoted body) as (b' & E & Hw' & Hc' & HB & Hh).
  { apply Forall_fmap, Forall_true. intros i. cbn. destruct (_ && _); [by left|by right]. }
  { intros E. rewrite E in Hl. cbn in Hl. lia. }
  exists ([dquote] ++ body ++ [dquote]), b'. split_and!; [done..|lia|].
  intros i Hi. rewrite Hh by done. unfold body. destruct (decide (i < Bits b)) as [Hlt|Hge].
  - rewrite list_lookup_fmap, lookup_seqZ_lt by lia.
    change (bool_decide (Some (bit_char (has (Some b) (0 + Z.of_nat (Z.to_nat i)))) = Some ch_x)
            = has (Some b) i).
    replace (0 + Z.of_nat (Z.to_nat i)) with i by lia. by destruct (has (Some b) i).
  - rewrite lookup_ge_None_2 by (rewrite length_fmap, length_seqZ; lia).
    unfold has. by rewrite !bool_decide_eq_false_2 by (done || lia).
Qed.

Lemma bit_array_json_witness : ∃ s b', MarshalJSON sample_bits = Ok s ∧ UnmarshalJSON s = Ok (Some b').
Proof.
  destruct (bit_array_json {| Bits := 70; Elems := [5; 33] |}) as (s & b' & H1 & H2 & _).
  - apply sample_bits_good.
  - exists s, b'. split; [exact H1|exact H2].
Defined.

(** UnmarshalJSON on arbitrary bytes: it reports an error exactly for text other than null
    that is not a quoted string of [x] and [_], and panics (by dereferencing the nil array
    of size zero) exactly for the empty quoted string, which the format admits. *)
Theorem UnmarshalJSON_errors bz :
  (UnmarshalJSON bz = Ok None ↔ bz ≠ json_null ∧
     ∀ body, Forall (λ c, c = ch_x ∨ c = ch_underscore) body → bz ≠ [dquote] ++ body ++ [dquote]) ∧
  (UnmarshalJSON bz = Panic ↔ bz = [dquote; dquote]) ∧
  UnmarshalJSON bz ≠ Diverge.
Proof.
  destruct (decide (bz = json_null)) as [->|Hnull].
  { unfold UnmarshalJSON. rewrite decide_True by done. naive_solver. }
  destruct (bitArrayJSONRegexp bz) as [body|] eqn:E.
  - apply regexp_inv in E as [-> Hb]. destruct (decide (body = [])) as [->|Hne].
    + assert (UnmarshalJSON ([dquote] ++ [] ++ [dquote]) = Panic) as -> by done.
      split_and!; [|done|done]. split; [done|]. intros [_ H]. by destruct (H []).
    + destruct (UnmarshalJSON_quoted body Hb Hne) as (b & -> & _). split_and!; [| |done].
      * split; [done|]. intros [_ H]. by destruct (H body).
      * split; [done|]. intros Heq. apply (f_equal length) in Heq. rewrite !length_app in Heq.
        cbn in Heq. destruct body; [done|cbn in Heq; lia].
  - assert (UnmarshalJSON bz = Ok None) as -> by (unfold UnmarshalJSON; by rewrite decide_False, E).
    split_and!; [|split; [done|]|done].
    + split; [|done]. intros _. split; [done|]. intros body Hb ->. by rewrite regexp_quoted in E.
    + intros ->. done.
Qed.

(** What the comments promise and the code does not do: Or drops the bits of [o] in words
    that [bA] does not have (it is documented to pad the shorter array with zeroes), Not sets
    the padding, so that IsEmpty denies the emptiness of the complement of a full array, and
    Or with a longer array turns that padding into bits. *)
Theorem bit_array_padding :
  (∃ a b c, good (Some a) ∧ good (Some b) ∧ Or (Some a) (Some b) = Ok c ∧
     has (Some b) 64 = true ∧ has c 64 = false) ∧
  (∃ a, good (Some a) ∧ IsFull (Some a) = Ok true ∧
     (∀ i, 0 ≤ i → has (Not (Some a)) i = false) ∧ IsEmpty (Not (Some a)) = false) ∧
  (∃ a b c, good (Some a) ∧ good (Some b) ∧ Or (Not (Some a)) (Some b) = Ok c ∧
     has (Not (Some a)) 5 = false ∧ has (Some b) 5 = false ∧ has c 5 = true).
Proof.
  assert (∀ n k, 0 < n → 0 ≤ k < 2 ^ Z.min n 64 → good (Some {| Bits := n;
            Elems := k :: replicate (Z.to_nat (nWords n) - 1) 0 |})) as Hg.
  { intros n k Hn Hk. assert (1 ≤ nWords n) by (rewrite nWords_div by lia; apply Z.div_le_lower_bound; lia).
    split; [split; cbn; [done|rewrite length_replicate; lia|]|].
    - constructor; [|apply Forall_replicate, zero_u64]. unfold is_u64, two64.
      assert (2 ^ Z.min n 64 ≤ 2 ^ 64) by (apply Z.pow_le_mono_r; lia). lia.
    - intros i Hi. cbn in Hi. unfold bit_at. cbn [Elems].
      pose proof (Z.div_pos i 64 ltac:(lia) ltac:(lia)).
      destruct (Z.to_nat (i / 64)) as [|m] eqn:E; cbn [lookup list_lookup default].
      + assert (i / 64 = 0) by lia. pose proof (Z.div_mod i 64).
        change (Z.testbit k (i mod 64) = false).
        destruct (decide (k = 0)) as [->|]; [apply Z.testbit_0_l|].
        apply Z.bits_above_log2; [lia|]. apply Z.log2_lt_pow2; [lia|].
        eapply Z.lt_le_trans; [apply Hk|]. apply Z.pow_le_mono_r; lia.
      + destruct (replicate _ _ !! m) eqn:Em; cbn; [|apply Z.testbit_0_l].
        apply lookup_replicate in Em as [-> _]. apply Z.testbit_0_l. }
  split_and!.
  - exists {| Bits := 1; Elems := [1] |}, {| Bits := 70; Elems := [5; 33] |}.
    eexists. split_and!; [by apply (Hg 1 1)|apply sample_bits_good|reflexivity..].
  - exists {| Bits := 1; Elems := [1] |}. split_and!; [by apply (Hg 1 1)|done| |done].
    intros i Hi. unfold Not, has. cbn. case_bool_decide; [|done]. by replace i with 0 by lia.
  - exists {| Bits := 1; Elems := [0] |}, {| Bits := 10; Elems := [0] |}. eexists.
    split_and!; [by apply (Hg 1 0)|by apply (Hg 10 0)|reflexivity..].
Qed.
