(* ===== verification/TmValidators.v ===== *)
(** Validators and validator sets (src/sourcecodes/tendermint/types/validator.go and
    validator_set.go): the data and the operations.

    The fields of a validator other than its priority never change once it was created;
    they are the record [ValInfo].  A set's [Proposer] is a pointer to a validator whose
    priority goes on changing with the set it was taken from, so the model keeps its
    [ValInfo].  Pointers into the slice [Validators] are indices ([ValRef]).  Methods are
    computations on the receiver in the monad [M].  Go's unstable sort is any function
    of the class [GoSort]. *)

From S2P Require Import Prelude.

(** ** Integers of 64 bits *)
Definition MaxInt64 : Z := 2 ^ 63 - 1.
Definition MinInt64 : Z := - 2 ^ 63.
Definition is_i64 (z : Z) : Prop := MinInt64 ≤ z ≤ MaxInt64.

Definition safeAdd (a b : Z) : Z * bool :=
  if decide (b > 0 ∧ a > MaxInt64 - b) then (-1, true)
  else if decide (b < 0 ∧ a < MinInt64 - b) then (-1, true)
  else (i64 (a + b), false).

Definition safeSub (a b : Z) : Z * bool :=
  if decide (b > 0 ∧ a < MinInt64 + b) then (-1, true)
  else if decide (b < 0 ∧ a > MaxInt64 + b) then (-1, true)
  else (i64 (a - b), false).

Definition safeAddClip (a b : Z) : Z :=
  let '(c, overflow) := safeAdd a b in
  if overflow : bool then (if decide (b < 0) then MinInt64 else MaxInt64) else c.

Definition safeSubClip (a b : Z) : Z :=
  let '(c, overflow) := safeSub a b in
  if overflow : bool then (if decide (b > 0) then MinInt64 else MaxInt64) else c.

Definition safeMul (a b : Z) : Z * bool :=
  if decide (a = 0 ∨ b = 0) then (0, false) else
  let absOfB := if decide (b < 0) then i64 (- b) else b in
  let absOfA := if decide (a < 0) then i64 (- a) else a in
  if decide (absOfA > Z.quot MaxInt64 absOfB) then (0, true) else (i64 (a * b), false).

(** ** Byte strings in order: [bytes.Compare] *)
Fixpoint bytes_Compare (a b : bytes) : comparison :=
  match a, b with
  | [], [] => Eq
  | [], _ :: _ => Lt
  | _ :: _, [] => Gt
  | x :: a', y :: b' => match (x ?= y)%Z with Eq => bytes_Compare a' b' | c => c end
  end.

Definition bytes_less (a b : bytes) : bool :=
  match bytes_Compare a b with Lt => true | _ => false end.

(** ** Sorting *)
Record strict_weak {A} (less : A → A → bool) : Prop := {
  sw_asym : ∀ x y, less x y = true → less y x = false;
  sw_trans : ∀ x y z, less y x = false → less z y = false → less z x = false;
}.

(** [sort.Sort] and [sort.Slice]: some ordered rearrangement. *)
Class GoSort := {
  go_sort : ∀ {A}, (A → A → bool) → list A → list A;
  go_sort_perm : ∀ {A} less (l : list A), go_sort less l ≡ₚ l;
  go_sort_sorted : ∀ {A} less (l : list A), strict_weak less →
    Sorted (λ x y, less y x = false) (go_sort less l);
}.

(** ** Data *)
Record ValInfo := mkValInfo { Address : bytes; PubKey : option bytes; VotingPower : Z }.
Record Validator := mkValidator { val_info :> ValInfo; ProposerPriority : Z }.
Record ValidatorSet := mkValidatorSet {
  Validators : list Validator;
  Proposer : option ValInfo;
  totalVotingPower : Z;
}.

#[global] Instance ValInfo_eq_dec : EqDecision ValInfo.
Proof. solve_decision. Defined.
#[global] Instance Validator_eq_dec : EqDecision Validator.
Proof. solve_decision. Defined.
#[global] Instance ValidatorSet_eq_dec : EqDecision ValidatorSet.
Proof. solve_decision. Defined.

Definition MaxTotalVotingPower : Z := MaxInt64 / 8.
Definition PriorityWindowSizeFactor : Z := 2.
Definition AddressSize : Z := 20.

Definition set_priority (p : Z) (v : Validator) : Validator :=
  {| val_info := val_info v; ProposerPriority := p |}.
Definition set_Validators (l : list Validator) (vals : ValidatorSet) : ValidatorSet :=
  {| Validators := l; Proposer := Proposer vals; totalVotingPower := totalVotingPower vals |}.
Definition set_Proposer (p : option ValInfo) (vals : ValidatorSet) : ValidatorSet :=
  {| Validators := Validators vals; Proposer := p; totalVotingPower := totalVotingPower vals |}.
Definition set_total (t : Z) (vals : ValidatorSet) : ValidatorSet :=
  {| Validators := Validators vals; Proposer := Proposer vals; totalVotingPower := t |}.

(** The errors, one constructor per message. *)
Inductive val_error :=
| ErrNilValidator | ErrNoPubKey | ErrNegativeVotingPower | ErrAddressSize
| ErrSetNilOrEmpty | ErrInvalidValidator (idx : nat) (e : val_error) | ErrInvalidProposer (e : val_error)
| ErrDuplicateEntry | ErrPowerNegative | ErrPowerTooHigh
| ErrDeletesNotAllowed | ErrResultEmpty | ErrRemoveUnknown (address : bytes)
| ErrTotalVotingPowerOverflow.

(** ** validator.go *)
Definition NewValidator (key_address : bytes → bytes) (pubKey : bytes) (votingPower : Z) : Validator :=
  {| val_info := {| Address := key_address pubKey; PubKey := Some pubKey; VotingPower := votingPower |};
     ProposerPriority := 0 |}.

Definition Validator_ValidateBasic (v : option ValInfo) : option val_error :=
  match v with
  | None => Some ErrNilValidator
  | Some v =>
      match PubKey v with
      | None => Some ErrNoPubKey
      | Some _ =>
          if decide (VotingPower v < 0) then Some ErrNegativeVotingPower
          else if decide (Z.of_nat (length (Address v)) ≠ AddressSize) then Some ErrAddressSize
          else None
      end
  end.

(** A pointer into the slice of validators: the index and what it points to. *)
Definition ValRef : Type := nat * Validator.

(** The receiver may be nil. *)
Definition CompareProposerPriority (v : option ValRef) (other : ValRef) : outcome ValRef :=
  match v with
  | None => Ok other
  | Some r =>
      if decide (ProposerPriority r.2 > ProposerPriority other.2) then Ok r
      else if decide (ProposerPriority r.2 < ProposerPriority other.2) then Ok other
      else match bytes_Compare (Address r.2) (Address other.2) with
           | Lt => Ok r
           | Gt => Ok other
           | Eq => Panic
           end
  end.

(** ** validator_set.go: reading *)
Definition IsNilOrEmpty (vals : option ValidatorSet) : bool :=
  match vals with
  | None => true
  | Some s => bool_decide (Validators s = [])
  end.

Fixpoint validate_all (idx : nat) (l : list Validator) : option val_error :=
  match l with
  | [] => None
  | v :: l' =>
      match Validator_ValidateBasic (Some (val_info v)) with
      | Some e => Some (ErrInvalidValidator idx e)
      | None => validate_all (S idx) l'
      end
  end.

Definition ValidatorSet_ValidateBasic (vals : option ValidatorSet) : option val_error :=
  match vals with
  | None => Some ErrSetNilOrEmpty
  | Some s =>
      if IsNilOrEmpty (Some s) then Some ErrSetNilOrEmpty else
      match validate_all 0 (Validators s) with
      | Some e => Some e
      | None =>
          match Validator_ValidateBasic (Proposer s) with
          | Some e => Some (ErrInvalidProposer e)
          | None => None
          end
      end
  end.

Definition HasAddress (vals : ValidatorSet) (address : bytes) : bool :=
  existsb (λ v : Validator, bool_decide (Address v = address)) (Validators vals).

Fixpoint find_address (idx : Z) (l : list Validator) (address : bytes) : Z * option Validator :=
  match l with
  | [] => (-1, None)
  | v :: l' => if decide (Address v = address) then (idx, Some v) else find_address (idx + 1) l' address
  end.
Definition GetByAddress (vals : ValidatorSet) (address : bytes) : Z * option Validator :=
  find_address 0 (Validators vals) address.

Definition GetByIndex (vals : ValidatorSet) (index : Z) : option (bytes * Validator) :=
  if decide (index < 0 ∨ Z.of_nat (length (Validators vals)) ≤ index) then None
  else (λ v : Validator, (Address v, v)) <$> Validators vals !! Z.to_nat index.

Definition Size (vals : ValidatorSet) : Z := Z.of_nat (length (Validators vals)).

(** ** Total voting power *)
Fixpoint sum_powers (sum : Z) (l : list Validator) : outcome Z :=
  match l with
  | [] => Ok sum
  | v :: l' =>
      let sum' := safeAddClip sum (VotingPower v) in
      if decide (sum' > MaxTotalVotingPower) then Panic else sum_powers sum' l'
  end.

Definition updateTotalVotingPower : M ValidatorSet unit :=
  vs <- gets Validators ;;
  sum <- lift (sum_powers 0 vs) ;;
  modify (set_total sum).

Definition TotalVotingPower : M ValidatorSet Z :=
  t <- gets totalVotingPower ;;
  (if decide (t = 0) then updateTotalVotingPower else ret tt) ;;;
  gets totalVotingPower.

(** ** Proposer priorities *)
Definition for_validators (f : Validator → Validator) : M ValidatorSet unit :=
  modify (λ s, set_Validators (f <$> Validators s) s).

(** [max] and [min] start from the extreme integers. *)
Definition max_priority (l : list Validator) : Z :=
  foldl (λ m v, if decide (ProposerPriority v > m) then ProposerPriority v else m) MinInt64 l.
Definition min_priority (l : list Validator) : Z :=
  foldl (λ m v, if decide (ProposerPriority v < m) then ProposerPriority v else m) MaxInt64 l.

Definition computeMaxMinPriorityDiff (vals : ValidatorSet) : outcome Z :=
  if IsNilOrEmpty (Some vals) then Panic else
  let diff := i64 (max_priority (Validators vals) - min_priority (Validators vals)) in
  Ok (if decide (diff < 0) then i64 (-1 * diff) else diff).

Definition RescalePriorities (diffMax : Z) : M ValidatorSet unit :=
  vals <- gets id ;;
  if IsNilOrEmpty (Some vals) then panic
  else if decide (diffMax ≤ 0) then ret tt
  else
    diff <- lift (computeMaxMinPriorityDiff vals) ;;
    let ratio := Z.quot (i64 (diff + diffMax - 1)) diffMax in
    if decide (diff > diffMax) then
      (if decide (ratio = 0) then panic
       else for_validators (λ v, set_priority (i64 (Z.quot (ProposerPriority v) ratio)) v))
    else ret tt.

(** [big.Int.Div] is Euclidean; [n] is positive here. *)
Definition computeAvgProposerPriority (vals : ValidatorSet) : outcome Z :=
  let n := Z.of_nat (length (Validators vals)) in
  if decide (n = 0) then Panic else
  let sum := foldl (λ s v, s + ProposerPriority v) 0 (Validators vals) in
  let avg := sum / n in
  if decide (is_i64 avg) then Ok avg else Panic.

Definition shiftByAvgProposerPriority : M ValidatorSet unit :=
  vals <- gets id ;;
  if IsNilOrEmpty (Some vals) then panic
  else
    avg <- lift (computeAvgProposerPriority vals) ;;
    for_validators (λ v, set_priority (safeSubClip (ProposerPriority v) avg) v).

Fixpoint most_priority (res : option ValRef) (l : list ValRef) : outcome (option ValRef) :=
  match l with
  | [] => Ok res
  | r :: l' => let! res' := CompareProposerPriority res r in most_priority (Some res') l'
  end.

(** The elements of the slice with their indices. *)
Definition refs (l : list Validator) : list ValRef := imap pair l.

Definition getValWithMostPriority (vals : ValidatorSet) : outcome (option ValRef) :=
  most_priority None (refs (Validators vals)).

(** The result is the proposer; dereferencing a nil [mostest] panics. *)
Definition incrementProposerPriority : M ValidatorSet Validator :=
  for_validators (λ v, set_priority (safeAddClip (ProposerPriority v) (VotingPower v)) v) ;;;
  vals <- gets id ;;
  mostest <- lift (getValWithMostPriority vals) ;;
  match mostest with
  | None => panic
  | Some (i, v) =>
      total <- TotalVotingPower ;;
      let v' := set_priority (safeSubClip (ProposerPriority v) total) v in
      modify (λ s, set_Validators (<[i := v']> (Validators s)) s) ;;;
      ret v'
  end.

Fixpoint increment_times (n : nat) (proposer : option Validator) : M ValidatorSet (option Validator) :=
  match n with
  | O => ret proposer
  | S n' => p <- incrementProposerPriority ;; increment_times n' (Some p)
  end.

Definition IncrementProposerPriority (times : Z) : M ValidatorSet unit :=
  vals <- gets id ;;
  if IsNilOrEmpty (Some vals) then panic
  else if decide (times ≤ 0) then panic
  else
    total <- TotalVotingPower ;;
    RescalePriorities (PriorityWindowSizeFactor * total) ;;;
    shiftByAvgProposerPriority ;;;
    proposer <- increment_times (Z.to_nat times) None ;;
    modify (set_Proposer (val_info <$> proposer)).

Definition CopyIncrementProposerPriority (vals : ValidatorSet) (times : Z) : outcome ValidatorSet :=
  let! (_, c) := IncrementProposerPriority times vals in Ok c.

Fixpoint find_proposer (proposer : option ValRef) (l : list ValRef) : outcome (option ValRef) :=
  match l with
  | [] => Ok proposer
  | r :: l' =>
      let skip := match proposer with
                  | None => false
                  | Some p => bool_decide (Address r.2 = Address p.2)
                  end in
      if skip then find_proposer proposer l'
      else let! p := CompareProposerPriority proposer r in find_proposer (Some p) l'
  end.

Definition findProposer (vals : ValidatorSet) : outcome (option ValRef) :=
  find_proposer None (refs (Validators vals)).

(** The identity of the proposer ([None] for an empty set). *)
Definition GetProposer : M ValidatorSet (option ValInfo) :=
  vals <- gets id ;;
  if decide (Validators vals = []) then ret None else
  match Proposer vals with
  | Some p => ret (Some p)
  | None =>
      r <- lift (findProposer vals) ;;
      match r with
      | None => panic
      | Some (_, v) => modify (set_Proposer (Some (val_info v))) ;;; ret (Some (val_info v))
      end
  end.

Fixpoint find_previous (prev : option ValRef) (l : list ValRef) : outcome (option ValRef) :=
  match l with
  | [] => Ok prev
  | r :: l' =>
      match prev with
      | None => find_previous (Some r) l'
      | Some p =>
          let! c := CompareProposerPriority (Some p) r in
          find_previous (if decide (p.1 = c.1) then Some r else Some p) l'
      end
  end.

Definition findPreviousProposer (vals : ValidatorSet) : outcome (option ValRef) :=
  find_previous None (refs (Validators vals)).

Section sorting.
Context `{GoSort}.

Definition ByVotingPower_less (v w : Validator) : bool :=
  if decide (VotingPower v = VotingPower w) then bytes_less (Address v) (Address w)
  else bool_decide (VotingPower v > VotingPower w).

Definition ByAddress_less (v w : Validator) : bool := bytes_less (Address v) (Address w).

(** ** Updates *)
Fixpoint split_changes (prevAddr : bytes) (changes updates removals : list Validator) :
    (list Validator * list Validator) + val_error :=
  match changes with
  | [] => inl (updates, removals)
  | v :: changes' =>
      if decide (Address v = prevAddr) then inr ErrDuplicateEntry
      else if decide (VotingPower v < 0) then inr ErrPowerNegative
      else if decide (VotingPower v > MaxTotalVotingPower) then inr ErrPowerTooHigh
      else if decide (VotingPower v = 0) then
        split_changes (Address v) changes' updates (removals ++ [v])
      else split_changes (Address v) changes' (updates ++ [v]) removals
  end.

Definition processChanges (origChanges : list Validator) :
    (list Validator * list Validator) + val_error :=
  split_changes [] (go_sort ByAddress_less origChanges) [] [].

Definition delta (vals : ValidatorSet) (update : Validator) : Z :=
  match (GetByAddress vals (Address update)).2 with
  | Some val => i64 (VotingPower update - VotingPower val)
  | None => VotingPower update
  end.

Fixpoint add_deltas (vals : ValidatorSet) (tvp : Z) (l : list Validator) : option Z :=
  match l with
  | [] => Some tvp
  | u :: l' =>
      let tvp' := i64 (tvp + delta vals u) in
      if decide (tvp' > MaxTotalVotingPower) then None else add_deltas vals tvp' l'
  end.

Definition verifyUpdates (updates : list Validator) (removedPower : Z) : M ValidatorSet (Z + val_error) :=
  vals <- gets id ;;
  total <- TotalVotingPower ;;
  let updatesCopy := go_sort (λ u w, bool_decide (delta vals u < delta vals w)) updates in
  match add_deltas vals (i64 (total - removedPower)) updatesCopy with
  | None => ret (inr ErrTotalVotingPowerOverflow)
  | Some tvp => ret (inl (i64 (tvp + removedPower)))
  end.

Definition numNewValidators (updates : list Validator) (vals : ValidatorSet) : Z :=
  Z.of_nat (length (filter (λ u : Validator, HasAddress vals (Address u) = false) updates)).

Definition computeNewPriorities (updates : list Validator) (vals : ValidatorSet)
    (updatedTotalVotingPower : Z) : list Validator :=
  (λ u : Validator,
     match (GetByAddress vals (Address u)).2 with
     | None => set_priority (i64 (- i64 (updatedTotalVotingPower + Z.shiftr updatedTotalVotingPower 3))) u
     | Some val => set_priority (ProposerPriority val) u
     end) <$> updates.

(** The merge loop and the two loops after it. *)
Fixpoint merge_updates (existing : list Validator) : list Validator → list Validator :=
  fix go updates :=
    match existing, updates with
    | [], _ => updates
    | _, [] => existing
    | e :: existing', u :: updates' =>
        match bytes_Compare (Address e) (Address u) with
        | Lt => e :: merge_updates existing' updates
        | Eq => u :: merge_updates existing' updates'
        | Gt => u :: go updates'
        end
    end.

Definition applyUpdates (updates : list Validator) : M ValidatorSet unit :=
  modify (λ s, set_Validators (merge_updates (go_sort ByAddress_less (Validators s)) updates) s).

Fixpoint sum_removed (vals : ValidatorSet) (removed : Z) (deletes : list Validator) : Z + val_error :=
  match deletes with
  | [] => inl removed
  | v :: deletes' =>
      match (GetByAddress vals (Address v)).2 with
      | None => inr (ErrRemoveUnknown (Address v))
      | Some val => sum_removed vals (i64 (removed + VotingPower val)) deletes'
      end
  end.

Definition verifyRemovals (deletes : list Validator) (vals : ValidatorSet) : outcome (Z + val_error) :=
  match sum_removed vals 0 deletes with
  | inr e => Ok (inr e)
  | inl removed =>
      if decide (length (Validators vals) < length deletes)%nat then Panic else Ok (inl removed)
  end.

(** Reading [existing[0]] of an empty slice panics. *)
Fixpoint remove_deletes (existing deletes : list Validator) : outcome (list Validator) :=
  match deletes with
  | [] => Ok existing
  | d :: deletes' =>
      match existing with
      | [] => Panic
      | e :: existing' =>
          if decide (Address e = Address d) then remove_deletes existing' deletes'
          else let! r := remove_deletes existing' deletes in Ok (e :: r)
      end
  end.

(** [make] of a negative length panics. *)
Definition applyRemovals (deletes : list Validator) : M ValidatorSet unit :=
  existing <- gets Validators ;;
  if decide (length existing < length deletes)%nat then panic else
  merged <- lift (remove_deletes existing deletes) ;;
  modify (set_Validators merged).

Definition updateWithChangeSet (changes : list Validator) (allowDeletes : bool) :
    M ValidatorSet (option val_error) :=
  if decide (changes = []) then ret None else
  match processChanges changes with
  | inr e => ret (Some e)
  | inl (updates, deletes) =>
      if negb allowDeletes && negb (bool_decide (deletes = [])) then ret (Some ErrDeletesNotAllowed) else
      vals <- gets id ;;
      if decide (numNewValidators updates vals = 0 ∧ length (Validators vals) = length deletes)
      then ret (Some ErrResultEmpty) else
      removed <- lift (verifyRemovals deletes vals) ;;
      match removed with
      | inr e => ret (Some e)
      | inl removedVotingPower =>
          r <- verifyUpdates updates removedVotingPower ;;
          match r with
          | inr e => ret (Some e)
          | inl tvpAfterUpdatesBeforeRemovals =>
              vals' <- gets id ;;
              let updates' := computeNewPriorities updates vals' tvpAfterUpdatesBeforeRemovals in
              applyUpdates updates' ;;;
              applyRemovals deletes ;;;
              updateTotalVotingPower ;;;
              total <- TotalVotingPower ;;
              RescalePriorities (PriorityWindowSizeFactor * total) ;;;
              shiftByAvgProposerPriority ;;;
              modify (λ s, set_Validators (go_sort ByVotingPower_less (Validators s)) s) ;;;
              ret None
          end
      end
  end.

Definition UpdateWithChangeSet (changes : list Validator) : M ValidatorSet (option val_error) :=
  updateWithChangeSet changes true.

Definition NewValidatorSet (valz : list Validator) : outcome ValidatorSet :=
  let vals := {| Validators := []; Proposer := None; totalVotingPower := 0 |} in
  let! (err, vals1) := updateWithChangeSet valz false vals in
  match err with
  | Some _ => Panic
  | None =>
      match valz with
      | [] => Ok vals1
      | _ => let! (_, vals2) := IncrementProposerPriority 1 vals1 in Ok vals2
      end
  end.

(** Nil results stand for [nil, err]. *)
Fixpoint first_invalid (l : list Validator) : option val_error :=
  match l with
  | [] => None
  | v :: l' =>
      match Validator_ValidateBasic (Some (val_info v)) with
      | Some e => Some e
      | None => first_invalid l'
      end
  end.

Definition ValidatorSetFromExistingValidators (valz : list Validator) : outcome (ValidatorSet + val_error) :=
  if decide (valz = []) then Ok (inr ErrSetNilOrEmpty) else
  match first_invalid valz with
  | Some e => Ok (inr e)
  | None =>
      let vals := {| Validators := valz; Proposer := None; totalVotingPower := 0 |} in
      let! p := findPreviousProposer vals in
      let! (_, vals1) := updateTotalVotingPower (set_Proposer ((λ r : ValRef, val_info r.2) <$> p) vals) in
      Ok (inl (set_Validators (go_sort ByVotingPower_less (Validators vals1)) vals1))
  end.
End sorting.

(** ** The order on byte strings *)
Lemma bytes_Compare_refl a : bytes_Compare a a = Eq.
Proof. induction a as [|x a IH]; cbn; [done|]. by rewrite Z.compare_refl. Qed.

Lemma bytes_Compare_eq a b : bytes_Compare a b = Eq ↔ a = b.
Proof.
  split; [|intros ->; apply bytes_Compare_refl].
  revert b. induction a as [|x a IH]; intros [|y b]; cbn; try done.
  destruct (Z.compare_spec x y) as [->| |]; try done. intros H. by rewrite (IH b).
Qed.

Lemma bytes_Compare_antisym a b : bytes_Compare b a = CompOpp (bytes_Compare a b).
Proof.
  revert b. induction a as [|x a IH]; intros [|y b]; cbn; try done.
  rewrite (Z.compare_antisym x y). destruct (x ?= y); cbn; auto.
Qed.

Lemma bytes_Compare_lt_trans a b c :
  bytes_Compare a b = Lt → bytes_Compare b c = Lt → bytes_Compare a c = Lt.
Proof.
  revert b c. induction a as [|x a IH]; intros [|y b] [|z c]; cbn; try done.
  destruct (Z.compare_spec x y), (Z.compare_spec y z), (Z.compare_spec x z); try done; try lia; eauto.
Qed.

Lemma bytes_less_irrefl a : bytes_less a a = false.
Proof. unfold bytes_less. by rewrite bytes_Compare_refl. Qed.

Lemma bytes_less_trans a b c : bytes_less a b = true → bytes_less b c = true → bytes_less a c = true.
Proof.
  unfold bytes_less. intros H1 H2. rewrite (bytes_Compare_lt_trans a b c); [done|..];
    by repeat case_match.
Qed.

(** Any two byte strings are ordered one way, the other way, or equal. *)
Lemma bytes_less_total a b : bytes_less a b = false → bytes_less b a = false → a = b.
Proof.
  unfold bytes_less. rewrite (bytes_Compare_antisym a b). intros H1 H2.
  apply bytes_Compare_eq. by destruct (bytes_Compare a b).
Qed.

Lemma bytes_less_asym a b : bytes_less a b = true → bytes_less b a = false.
Proof.
  intros H1. destruct (bytes_less b a) eqn:H2; [|done].
  pose proof (bytes_less_trans a b a H1 H2) as H. by rewrite bytes_less_irrefl in H.
Qed.

(** A strict total order on keys gives a strict weak order. *)
Lemma bytes_less_negtrans a b c : bytes_less b a = false → bytes_less c b = false → bytes_less c a = false.
Proof.
  intros H1 H2. destruct (bytes_less c a) eqn:H3; [|done].
  destruct (bytes_less a b) eqn:H4; [by rewrite (bytes_less_trans c a b) in H2|].
  rewrite (bytes_less_total a b) in H3 by done. by rewrite H3 in H2.
Qed.

Lemma ByAddress_strict_weak : strict_weak ByAddress_less.
Proof.
  split; unfold ByAddress_less; [intros; by apply bytes_less_asym|].
  intros x y z. apply bytes_less_negtrans.
Qed.

Lemma ByVotingPower_strict_weak : strict_weak ByVotingPower_less.
Proof.
  split; unfold ByVotingPower_less.
  - intros x y. repeat case_decide; rewrite ?bool_decide_eq_true, ?bool_decide_eq_false;
      try congruence; try lia. apply bytes_less_asym.
  - intros x y z. repeat case_decide; rewrite ?bool_decide_eq_false; try congruence; try lia.
    apply bytes_less_negtrans.
Qed.

(** [sort.Sort] by merging satisfies the interface. *)
Definition not_after {A} (less : A → A → bool) (x y : A) : Prop := less y x = false.

#[global] Instance not_after_dec {A} (less : A → A → bool) : RelDecision (not_after less).
Proof. intros x y. apply (decide (less y x = false)). Defined.

Lemma Sorted_merge {A} (less : A → A → bool) (l : list A) :
  strict_weak less → Sorted (not_after less) (merge_sort (not_after less) l).
Proof.
  intros Hs. apply Sorted_merge_sort. intros x y. unfold not_after.
  destruct (less y x) eqn:E; [right; by apply Hs|by left].
Qed.

Definition merge_GoSort : GoSort :=
  {| go_sort := λ A less, merge_sort (not_after less);
     go_sort_perm := λ A less l, merge_sort_Permutation (not_after less) l;
     go_sort_sorted := λ A less l H, Sorted_merge less l H |}.
