(* ===== verification/TmPriority.v ===== *)
(** Proposer selection (types/validator_set.go): the arithmetic of priorities.

    Under [room], a bound on the number of validators times the total voting power, no
    priority is ever clipped or wrapped around; the priorities then behave like
    integers, and every validator proposes in proportion to its voting power. *)

From S2P Require Import Prelude TmValidators.

(** ** Saturating arithmetic *)
Lemma is_i64_id z : is_i64 z → i64 z = z.
Proof. unfold is_i64, MinInt64, MaxInt64. intros H. apply i64_id. lia. Qed.

Definition clamp (z : Z) : Z := Z.max MinInt64 (Z.min MaxInt64 z).

Lemma clamp_id z : is_i64 z → clamp z = z.
Proof. unfold clamp, is_i64. lia. Qed.

Lemma safeAddClip_clamp a b : is_i64 a → is_i64 b → safeAddClip a b = clamp (a + b).
Proof.
  intros Ha Hb. unfold safeAddClip, safeAdd, clamp, is_i64 in *.
  assert (MinInt64 = - 2 ^ 63) by done. assert (MaxInt64 = 2 ^ 63 - 1) by done.
  repeat case_decide; rewrite ?is_i64_id by (unfold is_i64; lia); lia.
Qed.

Lemma safeSubClip_clamp a b : is_i64 a → is_i64 b → safeSubClip a b = clamp (a - b).
Proof.
  intros Ha Hb. unfold safeSubClip, safeSub, clamp, is_i64 in *.
  assert (MinInt64 = - 2 ^ 63) by done. assert (MaxInt64 = 2 ^ 63 - 1) by done.
  repeat case_decide; rewrite ?is_i64_id by (unfold is_i64; lia); lia.
Qed.

Lemma safeMul_spec a b : MinInt64 < a ≤ MaxInt64 → MinInt64 < b ≤ MaxInt64 →
  safeMul a b = if decide (MinInt64 < a * b ≤ MaxInt64) then (a * b, false) else (0, true).
Proof.
  intros Ha Hb. unfold safeMul. assert (MinInt64 = - 2 ^ 63) as Hmin by done.
  assert (MaxInt64 = 2 ^ 63 - 1) as Hmax by done.
  destruct (decide (a = 0 ∨ b = 0)) as [H0|H0].
  { rewrite decide_True by (assert (a * b = 0) by nia; lia). f_equal. nia. }
  set (B := if decide (b < 0) then i64 (- b) else b).
  set (A := if decide (a < 0) then i64 (- a) else a).
  assert (B = Z.abs b) as -> by (unfold B; case_decide; rewrite ?is_i64_id by (unfold is_i64; lia); lia).
  assert (A = Z.abs a) as -> by (unfold A; case_decide; rewrite ?is_i64_id by (unfold is_i64; lia); lia).
  rewrite Z.quot_div_nonneg by lia.
  assert (Z.abs a > MaxInt64 / Z.abs b ↔ ¬ MinInt64 < a * b ≤ MaxInt64) as Hiff.
  { assert (Z.abs a * Z.abs b = Z.abs (a * b)) by (symmetry; apply Z.abs_mul).
    split.
    - intros Hgt. assert (MaxInt64 < Z.abs b * Z.abs a); [|lia].
      assert (MaxInt64 / Z.abs b < Z.abs a) as Hlt by lia.
      destruct (decide (MaxInt64 < Z.abs b * Z.abs a)) as [|Hle]; [done|].
      assert (Z.abs a ≤ MaxInt64 / Z.abs b) by (apply Z.div_le_lower_bound; lia). lia.
    - intros Hn. assert (MaxInt64 < Z.abs b * Z.abs a) as Hlt by lia.
      apply Z.lt_gt, Z.div_lt_upper_bound; lia. }
  destruct (decide (MinInt64 < a * b ≤ MaxInt64)).
  - rewrite decide_False by tauto. by rewrite is_i64_id by (unfold is_i64; lia).
  - by rewrite decide_True by tauto.
Qed.

(** ** Sets of validators *)
Definition powers (l : list Validator) : list Z := (λ v : Validator, VotingPower v) <$> l.
Definition priorities (l : list Validator) : list Z := ProposerPriority <$> l.
Definition addresses (l : list Validator) : list bytes := (λ v : Validator, Address v) <$> l.
Definition infos (l : list Validator) : list ValInfo := val_info <$> l.
(** The total voting power of a list. *)
Definition power (l : list Validator) : Z := zsum (powers l).

#[global] Instance addresses_perm : Proper ((≡ₚ) ==> (≡ₚ)) addresses.
Proof. intros l l' H. unfold addresses. by rewrite H. Qed.
#[global] Instance infos_perm : Proper ((≡ₚ) ==> (≡ₚ)) infos.
Proof. intros l l' H. unfold infos. by rewrite H. Qed.
#[global] Instance powers_perm : Proper ((≡ₚ) ==> (≡ₚ)) powers.
Proof. intros l l' H. unfold powers. by rewrite H. Qed.
#[global] Instance power_perm : Proper ((≡ₚ) ==> (=)) power.
Proof. intros l l' H. unfold power. by rewrite H. Qed.

(** What every validator set has: distinct addresses, positive powers within the bound, and
    a cached total that is right unless it has not been computed. *)
Record wf_vals (s : ValidatorSet) : Prop := {
  wv_nodup : NoDup (addresses (Validators s));
  wv_pos : Forall (λ v : Validator, 0 < VotingPower v) (Validators s);
  wv_max : power (Validators s) ≤ MaxTotalVotingPower;
  wv_total : totalVotingPower s = 0 ∨ totalVotingPower s = power (Validators s);
}.

Lemma powers_infos l l' : infos l = infos l' → powers l = powers l'.
Proof.
  intros H. change ((λ v : Validator, VotingPower v) <$> l = (λ v : Validator, VotingPower v) <$> l').
  change (λ v : Validator, VotingPower v) with (VotingPower ∘ val_info).
  rewrite !list_fmap_compose. unfold infos in H. by rewrite H.
Qed.
Lemma addresses_infos l l' : infos l = infos l' → addresses l = addresses l'.
Proof.
  intros H. change ((λ v : Validator, Address v) <$> l = (λ v : Validator, Address v) <$> l').
  change (λ v : Validator, Address v) with (Address ∘ val_info).
  rewrite !list_fmap_compose. unfold infos in H. by rewrite H.
Qed.
Lemma power_infos l l' : infos l = infos l' → power l = power l'.
Proof. intros H. unfold power. by rewrite (powers_infos l l'). Qed.
Lemma length_infos l l' : infos l = infos l' → length l = length l'.
Proof. intros H. apply (f_equal length) in H. unfold infos in H. by rewrite !length_fmap in H. Qed.

Lemma powers_pos l : Forall (λ v : Validator, 0 < VotingPower v) l → Forall (λ x, 0 ≤ x) (powers l).
Proof. intros H. apply Forall_fmap. eapply Forall_impl; [done|]. intros v Hv. cbn in *. lia. Qed.

Lemma power_nonneg l : Forall (λ v : Validator, 0 < VotingPower v) l → 0 ≤ power l.
Proof. intros H. by apply zsum_nonneg, powers_pos. Qed.

Lemma power_elem l (v : Validator) : Forall (λ v : Validator, 0 < VotingPower v) l → v ∈ l → VotingPower v ≤ power l.
Proof.
  intros Hl [i Hi]%list_elem_of_lookup_1. apply (zsum_elem_nonneg _ i); [by apply powers_pos|].
  unfold powers. by rewrite list_lookup_fmap, Hi.
Qed.

Lemma power_pos l : Forall (λ v : Validator, 0 < VotingPower v) l → l ≠ [] → 0 < power l.
Proof.
  intros Hl Hne. destruct l as [|v l]; [done|]. pose proof (Forall_inv Hl) as Hv. cbn in Hv.
  pose proof (power_elem (v :: l) v Hl ltac:(set_solver)). lia.
Qed.

(** ** The total voting power *)
Lemma Max_lt : MaxTotalVotingPower * 8 ≤ MaxInt64 ∧ 0 < MaxTotalVotingPower ∧ MaxInt64 = 2 ^ 63 - 1 ∧ MinInt64 = - 2 ^ 63.
Proof. done. Qed.

Lemma sum_powers_Ok l sum :
  Forall (λ v : Validator, 0 < VotingPower v) l → 0 ≤ sum → sum + power l ≤ MaxTotalVotingPower →
  sum_powers sum l = Ok (sum + power l).
Proof.
  pose proof Max_lt as (? & ? & ? & ?). unfold power, powers, zsum.
  revert sum. induction l as [|v l IH]; intros sum Hp Hs Hm; cbn in *; [f_equal; lia|].
  apply Forall_cons in Hp as [Hv Hp]. pose proof (power_nonneg l Hp) as Hn.
  unfold power, powers, zsum in Hn. cbn in Hn.
  rewrite safeAddClip_clamp, clamp_id by (unfold is_i64; lia). rewrite decide_False by lia.
  rewrite IH by (done || lia). f_equal. lia.
Qed.

Lemma updateTotalVotingPower_Ok s :
  Forall (λ v : Validator, 0 < VotingPower v) (Validators s) → power (Validators s) ≤ MaxTotalVotingPower →
  updateTotalVotingPower s = Ok (tt, set_total (power (Validators s)) s).
Proof.
  intros Hp Hm. unfold updateTotalVotingPower. go_unfold. rewrite sum_powers_Ok by (done || lia). done.
Qed.

(** Asking for the total only fills the cache. *)
(** The powers alone: what the verification of commits needs of a set, whose addresses may come from a peer. *)
Record wf_powers (s : ValidatorSet) : Prop := {
  wp_pos : Forall (λ v : Validator, 0 < VotingPower v) (Validators s);
  wp_max : power (Validators s) ≤ MaxTotalVotingPower;
  wp_total : totalVotingPower s = 0 ∨ totalVotingPower s = power (Validators s);
}.
Lemma wf_vals_powers s : wf_vals s → wf_powers s.
Proof. intros []. by split. Qed.

Lemma TotalVotingPower_powers s : wf_powers s →
  TotalVotingPower s = Ok (power (Validators s), set_total (power (Validators s)) s).
Proof.
  intros Hw. unfold TotalVotingPower. unfold bind, gets, outcome_bind.
  destruct (decide (totalVotingPower s = 0)) as [H0|H0].
  - rewrite updateTotalVotingPower_Ok by apply Hw. done.
  - destruct (wp_total s Hw) as [|Ht]; [done|]. cbn. rewrite Ht. destruct s; cbn in *; by subst.
Qed.

Lemma TotalVotingPower_Ok s : wf_vals s →
  TotalVotingPower s = Ok (power (Validators s), set_total (power (Validators s)) s).
Proof. intros Hw. by apply TotalVotingPower_powers, wf_vals_powers. Qed.

Lemma set_total_wf s : wf_vals s → wf_vals (set_total (power (Validators s)) s).
Proof. intros Hw. split; cbn; try apply Hw. by right. Qed.

(** ** The validator with the highest priority *)
Lemma most_priority_spec l res :
  NoDup (addresses (snd <$> (option_list res ++ l))) → option_list res ++ l ≠ [] →
  ∃ r, most_priority res l = Ok (Some r) ∧ r ∈ option_list res ++ l ∧
    ∀ o, o ∈ option_list res ++ l → ProposerPriority o.2 ≤ ProposerPriority r.2.
Proof.
  revert res. induction l as [|x l IH]; intros res Hnd Hne.
  { destruct res as [r|]; cbn in *; [|done]. exists r. split; [done|]. split; [set_solver|].
    intros o ->%list_elem_of_singleton. lia. }
  cbn [most_priority]. destruct res as [r|]; cbn [CompareProposerPriority outcome_bind].
  2: { destruct (IH (Some x)) as (y & E & Hy & Hmax); [done|done|]. eauto. }
  assert (∀ keep drop : ValRef, [r; x] ≡ₚ [keep; drop] → ProposerPriority drop.2 ≤ ProposerPriority keep.2 →
    ∃ y, most_priority (Some keep) l = Ok (Some y) ∧ y ∈ [r] ++ x :: l ∧
      ∀ o, o ∈ [r] ++ x :: l → ProposerPriority o.2 ≤ ProposerPriority y.2) as Hstep.
  { intros keep drop Hp Hle. destruct (IH (Some keep)) as (y & E & Hy & Hmax); [|done|].
    - change (option_list (Some r) ++ x :: l) with ([r; x] ++ l) in Hnd. rewrite Hp in Hnd.
      cbn in *. apply NoDup_cons in Hnd as [H1 H2]. apply NoDup_cons in H2 as [H2 H3].
      constructor; [set_solver|done].
    - assert (∀ o, o ∈ [r; x] ++ l ↔ o ∈ [keep; drop] ++ l) as Hin by (intros o; by rewrite Hp).
      exists y. split; [done|]. change ([r] ++ x :: l) with ([r; x] ++ l). split.
      + apply Hin. cbn in *. set_solver.
      + intros o [->|[->|Ho]%elem_of_cons]%Hin%elem_of_cons.
        * apply Hmax. cbn. set_solver.
        * pose proof (Hmax keep ltac:(cbn; set_solver)). lia.
        * apply Hmax. cbn. set_solver. }
  repeat case_decide; cbn [outcome_bind]; [apply (Hstep r x); [done|lia]|apply (Hstep x r); [constructor|lia]|].
  destruct (bytes_Compare (Address r.2) (Address x.2)) eqn:E; cbn [outcome_bind].
  - apply bytes_Compare_eq in E. cbn in Hnd. apply NoDup_cons in Hnd as [H1 _].
    destruct H1. rewrite E. set_solver.
  - apply (Hstep r x); [done|lia].
  - apply (Hstep x r); [constructor|lia].
Qed.

Lemma snd_refs l : snd <$> refs l = l.
Proof.
  apply list_eq. intros i. unfold refs. rewrite list_lookup_fmap, list_lookup_imap.
  by destruct (l !! i).
Qed.

Lemma elem_of_refs l i v : (i, v) ∈ refs l ↔ l !! i = Some v.
Proof.
  unfold refs. rewrite elem_of_lookup_imap. split.
  - by intros (j & w & [= <- <-] & Hw).
  - intros H. by exists i, v.
Qed.

Lemma getValWithMostPriority_spec s : NoDup (addresses (Validators s)) → Validators s ≠ [] →
  ∃ i v, getValWithMostPriority s = Ok (Some (i, v)) ∧ Validators s !! i = Some v ∧
    ∀ w, w ∈ Validators s → ProposerPriority w ≤ ProposerPriority v.
Proof.
  intros Hnd Hne. unfold getValWithMostPriority.
  destruct (most_priority_spec (refs (Validators s)) None) as ((i & v) & E & Hin & Hmax).
  - cbn. by rewrite snd_refs.
  - cbn. intros H. apply Hne. by rewrite <-(snd_refs (Validators s)), H.
  - exists i, v. split; [done|]. split; [by apply elem_of_refs|].
    intros w [j Hj]%list_elem_of_lookup_1. apply (Hmax (j, w)). by apply elem_of_refs.
Qed.

(** ** One increment *)
Definition room (l : list Validator) : Prop :=
  2 * power l * (Z.of_nat (length l) + 1) + Z.of_nat (length l) ≤ MaxInt64.

(** The state between increments: centered, and nobody far below zero. *)
Record balanced (s : ValidatorSet) : Prop := {
  bal_wf : wf_vals s;
  bal_ne : Validators s ≠ [];
  bal_sum : 0 ≤ zsum (priorities (Validators s)) < Z.of_nat (length (Validators s));
  bal_low : Forall (λ p, - (2 * power (Validators s)) ≤ p) (priorities (Validators s));
}.

Definition add_power (v : Validator) : Validator := set_priority (ProposerPriority v + VotingPower v) v.

Lemma priorities_lookup l i v : l !! i = Some v → priorities l !! i = Some (ProposerPriority v).
Proof. intros H. unfold priorities. by rewrite list_lookup_fmap, H. Qed.

Lemma balanced_upper s v : balanced s → v ∈ Validators s →
  - (2 * power (Validators s)) ≤ ProposerPriority v ∧
  ProposerPriority v ≤ Z.of_nat (length (Validators s)) + 2 * power (Validators s) * (Z.of_nat (length (Validators s)) - 1).
Proof.
  intros Hb [i Hi]%list_elem_of_lookup_1. apply priorities_lookup in Hi as Hp.
  pose proof (zsum_elem_le _ _ _ _ (bal_low s Hb) Hp) as Hu. pose proof (bal_sum s Hb).
  unfold priorities in Hu at 2. rewrite length_fmap in Hu.
  pose proof (Forall_lookup_1 _ _ _ _ (bal_low s Hb) Hp) as Hl. cbn in Hl. lia.
Qed.

Lemma fmap_ext_in {A B} (f g : A → B) (l : list A) : (∀ x, x ∈ l → f x = g x) → f <$> l = g <$> l.
Proof. intros H. apply list_fmap_ext. intros i x Hx. apply H. by eapply list_elem_of_lookup_2. Qed.

Lemma infos_fmap (f : Validator → Validator) l : (∀ v, val_info (f v) = val_info v) → infos (f <$> l) = infos l.
Proof. intros H. unfold infos. rewrite <-list_fmap_compose. apply list_fmap_ext. intros i v _. apply H. Qed.

Lemma infos_insert l i v v' : l !! i = Some v → val_info v' = val_info v → infos (<[i := v']> l) = infos l.
Proof.
  intros Hi E. unfold infos. rewrite list_fmap_insert, E. apply list_insert_id.
  by rewrite list_lookup_fmap, Hi.
Qed.

Lemma wf_vals_infos s s' : wf_vals s → infos (Validators s') = infos (Validators s) →
  totalVotingPower s' = power (Validators s) → wf_vals s'.
Proof.
  intros Hw E Et. split.
  - rewrite (addresses_infos _ _ E). apply Hw.
  - assert (Forall (λ i, 0 < VotingPower i) (infos (Validators s))) as H
      by (apply Forall_fmap; apply (wv_pos s Hw)).
    rewrite <-E in H. exact (proj1 (Forall_fmap val_info (λ i, 0 < VotingPower i) (Validators s')) H).
  - rewrite (power_infos _ _ E). apply Hw.
  - right. by rewrite (power_infos _ _ E).
Qed.

(** What one increment does when nothing is clipped: [i] is the index chosen. *)
Definition stepped (l l' : list Validator) (i : nat) : Prop :=
  infos l' = infos l ∧
  ∀ k w, l !! k = Some w → ∃ w', l' !! k = Some w' ∧
    ProposerPriority w' = ProposerPriority w + VotingPower w - (if decide (k = i) then power l else 0).

Lemma incrementProposerPriority_eq s : balanced s → room (Validators s) →
  ∃ i v, Validators s !! i = Some v ∧
    (∀ w, w ∈ Validators s → ProposerPriority w + VotingPower w ≤ ProposerPriority v + VotingPower v) ∧
    let v' := set_priority (ProposerPriority v + VotingPower v - power (Validators s)) v in
    incrementProposerPriority s = Ok (v', {|
      Validators := <[i := v']> (add_power <$> Validators s);
      Proposer := Proposer s;
      totalVotingPower := power (Validators s) |}).
Proof.
  intros Hb Hr. pose proof (bal_wf s Hb) as Hw. pose proof Max_lt as (? & ? & ? & ?).
  pose proof (wv_max s Hw). pose proof (power_pos _ (wv_pos s Hw) (bal_ne s Hb)).
  unfold room in Hr. set (P := power (Validators s)) in *. set (n := Z.of_nat (length (Validators s))) in *.
  assert (0 ≤ n) by (unfold n; lia).
  assert (∀ w, w ∈ Validators s → is_i64 (ProposerPriority w) ∧ is_i64 (VotingPower w) ∧
    is_i64 (ProposerPriority w + VotingPower w) ∧ is_i64 (ProposerPriority w + VotingPower w - P)) as Hin.
  { intros w Hin. pose proof (balanced_upper s w Hb Hin) as Hp. fold P n in Hp.
    pose proof (power_elem _ w (wv_pos s Hw) Hin) as Hpw. fold P in Hpw.
    pose proof (proj1 (Forall_forall _ _) (wv_pos s Hw) w Hin) as Hpos. cbn in Hpos.
    unfold is_i64. assert (2 * P * (n + 1) = 2 * P * (n - 1) + 4 * P) by lia.
    assert (0 ≤ 2 * P * (n + 1)) by nia. lia. }
  assert ((λ v : Validator, set_priority (safeAddClip (ProposerPriority v) (VotingPower v)) v) <$> Validators s
          = add_power <$> Validators s) as Hadd.
  { apply fmap_ext_in. intros w (? & ? & ? & _)%Hin. unfold add_power.
    by rewrite safeAddClip_clamp, clamp_id. }
  set (s1 := set_Validators (add_power <$> Validators s) s).
  assert (infos (add_power <$> Validators s) = infos (Validators s)) as Hinf by (by apply infos_fmap).
  destruct (getValWithMostPriority_spec s1) as (i & v1 & Eg & Hi & Hmax).
  { change (NoDup (addresses (add_power <$> Validators s))). rewrite (addresses_infos _ _ Hinf). apply Hw. }
  { intros E%fmap_nil_inv. by apply (bal_ne s Hb). }
  change (Validators s1) with (add_power <$> Validators s) in Hi, Hmax. apply list_lookup_fmap_Some in Hi as (v & -> & Hv). exists i, v. split; [done|]. split.
  { intros w Hwin. apply (Hmax (add_power w)). cbn. by apply list_elem_of_fmap_2. }
  unfold incrementProposerPriority, for_validators. unfold bind, modify, gets, lift, outcome_bind.
  rewrite Hadd. fold s1. cbn [id]. rewrite Eg.
  assert (wf_vals s1) as Hw1.
  { split; change (Validators s1) with (add_power <$> Validators s);
      rewrite ?(addresses_infos _ _ Hinf), ?(power_infos _ _ Hinf); try apply Hw.
    apply Forall_fmap. apply (wv_pos s Hw). }
  rewrite TotalVotingPower_Ok by done. cbn [ret Validators s1 set_Validators set_total].
  change (Validators s1) with (add_power <$> Validators s). rewrite (power_infos _ _ Hinf).
  unfold ret. cbn [set_Validators set_total Validators Proposer totalVotingPower]. fold P.
  assert (v ∈ Validators s) as Hvin by (by eapply list_elem_of_lookup_2).
  destruct (Hin v Hvin) as (? & ? & ? & ?).
  change (ProposerPriority (add_power v)) with (ProposerPriority v + VotingPower v).
  rewrite safeSubClip_clamp, clamp_id; [done|done|done|unfold is_i64; lia].
Qed.

Lemma incrementProposerPriority_step s : balanced s → room (Validators s) →
  ∃ i v v' s', incrementProposerPriority s = Ok (v', s') ∧ Validators s !! i = Some v ∧
    val_info v' = val_info v ∧ stepped (Validators s) (Validators s') i ∧
    balanced s' ∧ room (Validators s') ∧ Proposer s' = Proposer s.
Proof.
  intros Hb Hr. destruct (incrementProposerPriority_eq s Hb Hr) as (i & v & Hi & Hmax & E).
  pose proof (bal_wf s Hb) as Hw. set (P := power (Validators s)) in *.
  set (v' := set_priority (ProposerPriority v + VotingPower v - P) v) in *.
  set (s' := {| Validators := <[i := v']> (add_power <$> Validators s);
               Proposer := Proposer s; totalVotingPower := P |}) in *. cbn zeta in E.
  exists i, v, v', s'. split; [done|]. split; [done|]. split; [done|].
  assert ((add_power <$> Validators s) !! i = Some (add_power v)) as Hia by (by rewrite list_lookup_fmap, Hi).
  assert (infos (Validators s') = infos (Validators s)) as Hinf.
  { change (Validators s') with (<[i := v']> (add_power <$> Validators s)).
    rewrite (infos_insert _ i (add_power v)) by done. by apply infos_fmap. }
  assert (stepped (Validators s) (Validators s') i) as Hst.
  { split; [done|]. intros k w Hk. change (Validators s') with (<[i := v']> (add_power <$> Validators s)).
    case_decide as Hki.
    - subst k. rewrite Hi in Hk. injection Hk as <-. exists v'.
      rewrite list_lookup_insert_eq by (rewrite length_fmap; by eapply lookup_lt_Some). done.
    - exists (add_power w). rewrite list_lookup_insert_ne, list_lookup_fmap, Hk by done. split; [done|].
      cbn. lia. }
  pose proof (length_infos _ _ Hinf) as Hlen. pose proof (power_infos _ _ Hinf) as Hpow.
  split; [done|]. split; [|split; [unfold room in *; by rewrite Hlen, Hpow|done]].
  assert (zsum (priorities (Validators s')) = zsum (priorities (Validators s))) as Hsum.
  { change (Validators s') with (<[i := v']> (add_power <$> Validators s)).
    unfold priorities at 1. rewrite list_fmap_insert. erewrite zsum_insert; [|by rewrite list_lookup_fmap, Hia].
    rewrite <-list_fmap_compose. change (ProposerPriority ∘ add_power) with
      (λ v : Validator, ProposerPriority v + VotingPower v). rewrite zsum_fmap_add.
    change (zsum (VotingPower <$> Validators s)) with P. fold (priorities (Validators s)). cbn.
    change (zsum ((λ v0 : Validator, VotingPower v0) <$> Validators s)) with P. lia. }
  split.
  - apply (wf_vals_infos s); done.
  - intros H. rewrite H in Hlen. apply (bal_ne s Hb). by destruct (Validators s).
  - rewrite Hsum, Hlen. apply Hb.
  - rewrite Hpow. fold P. apply Forall_lookup_2. intros k p Hk.
    unfold priorities in Hk. apply list_lookup_fmap_Some in Hk as (w' & -> & Hw').
    assert (∃ w, Validators s !! k = Some w) as [w Hkw].
    { apply lookup_lt_is_Some_2. apply lookup_lt_Some in Hw'. lia. }
    destruct Hst as [_ Hst]. destruct (Hst k w Hkw) as (w2 & Hw2 & Ew). rewrite Hw' in Hw2.
    injection Hw2 as <-. rewrite Ew. fold P. pose proof (power_pos _ (wv_pos s Hw) (bal_ne s Hb)) as HP.
    fold P in HP.
    pose proof (proj1 (Forall_forall _ _) (wv_pos s Hw) w (list_elem_of_lookup_2 _ _ _ Hkw)) as Hpos.
    pose proof (balanced_upper s w Hb (list_elem_of_lookup_2 _ _ _ Hkw)) as [Hlo _]. fold P in Hlo. cbn in Hpos.
    case_decide as Hki; [|lia]. subst k. rewrite Hi in Hkw. injection Hkw as <-.
    assert (0 < ProposerPriority v + VotingPower v); [|lia].
    assert (zsum ((λ v : Validator, ProposerPriority v + VotingPower v) <$> Validators s)
            ≤ (ProposerPriority v + VotingPower v) * Z.of_nat (length ((λ v : Validator, ProposerPriority v + VotingPower v) <$> Validators s))) as Hub.
    { apply zsum_upper, Forall_fmap, Forall_forall. exact Hmax. }
    rewrite length_fmap, zsum_fmap_add in Hub.
    change (zsum (ProposerPriority <$> Validators s)) with (zsum (priorities (Validators s))) in Hub.
    change (zsum ((λ v0 : Validator, VotingPower v0) <$> Validators s)) with P in Hub.
    pose proof (bal_sum s Hb). nia.
Qed.

(** ** Many increments *)
Fixpoint proposers (n : nat) : M ValidatorSet (list Validator) :=
  match n with
  | O => ret []
  | S n' => p <- incrementProposerPriority ;; l <- proposers n' ;; ret (p :: l)
  end.

(** How often the validator with an address proposes. *)
Definition times_proposer (a : bytes) (l : list Validator) : Z :=
  Z.of_nat (length (filter (λ p : Validator, Address p = a) l)).

Lemma increment_times_proposers n p s :
  increment_times n p s
  = outcome_bind (proposers n s) (λ '(l, s'), Ok (match last l with Some q => Some q | None => p end, s')).
Proof.
  revert p s. induction n as [|n IH]; intros p s; [done|]. cbn [increment_times proposers].
  unfold bind, ret, outcome_bind. destruct (incrementProposerPriority s) as [[q s1]| |]; [|done..].
  rewrite IH. destruct (proposers n s1) as [[l s2]| |]; [|done..]. cbn [outcome_bind].
  rewrite last_cons. by destruct (last l).
Qed.

Lemma addresses_inj l i j (v w : Validator) : NoDup (addresses l) → l !! i = Some v → l !! j = Some w →
  Address v = Address w → i = j.
Proof.
  intros Hnd Hi Hj E. eapply (NoDup_lookup (addresses l)); [done| |].
  - unfold addresses. by rewrite list_lookup_fmap, Hi.
  - unfold addresses. rewrite list_lookup_fmap, Hj. cbn. by rewrite E.
Qed.

Lemma infos_lookup l l' k (w w' : Validator) : infos l = infos l' → l !! k = Some w → l' !! k = Some w' → val_info w = val_info w'.
Proof.
  intros E H1 H2. assert (infos l !! k = Some (val_info w)) as H3 by (unfold infos; by rewrite list_lookup_fmap, H1).
  rewrite E in H3. unfold infos in H3. rewrite list_lookup_fmap, H2 in H3. cbn in H3. congruence.
Qed.

(** The priority of a validator records how often it has proposed. *)
Definition accounted (l l' : list Validator) (ps : list Validator) : Prop :=
  ∀ k w, l !! k = Some w → ∃ w', l' !! k = Some w' ∧
    ProposerPriority w' = ProposerPriority w + Z.of_nat (length ps) * VotingPower w
                          - power l * times_proposer (Address w) ps.

Lemma proposers_run n : ∀ s, balanced s → room (Validators s) →
  ∃ ps s', proposers n s = Ok (ps, s') ∧ length ps = n ∧ balanced s' ∧
    infos (Validators s') = infos (Validators s) ∧ Proposer s' = Proposer s ∧
    (∀ p, p ∈ ps → val_info p ∈ infos (Validators s)) ∧
    accounted (Validators s) (Validators s') ps.
Proof.
  induction n as [|n IH]; intros s Hb Hr.
  { exists [], s. split_and!; [done..|set_solver|]. intros k w Hk. exists w. split; [done|].
    change (times_proposer (Address w) []) with 0. change (Z.of_nat (length [])) with 0. lia. }
  destruct (incrementProposerPriority_step s Hb Hr) as (i & v & v' & s1 & E & Hi & Ev & [Hinf Hst] & Hb1 & Hr1 & HP).
  destruct (IH s1 Hb1 Hr1) as (ps & s2 & E2 & Hl & Hb2 & Hinf2 & HP2 & Hps & Hacc).
  exists (v' :: ps), s2. split_and!.
  - cbn [proposers]. unfold bind, ret, outcome_bind. by rewrite E, E2.
  - cbn. lia.
  - done.
  - congruence.
  - congruence.
  - intros p [->|Hp]%elem_of_cons; [|rewrite <-Hinf; by apply Hps].
    rewrite Ev. unfold infos. apply list_elem_of_fmap_2. by eapply list_elem_of_lookup_2.
  - intros k w Hk. destruct (Hst k w Hk) as (w1 & Hw1 & Ew1). destruct (Hacc k w1 Hw1) as (w2 & Hw2 & Ew2).
    exists w2. split; [done|]. rewrite Ew2, Ew1.
    pose proof (infos_lookup _ _ _ _ _ Hinf Hw1 Hk) as Ei.
    assert (VotingPower w1 = VotingPower w) as -> by (by rewrite Ei).
    assert (Address w1 = Address w) as -> by (by rewrite Ei).
    rewrite (power_infos _ _ Hinf). unfold times_proposer. rewrite filter_cons.
    assert (Address v' = Address w ↔ k = i) as Hiff.
    { rewrite Ev. split.
      - intros Ea. symmetry. by eapply addresses_inj; [apply (bal_wf s Hb)|..].
      - intros ->. rewrite Hi in Hk. by injection Hk as <-. }
    destruct (decide (k = i)) as [->|Hne].
    + rewrite decide_True by tauto. cbn [length]. lia.
    + rewrite decide_False by tauto. cbn [length]. lia.
Qed.

(** ** Rescaling and centering *)
Lemma max_priority_upper l m v :
  v ∈ l → ProposerPriority v ≤ foldl (λ m v, if decide (ProposerPriority v > m) then ProposerPriority v else m) m l.
Proof.
  assert (∀ l m, m ≤ foldl (λ m v, if decide (ProposerPriority v > m) then ProposerPriority v else m) m l) as Hge.
  { clear. induction l as [|x l IH]; intros m; cbn; [lia|]. etrans; [|apply IH]. case_decide; lia. }
  revert m. induction l as [|x l IH]; intros m; [by intros ?%elem_of_nil|].
  intros [->|Hv]%elem_of_cons; cbn; [|by apply IH]. etrans; [|apply Hge]. case_decide; lia.
Qed.

Lemma max_priority_in l m : 
  foldl (λ m v, if decide (ProposerPriority v > m) then ProposerPriority v else m) m l = m ∨
  ∃ v, v ∈ l ∧ foldl (λ m v, if decide (ProposerPriority v > m) then ProposerPriority v else m) m l = ProposerPriority v.
Proof.
  revert m. induction l as [|x l IH]; intros m; cbn; [by left|].
  destruct (IH (if decide (ProposerPriority x > m) then ProposerPriority x else m)) as [->|(v & Hv & ->)].
  - case_decide; [right; exists x; set_solver|by left].
  - right. exists v. set_solver.
Qed.

Lemma min_priority_lower l m v :
  v ∈ l → foldl (λ m v, if decide (ProposerPriority v < m) then ProposerPriority v else m) m l ≤ ProposerPriority v.
Proof.
  assert (∀ l m, foldl (λ m v, if decide (ProposerPriority v < m) then ProposerPriority v else m) m l ≤ m) as Hge.
  { clear. induction l as [|x l IH]; intros m; cbn; [lia|]. etrans; [apply IH|]. case_decide; lia. }
  revert m. induction l as [|x l IH]; intros m; [by intros ?%elem_of_nil|].
  intros [->|Hv]%elem_of_cons; cbn; [|by apply IH]. etrans; [apply Hge|]. case_decide; lia.
Qed.

Lemma min_priority_in l m : 
  foldl (λ m v, if decide (ProposerPriority v < m) then ProposerPriority v else m) m l = m ∨
  ∃ v, v ∈ l ∧ foldl (λ m v, if decide (ProposerPriority v < m) then ProposerPriority v else m) m l = ProposerPriority v.
Proof.
  revert m. induction l as [|x l IH]; intros m; cbn; [by left|].
  destruct (IH (if decide (ProposerPriority x < m) then ProposerPriority x else m)) as [->|(v & Hv & ->)].
  - case_decide; [right; exists x; set_solver|by left].
  - right. exists v. set_solver.
Qed.

(** All priorities lie in [lo, hi]. *)
Definition within (lo hi : Z) (l : list Validator) : Prop := ∀ v, v ∈ l → lo ≤ ProposerPriority v ≤ hi.

(** The computed difference is the exact spread of the priorities, when that fits. *)
Lemma computeMaxMinPriorityDiff_spec s lo hi :
  Validators s ≠ [] → within lo hi (Validators s) → is_i64 lo → is_i64 hi → hi - lo ≤ MaxInt64 →
  ∃ m M, within m M (Validators s) ∧ lo ≤ m ≤ M ∧ M ≤ hi ∧ computeMaxMinPriorityDiff s = Ok (M - m) ∧
    M - m = max_priority (Validators s) - min_priority (Validators s).
Proof.
  intros Hne Hin Hlo Hhi Hd. unfold computeMaxMinPriorityDiff, IsNilOrEmpty.
  rewrite bool_decide_eq_false_2 by done. unfold is_i64 in *.
  exists (min_priority (Validators s)), (max_priority (Validators s)). pose proof Max_lt as (? & ? & ? & ?).
  assert (within (min_priority (Validators s)) (max_priority (Validators s)) (Validators s)) as Hw.
  { intros v Hv. split; [by apply min_priority_lower|by apply max_priority_upper]. }
  destruct (Validators s) as [|v0 l] eqn:E; [done|]. rewrite <-E in *.
  assert (v0 ∈ Validators s) as Hv0 by (rewrite E; set_solver).
  assert (lo ≤ min_priority (Validators s)).
  { destruct (min_priority_in (Validators s) MaxInt64) as [Em|(v & Hv & Em)];
      change (min_priority (Validators s) = MaxInt64) in Em || change (min_priority (Validators s) = ProposerPriority v) in Em;
      rewrite Em; [pose proof (Hin v0 Hv0); lia|apply Hin; done]. }
  assert (max_priority (Validators s) ≤ hi).
  { destruct (max_priority_in (Validators s) MinInt64) as [Em|(v & Hv & Em)];
      change (max_priority (Validators s) = MinInt64) in Em || change (max_priority (Validators s) = ProposerPriority v) in Em;
      rewrite Em; [pose proof (Hin v0 Hv0); lia|apply Hin; done]. }
  pose proof (Hw v0 Hv0). split; [done|]. split; [lia|]. split; [done|].
  split; [|done]. rewrite is_i64_id by (unfold is_i64; lia). by rewrite decide_False by lia.
Qed.

(** Truncated division by the rounded-up ratio brings the spread within the window. *)
Lemma quot_window m M W : m ≤ M → 0 < W → W < M - m →
  let r := Z.quot (M - m + W - 1) W in
  1 < r ∧ Z.quot m r ≤ Z.quot M r ∧ Z.quot M r - Z.quot m r ≤ W.
Proof.
  intros HmM HW Hgt r. assert (r = (M - m + W - 1) / W) as Hr by (apply Z.quot_div_nonneg; lia).
  assert (M - m ≤ W * r ∧ W * (r - 1) < M - m) as [H1 H2].
  { pose proof (Z.div_mod (M - m + W - 1) W ltac:(lia)). pose proof (Z.mod_pos_bound (M - m + W - 1) W ltac:(lia)).
    rewrite Hr. nia. }
  assert (1 < r) as H3 by nia. split; [done|]. split; [apply Z.quot_le_mono; lia|].
  pose proof (Z.quot_rem M r ltac:(lia)) as EM. pose proof (Z.quot_rem m r ltac:(lia)) as Em.
  pose proof (Z.rem_bound_abs M r ltac:(lia)). pose proof (Z.rem_bound_abs m r ltac:(lia)).
  destruct (decide (0 ≤ m)).
  - pose proof (Z.rem_bound_pos m r ltac:(lia) ltac:(lia)). pose proof (Z.rem_bound_pos M r ltac:(lia) ltac:(lia)).
    assert (r * (Z.quot M r - Z.quot m r) < r * (W + 1)) by lia. nia.
  - destruct (decide (M ≤ 0)).
    + pose proof (Z.rem_bound_pos_neg m r ltac:(lia) ltac:(lia)).
      pose proof (Z.rem_bound_pos_neg M r ltac:(lia) ltac:(lia)).
      assert (r * (Z.quot M r - Z.quot m r) < r * (W + 1)) by lia. nia.
    + pose proof (Z.rem_nonpos m r ltac:(lia) ltac:(lia)). pose proof (Z.rem_nonneg M r ltac:(lia) ltac:(lia)).
      assert (r * (Z.quot M r - Z.quot m r) ≤ r * W) by lia. nia.
Qed.

Lemma within_fmap_i64 f g lo hi (l : list Validator) :
  (∀ v, v ∈ l → lo ≤ ProposerPriority v ≤ hi → f v = g v) → within lo hi l → f <$> l = g <$> l :> list Validator.
Proof. intros H Hw. apply fmap_ext_in. intros v Hv. by apply H, Hw. Qed.

(** What RescalePriorities and shiftByAvgProposerPriority mean to compute, with unbounded integers. *)
Definition rescaled (W : Z) (l : list Validator) : list Validator :=
  let diff := max_priority l - min_priority l in
  if decide (diff > W) then (λ v, set_priority (Z.quot (ProposerPriority v) (Z.quot (diff + W - 1) W)) v) <$> l else l.
Definition centered (l : list Validator) : list Validator :=
  let avg := zsum (priorities l) / Z.of_nat (length l) in (λ v, set_priority (ProposerPriority v - avg) v) <$> l.

Lemma RescalePriorities_spec s W lo hi :
  Validators s ≠ [] → within lo hi (Validators s) → is_i64 lo → is_i64 hi →
  0 < W → hi - lo + W ≤ MaxInt64 →
  ∃ s' m M, RescalePriorities W s = Ok (tt, s') ∧ within m M (Validators s') ∧ is_i64 m ∧ is_i64 M ∧
    m ≤ M ∧ M - m ≤ W ∧ infos (Validators s') = infos (Validators s) ∧
    Proposer s' = Proposer s ∧ totalVotingPower s' = totalVotingPower s ∧ Validators s' = rescaled W (Validators s).
Proof.
  intros Hne Hin Hlo Hhi HW Hd. pose proof Max_lt as (? & ? & ? & ?).
  destruct (computeMaxMinPriorityDiff_spec s lo hi) as (m & M & Hw & Hm & HM & E & Ed); [done..|lia|].
  unfold rescaled. cbv zeta. rewrite <-Ed.
  unfold RescalePriorities, bind, gets, lift, outcome_bind, ret, panic. cbn [id].
  unfold IsNilOrEmpty. rewrite bool_decide_eq_false_2 by done.
  rewrite decide_False by lia. rewrite E. unfold is_i64 in *.
  rewrite (is_i64_id (M - m + W - 1)) by (unfold is_i64; lia).
  destruct (decide (M - m > W)) as [Hgt|Hle].
  2: { exists s, m, M. split_and!; (done || lia). }
  destruct (quot_window m M W) as (Hr & Hq1 & Hq2); [lia|lia|lia|].
  set (r := Z.quot (M - m + W - 1) W) in *. rewrite decide_False by lia.
  assert (∀ p, is_i64 p → is_i64 (Z.quot p r)) as Hq.
  { intros p Hp. unfold is_i64 in *. pose proof (Z.quot_rem p r ltac:(lia)).
    assert (2 * Z.abs (Z.quot p r) ≤ Z.abs p); [|lia].
    rewrite <-Z.quot_abs, (Z.abs_eq r), Z.quot_div_nonneg by lia.
    pose proof (Z.mul_div_le (Z.abs p) r ltac:(lia)). pose proof (Z.div_pos (Z.abs p) r ltac:(lia) ltac:(lia)). nia. }
  exists (set_Validators ((λ v, set_priority (Z.quot (ProposerPriority v) r) v) <$> Validators s) s),
    (Z.quot m r), (Z.quot M r).
  split_and!; try done; try (apply Hq; unfold is_i64; lia).
  - unfold for_validators, modify. do 3 f_equal. apply fmap_ext_in. intros v Hv. f_equal.
    apply is_i64_id, Hq. unfold is_i64. specialize (Hw v Hv). lia.
  - intros v (w & -> & Hwin)%list_elem_of_fmap. cbn. specialize (Hw w Hwin).
    split; apply Z.quot_le_mono; lia.
  - by apply infos_fmap.
Qed.

Lemma shiftByAvg_spec s m M :
  Validators s ≠ [] → within m M (Validators s) → is_i64 m → is_i64 M → M - m ≤ MaxInt64 →
  ∃ s', shiftByAvgProposerPriority s = Ok (tt, s') ∧
    0 ≤ zsum (priorities (Validators s')) < Z.of_nat (length (Validators s')) ∧
    within (m - M) (M - m) (Validators s') ∧ infos (Validators s') = infos (Validators s) ∧
    Proposer s' = Proposer s ∧ totalVotingPower s' = totalVotingPower s ∧ Validators s' = centered (Validators s).
Proof.
  intros Hne Hw Hm HM Hd. set (n := Z.of_nat (length (Validators s))).
  assert (0 < n) by (unfold n; destruct (Validators s); [done|cbn; lia]).
  set (S := zsum (priorities (Validators s))).
  assert (m * n ≤ S ≤ M * n) as HS.
  { unfold S, n. replace (length (Validators s)) with (length (priorities (Validators s)))
      by (unfold priorities; by rewrite length_fmap).
    split; [apply zsum_lower|apply zsum_upper]; apply Forall_fmap, Forall_forall; intros v Hv;
      specialize (Hw v Hv); cbn; lia. }
  assert (m ≤ S / n ≤ M) as Havg by (split; [apply Z.div_le_lower_bound|apply Z.div_le_upper_bound]; lia).
  unfold shiftByAvgProposerPriority, bind, gets, lift, outcome_bind. cbn [id].
  unfold IsNilOrEmpty. rewrite bool_decide_eq_false_2 by done. unfold computeAvgProposerPriority. fold n.
  rewrite decide_False by lia. rewrite foldl_add_zsum. change (0 + zsum (ProposerPriority <$> Validators s)) with S.
  unfold is_i64 in Hm, HM. rewrite decide_True by (unfold is_i64; lia).
  unfold for_validators, modify. pose proof Max_lt as (? & ? & ? & ?).
  exists (set_Validators ((λ v, set_priority (ProposerPriority v - S / n) v) <$> Validators s) s).
  split_and!.
  - do 3 f_equal. apply fmap_ext_in. intros v Hv. specialize (Hw v Hv).
    rewrite safeSubClip_clamp, clamp_id by (unfold is_i64; lia). done.
  - cbn. unfold priorities. rewrite <-list_fmap_compose.
    change (ProposerPriority ∘ _) with (λ v, ProposerPriority v - S / n).
    rewrite zsum_fmap_sub_const. change (zsum (ProposerPriority <$> Validators s)) with S. fold n.
    pose proof (Z.div_mod S n ltac:(lia)). pose proof (Z.mod_pos_bound S n ltac:(lia)). lia.
  - cbn. unfold priorities. rewrite <-list_fmap_compose, length_fmap. fold n.
    change (ProposerPriority ∘ _) with (λ v, ProposerPriority v - S / n).
    rewrite zsum_fmap_sub_const. change (zsum (ProposerPriority <$> Validators s)) with S. fold n.
    pose proof (Z.div_mod S n ltac:(lia)). pose proof (Z.mod_pos_bound S n ltac:(lia)). lia.
  - intros v (w & -> & Hwin)%list_elem_of_fmap. cbn. specialize (Hw w Hwin). lia.
  - by apply infos_fmap.
  - done.
  - done.
  - done.
Qed.

(** ** The whole operation *)

(** The spread of the priorities leaves room for the rescaling arithmetic. *)
Definition spread_ok (s : ValidatorSet) : Prop :=
  ∃ lo hi, within lo hi (Validators s) ∧ is_i64 lo ∧ is_i64 hi ∧
    hi - lo + 2 * power (Validators s) ≤ MaxInt64.

Lemma balanced_spread s : balanced s → room (Validators s) → spread_ok s.
Proof.
  intros Hb Hr. set (P := power (Validators s)). set (n := Z.of_nat (length (Validators s))).
  unfold room in Hr. fold P n in Hr. pose proof Max_lt as (? & ? & ? & ?).
  pose proof (wv_max s (bal_wf s Hb)) as Hm. fold P in Hm.
  pose proof (power_pos _ (wv_pos s (bal_wf s Hb)) (bal_ne s Hb)) as HP. fold P in HP.
  assert (1 ≤ n) by (unfold n; pose proof (bal_ne s Hb); destruct (Validators s); [done|cbn; lia]).
  exists (- (2 * P)), (n + 2 * P * (n - 1)). split.
  - intros v Hv. by apply balanced_upper.
  - unfold is_i64. fold P. nia.
Qed.

Lemma center_balanced s : wf_vals s → Validators s ≠ [] → spread_ok s →
  ∃ s1 s2 s', TotalVotingPower s = Ok (power (Validators s), s1) ∧
    RescalePriorities (2 * power (Validators s)) s1 = Ok (tt, s2) ∧
    shiftByAvgProposerPriority s2 = Ok (tt, s') ∧
    balanced s' ∧ infos (Validators s') = infos (Validators s) ∧ Proposer s' = Proposer s ∧
    Validators s' = centered (rescaled (2 * power (Validators s)) (Validators s)).
Proof.
  intros Hw Hne (lo & hi & Hin & Hlo & Hhi & Hd). pose proof (power_pos _ (wv_pos s Hw) Hne) as HP.
  pose proof Max_lt as (? & ? & ? & ?). pose proof (wv_max s Hw).
  set (s1 := set_total (power (Validators s)) s).
  destruct (RescalePriorities_spec s1 (2 * power (Validators s)) lo hi)
    as (s2 & m & M & E2 & Hw2 & Hm & HM & HmM & HMm & Hi2 & Hp2 & Ht2 & Hv2); [done..|lia|lia|].
  destruct (shiftByAvg_spec s2 m M) as (s' & E' & Hsum & Hw' & Hi' & Hp' & Ht' & Hv'); [|done|done|done|lia|].
  { intros E. apply length_infos in Hi2. rewrite E in Hi2. cbn in Hi2. by destruct (Validators s). }
  assert (infos (Validators s') = infos (Validators s)) as Hinf by (by rewrite Hi', Hi2).
  exists s1, s2, s'. split_and!; [by apply TotalVotingPower_Ok|done|done| |done|by rewrite Hp', Hp2|by rewrite Hv', Hv2].
  split.
  - apply (wf_vals_infos s); [done|done|]. rewrite Ht', Ht2. done.
  - intros E. apply length_infos in Hinf. rewrite E in Hinf. by destruct (Validators s).
  - done.
  - rewrite (power_infos _ _ Hinf). apply Forall_fmap, Forall_forall. intros v Hv. cbn.
    specialize (Hw' v Hv). lia.
Qed.

(** One call, for any positive count. *)
Lemma IncrementProposerPriority_runs s times :
  wf_vals s → Validators s ≠ [] → spread_ok s → room (Validators s) → 0 < times →
  ∃ s' p, IncrementProposerPriority times s = Ok (tt, s') ∧
    balanced s' ∧ spread_ok s' ∧ room (Validators s') ∧
    infos (Validators s') = infos (Validators s) ∧
    Proposer s' = Some p ∧ p ∈ infos (Validators s) ∧
    ∃ ps, Z.of_nat (length ps) = times ∧ val_info <$> last ps = Some p ∧
      accounted (centered (rescaled (2 * power (Validators s)) (Validators s))) (Validators s') ps.
Proof.
  intros Hw Hne Hs Hr Ht.
  destruct (center_balanced s Hw Hne Hs) as (s1 & s2 & s3 & E1 & E2 & E3 & Hb3 & Hi3 & Hp3 & Hv3).
  assert (room (Validators s3)) as Hr3 by (unfold room in *; by rewrite (length_infos _ _ Hi3), (power_infos _ _ Hi3)).
  destruct (proposers_run (Z.to_nat times) s3 Hb3 Hr3) as (ps & s4 & E4 & Hl & Hb4 & Hi4 & Hp4 & Hps & Hacc).
  destruct (last ps) as [q|] eqn:Hq.
  2: { apply last_None in Hq. subst ps. cbn in Hl. lia. }
  exists (set_Proposer (Some (val_info q)) s4), (val_info q).
  assert (infos (Validators s4) = infos (Validators s)) as Hinf by congruence.
  assert (balanced (set_Proposer (Some (val_info q)) s4)) as Hb.
  { destruct Hb4 as [[] ? ? ?]. split; [split|..]; done. }
  assert (room (Validators s4)) as Hr4 by (unfold room in *; by rewrite (length_infos _ _ Hinf), (power_infos _ _ Hinf)).
  split_and!; [|done|by apply balanced_spread|done|done|done| |].
  - unfold IncrementProposerPriority, bind, gets, outcome_bind, panic, PriorityWindowSizeFactor. cbn [id].
    unfold IsNilOrEmpty. rewrite bool_decide_eq_false_2 by done. rewrite decide_False by lia.
    rewrite E1, E2, E3, increment_times_proposers, E4. cbn [outcome_bind]. by rewrite Hq.
  - rewrite <-Hi3. apply Hps. by eapply last_Some_elem_of.
  - exists ps. rewrite Hq, <-Hv3. split_and!; [lia|done|exact Hacc].
Qed.

(** C23: IncrementProposerPriority on a set with positive powers, distinct addresses and priorities
    of a bounded spread: it returns for every positive count, keeps the validators and their
    powers, leaves the priorities centered (their sum is at least zero and less than the number of
    validators) with nobody below minus twice the total power, chooses a member of the set as proposer, and its result can be
    incremented again.  The 64-bit operations on the way neither clip nor wrap: every priority is the one that unbounded integers
    give, the old one divided by the ratio, less the average, plus the power of the validator for each increment, less
    the total power for each time it was chosen. *)
Theorem IncrementProposerPriority_balanced s times :
  wf_vals s → Validators s ≠ [] → spread_ok s → room (Validators s) → 0 < times →
  ∃ s' p, IncrementProposerPriority times s = Ok (tt, s') ∧
    balanced s' ∧ spread_ok s' ∧ room (Validators s') ∧
    infos (Validators s') = infos (Validators s) ∧
    Proposer s' = Some p ∧ p ∈ infos (Validators s) ∧
    ∃ ps, Z.of_nat (length ps) = times ∧ val_info <$> last ps = Some p ∧
      accounted (centered (rescaled (2 * power (Validators s)) (Validators s))) (Validators s') ps.
Proof. apply IncrementProposerPriority_runs. Qed.

(** C22: Every validator proposes in proportion to its voting power: after [t] increments
    of a balanced set, the number of times a validator was chosen differs from its share by
    a bound that does not depend on [t].  With positive power nobody is passed over for
    ever. *)
Theorem proposer_fairness s t :
  balanced s → room (Validators s) →
  ∃ ps s', proposers t s = Ok (ps, s') ∧ length ps = t ∧
    ∀ v : Validator, v ∈ Validators s →
      Z.abs (power (Validators s) * times_proposer (Address v) ps - Z.of_nat t * VotingPower v)
      ≤ 2 * power (Validators s) * Z.of_nat (length (Validators s)) + Z.of_nat (length (Validators s)).
Proof.
  intros Hb Hr. destruct (proposers_run t s Hb Hr) as (ps & s' & E & Hl & Hb' & Hi & _ & _ & Hacc).
  exists ps, s'. split_and!; [done..|]. intros v [k Hk]%list_elem_of_lookup_1.
  destruct (Hacc k v Hk) as (v' & Hk' & Ev). rewrite Hl in Ev.
  pose proof (balanced_upper s v Hb (list_elem_of_lookup_2 _ _ _ Hk)) as H1.
  pose proof (balanced_upper s' v' Hb' (list_elem_of_lookup_2 _ _ _ Hk')) as H2.
  rewrite (length_infos _ _ Hi), (power_infos _ _ Hi) in H2. lia.
Qed.

(** ** Concrete sets *)
Definition sample_validator (i pw : Z) : Validator :=
  {| val_info := {| Address := [i]; PubKey := Some [i]; VotingPower := pw |}; ProposerPriority := 0 |}.
Definition sample_set : ValidatorSet :=
  {| Validators := [sample_validator 1 5; sample_validator 2 3; sample_validator 3 2];
     Proposer := None; totalVotingPower := 0 |}.

Lemma sample_set_balanced : balanced sample_set.
Proof.
  split; [split| | |]; cbn; [|repeat constructor|done|by left|done|done|repeat constructor; done].
  repeat constructor; set_solver.
Qed.

Lemma sample_set_room : room (Validators sample_set).
Proof. vm_compute. discriminate. Qed.

Lemma IncrementProposerPriority_balanced_witness :
  ∃ s' p, IncrementProposerPriority 4 sample_set = Ok (tt, s') ∧ balanced s' ∧ Proposer s' = Some p.
Proof.
  pose proof sample_set_balanced as Hb.
  destruct (IncrementProposerPriority_balanced sample_set 4 (bal_wf _ Hb) (bal_ne _ Hb)
              (balanced_spread _ Hb sample_set_room) sample_set_room ltac:(lia)) as (s' & p & H1 & H2 & _ & _ & _ & H3 & _).
  exists s', p. split; [exact H1|]. split; [exact H2|exact H3].
Defined.

Lemma proposer_fairness_witness :
  ∃ ps s', proposers 10 sample_set = Ok (ps, s') ∧
    Z.abs (10 * times_proposer [1] ps - 10 * 5) ≤ 63.
Proof.
  destruct (proposer_fairness sample_set 10 sample_set_balanced sample_set_room) as (ps & s' & H1 & _ & H2).
  exists ps, s'. split; [exact H1|]. apply (H2 (sample_validator 1 5)). apply list_elem_of_here.
Defined.

(** Ten rounds of a set with powers 5, 3 and 2. *)
Example proposers_sample :
  (λ r : outcome (list Validator * ValidatorSet),
     match r with Ok (ps, _) => (λ p : Validator, Address p) <$> ps | _ => [] end) (proposers 10 sample_set)
  = [[1]; [2]; [3]; [1]; [1]; [2]; [1]; [3]; [2]; [1]].
Proof. vm_compute. reflexivity. Qed.
