(* ===== verification/TmValUpdate.v ===== *)
(** Changing a validator set (types/validator_set.go, updateWithChangeSet and its helpers).

    The reference definition is [applied]: the changes with a positive power, and the
    validators that no change mentions.  The theorem of this file says exactly
    when an update succeeds and that its result is then [applied], ordered, with a
    correct total; in every other case it reports an error and the set stays as it is. *)

From S2P Require Import Prelude TmValidators TmPriority.

Lemma Sorted_weaken {A} (R R' : A → A → Prop) l : (∀ x y, R x y → R' x y) → Sorted R l → Sorted R' l.
Proof.
  intros HR. induction 1 as [|x l Hs IH Hh]; constructor; [done|]. destruct Hh; constructor. by apply HR.
Qed.

(** ** The specification *)
Definition applied (changes l : list Validator) : list Validator :=
  filter (λ v : Validator, VotingPower v ≠ 0) changes ++
  filter (λ v : Validator, Address v ∉ addresses changes) l.

Record valid_changes (changes : list Validator) (allowDeletes : bool) (l : list Validator) : Prop := {
  vc_nodup : NoDup (addresses changes);
  vc_named : [] ∉ addresses changes;
  vc_range : Forall (λ v : Validator, 0 ≤ VotingPower v ≤ MaxTotalVotingPower) changes;
  vc_allowed : allowDeletes = false → Forall (λ v : Validator, VotingPower v ≠ 0) changes;
  vc_known : ∀ v : Validator, v ∈ changes → VotingPower v = 0 → Address v ∈ addresses l;
  vc_nonempty : applied changes l ≠ [];
  vc_total : power (applied changes l) ≤ MaxTotalVotingPower;
}.

(** ** Lists in ascending order of address *)
Definition addr_lt (v w : Validator) : Prop := bytes_less (Address v) (Address w) = true.
Definition asc (l : list Validator) : Prop := StronglySorted addr_lt l.

Lemma elem_of_addresses l a : a ∈ addresses l ↔ ∃ v : Validator, v ∈ l ∧ Address v = a.
Proof. unfold addresses. rewrite list_elem_of_fmap. naive_solver. Qed.

Lemma addr_lt_trans v w x : addr_lt v w → addr_lt w x → addr_lt v x.
Proof. apply bytes_less_trans. Qed.

Lemma asc_nodup l : asc l → NoDup (addresses l).
Proof.
  induction 1 as [|v l Hs IH Hv]; [constructor|]. cbn. constructor; [|done].
  intros (w & E & Hw)%list_elem_of_fmap. pose proof (proj1 (Forall_forall _ _) Hv w Hw) as Hlt.
  unfold addr_lt in Hlt. by rewrite E, bytes_less_irrefl in Hlt.
Qed.

Lemma sorted_asc l : Sorted (λ x y, ByAddress_less y x = false) l → NoDup (addresses l) → asc l.
Proof.
  intros Hs Hnd. apply Sorted_StronglySorted in Hs.
  2: { intros x y z. unfold ByAddress_less. apply bytes_less_negtrans. }
  induction Hs as [|v l Hs IH Hv]; [constructor|]. cbn in Hnd. apply NoDup_cons in Hnd as [Hn Hnd].
  constructor; [by apply IH|]. apply Forall_forall. intros w Hw. unfold addr_lt.
  pose proof (proj1 (Forall_forall _ _) Hv w Hw) as Hle. unfold ByAddress_less in Hle. cbn in Hle.
  destruct (bytes_less (Address v) (Address w)) eqn:E; [done|].
  destruct Hn. apply elem_of_addresses. exists w. split; [done|]. by apply bytes_less_total.
Qed.

Lemma asc_filter (P : Validator → Prop) `{!∀ v, Decision (P v)} l : asc l → asc (filter P l).
Proof.
  induction 1 as [|v l Hs IH Hv]; [constructor|]. rewrite filter_cons. case_decide; [|done].
  constructor; [done|]. apply Forall_forall. intros w [_ Hw]%list_elem_of_filter.
  by apply (proj1 (Forall_forall _ _) Hv).
Qed.

(** ** Looking up *)
Lemma find_address_Some l i a (v : Validator) :
  (find_address i l a).2 = Some v → v ∈ l ∧ Address v = a.
Proof.
  revert i. induction l as [|w l IH]; intros i; cbn; [done|]. case_decide; cbn.
  - intros [= <-]. split; [apply list_elem_of_here|done].
  - intros (? & ?)%IH. split; [by apply list_elem_of_further|done].
Qed.

Lemma find_address_None l i a : (find_address i l a).2 = None ↔ a ∉ addresses l.
Proof.
  revert i. induction l as [|w l IH]; intros i; cbn; [split; [intros _ ?%elem_of_nil|]; done|].
  rewrite not_elem_of_cons. case_decide; cbn; [naive_solver|]. rewrite IH. naive_solver.
Qed.

Lemma find_address_eq l i (v : Validator) : NoDup (addresses l) → v ∈ l → (find_address i l (Address v)).2 = Some v.
Proof.
  intros Hnd Hv. destruct (find_address i l (Address v)).2 as [w|] eqn:E.
  - apply find_address_Some in E as [Hw E].
    apply list_elem_of_lookup_1 in Hv as [j Hj], Hw as [k Hk].
    rewrite (addresses_inj l k j w v Hnd Hk Hj E) in Hk. congruence.
  - apply find_address_None in E. destruct E. apply elem_of_addresses. eauto.
Qed.

Lemma HasAddress_spec s a : HasAddress s a = true ↔ a ∈ addresses (Validators s).
Proof.
  unfold HasAddress. rewrite existsb_exists, elem_of_addresses. split.
  - intros (v & Hv%list_elem_of_In & E%bool_decide_eq_true_1). eauto.
  - intros (v & Hv & E). exists v. split; [by apply list_elem_of_In|by apply bool_decide_eq_true_2].
Qed.

(** The power that a set gives to an address. *)
Definition pw (s : ValidatorSet) (a : bytes) : Z :=
  match (GetByAddress s a).2 with Some v => VotingPower v | None => 0 end.

Lemma pw_nonneg s a : Forall (λ v : Validator, 0 < VotingPower v) (Validators s) → 0 ≤ pw s a.
Proof.
  intros Hp. unfold pw. destruct (GetByAddress s a).2 as [v|] eqn:E; [|lia].
  apply find_address_Some in E as [Hv _]. pose proof (proj1 (Forall_forall _ _) Hp v Hv). cbn in *. lia.
Qed.

Lemma filter_none (P : Validator → Prop) `{!∀ v, Decision (P v)} l : (∀ v, v ∈ l → ¬ P v) → filter P l = [].
Proof.
  intros Hn. induction l as [|v l IH]; [done|]. rewrite filter_cons, decide_False, IH; [done|..].
  - intros w Hw. apply Hn. by apply list_elem_of_further.
  - apply Hn, list_elem_of_here.
Qed.

Lemma addresses_app l1 l2 : addresses (l1 ++ l2) = addresses l1 ++ addresses l2.
Proof. apply fmap_app. Qed.

Lemma power_app l1 l2 : power (l1 ++ l2) = power l1 + power l2.
Proof. unfold power, powers. by rewrite fmap_app, zsum_app. Qed.

Lemma filter_or_disjoint (P Q : Validator → Prop) `{!∀ v, Decision (P v), !∀ v, Decision (Q v)} l :
  (∀ v, P v → Q v → False) →
  filter (λ v, P v ∨ Q v) l ≡ₚ filter P l ++ filter Q l.
Proof.
  intros Hd. induction l as [|v l IH]; [done|]. rewrite !filter_cons.
  destruct (decide (P v)) as [HP|HP], (decide (Q v)) as [HQ|HQ]; [by destruct (Hd v)|..].
  - rewrite decide_True by tauto. cbn. by rewrite IH.
  - rewrite decide_True by tauto. rewrite IH. apply Permutation_middle.
  - by rewrite decide_False by tauto.
Qed.

(** The power of the validators named in a list without repetitions. *)
Lemma power_named s A : NoDup (addresses (Validators s)) → NoDup A →
  power (filter (λ v : Validator, Address v ∈ A) (Validators s)) = zsum (pw s <$> A).
Proof.
  intros Hnd. induction A as [|a A IH]; intros HA.
  { rewrite filter_none; [done|]. by intros v _ ?%elem_of_nil. }
  apply NoDup_cons in HA as [Ha HA]. rewrite fmap_cons, zsum_cons, <-IH by done.
  rewrite (list_filter_ext_in _ (λ v : Validator, Address v = a ∨ Address v ∈ A))
    by (intros v _; by rewrite elem_of_cons).
  rewrite filter_or_disjoint by (intros v -> ?; done). rewrite power_app. f_equal.
  unfold pw, GetByAddress. clear IH HA Ha.
  enough (∀ i, power (filter (λ v : Validator, Address v = a) (Validators s))
             = match (find_address i (Validators s) a).2 with Some v => VotingPower v | None => 0 end) as Hi
    by apply Hi. revert Hnd.
  induction (Validators s) as [|v l IH]; intros Hnd i; [done|]. cbn in Hnd.
  apply NoDup_cons in Hnd as [Hv Hnd]. rewrite filter_cons. cbn [find_address]. case_decide as E.
  - cbn [snd]. unfold power, powers. rewrite fmap_cons, zsum_cons.
    rewrite filter_none; [cbn; lia|].
    intros w Hw Ew. apply Hv, elem_of_addresses. exists w. by rewrite Ew.
  - by apply IH.
Qed.

Lemma power_filter_split (P : Validator → Prop) `{!∀ v, Decision (P v)} l :
  power l = power (filter P l) + power (filter (λ v, ¬ P v) l).
Proof.
  unfold power, powers. induction l as [|v l IH]; [done|]. rewrite !filter_cons, fmap_cons, zsum_cons.
  repeat case_decide; try tauto; rewrite fmap_cons, zsum_cons; lia.
Qed.

(** ** processChanges *)
Lemma split_changes_inl prev l u r u' r' :
  split_changes prev l u r = inl (u', r') →
  u' = u ++ filter (λ v : Validator, VotingPower v ≠ 0) l ∧
  r' = r ++ filter (λ v : Validator, VotingPower v = 0) l ∧
  Forall (λ v : Validator, 0 ≤ VotingPower v ≤ MaxTotalVotingPower) l ∧
  match l with [] => True | v :: _ => Address v ≠ prev end ∧
  Sorted (λ v w : Validator, Address v ≠ Address w) l.
Proof.
  revert prev u r. induction l as [|v l IH]; intros prev u r; cbn [split_changes].
  { intros [= <- <-]. rewrite !app_nil_r. split_and!; constructor. }
  rewrite !filter_cons. destruct (decide (Address v = prev)); [done|].
  destruct (decide (VotingPower v < 0)); [done|].
  destruct (decide (VotingPower v > MaxTotalVotingPower)); [done|].
  assert (∀ l, match l with [] => True | w :: _ => Address (val_info w) ≠ Address v end →
            HdRel (λ v w : Validator, Address v ≠ Address w) v l) as Hhd.
  { intros [|w l'] H; constructor. congruence. }
  destruct (decide (VotingPower v = 0)) as [E0|E0]; intros (-> & -> & Hr & Hh & Hs)%IH;
    rewrite <-?app_assoc; split_and!; try done.
  - by rewrite decide_False by tauto.
  - constructor; [lia|done].
  - constructor; [done|by apply Hhd].
  - by rewrite decide_True.
  - constructor; [lia|done].
  - constructor; [done|by apply Hhd].
Qed.

Lemma split_changes_ok prev l u r :
  NoDup (prev :: addresses l) → Forall (λ v : Validator, 0 ≤ VotingPower v ≤ MaxTotalVotingPower) l →
  split_changes prev l u r = inl (u ++ filter (λ v : Validator, VotingPower v ≠ 0) l,
                                  r ++ filter (λ v : Validator, VotingPower v = 0) l).
Proof.
  revert prev u r. induction l as [|v l IH]; intros prev u r Hnd Hr; cbn [split_changes].
  { by rewrite !app_nil_r. }
  apply Forall_cons in Hr as [Hv Hr]. apply NoDup_cons in Hnd as [Hp Hnd]. cbn in Hp, Hnd.
  rewrite decide_False by (intros <-; apply Hp; by left). rewrite !decide_False by lia.
  rewrite !filter_cons. destruct (decide (VotingPower v = 0)) as [E0|E0].
  - rewrite IH by done. rewrite <-app_assoc. by rewrite (decide_False (P := VotingPower v ≠ 0)) by tauto.
  - rewrite IH by done. rewrite <-app_assoc. by rewrite (decide_True (P := VotingPower v ≠ 0)) by tauto.
Qed.

(** Neighbours that differ, in a list that is ordered, all differ. *)
Lemma ordered_distinct l :
  Sorted (λ x y, ByAddress_less y x = false) l → Sorted (λ v w : Validator, Address v ≠ Address w) l → asc l.
Proof.
  intros Hs Hd. apply Sorted_StronglySorted; [intros ???; apply addr_lt_trans|].
  induction Hs as [|v l Hs IH Hh]; [constructor|]. inversion_clear Hd as [|? ? Hd' Hh'].
  constructor; [by apply IH|]. destruct Hh; constructor. inversion_clear Hh'.
  unfold addr_lt, ByAddress_less in *. destruct (bytes_less (Address v) (Address b)) eqn:E; [done|].
  by destruct H0; apply bytes_less_total.
Qed.

Section sorting.
Context `{GoSort}.

(** What processChanges accepts, and what it returns then. *)
Definition distinct_changes (changes : list Validator) : Prop :=
  NoDup (addresses changes) ∧ ([] ∉ addresses changes) ∧
  Forall (λ v : Validator, 0 ≤ VotingPower v ≤ MaxTotalVotingPower) changes.

Lemma processChanges_ok changes : distinct_changes changes →
  ∃ sorted, sorted ≡ₚ changes ∧ asc sorted ∧
    processChanges changes = inl (filter (λ v : Validator, VotingPower v ≠ 0) sorted,
                                  filter (λ v : Validator, VotingPower v = 0) sorted).
Proof.
  intros (Hnd & Hne & Hr). exists (go_sort ByAddress_less changes).
  pose proof (go_sort_perm ByAddress_less changes) as Hp. split; [done|].
  assert (NoDup (addresses (go_sort ByAddress_less changes))) as Hnd' by (by rewrite Hp).
  split; [by apply sorted_asc; [apply go_sort_sorted, ByAddress_strict_weak|]|].
  unfold processChanges. rewrite split_changes_ok; [done|..].
  - constructor; [by rewrite Hp|done].
  - by rewrite Hp.
Qed.

Lemma processChanges_bad changes : ¬ distinct_changes changes → ∃ e, processChanges changes = inr e.
Proof.
  intros Hn. unfold processChanges.
  destruct (split_changes [] (go_sort ByAddress_less changes) [] []) as [[u r]|e] eqn:E; [|by exists e].
  exfalso. apply Hn. apply split_changes_inl in E as (_ & _ & Hr & Hh & Hd).
  pose proof (go_sort_perm ByAddress_less changes) as Hp.
  assert (asc (go_sort ByAddress_less changes)) as Ha
    by (apply ordered_distinct; [apply go_sort_sorted, ByAddress_strict_weak|done]).
  split_and!.
  - rewrite <-Hp. by apply asc_nodup.
  - rewrite <-Hp. destruct (go_sort ByAddress_less changes) as [|v l]; [by intros ?%elem_of_nil|].
    intros [E|Hin]%elem_of_cons; [by rewrite E in Hh|].
    apply elem_of_addresses in Hin as (w & Hw & Ew). inversion_clear Ha as [|? ? _ Hv].
    pose proof (proj1 (Forall_forall _ _) Hv w Hw) as Hlt. unfold addr_lt, bytes_less in Hlt. rewrite Ew in Hlt.
    destruct (Address v); done.
  - by rewrite <-Hp.
Qed.
End sorting.

(** ** verifyRemovals *)
Lemma pw_named_le s A : wf_vals s → NoDup A → zsum (pw s <$> A) ≤ power (Validators s).
Proof.
  intros Hw HA. rewrite <-power_named by (done || apply Hw).
  rewrite (power_filter_split (λ v : Validator, Address v ∈ A) (Validators s)).
  pose proof (power_nonneg (filter (λ v : Validator, Address v ∉ A) (Validators s))) as Hnn.
  enough (0 ≤ power (filter (λ v : Validator, Address v ∉ A) (Validators s))) by lia. apply Hnn.
  apply Forall_forall. intros v [_ Hv]%list_elem_of_filter. by apply (proj1 (Forall_forall _ _) (wv_pos s Hw)).
Qed.

Lemma sum_removed_ok s deletes removed :
  wf_vals s → 0 ≤ removed → removed + zsum (pw s <$> addresses deletes) ≤ MaxTotalVotingPower →
  (∀ d : Validator, d ∈ deletes → Address d ∈ addresses (Validators s)) →
  sum_removed s removed deletes = inl (removed + zsum (pw s <$> addresses deletes)).
Proof.
  intros Hw. pose proof Max_lt as (? & ? & ? & ?).
  revert removed. induction deletes as [|d ds IH]; intros removed Hr Hm Hk; cbn [sum_removed].
  { cbn. f_equal. lia. }
  change (addresses (d :: ds)) with (Address d :: addresses ds) in *.
  rewrite fmap_cons, zsum_cons in *.
  assert (0 ≤ zsum (pw s <$> addresses ds)) as Hn.
  { apply zsum_nonneg, Forall_fmap, Forall_forall. intros a _. apply pw_nonneg, Hw. }
  pose proof (pw_nonneg s (Address d) (wv_pos s Hw)) as Hd.
  destruct (GetByAddress s (Address d)).2 as [v|] eqn:E.
  - assert (pw s (Address d) = VotingPower v) as Ev by (unfold pw; by rewrite E).
    rewrite is_i64_id by (unfold is_i64; lia). rewrite IH; [f_equal; lia|lia|lia|].
    intros d' Hd'. apply Hk. by apply list_elem_of_further.
  - apply find_address_None in E. destruct E. apply Hk, list_elem_of_here.
Qed.

Lemma sum_removed_bad s deletes removed d :
  d ∈ deletes → Address (val_info d) ∉ addresses (Validators s) → ∃ e, sum_removed s removed deletes = inr e.
Proof.
  intros Hd Hn. revert removed. induction deletes as [|x ds IH]; [by apply elem_of_nil in Hd|].
  intros removed. cbn [sum_removed]. destruct (GetByAddress s (Address x)).2 as [v|] eqn:E; [|eauto].
  apply elem_of_cons in Hd as [->|Hd]; [|by apply IH].
  apply find_address_Some in E as [Hv E]. destruct Hn. apply elem_of_addresses. eauto.
Qed.

(** ** verifyUpdates *)
Lemma delta_eq s (u : Validator) : wf_vals s → 0 ≤ VotingPower u ≤ MaxTotalVotingPower →
  delta s u = VotingPower u - pw s (Address u).
Proof.
  intros Hw Hu. pose proof Max_lt as (? & ? & ? & ?). pose proof (wv_max s Hw).
  unfold delta, pw. destruct (GetByAddress s (Address u)).2 as [v|] eqn:E; [|lia].
  apply find_address_Some in E as [Hv _]. pose proof (power_elem _ v (wv_pos s Hw) Hv).
  pose proof (proj1 (Forall_forall _ _) (wv_pos s Hw) v Hv) as Hp. cbn in Hp.
  apply is_i64_id. unfold is_i64. lia.
Qed.

(** Because the deltas come in ascending order, checking every partial sum is checking the last. *)
Lemma add_deltas_spec s l t :
  wf_vals s → Forall (λ v : Validator, 0 ≤ VotingPower v ≤ MaxTotalVotingPower) l →
  StronglySorted (λ u w, delta s u ≤ delta s w) l →
  zsum (pw s <$> addresses l) ≤ t ≤ MaxTotalVotingPower →
  add_deltas s t l = if decide (t + zsum (delta s <$> l) ≤ MaxTotalVotingPower)
                     then Some (t + zsum (delta s <$> l)) else None.
Proof.
  intros Hw. pose proof Max_lt as (? & ? & ? & ?).
  revert t. induction l as [|u l IH]; intros t Hr Hs Ht; cbn [add_deltas].
  { cbn. rewrite decide_True by lia. f_equal. lia. }
  apply Forall_cons in Hr as [Hu Hr]. cbn in Hu. inversion_clear Hs as [|? ? Hs' Hle].
  change (addresses (u :: l)) with (Address u :: addresses l) in Ht.
  rewrite fmap_cons, zsum_cons in Ht. rewrite fmap_cons, zsum_cons.
  assert (0 ≤ zsum (pw s <$> addresses l)) as Hn.
  { apply zsum_nonneg, Forall_fmap, Forall_forall. intros a _. apply pw_nonneg, Hw. }
  pose proof (delta_eq s u Hw Hu) as Ed. pose proof (pw_nonneg s (Address u) (wv_pos s Hw)).
  rewrite is_i64_id by (unfold is_i64; lia).
  destruct (decide (t + delta s u > MaxTotalVotingPower)) as [Hgt|Hng].
  - rewrite decide_False; [done|].
    assert (0 ≤ zsum (delta s <$> l)); [|lia]. apply zsum_nonneg, Forall_fmap.
    eapply Forall_impl; [done|]. intros w Hwl. cbn in *. lia.
  - rewrite IH by (done || lia). rewrite Z.add_assoc. done.
Qed.

(** ** applyUpdates and applyRemovals *)
Lemma merge_nil_r l : merge_updates l [] = l.
Proof. by destruct l. Qed.

Lemma merge_cons e l u us :
  merge_updates (e :: l) (u :: us)
  = match bytes_Compare (Address e) (Address u) with
    | Lt => e :: merge_updates l (u :: us)
    | Eq => u :: merge_updates l us
    | Gt => u :: merge_updates (e :: l) us
    end.
Proof. done. Qed.

(** A head below everything in [us] is not replaced by it. *)
Lemma asc_head_notin u us a : asc (u :: us) → bytes_less a (Address u) = true → a ∉ addresses (u :: us).
Proof.
  intros Hs Hlt (w & Hw & <-)%elem_of_addresses. inversion_clear Hs as [|? ? _ Hall].
  apply elem_of_cons in Hw as [->|Hw]; [by rewrite bytes_less_irrefl in Hlt|].
  pose proof (proj1 (Forall_forall _ _) Hall w Hw) as Hlt'. unfold addr_lt in Hlt'.
  pose proof (bytes_less_trans _ _ _ Hlt Hlt') as Habs. by rewrite bytes_less_irrefl in Habs.
Qed.

Lemma merge_updates_perm l us : asc l → asc us →
  merge_updates l us ≡ₚ us ++ filter (λ v : Validator, Address v ∉ addresses us) l.
Proof.
  revert us. induction l as [|e l IH]; intros us Hl Hus; [by rewrite app_nil_r; destruct us|].
  induction us as [|u us IHu].
  { rewrite merge_nil_r. cbn [app]. rewrite (list_filter_ext_in _ (λ _, True)).
    - clear. induction (e :: l) as [|x k IHk]; [done|]. rewrite filter_cons, decide_True by done. by rewrite <-IHk.
    - intros v _. split; [done|]. by intros _ ?%elem_of_nil. }
  inversion_clear Hl as [|? ? Hl' He]. inversion_clear Hus as [|? ? Hus' Hu].
  assert (asc (u :: us)) as Hasc by (by constructor).
  rewrite merge_cons. destruct (bytes_Compare (Address e) (Address u)) eqn:E.
  - apply bytes_Compare_eq in E. rewrite IH, filter_cons by done.
    rewrite decide_False by (intros Hn; apply Hn, elem_of_addresses; exists u; split; [apply list_elem_of_here|done]).
    cbn [app]. constructor. f_equiv. erewrite list_filter_ext_in; [done|].
    intros v Hv. change (addresses (u :: us)) with (Address u :: addresses us). rewrite not_elem_of_cons.
    split; [|tauto]. intros Hn. split; [|done]. intros Ev.
    pose proof (proj1 (Forall_forall _ _) He v Hv) as Hlt. unfold addr_lt in Hlt.
    by rewrite E, Ev, bytes_less_irrefl in Hlt.
  - rewrite filter_cons, decide_True by (apply asc_head_notin; [done|]; unfold bytes_less; by rewrite E).
    rewrite IH by done. by rewrite Permutation_middle.
  - rewrite IHu by done. cbn [app]. constructor. f_equiv.
    assert (bytes_less (Address u) (Address e) = true) as Hue
      by (unfold bytes_less; by rewrite bytes_Compare_antisym, E).
    assert (∀ v : Validator, v ∈ e :: l → Address v ≠ Address u) as Hne.
    { intros v Hv Ev. assert (asc (e :: l)) as Hel by (by constructor).
      apply (asc_head_notin e l (Address u) Hel Hue). apply elem_of_addresses. eauto. }
    erewrite (list_filter_ext_in _ (λ v : Validator, Address v ∉ addresses (u :: us))); [done|].
    intros v Hv. change (addresses (u :: us)) with (Address u :: addresses us). rewrite not_elem_of_cons.
    specialize (Hne v Hv). tauto.
Qed.

Lemma merge_updates_asc l us : asc l → asc us → asc (merge_updates l us).
Proof.
  revert us. induction l as [|e l IH]; intros us Hl Hus; [by destruct us|].
  induction us as [|u us IHu]; [by rewrite merge_nil_r|].
  assert (asc l) as Hl' by (by inversion Hl). assert (asc us) as Hus' by (by inversion Hus).
  assert (Forall (addr_lt e) l) as He by (by inversion Hl). assert (Forall (addr_lt u) us) as Hu by (by inversion Hus).
  assert (∀ x a b, (∀ y, y ∈ a ++ b → addr_lt x y) → asc a → asc b → Forall (addr_lt x) (merge_updates a b)) as Hall.
  { intros x a b Hy Ha Hb. apply Forall_forall. intros y Hin. apply Hy.
    rewrite merge_updates_perm in Hin by done. apply elem_of_app in Hin as [?|[_ ?]%list_elem_of_filter];
      apply elem_of_app; auto. }
  assert (∀ y, y ∈ us → addr_lt u y) as Hu' by (by apply Forall_forall).
  assert (∀ y, y ∈ l → addr_lt e y) as He' by (by apply Forall_forall).
  rewrite merge_cons. destruct (bytes_Compare (Address e) (Address u)) eqn:E;
    (constructor; [by (apply IH || apply IHu)|]).
  - apply Hall; [|done|done]. apply bytes_Compare_eq in E. intros y [Hy|Hy]%elem_of_app; [|by apply Hu'].
    unfold addr_lt. rewrite <-E. by apply He'.
  - apply Hall; [|done|done]. intros y [Hy|Hy]%elem_of_app; [by apply He'|].
    assert (addr_lt e u) as Heu by (unfold addr_lt, bytes_less; by rewrite E).
    apply elem_of_cons in Hy as [->|Hy]; [done|]. eapply addr_lt_trans; [done|by apply Hu'].
  - apply Hall; [|done|done]. intros y [Hy|Hy]%elem_of_app; [|by apply Hu'].
    assert (addr_lt u e) as Hue by (unfold addr_lt, bytes_less; by rewrite bytes_Compare_antisym, E).
    apply elem_of_cons in Hy as [->|Hy]; [done|]. eapply addr_lt_trans; [done|by apply He'].
Qed.

Lemma remove_deletes_ok l ds : asc l → asc ds → (∀ d : Validator, d ∈ ds → Address d ∈ addresses l) →
  remove_deletes l ds = Ok (filter (λ v : Validator, Address v ∉ addresses ds) l).
Proof.
  revert ds. induction l as [|e l IH]; intros ds Hl Hds Hin.
  { destruct ds as [|d ds]; [done|]. specialize (Hin d (list_elem_of_here _ _)). by apply elem_of_nil in Hin. }
  inversion_clear Hl as [|? ? Hl' He]. destruct ds as [|d ds].
  { cbn [remove_deletes]. f_equal. rewrite (list_filter_ext_in _ (λ _, True)).
    - clear. induction (e :: l) as [|x k IHk]; [done|]. rewrite filter_cons, decide_True by done. by rewrite <-IHk.
    - intros v _. split; [done|]. by intros _ ?%elem_of_nil. }
  cbn [remove_deletes]. rewrite filter_cons. change (addresses (d :: ds)) with (Address d :: addresses ds).
  assert (∀ d' : Validator, d' ∈ d :: ds → Address e ≠ Address d' → Address d' ∈ addresses l) as Hrest.
  { intros d' Hd' Hne. specialize (Hin d' Hd'). change (addresses (e :: l)) with (Address e :: addresses l) in Hin.
    apply elem_of_cons in Hin as [?|?]; congruence. }
  destruct (decide (Address e = Address d)) as [E|E].
  - rewrite decide_False by (rewrite E; intros Hn; apply Hn, list_elem_of_here).
    inversion_clear Hds as [|? ? Hds' Hd]. rewrite IH; [|done|done|].
    + f_equal. apply list_filter_ext_in. intros v Hv. rewrite not_elem_of_cons. split; [|tauto].
      intros Hn. split; [|done]. intros Ev. pose proof (proj1 (Forall_forall _ _) He v Hv) as Hlt.
      unfold addr_lt in Hlt. by rewrite E, Ev, bytes_less_irrefl in Hlt.
    + intros d' Hd'. apply Hrest; [by apply list_elem_of_further|]. intros Ed.
      pose proof (proj1 (Forall_forall _ _) Hd d' Hd') as Hlt. unfold addr_lt in Hlt.
      by rewrite <-E, Ed, bytes_less_irrefl in Hlt.
  - assert (asc (d :: ds)) as Hasc by done. rewrite IH; [|done|done|].
    + cbn [outcome_bind]. rewrite decide_True; [done|]. change (Address e ∉ addresses (d :: ds)).
      apply asc_head_notin; [done|].
      (* [d] is found behind [e] *)
      specialize (Hrest d (list_elem_of_here _ _) E). apply elem_of_addresses in Hrest as (w & Hw & Ew).
      pose proof (proj1 (Forall_forall _ _) He w Hw) as Hlt. unfold addr_lt in Hlt. by rewrite Ew in Hlt.
    + intros d' Hd'. apply Hrest; [done|]. intros Ed.
      assert (bytes_less (Address e) (Address d) = true) as Hlt.
      { specialize (Hrest d (list_elem_of_here _ _) E). apply elem_of_addresses in Hrest as (w & Hw & Ew).
        pose proof (proj1 (Forall_forall _ _) He w Hw) as Hlt. unfold addr_lt in Hlt. by rewrite Ew in Hlt. }
      apply (asc_head_notin d ds (Address e) Hasc Hlt). apply elem_of_addresses. exists d'. by rewrite Ed.
Qed.

(** ** The whole update *)
Section update.
Context `{GoSort}.

(** The two lists that processChanges makes of acceptable changes. *)
Record splits (changes U D : list Validator) : Prop := {
  sp_U : U ≡ₚ filter (λ v : Validator, VotingPower v ≠ 0) changes;
  sp_D : D ≡ₚ filter (λ v : Validator, VotingPower v = 0) changes;
  sp_ascU : asc U;
  sp_ascD : asc D;
}.

Lemma processChanges_splits changes : distinct_changes changes →
  ∃ U D, processChanges changes = inl (U, D) ∧ splits changes U D.
Proof.
  intros Hd. destruct (processChanges_ok changes Hd) as (l & Hp & Ha & E).
  exists (filter (λ v : Validator, VotingPower v ≠ 0) l), (filter (λ v : Validator, VotingPower v = 0) l).
  split; [done|]. split; [by rewrite Hp|by rewrite Hp|by apply asc_filter|by apply asc_filter].
Qed.

Section split.
Context (s : ValidatorSet) (changes U D : list Validator).
Hypothesis Hw : wf_vals s.
Hypothesis Hd : distinct_changes changes.
Hypothesis Hsp : splits changes U D.

Lemma U_in (v : Validator) : v ∈ U ↔ v ∈ changes ∧ VotingPower v ≠ 0.
Proof. rewrite (sp_U _ _ _ Hsp), list_elem_of_filter. tauto. Qed.
Lemma D_in (v : Validator) : v ∈ D ↔ v ∈ changes ∧ VotingPower v = 0.
Proof. rewrite (sp_D _ _ _ Hsp), list_elem_of_filter. tauto. Qed.

Lemma UD_perm : U ++ D ≡ₚ changes.
Proof.
  rewrite (sp_U _ _ _ Hsp), (sp_D _ _ _ Hsp). clear.
  induction changes as [|v l IH]; [done|]. rewrite !filter_cons.
  destruct (decide (VotingPower v = 0)) as [E|E].
  - rewrite decide_False by tauto. rewrite <-Permutation_middle. by constructor.
  - rewrite decide_True by done. cbn. by constructor.
Qed.

Lemma UD_addresses : addresses U ++ addresses D ≡ₚ addresses changes.
Proof. unfold addresses. rewrite <-fmap_app. by rewrite UD_perm. Qed.

Lemma UD_nodup : NoDup (addresses U ++ addresses D).
Proof. rewrite UD_addresses. apply Hd. Qed.

Lemma U_range : Forall (λ v : Validator, 0 ≤ VotingPower v ≤ MaxTotalVotingPower) U.
Proof. apply Forall_forall. intros v [Hv _]%U_in. by apply (proj1 (Forall_forall _ _) (proj2 (proj2 Hd))). Qed.

(** The total of the result, as verifyUpdates computes it. *)
Lemma applied_power :
  power (applied changes (Validators s))
  = power (Validators s) - zsum (pw s <$> addresses D) + zsum (delta s <$> U).
Proof.
  unfold applied. rewrite power_app.
  rewrite <-(sp_U _ _ _ Hsp).
  rewrite (power_filter_split (λ v : Validator, Address v ∈ addresses changes) (Validators s)).
  rewrite power_named by (apply Hw || apply Hd).
  rewrite <-UD_addresses, fmap_app, zsum_app.
  assert (zsum (delta s <$> U) = power U - zsum (pw s <$> addresses U)) as ->; [|lia].
  pose proof U_range as Hr. unfold power, powers, addresses. clear -Hw Hr.
  induction U as [|u l IH]; [done|]. apply Forall_cons in Hr as [Hu Hr].
  rewrite !fmap_cons, !zsum_cons, IH, delta_eq by done. lia.
Qed.

Lemma named_le : zsum (pw s <$> addresses U) + zsum (pw s <$> addresses D) ≤ power (Validators s).
Proof.
  rewrite <-zsum_app, <-fmap_app. apply pw_named_le; [done|apply UD_nodup].
Qed.

Lemma pw_sum_nonneg A : 0 ≤ zsum (pw s <$> A).
Proof. apply zsum_nonneg, Forall_fmap, Forall_forall. intros a _. apply pw_nonneg, Hw. Qed.

Definition known : Prop := ∀ d : Validator, d ∈ D → Address d ∈ addresses (Validators s).

Lemma D_length : known → (length D ≤ length (Validators s))%nat.
Proof.
  intros Hk. replace (length D) with (length (addresses D)) by (unfold addresses; by rewrite length_fmap).
  replace (length (Validators s)) with (length (addresses (Validators s))) by (unfold addresses; by rewrite length_fmap).
  apply submseteq_length, NoDup_submseteq; [apply asc_nodup, Hsp|].
  intros a (d & Hdin & <-)%elem_of_addresses. by apply Hk.
Qed.

Lemma verifyRemovals_ok : known → verifyRemovals D s = Ok (inl (zsum (pw s <$> addresses D))).
Proof.
  intros Hk. pose proof named_le. pose proof (pw_sum_nonneg (addresses U)). pose proof (wv_max s Hw).
  unfold verifyRemovals. rewrite sum_removed_ok by (done || lia).
  rewrite decide_False by (pose proof (D_length Hk); lia). done.
Qed.

Lemma verifyUpdates_ok :
  verifyUpdates U (zsum (pw s <$> addresses D)) s
  = Ok (if decide (power (applied changes (Validators s)) ≤ MaxTotalVotingPower)
        then inl (power (applied changes (Validators s)) + zsum (pw s <$> addresses D))
        else inr ErrTotalVotingPowerOverflow, set_total (power (Validators s)) s).
Proof.
  pose proof named_le. pose proof (pw_sum_nonneg (addresses U)). pose proof (pw_sum_nonneg (addresses D)).
  pose proof (wv_max s Hw). pose proof Max_lt as (? & ? & ? & ?).
  unfold verifyUpdates. rewrite (bind_run _ _ s s s) by done.
  erewrite bind_run by (by apply TotalVotingPower_Ok).
  set (l := go_sort (λ u w, bool_decide (delta s u < delta s w)) U).
  assert (l ≡ₚ U) as Hl by apply go_sort_perm.
  rewrite is_i64_id by (unfold is_i64; lia).
  rewrite add_deltas_spec; [|done|rewrite Hl; apply U_range| |].
  - assert (zsum (delta s <$> l) = zsum (delta s <$> U)) as -> by (by rewrite Hl).
    rewrite <-applied_power. case_decide as HT; [|done].
    rewrite is_i64_id; [done|].
    assert (0 ≤ power (applied changes (Validators s))); [|unfold is_i64; lia].
    unfold applied. rewrite power_app, <-(sp_U _ _ _ Hsp).
    assert (∀ k, Forall (λ v : Validator, 0 ≤ VotingPower v) k → 0 ≤ power k) as Hnn.
    { intros k Hk. apply zsum_nonneg, Forall_fmap, Hk. }
    apply Z.add_nonneg_nonneg; apply Hnn.
    + eapply Forall_impl; [apply U_range|]. intros v Hv. cbn in *. lia.
    + apply Forall_forall. intros v [_ Hv]%list_elem_of_filter.
      pose proof (proj1 (Forall_forall _ _) (wv_pos s Hw) v Hv) as Hp. cbn in *. lia.
  - assert (Sorted (λ u w, bool_decide (delta s w < delta s u) = false) l) as Hs.
    { apply go_sort_sorted. split; intros *; rewrite ?bool_decide_eq_true, ?bool_decide_eq_false; lia. }
    apply Sorted_StronglySorted; [intros ???; lia|].
    eapply Sorted_weaken; [|exact Hs]. intros x y. rewrite bool_decide_eq_false. lia.
  - unfold addresses at 1. rewrite Hl. fold (addresses U). lia.
Qed.

(** ** Building the new list *)
Definition calm (l : list Validator) : Prop := within (- (3 * MaxTotalVotingPower)) (3 * MaxTotalVotingPower) l.

Lemma infos_newPriorities tvp (s' : ValidatorSet) : infos (computeNewPriorities U s' tvp) = infos U.
Proof. apply infos_fmap. intros v. by destruct (GetByAddress s' (Address v)).2. Qed.

Lemma calm_newPriorities tvp : calm (Validators s) → 0 ≤ tvp ≤ 2 * MaxTotalVotingPower →
  calm (computeNewPriorities U s tvp).
Proof.
  intros Hc Ht v (u & -> & Hu)%list_elem_of_fmap. pose proof Max_lt as (? & ? & ? & ?).
  destruct (GetByAddress s (Address u)).2 as [w|] eqn:E; cbn.
  - apply find_address_Some in E as [Hwin _]. by apply Hc.
  - rewrite Z.shiftr_div_pow2 by lia. change (2 ^ 3) with 8.
    pose proof (Z.div_mod tvp 8). pose proof (Z.mod_pos_bound tvp 8).
    rewrite !is_i64_id by (unfold is_i64; rewrite ?is_i64_id by (unfold is_i64; lia); lia). lia.
Qed.
End split.

(** The list after applyUpdates and applyRemovals. *)
Lemma new_list_ok s changes U D tvp (l := merge_updates (go_sort ByAddress_less (Validators s)) (computeNewPriorities U s tvp)) :
  wf_vals s → distinct_changes changes → splits changes U D → known s D →
  ∃ new, remove_deletes l D = Ok new ∧ (length D ≤ length l)%nat ∧
    infos new ≡ₚ infos (applied changes (Validators s)) ∧
    (∀ v, v ∈ new → v ∈ computeNewPriorities U s tvp ∨ v ∈ Validators s).
Proof.
  intros Hw Hd Hsp Hk. set (U' := computeNewPriorities U s tvp) in *.
  assert (infos U' = infos U) as HiU by apply infos_newPriorities.
  assert (addresses U' = addresses U) as HaU by (by apply addresses_infos).
  set (vs := go_sort ByAddress_less (Validators s)) in *.
  assert (vs ≡ₚ Validators s) as Hvs by apply go_sort_perm.
  assert (asc vs) as Hav.
  { apply sorted_asc; [apply go_sort_sorted, ByAddress_strict_weak|]. rewrite Hvs. apply Hw. }
  assert (asc U') as HaU'.
  { pose proof (sp_ascU _ _ _ Hsp) as Hs. clear -Hs. unfold U', asc, computeNewPriorities.
    induction Hs as [|u l Hs IH Hu]; [constructor|]. rewrite fmap_cons. constructor; [done|].
    apply Forall_fmap. eapply Forall_impl; [done|]. intros w. unfold addr_lt. cbn.
    by destruct (GetByAddress s (Address u)).2, (GetByAddress s (Address w)).2. }
  pose proof (merge_updates_perm vs U' Hav HaU') as Hl. fold l in Hl.
  pose proof (UD_nodup changes U D Hd Hsp) as Hnd. apply NoDup_app in Hnd as (_ & Hdis & HndD).
  assert (∀ d : Validator, d ∈ D → Address d ∈ addresses l) as HD.
  { intros d Hdin. rewrite Hl, addresses_app. apply elem_of_app. right.
    specialize (Hk d Hdin). apply elem_of_addresses in Hk as (v & Hv & Ev).
    apply elem_of_addresses. exists v. split; [|done]. apply list_elem_of_filter. split; [|by rewrite Hvs].
    rewrite HaU, Ev. intros Hin. apply (Hdis _ Hin). apply elem_of_addresses. eauto. }
  assert (asc l) as Hal by (by apply merge_updates_asc).
  exists (filter (λ v : Validator, Address v ∉ addresses D) l).
  split; [apply remove_deletes_ok; [done|apply Hsp|done]|]. split; [|split].
  - replace (length D) with (length (addresses D)) by (unfold addresses; by rewrite length_fmap).
    replace (length l) with (length (addresses l)) by (unfold addresses; by rewrite length_fmap).
    apply submseteq_length, NoDup_submseteq; [done|].
    intros a (d & Hdin & <-)%elem_of_addresses. by apply HD.
  - rewrite Hl, filter_app, list_filter_filter.
    assert (filter (λ v : Validator, Address v ∉ addresses D) U' = U') as ->.
    { apply list_filter_all. intros v Hv Hin. apply (Hdis (Address v)); [|done].
      rewrite <-HaU. apply elem_of_addresses. eauto. }
    unfold applied, infos. rewrite !fmap_app. f_equiv.
    + rewrite <-(sp_U _ _ _ Hsp). fold (infos U') (infos U). by rewrite HiU.
    + rewrite Hvs. erewrite list_filter_ext_in; [done|]. intros v _. cbn.
      rewrite HaU, <-(UD_addresses changes U D Hsp). rewrite elem_of_app. tauto.
  - intros v [_ Hv]%list_elem_of_filter. rewrite Hl in Hv.
    apply elem_of_app in Hv as [Hv|[_ Hv]%list_elem_of_filter]; [by left|right; by rewrite <-Hvs].
Qed.

Lemma balanced_perm s l : balanced s → l ≡ₚ Validators s → balanced (set_Validators l s).
Proof.
  intros [[] ? ? ?] Hl. split; [split|..]; cbn [set_Validators Validators Proposer totalVotingPower].
  - by rewrite Hl.
  - by rewrite Hl.
  - by rewrite Hl.
  - by rewrite Hl.
  - intros ->. by apply Permutation_nil_l in Hl.
  - unfold priorities in *. by rewrite Hl.
  - rewrite (power_perm _ _ Hl). unfold priorities in *. by rewrite Hl.
Qed.

Lemma addresses_filter_NoDup (P : Validator → Prop) `{!∀ v, Decision (P v)} l :
  NoDup (addresses l) → NoDup (addresses (filter P l)).
Proof.
  induction l as [|v l IH]; intros Hnd; [constructor|]. apply NoDup_cons in Hnd as [Hv Hnd].
  rewrite filter_cons. case_decide; [|by apply IH]. constructor; [|by apply IH].
  intros (w & Hw & Ew)%elem_of_addresses. apply Hv, elem_of_addresses. exists w.
  apply list_elem_of_filter in Hw as [_ Hw]. done.
Qed.

Lemma infos_perm_wf l l' : infos l ≡ₚ infos l' →
  power l = power l' ∧ addresses l ≡ₚ addresses l' ∧
  (Forall (λ v : Validator, 0 < VotingPower v) l' → Forall (λ v : Validator, 0 < VotingPower v) l) ∧
  length l = length l'.
Proof.
  intros Hp. assert (∀ {A} (f : ValInfo → A) k, (λ v : Validator, f v) <$> k = f <$> infos k) as Hf
    by (intros A f k; unfold infos; by rewrite <-list_fmap_compose).
  split_and!.
  - unfold power, powers. by rewrite !Hf, Hp.
  - unfold addresses. by rewrite !Hf, Hp.
  - intros H'. apply (Forall_fmap val_info (λ i, 0 < VotingPower i)). fold (infos l). rewrite Hp.
    by apply (Forall_fmap val_info (λ i, 0 < VotingPower i)).
  - apply Permutation_length in Hp. unfold infos in Hp. by rewrite !length_fmap in Hp.
Qed.

Lemma applied_pos s changes : wf_vals s → distinct_changes changes →
  Forall (λ v : Validator, 0 < VotingPower v) (applied changes (Validators s)) ∧
  NoDup (addresses (applied changes (Validators s))).
Proof.
  intros Hw (Hnd & _ & Hr). split.
  - apply Forall_app_2; apply Forall_forall; intros v [Hv1 Hv2]%list_elem_of_filter.
    + pose proof (proj1 (Forall_forall _ _) Hr v Hv2). cbn in *. lia.
    + by apply (proj1 (Forall_forall _ _) (wv_pos s Hw)).
  - unfold applied, addresses. rewrite fmap_app. apply NoDup_app. split_and!.
    + apply (addresses_filter_NoDup _ changes Hnd).
    + intros a (v & -> & [_ Hv]%list_elem_of_filter)%list_elem_of_fmap
        (w & E & [Hn _]%list_elem_of_filter)%list_elem_of_fmap.
      apply Hn. rewrite <-E. apply elem_of_addresses. eauto.
    + apply (addresses_filter_NoDup _ _ (wv_nodup s Hw)).
Qed.

(** The check for an empty result is exact once the removals are known to be members. *)
Lemma empty_check s changes U D :
  wf_vals s → distinct_changes changes → splits changes U D → known s D →
  numNewValidators U s = 0 ∧ length (Validators s) = length D → applied changes (Validators s) = [].
Proof.
  intros Hw Hd Hsp Hk [Hnew Hlen]. pose proof (UD_nodup changes U D Hd Hsp) as Hnd.
  apply NoDup_app in Hnd as (_ & Hdis & HndD).
  assert (addresses D ≡ₚ addresses (Validators s)) as Hp.
  { apply submseteq_length_Permutation.
    - apply NoDup_submseteq; [done|]. intros a (d & Hdin & <-)%elem_of_addresses. by apply Hk.
    - unfold addresses. rewrite !length_fmap. lia. }
  assert (U = []) as ->.
  { destruct U as [|u U']; [done|]. exfalso.
    assert (HasAddress s (Address u) = true) as Hu%HasAddress_spec.
    { destruct (HasAddress s (Address u)) eqn:E; [done|]. unfold numNewValidators in Hnew.
      rewrite filter_cons, decide_True in Hnew by done. cbn [length] in Hnew. lia. }
    apply (Hdis (Address u)); [apply list_elem_of_here|]. by rewrite Hp. }
  unfold applied. rewrite (Permutation_nil (sp_U _ _ _ Hsp)). cbn [app].
  apply filter_none. intros v Hv Hn. apply Hn. rewrite <-(UD_addresses changes [] D Hsp). cbn [app].
  rewrite Hp. apply elem_of_addresses. eauto.
Qed.

Lemma D_allowed changes U D (b : bool) : splits changes U D →
  negb b && negb (bool_decide (D = [])) = false ↔
  (b = false → Forall (λ v : Validator, VotingPower v ≠ 0) changes).
Proof.
  intros Hsp. destruct b; cbn; [done|]. rewrite negb_false_iff, bool_decide_eq_true. split.
  - intros -> _. apply Forall_forall. intros v Hv E.
    assert (v ∈ []) as Hin by (apply (D_in changes U []); done). by apply elem_of_nil in Hin.
  - intros Hall. specialize (Hall eq_refl). destruct D as [|d D]; [done|]. exfalso.
    assert (d ∈ d :: D) as [Hin E]%(D_in changes U _ Hsp) by apply list_elem_of_here.
    by apply (proj1 (Forall_forall _ _) Hall d Hin).
Qed.

Lemma known_iff s changes U D : splits changes U D →
  known s D ↔ ∀ v : Validator, v ∈ changes → VotingPower v = 0 → Address v ∈ addresses (Validators s).
Proof.
  intros Hsp. split.
  - intros Hk v Hv E. apply Hk, (D_in changes U D Hsp). done.
  - intros Hk d [Hd E]%(D_in changes U D Hsp). by apply Hk.
Qed.

(** The common part: running an update up to the verification of its updates. *)
Lemma update_run s changes allowDeletes :
  wf_vals s → distinct_changes changes → changes ≠ [] →
  (allowDeletes = false → Forall (λ v : Validator, VotingPower v ≠ 0) changes) →
  (∀ v : Validator, v ∈ changes → VotingPower v = 0 → Address v ∈ addresses (Validators s)) →
  applied changes (Validators s) ≠ [] →
  ∃ U D, splits changes U D ∧ known s D ∧
  let s1 := set_total (power (Validators s)) s in
  let removed := zsum (pw s <$> addresses D) in
  let T := power (applied changes (Validators s)) in
  updateWithChangeSet changes allowDeletes s =
  if decide (T ≤ MaxTotalVotingPower) then
    (applyUpdates (computeNewPriorities U s1 (T + removed)) ;;;
     applyRemovals D ;;;
     updateTotalVotingPower ;;;
     total <- TotalVotingPower ;;
     RescalePriorities (PriorityWindowSizeFactor * total) ;;;
     shiftByAvgProposerPriority ;;;
     modify (λ s, set_Validators (go_sort ByVotingPower_less (Validators s)) s) ;;;
     ret None) s1
  else Ok (Some ErrTotalVotingPowerOverflow, s1).
Proof.
  intros Hw Hd Hne Hal Hkn Hap.
  destruct (processChanges_splits changes Hd) as (U & D & E & Hsp). exists U, D.
  pose proof (proj2 (known_iff s changes U D Hsp) Hkn) as Hk. split; [done|]. split; [done|].
  cbn zeta. unfold updateWithChangeSet. rewrite decide_False, E by done.
  rewrite (proj2 (D_allowed changes U D allowDeletes Hsp) Hal).
  rewrite (bind_run _ _ s s s) by done.
  rewrite decide_False by (intros Hc; by apply Hap, (empty_check s changes U D)).
  erewrite bind_run by (unfold lift; by rewrite (verifyRemovals_ok s changes U D Hw Hd Hsp Hk)).
  cbv beta iota. rewrite (bind_run _ _ _ _ _ (verifyUpdates_ok s changes U D Hw Hd Hsp)).
  case_decide; done.
Qed.

Lemma valid_distinct changes b l : valid_changes changes b l → distinct_changes changes.
Proof. intros []. done. Qed.

(** The rest of an update, from the lists to the ordered set. *)
Lemma update_finish s new :
  Forall (λ v : Validator, 0 < VotingPower v) new → NoDup (addresses new) →
  new ≠ [] → power new ≤ MaxTotalVotingPower → calm new →
  ∃ s', (updateTotalVotingPower ;;;
     total <- TotalVotingPower ;;
     RescalePriorities (PriorityWindowSizeFactor * total) ;;;
     shiftByAvgProposerPriority ;;;
     modify (λ s, set_Validators (go_sort ByVotingPower_less (Validators s)) s) ;;;
     ret (None : option val_error)) (set_Validators new s) = Ok (None, s') ∧
    balanced s' ∧ infos (Validators s') ≡ₚ infos new ∧ Proposer s' = Proposer s ∧
    Sorted (λ v w, ByVotingPower_less w v = false) (Validators s').
Proof.
  intros Hpos Hnd Hne Hmax Hcalm. pose proof Max_lt as (? & ? & ? & ?).
  set (s4 := set_total (power new) (set_Validators new s)).
  assert (wf_vals s4) as Hw4 by (split; [done|done|done|by right]).
  destruct (center_balanced s4) as (s5 & s6 & s7 & E5 & E6 & E7 & Hb & Hi & Hp & _); [done|done| |].
  { exists (- (3 * MaxTotalVotingPower)), (3 * MaxTotalVotingPower). split; [done|].
    unfold is_i64. change (Validators s4) with new. lia. }
  exists (set_Validators (go_sort ByVotingPower_less (Validators s7)) s7).
  pose proof (go_sort_perm ByVotingPower_less (Validators s7)) as Hperm.
  split_and!.
  - rewrite (bind_run _ _ _ tt s4) by (by apply updateTotalVotingPower_Ok).
    rewrite (bind_run _ _ _ _ _ E5). unfold PriorityWindowSizeFactor.
    rewrite (bind_run _ _ _ _ _ E6), (bind_run _ _ _ _ _ E7). done.
  - by apply balanced_perm.
  - cbn [Validators set_Validators]. by rewrite Hperm, Hi.
  - done.
  - apply go_sort_sorted, ByVotingPower_strict_weak.
Qed.

Lemma update_success s changes allowDeletes :
  wf_vals s → calm (Validators s) → changes ≠ [] → valid_changes changes allowDeletes (Validators s) →
  ∃ s', updateWithChangeSet changes allowDeletes s = Ok (None, s') ∧
    balanced s' ∧ infos (Validators s') ≡ₚ infos (applied changes (Validators s)) ∧
    Proposer s' = Proposer s ∧ Sorted (λ v w, ByVotingPower_less w v = false) (Validators s').
Proof.
  intros Hw Hcalm Hne Hv. pose proof (valid_distinct _ _ _ Hv) as Hd.
  destruct (update_run s changes allowDeletes) as (U & D & Hsp & Hk & ->);
    [done|done|done|apply Hv|apply Hv|apply Hv|].
  rewrite decide_True by apply Hv. set (T := power (applied changes (Validators s))).
  set (removed := zsum (pw s <$> addresses D)). set (s1 := set_total (power (Validators s)) s).
  pose proof (named_le s changes U D Hw Hd Hsp) as Hnl. fold removed in Hnl.
  pose proof (pw_sum_nonneg s Hw (addresses U)). pose proof (pw_sum_nonneg s Hw (addresses D)) as Hr0.
  fold removed in Hr0. pose proof (wv_max s Hw). pose proof (vc_total _ _ _ Hv) as HT. fold T in HT.
  destruct (applied_pos s changes Hw Hd) as [Hap Hand].
  pose proof (power_nonneg _ Hap) as HT0. fold T in HT0.
  destruct (new_list_ok s changes U D (T + removed) Hw Hd Hsp Hk) as (new & Erem & Hlen & Hinf & Hnew).
  destruct (infos_perm_wf _ _ Hinf) as (Hpow & Haddr & Hpos & Hln).
  destruct (update_finish (set_Validators (merge_updates (go_sort ByAddress_less (Validators s))
      (computeNewPriorities U s (T + removed))) s1) new) as (s' & E & Hb & Hi & Hp & Hs).
  - by apply Hpos.
  - by rewrite Haddr.
  - intros ->. pose proof (vc_nonempty _ _ _ Hv) as Hx. by destruct (applied changes (Validators s)).
  - by rewrite Hpow.
  - intros v [Hvin|Hvin]%Hnew; [|by apply Hcalm].
    by apply (calm_newPriorities s U (T + removed) Hcalm); [lia|].
  - exists s'. split_and!; [|done|by rewrite Hi|done|done].
    unfold applyUpdates. rewrite (bind_run _ _ s1 tt (set_Validators (merge_updates
      (go_sort ByAddress_less (Validators s)) (computeNewPriorities U s (T + removed))) s1)) by done.
    rewrite (bind_run _ _ _ tt (set_Validators new (set_Validators (merge_updates
      (go_sort ByAddress_less (Validators s)) (computeNewPriorities U s (T + removed))) s1))); [exact E|].
    unfold applyRemovals. unfold bind, gets, lift, modify, outcome_bind, panic. cbn [Validators set_Validators].
    rewrite decide_False by lia. by rewrite Erem.
Qed.

Lemma update_failure s changes allowDeletes :
  wf_vals s → changes ≠ [] → ¬ valid_changes changes allowDeletes (Validators s) →
  ∃ e s', updateWithChangeSet changes allowDeletes s = Ok (Some e, s') ∧
    Validators s' = Validators s ∧ Proposer s' = Proposer s.
Proof.
  intros Hw Hne Hnv. assert (Decision (distinct_changes changes)) as Hdec by (unfold distinct_changes; apply _).
  destruct (decide (distinct_changes changes)) as [Hd|Hd].
  2: { destruct (processChanges_bad changes Hd) as [e E]. exists e, s. unfold updateWithChangeSet.
       by rewrite decide_False, E. }
  destruct (processChanges_splits changes Hd) as (U & D & E & Hsp).
  destruct (negb allowDeletes && negb (bool_decide (D = []))) eqn:Eal.
  { exists ErrDeletesNotAllowed, s. unfold updateWithChangeSet. by rewrite decide_False, E, Eal. }
  destruct (decide (numNewValidators U s = 0 ∧ length (Validators s) = length D)) as [Hemp|Hemp].
  { exists ErrResultEmpty, s. unfold updateWithChangeSet. rewrite decide_False, E, Eal by done.
    rewrite (bind_run _ _ s s s) by done. by rewrite decide_True. }
  destruct (decide (Forall (λ d : Validator, Address d ∈ addresses (Validators s)) D)) as [Hk|Hk].
  2: { apply not_Forall_Exists in Hk; [|apply _]. apply Exists_exists in Hk as (d & Hdin & Hdn).
       destruct (sum_removed_bad s D 0 d Hdin Hdn) as [e Ee]. exists e, s. unfold updateWithChangeSet.
       rewrite decide_False, E, Eal by done. rewrite (bind_run _ _ s s s) by done. rewrite decide_False by done.
       rewrite (bind_run _ _ s (inr e) s); [done|]. unfold lift, verifyRemovals. by rewrite Ee. }
  pose proof (proj1 (Forall_forall _ _) Hk) as Hk'.
  exists ErrTotalVotingPowerOverflow, (set_total (power (Validators s)) s). split; [|done].
  unfold updateWithChangeSet. rewrite decide_False, E, Eal by done. rewrite (bind_run _ _ s s s) by done.
  rewrite decide_False by done.
  rewrite (bind_run _ _ s (inl (zsum (pw s <$> addresses D))) s)
    by (unfold lift; by rewrite (verifyRemovals_ok s changes U D Hw Hd Hsp Hk')).
  cbv beta iota. rewrite (bind_run _ _ _ _ _ (verifyUpdates_ok s changes U D Hw Hd Hsp)).
  rewrite decide_False; [done|]. intros HT. apply Hnv. destruct Hd as (? & ? & ?).
  split; try done.
  - by apply (D_allowed changes U D).
  - by apply (known_iff s changes U D).
  - intros Happ. apply Hemp. unfold applied in Happ. apply app_nil in Happ as [HU Hkeep].
    assert (U = []) as -> by (apply Permutation_nil_r; rewrite (sp_U _ _ _ Hsp); by rewrite HU).
    split; [done|]. pose proof (UD_addresses changes [] D Hsp) as Hchg. cbn [app] in Hchg.
    assert (addresses (Validators s) ≡ₚ addresses D) as Hperm.
    { apply NoDup_Permutation; [apply Hw|apply asc_nodup, Hsp|]. intros a. split.
      - intros (v & Hv & <-)%elem_of_addresses. rewrite Hchg.
        destruct (decide (Address v ∈ addresses changes)) as [|Hn]; [done|]. exfalso.
        assert (v ∈ filter (λ v : Validator, Address v ∉ addresses changes) (Validators s)) as Hin
          by (by apply list_elem_of_filter). rewrite Hkeep in Hin. by apply elem_of_nil in Hin.
      - intros (d & Hdin & <-)%elem_of_addresses. by apply Hk'. }
    apply Permutation_length in Hperm. unfold addresses in Hperm. by rewrite !length_fmap in Hperm.
Qed.

(** C15: updateWithChangeSet (so NewValidatorSet and UpdateWithChangeSet), for every unstable
    sort: it succeeds exactly on the changes with distinct non-empty addresses,
    powers in range, removals (if allowed) of members only, and a result that is neither empty
    nor above the maximum total power.  The result then holds exactly the changed and the
    untouched validators, in descending order of power and then by address, with a correct total and
    centered priorities; otherwise an error is returned and the validators are what they
    were.  It never panics. *)
Theorem updateWithChangeSet_correct s changes allowDeletes :
  wf_vals s → calm (Validators s) → changes ≠ [] →
  (valid_changes changes allowDeletes (Validators s) →
   ∃ s', updateWithChangeSet changes allowDeletes s = Ok (None, s') ∧
     balanced s' ∧ infos (Validators s') ≡ₚ infos (applied changes (Validators s)) ∧
     Sorted (λ v w, ByVotingPower_less w v = false) (Validators s') ∧ Proposer s' = Proposer s) ∧
  (¬ valid_changes changes allowDeletes (Validators s) →
   ∃ e s', updateWithChangeSet changes allowDeletes s = Ok (Some e, s') ∧
     Validators s' = Validators s ∧ Proposer s' = Proposer s).
Proof.
  intros Hw Hcalm Hne. split.
  - intros Hv. destruct (update_success s changes allowDeletes Hw Hcalm Hne Hv) as (s' & ? & ? & ? & ? & ?).
    exists s'. by split_and!.
  - by apply update_failure.
Qed.
End update.

(** Remove one validator, change another and add a third. *)
Definition sample_changes : list Validator :=
  [sample_validator 3 0; sample_validator 4 7; sample_validator 1 1].

Lemma updateWithChangeSet_correct_witness :
  ∃ s', @updateWithChangeSet merge_GoSort sample_changes true sample_set = Ok (None, s') ∧
    infos (Validators s') ≡ₚ infos [sample_validator 4 7; sample_validator 1 1; sample_validator 2 3].
Proof.
  destruct (@updateWithChangeSet_correct merge_GoSort sample_set sample_changes true) as [H _].
  - apply sample_set_balanced.
  - intros v Hv. repeat (apply elem_of_cons in Hv as [->|Hv]; [by vm_compute|]). by apply elem_of_nil in Hv.
  - done.
  - destruct H as (s' & E & _ & Hi & _).
    + split.
      * by apply (bool_decide_unpack _).
      * by apply (bool_decide_unpack _).
      * by apply (bool_decide_unpack _); vm_compute.
      * done.
      * intros v Hv E0. repeat (apply elem_of_cons in Hv as [->|Hv]; [done || by apply (bool_decide_unpack _)|]).
        by apply elem_of_nil in Hv.
      * done.
      * by vm_compute.
    + exists s'. split; [exact E|exact Hi].
Defined.
