(* ===== verification/TmTypes.v ===== *)
(** Block identifiers, votes and commits (src/sourcecodes/tendermint/types: block.go, vote.go,
    part_set.go, canonical.go, validation.go), and their verification by a validator set
    (validator_set.go: VerifyCommit, VerifyCommitLight, VerifyCommitLightTrusting).

    Timestamps are integers, zero for the zero time.  The signature scheme and the
    protobuf encoding of the canonical vote are parameters. *)

From S2P Require Import Prelude TmValidators.

(** ** Block identifiers *)
Record PartSetHeader := mkPartSetHeader { psh_Total : Z; psh_Hash : bytes }.
Record BlockID := mkBlockID { bid_Hash : bytes; bid_PartSetHeader : PartSetHeader }.

#[global] Instance PartSetHeader_eq_dec : EqDecision PartSetHeader.
Proof. solve_decision. Defined.
#[global] Instance BlockID_eq_dec : EqDecision BlockID.
Proof. solve_decision. Defined.

(** [tmhash.Size], [MaxSignatureSize] *)
Definition HashSize : Z := 32.
Definition MaxSignatureSize : Z := 64.

Definition len (bs : bytes) : Z := Z.of_nat (length bs).

Definition psh_IsZero (p : PartSetHeader) : bool := bool_decide (psh_Total p = 0 ∧ len (psh_Hash p) = 0).
Definition psh_Equals (p q : PartSetHeader) : bool :=
  bool_decide (psh_Total p = psh_Total q ∧ psh_Hash p = psh_Hash q).

(** The zero value [BlockID{}]. *)
Definition BlockID_nil : BlockID := {| bid_Hash := []; bid_PartSetHeader := {| psh_Total := 0; psh_Hash := [] |} |}.

Definition Equals (a b : BlockID) : bool :=
  bool_decide (bid_Hash a = bid_Hash b) && psh_Equals (bid_PartSetHeader a) (bid_PartSetHeader b).
Definition IsZero (b : BlockID) : bool :=
  bool_decide (len (bid_Hash b) = 0) && psh_IsZero (bid_PartSetHeader b).
Definition IsComplete (b : BlockID) : bool :=
  bool_decide (len (bid_Hash b) = HashSize ∧ 0 < psh_Total (bid_PartSetHeader b) ∧
               len (psh_Hash (bid_PartSetHeader b)) = HashSize).

(** [encodeVarintTypes]: ten bytes hold every [uint64]. *)
Fixpoint varint_fuel (fuel : nat) (v : Z) : bytes :=
  match fuel with
  | O => []
  | S f => if decide (128 ≤ v) then Z.lor (Z.land v 127) 128 :: varint_fuel f (Z.shiftr v 7) else [v]
  end.
Definition varint (v : Z) : bytes := varint_fuel 10 v.

Definition psh_Marshal (p : PartSetHeader) : bytes :=
  (if decide (psh_Total p ≠ 0) then 8 :: varint (psh_Total p) else []) ++
  (if decide (0 < len (psh_Hash p)) then 18 :: varint (len (psh_Hash p)) ++ psh_Hash p else []).

Definition Key (b : BlockID) : bytes := bid_Hash b ++ psh_Marshal (bid_PartSetHeader b).

Inductive basic_error :=
| ErrHashSize | ErrWrongHash | ErrWrongPartSetHeader (e : basic_error)
| ErrInvalidType | ErrNegativeHeight | ErrNegativeRound | ErrWrongBlockID (e : basic_error)
| ErrBlockIDNotComplete | ErrValidatorAddressSize | ErrNegativeValidatorIndex
| ErrSignatureMissing | ErrSignatureTooBig
| ErrUnknownFlag | ErrAddressPresent | ErrTimePresent | ErrSignaturePresent
| ErrCommitNilBlock | ErrNoSignatures | ErrWrongCommitSig (idx : nat) (e : basic_error).

Definition ValidateHash (h : bytes) : option basic_error :=
  if decide (0 < len h ∧ len h ≠ HashSize) then Some ErrHashSize else None.

Definition psh_ValidateBasic (p : PartSetHeader) : option basic_error :=
  match ValidateHash (psh_Hash p) with Some _ => Some ErrWrongHash | None => None end.

Definition BlockID_ValidateBasic (b : BlockID) : option basic_error :=
  match ValidateHash (bid_Hash b) with
  | Some _ => Some ErrWrongHash
  | None =>
      match psh_ValidateBasic (bid_PartSetHeader b) with
      | Some e => Some (ErrWrongPartSetHeader e)
      | None => None
      end
  end.

(** ** Votes *)
Definition PrevoteType : Z := 1.
Definition PrecommitType : Z := 2.
Definition IsVoteTypeValid (t : Z) : bool := bool_decide (t = PrevoteType ∨ t = PrecommitType).

Record Vote := mkVote {
  v_Type : Z; v_Height : Z; v_Round : Z; v_BlockID : BlockID; v_Timestamp : Z;
  v_ValidatorAddress : bytes; v_ValidatorIndex : Z; v_Signature : bytes;
}.

#[global] Instance Vote_eq_dec : EqDecision Vote.
Proof. solve_decision. Defined.

Definition Vote_ValidateBasic (v : Vote) : option basic_error :=
  if negb (IsVoteTypeValid (v_Type v)) then Some ErrInvalidType
  else if decide (v_Height v < 0) then Some ErrNegativeHeight
  else if decide (v_Round v < 0) then Some ErrNegativeRound
  else match BlockID_ValidateBasic (v_BlockID v) with
  | Some e => Some (ErrWrongBlockID e)
  | None =>
      if negb (IsZero (v_BlockID v)) && negb (IsComplete (v_BlockID v)) then Some ErrBlockIDNotComplete
      else if decide (len (v_ValidatorAddress v) ≠ AddressSize) then Some ErrValidatorAddressSize
      else if decide (v_ValidatorIndex v < 0) then Some ErrNegativeValidatorIndex
      else if decide (len (v_Signature v) = 0) then Some ErrSignatureMissing
      else if decide (len (v_Signature v) > MaxSignatureSize) then Some ErrSignatureTooBig
      else None
  end.

(** What is signed. *)
Record CanonicalVote := mkCanonicalVote {
  cv_Type : Z; cv_Height : Z; cv_Round : Z; cv_BlockID : option BlockID; cv_Timestamp : Z; cv_ChainID : bytes;
}.

Definition CanonicalizeBlockID (b : BlockID) : outcome (option BlockID) :=
  match BlockID_ValidateBasic b with
  | Some _ => Panic
  | None => Ok (if IsZero b then None else Some b)
  end.

Definition CanonicalizeVote (chainID : bytes) (v : Vote) : outcome CanonicalVote :=
  let! b := CanonicalizeBlockID (v_BlockID v) in
  Ok {| cv_Type := v_Type v; cv_Height := v_Height v; cv_Round := v_Round v; cv_BlockID := b;
        cv_Timestamp := v_Timestamp v; cv_ChainID := chainID |}.

(** ** Commits *)
Definition BlockIDFlagAbsent : Z := 1.
Definition BlockIDFlagCommit : Z := 2.
Definition BlockIDFlagNil : Z := 3.

Record CommitSig := mkCommitSig {
  cs_BlockIDFlag : Z; cs_ValidatorAddress : bytes; cs_Timestamp : Z; cs_Signature : bytes;
}.
Record Commit := mkCommit { c_Height : Z; c_Round : Z; c_BlockID : BlockID; c_Signatures : list CommitSig }.

Definition NewCommitSigForBlock (signature valAddr : bytes) (ts : Z) : CommitSig :=
  {| cs_BlockIDFlag := BlockIDFlagCommit; cs_ValidatorAddress := valAddr; cs_Timestamp := ts; cs_Signature := signature |}.
Definition NewCommitSigAbsent : CommitSig :=
  {| cs_BlockIDFlag := BlockIDFlagAbsent; cs_ValidatorAddress := []; cs_Timestamp := 0; cs_Signature := [] |}.
Definition ForBlock (cs : CommitSig) : bool := bool_decide (cs_BlockIDFlag cs = BlockIDFlagCommit).
Definition Absent (cs : CommitSig) : bool := bool_decide (cs_BlockIDFlag cs = BlockIDFlagAbsent).

Definition cs_BlockID (cs : CommitSig) (commitBlockID : BlockID) : outcome BlockID :=
  if decide (cs_BlockIDFlag cs = BlockIDFlagAbsent) then Ok BlockID_nil
  else if decide (cs_BlockIDFlag cs = BlockIDFlagCommit) then Ok commitBlockID
  else if decide (cs_BlockIDFlag cs = BlockIDFlagNil) then Ok BlockID_nil
  else Panic.

Definition CommitSig_ValidateBasic (cs : CommitSig) : option basic_error :=
  if negb (bool_decide (cs_BlockIDFlag cs ∈ [BlockIDFlagAbsent; BlockIDFlagCommit; BlockIDFlagNil]))
  then Some ErrUnknownFlag
  else if Absent cs then
    if decide (len (cs_ValidatorAddress cs) ≠ 0) then Some ErrAddressPresent
    else if decide (cs_Timestamp cs ≠ 0) then Some ErrTimePresent
    else if decide (len (cs_Signature cs) ≠ 0) then Some ErrSignaturePresent
    else None
  else
    if decide (len (cs_ValidatorAddress cs) ≠ AddressSize) then Some ErrValidatorAddressSize
    else if decide (len (cs_Signature cs) = 0) then Some ErrSignatureMissing
    else if decide (len (cs_Signature cs) > MaxSignatureSize) then Some ErrSignatureTooBig
    else None.

(** [vote.CommitSig()]; the receiver may be nil. *)
Definition Vote_CommitSig (v : option Vote) : outcome CommitSig :=
  match v with
  | None => Ok NewCommitSigAbsent
  | Some v =>
      let! flag := (if IsComplete (v_BlockID v) then Ok BlockIDFlagCommit
                    else if IsZero (v_BlockID v) then Ok BlockIDFlagNil else Panic) in
      Ok {| cs_BlockIDFlag := flag; cs_ValidatorAddress := v_ValidatorAddress v;
            cs_Timestamp := v_Timestamp v; cs_Signature := v_Signature v |}
  end.

Definition GetVote (commit : Commit) (valIdx : Z) : outcome Vote :=
  let! cs := slice_get (c_Signatures commit) valIdx in
  let! b := cs_BlockID cs (c_BlockID commit) in
  Ok {| v_Type := PrecommitType; v_Height := c_Height commit; v_Round := c_Round commit; v_BlockID := b;
        v_Timestamp := cs_Timestamp cs; v_ValidatorAddress := cs_ValidatorAddress cs;
        v_ValidatorIndex := valIdx; v_Signature := cs_Signature cs |}.

Fixpoint validate_sigs (idx : nat) (l : list CommitSig) : option basic_error :=
  match l with
  | [] => None
  | cs :: l' =>
      match CommitSig_ValidateBasic cs with
      | Some e => Some (ErrWrongCommitSig idx e)
      | None => validate_sigs (S idx) l'
      end
  end.

Definition Commit_ValidateBasic (c : Commit) : option basic_error :=
  if decide (c_Height c < 0) then Some ErrNegativeHeight
  else if decide (c_Round c < 0) then Some ErrNegativeRound
  else if decide (1 ≤ c_Height c) then
    if IsZero (c_BlockID c) then Some ErrCommitNilBlock
    else if decide (c_Signatures c = []) then Some ErrNoSignatures
    else validate_sigs 0 (c_Signatures c)
  else None.

(** ** Verification *)
Inductive commit_error :=
| ErrInvalidCommitSignatures | ErrInvalidCommitHeight | ErrWrongBlock
| ErrWrongSignature (idx : nat) | ErrNotEnoughVotingPowerSigned (got needed : Z)
| ErrZeroDenominator | ErrOverflow | ErrDoubleVote (first second : nat).

Section crypto.
(** The signature check of a public key, the address of a key, and the delimited
    protobuf encoding of a canonical vote. *)
Context (VerifySignature : bytes → bytes → bytes → bool) (key_Address : bytes → bytes)
        (MarshalDelimited : CanonicalVote → bytes).

Definition VoteSignBytes (chainID : bytes) (v : Vote) : outcome bytes :=
  let! cv := CanonicalizeVote chainID v in Ok (MarshalDelimited cv).

Definition Commit_VoteSignBytes (chainID : bytes) (commit : Commit) (valIdx : Z) : outcome bytes :=
  let! v := GetVote commit valIdx in VoteSignBytes chainID v.

(** [val.PubKey.VerifySignature]; a nil key panics. *)
Definition val_Verify (val : ValInfo) (msg sig : bytes) : outcome bool :=
  match PubKey val with Some k => Ok (VerifySignature k msg sig) | None => Panic end.

(** The loop of VerifyCommit, from index [idx]. *)
Fixpoint tally_all (vals : ValidatorSet) (chainID : bytes) (commit : Commit) (idx : nat)
    (sigs : list CommitSig) (tallied : Z) : outcome (Z + commit_error) :=
  match sigs with
  | [] => Ok (inl tallied)
  | cs :: sigs' =>
      if Absent cs then tally_all vals chainID commit (S idx) sigs' tallied else
      let! val := slice_get (Validators vals) (Z.of_nat idx) in
      let! msg := Commit_VoteSignBytes chainID commit (Z.of_nat idx) in
      let! ok := val_Verify val msg (cs_Signature cs) in
      if negb ok then Ok (inr (ErrWrongSignature idx)) else
      tally_all vals chainID commit (S idx) sigs'
        (if ForBlock cs then i64 (tallied + VotingPower val) else tallied)
  end.

(** The checks that precede the loop of VerifyCommit and of VerifyCommitLight. *)
Definition commit_checks (vals : ValidatorSet) (blockID : BlockID) (height : Z) (commit : Commit) :
    option commit_error :=
  if decide (Size vals ≠ Z.of_nat (length (c_Signatures commit))) then Some ErrInvalidCommitSignatures
  else if decide (height ≠ c_Height commit) then Some ErrInvalidCommitHeight
  else if negb (Equals blockID (c_BlockID commit)) then Some ErrWrongBlock
  else None.

(** The result is [None] for nil, with the set (whose cached total may have been filled). *)
Definition VerifyCommit (chainID : bytes) (blockID : BlockID) (height : Z) (commit : Commit) :
    M ValidatorSet (option commit_error) :=
  vals <- gets id ;;
  match commit_checks vals blockID height commit with
  | Some e => ret (Some e)
  | None =>
      total <- TotalVotingPower ;;
      let needed := Z.quot (i64 (total * 2)) 3 in
      r <- lift (tally_all vals chainID commit 0 (c_Signatures commit) 0) ;;
      match r with
      | inr e => ret (Some e)
      | inl got => ret (if decide (got ≤ needed) then Some (ErrNotEnoughVotingPowerSigned got needed) else None)
      end
  end.

(** The loop of VerifyCommitLight returns as soon as there is enough. *)
Fixpoint tally_light (vals : ValidatorSet) (chainID : bytes) (commit : Commit) (needed : Z) (idx : nat)
    (sigs : list CommitSig) (tallied : Z) : outcome (option commit_error) :=
  match sigs with
  | [] => Ok (Some (ErrNotEnoughVotingPowerSigned tallied needed))
  | cs :: sigs' =>
      if negb (ForBlock cs) then tally_light vals chainID commit needed (S idx) sigs' tallied else
      let! val := slice_get (Validators vals) (Z.of_nat idx) in
      let! msg := Commit_VoteSignBytes chainID commit (Z.of_nat idx) in
      let! ok := val_Verify val msg (cs_Signature cs) in
      if negb ok then Ok (Some (ErrWrongSignature idx)) else
      let tallied' := i64 (tallied + VotingPower val) in
      if decide (tallied' > needed) then Ok None
      else tally_light vals chainID commit needed (S idx) sigs' tallied'
  end.

Definition VerifyCommitLight (chainID : bytes) (blockID : BlockID) (height : Z) (commit : Commit) :
    M ValidatorSet (option commit_error) :=
  vals <- gets id ;;
  match commit_checks vals blockID height commit with
  | Some e => ret (Some e)
  | None =>
      total <- TotalVotingPower ;;
      let needed := Z.quot (i64 (total * 2)) 3 in
      lift (tally_light vals chainID commit needed 0 (c_Signatures commit) 0)
  end.

(** [seen] is the map from validator index to commit index. *)
Fixpoint tally_trusting (vals : ValidatorSet) (chainID : bytes) (commit : Commit) (needed : Z) (idx : nat)
    (sigs : list CommitSig) (seen : list (Z * nat)) (tallied : Z) : outcome (option commit_error) :=
  match sigs with
  | [] => Ok (Some (ErrNotEnoughVotingPowerSigned tallied needed))
  | cs :: sigs' =>
      if negb (ForBlock cs) then tally_trusting vals chainID commit needed (S idx) sigs' seen tallied else
      match GetByAddress vals (cs_ValidatorAddress cs) with
      | (_, None) => tally_trusting vals chainID commit needed (S idx) sigs' seen tallied
      | (valIdx, Some val) =>
          match list_find (λ e, e.1 = valIdx) seen with
          | Some (_, (_, firstIndex)) => Ok (Some (ErrDoubleVote firstIndex idx))
          | None =>
              let! msg := Commit_VoteSignBytes chainID commit (Z.of_nat idx) in
              let! ok := val_Verify val msg (cs_Signature cs) in
              if negb ok then Ok (Some (ErrWrongSignature idx)) else
              let tallied' := i64 (tallied + VotingPower val) in
              if decide (tallied' > needed) then Ok None
              else tally_trusting vals chainID commit needed (S idx) sigs' ((valIdx, idx) :: seen) tallied'
          end
      end
  end.

(** The trust level is a fraction of two [uint64]. *)
Definition VerifyCommitLightTrusting (chainID : bytes) (commit : Commit) (numerator denominator : Z) :
    M ValidatorSet (option commit_error) :=
  if decide (denominator = 0) then ret (Some ErrZeroDenominator) else
  vals <- gets id ;;
  total <- TotalVotingPower ;;
  let '(product, overflow) := safeMul total (i64 numerator) in
  if (overflow : bool) then ret (Some ErrOverflow)
  else lift (tally_trusting vals chainID commit (Z.quot product (i64 denominator)) 0 (c_Signatures commit) [] 0).

(** [vote.Verify]. *)
Inductive verify_error := VerifyWrongAddress | VerifyWrongSignature.

Definition Vote_Verify (v : Vote) (chainID : bytes) (pubKey : option bytes) : outcome (option verify_error) :=
  match pubKey with
  | None => Panic
  | Some k =>
      if decide (key_Address k ≠ v_ValidatorAddress v) then Ok (Some VerifyWrongAddress) else
      let! msg := VoteSignBytes chainID v in
      Ok (if VerifySignature k msg (v_Signature v) then None else Some VerifyWrongSignature)
  end.
End crypto.
