(* ===== verification/TmCommit.v ===== *)
(** Commits and their verification: theorems.

    [weight l P] is the voting power of the validators of [l] whose index satisfies [P].
    The theorems say which signatures a successful verification has checked and how
    much power they carry, and relate the three verification methods. *)

From S2P Require Import Prelude TmValidators TmPriority TmValUpdate TmTypes.

(** ** Voting power of a set of indices *)
Definition weight (l : list Validator) (P : nat → bool) : Z :=
  zsum (imap (λ i (v : Validator), if P i then VotingPower v else 0) l).

Lemma weight_cons (v : Validator) l P : weight (v :: l) P = (if P 0%nat then VotingPower v else 0) + weight l (P ∘ S).
Proof. done. Qed.

Lemma weight_ext l P Q : (∀ i, (i < length l)%nat → P i = Q i) → weight l P = weight l Q.
Proof.
  revert P Q. induction l as [|v l IH]; intros P Q H; [done|]. rewrite !weight_cons.
  rewrite (H 0%nat) by (cbn; lia). rewrite (IH _ (Q ∘ S)); [done|].
  intros i Hi. apply H. cbn. lia.
Qed.

Definition positive (l : list Validator) : Prop := Forall (λ v : Validator, 0 < VotingPower v) l.

Lemma weight_all l : weight l (λ _, true) = power l.
Proof.
  induction l as [|v l IH]; [done|]. rewrite weight_cons.
  change (weight l ((λ _, true) ∘ S)) with (weight l (λ _, true)). by rewrite IH.
Qed.

Lemma weight_none l P : (∀ i, (i < length l)%nat → P i = false) → weight l P = 0.
Proof.
  revert P. induction l as [|v l IH]; intros P H; [done|]. rewrite weight_cons, H by (cbn; lia).
  rewrite IH; [done|]. intros i Hi. apply H. cbn. lia.
Qed.

Lemma weight_mono l P Q : positive l → (∀ i, (i < length l)%nat → P i = true → Q i = true) → weight l P ≤ weight l Q.
Proof.
  intros Hp. revert P Q. induction Hp as [|v l Hv Hp IH]; intros P Q H; [done|]. rewrite !weight_cons.
  cbn in Hv. specialize (IH (P ∘ S) (Q ∘ S)).
  assert (weight l (P ∘ S) ≤ weight l (Q ∘ S)) by (apply IH; intros i Hi; apply H; cbn; lia).
  pose proof (H 0%nat ltac:(cbn; lia)) as Hz.
  destruct (P 0%nat), (Q 0%nat); [lia|by discriminate Hz|lia|lia].
Qed.

Lemma weight_bounds l P : positive l → 0 ≤ weight l P ≤ power l.
Proof.
  intros Hp. rewrite <-weight_all. split; [|by apply weight_mono].
  rewrite <-(weight_none l (λ _, false)) by done. by apply weight_mono.
Qed.

Lemma weight_union_inter l P Q :
  weight l (λ i, P i || Q i) + weight l (λ i, P i && Q i) = weight l P + weight l Q.
Proof.
  revert P Q. induction l as [|v l IH]; intros P Q; [done|]. rewrite !weight_cons.
  specialize (IH (P ∘ S) (Q ∘ S)). unfold compose in *. destruct (P 0%nat), (Q 0%nat); cbn; lia.
Qed.

(** Two sets with more than two thirds of the power each share more than a third. *)
Lemma weight_quorums l P Q : positive l → 2 * power l < 3 * weight l P → 2 * power l < 3 * weight l Q →
  power l < 3 * weight l (λ i, P i && Q i).
Proof.
  intros Hp HP HQ. pose proof (weight_union_inter l P Q).
  pose proof (weight_bounds l (λ i, P i || Q i) Hp). lia.
Qed.

(** Adding one index. *)
Lemma weight_insert l P i (v : Validator) : l !! i = Some v → P i = false →
  weight l (λ j, bool_decide (j = i) || P j) = weight l P + VotingPower v.
Proof.
  revert P i. induction l as [|w l IH]; intros P [|i] Hi HP; [done..| |].
  - injection Hi as ->. rewrite !weight_cons, HP. rewrite bool_decide_eq_true_2 by done. cbn [orb].
    rewrite (weight_ext l _ (P ∘ S)); [lia|]. intros j Hj. unfold compose.
    by rewrite bool_decide_eq_false_2 by lia.
  - rewrite !weight_cons. rewrite (bool_decide_eq_false_2 (0%nat = S i)) by lia. cbn [orb].
    rewrite (weight_ext l _ (λ j, bool_decide (j = i) || (P ∘ S) j)).
    + rewrite IH by done. lia.
    + intros j Hj. unfold compose. f_equal. apply bool_decide_ext. lia.
Qed.

(** ** Block identifiers *)
Lemma Equals_eq a b : Equals a b = true ↔ a = b.
Proof.
  unfold Equals, psh_Equals. rewrite andb_true_iff, !bool_decide_eq_true. split; [|by intros ->].
  destruct a as [h1 [t1 p1]], b as [h2 [t2 p2]]; cbn. intros (-> & -> & ->). done.
Qed.

Lemma IsZero_eq b : IsZero b = true ↔ b = BlockID_nil.
Proof.
  unfold IsZero, psh_IsZero, len. rewrite andb_true_iff, !bool_decide_eq_true. split; [|by intros ->].
  destruct b as [[|] [t [|]]]; cbn; try lia. by intros (_ & -> & _).
Qed.

(** What ValidateBasic of a vote guarantees of its block. *)
Definition proper_id (b : BlockID) : Prop := (IsZero b = true ∨ IsComplete b = true) ∧ 0 ≤ psh_Total (bid_PartSetHeader b) < two32.

Lemma proper_ValidateBasic b : proper_id b → BlockID_ValidateBasic b = None.
Proof.
  intros [[->%IsZero_eq|H] _]; [done|]. unfold IsComplete in H. apply bool_decide_eq_true_1 in H as (H1 & _ & H2).
  unfold BlockID_ValidateBasic, psh_ValidateBasic, ValidateHash. by rewrite !decide_False by lia.
Qed.

Lemma varint_inj_fuel f v w : 0 ≤ v → 0 ≤ w → v < 128 ^ Z.of_nat f → w < 128 ^ Z.of_nat f →
  ∀ x y, varint_fuel f v ++ x = varint_fuel f w ++ y → v = w.
Proof.
  assert (∀ z, 0 ≤ z → Z.lor (Z.land z 127) 128 = z mod 128 + 128) as Hlow.
  { intros z Hz. change 127 with (Z.ones 7). rewrite Z.land_ones by lia. change (2 ^ 7) with 128.
    rewrite Z.lor_comm. pose proof (Z.mod_pos_bound z 128 ltac:(lia)).
    assert (Z.land 128 (z mod 128) = 0) as Hland.
    { apply Z.bits_inj'. intros j Hj. rewrite Z.land_spec, Z.testbit_0_l. change 128 with (2 ^ 7).
      rewrite Z.pow2_bits_eqb by lia. destruct (Z.eqb_spec 7 j) as [<-|]; [|done].
      rewrite Z.mod_pow2_bits_high by lia. done. }
    pose proof (Z.add_lor_land 128 (z mod 128)). lia. }
  revert v w. induction f as [|f IH]; intros v w Hv Hw Hv2 Hw2 x y.
  { change (128 ^ Z.of_nat 0) with 1 in *. lia. }
  cbn [varint_fuel]. rewrite Nat2Z.inj_succ, Z.pow_succ_r in Hv2, Hw2 by lia.
  pose proof (Z.mod_pos_bound v 128 ltac:(lia)). pose proof (Z.mod_pos_bound w 128 ltac:(lia)).
  pose proof (Z.div_mod v 128 ltac:(lia)). pose proof (Z.div_mod w 128 ltac:(lia)).
  destruct (decide (128 ≤ v)), (decide (128 ≤ w)); cbn [app]; intros E; injection E as E1 E2;
    rewrite ?Hlow in E1 by lia; try lia.
  apply IH in E2.
  - rewrite !Z.shiftr_div_pow2 in E2 by lia. change (2 ^ 7) with 128 in E2. lia.
  - rewrite Z.shiftr_div_pow2 by lia. apply Z.div_pos; lia.
  - rewrite Z.shiftr_div_pow2 by lia. apply Z.div_pos; lia.
  - rewrite Z.shiftr_div_pow2 by lia. change (2 ^ 7) with 128. apply Z.div_lt_upper_bound; lia.
  - rewrite Z.shiftr_div_pow2 by lia. change (2 ^ 7) with 128. apply Z.div_lt_upper_bound; lia.
Qed.

#[local] Opaque varint.

(** The keys of the votes' blocks do not collide. *)
Lemma Key_inj a b : proper_id a → proper_id b → Key a = Key b → a = b.
Proof.
  intros [Ha Ta] [Hb Tb] E.
  assert (∀ c, IsComplete c = true → len (Key c) ≠ 0) as Hne.
  { intros c Hc. unfold IsComplete in Hc. apply bool_decide_eq_true_1 in Hc as (H1 & _).
    unfold Key, len in *. rewrite length_app. unfold HashSize in H1. lia. }
  destruct Ha as [->%IsZero_eq|Ha], Hb as [->%IsZero_eq|Hb]; [done|..].
  - destruct (Hne b Hb). by rewrite <-E.
  - destruct (Hne a Ha). by rewrite E.
  - unfold IsComplete in *. apply bool_decide_eq_true_1 in Ha as (Ha1 & Ha2 & Ha3), Hb as (Hb1 & Hb2 & Hb3).
    unfold Key, psh_Marshal in E. destruct a as [h1 [t1 p1]], b as [h2 [t2 p2]]. cbn in *.
    unfold len in *. apply app_inj_1 in E as [-> E]; [|lia].
    rewrite !(decide_True (P := _ ≠ 0)), !(decide_True (P := 0 < _)) in E by (unfold HashSize in *; lia).
    cbn [app] in E. injection E as E.
    assert (t1 = t2) as ->.
    { assert (two32 < 128 ^ Z.of_nat 10) by done. eapply (varint_inj_fuel 10); [| | | |exact E]; lia. }
    apply app_inv_head in E. injection E as E. assert (length p1 = length p2) as Hlen by lia.
    rewrite Hlen in E. by apply app_inv_head in E as ->.
Qed.

(** ** Verified signatures *)
Section verify.
Context (VerifySignature : bytes → bytes → bytes → bool) (MarshalDelimited : CanonicalVote → bytes).
Context (chainID : bytes).

(** The signature of the commit at an index is a signature of the validator at index [i] over the
    canonical vote that the commit stands for there. *)
Definition sig_ok (l : list Validator) (commit : Commit) (i idx : nat) : Prop :=
  ∃ v cs k msg, l !! i = Some v ∧ c_Signatures commit !! idx = Some cs ∧ PubKey (val_info v) = Some k ∧
    Commit_VoteSignBytes MarshalDelimited chainID commit (Z.of_nat idx) = Ok msg ∧
    VerifySignature k msg (cs_Signature cs) = true.

(** The indices that signed for the block. *)
Definition for_block (sigs : list CommitSig) (i : nat) : bool :=
  match sigs !! i with Some cs => ForBlock cs | None => false end.

Lemma for_block_S cs sigs : for_block (cs :: sigs) ∘ S = for_block sigs.
Proof. done. Qed.

Lemma drop_cons_lookup {A} (l : list A) n x l' : drop n l = x :: l' → l !! n = Some x ∧ drop (S n) l = l'.
Proof.
  intros E. split.
  - rewrite <-(Nat.add_0_r n), <-lookup_drop, E. done.
  - rewrite <-Nat.add_1_r, <-drop_drop, E. done.
Qed.

Lemma Z_i64_power t l : positive l → 0 ≤ t → t + power l ≤ MaxTotalVotingPower → ∀ v : Validator, v ∈ l →
  i64 (t + VotingPower v) = t + VotingPower v.
Proof.
  intros Hp Ht Hm v Hv. pose proof (power_elem l v Hp Hv). pose proof Max_lt as (? & ? & ? & ?).
  pose proof (proj1 (Forall_forall _ _) Hp v Hv). cbn in *. apply is_i64_id. unfold is_i64. lia.
Qed.

(** What a completed loop of VerifyCommit has checked and counted. *)
Lemma tally_all_inl vals commit idx sigs l t got :
  positive l → 0 ≤ t → t + power l ≤ MaxTotalVotingPower →
  l = drop idx (Validators vals) → sigs = drop idx (c_Signatures commit) → length l = length sigs →
  tally_all VerifySignature MarshalDelimited vals chainID commit idx sigs t = Ok (inl got) →
  got = t + weight l (for_block sigs) ∧
  ∀ k cs, sigs !! k = Some cs → Absent cs = false → sig_ok (Validators vals) commit (idx + k) (idx + k).
Proof.
  revert idx l t. induction sigs as [|cs sigs IH]; intros idx l t Hp Ht Hm Hl Hs Hlen E.
  { destruct l; [|done]. cbn in E. injection E as <-. split; [cbn; lia|done]. }
  destruct l as [|v l]; [done|]. symmetry in Hl, Hs.
  apply drop_cons_lookup in Hl as [Hv Hl], Hs as [Hcs Hs].
  apply Forall_cons in Hp as [Hpv Hp]. cbn in Hpv. pose proof (power_nonneg l Hp).
  assert (power (v :: l) = VotingPower v + power l) as Hpow by done.
  rewrite weight_cons, for_block_S. cbn [tally_all] in E.
  assert (for_block (cs :: sigs) 0 = ForBlock cs) as -> by done.
  assert (∀ t', (t' = t ∨ t' = t + VotingPower v) →
    tally_all VerifySignature MarshalDelimited vals chainID commit (S idx) sigs t' = Ok (inl got) →
    got = t' + weight l (for_block sigs) ∧
    ∀ k cs', sigs !! k = Some cs' → Absent cs' = false → sig_ok (Validators vals) commit (idx + S k) (idx + S k)) as Hrest.
  { intros t' Ht' E'. destruct (IH (S idx) l t') as [-> Hk]; [done|lia|lia|done|done|by injection Hlen|done|].
    split; [done|]. intros k cs' H1 H2. rewrite Nat.add_succ_r. by apply (Hk k cs'). }
  destruct (Absent cs) eqn:Ea.
  - apply Hrest in E as [-> Hk]; [|by left].
    assert (ForBlock cs = false) as ->.
    { unfold Absent, ForBlock in *. apply bool_decide_eq_true_1 in Ea. apply bool_decide_eq_false_2. rewrite Ea. done. }
    split; [lia|]. intros [|k] cs' Hcs' Hna; [injection Hcs' as <-; by rewrite Ea in Hna|by apply (Hk k cs')].
  - destruct (slice_get_in (Validators vals) (Z.of_nat idx)) as (v' & Esl & Hv').
    { split; [lia|]. apply lookup_lt_Some in Hv. lia. }
    rewrite Nat2Z.id, Hv in Hv'. injection Hv' as <-. rewrite Esl in E. cbn [outcome_bind] in E.
    destruct (Commit_VoteSignBytes MarshalDelimited chainID commit (Z.of_nat idx)) as [msg| |] eqn:Emsg; [|done..].
    cbn [outcome_bind] in E. unfold val_Verify in E. destruct (PubKey (val_info v)) as [k|] eqn:Ek; [|done].
    cbn [outcome_bind] in E. destruct (VerifySignature k msg (cs_Signature cs)) eqn:Ever; [|done]. cbn [negb] in E.
    assert (i64 (t + VotingPower v) = t + VotingPower v) as Hi.
    { apply (Z_i64_power t (v :: l)); [by constructor|done|lia|apply list_elem_of_here]. }
    rewrite Hi in E. apply Hrest in E as [-> Hk]; [|destruct (ForBlock cs); auto].
    split; [destruct (ForBlock cs); lia|].
    intros [|k'] cs' Hcs' Hna; [|by apply (Hk k' cs')].
    injection Hcs' as <-. rewrite Nat.add_0_r. exists v, cs, k, msg. by split_and!.
Qed.

(** Conversely, when everything verifies the loop completes. *)
Lemma tally_all_complete vals commit idx sigs l t :
  positive l → 0 ≤ t → t + power l ≤ MaxTotalVotingPower →
  l = drop idx (Validators vals) → sigs = drop idx (c_Signatures commit) → length l = length sigs →
  (∀ k cs, sigs !! k = Some cs → Absent cs = false → sig_ok (Validators vals) commit (idx + k) (idx + k)) →
  tally_all VerifySignature MarshalDelimited vals chainID commit idx sigs t = Ok (inl (t + weight l (for_block sigs))).
Proof.
  revert idx l t. induction sigs as [|cs sigs IH]; intros idx l t Hp Ht Hm Hl Hs Hlen Hok.
  { destruct l; [|done]. cbn. do 2 f_equal. lia. }
  destruct l as [|v l]; [done|]. symmetry in Hl, Hs.
  apply drop_cons_lookup in Hl as [Hv Hl], Hs as [Hcs Hs].
  apply Forall_cons in Hp as [Hpv Hp]. cbn in Hpv. pose proof (power_nonneg l Hp).
  assert (power (v :: l) = VotingPower v + power l) as Hpow by done.
  rewrite weight_cons, for_block_S. cbn [tally_all].
  assert (for_block (cs :: sigs) 0 = ForBlock cs) as -> by done.
  assert (∀ k cs', sigs !! k = Some cs' → Absent cs' = false → sig_ok (Validators vals) commit (S idx + k) (S idx + k)) as Hok'.
  { intros k cs' H1 H2. rewrite Nat.add_succ_l, <-Nat.add_succ_r. by apply (Hok (S k) cs'). }
  destruct (Absent cs) eqn:Ea.
  - assert (ForBlock cs = false) as ->.
    { unfold Absent, ForBlock in *. apply bool_decide_eq_true_1 in Ea. apply bool_decide_eq_false_2. rewrite Ea. done. }
    rewrite (IH (S idx) l t); [do 2 f_equal; lia|done|lia|lia|done|done|by injection Hlen|done].
  - destruct (Hok 0%nat cs eq_refl Ea) as (v' & cs' & k & msg & Hv' & Hcs' & Hk & Emsg & Ever).
    rewrite Nat.add_0_r in *. rewrite Hv in Hv'. injection Hv' as <-. rewrite Hcs in Hcs'. injection Hcs' as <-.
    assert (slice_get (Validators vals) (Z.of_nat idx) = Ok v) as -> by (apply slice_get_Ok; rewrite Nat2Z.id; split; [lia|done]).
    cbn [outcome_bind]. rewrite Emsg. cbn [outcome_bind]. unfold val_Verify. rewrite Hk. cbn [outcome_bind].
    rewrite Ever. cbn [negb].
    assert (i64 (t + VotingPower v) = t + VotingPower v) as ->.
    { apply (Z_i64_power t (v :: l)); [by constructor|done|lia|apply list_elem_of_here]. }
    rewrite (IH (S idx) l); [|done|destruct (ForBlock cs); lia..|done|done|by injection Hlen|done].
    do 2 f_equal. destruct (ForBlock cs); lia.
Qed.

Lemma needed_spec T got : 0 ≤ T ≤ MaxTotalVotingPower → got ≤ Z.quot (i64 (T * 2)) 3 ↔ 3 * got ≤ 2 * T.
Proof.
  intros HT. pose proof Max_lt as (? & ? & ? & ?). rewrite is_i64_id by (unfold is_i64; lia).
  rewrite Z.quot_div_nonneg by lia. split; intros H3.
  - pose proof (Z.mul_div_le (T * 2) 3). lia.
  - apply Z.div_le_lower_bound; lia.
Qed.

(** ** VerifyCommit *)
Definition commit_matches (s : ValidatorSet) (blockID : BlockID) (height : Z) (commit : Commit) : Prop :=
  length (Validators s) = length (c_Signatures commit) ∧ height = c_Height commit ∧ blockID = c_BlockID commit.

Lemma commit_checks_spec s blockID height commit :
  commit_checks s blockID height commit = None ↔ commit_matches s blockID height commit.
Proof.
  unfold commit_checks, commit_matches, Size. case_decide as H1; [split; [done|intros (H & _); by rewrite H in H1]|].
  case_decide as H2; [split; [done|by intros (_ & ? & _)]|].
  destruct (Equals blockID (c_BlockID commit)) eqn:E; cbn.
  - apply Equals_eq in E. split; [|done]. intros _. split_and!; [lia|tauto|done].
  - split; [done|]. intros (_ & _ & E'). apply Equals_eq in E'. congruence.
Qed.

Lemma VerifyCommit_spec s blockID height commit :
  wf_vals s →
  (∃ s', VerifyCommit VerifySignature MarshalDelimited chainID blockID height commit s = Ok (None, s')) ↔
  commit_matches s blockID height commit ∧
  (∀ idx cs, c_Signatures commit !! idx = Some cs → Absent cs = false → sig_ok (Validators s) commit idx idx) ∧
  2 * power (Validators s) < 3 * weight (Validators s) (for_block (c_Signatures commit)).
Proof.
  intros Hw. pose proof (wv_pos s Hw) as Hp. pose proof (wv_max s Hw). pose proof (power_nonneg _ Hp).
  unfold VerifyCommit. rewrite (bind_run _ _ s s s) by done. rewrite <-commit_checks_spec.
  destruct (commit_checks s blockID height commit) as [e|] eqn:Ec; [split; [intros (s' & ?)|intros (? & _)]; done|].
  rewrite (bind_run _ _ s _ _ (TotalVotingPower_Ok s Hw)). apply commit_checks_spec in Ec as (Hlen & _ & _).
  cbn zeta. split.
  - intros (s' & E). split; [done|]. unfold bind, lift, outcome_bind in E.
    destruct (tally_all _ _ s chainID commit 0 (c_Signatures commit) 0) as [[got|e]| |] eqn:Et; try done.
    apply (tally_all_inl s commit 0 (c_Signatures commit) (Validators s)) in Et as [-> Hok]; [|done..].
    split; [done|]. unfold ret in E. case_decide as Hd; [done|]. rewrite needed_spec in Hd by lia. lia.
  - intros (_ & Hok & Hpow). eexists. unfold bind, lift, outcome_bind.
    rewrite (tally_all_complete s commit 0 (c_Signatures commit) (Validators s)) by done.
    unfold ret. rewrite decide_False; [done|]. rewrite needed_spec by lia. lia.
Qed.

(** ** VerifyCommitLight *)
Lemma tally_light_sound vals commit needed idx sigs l t :
  positive l → 0 ≤ t → t + power l ≤ MaxTotalVotingPower → t ≤ needed →
  l = drop idx (Validators vals) → sigs = drop idx (c_Signatures commit) → length l = length sigs →
  tally_light VerifySignature MarshalDelimited vals chainID commit needed idx sigs t = Ok None →
  ∃ n, needed < t + weight l (λ i, bool_decide (i < n)%nat && for_block sigs i) ∧
    ∀ k, (k < n)%nat → for_block sigs k = true → sig_ok (Validators vals) commit (idx + k) (idx + k).
Proof.
  revert idx l t. induction sigs as [|cs sigs IH]; intros idx l t Hp Ht Hm Hn Hl Hs Hlen E; [done|].
  destruct l as [|v l]; [done|]. symmetry in Hl, Hs.
  apply drop_cons_lookup in Hl as [Hv Hl], Hs as [Hcs Hs].
  apply Forall_cons in Hp as [Hpv Hp]. cbn in Hpv. pose proof (power_nonneg l Hp).
  assert (power (v :: l) = VotingPower v + power l) as Hpow by done.
  cbn [tally_light] in E. destruct (ForBlock cs) eqn:Ef; cbn [negb] in E.
  2: { apply (IH (S idx) l) in E as (n & Hneed & Hk); [|done|lia|lia|lia|done|done|by injection Hlen].
       exists (S n). split.
       - rewrite weight_cons. change (for_block (cs :: sigs) 0) with (ForBlock cs). rewrite Ef, andb_false_r.
         erewrite (weight_ext l); [rewrite Z.add_0_l; exact Hneed|]. intros i Hi. unfold compose.
         change (for_block (cs :: sigs) (S i)) with (for_block sigs i). f_equal. apply bool_decide_ext. lia.
       - intros [|k] Hlt Hfb; [change (ForBlock cs = true) in Hfb; congruence|].
         rewrite Nat.add_succ_r. apply (Hk k); [lia|done]. }
  assert (slice_get (Validators vals) (Z.of_nat idx) = Ok v) as Esl by (apply slice_get_Ok; rewrite Nat2Z.id; split; [lia|done]).
  rewrite Esl in E. cbn [outcome_bind] in E.
  destruct (Commit_VoteSignBytes MarshalDelimited chainID commit (Z.of_nat idx)) as [msg| |] eqn:Emsg; [|done..].
  cbn [outcome_bind] in E. unfold val_Verify in E. destruct (PubKey (val_info v)) as [k|] eqn:Ek; [|done].
  cbn [outcome_bind] in E. destruct (VerifySignature k msg (cs_Signature cs)) eqn:Ever; [|done]. cbn [negb] in E.
  assert (i64 (t + VotingPower v) = t + VotingPower v) as Hi.
  { apply (Z_i64_power t (v :: l)); [by constructor|done|lia|apply list_elem_of_here]. }
  rewrite Hi in E. assert (sig_ok (Validators vals) commit idx idx) as Hsig by (exists v, cs, k, msg; by split_and!).
  destruct (decide (t + VotingPower v > needed)) as [Hgt|Hle].
  - exists 1%nat. split.
    + rewrite weight_cons. change (for_block (cs :: sigs) 0) with (ForBlock cs). rewrite Ef.
      rewrite bool_decide_eq_true_2 by lia. cbn [andb]. rewrite weight_none; [lia|]. intros i Hi'. unfold compose. by rewrite bool_decide_eq_false_2 by lia.
    + intros [|k'] Hlt _; [by rewrite Nat.add_0_r|lia].
  - apply (IH (S idx) l) in E as (n & Hneed & Hk); [|done|lia|lia|lia|done|done|by injection Hlen].
    exists (S n). split.
    + rewrite weight_cons. change (for_block (cs :: sigs) 0) with (ForBlock cs). rewrite Ef.
      rewrite bool_decide_eq_true_2 by lia. cbn [andb].
      erewrite (weight_ext l); [rewrite Z.add_assoc; exact Hneed|]. intros i Hi'. unfold compose.
      change (for_block (cs :: sigs) (S i)) with (for_block sigs i). f_equal. apply bool_decide_ext. lia.
    + intros [|k'] Hlt Hfb; [by rewrite Nat.add_0_r|]. rewrite Nat.add_succ_r. apply (Hk k'); [lia|done].
Qed.

Lemma tally_light_complete vals commit needed idx sigs l t :
  positive l → 0 ≤ t ≤ needed → t + power l ≤ MaxTotalVotingPower →
  l = drop idx (Validators vals) → sigs = drop idx (c_Signatures commit) → length l = length sigs →
  (∀ k cs, sigs !! k = Some cs → Absent cs = false → sig_ok (Validators vals) commit (idx + k) (idx + k)) →
  needed < t + weight l (for_block sigs) →
  tally_light VerifySignature MarshalDelimited vals chainID commit needed idx sigs t = Ok None.
Proof.
  revert idx l t. induction sigs as [|cs sigs IH]; intros idx l t Hp Ht Hm Hl Hs Hlen Hok Hn.
  { destruct l; [|done]. cbn in Hn. lia. }
  destruct l as [|v l]; [done|]. symmetry in Hl, Hs.
  apply drop_cons_lookup in Hl as [Hv Hl], Hs as [Hcs Hs].
  apply Forall_cons in Hp as [Hpv Hp]. cbn in Hpv. pose proof (power_nonneg l Hp).
  assert (power (v :: l) = VotingPower v + power l) as Hpow by done.
  rewrite weight_cons, for_block_S in Hn. change (for_block (cs :: sigs) 0) with (ForBlock cs) in Hn.
  assert (∀ k cs', sigs !! k = Some cs' → Absent cs' = false → sig_ok (Validators vals) commit (S idx + k) (S idx + k)) as Hok'.
  { intros k cs' H1 H2. rewrite Nat.add_succ_l, <-Nat.add_succ_r. by apply (Hok (S k) cs'). }
  cbn [tally_light]. destruct (ForBlock cs) eqn:Ef; cbn [negb].
  2: { apply (IH (S idx) l); [done|lia|lia|done|done|by injection Hlen|done|lia]. }
  assert (Absent cs = false) as Ea.
  { unfold Absent, ForBlock in *. apply bool_decide_eq_true_1 in Ef. apply bool_decide_eq_false_2. rewrite Ef. done. }
  destruct (Hok 0%nat cs eq_refl Ea) as (v' & cs' & k & msg & Hv' & Hcs' & Hk & Emsg & Ever).
  rewrite Nat.add_0_r in *. rewrite Hv in Hv'. injection Hv' as <-. rewrite Hcs in Hcs'. injection Hcs' as <-.
  assert (slice_get (Validators vals) (Z.of_nat idx) = Ok v) as -> by (apply slice_get_Ok; rewrite Nat2Z.id; split; [lia|done]).
  cbn [outcome_bind]. rewrite Emsg. cbn [outcome_bind]. unfold val_Verify. rewrite Hk. cbn [outcome_bind].
  rewrite Ever. cbn [negb].
  assert (i64 (t + VotingPower v) = t + VotingPower v) as ->.
  { apply (Z_i64_power t (v :: l)); [by constructor|lia|lia|apply list_elem_of_here]. }
  case_decide; [done|]. apply (IH (S idx) l); [done|lia|lia|done|done|by injection Hlen|done|lia].
Qed.

Lemma VerifyCommitLight_sound s blockID height commit s' :
  wf_powers s →
  VerifyCommitLight VerifySignature MarshalDelimited chainID blockID height commit s = Ok (None, s') →
  commit_matches s blockID height commit ∧
  ∃ n, 2 * power (Validators s) < 3 * weight (Validators s) (λ i, bool_decide (i < n)%nat && for_block (c_Signatures commit) i) ∧
    ∀ k, (k < n)%nat → for_block (c_Signatures commit) k = true → sig_ok (Validators s) commit k k.
Proof.
  intros Hw. pose proof (wp_pos s Hw) as Hp. pose proof (wp_max s Hw). pose proof (power_nonneg _ Hp).
  unfold VerifyCommitLight. rewrite (bind_run _ _ s s s) by done. rewrite <-commit_checks_spec.
  destruct (commit_checks s blockID height commit) as [e|] eqn:Ec; [done|].
  rewrite (bind_run _ _ s _ _ (TotalVotingPower_powers s Hw)). apply commit_checks_spec in Ec as (Hlen & _ & _).
  cbn zeta. unfold lift, outcome_bind. intros E. split; [done|].
  destruct (tally_light _ _ s chainID commit _ 0 (c_Signatures commit) 0) as [[e|]| |] eqn:Et; try done.
  apply (tally_light_sound s commit _ 0 (c_Signatures commit) (Validators s)) in Et as (n & Hn & Hk); [|done..| |done|done|done].
  - exists n. split; [|done]. cbn in Hn. apply Z.lt_nge in Hn. rewrite needed_spec in Hn by lia. lia.
  - apply needed_spec; lia.
Qed.

Lemma VerifyCommitLight_complete s blockID height commit s' :
  wf_vals s →
  VerifyCommit VerifySignature MarshalDelimited chainID blockID height commit s = Ok (None, s') →
  ∃ s'', VerifyCommitLight VerifySignature MarshalDelimited chainID blockID height commit s = Ok (None, s'').
Proof.
  intros Hw E. pose proof (wv_pos s Hw) as Hp. pose proof (wv_max s Hw). pose proof (power_nonneg _ Hp).
  destruct (proj1 (VerifyCommit_spec s blockID height commit Hw)) as (Hm & Hok & Hpow); [eauto|].
  unfold VerifyCommitLight. rewrite (bind_run _ _ s s s) by done.
  rewrite (proj2 (commit_checks_spec s blockID height commit) Hm).
  rewrite (bind_run _ _ s _ _ (TotalVotingPower_Ok s Hw)). cbn zeta. unfold lift.
  rewrite (tally_light_complete s commit _ 0 (c_Signatures commit) (Validators s)); [by eexists|done..| |done|done|done|apply Hm|done|].
  - split; [lia|]. apply needed_spec; lia.
  - apply Z.lt_nge. rewrite needed_spec by lia. lia.
Qed.

(** ** VerifyCommitLightTrusting *)
(** The validator at index [i] signed the commit's block. *)
Definition signed_block (l : list Validator) (commit : Commit) (i : nat) : Prop :=
  ∃ idx cs v, c_Signatures commit !! idx = Some cs ∧ ForBlock cs = true ∧ l !! i = Some v ∧
    cs_ValidatorAddress cs = Address (val_info v) ∧ sig_ok l commit i idx.

Lemma find_address_index l z a (v : Validator) : ∀ j, find_address z l a = (j, Some v) →
  z ≤ j ∧ l !! Z.to_nat (j - z) = Some v ∧ Address v = a.
Proof.
  revert z. induction l as [|w l IH]; intros z j; cbn [find_address]; [done|]. case_decide as E.
  - intros [= <- <-]. rewrite Z.sub_diag. split_and!; [lia|done|done].
  - intros H%IH. destruct H as (H1 & H2 & H3). split_and!; [lia| |done].
    replace (Z.to_nat (j - z)) with (S (Z.to_nat (j - (z + 1)))) by lia. done.
Qed.

Lemma list_find_None_fst (seen : list (Z * nat)) j :
  list_find (λ e, e.1 = j) seen = None → ∀ e, e ∈ seen → e.1 ≠ j.
Proof. intros H e He E. apply list_find_None in H. by apply (proj1 (Forall_forall _ _) H e He). Qed.

Definition seen_set (seen : list (Z * nat)) (i : nat) : bool := bool_decide (Z.of_nat i ∈ seen.*1).

Lemma tally_trusting_sound vals commit needed idx sigs seen t :
  wf_powers vals → t ≤ needed → sigs = drop idx (c_Signatures commit) →
  t = weight (Validators vals) (seen_set seen) →
  (∀ i, seen_set seen i = true → signed_block (Validators vals) commit i) →
  tally_trusting VerifySignature MarshalDelimited vals chainID commit needed idx sigs seen t = Ok None →
  ∃ P, needed < weight (Validators vals) P ∧ ∀ i, P i = true → signed_block (Validators vals) commit i.
Proof.
  intros Hw. revert idx seen t. induction sigs as [|cs sigs IH]; intros idx seen t Hn Hs Ht Hseen E; [done|].
  symmetry in Hs. apply drop_cons_lookup in Hs as [Hcs Hs]. cbn [tally_trusting] in E.
  destruct (ForBlock cs) eqn:Ef; cbn [negb] in E; [|by eapply IH].
  destruct (GetByAddress vals (cs_ValidatorAddress cs)) as [j [v|]] eqn:Eg; [|by eapply IH].
  destruct (list_find (λ e, e.1 = j) seen) as [[? [? ?]]|] eqn:El; [done|].
  destruct (Commit_VoteSignBytes MarshalDelimited chainID commit (Z.of_nat idx)) as [msg| |] eqn:Emsg; [|done..].
  cbn [outcome_bind] in E. unfold val_Verify in E. destruct (PubKey (val_info v)) as [k|] eqn:Ek; [|done].
  cbn [outcome_bind] in E. destruct (VerifySignature k msg (cs_Signature cs)) eqn:Ever; [|done]. cbn [negb] in E.
  apply find_address_index in Eg as (Hj & Hv & Ha). rewrite Z.sub_0_r in Hv.
  assert (seen_set seen (Z.to_nat j) = false) as Hnew.
  { apply bool_decide_eq_false_2. intros (e & E' & He)%list_elem_of_fmap.
    apply (list_find_None_fst seen j El e He). lia. }
  assert (weight (Validators vals) (seen_set ((j, idx) :: seen)) = t + VotingPower v) as Hw'.
  { rewrite Ht, <-(weight_insert _ _ _ v Hv Hnew). apply weight_ext. intros i _. unfold seen_set.
    rewrite fmap_cons. cbn [fst]. destruct (decide (i = Z.to_nat j)) as [->|Hne].
    - rewrite (bool_decide_eq_true_2 (Z.to_nat j = Z.to_nat j)) by done. apply bool_decide_eq_true_2.
      apply elem_of_cons. left. lia.
    - rewrite (bool_decide_eq_false_2 (i = Z.to_nat j)) by done. cbn. apply bool_decide_ext.
      rewrite elem_of_cons. split; [intros [?|?]; [lia|done]|by right]. }
  assert (∀ i, seen_set ((j, idx) :: seen) i = true → signed_block (Validators vals) commit i) as Hseen'.
  { intros i Hi%bool_decide_eq_true_1. rewrite fmap_cons in Hi. apply elem_of_cons in Hi as [Hi|Hi].
    - cbn in Hi. replace i with (Z.to_nat j) by lia. exists idx, cs, v. split_and!; try done.
      exists v, cs, k, msg. by split_and!.
    - apply Hseen. by apply bool_decide_eq_true_2. }
  pose proof (weight_bounds (Validators vals) (seen_set ((j, idx) :: seen)) (wp_pos vals Hw)) as Hb.
  pose proof (wp_max vals Hw). pose proof Max_lt as (? & ? & ? & ?).
  rewrite is_i64_id in E by (unfold is_i64; lia).
  destruct (decide (t + VotingPower v > needed)) as [Hgt|Hle].
  - exists (seen_set ((j, idx) :: seen)). split; [lia|done].
  - eapply (IH (S idx) ((j, idx) :: seen)); [| |symmetry| |]; eauto; lia.
Qed.

Lemma VerifyCommitLightTrusting_sound s commit numerator denominator s' :
  wf_powers s → 0 ≤ numerator < 2 ^ 63 → 0 < denominator < 2 ^ 63 →
  VerifyCommitLightTrusting VerifySignature MarshalDelimited chainID commit numerator denominator s = Ok (None, s') →
  ∃ P, power (Validators s) * numerator < denominator * weight (Validators s) P ∧ ∀ i, P i = true → signed_block (Validators s) commit i.
Proof.
  intros Hw Hnum Hden E. pose proof (wp_pos s Hw) as Hp. pose proof (wp_max s Hw). pose proof (power_nonneg _ Hp).
  pose proof Max_lt as (? & ? & ? & ?).
  unfold VerifyCommitLightTrusting in E. rewrite decide_False in E by lia. rewrite (bind_run _ _ s s s) in E by done.
  rewrite (bind_run _ _ s _ _ (TotalVotingPower_powers s Hw)) in E.
  rewrite !is_i64_id in E by (unfold is_i64; lia). rewrite safeMul_spec in E by lia.
  case_decide as Hfit; [|done]. unfold lift, outcome_bind in E.
  destruct (tally_trusting _ _ s chainID commit _ 0 (c_Signatures commit) [] 0) as [[e|]| |] eqn:Et; try done.
  rewrite Z.quot_div_nonneg in Et by nia.
  apply tally_trusting_sound in Et as (P & HP & Hsig); [|done|apply Z.div_pos; nia|done| |].
  - exists P. split; [|done]. apply Z.lt_nge. intros Hle. apply Z.div_le_mono with (c := denominator) in Hle; [|lia].
    rewrite Z.mul_comm, Z.div_mul in Hle by lia. lia.
  - symmetry. apply weight_none. intros i _. apply bool_decide_eq_false_2. apply not_elem_of_nil.
  - intros i Hi%bool_decide_eq_true_1. by apply elem_of_nil in Hi.
Qed.

(** C10: VerifyCommit accepts a commit exactly when it is for the given block and height,
    has one slot per validator, every slot that is not absent carries a valid signature of
    the validator at that index over the canonical vote it stands for, and the
    validators that signed for the block hold more than two thirds of the voting power. *)
Theorem VerifyCommit_correct s blockID height commit :
  wf_vals s →
  (∃ s', VerifyCommit VerifySignature MarshalDelimited chainID blockID height commit s = Ok (None, s')) ↔
  commit_matches s blockID height commit ∧
  (∀ idx cs, c_Signatures commit !! idx = Some cs → Absent cs = false → sig_ok (Validators s) commit idx idx) ∧
  2 * power (Validators s) < 3 * weight (Validators s) (for_block (c_Signatures commit)).
Proof. apply VerifyCommit_spec. Qed.

(** The two early-returning methods: what VerifyCommit accepts VerifyCommitLight accepts;
    what VerifyCommitLight accepts has valid signatures for the block by more than two
    thirds of the power; and what VerifyCommitLightTrusting accepts has valid signatures
    for the block by distinct validators of the given set with more than the given
    fraction of its power. *)
Theorem light_verification s blockID height commit numerator denominator :
  wf_vals s → 0 ≤ numerator < 2 ^ 63 → 0 < denominator < 2 ^ 63 →
  ((∃ s', VerifyCommit VerifySignature MarshalDelimited chainID blockID height commit s = Ok (None, s')) →
   ∃ s', VerifyCommitLight VerifySignature MarshalDelimited chainID blockID height commit s = Ok (None, s')) ∧
  ((∃ s', VerifyCommitLight VerifySignature MarshalDelimited chainID blockID height commit s = Ok (None, s')) →
   commit_matches s blockID height commit ∧
   ∃ P, 2 * power (Validators s) < 3 * weight (Validators s) P ∧
     ∀ i, P i = true → for_block (c_Signatures commit) i = true ∧ sig_ok (Validators s) commit i i) ∧
  ((∃ s', VerifyCommitLightTrusting VerifySignature MarshalDelimited chainID commit numerator denominator s = Ok (None, s')) →
   ∃ P, power (Validators s) * numerator < denominator * weight (Validators s) P ∧
     ∀ i, P i = true → signed_block (Validators s) commit i).
Proof.
  intros Hw Hnum Hden. split_and!.
  - intros (s' & E). by eapply VerifyCommitLight_complete.
  - intros (s' & E). destruct (VerifyCommitLight_sound _ _ _ _ _ (wf_vals_powers s Hw) E) as (Hm & n & Hn & Hk). split; [done|].
    eexists. split; [exact Hn|]. intros i [Hi%bool_decide_eq_true_1 Hf]%andb_true_iff. split; [done|by apply Hk].
  - intros (s' & E). eapply VerifyCommitLightTrusting_sound; [by apply wf_vals_powers|done|done|exact E].
Qed.

(** C9: Accountability: if VerifyCommit accepts commits for two different blocks (of one height, for
    the same validators), then validators with more than a third of the voting power
    signed for both blocks. *)
Theorem conflicting_commits s b1 b2 height c1 c2 :
  wf_vals s →
  (∃ s', VerifyCommit VerifySignature MarshalDelimited chainID b1 height c1 s = Ok (None, s')) →
  (∃ s', VerifyCommit VerifySignature MarshalDelimited chainID b2 height c2 s = Ok (None, s')) →
  ∃ P, power (Validators s) < 3 * weight (Validators s) P ∧
    ∀ i, P i = true →
      for_block (c_Signatures c1) i = true ∧ sig_ok (Validators s) c1 i i ∧ c_BlockID c1 = b1 ∧
      for_block (c_Signatures c2) i = true ∧ sig_ok (Validators s) c2 i i ∧ c_BlockID c2 = b2.
Proof.
  intros Hw H1 H2. apply VerifyCommit_spec in H1 as ((_ & _ & Hb1) & Hok1 & Hp1); [|done].
  apply VerifyCommit_spec in H2 as ((_ & _ & Hb2) & Hok2 & Hp2); [|done].
  exists (λ i, for_block (c_Signatures c1) i && for_block (c_Signatures c2) i).
  split; [by apply weight_quorums; [apply Hw|..]|]. intros i [F1 F2]%andb_true_iff.
  assert (∀ c, (∀ idx cs, c_Signatures c !! idx = Some cs → Absent cs = false → sig_ok (Validators s) c idx idx) →
    for_block (c_Signatures c) i = true → sig_ok (Validators s) c i i) as Hsig.
  { intros c Hok Hf. unfold for_block in Hf. destruct (c_Signatures c !! i) as [cs|] eqn:E; [|done].
    apply (Hok i cs E). unfold ForBlock, Absent in *. apply bool_decide_eq_true_1 in Hf.
    apply bool_decide_eq_false_2. rewrite Hf. done. }
  split_and!; auto.
Qed.
End verify.

(** ** Concrete commits *)
Definition sample_sign (k msg : bytes) : bytes := k ++ msg.
Definition sample_verify (k msg sig : bytes) : bool := bool_decide (sig = sample_sign k msg).
Definition sample_marshal (cv : CanonicalVote) : bytes :=
  [cv_Type cv; cv_Height cv; cv_Round cv; cv_Timestamp cv] ++
  match cv_BlockID cv with Some b => 1 :: bid_Hash b | None => [0] end ++ cv_ChainID cv.
(** Addresses are keys. *)
Definition sample_key_Address (k : bytes) : bytes := k.

Definition sample_id (x : Z) : BlockID :=
  {| bid_Hash := replicate 32 x; bid_PartSetHeader := {| psh_Total := 1; psh_Hash := replicate 32 x |} |}.

Definition sample_msg (b : BlockID) : bytes :=
  sample_marshal {| cv_Type := PrecommitType; cv_Height := 5; cv_Round := 0;
                    cv_BlockID := if IsZero b then None else Some b; cv_Timestamp := 9; cv_ChainID := [7] |}.

Definition sample_commitsig (i : Z) (b : BlockID) : CommitSig :=
  {| cs_BlockIDFlag := if IsZero b then BlockIDFlagNil else BlockIDFlagCommit;
     cs_ValidatorAddress := [i]; cs_Timestamp := 9; cs_Signature := sample_sign [i] (sample_msg b) |}.

(** The validators with powers 5 and 3 of 10 sign the block, the third votes nil. *)
Definition sample_commit (x : Z) : Commit :=
  {| c_Height := 5; c_Round := 0; c_BlockID := sample_id x;
     c_Signatures := [sample_commitsig 1 (sample_id x); sample_commitsig 2 (sample_id x);
                      sample_commitsig 3 BlockID_nil] |}.

Lemma sample_commit_verified x : x = 1 ∨ x = 2 →
  ∃ s', VerifyCommit sample_verify sample_marshal [7] (sample_id x) 5 (sample_commit x) sample_set = Ok (None, s').
Proof. intros [->| ->]; eexists; vm_compute; reflexivity. Qed.

Lemma VerifyCommit_correct_witness :
  2 * 10 < 3 * weight (Validators sample_set) (for_block (c_Signatures (sample_commit 1))).
Proof.
  destruct (proj1 (VerifyCommit_correct sample_verify sample_marshal [7] sample_set (sample_id 1) 5 (sample_commit 1)
    (bal_wf _ sample_set_balanced)) (sample_commit_verified 1 ltac:(by left))) as (_ & _ & H).
  exact H.
Defined.

Lemma light_verification_witness :
  ∃ s', VerifyCommitLight sample_verify sample_marshal [7] (sample_id 1) 5 (sample_commit 1) sample_set = Ok (None, s').
Proof.
  destruct (light_verification sample_verify sample_marshal [7] sample_set (sample_id 1) 5 (sample_commit 1) 1 3
    (bal_wf _ sample_set_balanced)) as [H _]; [lia|lia|].
  apply H, sample_commit_verified. by left.
Defined.

Lemma conflicting_commits_witness :
  ∃ P, power (Validators sample_set) < 3 * weight (Validators sample_set) P.
Proof.
  destruct (conflicting_commits sample_verify sample_marshal [7] sample_set (sample_id 1) (sample_id 2) 5
    (sample_commit 1) (sample_commit 2) (bal_wf _ sample_set_balanced)) as (P & H & _).
  - apply sample_commit_verified. by left.
  - apply sample_commit_verified. by right.
  - exists P. exact H.
Defined.
