(* ===== verification/TmVotes.v ===== *)
(** Vote sets (src/sourcecodes/tendermint/types/vote_set.go): data, operations, invariant.

    A [VoteSet] collects the votes of one height, round and type.  Methods are computations
    on the receiver; the nil receiver is treated where the code tests for it.  The maps are
    keyed by [BlockID.Key]. *)

From S2P Require Import Prelude TmBits TmValidators TmPriority TmValUpdate TmTypes TmCommit.

Record blockVotes := mkBlockVotes {
  peerMaj23 : bool;
  bv_bitArray : option BitArray;
  bv_votes : list (option Vote);
  bv_sum : Z;
}.

Record VoteSet := mkVoteSet {
  chainID : bytes;
  height : Z;
  round : Z;
  signedMsgType : Z;
  valSet : ValidatorSet;
  votesBitArray : option BitArray;
  votes : list (option Vote);
  sum : Z;
  maj23 : option BlockID;
  votesByBlock : gmap bytes blockVotes;
  peerMaj23s : gmap bytes BlockID;
}.

Definition set_valSet (x : ValidatorSet) (vs : VoteSet) : VoteSet :=
  mkVoteSet (chainID vs) (height vs) (round vs) (signedMsgType vs) x (votesBitArray vs) (votes vs)
    (sum vs) (maj23 vs) (votesByBlock vs) (peerMaj23s vs).
Definition set_votesBitArray (x : option BitArray) (vs : VoteSet) : VoteSet :=
  mkVoteSet (chainID vs) (height vs) (round vs) (signedMsgType vs) (valSet vs) x (votes vs)
    (sum vs) (maj23 vs) (votesByBlock vs) (peerMaj23s vs).
Definition set_votes (x : list (option Vote)) (vs : VoteSet) : VoteSet :=
  mkVoteSet (chainID vs) (height vs) (round vs) (signedMsgType vs) (valSet vs) (votesBitArray vs) x
    (sum vs) (maj23 vs) (votesByBlock vs) (peerMaj23s vs).
Definition set_sum (x : Z) (vs : VoteSet) : VoteSet :=
  mkVoteSet (chainID vs) (height vs) (round vs) (signedMsgType vs) (valSet vs) (votesBitArray vs) (votes vs)
    x (maj23 vs) (votesByBlock vs) (peerMaj23s vs).
Definition set_maj23 (x : option BlockID) (vs : VoteSet) : VoteSet :=
  mkVoteSet (chainID vs) (height vs) (round vs) (signedMsgType vs) (valSet vs) (votesBitArray vs) (votes vs)
    (sum vs) x (votesByBlock vs) (peerMaj23s vs).
Definition set_votesByBlock (x : gmap bytes blockVotes) (vs : VoteSet) : VoteSet :=
  mkVoteSet (chainID vs) (height vs) (round vs) (signedMsgType vs) (valSet vs) (votesBitArray vs) (votes vs)
    (sum vs) (maj23 vs) x (peerMaj23s vs).
Definition set_peerMaj23s (x : gmap bytes BlockID) (vs : VoteSet) : VoteSet :=
  mkVoteSet (chainID vs) (height vs) (round vs) (signedMsgType vs) (valSet vs) (votesBitArray vs) (votes vs)
    (sum vs) (maj23 vs) (votesByBlock vs) x.

Definition NewVoteSet (chainID : bytes) (height round signedMsgType : Z) (valSet : ValidatorSet) : outcome VoteSet :=
  if decide (height = 0) then Panic else
  Ok {| chainID := chainID; height := height; round := round; signedMsgType := signedMsgType;
        valSet := valSet; votesBitArray := NewBitArray (Size valSet);
        votes := replicate (Z.to_nat (Size valSet)) None; sum := 0; maj23 := None;
        votesByBlock := ∅; peerMaj23s := ∅ |}.

(** ** Votes for one block *)
Definition newBlockVotes (peerMaj23 : bool) (numValidators : Z) : blockVotes :=
  {| peerMaj23 := peerMaj23; bv_bitArray := NewBitArray numValidators;
     bv_votes := replicate (Z.to_nat numValidators) None; bv_sum := 0 |}.

Definition bv_addVerifiedVote (bv : blockVotes) (vote : Vote) (votingPower : Z) : outcome blockVotes :=
  let valIndex := v_ValidatorIndex vote in
  let! existing := slice_get (bv_votes bv) valIndex in
  match existing with
  | Some _ => Ok bv
  | None =>
      let! (_, ba) := SetIndex (bv_bitArray bv) valIndex true in
      let! vs := slice_set (bv_votes bv) valIndex (Some vote) in
      Ok {| peerMaj23 := peerMaj23 bv; bv_bitArray := ba; bv_votes := vs; bv_sum := i64 (bv_sum bv + votingPower) |}
  end.

(** The receiver is nil when the map has no entry. *)
Definition bv_getByIndex (bv : option blockVotes) (index : Z) : outcome (option Vote) :=
  match bv with None => Ok None | Some b => slice_get (bv_votes b) index end.

(** ** Adding votes *)
Inductive vote_error :=
| ErrVoteNil | ErrVoteInvalidValidatorIndex | ErrVoteInvalidValidatorAddress | ErrVoteUnexpectedStep
| ErrVoteNonDeterministicSignature | ErrVoteInvalidSignature | ErrVoteConflictingVotes (a b : Vote).

Definition getVote (valIndex : Z) (blockKey : bytes) : M VoteSet (option Vote) :=
  vs <- gets id ;;
  existing <- lift (slice_get (votes vs) valIndex) ;;
  let found := match existing with
               | Some v => bool_decide (Key (v_BlockID v) = blockKey)
               | None => false
               end in
  if found then ret existing
  else lift (bv_getByIndex (votesByBlock vs !! blockKey) valIndex).

Definition store_vote (valIndex : Z) (vote : Vote) : M VoteSet unit :=
  vs <- gets id ;;
  l <- lift (slice_set (votes vs) valIndex (Some vote)) ;;
  modify (set_votes l) ;;;
  r <- lift (SetIndex (votesBitArray vs) valIndex true) ;;
  modify (set_votesBitArray r.2).

(** [for i, vote := range votesByBlock.votes { if vote != nil { voteSet.votes[i] = vote } }] *)
Fixpoint copy_votes (i : Z) (from : list (option Vote)) : M VoteSet unit :=
  match from with
  | [] => ret tt
  | None :: from' => copy_votes (i + 1) from'
  | Some v :: from' =>
      vs <- gets id ;;
      l <- lift (slice_set (votes vs) i (Some v)) ;;
      modify (set_votes l) ;;;
      copy_votes (i + 1) from'
  end.

(** The result is whether the vote was added, and the conflicting vote. *)
Definition addVerifiedVote (vote : Vote) (blockKey : bytes) (votingPower : Z) : M VoteSet (bool * option Vote) :=
  let valIndex := v_ValidatorIndex vote in
  vs0 <- gets id ;;
  existing <- lift (slice_get (votes vs0) valIndex) ;;
  conflicting <-
    match existing with
    | Some ex =>
        if Equals (v_BlockID ex) (v_BlockID vote) then panic else
        let replace := match maj23 vs0 with
                       | Some m => bool_decide (Key m = blockKey)
                       | None => false
                       end in
        (if replace then store_vote valIndex vote else ret tt) ;;;
        ret (Some ex)
    | None =>
        store_vote valIndex vote ;;;
        modify (λ vs, set_sum (i64 (sum vs + votingPower)) vs) ;;;
        ret None
    end ;;
  vs1 <- gets id ;;
  let track :=
    match votesByBlock vs1 !! blockKey with
    | Some bv => if bool_decide (conflicting ≠ None) && negb (peerMaj23 bv) then None else Some bv
    | None => if bool_decide (conflicting ≠ None) then None else Some (newBlockVotes false (Size (valSet vs1)))
    end in
  match track with
  | None => ret (false, conflicting)
  | Some bv =>
      total <- zoom valSet set_valSet TotalVotingPower ;;
      let quorum := i64 (Z.quot (i64 (total * 2)) 3 + 1) in
      bv' <- lift (bv_addVerifiedVote bv vote votingPower) ;;
      modify (λ vs, set_votesByBlock (<[blockKey := bv']> (votesByBlock vs)) vs) ;;;
      vs2 <- gets id ;;
      (if decide (bv_sum bv < quorum ∧ quorum ≤ bv_sum bv' ∧ maj23 vs2 = None) then
         modify (set_maj23 (Some (v_BlockID vote))) ;;;
         copy_votes 0 (bv_votes bv')
       else ret tt) ;;;
      ret (true, conflicting)
  end.

Section crypto.
Context (VerifySignature : bytes → bytes → bytes → bool) (key_Address : bytes → bytes)
        (MarshalDelimited : CanonicalVote → bytes).

Definition addVote (vote : option Vote) : M VoteSet (bool * option vote_error) :=
  match vote with
  | None => ret (false, Some ErrVoteNil)
  | Some vote =>
      let valIndex := v_ValidatorIndex vote in
      let valAddr := v_ValidatorAddress vote in
      let blockKey := Key (v_BlockID vote) in
      vs <- gets id ;;
      if decide (valIndex < 0) then ret (false, Some ErrVoteInvalidValidatorIndex)
      else if decide (valAddr = []) then ret (false, Some ErrVoteInvalidValidatorAddress)
      else if decide (v_Height vote ≠ height vs ∨ v_Round vote ≠ round vs ∨ v_Type vote ≠ signedMsgType vs)
      then ret (false, Some ErrVoteUnexpectedStep)
      else
        match GetByIndex (valSet vs) valIndex with
        | None => ret (false, Some ErrVoteInvalidValidatorIndex)
        | Some (lookupAddr, val) =>
            if decide (valAddr ≠ lookupAddr) then ret (false, Some ErrVoteInvalidValidatorAddress) else
            existing <- getVote valIndex blockKey ;;
            match existing with
            | Some ex =>
                if decide (v_Signature ex = v_Signature vote) then ret (false, None)
                else ret (false, Some ErrVoteNonDeterministicSignature)
            | None =>
                e <- lift (Vote_Verify VerifySignature key_Address MarshalDelimited vote (chainID vs) (PubKey val)) ;;
                match e with
                | Some VerifyWrongAddress => ret (false, Some ErrVoteInvalidValidatorAddress)
                | Some VerifyWrongSignature => ret (false, Some ErrVoteInvalidSignature)
                | None =>
                    r <- addVerifiedVote vote blockKey (VotingPower val) ;;
                    match r with
                    | (added, Some c) => ret (added, Some (ErrVoteConflictingVotes c vote))
                    | (true, None) => ret (true, None)
                    | (false, None) => panic
                    end
                end
            end
        end
  end.

(** Methods with a test for a nil receiver. *)
Definition AddVote (voteSet : option VoteSet) (vote : option Vote) : outcome (bool * option vote_error * VoteSet) :=
  match voteSet with None => Panic | Some vs => addVote vote vs end.
End crypto.

Inductive peer_error := ErrConflictingPeerMaj23.

Definition SetPeerMaj23 (peerID : bytes) (blockID : BlockID) : M VoteSet (option peer_error) :=
  let blockKey := Key blockID in
  vs <- gets id ;;
  match peerMaj23s vs !! peerID with
  | Some existing =>
      if Equals existing blockID then ret None else ret (Some ErrConflictingPeerMaj23)
  | None =>
      modify (λ vs, set_peerMaj23s (<[peerID := blockID]> (peerMaj23s vs)) vs) ;;;
      vs1 <- gets id ;;
      match votesByBlock vs1 !! blockKey with
      | Some bv =>
          if peerMaj23 bv then ret None else
          modify (λ vs, set_votesByBlock (<[blockKey := {| peerMaj23 := true; bv_bitArray := bv_bitArray bv;
            bv_votes := bv_votes bv; bv_sum := bv_sum bv |}]> (votesByBlock vs)) vs) ;;;
          ret None
      | None =>
          modify (λ vs, set_votesByBlock (<[blockKey := newBlockVotes true (Size (valSet vs))]> (votesByBlock vs)) vs) ;;;
          ret None
      end
  end.

(** ** Reading *)
Definition VoteSet_BitArray (voteSet : option VoteSet) : option BitArray :=
  match voteSet with None => None | Some vs => Copy (votesBitArray vs) end.
Definition BitArrayByBlockID (voteSet : option VoteSet) (blockID : BlockID) : option BitArray :=
  match voteSet with
  | None => None
  | Some vs => match votesByBlock vs !! Key blockID with Some bv => Copy (bv_bitArray bv) | None => None end
  end.
Definition VoteSet_GetByIndex (voteSet : option VoteSet) (valIndex : Z) : outcome (option Vote) :=
  match voteSet with None => Ok None | Some vs => slice_get (votes vs) valIndex end.
Definition VoteSet_List (voteSet : option VoteSet) : list Vote :=
  match voteSet with None => [] | Some vs => omap id (votes vs) end.
Definition VoteSet_GetByAddress (voteSet : option VoteSet) (address : bytes) : outcome (option Vote) :=
  match voteSet with
  | None => Ok None
  | Some vs =>
      match GetByAddress (valSet vs) address with
      | (_, None) => Panic
      | (valIndex, Some _) => slice_get (votes vs) valIndex
      end
  end.
Definition HasTwoThirdsMajority (voteSet : option VoteSet) : bool :=
  match voteSet with None => false | Some vs => bool_decide (maj23 vs ≠ None) end.
Definition VoteSet_IsCommit (voteSet : option VoteSet) : bool :=
  match voteSet with
  | None => false
  | Some vs => if decide (signedMsgType vs ≠ PrecommitType) then false else bool_decide (maj23 vs ≠ None)
  end.
Definition HasTwoThirdsAny : M VoteSet bool :=
  s <- gets sum ;;
  total <- zoom valSet set_valSet TotalVotingPower ;;
  ret (bool_decide (s > Z.quot (i64 (total * 2)) 3)).
Definition HasAll : M VoteSet bool :=
  s <- gets sum ;;
  total <- zoom valSet set_valSet TotalVotingPower ;;
  ret (bool_decide (s = total)).
Definition TwoThirdsMajority (voteSet : option VoteSet) : BlockID * bool :=
  match voteSet with
  | None => (BlockID_nil, false)
  | Some vs => match maj23 vs with Some b => (b, true) | None => (BlockID_nil, false) end
  end.

(** ** MakeCommit *)
Fixpoint commit_sigs (m : BlockID) (l : list (option Vote)) : outcome (list CommitSig) :=
  match l with
  | [] => Ok []
  | v :: l' =>
      let! cs := Vote_CommitSig v in
      let cs' := match v with
                 | Some w => if ForBlock cs && negb (Equals (v_BlockID w) m) then NewCommitSigAbsent else cs
                 | None => cs
                 end in
      let! r := commit_sigs m l' in
      Ok (cs' :: r)
  end.

Definition MakeCommit (vs : VoteSet) : outcome Commit :=
  if decide (signedMsgType vs ≠ PrecommitType) then Panic else
  match maj23 vs with
  | None => Panic
  | Some m =>
      let! sigs := commit_sigs m (votes vs) in
      Ok {| c_Height := height vs; c_Round := round vs; c_BlockID := m; c_Signatures := sigs |}
  end.
