(* ===== verification/TmVoteInv.v ===== *)
(** The invariant of vote sets and its preservation.

    [vinv]: the bit arrays and the sums agree with the votes, the votes are valid, nobody is in
    the votes of a block without having a canonical vote, and [maj23] is set exactly when some
    block has more than two thirds of the power, whose votes are then the canonical ones. *)

From S2P Require Import Prelude TmBits TmValidators TmPriority TmValUpdate TmTypes TmCommit TmVotes.

Section inv.
Context (VerifySignature : bytes → bytes → bytes → bool) (key_Address : bytes → bytes)
        (MarshalDelimited : CanonicalVote → bytes).

(** A vote that was verified for the validator at an index. *)
Record valid_vote (vs : VoteSet) (i : nat) (v : Vote) : Prop := {
  vv_index : v_ValidatorIndex v = Z.of_nat i;
  vv_step : v_Height v = height vs ∧ v_Round v = round vs ∧ v_Type v = signedMsgType vs;
  vv_block : proper_id (v_BlockID v);
  vv_signed : ∃ val : Validator, Validators (valSet vs) !! i = Some val ∧ v_ValidatorAddress v = Address val ∧
    Vote_Verify VerifySignature key_Address MarshalDelimited v (chainID vs) (PubKey val) = Ok None;
}.

(** Which validators have a vote in a list. *)
Definition voted (l : list (option Vote)) (i : nat) : bool :=
  match l !! i with Some (Some _) => true | _ => false end.

Definition bits_agree (n : nat) (ba : option BitArray) (l : list (option Vote)) : Prop :=
  good ba ∧ TmBits.Size ba = Z.of_nat n ∧ ∀ i, (i < n)%nat → has ba (Z.of_nat i) = voted l i.

Record bvinv (vs : VoteSet) (key : bytes) (bv : blockVotes) : Prop := {
  bi_len : length (bv_votes bv) = length (Validators (valSet vs));
  bi_bits : bits_agree (length (Validators (valSet vs))) (bv_bitArray bv) (bv_votes bv);
  bi_sum : bv_sum bv = weight (Validators (valSet vs)) (voted (bv_votes bv));
  bi_votes : ∀ i v, bv_votes bv !! i = Some (Some v) →
    valid_vote vs i v ∧ Key (v_BlockID v) = key ∧ voted (votes vs) i = true;
}.

(** Every validator that voted for [b] has its canonical vote for [b]. *)
Definition canonical (vs : VoteSet) (b : BlockID) (bv : blockVotes) : Prop :=
  ∀ i, voted (bv_votes bv) i = true → ∃ v, votes vs !! i = Some (Some v) ∧ Key (v_BlockID v) = Key b.

Definition maj_inv (vs : VoteSet) : Prop :=
  match maj23 vs with
  | None => ∀ key bv, votesByBlock vs !! key = Some bv → 3 * bv_sum bv ≤ 2 * power (Validators (valSet vs))
  | Some b => proper_id b ∧ ∃ bv, votesByBlock vs !! Key b = Some bv ∧
      2 * power (Validators (valSet vs)) < 3 * bv_sum bv ∧ canonical vs b bv
  end.

Record vinv (vs : VoteSet) : Prop := {
  vi_vals : wf_vals (valSet vs);
  vi_len : length (votes vs) = length (Validators (valSet vs));
  vi_bits : bits_agree (length (Validators (valSet vs))) (votesBitArray vs) (votes vs);
  vi_sum : sum vs = weight (Validators (valSet vs)) (voted (votes vs));
  vi_votes : ∀ i v, votes vs !! i = Some (Some v) → valid_vote vs i v;
  vi_blocks : ∀ key bv, votesByBlock vs !! key = Some bv → bvinv vs key bv;
  vi_maj : maj_inv vs;
}.

(** ** Lists of votes *)
Lemma voted_insert l i v j : (i < length l)%nat →
  voted (<[i := Some v]> l) j = bool_decide (j = i) || voted l j.
Proof.
  intros Hi. unfold voted. destruct (decide (j = i)) as [->|Hne].
  - by rewrite list_lookup_insert_eq, bool_decide_eq_true_2 by done.
  - by rewrite list_lookup_insert_ne, bool_decide_eq_false_2 by done.
Qed.

Lemma voted_true l i : voted l i = true ↔ ∃ v, l !! i = Some (Some v).
Proof. unfold voted. destruct (l !! i) as [[v|]|]; naive_solver. Qed.

Lemma voted_replicate n i : voted (replicate n None) i = false.
Proof.
  unfold voted. destruct (replicate n None !! i) as [o|] eqn:E; [|done].
  by apply lookup_replicate in E as [-> _].
Qed.

Lemma bits_insert n ba l i v : bits_agree n ba l → length l = n → (i < n)%nat →
  ∃ b ba', SetIndex ba (Z.of_nat i) true = Ok (b, ba') ∧ bits_agree n ba' (<[i := Some v]> l).
Proof.
  intros (Hg & Hs & Hh) Hl Hi. destruct (SetIndex_spec ba (Z.of_nat i) true) as (c & E & Hg' & Hs' & Hh'); [done|lia|].
  exists (bool_decide (Z.of_nat i < TmBits.Size ba)), c. split; [done|]. split_and!; [done|lia|].
  intros j Hj. rewrite Hh', voted_insert by lia. destruct (decide (j = i)) as [->|Hne].
  - by rewrite decide_True, bool_decide_eq_true_2 by (done || lia).
  - rewrite decide_False, bool_decide_eq_false_2 by (done || lia). cbn. by apply Hh.
Qed.

(** The votes of one block copied over the canonical ones. *)
Definition merge_votes (old from : list (option Vote)) : list (option Vote) :=
  zip_with (λ o f, match f with Some _ => f | None => o end) old from.

Lemma copy_votes_run from : ∀ vs pre suf,
  votes vs = pre ++ suf → length suf = length from →
  copy_votes (Z.of_nat (length pre)) from vs = Ok (tt, set_votes (pre ++ merge_votes suf from) vs).
Proof.
  induction from as [|f from IH]; intros vs pre suf Hv Hl.
  { destruct suf; [|done]. cbn. rewrite <-Hv. by destruct vs. }
  destruct suf as [|o suf]; [done|]. injection Hl as Hl. destruct f as [v|]; cbn [copy_votes].
  - rewrite (bind_run _ _ vs vs vs) by done.
    assert (slice_set (votes vs) (Z.of_nat (length pre)) (Some v) = Ok ((pre ++ [Some v]) ++ suf)) as E.
    { rewrite Hv, slice_set_Ok by (rewrite length_app; cbn; lia). rewrite Nat2Z.id.
      replace (length pre) with (length pre + 0)%nat at 1 by lia. rewrite insert_app_r, <-app_assoc. done. }
    rewrite (bind_run _ _ vs ((pre ++ [Some v]) ++ suf) vs) by (unfold lift; by rewrite E).
    rewrite (bind_run _ _ vs tt (set_votes ((pre ++ [Some v]) ++ suf) vs)) by done.
    replace (Z.of_nat (length pre) + 1) with (Z.of_nat (length (pre ++ [Some v]))) by (rewrite length_app; cbn; lia).
    rewrite (IH _ (pre ++ [Some v]) suf) by done. cbn. by rewrite <-app_assoc.
  - replace (Z.of_nat (length pre) + 1) with (Z.of_nat (length (pre ++ [o]))) by (rewrite length_app; cbn; lia).
    rewrite (IH vs (pre ++ [o]) suf); [cbn; by rewrite <-app_assoc|by rewrite Hv, <-app_assoc|done].
Qed.

Lemma lookup_merge_votes old from i : length old = length from →
  merge_votes old from !! i = match from !! i with Some (Some v) => Some (Some v) | _ => old !! i end.
Proof.
  intros Hl. unfold merge_votes. rewrite lookup_zip_with.
  destruct (from !! i) as [[v|]|] eqn:Ef; cbn.
  - destruct (old !! i) eqn:Eo; [done|]. apply lookup_ge_None in Eo. apply lookup_lt_Some in Ef. lia.
  - by destruct (old !! i).
  - destruct (old !! i) eqn:Eo; [|done]. apply lookup_ge_None in Ef. apply lookup_lt_Some in Eo. lia.
Qed.

(** ** Storing a canonical vote *)
Lemma store_vote_run vs i vote : bits_agree (length (votes vs)) (votesBitArray vs) (votes vs) →
  (i < length (votes vs))%nat →
  ∃ ba, store_vote (Z.of_nat i) vote vs = Ok (tt, set_votesBitArray ba (set_votes (<[i := Some vote]> (votes vs)) vs)) ∧
    bits_agree (length (votes vs)) ba (<[i := Some vote]> (votes vs)).
Proof.
  intros Hb Hi. destruct (bits_insert _ _ _ i vote Hb eq_refl Hi) as (b & ba & E & Hb').
  exists ba. split; [|done]. unfold store_vote. rewrite (bind_run _ _ vs vs vs) by done.
  rewrite (bind_run _ _ vs (<[i := Some vote]> (votes vs)) vs)
    by (unfold lift; rewrite slice_set_Ok by lia; by rewrite Nat2Z.id).
  rewrite (bind_run _ _ vs tt (set_votes (<[i := Some vote]> (votes vs)) vs)) by done.
  rewrite (bind_run _ _ _ (b, ba) (set_votes (<[i := Some vote]> (votes vs)) vs)) by (unfold lift; by rewrite E).
  done.
Qed.

(** Validity of votes depends only on the fixed part of a vote set. *)
Definition same_frame (vs vs' : VoteSet) : Prop :=
  chainID vs' = chainID vs ∧ height vs' = height vs ∧ round vs' = round vs ∧
  signedMsgType vs' = signedMsgType vs ∧ Validators (valSet vs') = Validators (valSet vs).

Lemma valid_vote_frame vs vs' i v : same_frame vs vs' → valid_vote vs i v → valid_vote vs' i v.
Proof.
  intros (E1 & E2 & E3 & E4 & E5) [H1 H2 H3 H4]. split; [done| |done|].
  - by rewrite E2, E3, E4.
  - by rewrite E1, E5.
Qed.

Lemma bvinv_frame vs vs' key bv : same_frame vs vs' → (∀ i, voted (votes vs) i = true → voted (votes vs') i = true) →
  bvinv vs key bv → bvinv vs' key bv.
Proof.
  intros Hf Hv [H1 H2 H3 H4]. pose proof Hf as (_ & _ & _ & _ & E). split; rewrite ?E; try done.
  intros i v Hi. destruct (H4 i v Hi) as (H5 & H6 & H7). split_and!; [by eapply valid_vote_frame|done|by apply Hv].
Qed.

(** A canonical vote for a validator that has none, or for the majority block. *)
Definition store_state (vs : VoteSet) (ba : option BitArray) (i : nat) (vote : Vote) (s : Z) : VoteSet :=
  set_sum s (set_votesBitArray ba (set_votes (<[i := Some vote]> (votes vs)) vs)).

Lemma store_vinv vs ba i vote :
  vinv vs → valid_vote vs i vote → (i < length (votes vs))%nat →
  bits_agree (length (votes vs)) ba (<[i := Some vote]> (votes vs)) →
  (voted (votes vs) i = false ∨ ∃ b, maj23 vs = Some b ∧ Key b = Key (v_BlockID vote)) →
  vinv (store_state vs ba i vote (weight (Validators (valSet vs)) (voted (<[i := Some vote]> (votes vs))))).
Proof.
  intros [H1 H2 H3 H4 H5 H6 H7] Hvv Hi Hb Hcase. set (vs' := store_state vs ba i vote _).
  assert (same_frame vs vs') as Hf by done.
  assert (∀ j, voted (votes vs) j = true → voted (votes vs') j = true) as Hmono.
  { intros j Hj. change (votes vs') with (<[i := Some vote]> (votes vs)). rewrite voted_insert, Hj by done.
    by rewrite orb_true_r. }
  split; cbn [vs' store_state set_sum set_votesBitArray set_votes valSet votes votesBitArray sum votesByBlock].
  - done.
  - by rewrite length_insert.
  - by rewrite <-H2.
  - done.
  - intros j v Hj. apply list_lookup_insert_Some in Hj as [(-> & [= ->] & _)|(_ & Hj)].
    + by eapply valid_vote_frame.
    + eapply valid_vote_frame; [done|]. by apply H5.
  - intros key bv Hbv. eapply bvinv_frame; [done|done|]. by apply H6.
  - unfold maj_inv in *. cbn [vs' store_state maj23 set_sum set_votesBitArray set_votes votesByBlock valSet].
    destruct (maj23 vs) as [b|] eqn:Em; [|done]. destruct H7 as (Hp & bv & Hbv & Hq & Hcan).
    split; [done|]. exists bv. split_and!; [done|done|]. intros j Hj.
    change (votes vs') with (<[i := Some vote]> (votes vs)).
    destruct (decide (j = i)) as [->|Hne].
    + exists vote. rewrite list_lookup_insert_eq by done. split; [done|].
      destruct Hcase as [Hno|(b' & [= <-] & ->)]; [|done].
      destruct (Hcan i Hj) as (v & Hv & _). unfold voted in Hno. by rewrite Hv in Hno.
    + rewrite list_lookup_insert_ne by done. by apply Hcan.
Qed.

(** ** Adding to the votes of a block *)
Lemma quorum_spec T x : 0 ≤ T ≤ MaxTotalVotingPower →
  i64 (Z.quot (i64 (T * 2)) 3 + 1) ≤ x ↔ 2 * T < 3 * x.
Proof.
  intros HT. pose proof Max_lt as (? & ? & ? & ?). rewrite (is_i64_id (T * 2)) by (unfold is_i64; lia).
  rewrite Z.quot_div_nonneg by lia. pose proof (Z.div_mod (T * 2) 3). pose proof (Z.mod_pos_bound (T * 2) 3).
  rewrite is_i64_id by (unfold is_i64; lia). lia.
Qed.

Lemma bv_add_run vs key bv i vote (val : Validator) :
  wf_vals (valSet vs) → bvinv vs key bv → valid_vote vs i vote → Key (v_BlockID vote) = key →
  voted (votes vs) i = true → Validators (valSet vs) !! i = Some val → bv_votes bv !! i = Some None →
  ∃ bv', bv_addVerifiedVote bv vote (VotingPower val) = Ok bv' ∧ bvinv vs key bv' ∧
    bv_sum bv' = bv_sum bv + VotingPower val ∧ bv_votes bv' = <[i := Some vote]> (bv_votes bv).
Proof.
  intros Hw [H1 H2 H3 H4] Hvv Hkey Hvoted Hval Hnone.
  assert (i < length (bv_votes bv))%nat as Hi by (by eapply lookup_lt_Some).
  destruct (bits_insert _ _ _ i vote H2 H1) as (b & ba & E & Hb); [lia|].
  assert (voted (bv_votes bv) i = false) as Hnv by (unfold voted; by rewrite Hnone).
  pose proof (weight_insert _ _ i val Hval Hnv) as Hwt.
  assert (weight (Validators (valSet vs)) (voted (<[i := Some vote]> (bv_votes bv))) = bv_sum bv + VotingPower val) as Hsum.
  { rewrite H3, <-Hwt. apply weight_ext. intros j _. by apply voted_insert. }
  pose proof (weight_bounds (Validators (valSet vs)) (voted (<[i := Some vote]> (bv_votes bv))) (wv_pos _ Hw)) as Hbd.
  pose proof (wv_max _ Hw). pose proof Max_lt as (? & ? & ? & ?).
  eexists. unfold bv_addVerifiedVote. rewrite (vv_index _ _ _ Hvv).
  assert (slice_get (bv_votes bv) (Z.of_nat i) = Ok None) as -> by (apply slice_get_Ok; rewrite Nat2Z.id; split; [lia|done]).
  cbn [outcome_bind]. rewrite E. cbn [outcome_bind]. rewrite slice_set_Ok, Nat2Z.id by lia. cbn [outcome_bind].
  split; [done|]. rewrite is_i64_id by (unfold is_i64; lia).
  split; [split|split]; cbn [bv_votes bv_bitArray bv_sum].
  - by rewrite length_insert.
  - done.
  - done.
  - intros j v Hj. apply list_lookup_insert_Some in Hj as [(-> & [= ->] & _)|(_ & Hj)]; [done|by apply H4].
  - done.
  - done.
Qed.

Lemma newBlockVotes_bvinv vs key p : bvinv vs key (newBlockVotes p (Size (valSet vs))).
Proof.
  unfold newBlockVotes, Size. rewrite Nat2Z.id. destruct (NewBitArray_good (Z.of_nat (length (Validators (valSet vs))))) as (Hg & Hs & Hz).
  split; cbn [bv_votes bv_bitArray bv_sum].
  - apply length_replicate.
  - split_and!; [done|lia|]. intros i _. by rewrite Hz, voted_replicate.
  - symmetry. apply weight_none. intros. apply voted_replicate.
  - intros i v Hi. by apply lookup_replicate in Hi as [? _].
Qed.

Definition put_block (key : bytes) (bv : blockVotes) (vs : VoteSet) : VoteSet :=
  set_votesByBlock (<[key := bv]> (votesByBlock vs)) vs.

(** Replacing the entry of one block keeps the invariant of the others. *)
Lemma put_block_blocks vs key bv : vinv vs → bvinv vs key bv →
  ∀ k b, votesByBlock (put_block key bv vs) !! k = Some b → bvinv (put_block key bv vs) k b.
Proof.
  intros Hv Hbv k b. cbn. intros Hk. apply (bvinv_frame vs); [done|done|].
  apply lookup_insert_Some in Hk as [[<- <-]|[_ Hk]]; [done|]. by apply (vi_blocks _ Hv).
Qed.

Lemma copied_vinv vs key bv vote i :
  vinv vs → maj23 vs = None → bvinv vs key bv → 2 * power (Validators (valSet vs)) < 3 * bv_sum bv →
  valid_vote vs i vote → Key (v_BlockID vote) = key →
  vinv (set_votes (merge_votes (votes vs) (bv_votes bv)) (set_maj23 (Some (v_BlockID vote)) (put_block key bv vs))).
Proof.
  intros Hvi Hm Hbv Hq Hvv Hkey. pose proof Hvi as [H1 H2 H3 H4 H5 H6 H7].
  set (vs' := set_votes _ _). assert (same_frame vs vs') as Hf by done.
  assert (length (votes vs) = length (bv_votes bv)) as Hlen by (rewrite H2; symmetry; apply Hbv).
  assert (∀ j, merge_votes (votes vs) (bv_votes bv) !! j
               = match bv_votes bv !! j with Some (Some v) => Some (Some v) | _ => votes vs !! j end) as Hlk.
  { intros j. by apply lookup_merge_votes. }
  assert (∀ j, voted (merge_votes (votes vs) (bv_votes bv)) j = voted (votes vs) j) as Hvoted.
  { intros j. unfold voted. rewrite Hlk. destruct (bv_votes bv !! j) as [[v|]|] eqn:E; [|done..].
    destruct (bi_votes _ _ _ Hbv j v E) as (_ & _ & Hj). unfold voted in Hj. destruct (votes vs !! j) as [[|]|]; done. }
  split; cbn [vs' set_votes set_maj23 put_block set_votesByBlock valSet votes votesBitArray sum votesByBlock].
  - done.
  - unfold merge_votes. rewrite length_zip_with. lia.
  - destruct H3 as (Hg & Hs & Hh). split_and!; [done|done|]. intros j Hj. rewrite Hvoted. by apply Hh.
  - rewrite H4. apply weight_ext. intros j _. by rewrite Hvoted.
  - intros j v Hj. rewrite Hlk in Hj. apply (valid_vote_frame vs); [done|].
    destruct (bv_votes bv !! j) as [[w|]|] eqn:E; [|by apply H5..].
    injection Hj as <-. by apply (bi_votes _ _ _ Hbv j w E).
  - intros k b Hk. apply (bvinv_frame vs); [done| |].
    + intros j Hj. change (votes vs') with (merge_votes (votes vs) (bv_votes bv)). by rewrite Hvoted.
    + apply lookup_insert_Some in Hk as [[<- <-]|[_ Hk]]; [done|]. by apply H6.
  - unfold maj_inv. cbn. split; [apply Hvv|]. exists bv. rewrite Hkey, lookup_insert_eq. split_and!; [done|done|].
    intros j Hj. change (votes vs') with (merge_votes (votes vs) (bv_votes bv)).
    apply voted_true in Hj as (v & Hj). exists v. rewrite Hlk, Hj. split; [done|].
    rewrite Hkey. by apply (bi_votes _ _ _ Hbv j v Hj).
Qed.

Lemma put_vinv vs key bv0 bv vote i :
  vinv vs → bvinv vs key bv → bv_sum bv0 ≤ bv_sum bv →
  (votesByBlock vs !! key = Some bv0 ∨ votesByBlock vs !! key = None) →
  bv_votes bv = <[i := Some vote]> (bv_votes bv0) → (i < length (bv_votes bv0))%nat →
  (∀ b, maj23 vs = Some b → Key b = key → ∃ v, votes vs !! i = Some (Some v) ∧ Key (v_BlockID v) = key) →
  (maj23 vs = None → 3 * bv_sum bv ≤ 2 * power (Validators (valSet vs))) →
  vinv (put_block key bv vs).
Proof.
  intros Hvi Hbv Hle Hold Hins Hi Hmaj Hnone. pose proof Hvi as [H1 H2 H3 H4 H5 H6 H7].
  split; try done.
  - intros j v Hj. apply (valid_vote_frame vs); [done|]. by apply H5.
  - by apply put_block_blocks.
  - unfold maj_inv in *. cbn. destruct (maj23 vs) as [b|] eqn:Em.
    + destruct H7 as (Hp & bvb & Hbvb & Hq & Hcan). split; [done|].
      destruct (decide (Key b = key)) as [Ek|Hne].
      * exists bv. rewrite Ek, lookup_insert_eq. rewrite Ek in Hbvb.
        destruct Hold as [Hold|Hold]; [|congruence]. rewrite Hold in Hbvb. injection Hbvb as <-.
        split_and!; [done|lia|]. intros j Hj. rewrite Hins, voted_insert in Hj by done.
        destruct (decide (j = i)) as [->|Hji].
        -- rewrite Ek. apply (Hmaj b); [done|done].
        -- rewrite bool_decide_eq_false_2 in Hj by done. by apply Hcan.
      * exists bvb. rewrite lookup_insert_ne by done. by split_and!.
    + intros k b Hk. apply lookup_insert_Some in Hk as [[<- <-]|[_ Hk]]; [by apply Hnone|by apply (H7 k)].
Qed.

(** ** addVerifiedVote *)

(** A vote that getVote does not find. *)
Record fresh_vote (vs : VoteSet) (i : nat) (vote : Vote) : Prop := {
  fv_votes : ∀ v, votes vs !! i = Some (Some v) → Key (v_BlockID v) ≠ Key (v_BlockID vote);
  fv_block : ∀ bv, votesByBlock vs !! Key (v_BlockID vote) = Some bv → bv_votes bv !! i = Some None;
}.

(** The canonical vote of a validator. *)
Definition canonical_vote (vs : VoteSet) (i : nat) : option Vote :=
  match votes vs !! i with Some o => o | None => None end.

(** The state after the first half: the canonical vote is stored unless there is one already, or
    when it is for the majority block. *)
Record stored (vs vs1 : VoteSet) (i : nat) (vote : Vote) : Prop := {
  st_vinv : vinv vs1;
  st_frame : same_frame vs vs1;
  st_blocks : votesByBlock vs1 = votesByBlock vs;
  st_peers : peerMaj23s vs1 = peerMaj23s vs;
  st_maj : maj23 vs1 = maj23 vs;
  st_voted : ∀ j, voted (votes vs1) j = bool_decide (j = i) || voted (votes vs) j;
  st_canon : ∀ b, maj23 vs = Some b → Key b = Key (v_BlockID vote) → votes vs1 !! i = Some (Some vote);
}.

Definition first_half (vote : Vote) (blockKey : bytes) (votingPower : Z) (vs0 : VoteSet) (existing : option Vote) :
    M VoteSet (option Vote) :=
  let valIndex := v_ValidatorIndex vote in
  match existing with
  | Some ex =>
      if Equals (v_BlockID ex) (v_BlockID vote) then panic else
      let replace := match maj23 vs0 with
                     | Some m => bool_decide (Key m = blockKey)
                     | None => false
                     end in
      (if replace then store_vote valIndex vote else ret tt) ;;;
      ret (Some ex)
  | None =>
      store_vote valIndex vote ;;;
      modify (λ vs, set_sum (i64 (sum vs + votingPower)) vs) ;;;
      ret None
  end.

Lemma first_half_run vs i vote (val : Validator) :
  vinv vs → valid_vote vs i vote → Validators (valSet vs) !! i = Some val → fresh_vote vs i vote →
  ∃ vs1, first_half vote (Key (v_BlockID vote)) (VotingPower val) vs (canonical_vote vs i) vs
         = Ok (canonical_vote vs i, vs1) ∧ stored vs vs1 i vote.
Proof.
  intros Hvi Hvv Hval Hfr. pose proof (vi_len _ Hvi) as Hlen. pose proof (vi_vals _ Hvi) as Hw.
  assert (i < length (votes vs))%nat as Hi by (rewrite Hlen; by eapply lookup_lt_Some).
  assert (bits_agree (length (votes vs)) (votesBitArray vs) (votes vs)) as Hb by (rewrite Hlen; apply Hvi).
  destruct (store_vote_run vs i vote Hb Hi) as (ba & Est & Hb').
  unfold first_half. rewrite (vv_index _ _ _ Hvv).
  assert (∀ j, voted (<[i := Some vote]> (votes vs)) j = bool_decide (j = i) || voted (votes vs) j) as Hvd
    by (intros j; by apply voted_insert).
  destruct (canonical_vote vs i) as [ex|] eqn:Ec.
  - assert (votes vs !! i = Some (Some ex)) as Hex.
    { unfold canonical_vote in Ec. destruct (votes vs !! i) as [[|]|]; congruence. }
    assert (voted (votes vs) i = true) as Hv by (apply voted_true; eauto).
    pose proof (fv_votes _ _ _ Hfr ex Hex) as Hkey.
    destruct (Equals (v_BlockID ex) (v_BlockID vote)) eqn:Ee; [apply Equals_eq in Ee; congruence|].
    assert (∀ j, voted (votes vs) j = bool_decide (j = i) || voted (votes vs) j) as Hsame.
    { intros j. destruct (decide (j = i)) as [->|]; [by rewrite Hv, orb_true_r|by rewrite bool_decide_eq_false_2]. }
    destruct (match maj23 vs with Some m => bool_decide (Key m = Key (v_BlockID vote)) | None => false end) eqn:Er.
    + destruct (maj23 vs) as [m|] eqn:Em; [|done]. apply bool_decide_eq_true_1 in Er.
      assert (weight (Validators (valSet vs)) (voted (<[i := Some vote]> (votes vs))) = sum vs) as Hsum.
      { rewrite (vi_sum _ Hvi). apply weight_ext. intros j _. rewrite Hvd. symmetry. apply Hsame. }
      eexists. rewrite (bind_run _ _ _ _ _ Est). split; [done|].
      pose proof (store_vinv vs ba i vote Hvi Hvv Hi Hb' ltac:(right; eauto)) as Hvi'. rewrite Hsum in Hvi'.
      assert (store_state vs ba i vote (sum vs) = set_votesBitArray ba (set_votes (<[i := Some vote]> (votes vs)) vs)) as Es by done.
      rewrite Es in Hvi'. split; try done. intros b _ _. cbn. by rewrite list_lookup_insert_eq.
    + exists vs. split; [done|]. split; try done. intros b Em Hk. rewrite Em in Er.
      apply bool_decide_eq_false_1 in Er. congruence.
  - assert (voted (votes vs) i = false) as Hv.
    { unfold canonical_vote in Ec. unfold voted. destruct (votes vs !! i) as [[|]|]; congruence. }
    assert (weight (Validators (valSet vs)) (voted (<[i := Some vote]> (votes vs))) = sum vs + VotingPower val) as Hsum.
    { rewrite (vi_sum _ Hvi), <-(weight_insert _ _ i val Hval Hv). apply weight_ext. intros j _. apply Hvd. }
    pose proof (weight_bounds (Validators (valSet vs)) (voted (<[i := Some vote]> (votes vs))) (wv_pos _ Hw)).
    pose proof (wv_max _ Hw). pose proof Max_lt as (? & ? & ? & ?).
    eexists. rewrite (bind_run _ _ _ _ _ Est). split; [done|].
    pose proof (store_vinv vs ba i vote Hvi Hvv Hi Hb' ltac:(by left)) as Hvi'. rewrite Hsum in Hvi'.
    cbn [sum set_votesBitArray set_votes]. rewrite is_i64_id by (unfold is_i64; lia).
    split; try done. intros b _ _. cbn. by rewrite list_lookup_insert_eq.
Qed.

(** The second half: count the vote for its block, unless it conflicts and nobody asked for the block. *)
Definition second_half (vote : Vote) (blockKey : bytes) (votingPower : Z) (conflicting : option Vote) :
    M VoteSet (bool * option Vote) :=
  vs1 <- gets id ;;
  let track :=
    match votesByBlock vs1 !! blockKey with
    | Some bv => if bool_decide (conflicting ≠ None) && negb (peerMaj23 bv) then None else Some bv
    | None => if bool_decide (conflicting ≠ None) then None else Some (newBlockVotes false (Size (valSet vs1)))
    end in
  match track with
  | None => ret (false, conflicting)
  | Some bv =>
      total <- zoom valSet set_valSet TotalVotingPower ;;
      let quorum := i64 (Z.quot (i64 (total * 2)) 3 + 1) in
      bv' <- lift (bv_addVerifiedVote bv vote votingPower) ;;
      modify (λ vs, set_votesByBlock (<[blockKey := bv']> (votesByBlock vs)) vs) ;;;
      vs2 <- gets id ;;
      (if decide (bv_sum bv < quorum ∧ quorum ≤ bv_sum bv' ∧ maj23 vs2 = None) then
         modify (set_maj23 (Some (v_BlockID vote))) ;;;
         copy_votes 0 (bv_votes bv')
       else ret tt) ;;;
      ret (true, conflicting)
  end.

Lemma addVerifiedVote_halves vote key pw vs :
  addVerifiedVote vote key pw vs
  = (existing <- lift (slice_get (votes vs) (v_ValidatorIndex vote)) ;;
     conflicting <- first_half vote key pw vs existing ;;
     second_half vote key pw conflicting) vs.
Proof. done. Qed.

(** Filling the cache of the validator set does not matter. *)
Definition cached (vs : VoteSet) : VoteSet := set_valSet (set_total (power (Validators (valSet vs))) (valSet vs)) vs.

Lemma cached_vinv vs : vinv vs → vinv (cached vs).
Proof.
  intros [H1 H2 H3 H4 H5 H6 H7]. split; cbn [cached set_valSet valSet votes votesBitArray sum votesByBlock set_total Validators];
    try done.
  - by apply set_total_wf.
  - intros i v Hi. apply (valid_vote_frame vs); [done|]. by apply H5.
  - intros k b Hk. apply (bvinv_frame vs); [done|done|]. by apply H6.
Qed.

Lemma second_half_run vs i vote (val : Validator) c :
  vinv vs → valid_vote vs i vote → Validators (valSet vs) !! i = Some val →
  voted (votes vs) i = true →
  (∀ bv, votesByBlock vs !! Key (v_BlockID vote) = Some bv → bv_votes bv !! i = Some None) →
  (∀ b, maj23 vs = Some b → Key b = Key (v_BlockID vote) → votes vs !! i = Some (Some vote)) →
  ∃ added vs', second_half vote (Key (v_BlockID vote)) (VotingPower val) c vs = Ok ((added, c), vs') ∧
    vinv vs' ∧ same_frame vs vs' ∧ peerMaj23s vs' = peerMaj23s vs ∧ (added = false → c ≠ None) ∧
    (∀ b, maj23 vs = Some b → maj23 vs' = Some b) ∧
    (∀ j, voted (votes vs') j = voted (votes vs) j) ∧
    (added = true → ∃ bv, votesByBlock vs' !! Key (v_BlockID vote) = Some bv ∧ bv_votes bv !! i = Some (Some vote)).
Proof.
  intros Hvi Hvv Hval Hvoted Hnone Hmaj. unfold second_half. rewrite (bind_run _ _ vs vs vs) by done.
  set (key := Key (v_BlockID vote)) in *. set (track := match votesByBlock vs !! key with Some _ => _ | None => _ end).
  assert (∀ bv, track = Some bv → bvinv vs key bv ∧ bv_votes bv !! i = Some None ∧
            (votesByBlock vs !! key = Some bv ∨ votesByBlock vs !! key = None) ∧
            (maj23 vs = None → 3 * bv_sum bv ≤ 2 * power (Validators (valSet vs)))) as Htrack.
  { intros bv Htr. unfold track in Htr. destruct (votesByBlock vs !! key) as [b|] eqn:Eb.
    - destruct (_ && _); [done|]. injection Htr as <-. split_and!; [by apply (vi_blocks _ Hvi)|by apply Hnone|by left|].
      intros Hm. pose proof (vi_maj _ Hvi) as Hinv. unfold maj_inv in Hinv. rewrite Hm in Hinv. by apply (Hinv key).
    - destruct (bool_decide _); [done|]. injection Htr as <-. split_and!; [apply newBlockVotes_bvinv| |by right|].
      + cbn. unfold Size. rewrite Nat2Z.id. apply lookup_replicate_2. by eapply lookup_lt_Some.
      + intros _. cbn. pose proof (power_nonneg _ (wv_pos _ (vi_vals _ Hvi))). lia. }
  destruct track as [bv|] eqn:Et.
  2: { exists false, vs. split_and!; try done. intros _. unfold track in Et.
       destruct (votesByBlock vs !! key) as [b|]; destruct (decide (c = None)) as [->|Hc]; try done. }
  destruct (Htrack bv eq_refl) as (Hbv & Hbi & Hold & Hle).
  pose proof (vi_vals _ Hvi) as Hw. pose proof (wv_max _ Hw). pose proof (power_nonneg _ (wv_pos _ Hw)).
  rewrite (bind_run _ _ vs (power (Validators (valSet vs))) (cached vs))
    by (unfold zoom; by rewrite (TotalVotingPower_Ok _ Hw)).
  cbn zeta. destruct (bv_add_run vs key bv i vote val Hw Hbv Hvv eq_refl Hvoted Hval Hbi) as (bv' & Eadd & Hbv' & Hsum & Hins).
  rewrite (bind_run _ _ (cached vs) bv' (cached vs)) by (unfold lift; by rewrite Eadd).
  rewrite (bind_run _ _ (cached vs) tt (put_block key bv' (cached vs))) by done.
  rewrite (bind_run _ _ _ (put_block key bv' (cached vs)) (put_block key bv' (cached vs))) by done.
  pose proof (cached_vinv vs Hvi) as Hvc.
  assert (bvinv (cached vs) key bv') as Hbvc by (by apply (bvinv_frame vs)).
  assert (valid_vote (cached vs) i vote) as Hvvc by (by apply (valid_vote_frame vs)).
  pose proof (proj1 (Forall_forall _ _) (wv_pos _ Hw) val (list_elem_of_lookup_2 _ _ _ Hval)) as Hpos. cbn in Hpos.
  pose proof (lookup_lt_Some _ _ _ Hbi) as Hilt.
  destruct (decide (_ ∧ _)) as [(Hlt & Hq & Hm)|Hno].
  - change (maj23 (put_block key bv' (cached vs))) with (maj23 vs) in Hm. apply quorum_spec in Hq; [|done].
    assert ((modify (set_maj23 (Some (v_BlockID vote))) ;;; copy_votes 0 (bv_votes bv')) (put_block key bv' (cached vs))
      = Ok (tt, set_votes (merge_votes (votes vs) (bv_votes bv'))
                  (set_maj23 (Some (v_BlockID vote)) (put_block key bv' (cached vs))))) as Hcopy.
    { rewrite (bind_run _ _ _ tt (set_maj23 (Some (v_BlockID vote)) (put_block key bv' (cached vs)))) by done.
      apply (copy_votes_run (bv_votes bv') _ [] (votes vs)); [done|rewrite (bi_len _ _ _ Hbv'); apply Hvi]. }
    rewrite (bind_run _ _ _ _ _ Hcopy). exists true. eexists.
    split; [done|]. split; [by apply (copied_vinv (cached vs) key bv' vote i)|].
    split_and!; [done|done|done| | |].
    + intros b Hb. congruence.
    + intros j. cbn [votes set_votes app]. unfold voted at 1.
      rewrite lookup_merge_votes by (rewrite (bi_len _ _ _ Hbv'); apply Hvi).
      destruct (bv_votes bv' !! j) as [[v|]|] eqn:Ej; [|done..].
      destruct (bi_votes _ _ _ Hbv' j v Ej) as (_ & _ & Hj). unfold voted in Hj |- *. by destruct (votes vs !! j) as [[|]|].
    + intros _. exists bv'. cbn. rewrite lookup_insert_eq. split; [done|]. rewrite Hins. by apply list_lookup_insert_eq.
  - rewrite (bind_run _ _ _ tt (put_block key bv' (cached vs))) by done.
    exists true. eexists. split; [done|]. split.
    + apply (put_vinv (cached vs) key bv bv' vote i); try done.
      * rewrite Hsum. lia.
      * intros b Hb Hk. exists vote. split; [by apply (Hmaj b)|done].
      * intros Hm. destruct (decide (3 * bv_sum bv' ≤ 2 * power (Validators (valSet (cached vs))))) as [|Hgt]; [done|].
        change (Validators (valSet (cached vs))) with (Validators (valSet vs)) in Hgt.
        exfalso. apply Hno. split_and!; [|apply quorum_spec; [done|lia]|done].
        apply Z.lt_nge. intros Hge%quorum_spec; [|done]. specialize (Hle Hm). lia.
    + split_and!; try done. intros _. exists bv'. cbn. rewrite lookup_insert_eq. split; [done|]. rewrite Hins.
      by apply list_lookup_insert_eq.
Qed.
End inv.
