(* ===== verification/TmVoteSafety.v ===== *)
(** Theorems about vote sets: every operation keeps the invariant of TmVoteInv.v, a majority is
    a real one, it never changes, and the commit made from it verifies. *)

From S2P Require Import Prelude TmBits TmValidators TmPriority TmValUpdate TmTypes TmCommit TmVotes TmVoteInv.

Section safety.
Context (VerifySignature : bytes → bytes → bytes → bool) (key_Address : bytes → bytes)
        (MarshalDelimited : CanonicalVote → bytes).

Local Abbreviation valid_vote := (TmVoteInv.valid_vote VerifySignature key_Address MarshalDelimited).
Local Abbreviation vinv := (TmVoteInv.vinv VerifySignature key_Address MarshalDelimited).
Local Abbreviation addVote := (TmVotes.addVote VerifySignature key_Address MarshalDelimited).
Local Abbreviation VerifyCommit := (TmTypes.VerifyCommit VerifySignature MarshalDelimited).

(** No validator has a nil key. *)
Definition keys_ok (vs : VoteSet) : Prop :=
  Forall (λ v : Validator, PubKey v ≠ None) (Validators (valSet vs)).

Definition idx (vote : Vote) : nat := Z.to_nat (v_ValidatorIndex vote).

(** ** addVote *)

(** What getVote finds. *)
Definition known_vote (vs : VoteSet) (i : nat) (key : bytes) : option Vote :=
  match canonical_vote vs i with
  | Some v => if decide (Key (v_BlockID v) = key) then Some v else
      match votesByBlock vs !! key with Some bv => mjoin (bv_votes bv !! i) | None => None end
  | None => match votesByBlock vs !! key with Some bv => mjoin (bv_votes bv !! i) | None => None end
  end.

Lemma getVote_run vs i key : vinv vs → (i < length (Validators (valSet vs)))%nat →
  getVote (Z.of_nat i) key vs = Ok (known_vote vs i key, vs).
Proof.
  intros Hvi Hi. unfold getVote, known_vote, canonical_vote. rewrite (bind_run _ _ vs vs vs) by done.
  destruct (lookup_lt_is_Some_2 (votes vs) i) as [o Ho]; [rewrite (vi_len _ _ _ _ Hvi); lia|].
  assert (slice_get (votes vs) (Z.of_nat i) = Ok o) as E by (apply slice_get_Ok; rewrite Nat2Z.id; split; [lia|done]).
  rewrite (bind_run _ _ vs o vs) by (unfold lift; by rewrite E). rewrite Ho.
  assert (lift (bv_getByIndex (votesByBlock vs !! key) (Z.of_nat i)) vs
    = Ok (match votesByBlock vs !! key with Some bv => mjoin (bv_votes bv !! i) | None => None end, vs)) as Eb.
  { unfold lift, bv_getByIndex. destruct (votesByBlock vs !! key) as [bv|] eqn:Ek; [|done].
    pose proof (bi_len _ _ _ _ _ _ (vi_blocks _ _ _ _ Hvi key bv Ek)) as Hl.
    destruct (lookup_lt_is_Some_2 (bv_votes bv) i) as [p Hp]; [lia|].
    assert (slice_get (bv_votes bv) (Z.of_nat i) = Ok p) as -> by (apply slice_get_Ok; rewrite Nat2Z.id; split; [lia|done]).
    by rewrite Hp. }
  destruct o as [v|]; [|done]. case_bool_decide; case_decide; done.
Qed.

Lemma known_vote_None vs i vote : vinv vs → (i < length (Validators (valSet vs)))%nat →
  known_vote vs i (Key (v_BlockID vote)) = None → fresh_vote vs i vote.
Proof.
  intros Hvi Hi H0. unfold known_vote, canonical_vote in H0. split.
  - intros v Hv Hk. by rewrite Hv, decide_True in H0.
  - intros bv Hbv. pose proof (bi_len _ _ _ _ _ _ (vi_blocks _ _ _ _ Hvi _ bv Hbv)) as Hl.
    destruct (lookup_lt_is_Some_2 (bv_votes bv) i) as [o Ho]; [lia|]. rewrite Hbv, Ho in H0.
    destruct o as [w|]; [|done]. destruct (votes vs !! i) as [[v|]|]; cbn in H0; try done. by case_decide.
Qed.

(** The steps after the checks that precede the search for a known vote. *)
Definition checked (vs : VoteSet) (vote : Vote) (val : Validator) : Prop :=
  0 ≤ v_ValidatorIndex vote ∧ (v_ValidatorAddress vote ≠ []) ∧
  (v_Height vote = height vs ∧ v_Round vote = round vs ∧ v_Type vote = signedMsgType vs) ∧
  Validators (valSet vs) !! idx vote = Some val ∧ v_ValidatorAddress vote = Address val.

(** How addVote answers a vote of a known validator. *)
Lemma addVote_checked vs vote val : vinv vs → keys_ok vs → proper_id (v_BlockID vote) → checked vs vote val →
  match known_vote vs (idx vote) (Key (v_BlockID vote)) with
  | Some ex => addVote (Some vote) vs = Ok ((false, if decide (v_Signature ex = v_Signature vote) then None
                                              else Some ErrVoteNonDeterministicSignature), vs)
  | None =>
      (valid_vote vs (idx vote) vote ∧
       addVote (Some vote) vs =
         (r <- addVerifiedVote vote (Key (v_BlockID vote)) (VotingPower val) ;;
          match r with
          | (added, Some c) => ret (added, Some (ErrVoteConflictingVotes c vote))
          | (true, None) => ret (true, None)
          | (false, None) => panic
          end) vs) ∨
      (¬ valid_vote vs (idx vote) vote ∧ ∃ e, addVote (Some vote) vs = Ok ((false, Some e), vs))
  end.
Proof.
  intros Hvi Hk Hp (Hpos & Haddr & (Hh & Hr & Ht) & Hval & Ha).
  assert (v_ValidatorIndex vote = Z.of_nat (idx vote)) as Hidx by (unfold idx; lia).
  assert (idx vote < length (Validators (valSet vs)))%nat as Hlt by (by eapply lookup_lt_Some).
  assert (addVote (Some vote) vs =
    (existing <- getVote (v_ValidatorIndex vote) (Key (v_BlockID vote)) ;;
     match existing with
     | Some ex => if decide (v_Signature ex = v_Signature vote) then ret (false, None)
                  else ret (false, Some ErrVoteNonDeterministicSignature)
     | None =>
         e <- lift (Vote_Verify VerifySignature key_Address MarshalDelimited vote (chainID vs) (PubKey val)) ;;
         match e with
         | Some VerifyWrongAddress => ret (false, Some ErrVoteInvalidValidatorAddress)
         | Some VerifyWrongSignature => ret (false, Some ErrVoteInvalidSignature)
         | None =>
             r <- addVerifiedVote vote (Key (v_BlockID vote)) (VotingPower val) ;;
             match r with
             | (added, Some c) => ret (added, Some (ErrVoteConflictingVotes c vote))
             | (true, None) => ret (true, None)
             | (false, None) => panic
             end
         end
     end) vs) as ->.
  { unfold TmVotes.addVote. rewrite (bind_run _ _ vs vs vs) by done. rewrite !decide_False by (done || lia || tauto).
    unfold GetByIndex. rewrite decide_False by lia. fold (idx vote). rewrite Hval. cbn.
    by rewrite decide_False by tauto. }
  rewrite Hidx. rewrite (bind_run _ _ _ _ _ (getVote_run vs (idx vote) (Key (v_BlockID vote)) Hvi Hlt)).
  destruct (known_vote vs (idx vote) (Key (v_BlockID vote))) as [ex|]; [by case_decide|].
  destruct (PubKey (val_info val)) as [k|] eqn:Ek.
  2: { destruct (proj1 (Forall_forall _ _) Hk val (list_elem_of_lookup_2 _ _ _ Hval)). done. }
  assert (∃ msg, VoteSignBytes MarshalDelimited (chainID vs) vote = Ok msg) as [msg Emsg].
  { unfold VoteSignBytes, CanonicalizeVote, CanonicalizeBlockID. rewrite (proper_ValidateBasic _ Hp). cbn. eauto. }
  assert (∀ r, Vote_Verify VerifySignature key_Address MarshalDelimited vote (chainID vs) (Some k) = Ok r →
    (valid_vote vs (idx vote) vote ↔ r = None)) as Hiff.
  { intros r Er. split.
    - intros Hvv. destruct (vv_signed _ _ _ _ _ _ Hvv) as (val' & Hval' & _ & Ev).
      rewrite Hval in Hval'. injection Hval' as <-. rewrite Ek, Er in Ev. by injection Ev.
    - intros ->. split; [done|done|done|]. exists val. rewrite Ek. done. }
  destruct (Vote_Verify VerifySignature key_Address MarshalDelimited vote (chainID vs) (Some k)) as [[e|]| |] eqn:Ev.
  - right. split; [intros H1%(Hiff _ eq_refl); done|]. rewrite (bind_run _ _ vs (Some e) vs) by done.
    destruct e; eauto.
  - left. split; [by apply (Hiff _ eq_refl)|]. by rewrite (bind_run _ _ vs None vs).
  - exfalso. unfold Vote_Verify in Ev. case_decide; [done|]. rewrite Emsg in Ev. done.
  - exfalso. unfold Vote_Verify in Ev. case_decide; [done|]. rewrite Emsg in Ev. done.
Qed.

(** A vote that fails an earlier check. *)
Lemma addVote_unchecked vs vote : (∀ val, ¬ checked vs vote val) →
  ∃ e, addVote (Some vote) vs = Ok ((false, Some e), vs) ∧ ¬ valid_vote vs (idx vote) vote ∨
       v_ValidatorAddress vote = [] ∧ addVote (Some vote) vs = Ok ((false, Some e), vs).
Proof.
  intros Hno. unfold TmVotes.addVote. rewrite (bind_run _ _ vs vs vs) by done.
  destruct (decide (v_ValidatorIndex vote < 0)) as [H1|H1].
  { eexists. left. split; [done|]. intros Hvv. pose proof (vv_index _ _ _ _ _ _ Hvv). lia. }
  destruct (decide (v_ValidatorAddress vote = [])) as [H2|H2]; [eexists; right; done|].
  destruct (decide _) as [H3|H3].
  { eexists. left. split; [done|]. intros Hvv. destruct (vv_step _ _ _ _ _ _ Hvv) as (? & ? & ?). tauto. }
  unfold GetByIndex. destruct (decide (_ ∨ _)) as [H4|H4].
  { eexists. left. split; [done|]. intros Hvv. destruct (vv_signed _ _ _ _ _ _ Hvv) as (val & Hval & _).
    apply lookup_lt_Some in Hval. unfold idx in Hval. lia. }
  destruct (Validators (valSet vs) !! Z.to_nat (v_ValidatorIndex vote)) as [val|] eqn:Hval; cbn.
  2: { eexists. left. split; [done|]. intros Hvv. destruct (vv_signed _ _ _ _ _ _ Hvv) as (val' & Hval' & _).
       unfold idx in Hval'. congruence. }
  destruct (decide (v_ValidatorAddress vote ≠ Address val)) as [H5|H5].
  { eexists. left. split; [done|]. intros Hvv. destruct (vv_signed _ _ _ _ _ _ Hvv) as (val' & Hval' & Ha & _).
    unfold idx in Hval'. congruence. }
  exfalso. apply (Hno val). unfold checked, idx. split_and!; try done; try lia; destruct (decide (v_ValidatorAddress vote = Address val)); tauto.
Qed.

Lemma same_frame_trans vs1 vs2 vs3 : same_frame vs1 vs2 → same_frame vs2 vs3 → same_frame vs1 vs3.
Proof. unfold same_frame. intuition congruence. Qed.

(** What a step of the set guarantees to those who hold it. *)
Record advances (vs vs' : VoteSet) : Prop := {
  adv_frame : same_frame vs vs';
  adv_maj : ∀ b, maj23 vs = Some b → maj23 vs' = Some b;
  adv_voted : ∀ j, voted (votes vs) j = true → voted (votes vs') j = true;
}.

Lemma advances_refl vs : advances vs vs.
Proof. split; done. Qed.

Lemma addVerifiedVote_run vs i vote (val : Validator) :
  vinv vs → valid_vote vs i vote → Validators (valSet vs) !! i = Some val → fresh_vote vs i vote →
  ∃ added vs', addVerifiedVote vote (Key (v_BlockID vote)) (VotingPower val) vs = Ok ((added, canonical_vote vs i), vs') ∧
    vinv vs' ∧ advances vs vs' ∧ (added = false → canonical_vote vs i ≠ None) ∧
    (∀ j, voted (votes vs') j = bool_decide (j = i) || voted (votes vs) j) ∧
    (added = true → ∃ bv, votesByBlock vs' !! Key (v_BlockID vote) = Some bv ∧ bv_votes bv !! i = Some (Some vote)).
Proof.
  intros Hvi Hvv Hval Hfr. destruct (first_half_run VerifySignature key_Address MarshalDelimited vs i vote val Hvi Hvv Hval Hfr) as (vs1 & E1 & Hst).
  destruct Hst as [Hvi1 Hf1 Hb1 Hp1 Hm1 Hv1 Hc1].
  destruct (second_half_run VerifySignature key_Address MarshalDelimited vs1 i vote val (canonical_vote vs i))
    as (added & vs2 & E2 & Hvi2 & Hf2 & Hp2 & Hadd & Hm2 & Hv2 & Hin).
  - done.
  - by apply (valid_vote_frame _ _ _ vs).
  - pose proof Hf1 as (_ & _ & _ & _ & ->). done.
  - rewrite Hv1, bool_decide_eq_true_2 by done. done.
  - intros bv Hbv. rewrite Hb1 in Hbv. by apply (fv_block _ _ _ Hfr).
  - intros b Hb Hk. apply (Hc1 b); [congruence|done].
  - exists added, vs2. split_and!.
    + rewrite addVerifiedVote_halves.
      assert (slice_get (votes vs) (v_ValidatorIndex vote) = Ok (canonical_vote vs i)) as Esl.
      { rewrite (vv_index _ _ _ _ _ _ Hvv). unfold canonical_vote.
        destruct (lookup_lt_is_Some_2 (votes vs) i) as [o Ho]; [rewrite (vi_len _ _ _ _ Hvi); by eapply lookup_lt_Some|].
        apply slice_get_Ok. rewrite Nat2Z.id, Ho. split; [lia|done]. }
      rewrite (bind_run _ _ vs (canonical_vote vs i) vs) by (unfold lift; by rewrite Esl).
      by rewrite (bind_run _ _ _ _ _ E1).
    + done.
    + split; [by eapply same_frame_trans|intros b Hb; apply Hm2; congruence|].
      intros j Hj. rewrite Hv2, Hv1, Hj. by rewrite orb_true_r.
    + done.
    + intros j. by rewrite Hv2.
    + done.
Qed.

Lemma addVote_step vs vote : vinv vs → keys_ok vs → (∀ v, vote = Some v → proper_id (v_BlockID v)) →
  ∃ r vs', addVote vote vs = Ok (r, vs') ∧ vinv vs' ∧ advances vs vs'.
Proof.
  intros Hvi Hk Hp. destruct vote as [vote|]; [|exists (false, Some ErrVoteNil), vs; split_and!; [done|done|apply advances_refl]].
  specialize (Hp vote eq_refl).
  assert ((∃ val, checked vs vote val) ∨ (∀ val, ¬ checked vs vote val)) as [[val Hc]|Hno].
  { destruct (Validators (valSet vs) !! idx vote) as [val|] eqn:E.
    - destruct (decide (checked vs vote val)) as [|Hn]; [left; eauto|right].
      intros val' Hc. pose proof Hc as (_ & _ & _ & Hval & _). rewrite E in Hval. injection Hval as <-. done.
    - right. intros val (_ & _ & _ & Hval & _). congruence. }
  2: { destruct (addVote_unchecked vs vote Hno) as [e [[E _]|[_ E]]]; eexists _, vs; split_and!; try done; apply advances_refl. }
  pose proof (addVote_checked vs vote val Hvi Hk Hp Hc) as H0. pose proof Hc as (_ & _ & _ & Hval & _).
  destruct (known_vote vs (idx vote) (Key (v_BlockID vote))) as [ex|] eqn:Ek.
  { eexists _, vs. split_and!; [exact H0|done|apply advances_refl]. }
  destruct H0 as [[Hvv E]|[_ [e E]]]; [|eexists _, vs; split_and!; [exact E|done|apply advances_refl]].
  destruct (addVerifiedVote_run vs (idx vote) vote val Hvi Hvv Hval) as (added & vs' & Eadd & Hvi' & Hadv & Hadd & _).
  { apply known_vote_None; [done|by eapply lookup_lt_Some|done]. }
  rewrite E, (bind_run _ _ _ _ _ Eadd). destruct (canonical_vote vs (idx vote)) as [c|] eqn:Ecn.
  - eexists _, vs'. split_and!; [by destruct added|done|done].
  - destruct added; [|by destruct Hadd]. eexists _, vs'. by split_and!.
Qed.

(** ** SetPeerMaj23 *)
Lemma SetPeerMaj23_step vs peer b : vinv vs → ∃ r vs', SetPeerMaj23 peer b vs = Ok (r, vs') ∧ vinv vs' ∧ advances vs vs'.
Proof.
  intros Hvi. unfold SetPeerMaj23. rewrite (bind_run _ _ vs vs vs) by done.
  destruct (peerMaj23s vs !! peer) as [b0|].
  { destruct (Equals b0 b); eexists _, vs; split_and!; try done; apply advances_refl. }
  set (vs1 := set_peerMaj23s (<[peer := b]> (peerMaj23s vs)) vs).
  assert (vinv vs1) as Hvi1.
  { destruct Hvi as [H1 H2 H3 H4 H5 H6 H7]. split; try done.
    - intros i v Hi. apply (valid_vote_frame _ _ _ vs); [done|]. by apply H5.
    - intros k bv Hk. apply (bvinv_frame _ _ _ vs); [done|done|]. by apply H6. }
  rewrite (bind_run _ _ vs tt vs1) by done. rewrite (bind_run _ _ vs1 vs1 vs1) by done.
  change (votesByBlock vs1) with (votesByBlock vs).
  assert (∀ bv, bvinv VerifySignature key_Address MarshalDelimited vs1 (Key b) bv →
    (votesByBlock vs !! Key b = None → bv_sum bv = 0) →
    (∀ bv0, votesByBlock vs !! Key b = Some bv0 → bv_sum bv = bv_sum bv0 ∧ bv_votes bv = bv_votes bv0) →
    vinv (put_block (Key b) bv vs1)) as Hput.
  { intros bv Hbv Hnew Hold. destruct Hvi1 as [H1 H2 H3 H4 H5 H6 H7]. split; try done.
    - intros i v Hi. apply (valid_vote_frame _ _ _ vs1); [done|]. by apply H5.
    - intros k bvk Hk. apply (bvinv_frame _ _ _ vs1); [done|done|].
      unfold put_block in Hk. cbn [votesByBlock set_votesByBlock] in Hk. apply lookup_insert_Some in Hk as [[<- <-]|[_ Hk]]; [done|by apply H6].
    - unfold maj_inv in *. change (maj23 (put_block (Key b) bv vs1)) with (maj23 vs1).
      destruct (maj23 vs1) as [m|] eqn:Em.
      + destruct H7 as (Hpm & bvm & Hbvm & Hq & Hcan). split; [done|].
        destruct (decide (Key m = Key b)) as [Ek|Hne].
        * exists bv. cbn. rewrite Ek, lookup_insert_eq. rewrite Ek in Hbvm. destruct (Hold bvm Hbvm) as [Es Ev].
          split_and!; [done|by rewrite Es|]. intros i Hi. rewrite Ev in Hi. by apply Hcan.
        * exists bvm. cbn. rewrite lookup_insert_ne by done. by split_and!.
      + intros k bvk Hk. unfold put_block in Hk. cbn [votesByBlock set_votesByBlock] in Hk.
        apply lookup_insert_Some in Hk as [[<- <-]|[_ Hk]]; [|by apply (H7 k)].
        destruct (votesByBlock vs !! Key b) as [bv0|] eqn:E0.
        * destruct (Hold bv0 eq_refl) as [-> _]. by apply (H7 (Key b)).
        * rewrite Hnew by done. cbn. pose proof (power_nonneg _ (wv_pos _ H1)). cbn in *. lia. }
  destruct (votesByBlock vs !! Key b) as [bv|] eqn:Eb.
  - destruct (peerMaj23 bv); [eexists _, vs1; split_and!; [done|done|by split]|].
    eexists _, _. split_and!; [done| |by split]. apply Hput; [|done|by intros bv0 [= <-]].
    pose proof (vi_blocks _ _ _ _ Hvi1 (Key b) bv Eb) as [H1 H2 H3 H4]. by split.
  - eexists _, _. split_and!; [done| |by split]. apply Hput; [|done|done]. apply newBlockVotes_bvinv.
Qed.

Lemma NewVoteSet_vinv ch h r t vals : wf_vals vals → h ≠ 0 →
  ∃ vs, NewVoteSet ch h r t vals = Ok vs ∧ vinv vs ∧ valSet vs = vals.
Proof.
  intros Hw Hh. unfold NewVoteSet. rewrite decide_False by done. eexists. split; [done|]. split; [|done].
  destruct (NewBitArray_good (Size vals)) as (Hg & Hs & Hz). unfold Size in *. rewrite !Nat2Z.id.
  split; cbn [valSet votes votesBitArray sum votesByBlock maj23].
  - done.
  - apply length_replicate.
  - split_and!; [done|lia|]. intros i _. by rewrite Hz, voted_replicate.
  - symmetry. apply weight_none. intros. apply voted_replicate.
  - intros i v Hi. by apply lookup_replicate in Hi as [? _].
  - intros k bv Hk. by rewrite lookup_empty in Hk.
  - unfold maj_inv. cbn. intros k bv Hk. by rewrite lookup_empty in Hk.
Qed.

(** ** Every vote set that can arise *)
Inductive vreach : VoteSet → Prop :=
| vr_new ch h r t vals vs :
    wf_vals vals → Forall (λ v : Validator, PubKey v ≠ None) (Validators vals) →
    NewVoteSet ch h r t vals = Ok vs → vreach vs
| vr_add vs vote r vs' :
    vreach vs → (∀ v, vote = Some v → proper_id (v_BlockID v)) → addVote vote vs = Ok (r, vs') → vreach vs'
| vr_peer vs peer b r vs' :
    vreach vs → SetPeerMaj23 peer b vs = Ok (r, vs') → vreach vs'.

Lemma vreach_vinv vs : vreach vs → vinv vs ∧ keys_ok vs.
Proof.
  induction 1 as [ch h r t vals vs Hw Hk E|vs vote r vs' _ [Hvi Hk] Hp E|vs peer b r vs' _ [Hvi Hk] E].
  - destruct (decide (h = 0)) as [->|Hh]; [done|].
    destruct (NewVoteSet_vinv ch h r t vals Hw Hh) as (vs0 & E0 & Hvi & Hv). rewrite E in E0. injection E0 as <-.
    split; [done|]. unfold keys_ok. by rewrite Hv.
  - destruct (addVote_step vs vote Hvi Hk Hp) as (r' & vs2 & E2 & Hvi2 & Hadv). rewrite E in E2. injection E2 as <- <-.
    split; [done|]. unfold keys_ok. pose proof (adv_frame _ _ Hadv) as (_ & _ & _ & _ & ->). done.
  - destruct (SetPeerMaj23_step vs peer b Hvi) as (r' & vs2 & E2 & Hvi2 & Hadv). rewrite E in E2. injection E2 as <- <-.
    split; [done|]. unfold keys_ok. pose proof (adv_frame _ _ Hadv) as (_ & _ & _ & _ & ->). done.
Qed.

(** ** Properties *)

(** C11: Every vote set built by NewVoteSet, AddVote and SetPeerMaj23, in any order and from any votes
    with a nil or complete block, satisfies the invariant: the bit arrays and sums agree with
    the votes stored, every stored vote was verified for the validator at its
    index, and [maj23] is set exactly when some block has votes with more than two thirds of
    the power.  The operations never panic on such a set, keep every vote seen, and never
    change a majority once it is found. *)
Theorem vote_set_invariant vs : vreach vs →
  vinv vs ∧
  (∀ vote, (∀ v, vote = Some v → proper_id (v_BlockID v)) →
     ∃ r vs', addVote vote vs = Ok (r, vs') ∧ advances vs vs') ∧
  (∀ peer b, ∃ r vs', SetPeerMaj23 peer b vs = Ok (r, vs') ∧ advances vs vs').
Proof.
  intros [Hvi Hk]%vreach_vinv. split_and!; [done| |].
  - intros vote Hp. destruct (addVote_step vs vote Hvi Hk Hp) as (r & vs' & E & _ & Ha). eauto.
  - intros peer b. destruct (SetPeerMaj23_step vs peer b Hvi) as (r & vs' & E & _ & Ha). eauto.
Qed.

(** What AddVote answers.  A vote that is not valid for the set is never added and changes
    nothing; a second copy of a known vote is answered with neither addition nor error; a known
    vote with another signature is an error; a valid first vote of a validator is added
    without error and counted; and a valid vote of a validator that voted for another
    block is reported as a conflict with its canonical vote. *)
Theorem addVote_results vs vote :
  vreach vs → proper_id (v_BlockID vote) → v_ValidatorAddress vote ≠ [] →
  let i := idx vote in
  let known := known_vote vs i (Key (v_BlockID vote)) in
  (¬ valid_vote vs i vote → ∃ e, addVote (Some vote) vs = Ok ((false, e), vs) ∧ (e = None → known ≠ None)) ∧
  (valid_vote vs i vote → ∀ ex, known = Some ex →
     addVote (Some vote) vs = Ok ((false, if decide (v_Signature ex = v_Signature vote) then None
                                          else Some ErrVoteNonDeterministicSignature), vs)) ∧
  (valid_vote vs i vote → known = None →
     ∃ added vs', addVote (Some vote) vs
       = Ok ((added, (λ c, ErrVoteConflictingVotes c vote) <$> canonical_vote vs i), vs') ∧
       (canonical_vote vs i = None → added = true) ∧
       (∀ j, voted (votes vs') j = bool_decide (j = i) || voted (votes vs) j) ∧
       (added = true → ∃ bv, votesByBlock vs' !! Key (v_BlockID vote) = Some bv ∧ bv_votes bv !! i = Some (Some vote))).
Proof.
  intros [Hvi Hk]%vreach_vinv Hp Hne i known.
  assert (valid_vote vs i vote → ∃ val, checked vs vote val) as Hchk.
  { intros [H1 H2 H3 (val & Hval & Ha & _)]. exists val. unfold checked. fold i. rewrite H1. split_and!; (done || lia || tauto). }
  split_and!.
  - intros Hnv.
    destruct (Validators (valSet vs) !! i) as [val|] eqn:E.
    + destruct (decide (checked vs vote val)) as [Hc|Hn].
      * pose proof (addVote_checked vs vote val Hvi Hk Hp Hc) as H0. fold i known in H0. destruct known as [ex|].
        -- eexists. split; [exact H0|done].
        -- destruct H0 as [[Hvv _]|[_ [e E']]]; [done|]. exists (Some e). done.
      * destruct (addVote_unchecked vs vote) as [e [[E' _]|[? _]]]; [|exists (Some e); done|done].
        intros val' Hc. pose proof Hc as (_ & _ & _ & Hval & _). fold i in Hval. congruence.
    + destruct (addVote_unchecked vs vote) as [e [[E' _]|[? _]]]; [|exists (Some e); done|done].
      intros val' (_ & _ & _ & Hval & _). fold i in Hval. congruence.
  - intros Hvv ex Hex. destruct (Hchk Hvv) as [val Hc].
    pose proof (addVote_checked vs vote val Hvi Hk Hp Hc) as H0. fold i known in H0. by rewrite Hex in H0.
  - intros Hvv Hkn. destruct (Hchk Hvv) as [val Hc]. pose proof Hc as (_ & _ & _ & Hval & _). fold i in Hval.
    pose proof (addVote_checked vs vote val Hvi Hk Hp Hc) as H0. fold i known in H0. rewrite Hkn in H0.
    destruct H0 as [[_ E]|[? _]]; [|done].
    destruct (addVerifiedVote_run vs i vote val Hvi Hvv Hval) as (added & vs' & Eadd & Hvi' & Hadv & Hadd & Hv & Hin).
    { apply known_vote_None; [done|by eapply lookup_lt_Some|done]. }
    exists added, vs'. rewrite E, (bind_run _ _ _ _ _ Eadd). split_and!; [|by destruct added; [|intros ?; destruct Hadd]|done|done].
    destruct (canonical_vote vs i) as [c|]; [by destruct added|]. destruct added; [done|by destruct Hadd].
Qed.

(** The power behind a majority. *)
Definition voted_for (vs : VoteSet) (b : BlockID) (i : nat) : bool :=
  match votes vs !! i with Some (Some v) => bool_decide (v_BlockID v = b) | _ => false end.

Lemma maj_weight vs b : vinv vs → maj23 vs = Some b →
  2 * power (Validators (valSet vs)) < 3 * weight (Validators (valSet vs)) (voted_for vs b).
Proof.
  intros Hvi Hm. pose proof (vi_maj _ _ _ _ Hvi) as Hmaj. unfold maj_inv in Hmaj. rewrite Hm in Hmaj.
  destruct Hmaj as (Hp & bv & Hbv & Hq & Hcan). eapply Z.lt_le_trans; [exact Hq|].
  apply Z.mul_le_mono_nonneg_l; [lia|]. rewrite (bi_sum _ _ _ _ _ _ (vi_blocks _ _ _ _ Hvi _ _ Hbv)).
  apply weight_mono; [apply (vi_vals _ _ _ _ Hvi)|]. intros i _ Hi.
  destruct (Hcan i Hi) as (v & Hv & Hkey). unfold voted_for. rewrite Hv. apply bool_decide_eq_true_2.
  apply Key_inj; [apply (vi_votes _ _ _ _ Hvi i v Hv)|done|done].
Qed.

Lemma voted_for_vote vs b i : vinv vs → voted_for vs b i = true →
  ∃ v, votes vs !! i = Some (Some v) ∧ valid_vote vs i v ∧ v_BlockID v = b.
Proof.
  intros Hvi Hi. unfold voted_for in Hi. destruct (votes vs !! i) as [[v|]|] eqn:E; try done.
  apply bool_decide_eq_true_1 in Hi. exists v. split_and!; [done|by apply (vi_votes _ _ _ _ Hvi)|done].
Qed.

(** C5: A majority is a real one, and two different majorities of one step convict: if a
    reachable vote set reports [b1], validators with more than two thirds of the power have verified votes for
    [b1] stored as their canonical votes; if moreover another reachable vote set for the same chain, height,
    round, type and validators reports a different block, validators with more than a
    third of the power have signed two different votes of that step. *)
Theorem majority_safety vs1 b1 :
  vreach vs1 → maj23 vs1 = Some b1 →
  2 * power (Validators (valSet vs1)) < 3 * weight (Validators (valSet vs1)) (voted_for vs1 b1) ∧
  (∀ i, voted_for vs1 b1 i = true → ∃ v, votes vs1 !! i = Some (Some v) ∧ valid_vote vs1 i v ∧ v_BlockID v = b1) ∧
  ∀ vs2 b2, vreach vs2 → same_frame vs1 vs2 → maj23 vs2 = Some b2 → b1 ≠ b2 →
    ∃ P, power (Validators (valSet vs1)) < 3 * weight (Validators (valSet vs1)) P ∧
      ∀ i, P i = true → ∃ v1 v2, valid_vote vs1 i v1 ∧ valid_vote vs1 i v2 ∧
        v_BlockID v1 = b1 ∧ v_BlockID v2 = b2.
Proof.
  intros [Hvi1 _]%vreach_vinv Hm1. pose proof (maj_weight vs1 b1 Hvi1 Hm1) as Hw1.
  split_and!; [done|by intros i; apply voted_for_vote|].
  intros vs2 b2 [Hvi2 _]%vreach_vinv Hf Hm2 Hne. pose proof (maj_weight vs2 b2 Hvi2 Hm2) as Hw2.
  pose proof Hf as (_ & _ & _ & _ & Ev). rewrite Ev in Hw2.
  exists (λ i, voted_for vs1 b1 i && voted_for vs2 b2 i). split.
  - apply weight_quorums; [apply (vi_vals _ _ _ _ Hvi1)|done|done].
  - intros i [H1 H2]%andb_true_iff. destruct (voted_for_vote _ _ _ Hvi1 H1) as (v1 & _ & Hv1 & E1).
    destruct (voted_for_vote _ _ _ Hvi2 H2) as (v2 & _ & Hv2 & E2). exists v1, v2. split_and!; try done.
    apply (valid_vote_frame _ _ _ vs2); [|done]. destruct Hf as (? & ? & ? & ? & ?). by split_and!.
Qed.

(** ** MakeCommit *)
Definition mk_sig (flag : Z) (v : Vote) : CommitSig :=
  {| cs_BlockIDFlag := flag; cs_ValidatorAddress := v_ValidatorAddress v; cs_Timestamp := v_Timestamp v; cs_Signature := v_Signature v |}.

Definition sig_of (m : BlockID) (o : option Vote) : CommitSig :=
  match o with
  | None => NewCommitSigAbsent
  | Some v =>
      if IsComplete (v_BlockID v)
      then (if decide (v_BlockID v = m) then mk_sig BlockIDFlagCommit v else NewCommitSigAbsent)
      else mk_sig BlockIDFlagNil v
  end.

Lemma commit_sigs_run m l : (∀ v, Some v ∈ l → proper_id (v_BlockID v)) → commit_sigs m l = Ok (sig_of m <$> l).
Proof.
  induction l as [|o l IH]; intros Hp; [done|]. cbn [commit_sigs].
  assert (commit_sigs m l = Ok (sig_of m <$> l)) as E by (apply IH; intros v Hv; apply Hp; by apply list_elem_of_further).
  destruct o as [v|]; cbn [Vote_CommitSig outcome_bind]; [|by rewrite E].
  destruct (Hp v (list_elem_of_here _ _)) as [Hz _]. rewrite fmap_cons. cbn [sig_of].
  destruct (IsComplete (v_BlockID v)) eqn:Ec; cbn [outcome_bind].
  - rewrite E. cbn [outcome_bind]. unfold ForBlock at 1. cbn [cs_BlockIDFlag].
    destruct (Equals (v_BlockID v) m) eqn:Ee; cbn.
    + apply Equals_eq in Ee. by rewrite decide_True.
    + rewrite decide_False; [done|]. intros Hv. apply Equals_eq in Hv. congruence.
  - destruct Hz as [Hz|?]; [|done]. rewrite Hz. cbn [outcome_bind]. by rewrite E.
Qed.

(** The vote that the commit stands for at an index is the vote it was made from. *)
Lemma GetVote_sig_of vs m sigs i v :
  valid_vote vs i v → signedMsgType vs = PrecommitType → sigs !! i = Some (sig_of m (Some v)) →
  Absent (sig_of m (Some v)) = false →
  GetVote {| c_Height := height vs; c_Round := round vs; c_BlockID := m; c_Signatures := sigs |} (Z.of_nat i) = Ok v ∧
  cs_Signature (sig_of m (Some v)) = v_Signature v.
Proof.
  intros [H1 (Hh & Hr & Ht) [Hz _] _] Htype Hi Ha. unfold GetVote. cbn [c_Signatures].
  assert (slice_get sigs (Z.of_nat i) = Ok (sig_of m (Some v))) as -> by (apply slice_get_Ok; rewrite Nat2Z.id; split; [lia|done]).
  cbn [outcome_bind c_BlockID c_Height c_Round]. rewrite <-H1, <-Hh, <-Hr, <-Htype, <-Ht. cbn [sig_of] in *.
  destruct (IsComplete (v_BlockID v)) eqn:Ec.
  - destruct (decide (v_BlockID v = m)) as [<-|]; [|done]. by destruct v.
  - destruct Hz as [Hz%IsZero_eq|?]; [|done].
    change (cs_BlockID (mk_sig BlockIDFlagNil v) m) with (Ok BlockID_nil). cbn [outcome_bind].
    rewrite <-Hz. by destruct v.
Qed.

(** C28: The commit made from a precommit majority for a block verifies: for every reachable vote
    set of precommits with a majority for a complete block, MakeCommit returns a
    commit that VerifyCommit of the same validators accepts for that chain, block and
    height. *)
Theorem MakeCommit_verifies vs b :
  vreach vs → signedMsgType vs = PrecommitType → maj23 vs = Some b → IsComplete b = true →
  ∃ c s', MakeCommit vs = Ok c ∧ VerifyCommit (chainID vs) b (height vs) c (valSet vs) = Ok (None, s').
Proof.
  intros [Hvi _]%vreach_vinv Ht Hm Hb. unfold MakeCommit. rewrite decide_False by (rewrite Ht; tauto). rewrite Hm.
  rewrite commit_sigs_run.
  2: { intros v [i Hi]%list_elem_of_lookup_1. by apply (vi_votes _ _ _ _ Hvi i v Hi). }
  cbn [outcome_bind]. set (c := {| c_Height := _ |}).
  destruct (proj2 (VerifyCommit_spec VerifySignature MarshalDelimited (chainID vs) (valSet vs) b (height vs) c (vi_vals _ _ _ _ Hvi)))
    as [s' E]; [|by exists c, s']. split_and!.
  - unfold commit_matches. cbn [c c_Signatures c_Height c_BlockID]. rewrite length_fmap, (vi_len _ _ _ _ Hvi). done.
  - intros i cs Hi Ha. pose proof Hi as Hi'. cbn [c c_Signatures] in Hi'. apply list_lookup_fmap_Some in Hi' as (o & -> & Ho).
    destruct o as [v|]; [|done]. pose proof (vi_votes _ _ _ _ Hvi i v Ho) as Hvv.
    destruct (GetVote_sig_of vs b (c_Signatures c) i v Hvv Ht Hi Ha) as [Eg Es].
    destruct (vv_signed _ _ _ _ _ _ Hvv) as (val & Hval & Haddr & Hver). unfold Vote_Verify in Hver.
    destruct (PubKey (val_info val)) as [k|] eqn:Ek; [|done]. destruct (decide _); [done|].
    destruct (VoteSignBytes MarshalDelimited (chainID vs) v) as [msg| |] eqn:Emsg; [|done..]. cbn in Hver.
    exists val, (sig_of b (Some v)), k, msg. split_and!; try done.
    + unfold Commit_VoteSignBytes. change (GetVote c (Z.of_nat i) = Ok v) in Eg. rewrite Eg. done.
    + rewrite Es. by destruct (VerifySignature k msg (v_Signature v)).
  - eapply Z.lt_le_trans; [by apply maj_weight|]. apply Z.mul_le_mono_nonneg_l; [lia|].
    apply weight_mono; [apply (vi_vals _ _ _ _ Hvi)|]. intros i _ Hi. unfold voted_for in Hi.
    destruct (votes vs !! i) as [[v|]|] eqn:Ev; try done. apply bool_decide_eq_true_1 in Hi.
    unfold for_block. cbn [c c_Signatures]. rewrite list_lookup_fmap, Ev. cbn [fmap option_fmap option_map].
    unfold sig_of. rewrite Hi, Hb, decide_True by done. done.
Qed.
End safety.

(** ** A run: the validators with powers 5, 3 and 2 of TmPriority.v *)
Definition sample_vote (i : Z) (b : BlockID) : Vote :=
  {| v_Type := PrecommitType; v_Height := 5; v_Round := 0; v_BlockID := b; v_Timestamp := 9;
     v_ValidatorAddress := [i]; v_ValidatorIndex := i - 1; v_Signature := sample_sign [i] (sample_msg b) |}.

Definition sample_addVote := TmVotes.addVote sample_verify sample_key_Address sample_marshal.

Fixpoint add_all (l : list Vote) (vs : VoteSet) : outcome VoteSet :=
  match l with
  | [] => Ok vs
  | v :: l' => let! (_, vs') := sample_addVote (Some v) vs in add_all l' vs'
  end.

Definition sample_votes (l : list Vote) : outcome VoteSet :=
  let! vs := NewVoteSet [7] 5 0 PrecommitType sample_set in add_all l vs.

Lemma sample_id_proper x : proper_id (sample_id x).
Proof. split; [right; done|]. cbn. unfold two32. lia. Qed.

Lemma add_all_reach l : ∀ vs vs', Forall (λ v, proper_id (v_BlockID v)) l →
  vreach sample_verify sample_key_Address sample_marshal vs → add_all l vs = Ok vs' →
  vreach sample_verify sample_key_Address sample_marshal vs'.
Proof.
  induction l as [|v l IH]; intros vs vs' Hp Hr E; cbn [add_all] in E; [by injection E as <-|].
  apply Forall_cons in Hp as [Hv Hp]. destruct (sample_addVote (Some v) vs) as [[r vs1]| |] eqn:E1; [|done..].
  cbn [outcome_bind] in E. apply (IH vs1 vs'); [exact Hp| |exact E]. eapply vr_add; [exact Hr| |exact E1].
  intros w [= <-]. exact Hv.
Qed.

Lemma sample_votes_reach l vs : Forall (λ v, proper_id (v_BlockID v)) l → sample_votes l = Ok vs →
  vreach sample_verify sample_key_Address sample_marshal vs.
Proof.
  intros Hp E. unfold sample_votes in E. cbn [outcome_bind] in E.
  destruct (NewVoteSet [7] 5 0 PrecommitType sample_set) as [vs0| |] eqn:E0; [|done..].
  cbn [outcome_bind] in E. eapply (add_all_reach l vs0); [done| |exact E]. eapply vr_new; [apply sample_set_balanced| |exact E0].
  by repeat constructor.
Qed.

(** Two validators vote for one block. *)
Definition sample_majority (x : Z) : VoteSet :=
  match sample_votes [sample_vote 1 (sample_id x); sample_vote 2 (sample_id x)] with
  | Ok vs => vs
  | _ => mkVoteSet [] 0 0 0 sample_set None [] 0 None ∅ ∅
  end.

Lemma sample_majority_reach x : x = 1 ∨ x = 2 →
  vreach sample_verify sample_key_Address sample_marshal (sample_majority x) ∧ maj23 (sample_majority x) = Some (sample_id x).
Proof.
  intros Hx. split.
  - eapply (sample_votes_reach [sample_vote 1 (sample_id x); sample_vote 2 (sample_id x)]).
    + repeat constructor; apply sample_id_proper.
    + destruct Hx as [->| ->]; vm_compute; reflexivity.
  - destruct Hx as [->| ->]; vm_compute; reflexivity.
Qed.

Lemma vote_set_invariant_witness :
  TmVoteInv.vinv sample_verify sample_key_Address sample_marshal (sample_majority 1).
Proof.
  destruct (vote_set_invariant sample_verify sample_key_Address sample_marshal (sample_majority 1)) as [H _].
  - apply sample_majority_reach. by left.
  - exact H.
Defined.

Lemma addVote_results_witness :
  ∃ e, sample_addVote (Some (sample_vote 9 (sample_id 1))) (sample_majority 1) = Ok ((false, e), sample_majority 1).
Proof.
  destruct (addVote_results sample_verify sample_key_Address sample_marshal (sample_majority 1) (sample_vote 9 (sample_id 1)))
    as [H _].
  - apply sample_majority_reach. by left.
  - apply sample_id_proper.
  - done.
  - destruct H as (e & E & _).
    + intros [_ _ _ (val & Hval & _)]. vm_compute in Hval. discriminate Hval.
    + exists e. exact E.
Defined.

Lemma majority_safety_witness :
  ∃ P, power (Validators (valSet (sample_majority 1))) < 3 * weight (Validators (valSet (sample_majority 1))) P.
Proof.
  destruct (majority_safety sample_verify sample_key_Address sample_marshal (sample_majority 1) (sample_id 1)) as (_ & _ & H).
  - apply sample_majority_reach. by left.
  - apply sample_majority_reach. by left.
  - destruct (H (sample_majority 2) (sample_id 2)) as (P & HP & _).
    + apply sample_majority_reach. by right.
    + by vm_compute.
    + apply sample_majority_reach. by right.
    + done.
    + exists P. exact HP.
Defined.

Lemma MakeCommit_verifies_witness (vs := sample_majority 1) :
  ∃ c s', MakeCommit vs = Ok c ∧
    TmTypes.VerifyCommit sample_verify sample_marshal (chainID vs) (sample_id 1) (height vs) c (valSet vs) = Ok (None, s').
Proof.
  apply (MakeCommit_verifies sample_verify sample_key_Address sample_marshal (sample_majority 1) (sample_id 1)).
  - apply sample_majority_reach. by left.
  - vm_compute. reflexivity.
  - vm_compute. reflexivity.
  - done.
Defined.

(** Two statements in the comments of VoteSet that its code does not keep.  When a validator
    whose canonical vote is for another block votes for the majority block, the vote replaces the
    canonical one, but unless a peer has claimed that majority it is not added to the votes
    of the block, although every canonical vote is said to have an entry there; and AddVote then
    reports that the vote was not added, although it is now the vote that List,
    GetByIndex and MakeCommit return. *)
Theorem majority_vote_not_recorded :
  (let! vs := sample_votes [sample_vote 3 (sample_id 2); sample_vote 1 (sample_id 1); sample_vote 2 (sample_id 1)] in
   let! (r, vs') := sample_addVote (Some (sample_vote 3 (sample_id 1))) vs in
   Ok (r.1, votes vs !! 2%nat, votes vs' !! 2%nat,
       (λ bv, bv_votes bv !! 2%nat) <$> votesByBlock vs' !! Key (sample_id 1)))
  = Ok (false, Some (Some (sample_vote 3 (sample_id 2))), Some (Some (sample_vote 3 (sample_id 1))),
        Some (Some None)).
Proof. vm_compute. reflexivity. Qed.
