(* ===== verification/TmMerkle.v ===== *)
(** Merkle trees (src/sourcecodes/tendermint/crypto/merkle: tree.go, hash.go, proof.go): root
    hashes, recursive and iterative, and inclusion proofs.

    SHA-256 is a parameter.  The nodes of trailsFromByteSlices are mutated after they were returned,
    so they live in a store. *)

From S2P Require Import Prelude TmTypes.

(** ** Definitions *)

(** The nodes proofs are built from, in a store addressed by position. *)
Record ProofNode := mkProofNode {
  pn_Hash : bytes; pn_Parent : option nat; pn_Left : option nat; pn_Right : option nat }.
Abbreviation Store := (list ProofNode).

Section merkle.
Context (Sum : bytes → bytes).

Definition leafPrefix : bytes := [0].
Definition innerPrefix : bytes := [1].
Definition emptyHash : bytes := Sum [].
Definition leafHash (leaf : bytes) : bytes := Sum (leafPrefix ++ leaf).
Definition innerHash (left right : bytes) : bytes := Sum (innerPrefix ++ left ++ right).

(** [bits.Len] of a positive number. *)
Definition bits_Len (x : Z) : Z := if decide (x = 0) then 0 else Z.log2 x + 1.

Definition getSplitPoint (length : Z) : outcome Z :=
  if decide (length < 1) then Panic
  else
    let k := Z.shiftl 1 (bits_Len length - 1) in
    Ok (if decide (k = length) then Z.shiftr k 1 else k).

Definition split_at {A} (k : Z) (l : list A) : outcome (list A * list A) :=
  if decide (0 ≤ k ≤ Z.of_nat (length l)) then Ok (take (Z.to_nat k) l, drop (Z.to_nat k) l) else Panic.

Fixpoint hash_slices (fuel : nat) (items : list bytes) : outcome bytes :=
  match items with
  | [] => Ok emptyHash
  | [x] => Ok (leafHash x)
  | _ =>
      match fuel with
      | O => Diverge
      | S f =>
          let! k := getSplitPoint (Z.of_nat (length items)) in
          let! (l, r) := split_at k items in
          let! hl := hash_slices f l in
          let! hr := hash_slices f r in
          Ok (innerHash hl hr)
      end
  end.
Definition HashFromByteSlices (items : list bytes) : outcome bytes := hash_slices (length items) items.

(** One pass of the inner loop of the iterative version, which overwrites the array it reads. *)
Fixpoint iter_pass (fuel : nat) (items : list bytes) (rp wp size : Z) : outcome (list bytes * Z) :=
  if decide (rp < size) then
    match fuel with
    | O => Diverge
    | S f =>
        if decide (rp + 1 < size) then
          let! a := slice_get items rp in
          let! b := slice_get items (rp + 1) in
          let! items := slice_set items wp (innerHash a b) in
          iter_pass f items (rp + 2) (wp + 1) size
        else
          let! a := slice_get items rp in
          let! items := slice_set items wp a in
          iter_pass f items (rp + 1) (wp + 1) size
    end
  else Ok (items, wp).

Fixpoint iter_loop (fuel : nat) (items : list bytes) (size : Z) : outcome bytes :=
  if decide (size = 0) then Ok emptyHash
  else if decide (size = 1) then slice_get items 0
  else
    match fuel with
    | O => Diverge
    | S f =>
        let! (items, size) := iter_pass (length items) items 0 0 size in
        iter_loop f items size
    end.
Definition HashFromByteSlicesIterative (input : list bytes) : outcome bytes :=
  iter_loop (length input) (leafHash <$> input) (Z.of_nat (length input)).

(** *** Proofs *)
Definition MaxAunts : Z := 100.
Record Merkle_Proof := mkProof { p_Total : Z; p_Index : Z; p_LeafHash : bytes; p_Aunts : list bytes }.

(** A nil slice is [None]. *)
Fixpoint compute_aunts (fuel : nat) (index total : Z) (leaf_hash : bytes) (inner : list bytes) : outcome (option bytes) :=
  if decide (total ≤ index ∨ index < 0 ∨ total ≤ 0) then Ok None
  else if decide (total = 1) then Ok (if decide (inner = []) then Some leaf_hash else None)
  else
    match fuel, last inner with
    | _, None => Ok None
    | O, _ => Diverge
    | S f, Some aunt =>
        let rest := take (length inner - 1) inner in
        let! numLeft := getSplitPoint total in
        if decide (index < numLeft) then
          let! h := compute_aunts f index numLeft leaf_hash rest in
          Ok ((λ leftHash, innerHash leftHash aunt) <$> h)
        else
          let! h := compute_aunts f (index - numLeft) (total - numLeft) leaf_hash rest in
          Ok ((λ rightHash, innerHash aunt rightHash) <$> h)
    end.
Definition computeHashFromAunts (index total : Z) (leaf_hash : bytes) (inner : list bytes) : outcome (option bytes) :=
  compute_aunts (length inner) index total leaf_hash inner.
Definition ComputeRootHash (sp : Merkle_Proof) : outcome (option bytes) :=
  computeHashFromAunts (p_Index sp) (p_Total sp) (p_LeafHash sp) (p_Aunts sp).

Inductive proof_error :=
| ErrProofTotal | ErrProofIndex | ErrInvalidLeafHash | ErrInvalidRootHash
| ErrLeafHashSize | ErrTooManyAunts | ErrAuntSize (i : nat).

(** [bytes.Equal] takes a nil slice for an empty one. *)
Definition Verify (sp : Merkle_Proof) (rootHash leaf : bytes) : outcome (option proof_error) :=
  let leaf_hash := leafHash leaf in
  if decide (p_Total sp < 0) then Ok (Some ErrProofTotal)
  else if decide (p_Index sp < 0) then Ok (Some ErrProofIndex)
  else if decide (p_LeafHash sp ≠ leaf_hash) then Ok (Some ErrInvalidLeafHash)
  else
    let! computedHash := ComputeRootHash sp in
    if decide (default [] computedHash ≠ rootHash) then Ok (Some ErrInvalidRootHash)
    else Ok None.

Fixpoint validate_aunts (i : nat) (aunts : list bytes) : option proof_error :=
  match aunts with
  | [] => None
  | a :: aunts' => if decide (len a ≠ HashSize) then Some (ErrAuntSize i) else validate_aunts (S i) aunts'
  end.
Definition Proof_ValidateBasic (sp : Merkle_Proof) : option proof_error :=
  if decide (p_Total sp < 0) then Some ErrProofTotal
  else if decide (p_Index sp < 0) then Some ErrProofIndex
  else if decide (len (p_LeafHash sp) ≠ HashSize) then Some ErrLeafHashSize
  else if decide (MaxAunts < Z.of_nat (length (p_Aunts sp))) then Some ErrTooManyAunts
  else validate_aunts 0 (p_Aunts sp).

Definition alloc (n : ProofNode) : M Store nat := λ st, Ok (length st, st ++ [n]).
Definition load (a : nat) : M Store ProofNode := λ st, match st !! a with Some n => Ok (n, st) | None => Panic end.
Definition store (a : nat) (n : ProofNode) : M Store unit := λ st, Ok (tt, <[a := n]> st).

Fixpoint trails_go (fuel : nat) (items : list bytes) : M Store (list nat * nat) :=
  match items with
  | [] => root <- alloc (mkProofNode emptyHash None None None) ;; ret ([], root)
  | [x] => trail <- alloc (mkProofNode (leafHash x) None None None) ;; ret ([trail], trail)
  | _ =>
      match fuel with
      | O => diverge
      | S f =>
          k <- lift (getSplitPoint (Z.of_nat (length items))) ;;
          lr <- lift (split_at k items) ;;
          ls <- trails_go f lr.1 ;;
          rs <- trails_go f lr.2 ;;
          leftRoot <- load ls.2 ;;
          rightRoot <- load rs.2 ;;
          root <- alloc (mkProofNode (innerHash (pn_Hash leftRoot) (pn_Hash rightRoot)) None None None) ;;
          store ls.2 (mkProofNode (pn_Hash leftRoot) (Some root) (pn_Left leftRoot) (Some rs.2)) ;;;
          store rs.2 (mkProofNode (pn_Hash rightRoot) (Some root) (Some ls.2) (pn_Right rightRoot)) ;;;
          ret (ls.1 ++ rs.1, root)
      end
  end.
Definition trailsFromByteSlices (items : list bytes) : M Store (list nat * nat) := trails_go (length items) items.

Fixpoint FlattenAunts (fuel : nat) (spn : option nat) (st : Store) : outcome (list bytes) :=
  match spn with
  | None => Ok []
  | Some a =>
      match fuel with
      | O => Diverge
      | S f =>
          let! (n, _) := load a st in
          let! here := match pn_Left n, pn_Right n with
                       | Some b, _ | None, Some b => let! (m, _) := load b st in Ok [pn_Hash m]
                       | None, None => Ok []
                       end in
          let! rest := FlattenAunts f (pn_Parent n) st in
          Ok (here ++ rest)
      end
  end.

Fixpoint make_proofs (total i : Z) (trails : list nat) (st : Store) : outcome (list Merkle_Proof) :=
  match trails with
  | [] => Ok []
  | t :: trails' =>
      let! (n, _) := load t st in
      let! aunts := FlattenAunts (length st) (Some t) st in
      let! rest := make_proofs total (i + 1) trails' st in
      Ok (mkProof total i (pn_Hash n) aunts :: rest)
  end.
Definition ProofsFromByteSlices (items : list bytes) : outcome (bytes * list Merkle_Proof) :=
  let! (r, st) := trailsFromByteSlices items [] in
  let! (root, _) := load r.2 st in
  let! proofs := make_proofs (Z.of_nat (length items)) 0 r.1 st in
  Ok (pn_Hash root, proofs).
End merkle.

(** ** Trees

    The trees the functions above walk through, as data: the left subtree is the largest
    complete one that leaves something for the right. *)
Inductive tree := Leaf (b : bytes) | Node (l r : tree).

Fixpoint leaves (t : tree) : list bytes :=
  match t with Leaf b => [b] | Node l r => leaves l ++ leaves r end.
Definition size (t : tree) : nat := length (leaves t).

Fixpoint shape (t : tree) : Prop :=
  match t with
  | Leaf _ => True
  | Node l r =>
      (∃ e : nat, size l = (2 ^ e)%nat) ∧ (size r ≤ size l)%nat ∧ shape l ∧ shape r
  end.

Lemma size_pos t : (0 < size t)%nat.
Proof. unfold size. induction t; simpl; [lia|]. rewrite length_app. lia. Qed.

Lemma size_Node l r : size (Node l r) = (size l + size r)%nat.
Proof. unfold size. simpl. apply length_app. Qed.

(** The split point of [n] is the power of two below it. *)
Lemma getSplitPoint_pow (e : nat) (m : Z) :
  0 < m ≤ 2 ^ Z.of_nat e → getSplitPoint (2 ^ Z.of_nat e + m) = Ok (2 ^ Z.of_nat e).
Proof.
  intros Hm. pose proof (Z.pow_pos_nonneg 2 (Z.of_nat e)). unfold getSplitPoint, bits_Len.
  rewrite decide_False by lia. rewrite (decide_False (P := _ = 0)) by lia.
  rewrite Z.shiftl_1_l. f_equal.
  replace (Z.log2 (2 ^ Z.of_nat e + m) + 1 - 1) with (Z.log2 (2 ^ Z.of_nat e + m)) by lia.
  destruct (decide (m = 2 ^ Z.of_nat e)) as [->|Hne].
  - assert (E : 2 ^ Z.of_nat e + 2 ^ Z.of_nat e = 2 ^ (Z.of_nat e + 1)) by (rewrite Z.pow_add_r; lia).
    rewrite E, Z.log2_pow2 by lia. rewrite decide_True by done.
    rewrite Z.shiftr_div_pow2 by lia. rewrite <-E. change (2 ^ 1) with 2.
    replace (2 ^ Z.of_nat e + 2 ^ Z.of_nat e) with (2 ^ Z.of_nat e * 2) by lia. apply Z.div_mul. lia.
  - rewrite (Z.log2_unique' (2 ^ Z.of_nat e + m) (Z.of_nat e) m) by lia.
    rewrite decide_False; lia.
Qed.

Lemma getSplitPoint_Node l r :
  shape (Node l r) → getSplitPoint (Z.of_nat (size (Node l r))) = Ok (Z.of_nat (size l)).
Proof.
  intros ((e & He) & Hle & _). rewrite size_Node. pose proof (size_pos r).
  assert (E : Z.of_nat (size l) = 2 ^ Z.of_nat e) by (rewrite He, Nat2Z.inj_pow; done).
  rewrite Nat2Z.inj_add, E. apply getSplitPoint_pow. lia.
Qed.

Lemma split_at_app {A} (l1 l2 : list A) : split_at (Z.of_nat (length l1)) (l1 ++ l2) = Ok (l1, l2).
Proof.
  unfold split_at. rewrite length_app. rewrite decide_True by lia.
  by rewrite Nat2Z.id, take_app_length, drop_app_length.
Qed.

(** Every non-empty list is the list of leaves of such a tree. *)
Lemma tree_exists (items : list bytes) : items ≠ [] → ∃ t, shape t ∧ leaves t = items.
Proof.
  remember (length items) as n eqn:E. revert items E.
  induction (lt_wf n) as [n _ IH]. intros items -> Hne.
  destruct items as [|x items]; [done|]. destruct items as [|y items].
  { by exists (Leaf x). }
  set (n := length (x :: y :: items)) in *. assert (Hn : (2 ≤ n)%nat) by (simpl in *; lia).
  set (e := Nat.log2 (n - 1)). assert (He : (2 ^ e ≤ n - 1 < 2 * 2 ^ e)%nat).
  { pose proof (Nat.log2_spec (n - 1) ltac:(lia)). fold e in H. cbn [Nat.pow] in H. lia. }
  assert (Hl : length (take (2 ^ e) (x :: y :: items)) = (2 ^ e)%nat) by (rewrite length_take; fold n; lia).
  assert (Hr : length (drop (2 ^ e) (x :: y :: items)) = (n - 2 ^ e)%nat) by (rewrite length_drop; fold n; lia).
  pose proof (Nat.pow_nonzero 2 e).
  destruct (IH (2 ^ e)%nat ltac:(lia) (take (2 ^ e) (x :: y :: items))) as (l & Sl & El).
  { done. } { intros E0. rewrite E0 in Hl. simpl in Hl. lia. }
  destruct (IH (n - 2 ^ e)%nat ltac:(lia) (drop (2 ^ e) (x :: y :: items))) as (r & Sr & Er).
  { done. } { intros E0. rewrite E0 in Hr. simpl in Hr. lia. }
  exists (Node l r). split.
  - cbn [shape]. unfold size. rewrite El, Er, Hl, Hr. split_and!; [by exists e|lia|done|done].
  - simpl. rewrite El, Er. apply take_drop.
Qed.

(** The case of two or more items in the code, for the leaves of a node. *)
Lemma leaves_Node_case {A} l r (c0 : A) (c1 : bytes → A) (c2 : A) :
  match leaves (Node l r) with [] => c0 | [x] => c1 x | _ => c2 end = c2.
Proof.
  simpl. pose proof (size_pos l). pose proof (size_pos r). unfold size in *.
  destruct (leaves l) as [|x [|y l']]; simpl in *; [lia| |done].
  destruct (leaves r); simpl in *; [lia|done].
Qed.

(** ** Roots *)
Section roots.
Context (Sum : bytes → bytes).
Local Abbreviation innerHash := (innerHash Sum).
Local Abbreviation leafHash := (leafHash Sum).

(** The hash of a tree, given the hashes of its leaves. *)
Fixpoint fold_tree (f : bytes → bytes) (t : tree) : bytes :=
  match t with
  | Leaf b => f b
  | Node l r => innerHash (fold_tree f l) (fold_tree f r)
  end.
Definition tree_hash (t : tree) : bytes := fold_tree leafHash t.

Lemma hash_slices_tree t fuel :
  shape t → (size t ≤ S fuel)%nat → hash_slices Sum fuel (leaves t) = Ok (tree_hash t).
Proof.
  revert fuel. induction t as [b|l IHl r IHr]; intros fuel Hs Hf; [by destruct fuel|].
  pose proof (getSplitPoint_Node l r Hs) as Hk. destruct Hs as (_ & _ & Sl & Sr).
  rewrite size_Node in Hf. pose proof (size_pos l). pose proof (size_pos r).
  destruct fuel as [|fuel]; [lia|].
  cbn [hash_slices]. rewrite leaves_Node_case. fold (size (Node l r)). rewrite Hk. cbn [outcome_bind].
  cbn [leaves]. unfold size at 1. rewrite split_at_app. cbn [outcome_bind].
  rewrite IHl by (done || lia). cbn [outcome_bind]. rewrite IHr by (done || lia). done.
Qed.

Lemma HashFromByteSlices_tree t : shape t → HashFromByteSlices Sum (leaves t) = Ok (tree_hash t).
Proof. intros Hs. apply hash_slices_tree; [done|]. unfold size. lia. Qed.

Lemma HashFromByteSlices_total items : ∃ h, HashFromByteSlices Sum items = Ok h.
Proof.
  destruct (decide (items = [])) as [->|Hne]; [by eexists|].
  destruct (tree_exists items Hne) as (t & Hs & <-). eexists. by apply HashFromByteSlices_tree.
Qed.

(** One pass of the iterative version pairs up neighbours. *)
Fixpoint pair_up (hs : list bytes) : list bytes :=
  match hs with
  | a :: b :: hs' => innerHash a b :: pair_up hs'
  | _ => hs
  end.

Lemma pair_ind {A} (P : list A → Prop) :
  P [] → (∀ a, P [a]) → (∀ a b l, P l → P (a :: b :: l)) → ∀ l, P l.
Proof.
  intros P0 P1 P2. enough (∀ l, P l ∧ ∀ a, P (a :: l)) by naive_solver.
  induction l as [|x l [IH1 IH2]]; split; auto.
Qed.

Lemma length_pair_up hs : length (pair_up hs) = Nat.div2 (S (length hs)).
Proof. induction hs as [| |a b hs IH] using pair_ind; [done..|]. simpl in *. rewrite IH. done. Qed.

Lemma pair_up_app (n : nat) hs1 hs2 : length hs1 = (2 * n)%nat → pair_up (hs1 ++ hs2) = pair_up hs1 ++ pair_up hs2.
Proof.
  revert n. induction hs1 as [|a|a b hs1 IH] using pair_ind; intros n Hn; simpl in *; [done|lia|].
  f_equal. apply (IH (n - 1)%nat). lia.
Qed.

(** Writing at the write position and moving it by one. *)
Lemma slice_set_next (out gap tail : list bytes) v :
  gap ≠ [] →
  slice_set (out ++ gap ++ tail) (Z.of_nat (length out)) v = Ok ((out ++ [v]) ++ drop 1 gap ++ tail).
Proof.
  intros Hg. destruct gap as [|g gap]; [done|]. unfold slice_set. rewrite !length_app. cbn [length].
  rewrite decide_True by lia. rewrite Nat2Z.id.
  rewrite insert_app_r_alt by lia. rewrite Nat.sub_diag. simpl. by rewrite <-app_assoc.
Qed.

Lemma slice_get_mid (l1 l2 : list bytes) x i :
  i = Z.of_nat (length l1) → slice_get (l1 ++ x :: l2) i = Ok x.
Proof. intros ->. apply slice_get_Ok. split; [lia|]. rewrite Nat2Z.id. by apply list_lookup_middle. Qed.

Lemma iter_pass_spec fuel out gap rest tail :
  (length rest ≤ fuel)%nat →
  ∃ junk, iter_pass Sum fuel (out ++ gap ++ rest ++ tail) (Z.of_nat (length out + length gap)) (Z.of_nat (length out))
            (Z.of_nat (length out + length gap + length rest))
    = Ok (out ++ pair_up rest ++ junk, Z.of_nat (length out + length (pair_up rest))) ∧
    length (out ++ pair_up rest ++ junk) = length (out ++ gap ++ rest ++ tail).
Proof.
  revert fuel out gap. induction rest as [|a|a b rest IH] using pair_ind; intros fuel out gap Hf.
  - exists (gap ++ tail). simpl. destruct fuel; simpl; (rewrite decide_False by lia); rewrite !Nat.add_0_r;
      (split; [done|by simplify_list_eq]).
  - simpl in Hf. destruct fuel as [|fuel]; [lia|]. cbn [iter_pass].
    rewrite decide_True by (simpl; lia). rewrite (decide_False (P := _ < _)) by (simpl; lia).
    replace (out ++ gap ++ [a] ++ tail) with ((out ++ gap) ++ a :: tail) by (by simplify_list_eq).
    rewrite slice_get_mid by (rewrite length_app; lia). cbn [outcome_bind].
    replace ((out ++ gap) ++ a :: tail) with (out ++ (gap ++ [a]) ++ tail) by (by simplify_list_eq).
    rewrite slice_set_next by (by destruct gap). cbn [outcome_bind].
    exists (drop 1 (gap ++ [a]) ++ tail). destruct fuel; cbn [iter_pass]; rewrite decide_False by (simpl; lia).
    all: split; [f_equal; f_equal; [by simplify_list_eq|simpl; lia]|].
    all: rewrite !length_app, length_drop, !length_app; simpl; lia.
  - simpl in Hf. destruct fuel as [|fuel]; [lia|]. cbn [iter_pass].
    rewrite decide_True by (simpl; lia). rewrite decide_True by (simpl; lia).
    replace (out ++ gap ++ (a :: b :: rest) ++ tail) with ((out ++ gap) ++ a :: b :: rest ++ tail) by (by simplify_list_eq).
    rewrite slice_get_mid by (rewrite length_app; lia). cbn [outcome_bind].
    replace ((out ++ gap) ++ a :: b :: rest ++ tail) with ((out ++ gap ++ [a]) ++ b :: rest ++ tail) by (by simplify_list_eq).
    rewrite slice_get_mid by (rewrite !length_app; simpl; lia). cbn [outcome_bind].
    replace ((out ++ gap ++ [a]) ++ b :: rest ++ tail) with (out ++ (gap ++ [a; b]) ++ rest ++ tail) by (by simplify_list_eq).
    rewrite slice_set_next by (by destruct gap). cbn [outcome_bind].
    destruct (IH fuel (out ++ [innerHash a b]) (drop 1 (gap ++ [a; b]))) as (junk & E & L); [lia|].
    exists junk. rewrite length_drop, !length_app in E. simpl in E.
    replace (Z.of_nat (length out + length gap) + 2) with (Z.of_nat (length out + 1 + (length gap + 2 - 1))) by lia.
    replace (Z.of_nat (length out) + 1) with (Z.of_nat (length out + 1)) by lia.
    replace (Z.of_nat (length out + length gap + length (a :: b :: rest)))
      with (Z.of_nat (length out + 1 + (length gap + 2 - 1) + length rest)) by (simpl; lia).
    rewrite E. split.
    + f_equal. f_equal; [by simplify_list_eq|]. simpl. lia.
    + rewrite !length_app in L |- *. rewrite length_drop, !length_app in L. simpl in *. lia.
Qed.

Lemma size_1 t : size t = 1%nat → ∃ b, t = Leaf b.
Proof.
  destruct t as [b|l r]; [by exists b|]. rewrite size_Node.
  pose proof (size_pos l). pose proof (size_pos r). lia.
Qed.

(** Pairing up the hashes of the leaves does not change the hash of the tree. *)
Lemma pair_up_tree t : shape t → (2 ≤ size t)%nat →
  ∃ t', shape t' ∧ leaves t' = pair_up (leaves t) ∧ fold_tree id t' = fold_tree id t.
Proof.
  induction t as [b|l IHl r IHr]; intros Hs Hn; [unfold size in Hn; simpl in Hn; lia|].
  destruct Hs as ((e & He) & Hle & Sl & Sr). pose proof (size_pos r) as Hr. destruct e as [|e].
  - destruct (size_1 l) as (a & ->); [done|]. destruct (size_1 r) as (b & ->); [simpl in *; lia|].
    by exists (Leaf (innerHash a b)).
  - cbn [Nat.pow] in He. pose proof (Nat.pow_nonzero 2 e).
    destruct (IHl Sl) as (l' & Sl' & El & Fl); [lia|].
    assert (∃ r', shape r' ∧ leaves r' = pair_up (leaves r) ∧ fold_tree id r' = fold_tree id r) as (r' & Sr' & Er & Fr).
    { destruct (decide (size r = 1%nat)) as [[b ->]%size_1|]; [by exists (Leaf b)|]. apply IHr; [done|lia]. }
    assert (Zl : size l' = (2 ^ e)%nat).
    { unfold size in *. rewrite El, length_pair_up, He.
      replace (2 * 2 ^ e)%nat with (2 ^ e * 2)%nat by lia. rewrite Nat.div2_div.
      rewrite <-(Nat.div_unique (S (2 ^ e * 2)) 2 (2 ^ e) 1); lia. }
    assert (Zr : size r' = Nat.div2 (S (size r))) by (unfold size; by rewrite Er, length_pair_up).
    exists (Node l' r'). cbn [shape leaves fold_tree]. rewrite Fl, Fr, El, Er. split_and!; [by exists e| |done|done| |done].
    + rewrite Zl, Zr, Nat.div2_div. enough (S (size r) / 2 < S (2 ^ e))%nat by lia. apply Nat.Div0.div_lt_upper_bound. lia.
    + symmetry. apply (pair_up_app (2 ^ e)). unfold size in He. lia.
Qed.

Lemma iter_loop_tree fuel t tail :
  shape t → (size t ≤ S fuel)%nat →
  iter_loop Sum fuel (leaves t ++ tail) (Z.of_nat (size t)) = Ok (fold_tree id t).
Proof.
  revert t tail. induction fuel as [|fuel IH]; intros t tail Hs Hf; pose proof (size_pos t).
  { destruct (size_1 t) as (b & ->); [lia|]. done. }
  destruct (decide (size t = 1%nat)) as [[b ->]%size_1|]; [done|].
  cbn [iter_loop]. rewrite decide_False, decide_False by lia.
  destruct (iter_pass_spec (length (leaves t ++ tail)) [] [] (leaves t) tail) as (junk & E & _).
  { rewrite length_app. lia. }
  simpl in E. fold (size t) in E. change (Z.of_nat 0) with 0 in E. rewrite E. cbn [outcome_bind].
  destruct (pair_up_tree t) as (t' & St' & Et' & Ft'); [done|lia|].
  rewrite <-Et', <-Ft'. fold (size t'). apply IH; [done|].
  unfold size. rewrite Et', length_pair_up. fold (size t). rewrite Nat.div2_div.
  enough (S (size t) / 2 < size t)%nat by lia. apply Nat.Div0.div_lt_upper_bound. lia.
Qed.

Fixpoint map_leaves (f : bytes → bytes) (t : tree) : tree :=
  match t with Leaf b => Leaf (f b) | Node l r => Node (map_leaves f l) (map_leaves f r) end.

Lemma leaves_map f t : leaves (map_leaves f t) = f <$> leaves t.
Proof. induction t as [|l IHl r IHr]; simpl; [done|]. by rewrite IHl, IHr, fmap_app. Qed.

Lemma map_leaves_ok f t : shape t → shape (map_leaves f t) ∧ fold_tree id (map_leaves f t) = fold_tree f t.
Proof.
  induction t as [|l IHl r IHr]; [done|]. intros (He & Hle & Sl & Sr).
  destruct (IHl Sl) as [Sl' El], (IHr Sr) as [Sr' Er].
  simpl. unfold size in *. rewrite !leaves_map, !length_fmap, El, Er. done.
Qed.
End roots.

(** The iterative root computation, which overwrites the array of hashes it reads, returns
    the same root as the recursive definition for every list of items, and both return. *)
Theorem merkle_iterative (Sum : bytes → bytes) items :
  ∃ h, HashFromByteSlices Sum items = Ok h ∧ HashFromByteSlicesIterative Sum items = Ok h.
Proof.
  destruct (decide (items = [])) as [->|Hne]; [by eexists|].
  destruct (tree_exists items Hne) as (t & Hs & <-). exists (tree_hash Sum t).
  split; [by apply HashFromByteSlices_tree|].
  destruct (map_leaves_ok Sum (leafHash Sum) t Hs) as [Hs' E].
  pose proof (iter_loop_tree Sum (length (leaves t)) (map_leaves (leafHash Sum) t) [] Hs') as L.
  unfold size in L. rewrite leaves_map, length_fmap, app_nil_r, E in L. apply L. lia.
Qed.

(** ** Inclusion proofs *)
Section proofs.
Context (Sum : bytes → bytes).
Local Abbreviation innerHash := (innerHash Sum).
Local Abbreviation leafHash := (leafHash Sum).
Local Abbreviation tree_hash := (tree_hash Sum).

(** The siblings on the way from leaf [i] to the root, from the bottom. *)
Fixpoint aunts (t : tree) (i : nat) : list bytes :=
  match t with
  | Leaf _ => []
  | Node l r =>
      if decide (i < size l)%nat then aunts l i ++ [tree_hash r] else aunts r (i - size l) ++ [tree_hash l]
  end.

Lemma length_aunts t i : (i < size t)%nat → (length (aunts t i) < size t)%nat.
Proof.
  revert i. induction t as [|l IHl r IHr]; intros i Hi; [unfold size; simpl; lia|]. rewrite size_Node in *.
  pose proof (size_pos l). pose proof (size_pos r). cbn [aunts].
  case_decide; rewrite length_app; cbn [length]; [specialize (IHl i)|specialize (IHr (i - size l)%nat)]; lia.
Qed.

Lemma compute_aunts_snoc f index total lh inner aunt :
  0 ≤ index < total → total ≠ 1 →
  compute_aunts Sum (S f) index total lh (inner ++ [aunt])
  = let! numLeft := getSplitPoint total in
    if decide (index < numLeft) then
      let! h := compute_aunts Sum f index numLeft lh inner in Ok ((λ x, innerHash x aunt) <$> h)
    else
      let! h := compute_aunts Sum f (index - numLeft) (total - numLeft) lh inner in Ok ((λ x, innerHash aunt x) <$> h).
Proof.
  intros Hi Ht. cbn [compute_aunts]. rewrite decide_False, decide_False by lia. rewrite last_snoc.
  rewrite length_app. cbn [length]. rewrite Nat.add_sub, take_app_length. done.
Qed.

Lemma compute_aunts_complete t i b fuel :
  shape t → leaves t !! i = Some b → (length (aunts t i) ≤ fuel)%nat →
  compute_aunts Sum fuel (Z.of_nat i) (Z.of_nat (size t)) (leafHash b) (aunts t i) = Ok (Some (tree_hash t)).
Proof.
  revert i fuel. induction t as [c|l IHl r IHr]; intros i fuel Hs Hb Hf.
  { apply list_lookup_singleton_Some in Hb as [-> ->]. by destruct fuel. }
  pose proof (lookup_lt_Some _ _ _ Hb) as Hi. fold (size (Node l r)) in Hi.
  pose proof (getSplitPoint_Node l r Hs) as Hk. destruct Hs as (_ & _ & Sl & Sr).
  rewrite size_Node in *. pose proof (size_pos l). pose proof (size_pos r). cbn [aunts leaves] in *.
  destruct (decide (i < size l)%nat) as [Hl|Hl]; rewrite length_app in Hf; cbn [length] in Hf;
    (destruct fuel as [|fuel]; [lia|]); rewrite compute_aunts_snoc by lia; rewrite Hk; cbn [outcome_bind].
  - rewrite lookup_app_l in Hb by done. rewrite decide_True by lia. rewrite IHl by (done || lia). done.
  - rewrite lookup_app_r in Hb by (unfold size in *; lia). rewrite decide_False by lia.
    replace (Z.of_nat i - Z.of_nat (size l)) with (Z.of_nat (i - size l)) by lia.
    replace (Z.of_nat (size l + size r) - Z.of_nat (size l)) with (Z.of_nat (size r)) by lia.
    rewrite IHr by (done || lia). done.
Qed.

(** *** The store: walking up from a leaf *)
Definition sibling (st : Store) (n : ProofNode) : option nat :=
  match pn_Left n with Some b => Some b | None => pn_Right n end.

Inductive walk (lo : nat) (st : Store) : nat → nat → list bytes → Prop :=
| walk_here r : walk lo st r r []
| walk_up a r n p b m l :
    a ≠ r → (lo ≤ a)%nat → (lo ≤ b)%nat → st !! a = Some n → pn_Parent n = Some p →
    sibling st n = Some b → st !! b = Some m → walk lo st p r l →
    walk lo st a r (pn_Hash m :: l).

(** Nodes from [lo] on keep their hashes, and all but [r] their links. *)
Definition keeps (lo r : nat) (st st' : Store) : Prop :=
  ∀ a n, (lo ≤ a)%nat → st !! a = Some n →
    ∃ n', st' !! a = Some n' ∧ pn_Hash n' = pn_Hash n ∧ (a ≠ r → n' = n).

Lemma walk_keeps lo r st st' a l : keeps lo r st st' → walk lo st a r l → walk lo st' a r l.
Proof.
  intros HK. induction 1 as [r|a r n p b m l Hne Ha Hb En Ep Es Em W IH]; [constructor|].
  destruct (HK a n Ha En) as (n' & En' & _ & Hn'). specialize (Hn' Hne). subst n'.
  destruct (HK b m Hb Em) as (m' & Em' & Hm & _). rewrite <-Hm. econstructor; eauto.
Qed.

Lemma walk_weaken lo lo' st a r l : (lo' ≤ lo)%nat → walk lo st a r l → walk lo' st a r l.
Proof.
  intros Hle. induction 1 as [r|a r n p b m l]; [constructor|]. apply (walk_up _ _ a r n p b m); auto; lia.
Qed.

Lemma walk_trans lo st a r r' root l l' :
  walk lo st a r l → walk lo st r r' l' → st !! r' = Some root → pn_Parent root = None → walk lo st a r' (l ++ l').
Proof.
  intros W W' Hr Hp. induction W as [|a r n p b m l Hne Ha Hb En Ep]; [done|]. simpl.
  apply (walk_up _ _ a r' n p b m); auto. intros ->. congruence.
Qed.

Lemma FlattenAunts_walk lo st a r l root fuel :
  walk lo st a r l → st !! r = Some root → pn_Parent root = None → pn_Left root = None → pn_Right root = None →
  (length l < fuel)%nat → FlattenAunts fuel (Some a) st = Ok l.
Proof.
  intros W Hr Hp HL HR. revert fuel. induction W as [r|a r n p b m l Hne Ha Hb En Ep Es Em W IH]; intros fuel Hf;
    (destruct fuel as [|fuel]; [simpl in *; lia|]); cbn [FlattenAunts]; unfold load.
  - rewrite Hr. cbn [outcome_bind]. rewrite HL, HR, Hp. by destruct fuel.
  - rewrite En. cbn [outcome_bind]. unfold sibling in Es. rewrite Ep, (IH Hr) by (simpl in Hf; lia).
    destruct (pn_Left n) as [c|]; [|destruct (pn_Right n) as [c|]; [|done]]; simplify_eq; by rewrite Em.
Qed.

(** What trailsFromByteSlices builds for a tree. *)
Record built (t : tree) (st st' : Store) (ts : list nat) (root : nat) : Prop := {
  bt_len : (length st + size t ≤ length st')%nat;
  bt_old : ∀ a, (a < length st)%nat → st' !! a = st !! a;
  bt_root : (length st ≤ root)%nat ∧ st' !! root = Some (mkProofNode (tree_hash t) None None None);
  bt_count : length ts = size t;
  bt_trail : ∀ i b, leaves t !! i = Some b →
    ∃ a n, ts !! i = Some a ∧ (length st ≤ a)%nat ∧ st' !! a = Some n ∧ pn_Hash n = leafHash b ∧
      walk (length st) st' a root (aunts t i) }.

Lemma built_Leaf b st :
  built (Leaf b) st (st ++ [mkProofNode (leafHash b) None None None]) [length st] (length st).
Proof.
  assert (E : (st ++ [mkProofNode (leafHash b) None None None]) !! length st = Some (mkProofNode (leafHash b) None None None)).
  { by apply list_lookup_middle. }
  split.
  - rewrite length_app. done.
  - intros a Ha. by apply lookup_app_l.
  - split; [lia|done].
  - done.
  - intros i c [-> ->]%list_lookup_singleton_Some. eexists _, _. split_and!; [done|lia|done|done|constructor].
Qed.

(** Linking the two roots to a new one. *)
Definition link (h : bytes) (rl rr : nat) (st : Store) : Store :=
  <[rr := mkProofNode (default [] (pn_Hash <$> st !! rr)) (Some (length st)) (Some rl) None]>
    (<[rl := mkProofNode (default [] (pn_Hash <$> st !! rl)) (Some (length st)) None (Some rr)]>
       (st ++ [mkProofNode h None None None])).

Lemma built_Node l r st st1 st2 ts1 rl ts2 rr :
  built l st st1 ts1 rl → built r st1 st2 ts2 rr →
  built (Node l r) st (link (innerHash (tree_hash l) (tree_hash r)) rl rr st2) (ts1 ++ ts2) (length st2).
Proof.
  intros [L1 O1 [R1 E1] C1 T1] [L2 O2 [R2 E2] C2 T2].
  pose proof (lookup_lt_Some _ _ _ E1) as B1. pose proof (lookup_lt_Some _ _ _ E2) as B2.
  rewrite <-(O2 rl B1) in E1.
  set (st3 := link _ rl rr st2). set (root := mkProofNode (tree_hash (Node l r)) None None None).
  assert (K0 : ∀ a, (a < length st2)%nat → a ≠ rl → a ≠ rr → st3 !! a = st2 !! a).
  { intros a Ha Hl Hr. unfold st3, link. rewrite !list_lookup_insert_ne by done. by apply lookup_app_l. }
  assert (Kl : st3 !! rl = Some (mkProofNode (tree_hash l) (Some (length st2)) None (Some rr))).
  { unfold st3, link. rewrite list_lookup_insert_ne by lia. rewrite E1. apply list_lookup_insert_eq. rewrite length_app. lia. }
  assert (Kr : st3 !! rr = Some (mkProofNode (tree_hash r) (Some (length st2)) (Some rl) None)).
  { unfold st3, link. rewrite E2. apply list_lookup_insert_eq. rewrite length_insert, length_app. lia. }
  assert (Kt : st3 !! length st2 = Some root).
  { unfold st3, link. rewrite !list_lookup_insert_ne by lia. by apply list_lookup_middle. }
  assert (KL : keeps (length st) rl st1 st3).
  { intros a n Ha En. pose proof (lookup_lt_Some _ _ _ En). destruct (decide (a = rl)) as [->|Hne].
    - rewrite <-(O2 rl B1), E1 in En. simplify_eq. by eexists.
    - exists n. rewrite K0, O2 by lia. done. }
  assert (KR : keeps (length st1) rr st2 st3).
  { intros a n Ha En. pose proof (lookup_lt_Some _ _ _ En). destruct (decide (a = rr)) as [->|Hne].
    - rewrite E2 in En. simplify_eq. by eexists.
    - exists n. rewrite K0 by lia. done. }
  assert (Wl : walk (length st) st3 rl (length st2) [tree_hash r]).
  { apply (walk_up (length st) st3 rl (length st2) _ (length st2) rr _ [] ltac:(lia) ltac:(lia) ltac:(lia) Kl eq_refl eq_refl Kr). constructor. }
  assert (Wr : walk (length st) st3 rr (length st2) [tree_hash l]).
  { apply (walk_up (length st) st3 rr (length st2) _ (length st2) rl _ [] ltac:(lia) ltac:(lia) ltac:(lia) Kr eq_refl eq_refl Kl). constructor. }
  split.
  - unfold st3, link. rewrite !length_insert, length_app, size_Node. simpl. lia.
  - intros a Ha. rewrite K0, O2, O1 by lia. done.
  - split; [lia|done].
  - rewrite length_app, size_Node. lia.
  - intros i b Hb. cbn [leaves] in Hb. apply lookup_app_Some in Hb as [Hb|[Hi Hb]]; cbn [aunts].
    + destruct (T1 i b Hb) as (a & n & Et & Ha & En & Eh & W). pose proof (lookup_lt_Some _ _ _ Hb).
      destruct (KL a n Ha En) as (n' & En' & Eh' & _). exists a, n'. rewrite decide_True by done.
      split_and!; [by apply lookup_app_l_Some|lia|done|congruence|].
      eapply walk_trans; [by eapply walk_keeps|done|done|done].
    + fold (size l) in Hi, Hb. destruct (T2 _ b Hb) as (a & n & Et & Ha & En & Eh & W).
      destruct (KR a n Ha En) as (n' & En' & Eh' & _). exists a, n'. rewrite decide_False by lia.
      split_and!; [rewrite lookup_app_r by lia; by rewrite C1|lia|done|congruence|].
      eapply walk_trans; [|done|done|done]. eapply walk_weaken; [|by eapply walk_keeps]. lia.
Qed.

Lemma trails_go_tree t fuel st :
  shape t → (size t ≤ S fuel)%nat →
  ∃ ts root st', trails_go Sum fuel (leaves t) st = Ok ((ts, root), st') ∧ built t st st' ts root.
Proof.
  revert fuel st. induction t as [b|l IHl r IHr]; intros fuel st Hs Hf.
  { eexists _, _, _. split; [by destruct fuel|apply built_Leaf]. }
  pose proof (getSplitPoint_Node l r Hs) as Hk. destruct Hs as (_ & _ & Sl & Sr).
  rewrite size_Node in Hf. pose proof (size_pos l). pose proof (size_pos r).
  destruct fuel as [|fuel]; [lia|].
  destruct (IHl fuel st Sl ltac:(lia)) as (ts1 & rl & st1 & Ra & B1).
  destruct (IHr fuel st1 Sr ltac:(lia)) as (ts2 & rr & st2 & Rb & B2).
  eexists _, _, _. split; [|by eapply built_Node].
  destruct B1 as [L1 _ [_ E1] _ _], B2 as [L2 O2 [R2 E2] _ _].
  pose proof (lookup_lt_Some _ _ _ E1) as Hlt. rewrite <-(O2 rl Hlt) in E1.
  cbn [trails_go]. rewrite leaves_Node_case. fold (size (Node l r)). rewrite Hk.
  unfold bind, lift, ret. cbn [outcome_bind]. cbn [leaves]. unfold size at 1. rewrite split_at_app. cbn [outcome_bind fst snd].
  rewrite Ra. cbn [outcome_bind fst snd]. rewrite Rb. cbn [outcome_bind fst snd]. unfold load, alloc, store.
  rewrite E1. cbn [outcome_bind fst snd]. rewrite E2. cbn [outcome_bind pn_Hash pn_Left pn_Right].
  unfold link. rewrite E1, E2. done.
Qed.

Lemma make_proofs_built t st' ts root trails i :
  built t [] st' ts root → trails = drop i ts →
  ∃ ps, make_proofs (Z.of_nat (size t)) (Z.of_nat i) trails st' = Ok ps ∧ length ps = length trails ∧
    ∀ j b, leaves t !! (i + j)%nat = Some b →
      ps !! j = Some (mkProof (Z.of_nat (size t)) (Z.of_nat (i + j)) (leafHash b) (aunts t (i + j))).
Proof.
  intros [L O [_ E] C T]. revert i. induction trails as [|a trails IH]; intros i Et.
  { exists []. split_and!; [done..|]. intros j b Hb. apply lookup_lt_Some in Hb. fold (size t) in Hb.
    apply (f_equal length) in Et. rewrite length_drop in Et. simpl in Et. lia. }
  assert (Hi : ts !! i = Some a) by (rewrite <-(Nat.add_0_r i), <-lookup_drop, <-Et; done).
  assert (Et' : trails = drop (S i) ts) by (rewrite <-Nat.add_1_r, <-drop_drop, <-Et; done).
  destruct (lookup_lt_is_Some_2 (leaves t) i) as [b Hb].
  { fold (size t). rewrite <-C. by eapply lookup_lt_Some. }
  destruct (T i b Hb) as (a' & n & Ea & _ & En & Eh & W). assert (a' = a) as -> by congruence.
  destruct (IH (S i) Et') as (ps & Eps & Lps & Hps). clear IH.
  eexists. split_and!.
  - cbn [make_proofs]. unfold load. rewrite En. cbn [outcome_bind].
    erewrite FlattenAunts_walk; [|done..|].
    + cbn [outcome_bind]. replace (Z.of_nat i + 1) with (Z.of_nat (S i)) by lia. rewrite Eps. done.
    + apply lookup_lt_Some in Hb. pose proof (length_aunts t i Hb). simpl in L. lia.
  - simpl. by rewrite Lps.
  - intros [|j] c Hc.
    + rewrite Nat.add_0_r in *. simplify_eq. rewrite Eh. done.
    + rewrite <-Nat.add_succ_comm in *. simpl. by apply Hps.
Qed.

(** The proofs of all items, and the root they are for. *)
Lemma ProofsFromByteSlices_spec items :
  ∃ root ps, ProofsFromByteSlices Sum items = Ok (root, ps) ∧ HashFromByteSlices Sum items = Ok root ∧
    length ps = length items ∧
    ∀ i b, items !! i = Some b →
      ∃ p, ps !! i = Some p ∧ p_Total p = Z.of_nat (length items) ∧ p_Index p = Z.of_nat i ∧
        p_LeafHash p = leafHash b ∧ Verify Sum p root b = Ok None.
Proof.
  destruct (decide (items = [])) as [->|Hne].
  { eexists _, []. split_and!; [done..|]. intros i b. by rewrite lookup_nil. }
  destruct (tree_exists items Hne) as (t & Hs & <-).
  destruct (trails_go_tree t (length (leaves t)) [] Hs) as (ts & root & st' & R & B); [unfold size; lia|].
  destruct (make_proofs_built t st' ts root ts 0%nat B) as (ps & Eps & Lps & Hps); [done|].
  change (Z.of_nat 0) with 0 in Eps. exists (tree_hash t), ps. split_and!.
  - unfold ProofsFromByteSlices, trailsFromByteSlices. rewrite R. cbn [outcome_bind fst snd].
    destruct B as [_ _ [_ E] _ _]. unfold load at 1. rewrite E. cbn [outcome_bind pn_Hash]. fold (size t). by rewrite Eps.
  - by apply HashFromByteSlices_tree.
  - rewrite Lps. apply (bt_count _ _ _ _ _ B).
  - intros i b Hb. eexists. split_and!; [by apply (Hps i b Hb)|done..|].
    cbn [Nat.add]. unfold Verify. cbn [p_Total p_Index p_LeafHash].
    rewrite decide_False by lia. rewrite decide_False by lia. rewrite decide_False by (intros []; done).
    unfold ComputeRootHash, computeHashFromAunts. cbn [p_Total p_Index p_LeafHash p_Aunts].
    rewrite compute_aunts_complete by done. cbn [outcome_bind default]. by rewrite decide_False by (intros []; done).
Qed.
End proofs.

(** *** Soundness

    What HashFromByteSlices and Verify pass to the hash function; soundness needs that there
    is no collision among those. *)
Section sound.
Context (Sum : bytes → bytes).
Local Abbreviation innerHash := (innerHash Sum).
Local Abbreviation leafHash := (leafHash Sum).
Local Abbreviation tree_hash := (tree_hash Sum).

Definition no_collision (U : bytes → Prop) : Prop := ∀ x y, U x → U y → Sum x = Sum y → x = y.

Fixpoint slices_inputs (fuel : nat) (items : list bytes) : list bytes :=
  match items with
  | [] => [[]]
  | [x] => [leafPrefix ++ x]
  | _ =>
      match fuel, getSplitPoint (Z.of_nat (length items)) with
      | S f, Ok k =>
          let l := take (Z.to_nat k) items in
          let r := drop (Z.to_nat k) items in
          match hash_slices Sum f l, hash_slices Sum f r with
          | Ok hl, Ok hr => (innerPrefix ++ hl ++ hr) :: slices_inputs f l ++ slices_inputs f r
          | _, _ => []
          end
      | _, _ => []
      end
  end.
Definition hash_inputs (items : list bytes) : list bytes := slices_inputs (length items) items.

Fixpoint aunts_inputs (fuel : nat) (index total : Z) (lh : bytes) (inner : list bytes) : list bytes :=
  match fuel, last inner, getSplitPoint total with
  | S f, Some aunt, Ok numLeft =>
      let rest := take (length inner - 1) inner in
      if decide (index < numLeft) then
        match compute_aunts Sum f index numLeft lh rest with
        | Ok (Some h) => (innerPrefix ++ h ++ aunt) :: aunts_inputs f index numLeft lh rest
        | _ => []
        end
      else
        match compute_aunts Sum f (index - numLeft) (total - numLeft) lh rest with
        | Ok (Some h) => (innerPrefix ++ aunt ++ h) :: aunts_inputs f (index - numLeft) (total - numLeft) lh rest
        | _ => []
        end
  | _, _, _ => []
  end.
Definition Verify_inputs (sp : Merkle_Proof) (leaf : bytes) : list bytes :=
  (leafPrefix ++ leaf) ::
    aunts_inputs (length (p_Aunts sp)) (p_Index sp) (p_Total sp) (p_LeafHash sp) (p_Aunts sp).

Fixpoint tree_inputs (t : tree) : list bytes :=
  match t with
  | Leaf b => [leafPrefix ++ b]
  | Node l r => (innerPrefix ++ tree_hash l ++ tree_hash r) :: tree_inputs l ++ tree_inputs r
  end.

Lemma slices_inputs_tree t fuel :
  shape t → (size t ≤ S fuel)%nat → slices_inputs fuel (leaves t) = tree_inputs t.
Proof.
  revert fuel. induction t as [b|l IHl r IHr]; intros fuel Hs Hf; [by destruct fuel|].
  pose proof (getSplitPoint_Node l r Hs) as Hk. destruct Hs as (_ & _ & Sl & Sr).
  rewrite size_Node in Hf. pose proof (size_pos l). pose proof (size_pos r).
  destruct fuel as [|fuel]; [lia|].
  cbn [slices_inputs]. rewrite leaves_Node_case. fold (size (Node l r)). rewrite Hk.
  cbn [leaves]. rewrite Nat2Z.id. unfold size at 1 2 3 4. rewrite take_app_length, drop_app_length.
  rewrite !hash_slices_tree by (done || lia). cbn [tree_inputs]. rewrite IHl, IHr by (done || lia). done.
Qed.

Context (Hsize : ∀ x, length (Sum x) = 32%nat) (U : bytes → Prop) (HU : no_collision U).

Lemma compute_aunts_length f index total leaf inner h :
  compute_aunts Sum f index total (leafHash leaf) inner = Ok (Some h) → length h = 32%nat.
Proof.
  destruct f as [|f]; cbn [compute_aunts]; intros E; repeat case_decide; simplify_eq; try apply Hsize;
    destruct (last inner) as [aunt|]; simplify_eq.
  destruct (getSplitPoint total) as [k| |]; cbn [outcome_bind] in E; simplify_eq.
  case_decide; destruct (compute_aunts Sum f _ _ _ _) as [[x|]| |]; cbn [outcome_bind] in E; simpl in E; simplify_eq;
    apply Hsize.
Qed.

Lemma compute_aunts_inv f index total lh inner h :
  compute_aunts Sum f index total lh inner = Ok (Some h) →
  0 ≤ index < total ∧
  ((total = 1 ∧ h = lh) ∨
   ∃ f' rest aunt k x, f = S f' ∧ inner = rest ++ [aunt] ∧ getSplitPoint total = Ok k ∧
     ((index < k ∧ compute_aunts Sum f' index k lh rest = Ok (Some x) ∧ h = innerHash x aunt) ∨
      (k ≤ index ∧ compute_aunts Sum f' (index - k) (total - k) lh rest = Ok (Some x) ∧ h = innerHash aunt x))).
Proof.
  intros E. destruct f as [|f]; cbn [compute_aunts] in E; repeat case_decide; simplify_eq;
    (split; [lia|]); try (by left); destruct (last inner) as [aunt|] eqn:El; simplify_eq; right.
  destruct (getSplitPoint total) as [k| |] eqn:Ek; cbn [outcome_bind] in E; simplify_eq.
  assert (Ei : inner = take (length inner - 1) inner ++ [aunt]).
  { apply last_Some in El as [l ->]. rewrite length_app. cbn [length]. by rewrite Nat.add_sub, take_app_length. }
  case_decide; destruct (compute_aunts Sum f _ _ _ _) as [[x|]| |] eqn:Ec; cbn [outcome_bind] in E; simpl in E; simplify_eq.
  all: exists f, (take (length inner - 1) inner), aunt, k, x; split_and!; [done|done|done|].
  - by left.
  - right. split_and!; [lia|done|done].
Qed.

Lemma aunts_inputs_snoc f index total lh rest aunt k :
  getSplitPoint total = Ok k →
  aunts_inputs (S f) index total lh (rest ++ [aunt])
  = if decide (index < k) then
      match compute_aunts Sum f index k lh rest with
      | Ok (Some h) => (innerPrefix ++ h ++ aunt) :: aunts_inputs f index k lh rest
      | _ => []
      end
    else
      match compute_aunts Sum f (index - k) (total - k) lh rest with
      | Ok (Some h) => (innerPrefix ++ aunt ++ h) :: aunts_inputs f (index - k) (total - k) lh rest
      | _ => []
      end.
Proof.
  intros Hk. cbn [aunts_inputs]. rewrite last_snoc, Hk, length_app. cbn [length].
  by rewrite Nat.add_sub, take_app_length.
Qed.

Lemma tree_hash_length t : length (tree_hash t) = 32%nat.
Proof. destruct t; apply Hsize. Qed.

(** A path up from a leaf that ends in the root of the tree starts at a leaf of it. *)
Lemma aunts_path t f index total leaf inner :
  shape t → (∀ x, x ∈ tree_inputs t → U x) → U (leafPrefix ++ leaf) →
  (∀ x, x ∈ aunts_inputs f index total (leafHash leaf) inner → U x) →
  compute_aunts Sum f index total (leafHash leaf) inner = Ok (Some (tree_hash t)) →
  leaf ∈ leaves t ∧ (total = Z.of_nat (size t) → leaves t !! Z.to_nat index = Some leaf).
Proof.
  intros Hs Ht Hleaf. revert f index total inner.
  induction t as [b|l IHl r IHr]; intros f index total inner Ha E;
    apply compute_aunts_inv in E as (Hi & [(-> & E)|(f' & rest & aunt & k & x & -> & -> & Hk & E)]).
  - apply HU in E; [|apply Ht; set_solver|done]. apply app_inv_head in E as ->.
    split; [set_solver|]. intros _. by replace (Z.to_nat index) with 0%nat by lia.
  - rewrite (aunts_inputs_snoc _ _ _ _ _ _ _ Hk) in Ha. exfalso.
    destruct E as [(Hlt & Ec & E)|(Hge & Ec & E)].
    + rewrite decide_True, Ec in Ha by done. apply HU in E; [done|apply Ht; set_solver|apply Ha; set_solver].
    + rewrite decide_False, Ec in Ha by lia. apply HU in E; [done|apply Ht; set_solver|apply Ha; set_solver].
  - apply HU in E; [done|apply Ht; set_solver|done].
  - pose proof (getSplitPoint_Node l r Hs) as Hn. destruct Hs as (_ & _ & Sl & Sr).
    rewrite (aunts_inputs_snoc _ _ _ _ _ _ _ Hk) in Ha. cbn [tree_inputs] in Ht.
    pose proof (compute_aunts_length f') as HL. pose proof (tree_hash_length l) as Ll. pose proof (tree_hash_length r) as Lr.
    destruct E as [(Hlt & Ec & E)|(Hge & Ec & E)].
    + rewrite decide_True, Ec in Ha by done.
      apply HU in E; [|apply Ht; set_solver|apply Ha; set_solver].
      apply app_inv_head in E. apply app_inj_1 in E as [Ex Ey]; [|etrans; [apply Ll|by rewrite (HL _ _ _ _ _ Ec)]]. subst x aunt.
      destruct (IHl Sl ltac:(set_solver) f' index k rest) as [Hin Hat]; [set_solver|done|].
      split; [set_solver|]. intros ->. rewrite Hn in Hk. simplify_eq. cbn [leaves].
      apply lookup_app_l_Some. by apply Hat.
    + rewrite decide_False, Ec in Ha by lia.
      apply HU in E; [|apply Ht; set_solver|apply Ha; set_solver].
      apply app_inv_head in E. apply app_inj_2 in E as [Ex Ey]; [|etrans; [apply Lr|by rewrite (HL _ _ _ _ _ Ec)]]. subst x aunt.
      destruct (IHr Sr ltac:(set_solver) f' (index - k) (total - k) rest) as [Hin Hat]; [set_solver|done|].
      split; [set_solver|]. intros ->. rewrite Hn in Hk. simplify_eq. cbn [leaves].
      rewrite lookup_app_r by (unfold size in *; lia).
      rewrite size_Node in Hat. replace (Z.to_nat index - length (leaves l))%nat with (Z.to_nat (index - Z.of_nat (size l))) by (unfold size in *; lia).
      apply Hat. lia.
Qed.

Lemma Verify_sound items root sp leaf :
  HashFromByteSlices Sum items = Ok root → Verify Sum sp root leaf = Ok None →
  (∀ x, x ∈ hash_inputs items → U x) → (∀ x, x ∈ Verify_inputs sp leaf → U x) →
  leaf ∈ items ∧ (p_Total sp = Z.of_nat (length items) → items !! Z.to_nat (p_Index sp) = Some leaf).
Proof.
  intros Hroot E Hi Hv. unfold Verify in E. repeat case_decide; simplify_eq.
  assert (EL : p_LeafHash sp = leafHash leaf) by (by destruct (decide (p_LeafHash sp = leafHash leaf))).
  unfold ComputeRootHash, computeHashFromAunts in E. unfold Verify_inputs in Hv. rewrite EL in E, Hv.
  destruct (compute_aunts _ _ _ _ _ _) as [h| |] eqn:Ec; cbn [outcome_bind] in E; simplify_eq.
  destruct (decide (default [] h = root)) as [Er|Er]; [clear E|by rewrite decide_True in E].
  assert (Lr : length root = 32%nat).
  { destruct (decide (items = [])) as [->|Hne]; [injection Hroot as <-; apply Hsize|].
    destruct (tree_exists items Hne) as (t & Hs & <-). rewrite HashFromByteSlices_tree in Hroot by done.
    injection Hroot as <-. apply tree_hash_length. }
  destruct h as [h|]; simpl in Er; subst; [|done].
  destruct (decide (items = [])) as [->|Hne].
  { exfalso. injection Hroot as <-. apply compute_aunts_inv in Ec as (_ & [(_ & E0)|(f' & rest & aunt & k & x & Ef & Ei & Hk & E0)]).
    - apply HU in E0; [done|apply Hi; set_solver|apply Hv; set_solver].
    - rewrite Ef, Ei, (aunts_inputs_snoc _ _ _ _ _ _ _ Hk) in Hv.
      destruct E0 as [(Hlt & Ec & E0)|(Hge & Ec & E0)].
      + rewrite decide_True, Ec in Hv by done. apply HU in E0; [done|apply Hi; set_solver|apply Hv; set_solver].
      + rewrite decide_False, Ec in Hv by lia. apply HU in E0; [done|apply Hi; set_solver|apply Hv; set_solver]. }
  destruct (tree_exists items Hne) as (t & Hs & <-). rewrite HashFromByteSlices_tree in Hroot by done.
  injection Hroot as <-. unfold hash_inputs in Hi. rewrite slices_inputs_tree in Hi by (unfold size; lia || done).
  eapply aunts_path; [done|done|..|done]; set_solver.
Qed.
End sound.

(** Building proofs returns the root of HashFromByteSlices and, for every item, a proof
    with its position and the number of items that Verify accepts for that root and
    item. *)
Theorem merkle_proofs_complete Sum items :
  ∃ root ps, ProofsFromByteSlices Sum items = Ok (root, ps) ∧ HashFromByteSlices Sum items = Ok root ∧
    length ps = length items ∧
    ∀ i b, items !! i = Some b →
      ∃ p, ps !! i = Some p ∧ p_Total p = Z.of_nat (length items) ∧ p_Index p = Z.of_nat i ∧ Verify Sum p root b = Ok None.
Proof.
  destruct (ProofsFromByteSlices_spec Sum items) as (root & ps & E & R & L & H).
  exists root, ps. split_and!; [done..|]. intros i b Hb. destruct (H i b Hb) as (p & ? & ? & ? & _ & ?). by exists p.
Qed.

(** C25: A proof that Verify accepts for the root of some items, whatever its position, total and
    siblings, is for one of these items, and for the item at its position if its total
    is the number of items, unless two of the strings hashed in computing the root and in
    verifying collide. *)
Theorem merkle_proofs_sound Sum items root sp leaf :
  (∀ x, length (Sum x) = 32%nat) → no_collision Sum (λ x, x ∈ hash_inputs Sum items ++ Verify_inputs Sum sp leaf) →
  HashFromByteSlices Sum items = Ok root → Verify Sum sp root leaf = Ok None →
  leaf ∈ items ∧ (p_Total sp = Z.of_nat (length items) → items !! Z.to_nat (p_Index sp) = Some leaf).
Proof.
  intros Hsize HU Hr Hv. by apply (Verify_sound Sum Hsize _ HU items root); [done|done|set_solver..].
Qed.

(** ** A concrete hash, and a concrete proof *)
Definition sample_Sum (bs : bytes) : bytes :=
  le_bytes 32 (foldl (λ a b, (a * 257 + b + 1) mod (2 ^ 127 - 1)) 7 bs).

Lemma sample_Sum_length x : length (sample_Sum x) = 32%nat.
Proof. apply length_le_bytes. Qed.

Definition no_collision_list (Sum : bytes → bytes) (l : list bytes) : bool :=
  forallb (λ x, forallb (λ y, bool_decide (Sum x = Sum y → x = y)) l) l.

Lemma no_collision_list_ok Sum l : no_collision_list Sum l = true → no_collision Sum (λ x, x ∈ l).
Proof.
  unfold no_collision_list. rewrite forallb_forall. intros H x y Hx Hy E.
  specialize (H x (proj1 (list_elem_of_In _ _) Hx)). rewrite forallb_forall in H.
  specialize (H y (proj1 (list_elem_of_In _ _) Hy)). apply bool_decide_eq_true in H. auto.
Qed.

Definition sample_items : list bytes := [[1]; [2; 3]; [4]; []; [5]].
Definition sample_root : bytes := match HashFromByteSlices sample_Sum sample_items with Ok h => h | _ => [] end.
Definition sample_proof (i : nat) : Merkle_Proof :=
  match ProofsFromByteSlices sample_Sum sample_items with
  | Ok (_, ps) => default (mkProof 0 0 [] []) (ps !! i)
  | _ => mkProof 0 0 [] []
  end.

Lemma merkle_proofs_sound_witness :
  [2; 3] ∈ sample_items ∧ (p_Total (sample_proof 1) = 5 → sample_items !! 1%nat = Some [2; 3]).
Proof.
  apply (merkle_proofs_sound sample_Sum sample_items sample_root (sample_proof 1) [2; 3]).
  - apply sample_Sum_length.
  - apply no_collision_list_ok. vm_compute. reflexivity.
  - vm_compute. reflexivity.
  - vm_compute. reflexivity.
Defined.
