(* ===== verification/TmPartSet.v ===== *)
(** Part sets (src/sourcecodes/tendermint/types/part_set.go): a block cut into parts with
    inclusion proofs, collected from peers in any order and read back. *)

From S2P Require Import Prelude TmBits TmTypes TmMerkle.

(** ** Definitions *)
Definition BlockPartSizeBytes : Z := 65536.

Record Part := mkPart { pt_Index : Z; pt_Bytes : bytes; pt_Proof : Merkle_Proof }.

Record PartSet := mkPartSet {
  ps_total : Z; ps_hash : bytes; ps_parts : list (option Part); ps_partsBitArray : option BitArray;
  ps_count : Z; ps_byteSize : Z }.

Inductive part_error :=
| ErrPartTooBig | ErrPartWrongProof (e : proof_error)
| ErrPartSetUnexpectedIndex | ErrPartSetInvalidProof.

Definition Part_ValidateBasic (part : Part) : option part_error :=
  if decide (BlockPartSizeBytes < len (pt_Bytes part)) then Some ErrPartTooBig
  else ErrPartWrongProof <$> Proof_ValidateBasic (pt_Proof part).

Section part_set.
Context (Sum : bytes → bytes).

(** [data[lo:hi]] *)
Definition slice_range (data : bytes) (lo hi : Z) : outcome bytes :=
  if decide (0 ≤ lo ≤ hi ∧ hi ≤ len data) then Ok (take (Z.to_nat (hi - lo)) (drop (Z.to_nat lo) data)) else Panic.

(** The loop that cuts the data: [n] parts from part [i] on. *)
Fixpoint cut_parts (n : nat) (i partSize : Z) (data : bytes) (bA : option BitArray) :
    outcome (list bytes * option BitArray) :=
  match n with
  | O => Ok ([], bA)
  | S n' =>
      let! chunk := slice_range data (u32 (i * partSize)) (Z.min (len data) (u32 (u32 (i + 1) * partSize))) in
      let! (_, bA) := SetIndex bA i true in
      let! (rest, bA) := cut_parts n' (i + 1) partSize data bA in
      Ok (chunk :: rest, bA)
  end.

(** [parts[i].Proof = *proofs[i]] for every part. *)
Fixpoint give_proofs (i : Z) (chunks : list bytes) (proofs : list Merkle_Proof) : outcome (list (option Part)) :=
  match chunks with
  | [] => Ok []
  | c :: chunks' =>
      let! p := slice_get proofs i in
      let! rest := give_proofs (i + 1) chunks' proofs in
      Ok (Some (mkPart i c p) :: rest)
  end.

Definition NewPartSetFromData (data : bytes) (partSize : Z) : outcome PartSet :=
  if decide (partSize = 0) then Panic
  else
    let total := u32 (u32 (len data) + partSize - 1) / partSize in
    let! (partsBytes, bA) := cut_parts (Z.to_nat total) 0 partSize data (NewBitArray total) in
    let! (root, proofs) := ProofsFromByteSlices Sum partsBytes in
    let! parts := give_proofs 0 partsBytes proofs in
    Ok (mkPartSet total root parts bA total (len data)).

Definition NewPartSetFromHeader (header : PartSetHeader) : PartSet :=
  mkPartSet (psh_Total header) (psh_Hash header) (replicate (Z.to_nat (psh_Total header)) None)
            (NewBitArray (psh_Total header)) 0 0.

Definition Header (ps : option PartSet) : PartSetHeader :=
  match ps with
  | None => {| psh_Total := 0; psh_Hash := [] |}
  | Some ps => {| psh_Total := ps_total ps; psh_Hash := ps_hash ps |}
  end.
Definition HasHeader (ps : option PartSet) (header : PartSetHeader) : bool :=
  match ps with None => false | Some _ => psh_Equals (Header ps) header end.
Definition ps_HashesTo (ps : option PartSet) (hash : bytes) : bool :=
  match ps with None => false | Some ps => bool_decide (ps_hash ps = hash) end.
Definition PartSet_Hash (ps : option PartSet) : outcome bytes :=
  match ps with None => HashFromByteSlices Sum [] | Some ps => Ok (ps_hash ps) end.
Definition ps_Count (ps : option PartSet) : Z := from_option ps_count 0 ps.
Definition ps_ByteSize (ps : option PartSet) : Z := from_option ps_byteSize 0 ps.
Definition ps_Total (ps : option PartSet) : Z := from_option ps_total 0 ps.

Definition addPart (part : Part) : M PartSet (bool * option part_error) :=
  total <- gets ps_total ;;
  if decide (total ≤ pt_Index part) then ret (false, Some ErrPartSetUnexpectedIndex)
  else
    parts <- gets ps_parts ;;
    old <- lift (slice_get parts (pt_Index part)) ;;
    match old with
    | Some _ => ret (false, None)
    | None =>
        hash <- gets ps_hash ;;
        err <- lift (Verify Sum (pt_Proof part) hash (pt_Bytes part)) ;;
        match err with
        | Some _ => ret (false, Some ErrPartSetInvalidProof)
        | None =>
            parts <- lift (slice_set parts (pt_Index part) (Some part)) ;;
            bA <- gets ps_partsBitArray ;;
            bA <- lift (SetIndex bA (pt_Index part) true) ;;
            modify (λ ps, mkPartSet (ps_total ps) (ps_hash ps) parts bA.2 (u32 (ps_count ps + 1))
                                    (i64 (ps_byteSize ps + len (pt_Bytes part)))) ;;;
            ret (true, None)
        end
    end.
Definition AddPart (ps : option PartSet) (part : Part) : outcome (bool * option part_error * option PartSet) :=
  match ps with
  | None => Ok (false, None, None)
  | Some ps => let! (r, ps) := addPart part ps in Ok (r, Some ps)
  end.

Definition GetPart (ps : PartSet) (index : Z) : outcome (option Part) := slice_get (ps_parts ps) index.
Definition ps_IsComplete (ps : PartSet) : bool := bool_decide (ps_count ps = ps_total ps).
End part_set.

(** *** Reading a complete set *)
Record PartSetReader := mkReader { rd_i : Z; rd_parts : list (option Part); rd_left : bytes }.

(** The bytes of [parts[i]]; a nil part panics. *)
Definition part_bytes (parts : list (option Part)) (i : Z) : outcome bytes :=
  let! p := slice_get parts i in
  match p with None => Panic | Some p => Ok (pt_Bytes p) end.

Definition NewPartSetReader (parts : list (option Part)) : outcome PartSetReader :=
  let! b := part_bytes parts 0 in Ok (mkReader 0 parts b).
Definition GetReader (ps : PartSet) : outcome PartSetReader :=
  if ps_IsComplete ps then NewPartSetReader (ps_parts ps) else Panic.

(** [Read] into a buffer of [n] bytes: the bytes read, and whether the end was reached. *)
Fixpoint Read (fuel n : nat) : M PartSetReader (bytes * bool) :=
  match fuel with
  | O => diverge
  | S f =>
      cur <- gets rd_left ;;
      if decide (n ≤ length cur)%nat then
        (* bytes.Reader.Read *)
        if decide (cur = []) then ret ([], true)
        else modify (λ r, mkReader (rd_i r) (rd_parts r) (drop n cur)) ;;; ret (take n cur, false)
      else if decide (0 < length cur)%nat then
        r1 <- Read f (length cur) ;;
        (if (r1.2 : bool) then ret r1
         else r2 <- Read f (n - length cur) ;; ret (r1.1 ++ r2.1, r2.2))
      else
        modify (λ r, mkReader (rd_i r + 1) (rd_parts r) (rd_left r)) ;;;
        i <- gets rd_i ;;
        parts <- gets rd_parts ;;
        if decide (Z.of_nat (length parts) ≤ i) then ret ([], true)
        else
          b <- lift (part_bytes parts i) ;;
          modify (λ r, mkReader (rd_i r) (rd_parts r) b) ;;;
          Read f n
  end.

(** [io.ReadAll]: read into the free room of a buffer that grows, until the end. *)
Fixpoint ReadAll (fuel : nat) (room : nat → nat) (b : bytes) : M PartSetReader bytes :=
  match fuel with
  | O => diverge
  | S f =>
      parts <- gets rd_parts ;;
      r <- Read (2 * length parts + 2) (room (length b)) ;;
      let b := b ++ r.1 in
      if (r.2 : bool) then ret b else ReadAll f room b
  end.

(** ** Reading *)

(** The bytes of a list of parts, and what is left in a reader. *)
Definition contents (parts : list (option Part)) : bytes := concat (from_option pt_Bytes [] <$> parts).
Definition rest (r : PartSetReader) : bytes := rd_left r ++ contents (drop (S (Z.to_nat (rd_i r))) (rd_parts r)).

Definition read_fuel (r : PartSetReader) : nat :=
  2 * (length (rd_parts r) - S (Z.to_nat (rd_i r))) + (if decide (rd_left r = []) then 1 else 2).

Lemma part_bytes_ok parts i :
  Forall is_Some parts → 0 ≤ i < Z.of_nat (length parts) →
  ∃ b, part_bytes parts i = Ok b ∧ contents (drop (Z.to_nat i) parts) = b ++ contents (drop (S (Z.to_nat i)) parts).
Proof.
  intros Hs Hi. unfold part_bytes. destruct (slice_get_in parts i Hi) as (p & E & El). rewrite E. cbn [outcome_bind].
  destruct (proj1 (Forall_lookup _ _) Hs _ _ El) as [q ->]. eexists. split; [done|].
  by rewrite (drop_S _ _ _ El).
Qed.

Lemma Read_buffered fuel n i parts cur :
  (0 < n ≤ length cur)%nat →
  Read (S fuel) n (mkReader i parts cur) = Ok ((take n cur, false), mkReader i parts (drop n cur)).
Proof.
  intros Hn. cbn [Read]. unfold bind, gets, modify, ret. cbn [outcome_bind rd_left].
  rewrite decide_True by lia. by rewrite decide_False by (intros ->; simpl in Hn; lia).
Qed.

Lemma Read_spec fuel n r :
  Forall is_Some (rd_parts r) → 0 ≤ rd_i r → (0 < n)%nat → (read_fuel r ≤ fuel)%nat →
  ∃ r', Read fuel n r = Ok ((take n (rest r), bool_decide (length (rest r) < n)%nat), r') ∧
    rest r' = drop n (rest r) ∧ rd_parts r' = rd_parts r ∧ 0 ≤ rd_i r'.
Proof.
  revert n r. induction fuel as [|fuel IH]; intros n [i parts cur] Hs Hi Hn Hf; unfold read_fuel, rest in *;
    cbn [rd_i rd_parts rd_left] in *; [case_decide; lia|].
  destruct (decide (n ≤ length cur)%nat) as [Hle|Hgt].
  { rewrite Read_buffered by lia. exists (mkReader i parts (drop n cur)). cbn [rd_i rd_parts rd_left].
    rewrite take_app_le, drop_app_le by done. by rewrite bool_decide_eq_false_2 by (rewrite length_app; lia). }
  cbn [Read]. unfold bind at 1. unfold gets at 1. cbn [outcome_bind rd_left]. rewrite decide_False by done.
  destruct (decide (0 < length cur)%nat) as [Hpos|Hz].
  - assert (Hc : cur ≠ []) by (intros ->; simpl in Hpos; lia). rewrite decide_False in Hf by done.
    destruct fuel as [|fuel']; [lia|].
    erewrite bind_run by (apply Read_buffered; lia). rewrite take_ge, drop_ge by lia. cbn [fst snd].
    destruct (IH (n - length cur)%nat (mkReader i parts [])) as (r2 & E2 & R2 & P2 & I2);
      cbn [rd_i rd_parts rd_left]; [done|done|lia|rewrite decide_True by done; lia|].
    erewrite bind_run by (apply E2). cbn [fst snd]. exists r2. cbn [app] in *. rewrite length_app. split_and!; [|..|done].
    + unfold ret. f_equal. f_equal. f_equal.
      * cbn [rd_left rd_i rd_parts app]. rewrite take_app. by rewrite (take_ge cur) by lia.
      * apply bool_decide_ext. rewrite ?length_app. cbn [rd_left rd_i rd_parts app length]. lia.
    + rewrite R2. cbn [rd_left rd_i rd_parts app]. rewrite drop_app. by rewrite (drop_ge cur) by lia.
    + done.
  - assert (cur = []) as -> by (destruct cur; [done|simpl in Hz; lia]). rewrite decide_True in Hf by done.
    unfold bind, modify, gets, ret, lift. cbn [outcome_bind rd_i rd_parts rd_left app].
    case_decide as Hend.
    + rewrite drop_ge by lia. exists (mkReader (i + 1) parts []). cbn [rd_i rd_parts rd_left].
      rewrite (drop_ge parts (S (Z.to_nat (i + 1)))) by lia. change (contents []) with (@nil Z).
      rewrite take_nil, drop_nil. rewrite bool_decide_eq_true_2 by (simpl; lia). split_and!; [done|done|done|lia].
    + destruct (part_bytes_ok parts (i + 1) Hs) as (b & Eb & Cb); [lia|]. rewrite Eb. cbn [outcome_bind rd_i rd_parts].
      destruct (IH n (mkReader (i + 1) parts b)) as (r2 & E2 & R2 & P2 & I2); cbn [rd_i rd_parts rd_left];
        [done|lia|done|case_decide; lia|].
      exists r2. cbn [rd_i rd_parts rd_left] in *. replace (Z.to_nat (i + 1)) with (S (Z.to_nat i)) in * by lia.
      rewrite E2, R2, Cb. done.
Qed.

(** ReadAll returns everything, however its buffer grows. *)
Lemma ReadAll_spec fuel room b r :
  (∀ k, (0 < room k)%nat) → Forall is_Some (rd_parts r) → 0 ≤ rd_i r → (length (rest r) < fuel)%nat →
  ∃ r', ReadAll fuel room b r = Ok (b ++ rest r, r').
Proof.
  intros Hroom. revert b r. induction fuel as [|fuel IH]; intros b r Hs Hi Hf; [lia|].
  cbn [ReadAll]. unfold bind at 1, gets. cbn [outcome_bind].
  destruct (Read_spec (2 * length (rd_parts r) + 2) (room (length b)) r) as (r1 & E1 & R1 & P1 & I1); [done..| |].
  { unfold read_fuel. case_decide; lia. }
  erewrite bind_run by (apply E1). cbn [fst snd]. specialize (Hroom (length b)). case_bool_decide as Hend.
  - eexists. unfold ret. by rewrite take_ge by lia.
  - destruct (IH (b ++ take (room (length b)) (rest r)) r1) as (r' & E'); [by rewrite P1|done| |].
    + rewrite R1, length_drop. lia.
    + exists r'. rewrite E', R1. by rewrite <-app_assoc, take_drop.
Qed.

(** ** Collecting *)
Section collect.
Context (Sum : bytes → bytes).

Lemma compute_aunts_total fuel index total lh inner :
  (length inner ≤ fuel)%nat → ∃ h, compute_aunts Sum fuel index total lh inner = Ok h.
Proof.
  revert index total inner. induction fuel as [|fuel IH]; intros index total inner Hf; cbn [compute_aunts];
    repeat case_decide; eauto; destruct (last inner) as [aunt|] eqn:El; eauto.
  - destruct inner; [done|simpl in Hf; lia].
  - assert (∃ k, getSplitPoint total = Ok k) as [k ->].
    { unfold getSplitPoint. rewrite decide_False by lia. by eexists. }
    cbn [outcome_bind]. assert (length (take (length inner - 1) inner) ≤ fuel)%nat by (rewrite length_take; lia).
    case_decide.
    + destruct (IH index k (take (length inner - 1) inner)) as [h ->]; [done|]. by eexists.
    + destruct (IH (index - k) (total - k) (take (length inner - 1) inner)) as [h ->]; [done|]. by eexists.
Qed.

Lemma Verify_total sp root leaf : ∃ e, Verify Sum sp root leaf = Ok e.
Proof.
  unfold Verify. repeat case_decide; eauto.
  unfold ComputeRootHash, computeHashFromAunts.
  destruct (compute_aunts_total (length (p_Aunts sp)) (p_Index sp) (p_Total sp) (p_LeafHash sp) (p_Aunts sp)) as [h ->]; [done|].
  cbn [outcome_bind]. case_decide; eauto.
Qed.

(** The parts a set holds. *)
Definition held (ps : PartSet) : list Part := omap id (ps_parts ps).

Record ps_inv (ps : PartSet) : Prop := {
  pi_total : is_u32 (ps_total ps);
  pi_length : Z.of_nat (length (ps_parts ps)) = ps_total ps;
  pi_bits : good (ps_partsBitArray ps);
  pi_size : TmBits.Size (ps_partsBitArray ps) = ps_total ps;
  pi_has : ∀ i, 0 ≤ i → has (ps_partsBitArray ps) i = bool_decide (is_Some (mjoin (ps_parts ps !! Z.to_nat i)));
  pi_count : ps_count ps = Z.of_nat (length (held ps));
  pi_bytes : ps_byteSize ps = i64 (zsum ((λ p, len (pt_Bytes p)) <$> held ps));
  pi_parts : ∀ i p, ps_parts ps !! i = Some (Some p) →
    pt_Index p = Z.of_nat i ∧ Verify Sum (pt_Proof p) (ps_hash ps) (pt_Bytes p) = Ok None;
}.

Lemma omap_id_replicate_None {A} n : omap id (replicate n (@None A)) = [].
Proof. by induction n. Qed.

Lemma NewPartSetFromHeader_inv header : is_u32 (psh_Total header) → ps_inv (NewPartSetFromHeader header).
Proof.
  intros Hu. destruct (NewBitArray_good (psh_Total header)) as (Hg & Hs & Hh). unfold is_u32, two32 in *.
  split; unfold NewPartSetFromHeader, held; cbn [ps_total ps_parts ps_partsBitArray ps_count ps_byteSize ps_hash].
  - done.
  - rewrite length_replicate. lia.
  - done.
  - rewrite Hs. lia.
  - intros i Hi. rewrite Hh. symmetry. apply bool_decide_eq_false_2.
    destruct (replicate _ None !! Z.to_nat i) as [[]|] eqn:E; [|by intros []..].
    apply lookup_replicate in E as [? ?]. done.
  - by rewrite omap_id_replicate_None.
  - rewrite omap_id_replicate_None. done.
  - intros i p [? ?]%lookup_replicate. done.
Qed.

(** A list holds as many values as it has slots exactly when every slot is filled. *)
Lemma held_length {A} (l : list (option A)) :
  (length (omap id l) ≤ length l)%nat ∧ (length (omap id l) = length l ↔ Forall is_Some l).
Proof.
  induction l as [|[x|] l [IH1 IH2]].
  - by rewrite Forall_nil.
  - rewrite Forall_cons, <-IH2. change (omap id (Some x :: l)) with (x :: omap id l). cbn [length]. split; [lia|]. split; [intros H; split; [by eexists|lia]|intros []; lia].
  - rewrite Forall_cons. change (omap id (None :: l)) with (omap id l). cbn [length]. split; [lia|]. split; [lia|]. by intros [[? ?] _].
Qed.

(** Filling an empty slot. *)
Lemma held_insert {A} (l : list (option A)) i (x : A) :
  l !! i = Some None → omap id (<[i := Some x]> l) ≡ₚ x :: omap id l.
Proof.
  revert i. induction l as [|y l IH]; intros [|i] E; simplify_eq/=; [done|].
  destruct y as [y|]; simpl; [|by apply IH]. rewrite (IH i E). apply Permutation_swap.
Qed.

Lemma i64_add a b : i64 (i64 a + b) = i64 (a + b).
Proof.
  unfold i64. replace ((a + 2 ^ 63) mod 2 ^ 64 - 2 ^ 63 + b + 2 ^ 63) with ((a + 2 ^ 63) mod 2 ^ 64 + b) by lia.
  rewrite Zplus_mod_idemp_l. do 2 f_equal. lia.
Qed.

(** AddPart never panics on such a set; it stores the part exactly when the index is free and the proof is
    accepted. *)
Lemma addPart_spec part ps :
  ps_inv ps → 0 ≤ pt_Index part →
  ∃ b e ps', addPart Sum part ps = Ok ((b, e), ps') ∧ ps_inv ps' ∧
    ps_total ps' = ps_total ps ∧ ps_hash ps' = ps_hash ps ∧
    (b = true ↔ ps_parts ps !! Z.to_nat (pt_Index part) = Some None ∧ Verify Sum (pt_Proof part) (ps_hash ps) (pt_Bytes part) = Ok None) ∧
    ps_parts ps' = (if b then <[Z.to_nat (pt_Index part) := Some part]> (ps_parts ps) else ps_parts ps).
Proof.
  intros I Hi. unfold addPart, bind, gets, ret, modify, lift. cbn [outcome_bind].
  destruct (decide (ps_total ps ≤ pt_Index part)) as [Hge|Hlt].
  { eexists _, _, ps. split_and!; [done|done|done|done| |done]. split; [done|]. intros [E _].
    apply lookup_lt_Some in E. pose proof (pi_length _ I). lia. }
  destruct (slice_get_in (ps_parts ps) (pt_Index part)) as (old & E & El); [rewrite (pi_length _ I); lia|].
  rewrite E. cbn [outcome_bind]. destruct old as [old|].
  { eexists _, _, ps. split_and!; [done|done|done|done| |done]. split; [done|]. intros [? _]. congruence. }
  destruct (Verify_total (pt_Proof part) (ps_hash ps) (pt_Bytes part)) as [err Ev]. rewrite Ev. cbn [outcome_bind].
  destruct err as [err|].
  { eexists _, _, ps. split_and!; [done|done|done|done| |done]. split; [done|]. by intros [_ ?]. }
  rewrite slice_set_Ok by (rewrite (pi_length _ I); lia). cbn [outcome_bind].
  destruct (SetIndex_spec (ps_partsBitArray ps) (pt_Index part) true (pi_bits _ I) Hi) as (bA & Eb & Gb & Sb & Hb).
  rewrite Eb. cbn [outcome_bind snd].
  eexists true, _, _. split; [done|]. cbn [ps_total ps_hash ps_parts]. split_and!; [|done|done|done|done].
  destruct I as [It Il Ib Is Ih Ic Iy Ip].
  pose proof (held_insert (ps_parts ps) _ part El) as Hh. pose proof (lookup_lt_Some _ _ _ El) as Hlt'.
  split; unfold held; cbn [ps_total ps_parts ps_partsBitArray ps_count ps_byteSize ps_hash].
  - done.
  - by rewrite length_insert.
  - done.
  - by rewrite Sb.
  - intros j Hj. rewrite (Hb j Hj), Is. destruct (decide (j = pt_Index part)) as [->|Hne].
    + rewrite decide_True by lia. rewrite list_lookup_insert_eq by done. done.
    + rewrite decide_False by lia. rewrite list_lookup_insert_ne by lia. by apply Ih.
  - apply Permutation_length in Hh. simpl in Hh. fold (held ps) in Hh. rewrite Hh, Ic. unfold u32.
    rewrite Z.mod_small; [lia|]. unfold is_u32 in It.
    assert (length (held ps) < length (ps_parts ps))%nat; [|lia].
    destruct (held_length (<[Z.to_nat (pt_Index part) := Some part]> (ps_parts ps))) as [Hle _].
    rewrite length_insert in Hle. lia.
  - rewrite Hh. cbn [fmap list_fmap]. rewrite zsum_cons, Iy, i64_add. f_equal. unfold held. lia.
  - intros j p E'. destruct (decide (j = Z.to_nat (pt_Index part))) as [->|Hne].
    + rewrite list_lookup_insert_eq in E' by done. simplify_eq. split; [lia|done].
    + rewrite list_lookup_insert_ne in E' by done. by apply Ip.
Qed.

(** *** Cutting *)
Lemma slice_range_chunk (data : bytes) (i partSize : Z) :
  0 < partSize → 0 ≤ i → i * partSize ≤ len data → len data + partSize < two32 →
  slice_range data (u32 (i * partSize)) (Z.min (len data) (u32 (u32 (i + 1) * partSize)))
  = Ok (take (Z.to_nat partSize) (drop (Z.to_nat (i * partSize)) data)).
Proof.
  intros Hp Hi Hle Hlen. unfold two32, len in *. unfold u32, two32.
  assert (i ≤ i * partSize) by nia.
  rewrite (Z.mod_small (i + 1)) by lia. rewrite (Z.mod_small (i * partSize)) by lia.
  rewrite (Z.mod_small ((i + 1) * partSize)) by lia.
  unfold slice_range, len. rewrite decide_True by lia. f_equal.
  destruct (decide ((i + 1) * partSize ≤ Z.of_nat (length data))) as [Hm|Hm].
  - rewrite Z.min_r by lia. f_equal. lia.
  - rewrite Z.min_l by lia. rewrite !take_ge; [done|rewrite length_drop; lia..].
Qed.

Lemma cut_parts_spec n i partSize data bA :
  0 < partSize → 0 ≤ i → len data + partSize < two32 → good bA →
  (∀ j, 0 ≤ j < Z.of_nat n → (i + j) * partSize < len data) → len data ≤ (i + Z.of_nat n) * partSize →
  ∃ chunks bA', cut_parts n i partSize data bA = Ok (chunks, bA') ∧ length chunks = n ∧
    concat chunks = drop (Z.to_nat (i * partSize)) data ∧
    good bA' ∧ TmBits.Size bA' = TmBits.Size bA ∧
    (∀ j, 0 ≤ j → has bA' j = bool_decide (i ≤ j < i + Z.of_nat n ∧ j < TmBits.Size bA) || has bA j).
Proof.
  intros Hp. revert i bA. induction n as [|n IH]; intros i bA Hi Hlen Hg Hin Hend.
  { exists [], bA. split_and!; [done|done| |done|done|].
    - rewrite drop_ge; [done|]. unfold len in *. lia.
    - intros j Hj. rewrite bool_decide_eq_false_2 by lia. done. }
  cbn [cut_parts]. pose proof (Hin 0 ltac:(lia)) as H0. rewrite slice_range_chunk by lia. cbn [outcome_bind].
  destruct (SetIndex_spec bA i true Hg Hi) as (bA1 & E1 & G1 & S1 & B1). rewrite E1. cbn [outcome_bind].
  destruct (IH (i + 1) bA1) as (cs & bA2 & E2 & L2 & C2 & G2 & S2 & B2); [lia|done|done| |lia|].
  { intros j Hj. specialize (Hin (1 + j)). replace (i + 1 + j) with (i + (1 + j)) by lia. apply Hin. lia. }
  rewrite E2. cbn [outcome_bind]. eexists _, _. split_and!; [done| | |done|congruence|].
  - simpl. by rewrite L2.
  - cbn [concat]. rewrite C2. replace (Z.to_nat ((i + 1) * partSize)) with (Z.to_nat (i * partSize) + Z.to_nat partSize)%nat by lia.
    rewrite <-drop_drop. apply take_drop.
  - intros j Hj. rewrite B2, B1, S1 by done. destruct (decide (j = i ∧ i < TmBits.Size bA)) as [[-> ?]|Hn].
    + rewrite (bool_decide_eq_true_2 (i ≤ i < _ ∧ _)) by lia. by rewrite orb_true_r.
    + f_equal. apply bool_decide_ext. lia.
Qed.

Lemma give_proofs_spec i chunks proofs :
  (i + length chunks ≤ length proofs)%nat →
  ∃ parts, give_proofs (Z.of_nat i) chunks proofs = Ok parts ∧ length parts = length chunks ∧
    ∀ j c, chunks !! j = Some c → ∃ p, proofs !! (i + j)%nat = Some p ∧ parts !! j = Some (Some (mkPart (Z.of_nat (i + j)) c p)).
Proof.
  revert i. induction chunks as [|c chunks IH]; intros i Hl; simpl in Hl.
  { exists []. split_and!; [done..|]. intros j c. by rewrite lookup_nil. }
  destruct (lookup_lt_is_Some_2 proofs i) as [p Ep]; [lia|].
  destruct (IH (S i)) as (parts & E & L & H); [lia|].
  cbn [give_proofs]. rewrite (proj2 (slice_get_Ok proofs (Z.of_nat i) p)) by (rewrite Nat2Z.id; auto with lia).
  cbn [outcome_bind]. replace (Z.of_nat i + 1) with (Z.of_nat (S i)) by lia. rewrite E. cbn [outcome_bind].
  eexists. split_and!; [done|simpl; by rewrite L|].
  intros [|j] d Ed; [simplify_eq/=; rewrite Nat.add_0_r; by exists p|].
  rewrite <-Nat.add_succ_comm. by apply H.
Qed.

(** The set made from data: its parts are consecutive pieces of the data with proofs for their
    positions. *)
Record cut (data : bytes) (ps : PartSet) (chunks : list bytes) : Prop := {
  cut_data : concat chunks = data;
  cut_total : ps_total ps = Z.of_nat (length chunks);
  cut_root : HashFromByteSlices Sum chunks = Ok (ps_hash ps);
  cut_parts_length : length (ps_parts ps) = length chunks;
  cut_part : ∀ i c, chunks !! i = Some c → ∃ p, ps_parts ps !! i = Some (Some (mkPart (Z.of_nat i) c p)) ∧
    p_Index p = Z.of_nat i ∧ p_Total p = ps_total ps ∧ Verify Sum p (ps_hash ps) c = Ok None;
}.

Lemma NewPartSetFromData_spec data partSize :
  0 < partSize → len data + partSize < two32 →
  ∃ ps chunks, NewPartSetFromData Sum data partSize = Ok ps ∧ cut data ps chunks ∧
    ps_count ps = ps_total ps ∧ ps_byteSize ps = len data ∧ is_u32 (ps_total ps) ∧
    ps_total ps = (len data + partSize - 1) / partSize.
Proof.
  intros Hp Hlen. unfold NewPartSetFromData. rewrite decide_False by lia.
  assert (0 ≤ len data) by (unfold len; lia).
  set (total := (len data + partSize - 1) / partSize).
  assert (Et : u32 (u32 (len data) + partSize - 1) / partSize = total).
  { unfold u32, two32 in *. rewrite (Z.mod_small (len data)) by lia. by rewrite Z.mod_small by lia. }
  rewrite Et. assert (Ht : total * partSize < len data + partSize ∧ len data ≤ total * partSize ∧ 0 ≤ total).
  { unfold total. pose proof (Z.div_mod (len data + partSize - 1) partSize ltac:(lia)).
    pose proof (Z.mod_pos_bound (len data + partSize - 1) partSize Hp).
    pose proof (Z.div_pos (len data + partSize - 1) partSize). nia. }
  destruct (NewBitArray_good total) as (Hg & _ & _).
  destruct (cut_parts_spec (Z.to_nat total) 0 partSize data (NewBitArray total)) as (chunks & bA & E & L & C & _);
    [done|lia|done|done|intros j Hj; nia|lia|].
  rewrite E. cbn [outcome_bind]. change (Z.to_nat (0 * partSize)) with 0%nat in C.
  destruct (ProofsFromByteSlices_spec Sum chunks) as (root & proofs & Ep & Er & Lp & Hpf). rewrite Ep. cbn [outcome_bind].
  destruct (give_proofs_spec 0 chunks proofs) as (parts & Eg & Lg & Hg'); [lia|].
  change (Z.of_nat 0) with 0 in Eg. rewrite Eg. cbn [outcome_bind].
  eexists _, chunks. split; [done|]. cbn [ps_count ps_total ps_byteSize]. split_and!; [|done|done| |done].
  2: { unfold is_u32, two32 in *. nia. }
  split; cbn [ps_total ps_hash ps_parts]; [done|lia|done|lia|].
  intros i c Hc. destruct (Hg' i c Hc) as (p & Hi & Hpt). destruct (Hpf i c Hc) as (p' & Hi' & T & I & _ & V).
  simpl in Hi, Hpt. simplify_eq. exists p. split_and!; [done|done|lia|done].
Qed.

(** *** Adding parts one after the other *)
Fixpoint add_parts (l : list Part) : M PartSet (list (bool * option part_error)) :=
  match l with
  | [] => ret []
  | p :: l' => r <- addPart Sum p ;; rs <- add_parts l' ;; ret (r :: rs)
  end.

(** From a set [ps] to a later one: what is stored stays, and new parts come from [l]. *)
Record grows (l : list Part) (ps ps' : PartSet) : Prop := {
  gr_inv : ps_inv ps';
  gr_total : ps_total ps' = ps_total ps;
  gr_hash : ps_hash ps' = ps_hash ps;
  gr_old : ∀ i p, ps_parts ps !! i = Some (Some p) → ps_parts ps' !! i = Some (Some p);
  gr_new : ∀ i p, ps_parts ps' !! i = Some (Some p) → ps_parts ps !! i = Some (Some p) ∨ p ∈ l;
  gr_added : ∀ p, p ∈ l → Verify Sum (pt_Proof p) (ps_hash ps) (pt_Bytes p) = Ok None → pt_Index p < ps_total ps →
    ∃ q, ps_parts ps' !! Z.to_nat (pt_Index p) = Some (Some q);
}.

Lemma add_parts_grows l ps :
  ps_inv ps → (∀ p, p ∈ l → 0 ≤ pt_Index p) →
  ∃ rs ps', add_parts l ps = Ok (rs, ps') ∧ grows l ps ps'.
Proof.
  revert ps. induction l as [|p l IH]; intros ps I Hl.
  { eexists _, ps. split; [done|]. split; [done..|by auto|by auto|set_solver]. }
  destruct (addPart_spec p ps I) as (b & e & ps1 & E & I1 & T1 & H1 & Hb & P1); [apply Hl; set_solver|].
  destruct (IH ps1 I1) as (rs & ps' & E' & [I' T' H' O' N' A']); [set_solver|].
  eexists _, ps'. split. { cbn [add_parts]. erewrite bind_run by done. erewrite bind_run by done. done. }
  split.
  - done.
  - congruence.
  - congruence.
  - intros i q Hq. apply O'. rewrite P1. destruct b; [|done].
    rewrite list_lookup_insert_ne; [done|]. intros <-. destruct (proj1 Hb eq_refl) as [? _]. congruence.
  - intros i q Hq. destruct (N' i q Hq) as [Hold|]; [|set_solver]. rewrite P1 in Hold. destruct b; [|by left].
    apply list_lookup_insert_Some in Hold as [(<- & ? & _)|[_ ?]]; [right; set_solver|by left].
  - intros q [->|Hq]%elem_of_cons Hv Hi; [|by apply A'; [done|congruence|congruence]].
    pose proof (Hl p ltac:(set_solver)).
    destruct (slice_get_in (ps_parts ps) (pt_Index p)) as ([q|] & _ & Eq); [rewrite (pi_length _ I); lia| |].
    + exists q. apply O'. rewrite P1. destruct b; [|done]. destruct (proj1 Hb eq_refl) as [? _]. congruence.
    + exists p. apply O'. rewrite P1. destruct b.
      * apply list_lookup_insert_eq. by eapply lookup_lt_Some.
      * assert (false = true) as [=] by (by apply Hb).
Qed.

Lemma complete_all ps : ps_inv ps → ps_IsComplete ps = true ↔ Forall is_Some (ps_parts ps).
Proof.
  intros I. unfold ps_IsComplete. rewrite bool_decide_eq_true, (pi_count _ I), <-(pi_length _ I).
  unfold held. destruct (held_length (ps_parts ps)) as [_ <-]. lia.
Qed.

(** Reading a complete set returns the bytes of its parts, in order. *)
Lemma read_complete ps room :
  ps_inv ps → ps_IsComplete ps = true → 0 < ps_total ps → (∀ k, (0 < room k)%nat) →
  ∃ rd rd', GetReader ps = Ok rd ∧
    ∀ fuel, (length (contents (ps_parts ps)) < fuel)%nat → ReadAll fuel room [] rd = Ok (contents (ps_parts ps), rd' fuel).
Proof.
  intros I Hc Ht Hroom. pose proof (proj1 (complete_all ps I) Hc) as Hall.
  destruct (part_bytes_ok (ps_parts ps) 0 Hall) as (b & Eb & Cb); [rewrite (pi_length _ I); lia|].
  set (rd := mkReader 0 (ps_parts ps) b). assert (Er : rest rd = contents (ps_parts ps)) by (symmetry; exact Cb).
  exists rd, (λ fuel, match ReadAll fuel room [] rd with Ok (_, r) => r | _ => rd end). split.
  { unfold GetReader. rewrite Hc. unfold NewPartSetReader. rewrite Eb. done. }
  intros fuel Hf. destruct (ReadAll_spec fuel room [] rd Hroom) as [r' E]; [done|done|by rewrite Er|].
  rewrite E, Er. done.
Qed.

(** A set whose slots all hold the pieces of [data] reads as [data]. *)
Lemma contents_cut data ps chunks ps' :
  cut data ps chunks → ps_inv ps' → ps_total ps' = ps_total ps →
  (∀ i c, chunks !! i = Some c → ∃ q, ps_parts ps' !! i = Some (Some q) ∧ pt_Bytes q = c) →
  contents (ps_parts ps') = data.
Proof.
  intros [Hd Ht Hr Hl _] I T H. rewrite <-Hd. unfold contents. f_equal. apply list_eq_same_length with (n := length chunks).
  - done.
  - rewrite length_fmap. pose proof (pi_length _ I). lia.
  - intros i x y Hi Hx Hy. rewrite list_lookup_fmap in Hx. destruct (H i y Hy) as (q & Eq & <-). rewrite Eq in Hx. by simplify_eq/=.
Qed.
End collect.

Section theorems.
Context (Sum : bytes → bytes).

Lemma held_lookup ps p : p ∈ held ps ↔ ∃ i, ps_parts ps !! i = Some (Some p).
Proof.
  unfold held. rewrite list_elem_of_omap. split.
  - intros (x & [i Hi]%list_elem_of_lookup_1 & Hx). simpl in Hx. subst. by exists i.
  - intros [i Hi]. exists (Some p). split; [by eapply list_elem_of_lookup_2|done].
Qed.

Lemma cut_held data ps chunks i p :
  cut Sum data ps chunks → ps_parts ps !! i = Some (Some p) →
  chunks !! i = Some (pt_Bytes p) ∧ pt_Index p = Z.of_nat i ∧ pt_Index p < ps_total ps ∧
  Verify Sum (pt_Proof p) (ps_hash ps) (pt_Bytes p) = Ok None.
Proof.
  intros C E. pose proof (lookup_lt_Some _ _ _ E) as Hi. rewrite (cut_parts_length _ _ _ _ C) in Hi.
  destruct (lookup_lt_is_Some_2 chunks i Hi) as [c Hc]. destruct (cut_part _ _ _ _ C i c Hc) as (q & Eq & _ & _ & V).
  rewrite (cut_total _ _ _ _ C). simplify_eq. split_and!; [done|done|simpl; lia|done].
Qed.

Lemma held_bytes data ps chunks : cut Sum data ps chunks → pt_Bytes <$> held ps = chunks.
Proof.
  intros C. unfold held. pose proof (cut_parts_length _ _ _ _ C) as L. pose proof (cut_held data ps chunks) as H.
  assert (Hall : ∀ i x, ps_parts ps !! i = Some x → ∃ p, x = Some p ∧ chunks !! i = Some (pt_Bytes p)).
  { intros i x Hx. destruct (lookup_lt_is_Some_2 chunks i) as [c Hc]; [rewrite <-L; by eapply lookup_lt_Some|].
    destruct (cut_part _ _ _ _ C i c Hc) as (q & Eq & _). rewrite Eq in Hx. simplify_eq. eauto. }
  clear - L Hall. revert chunks L Hall. induction (ps_parts ps) as [|x l IH]; intros [|c cs] L Hall; simplify_eq/=; [done|].
  destruct (Hall 0%nat x eq_refl) as (p & -> & Ep). simplify_eq/=. f_equal. apply IH; [lia|].
  intros i y Hy. apply (Hall (S i) y Hy).
Qed.

Lemma cut_pos data ps chunks : cut Sum data ps chunks → 0 < len data → 0 < ps_total ps.
Proof.
  intros C Hd. rewrite (cut_total _ _ _ _ C). rewrite <-(cut_data _ _ _ _ C) in Hd. destruct chunks; [done|simpl; lia].
Qed.

(** C26: Cutting data into parts and collecting them: starting from the header alone, adding
    the parts in any order, with any repetition, reports no error and ends with a complete
    set, and reading it returns the data, however the reading buffer grows. *)
Theorem part_set_roundtrip data partSize l room :
  0 < partSize → 0 < len data → len data + partSize < two32 → (∀ k, (0 < room k)%nat) →
  ∃ ps, NewPartSetFromData Sum data partSize = Ok ps ∧
    ((∀ p, p ∈ l ↔ p ∈ held ps) →
     ∃ rs ps' rd rd', add_parts Sum l (NewPartSetFromHeader (Header (Some ps))) = Ok (rs, ps') ∧
       ps_IsComplete ps' = true ∧ GetReader ps' = Ok rd ∧ ReadAll (S (length data)) room [] rd = Ok (data, rd')).
Proof.
  intros Hp Hd Hlen Hroom. destruct (NewPartSetFromData_spec Sum data partSize Hp Hlen) as (ps & chunks & E & C & _ & _ & Hu & _).
  exists ps. split; [done|]. intros Hl.
  assert (I0 : ps_inv Sum (NewPartSetFromHeader (Header (Some ps)))) by (by apply NewPartSetFromHeader_inv).
  assert (Hin : ∀ p, p ∈ l → ∃ i, ps_parts ps !! i = Some (Some p)) by (intros p Hp'; by apply held_lookup, Hl).
  destruct (add_parts_grows Sum l _ I0) as (rs & ps' & Ea & G).
  { intros p [i Hi]%Hin. destruct (cut_held _ _ _ _ _ C Hi) as (_ & -> & _). lia. }
  destruct G as [I' T' H' _ N' A']. cbn [ps_total ps_hash NewPartSetFromHeader Header psh_Total psh_Hash] in *.
  assert (Hc : ∀ i c, chunks !! i = Some c → ∃ q, ps_parts ps' !! i = Some (Some q) ∧ pt_Bytes q = c).
  { intros i c Hc. destruct (cut_part _ _ _ _ C i c Hc) as (pf & Ep & _ & _ & V).
    destruct (A' (mkPart (Z.of_nat i) c pf)) as [q Eq]; [apply Hl, held_lookup; by exists i|done| |].
    { destruct (cut_held _ _ _ _ _ C Ep) as (_ & _ & ? & _). done. }
    cbn [pt_Index] in Eq. rewrite Nat2Z.id in Eq. exists q. split; [done|].
    destruct (N' i q Eq) as [[? _]%lookup_replicate|Hq]; [done|]. apply Hin in Hq as [j Hj].
    destruct (cut_held _ _ _ _ _ C Hj) as (Ej & Ij & _ & _). destruct (pi_parts _ _ I' i q Eq) as [Ii _].
    assert (j = i) as -> by lia. congruence. }
  assert (Hfull : ps_IsComplete ps' = true).
  { apply (complete_all Sum ps' I'), Forall_lookup. intros i x Hx. pose proof (lookup_lt_Some _ _ _ Hx) as Hi.
    destruct (lookup_lt_is_Some_2 chunks i) as [c Ec].
    { pose proof (pi_length _ _ I'). rewrite (cut_total _ _ _ _ C) in *. lia. }
    destruct (Hc i c Ec) as (q & Eq & _). rewrite Eq in Hx. simplify_eq. by eexists. }
  pose proof (contents_cut Sum data ps chunks ps' C I' T' Hc) as Econt.
  destruct (read_complete Sum ps' room I' Hfull) as (rd & rd' & Er & Eall); [|done|].
  { rewrite T'. by eapply cut_pos. }
  rewrite Econt in Eall. eexists _, _, _, _. split_and!; [done|done|done|]. apply Eall. lia.
Qed.

(** C27: Whatever parts the peers send: as long as the strings hashed do not collide, a set
    made from the header of some data stores only pieces of that data; and if the
    proof of each stored part is for its index and the number of parts, the set, once
    complete, reads as the data. *)
Theorem part_set_authentic data partSize l room ps :
  0 < partSize → 0 < len data → len data + partSize < two32 → (∀ k, (0 < room k)%nat) →
  (∀ x, length (Sum x) = 32%nat) → (∀ p, p ∈ l → 0 ≤ pt_Index p) →
  NewPartSetFromData Sum data partSize = Ok ps →
  no_collision Sum (λ x, x ∈ hash_inputs Sum (pt_Bytes <$> held ps) ∨
                         ∃ p, p ∈ l ∧ x ∈ Verify_inputs Sum (pt_Proof p) (pt_Bytes p)) →
  ∃ rs ps', add_parts Sum l (NewPartSetFromHeader (Header (Some ps))) = Ok (rs, ps') ∧
    (∀ p, p ∈ held ps' → pt_Bytes p ∈ pt_Bytes <$> held ps) ∧
    ((∀ p, p ∈ held ps' → p_Index (pt_Proof p) = pt_Index p ∧ p_Total (pt_Proof p) = ps_total ps) →
     ps_IsComplete ps' = true →
     ∃ rd rd', GetReader ps' = Ok rd ∧ ReadAll (S (length data)) room [] rd = Ok (data, rd')).
Proof.
  intros Hp Hd Hlen Hroom Hsize Hidx E HU.
  destruct (NewPartSetFromData_spec Sum data partSize Hp Hlen) as (ps0 & chunks & E0 & C & _ & _ & Hu & _).
  assert (ps0 = ps) as -> by congruence.
  assert (I0 : ps_inv Sum (NewPartSetFromHeader (Header (Some ps)))) by (by apply NewPartSetFromHeader_inv).
  destruct (add_parts_grows Sum l _ I0 Hidx) as (rs & ps' & Ea & [I' T' H' _ N' _]).
  cbn [ps_total ps_hash NewPartSetFromHeader Header psh_Total psh_Hash] in *.
  assert (Hch : pt_Bytes <$> held ps = chunks).
  { apply (held_bytes _ _ _ C). }
  rewrite Hch in HU |- *.
  assert (Hpart : ∀ p, p ∈ held ps' → pt_Bytes p ∈ chunks ∧
    (p_Total (pt_Proof p) = Z.of_nat (length chunks) → chunks !! Z.to_nat (p_Index (pt_Proof p)) = Some (pt_Bytes p))).
  { intros p [i Hi]%held_lookup. destruct (pi_parts _ _ I' i p Hi) as [_ V]. rewrite H' in V.
    destruct (N' i p Hi) as [[? _]%lookup_replicate|Hpl]; [done|].
    apply (Verify_sound Sum Hsize _ HU chunks (ps_hash ps)); [apply (cut_root _ _ _ _ C)|done|intros x Hx; by left|].
    intros x Hx. right. by exists p. }
  eexists _, _. split_and!; [done|intros p Hq; apply (Hpart p Hq)|].
  intros Hpos Hfull.
  assert (Econt : contents (ps_parts ps') = data).
  { apply (contents_cut Sum data ps chunks ps' C I' T'). intros i c Hc.
    pose proof (proj1 (Forall_lookup _ _) (proj1 (complete_all Sum ps' I') Hfull)) as Hall.
    destruct (lookup_lt_is_Some_2 (ps_parts ps') i) as [x Hx].
    { apply lookup_lt_Some in Hc. pose proof (pi_length _ _ I'). rewrite (cut_total _ _ _ _ C) in *. lia. }
    destruct (Hall i x Hx) as [q ->]. exists q. split; [done|].
    assert (Hq : q ∈ held ps') by (apply held_lookup; by exists i).
    destruct (Hpos q Hq) as [Eidx Etot]. destruct (Hpart q Hq) as [_ Hat].
    rewrite (cut_total _ _ _ _ C) in Etot. specialize (Hat Etot). destruct (pi_parts _ _ I' i q Hx) as [Ii _].
    rewrite Eidx, Ii, Nat2Z.id in Hat. congruence. }
  destruct (read_complete Sum ps' room I' Hfull) as (rd & rd' & Er & Eall); [|done|].
  { rewrite T'. by eapply cut_pos. }
  rewrite Econt in Eall. eexists _, _. split; [done|]. apply Eall. lia.
Qed.
End theorems.

(** ** Examples *)
Lemma no_collision_parts Sum inputs l :
  no_collision_list Sum (inputs ++ l ≫= λ p, Verify_inputs Sum (pt_Proof p) (pt_Bytes p)) = true →
  no_collision Sum (λ x, x ∈ inputs ∨ ∃ p, p ∈ l ∧ x ∈ Verify_inputs Sum (pt_Proof p) (pt_Bytes p)).
Proof.
  intros H%no_collision_list_ok x y Hx Hy. apply H; rewrite elem_of_app, list_elem_of_bind; naive_solver.
Qed.

Definition sample_data : bytes := [10; 11; 12; 13; 14].
Definition sample_part_set : PartSet :=
  match NewPartSetFromData sample_Sum sample_data 2 with Ok ps => ps | _ => NewPartSetFromHeader (Header None) end.
Definition sample_part (i : nat) : Part :=
  default (mkPart 0 [] (mkProof 0 0 [] [])) (mjoin (ps_parts sample_part_set !! i)).

Lemma part_set_roundtrip_witness :
  ∃ ps, NewPartSetFromData sample_Sum sample_data 2 = Ok ps ∧
    ((∀ p, p ∈ [sample_part 2; sample_part 0; sample_part 2; sample_part 1] ↔ p ∈ held ps) →
     ∃ rs ps' rd rd', add_parts sample_Sum [sample_part 2; sample_part 0; sample_part 2; sample_part 1]
                        (NewPartSetFromHeader (Header (Some ps))) = Ok (rs, ps') ∧
       ps_IsComplete ps' = true ∧ GetReader ps' = Ok rd ∧ ReadAll 6 (λ _, 3%nat) [] rd = Ok (sample_data, rd')).
Proof. apply (part_set_roundtrip sample_Sum sample_data 2); [lia|done|done|intros; lia]. Defined.

Lemma part_set_authentic_witness :
  ∃ rs ps', add_parts sample_Sum [sample_part 2; sample_part 0] (NewPartSetFromHeader (Header (Some sample_part_set))) = Ok (rs, ps') ∧
    (∀ p, p ∈ held ps' → pt_Bytes p ∈ pt_Bytes <$> held sample_part_set) ∧
    ((∀ p, p ∈ held ps' → p_Index (pt_Proof p) = pt_Index p ∧ p_Total (pt_Proof p) = ps_total sample_part_set) →
     ps_IsComplete ps' = true →
     ∃ rd rd', GetReader ps' = Ok rd ∧ ReadAll 6 (λ _, 3%nat) [] rd = Ok (sample_data, rd')).
Proof.
  apply (part_set_authentic sample_Sum sample_data 2);
    [lia|done|done|intros; lia|apply sample_Sum_length| |vm_compute; reflexivity|].
  - intros p Hp. apply list_elem_of_In in Hp. destruct Hp as [<-|[<-|[]]]; vm_compute; discriminate.
  - apply no_collision_parts. vm_compute. reflexivity.
Defined.

(** AddPart does not compare the index and total of the proof with those of the part and the set: the
    last piece with its genuine proof is accepted as part 0; the genuine part 0 is then
    refused without an error, and the set completes and reads as something else than the
    data it has the header of. *)
Theorem part_set_misplaced :
  (let! (rs, ps) := add_parts sample_Sum
       [mkPart 0 (pt_Bytes (sample_part 2)) (pt_Proof (sample_part 2)); sample_part 0; sample_part 1; sample_part 2]
       (NewPartSetFromHeader (Header (Some sample_part_set))) in
   let! rd := GetReader ps in
   let! (data, _) := ReadAll 10 (λ _, 512%nat) [] rd in
   Ok (rs, ps_IsComplete ps, data))
  = Ok ([(true, None); (false, None); (true, None); (true, None)], true, [14; 12; 13; 14]).
Proof. vm_compute. reflexivity. Qed.
