(* ===== verification/TmPrivval.v ===== *)
(** The file-backed private validator (src/sourcecodes/tendermint/privval/file.go), which must never
    sign two different messages for one height, round and step, and proposals
    (src/sourcecodes/tendermint/types/proposal.go, canonical.go).

    The key and the protobuf encodings are parameters.  The state file is the field [pv_disk]: Save
    replaces it atomically, and a restart loads it. *)

From S2P Require Import Prelude TmTypes.

(** ** Proposals *)
Definition ProposalType : Z := 32.

Record Proposal := mkProposal {
  pr_Type : Z; pr_Height : Z; pr_Round : Z; pr_POLRound : Z; pr_BlockID : BlockID; pr_Timestamp : Z;
  pr_Signature : bytes }.

#[global] Instance Proposal_eq_dec : EqDecision Proposal.
Proof. solve_decision. Defined.

Definition NewProposal (now height round polRound : Z) (blockID : BlockID) : Proposal :=
  mkProposal ProposalType height round polRound blockID now [].

Inductive proposal_error :=
| ErrPropType | ErrPropHeight | ErrPropRound | ErrPropPOLRound | ErrPropBlockID (e : basic_error)
| ErrPropIncomplete | ErrPropSignatureMissing | ErrPropSignatureTooBig.

Definition Proposal_ValidateBasic (p : Proposal) : option proposal_error :=
  if decide (pr_Type p ≠ ProposalType) then Some ErrPropType
  else if decide (pr_Height p < 0) then Some ErrPropHeight
  else if decide (pr_Round p < 0) then Some ErrPropRound
  else if decide (pr_POLRound p < -1) then Some ErrPropPOLRound
  else match BlockID_ValidateBasic (pr_BlockID p) with
  | Some e => Some (ErrPropBlockID e)
  | None =>
      if negb (IsComplete (pr_BlockID p)) then Some ErrPropIncomplete
      else if decide (len (pr_Signature p) = 0) then Some ErrPropSignatureMissing
      else if decide (MaxSignatureSize < len (pr_Signature p)) then Some ErrPropSignatureTooBig
      else None
  end.

Record CanonicalProposal := mkCanonicalProposal {
  cp_Type : Z; cp_Height : Z; cp_Round : Z; cp_POLRound : Z; cp_BlockID : option BlockID; cp_Timestamp : Z;
  cp_ChainID : bytes }.

Definition CanonicalizeProposal (chainID : bytes) (p : Proposal) : outcome CanonicalProposal :=
  let! b := CanonicalizeBlockID (pr_BlockID p) in
  Ok (mkCanonicalProposal ProposalType (pr_Height p) (pr_Round p) (pr_POLRound p) b (pr_Timestamp p) chainID).

(** ** The state *)
Definition stepNone : Z := 0.
Definition stepPropose : Z := 1.
Definition stepPrevote : Z := 2.
Definition stepPrecommit : Z := 3.

Definition voteToStep (vote : Vote) : outcome Z :=
  if decide (v_Type vote = PrevoteType) then Ok stepPrevote
  else if decide (v_Type vote = PrecommitType) then Ok stepPrecommit
  else Panic.

(** A nil slice is [None]. *)
Record FilePVLastSignState := mkLSS {
  lss_Height : Z; lss_Round : Z; lss_Step : Z; lss_Signature : option bytes; lss_SignBytes : option bytes }.

Record FilePV := mkFilePV { pv_LastSignState : FilePVLastSignState; pv_disk : FilePVLastSignState }.

Inductive sign_error :=
| ErrHeightRegression | ErrRoundRegression | ErrStepRegression | ErrNoSignBytes | ErrConflictingData | ErrSign.

Definition CheckHRS (lss : FilePVLastSignState) (height round step : Z) : outcome (bool + sign_error) :=
  if decide (height < lss_Height lss) then Ok (inr ErrHeightRegression)
  else if decide (lss_Height lss = height) then
    if decide (round < lss_Round lss) then Ok (inr ErrRoundRegression)
    else if decide (lss_Round lss = round) then
      if decide (step < lss_Step lss) then Ok (inr ErrStepRegression)
      else if decide (lss_Step lss = step) then
        match lss_SignBytes lss, lss_Signature lss with
        | Some _, None => Panic
        | Some _, Some _ => Ok (inl true)
        | None, _ => Ok (inr ErrNoSignBytes)
        end
      else Ok (inl false)
    else Ok (inl false)
  else Ok (inl false).

(** Save writes the whole state to the file. *)
Definition Save : M FilePV unit := modify (λ pv, mkFilePV (pv_LastSignState pv) (pv_LastSignState pv)).

Definition saveSigned (height round step : Z) (signBytes sig : bytes) : M FilePV unit :=
  modify (λ pv, mkFilePV (mkLSS height round step (Some sig) (Some signBytes)) (pv_disk pv)) ;;;
  Save.

Definition NewFilePV : FilePV :=
  let lss := mkLSS 0 0 stepNone None None in mkFilePV lss lss.

(** loadFilePV, after the process has been started again. *)
Definition loadFilePV (loadState : bool) (pv : FilePV) : FilePV :=
  mkFilePV (if loadState then pv_disk pv else mkLSS 0 0 stepNone None None) (pv_disk pv).

Definition Reset : M FilePV unit := modify (λ pv, mkFilePV (mkLSS 0 0 0 None None) (pv_disk pv)) ;;; Save.

#[global] Instance CanonicalVote_eq_dec : EqDecision CanonicalVote.
Proof. solve_decision. Defined.
#[global] Instance CanonicalProposal_eq_dec : EqDecision CanonicalProposal.
Proof. solve_decision. Defined.

Section sign.
Context (MarshalVote : CanonicalVote → bytes) (UnmarshalVote : bytes → option CanonicalVote)
        (MarshalProposal : CanonicalProposal → bytes) (UnmarshalProposal : bytes → option CanonicalProposal)
        (Sign : bytes → option bytes).

Definition set_cv_time (t : Z) (v : CanonicalVote) : CanonicalVote :=
  mkCanonicalVote (cv_Type v) (cv_Height v) (cv_Round v) (cv_BlockID v) t (cv_ChainID v).
Definition set_cp_time (t : Z) (p : CanonicalProposal) : CanonicalProposal :=
  mkCanonicalProposal (cp_Type p) (cp_Height p) (cp_Round p) (cp_POLRound p) (cp_BlockID p) t (cp_ChainID p).

Definition checkVotesOnlyDifferByTimestamp (now : Z) (lastSignBytes newSignBytes : bytes) : outcome (Z * bool) :=
  match UnmarshalVote lastSignBytes, UnmarshalVote newSignBytes with
  | Some lastVote, Some newVote =>
      Ok (cv_Timestamp lastVote, bool_decide (set_cv_time now newVote = set_cv_time now lastVote))
  | _, _ => Panic
  end.

Definition checkProposalsOnlyDifferByTimestamp (now : Z) (lastSignBytes newSignBytes : bytes) : outcome (Z * bool) :=
  match UnmarshalProposal lastSignBytes, UnmarshalProposal newSignBytes with
  | Some lastProposal, Some newProposal =>
      Ok (cp_Timestamp lastProposal, bool_decide (set_cp_time now newProposal = set_cp_time now lastProposal))
  | _, _ => Panic
  end.

Definition set_v_Signature (s : bytes) (v : Vote) : Vote :=
  mkVote (v_Type v) (v_Height v) (v_Round v) (v_BlockID v) (v_Timestamp v) (v_ValidatorAddress v) (v_ValidatorIndex v) s.
Definition set_v_Timestamp (t : Z) (v : Vote) : Vote :=
  mkVote (v_Type v) (v_Height v) (v_Round v) (v_BlockID v) t (v_ValidatorAddress v) (v_ValidatorIndex v) (v_Signature v).
Definition set_pr_Signature (s : bytes) (p : Proposal) : Proposal :=
  mkProposal (pr_Type p) (pr_Height p) (pr_Round p) (pr_POLRound p) (pr_BlockID p) (pr_Timestamp p) s.
Definition set_pr_Timestamp (t : Z) (p : Proposal) : Proposal :=
  mkProposal (pr_Type p) (pr_Height p) (pr_Round p) (pr_POLRound p) (pr_BlockID p) t (pr_Signature p).

Definition ProposalSignBytes (chainID : bytes) (p : Proposal) : outcome bytes :=
  let! cp := CanonicalizeProposal chainID p in Ok (MarshalProposal cp).

(** The vote with its signature, or the error and the vote as it was. *)
Definition SignVote (now : Z) (chainID : bytes) (vote : Vote) : M FilePV (Vote * option sign_error) :=
  let height := v_Height vote in
  let round := v_Round vote in
  step <- lift (voteToStep vote) ;;
  lss <- gets pv_LastSignState ;;
  c <- lift (CheckHRS lss height round step) ;;
  match c with
  | inr err => ret (vote, Some err)
  | inl sameHRS =>
      signBytes <- lift (VoteSignBytes MarshalVote chainID vote) ;;
      if (sameHRS : bool) then
        let last := default [] (lss_SignBytes lss) in
        let sig := default [] (lss_Signature lss) in
        if decide (signBytes = last) then ret (set_v_Signature sig vote, None)
        else
          d <- lift (checkVotesOnlyDifferByTimestamp now last signBytes) ;;
          if (d.2 : bool) then ret (set_v_Signature sig (set_v_Timestamp d.1 vote), None)
          else ret (vote, Some ErrConflictingData)
      else
        match Sign signBytes with
        | None => ret (vote, Some ErrSign)
        | Some sig =>
            saveSigned height round step signBytes sig ;;;
            ret (set_v_Signature sig vote, None)
        end
  end.

Definition SignProposal (now : Z) (chainID : bytes) (proposal : Proposal) : M FilePV (Proposal * option sign_error) :=
  let height := pr_Height proposal in
  let round := pr_Round proposal in
  let step := stepPropose in
  lss <- gets pv_LastSignState ;;
  c <- lift (CheckHRS lss height round step) ;;
  match c with
  | inr err => ret (proposal, Some err)
  | inl sameHRS =>
      signBytes <- lift (ProposalSignBytes chainID proposal) ;;
      if (sameHRS : bool) then
        let last := default [] (lss_SignBytes lss) in
        let sig := default [] (lss_Signature lss) in
        if decide (signBytes = last) then ret (set_pr_Signature sig proposal, None)
        else
          d <- lift (checkProposalsOnlyDifferByTimestamp now last signBytes) ;;
          if (d.2 : bool) then ret (set_pr_Signature sig (set_pr_Timestamp d.1 proposal), None)
          else ret (proposal, Some ErrConflictingData)
      else
        match Sign signBytes with
        | None => ret (proposal, Some ErrSign)
        | Some sig =>
            saveSigned height round step signBytes sig ;;;
            ret (set_pr_Signature sig proposal, None)
        end
  end.
End sign.

(** ** No double signing *)
Section safety.
Context (MarshalVote : CanonicalVote → bytes) (UnmarshalVote : bytes → option CanonicalVote)
        (MarshalProposal : CanonicalProposal → bytes) (UnmarshalProposal : bytes → option CanonicalProposal)
        (Sign : bytes → option bytes).
Local Abbreviation SignVote := (SignVote MarshalVote UnmarshalVote Sign).
Local Abbreviation SignProposal := (SignProposal MarshalProposal UnmarshalProposal Sign).
Local Abbreviation VoteSignBytes := (VoteSignBytes MarshalVote).
Local Abbreviation ProposalSignBytes := (ProposalSignBytes MarshalProposal).

(** What a validator does over its life: requests for signatures, and restarts (after a crash
    before or after the state file was written). *)
Inductive pv_op :=
| OpVote (now : Z) (chainID : bytes) (vote : Vote)
| OpProposal (now : Z) (chainID : bytes) (proposal : Proposal)
| OpRestart.

(** What leaves the validator: signed messages. *)
Inductive signed := SignedVote (chainID : bytes) (v : Vote) | SignedProposal (chainID : bytes) (p : Proposal).

Definition run_op (op : pv_op) : M FilePV (list signed) :=
  match op with
  | OpVote now chainID vote =>
      r <- SignVote now chainID vote ;; ret (match r.2 with Some _ => [] | None => [SignedVote chainID r.1] end)
  | OpProposal now chainID p =>
      r <- SignProposal now chainID p ;; ret (match r.2 with Some _ => [] | None => [SignedProposal chainID r.1] end)
  | OpRestart => modify (loadFilePV true) ;;; ret []
  end.
Fixpoint run_ops (ops : list pv_op) : M FilePV (list signed) :=
  match ops with
  | [] => ret []
  | op :: ops' => out <- run_op op ;; outs <- run_ops ops' ;; ret (out ++ outs)
  end.

(** Height, round and step, in lexicographic order. *)
Definition hrs : Type := Z * Z * Z.
Definition hrs_lt (a b : hrs) : Prop :=
  a.1.1 < b.1.1 ∨ (a.1.1 = b.1.1 ∧ (a.1.2 < b.1.2 ∨ (a.1.2 = b.1.2 ∧ a.2 < b.2))).
Definition hrs_le (a b : hrs) : Prop := hrs_lt a b ∨ a = b.
Definition lss_hrs (lss : FilePVLastSignState) : hrs := (lss_Height lss, lss_Round lss, lss_Step lss).

Definition vote_step (v : Vote) : Z := if decide (v_Type v = PrevoteType) then stepPrevote else stepPrecommit.
Definition signed_hrs (e : signed) : hrs :=
  match e with
  | SignedVote _ v => (v_Height v, v_Round v, vote_step v)
  | SignedProposal _ p => (pr_Height p, pr_Round p, stepPropose)
  end.
Definition signed_bytes (e : signed) : outcome bytes :=
  match e with SignedVote c v => VoteSignBytes c v | SignedProposal c p => ProposalSignBytes c p end.
Definition signed_sig (e : signed) : bytes :=
  match e with SignedVote _ v => v_Signature v | SignedProposal _ p => pr_Signature p end.

(** The last message signed is recorded, with the encoding that its step calls for. *)
Definition lss_ok (lss : FilePVLastSignState) : Prop :=
  match lss_SignBytes lss with
  | None => lss_Step lss = stepNone
  | Some b =>
      (∃ sig, lss_Signature lss = Some sig ∧ Sign b = Some sig) ∧
      (lss_Step lss = stepPropose ∧ (∃ cp, b = MarshalProposal cp) ∨
       (lss_Step lss = stepPrevote ∨ lss_Step lss = stepPrecommit) ∧ ∃ cv, b = MarshalVote cv)
  end.

(** What is recorded of a signed message. *)
Definition recorded (e : signed) (lss : FilePVLastSignState) : Prop :=
  signed_hrs e = lss_hrs lss ∧ signed_bytes e = Ok (default [] (lss_SignBytes lss)) ∧
  lss_Signature lss = Some (signed_sig e) ∧ is_Some (lss_SignBytes lss).

(** [hist] are the messages signed so far, the latest first. *)
Record pv_inv (hist : list signed) (pv : FilePV) : Prop := {
  pv_saved : pv_disk pv = pv_LastSignState pv;
  pv_lss : lss_ok (pv_LastSignState pv);
  pv_hist : ∀ e, e ∈ hist → hrs_lt (signed_hrs e) (lss_hrs (pv_LastSignState pv)) ∨ recorded e (pv_LastSignState pv);
  pv_valid : ∀ e, e ∈ hist → ∃ b, signed_bytes e = Ok b ∧ Sign b = Some (signed_sig e);
  pv_once : ∀ e1 e2, e1 ∈ hist → e2 ∈ hist → signed_hrs e1 = signed_hrs e2 →
    signed_bytes e1 = signed_bytes e2 ∧ signed_sig e1 = signed_sig e2;
  pv_order : StronglySorted (λ e2 e1, hrs_le (signed_hrs e1) (signed_hrs e2)) hist;
}.

Lemma CheckHRS_spec lss height round step :
  lss_ok lss → stepNone < step →
  ∃ r, CheckHRS lss height round step = Ok r ∧
    match r with
    | inl false => hrs_lt (lss_hrs lss) (height, round, step)
    | inl true => lss_hrs lss = (height, round, step) ∧ is_Some (lss_SignBytes lss)
    | inr _ => hrs_lt (height, round, step) (lss_hrs lss)
    end.
Proof.
  intros Hok Hs. unfold CheckHRS, lss_ok, hrs_lt, lss_hrs, stepNone in *. simpl.
  repeat case_decide; try (eexists; split; [done|]; simpl; lia).
  destruct (lss_SignBytes lss) as [b|]; [|lia]. destruct Hok as [(sig & -> & _) _].
  eexists. split; [done|]. simpl. split; [congruence|by eexists].
Qed.

Lemma hrs_lt_trans a b c : hrs_lt a b → hrs_lt b c → hrs_lt a c.
Proof. unfold hrs_lt. lia. Qed.
Lemma hrs_lt_irrefl a : ¬ hrs_lt a a.
Proof. unfold hrs_lt. lia. Qed.

(** A message that was signed before is answered from the record. *)
Lemma pv_inv_again hist pv e :
  pv_inv hist pv → recorded e (pv_LastSignState pv) → pv_inv (e :: hist) pv.
Proof.
  intros [S L H V O Hsort] R. pose proof R as (Rh & Rb & Rs & [b Eb]).
  assert (Hv : signed_bytes e = Ok b ∧ Sign b = Some (signed_sig e)).
  { rewrite Rb, Eb. split; [done|]. unfold lss_ok in L. rewrite Eb in L. destruct L as [(sig & Es & Hs) _]. congruence. }
  assert (Hone : ∀ e', e' ∈ hist → signed_hrs e' = signed_hrs e → signed_bytes e' = signed_bytes e ∧ signed_sig e' = signed_sig e).
  { intros e' He' E. destruct (H e' He') as [Hlt|(_ & Rb' & Rs' & _)].
    - rewrite E, Rh in Hlt. by apply hrs_lt_irrefl in Hlt.
    - split; congruence. }
  split; [done|done|..].
  - intros e' [->|?]%elem_of_cons; [by right|by apply H].
  - intros e' [->|?]%elem_of_cons; [by eexists|by apply V].
  - intros e1 e2 [->|H1]%elem_of_cons [->|H2]%elem_of_cons E.
    + done.
    + destruct (Hone e2 H2) as [-> ->]; done.
    + by apply Hone.
    + by apply O.
  - constructor; [done|]. apply Forall_forall. intros e' He'. unfold hrs_le. rewrite Rh.
    destruct (H e' He') as [?|(? & _)]; auto.
Qed.

(** A new message with a larger height, round and step is signed and recorded. *)
Lemma pv_inv_new hist pv lss e :
  pv_inv hist pv → lss_ok lss → hrs_lt (lss_hrs (pv_LastSignState pv)) (lss_hrs lss) → recorded e lss →
  pv_inv (e :: hist) (mkFilePV lss lss).
Proof.
  intros [S L H V O Hs] Hok Hlt R. apply pv_inv_again; [|done]. split; [done|done| |done..].
  intros e' He'. left. destruct (H e' He') as [Hl|(-> & _)]; [by eapply hrs_lt_trans|done].
Qed.

Context (vote_roundtrip : ∀ cv, UnmarshalVote (MarshalVote cv) = Some cv)
        (proposal_roundtrip : ∀ cp, UnmarshalProposal (MarshalProposal cp) = Some cp).

Lemma VoteSignBytes_Ok c v b :
  VoteSignBytes c v = Ok b →
  ∃ cb, CanonicalizeBlockID (v_BlockID v) = Ok cb ∧
    b = MarshalVote (mkCanonicalVote (v_Type v) (v_Height v) (v_Round v) cb (v_Timestamp v) c).
Proof.
  unfold TmTypes.VoteSignBytes, CanonicalizeVote. destruct (CanonicalizeBlockID (v_BlockID v)) as [cb| |]; cbn; [|done..].
  intros [= <-]. by exists cb.
Qed.

Lemma ProposalSignBytes_Ok c p b :
  ProposalSignBytes c p = Ok b →
  ∃ cb, CanonicalizeBlockID (pr_BlockID p) = Ok cb ∧
    b = MarshalProposal (mkCanonicalProposal ProposalType (pr_Height p) (pr_Round p) (pr_POLRound p) cb (pr_Timestamp p) c).
Proof.
  unfold TmPrivval.ProposalSignBytes, CanonicalizeProposal. destruct (CanonicalizeBlockID (pr_BlockID p)) as [cb| |]; cbn; [|done..].
  intros [= <-]. by exists cb.
Qed.

Lemma voteToStep_Ok v step : voteToStep v = Ok step → step = vote_step v ∧ (step = stepPrevote ∨ step = stepPrecommit).
Proof. unfold voteToStep, vote_step. repeat case_decide; naive_solver. Qed.

(** Reusing the last signature with the last timestamp. *)
Lemma vote_time_reused now c v last b t :
  VoteSignBytes c v = Ok b → (∃ cv, last = MarshalVote cv) →
  checkVotesOnlyDifferByTimestamp UnmarshalVote now last b = Ok (t, true) →
  VoteSignBytes c (set_v_Timestamp t v) = Ok last.
Proof.
  intros (cb & Ecb & ->)%VoteSignBytes_Ok [cv ->]. unfold checkVotesOnlyDifferByTimestamp. rewrite !vote_roundtrip.
  intros [= <- E%bool_decide_eq_true]. unfold TmTypes.VoteSignBytes, CanonicalizeVote, set_v_Timestamp. cbn. rewrite Ecb. cbn.
  do 2 f_equal. destruct cv. unfold set_cv_time in E. cbn in *. congruence.
Qed.

Lemma proposal_time_reused now c p last b t :
  ProposalSignBytes c p = Ok b → (∃ cp, last = MarshalProposal cp) →
  checkProposalsOnlyDifferByTimestamp UnmarshalProposal now last b = Ok (t, true) →
  ProposalSignBytes c (set_pr_Timestamp t p) = Ok last.
Proof.
  intros (cb & Ecb & ->)%ProposalSignBytes_Ok [cv ->]. unfold checkProposalsOnlyDifferByTimestamp. rewrite !proposal_roundtrip.
  intros [= <- E%bool_decide_eq_true]. unfold TmPrivval.ProposalSignBytes, CanonicalizeProposal, set_pr_Timestamp. cbn. rewrite Ecb. cbn.
  do 2 f_equal. destruct cv. unfold set_cp_time in E. cbn in *. congruence.
Qed.

Definition out_vote (c : bytes) (r : Vote * option sign_error) : list signed :=
  match r.2 with Some _ => [] | None => [SignedVote c r.1] end.
Definition out_proposal (c : bytes) (r : Proposal * option sign_error) : list signed :=
  match r.2 with Some _ => [] | None => [SignedProposal c r.1] end.

Lemma SignVote_inv hist pv now c v r pv' :
  pv_inv hist pv → SignVote now c v pv = Ok (r, pv') → pv_inv (out_vote c r ++ hist) pv'.
Proof.
  intros I E. pose proof (pv_lss _ _ I) as Hok. unfold TmPrivval.SignVote in E.
  apply bind_Ok in E as (step & s1 & E1 & E). unfold lift in E1.
  destruct (voteToStep v) as [step'| |] eqn:Es; cbn in E1; simplify_eq. apply voteToStep_Ok in Es as [-> Hst].
  apply bind_Ok in E as (lss & s2 & E2 & E). unfold gets in E2. simplify_eq.
  destruct (CheckHRS_spec (pv_LastSignState s2) (v_Height v) (v_Round v) (vote_step v) Hok) as (rc & Ec & Hc).
  { unfold stepNone, stepPrevote, stepPrecommit in *. lia. }
  unfold bind at 1, lift at 1 in E. rewrite Ec in E. cbn [outcome_bind] in E.
  destruct rc as [same|err]; [|unfold ret in E; by simplify_eq].
  unfold bind at 1, lift at 1 in E. destruct (VoteSignBytes c v) as [b| |] eqn:Eb; cbn [outcome_bind] in E; simplify_eq.
  destruct same.
  - destruct Hc as [Hhrs [last El]]. unfold lss_ok in Hok. rewrite El in Hok, E. cbn [from_option id] in E.
    destruct Hok as [(sig & Esig & Hsig) Henc]. rewrite Esig in E. cbn [from_option id] in E.
    assert (Hcv : ∃ cv, last = MarshalVote cv).
    { destruct Henc as [[Hp _]|[_ ?]]; [|done]. injection Hhrs as _ _ Hs. unfold stepPropose, stepPrevote, stepPrecommit in *. lia. }
    destruct (decide (b = last)) as [->|Hne].
    + unfold ret in E. simplify_eq. apply pv_inv_again; [done|]. split_and!; [done| |done|by eexists].
      rewrite El. exact Eb.
    + unfold bind at 1, lift at 1 in E. destruct (checkVotesOnlyDifferByTimestamp _ _ _ _) as [[t ok]| |] eqn:Ed; cbn in E; simplify_eq.
      destruct ok; unfold ret in E; simplify_eq; [|done].
      apply pv_inv_again; [done|]. split_and!; [done| |done|by eexists].
      rewrite El. apply (vote_time_reused now c v last b t Eb Hcv Ed).
  - destruct (Sign b) as [sig|] eqn:Esig; [|unfold ret in E; by simplify_eq].
    unfold saveSigned, Save, bind, modify, ret in E. cbn in E. simplify_eq.
    apply (pv_inv_new hist s2); [done| |done|].
    + unfold lss_ok. cbn. split; [by eexists|]. right. split; [done|].
      apply VoteSignBytes_Ok in Eb as (cb & _ & ->). by eexists.
    + split_and!; [done|exact Eb|done|by eexists].
Qed.

Lemma SignProposal_inv hist pv now c p r pv' :
  pv_inv hist pv → SignProposal now c p pv = Ok (r, pv') → pv_inv (out_proposal c r ++ hist) pv'.
Proof.
  intros I E. pose proof (pv_lss _ _ I) as Hok. unfold TmPrivval.SignProposal in E.
  apply bind_Ok in E as (lss & s2 & E2 & E). unfold gets in E2. simplify_eq.
  destruct (CheckHRS_spec (pv_LastSignState s2) (pr_Height p) (pr_Round p) stepPropose Hok) as (rc & Ec & Hc); [done|].
  unfold bind at 1, lift at 1 in E. rewrite Ec in E. cbn [outcome_bind] in E.
  destruct rc as [same|err]; [|unfold ret in E; by simplify_eq].
  unfold bind at 1, lift at 1 in E. destruct (ProposalSignBytes c p) as [b| |] eqn:Eb; cbn [outcome_bind] in E; simplify_eq.
  destruct same.
  - destruct Hc as [Hhrs [last El]]. unfold lss_ok in Hok. rewrite El in Hok, E. cbn [from_option id] in E.
    destruct Hok as [(sig & Esig & Hsig) Henc]. rewrite Esig in E. cbn [from_option id] in E.
    assert (Hcv : ∃ cp, last = MarshalProposal cp).
    { destruct Henc as [[_ ?]|[Hp _]]; [done|]. injection Hhrs as _ _ Hs. unfold stepPropose, stepPrevote, stepPrecommit in *. lia. }
    destruct (decide (b = last)) as [->|Hne].
    + unfold ret in E. simplify_eq. apply pv_inv_again; [done|]. split_and!; [done| |done|by eexists].
      rewrite El. exact Eb.
    + unfold bind at 1, lift at 1 in E. destruct (checkProposalsOnlyDifferByTimestamp _ _ _ _) as [[t ok]| |] eqn:Ed; cbn in E; simplify_eq.
      destruct ok; unfold ret in E; simplify_eq; [|done].
      apply pv_inv_again; [done|]. split_and!; [done| |done|by eexists].
      rewrite El. apply (proposal_time_reused now c p last b t Eb Hcv Ed).
  - destruct (Sign b) as [sig|] eqn:Esig; [|unfold ret in E; by simplify_eq].
    unfold saveSigned, Save, bind, modify, ret in E. cbn in E. simplify_eq.
    apply (pv_inv_new hist s2); [done| |done|].
    + unfold lss_ok. cbn. split; [by eexists|]. left. split; [done|].
      apply ProposalSignBytes_Ok in Eb as (cb & _ & ->). by eexists.
    + split_and!; [done|exact Eb|done|by eexists].
Qed.

Lemma NewFilePV_inv : pv_inv [] NewFilePV.
Proof. split; [done|done|set_solver..|constructor]. Qed.

Lemma run_ops_inv ops hist pv outs pv' :
  pv_inv hist pv → run_ops ops pv = Ok (outs, pv') → pv_inv (reverse outs ++ hist) pv'.
Proof.
  revert hist pv outs. induction ops as [|op ops IH]; intros hist pv outs I E.
  { unfold run_ops, ret in E. by simplify_eq. }
  cbn [run_ops] in E. apply bind_Ok in E as (out & pv1 & E1 & E). apply bind_Ok in E as (outs' & pv2 & E2 & E).
  unfold ret in E. simplify_eq.
  assert (I1 : pv_inv (reverse out ++ hist) pv1).
  { destruct op as [now c v|now c p|]; cbn [run_op] in E1; apply bind_Ok in E1 as (r & pv0 & E0 & E1); unfold ret in E1; simplify_eq.
    - apply (SignVote_inv hist pv now c v _ _ I) in E0. unfold out_vote in E0. by destruct r.2.
    - apply (SignProposal_inv hist pv now c p _ _ I) in E0. unfold out_proposal in E0. by destruct r.2.
    - unfold modify in E0. simplify_eq. destruct I as [S L H V O Hs]. split; cbn; rewrite ?S; done. }
  rewrite reverse_app, <-app_assoc. by apply (IH (reverse out ++ hist) pv1).
Qed.

(** The lists of messages a validator can have signed. *)
Definition signs (outs : list signed) (pv : FilePV) : Prop := ∃ ops, run_ops ops NewFilePV = Ok (outs, pv).

Lemma signs_inv outs pv : signs outs pv → pv_inv (reverse outs) pv.
Proof. intros [ops E]. rewrite <-(app_nil_r (reverse outs)). apply (run_ops_inv ops [] NewFilePV outs pv NewFilePV_inv E). Qed.

Lemma sorted_lookup {X} (R : relation X) l i j x y :
  StronglySorted R l → (i < j)%nat → l !! i = Some x → l !! j = Some y → R x y.
Proof.
  intros Hs. revert i j. induction Hs as [|z l _ IH Hf]; intros [|i] [|j] Hij Hx Hy; try done; try lia.
  - cbn in *. simplify_eq. rewrite Forall_forall in Hf. apply Hf. by eapply list_elem_of_lookup_2.
  - cbn in *. apply (IH i j); [lia|done|done].
Qed.
Lemma signs_order outs pv i j e1 e2 :
  signs outs pv → (i < j)%nat → outs !! i = Some e1 → outs !! j = Some e2 → hrs_le (signed_hrs e1) (signed_hrs e2).
Proof.
  intros [_ _ _ _ _ Hs]%signs_inv Hij H1 H2. pose proof (lookup_lt_Some _ _ _ H1). pose proof (lookup_lt_Some _ _ _ H2).
  apply (sorted_lookup _ _ (length outs - S j)%nat (length outs - S i)%nat e2 e1 Hs); [lia|..].
  - rewrite reverse_lookup by lia. by replace (length outs - S (length outs - S j))%nat with j by lia.
  - rewrite reverse_lookup by lia. by replace (length outs - S (length outs - S i))%nat with i by lia.
Qed.

(** C6: Over its whole life, across restarts and whatever it is asked to sign, a validator never signs
    twice: two votes it releases for one height, round and type, or two proposals for one
    height and round, are the same message, timestamp included, with the same signature,
    and each carries the signature of its own sign bytes.  And it never goes back: a message
    released after another has a height, round and step that is not smaller. *)
Theorem sign_once outs pv :
  signs outs pv →
  (∀ e, e ∈ outs → ∃ b, signed_bytes e = Ok b ∧ Sign b = Some (signed_sig e)) ∧
  (∀ c1 v1 c2 v2, SignedVote c1 v1 ∈ outs → SignedVote c2 v2 ∈ outs →
     v_Height v1 = v_Height v2 → v_Round v1 = v_Round v2 → v_Type v1 = v_Type v2 →
     CanonicalizeVote c1 v1 = CanonicalizeVote c2 v2 ∧ v_Signature v1 = v_Signature v2) ∧
  (∀ c1 p1 c2 p2, SignedProposal c1 p1 ∈ outs → SignedProposal c2 p2 ∈ outs →
     pr_Height p1 = pr_Height p2 → pr_Round p1 = pr_Round p2 →
     CanonicalizeProposal c1 p1 = CanonicalizeProposal c2 p2 ∧ pr_Signature p1 = pr_Signature p2) ∧
  (∀ i j e1 e2, (i < j)%nat → outs !! i = Some e1 → outs !! j = Some e2 → hrs_le (signed_hrs e1) (signed_hrs e2)).
Proof.
  intros Hs. assert (∀ e, e ∈ outs ↔ e ∈ reverse outs) as Hrev by (intros; by rewrite elem_of_reverse).
  destruct (signs_inv _ _ Hs) as [_ _ _ V O _]. setoid_rewrite <-Hrev in V. setoid_rewrite <-Hrev in O.
  split_and!; [done|..|by intros ????; apply (signs_order outs pv)].
  - intros c1 v1 c2 v2 H1 H2 Eh Er Et. destruct (O _ _ H1 H2) as [Eb Es]; [unfold signed_hrs, vote_step; by rewrite Eh, Er, Et|].
    split; [|done]. destruct (V _ H1) as (b & Eb1 & _). pose proof Eb1 as Eb2. rewrite Eb in Eb2. cbn [signed_bytes] in *.
    apply VoteSignBytes_Ok in Eb1 as (cb1 & C1 & ->), Eb2 as (cb2 & C2 & E2).
    unfold CanonicalizeVote. rewrite C1, C2. cbn. f_equal.
    enough (Some (mkCanonicalVote (v_Type v1) (v_Height v1) (v_Round v1) cb1 (v_Timestamp v1) c1)
          = Some (mkCanonicalVote (v_Type v2) (v_Height v2) (v_Round v2) cb2 (v_Timestamp v2) c2)) by congruence.
    rewrite <-!vote_roundtrip. by rewrite E2.
  - intros c1 p1 c2 p2 H1 H2 Eh Er. destruct (O _ _ H1 H2) as [Eb Es]; [unfold signed_hrs; by rewrite Eh, Er|].
    split; [|done]. destruct (V _ H1) as (b & Eb1 & _). pose proof Eb1 as Eb2. rewrite Eb in Eb2. cbn [signed_bytes] in *.
    apply ProposalSignBytes_Ok in Eb1 as (cb1 & C1 & ->), Eb2 as (cb2 & C2 & E2).
    unfold CanonicalizeProposal. rewrite C1, C2. cbn. f_equal.
    enough (Some (mkCanonicalProposal ProposalType (pr_Height p1) (pr_Round p1) (pr_POLRound p1) cb1 (pr_Timestamp p1) c1)
          = Some (mkCanonicalProposal ProposalType (pr_Height p2) (pr_Round p2) (pr_POLRound p2) cb2 (pr_Timestamp p2) c2)) by congruence.
    rewrite <-!proposal_roundtrip. by rewrite E2.
Qed.

(** What SignVote answers, in any state a validator can be in, for a vote of a valid type and block
    ID: a vote for an earlier height, round or step is refused; one for a later is signed
    and recorded on disk before it is returned; one for the same is answered with the
    recorded signature and timestamp if only the timestamp differs, and refused as
    conflicting otherwise.  It never panics. *)
Theorem SignVote_answers outs pv now c v :
  signs outs pv → IsVoteTypeValid (v_Type v) = true → BlockID_ValidateBasic (v_BlockID v) = None →
  let last := lss_hrs (pv_LastSignState pv) in
  let asked := (v_Height v, v_Round v, vote_step v) in
  ∃ cv, CanonicalizeVote c v = Ok cv ∧
  (hrs_lt asked last → ∃ e, SignVote now c v pv = Ok ((v, Some e), pv)) ∧
  (hrs_lt last asked → ∀ sig, Sign (MarshalVote cv) = Some sig →
     ∃ pv', SignVote now c v pv = Ok ((set_v_Signature sig v, None), pv') ∧
       pv_disk pv' = mkLSS (v_Height v) (v_Round v) (vote_step v) (Some sig) (Some (MarshalVote cv))) ∧
  (last = asked → ∃ cv0 sig, lss_SignBytes (pv_LastSignState pv) = Some (MarshalVote cv0) ∧
     lss_Signature (pv_LastSignState pv) = Some sig ∧
     SignVote now c v pv =
       Ok (if decide (set_cv_time (cv_Timestamp cv0) cv = cv0)
           then (set_v_Signature sig (set_v_Timestamp (cv_Timestamp cv0) v), None)
           else (v, Some ErrConflictingData), pv)).
Proof.
  intros I%signs_inv Ht Hb last asked. pose proof (pv_lss _ _ I) as Hok.
  assert (∃ cb, CanonicalizeBlockID (v_BlockID v) = Ok cb) as [cb Ecb] by (unfold CanonicalizeBlockID; rewrite Hb; by eexists).
  set (cv := mkCanonicalVote (v_Type v) (v_Height v) (v_Round v) cb (v_Timestamp v) c).
  assert (Ecv : CanonicalizeVote c v = Ok cv) by (unfold CanonicalizeVote; by rewrite Ecb).
  exists cv. split; [done|]. unfold TmPrivval.SignVote.
  assert (voteToStep v = Ok (vote_step v) ∧ (vote_step v = stepPrevote ∨ vote_step v = stepPrecommit)) as [Es Hs].
  { unfold IsVoteTypeValid in Ht. apply bool_decide_eq_true in Ht. unfold voteToStep, vote_step. repeat case_decide; naive_solver. }
  destruct (CheckHRS_spec (pv_LastSignState pv) (v_Height v) (v_Round v) (vote_step v) Hok) as (rc & Ec & Hc).
  { unfold stepNone, stepPrevote, stepPrecommit in *. lia. }
  fold last asked in Hc. unfold bind, lift, gets. rewrite Es. cbn [outcome_bind]. rewrite Ec. cbn [outcome_bind].
  unfold TmTypes.VoteSignBytes. rewrite Ecv. cbn [outcome_bind]. split_and!.
  - intros Hlt. destruct rc as [[]|e]; [| |by exists e].
    + destruct Hc as [Hc _]. rewrite Hc in Hlt. by apply hrs_lt_irrefl in Hlt.
    + pose proof (hrs_lt_trans _ _ _ Hlt Hc) as Hx. by apply hrs_lt_irrefl in Hx.
  - intros Hlt sig Esig. destruct rc as [[]|e].
    + destruct Hc as [Hc _]. rewrite Hc in Hlt. by apply hrs_lt_irrefl in Hlt.
    + cbn [outcome_bind]. rewrite Esig. by eexists.
    + pose proof (hrs_lt_trans _ _ _ Hlt Hc) as Hx. by apply hrs_lt_irrefl in Hx.
  - intros Heq. destruct rc as [[]|e]; [|rewrite Heq in Hc; by apply hrs_lt_irrefl in Hc..].
    destruct Hc as [_ [b Eb]]. unfold lss_ok in Hok. rewrite Eb in Hok. destruct Hok as [(sig & Esig & _) Henc].
    assert (∃ cv0, b = MarshalVote cv0) as [cv0 ->].
    { destruct Henc as [[Hp _]|[_ ?]]; [|done]. unfold last, asked, lss_hrs in Heq. injection Heq as _ _ Hx.
      unfold stepPropose, stepPrevote, stepPrecommit in *. lia. }
    exists cv0, sig. split_and!; [done|done|]. rewrite Eb, Esig. cbn [outcome_bind from_option id].
    destruct (decide (MarshalVote cv = MarshalVote cv0)) as [E|E].
    + assert (cv = cv0) as <- by (apply (f_equal UnmarshalVote) in E; rewrite !vote_roundtrip in E; congruence).
      rewrite decide_True by (by destruct cv). destruct v. done.
    + unfold checkVotesOnlyDifferByTimestamp. rewrite !vote_roundtrip. cbn [outcome_bind fst snd].
      case_decide as Hd.
      * rewrite bool_decide_eq_true_2; [done|]. by rewrite <-Hd.
      * rewrite bool_decide_eq_false_2; [done|]. intros Hx. apply Hd. destruct cv0. unfold set_cv_time in *. cbn in *. congruence.
Qed.
End safety.

(** ** A concrete encoding and key *)
Definition sample_encode_id (b : option BlockID) : bytes :=
  match b with
  | None => [0]
  | Some b => 1 :: len (bid_Hash b) :: psh_Total (bid_PartSetHeader b) :: bid_Hash b ++ psh_Hash (bid_PartSetHeader b)
  end.
Definition sample_decode_id (bs : bytes) : option (option BlockID) :=
  match bs with
  | [0] => Some None
  | 1 :: n :: total :: rest =>
      Some (Some (mkBlockID (take (Z.to_nat n) rest) (mkPartSetHeader total (drop (Z.to_nat n) rest))))
  | _ => None
  end.

Lemma sample_decode_encode_id b : sample_decode_id (sample_encode_id b) = Some b.
Proof.
  destruct b as [[h [n p]]|]; [|done]. cbn. unfold len. by rewrite Nat2Z.id, take_app_length, drop_app_length.
Qed.

Definition sample_MarshalVote (cv : CanonicalVote) : bytes :=
  cv_Type cv :: cv_Height cv :: cv_Round cv :: cv_Timestamp cv :: len (cv_ChainID cv) :: cv_ChainID cv ++ sample_encode_id (cv_BlockID cv).
Definition sample_UnmarshalVote (bs : bytes) : option CanonicalVote :=
  match bs with
  | ty :: h :: r :: t :: n :: rest =>
      (λ b, mkCanonicalVote ty h r b t (take (Z.to_nat n) rest)) <$> sample_decode_id (drop (Z.to_nat n) rest)
  | _ => None
  end.

Lemma sample_vote_roundtrip cv : sample_UnmarshalVote (sample_MarshalVote cv) = Some cv.
Proof.
  destruct cv as [ty h r b t c]. unfold sample_UnmarshalVote, sample_MarshalVote. cbn.
  unfold len. rewrite Nat2Z.id, take_app_length, drop_app_length, sample_decode_encode_id. done.
Qed.

Definition sample_MarshalProposal (cp : CanonicalProposal) : bytes :=
  cp_Type cp :: cp_Height cp :: cp_Round cp :: cp_POLRound cp :: cp_Timestamp cp :: len (cp_ChainID cp) ::
    cp_ChainID cp ++ sample_encode_id (cp_BlockID cp).
Definition sample_UnmarshalProposal (bs : bytes) : option CanonicalProposal :=
  match bs with
  | ty :: h :: r :: pol :: t :: n :: rest =>
      (λ b, mkCanonicalProposal ty h r pol b t (take (Z.to_nat n) rest)) <$> sample_decode_id (drop (Z.to_nat n) rest)
  | _ => None
  end.

Lemma sample_proposal_roundtrip cp : sample_UnmarshalProposal (sample_MarshalProposal cp) = Some cp.
Proof.
  destruct cp as [ty h r pol b t c]. unfold sample_UnmarshalProposal, sample_MarshalProposal. cbn.
  unfold len. rewrite Nat2Z.id, take_app_length, drop_app_length, sample_decode_encode_id. done.
Qed.

Definition sample_Sign (b : bytes) : option bytes := Some (7 :: b).

(** Two prevotes of one round for different blocks, before and after a restart; then a precommit. *)
Definition sample_pv_vote (ty : Z) (block time : Z) : Vote :=
  mkVote ty 5 0 (mkBlockID (replicate 32 block) (mkPartSetHeader 1 (replicate 32 block))) time (replicate 20 1) 0 [].
Definition sample_ops : list pv_op :=
  [OpProposal 0 [1] (NewProposal 3 5 0 (-1) BlockID_nil);
   OpVote 0 [1] (sample_pv_vote PrevoteType 1 10); OpRestart; OpVote 0 [1] (sample_pv_vote PrevoteType 2 11);
   OpVote 0 [1] (sample_pv_vote PrevoteType 1 12); OpVote 0 [1] (sample_pv_vote PrecommitType 1 13)].
Definition sample_run : outcome (list signed * FilePV) :=
  run_ops sample_MarshalVote sample_UnmarshalVote sample_MarshalProposal sample_UnmarshalProposal sample_Sign sample_ops NewFilePV.
Definition sample_outs : list signed := match sample_run with Ok (o, _) => o | _ => [] end.
Definition sample_pv : FilePV := match sample_run with Ok (_, pv) => pv | _ => NewFilePV end.

Lemma sign_once_witness :
  signs sample_MarshalVote sample_UnmarshalVote sample_MarshalProposal sample_UnmarshalProposal sample_Sign sample_outs sample_pv ∧
  length sample_outs = 4%nat ∧
  (∀ c1 v1 c2 v2, SignedVote c1 v1 ∈ sample_outs → SignedVote c2 v2 ∈ sample_outs →
     v_Height v1 = v_Height v2 → v_Round v1 = v_Round v2 → v_Type v1 = v_Type v2 →
     CanonicalizeVote c1 v1 = CanonicalizeVote c2 v2 ∧ v_Signature v1 = v_Signature v2) ∧
  (∀ i j e1 e2, (i < j)%nat → sample_outs !! i = Some e1 → sample_outs !! j = Some e2 → hrs_le (signed_hrs e1) (signed_hrs e2)).
Proof.
  assert (H : signs sample_MarshalVote sample_UnmarshalVote sample_MarshalProposal sample_UnmarshalProposal sample_Sign
                sample_outs sample_pv) by (exists sample_ops; vm_compute; reflexivity).
  split; [exact H|]. split; [vm_compute; reflexivity|]. split.
  all: apply (sign_once sample_MarshalVote sample_UnmarshalVote sample_MarshalProposal sample_UnmarshalProposal sample_Sign
           sample_vote_roundtrip sample_proposal_roundtrip sample_outs sample_pv H).
Defined.

Lemma SignVote_answers_witness :
  ∃ cv, CanonicalizeVote [1] (sample_pv_vote PrecommitType 2 14) = Ok cv ∧
    SignVote sample_MarshalVote sample_UnmarshalVote sample_Sign 0 [1] (sample_pv_vote PrecommitType 2 14) sample_pv
    = Ok ((sample_pv_vote PrecommitType 2 14, Some ErrConflictingData), sample_pv).
Proof.
  destruct (SignVote_answers sample_MarshalVote sample_UnmarshalVote sample_MarshalProposal sample_UnmarshalProposal sample_Sign
           sample_vote_roundtrip sample_proposal_roundtrip sample_outs sample_pv 0 [1] (sample_pv_vote PrecommitType 2 14))
    as (cv & Ecv & _ & _ & H).
  - exists sample_ops. vm_compute. reflexivity.
  - reflexivity.
  - reflexivity.
  - exists cv. split; [exact Ecv|]. destruct H as (cv0 & sig & E1 & E2 & E3); [reflexivity|].
    rewrite E3. rewrite decide_False; [reflexivity|].
    vm_compute in Ecv, E1. injection Ecv as <-. intros E0. rewrite <-E0 in E1. vm_compute in E1. discriminate.
Defined.
