(* ===== verification/TmHeightVotes.v ===== *)
(** The vote sets of a height (src/sourcecodes/tendermint/consensus/types/height_vote_set.go): prevotes and
    precommits of every round up to the current one and of the rounds peers are ahead
    in, and the checked 32-bit arithmetic (libs/math/safemath.go).

    Reading a total or a majority leaves the vote set as it is: the cached total of its validators is
    not part of its meaning. *)

From S2P Require Import Prelude TmBits TmValidators TmPriority TmValUpdate TmTypes TmCommit TmVotes TmVoteInv TmVoteSafety.

(** ** Checked arithmetic *)
Definition MaxInt32 : Z := 2 ^ 31 - 1.
Definition MinInt32 : Z := - 2 ^ 31.
Definition SafeAddInt32 (a b : Z) : outcome Z :=
  if decide (0 < b ∧ MaxInt32 - b < a) then Panic
  else if decide (b < 0 ∧ a < MinInt32 - b) then Panic
  else Ok (a + b).
Definition SafeSubInt32 (a b : Z) : outcome Z :=
  if decide (0 < b ∧ a < MinInt32 + b) then Panic
  else if decide (b < 0 ∧ MaxInt32 + b < a) then Panic
  else Ok (a - b).

(** ** Data *)
Record RoundVoteSet := mkRoundVoteSet { rvs_Prevotes : VoteSet; rvs_Precommits : VoteSet }.

Record HeightVoteSet := mkHeightVoteSet {
  hvs_chainID : bytes; hvs_height : Z; hvs_valSet : ValidatorSet; hvs_round : Z;
  hvs_sets : gmap Z RoundVoteSet; hvs_peerCatchupRounds : gmap bytes (list Z) }.

Definition set_hvs_sets (x : gmap Z RoundVoteSet) (h : HeightVoteSet) : HeightVoteSet :=
  mkHeightVoteSet (hvs_chainID h) (hvs_height h) (hvs_valSet h) (hvs_round h) x (hvs_peerCatchupRounds h).
Definition set_hvs_round (x : Z) (h : HeightVoteSet) : HeightVoteSet :=
  mkHeightVoteSet (hvs_chainID h) (hvs_height h) (hvs_valSet h) x (hvs_sets h) (hvs_peerCatchupRounds h).
Definition set_hvs_catchup (x : gmap bytes (list Z)) (h : HeightVoteSet) : HeightVoteSet :=
  mkHeightVoteSet (hvs_chainID h) (hvs_height h) (hvs_valSet h) (hvs_round h) (hvs_sets h) x.

(** ** Operations *)
Definition addRound (round : Z) : M HeightVoteSet unit :=
  h <- gets id ;;
  match hvs_sets h !! round with
  | Some _ => panic
  | None =>
      prevotes <- lift (NewVoteSet (hvs_chainID h) (hvs_height h) round PrevoteType (hvs_valSet h)) ;;
      precommits <- lift (NewVoteSet (hvs_chainID h) (hvs_height h) round PrecommitType (hvs_valSet h)) ;;
      modify (set_hvs_sets (<[round := mkRoundVoteSet prevotes precommits]> (hvs_sets h)))
  end.

Definition Reset (height : Z) (valSet : ValidatorSet) : M HeightVoteSet unit :=
  modify (λ h, mkHeightVoteSet (hvs_chainID h) height valSet (hvs_round h) ∅ ∅) ;;;
  addRound 0 ;;;
  modify (set_hvs_round 0).

Definition NewHeightVoteSet (chainID : bytes) (height : Z) (valSet : ValidatorSet) : outcome HeightVoteSet :=
  let! (_, h) := Reset height valSet (mkHeightVoteSet chainID 0 valSet 0 ∅ ∅) in Ok h.

(** The rounds [r], [r + 1], ..., as many as [n]. *)
Fixpoint add_rounds (n : nat) (r : Z) : M HeightVoteSet unit :=
  match n with
  | O => ret tt
  | S n' =>
      h <- gets id ;;
      match hvs_sets h !! r with
      | Some _ => ret tt
      | None => addRound r
      end ;;;
      add_rounds n' (r + 1)
  end.

(** The loop counts in an int32: after the round MaxInt32 the counter wraps and the
    condition still holds, so a call with that round does not come back. *)
Definition SetRound (round : Z) : M HeightVoteSet unit :=
  h <- gets id ;;
  newRound <- lift (SafeSubInt32 (hvs_round h) 1) ;;
  if decide (hvs_round h ≠ 0 ∧ round < newRound) then panic
  else
    add_rounds (Z.to_nat (round + 1 - newRound)) newRound ;;;
    if decide (round = MaxInt32) then diverge
    else modify (set_hvs_round round).

Definition getVoteSet (round voteType : Z) (h : HeightVoteSet) : outcome (option VoteSet) :=
  match hvs_sets h !! round with
  | None => Ok None
  | Some rvs =>
      if decide (voteType = PrevoteType) then Ok (Some (rvs_Prevotes rvs))
      else if decide (voteType = PrecommitType) then Ok (Some (rvs_Precommits rvs))
      else Panic
  end.

(** The vote sets are pointers in the code: the set that was changed replaces the old one. *)
Definition putVoteSet (round voteType : Z) (vs : VoteSet) (h : HeightVoteSet) : HeightVoteSet :=
  match hvs_sets h !! round with
  | None => h
  | Some rvs =>
      set_hvs_sets (<[round := if decide (voteType = PrevoteType) then mkRoundVoteSet vs (rvs_Precommits rvs)
                               else mkRoundVoteSet (rvs_Prevotes rvs) vs]> (hvs_sets h)) h
  end.

Definition Prevotes (round : Z) (h : HeightVoteSet) : option VoteSet := rvs_Prevotes <$> hvs_sets h !! round.
Definition Precommits (round : Z) (h : HeightVoteSet) : option VoteSet := rvs_Precommits <$> hvs_sets h !! round.

(** The search of POLInfo, from round [r] down to 0. *)
Fixpoint pol_search (n : nat) (h : HeightVoteSet) : Z * BlockID :=
  match n with
  | O => (-1, BlockID_nil)
  | S n' =>
      match TwoThirdsMajority (Prevotes (Z.of_nat n') h) with
      | (b, true) => (Z.of_nat n', b)
      | _ => pol_search n' h
      end
  end.
Definition POLInfo (h : HeightVoteSet) : Z * BlockID := pol_search (Z.to_nat (hvs_round h + 1)) h.

Inductive hvs_error := ErrGotVoteFromUnwantedRound | ErrHVSVote (e : vote_error) | ErrHVSVoteType | ErrHVSPeer (e : peer_error).

Section crypto.
Context (VerifySignature : bytes → bytes → bytes → bool) (key_Address : bytes → bytes)
        (MarshalDelimited : CanonicalVote → bytes).
Local Abbreviation addVote := (TmVotes.addVote VerifySignature key_Address MarshalDelimited).

Definition hvs_add (vote : Vote) : M HeightVoteSet (bool * option hvs_error) :=
  h <- gets id ;;
  vs <- lift (getVoteSet (v_Round vote) (v_Type vote) h) ;;
  match vs with
  | None => panic
  | Some vs =>
      r <- lift (addVote (Some vote) vs) ;;
      modify (putVoteSet (v_Round vote) (v_Type vote) r.2) ;;;
      ret (r.1.1, ErrHVSVote <$> r.1.2)
  end.

Definition HVS_AddVote (vote : Vote) (peerID : bytes) : M HeightVoteSet (bool * option hvs_error) :=
  if negb (IsVoteTypeValid (v_Type vote)) then ret (false, None)
  else
    h <- gets id ;;
    vs <- lift (getVoteSet (v_Round vote) (v_Type vote) h) ;;
    match vs with
    | Some _ => hvs_add vote
    | None =>
        let rndz := default [] (hvs_peerCatchupRounds h !! peerID) in
        if decide (length rndz < 2)%nat then
          addRound (v_Round vote) ;;;
          modify (λ h, set_hvs_catchup (<[peerID := rndz ++ [v_Round vote]]> (hvs_peerCatchupRounds h)) h) ;;;
          hvs_add vote
        else ret (false, Some ErrGotVoteFromUnwantedRound)
    end.
End crypto.

Definition HVS_SetPeerMaj23 (round voteType : Z) (peerID : bytes) (blockID : BlockID) : M HeightVoteSet (option hvs_error) :=
  if negb (IsVoteTypeValid voteType) then ret (Some ErrHVSVoteType)
  else
    h <- gets id ;;
    vs <- lift (getVoteSet round voteType h) ;;
    match vs with
    | None => ret None
    | Some vs =>
        r <- lift (SetPeerMaj23 peerID blockID vs) ;;
        modify (putVoteSet round voteType r.2) ;;;
        ret (ErrHVSPeer <$> r.1)
    end.

(** ** Invariant *)
Section inv.
Context (VerifySignature : bytes → bytes → bytes → bool) (key_Address : bytes → bytes)
        (MarshalDelimited : CanonicalVote → bytes).
Local Abbreviation vreach := (TmVoteSafety.vreach VerifySignature key_Address MarshalDelimited).
Local Abbreviation HVS_AddVote := (HVS_AddVote VerifySignature key_Address MarshalDelimited).
Local Abbreviation hvs_add := (hvs_add VerifySignature key_Address MarshalDelimited).

(** A vote set of [h] for a round and type. *)
Record set_ok (h : HeightVoteSet) (r t : Z) (vs : VoteSet) : Prop := {
  so_reach : vreach vs;
  so_chain : chainID vs = hvs_chainID h;
  so_height : height vs = hvs_height h;
  so_round : round vs = r;
  so_type : signedMsgType vs = t;
  so_vals : Validators (valSet vs) = Validators (hvs_valSet h);
}.

(** The sets of all rounds are what they should be ... *)
Record hvs_core (h : HeightVoteSet) : Prop := {
  hi_vals : wf_vals (hvs_valSet h) ∧ Forall (λ v : Validator, PubKey v ≠ None) (Validators (hvs_valSet h));
  hi_height : hvs_height h ≠ 0;
  hi_sets : ∀ r rvs, hvs_sets h !! r = Some rvs →
    set_ok h r PrevoteType (rvs_Prevotes rvs) ∧ set_ok h r PrecommitType (rvs_Precommits rvs);
}.

(** ... and the tracked rounds are those up to the current one and at most two for each peer. *)
Record hvs_inv (h : HeightVoteSet) : Prop := {
  hi_core :> hvs_core h;
  hi_round : 0 ≤ hvs_round h;
  hi_tracked : ∀ r, 0 ≤ r ≤ hvs_round h → is_Some (hvs_sets h !! r);
  hi_bound : ∀ r, is_Some (hvs_sets h !! r) →
    -1 ≤ r ≤ hvs_round h ∨ ∃ peer l, hvs_peerCatchupRounds h !! peer = Some l ∧ r ∈ l;
  hi_catchup : ∀ peer l, hvs_peerCatchupRounds h !! peer = Some l → (length l ≤ 2)%nat;
}.

(** What a later state keeps: the height and its validators, and every vote set, which only advances. *)
Record hvs_advances (h h' : HeightVoteSet) : Prop := {
  ha_frame : hvs_chainID h' = hvs_chainID h ∧ hvs_height h' = hvs_height h ∧ hvs_valSet h' = hvs_valSet h;
  ha_sets : ∀ r rvs, hvs_sets h !! r = Some rvs →
    ∃ rvs', hvs_sets h' !! r = Some rvs' ∧ advances (rvs_Prevotes rvs) (rvs_Prevotes rvs') ∧
      advances (rvs_Precommits rvs) (rvs_Precommits rvs');
}.

Lemma advances_trans vs1 vs2 vs3 : advances vs1 vs2 → advances vs2 vs3 → advances vs1 vs3.
Proof. intros [F1 M1 V1] [F2 M2 V2]. split; [by eapply same_frame_trans|auto..]. Qed.

#[export] Instance hvs_advances_preorder : PreOrder hvs_advances.
Proof.
  split.
  - intros h. split; [done|]. intros r rvs E. exists rvs. split_and!; [done|apply advances_refl..].
  - intros h1 h2 h3 [(F1 & F2 & F3) S1] [(G1 & G2 & G3) S2]. split; [split_and!; congruence|].
    intros r rvs E. destruct (S1 r rvs E) as (rvs2 & E2 & A2 & B2). destruct (S2 r rvs2 E2) as (rvs3 & E3 & A3 & B3).
    exists rvs3. split_and!; [done|by eapply advances_trans..].
Qed.

Lemma set_ok_frame h h' r t vs :
  hvs_chainID h' = hvs_chainID h → hvs_height h' = hvs_height h → hvs_valSet h' = hvs_valSet h →
  set_ok h r t vs → set_ok h' r t vs.
Proof. intros E1 E2 E3 []. split; congruence. Qed.

Lemma NewVoteSet_ok h r t :
  hvs_core h → ∃ vs, NewVoteSet (hvs_chainID h) (hvs_height h) r t (hvs_valSet h) = Ok vs ∧ set_ok h r t vs ∧ maj23 vs = None.
Proof.
  intros [[Hw Hk] Hh _].
  destruct (NewVoteSet (hvs_chainID h) (hvs_height h) r t (hvs_valSet h)) as [vs| |] eqn:E;
    unfold NewVoteSet in E; rewrite decide_False in E by done; simplify_eq.
  eexists. split; [done|]. split; [|done]. split; try done.
  apply (vr_new _ _ _ (hvs_chainID h) (hvs_height h) r t (hvs_valSet h)); [done|done|].
  unfold NewVoteSet. by rewrite decide_False.
Qed.

(** Adding a round that is tracked from now on. *)
Lemma addRound_run h r :
  hvs_core h → hvs_sets h !! r = None →
  ∃ rvs, addRound r h = Ok (tt, set_hvs_sets (<[r := rvs]> (hvs_sets h)) h) ∧
    set_ok h r PrevoteType (rvs_Prevotes rvs) ∧ set_ok h r PrecommitType (rvs_Precommits rvs) ∧
    maj23 (rvs_Prevotes rvs) = None ∧ maj23 (rvs_Precommits rvs) = None.
Proof.
  intros I E. destruct (NewVoteSet_ok h r PrevoteType I) as (v1 & E1 & O1 & M1).
  destruct (NewVoteSet_ok h r PrecommitType I) as (v2 & E2 & O2 & M2).
  exists (mkRoundVoteSet v1 v2). split_and!; [|done..].
  unfold addRound. rewrite (bind_run _ _ h h h) by done. rewrite E.
  unfold bind, lift. rewrite E1. cbn [outcome_bind]. rewrite E2. done.
Qed.

Lemma set_sets_core h r rvs :
  hvs_core h → hvs_sets h !! r = None →
  set_ok h r PrevoteType (rvs_Prevotes rvs) → set_ok h r PrecommitType (rvs_Precommits rvs) →
  hvs_core (set_hvs_sets (<[r := rvs]> (hvs_sets h)) h) ∧ hvs_advances h (set_hvs_sets (<[r := rvs]> (hvs_sets h)) h).
Proof.
  intros [Iv Ih Is] E O1 O2. split; [split; [done|done|]|split; [done|]]; cbn [hvs_sets set_hvs_sets].
  - intros r0 rvs0 E0. apply lookup_insert_Some in E0 as [[<- <-]|[_ E0]].
    + split; by apply (set_ok_frame h).
    + destruct (Is r0 rvs0 E0). split; by apply (set_ok_frame h).
  - intros r0 rvs0 E0. exists rvs0. rewrite lookup_insert_ne by congruence. split_and!; [done|apply advances_refl..].
Qed.

Lemma add_rounds_run n r h :
  hvs_core h →
  ∃ h', add_rounds n r h = Ok (tt, h') ∧ hvs_core h' ∧ hvs_advances h h' ∧
    hvs_round h' = hvs_round h ∧ hvs_peerCatchupRounds h' = hvs_peerCatchupRounds h ∧
    (∀ r0, is_Some (hvs_sets h' !! r0) ↔ is_Some (hvs_sets h !! r0) ∨ r ≤ r0 < r + Z.of_nat n).
Proof.
  revert r h. induction n as [|n IH]; intros r h I.
  { exists h. split_and!; [done..|]. intros r0. split; [by left|]. intros [?|?]; [done|lia]. }
  cbn [add_rounds]. rewrite (bind_run _ _ h h h) by done.
  destruct (hvs_sets h !! r) as [rvs|] eqn:E.
  - rewrite (bind_run _ _ h tt h) by done. destruct (IH (r + 1) h I) as (h' & E' & I' & A' & R' & P' & S').
    exists h'. split_and!; [done..|]. intros r0. rewrite S'. destruct (decide (r0 = r)) as [->|]; [rewrite E; naive_solver|].
    split; (intros [?|?]; [by left|right; lia]).
  - destruct (addRound_run h r I E) as (rvs & Er & O1 & O2 & _). rewrite (bind_run _ _ h tt _ Er).
    destruct (set_sets_core h r rvs I E O1 O2) as [I1 A1].
    destruct (IH (r + 1) _ I1) as (h' & E' & I' & A' & R' & P' & S').
    exists h'. split_and!; [done|done|by etrans|done|done|]. intros r0. rewrite S'. cbn [hvs_sets set_hvs_sets].
    destruct (decide (r0 = r)) as [->|Hne]; [rewrite lookup_insert_eq|rewrite lookup_insert_ne by done].
    + split; [intros _; right; lia|intros _; left; by eexists].
    + split; (intros [?|?]; [by left|right; lia]).
Qed.

Lemma SetRound_max h : hvs_inv h → hvs_round h ≤ MaxInt32 → SetRound MaxInt32 h = Diverge.
Proof.
  intros I Hmax. pose proof (hi_round _ I) as H0. unfold SetRound. rewrite (bind_run _ _ h h h) by done.
  unfold bind, lift, SafeSubInt32. rewrite decide_False by (unfold MinInt32; lia). rewrite decide_False by lia. cbn [outcome_bind].
  rewrite decide_False by lia.
  destruct (add_rounds_run (Z.to_nat (MaxInt32 + 1 - (hvs_round h - 1))) (hvs_round h - 1) h I) as (h' & E & _).
  rewrite E. cbn [outcome_bind]. by rewrite decide_True.
Qed.

Lemma SetRound_step h r :
  hvs_inv h → hvs_round h - 1 ≤ r → r ≠ MaxInt32 → hvs_round h ≤ MaxInt32 →
  ∃ h', SetRound r h = Ok (tt, h') ∧ hvs_core h' ∧ hvs_advances h h' ∧ hvs_round h' = r ∧
    (hvs_round h ≤ r → hvs_inv h').
Proof.
  intros I Hr Hne Hmax. unfold SetRound. rewrite (bind_run _ _ h h h) by done.
  pose proof (hi_round _ I) as H0. unfold bind, lift, SafeSubInt32.
  rewrite decide_False by (unfold MinInt32; lia). rewrite decide_False by lia. cbn [outcome_bind].
  rewrite decide_False by lia.
  destruct (add_rounds_run (Z.to_nat (r + 1 - (hvs_round h - 1))) (hvs_round h - 1) h I) as (h' & E & I' & A' & R' & P' & S').
  rewrite E. cbn [outcome_bind]. rewrite decide_False by done. eexists. split; [done|]. destruct I' as [Iv Ih Is]. split_and!.
  - split; [done|done|]. intros r0 rvs0 E0. destruct (Is r0 rvs0 E0). split; by apply (set_ok_frame h').
  - etrans; [done|]. split; [done|]. intros r0 rvs0 E0. exists rvs0. split_and!; [done|apply advances_refl..].
  - done.
  - intros Hle. split; cbn [set_hvs_round hvs_round hvs_sets hvs_peerCatchupRounds].
    + split; [done|done|]. intros r0 rvs0 E0. destruct (Is r0 rvs0 E0). split; by apply (set_ok_frame h').
    + lia.
    + intros r0 Hr0. apply S'. destruct (decide (r0 ≤ hvs_round h)); [left; apply (hi_tracked _ I); lia|right; lia].
    + intros r0 [Hs|Hs]%S'; [|left; lia]. rewrite P'. destruct (hi_bound _ I r0 Hs) as [?|?]; [left; lia|by right].
    + intros peer l. rewrite P'. apply (hi_catchup _ I).
Qed.

(** Replacing one vote set by a later state of it. *)
Lemma putVoteSet_core h r t vs vs' :
  hvs_core h → IsVoteTypeValid t = true → getVoteSet r t h = Ok (Some vs) → vreach vs' → advances vs vs' →
  let h' := putVoteSet r t vs' h in
  hvs_core h' ∧ hvs_advances h h' ∧ getVoteSet r t h' = Ok (Some vs') ∧ hvs_round h' = hvs_round h ∧
  hvs_peerCatchupRounds h' = hvs_peerCatchupRounds h ∧ (∀ r0, is_Some (hvs_sets h' !! r0) ↔ is_Some (hvs_sets h !! r0)).
Proof.
  intros [Iv Ih Is] Ht Eg Hr Ha. unfold IsVoteTypeValid in Ht. apply bool_decide_eq_true in Ht.
  unfold getVoteSet in Eg. destruct (hvs_sets h !! r) as [rvs|] eqn:E; [|done].
  destruct (Is r rvs E) as [[] []]. pose proof (adv_frame _ _ Ha) as (F1 & F2 & F3 & F4 & F5).
  unfold putVoteSet. rewrite E. cbn zeta.
  set (rvs' := if decide (t = PrevoteType) then _ else _).
  assert (H : set_ok h r PrevoteType (rvs_Prevotes rvs') ∧ set_ok h r PrecommitType (rvs_Precommits rvs') ∧
    advances (rvs_Prevotes rvs) (rvs_Prevotes rvs') ∧ advances (rvs_Precommits rvs) (rvs_Precommits rvs') ∧
    (if decide (t = PrevoteType) then rvs_Prevotes rvs' = vs' else rvs_Precommits rvs' = vs')).
  { unfold rvs'. destruct Ht as [-> | ->]; cbn [decide] in *.
    - rewrite decide_True in Eg by done. simplify_eq. rewrite decide_True by done.
      split_and!; [split; cbn; (done || congruence)|split; done|done|apply advances_refl|done].
    - rewrite decide_False in Eg by done. rewrite decide_True in Eg by done. simplify_eq. rewrite decide_False by done.
      split_and!; [split; done|split; cbn; (done || congruence)|apply advances_refl|done|done]. }
  destruct H as (H1 & H2 & A1 & A2 & Hv). split_and!.
  - split; [done|done|]. cbn [hvs_sets set_hvs_sets]. intros r0 rvs0 E0. apply lookup_insert_Some in E0 as [[<- <-]|[_ E0]].
    + split; by apply (set_ok_frame h).
    + destruct (Is r0 rvs0 E0). split; by apply (set_ok_frame h).
  - split; [done|]. cbn [hvs_sets set_hvs_sets]. intros r0 rvs0 E0. destruct (decide (r0 = r)) as [->|Hne].
    + exists rvs'. rewrite lookup_insert_eq. by simplify_eq.
    + exists rvs0. rewrite lookup_insert_ne by done. split_and!; [done|apply advances_refl..].
  - unfold getVoteSet. cbn [hvs_sets set_hvs_sets]. rewrite lookup_insert_eq. destruct Ht as [-> | ->]; cbn in Hv |- *; by rewrite Hv.
  - done.
  - done.
  - intros r0. cbn [hvs_sets set_hvs_sets]. destruct (decide (r0 = r)) as [->|Hne]; [rewrite lookup_insert_eq, E|by rewrite lookup_insert_ne].
    split; by eexists.
Qed.

Lemma getVoteSet_core h r t vs : hvs_core h → IsVoteTypeValid t = true → getVoteSet r t h = Ok (Some vs) → set_ok h r t vs.
Proof.
  intros I Ht E. unfold IsVoteTypeValid in Ht. apply bool_decide_eq_true in Ht. unfold getVoteSet in E.
  destruct (hvs_sets h !! r) as [rvs|] eqn:Er; [|done]. destruct (hi_sets _ I r rvs Er).
  destruct Ht as [-> | ->]; [rewrite decide_True in E by done|rewrite decide_False, decide_True in E by done]; by injection E as <-.
Qed.

Lemma getVoteSet_valid h r t : IsVoteTypeValid t = true → ∃ vs, getVoteSet r t h = Ok vs ∧ (is_Some vs ↔ is_Some (hvs_sets h !! r)).
Proof.
  intros Ht. unfold IsVoteTypeValid in Ht. apply bool_decide_eq_true in Ht. unfold getVoteSet.
  destruct (hvs_sets h !! r) as [rvs|]; [|by exists None].
  destruct Ht as [-> | ->]; cbn; eexists; (split; [done|]); split; by eexists.
Qed.

Lemma hvs_add_step h vote :
  hvs_core h → IsVoteTypeValid (v_Type vote) = true → is_Some (hvs_sets h !! v_Round vote) → proper_id (v_BlockID vote) →
  ∃ res h', hvs_add vote h = Ok (res, h') ∧ hvs_core h' ∧ hvs_advances h h' ∧ hvs_round h' = hvs_round h ∧
    hvs_peerCatchupRounds h' = hvs_peerCatchupRounds h ∧ (∀ r0, is_Some (hvs_sets h' !! r0) ↔ is_Some (hvs_sets h !! r0)).
Proof.
  intros I Ht Hs Hp. destruct (getVoteSet_valid h (v_Round vote) (v_Type vote) Ht) as (ovs & E & Ho).
  destruct (proj2 Ho Hs) as [vs ->]. pose proof (getVoteSet_core h _ _ vs I Ht E) as O.
  destruct (vreach_vinv _ _ _ vs (so_reach _ _ _ _ O)) as [Hvi Hk].
  destruct (addVote_step VerifySignature key_Address MarshalDelimited vs (Some vote) Hvi Hk) as (res & vs' & Ea & _ & Hadv).
  { intros v [= <-]. done. }
  assert (Hr' : vreach vs') by (eapply vr_add; [apply O| |exact Ea]; by intros v [= <-]).
  destruct (putVoteSet_core h (v_Round vote) (v_Type vote) vs vs' I Ht E Hr' Hadv) as (I' & A' & _ & R' & P' & S').
  eexists _, _. split; [|done]. unfold TmHeightVotes.hvs_add. rewrite (bind_run _ _ h h h) by done.
  unfold bind, lift. rewrite E. cbn [outcome_bind]. rewrite Ea. done.
Qed.

Lemma hvs_inv_same h h' :
  hvs_inv h → hvs_core h' → hvs_round h' = hvs_round h → hvs_peerCatchupRounds h' = hvs_peerCatchupRounds h →
  (∀ r0, is_Some (hvs_sets h' !! r0) ↔ is_Some (hvs_sets h !! r0)) → hvs_inv h'.
Proof.
  intros [C R T B K] I' ER EP ES. split; [done|by rewrite ER|..].
  - intros r0. rewrite ES, ER. apply T.
  - intros r0. rewrite ES, ER, EP. apply B.
  - intros peer l. rewrite EP. apply K.
Qed.

Lemma HVS_AddVote_step h vote peer :
  hvs_inv h → proper_id (v_BlockID vote) →
  ∃ res h', HVS_AddVote vote peer h = Ok (res, h') ∧ hvs_inv h' ∧ hvs_advances h h' ∧ hvs_round h' = hvs_round h.
Proof.
  intros I Hp. unfold TmHeightVotes.HVS_AddVote. destruct (IsVoteTypeValid (v_Type vote)) eqn:Ht; [|by exists (false, None), h]. cbn [negb].
  rewrite (bind_run _ _ h h h) by done. destruct (getVoteSet_valid h (v_Round vote) (v_Type vote) Ht) as (ovs & E & Ho).
  unfold bind at 1, lift at 1. rewrite E. cbn [outcome_bind]. destruct ovs as [vs|].
  { destruct (hvs_add_step h vote I Ht) as (res & h' & Ea & I' & A' & R' & P' & S'); [apply Ho; by eexists|done|].
    exists res, h'. split_and!; [done|by eapply hvs_inv_same|done|done]. }
  set (rndz := default [] (hvs_peerCatchupRounds h !! peer)).
  case_decide as Hlen; [|by eexists _, h].
  assert (En : hvs_sets h !! v_Round vote = None).
  { destruct (hvs_sets h !! v_Round vote) eqn:E0; [|done]. destruct (proj2 Ho) as [? [=]]. by eexists. }
  destruct (addRound_run h (v_Round vote) I En) as (rvs & Er & O1 & O2 & _). rewrite (bind_run _ _ h tt _ Er).
  destruct (set_sets_core h (v_Round vote) rvs I En O1 O2) as [I1 A1].
  set (h1 := set_hvs_sets _ h) in *.
  set (h2 := set_hvs_catchup (<[peer := rndz ++ [v_Round vote]]> (hvs_peerCatchupRounds h1)) h1).
  rewrite (bind_run _ _ h1 tt h2) by done.
  assert (I2 : hvs_inv h2).
  { split.
    - destruct I1 as [Iv Ih Is]. split; [done|done|]. intros r0 rvs0 E0. destruct (Is r0 rvs0 E0). split; by apply (set_ok_frame h1).
    - apply (hi_round _ I).
    - intros r0 Hr0. cbn. destruct (decide (r0 = v_Round vote)) as [->|]; [rewrite lookup_insert_eq; by eexists|].
      rewrite lookup_insert_ne by done. by apply (hi_tracked _ I).
    - intros r0 Hs. cbn in Hs |- *. destruct (decide (r0 = v_Round vote)) as [->|].
      + right. exists peer, (rndz ++ [v_Round vote]). rewrite lookup_insert_eq. split; [done|set_solver].
      + rewrite lookup_insert_ne in Hs by done. destruct (hi_bound _ I r0 Hs) as [?|(p & l & Hl & Hin)]; [by left|].
        right. destruct (decide (p = peer)) as [->|].
        * exists peer, (rndz ++ [v_Round vote]). rewrite lookup_insert_eq. split; [done|]. unfold rndz. rewrite Hl. simpl. set_solver.
        * exists p, l. by rewrite lookup_insert_ne.
    - intros p l Hl. cbn in Hl. apply lookup_insert_Some in Hl as [[<- <-]|[_ Hl]]; [rewrite length_app; simpl; lia|].
      by apply (hi_catchup _ I p). }
  assert (A2 : hvs_advances h h2).
  { etrans; [exact A1|]. split; [done|]. intros r0 rvs0 E0. exists rvs0. split_and!; [done|apply advances_refl..]. }
  destruct (hvs_add_step h2 vote I2 Ht) as (res & h' & Ea & I' & A' & R' & P' & S'); [cbn; rewrite lookup_insert_eq; by eexists|done|].
  exists res, h'. split_and!; [done|by eapply hvs_inv_same|by etrans|done].
Qed.

Lemma HVS_SetPeerMaj23_step h r t peer b :
  hvs_inv h → ∃ res h', HVS_SetPeerMaj23 r t peer b h = Ok (res, h') ∧ hvs_inv h' ∧ hvs_advances h h' ∧ hvs_round h' = hvs_round h.
Proof.
  intros I. unfold HVS_SetPeerMaj23. destruct (IsVoteTypeValid t) eqn:Ht; [|by eexists _, h]. cbn [negb].
  rewrite (bind_run _ _ h h h) by done. destruct (getVoteSet_valid h r t Ht) as (ovs & E & Ho).
  unfold bind at 1, lift at 1. rewrite E. cbn [outcome_bind]. destruct ovs as [vs|]; [|by eexists _, h].
  pose proof (getVoteSet_core h _ _ vs I Ht E) as O. destruct (vreach_vinv _ _ _ vs (so_reach _ _ _ _ O)) as [Hvi _].
  destruct (SetPeerMaj23_step VerifySignature key_Address MarshalDelimited vs peer b Hvi) as (res & vs' & Ea & _ & Hadv).
  assert (Hr' : vreach vs') by (eapply vr_peer; [apply O|exact Ea]).
  destruct (putVoteSet_core h r t vs vs' I Ht E Hr' Hadv) as (I' & A' & _ & R' & P' & S').
  eexists _, _. split_and!; [unfold bind, lift; rewrite Ea; done|by eapply hvs_inv_same|done|done].
Qed.

Lemma NewHeightVoteSet_inv chainID h vals :
  wf_vals vals → Forall (λ v : Validator, PubKey v ≠ None) (Validators vals) → h ≠ 0 →
  ∃ hvs, NewHeightVoteSet chainID h vals = Ok hvs ∧ hvs_inv hvs ∧ hvs_round hvs = 0 ∧
    hvs_chainID hvs = chainID ∧ hvs_height hvs = h ∧ hvs_valSet hvs = vals ∧
    (∀ r rvs, hvs_sets hvs !! r = Some rvs → r = 0 ∧ maj23 (rvs_Prevotes rvs) = None ∧ maj23 (rvs_Precommits rvs) = None).
Proof.
  intros Hw Hk Hh. unfold NewHeightVoteSet, Reset. set (h0 := mkHeightVoteSet chainID h vals 0 ∅ ∅).
  assert (I0 : hvs_core h0) by (split; [done|done|]; intros r rvs E; unfold h0 in E; cbn in E; by rewrite lookup_empty in E).
  destruct (addRound_run h0 0 I0) as (rvs & Er & O1 & O2 & M1 & M2); [apply lookup_empty|].
  rewrite (bind_run _ _ _ tt h0) by done. rewrite (bind_run _ _ _ _ _ Er). cbn [outcome_bind modify].
  eexists. split; [done|]. split; [|split_and!; [done..|]].
  - split; cbn.
    + destruct (set_sets_core h0 0 rvs I0 (lookup_empty _) O1 O2) as [[Iv Ih Is] _]. split; [done|done|].
      intros r0 rvs0 E0. destruct (Is r0 rvs0 E0). split; by apply (set_ok_frame (set_hvs_sets (<[0 := rvs]> (hvs_sets h0)) h0)).
    + done.
    + intros r0 Hr0. replace r0 with 0 by lia. rewrite lookup_insert_eq. by eexists.
    + intros r0 Hs. destruct (decide (r0 = 0)) as [->|]; [left; lia|]. rewrite lookup_insert_ne, lookup_empty in Hs by done. by destruct Hs.
    + intros peer l Hl. by rewrite lookup_empty in Hl.
  - intros r rvs0 E0. cbn in E0. apply lookup_insert_Some in E0 as [[<- <-]|[_ E0]]; [done|by rewrite lookup_empty in E0].
Qed.

(** ** The last proof of lock *)
Definition polka (h : HeightVoteSet) (r : Z) (b : BlockID) : Prop := TwoThirdsMajority (Prevotes r h) = (b, true).

Lemma pol_search_spec n h :
  let '(r, b) := pol_search n h in
  (r = -1 ∧ ∀ r' b', 0 ≤ r' < Z.of_nat n → ¬ polka h r' b') ∨
  (0 ≤ r < Z.of_nat n ∧ polka h r b ∧ ∀ r' b', r < r' < Z.of_nat n → ¬ polka h r' b').
Proof.
  unfold polka. induction n as [|n IH]; cbn [pol_search].
  { left. split; [done|]. intros r' b' Hr. lia. }
  destruct (TwoThirdsMajority (Prevotes (Z.of_nat n) h)) as [b ok] eqn:E. destruct ok.
  { right. split_and!; [lia|lia|done|]. intros r' b' Hr. lia. }
  destruct (pol_search n h) as [r b0]. destruct IH as [[-> H]|(Hr & Hp & H)]; [left|right].
  - split; [done|]. intros r' b' Hr'. destruct (decide (r' = Z.of_nat n)) as [->|]; [rewrite E; congruence|apply H; lia].
  - split_and!; [lia|lia|done|]. intros r' b' Hr'. destruct (decide (r' = Z.of_nat n)) as [->|]; [rewrite E; congruence|apply H; lia].
Qed.

Lemma POLInfo_spec h :
  0 ≤ hvs_round h →
  let '(r, b) := POLInfo h in
  (r = -1 ∧ ∀ r' b', 0 ≤ r' ≤ hvs_round h → ¬ polka h r' b') ∨
  (0 ≤ r ≤ hvs_round h ∧ polka h r b ∧ ∀ r' b', r < r' ≤ hvs_round h → ¬ polka h r' b').
Proof.
  intros H0. unfold POLInfo. pose proof (pol_search_spec (Z.to_nat (hvs_round h + 1)) h) as H.
  destruct (pol_search _ h) as [r b]. rewrite Z2Nat.id in H by lia.
  destruct H as [[-> H]|(Hr & Hp & H)]; [left|right]; split_and!; try done; try lia; intros; apply H; lia.
Qed.

(** ** Reachable states *)
Inductive hreach : HeightVoteSet → Prop :=
| hr_new chainID h vals hvs :
    wf_vals vals → Forall (λ v : Validator, PubKey v ≠ None) (Validators vals) →
    NewHeightVoteSet chainID h vals = Ok hvs → hreach hvs
| hr_round h r h' : hreach h → hvs_round h ≤ r ≤ MaxInt32 → SetRound r h = Ok (tt, h') → hreach h'
| hr_vote h vote peer res h' :
    hreach h → proper_id (v_BlockID vote) → HVS_AddVote vote peer h = Ok (res, h') → hreach h'
| hr_peer h r t peer b res h' : hreach h → HVS_SetPeerMaj23 r t peer b h = Ok (res, h') → hreach h'.

Lemma hreach_inv h : hreach h → hvs_inv h ∧ hvs_round h ≤ MaxInt32.
Proof.
  induction 1 as [chainID h vals hvs Hw Hk E|h r h' _ [I Hm] Hr E|h vote peer res h' _ [I Hm] Hp E|h r t peer b res h' _ [I Hm] E].
  - destruct (decide (h = 0)) as [->|Hh]; [done|].
    destruct (NewHeightVoteSet_inv chainID h vals Hw Hk Hh) as (hvs' & E' & I & R & _).
    assert (hvs' = hvs) as -> by congruence. split; [done|]. rewrite R. unfold MaxInt32. lia.
  - destruct (decide (r = MaxInt32)) as [->|Hne]; [by rewrite SetRound_max in E|].
    destruct (SetRound_step h r I) as (h1 & E1 & _ & _ & R & I'); [lia|done|done|].
    assert (h1 = h') as -> by congruence. split; [apply I'; lia|lia].
  - destruct (HVS_AddVote_step h vote peer I Hp) as (res1 & h1 & E1 & I' & _ & R).
    assert (h1 = h') as -> by congruence. split; [done|lia].
  - destruct (HVS_SetPeerMaj23_step h r t peer b I) as (res1 & h1 & E1 & I' & _ & R).
    assert (h1 = h') as -> by congruence. split; [done|lia].
Qed.

Lemma catchup_total (m : gmap bytes (list Z)) :
  (∀ peer l, m !! peer = Some l → (length l ≤ 2)%nat) → (length (concat (map_to_list m).*2) ≤ 2 * size m)%nat.
Proof.
  induction m as [|i x m Hi IH] using map_ind; intros H; [done|].
  rewrite map_to_list_insert, map_size_insert_None by done. cbn [fmap list_fmap snd concat]. rewrite length_app.
  pose proof (H i x (lookup_insert_eq _ _ _)).
  assert (length (concat (map_to_list m).*2) ≤ 2 * size m)%nat; [|lia].
  apply IH. intros peer l Hl. apply (H peer). rewrite lookup_insert_ne; [done|congruence].
Qed.

(** C19: The vote sets of a height, however rounds, votes and claims of peers arrive: every set
    is a reachable vote set of its round, type and of the validators of the height;
    peers can make the node track at most two rounds each beyond its own; adding a vote (whose
    block ID is zero or complete), a claim of a peer, whatever it is, and moving to a later round below MaxInt32
    return and never lose a vote or change a majority, and moving to the
    round MaxInt32 never ends; and POLInfo returns the last round with a prevote majority. *)
Theorem height_votes_invariant h :
  hreach h →
  hvs_inv h ∧
  (Z.of_nat (size (hvs_sets h)) ≤ hvs_round h + 2 + 2 * Z.of_nat (size (hvs_peerCatchupRounds h))) ∧
  (∀ vote peer, proper_id (v_BlockID vote) → ∃ res h', HVS_AddVote vote peer h = Ok (res, h') ∧ hvs_advances h h') ∧
  (∀ r t peer b, ∃ res h', HVS_SetPeerMaj23 r t peer b h = Ok (res, h') ∧ hvs_advances h h') ∧
  (∀ r, hvs_round h ≤ r < MaxInt32 → ∃ h', SetRound r h = Ok (tt, h') ∧ hvs_advances h h' ∧ hvs_round h' = r) ∧
  SetRound MaxInt32 h = Diverge ∧
  (let '(r, b) := POLInfo h in
   (r = -1 ∧ ∀ r' b', 0 ≤ r' ≤ hvs_round h → ¬ polka h r' b') ∨
   (0 ≤ r ≤ hvs_round h ∧ polka h r b ∧ ∀ r' b', r < r' ≤ hvs_round h → ¬ polka h r' b')).
Proof.
  intros [I Hm]%hreach_inv. split_and!.
  - done.
  - pose proof (hi_round _ I) as H0. pose proof (catchup_total _ (hi_catchup _ I)) as Hc.
    assert (Hl : (size (hvs_sets h) ≤ length (seqZ (-1) (hvs_round h + 2) ++ concat (map_to_list (hvs_peerCatchupRounds h)).*2))%nat).
    { rewrite <-length_map_to_list, <-(length_fmap fst). apply submseteq_length, NoDup_submseteq; [apply NoDup_fst_map_to_list|].
      intros r Hr. apply list_elem_of_fmap in Hr as ([r' rvs] & -> & Hin). apply elem_of_map_to_list in Hin. cbn.
      apply elem_of_app. destruct (hi_bound _ I r') as [?|(peer & l & Hp & Hr)]; [by eexists|left; apply elem_of_seqZ; lia|right].
      apply list_elem_of_In, in_concat. exists l. split; apply list_elem_of_In; [|done].
      apply list_elem_of_fmap. exists (peer, l). split; [done|]. by apply elem_of_map_to_list. }
    rewrite length_app, length_seqZ in Hl. lia.
  - intros vote peer Hp. destruct (HVS_AddVote_step h vote peer I Hp) as (res & h' & E & _ & A & _). eauto.
  - intros r t peer b. destruct (HVS_SetPeerMaj23_step h r t peer b I) as (res & h' & E & _ & A & _). eauto.
  - intros r Hr. destruct (SetRound_step h r I) as (h' & E & _ & A & R & _); [lia|lia|done|]. eauto.
  - by apply SetRound_max.
  - apply POLInfo_spec, (hi_round _ I).
Qed.
End inv.

(** ** A concrete height: round 1 entered after a precommit of round 0 arrived *)
Definition sample_heights : outcome HeightVoteSet :=
  let! h0 := NewHeightVoteSet [7] 5 sample_set in
  let! (_, h1) := HVS_AddVote sample_verify sample_key_Address sample_marshal (sample_vote 1 (sample_id 1)) [] h0 in
  let! (_, h2) := SetRound 1 h1 in Ok h2.

Lemma sample_heights_reach h : sample_heights = Ok h →
  hreach sample_verify sample_key_Address sample_marshal h.
Proof.
  unfold sample_heights. intros E.
  destruct (NewHeightVoteSet [7] 5 sample_set) as [h0| |] eqn:E0; [|done..]. cbn [outcome_bind] in E.
  destruct (HVS_AddVote _ _ _ _ _ h0) as [[r1 h1]| |] eqn:E1; [|done..]. cbn [outcome_bind] in E.
  destruct (SetRound 1 h1) as [[[] h2]| |] eqn:E2; [|done..]. cbn [outcome_bind] in E. injection E as <-.
  assert (R0 : hreach sample_verify sample_key_Address sample_marshal h0).
  { eapply hr_new; [exact (bal_wf _ sample_set_balanced)| |exact E0]. unfold sample_set; cbn; repeat (constructor; try done). }
  eapply hr_round; [eapply hr_vote; [exact R0| |exact E1]| |exact E2]; [apply (sample_id_proper 1)|].
  vm_compute in E0. injection E0 as <-. vm_compute in E1. injection E1 as _ <-. vm_compute. by split.
Qed.

Lemma height_votes_invariant_witness :
  ∃ h, sample_heights = Ok h ∧ hvs_inv sample_verify sample_key_Address sample_marshal h ∧ hvs_round h = 1.
Proof.
  destruct sample_heights as [h| |] eqn:E; [|vm_compute in E; discriminate E..].
  exists h. split; [reflexivity|]. split.
  - exact (proj1 (height_votes_invariant sample_verify sample_key_Address sample_marshal h (sample_heights_reach h E))).
  - vm_compute in E. by injection E as <-.
Defined.
