(* ===== verification/TmBlock.v ===== *)
(** Blocks, headers and evidence (src/sourcecodes/tendermint/types: block.go, tx.go, evidence.go,
    light.go, encoding_helper.go, and the hash of a validator set).

    The protobuf encodings (generated code and the gogo library) and SHA-256 are the fields of
    the class [BlockCodec].  Pointers that may be nil are options; of the byte slices, the three
    the code compares with nil are options too.  The floating-point fields are their bits. *)

From S2P Require Import Prelude TmValidators TmTypes TmMerkle TmPartSet.

(** ** Data *)
Record Consensus := mkConsensusVersion { ver_Block : Z; ver_App : Z }.

Record BlockHeader := mkHeader {
  h_Version : Consensus; h_ChainID : bytes; h_Height : Z; h_Time : Z;
  h_DelayTime : Z; h_DeliverTime : Z;
  h_LastBlockID : BlockID;
  h_LastCommitHash : option bytes; h_DataHash : option bytes;
  h_ValidatorsHash : bytes; h_NextValidatorsHash : bytes; h_ConsensusHash : bytes; h_AppHash : bytes;
  h_LastResultsHash : bytes;
  h_EvidenceHash : option bytes; h_ProposerAddress : bytes;
}.

Record SignedHeader := mkSignedHeader { sh_Header : option BlockHeader; sh_Commit : option Commit }.
Record LightBlock := mkLightBlock { lb_SignedHeader : option SignedHeader; lb_ValidatorSet : option ValidatorSet }.

Record DuplicateVoteEvidence := mkDVE {
  dve_VoteA : option Vote; dve_VoteB : option Vote;
  dve_TotalVotingPower : Z; dve_ValidatorPower : Z; dve_Timestamp : Z }.
Record LightClientAttackEvidence := mkLCAE {
  l_ConflictingBlock : option LightBlock; l_CommonHeight : Z;
  l_ByzantineValidators : option (list Validator); l_TotalVotingPower : Z; l_Timestamp : Z }.
Inductive Evidence :=
| EvDuplicateVote (dve : DuplicateVoteEvidence)
| EvLightClientAttack (l : LightClientAttackEvidence).

Record Block := mkBlock {
  b_Header : BlockHeader; b_Txs : list bytes; b_Evidence : list Evidence; b_LastCommit : option Commit }.

(** [version.BlockProtocol], [MaxChainIDLen] *)
Definition BlockProtocol : Z := 11.
Definition MaxChainIDLen : Z := 50.

(** A nil slice has the bytes of an empty one. *)
Definition slice (b : option bytes) : bytes := default [] b.

(** ** Parameters: the hash function and the encodings *)
Class BlockCodec := {
  Sum : bytes → bytes;
  StringValue_Marshal : bytes → bytes;
  Int64Value_Marshal : Z → bytes;
  BytesValue_Marshal : bytes → bytes;
  Version_Marshal : Consensus → bytes;
  StdTimeMarshal : Z → option bytes;
  BlockID_Marshal : BlockID → bytes;
  CommitSig_Marshal : CommitSig → bytes;
  SimpleValidator_Marshal : bytes → Z → bytes;
  PutVarint : Z → bytes;
  Evidence_Marshal : Evidence → outcome bytes;
  Block_Marshal : Block → outcome bytes;
  Block_Unmarshal : bytes → option Block;
}.

Section block.
Context {BC : BlockCodec}.

(** [cdcEncode]: nil for an empty value. *)
Definition cdcEncode_string (s : bytes) : bytes := if decide (s = []) then [] else StringValue_Marshal s.
Definition cdcEncode_int64 (n : Z) : bytes := if decide (n = 0) then [] else Int64Value_Marshal n.
Definition cdcEncode_bytes (b : bytes) : bytes := if decide (b = []) then [] else BytesValue_Marshal b.

(** ** Hashes of the parts *)
Definition Tx_Hash (tx : bytes) : bytes := Sum tx.
Definition Txs_Hash (txs : list bytes) : outcome bytes := HashFromByteSlices Sum (Tx_Hash <$> txs).
Definition Data_Hash (txs : list bytes) : outcome bytes := Txs_Hash txs.

Definition Commit_Hash (commit : option Commit) : outcome (option bytes) :=
  match commit with
  | None => Ok None
  | Some c => let! h := HashFromByteSlices Sum (CommitSig_Marshal <$> c_Signatures c) in Ok (Some h)
  end.

Fixpoint marshal_all {A} (f : A → outcome bytes) (l : list A) : outcome (list bytes) :=
  match l with
  | [] => Ok []
  | x :: l' => let! b := f x in let! bs := marshal_all f l' in Ok (b :: bs)
  end.

Definition EvidenceList_Hash (evl : list Evidence) : outcome bytes :=
  let! bzs := marshal_all Evidence_Marshal evl in HashFromByteSlices Sum bzs.

(** [PubKeyToProto] fails on a nil key. *)
Definition Validator_Bytes (v : Validator) : outcome bytes :=
  match PubKey v with Some k => Ok (SimpleValidator_Marshal k (VotingPower v)) | None => Panic end.
Definition ValidatorSet_Hash (vals : ValidatorSet) : outcome bytes :=
  let! bzs := marshal_all Validator_Bytes (Validators vals) in HashFromByteSlices Sum bzs.

(** ** The header *)
Definition header_fields (h : BlockHeader) (pbt : bytes) : list bytes :=
  [Version_Marshal (h_Version h); cdcEncode_string (h_ChainID h); cdcEncode_int64 (h_Height h); pbt;
   BlockID_Marshal (h_LastBlockID h);
   cdcEncode_bytes (slice (h_LastCommitHash h)); cdcEncode_bytes (slice (h_DataHash h));
   cdcEncode_bytes (h_ValidatorsHash h); cdcEncode_bytes (h_NextValidatorsHash h);
   cdcEncode_bytes (h_ConsensusHash h); cdcEncode_bytes (h_AppHash h); cdcEncode_bytes (h_LastResultsHash h);
   cdcEncode_bytes (slice (h_EvidenceHash h)); cdcEncode_bytes (h_ProposerAddress h)].

Definition Header_Hash (h : option BlockHeader) : outcome (option bytes) :=
  match h with
  | None => Ok None
  | Some h =>
      if decide (len (h_ValidatorsHash h) = 0) then Ok None else
      match StdTimeMarshal (h_Time h) with
      | None => Ok None
      | Some pbt => let! r := HashFromByteSlices Sum (header_fields h pbt) in Ok (Some r)
      end
  end.

Inductive block_error :=
| ErrBlockProtocol | ErrChainIDLen | ErrHeight | ErrLastBlockID (e : basic_error) | ErrLastCommitHash | ErrDataHash
| ErrEvidenceHash | ErrProposerAddress | ErrValidatorsHash | ErrNextValidatorsHash | ErrConsensusHash | ErrLastResultsHash
| ErrNilBlock | ErrNilLastCommit | ErrLastCommit (e : basic_error) | ErrWrongLastCommitHash | ErrWrongDataHash
| ErrEvidence (e : block_error) | ErrWrongEvidenceHash
| ErrMissingSignedHeader | ErrMissingValidatorSet | ErrMissingHeader | ErrMissingCommit | ErrSignedHeader (e : block_error)
| ErrCommit (e : basic_error) | ErrValidators (e : val_error) | ErrOtherChain | ErrCommitHeight | ErrCommitHash | ErrValSetHash
| ErrEmptyVotes | ErrVoteA (e : basic_error) | ErrVoteB (e : basic_error) | ErrVoteOrder
| ErrConflictingBlock | ErrPower | ErrCommonHeight | ErrCommonAhead | ErrBlockEncoding.

(** The first error of a list of checks. *)
Fixpoint first_error {E} (l : list (option E)) : option E :=
  match l with
  | [] => None
  | Some e :: _ => Some e
  | None :: l' => first_error l'
  end.

Definition check {E} (bad : bool) (e : E) : option E := if bad then Some e else None.
Definition check_hash (h : bytes) (e : block_error) : option block_error :=
  match ValidateHash h with Some _ => Some e | None => None end.

Definition Header_ValidateBasic (h : BlockHeader) : option block_error :=
  first_error [
    check (bool_decide (ver_Block (h_Version h) ≠ BlockProtocol)) ErrBlockProtocol;
    check (bool_decide (MaxChainIDLen < len (h_ChainID h))) ErrChainIDLen;
    check (bool_decide (h_Height h ≤ 0)) ErrHeight;
    ErrLastBlockID <$> BlockID_ValidateBasic (h_LastBlockID h);
    check_hash (slice (h_LastCommitHash h)) ErrLastCommitHash;
    check_hash (slice (h_DataHash h)) ErrDataHash;
    check_hash (slice (h_EvidenceHash h)) ErrEvidenceHash;
    check (bool_decide (len (h_ProposerAddress h) ≠ AddressSize)) ErrProposerAddress;
    check_hash (h_ValidatorsHash h) ErrValidatorsHash;
    check_hash (h_NextValidatorsHash h) ErrNextValidatorsHash;
    check_hash (h_ConsensusHash h) ErrConsensusHash;
    check_hash (h_LastResultsHash h) ErrLastResultsHash].

(** ** Light blocks and evidence *)
Definition SignedHeader_ValidateBasic (chainID : bytes) (sh : SignedHeader) : outcome (option block_error) :=
  match sh_Header sh, sh_Commit sh with
  | None, _ => Ok (Some ErrMissingHeader)
  | _, None => Ok (Some ErrMissingCommit)
  | Some h, Some c =>
      match Header_ValidateBasic h, Commit_ValidateBasic c with
      | Some e, _ => Ok (Some e)
      | _, Some e => Ok (Some (ErrCommit e))
      | None, None =>
          if decide (h_ChainID h ≠ chainID) then Ok (Some ErrOtherChain)
          else if decide (c_Height c ≠ h_Height h) then Ok (Some ErrCommitHeight)
          else
            let! hhash := Header_Hash (Some h) in
            Ok (check (bool_decide (slice hhash ≠ bid_Hash (c_BlockID c))) ErrCommitHash)
      end
  end.

Definition LightBlock_ValidateBasic (chainID : bytes) (lb : LightBlock) : outcome (option block_error) :=
  match lb_SignedHeader lb, lb_ValidatorSet lb with
  | None, _ => Ok (Some ErrMissingSignedHeader)
  | _, None => Ok (Some ErrMissingValidatorSet)
  | Some sh, Some vals =>
      let! e := SignedHeader_ValidateBasic chainID sh in
      match e with
      | Some e => Ok (Some (ErrSignedHeader e))
      | None =>
          match ValidatorSet_ValidateBasic (Some vals) with
          | Some e => Ok (Some (ErrValidators e))
          | None =>
              let! valSetHash := ValidatorSet_Hash vals in
              let hash := match sh_Header sh with Some h => h_ValidatorsHash h | None => [] end in
              Ok (check (bool_decide (hash ≠ valSetHash)) ErrValSetHash)
          end
      end
  end.

Definition dve_ValidateBasic (dve : DuplicateVoteEvidence) : option block_error :=
  match dve_VoteA dve, dve_VoteB dve with
  | Some a, Some b =>
      match Vote_ValidateBasic a, Vote_ValidateBasic b with
      | Some e, _ => Some (ErrVoteA e)
      | _, Some e => Some (ErrVoteB e)
      | None, None =>
          match bytes_Compare (Key (v_BlockID a)) (Key (v_BlockID b)) with
          | Lt => None
          | _ => Some ErrVoteOrder
          end
      end
  | _, _ => Some ErrEmptyVotes
  end.

Definition lb_header (lb : LightBlock) : option BlockHeader := sh ← lb_SignedHeader lb; sh_Header sh.

(** A conflicting block without a signed header makes the access to its header panic. *)
Definition lcae_ValidateBasic (l : LightClientAttackEvidence) : outcome (option block_error) :=
  match l_ConflictingBlock l with
  | None => Ok (Some ErrConflictingBlock)
  | Some lb =>
      match lb_SignedHeader lb with
      | None => Panic
      | Some sh =>
          match sh_Header sh with
          | None => Ok (Some ErrMissingHeader)
          | Some h =>
              if decide (l_TotalVotingPower l ≤ 0) then Ok (Some ErrPower)
              else if decide (l_CommonHeight l ≤ 0) then Ok (Some ErrCommonHeight)
              else if decide (h_Height h < l_CommonHeight l) then Ok (Some ErrCommonAhead)
              else LightBlock_ValidateBasic (h_ChainID h) lb
          end
      end
  end.

Definition Evidence_ValidateBasic (ev : Evidence) : outcome (option block_error) :=
  match ev with
  | EvDuplicateVote dve => Ok (dve_ValidateBasic dve)
  | EvLightClientAttack l => lcae_ValidateBasic l
  end.

(** [copy] into the first 31 bytes of the 32 reserved for the hash. *)
Definition lcae_Hash (l : LightClientAttackEvidence) : outcome bytes :=
  let! h := Header_Hash (lb ← l_ConflictingBlock l; lb_header lb) in
  Ok (Sum (copy_array 31 (slice h) ++ [0] ++ PutVarint (l_CommonHeight l))).

(** ** The block *)
Definition fillHeader (b : Block) : outcome Block :=
  let h := b_Header b in
  let! lch := match h_LastCommitHash h with Some x => Ok (Some x) | None => Commit_Hash (b_LastCommit b) end in
  let! dh := match h_DataHash h with Some x => Ok (Some x) | None => let! x := Data_Hash (b_Txs b) in Ok (Some x) end in
  let! eh := match h_EvidenceHash h with
             | Some x => Ok (Some x)
             | None => let! x := EvidenceList_Hash (b_Evidence b) in Ok (Some x)
             end in
  Ok {| b_Header := mkHeader (h_Version h) (h_ChainID h) (h_Height h) (h_Time h) (h_DelayTime h) (h_DeliverTime h)
          (h_LastBlockID h) lch dh (h_ValidatorsHash h) (h_NextValidatorsHash h) (h_ConsensusHash h) (h_AppHash h)
          (h_LastResultsHash h) eh (h_ProposerAddress h);
        b_Txs := b_Txs b; b_Evidence := b_Evidence b; b_LastCommit := b_LastCommit b |}.

(** The block is changed by [fillHeader]; it hashes to the same value afterwards, so the
    changed block is not returned. *)
Definition Block_Hash (b : option Block) : outcome (option bytes) :=
  match b with
  | None => Ok None
  | Some b =>
      match b_LastCommit b with
      | None => Ok None
      | Some _ => let! b' := fillHeader b in Header_Hash (Some (b_Header b'))
      end
  end.

Definition HashesTo (b : option Block) (hash : bytes) : outcome bool :=
  if decide (len hash = 0) then Ok false else
  match b with
  | None => Ok false
  | Some _ => let! h := Block_Hash b in Ok (bool_decide (slice h = hash))
  end.

Fixpoint validate_evidence (l : list Evidence) : outcome (option block_error) :=
  match l with
  | [] => Ok None
  | ev :: l' =>
      let! e := Evidence_ValidateBasic ev in
      match e with Some e => Ok (Some (ErrEvidence e)) | None => validate_evidence l' end
  end.

Definition Block_ValidateBasic (b : option Block) : outcome (option block_error) :=
  match b with
  | None => Ok (Some ErrNilBlock)
  | Some b =>
      match Header_ValidateBasic (b_Header b), b_LastCommit b with
      | Some e, _ => Ok (Some e)
      | None, None => Ok (Some ErrNilLastCommit)
      | None, Some c =>
          match Commit_ValidateBasic c with
          | Some e => Ok (Some (ErrLastCommit e))
          | None =>
              let! ch := Commit_Hash (Some c) in
              if decide (slice (h_LastCommitHash (b_Header b)) ≠ slice ch) then Ok (Some ErrWrongLastCommitHash) else
              let! dh := Data_Hash (b_Txs b) in
              if decide (slice (h_DataHash (b_Header b)) ≠ dh) then Ok (Some ErrWrongDataHash) else
              let! e := validate_evidence (b_Evidence b) in
              match e with
              | Some e => Ok (Some e)
              | None =>
                  let! eh := EvidenceList_Hash (b_Evidence b) in
                  Ok (check (bool_decide (slice (h_EvidenceHash (b_Header b)) ≠ eh)) ErrWrongEvidenceHash)
              end
          end
      end
  end.

(** [proto.Unmarshal] and [BlockFromProto]. *)
Definition BlockFromBytes (bz : bytes) : outcome (Block + block_error) :=
  match Block_Unmarshal bz with
  | None => Ok (inr ErrBlockEncoding)
  | Some b => let! e := Block_ValidateBasic (Some b) in Ok (match e with Some e => inr e | None => inl b end)
  end.

Definition MakePartSet (b : Block) (partSize : Z) : outcome PartSet :=
  let! bz := Block_Marshal b in NewPartSetFromData Sum bz partSize.
End block.
