(* ===== verification/TmStore.v ===== *)
(** The block store (src/sourcecodes/tendermint/store/store.go, types/block_meta.go).

    The database is a third-party key-value store; the model keeps one map for each kind of key
    (H:, P:, C:, SC:, BH:) with the decoded record as the value, so that writing and reading back a
    record is the identity, while the checks the decoding makes on what it read are kept.  Failing
    database operations, which make every method panic, are left out. *)

From S2P Require Import Prelude TmBits TmValidators TmTypes TmMerkle TmPartSet TmBlock.

Record BlockMeta := mkBlockMeta { bm_BlockID : BlockID; bm_BlockSize : Z; bm_Header : BlockHeader; bm_NumTxs : Z }.

Record BlockStore := mkBlockStore {
  bs_base : Z; bs_height : Z;
  bs_metas : gmap Z BlockMeta; bs_parts : gmap (Z * Z) Part;
  bs_commits : gmap Z Commit; bs_seen : gmap Z Commit; bs_hashes : gmap bytes Z }.

Definition empty_store : BlockStore := mkBlockStore 0 0 ∅ ∅ ∅ ∅ ∅.

Definition store_Size (bs : BlockStore) : Z :=
  if decide (bs_height bs = 0) then 0 else i64 (i64 (bs_height bs - bs_base bs) + 1).

Section store.
Context {BC : BlockCodec}.

(** ** Reading.  A record that fails its own checks panics. *)
Definition BlockMeta_ValidateBasic (bm : BlockMeta) : outcome bool :=
  match BlockID_ValidateBasic (bm_BlockID bm), Header_ValidateBasic (bm_Header bm) with
  | None, None =>
      let! h := Header_Hash (Some (bm_Header bm)) in
      Ok (bool_decide (bid_Hash (bm_BlockID bm) = slice h))
  | _, _ => Ok false
  end.

Definition LoadBlockMeta (height : Z) (bs : BlockStore) : outcome (option BlockMeta) :=
  match bs_metas bs !! height with
  | None => Ok None
  | Some bm => let! ok := BlockMeta_ValidateBasic bm in if (ok : bool) then Ok (Some bm) else Panic
  end.
Definition LoadBaseMeta (bs : BlockStore) : outcome (option BlockMeta) :=
  if decide (bs_base bs = 0) then Ok None else LoadBlockMeta (bs_base bs) bs.

Definition LoadBlockPart (height index : Z) (bs : BlockStore) : outcome (option Part) :=
  match bs_parts bs !! (height, index) with
  | None => Ok None
  | Some p => match Part_ValidateBasic p with None => Ok (Some p) | Some _ => Panic end
  end.

Definition load_commit (m : gmap Z Commit) (height : Z) : outcome (option Commit) :=
  match m !! height with
  | None => Ok None
  | Some c =>
      match BlockID_ValidateBasic (c_BlockID c), Commit_ValidateBasic c with
      | None, None => Ok (Some c)
      | _, _ => Panic
      end
  end.
Definition LoadBlockCommit (height : Z) (bs : BlockStore) : outcome (option Commit) := load_commit (bs_commits bs) height.
Definition LoadSeenCommit (height : Z) (bs : BlockStore) : outcome (option Commit) := load_commit (bs_seen bs) height.

(** The bytes of the parts from [i] on, or [None] when one is missing. *)
Fixpoint load_parts (n : nat) (height i : Z) (bs : BlockStore) : outcome (option bytes) :=
  match n with
  | O => Ok (Some [])
  | S n' =>
      let! part := LoadBlockPart height i bs in
      match part with
      | None => Ok None
      | Some p => let! rest := load_parts n' height (i + 1) bs in Ok (app (pt_Bytes p) <$> rest)
      end
  end.

Definition LoadBlock (height : Z) (bs : BlockStore) : outcome (option Block) :=
  let! meta := LoadBlockMeta height bs in
  match meta with
  | None => Ok None
  | Some bm =>
      let! buf := load_parts (Z.to_nat (psh_Total (bid_PartSetHeader (bm_BlockID bm)))) height 0 bs in
      match buf with
      | None => Ok None
      | Some buf => let! r := BlockFromBytes buf in match r with inl b => Ok (Some b) | inr _ => Panic end
      end
  end.

Definition LoadBlockByHash (hash : bytes) (bs : BlockStore) : outcome (option Block) :=
  match bs_hashes bs !! hash with None => Ok None | Some h => LoadBlock h bs end.

(** ** Writing *)
Definition saveBlockPart (height index : Z) (part : Part) : M BlockStore unit :=
  modify (λ bs, mkBlockStore (bs_base bs) (bs_height bs) (bs_metas bs) (<[(height, index) := part]> (bs_parts bs))
                  (bs_commits bs) (bs_seen bs) (bs_hashes bs)).

(** A nil part cannot be encoded. *)
Fixpoint save_parts (n : nat) (height i : Z) (ps : PartSet) : M BlockStore unit :=
  match n with
  | O => ret tt
  | S n' =>
      part <- lift (GetPart ps i) ;;
      match part with
      | None => panic
      | Some p => saveBlockPart height i p ;;; save_parts n' height (i + 1) ps
      end
  end.

Definition NewBlockMeta (block : Block) (blockParts : PartSet) : outcome BlockMeta :=
  let! h := Block_Hash (Some block) in
  let size := match Block_Marshal block with Ok bz => len bz | _ => 0 end in
  Ok (mkBlockMeta (mkBlockID (slice h) (Header (Some blockParts))) size (b_Header block) (Z.of_nat (length (b_Txs block)))).

(** The encoding of a nil commit is refused, so a block without last commit panics. *)
Definition SaveBlock (block : option Block) (blockParts : PartSet) (seenCommit : Commit) : M BlockStore unit :=
  match block with
  | None => panic
  | Some block =>
      let height := h_Height (b_Header block) in
      hash <- lift (Block_Hash (Some block)) ;;
      bs <- gets id ;;
      if decide (0 < bs_base bs ∧ height ≠ i64 (bs_height bs + 1)) then panic
      else if negb (ps_IsComplete blockParts) then panic
      else
        save_parts (Z.to_nat (ps_total blockParts)) height 0 blockParts ;;;
        bm <- lift (NewBlockMeta block blockParts) ;;
        match b_LastCommit block with
        | None => panic
        | Some lastCommit =>
            modify (λ bs, mkBlockStore (if decide (bs_base bs = 0) then height else bs_base bs) height
              (<[height := bm]> (bs_metas bs)) (bs_parts bs) (<[i64 (height - 1) := lastCommit]> (bs_commits bs))
              (<[height := seenCommit]> (bs_seen bs)) (<[slice hash := height]> (bs_hashes bs)))
        end
  end.

Definition SaveSeenCommit (height : Z) (seenCommit : Commit) : M BlockStore unit :=
  modify (λ bs, mkBlockStore (bs_base bs) (bs_height bs) (bs_metas bs) (bs_parts bs) (bs_commits bs)
                  (<[height := seenCommit]> (bs_seen bs)) (bs_hashes bs)).

(** ** Pruning *)
Fixpoint delete_parts (n : nat) (height p : Z) (parts : gmap (Z * Z) Part) : gmap (Z * Z) Part :=
  match n with
  | O => parts
  | S n' => delete_parts n' height (p + 1) (delete (height, p) parts)
  end.

Definition delete_height (h : Z) (meta : BlockMeta) (bs : BlockStore) : BlockStore :=
  mkBlockStore (bs_base bs) (bs_height bs) (delete h (bs_metas bs))
    (delete_parts (Z.to_nat (psh_Total (bid_PartSetHeader (bm_BlockID meta)))) h 0 (bs_parts bs))
    (delete h (bs_commits bs)) (delete h (bs_seen bs)) (delete (bid_Hash (bm_BlockID meta)) (bs_hashes bs)).

Fixpoint prune_heights (n : nat) (h pruned : Z) : M BlockStore Z :=
  match n with
  | O => ret pruned
  | S n' =>
      meta <- (λ bs, let! m := LoadBlockMeta h bs in Ok (m, bs)) ;;
      match meta with
      | None => prune_heights n' (h + 1) pruned
      | Some bm => modify (delete_height h bm) ;;; prune_heights n' (h + 1) (pruned + 1)
      end
  end.

Inductive store_error := ErrPruneHeight | ErrPruneBeyond | ErrPruneBelowBase.

Definition PruneBlocks (height : Z) : M BlockStore (Z + store_error) :=
  bs <- gets id ;;
  if decide (height ≤ 0) then ret (inr ErrPruneHeight)
  else if decide (bs_height bs < height) then ret (inr ErrPruneBeyond)
  else if decide (height < bs_base bs) then ret (inr ErrPruneBelowBase)
  else
    pruned <- prune_heights (Z.to_nat (height - bs_base bs)) (bs_base bs) 0 ;;
    modify (λ bs, mkBlockStore height (bs_height bs) (bs_metas bs) (bs_parts bs) (bs_commits bs) (bs_seen bs) (bs_hashes bs)) ;;;
    ret (inl pruned).
End store.
