(* ===== verification/TmState.v ===== *)
(** The state of the chain (src/sourcecodes/tendermint/state/state.go) and the interface of the
    block executor (state/execution.go) the consensus state machine is written against. *)

From S2P Require Import Prelude TmValidators TmTypes TmPartSet TmBlock.

(** ** Data *)
Record ConsensusParams := mkParams {
  cp_MaxBytes : Z; cp_MaxGas : Z; cp_TimeIotaMs : Z;
  cp_MaxAgeNumBlocks : Z; cp_MaxAgeDuration : Z; cp_EvidenceMaxBytes : Z; cp_PubKeyTypes : list bytes; cp_AppVersion : Z }.

Record smState := mkState {
  sm_Version : Consensus; sm_ChainID : bytes; sm_InitialHeight : Z;
  sm_LastBlockHeight : Z; sm_LastBlockID : BlockID; sm_LastBlockTime : Z;
  sm_NextValidators : option ValidatorSet; sm_Validators : option ValidatorSet; sm_LastValidators : option ValidatorSet;
  sm_LastHeightValidatorsChanged : Z;
  sm_ConsensusParams : ConsensusParams; sm_LastHeightConsensusParamsChanged : Z;
  sm_LastResultsHash : bytes; sm_AppHash : bytes }.

Definition IsEmpty (s : smState) : bool := bool_decide (sm_Validators s = None).

(** The zero value. *)
Definition empty_state : smState :=
  mkState (mkConsensusVersion 0 0) [] 0 0 BlockID_nil 0 None None None 0 (mkParams 0 0 0 0 0 0 [] 0) 0 [] [].

(** ** The executor: what it answers may depend on the mempool, the evidence pool and the
    application, so each operation takes a number that identifies the call.  [ValidateBlock] answers
    whether there is no error; [ApplyBlock] the new state, the height to retain, and the same. *)
Class BlockExecutor := {
  CreateProposalBlock : nat → Z → smState → Commit → bytes → outcome (option (Block * PartSet));
  ValidateBlock : nat → smState → option Block → outcome bool;
  ApplyBlock : nat → smState → BlockID → Block → outcome (smState * Z * bool);
}.

(** What the state machine relies on: the executor keeps [Good] of the state of the chain. *)
Class KeepsState (EX : BlockExecutor) (Good : smState → Prop) : Prop :=
  apply_keeps : ∀ n st id b st' r, Good st → ApplyBlock n st id b = Ok (st', r, true) → Good st'.
