(* ===== verification/TmConsensus.v ===== *)
(** The consensus state machine (src/sourcecodes/tendermint/consensus/state.go,
    consensus/types/round_state.go, consensus/msgs.go).

    A node is one [CState]: the round state, the state of the chain, the block store, the signer,
    and [cs_out], the effects in the order they happen: messages put on the internal queue,
    scheduled timeouts, applied blocks and reported conflicting votes.  [cs_ticks] numbers the
    calls whose answer is outside: the clock, the event bus, the write-ahead log and the
    executor.  The enter functions do not call each other in a cycle, so no fuel is needed.
    Part sets and validator sets are shared by pointers in the code; the shared ones are complete
    or only cache derived values, and are copied here.

    Left out: logging, metrics, the statistics that choose propose timeouts (with the durations
    they choose) and the replay of the log. *)

From S2P Require Import Prelude TmBits TmValidators TmPriority TmValUpdate TmTypes TmCommit TmVotes TmVoteInv TmVoteSafety.
From S2P Require Import TmMerkle TmPartSet TmPrivval TmHeightVotes TmBlock TmStore TmState.

(** ** Data *)
Definition i32 (z : Z) : Z := (z + 2 ^ 31) mod 2 ^ 32 - 2 ^ 31.

Definition RoundStepNewHeight : Z := 1.
Definition RoundStepNewRound : Z := 2.
Definition RoundStepPropose : Z := 3.
Definition RoundStepPrevote : Z := 4.
Definition RoundStepPrevoteWait : Z := 5.
Definition RoundStepPrecommit : Z := 6.
Definition RoundStepPrecommitWait : Z := 7.
Definition RoundStepCommit : Z := 8.

Inductive Msg :=
| ProposalMessage (proposal : Proposal)
| BlockPartMessage (height round : Z) (part : option Part)
| VoteMessage (vote : Vote).

Record timeoutInfo := mkTimeout { ti_Height : Z; ti_Round : Z; ti_Step : Z }.
#[global] Instance timeoutInfo_eq_dec : EqDecision timeoutInfo.
Proof. solve_decision. Defined.

Inductive Output :=
| OMsg (m : Msg)
| OTimeout (ti : timeoutInfo)
| OApply (height : Z) (blockID : BlockID) (block : Block)
| OConflict (voteA voteB : Vote).

Record Config := mkConfig {
  SkipTimeoutCommit : bool; CreateEmptyBlocks : bool; CreateEmptyBlocksInterval : Z; TimeoutCommit : Z }.
Definition WaitForTxs (c : Config) : bool :=
  negb (CreateEmptyBlocks c) || bool_decide (0 < CreateEmptyBlocksInterval c).

Record CState := mkCState {
  cs_Height : Z; cs_Round : Z; cs_Step : Z; cs_StartTime : Z; cs_CommitTime : option Z;
  cs_Validators : option ValidatorSet;
  cs_Proposal : option Proposal; cs_ProposalBlock : option Block; cs_ProposalBlockParts : option PartSet;
  cs_LockedRound : Z; cs_LockedBlock : option Block; cs_LockedBlockParts : option PartSet;
  cs_ValidRound : Z; cs_ValidBlock : option Block; cs_ValidBlockParts : option PartSet;
  cs_Votes : option HeightVoteSet; cs_CommitRound : Z;
  cs_LastCommit : option VoteSet; cs_LastValidators : option ValidatorSet; cs_Triggered : bool;
  cs_state : smState; cs_store : BlockStore;
  cs_priv : option FilePV; cs_pubkey : option bytes;
  cs_flag : bool; cs_ticks : nat; cs_out : list Output;
}.

(** *** Updates of single fields *)
Definition set_Height (x0 : Z) (s : CState) : CState :=
  mkCState x0 (cs_Round s) (cs_Step s) (cs_StartTime s) (cs_CommitTime s) (cs_Validators s) (cs_Proposal
    s) (cs_ProposalBlock s) (cs_ProposalBlockParts s) (cs_LockedRound s) (cs_LockedBlock s)
    (cs_LockedBlockParts s) (cs_ValidRound s) (cs_ValidBlock s) (cs_ValidBlockParts s) (cs_Votes s)
    (cs_CommitRound s) (cs_LastCommit s) (cs_LastValidators s) (cs_Triggered s) (cs_state s) (cs_store s)
    (cs_priv s) (cs_pubkey s) (cs_flag s) (cs_ticks s) (cs_out s).
Definition set_RoundStep (x0 : Z) (x1 : Z) (s : CState) : CState :=
  mkCState (cs_Height s) x0 x1 (cs_StartTime s) (cs_CommitTime s) (cs_Validators s) (cs_Proposal s)
    (cs_ProposalBlock s) (cs_ProposalBlockParts s) (cs_LockedRound s) (cs_LockedBlock s)
    (cs_LockedBlockParts s) (cs_ValidRound s) (cs_ValidBlock s) (cs_ValidBlockParts s) (cs_Votes s)
    (cs_CommitRound s) (cs_LastCommit s) (cs_LastValidators s) (cs_Triggered s) (cs_state s) (cs_store s)
    (cs_priv s) (cs_pubkey s) (cs_flag s) (cs_ticks s) (cs_out s).
Definition set_StartTime (x0 : Z) (s : CState) : CState :=
  mkCState (cs_Height s) (cs_Round s) (cs_Step s) x0 (cs_CommitTime s) (cs_Validators s) (cs_Proposal s)
    (cs_ProposalBlock s) (cs_ProposalBlockParts s) (cs_LockedRound s) (cs_LockedBlock s)
    (cs_LockedBlockParts s) (cs_ValidRound s) (cs_ValidBlock s) (cs_ValidBlockParts s) (cs_Votes s)
    (cs_CommitRound s) (cs_LastCommit s) (cs_LastValidators s) (cs_Triggered s) (cs_state s) (cs_store s)
    (cs_priv s) (cs_pubkey s) (cs_flag s) (cs_ticks s) (cs_out s).
Definition set_CommitTime (x0 : option Z) (s : CState) : CState :=
  mkCState (cs_Height s) (cs_Round s) (cs_Step s) (cs_StartTime s) x0 (cs_Validators s) (cs_Proposal s)
    (cs_ProposalBlock s) (cs_ProposalBlockParts s) (cs_LockedRound s) (cs_LockedBlock s)
    (cs_LockedBlockParts s) (cs_ValidRound s) (cs_ValidBlock s) (cs_ValidBlockParts s) (cs_Votes s)
    (cs_CommitRound s) (cs_LastCommit s) (cs_LastValidators s) (cs_Triggered s) (cs_state s) (cs_store s)
    (cs_priv s) (cs_pubkey s) (cs_flag s) (cs_ticks s) (cs_out s).
Definition set_csValidators (x0 : option ValidatorSet) (s : CState) : CState :=
  mkCState (cs_Height s) (cs_Round s) (cs_Step s) (cs_StartTime s) (cs_CommitTime s) x0 (cs_Proposal s)
    (cs_ProposalBlock s) (cs_ProposalBlockParts s) (cs_LockedRound s) (cs_LockedBlock s)
    (cs_LockedBlockParts s) (cs_ValidRound s) (cs_ValidBlock s) (cs_ValidBlockParts s) (cs_Votes s)
    (cs_CommitRound s) (cs_LastCommit s) (cs_LastValidators s) (cs_Triggered s) (cs_state s) (cs_store s)
    (cs_priv s) (cs_pubkey s) (cs_flag s) (cs_ticks s) (cs_out s).
Definition set_Proposal (x0 : option Proposal) (s : CState) : CState :=
  mkCState (cs_Height s) (cs_Round s) (cs_Step s) (cs_StartTime s) (cs_CommitTime s) (cs_Validators s) x0
    (cs_ProposalBlock s) (cs_ProposalBlockParts s) (cs_LockedRound s) (cs_LockedBlock s)
    (cs_LockedBlockParts s) (cs_ValidRound s) (cs_ValidBlock s) (cs_ValidBlockParts s) (cs_Votes s)
    (cs_CommitRound s) (cs_LastCommit s) (cs_LastValidators s) (cs_Triggered s) (cs_state s) (cs_store s)
    (cs_priv s) (cs_pubkey s) (cs_flag s) (cs_ticks s) (cs_out s).
Definition set_ProposalBlock (x0 : option Block) (s : CState) : CState :=
  mkCState (cs_Height s) (cs_Round s) (cs_Step s) (cs_StartTime s) (cs_CommitTime s) (cs_Validators s)
    (cs_Proposal s) x0 (cs_ProposalBlockParts s) (cs_LockedRound s) (cs_LockedBlock s)
    (cs_LockedBlockParts s) (cs_ValidRound s) (cs_ValidBlock s) (cs_ValidBlockParts s) (cs_Votes s)
    (cs_CommitRound s) (cs_LastCommit s) (cs_LastValidators s) (cs_Triggered s) (cs_state s) (cs_store s)
    (cs_priv s) (cs_pubkey s) (cs_flag s) (cs_ticks s) (cs_out s).
Definition set_ProposalBlockParts (x0 : option PartSet) (s : CState) : CState :=
  mkCState (cs_Height s) (cs_Round s) (cs_Step s) (cs_StartTime s) (cs_CommitTime s) (cs_Validators s)
    (cs_Proposal s) (cs_ProposalBlock s) x0 (cs_LockedRound s) (cs_LockedBlock s) (cs_LockedBlockParts s)
    (cs_ValidRound s) (cs_ValidBlock s) (cs_ValidBlockParts s) (cs_Votes s) (cs_CommitRound s)
    (cs_LastCommit s) (cs_LastValidators s) (cs_Triggered s) (cs_state s) (cs_store s) (cs_priv s)
    (cs_pubkey s) (cs_flag s) (cs_ticks s) (cs_out s).
Definition set_Locked (x0 : Z) (x1 : option Block) (x2 : option PartSet) (s : CState) : CState :=
  mkCState (cs_Height s) (cs_Round s) (cs_Step s) (cs_StartTime s) (cs_CommitTime s) (cs_Validators s)
    (cs_Proposal s) (cs_ProposalBlock s) (cs_ProposalBlockParts s) x0 x1 x2 (cs_ValidRound s)
    (cs_ValidBlock s) (cs_ValidBlockParts s) (cs_Votes s) (cs_CommitRound s) (cs_LastCommit s)
    (cs_LastValidators s) (cs_Triggered s) (cs_state s) (cs_store s) (cs_priv s) (cs_pubkey s) (cs_flag
    s) (cs_ticks s) (cs_out s).
Definition set_Valid (x0 : Z) (x1 : option Block) (x2 : option PartSet) (s : CState) : CState :=
  mkCState (cs_Height s) (cs_Round s) (cs_Step s) (cs_StartTime s) (cs_CommitTime s) (cs_Validators s)
    (cs_Proposal s) (cs_ProposalBlock s) (cs_ProposalBlockParts s) (cs_LockedRound s) (cs_LockedBlock s)
    (cs_LockedBlockParts s) x0 x1 x2 (cs_Votes s) (cs_CommitRound s) (cs_LastCommit s) (cs_LastValidators
    s) (cs_Triggered s) (cs_state s) (cs_store s) (cs_priv s) (cs_pubkey s) (cs_flag s) (cs_ticks s)
    (cs_out s).
Definition set_Votes (x0 : option HeightVoteSet) (s : CState) : CState :=
  mkCState (cs_Height s) (cs_Round s) (cs_Step s) (cs_StartTime s) (cs_CommitTime s) (cs_Validators s)
    (cs_Proposal s) (cs_ProposalBlock s) (cs_ProposalBlockParts s) (cs_LockedRound s) (cs_LockedBlock s)
    (cs_LockedBlockParts s) (cs_ValidRound s) (cs_ValidBlock s) (cs_ValidBlockParts s) x0 (cs_CommitRound
    s) (cs_LastCommit s) (cs_LastValidators s) (cs_Triggered s) (cs_state s) (cs_store s) (cs_priv s)
    (cs_pubkey s) (cs_flag s) (cs_ticks s) (cs_out s).
Definition set_CommitRound (x0 : Z) (s : CState) : CState :=
  mkCState (cs_Height s) (cs_Round s) (cs_Step s) (cs_StartTime s) (cs_CommitTime s) (cs_Validators s)
    (cs_Proposal s) (cs_ProposalBlock s) (cs_ProposalBlockParts s) (cs_LockedRound s) (cs_LockedBlock s)
    (cs_LockedBlockParts s) (cs_ValidRound s) (cs_ValidBlock s) (cs_ValidBlockParts s) (cs_Votes s) x0
    (cs_LastCommit s) (cs_LastValidators s) (cs_Triggered s) (cs_state s) (cs_store s) (cs_priv s)
    (cs_pubkey s) (cs_flag s) (cs_ticks s) (cs_out s).
Definition set_LastCommit (x0 : option VoteSet) (s : CState) : CState :=
  mkCState (cs_Height s) (cs_Round s) (cs_Step s) (cs_StartTime s) (cs_CommitTime s) (cs_Validators s)
    (cs_Proposal s) (cs_ProposalBlock s) (cs_ProposalBlockParts s) (cs_LockedRound s) (cs_LockedBlock s)
    (cs_LockedBlockParts s) (cs_ValidRound s) (cs_ValidBlock s) (cs_ValidBlockParts s) (cs_Votes s)
    (cs_CommitRound s) x0 (cs_LastValidators s) (cs_Triggered s) (cs_state s) (cs_store s) (cs_priv s)
    (cs_pubkey s) (cs_flag s) (cs_ticks s) (cs_out s).
Definition set_LastValidators (x0 : option ValidatorSet) (s : CState) : CState :=
  mkCState (cs_Height s) (cs_Round s) (cs_Step s) (cs_StartTime s) (cs_CommitTime s) (cs_Validators s)
    (cs_Proposal s) (cs_ProposalBlock s) (cs_ProposalBlockParts s) (cs_LockedRound s) (cs_LockedBlock s)
    (cs_LockedBlockParts s) (cs_ValidRound s) (cs_ValidBlock s) (cs_ValidBlockParts s) (cs_Votes s)
    (cs_CommitRound s) (cs_LastCommit s) x0 (cs_Triggered s) (cs_state s) (cs_store s) (cs_priv s)
    (cs_pubkey s) (cs_flag s) (cs_ticks s) (cs_out s).
Definition set_Triggered (x0 : bool) (s : CState) : CState :=
  mkCState (cs_Height s) (cs_Round s) (cs_Step s) (cs_StartTime s) (cs_CommitTime s) (cs_Validators s)
    (cs_Proposal s) (cs_ProposalBlock s) (cs_ProposalBlockParts s) (cs_LockedRound s) (cs_LockedBlock s)
    (cs_LockedBlockParts s) (cs_ValidRound s) (cs_ValidBlock s) (cs_ValidBlockParts s) (cs_Votes s)
    (cs_CommitRound s) (cs_LastCommit s) (cs_LastValidators s) x0 (cs_state s) (cs_store s) (cs_priv s)
    (cs_pubkey s) (cs_flag s) (cs_ticks s) (cs_out s).
Definition set_state (x0 : smState) (s : CState) : CState :=
  mkCState (cs_Height s) (cs_Round s) (cs_Step s) (cs_StartTime s) (cs_CommitTime s) (cs_Validators s)
    (cs_Proposal s) (cs_ProposalBlock s) (cs_ProposalBlockParts s) (cs_LockedRound s) (cs_LockedBlock s)
    (cs_LockedBlockParts s) (cs_ValidRound s) (cs_ValidBlock s) (cs_ValidBlockParts s) (cs_Votes s)
    (cs_CommitRound s) (cs_LastCommit s) (cs_LastValidators s) (cs_Triggered s) x0 (cs_store s) (cs_priv
    s) (cs_pubkey s) (cs_flag s) (cs_ticks s) (cs_out s).
Definition set_store (x0 : BlockStore) (s : CState) : CState :=
  mkCState (cs_Height s) (cs_Round s) (cs_Step s) (cs_StartTime s) (cs_CommitTime s) (cs_Validators s)
    (cs_Proposal s) (cs_ProposalBlock s) (cs_ProposalBlockParts s) (cs_LockedRound s) (cs_LockedBlock s)
    (cs_LockedBlockParts s) (cs_ValidRound s) (cs_ValidBlock s) (cs_ValidBlockParts s) (cs_Votes s)
    (cs_CommitRound s) (cs_LastCommit s) (cs_LastValidators s) (cs_Triggered s) (cs_state s) x0 (cs_priv
    s) (cs_pubkey s) (cs_flag s) (cs_ticks s) (cs_out s).
Definition set_priv (x0 : option FilePV) (s : CState) : CState :=
  mkCState (cs_Height s) (cs_Round s) (cs_Step s) (cs_StartTime s) (cs_CommitTime s) (cs_Validators s)
    (cs_Proposal s) (cs_ProposalBlock s) (cs_ProposalBlockParts s) (cs_LockedRound s) (cs_LockedBlock s)
    (cs_LockedBlockParts s) (cs_ValidRound s) (cs_ValidBlock s) (cs_ValidBlockParts s) (cs_Votes s)
    (cs_CommitRound s) (cs_LastCommit s) (cs_LastValidators s) (cs_Triggered s) (cs_state s) (cs_store s)
    x0 (cs_pubkey s) (cs_flag s) (cs_ticks s) (cs_out s).
Definition set_flag (x0 : bool) (s : CState) : CState :=
  mkCState (cs_Height s) (cs_Round s) (cs_Step s) (cs_StartTime s) (cs_CommitTime s) (cs_Validators s)
    (cs_Proposal s) (cs_ProposalBlock s) (cs_ProposalBlockParts s) (cs_LockedRound s) (cs_LockedBlock s)
    (cs_LockedBlockParts s) (cs_ValidRound s) (cs_ValidBlock s) (cs_ValidBlockParts s) (cs_Votes s)
    (cs_CommitRound s) (cs_LastCommit s) (cs_LastValidators s) (cs_Triggered s) (cs_state s) (cs_store s)
    (cs_priv s) (cs_pubkey s) x0 (cs_ticks s) (cs_out s).
Definition set_ticks (x0 : nat) (s : CState) : CState :=
  mkCState (cs_Height s) (cs_Round s) (cs_Step s) (cs_StartTime s) (cs_CommitTime s) (cs_Validators s)
    (cs_Proposal s) (cs_ProposalBlock s) (cs_ProposalBlockParts s) (cs_LockedRound s) (cs_LockedBlock s)
    (cs_LockedBlockParts s) (cs_ValidRound s) (cs_ValidBlock s) (cs_ValidBlockParts s) (cs_Votes s)
    (cs_CommitRound s) (cs_LastCommit s) (cs_LastValidators s) (cs_Triggered s) (cs_state s) (cs_store s)
    (cs_priv s) (cs_pubkey s) (cs_flag s) x0 (cs_out s).
Definition set_out (x0 : list Output) (s : CState) : CState :=
  mkCState (cs_Height s) (cs_Round s) (cs_Step s) (cs_StartTime s) (cs_CommitTime s) (cs_Validators s)
    (cs_Proposal s) (cs_ProposalBlock s) (cs_ProposalBlockParts s) (cs_LockedRound s) (cs_LockedBlock s)
    (cs_LockedBlockParts s) (cs_ValidRound s) (cs_ValidBlock s) (cs_ValidBlockParts s) (cs_Votes s)
    (cs_CommitRound s) (cs_LastCommit s) (cs_LastValidators s) (cs_Triggered s) (cs_state s) (cs_store s)
    (cs_priv s) (cs_pubkey s) (cs_flag s) (cs_ticks s) x0.

(** ** Parameters *)

(** The signature scheme and the encoding of what is signed, common to all nodes ... *)
Class Crypto := {
  VerifySignature : bytes → bytes → bytes → bool;
  key_Address : bytes → bytes;
  MarshalVote : CanonicalVote → bytes;
  UnmarshalVote : bytes → option CanonicalVote;
  MarshalProposal : CanonicalProposal → bytes;
  UnmarshalProposal : bytes → option CanonicalProposal;
}.

(** ... and what a node is run with: its private key, the clock, whether publishing an event and writing to
    the log succeed, the configuration and the executor. *)
Class Host := {
  Sign : bytes → option bytes;
  clock : nat → Z;
  bus_ok : nat → bool;
  wal_ok : nat → bool;
  config : Config;
  blockExec :: BlockExecutor;
}.

Inductive cs_error :=
| ErrHVS (e : hvs_error) | ErrLastCommitVote (e : vote_error) | ErrPublish | ErrAddingVote | ErrPubKeyIsNotSet
| ErrInvalidProposalPOLRound | ErrInvalidProposalSignature
| ErrPart (e : part_error) | ErrBlockTooBig | ErrBlockBytes (e : block_error).

Section consensus.
Context {CR : Crypto} {BC : BlockCodec} {HO : Host}.
Local Abbreviation N := (M CState).

(** ** Access to the state *)
Definition tick : N nat := n <- gets cs_ticks ;; modify (set_ticks (S n)) ;;; ret n.
Definition Now : N Z := n <- tick ;; ret (clock n).
Definition emit (o : Output) : N unit := modify (λ s, set_out (cs_out s ++ [o]) s).
Definition sendInternalMessage (m : Msg) : N unit := emit (OMsg m).
Definition scheduleTimeout (height round step : Z) : N unit := emit (OTimeout (mkTimeout height round step)).

(** A method call on a nil set panics. *)
Definition the_validators : N ValidatorSet :=
  v <- gets cs_Validators ;; match v with Some v => ret v | None => panic end.
Definition the_votes : N HeightVoteSet :=
  v <- gets cs_Votes ;; match v with Some v => ret v | None => panic end.

(** HasAll and HasTwoThirdsAny of a set that may be nil; the total they cache is not kept. *)
Definition ask (m : M VoteSet bool) (vs : option VoteSet) : outcome bool :=
  match vs with None => Ok false | Some vs => let! (b, _) := m vs in Ok b end.

Definition csGetProposer : N ValInfo :=
  vals <- the_validators ;;
  r <- lift (GetProposer vals) ;;
  modify (set_csValidators (Some r.2)) ;;;
  match r.1 with Some p => ret p | None => panic end.

Definition updateRoundStep (round step : Z) : N unit := modify (set_RoundStep round step).

Definition scheduleRound0 : N unit := h <- gets cs_Height ;; scheduleTimeout h 0 RoundStepNewHeight.

(** ** Votes of the node *)
Definition voteTime : N Z :=
  now <- Now ;;
  s <- gets id ;;
  let timeIota := cp_TimeIotaMs (sm_ConsensusParams (cs_state s)) * 1000000 in
  let minVoteTime :=
    match cs_LockedBlock s, cs_ProposalBlock s with
    | Some b, _ => h_Time (b_Header b) + timeIota
    | None, Some b => h_Time (b_Header b) + timeIota
    | None, None => now
    end in
  ret (if decide (minVoteTime < now) then now else minVoteTime).

(** [None] stands for an error. *)
Definition signVote (msgType : Z) (hash : bytes) (header : PartSetHeader) : N (option Vote) :=
  n <- tick ;;
  if negb (wal_ok n) then ret None else
  pk <- gets cs_pubkey ;;
  match pk with
  | None => ret None
  | Some pk =>
      let addr := key_Address pk in
      vals <- the_validators ;;
      let valIdx := (GetByAddress vals addr).1 in
      s <- gets id ;;
      t <- voteTime ;;
      let vote := mkVote msgType (cs_Height s) (cs_Round s) (mkBlockID hash header) t addr valIdx [] in
      match cs_priv s with
      | None => panic
      | Some pv =>
          now <- Now ;;
          r <- lift (SignVote MarshalVote UnmarshalVote Sign now (sm_ChainID (cs_state s)) vote pv) ;;
          modify (set_priv (Some r.2)) ;;;
          match r.1 with
          | (v, None) => ret (Some v)
          | (_, Some _) => ret None
          end
      end
  end.

Definition signAddVote (msgType : Z) (hash : bytes) (header : PartSetHeader) : N unit :=
  s <- gets id ;;
  match cs_priv s, cs_pubkey s with
  | Some _, Some pk =>
      vals <- the_validators ;;
      if HasAddress vals (key_Address pk) then
        v <- signVote msgType hash header ;;
        match v with
        | Some v => sendInternalMessage (VoteMessage v)
        | None => ret tt
        end
      else ret tt
  | _, _ => ret tt
  end.

Definition nil_header : PartSetHeader := mkPartSetHeader 0 [].

(** ** Committing *)
Definition updateToState (state : smState) : N unit :=
  s <- gets id ;;
  if decide (-1 < cs_CommitRound s ∧ 0 < cs_Height s ∧ cs_Height s ≠ sm_LastBlockHeight state) then panic else
  let old := cs_state s in
  if negb (IsEmpty old) && bool_decide (0 < sm_LastBlockHeight old ∧ i64 (sm_LastBlockHeight old + 1) ≠ cs_Height s) then panic
  else if negb (IsEmpty old) && bool_decide (0 < sm_LastBlockHeight old ∧ cs_Height s = sm_InitialHeight old) then panic
  else if negb (IsEmpty old) && bool_decide (sm_LastBlockHeight state ≤ sm_LastBlockHeight old) then ret tt
  else
    (if decide (sm_LastBlockHeight state = 0) then modify (set_LastCommit None)
     else
       match cs_Votes s with
       | Some votes =>
           if decide (-1 < cs_CommitRound s) then
             let precommits := Precommits (cs_CommitRound s) votes in
             if HasTwoThirdsMajority precommits then modify (set_LastCommit precommits) else panic
           else match cs_LastCommit s with None => panic | Some _ => ret tt end
       | None => match cs_LastCommit s with None => panic | Some _ => ret tt end
       end) ;;;
    let next := i64 (sm_LastBlockHeight state + 1) in
    let height := if decide (next = 1) then sm_InitialHeight state else next in
    modify (set_Height height) ;;;
    updateRoundStep 0 RoundStepNewHeight ;;;
    (match cs_CommitTime s with
     | None => now <- Now ;; modify (set_StartTime (now + TimeoutCommit config))
     | Some t => modify (set_StartTime (t + TimeoutCommit config))
     end) ;;;
    match sm_Validators state with
    | None => panic
    | Some vals =>
        modify (set_csValidators (Some vals)) ;;;
        modify (set_Proposal None) ;;;
        modify (set_ProposalBlock None) ;;;
        modify (set_ProposalBlockParts None) ;;;
        modify (set_Locked (-1) None None) ;;;
        modify (set_Valid (-1) None None) ;;;
        votes <- lift (NewHeightVoteSet (sm_ChainID state) height vals) ;;
        modify (set_Votes (Some votes)) ;;;
        modify (set_CommitRound (-1)) ;;;
        modify (set_LastValidators (sm_LastValidators state)) ;;;
        modify (set_Triggered false) ;;;
        modify (set_state state) ;;;
        modify (set_flag false)
    end.

(** An error of the pruning is only logged. *)
Definition pruneBlocks (retainHeight : Z) : N unit :=
  base <- gets (λ s, bs_base (cs_store s)) ;;
  if decide (retainHeight ≤ base) then ret tt
  else zoom cs_store set_store (PruneBlocks retainHeight) ;;; ret tt.

(** The last lines of finalizeCommit: the node moves to the next height.  Reading the validator's key again
    changes nothing, since the key of a private validator is fixed. *)
Definition enter_next_height (stateCopy : smState) : N unit :=
  updateToState stateCopy ;;;
  scheduleRound0.

(** The lines of finalizeCommit from the execution of the block to the pruning; what it then does for its statistics
    and its estimates of the timeouts is not modelled. *)
Definition apply_decided (height : Z) (state : smState) (block : Block) (blockParts : PartSet) : N unit :=
  hash <- lift (Block_Hash (Some block)) ;;
  let id := mkBlockID (slice hash) (Header (Some blockParts)) in
  a <- tick ;;
  r <- lift (ApplyBlock a state id block) ;;
  let '(stateCopy, retainHeight, applied) := r in
  emit (OApply height id block) ;;;
  if negb applied then ret tt else
  (if decide (0 < retainHeight) then pruneBlocks retainHeight else ret tt) ;;;
  enter_next_height stateCopy.

(** The lines of finalizeCommit before the execution of the block. *)
Definition finalizeCommit (height : Z) : N unit :=
  s <- gets id ;;
  if decide (cs_Height s ≠ height ∨ cs_Step s ≠ RoundStepCommit) then ret tt else
  votes <- the_votes ;;
  let precommits := Precommits (cs_CommitRound s) votes in
  let (blockID, ok) := TwoThirdsMajority precommits in
  if negb ok then panic
  else if negb (HasHeader (cs_ProposalBlockParts s) (bid_PartSetHeader blockID)) then panic
  else
    same <- lift (HashesTo (cs_ProposalBlock s) (bid_Hash blockID)) ;;
    if negb same then panic else
    n <- tick ;;
    valid <- lift (ValidateBlock n (cs_state s) (cs_ProposalBlock s)) ;;
    if negb valid then panic else
    match cs_ProposalBlock s, cs_ProposalBlockParts s, precommits with
    | Some block, Some blockParts, Some pvs =>
        (if decide (bs_height (cs_store s) < h_Height (b_Header block)) then
           seenCommit <- lift (MakeCommit pvs) ;;
           zoom cs_store set_store (SaveBlock (Some block) blockParts seenCommit)
         else ret tt) ;;;
        w <- tick ;;
        if negb (wal_ok w) then panic else
        match cs_pubkey s with
        | None => panic
        | Some _ => apply_decided height (cs_state s) block blockParts
        end
    | _, _, _ => panic
    end.

Definition tryFinalizeCommit (height : Z) : N unit :=
  s <- gets id ;;
  if decide (cs_Height s ≠ height) then panic else
  votes <- the_votes ;;
  let (blockID, ok) := TwoThirdsMajority (Precommits (cs_CommitRound s) votes) in
  if negb ok || bool_decide (len (bid_Hash blockID) = 0) then ret tt else
  same <- lift (HashesTo (cs_ProposalBlock s) (bid_Hash blockID)) ;;
  if negb same then ret tt else finalizeCommit height.

Definition enterCommit (height commitRound : Z) : N unit :=
  s <- gets id ;;
  if decide (cs_Height s ≠ height ∨ RoundStepCommit ≤ cs_Step s) then ret tt else
  votes <- the_votes ;;
  let (blockID, ok) := TwoThirdsMajority (Precommits commitRound votes) in
  if negb ok then panic else
  locked <- lift (HashesTo (cs_LockedBlock s) (bid_Hash blockID)) ;;
  (if (locked : bool) then
     modify (set_ProposalBlock (cs_LockedBlock s)) ;;; modify (set_ProposalBlockParts (cs_LockedBlockParts s))
   else ret tt) ;;;
  s1 <- gets id ;;
  same <- lift (HashesTo (cs_ProposalBlock s1) (bid_Hash blockID)) ;;
  (if negb same && negb (HasHeader (cs_ProposalBlockParts s1) (bid_PartSetHeader blockID)) then
     modify (set_ProposalBlock None) ;;;
     modify (set_ProposalBlockParts (Some (NewPartSetFromHeader (bid_PartSetHeader blockID))))
   else ret tt) ;;;
  updateRoundStep (cs_Round s) RoundStepCommit ;;;
  modify (set_CommitRound commitRound) ;;;
  now <- Now ;;
  modify (set_CommitTime (Some now)) ;;;
  tryFinalizeCommit height.

(** ** Voting *)
Definition isProposalComplete : N bool :=
  s <- gets id ;;
  match cs_Proposal s, cs_ProposalBlock s with
  | Some p, Some _ =>
      if decide (pr_POLRound p < 0) then ret true
      else votes <- the_votes ;; ret (HasTwoThirdsMajority (Prevotes (pr_POLRound p) votes))
  | _, _ => ret false
  end.

Definition defaultDoPrevote : N unit :=
  s <- gets id ;;
  match cs_LockedBlock s with
  | Some _ =>
      h <- lift (Block_Hash (cs_LockedBlock s)) ;;
      signAddVote PrevoteType (slice h) (Header (cs_LockedBlockParts s))
  | None =>
      match cs_ProposalBlock s with
      | None => signAddVote PrevoteType [] nil_header
      | Some _ =>
          n <- tick ;;
          valid <- lift (ValidateBlock n (cs_state s) (cs_ProposalBlock s)) ;;
          if negb valid then signAddVote PrevoteType [] nil_header
          else
            h <- lift (Block_Hash (cs_ProposalBlock s)) ;;
            signAddVote PrevoteType (slice h) (Header (cs_ProposalBlockParts s))
      end
  end.

Definition enterPrevote (height round : Z) : N unit :=
  s <- gets id ;;
  if decide (cs_Height s ≠ height ∨ round < cs_Round s ∨ (cs_Round s = round ∧ RoundStepPrevote ≤ cs_Step s))
  then ret tt
  else defaultDoPrevote ;;; updateRoundStep round RoundStepPrevote.

(** The body of enterPrecommit, before the deferred change of step. *)
Definition doPrecommit (round : Z) : N unit :=
  votes <- the_votes ;;
  let (blockID, ok) := TwoThirdsMajority (Prevotes round votes) in
  if negb ok then signAddVote PrecommitType [] nil_header else
  if decide ((POLInfo votes).1 < round) then panic else
  if decide (len (bid_Hash blockID) = 0) then
    s <- gets id ;;
    (match cs_LockedBlock s with None => ret tt | Some _ => modify (set_Locked (-1) None None) end) ;;;
    signAddVote PrecommitType [] nil_header
  else
    s <- gets id ;;
    locked <- lift (HashesTo (cs_LockedBlock s) (bid_Hash blockID)) ;;
    if (locked : bool) then
      modify (set_Locked round (cs_LockedBlock s) (cs_LockedBlockParts s)) ;;;
      signAddVote PrecommitType (bid_Hash blockID) (bid_PartSetHeader blockID)
    else
      proposed <- lift (HashesTo (cs_ProposalBlock s) (bid_Hash blockID)) ;;
      if (proposed : bool) then
        n <- tick ;;
        valid <- lift (ValidateBlock n (cs_state s) (cs_ProposalBlock s)) ;;
        if negb valid then panic else
        modify (set_Locked round (cs_ProposalBlock s) (cs_ProposalBlockParts s)) ;;;
        signAddVote PrecommitType (bid_Hash blockID) (bid_PartSetHeader blockID)
      else
        modify (set_Locked (-1) None None) ;;;
        (if negb (HasHeader (cs_ProposalBlockParts s) (bid_PartSetHeader blockID)) then
           modify (set_ProposalBlock None) ;;;
           modify (set_ProposalBlockParts (Some (NewPartSetFromHeader (bid_PartSetHeader blockID))))
         else ret tt) ;;;
        signAddVote PrecommitType [] nil_header.

Definition enterPrecommit (height round : Z) : N unit :=
  s <- gets id ;;
  if decide (cs_Height s ≠ height ∨ round < cs_Round s ∨ (cs_Round s = round ∧ RoundStepPrecommit ≤ cs_Step s))
  then ret tt
  else doPrecommit round ;;; updateRoundStep round RoundStepPrecommit.

Definition enterPrevoteWait (height round : Z) : N unit :=
  votes <- the_votes ;;
  let prevotes := Prevotes round votes in
  all <- lift (ask HasAll prevotes) ;;
  (if all && negb (HasTwoThirdsMajority prevotes) then enterPrecommit height round else ret tt) ;;;
  s <- gets id ;;
  if decide (cs_Height s ≠ height ∨ round < cs_Round s ∨ (cs_Round s = round ∧ RoundStepPrevoteWait ≤ cs_Step s))
  then ret tt
  else
    votes <- the_votes ;;
    any <- lift (ask HasTwoThirdsAny (Prevotes round votes)) ;;
    if negb any then panic else
    scheduleTimeout height round RoundStepPrevoteWait ;;;
    updateRoundStep round RoundStepPrevoteWait.

Definition enterPrecommitWait (height round : Z) : N unit :=
  s <- gets id ;;
  if decide (cs_Height s ≠ height ∨ round < cs_Round s ∨ (cs_Round s = round ∧ cs_Triggered s = true))
  then ret tt
  else
    votes <- the_votes ;;
    any <- lift (ask HasTwoThirdsAny (Precommits round votes)) ;;
    if negb any then panic else
    scheduleTimeout height round RoundStepPrecommitWait ;;;
    modify (set_Triggered true).

(** ** Proposing *)

(** The commit for the last block, if there is one. *)
Definition proposal_commit (s : CState) : outcome (option Commit) :=
  if decide (cs_Height s = sm_InitialHeight (cs_state s)) then Ok (Some (mkCommit 0 0 BlockID_nil []))
  else match cs_LastCommit s with
  | Some vs => if HasTwoThirdsMajority (Some vs) then let! c := MakeCommit vs in Ok (Some c) else Ok None
  | None => Ok None
  end.

Definition createProposalBlock : N (option (Block * PartSet)) :=
  s <- gets id ;;
  match cs_priv s with
  | None => panic
  | Some _ =>
      commit <- lift (proposal_commit s) ;;
      match commit, cs_pubkey s with
      | Some commit, Some pk =>
          n <- tick ;; lift (CreateProposalBlock n (cs_Height s) (cs_state s) commit (key_Address pk))
      | _, _ => ret None
      end
  end.

Fixpoint send_parts (n : nat) (i : Z) (ps : PartSet) : N unit :=
  match n with
  | O => ret tt
  | S n' =>
      part <- lift (GetPart ps i) ;;
      s <- gets id ;;
      sendInternalMessage (BlockPartMessage (cs_Height s) (cs_Round s) part) ;;;
      send_parts n' (i + 1) ps
  end.

(** Only the signature of the signed proposal is copied back, not its timestamp. *)
Definition defaultDecideProposal (height round : Z) : N unit :=
  s <- gets id ;;
  chosen <- (match cs_ValidBlock s, cs_ValidBlockParts s with
             | Some b, Some ps => ret (Some (b, ps))
             | Some _, None => panic
             | None, _ => createProposalBlock
             end) ;;
  match chosen with
  | None => ret tt
  | Some (block, blockParts) =>
      hash <- lift (Block_Hash (Some block)) ;;
      now <- Now ;;
      let proposal := NewProposal now height round (cs_ValidRound s) (mkBlockID (slice hash) (Header (Some blockParts))) in
      pv <- gets cs_priv ;;
      match pv with
      | None => panic
      | Some pv =>
          now' <- Now ;;
          r <- lift (SignProposal MarshalProposal UnmarshalProposal Sign now' (sm_ChainID (cs_state s)) proposal pv) ;;
          modify (set_priv (Some r.2)) ;;;
          match r.1 with
          | (p, None) =>
              sendInternalMessage (ProposalMessage (set_pr_Signature (pr_Signature p) proposal)) ;;;
              send_parts (Z.to_nat (ps_total blockParts)) 0 blockParts
          | (_, Some _) => ret tt
          end
      end
  end.

Definition enterPropose (height round : Z) : N unit :=
  s <- gets id ;;
  if decide (cs_Height s ≠ height ∨ round < cs_Round s ∨ (cs_Round s = round ∧ RoundStepPropose ≤ cs_Step s))
  then ret tt
  else
    scheduleTimeout height round RoundStepPropose ;;;
    (match cs_priv s, cs_pubkey s with
     | Some _, Some pk =>
         vals <- the_validators ;;
         if HasAddress vals (key_Address pk) then
           p <- csGetProposer ;;
           if decide (Address p = key_Address pk) then defaultDecideProposal height round else ret tt
         else ret tt
     | _, _ => ret tt
     end) ;;;
    updateRoundStep round RoundStepPropose ;;;
    complete <- isProposalComplete ;;
    if (complete : bool) then r <- gets cs_Round ;; enterPrevote height r else ret tt.

Definition needProofBlock (height : Z) : N bool :=
  s <- gets id ;;
  if decide (height = sm_InitialHeight (cs_state s)) then ret true else
  meta <- lift (LoadBlockMeta (height - 1) (cs_store s)) ;;
  match meta with
  | None => panic
  | Some bm => ret (negb (bool_decide (sm_AppHash (cs_state s) = h_AppHash (bm_Header bm))))
  end.

(** The address of the node's key is taken for a log line, whether there is a key or not. *)
Definition enterNewRound (height round : Z) : N unit :=
  s <- gets id ;;
  if decide (cs_Height s ≠ height ∨ round < cs_Round s ∨ (cs_Round s = round ∧ cs_Step s ≠ RoundStepNewHeight))
  then ret tt
  else
    vals <- the_validators ;;
    vals <- (if decide (cs_Round s < round) then
               d <- lift (SafeSubInt32 round (cs_Round s)) ;; lift (CopyIncrementProposerPriority vals d)
             else ret vals) ;;
    updateRoundStep round RoundStepNewRound ;;;
    modify (set_csValidators (Some vals)) ;;;
    csGetProposer ;;;
    (match cs_pubkey s with None => panic | Some _ => ret tt end) ;;;
    (if decide (round = 0) then ret tt else
       modify (set_Proposal None) ;;; modify (set_ProposalBlock None) ;;; modify (set_ProposalBlockParts None)) ;;;
    next <- lift (SafeAddInt32 round 1) ;;
    votes <- the_votes ;;
    r <- lift (SetRound next votes) ;;
    modify (set_Votes (Some r.2)) ;;;
    modify (set_Triggered false) ;;;
    wait <- (if WaitForTxs config && bool_decide (round = 0) then b <- needProofBlock height ;; ret (negb b) else ret false) ;;
    if (wait : bool) then
      (if decide (0 < CreateEmptyBlocksInterval config) then scheduleTimeout height round RoundStepNewRound else ret tt)
    else enterPropose height round.

(** ** Handling messages *)
Definition defaultSetProposal (proposal : Proposal) : N (option cs_error) :=
  s <- gets id ;;
  if decide (cs_Proposal s ≠ None) then ret None
  else if decide (pr_Height proposal ≠ cs_Height s ∨ pr_Round proposal ≠ cs_Round s) then ret None
  else if decide (pr_POLRound proposal < -1 ∨ (0 ≤ pr_POLRound proposal ∧ pr_Round proposal ≤ pr_POLRound proposal))
  then ret (Some ErrInvalidProposalPOLRound)
  else
    proposer <- csGetProposer ;;
    msg <- lift (ProposalSignBytes MarshalProposal (sm_ChainID (cs_state s)) proposal) ;;
    match PubKey proposer with
    | None => panic
    | Some k =>
        if negb (VerifySignature k msg (pr_Signature proposal)) then ret (Some ErrInvalidProposalSignature) else
        modify (set_Proposal (Some proposal)) ;;;
        (match cs_ProposalBlockParts s with
         | None => modify (set_ProposalBlockParts (Some (NewPartSetFromHeader (bid_PartSetHeader (pr_BlockID proposal)))))
         | Some _ => ret tt
         end) ;;;
        ret None
    end.

(** [io.ReadAll] on the reader of a complete set. *)
Definition read_all (ps : PartSet) : outcome bytes :=
  let! rd := GetReader ps in
  let! (b, _) := ReadAll (S (length (contents (ps_parts ps)))) (λ _, 512%nat) [] rd in Ok b.

Definition addProposalBlockPart (height round : Z) (part : option Part) : N (bool * option cs_error) :=
  s <- gets id ;;
  if decide (cs_Height s ≠ height) then ret (false, None) else
  match cs_ProposalBlockParts s, part with
  | _, None => panic    (* the index of the part is read for a log line, or by AddPart *)
  | None, Some _ => ret (false, None)
  | Some ps, Some part =>
      r <- lift (addPart Sum part ps) ;;
      let '(added, err, ps) := r in
      modify (set_ProposalBlockParts (Some ps)) ;;;
      match err with
      | Some e => ret (added, Some (ErrPart e))
      | None =>
          if decide (cp_MaxBytes (sm_ConsensusParams (cs_state s)) < ps_byteSize ps) then ret (added, Some ErrBlockTooBig)
          else if added && ps_IsComplete ps then
            bz <- lift (read_all ps) ;;
            b <- lift (BlockFromBytes bz) ;;
            match b with
            | inr e => ret (added, Some (ErrBlockBytes e))
            | inl block => modify (set_ProposalBlock (Some block)) ;;; ret (added, None)
            end
          else ret (added, None)
      end
  end.

Definition handleCompleteProposal (blockHeight : Z) : N unit :=
  s <- gets id ;;
  votes <- the_votes ;;
  let (blockID, hasTwoThirds) := TwoThirdsMajority (Prevotes (cs_Round s) votes) in
  (if hasTwoThirds && negb (IsZero blockID) && bool_decide (cs_ValidRound s < cs_Round s) then
     same <- lift (HashesTo (cs_ProposalBlock s) (bid_Hash blockID)) ;;
     if (same : bool) then modify (set_Valid (cs_Round s) (cs_ProposalBlock s) (cs_ProposalBlockParts s)) else ret tt
   else ret tt) ;;;
  complete <- (if decide (cs_Step s ≤ RoundStepPropose) then isProposalComplete else ret false) ;;
  if (complete : bool) then
    enterPrevote blockHeight (cs_Round s) ;;;
    if (hasTwoThirds : bool) then r <- gets cs_Round ;; enterPrecommit blockHeight r else ret tt
  else if decide (cs_Step s = RoundStepCommit) then tryFinalizeCommit blockHeight
  else ret tt.

(** What a polka seen while adding a prevote changes; false when an event could not be published, which ends
    the handling of the vote. *)
Definition publish : N bool := n <- tick ;; ret (bus_ok n).

Definition polka_unlock (vote : Vote) (blockID : BlockID) : N bool :=
  s <- gets id ;;
  if decide (cs_LockedBlock s ≠ None ∧ cs_LockedRound s < v_Round vote ∧ v_Round vote ≤ cs_Round s) then
    same <- lift (HashesTo (cs_LockedBlock s) (bid_Hash blockID)) ;;
    if negb same then modify (set_Locked (-1) None None) ;;; publish else ret true
  else ret true.

Definition polka_valid (vote : Vote) (blockID : BlockID) : N bool :=
  s <- gets id ;;
  if decide (len (bid_Hash blockID) ≠ 0 ∧ cs_ValidRound s < v_Round vote ∧ v_Round vote = cs_Round s) then
    same <- lift (HashesTo (cs_ProposalBlock s) (bid_Hash blockID)) ;;
    (if (same : bool) then modify (set_Valid (v_Round vote) (cs_ProposalBlock s) (cs_ProposalBlockParts s))
     else modify (set_ProposalBlock None)) ;;;
    (if negb (HasHeader (cs_ProposalBlockParts s) (bid_PartSetHeader blockID)) then
       modify (set_ProposalBlockParts (Some (NewPartSetFromHeader (bid_PartSetHeader blockID))))
     else ret tt) ;;;
    publish
  else ret true.

Definition polka_update (vote : Vote) (blockID : BlockID) : N bool :=
  ok <- polka_unlock vote blockID ;;
  if (ok : bool) then polka_valid vote blockID else ret false.

(** The transitions after a prevote was added. *)
Definition after_prevote (vote : Vote) (prevotes : option VoteSet) : N unit :=
  s <- gets id ;;
  any <- lift (ask HasTwoThirdsAny prevotes) ;;
  if bool_decide (cs_Round s < v_Round vote) && any then enterNewRound (cs_Height s) (v_Round vote)
  else if decide (cs_Round s = v_Round vote ∧ RoundStepPrevote ≤ cs_Step s) then
    let (blockID, ok) := TwoThirdsMajority prevotes in
    complete <- (if (ok : bool) then isProposalComplete else ret false) ;;
    if ok && (complete || bool_decide (len (bid_Hash blockID) = 0)) then enterPrecommit (cs_Height s) (v_Round vote)
    else if (any : bool) then enterPrevoteWait (cs_Height s) (v_Round vote)
    else ret tt
  else
    match cs_Proposal s with
    | Some p =>
        if decide (0 ≤ pr_POLRound p ∧ pr_POLRound p = v_Round vote) then
          complete <- isProposalComplete ;;
          if (complete : bool) then enterPrevote (cs_Height s) (cs_Round s) else ret tt
        else ret tt
    | None => ret tt
    end.

Definition added_prevote (vote : Vote) : N (option cs_error) :=
  votes <- the_votes ;;
  let prevotes := Prevotes (v_Round vote) votes in
  let (blockID, ok) := TwoThirdsMajority prevotes in
  go <- (if (ok : bool) then polka_update vote blockID else ret true) ;;
  if (go : bool) then after_prevote vote prevotes ;;; ret None else ret (Some ErrPublish).

Definition added_precommit (vote : Vote) : N unit :=
  height <- gets cs_Height ;;
  votes <- the_votes ;;
  let precommits := Precommits (v_Round vote) votes in
  let (blockID, ok) := TwoThirdsMajority precommits in
  all <- lift (ask HasAll precommits) ;;
  any <- lift (ask HasTwoThirdsAny precommits) ;;
  if (ok : bool) then
    enterNewRound height (v_Round vote) ;;;
    enterPrecommit height (v_Round vote) ;;;
    if decide (len (bid_Hash blockID) ≠ 0) then
      enterCommit height (v_Round vote) ;;;
      (if SkipTimeoutCommit config && all then h <- gets cs_Height ;; enterNewRound h 0 else ret tt)
    else enterPrecommitWait height (v_Round vote)
  else
    r <- gets cs_Round ;;
    if bool_decide (r ≤ v_Round vote) && any then
      enterNewRound height (v_Round vote) ;;; enterPrecommitWait height (v_Round vote)
    else ret tt.

(** A late precommit of the previous height. *)
Definition add_last_precommit (vote : Vote) : N (bool * option cs_error) :=
  s <- gets id ;;
  if decide (cs_Step s ≠ RoundStepNewHeight) then ret (false, None) else
  r <- lift (AddVote VerifySignature key_Address MarshalVote (cs_LastCommit s) (Some vote)) ;;
  let '(added, err, vs) := r in
  modify (set_LastCommit (Some vs)) ;;;
  if negb added then ret (false, ErrLastCommitVote <$> err) else
  ok <- publish ;;
  if negb ok then ret (added, Some ErrPublish) else
  all <- lift (ask HasAll (Some vs)) ;;
  (if SkipTimeoutCommit config && all then enterNewRound (cs_Height s) 0 else ret tt) ;;;
  ret (added, ErrLastCommitVote <$> err).

Definition cs_addVote (vote : Vote) (peerID : bytes) : N (bool * option cs_error) :=
  s <- gets id ;;
  if decide (i64 (v_Height vote + 1) = cs_Height s ∧ v_Type vote = PrecommitType) then add_last_precommit vote
  else if decide (v_Height vote ≠ cs_Height s) then ret (false, None)
  else
    votes <- the_votes ;;
    r <- lift (HVS_AddVote VerifySignature key_Address MarshalVote vote peerID votes) ;;
    let '(added, err, votes) := r in
    modify (set_Votes (Some votes)) ;;;
    if negb added then ret (false, ErrHVS <$> err) else
    ok <- publish ;;
    if negb ok then ret (added, Some ErrPublish)
    else if decide (v_Type vote = PrevoteType) then
      e <- added_prevote vote ;;
      match e with Some e => ret (added, Some e) | None => ret (added, ErrHVS <$> err) end
    else if decide (v_Type vote = PrecommitType) then added_precommit vote ;;; ret (added, ErrHVS <$> err)
    else panic.

Definition conflicting (e : cs_error) : option (Vote * Vote) :=
  match e with
  | ErrHVS (ErrHVSVote (ErrVoteConflictingVotes a b)) => Some (a, b)
  | ErrLastCommitVote (ErrVoteConflictingVotes a b) => Some (a, b)
  | _ => None
  end.
Definition nondeterministic (e : cs_error) : bool :=
  match e with
  | ErrHVS (ErrHVSVote ErrVoteNonDeterministicSignature) | ErrLastCommitVote ErrVoteNonDeterministicSignature => true
  | _ => false
  end.

Definition tryAddVote (vote : Vote) (peerID : bytes) : N (bool * option cs_error) :=
  r <- cs_addVote vote peerID ;;
  match r with
  | (added, None) => ret (added, None)
  | (added, Some err) =>
      match conflicting err with
      | Some (a, b) =>
          pk <- gets cs_pubkey ;;
          match pk with
          | None => ret (false, Some ErrPubKeyIsNotSet)
          | Some pk =>
              if decide (v_ValidatorAddress vote = key_Address pk) then ret (added, Some err)
              else emit (OConflict a b) ;;; ret (added, Some err)
          end
      | None => if nondeterministic err then ret (added, None) else ret (added, Some ErrAddingVote)
      end
  end.

(** The first complete block of a height is looked at for the statistics, whether it was decoded or not. *)
Definition handleMsg (msg : Msg) (peerID : bytes) : N (option cs_error) :=
  match msg with
  | ProposalMessage proposal => defaultSetProposal proposal
  | BlockPartMessage height round part =>
      r <- addProposalBlockPart height round part ;;
      let (added, err) := r in
      s <- gets id ;;
      (match cs_ProposalBlockParts s with
       | None => if (added : bool) then panic else ret tt
       | Some ps =>
           if added && ps_IsComplete ps then
             (if cs_flag s then ret tt
              else modify (set_flag true) ;;; match cs_ProposalBlock s with None => panic | Some _ => ret tt end) ;;;
             handleCompleteProposal height
           else ret tt
       end) ;;;
      r <- gets cs_Round ;;
      ret (if decide (round ≠ r) then None else err)
  | VoteMessage vote => r <- tryAddVote vote peerID ;; ret r.2
  end.

(** [rs] is a copy of the round state. *)
Definition handleTimeout (ti : timeoutInfo) (rs : CState) : N unit :=
  if decide (ti_Height ti ≠ cs_Height rs ∨ ti_Round ti < cs_Round rs ∨
             (ti_Round ti = cs_Round rs ∧ ti_Step ti < cs_Step rs)) then ret tt
  else if decide (ti_Step ti = RoundStepNewHeight) then enterNewRound (ti_Height ti) 0
  else if decide (ti_Step ti = RoundStepNewRound) then enterPropose (ti_Height ti) 0
  else if decide (ti_Step ti = RoundStepPropose) then enterPrevote (ti_Height ti) (ti_Round ti)
  else if decide (ti_Step ti = RoundStepPrevoteWait) then enterPrecommit (ti_Height ti) (ti_Round ti)
  else if decide (ti_Step ti = RoundStepPrecommitWait) then
    enterPrecommit (ti_Height ti) (ti_Round ti) ;;;
    enterNewRound (ti_Height ti) (i32 (ti_Round ti + 1))
  else panic.

Definition handleTxsAvailable : N unit :=
  s <- gets id ;;
  if decide (cs_Round s ≠ 0) then ret tt
  else if decide (cs_Step s = RoundStepNewHeight) then
    b <- needProofBlock (cs_Height s) ;;
    if (b : bool) then ret tt else scheduleTimeout (cs_Height s) 0 RoundStepNewRound
  else if decide (cs_Step s = RoundStepNewRound) then enterPropose (cs_Height s) 0
  else ret tt.

(** What the second select of the loop receives. *)
Inductive Event :=
| EvMsg (msg : Msg) (peerID : bytes)
| EvTimeout (ti : timeoutInfo)
| EvTxs.

(** One iteration of receiveRoutine: a timeout that is ready is handled first; a second one is checked against
    the same copy of the round state. *)
Definition receive_once (first : option timeoutInfo) (ev : Event) : N unit :=
  rs <- gets id ;;
  (match first with Some ti => handleTimeout ti rs | None => ret tt end) ;;;
  match ev with
  | EvMsg msg peerID => handleMsg msg peerID ;;; ret tt
  | EvTimeout ti => handleTimeout ti rs
  | EvTxs => handleTxsAvailable
  end.

(** The reactor tells the vote sets of the current height about a majority a peer claims. *)
Definition peer_maj23 (height round voteType : Z) (blockID : BlockID) (peerID : bytes) : N unit :=
  s <- gets id ;;
  if decide (cs_Height s ≠ height) then ret tt else
  votes <- the_votes ;;
  r <- lift (HVS_SetPeerMaj23 round voteType peerID blockID votes) ;;
  modify (set_Votes (Some r.2)).

(** ** Starting *)
Fixpoint add_commit_votes (i : Z) (sigs : list CommitSig) (commit : Commit) : M VoteSet unit :=
  match sigs with
  | [] => ret tt
  | cs :: sigs' =>
      (if Absent cs then ret tt else
         v <- lift (GetVote commit i) ;;
         r <- addVote VerifySignature key_Address MarshalVote (Some v) ;;
         match r with (true, None) => ret tt | _ => panic end) ;;;
      add_commit_votes (i + 1) sigs' commit
  end.

Definition CommitToVoteSet (chainID : bytes) (commit : Commit) (vals : ValidatorSet) : outcome VoteSet :=
  let! vs := NewVoteSet chainID (c_Height commit) (c_Round commit) PrecommitType vals in
  let! (_, vs) := add_commit_votes 0 (c_Signatures commit) commit vs in Ok vs.

Definition reconstructLastCommit (state : smState) : N unit :=
  s <- gets id ;;
  seen <- lift (LoadSeenCommit (sm_LastBlockHeight state) (cs_store s)) ;;
  match seen, sm_LastValidators state with
  | Some seenCommit, Some vals =>
      vs <- lift (CommitToVoteSet (sm_ChainID state) seenCommit vals) ;;
      if HasTwoThirdsMajority (Some vs) then modify (set_LastCommit (Some vs)) else panic
  | _, _ => panic
  end.

Definition blank (store : BlockStore) (pv : option FilePV) (pk : option bytes) : CState :=
  mkCState 0 0 0 0 None None None None None 0 None None 0 None None None 0 None None false empty_state store pv pk false 0 [].

Definition NewState (state : smState) (store : BlockStore) (pv : option FilePV) (pk : option bytes) : outcome CState :=
  let! (_, s) := ((if decide (0 < sm_LastBlockHeight state) then reconstructLastCommit state else ret tt) ;;;
                  updateToState state) (blank store pv pk) in
  Ok s.

(** NewState, then the scheduling of the first round by OnStart. *)
Definition start (state : smState) (store : BlockStore) (pv : option FilePV) (pk : option bytes) : outcome CState :=
  let! s := NewState state store pv pk in
  let! (_, s) := scheduleRound0 s in Ok s.
End consensus.
