(* ===== verification/TmConsVotes.v ===== *)
(** Where the votes of a vote set come from: whatever holds of every vote given to a height vote set
    holds of the votes it keeps, so a majority it reports is a quorum of such votes.  Used by the
    theorems about the consensus state machine. *)

From S2P Require Import Prelude TmBits TmValidators TmPriority TmValUpdate TmTypes TmCommit TmVotes TmVoteInv TmVoteSafety.
From S2P Require Import TmHeightVotes.

(** ** Running computations backwards *)
Lemma ret_Ok {S A} (a b : A) (s s' : S) : ret a s = Ok (b, s') ↔ a = b ∧ s = s'.
Proof. unfold ret. naive_solver. Qed.
Lemma gets_Ok {S A} (f : S → A) a (s s' : S) : gets f s = Ok (a, s') ↔ a = f s ∧ s = s'.
Proof. unfold gets. naive_solver. Qed.
Lemma modify_Ok {S} (f : S → S) u (s s' : S) : modify f s = Ok (u, s') ↔ s' = f s.
Proof. unfold modify. destruct u. naive_solver. Qed.
Lemma lift_Ok {S A} (o : outcome A) a (s s' : S) : lift o s = Ok (a, s') ↔ o = Ok a ∧ s = s'.
Proof. unfold lift, outcome_bind. destruct o; naive_solver. Qed.
Lemma obind_Ok {A B} (o : outcome A) (k : A → outcome B) b : outcome_bind o k = Ok b ↔ ∃ a, o = Ok a ∧ k a = Ok b.
Proof. unfold outcome_bind. destruct o; naive_solver. Qed.

(** One step back through a run that returned. *)
Ltac back1 :=
  match goal with
  | H : bind _ _ _ = Ok _ |- _ => apply bind_Ok in H as (? & ? & ? & ?)
  | H : outcome_bind _ _ = Ok _ |- _ => apply obind_Ok in H as (? & ? & ?)
  | H : ret _ _ = Ok (_, _) |- _ => apply ret_Ok in H as [? ?]
  | H : gets _ _ = Ok (_, _) |- _ => apply gets_Ok in H as [? ?]
  | H : modify _ _ = Ok (_, _) |- _ => apply modify_Ok in H
  | H : lift _ _ = Ok (_, _) |- _ => apply lift_Ok in H as [H ?]
  | H : panic _ = Ok _ |- _ => discriminate H
  | H : Panic = Ok _ |- _ => discriminate H
  | x : unit |- _ => destruct x
  end; simplify_eq/=.
Ltac back := repeat back1.

(** ** Votes that are kept *)
Section held.
Context (P : Vote → Prop).

Record held (vs : VoteSet) : Prop := {
  he_votes : ∀ v, Some v ∈ votes vs → P v;
  he_blocks : ∀ key bv v, votesByBlock vs !! key = Some bv → Some v ∈ bv_votes bv → P v;
}.

Lemma elem_insert_Some (l : list (option Vote)) i x v : Some v ∈ <[i := Some x]> l → v = x ∨ Some v ∈ l.
Proof.
  intros (j & Hj)%list_elem_of_lookup_1. destruct (decide (j = i)) as [->|Hne].
  - apply list_lookup_insert_Some in Hj as [(_ & E & _)|[? _]]; [left; congruence|done].
  - rewrite list_lookup_insert_ne in Hj by done. right. by eapply list_elem_of_lookup_2.
Qed.

Lemma slice_set_elem (l : list (option Vote)) i x l' v :
  slice_set l i (Some x) = Ok l' → Some v ∈ l' → v = x ∨ Some v ∈ l.
Proof. unfold slice_set. case_decide; [|done]. intros [= <-]. apply elem_insert_Some. Qed.

Lemma store_vote_held i x vs u vs' : held vs → P x → store_vote i x vs = Ok (u, vs') → held vs'.
Proof.
  intros Hh Hx E. unfold store_vote in E. back. destruct Hh as [G1 G2]. split; cbn; [|done].
  intros v Hv. eapply slice_set_elem in Hv as [->|?]; eauto.
Qed.

Lemma copy_votes_held from : ∀ i vs u vs', held vs → (∀ v, Some v ∈ from → P v) → copy_votes i from vs = Ok (u, vs') → held vs'.
Proof.
  induction from as [|[x|] from IH]; intros i vs u vs' Hh Hf E; cbn [copy_votes] in E; back; [done| |].
  - eapply IH; [| |done].
    + destruct Hh as [G1 G2]. split; cbn; [|done]. intros v Hv. eapply slice_set_elem in Hv as [->|?]; [apply Hf, list_elem_of_here|by apply G1|done].
    + intros v Hv. apply Hf. by constructor.
  - eapply IH; [done| |done]. intros v Hv. apply Hf. by constructor.
Qed.

Lemma bv_add_held bv x pw bv' v :
  bv_addVerifiedVote bv x pw = Ok bv' → Some v ∈ bv_votes bv' → v = x ∨ Some v ∈ bv_votes bv.
Proof.
  unfold bv_addVerifiedVote. intros E Hv. apply obind_Ok in E as (ex & _ & E). destruct ex as [y|]; [injection E as <-; by right|].
  apply obind_Ok in E as ([? ?] & _ & E). apply obind_Ok in E as (l & El & E). injection E as <-. cbn in Hv.
  by eapply slice_set_elem.
Qed.

Lemma total_held vs a vs' : held vs → zoom valSet set_valSet TotalVotingPower vs = Ok (a, vs') → held vs'.
Proof.
  intros [H1 H2] E. unfold zoom in E. apply obind_Ok in E as ([? ?] & _ & E). injection E as _ <-. by split.
Qed.

Lemma new_block_votes_held b n v : Some v ∉ bv_votes (newBlockVotes b n).
Proof. cbn. intros [? _]%elem_of_replicate. done. Qed.

Lemma put_block_held vs key bv : held vs → (∀ v, Some v ∈ bv_votes bv → P v) → held (set_votesByBlock (<[key := bv]> (votesByBlock vs)) vs).
Proof.
  intros [H1 H2] Hb. split; cbn; [done|]. intros k' bv' v. destruct (decide (k' = key)) as [->|Hne].
  - rewrite lookup_insert_eq. intros [= <-]. apply Hb.
  - rewrite lookup_insert_ne by done. apply H2.
Qed.

Lemma addVerifiedVote_held x key pw vs r vs' : held vs → P x → addVerifiedVote x key pw vs = Ok (r, vs') → held vs'.
Proof.
  intros Hh Hx E. unfold addVerifiedVote in E.
  apply bind_Ok in E as (vs0 & s0 & [-> <-]%gets_Ok & E). apply bind_Ok in E as (ex & s0 & [_ <-]%lift_Ok & E).
  apply bind_Ok in E as (conf & vs1 & E1 & E). apply bind_Ok in E as (vs2 & s2 & [-> <-]%gets_Ok & E).
  assert (Hs1 : held vs1).
  { destruct ex as [y|].
    - destruct (Equals _ _); [done|]. apply bind_Ok in E1 as ([] & s3 & E1 & [_ <-]%ret_Ok).
      destruct (match maj23 _ with Some _ => _ | None => _ end); [by eapply store_vote_held|by apply ret_Ok in E1 as [_ <-]].
    - apply bind_Ok in E1 as ([] & s3 & E1 & E2). back. eapply store_vote_held in E1; [|done..].
      destruct E1 as [G1 G2]. by split. }
  match type of E with (match ?t with Some _ => _ | None => _ end) _ = _ => destruct t as [bv|] eqn:Et end; [|by apply ret_Ok in E as [_ <-]].
  assert (Hbv : ∀ v, Some v ∈ bv_votes bv → P v).
  { destruct (votesByBlock vs1 !! key) as [bv0|] eqn:E0.
    - cbn in Et. rewrite E0 in Et. destruct (_ && _) in Et; simplify_eq. intros v. by apply (he_blocks _ Hs1 key).
    - cbn in Et. rewrite E0 in Et. destruct (bool_decide _) in Et; simplify_eq. intros v Hv. by apply new_block_votes_held in Hv. }
  apply bind_Ok in E as (total & s2 & E2 & E). apply bind_Ok in E as (bv' & s3 & [Hadd <-]%lift_Ok & E).
  eapply total_held in E2; [|done]. clear Et.
  assert (Hbv' : ∀ v, Some v ∈ bv_votes bv' → P v).
  { intros v Hv. eapply bv_add_held in Hv as [->|?]; eauto. }
  apply bind_Ok in E as ([] & s3 & ->%modify_Ok & E). apply bind_Ok in E as (? & ? & [-> <-]%gets_Ok & E).
  apply bind_Ok in E as ([] & s4 & E3 & [_ <-]%ret_Ok). pose proof (put_block_held s2 key bv' E2 Hbv') as Hp. case_decide.
  - apply bind_Ok in E3 as ([] & s5 & ->%modify_Ok & E3). eapply copy_votes_held; [|exact Hbv'|done]. destruct Hp as [G1 G2]. by split.
  - by apply ret_Ok in E3 as [_ <-].
Qed.

Section crypto.
Context (VerifySignature : bytes → bytes → bytes → bool) (key_Address : bytes → bytes)
        (MarshalDelimited : CanonicalVote → bytes).
Local Abbreviation addVote := (TmVotes.addVote VerifySignature key_Address MarshalDelimited).
Local Abbreviation HVS_AddVote := (TmHeightVotes.HVS_AddVote VerifySignature key_Address MarshalDelimited).
Local Abbreviation hvs_inv := (TmHeightVotes.hvs_inv VerifySignature key_Address MarshalDelimited).

Lemma addVote_held x vs r vs' : held vs → P x → addVote (Some x) vs = Ok (r, vs') → held vs'.
Proof.
  intros Hh Hx E. unfold TmVotes.addVote in E. apply bind_Ok in E as (vs0 & s0 & [-> <-]%gets_Ok & E).
  repeat (case_decide; [by apply ret_Ok in E as [_ <-]|]).
  destruct (GetByIndex _ _) as [[addr val]|]; [|by apply ret_Ok in E as [_ <-]].
  case_decide; [by apply ret_Ok in E as [_ <-]|].
  apply bind_Ok in E as (ex & s1 & E1 & E).
  assert (s1 = vs) as ->.
  { unfold getVote in E1. back. destruct (match _ with Some v => _ | None => _ end) in *; back; done. }
  destruct ex as [ex|]; [case_decide; by apply ret_Ok in E as [_ <-]|].
  apply bind_Ok in E as (e & s1 & [_ <-]%lift_Ok & E).
  destruct e as [[]|]; [by apply ret_Ok in E as [_ <-]..|].
  apply bind_Ok in E as ([added c] & s1 & E2 & E). eapply addVerifiedVote_held in E2; [|done..].
  destruct c, added; try (by apply ret_Ok in E as [_ <-]). done.
Qed.

Lemma SetPeerMaj23_held peer b vs r vs' : held vs → SetPeerMaj23 peer b vs = Ok (r, vs') → held vs'.
Proof.
  intros Hh E. unfold SetPeerMaj23 in E. apply bind_Ok in E as (vs0 & s0 & [-> <-]%gets_Ok & E). cbn in E.
  destruct (peerMaj23s vs !! peer) as [ex|]; [destruct (Equals ex b); by apply ret_Ok in E as [_ <-]|].
  apply bind_Ok in E as ([] & s1 & ->%modify_Ok & E). apply bind_Ok in E as (vs1 & s1 & [-> <-]%gets_Ok & E). cbn in E.
  set (vs1 := set_peerMaj23s _ vs) in E. assert (Hh1 : held vs1) by (destruct Hh; by split).
  destruct (votesByBlock vs !! Key b) as [bv|] eqn:Eb.
  - destruct (peerMaj23 bv); [by apply ret_Ok in E as [_ <-]|].
    apply bind_Ok in E as ([] & s2 & ->%modify_Ok & [_ <-]%ret_Ok). apply (put_block_held vs1); [done|].
    cbn. intros v. by apply (he_blocks _ Hh1 (Key b)).
  - apply bind_Ok in E as ([] & s2 & ->%modify_Ok & [_ <-]%ret_Ok). apply (put_block_held vs1); [done|].
    intros v Hv. by apply new_block_votes_held in Hv.
Qed.

Lemma NewVoteSet_held ch h r t vals vs : NewVoteSet ch h r t vals = Ok vs → held vs.
Proof.
  unfold NewVoteSet. case_decide; [done|]. intros [= <-]. split; cbn.
  - intros v [? _]%elem_of_replicate. done.
  - intros key bv v. by rewrite lookup_empty.
Qed.

(** *** The vote sets of a height *)
Definition held_sets (hv : HeightVoteSet) : Prop :=
  ∀ r rvs, hvs_sets hv !! r = Some rvs → held (rvs_Prevotes rvs) ∧ held (rvs_Precommits rvs).

Lemma addRound_held r hv u hv' : held_sets hv → addRound r hv = Ok (u, hv') → held_sets hv'.
Proof.
  intros Hh E. unfold addRound in E. apply bind_Ok in E as (h & s0 & [-> <-]%gets_Ok & E). cbn in E.
  destruct (hvs_sets hv !! r); [done|].
  apply bind_Ok in E as (v1 & s0 & [E1 <-]%lift_Ok & E). apply bind_Ok in E as (v2 & s0 & [E2 <-]%lift_Ok & E).
  apply modify_Ok in E as ->. intros r' rvs. cbn. destruct (decide (r' = r)) as [->|Hne].
  - rewrite lookup_insert_eq. intros [= <-]. split; cbn; by eapply NewVoteSet_held.
  - rewrite lookup_insert_ne by done. apply Hh.
Qed.

Lemma add_rounds_held n : ∀ r hv u hv', held_sets hv → add_rounds n r hv = Ok (u, hv') → held_sets hv'.
Proof.
  induction n as [|n IH]; intros r hv u hv' Hh E; cbn [add_rounds] in E; [by apply ret_Ok in E as [_ <-]|].
  apply bind_Ok in E as (h & s0 & [-> <-]%gets_Ok & E). apply bind_Ok in E as ([] & s1 & E1 & E).
  eapply IH; [|done]. destruct (_ !! r) in E1; [by apply ret_Ok in E1 as [_ <-]|]. by eapply addRound_held.
Qed.

Lemma SetRound_held r hv u hv' : held_sets hv → TmHeightVotes.SetRound r hv = Ok (u, hv') → held_sets hv'.
Proof.
  intros Hh E. unfold TmHeightVotes.SetRound in E. apply bind_Ok in E as (h & s0 & [-> <-]%gets_Ok & E).
  apply bind_Ok in E as (nr & s0 & [_ <-]%lift_Ok & E). case_decide; [done|].
  apply bind_Ok in E as ([] & s1 & E1 & E). case_decide; [done|]. apply modify_Ok in E as ->. eapply add_rounds_held in E1; [|done]. done.
Qed.

Lemma NewHeightVoteSet_held ch h vals hv : NewHeightVoteSet ch h vals = Ok hv → held_sets hv.
Proof.
  unfold NewHeightVoteSet, Reset. intros ([[] h'] & E & [= <-])%obind_Ok.
  apply bind_Ok in E as ([] & s0 & ->%modify_Ok & E). apply bind_Ok in E as ([] & s1 & E1 & ->%modify_Ok).
  eapply addRound_held in E1; [exact E1|]. intros r rvs. cbn. by rewrite lookup_empty.
Qed.

Lemma getVoteSet_held r t hv vs : held_sets hv → getVoteSet r t hv = Ok (Some vs) → held vs.
Proof.
  intros Hh. unfold getVoteSet. destruct (hvs_sets hv !! r) as [rvs|] eqn:E; [|done].
  destruct (Hh r rvs E). repeat case_decide; intros; by simplify_eq.
Qed.

Lemma putVoteSet_held r t vs hv : held_sets hv → held vs → held_sets (putVoteSet r t vs hv).
Proof.
  intros Hh Hv. unfold putVoteSet. destruct (hvs_sets hv !! r) as [rvs|] eqn:E; [|done].
  intros r' rvs'. cbn. destruct (decide (r' = r)) as [->|Hne].
  - rewrite lookup_insert_eq. destruct (Hh r rvs E). intros [= <-]. case_decide; by split.
  - rewrite lookup_insert_ne by done. apply Hh.
Qed.

Lemma hvs_add_held x hv r hv' : held_sets hv → P x →
  TmHeightVotes.hvs_add VerifySignature key_Address MarshalDelimited x hv = Ok (r, hv') → held_sets hv'.
Proof.
  intros Hh Hx E. unfold TmHeightVotes.hvs_add in E. apply bind_Ok in E as (h & s0 & [-> <-]%gets_Ok & E).
  apply bind_Ok in E as (vs & s0 & [Ev <-]%lift_Ok & E). destruct vs as [vs|]; [|done].
  apply bind_Ok in E as ([q vs'] & s0 & [Ea <-]%lift_Ok & E). apply bind_Ok in E as ([] & s1 & ->%modify_Ok & [_ <-]%ret_Ok).
  apply putVoteSet_held; [done|]. eapply addVote_held; [|done..]. by eapply getVoteSet_held.
Qed.

Lemma HVS_AddVote_held x peer hv r hv' : held_sets hv → P x → HVS_AddVote x peer hv = Ok (r, hv') → held_sets hv'.
Proof.
  intros Hh Hx E. unfold TmHeightVotes.HVS_AddVote in E. destruct (negb _); [by apply ret_Ok in E as [_ <-]|].
  apply bind_Ok in E as (h & s0 & [-> <-]%gets_Ok & E). apply bind_Ok in E as (vs & s0 & [_ <-]%lift_Ok & E).
  destruct vs as [vs|]; [by eapply hvs_add_held|]. case_decide; [|by apply ret_Ok in E as [_ <-]].
  apply bind_Ok in E as ([] & s1 & E1 & E). apply bind_Ok in E as ([] & s2 & ->%modify_Ok & E).
  eapply hvs_add_held; [|done..]. eapply addRound_held in E1; [|done]. done.
Qed.

Lemma HVS_SetPeerMaj23_held rd t peer b hv r hv' : held_sets hv → HVS_SetPeerMaj23 rd t peer b hv = Ok (r, hv') → held_sets hv'.
Proof.
  intros Hh E. unfold HVS_SetPeerMaj23 in E. destruct (negb _); [by apply ret_Ok in E as [_ <-]|].
  apply bind_Ok in E as (h & s0 & [-> <-]%gets_Ok & E). apply bind_Ok in E as (vs & s0 & [Ev <-]%lift_Ok & E).
  destruct vs as [vs|]; [|by apply ret_Ok in E as [_ <-]].
  apply bind_Ok in E as ([q vs'] & s0 & [Ea <-]%lift_Ok & E). apply bind_Ok in E as ([] & s1 & ->%modify_Ok & [_ <-]%ret_Ok).
  apply putVoteSet_held; [done|]. eapply SetPeerMaj23_held; [|done..]. by eapply getVoteSet_held.
Qed.

(** *** Quorums *)
Definition signed (chain k : bytes) (v : Vote) : Prop :=
  ∃ msg, VoteSignBytes MarshalDelimited chain v = Ok msg ∧ VerifySignature k msg (v_Signature v) = true.

(** Validators with more than two thirds of the power signed a vote for [b] that satisfies [P]. *)
Definition quorum (vals : list Validator) (chain : bytes) (h t r : Z) (b : BlockID) : Prop :=
  ∃ Q, 2 * power vals < 3 * weight vals Q ∧
    ∀ i, Q i = true → ∃ (val : Validator) k v, vals !! i = Some val ∧ PubKey val = Some k ∧ P v ∧
      v_Type v = t ∧ v_Height v = h ∧ v_Round v = r ∧ v_BlockID v = b ∧ proper_id b ∧ signed chain k v.

Lemma weight_infos l l' Q : infos l = infos l' → weight l Q = weight l' Q.
Proof.
  revert l' Q. induction l as [|v l IH]; intros [|v' l'] Q E; try done. injection E as E1 E2.
  rewrite !weight_cons, (IH l') by done. by rewrite E1.
Qed.

Lemma majority_quorum hv r t vs b vals :
  held vs → set_ok VerifySignature key_Address MarshalDelimited hv r t vs →
  infos (Validators (hvs_valSet hv)) = infos vals → maj23 vs = Some b →
  quorum vals (hvs_chainID hv) (hvs_height hv) t r b.
Proof.
  intros Hh [Hreach Ec Eh Er Et Ev] Ei Hm. destruct (vreach_vinv _ _ _ vs Hreach) as [Hvi _].
  pose proof (maj_weight _ _ _ vs b Hvi Hm) as Hw. rewrite Ev in Hw. rewrite (weight_infos _ vals _ Ei) in Hw.
  rewrite (power_infos _ _ Ei) in Hw. exists (voted_for vs b). split; [exact Hw|]. intros i Hi.
  unfold voted_for in Hi. destruct (votes vs !! i) as [[v|]|] eqn:E; try done. apply bool_decide_eq_true_1 in Hi.
  destruct (vi_votes _ _ _ _ Hvi i v E) as [_ (V1 & V2 & V3) V4 (val & Hval & _ & Hver)].
  rewrite Ev in Hval. rewrite Ec in Hver.
  assert (Hlt : (i < length vals)%nat).
  { rewrite <-(length_infos _ _ Ei). by eapply lookup_lt_Some. }
  apply lookup_lt_is_Some in Hlt as [val' Hval'].
  pose proof (infos_lookup _ _ _ _ _ Ei Hval Hval') as Einf.
  unfold Vote_Verify in Hver. destruct (PubKey val) as [k|] eqn:Ek; [|done]. case_decide; [done|].
  apply obind_Ok in Hver as (msg & Emsg & Hver). destruct (VerifySignature k msg _) eqn:Es; [|done].
  exists val', k, v. split_and!; try congruence.
  - apply (he_votes _ Hh). by eapply list_elem_of_lookup_2.
  - by exists msg.
Qed.
End crypto.
End held.

Lemma quorum_mono (P P' : Vote → Prop) V K vals chain h t r b :
  (∀ v, P v → P' v) → quorum P V K vals chain h t r b → quorum P' V K vals chain h t r b.
Proof.
  intros HP (Q & Hw & HQ). exists Q. split; [done|]. intros i Hi.
  destruct (HQ i Hi) as (val & k & v & H1 & H2 & H3 & H4). exists val, k, v. split_and!; [done|done|by apply HP|apply H4..].
Qed.
