(* ===== verification/TmConsInv.v ===== *)
(** The invariant of one node of the consensus state machine: where its votes, its lock and its
    commits come from.  Every handler keeps it and justifies what it sends ([step_ok]). *)

From S2P Require Import Prelude TmBits TmValidators TmPriority TmValUpdate TmTypes TmCommit TmVotes TmVoteInv TmVoteSafety.
From S2P Require Import TmMerkle TmPartSet TmPrivval TmHeightVotes TmBlock TmStore TmState TmConsensus TmConsVotes.

Definition vote_hash (v : Vote) : bytes := bid_Hash (v_BlockID v).

(** The votes among the effects of a node. *)
Definition sent_votes (l : list Output) : list Vote :=
  omap (λ o, match o with OMsg (VoteMessage v) => Some v | _ => None end) l.

Lemma sent_votes_app l1 l2 : sent_votes (l1 ++ l2) = sent_votes l1 ++ sent_votes l2.
Proof. unfold sent_votes. apply omap_app. Qed.

(** The step a node is in once it has sent a vote of a type. *)
Definition step_of (t : Z) : Z := if decide (t = PrevoteType) then RoundStepPrevote else RoundStepPrecommit.

(** The order in which a node votes at a height. *)
Definition vote_before (u v : Vote) : Prop :=
  v_Round u < v_Round v ∨ (v_Round u = v_Round v ∧ step_of (v_Type u) < step_of (v_Type v)).

Definition next_height (st : smState) : Z :=
  let next := i64 (sm_LastBlockHeight st + 1) in if decide (next = 1) then sm_InitialHeight st else next.

Definition later (s s' : CState) : Prop :=
  cs_Height s < cs_Height s' ∨ (cs_Height s' = cs_Height s ∧ cs_Round s ≤ cs_Round s').
#[export] Instance later_preorder : PreOrder later.
Proof. unfold later. split; [intros s; right; lia|intros s1 s2 s3; lia]. Qed.

(** ** Changes the invariant does not see *)
Record quiet (s s' : CState) : Prop := {
  qu_height : cs_Height s' = cs_Height s;
  qu_round : cs_Round s' = cs_Round s;
  qu_step : cs_Step s' = cs_Step s;
  qu_votes : cs_Votes s' = cs_Votes s;
  qu_lround : cs_LockedRound s' = cs_LockedRound s;
  qu_lblock : cs_LockedBlock s' = cs_LockedBlock s;
  qu_commit : cs_CommitRound s' = cs_CommitRound s;
  qu_state : cs_state s' = cs_state s;
  qu_out : cs_out s' = cs_out s;
}.

#[export] Instance quiet_preorder : PreOrder quiet.
Proof. split; [by intros s|]. intros s1 s2 s3 [] []. split; congruence. Qed.

Section local.
Context {CR : Crypto} {BC : BlockCodec} {HO : Host}.
(** The chain, its validators at each height, and what is known of the votes that arrive. *)
Context (chain : bytes) (vals_at : Z → list Validator) (P : Vote → Prop).

Definition q (h t r : Z) (b : BlockID) : Prop := quorum P VerifySignature MarshalVote (vals_at h) chain h t r b.

(** A set of the validators [l], with any priorities. *)
Definition valset_ok (l : list Validator) (vals : ValidatorSet) : Prop :=
  wf_vals vals ∧ Forall (λ v : Validator, PubKey v ≠ None) (Validators vals) ∧ infos (Validators vals) = infos l.

Record good_state (st : smState) : Prop := {
  gs_chain : sm_ChainID st = chain;
  gs_range : 0 ≤ sm_LastBlockHeight st < MaxInt64;
  gs_init : 0 < sm_InitialHeight st;
  gs_vals : ∀ vals, sm_Validators st = Some vals → valset_ok (vals_at (next_height st)) vals;
  gs_next : ∀ vals, sm_NextValidators st = Some vals → valset_ok (vals_at (next_height st + 1)) vals;
}.

(** A node is still locked on the block of a precommit it sent, or a later round had a polka for something else. *)
Definition lock_ok (s : CState) (v : Vote) : Prop :=
  (∃ b h, cs_LockedBlock s = Some b ∧ Block_Hash (Some b) = Ok h ∧ slice h = vote_hash v ∧ v_Round v ≤ cs_LockedRound s) ∨
  (∃ r Y, v_Round v < r ≤ cs_Round s ∧ q (cs_Height s) PrevoteType r Y ∧ bid_Hash Y ≠ vote_hash v).

Definition votes_ok (s : CState) (hv : HeightVoteSet) : Prop :=
  hvs_inv VerifySignature key_Address MarshalVote hv ∧ held_sets P hv ∧ hvs_chainID hv = chain ∧
  hvs_height hv = cs_Height s ∧ infos (Validators (hvs_valSet hv)) = infos (vals_at (cs_Height s)) ∧
  hvs_round hv ≤ cs_Round s + 1 ∧ hvs_round hv ≤ MaxInt32.

Definition vote_ok (s : CState) (v : Vote) : Prop :=
  (v_Type v = PrevoteType ∨ v_Type v = PrecommitType) ∧ v_Height v ≤ cs_Height s ∧
  (v_Height v = cs_Height s → v_Round v ≤ cs_Round s ∧ (v_Round v = cs_Round s → step_of (v_Type v) ≤ cs_Step s)).

Definition timeout_ok (s : CState) (ti : timeoutInfo) : Prop :=
  ti_Height ti < cs_Height s ∨ (ti_Height ti = cs_Height s ∧ ti_Round ti ≤ cs_Round s).

Record NI (s : CState) : Prop := {
  ni_votes : ∃ hv, cs_Votes s = Some hv ∧ votes_ok s hv;
  ni_height : 0 < cs_Height s;
  ni_round : 0 ≤ cs_Round s;
  ni_state : good_state (cs_state s);
  ni_timeouts : ∀ ti, OTimeout ti ∈ cs_out s → timeout_ok s ti;
  ni_sent : ∀ v, v ∈ sent_votes (cs_out s) → vote_ok s v;
  ni_lock : ∀ v, v ∈ sent_votes (cs_out s) → v_Type v = PrecommitType → v_Height v = cs_Height s → vote_hash v ≠ [] → lock_ok s v;
  ni_commit : cs_Step s = RoundStepCommit → 0 ≤ cs_CommitRound s;
}.

(** What justifies an effect, given the effects before it. *)
Definition just (before : list Output) (o : Output) : Prop :=
  match o with
  | OMsg (VoteMessage v) =>
      (∀ u, u ∈ sent_votes before → v_Height u = v_Height v → vote_before u v) ∧
      (v_Type v = PrecommitType → vote_hash v ≠ [] → q (v_Height v) PrevoteType (v_Round v) (v_BlockID v)) ∧
      (v_Type v = PrevoteType → ∀ u, u ∈ sent_votes before → v_Type u = PrecommitType → v_Height u = v_Height v →
         vote_hash u ≠ [] → vote_hash u ≠ vote_hash v →
         ∃ r Y, v_Round u < r ≤ v_Round v ∧ q (v_Height v) PrevoteType r Y ∧ bid_Hash Y ≠ vote_hash u)
  | OApply h id _ => ∃ r b, q h PrecommitType r b ∧ bid_Hash b = bid_Hash id ∧ bid_Hash b ≠ []
  | _ => True
  end.

Definition ext (s s' : CState) : Prop :=
  ∃ new, cs_out s' = cs_out s ++ new ∧ ∀ l1 o l2, new = l1 ++ o :: l2 → just (cs_out s ++ l1) o.


(** What a step of a node in a good state does. *)
Definition step_ok (s s' : CState) : Prop := NI s' ∧ later s s' ∧ ext s s'.

(** ** Composition *)
#[export] Instance ext_preorder : PreOrder ext.
Proof.
  split.
  - intros s. exists []. split; [by rewrite app_nil_r|]. intros [|x k] o l2 E; done.
  - intros s1 s2 s3 (n1 & E1 & J1) (n2 & E2 & J2). exists (n1 ++ n2). split; [by rewrite E2, E1, app_assoc|].
    intros l1 o l2 E. apply app_eq_inv in E as [(k & -> & E)|(k & -> & E)].
    + destruct k as [|x k]; cbn in E.
      * rewrite app_nil_r in E1. specialize (J2 [] o l2). rewrite app_nil_r, E1 in J2. by apply J2.
      * injection E as <- E. by apply (J1 l1 o k).
    + rewrite app_assoc, <-E1. by apply (J2 k o l2).
Qed.

Lemma step_ok_refl s : NI s → step_ok s s.
Proof. intros I. split_and!; [done|reflexivity..]. Qed.
Lemma step_ok_trans s1 s2 s3 : step_ok s1 s2 → step_ok s2 s3 → step_ok s1 s3.
Proof. intros (_ & L1 & E1) (I & L2 & E2). split_and!; [done|by etrans..]. Qed.

Lemma ext_out s s' : cs_out s' = cs_out s → ext s s'.
Proof. intros E. exists []. split; [by rewrite E, app_nil_r|]. intros [|x k] o l2 E'; done. Qed.

(** The invariant after the effects [new], with the locks given anew. *)
Lemma NI_intro s s' new :
  NI s → cs_Height s' = cs_Height s → cs_Round s' = cs_Round s → cs_Votes s' = cs_Votes s → cs_state s' = cs_state s →
  cs_out s' = cs_out s ++ new → cs_Step s ≤ cs_Step s' → (cs_Step s' = RoundStepCommit → 0 ≤ cs_CommitRound s') →
  (∀ ti, OTimeout ti ∈ new → timeout_ok s' ti) → (∀ v, v ∈ sent_votes new → vote_ok s' v) →
  (∀ v, v ∈ sent_votes (cs_out s') → v_Type v = PrecommitType → v_Height v = cs_Height s' → vote_hash v ≠ [] → lock_ok s' v) →
  NI s'.
Proof.
  intros [(hv & Hv & V1 & V2 & V3 & V4 & V5 & V6) I2 I3 I4 I5 I6 I7 I8] Eh Er Ev Es Eo Hst Hc Ht Hs Hl. split.
  - exists hv. split; [congruence|]. unfold votes_ok. by rewrite Eh, Er.
  - lia.
  - lia.
  - by rewrite Es.
  - intros ti. rewrite Eo. intros [H|H]%elem_of_app; [|by apply Ht]. unfold timeout_ok. rewrite Eh, Er. by apply I5.
  - intros v. rewrite Eo, sent_votes_app. intros [H|H]%elem_of_app; [|by apply Hs].
    destruct (I6 v H) as (T & H1 & H2). unfold vote_ok. rewrite Eh, Er. split_and!; [done|done|].
    intros E. destruct (H2 E) as [H3 H4]. split; [done|]. intros E'. specialize (H4 E'). lia.
  - done.
  - done.
Qed.

Lemma lock_ok_same s s' v : cs_Height s' = cs_Height s → cs_Round s ≤ cs_Round s' → cs_LockedBlock s' = cs_LockedBlock s →
  cs_LockedRound s' = cs_LockedRound s → lock_ok s v → lock_ok s' v.
Proof.
  intros Eh Er Eb El [H|(r & Y & H1 & H2)]; [left; by rewrite Eb, El|right]. exists r, Y. rewrite Eh. split; [lia|done].
Qed.

Lemma NI_quiet s s' : quiet s s' → NI s → NI s'.
Proof.
  intros [] I. apply (NI_intro s s' []); try done.
  - by rewrite qu_out0, app_nil_r.
  - lia.
  - intros E. rewrite qu_commit0. apply (ni_commit _ I). congruence.
  - by intros ti ?%elem_of_nil.
  - by intros v ?%elem_of_nil.
  - intros v Hv T Hh Hn. rewrite qu_out0 in Hv. apply (lock_ok_same s); [done|lia|done|done|]. apply (ni_lock _ I); congruence.
Qed.

Lemma quiet_ok s s' : quiet s s' → NI s → step_ok s s'.
Proof.
  intros Hq I. pose proof (NI_quiet s s' Hq I) as I'. destruct Hq. split_and!; [done|right; lia|by apply ext_out].
Qed.

Lemma quiet_run {A} (m : M CState A) s a s' : respects quiet m → NI s → m s = Ok (a, s') → step_ok s s'.
Proof. intros Hm I E. apply quiet_ok; [by eapply Hm|done]. Qed.

End local.

(** The invariant of a node when more is known of fewer votes. *)
Section mono.
Context {CR : Crypto} {BC : BlockCodec}.
Context (chain : bytes) (vals_at : Z → list Validator) (P P' : Vote → Prop) (HP : ∀ v, P v → P' v).

Lemma q_mono h t r b : q chain vals_at P h t r b → q chain vals_at P' h t r b.
Proof. by apply quorum_mono. Qed.

Lemma held_sets_mono hv : held_sets P hv → held_sets P' hv.
Proof. intros H r rvs E. destruct (H r rvs E) as [[A1 A2] [B1 B2]]. split; split; eauto. Qed.

Lemma NI_mono s : NI chain vals_at P s → NI chain vals_at P' s.
Proof.
  intros [(hv & Ev & V1 & V2 & V3) I2 I3 I4 I5 I6 I7 I8]. split; try done.
  - exists hv. split; [done|]. split_and!; [done|by apply held_sets_mono|apply V3..].
  - intros v Hv T Hh Hn. destruct (I7 v Hv T Hh Hn) as [L|(r & Y & H1 & H2 & H3)]; [by left|right].
    exists r, Y. split_and!; [apply H1..|by apply q_mono|done].
Qed.

Lemma just_mono before o : just chain vals_at P before o → just chain vals_at P' before o.
Proof.
  destruct o as [[| |v]| | |]; cbn; try done.
  - intros (J1 & J2 & J3). split_and!; [done| |].
    + intros T Hn. by apply q_mono, J2.
    + intros T u Hu H1 H2 H3 H4. destruct (J3 T u Hu H1 H2 H3 H4) as (r & Y & R1 & R2 & R3). exists r, Y. split_and!; [apply R1..|by apply q_mono|done].
  - intros (r & b & Q & H). exists r, b. split; [by apply q_mono|done].
Qed.
End mono.
