(* ===== verification/TmConsStep.v ===== *)
(** The handlers of the consensus state machine keep the invariant of [TmConsInv] and justify what
    they send. *)

From S2P Require Import Prelude TmBits TmValidators TmPriority TmValUpdate TmTypes TmCommit TmVotes TmVoteInv TmVoteSafety.
From S2P Require Import TmMerkle TmPartSet TmPrivval TmHeightVotes TmBlock TmStore TmState TmConsensus TmConsVotes TmConsInv.

(** Goes through a computation that changes nothing the invariant sees. *)
Ltac resp1 :=
  match goal with
  | |- ∀ _, _ => intros ?
  | |- respects ?R (bind _ _) => apply (respects_bind R)
  | |- respects ?R (ret _) => apply (respects_ret R)
  | |- respects ?R (gets _) => apply (respects_gets R)
  | |- respects ?R (lift _) => apply (respects_lift R)
  | |- respects ?R panic => apply (respects_panic R)
  | |- respects quiet (modify _) => apply respects_modify; intros ?; by split
  | |- respects _ (let (_, _) := ?x in _) => destruct x
  | |- respects _ (if ?x then _ else _) => destruct x
  | |- respects _ (match ?x with _ => _ end) => destruct x
  | |- respects _ _ => eauto with quiet
  end.
Ltac resp := repeat resp1.

(** A run of such a computation. *)
Ltac quietly E :=
  revert E; match goal with |- ?m ?s = _ → ?R ?s _ => enough (respects R m) as E by (apply E) end; resp.

Create HintDb quiet discriminated.

Section quiet_runs.
Context {CR : Crypto} {BC : BlockCodec} {HO : Host}.

Lemma quiet_tick : respects quiet tick. Proof. unfold tick. resp. Qed.
#[local] Hint Resolve quiet_tick : quiet.
Lemma quiet_Now : respects quiet Now. Proof. unfold Now. resp. Qed.
Lemma quiet_the_validators : respects quiet the_validators. Proof. unfold the_validators. resp. Qed.
Lemma quiet_the_votes : respects quiet the_votes. Proof. unfold the_votes. resp. Qed.
#[local] Hint Resolve quiet_Now quiet_the_validators quiet_the_votes : quiet.
Lemma quiet_csGetProposer : respects quiet csGetProposer. Proof. unfold csGetProposer. resp. Qed.
Lemma quiet_voteTime : respects quiet voteTime. Proof. unfold voteTime. resp. Qed.
#[local] Hint Resolve quiet_csGetProposer quiet_voteTime : quiet.
Lemma quiet_signVote t hash header : respects quiet (signVote t hash header). Proof. unfold signVote. resp. Qed.
Lemma quiet_isProposalComplete : respects quiet isProposalComplete. Proof. unfold isProposalComplete. resp. Qed.
Lemma quiet_createProposalBlock : respects quiet createProposalBlock. Proof. unfold createProposalBlock. resp. Qed.
Lemma quiet_needProofBlock h : respects quiet (needProofBlock h). Proof. unfold needProofBlock. resp. Qed.
Lemma quiet_defaultSetProposal p : respects quiet (defaultSetProposal p). Proof. unfold defaultSetProposal. resp. Qed.
Lemma quiet_addProposalBlockPart h r p : respects quiet (addProposalBlockPart h r p).
Proof. unfold addProposalBlockPart. resp. Qed.
Lemma quiet_publish : respects quiet publish. Proof. unfold publish. resp. Qed.
#[local] Hint Resolve quiet_publish : quiet.
Lemma quiet_polka_valid v b : respects quiet (polka_valid v b). Proof. unfold polka_valid. resp. Qed.
Lemma quiet_store {A} (m : M BlockStore A) : respects quiet (zoom cs_store set_store m).
Proof.
  intros s a s' E. unfold zoom in E. apply obind_Ok in E as ([? ?] & _ & E). injection E as _ <-. by split.
Qed.
#[local] Hint Resolve quiet_store : quiet.
Lemma quiet_pruneBlocks h : respects quiet (pruneBlocks h). Proof. unfold pruneBlocks. resp. Qed.
Lemma quiet_reconstructLastCommit st : respects quiet (reconstructLastCommit st).
Proof. unfold reconstructLastCommit. resp. Qed.
End quiet_runs.

#[export] Hint Resolve quiet_tick quiet_Now quiet_the_validators quiet_the_votes quiet_csGetProposer quiet_voteTime
  quiet_signVote quiet_isProposalComplete quiet_createProposalBlock quiet_needProofBlock quiet_defaultSetProposal
  quiet_addProposalBlockPart quiet_publish quiet_polka_valid @quiet_store quiet_pruneBlocks quiet_reconstructLastCommit : quiet.

(** ** Signing *)

(** What a vote is about. *)
Definition about (t h r : Z) (b : BlockID) (v : Vote) : Prop :=
  v_Type v = t ∧ v_Height v = h ∧ v_Round v = r ∧ v_BlockID v = b.

(** The same state, up to what was sent. *)
Definition sent (new : list Output) (s s' : CState) : Prop :=
  cs_out s' = cs_out s ++ new ∧ quiet s (set_out (cs_out s) s').

Section local.
Context {CR : Crypto} {BC : BlockCodec} {HO : Host}.
Context (chain : bytes) (vals_at : Z → list Validator) (P : Vote → Prop).
Local Abbreviation q := (q chain vals_at P).
Local Abbreviation NI := (NI chain vals_at P).
Local Abbreviation lock_ok := (lock_ok chain vals_at P).
Local Abbreviation votes_ok := (votes_ok chain vals_at P).
Local Abbreviation good_state := (good_state chain vals_at).
Local Abbreviation just := (just chain vals_at P).
Local Abbreviation ext := (ext chain vals_at P).
Local Abbreviation step_ok := (step_ok chain vals_at P).
Local Abbreviation NI_intro := (NI_intro chain vals_at P).
Local Abbreviation quiet_run := (quiet_run chain vals_at P).
Local Abbreviation step_ok_trans := (step_ok_trans chain vals_at P).

Lemma SignVote_about now c v pv v' e pv' :
  SignVote MarshalVote UnmarshalVote Sign now c v pv = Ok ((v', e), pv') →
  about (v_Type v) (v_Height v) (v_Round v) (v_BlockID v) v'.
Proof.
  unfold SignVote. intros E. apply bind_Ok in E as (step & s1 & [_ <-]%lift_Ok & E).
  apply bind_Ok in E as (lss & s1 & [-> <-]%gets_Ok & E). apply bind_Ok in E as (c0 & s1 & [_ <-]%lift_Ok & E).
  destruct c0 as [same|err]; [|apply ret_Ok in E as [[= <- <-] _]; done].
  apply bind_Ok in E as (b & s1 & [_ <-]%lift_Ok & E). destruct same.
  - case_decide; [apply ret_Ok in E as [[= <- <-] _]; done|].
    apply bind_Ok in E as (d & s1 & [_ <-]%lift_Ok & E). destruct d.2; apply ret_Ok in E as [[= <- <-] _]; done.
  - destruct (Sign b); [|apply ret_Ok in E as [[= <- <-] _]; done].
    apply bind_Ok in E as (? & s1 & _ & E). apply ret_Ok in E as [[= <- <-] _]; done.
Qed.

Lemma signVote_about t hash header s v s' : signVote t hash header s = Ok (Some v, s') →
  about t (cs_Height s) (cs_Round s) (mkBlockID hash header) v.
Proof.
  unfold signVote. intros E. apply bind_Ok in E as (n & s1 & Q1%quiet_tick & E).
  destruct (negb _); [by apply ret_Ok in E as [? _]|]. apply bind_Ok in E as (pk & s2 & [-> <-]%gets_Ok & E).
  destruct (cs_pubkey s1) as [pk|]; [|by apply ret_Ok in E as [? _]].
  apply bind_Ok in E as (vals & s2 & Q2%quiet_the_validators & E). apply bind_Ok in E as (s0 & s3 & [-> <-]%gets_Ok & E).
  apply bind_Ok in E as (t0 & s3 & _ & E). cbn [id] in E. destruct (cs_priv s2) as [pv|]; [|done].
  apply bind_Ok in E as (now & s4 & _ & E). apply bind_Ok in E as ([[v' e] pv'] & s5 & [Es <-]%lift_Ok & E).
  apply bind_Ok in E as (? & s6 & _ & E). cbn [fst] in E. destruct e; apply ret_Ok in E as [E _]; simplify_eq.
  apply SignVote_about in Es. cbn in Es. destruct Q1, Q2. unfold about in *. naive_solver congruence.
Qed.

Lemma sent_nil s s' : quiet s s' → sent [] s s'.
Proof. intros []. split; [by rewrite app_nil_r|]. by split. Qed.

Lemma signAddVote_sent t hash header s u s' : signAddVote t hash header s = Ok (u, s') →
  sent [] s s' ∨ ∃ v, about t (cs_Height s) (cs_Round s) (mkBlockID hash header) v ∧ sent [OMsg (VoteMessage v)] s s'.
Proof.
  unfold signAddVote. intros E. apply bind_Ok in E as (s0 & s1 & [-> <-]%gets_Ok & E). cbn [id] in E.
  destruct (cs_priv s); [|apply ret_Ok in E as [_ <-]; left; by apply sent_nil].
  destruct (cs_pubkey s) as [pk|]; [|apply ret_Ok in E as [_ <-]; left; by apply sent_nil].
  apply bind_Ok in E as (vals & s1 & Q1%quiet_the_validators & E).
  destruct (HasAddress _ _); [|apply ret_Ok in E as [_ <-]; left; by apply sent_nil].
  apply bind_Ok in E as (v & s2 & E2 & E). pose proof (quiet_signVote _ _ _ _ _ _ E2) as Q2.
  assert (quiet s s2) as Q by (by etrans).
  destruct v as [v|]; [|apply ret_Ok in E as [_ <-]; left; by apply sent_nil]. right. exists v. split.
  - apply signVote_about in E2. destruct Q1. unfold about in *. naive_solver congruence.
  - apply modify_Ok in E as ->. destruct Q. split; cbn; [by rewrite qu_out|]. by split.
Qed.

(** ** Casting a vote *)

(** A change of the lock only. *)
Record core (s s' : CState) : Prop := {
  co_height : cs_Height s' = cs_Height s; co_round : cs_Round s' = cs_Round s; co_step : cs_Step s' = cs_Step s;
  co_votes : cs_Votes s' = cs_Votes s; co_commit : cs_CommitRound s' = cs_CommitRound s;
  co_state : cs_state s' = cs_state s; co_out : cs_out s' = cs_out s;
}.

Lemma quiet_core s1 s2 s3 : core s1 s2 → quiet s2 s3 → core s1 s3.
Proof. intros [] []. split; congruence. Qed.
Lemma core_refl s : core s s.
Proof. by split. Qed.

Lemma quiet_vote_fields s1 s2 : quiet s1 s2 → cs_LockedBlock s2 = cs_LockedBlock s1 ∧ cs_LockedRound s2 = cs_LockedRound s1.
Proof. by intros []. Qed.

(** The precommits for a block a node sent at its height. *)
Definition locking (s : CState) (u : Vote) : Prop :=
  u ∈ sent_votes (cs_out s) ∧ v_Type u = PrecommitType ∧ v_Height u = cs_Height s ∧ vote_hash u ≠ [].

(** A polka, at a round up to the current one, that releases a node from [u]. *)
Definition released (s : CState) (u : Vote) : Prop :=
  ∃ r Y, v_Round u < r ≤ cs_Round s ∧ q (cs_Height s) PrevoteType r Y ∧ bid_Hash Y ≠ vote_hash u.

Definition locked_on (s : CState) (hash : bytes) (r : Z) : Prop :=
  ∃ b h, cs_LockedBlock s = Some b ∧ Block_Hash (Some b) = Ok h ∧ slice h = hash ∧ r ≤ cs_LockedRound s.

Lemma locked_on_same s s' hash r : cs_LockedBlock s' = cs_LockedBlock s → cs_LockedRound s' = cs_LockedRound s →
  locked_on s hash r → locked_on s' hash r.
Proof. unfold locked_on. by intros -> ->. Qed.
Lemma released_same s s' u : cs_Height s' = cs_Height s → cs_Round s ≤ cs_Round s' → released s u → released s' u.
Proof. unfold released. intros -> Hr (r & Y & H & H'). exists r, Y. split; [lia|done]. Qed.
Lemma lock_ok_intro s v : locked_on s (vote_hash v) (v_Round v) ∨ released s v → lock_ok s v.
Proof. exact id. Qed.

Lemma vote_step t b s s1 u s2 :
  NI s → core s s1 → signAddVote t (bid_Hash b) (bid_PartSetHeader b) s1 = Ok (u, s2) →
  t = PrevoteType ∨ t = PrecommitType → cs_Step s < step_of t →
  (∀ u, locking s u → locked_on s1 (vote_hash u) (v_Round u) ∨ released s u) →
  (t = PrecommitType → bid_Hash b ≠ [] → q (cs_Height s) PrevoteType (cs_Round s) b ∧ locked_on s1 (bid_Hash b) (cs_Round s)) →
  (t = PrevoteType → ∀ u, locking s u → vote_hash u ≠ bid_Hash b → released s u) →
  step_ok s (set_RoundStep (cs_Round s) (step_of t) s2).
Proof.
  intros I [Ch Cr Cs Cv Cc Ct Co] E Ht Hst Hlock Hpc Hpv. apply signAddVote_sent in E.
  set (s' := set_RoundStep _ _ _).
  assert (∃ new, (new = [] ∨ ∃ v, about t (cs_Height s1) (cs_Round s1) b v ∧ new = [OMsg (VoteMessage v)]) ∧ sent new s1 s2)
    as (new & Hnew & Eo & []).
  { destruct E as [E|(v & A & E)]; [exists []; eauto|exists [OMsg (VoteMessage v)]]. split; [|done]. right. exists v. by destruct b. }
  cbn in *. rewrite ?Ch, ?Cr, ?Cs, ?Cv, ?Cc, ?Ct, ?Co in *.
  assert (Hold : ∀ w, w ∈ sent_votes (cs_out s) → v_Height w = cs_Height s →
    v_Round w < cs_Round s ∨ (v_Round w = cs_Round s ∧ step_of (v_Type w) < step_of t)).
  { intros w Hw Hwh. destruct (ni_sent _ _ _ _ I w Hw) as (_ & _ & Hr). destruct (Hr Hwh) as [Hr1 Hr2]. lia. }
  assert (Hone : ∀ w, w ∈ sent_votes new → about t (cs_Height s) (cs_Round s) b w).
  { destruct Hnew as [->|(v & Hv & ->)]; cbn; [by intros w ?%elem_of_nil|]. by intros w ->%list_elem_of_singleton. }
  split_and!.
  - apply (NI_intro s s' new); try done; cbn.
    + lia.
    + intros Ec. destruct Ht as [-> | ->]; done.
    + destruct Hnew as [->|(v & Hv & ->)]; [by intros ti ?%elem_of_nil|by intros ti ?%list_elem_of_singleton].
    + intros v Hv. destruct (Hone v Hv) as (<- & A2 & A3 & A4). split_and!; [done|cbn; lia|]. intros _. cbn. split; lia.
    + intros v Hv T Hh Hn. rewrite Eo, sent_votes_app in Hv. apply elem_of_app in Hv as [Hv|Hv].
      * apply lock_ok_intro. destruct (Hlock v) as [L|L].
        { cbn in Hh. split_and!; congruence || done. }
        -- left. by apply (locked_on_same s1).
        -- right. apply (released_same s); [done|unfold s'; cbn; lia|done].
      * destruct (Hone v Hv) as (A1 & A2 & A3 & A4). unfold vote_hash in Hn. rewrite A4 in Hn.
        destruct (Hpc ltac:(congruence) Hn) as [_ L]. apply lock_ok_intro. left. unfold vote_hash. rewrite A3, A4.
        by apply (locked_on_same s1).
  - right. cbn. lia.
  - exists new. split; [done|]. intros l1 o l2 El. destruct Hnew as [->|(v & (A1 & A2 & A3 & A4) & ->)]; [by destruct l1|].
    destruct l1 as [|x l1]; [|by destruct l1]. injection El as <- <-. rewrite app_nil_r. cbn. unfold vote_hash. rewrite A1, A2, A3, A4.
    split_and!.
    + intros w Hw H1. unfold vote_before. rewrite A1, A3. by apply Hold.
    + intros T Hn. by apply Hpc.
    + intros T w Hw H1 H2 H3 H4. by apply Hpv.
Qed.

Lemma majority_maj vs b : TwoThirdsMajority vs = (b, true) → ∃ v, vs = Some v ∧ maj23 v = Some b.
Proof. unfold TwoThirdsMajority. destruct vs as [vs|]; [|done]. destruct (maj23 vs) eqn:E; [|done]. intros [= ->]. by eexists. Qed.

Lemma len_nil (l : bytes) : len l = 0 → l = [].
Proof. destruct l; [done|]. unfold len. cbn. lia. Qed.

(** A majority a node sees is a quorum. *)
Lemma polka_q s hv r b : NI s → cs_Votes s = Some hv → TwoThirdsMajority (Prevotes r hv) = (b, true) →
  q (cs_Height s) PrevoteType r b.
Proof.
  intros I Ev (vs & E & M)%majority_maj. destruct (ni_votes _ _ _ _ I) as (hv' & Ev' & V1 & V2 & V3 & V4 & V5 & _).
  rewrite Ev in Ev'. injection Ev' as <-. unfold Prevotes in E. apply fmap_Some in E as (rvs & El & ->).
  destruct (V2 r rvs El) as [Hh _]. destruct (hi_sets _ _ _ _ (hi_core _ _ _ _ V1) r rvs El) as [So _].
  unfold TmConsInv.q. rewrite <-V3, <-V4. eapply majority_quorum; [exact Hh|exact So| |exact M]. by rewrite V5, V4.
Qed.

Lemma precommits_q s hv r b : NI s → cs_Votes s = Some hv → TwoThirdsMajority (Precommits r hv) = (b, true) →
  q (cs_Height s) PrecommitType r b.
Proof.
  intros I Ev (vs & E & M)%majority_maj. destruct (ni_votes _ _ _ _ I) as (hv' & Ev' & V1 & V2 & V3 & V4 & V5 & _).
  rewrite Ev in Ev'. injection Ev' as <-. unfold Precommits in E. apply fmap_Some in E as (rvs & El & ->).
  destruct (V2 r rvs El) as [_ Hh]. destruct (hi_sets _ _ _ _ (hi_core _ _ _ _ V1) r rvs El) as [_ So].
  unfold TmConsInv.q. rewrite <-V3, <-V4. eapply majority_quorum; [exact Hh|exact So| |exact M]. by rewrite V5, V4.
Qed.

Lemma HashesTo_true b hash : HashesTo b hash = Ok true →
  ∃ blk h, b = Some blk ∧ Block_Hash (Some blk) = Ok h ∧ slice h = hash ∧ hash ≠ [].
Proof.
  unfold HashesTo. case_decide as Hl; [done|]. destruct b as [blk|]; [|done]. intros (h & E & B)%obind_Ok.
  injection B as B%bool_decide_eq_true. exists blk, h. split_and!; [done..|]. by intros ->.
Qed.

Lemma HashesTo_false b hash hash' : HashesTo b hash = Ok false → hash' ≠ [] →
  (∃ blk h, b = Some blk ∧ Block_Hash (Some blk) = Ok h ∧ slice h = hash') → hash ≠ hash'.
Proof.
  unfold HashesTo. case_decide as Hl; [intros _ Hn _ <-; by destruct hash|]. intros E Hn (blk & h & -> & Eb & Eh) ->.
  rewrite Eb in E. cbn in E. injection E as E%bool_decide_eq_false. done.
Qed.

(** ** Prevotes and precommits *)
Lemma locking_ok s u : NI s → locking s u → locked_on s (vote_hash u) (v_Round u) ∨ released s u.
Proof. intros I (H1 & H2 & H3 & H4). exact (ni_lock _ _ _ _ I u H1 H2 H3 H4). Qed.

Lemma quiet_locking s s1 u : quiet s s1 → NI s → locking s u → locked_on s1 (vote_hash u) (v_Round u) ∨ released s u.
Proof.
  intros Hq I Hu. destruct (locking_ok s u I Hu) as [L|L]; [left|by right]. by apply (locked_on_same s); [apply Hq|apply Hq|].
Qed.

(** The votes of the node, prevotes for its lock if it has one. *)
Lemma prevote_step s s1 hash header u s2 : NI s → quiet s s1 → cs_Step s < RoundStepPrevote →
  signAddVote PrevoteType hash header s1 = Ok (u, s2) →
  (∀ blk h, cs_LockedBlock s = Some blk → Block_Hash (Some blk) = Ok h → slice h = hash) →
  step_ok s (set_RoundStep (cs_Round s) RoundStepPrevote s2).
Proof.
  intros I Hq Hst E Hl. apply (vote_step PrevoteType (mkBlockID hash header) s s1 u s2); try done.
  - apply (quiet_core s s); [apply core_refl|done].
  - by left.
  - intros w Hw. by apply quiet_locking.
  - intros _ w Hw Hne. cbn in Hne. destruct (locking_ok s w I Hw) as [(blk & h & L1 & L2 & L3 & _)|L]; [|done].
    destruct Hne. rewrite <-L3. by eapply Hl.
Qed.

Lemma enterPrevote_step height round s u s' : NI s → (cs_Height s = height → round ≤ cs_Round s) →
  enterPrevote height round s = Ok (u, s') → step_ok s s'.
Proof.
  intros I Hr E. unfold enterPrevote in E. apply bind_Ok in E as (s0 & s1 & [-> <-]%gets_Ok & E). cbn [id] in E.
  case_decide as Hg; [apply ret_Ok in E as [_ <-]; by apply step_ok_refl|].
  assert (round = cs_Round s ∧ cs_Step s < RoundStepPrevote) as [-> Hst] by lia. clear Hg Hr.
  apply bind_Ok in E as ([] & s1 & E & ->%modify_Ok). unfold defaultDoPrevote in E.
  apply bind_Ok in E as (s0 & s2 & [-> <-]%gets_Ok & E). cbn [id] in E.
  destruct (cs_LockedBlock s) as [lb|] eqn:El.
  { apply bind_Ok in E as (h & s2 & [Eh <-]%lift_Ok & E). eapply prevote_step in E; [exact E|done|done|done|].
    intros blk h' [= <-] Eh'. congruence. }
  destruct (cs_ProposalBlock s) as [pb|] eqn:Ep; [|eapply prevote_step in E; [exact E|done|done|done|congruence]].
  apply bind_Ok in E as (n & s2 & Q1%quiet_tick & E). apply bind_Ok in E as (valid & s3 & [_ <-]%lift_Ok & E).
  destruct valid; cbn [negb] in E.
  - apply bind_Ok in E as (h & s3 & [_ <-]%lift_Ok & E). eapply prevote_step in E; [exact E|done|done|done|congruence].
  - eapply prevote_step in E; [exact E|done|done|done|congruence].
Qed.

(** A precommit for nil after the lock was released by a polka of this round, or was kept. *)
Lemma precommit_nil_step s s1 u s2 : NI s → core s s1 → cs_Step s < RoundStepPrecommit →
  signAddVote PrecommitType [] nil_header s1 = Ok (u, s2) →
  (∀ w, locking s w → locked_on s1 (vote_hash w) (v_Round w) ∨ released s w) →
  step_ok s (set_RoundStep (cs_Round s) RoundStepPrecommit s2).
Proof.
  intros I Hc Hst E Hl. apply (vote_step PrecommitType (mkBlockID [] nil_header) s s1 u s2); try done. by right.
Qed.

(** A precommit of an earlier round than the current one. *)
Lemma locking_earlier s w : NI s → locking s w → cs_Step s < RoundStepPrecommit → v_Round w < cs_Round s.
Proof.
  intros I (H1 & H2 & H3 & _) Hst. destruct (ni_sent _ _ _ _ I w H1) as (_ & _ & Hr). destruct (Hr H3) as [Hr1 Hr2].
  destruct (decide (v_Round w = cs_Round s)) as [E|E]; [|lia]. specialize (Hr2 E). rewrite H2 in Hr2.
  change (step_of PrecommitType) with RoundStepPrecommit in Hr2. lia.
Qed.

Lemma released_now s w b : NI s → locking s w → cs_Step s < RoundStepPrecommit →
  q (cs_Height s) PrevoteType (cs_Round s) b → bid_Hash b ≠ vote_hash w → released s w.
Proof.
  intros I Hw Hst Hb Hne. exists (cs_Round s), b. split_and!; [|lia|done|done].
  by apply locking_earlier.
Qed.

(** A precommit for the block of this round's polka, locked. *)
Lemma precommit_block_step s s1 b u s2 : NI s → core s s1 → cs_Step s < RoundStepPrecommit →
  signAddVote PrecommitType (bid_Hash b) (bid_PartSetHeader b) s1 = Ok (u, s2) →
  q (cs_Height s) PrevoteType (cs_Round s) b → locked_on s1 (bid_Hash b) (cs_Round s) →
  step_ok s (set_RoundStep (cs_Round s) RoundStepPrecommit s2).
Proof.
  intros I Hc Hst E Hb Hl. apply (vote_step PrecommitType b s s1 u s2); try done; [by right|].
  intros w Hw. destruct (decide (bid_Hash b = vote_hash w)) as [Eh|Hne]; [left|right; by eapply released_now].
  rewrite <-Eh. destruct Hl as (blk & h & L1 & L2 & L3 & L4). exists blk, h. split_and!; [done..|].
  pose proof (locking_earlier s w I Hw Hst). lia.
Qed.

Lemma the_votes_Ok s hv s' : the_votes s = Ok (hv, s') → cs_Votes s = Some hv ∧ s' = s.
Proof.
  unfold the_votes. intros E. apply bind_Ok in E as (v & s1 & [-> <-]%gets_Ok & E).
  destruct (cs_Votes s); [|done]. apply ret_Ok in E as [-> <-]. done.
Qed.

Lemma enterPrecommit_step height round s u s' : NI s → (cs_Height s = height → round ≤ cs_Round s) →
  enterPrecommit height round s = Ok (u, s') → step_ok s s'.
Proof.
  intros I Hr E. unfold enterPrecommit in E. apply bind_Ok in E as (s0 & s1 & [-> <-]%gets_Ok & E). cbn [id] in E.
  case_decide as Hg; [apply ret_Ok in E as [_ <-]; by apply step_ok_refl|].
  assert (round = cs_Round s ∧ cs_Step s < RoundStepPrecommit) as [-> Hst] by lia. clear Hg Hr.
  apply bind_Ok in E as ([] & s1 & E & ->%modify_Ok). unfold doPrecommit in E.
  apply bind_Ok in E as (hv & s2 & [Ev ->]%the_votes_Ok & E).
  destruct (TwoThirdsMajority (Prevotes (cs_Round s) hv)) as [b ok] eqn:Em.
  destruct ok; cbn [negb] in E.
  2: { eapply precommit_nil_step in E; [exact E|done|apply core_refl|done|]. intros w Hw. by apply locking_ok. }
  pose proof (polka_q s hv _ b I Ev Em) as Hq. case_decide; [done|]. case_decide as Hb.
  { apply bind_Ok in E as (s0 & s2 & [-> <-]%gets_Ok & E). apply bind_Ok in E as ([] & s2 & E1 & E).
    eapply precommit_nil_step in E; [exact E|done| |done|].
    - cbn [id] in E1. destruct (cs_LockedBlock s); [apply modify_Ok in E1 as ->|apply ret_Ok in E1 as [_ <-]]; by split.
    - intros w Hw. right. eapply released_now; [done..|]. destruct Hw as (_ & _ & _ & Hn). rewrite (len_nil _ Hb). congruence. }
  apply bind_Ok in E as (s0 & s2 & [-> <-]%gets_Ok & E). cbn [id] in E.
  apply bind_Ok in E as (locked & s2 & [El <-]%lift_Ok & E). destruct locked.
  { apply bind_Ok in E as ([] & s2 & ->%modify_Ok & E). apply HashesTo_true in El as (blk & h & L1 & L2 & L3 & _).
    eapply precommit_block_step in E; [exact E|done|by split|done|done|]. exists blk, h. split_and!; [done..|cbn; lia]. }
  apply bind_Ok in E as (prop & s2 & [Ep <-]%lift_Ok & E). destruct prop.
  { apply bind_Ok in E as (n & s2 & Q1%quiet_tick & E). apply bind_Ok in E as (valid & s3 & [_ <-]%lift_Ok & E).
    destruct valid; cbn [negb] in E; [|done]. apply bind_Ok in E as ([] & s3 & ->%modify_Ok & E).
    apply HashesTo_true in Ep as (blk & h & L1 & L2 & L3 & _).
    eapply precommit_block_step in E; [exact E|done|destruct Q1; by split|done|done|].
    exists blk, h. split_and!; [done..|cbn; lia]. }
  apply bind_Ok in E as ([] & s2 & ->%modify_Ok & E). apply bind_Ok in E as ([] & s2 & E1 & E).
  eapply precommit_nil_step in E; [exact E|done| |done|].
  - destruct (negb _); [|apply ret_Ok in E1 as [_ <-]; by split].
    apply bind_Ok in E1 as ([] & s3 & ->%modify_Ok & ->%modify_Ok). by split.
  - intros w Hw. destruct (locking_ok s w I Hw) as [(blk & h & L1 & L2 & L3 & _)|L]; [right|by right].
    eapply released_now; [done..|]. eapply HashesTo_false; [exact El|apply Hw|]. by exists blk, h.
Qed.

(** ** Steps without votes *)
(** A change of round or step that sends nothing; the round vote sets may be extended. *)
Lemma round_step s s' hv' : NI s →
  cs_Height s' = cs_Height s → (cs_Round s < cs_Round s' ∨ cs_Round s' = cs_Round s ∧ cs_Step s ≤ cs_Step s') →
  cs_Votes s' = Some hv' → votes_ok s' hv' → cs_state s' = cs_state s → cs_out s' = cs_out s →
  cs_LockedBlock s' = cs_LockedBlock s → cs_LockedRound s' = cs_LockedRound s →
  (cs_Step s' = RoundStepCommit → 0 ≤ cs_CommitRound s') → step_ok s s'.
Proof.
  intros I Eh Er Ev Vo Es Eo Lb Lr Hc. split_and!; [|right; lia|by apply ext_out]. destruct I as [I1 I2 I3 I4 I5 I6 I7 I8]. split.
  - by exists hv'.
  - lia.
  - lia.
  - by rewrite Es.
  - intros ti. rewrite Eo. intros Hti%I5. unfold timeout_ok in *. lia.
  - intros v. rewrite Eo. intros Hv. destruct (I6 v Hv) as (T & H1 & H2). split_and!; [done|lia|]. intros Ev'. rewrite Eh in Ev'.
    destruct (H2 Ev') as [H3 H4]. split; [lia|]. intros E'. destruct Er as [Er|[Er Est]]; [lia|].
    specialize (H4 ltac:(lia)). lia.
  - intros v. rewrite Eo, Eh. intros Hv T Hh Hn. eapply lock_ok_same; [done| |done|done|by apply I7]. lia.
  - done.
Qed.

(** *** Effects that are no votes *)
Definition harmless (s : CState) (o : Output) : Prop :=
  match o with
  | OMsg (VoteMessage _) => False
  | OTimeout ti => timeout_ok s ti
  | OApply h id _ => ∃ r b, q h PrecommitType r b ∧ bid_Hash b = bid_Hash id ∧ bid_Hash b ≠ []
  | _ => True
  end.

Definition noisy (s s' : CState) : Prop := ∃ new, sent new s s' ∧ Forall (harmless s) new.

Lemma harmless_same s s' o : cs_Height s' = cs_Height s → cs_Round s' = cs_Round s → harmless s' o → harmless s o.
Proof. unfold harmless, timeout_ok. by intros -> ->. Qed.

#[local] Instance noisy_preorder : PreOrder noisy.
Proof.
  split.
  - intros s. exists []. split; [by apply sent_nil|constructor].
  - intros s1 s2 s3 (n1 & [O1 []] & F1) (n2 & [O2 []] & F2). cbn in *. exists (n1 ++ n2). split; [split|].
    + by rewrite O2, O1, app_assoc.
    + split; cbn; congruence.
    + apply Forall_app. split; [done|]. eapply Forall_impl; [exact F2|]. intros o. by apply harmless_same.
Qed.

Lemma quiet_noisy {A} (m : M CState A) : respects quiet m → respects noisy m.
Proof. intros Hm s a s' E. exists []. split; [apply sent_nil; by eapply Hm|constructor]. Qed.

Lemma emit_noisy o s u s' : harmless s o → emit o s = Ok (u, s') → noisy s s'.
Proof.
  intros Ho ->%modify_Ok. exists [o]. split; [split|by constructor]; [done|by split].
Qed.

Lemma noisy_ok s s' : NI s → noisy s s' → step_ok s s'.
Proof.
  intros I (new & [Eo []] & F). cbn in *.
  assert (Hv : sent_votes new = []).
  { clear -F. induction F as [|o new Ho _ IH]; [done|]. unfold sent_votes in *. cbn. destruct o as [[]| | |]; done. }
  split_and!.
  - apply (NI_intro s s' new); try done.
    + lia.
    + rewrite qu_step, qu_commit. apply (ni_commit _ _ _ _ I).
    + intros ti Hti. rewrite Forall_forall in F. specialize (F _ Hti). cbn in F. unfold timeout_ok in *. by rewrite qu_height, qu_round.
    + rewrite Hv. by intros v ?%elem_of_nil.
    + rewrite Eo, sent_votes_app, Hv, app_nil_r, qu_height. intros v Hs T Hh Hn.
      eapply lock_ok_same; [done|lia|done|done|by apply (ni_lock _ _ _ _ I)].
  - right. lia.
  - exists new. split; [done|]. intros l1 o l2 ->. apply Forall_app in F as [_ F]. apply Forall_cons_1 in F as [Ho _].
    destruct o as [[]| | |]; done.
Qed.

Lemma send_parts_noisy n : ∀ i ps, respects noisy (send_parts n i ps).
Proof.
  induction n as [|n IH]; intros i ps; cbn [send_parts]; [apply (respects_ret noisy)|].
  apply (respects_bind noisy); [apply quiet_noisy; resp|]. intros part. apply (respects_bind noisy); [apply quiet_noisy; resp|].
  intros s0. apply (respects_bind noisy); [|intros; apply IH]. intros s u s'. by apply emit_noisy.
Qed.

Lemma defaultDecideProposal_noisy height round : respects noisy (defaultDecideProposal height round).
Proof.
  unfold defaultDecideProposal. apply (respects_bind noisy); [apply quiet_noisy; resp|]. intros s0.
  apply (respects_bind noisy); [apply quiet_noisy; resp|]. intros [[block parts]|]; [|apply (respects_ret noisy)].
  do 3 (apply (respects_bind noisy); [apply quiet_noisy; resp|]; intros ?). case_match; [|apply (respects_panic noisy)].
  do 3 (apply (respects_bind noisy); [apply quiet_noisy; resp|]; intros ?). case_match. case_match; [apply (respects_ret noisy)|].
  apply (respects_bind noisy); [|intros; apply send_parts_noisy]. intros s u s'. by apply emit_noisy.
Qed.

(** ** Proposing and new rounds *)
Lemma votes_ok_same s s' hv : cs_Height s' = cs_Height s → cs_Round s ≤ cs_Round s' → votes_ok s hv → votes_ok s' hv.
Proof. unfold TmConsInv.votes_ok. intros -> Hr (V1 & V2 & V3 & V4 & V5 & V6 & V7). split_and!; try done. lia. Qed.

(** An advance of the step in the current round. *)
Lemma advance_step s st : NI s → cs_Step s ≤ st → st ≠ RoundStepCommit → step_ok s (set_RoundStep (cs_Round s) st s).
Proof.
  intros I Hst Hne. destruct (ni_votes _ _ _ _ I) as (hv & Ev & Vo). apply (round_step s _ hv); try done.
  - right. done.
Qed.

Lemma enterPropose_step height round s u s' : NI s → (cs_Height s = height → round ≤ cs_Round s) →
  enterPropose height round s = Ok (u, s') → step_ok s s'.
Proof.
  intros I Hr E. unfold enterPropose in E. apply bind_Ok in E as (s0 & s1 & [-> <-]%gets_Ok & E). cbn [id] in E.
  case_decide as Hg; [apply ret_Ok in E as [_ <-]; by apply step_ok_refl|].
  assert (round = cs_Round s ∧ cs_Step s < RoundStepPropose ∧ height = cs_Height s) as (-> & Hst & ->) by lia. clear Hg Hr.
  apply bind_Ok in E as ([] & s1 & E1 & E). apply bind_Ok in E as ([] & s2 & E2 & E).
  assert (noisy s s1) as N1 by (eapply emit_noisy; [|exact E1]; right; done).
  assert (noisy s1 s2) as N2.
  { revert E2. generalize (cs_priv s) (cs_pubkey s). intros pv pk E2. revert E2.
    match goal with |- ?m s1 = _ → _ => enough (respects noisy m) as Hm by (apply Hm) end.
    destruct pv; [|apply (respects_ret noisy)]. destruct pk; [|apply (respects_ret noisy)].
    apply (respects_bind noisy); [apply quiet_noisy; resp|]. intros vals. destruct (HasAddress _ _); [|apply (respects_ret noisy)].
    apply (respects_bind noisy); [apply quiet_noisy; resp|]. intros p. case_decide; [|apply (respects_ret noisy)].
    apply defaultDecideProposal_noisy. }
  assert (noisy s s2) as N by (by etrans). pose proof (noisy_ok s s2 I N) as S2.
  assert (cs_Round s2 = cs_Round s ∧ cs_Step s2 = cs_Step s) as [Er Es] by (destruct N as (new & [_ []] & _); done).
  apply bind_Ok in E as ([] & s3 & ->%modify_Ok & E). rewrite <-Er in E.
  assert (S3 : step_ok s2 (set_RoundStep (cs_Round s2) RoundStepPropose s2)) by (apply advance_step; [apply S2|lia|done]).
  apply bind_Ok in E as (c & s4 & Q4%quiet_isProposalComplete & E).
  pose proof (quiet_ok chain vals_at P _ _ Q4 ltac:(apply S3)) as S4.
  eapply step_ok_trans; [exact S2|]. eapply step_ok_trans; [exact S3|]. eapply step_ok_trans; [exact S4|].
  destruct c; [|apply ret_Ok in E as [_ <-]; apply step_ok_refl, S4].
  apply bind_Ok in E as (r & s5 & [-> <-]%gets_Ok & E). eapply enterPrevote_step; [apply S4| |exact E]. done.
Qed.

Lemma SafeAddInt32_1 a c : SafeAddInt32 a 1 = Ok c → c = a + 1 ∧ c ≤ MaxInt32.
Proof. unfold SafeAddInt32. repeat case_decide; intros [= <-]; lia. Qed.

Lemma SetRound_votes_ok s s' hv r u hv' : votes_ok s hv → cs_Height s' = cs_Height s → hvs_round hv ≤ r → r ≤ MaxInt32 →
  r ≤ cs_Round s' + 1 → SetRound r hv = Ok (u, hv') → votes_ok s' hv'.
Proof.
  intros (V1 & V2 & V3 & V4 & V5 & V6 & V7) Eh Hr Hm Hr' E. pose proof (SetRound_held P r hv u hv' V2 E) as V2'.
  destruct (decide (r = MaxInt32)) as [->|Hne]; [by rewrite (SetRound_max _ _ _ hv V1 V7) in E|].
  destruct (SetRound_step _ _ _ hv r V1 ltac:(lia) Hne V7) as (hv2 & E2 & _ & [(F1 & F2 & F3) _] & R & I'). rewrite E2 in E. injection E as _ <-.
  unfold TmConsInv.votes_ok. rewrite F1, F2, F3, Eh, R. split_and!; try done. by apply I'.
Qed.

Lemma enterNewRound_step height round s u s' : NI s → enterNewRound height round s = Ok (u, s') →
  step_ok s s' ∧ (cs_Height s' = height → round ≤ cs_Round s').
Proof.
  intros I E. unfold enterNewRound in E. apply bind_Ok in E as (s0 & s1 & [-> <-]%gets_Ok & E). cbn [id] in E.
  case_decide as Hg; [apply ret_Ok in E as [_ <-]; split; [by apply step_ok_refl|lia]|].
  assert (cs_Height s = height ∧ (cs_Round s < round ∨ round = cs_Round s ∧ cs_Step s = RoundStepNewHeight)) as [Hh Hr] by lia. clear Hg.
  destruct (ni_votes _ _ _ _ I) as (hv & Ev & Vo).
  apply bind_Ok in E as (vals & s1 & Q1%quiet_the_validators & E). apply bind_Ok in E as (vals' & s2 & E2 & E).
  assert (Q2 : quiet s s2).
  { etrans; [exact Q1|]. quietly E2. }
  apply bind_Ok in E as ([] & s3 & ->%modify_Ok & E). apply bind_Ok in E as ([] & s3 & ->%modify_Ok & E).
  apply bind_Ok in E as (p & s3 & Q3%quiet_csGetProposer & E). apply bind_Ok in E as ([] & s4 & E4 & E).
  assert (Q4 : quiet s3 s4).
  { quietly E4. }
  apply bind_Ok in E as ([] & s5 & E5 & E).
  assert (Q5 : quiet s4 s5).
  { quietly E5. }
  apply bind_Ok in E as (next & s6 & [[-> Hn]%SafeAddInt32_1 <-]%lift_Ok & E).
  assert (Q : quiet (set_csValidators (Some vals') (set_RoundStep round RoundStepNewRound s2)) s5) by (by etrans; [|etrans]).
  clear Q1 Q3 Q4 Q5 E2 E4 E5. destruct Q, Q2. cbn in *.
  apply bind_Ok in E as (hv5 & s6 & [Ev5 ->]%the_votes_Ok & E). assert (hv5 = hv) as -> by congruence.
  apply bind_Ok in E as ([[] hv'] & s6 & [Er <-]%lift_Ok & E). apply bind_Ok in E as ([] & s6 & ->%modify_Ok & E).
  apply bind_Ok in E as ([] & s6 & ->%modify_Ok & E). cbn [snd] in E.
  set (s6 := set_Triggered false _) in E.
  assert (S6 : step_ok s s6).
  { apply (round_step s s6 hv'); unfold s6; cbn; try congruence; try done.
    - rewrite qu_round, qu_step. destruct Hr as [Hr|[-> Hs]]; [by left|right]. rewrite Hs. done.
    - destruct Vo as (V1 & V2 & V3 & V4 & V5 & V6 & V7). eapply (SetRound_votes_ok s); [split_and!; done|cbn; congruence| | | |exact Er]; cbn; lia.
    - intros Ec. rewrite qu_step in Ec. done. }
  apply bind_Ok in E as (wait & s7 & E7 & E).
  assert (Q7 : quiet s6 s7).
  { quietly E7. }
  pose proof (quiet_ok chain vals_at P _ _ Q7 ltac:(apply S6)) as S7.
  assert (cs_Height s7 = height ∧ cs_Round s7 = round) as [H7 R7] by (destruct Q7; unfold s6 in *; cbn in *; split; congruence).
  assert (S8 : step_ok s7 s').
  { destruct wait.
    - case_decide; [|apply ret_Ok in E as [_ <-]; apply step_ok_refl, S7]. apply noisy_ok; [apply S7|].
      eapply emit_noisy; [|exact E]. right. cbn. lia.
    - eapply enterPropose_step; [apply S7| |exact E]. lia. }
  split; [eapply step_ok_trans; [exact S6|]; eapply step_ok_trans; [exact S7|exact S8]|].
  destruct S8 as (_ & L & _). unfold later in L. lia.
Qed.

Lemma enterPrevoteWait_step height round s u s' : NI s → cs_Height s = height → round ≤ cs_Round s →
  enterPrevoteWait height round s = Ok (u, s') → step_ok s s'.
Proof.
  intros I Hh Hr E. unfold enterPrevoteWait in E. apply bind_Ok in E as (hv & s1 & [_ ->]%the_votes_Ok & E).
  apply bind_Ok in E as (all & s1 & [_ <-]%lift_Ok & E). apply bind_Ok in E as ([] & s1 & E1 & E).
  assert (S1 : step_ok s s1).
  { destruct (_ && _); [eapply enterPrecommit_step; [done| |exact E1]; done|apply ret_Ok in E1 as [_ <-]; by apply step_ok_refl]. }
  apply bind_Ok in E as (s0 & s2 & [-> <-]%gets_Ok & E). cbn [id] in E.
  case_decide as Hg; [by apply ret_Ok in E as [_ <-]|].
  assert (round = cs_Round s1 ∧ cs_Step s1 < RoundStepPrevoteWait ∧ height = cs_Height s1) as (-> & Hst & ->).
  { destruct S1 as (_ & L & _). unfold later in L. lia. }
  apply bind_Ok in E as (hv' & s2 & [_ ->]%the_votes_Ok & E). apply bind_Ok in E as (any & s2 & [_ <-]%lift_Ok & E).
  destruct (negb any); [done|]. apply bind_Ok in E as ([] & s2 & E2 & ->%modify_Ok).
  assert (N2 : noisy s1 s2) by (eapply emit_noisy; [|exact E2]; right; done).
  pose proof (noisy_ok s1 s2 ltac:(apply S1) N2) as S2. apply modify_Ok in E2 as ->.
  eapply step_ok_trans; [exact S1|]. eapply step_ok_trans; [exact S2|].
  apply (advance_step _ RoundStepPrevoteWait ltac:(apply S2)); [cbn; lia|done].
Qed.

Lemma enterPrecommitWait_step height round s u s' : NI s → (cs_Height s = height → round ≤ cs_Round s) →
  enterPrecommitWait height round s = Ok (u, s') → step_ok s s'.
Proof.
  intros I Hr E. unfold enterPrecommitWait in E. apply bind_Ok in E as (s0 & s1 & [-> <-]%gets_Ok & E). cbn [id] in E.
  case_decide as Hg; [apply ret_Ok in E as [_ <-]; by apply step_ok_refl|].
  apply bind_Ok in E as (hv' & s2 & [_ ->]%the_votes_Ok & E). apply bind_Ok in E as (any & s2 & [_ <-]%lift_Ok & E).
  destruct (negb any); [done|]. apply bind_Ok in E as ([] & s2 & E2 & E).
  assert (N2 : noisy s s2) by (eapply emit_noisy; [|exact E2]; right; cbn; lia).
  pose proof (noisy_ok s s2 I N2) as S2. eapply step_ok_trans; [exact S2|]. apply quiet_ok; [|apply S2]. quietly E.
Qed.

(** ** Committing *)
Lemma next_height_after st h : good_state st → 0 < h → sm_LastBlockHeight st = h → next_height st = h + 1.
Proof.
  intros [_ Hr _ _ _] Hh <-. unfold next_height. unfold MaxInt64 in Hr. rewrite i64_id by lia. rewrite decide_False by lia. done.
Qed.

(** The state of a node that starts on a height. *)
Definition fresh (st : smState) (s s' : CState) : Prop :=
  cs_Height s' = next_height st ∧ cs_Round s' = 0 ∧ cs_Step s' = RoundStepNewHeight ∧ cs_out s' = cs_out s ∧ cs_state s' = st ∧
  ∃ hv, cs_Votes s' = Some hv ∧ votes_ok s' hv.

Lemma next_height_pos st : good_state st → 0 < next_height st.
Proof.
  intros [_ Hr Hi _ _]. unfold next_height. unfold MaxInt64 in Hr. rewrite i64_id by lia. case_decide; lia.
Qed.

Lemma updateToState_fresh st s u s' : good_state st → updateToState st s = Ok (u, s') →
  (IsEmpty (cs_state s) = false ∧ s' = s) ∨ fresh st s s'.
Proof.
  intros G E. unfold updateToState in E. apply bind_Ok in E as (s0 & s1 & [-> <-]%gets_Ok & E). cbn [id] in E.
  case_decide; [done|]. destruct (_ && _) in E; [done|]. destruct (_ && _) in E; [done|].
  destruct (_ && _) eqn:He in E; [apply ret_Ok in E as [_ <-]; left; by destruct (IsEmpty _)|]. clear He. right.
  apply bind_Ok in E as ([] & s1 & E1 & E). assert (O1 : cs_out s1 = cs_out s).
  { revert E1. repeat case_match; intros E1; try discriminate E1; (apply modify_Ok in E1 as -> || apply ret_Ok in E1 as [_ <-]); done. }
  fold (next_height st) in E.
  apply bind_Ok in E as ([] & s2 & ->%modify_Ok & E). apply bind_Ok in E as ([] & s2 & ->%modify_Ok & E).
  apply bind_Ok in E as ([] & s2 & E2 & E).
  assert (Q2 : quiet (set_RoundStep 0 RoundStepNewHeight (set_Height (next_height st) s1)) s2) by quietly E2.
  destruct (sm_Validators st) as [vals|] eqn:Ev; [|done].
  do 6 apply bind_Ok in E as ([] & ? & ->%modify_Ok & E). apply bind_Ok in E as (hv & s3 & [Ehv <-]%lift_Ok & E).
  do 5 apply bind_Ok in E as ([] & ? & ->%modify_Ok & E). apply modify_Ok in E as ->.
  destruct Q2. cbn in *. destruct (gs_vals _ _ _ G vals Ev) as (W & K & Ei). pose proof (next_height_pos st G) as Hn.
  destruct (NewHeightVoteSet_inv VerifySignature key_Address MarshalVote (sm_ChainID st) (next_height st) vals W K ltac:(lia))
    as (hv' & Ehv' & Hinv & R0 & C0 & H0 & V0 & _). rewrite Ehv in Ehv'. injection Ehv' as <-.
  unfold fresh. cbn. split_and!; try congruence. exists hv. split; [done|]. unfold TmConsInv.votes_ok. cbn.
  rewrite qu_height, qu_round, R0, C0, V0, H0. split_and!; try done.
  - by eapply NewHeightVoteSet_held.
  - apply G.
Qed.

(** The node moves on to the next height. *)
Lemma updateToState_step st s u s' : NI s → 0 ≤ cs_CommitRound s → good_state st →
  updateToState st s = Ok (u, s') → step_ok s s'.
Proof.
  intros I Hc G E. destruct (updateToState_fresh st s u s' G E) as [[_ ->]|(Eh' & Er' & Es' & Eo' & Et' & Ev')]; [by apply step_ok_refl|].
  unfold updateToState in E. apply bind_Ok in E as (s0 & s1 & [-> <-]%gets_Ok & E). cbn [id] in E.
  case_decide as Hg; [done|]. clear E. pose proof (ni_height _ _ _ _ I) as Hh. assert (Eh : sm_LastBlockHeight st = cs_Height s) by lia.
  rewrite (next_height_after st _ G Hh Eh) in Eh'.
  split_and!; [|left; lia|by apply ext_out]. destruct I as [I1 I2 I3 I4 I5 I6 I7 I8]. split; try done.
  - lia.
  - lia.
  - by rewrite Et'.
  - intros ti. rewrite Eo'. intros Hti%I5. unfold timeout_ok in *. lia.
  - intros v. rewrite Eo'. intros (T & H1 & H2)%I6. split_and!; [done|lia|]. lia.
  - intros v. rewrite Eo'. intros (T & H1 & H2)%I6 _ Hv. lia.
  - by rewrite Es'.
Qed.

(** A node that starts, if it starts. *)
Lemma start_NI st store pv pk s : good_state st → start st store pv pk = Ok s → NI s ∧ sent_votes (cs_out s) = [] ∧ ∀ h id b, OApply h id b ∉ cs_out s.
Proof.
  intros G E. unfold start, NewState in E. apply obind_Ok in E as (s1 & E1 & E). apply obind_Ok in E1 as ([[] s2] & E1 & [= <-]).
  apply bind_Ok in E1 as ([] & s1 & E0 & E1). assert (Q0 : quiet (blank store pv pk) s1) by quietly E0.
  apply updateToState_fresh in E1; [|done]. destruct Q0. cbn in qu_state, qu_out.
  destruct E1 as [[He _]|(Eh' & Er' & Es' & Eo' & Et' & Ev')]; [by rewrite qu_state in He|].
  assert (I : NI s2).
  { rewrite qu_out in Eo'. split; try done; rewrite ?Eh', ?Er', ?Es', ?Eo', ?Et'; try done.
    - by apply next_height_pos.
    - by intros ti ?%elem_of_nil.
    - by intros v ?%elem_of_nil.
    - by intros v ?%elem_of_nil. }
  apply obind_Ok in E as ([[] s3] & E & [= <-]). unfold scheduleRound0 in E. apply bind_Ok in E as (h & s4 & [-> <-]%gets_Ok & E).
  split_and!.
  - eapply (noisy_ok s2); [done|]. eapply emit_noisy; [|exact E]. right. cbn. lia.
  - apply modify_Ok in E as ->. cbn. by rewrite Eo', qu_out.
  - apply modify_Ok in E as ->. cbn. rewrite Eo', qu_out. cbn. intros h id b ?%list_elem_of_singleton. done.
Qed.

(** The executor keeps the state of the chain good: in particular, the validators of a height are those expected. *)
Context {KS : KeepsState blockExec good_state}.

Lemma finalizeCommit_step height s u s' : NI s → finalizeCommit height s = Ok (u, s') → step_ok s s'.
Proof.
  intros I E. unfold finalizeCommit in E. apply bind_Ok in E as (s0 & s1 & [-> <-]%gets_Ok & E). cbn [id] in E.
  case_decide as Hg; [apply ret_Ok in E as [_ <-]; by apply step_ok_refl|].
  assert (cs_Height s = height ∧ cs_Step s = RoundStepCommit) as [<- Hst] by lia. clear Hg.
  apply bind_Ok in E as (hv & s1 & [Ev ->]%the_votes_Ok & E).
  destruct (TwoThirdsMajority (Precommits (cs_CommitRound s) hv)) as [b ok] eqn:Em. destruct ok; cbn [negb] in E; [|done].
  pose proof (precommits_q s hv _ b I Ev Em) as Hq. destruct (negb _) in E; [done|].
  apply bind_Ok in E as (same & s1 & [Hs <-]%lift_Ok & E). destruct same; cbn [negb] in E; [|done].
  apply HashesTo_true in Hs as (blk & h & Ep & Eh & Esl & Hne). rewrite Ep in E.
  apply bind_Ok in E as (n & s1 & Q1%quiet_tick & E). apply bind_Ok in E as (valid & s2 & [_ <-]%lift_Ok & E).
  destruct (negb valid); [done|]. destruct (cs_ProposalBlockParts s) as [parts|]; [|done].
  destruct (Precommits (cs_CommitRound s) hv) as [pvs|]; [|done].
  apply bind_Ok in E as ([] & s2 & E2 & E). assert (Q2 : quiet s1 s2) by quietly E2.
  apply bind_Ok in E as (w & s3 & Q3%quiet_tick & E). destruct (negb _) in E; [done|]. destruct (cs_pubkey s); [|done].
  unfold apply_decided, enter_next_height in E. apply bind_Ok in E as (h' & s4 & [Eh' <-]%lift_Ok & E). rewrite Eh in Eh'. injection Eh' as <-.
  apply bind_Ok in E as (a & s4 & Q4%quiet_tick & E). apply bind_Ok in E as ([[st ret] app] & s5 & [Ea <-]%lift_Ok & E).
  apply bind_Ok in E as ([] & s5 & E5 & E).
  assert (Q : quiet s s4) by (etrans; [exact Q1|]; etrans; [exact Q2|]; by etrans).
  pose proof (quiet_ok chain vals_at P _ _ Q I) as S4.
  assert (N5 : noisy s4 s5).
  { eapply emit_noisy; [|exact E5]. exists (cs_CommitRound s), b. cbn. rewrite Esl. done. }
  pose proof (noisy_ok s4 s5 ltac:(apply S4) N5) as S5. eapply step_ok_trans; [exact S4|]. eapply step_ok_trans; [exact S5|].
  destruct app; cbn [negb] in E; [|apply ret_Ok in E as [_ <-]; apply step_ok_refl, S5].
  apply bind_Ok in E as ([] & s6 & E6 & E). assert (Q6 : quiet s5 s6) by quietly E6.
  pose proof (quiet_ok chain vals_at P _ _ Q6 ltac:(apply S5)) as S6. eapply step_ok_trans; [exact S6|].
  apply bind_Ok in E as ([] & s7 & E7 & E). eapply updateToState_step in E7.
  - eapply step_ok_trans; [exact E7|]. unfold scheduleRound0 in E. apply bind_Ok in E as (h0 & s8 & [-> <-]%gets_Ok & E).
    apply noisy_ok; [apply E7|]. eapply emit_noisy; [|exact E]. right. cbn. split; [done|]. apply (ni_round _ _ _ _ (proj1 E7)).
  - apply S6.
  - destruct Q6, Q, N5 as (new & [_ []] & _). cbn in *. pose proof (ni_commit _ _ _ _ I Hst). congruence || lia.
  - eapply (apply_keeps (KeepsState := KS)); [apply I|exact Ea].
Qed.

Lemma tryFinalizeCommit_step height s u s' : NI s → tryFinalizeCommit height s = Ok (u, s') → step_ok s s'.
Proof.
  intros I E. unfold tryFinalizeCommit in E. apply bind_Ok in E as (s0 & s1 & [-> <-]%gets_Ok & E). cbn [id] in E.
  case_decide; [done|]. apply bind_Ok in E as (hv & s1 & [Ev ->]%the_votes_Ok & E). destruct (TwoThirdsMajority _) as [b ok].
  destruct (_ || _); [apply ret_Ok in E as [_ <-]; by apply step_ok_refl|].
  apply bind_Ok in E as (same & s1 & [_ <-]%lift_Ok & E).
  destruct (negb _); [apply ret_Ok in E as [_ <-]; by apply step_ok_refl|]. by eapply finalizeCommit_step.
Qed.

Lemma enterCommit_step height r s u s' : NI s → 0 ≤ r → enterCommit height r s = Ok (u, s') → step_ok s s'.
Proof.
  intros I Hr E. unfold enterCommit in E. apply bind_Ok in E as (s0 & s1 & [-> <-]%gets_Ok & E). cbn [id] in E.
  case_decide as Hg; [apply ret_Ok in E as [_ <-]; by apply step_ok_refl|].
  apply bind_Ok in E as (hv & s1 & [Ev ->]%the_votes_Ok & E). destruct (TwoThirdsMajority _) as [b ok].
  destruct (negb ok); [done|]. apply bind_Ok in E as (locked & s1 & [_ <-]%lift_Ok & E).
  apply bind_Ok in E as ([] & s1 & E1 & E). assert (Q1 : quiet s s1) by quietly E1.
  apply bind_Ok in E as (s0 & s2 & [-> <-]%gets_Ok & E). cbn [id] in E. apply bind_Ok in E as (same & s2 & [_ <-]%lift_Ok & E).
  apply bind_Ok in E as ([] & s2 & E2 & E). assert (Q2 : quiet s s2) by (etrans; [exact Q1|quietly E2]).
  apply bind_Ok in E as ([] & s3 & ->%modify_Ok & E). apply bind_Ok in E as ([] & s3 & ->%modify_Ok & E).
  apply bind_Ok in E as (now & s3 & Q3%quiet_Now & E). apply bind_Ok in E as ([] & s4 & E4 & E).
  assert (Q4 : quiet s3 s4) by quietly E4.
  pose proof (quiet_ok chain vals_at P _ _ Q2 I) as S2.
  set (s2' := set_CommitRound r _) in Q3. assert (S3 : step_ok s2 s2').
  { destruct (ni_votes _ _ _ _ (proj1 S2)) as (hv' & Ev' & Vo). destruct Q2. apply (round_step s2 s2' hv'); unfold s2'; cbn; try done.
    - apply S2.
    - right. split; [congruence|]. lia.
    - eapply (votes_ok_same s2); [done|cbn; lia|done]. }
  eapply step_ok_trans; [exact S2|]. eapply step_ok_trans; [exact S3|].
  assert (Q : quiet s2' s4) by (by etrans). pose proof (quiet_ok chain vals_at P _ _ Q ltac:(apply S3)) as S4.
  eapply step_ok_trans; [exact S4|]. eapply tryFinalizeCommit_step; [apply S4|exact E].
Qed.

(** ** Handling messages *)
Lemma handleCompleteProposal_step h s u s' : NI s → handleCompleteProposal h s = Ok (u, s') → step_ok s s'.
Proof.
  intros I E. unfold handleCompleteProposal in E. apply bind_Ok in E as (s0 & s1 & [-> <-]%gets_Ok & E). cbn [id] in E.
  apply bind_Ok in E as (hv & s1 & [Ev ->]%the_votes_Ok & E). destruct (TwoThirdsMajority _) as [b two].
  apply bind_Ok in E as ([] & s1 & E1 & E). assert (Q1 : quiet s s1) by quietly E1.
  apply bind_Ok in E as (complete & s2 & E2 & E). assert (Q2 : quiet s s2) by (etrans; [exact Q1|quietly E2]).
  pose proof (quiet_ok chain vals_at P _ _ Q2 I) as S2. eapply step_ok_trans; [exact S2|]. destruct complete.
  - apply bind_Ok in E as ([] & s3 & E3 & E). apply enterPrevote_step in E3; [|apply S2|destruct Q2; lia].
    eapply step_ok_trans; [exact E3|]. destruct two; [|apply ret_Ok in E as [_ <-]; apply step_ok_refl, E3].
    apply bind_Ok in E as (r & s4 & [-> <-]%gets_Ok & E). eapply enterPrecommit_step; [apply E3| |exact E]. done.
  - case_decide; [eapply tryFinalizeCommit_step; [apply S2|exact E]|apply ret_Ok in E as [_ <-]; apply step_ok_refl, S2].
Qed.

(** A polka for something else, after the round of the lock, releases it. *)
Lemma polka_unlock_step v b s ok s' : NI s → q (cs_Height s) PrevoteType (v_Round v) b →
  polka_unlock v b s = Ok (ok, s') → step_ok s s' ∧ core s s'.
Proof.
  intros I Hq E. unfold polka_unlock in E. apply bind_Ok in E as (s0 & s1 & [-> <-]%gets_Ok & E). cbn [id] in E.
  assert (R : step_ok s s ∧ core s s) by (split; [by apply step_ok_refl|apply core_refl]).
  case_decide as Hg; [|by apply ret_Ok in E as [_ <-]]. destruct Hg as (_ & H1 & H2).
  apply bind_Ok in E as (same & s1 & [Es <-]%lift_Ok & E). destruct same; [by apply ret_Ok in E as [_ <-]|]. cbn [negb] in E.
  apply bind_Ok in E as ([] & s1 & ->%modify_Ok & Q1%quiet_publish). set (s1 := set_Locked _ _ _ _) in Q1.
  assert (S1 : step_ok s s1).
  { split_and!; [|right; cbn; lia|by apply ext_out]. apply (NI_intro s s1 []); try done.
    - by rewrite app_nil_r.
    - apply (ni_commit _ _ _ _ I).
    - by intros ti ?%elem_of_nil.
    - by intros w ?%elem_of_nil.
    - intros w Hw T Hh Hn. apply lock_ok_intro. right. apply (released_same s); [done|done|].
      destruct (locking_ok s w I) as [(blk & h & L1 & L2 & L3 & L4)|L]; [by split_and!| |done].
      exists (v_Round v), b. split_and!; [lia|done|done|]. eapply HashesTo_false; [exact Es|done|]. by exists blk, h. }
  pose proof (quiet_ok chain vals_at P _ _ Q1 ltac:(apply S1)) as S2. split; [eapply step_ok_trans; [exact S1|exact S2]|].
  eapply (quiet_core _ s1); [by split|done].
Qed.

Lemma polka_update_step v b s ok s' : NI s → q (cs_Height s) PrevoteType (v_Round v) b →
  polka_update v b s = Ok (ok, s') → step_ok s s' ∧ core s s'.
Proof.
  intros I Hq E. unfold polka_update in E. apply bind_Ok in E as (ok1 & s1 & [S1 C1]%polka_unlock_step & E); [|done..].
  destruct ok1; [|apply ret_Ok in E as [_ <-]; done]. apply quiet_polka_valid in E.
  pose proof (quiet_ok chain vals_at P _ _ E ltac:(apply S1)) as S2. split; [eapply step_ok_trans; [exact S1|exact S2]|by eapply quiet_core].
Qed.

Lemma after_prevote_step v pvs s u s' : NI s → after_prevote v pvs s = Ok (u, s') → step_ok s s'.
Proof.
  intros I E. unfold after_prevote in E. apply bind_Ok in E as (s0 & s1 & [-> <-]%gets_Ok & E). cbn [id] in E.
  apply bind_Ok in E as (any & s1 & [_ <-]%lift_Ok & E). destruct (_ && _) in E; [eapply enterNewRound_step; [exact I|exact E]|].
  case_decide as Hg.
  - destruct Hg as [Hg _]. destruct (TwoThirdsMajority pvs) as [b ok]. apply bind_Ok in E as (c & s1 & E1 & E).
    assert (Q1 : quiet s s1) by quietly E1. pose proof (quiet_ok chain vals_at P _ _ Q1 I) as S1.
    eapply step_ok_trans; [exact S1|]. destruct Q1.
    destruct (_ && _) in E; [eapply enterPrecommit_step; [apply S1| |exact E]; lia|].
    destruct any; [eapply enterPrevoteWait_step; [apply S1| | |exact E]; lia|apply ret_Ok in E as [_ <-]; apply step_ok_refl, S1].
  - destruct (cs_Proposal s); [|apply ret_Ok in E as [_ <-]; by apply step_ok_refl].
    case_decide; [|apply ret_Ok in E as [_ <-]; by apply step_ok_refl].
    apply bind_Ok in E as (c & s1 & Q1%quiet_isProposalComplete & E). pose proof (quiet_ok chain vals_at P _ _ Q1 I) as S1.
    eapply step_ok_trans; [exact S1|]. destruct Q1. destruct c; [|apply ret_Ok in E as [_ <-]; apply step_ok_refl, S1].
    eapply enterPrevote_step; [apply S1| |exact E]. lia.
Qed.

Lemma added_prevote_step v s r s' : NI s → added_prevote v s = Ok (r, s') → step_ok s s'.
Proof.
  intros I E. unfold added_prevote in E. apply bind_Ok in E as (hv & s1 & [Ev ->]%the_votes_Ok & E).
  destruct (TwoThirdsMajority (Prevotes (v_Round v) hv)) as [b ok] eqn:Em. apply bind_Ok in E as (go & s1 & E1 & E).
  assert (S1 : step_ok s s1).
  { destruct ok; [|apply ret_Ok in E1 as [_ <-]; by apply step_ok_refl].
    eapply polka_update_step in E1; [apply E1|done|]. eapply polka_q; [done|exact Ev|exact Em]. }
  eapply step_ok_trans; [exact S1|]. destruct go; [|apply ret_Ok in E as [_ <-]; apply step_ok_refl, S1].
  apply bind_Ok in E as ([] & s2 & E2 & [_ <-]%ret_Ok). eapply after_prevote_step; [apply S1|exact E2].
Qed.

Lemma added_precommit_step v s u s' : NI s → 0 ≤ v_Round v → added_precommit v s = Ok (u, s') → step_ok s s'.
Proof.
  intros I Hv E. unfold added_precommit in E. apply bind_Ok in E as (h & s1 & [-> <-]%gets_Ok & E).
  apply bind_Ok in E as (hv & s1 & [Ev ->]%the_votes_Ok & E). destruct (TwoThirdsMajority _) as [b ok].
  apply bind_Ok in E as (all & s1 & [_ <-]%lift_Ok & E). apply bind_Ok in E as (any & s1 & [_ <-]%lift_Ok & E). destruct ok.
  - apply bind_Ok in E as ([] & s1 & [S1 R1]%enterNewRound_step & E); [|done].
    apply bind_Ok in E as ([] & s2 & S2%enterPrecommit_step & E); [|apply S1|done].
    eapply step_ok_trans; [exact S1|]. eapply step_ok_trans; [exact S2|]. case_decide.
    + apply bind_Ok in E as ([] & s3 & S3%enterCommit_step & E); [|apply S2|done]. eapply step_ok_trans; [exact S3|].
      destruct (_ && _) in E; [|apply ret_Ok in E as [_ <-]; apply step_ok_refl, S3].
      apply bind_Ok in E as (h & s4 & [-> <-]%gets_Ok & E). eapply enterNewRound_step; [apply S3|exact E].
    + eapply enterPrecommitWait_step; [apply S2| |exact E]. destruct S1 as (_ & L1 & _), S2 as (_ & L2 & _). unfold later in *. lia.
  - apply bind_Ok in E as (r & s1 & [-> <-]%gets_Ok & E). destruct (_ && _) in E; [|apply ret_Ok in E as [_ <-]; by apply step_ok_refl].
    apply bind_Ok in E as ([] & s1 & [S1 R1]%enterNewRound_step & E); [|done]. eapply step_ok_trans; [exact S1|].
    eapply enterPrecommitWait_step; [apply S1|done|exact E].
Qed.

(** What is known of a vote that arrives. *)
Definition fine (v : Vote) : Prop := proper_id (v_BlockID v) ∧ 0 ≤ v_Round v ∧ P v.

Lemma add_last_precommit_step v s r s' : NI s → add_last_precommit v s = Ok (r, s') → step_ok s s'.
Proof.
  intros I E. unfold add_last_precommit in E. apply bind_Ok in E as (s0 & s1 & [-> <-]%gets_Ok & E). cbn [id] in E.
  case_decide; [apply ret_Ok in E as [_ <-]; by apply step_ok_refl|].
  apply bind_Ok in E as ([[added err] vs] & s1 & [_ <-]%lift_Ok & E). apply bind_Ok in E as ([] & s1 & ->%modify_Ok & E).
  assert (Q1 : quiet s (set_LastCommit (Some vs) s)) by (by split).
  destruct (negb added); [apply ret_Ok in E as [_ <-]; by apply quiet_ok|].
  apply bind_Ok in E as (ok & s2 & Q2%quiet_publish & E). assert (Q : quiet s s2) by (by etrans).
  pose proof (quiet_ok chain vals_at P _ _ Q I) as S2. destruct (negb ok); [by apply ret_Ok in E as [_ <-]|].
  apply bind_Ok in E as (all & s3 & [_ <-]%lift_Ok & E). apply bind_Ok in E as ([] & s3 & E3 & [_ <-]%ret_Ok).
  eapply step_ok_trans; [exact S2|]. destruct (_ && _); [eapply enterNewRound_step; [apply S2|exact E3]|].
  apply ret_Ok in E3 as [_ <-]. apply step_ok_refl, S2.
Qed.

(** The vote sets of the height take in a vote, or a peer's claim. *)
Lemma new_votes_step s hv hv' : NI s → cs_Votes s = Some hv → held_sets P hv' →
  hvs_inv VerifySignature key_Address MarshalVote hv' → hvs_advances hv hv' → hvs_round hv' = hvs_round hv →
  step_ok s (set_Votes (Some hv') s).
Proof.
  intros I Ev H' I' [(F1 & F2 & F3) _] R. destruct (ni_votes _ _ _ _ I) as (hv0 & Ev0 & _ & _ & V3 & V4 & V5 & V6 & V7).
  rewrite Ev in Ev0. injection Ev0 as <-. apply (round_step s _ hv'); try done.
  - by right.
  - unfold TmConsInv.votes_ok. rewrite F1, F2, F3, R. done.
  - apply (ni_commit _ _ _ _ I).
Qed.

Lemma cs_addVote_step v peer s r s' : NI s → fine v → cs_addVote v peer s = Ok (r, s') → step_ok s s'.
Proof.
  intros I (Hp & Hr & HP) E. unfold cs_addVote in E. apply bind_Ok in E as (s0 & s1 & [-> <-]%gets_Ok & E). cbn [id] in E.
  case_decide; [by eapply add_last_precommit_step|]. case_decide; [apply ret_Ok in E as [_ <-]; by apply step_ok_refl|].
  apply bind_Ok in E as (hv & s1 & [Ev ->]%the_votes_Ok & E). apply bind_Ok in E as ([[added err] hv'] & s1 & [Ea <-]%lift_Ok & E).
  apply bind_Ok in E as ([] & s1 & ->%modify_Ok & E).
  assert (S1 : step_ok s (set_Votes (Some hv') s)).
  { destruct (ni_votes _ _ _ _ I) as (hv0 & Ev0 & V1 & V2 & _). rewrite Ev in Ev0. injection Ev0 as <-.
    destruct (HVS_AddVote_step _ _ _ hv v peer V1 Hp) as (res & hv2 & E2 & I2 & A2 & R2). rewrite Ea in E2. injection E2 as <- <-.
    eapply (new_votes_step s hv); try done. eapply HVS_AddVote_held; [exact V2|exact HP|exact Ea]. }
  destruct (negb added); [by apply ret_Ok in E as [_ <-]|]. apply bind_Ok in E as (ok & s2 & Q2%quiet_publish & E).
  pose proof (quiet_ok chain vals_at P _ _ Q2 ltac:(apply S1)) as S2.
  eapply step_ok_trans; [exact S1|]. destruct (negb ok); [by apply ret_Ok in E as [_ <-]|].
  eapply step_ok_trans; [exact S2|]. case_decide.
  - apply bind_Ok in E as (e & s3 & E3 & E). apply added_prevote_step in E3; [|apply S2].
    destruct e; by apply ret_Ok in E as [_ <-].
  - case_decide; [|done]. apply bind_Ok in E as ([] & s3 & E3 & [_ <-]%ret_Ok). by apply added_precommit_step in E3; [|apply S2|].
Qed.

Lemma tryAddVote_step v peer s r s' : NI s → fine v → tryAddVote v peer s = Ok (r, s') → step_ok s s'.
Proof.
  intros I Hv E. unfold tryAddVote in E. apply bind_Ok in E as ([added err] & s1 & S1%cs_addVote_step & E); [|done..].
  eapply step_ok_trans; [exact S1|]. destruct S1 as (I1 & _). destruct err as [err|]; [|apply ret_Ok in E as [_ <-]; by apply step_ok_refl].
  destruct (conflicting err) as [[a b]|].
  - apply bind_Ok in E as (pk & s2 & [-> <-]%gets_Ok & E). destruct (cs_pubkey s1); [|apply ret_Ok in E as [_ <-]; by apply step_ok_refl].
    case_decide; [apply ret_Ok in E as [_ <-]; by apply step_ok_refl|]. apply bind_Ok in E as ([] & s2 & E2 & [_ <-]%ret_Ok).
    apply noisy_ok; [done|]. eapply emit_noisy; [|exact E2]. done.
  - destruct (nondeterministic err); apply ret_Ok in E as [_ <-]; by apply step_ok_refl.
Qed.

Definition fine_msg (m : Msg) : Prop := match m with VoteMessage v => fine v | _ => True end.

Lemma handleMsg_step m peer s r s' : NI s → fine_msg m → handleMsg m peer s = Ok (r, s') → step_ok s s'.
Proof.
  intros I Hm E. unfold handleMsg in E. destruct m as [p|h rd part|v].
  - apply quiet_defaultSetProposal in E. by apply quiet_ok.
  - apply bind_Ok in E as ([added err] & s1 & Q1%quiet_addProposalBlockPart & E). apply bind_Ok in E as (s0 & s2 & [-> <-]%gets_Ok & E).
    cbn [id] in E. apply bind_Ok in E as ([] & s2 & E2 & E). apply bind_Ok in E as (rd' & s3 & [-> <-]%gets_Ok & [_ <-]%ret_Ok).
    pose proof (quiet_ok chain vals_at P _ _ Q1 I) as S1. eapply step_ok_trans; [exact S1|].
    destruct (cs_ProposalBlockParts s1) as [ps|]; [|destruct added; [done|apply ret_Ok in E2 as [_ <-]; apply step_ok_refl, S1]].
    destruct (_ && _); [|apply ret_Ok in E2 as [_ <-]; apply step_ok_refl, S1].
    apply bind_Ok in E2 as ([] & s3 & E3 & E2). assert (Q3 : quiet s1 s3) by quietly E3.
    pose proof (quiet_ok chain vals_at P _ _ Q3 ltac:(apply S1)) as S3. eapply step_ok_trans; [exact S3|].
    eapply handleCompleteProposal_step; [apply S3|exact E2].
  - apply bind_Ok in E as (r1 & s1 & E1 & [_ <-]%ret_Ok). by eapply tryAddVote_step.
Qed.

(** ** Timeouts *)
Lemma handleTimeout_step ti rs s u s' : NI s → OTimeout ti ∈ cs_out s → handleTimeout ti rs s = Ok (u, s') → step_ok s s'.
Proof.
  intros I Hti E. apply (ni_timeouts _ _ _ _ I) in Hti as Ht. unfold timeout_ok in Ht. pose proof (ni_round _ _ _ _ I) as Hr.
  unfold handleTimeout in E. case_decide; [apply ret_Ok in E as [_ <-]; by apply step_ok_refl|].
  case_decide; [eapply enterNewRound_step; [exact I|exact E]|].
  case_decide; [eapply enterPropose_step; [exact I| |exact E]; lia|].
  case_decide; [eapply enterPrevote_step; [exact I| |exact E]; lia|].
  case_decide; [eapply enterPrecommit_step; [exact I| |exact E]; lia|].
  case_decide; [|done]. apply bind_Ok in E as ([] & s1 & S1%enterPrecommit_step & E); [|done|lia].
  eapply step_ok_trans; [exact S1|]. eapply enterNewRound_step; [apply S1|exact E].
Qed.

Lemma handleTxsAvailable_step s u s' : NI s → handleTxsAvailable s = Ok (u, s') → step_ok s s'.
Proof.
  intros I E. unfold handleTxsAvailable in E. apply bind_Ok in E as (s0 & s1 & [-> <-]%gets_Ok & E). cbn [id] in E.
  case_decide as H0; [apply ret_Ok in E as [_ <-]; by apply step_ok_refl|]. case_decide.
  - apply bind_Ok in E as (b & s1 & Q1%quiet_needProofBlock & E). pose proof (quiet_ok chain vals_at P _ _ Q1 I) as S1.
    eapply step_ok_trans; [exact S1|]. destruct b; [apply ret_Ok in E as [_ <-]; apply step_ok_refl, S1|].
    apply noisy_ok; [apply S1|]. eapply emit_noisy; [|exact E]. right. cbn. destruct Q1. lia.
  - case_decide; [|apply ret_Ok in E as [_ <-]; by apply step_ok_refl]. eapply enterPropose_step; [exact I| |exact E]. lia.
Qed.

(** ** The loop *)

(** An event that may arrive: votes that are fine, timeouts that were scheduled. *)
Definition fine_event (s : CState) (ev : Event) : Prop :=
  match ev with EvMsg m _ => fine_msg m | EvTimeout ti => OTimeout ti ∈ cs_out s | EvTxs => True end.

Lemma ext_elem s s' o : ext s s' → o ∈ cs_out s → o ∈ cs_out s'.
Proof. intros (new & -> & _) Ho. apply elem_of_app. by left. Qed.

Lemma receive_once_step first ev s u s' : NI s → (∀ ti, first = Some ti → OTimeout ti ∈ cs_out s) → fine_event s ev →
  receive_once first ev s = Ok (u, s') → step_ok s s'.
Proof.
  intros I Hf Hev E. unfold receive_once in E. apply bind_Ok in E as (rs & s1 & [-> <-]%gets_Ok & E).
  apply bind_Ok in E as ([] & s1 & E1 & E).
  assert (S1 : step_ok s s1).
  { destruct first as [ti|]; [|apply ret_Ok in E1 as [_ <-]; by apply step_ok_refl]. eapply handleTimeout_step; [exact I|by apply Hf|exact E1]. }
  eapply step_ok_trans; [exact S1|]. destruct ev as [m peer|ti|].
  - apply bind_Ok in E as (r & s2 & E2 & [_ <-]%ret_Ok). eapply handleMsg_step; [apply S1|exact Hev|exact E2].
  - eapply handleTimeout_step; [apply S1| |exact E]. eapply ext_elem; [apply S1|exact Hev].
  - eapply handleTxsAvailable_step; [apply S1|exact E].
Qed.

Lemma peer_maj23_step h r t b peer s u s' : NI s → peer_maj23 h r t b peer s = Ok (u, s') → step_ok s s'.
Proof.
  intros I E. unfold peer_maj23 in E. apply bind_Ok in E as (s0 & s1 & [-> <-]%gets_Ok & E). cbn [id] in E.
  case_decide; [apply ret_Ok in E as [_ <-]; by apply step_ok_refl|].
  apply bind_Ok in E as (hv & s1 & [Ev ->]%the_votes_Ok & E). apply bind_Ok in E as ([res hv'] & s1 & [Ea <-]%lift_Ok & ->%modify_Ok).
  destruct (ni_votes _ _ _ _ I) as (hv0 & Ev0 & V1 & V2 & _). rewrite Ev in Ev0. injection Ev0 as <-.
  destruct (HVS_SetPeerMaj23_step VerifySignature key_Address MarshalVote hv r t peer b V1) as (res2 & hv2 & E2 & I2 & A2 & R2).
  rewrite Ea in E2. injection E2 as <- <-. eapply (new_votes_step s hv); try done. by eapply HVS_SetPeerMaj23_held.
Qed.
End local.
