(* ===== verification/TmConsSafety.v ===== *)
(** Agreement of the consensus state machine: nodes that run [TmConsensus] and receive votes, proposals and parts
    from anybody never apply two different blocks at a height, while the validators that do not run it have at
    most a third of the voting power.

    The network may lose, delay, reorder and repeat messages and deliver anything a faulty validator can make;
    only votes a correct validator did not sign are excluded ([authentic]). *)

From S2P Require Import Prelude TmBits TmValidators TmPriority TmValUpdate TmTypes TmCommit TmVotes TmVoteInv TmVoteSafety.
From S2P Require Import TmMerkle TmPartSet TmPrivval TmHeightVotes TmBlock TmStore TmState TmConsensus TmConsVotes TmConsInv TmConsStep.

(** ** The network *)

(** The correct nodes by their keys, and the votes they have sent, oldest first. *)
Record World := mkWorld { w_nodes : gmap bytes CState; w_sent : list (bytes * Vote) }.

(** Node [k] goes from [s] to [s']. *)
Definition advance (k : bytes) (s s' : CState) (w : World) : World :=
  mkWorld (<[k := s']> (w_nodes w)) (w_sent w ++ (pair k <$> sent_votes (drop (length (cs_out s)) (cs_out s')))).

(** What a peer's vote is checked for before it reaches the state machine. *)
Definition received (v : Vote) : Prop :=
  Vote_ValidateBasic v = None ∧ 0 ≤ psh_Total (bid_PartSetHeader (v_BlockID v)) < two32.

Section network.
Context {CR : Crypto} {BC : BlockCodec} (hosts : bytes → Host).
(** The keys of the correct nodes, the chain, its validators, and the height from which on all votes of the correct
    nodes are sent in the run. *)
Context (correct : gset bytes) (chain : bytes) (vals_at : Z → list Validator) (base : Z).

(** Nobody signs for a correct node. *)
Definition authentic (sent : list (bytes * Vote)) (v : Vote) : Prop :=
  ∀ k msg, k ∈ correct → base ≤ v_Height v → VoteSignBytes MarshalVote chain v = Ok msg →
    VerifySignature k msg (v_Signature v) = true →
    ∃ v', (k, v') ∈ sent ∧ VoteSignBytes MarshalVote chain v' = Ok msg.

Definition deliverable (w : World) (s : CState) (ev : Event) : Prop :=
  match ev with
  | EvMsg (VoteMessage v) _ => received v ∧ authentic (w_sent w) v
  | EvTimeout ti => OTimeout ti ∈ cs_out s
  | _ => True
  end.

Inductive wreach : World → Prop :=
| wr_start nodes :
    (∀ k s, nodes !! k = Some s → ∃ st store pv, good_state chain vals_at st ∧
       start (HO := hosts k) st store (Some pv) (Some k) = Ok s) →
    wreach (mkWorld nodes [])
| wr_receive w k s first ev u s' :
    wreach w → w_nodes w !! k = Some s → (∀ ti, first = Some ti → OTimeout ti ∈ cs_out s) → deliverable w s ev →
    receive_once (HO := hosts k) first ev s = Ok (u, s') → wreach (advance k s s' w)
| wr_peer w k s h r t b peer u s' :
    wreach w → w_nodes w !! k = Some s → peer_maj23 h r t b peer s = Ok (u, s') → wreach (advance k s s' w).

(** ** The invariant of the network *)
Local Abbreviation P w := (authentic (w_sent w)).
Local Abbreviation q sent := (q chain vals_at (authentic sent)).

(** What holds of a vote sent after [before]. *)
Definition vote_just (before : list (bytes * Vote)) (k : bytes) (v : Vote) : Prop :=
  (∀ u, (k, u) ∈ before → v_Height u = v_Height v → vote_before u v) ∧
  (v_Type v = PrecommitType → vote_hash v ≠ [] → q before (v_Height v) PrevoteType (v_Round v) (v_BlockID v)) ∧
  (v_Type v = PrevoteType → ∀ u, (k, u) ∈ before → v_Type u = PrecommitType → v_Height u = v_Height v →
     vote_hash u ≠ [] → vote_hash u ≠ vote_hash v →
     ∃ r Y, v_Round u < r ≤ v_Round v ∧ q before (v_Height v) PrevoteType r Y ∧ bid_Hash Y ≠ vote_hash u).

Record WI (w : World) : Prop := {
  wi_nodes : ∀ k s, w_nodes w !! k = Some s → NI chain vals_at (P w) s;
  wi_sent : ∀ k s v, w_nodes w !! k = Some s → (k, v) ∈ w_sent w ↔ v ∈ sent_votes (cs_out s);
  wi_just : ∀ l1 k v l2, w_sent w = l1 ++ (k, v) :: l2 → vote_just l1 k v;
  wi_apply : ∀ k s h id b, w_nodes w !! k = Some s → OApply h id b ∈ cs_out s →
    ∃ r b', q (w_sent w) h PrecommitType r b' ∧ bid_Hash b' = bid_Hash id ∧ bid_Hash b' ≠ [];
}.

Lemma authentic_mono l l' v : (∀ x, x ∈ l → x ∈ l') → authentic l v → authentic l' v.
Proof. intros H Ha k msg H1 H2 H3 H4. destruct (Ha k msg H1 H2 H3 H4) as (v' & H5 & H6). exists v'. auto. Qed.

Lemma authentic_app l l' v : authentic l v → authentic (l ++ l') v.
Proof. apply authentic_mono. intros x Hx. apply elem_of_app. by left. Qed.

Lemma sent_votes_split l n1 v n2 : sent_votes l = n1 ++ v :: n2 →
  ∃ o1 o2, l = o1 ++ OMsg (VoteMessage v) :: o2 ∧ sent_votes o1 = n1.
Proof.
  revert n1. induction l as [|o l IH]; intros n1 E; [by destruct n1|].
  change (o :: l) with ([o] ++ l) in E. rewrite sent_votes_app in E.
  assert ((∃ x, o = OMsg (VoteMessage x)) ∨ sent_votes [o] = []) as [[x ->]|Ho] by (destruct o as [[]| | |]; eauto).
  - cbn in E. destruct n1 as [|y n1]; cbn in E; injection E as -> E; [by exists [], l|].
    destruct (IH n1 E) as (o1 & o2 & -> & <-). by exists (OMsg (VoteMessage y) :: o1), o2.
  - rewrite Ho in E. destruct (IH n1 E) as (o1 & o2 & -> & <-). exists (o :: o1), o2. split; [done|].
    change (o :: o1) with ([o] ++ o1). by rewrite sent_votes_app, Ho.
Qed.

Lemma received_fine v : received v → proper_id (v_BlockID v) ∧ 0 ≤ v_Round v.
Proof.
  intros [E Ht]. unfold Vote_ValidateBasic in E. destruct (negb _); [done|]. do 2 (case_decide; [done|]).
  destruct (BlockID_ValidateBasic _); [done|]. destruct (IsZero _) eqn:Ez, (IsComplete _) eqn:Ec; cbn in E; try done;
    (split; [split; [auto|done]|lia]).
Qed.

Lemma just_vote sent new k s l1 v l2 : (∀ u, (k, u) ∈ sent ↔ u ∈ sent_votes (cs_out s)) →
  (∀ l1 o l2, new = l1 ++ o :: l2 → just chain vals_at (authentic sent) (cs_out s ++ l1) o) →
  sent_votes new = l1 ++ v :: l2 → vote_just (sent ++ (pair k <$> l1)) k v.
Proof.
  intros Hs J E. apply sent_votes_split in E as (o1 & o2 & -> & <-). specialize (J o1 _ o2 eq_refl).
  assert (Hin : ∀ u, (k, u) ∈ sent ++ (pair k <$> sent_votes o1) → u ∈ sent_votes (cs_out s ++ o1)).
  { intros u. rewrite sent_votes_app, !elem_of_app, list_elem_of_fmap, Hs. intros [H|(x & [= <-] & H)]; [by left|by right]. }
  pose proof (just_mono chain vals_at _ (authentic (sent ++ (pair k <$> sent_votes o1))) (authentic_app _ _) _ _ J) as (J1 & J2 & J3).
  split_and!; [|done|]; intros; eauto.
Qed.

(** A step of a node keeps the invariant. *)
Lemma WI_advance w k s s' : WI w → w_nodes w !! k = Some s → step_ok chain vals_at (P w) s s' → WI (advance k s s' w).
Proof.
  intros [W1 W2 W3 W4] Hk (I' & _ & new & Eo & J). unfold advance. rewrite Eo, drop_app_length.
  set (sent' := w_sent w ++ _). pose proof (authentic_app (w_sent w) (pair k <$> sent_votes new)) as Hm. fold sent' in Hm.
  split; cbn.
  - intros k0 s0 E0. destruct (decide (k0 = k)) as [->|Hne].
    + rewrite lookup_insert_eq in E0. injection E0 as <-. by apply (NI_mono _ _ (P w)).
    + rewrite lookup_insert_ne in E0 by done. apply (NI_mono _ _ (P w)); [done|]. by apply (W1 k0).
  - intros k0 s0 v E0. unfold sent'. rewrite elem_of_app, list_elem_of_fmap. destruct (decide (k0 = k)) as [->|Hne].
    + rewrite lookup_insert_eq in E0. injection E0 as <-. rewrite Eo, sent_votes_app, elem_of_app, (W2 k s v Hk). naive_solver.
    + rewrite lookup_insert_ne in E0 by done. rewrite <-(W2 k0 s0 v E0). naive_solver.
  - intros l1 k0 v l2 E. apply app_eq_inv in E as [(l & E1 & E2)|(l & -> & E)].
    + destruct l as [|x l]; cbn in E2.
      * destruct (sent_votes new) as [|y n2] eqn:En; [done|]. cbn in E2. injection E2 as -> -> E2. rewrite app_nil_r in E1. rewrite <-E1.
        pose proof (just_vote (w_sent w) new k s [] y n2 (λ u, W2 k s u Hk) J En) as Hj. cbn in Hj. by rewrite app_nil_r in Hj.
      * injection E2 as <- E2. by eapply W3.
    + apply fmap_app_inv in E as (n1 & n2 & -> & E2 & En). symmetry in E2.
      apply fmap_cons_inv in E2 as (y & n3 & [= -> ->] & _ & ->). eapply just_vote; [intros u; apply (W2 k s u Hk)|exact J|exact En].
  - intros k0 s0 h id b E0 Ho.
    assert (∃ r b', TmConsInv.q chain vals_at (P w) h PrecommitType r b' ∧ bid_Hash b' = bid_Hash id ∧ bid_Hash b' ≠ []) as (r & b' & Hq & H).
    { destruct (decide (k0 = k)) as [->|Hne]; [|rewrite lookup_insert_ne in E0 by done; by eapply W4].
      rewrite lookup_insert_eq in E0. injection E0 as <-. rewrite Eo in Ho. apply elem_of_app in Ho as [Ho|Ho]; [by eapply W4|].
      apply list_elem_of_split in Ho as (l1 & l2 & ->). exact (J l1 _ l2 eq_refl). }
    exists r, b'. split; [|done]. by apply (q_mono _ _ (P w)).
Qed.

Context {KS : ∀ k, KeepsState (@blockExec (hosts k)) (good_state chain vals_at)}.

Lemma wreach_WI w : wreach w → WI w.
Proof.
  induction 1 as [nodes Hn|w k s first ev u s' _ W Hk Hf Hd E|w k s h r t b peer u s' _ W Hk E].
  - assert (Hs : ∀ k s, nodes !! k = Some s →
      NI chain vals_at (authentic []) s ∧ sent_votes (cs_out s) = [] ∧ ∀ h id b, OApply h id b ∉ cs_out s).
    { intros k s Hk. destruct (Hn k s Hk) as (st & store & pv & G & E). by eapply start_NI. }
    split; cbn.
    + intros k s Hk. apply (Hs k s Hk).
    + intros k s v Hk. destruct (Hs k s Hk) as (_ & -> & _). by rewrite !elem_of_nil.
    + intros [|??] k v l2 E; done.
    + intros k s h id b Hk Ho. destruct (Hs k s Hk) as (_ & _ & Ha). by destruct (Ha h id b).
  - apply WI_advance; [done|done|]. eapply (receive_once_step (HO := hosts k) chain vals_at (P w) (KS := KS k)); [by eapply (wi_nodes w W)|exact Hf| |exact E].
    destruct ev as [[| |v] peer|ti|]; try done. destruct Hd as [Hr Ha]. destruct (received_fine v Hr). by split_and!.
  - apply WI_advance; [done|done|]. eapply peer_maj23_step; [by eapply (wi_nodes w W)|exact E].
Qed.

(** ** Agreement *)
Context (marshal_inj : ∀ cv cv', MarshalVote cv = MarshalVote cv' → cv = cv').

(** The validators that are not correct nodes. *)
Definition faulty (l : list Validator) (i : nat) : bool :=
  match (l !! i : option Validator) with
  | Some v => match PubKey v with Some k => negb (bool_decide (k ∈ correct)) | None => true end
  | None => true
  end.

Lemma sign_bytes_about v v' msg : VoteSignBytes MarshalVote chain v = Ok msg → VoteSignBytes MarshalVote chain v' = Ok msg →
  about (v_Type v) (v_Height v) (v_Round v) (v_BlockID v) v'.
Proof.
  unfold VoteSignBytes, CanonicalizeVote, CanonicalizeBlockID.
  intros (cv & (x & E1 & [= <-])%obind_Ok & [= <-])%obind_Ok (cv' & (x' & E2 & [= <-])%obind_Ok & [= E])%obind_Ok.
  apply marshal_inj in E. injection E as T H R B _. destruct (BlockID_ValidateBasic (v_BlockID v)); [done|].
  destruct (BlockID_ValidateBasic (v_BlockID v')); [done|]. injection E1 as <-. injection E2 as <-. split_and!; try done.
  destruct (IsZero (v_BlockID v)) eqn:Z1, (IsZero (v_BlockID v')) eqn:Z2; try done; [|congruence].
  apply IsZero_eq in Z1, Z2. congruence.
Qed.

Lemma quorums_meet S1 S2 h t1 r1 b1 t2 r2 b2 : base ≤ h → positive (vals_at h) →
  3 * weight (vals_at h) (faulty (vals_at h)) ≤ power (vals_at h) →
  q S1 h t1 r1 b1 → q S2 h t2 r2 b2 →
  ∃ k v1 v2, (k, v1) ∈ S1 ∧ about t1 h r1 b1 v1 ∧ (k, v2) ∈ S2 ∧ about t2 h r2 b2 v2.
Proof.
  intros Hb Hp Hf (Q1 & W1 & H1) (Q2 & W2 & H2). pose proof (weight_quorums _ _ _ Hp W1 W2) as W.
  assert (∃ i, Q1 i && Q2 i = true ∧ faulty (vals_at h) i = false) as (i & [A1 A2]%andb_true_iff & Fi).
  { destruct (decide (Exists (λ i, Q1 i && Q2 i = true ∧ faulty (vals_at h) i = false) (seq 0 (length (vals_at h))))) as [He|Hn].
    - apply Exists_exists in He as (i & _ & He). by exists i.
    - exfalso. apply Forall_Exists_neg in Hn.
      assert (weight (vals_at h) (λ i, Q1 i && Q2 i) ≤ weight (vals_at h) (faulty (vals_at h))); [|lia].
      apply weight_mono; [done|]. intros i Hi Hq. rewrite Forall_forall in Hn. specialize (Hn i ltac:(apply elem_of_seq; lia)).
      destruct (faulty (vals_at h) i); [done|]. destruct Hn. done. }
  destruct (H1 i A1) as (val & k & v1 & E1 & K1 & P1 & T1 & Hh1 & R1 & B1 & _ & m1 & M1 & V1).
  destruct (H2 i A2) as (val2 & k2 & v2 & E2 & K2 & P2 & T2 & Hh2 & R2 & B2 & _ & m2 & M2 & V2).
  rewrite E1 in E2. injection E2 as <-. rewrite K1 in K2. injection K2 as <-.
  unfold faulty in Fi. rewrite E1, K1 in Fi. apply negb_false_iff, bool_decide_eq_true in Fi.
  destruct (P1 k m1 Fi ltac:(lia) M1 V1) as (u1 & I1 & N1). destruct (P2 k m2 Fi ltac:(lia) M2 V2) as (u2 & I2 & N2).
  pose proof (sign_bytes_about _ _ _ M1 N1) as X1. pose proof (sign_bytes_about _ _ _ M2 N2) as X2.
  rewrite T1, Hh1, R1, B1 in X1. rewrite T2, Hh2, R2, B2 in X2. by exists k, u1, u2.
Qed.

Section height.
Context (w : World) (W : WI w) (h : Z) (Hbase : base ≤ h) (Hpos : positive (vals_at h))
        (Hfaulty : 3 * weight (vals_at h) (faulty (vals_at h)) ≤ power (vals_at h)).
Local Abbreviation sent := (w_sent w).

(** Two votes of a node are ordered. *)
Lemma votes_ordered k u v : (k, u) ∈ sent → (k, v) ∈ sent → v_Height u = v_Height v → u = v ∨ vote_before u v ∨ vote_before v u.
Proof.
  intros (l1 & l2 & E1)%list_elem_of_split Hv Hh. pose proof (wi_just w W l1 k u l2 E1) as (J1 & _). rewrite E1 in Hv.
  apply elem_of_app in Hv as [Hv|Hv]; [right; right; by apply J1|].
  apply elem_of_cons in Hv as [[= ->]|Hv]; [by left|]. apply list_elem_of_split in Hv as (l3 & l4 & ->).
  right. left. rewrite app_comm_cons, app_assoc in E1. destruct (wi_just w W _ k v l4 E1) as (J2 & _). apply J2; [|done].
  apply elem_of_app. right. by left.
Qed.

Lemma one_vote k u v t r : (k, u) ∈ sent → (k, v) ∈ sent → about t h r (v_BlockID u) u → about t h r (v_BlockID v) v → u = v.
Proof.
  intros Hu Hv (A1 & A2 & A3 & _) (B1 & B2 & B3 & _). destruct (votes_ordered k u v Hu Hv) as [->|[H|H]]; [congruence|done|..];
    unfold vote_before in H; rewrite A1, A3, B1, B3 in H; lia.
Qed.

(** Nobody who helped to decide [b] prevotes for something else afterwards. *)
Lemma prevotes_kept r b n : ∀ l1 k v l2 u, length l1 = n → q sent h PrecommitType r b → bid_Hash b ≠ [] →
  sent = l1 ++ (k, v) :: l2 → v_Type v = PrevoteType → v_Height v = h → r < v_Round v →
  (k, u) ∈ sent → about PrecommitType h r b u → vote_hash v = bid_Hash b.
Proof.
  induction (lt_wf n) as [n _ IH]. intros l1 k v l2 u Hlen Hq Hn E T Hh Hr Hu (A1 & A2 & A3 & A4).
  destruct (decide (vote_hash v = bid_Hash b)) as [|Hne]; [done|exfalso].
  destruct (wi_just w W l1 k v l2 E) as (J1 & _ & J3).
  assert (Hu1 : (k, u) ∈ l1).
  { rewrite E in Hu. apply elem_of_app in Hu as [Hu|Hu]; [done|]. apply elem_of_cons in Hu as [[= ->]|Hu].
    - rewrite T in A1. done.
    - apply list_elem_of_split in Hu as (l3 & l4 & ->). rewrite app_comm_cons, app_assoc in E.
      destruct (wi_just w W _ k u l4 E) as (J2 & _). specialize (J2 v). unfold vote_before in J2. rewrite A3 in J2.
      destruct J2 as [?|[? _]]; [|congruence|lia|lia]. apply elem_of_app. right. by left. }
  assert (vote_hash u = bid_Hash b) as Eu by (unfold vote_hash; by rewrite A4).
  destruct (J3 T u Hu1 A1) as (r' & Y & Hr' & HY & Hne'); [congruence..|]. rewrite A3 in Hr'. rewrite Hh in HY. rewrite Eu in Hne'.
  destruct (quorums_meet l1 sent h _ _ _ _ _ _ Hbase Hpos Hfaulty HY Hq) as (k' & v' & u' & I1 & (B1 & B2 & B3 & B4) & I2 & A').
  apply list_elem_of_split in I1 as (l3 & l4 & ->). rewrite <-app_assoc in E. cbn in E.
  destruct Hne'. rewrite <-B4. eapply (IH (length l3)); [|done|exact Hq|done|exact E|done|done| |exact I2|done].
  - rewrite <-Hlen, length_app. cbn. lia.
  - lia.
Qed.

(** A later polka is for the decided block. *)
Lemma later_polka l1 k v l2 r b r2 b2 : q sent h PrecommitType r b → bid_Hash b ≠ [] → r < r2 →
  sent = l1 ++ (k, v) :: l2 → q l1 h PrevoteType r2 b2 → bid_Hash b2 = bid_Hash b.
Proof.
  intros Hq Hn Hr E Hp.
  destruct (quorums_meet l1 sent h _ _ _ _ _ _ Hbase Hpos Hfaulty Hp Hq) as (k' & v' & u' & I1 & (B1 & B2 & B3 & B4) & I2 & A').
  apply list_elem_of_split in I1 as (l3 & l4 & ->). rewrite <-app_assoc in E. cbn in E. rewrite <-B4.
  eapply (prevotes_kept r b (length l3)); [done|exact Hq|done|exact E|done|done|lia|exact I2|done].
Qed.

Lemma decided_once r1 b1 r2 b2 : r1 ≤ r2 → q sent h PrecommitType r1 b1 → q sent h PrecommitType r2 b2 →
  bid_Hash b1 ≠ [] → bid_Hash b2 ≠ [] → bid_Hash b1 = bid_Hash b2.
Proof.
  intros Hr Q1 Q2 N1 N2.
  destruct (quorums_meet _ _ h _ _ _ _ _ _ Hbase Hpos Hfaulty Q1 Q2) as (k & v1 & v2 & I1 & A1 & I2 & A2).
  destruct (decide (r1 = r2)) as [->|Hne].
  - assert (v1 = v2) as ->.
    { apply (one_vote k _ _ PrecommitType r2 I1 I2); unfold about in *; naive_solver. }
    destruct A1 as (_ & _ & _ & <-), A2 as (_ & _ & _ & <-). done.
  - apply list_elem_of_split in I2 as (l1 & l2 & E). destruct A2 as (T2 & H2 & R2 & B2).
    destruct (wi_just w W l1 k v2 l2 E) as (_ & J2 & _). unfold vote_hash in J2. rewrite B2, H2, R2 in J2.
    symmetry. eapply later_polka; [exact Q1|done| |exact E|by apply J2]. lia.
Qed.
End height.

(** C1: Two correct nodes never apply blocks with different hashes at the same height (from the height on from
    which the run has all votes of the correct nodes), while the validators of that height that are not correct
    nodes have at most a third of its voting power, whatever messages are delivered and in whatever order,
    provided that no vote signed by a correct node is delivered that the node did not send. *)
Theorem agreement w k1 s1 k2 s2 h id1 b1 id2 b2 :
  wreach w → base ≤ h → positive (vals_at h) → 3 * weight (vals_at h) (faulty (vals_at h)) ≤ power (vals_at h) →
  w_nodes w !! k1 = Some s1 → w_nodes w !! k2 = Some s2 → OApply h id1 b1 ∈ cs_out s1 → OApply h id2 b2 ∈ cs_out s2 →
  bid_Hash id1 = bid_Hash id2.
Proof.
  intros W%wreach_WI Hb Hp Hf E1 E2 O1 O2.
  destruct (wi_apply w W k1 s1 h id1 b1 E1 O1) as (r1 & c1 & Q1 & <- & N1).
  destruct (wi_apply w W k2 s2 h id2 b2 E2 O2) as (r2 & c2 & Q2 & <- & N2).
  destruct (decide (r1 ≤ r2)); [|symmetry]; eapply (decided_once w W h Hb Hp Hf); [|exact Q1|exact Q2|done|done| |exact Q2|exact Q1|done|done]; lia.
Qed.

(** C7: A correct node never votes twice at a height, round and step: two votes it sent that agree in height, round and
    type are the same vote, whatever it received in between. *)
Theorem no_equivocation w k u v : wreach w → (k, u) ∈ w_sent w → (k, v) ∈ w_sent w →
  v_Height u = v_Height v → v_Round u = v_Round v → v_Type u = v_Type v → u = v.
Proof.
  intros W%wreach_WI Hu Hv Eh Er Et. destruct (votes_ordered w W k u v Hu Hv Eh) as [->|[H|H]]; [done|..];
    unfold vote_before in H; rewrite Er, Et in H; lia.
Qed.
End network.
