(* ===== verification/TmExec.v ===== *)
(** The block executor (src/sourcecodes/tendermint/state/execution.go, state/validation.go, the parts of
    state/state.go that make a block, types/params.go and types/time/time.go), and the instance of the interface
    [BlockExecutor] it is.

    The application, the evidence pool, the mempool and the database are the fields of the class [Services]; a
    number stands for the call, as what they answer may change.  An error is [None] or a value of [exec_error];
    the errors are only logged by the consensus state machine. *)

From S2P Require Import Prelude TmBits TmValidators TmPriority TmValUpdate TmTypes TmCommit TmMerkle TmPartSet TmPrivval TmBlock.
From S2P Require Import TmStore TmState TmConsensus TmConsVotes.

(** ** The median of the times of a commit *)
Record WeightedTime := mkWeightedTime { wt_Time : Z; wt_Weight : Z }.

(** Times are nanoseconds since the zero time of Go; [UnixNano] counts from 1970 and wraps around. *)
Definition UnixNano (t : Z) : Z := i64 (t - 62135596800 * 10 ^ 9).

Definition time_less (a b : option WeightedTime) : bool :=
  match a, b with
  | None, _ => false
  | _, None => true
  | Some a, Some b => bool_decide (UnixNano (wt_Time a) < UnixNano (wt_Time b))
  end.

(** The zero time if the loop runs through. *)
Definition zero_time : Z := 0.

Fixpoint median_loop (median : Z) (l : list (option WeightedTime)) : Z :=
  match l with
  | [] => zero_time
  | None :: l' => median_loop median l'
  | Some wt :: l' => if decide (median ≤ wt_Weight wt) then wt_Time wt else median_loop (i64 (median - wt_Weight wt)) l'
  end.

Section median.
Context `{GoSort}.

Definition WeightedMedian (weightedTimes : list (option WeightedTime)) (totalVotingPower : Z) : Z :=
  median_loop (Z.quot totalVotingPower 2) (go_sort time_less weightedTimes).

Definition weighted_time (validators : ValidatorSet) (cs : CommitSig) : option WeightedTime :=
  if Absent cs then None
  else (λ v : Validator, mkWeightedTime (cs_Timestamp cs) (VotingPower v)) <$> (GetByAddress validators (cs_ValidatorAddress cs)).2.

Definition MedianTime (commit : Commit) (validators : ValidatorSet) : Z :=
  let weightedTimes := weighted_time validators <$> c_Signatures commit in
  let totalVotingPower := foldl (λ sum wt, match wt with Some wt => i64 (sum + wt_Weight wt) | None => sum end) 0 weightedTimes in
  WeightedMedian weightedTimes totalVotingPower.
End median.

(** ** Consensus parameters *)
Definition MaxBlockSizeBytes : Z := 104857600.
Definition ABCIPubKeyTypeEd25519 : bytes := [101; 100; 50; 53; 53; 49; 57].
Definition ABCIPubKeyTypeSecp256k1 : bytes := [115; 101; 99; 112; 50; 53; 54; 107; 49].

Definition IsValidPubkeyType (params : ConsensusParams) (pubkeyType : bytes) : bool :=
  bool_decide (pubkeyType ∈ cp_PubKeyTypes params).

Definition ValidateConsensusParams (params : ConsensusParams) : bool :=
  bool_decide (0 < cp_MaxBytes params ∧ cp_MaxBytes params ≤ MaxBlockSizeBytes ∧ -1 ≤ cp_MaxGas params ∧
    0 < cp_TimeIotaMs params ∧ 0 < cp_MaxAgeNumBlocks params ∧ 0 < cp_MaxAgeDuration params ∧
    cp_EvidenceMaxBytes params ≤ cp_MaxBytes params ∧ 0 ≤ cp_EvidenceMaxBytes params ∧ cp_PubKeyTypes params ≠ [] ∧
    Forall (λ t, t = ABCIPubKeyTypeEd25519 ∨ t = ABCIPubKeyTypeSecp256k1) (cp_PubKeyTypes params)).

(** [abci.ConsensusParams]: each group may be nil. *)
Record ParamUpdates := mkParamUpdates {
  pu_Block : option (Z * Z); pu_Evidence : option (Z * Z * Z); pu_Validator : option (list bytes); pu_Version : option Z }.

Definition UpdateConsensusParams (p : ConsensusParams) (u : ParamUpdates) : ConsensusParams :=
  let '(mb, mg) := default (cp_MaxBytes p, cp_MaxGas p) (pu_Block u) in
  let '(an, ad, eb) := default (cp_MaxAgeNumBlocks p, cp_MaxAgeDuration p, cp_EvidenceMaxBytes p) (pu_Evidence u) in
  mkParams mb mg (cp_TimeIotaMs p) an ad eb (default (cp_PubKeyTypes p) (pu_Validator u)) (default (cp_AppVersion p) (pu_Version u)).

(** ** The services *)
Inductive PublicKey_Sum := PublicKey_Ed25519 (key : bytes) | PublicKey_Secp256K1 (key : bytes) | PublicKey_other.

(** The key and its type. *)
Definition PubKeyFromProto (k : PublicKey_Sum) : option (bytes * bytes) :=
  match k with
  | PublicKey_Ed25519 key => if decide (len key ≠ 32) then None else Some (key, ABCIPubKeyTypeEd25519)
  | PublicKey_Secp256K1 key => if decide (len key ≠ 33) then None else Some (key, ABCIPubKeyTypeSecp256k1)
  | PublicKey_other => None
  end.

Record ValidatorUpdate := mkValidatorUpdate { vu_PubKey : PublicKey_Sum; vu_Power : Z }.
Record ResponseEndBlock := mkEndBlock { eb_ValidatorUpdates : list ValidatorUpdate; eb_ConsensusParamUpdates : option ParamUpdates }.

Class Services := {
  PendingEvidence : nat → Z → list Evidence * Z;
  CheckEvidence : nat → list Evidence → outcome bool;
  evpool_Update : nat → smState → list Evidence → outcome unit;
  ReapMaxBytesMaxGas : nat → Z → Z → list bytes;
  FlushAppConn : nat → bool;
  mempool_Update : nat → Z → list bytes → bool;
  BeginBlockSync : nat → Block → bool;
  EndBlockSync : nat → Z → option ResponseEndBlock;
  CommitSync : nat → option (bytes * Z);
  SaveABCIResponses : nat → Z → bool;
  LoadValidators : nat → Z → option ValidatorSet;
  store_Save : nat → smState → bool;
  block_times : nat → Z * Z;
  HashedParams_Marshal : Z → Z → bytes;
  ResponseDeliverTx_Marshal : bytes;
  EvidenceList_Size : list Evidence → outcome Z;
}.

Inductive exec_error :=
| ErrBlockBasic (e : block_error) | ErrVersion | ErrChainID | ErrInitialHeight | ErrBlockHeight | ErrPrevBlockID | ErrAppHash
| ErrConsensusParamsHash | ErrResultsHash | ErrValsHash | ErrNextValsHash | ErrInitialCommit | ErrVerifyCommit (e : commit_error)
| ErrProposerSize | ErrNotValidator | ErrTimeOrder | ErrMedianTime | ErrGenesisTime | ErrLowHeight | ErrEvidenceSize.

Section exec.
Context {CR : Crypto} {BC : BlockCodec} {SV : Services} {GS : GoSort}.

Definition HashConsensusParams (p : ConsensusParams) : bytes := Sum (HashedParams_Marshal (cp_MaxBytes p) (cp_MaxGas p)).

(** ** Validation *)

(** A method call on a nil set panics. *)
Definition need {A} (o : option A) : outcome A := match o with Some a => Ok a | None => Panic end.

(** The size of the evidence is cached, computed only for a list that is not empty. *)
Definition ByteSize (evl : list Evidence) : outcome Z := if decide (evl = []) then Ok 0 else EvidenceList_Size evl.

(** The time of a block, and the size of its evidence. *)
Definition validate_time (state : smState) (b : Block) (lastCommit : Commit) : outcome (option exec_error) :=
  let h := b_Header b in
  let! e := (if decide (sm_InitialHeight state < h_Height h) then
               if decide (h_Time h ≤ sm_LastBlockTime state) then Ok (Some ErrTimeOrder) else
               let! last := need (sm_LastValidators state) in
               Ok (if decide (h_Time h ≠ MedianTime lastCommit last) then Some ErrMedianTime else None)
             else if decide (h_Height h = sm_InitialHeight state) then
               Ok (if decide (h_Time h ≠ sm_LastBlockTime state) then Some ErrGenesisTime else None)
             else Ok (Some ErrLowHeight)) in
  match e with
  | Some e => Ok (Some e)
  | None =>
      let! got := ByteSize (b_Evidence b) in
      Ok (if decide (cp_EvidenceMaxBytes (sm_ConsensusParams state) < got) then Some ErrEvidenceSize else None)
  end.

(** The last commit and the proposer, then the time. *)
Definition validate_commit (state : smState) (b : Block) (vals : ValidatorSet) : outcome (option exec_error) :=
  let h := b_Header b in
  let! lastCommit := need (b_LastCommit b) in
  let! e := (if decide (h_Height h = sm_InitialHeight state) then
               Ok (if decide (c_Signatures lastCommit ≠ []) then Some ErrInitialCommit else None)
             else
               let! last := need (sm_LastValidators state) in
               let! (e, _) := VerifyCommit VerifySignature MarshalVote (sm_ChainID state) (sm_LastBlockID state) (i64 (h_Height h - 1)) lastCommit last in
               Ok (ErrVerifyCommit <$> e)) in
  match e with
  | Some e => Ok (Some e)
  | None =>
      if decide (len (h_ProposerAddress h) ≠ AddressSize) then Ok (Some ErrProposerSize)
      else if negb (HasAddress vals (h_ProposerAddress h)) then Ok (Some ErrNotValidator)
      else validate_time state b lastCommit
  end.

Definition validateBlock (state : smState) (block : option Block) : outcome (option exec_error) :=
  let! e := Block_ValidateBasic block in
  match e, block with
  | Some e, _ => Ok (Some (ErrBlockBasic e))
  | None, None => Panic
  | None, Some b =>
      let h := b_Header b in
      if decide (ver_App (h_Version h) ≠ ver_App (sm_Version state) ∨ ver_Block (h_Version h) ≠ ver_Block (sm_Version state))
      then Ok (Some ErrVersion)
      else if decide (h_ChainID h ≠ sm_ChainID state) then Ok (Some ErrChainID)
      else if decide (sm_LastBlockHeight state = 0 ∧ h_Height h ≠ sm_InitialHeight state) then Ok (Some ErrInitialHeight)
      else if decide (0 < sm_LastBlockHeight state ∧ h_Height h ≠ i64 (sm_LastBlockHeight state + 1)) then Ok (Some ErrBlockHeight)
      else if negb (Equals (h_LastBlockID h) (sm_LastBlockID state)) then Ok (Some ErrPrevBlockID)
      else if decide (h_AppHash h ≠ sm_AppHash state) then Ok (Some ErrAppHash)
      else if decide (h_ConsensusHash h ≠ HashConsensusParams (sm_ConsensusParams state)) then Ok (Some ErrConsensusParamsHash)
      else if decide (h_LastResultsHash h ≠ sm_LastResultsHash state) then Ok (Some ErrResultsHash)
      else
        let! vals := need (sm_Validators state) in
        let! vh := ValidatorSet_Hash vals in
        if decide (h_ValidatorsHash h ≠ vh) then Ok (Some ErrValsHash) else
        let! next := need (sm_NextValidators state) in
        let! nh := ValidatorSet_Hash next in
        if decide (h_NextValidatorsHash h ≠ nh) then Ok (Some ErrNextValsHash) else
        validate_commit state b vals
  end.

Definition exec_ValidateBlock (n : nat) (state : smState) (block : option Block) : outcome bool :=
  let! e := validateBlock state block in
  match e, block with
  | Some _, _ => Ok false
  | None, Some b => CheckEvidence n (b_Evidence b)
  | None, None => Panic
  end.

(** ** Proposing *)
Definition MaxOverheadForBlock : Z := 11.
Definition MaxHeaderBytes : Z := 626.
Definition MaxCommitOverheadBytes : Z := 94.
Definition MaxCommitSigBytes : Z := 109.
Definition MaxCommitBytes (valCount : Z) : Z := MaxCommitOverheadBytes + (MaxCommitSigBytes + 2) * valCount.

Definition MaxDataBytes (maxBytes evidenceBytes valsCount : Z) : outcome Z :=
  let maxDataBytes := maxBytes - MaxOverheadForBlock - MaxHeaderBytes - MaxCommitBytes valsCount - evidenceBytes in
  if decide (maxDataBytes < 0) then Panic else Ok maxDataBytes.

Definition types_MakeBlock (height delayTime deliverTime : Z) (txs : list bytes) (lastCommit : Commit) (evidence : list Evidence) : outcome Block :=
  fillHeader (mkBlock (mkHeader (mkConsensusVersion BlockProtocol 0) [] height zero_time delayTime deliverTime BlockID_nil None None
                         [] [] [] [] [] None []) txs evidence (Some lastCommit)).

Definition Populate (version : Consensus) (chainID : bytes) (timestamp : Z) (lastBlockID : BlockID)
    (valHash nextValHash consensusHash appHash lastResultsHash proposerAddress : bytes) (h : BlockHeader) : BlockHeader :=
  mkHeader version chainID (h_Height h) timestamp (h_DelayTime h) (h_DeliverTime h) lastBlockID (h_LastCommitHash h) (h_DataHash h)
    valHash nextValHash consensusHash appHash lastResultsHash (h_EvidenceHash h) proposerAddress.

Definition State_MakeBlock (state : smState) (height delayTime deliverTime : Z) (txs : list bytes) (commit : Commit)
    (evidence : list Evidence) (proposerAddress : bytes) : outcome (Block * PartSet) :=
  let! block := types_MakeBlock height delayTime deliverTime txs commit evidence in
  let! timestamp := (if decide (height = sm_InitialHeight state) then Ok (sm_LastBlockTime state)
                     else let! last := need (sm_LastValidators state) in Ok (MedianTime commit last)) in
  let! vals := need (sm_Validators state) in
  let! vh := ValidatorSet_Hash vals in
  let! next := need (sm_NextValidators state) in
  let! nh := ValidatorSet_Hash next in
  let h := Populate (sm_Version state) (sm_ChainID state) timestamp (sm_LastBlockID state) vh nh
             (HashConsensusParams (sm_ConsensusParams state)) (sm_AppHash state) (sm_LastResultsHash state) proposerAddress (b_Header block) in
  let block := mkBlock h (b_Txs block) (b_Evidence block) (b_LastCommit block) in
  let! parts := MakePartSet block BlockPartSizeBytes in
  Ok (block, parts).

Definition exec_CreateProposalBlock (n : nat) (height : Z) (state : smState) (commit : Commit) (proposerAddr : bytes) :
    outcome (option (Block * PartSet)) :=
  let params := sm_ConsensusParams state in
  let (evidence, evSize) := PendingEvidence n (cp_EvidenceMaxBytes params) in
  let! vals := need (sm_Validators state) in
  let! maxDataBytes := MaxDataBytes (cp_MaxBytes params) evSize (Z.of_nat (length (Validators vals))) in
  let txs := ReapMaxBytesMaxGas n maxDataBytes (cp_MaxGas params) in
  let (delay, deliver) := block_times n in
  let! r := State_MakeBlock state height delay deliver txs commit evidence proposerAddr in
  Ok (Some r).

(** ** Execution *)

(** What getBeginBlockValidatorInfo checks; its result is only passed on. *)
Definition begin_block_info (n : nat) (block : Block) (initialHeight : Z) : outcome unit :=
  if decide (initialHeight < h_Height (b_Header block)) then
    let! lastValSet := need (LoadValidators n (i64 (h_Height (b_Header block) - 1))) in
    let! lastCommit := need (b_LastCommit block) in
    if decide (length (c_Signatures lastCommit) ≠ length (Validators lastValSet)) then Panic else Ok tt
  else let! _ := need (b_LastCommit block) in Ok tt.

(** The transactions are not delivered to the application (the loop is commented out); every result is OK. *)
Definition execBlockOnProxyApp (n : nat) (block : Block) (initialHeight : Z) : outcome (option ResponseEndBlock) :=
  let! _ := begin_block_info n block initialHeight in
  if negb (BeginBlockSync n block) then Ok None else Ok (EndBlockSync n (h_Height (b_Header block))).

Definition ResultsHash (txs : list bytes) : outcome bytes :=
  HashFromByteSlices Sum ((λ _, ResponseDeliverTx_Marshal) <$> txs).

Definition validateValidatorUpdates (updates : list ValidatorUpdate) (params : ConsensusParams) : bool :=
  forallb (λ u,
    if decide (vu_Power u < 0) then false
    else if decide (vu_Power u = 0) then true
    else match PubKeyFromProto (vu_PubKey u) with Some (_, ty) => IsValidPubkeyType params ty | None => false end) updates.

Definition PB2TM_ValidatorUpdates (vals : list ValidatorUpdate) : option (list Validator) :=
  mapM (λ u, (λ k, NewValidator key_Address k.1 (vu_Power u)) <$> PubKeyFromProto (vu_PubKey u)) vals.

Definition set_App (app : Z) (v : Consensus) : Consensus := mkConsensusVersion (ver_Block v) app.

Definition updateState (state : smState) (blockID : BlockID) (header : BlockHeader) (txs : list bytes) (resp : ResponseEndBlock)
    (validatorUpdates : list Validator) : outcome (option smState) :=
  let! next := need (sm_NextValidators state) in
  let! (err, nValSet) := (if decide (validatorUpdates = []) then Ok (None, next) else updateWithChangeSet validatorUpdates true next) in
  match err with
  | Some _ => Ok None
  | None =>
      let lastHeightValsChanged :=
        if decide (validatorUpdates = []) then sm_LastHeightValidatorsChanged state else i64 (h_Height header + 1 + 1) in
      let! (_, nValSet) := IncrementProposerPriority 1 nValSet in
      let nextParams :=
        match eb_ConsensusParamUpdates resp with
        | Some u => UpdateConsensusParams (sm_ConsensusParams state) u
        | None => sm_ConsensusParams state
        end in
      if bool_decide (eb_ConsensusParamUpdates resp ≠ None) && negb (ValidateConsensusParams nextParams) then Ok None else
      let! rh := ResultsHash txs in
      let version :=
        match eb_ConsensusParamUpdates resp with Some _ => set_App (cp_AppVersion nextParams) (sm_Version state) | None => sm_Version state end in
      let lastHeightParamsChanged :=
        match eb_ConsensusParamUpdates resp with Some _ => i64 (h_Height header + 1) | None => sm_LastHeightConsensusParamsChanged state end in
      let! vals := need (sm_Validators state) in
      Ok (Some (mkState version (sm_ChainID state) (sm_InitialHeight state) (h_Height header) blockID (h_Time header)
                  (Some nValSet) (Some next) (Some vals) lastHeightValsChanged nextParams lastHeightParamsChanged rh []))
  end.

Definition set_AppHash (h : bytes) (s : smState) : smState :=
  mkState (sm_Version s) (sm_ChainID s) (sm_InitialHeight s) (sm_LastBlockHeight s) (sm_LastBlockID s) (sm_LastBlockTime s)
    (sm_NextValidators s) (sm_Validators s) (sm_LastValidators s) (sm_LastHeightValidatorsChanged s) (sm_ConsensusParams s)
    (sm_LastHeightConsensusParamsChanged s) (sm_LastResultsHash s) h.

Definition exec_Commit (n : nat) (block : Block) : option (bytes * Z) :=
  if negb (FlushAppConn n) then None else
  match CommitSync n with
  | None => None
  | Some res => if mempool_Update n (h_Height (b_Header block)) (b_Txs block) then Some res else None
  end.

(** The state, the height to retain and whether there was no error. *)
Definition exec_ApplyBlock (n : nat) (state : smState) (blockID : BlockID) (block : Block) : outcome (smState * Z * bool) :=
  let! e := validateBlock state (Some block) in
  match e with
  | Some _ => Ok (state, 0, false)
  | None =>
      let! r := execBlockOnProxyApp n block (sm_InitialHeight state) in
      match r with
      | None => Ok (state, 0, false)
      | Some resp =>
          if negb (SaveABCIResponses n (h_Height (b_Header block))) then Ok (state, 0, false)
          else if negb (validateValidatorUpdates (eb_ValidatorUpdates resp) (sm_ConsensusParams state)) then Ok (state, 0, false)
          else
            match PB2TM_ValidatorUpdates (eb_ValidatorUpdates resp) with
            | None => Ok (state, 0, false)
            | Some validatorUpdates =>
                let! u := updateState state blockID (b_Header block) (b_Txs block) resp validatorUpdates in
                match u with
                | None => Ok (state, 0, false)
                | Some state' =>
                    match exec_Commit n block with
                    | None => Ok (state', 0, false)
                    | Some (appHash, retainHeight) =>
                        let! _ := evpool_Update n state' (b_Evidence block) in
                        let state'' := set_AppHash appHash state' in
                        Ok (if store_Save n state'' then (state'', retainHeight, true) else (state'', 0, false))
                    end
                end
            end
      end
  end.

#[global] Instance exec : BlockExecutor :=
  {| CreateProposalBlock := exec_CreateProposalBlock; ValidateBlock := exec_ValidateBlock; ApplyBlock := exec_ApplyBlock |}.
End exec.
