(* ===== verification/TmStoreFacts.v ===== *)
(** What the block store promises: a saved block is loaded back, by height and by hash, with its commits, and no other
    height changes; pruning removes exactly the heights below the new base. *)

From S2P Require Import Prelude TmBits TmValidators TmPriority TmTypes TmCommit TmVotes TmHeightVotes TmMerkle TmPartSet TmBlock TmStore TmConsVotes.

Section store.
Context {BC : BlockCodec}.
Context (Sum_size : ∀ bs, len (Sum bs) = HashSize).

(** ** Filling a header that is complete *)
Lemma merkle_root_size items h : HashFromByteSlices Sum items = Ok h → len h = HashSize.
Proof.
  unfold HashFromByteSlices. destruct items as [|x [|y l]]; cbn [length hash_slices]; [intros [= <-]; apply Sum_size..|].
  intros (k & _ & E)%obind_Ok. apply obind_Ok in E as ([l1 l2] & _ & E). apply obind_Ok in E as (h1 & _ & E).
  apply obind_Ok in E as (h2 & _ & E). injection E as <-. apply Sum_size.
Qed.

Lemma filled o h : slice o = h → len h = HashSize → o = Some h.
Proof. destruct o; cbn; [congruence|]. intros <-. unfold HashSize, len. cbn. lia. Qed.

(** A block that passes its checks is its own filled block, so the hash in its meta is that of its header. *)
Lemma valid_hash b : Block_ValidateBasic (Some b) = Ok None →
  Block_Hash (Some b) = Header_Hash (Some (b_Header b)) ∧ Header_ValidateBasic (b_Header b) = None ∧ b_LastCommit b ≠ None.
Proof.
  unfold Block_ValidateBasic. destruct (Header_ValidateBasic (b_Header b)); [done|]. destruct (b_LastCommit b) as [c|] eqn:Ec; [|done].
  destruct (Commit_ValidateBasic c); [done|]. unfold Commit_Hash at 1. rewrite obind_Ok. intros (ch & (x & Ex & [= <-])%obind_Ok & E).
  case_decide as H1; [done|]. apply obind_Ok in E as (dh & Ed & E). case_decide as H2; [done|].
  apply obind_Ok in E as (e & _ & E). destruct e; [done|]. apply obind_Ok in E as (eh & Ee & E). unfold check in E.
  injection E as E. case_match eqn:H3; [done|]. apply bool_decide_eq_false, dec_stable in H3.
  apply filled in H1; [|by eapply merkle_root_size]. apply filled in H2; [|by eapply merkle_root_size].
  assert (len eh = HashSize) as He by (unfold EvidenceList_Hash in Ee; apply obind_Ok in Ee as (? & _ & Ee); by eapply merkle_root_size).
  apply filled in H3; [|done]. split_and!; [|done|done]. unfold Block_Hash. rewrite Ec. unfold fillHeader. rewrite H1, H2, H3. cbn [outcome_bind].
  cbn [b_Header]. do 2 f_equal. clear -H1 H2 H3. destruct (b_Header b). cbn in H1, H2, H3. by subst.
Qed.

Lemma header_hash_valid h o : Header_Hash h = Ok o → ValidateHash (slice o) = None.
Proof.
  unfold Header_Hash. destruct h as [h|]; [|by intros [= <-]]. case_decide; [by intros [= <-]|]. destruct (StdTimeMarshal _); [|by intros [= <-]].
  intros (r & Er & [= <-])%obind_Ok. apply merkle_root_size in Er. unfold ValidateHash. cbn. by rewrite decide_False by lia.
Qed.

(** ** Parts *)
Definition parts_of (ps : PartSet) (l : list Part) : Prop := ps_parts ps = Some <$> l ∧ ps_total ps = Z.of_nat (length l).

Lemma contents_parts l : contents (Some <$> l) = concat (pt_Bytes <$> l).
Proof. unfold contents. by rewrite <-list_fmap_compose. Qed.

Lemma save_parts_run n : ∀ height i ps l bs u bs', ps_parts ps = Some <$> l → 0 ≤ i →
  save_parts n height i ps bs = Ok (u, bs') →
  (∀ j p, 0 ≤ j → (Z.to_nat i ≤ Z.to_nat j < Z.to_nat i + n)%nat → l !! Z.to_nat j = Some p → bs_parts bs' !! (height, j) = Some p) ∧
  (∀ key, key.1 ≠ height ∨ key.2 < i → bs_parts bs' !! key = bs_parts bs !! key) ∧
  bs_base bs' = bs_base bs ∧ bs_height bs' = bs_height bs ∧ bs_metas bs' = bs_metas bs ∧ bs_commits bs' = bs_commits bs ∧
  bs_seen bs' = bs_seen bs ∧ bs_hashes bs' = bs_hashes bs.
Proof.
  induction n as [|n IH]; intros height i ps l bs u bs' Hl Hi E; cbn [save_parts] in E.
  - apply ret_Ok in E as [_ <-]. split_and!; try done. intros j p Hj Hr. lia.
  - apply bind_Ok in E as (part & s1 & [Ep <-]%lift_Ok & E). destruct part as [p|]; [|done].
    apply bind_Ok in E as ([] & s1 & ->%modify_Ok & E).
    destruct (IH height (i + 1) ps l _ u bs' Hl ltac:(lia) E) as (I1 & I2 & I3). cbn in I2, I3. split_and!; try apply I3.
    + intros j p' Hj Hr Hp'. destruct (decide (j = i)) as [->|Hne]; [|apply I1; [done|lia|done]].
      rewrite I2 by (right; cbn; lia). rewrite lookup_insert_eq. unfold GetPart, slice_get in Ep. rewrite decide_True in Ep by done.
      rewrite Hl, list_lookup_fmap, Hp' in Ep. cbn in Ep. congruence.
    + intros key Hk. rewrite I2 by (destruct Hk; [by left|right; lia]). rewrite lookup_insert_ne; [done|]. intros <-. cbn in Hk. destruct Hk; [done|lia].
Qed.

Lemma load_parts_run n : ∀ height i l bs, 0 ≤ i → (∀ p, p ∈ l → Part_ValidateBasic p = None) → n = length l →
  (∀ j p, l !! j = Some p → bs_parts bs !! (height, i + Z.of_nat j) = Some p) →
  load_parts n height i bs = Ok (Some (concat (pt_Bytes <$> l))).
Proof.
  induction n as [|n IH]; intros height i l bs Hi Hv Hn Hl; destruct l as [|p l]; try done. cbn [load_parts].
  unfold LoadBlockPart. pose proof (Hl 0%nat p eq_refl) as Hp. rewrite Z.add_0_r in Hp. rewrite Hp, (Hv p) by (by left). cbn [outcome_bind].
  rewrite (IH height (i + 1) l bs); [done|lia|intros q Hq; apply Hv; by right|by injection Hn|].
  intros j q Hq. specialize (Hl (S j) q Hq). by replace (i + 1 + Z.of_nat j) with (i + Z.of_nat (S j)) by lia.
Qed.

(** What is loaded of a height depends on its parts only. *)
Lemma load_parts_same n height : ∀ i bs1 bs2, (∀ i, bs_parts bs1 !! (height, i) = bs_parts bs2 !! (height, i)) →
  load_parts n height i bs1 = load_parts n height i bs2.
Proof.
  induction n as [|n IH]; intros i bs1 bs2 H; [done|]. cbn [load_parts]. unfold LoadBlockPart. rewrite H.
  destruct (bs_parts bs2 !! (height, i)) as [p|]; [|done]. destruct (Part_ValidateBasic p); [done|]. cbn [outcome_bind]. by rewrite (IH _ bs1 bs2).
Qed.

(** ** Saving and loading *)

(** What SaveBlock is given by the consensus state machine: a valid block and the complete set of its parts. *)
Record storable (block : Block) (ps : PartSet) (l : list Part) : Prop := {
  st_valid : Block_ValidateBasic (Some block) = Ok None;
  st_parts : parts_of ps l;
  st_basic : ∀ p, p ∈ l → Part_ValidateBasic p = None;
  st_bytes : Block_Unmarshal (concat (pt_Bytes <$> l)) = Some block;
  st_hash : psh_ValidateBasic (Header (Some ps)) = None;
  st_complete : ps_IsComplete ps = true;
}.

Lemma save_parts_total n : ∀ height i ps l bs, ps_parts ps = Some <$> l → 0 ≤ i → i + Z.of_nat n ≤ Z.of_nat (length l) →
  ∃ bs', save_parts n height i ps bs = Ok (tt, bs').
Proof.
  induction n as [|n IH]; intros height i ps l bs Hl Hi Hn; [by eexists|]. cbn [save_parts].
  destruct (lookup_lt_is_Some_2 l (Z.to_nat i) ltac:(lia)) as [p Hp]. unfold GetPart, slice_get. rewrite decide_True by done.
  rewrite Hl, list_lookup_fmap, Hp. unfold bind, lift, saveBlockPart, modify. cbn [fmap option_fmap option_map outcome_bind].
  apply (IH height (i + 1) ps l); [done|lia|lia].
Qed.

Lemma Header_Hash_total h : ∃ o, Header_Hash h = Ok o.
Proof.
  unfold Header_Hash. destruct h as [h|]; [|by eexists]. case_decide; [by eexists|]. destruct (StdTimeMarshal _) as [b|]; [|by eexists].
  destruct (HashFromByteSlices_total Sum (header_fields h b)) as [r ->]. by eexists.
Qed.

(** Saving the next block returns. *)
Lemma SaveBlock_total block ps l seen bs : storable block ps l →
  bs_base bs ≤ 0 ∨ h_Height (b_Header block) = i64 (bs_height bs + 1) → ∃ bs', SaveBlock (Some block) ps seen bs = Ok (tt, bs').
Proof.
  intros [Sv [Sp St] Sb Su Sh Sc] Hn. destruct (valid_hash block Sv) as (Eh & _ & Hc). destruct (Header_Hash_total (Some (b_Header block))) as [o Eo].
  unfold SaveBlock, bind, lift, gets, modify. cbn [outcome_bind id]. rewrite Eh, Eo. cbn [outcome_bind]. rewrite decide_False by lia.
  rewrite Sc. cbn [negb]. destruct (save_parts_total (Z.to_nat (ps_total ps)) (h_Height (b_Header block)) 0 ps l bs Sp) as [bs1 E1]; [lia|lia|].
  rewrite E1. cbn [outcome_bind]. unfold NewBlockMeta. rewrite Eh, Eo. cbn [outcome_bind].
  destruct (b_LastCommit block); [|done]. by eexists.
Qed.

(** The parameters of a commit that a record of the store must have to be read back. *)
Definition sound_commit (c : Commit) : Prop := BlockID_ValidateBasic (c_BlockID c) = None ∧ Commit_ValidateBasic c = None.
#[export] Instance sound_commit_dec c : Decision (sound_commit c) := and_dec _ _.

Lemma load_commit_insert m h c : load_commit (<[h := c]> m) h = if decide (sound_commit c) then Ok (Some c) else Panic.
Proof.
  unfold load_commit. rewrite lookup_insert_eq. case_decide as Hc; unfold sound_commit in Hc.
  - by destruct Hc as [-> ->].
  - destruct (BlockID_ValidateBasic (c_BlockID c)), (Commit_ValidateBasic c); naive_solver.
Qed.
Lemma load_commit_other m h h' c : h' ≠ h → load_commit (<[h := c]> m) h' = load_commit m h'.
Proof. intros Hne. unfold load_commit. by rewrite lookup_insert_ne. Qed.

(** The store after a block was saved: the parts are those of the block at its height. *)
Definition saved (block : Block) (lc seen : Commit) (bm : BlockMeta) (hash : option bytes) (parts : gmap (Z * Z) Part) (bs : BlockStore) : BlockStore :=
  let h := h_Height (b_Header block) in
  mkBlockStore (if decide (bs_base bs = 0) then h else bs_base bs) h (<[h := bm]> (bs_metas bs)) parts
    (<[i64 (h - 1) := lc]> (bs_commits bs)) (<[h := seen]> (bs_seen bs)) (<[slice hash := h]> (bs_hashes bs)).

Lemma SaveBlock_saved block ps l seen bs u bs' :
  storable block ps l → SaveBlock (Some block) ps seen bs = Ok (u, bs') →
  let h := h_Height (b_Header block) in
  ∃ hash bm lc parts, Block_Hash (Some block) = Ok hash ∧ NewBlockMeta block ps = Ok bm ∧ b_LastCommit block = Some lc ∧
    bs' = saved block lc seen bm hash parts bs ∧
    (∀ j p, l !! j = Some p → parts !! (h, Z.of_nat j) = Some p) ∧ (∀ key, key.1 ≠ h → parts !! key = bs_parts bs !! key).
Proof.
  intros [Sv [Sp St] Sb Su Sh _] E h. unfold SaveBlock in E.
  apply bind_Ok in E as (hash & s1 & [Ehash <-]%lift_Ok & E). apply bind_Ok in E as (s0 & s1 & [-> <-]%gets_Ok & E).
  case_decide; [done|]. destruct (negb _); [done|]. apply bind_Ok in E as ([] & s1 & E1 & E). fold h in E, E1.
  destruct (save_parts_run _ _ _ _ l _ _ _ Sp (Z.le_refl 0) E1) as (P1 & P2 & P3 & P4 & P5 & P6 & P7 & P8).
  apply bind_Ok in E as (bm & s2 & [Ebm <-]%lift_Ok & E). destruct (b_LastCommit block) as [lc|] eqn:Elc; [|done].
  apply modify_Ok in E as ->. exists hash, bm, lc, (bs_parts s1). split_and!; [done|done|done| | |].
  - unfold saved. fold h. by rewrite P3, P5, P6, P7, P8.
  - intros j p Hj. apply P1; [lia|rewrite St; pose proof (lookup_lt_Some _ _ _ Hj); lia|by rewrite Nat2Z.id].
  - intros key Hk. apply P2. by left.
Qed.

(** The record of a saved block passes the checks of the reader. *)
Lemma saved_meta block ps l hash bm : storable block ps l → Block_Hash (Some block) = Ok hash → NewBlockMeta block ps = Ok bm →
  BlockMeta_ValidateBasic bm = Ok true ∧ bid_PartSetHeader (bm_BlockID bm) = Header (Some ps).
Proof.
  intros [Sv _ _ _ Sh _] Ehash Ebm. destruct (valid_hash block Sv) as (Eh & Hv & _).
  unfold NewBlockMeta in Ebm. rewrite Ehash in Ebm. cbn [outcome_bind] in Ebm. cbv zeta in Ebm. injection Ebm as <-. split; [|done].
  unfold BlockMeta_ValidateBasic. cbn [bm_BlockID bm_Header]. rewrite Eh in Ehash.
  assert (BlockID_ValidateBasic (mkBlockID (slice hash) (mkPartSetHeader (ps_total ps) (ps_hash ps))) = None) as ->.
  { unfold BlockID_ValidateBasic. cbn -[psh_ValidateBasic]. cbn [Header] in Sh. by rewrite (header_hash_valid _ _ Ehash), Sh. }
  rewrite Hv, Ehash. cbn [outcome_bind]. by rewrite bool_decide_eq_true_2.
Qed.

Section saved.
Context (block : Block) (ps : PartSet) (l : list Part) (lc seen : Commit) (bm : BlockMeta) (hash : option bytes) (parts : gmap (Z * Z) Part) (bs : BlockStore).
Context (S : storable block ps l) (Ehash : Block_Hash (Some block) = Ok hash) (Ebm : NewBlockMeta block ps = Ok bm).
Abbreviation h := (h_Height (b_Header block)).
Abbreviation bs' := (saved block lc seen bm hash parts bs).
Context (Hin : ∀ j p, l !! j = Some p → parts !! (h, Z.of_nat j) = Some p) (Hout : ∀ key, key.1 ≠ h → parts !! key = bs_parts bs !! key).

Lemma saved_LoadBlockMeta : LoadBlockMeta h bs' = Ok (Some bm).
Proof.
  destruct (saved_meta block ps l hash bm S Ehash Ebm) as [Hm _]. unfold LoadBlockMeta. cbn [bs_metas saved].
  by rewrite lookup_insert_eq, Hm.
Qed.
Lemma saved_LoadBlock : LoadBlock h bs' = Ok (Some block).
Proof.
  destruct (saved_meta block ps l hash bm S Ehash Ebm) as [_ Hp]. unfold LoadBlock. rewrite saved_LoadBlockMeta. cbn [outcome_bind].
  rewrite Hp. cbn [Header psh_Total]. destruct S as [Sv [Sp St] Sb Su _ _].
  rewrite (load_parts_run _ h 0 l bs'); [|lia|done|rewrite St; by rewrite Nat2Z.id|].
  - cbn [outcome_bind]. unfold BlockFromBytes. by rewrite Su, Sv.
  - intros j p Hj. rewrite Z.add_0_l. by apply Hin.
Qed.
Lemma saved_LoadBlockPart j p : l !! j = Some p → LoadBlockPart h (Z.of_nat j) bs' = Ok (Some p).
Proof.
  intros Hj. unfold LoadBlockPart. cbn [bs_parts saved]. rewrite (Hin j p Hj). by rewrite (st_basic _ _ _ S p (list_elem_of_lookup_2 _ _ _ Hj)).
Qed.
Lemma saved_other_meta h' : h' ≠ h → LoadBlockMeta h' bs' = LoadBlockMeta h' bs.
Proof. intros Hne. unfold LoadBlockMeta. cbn [bs_metas saved]. by rewrite lookup_insert_ne. Qed.
Lemma saved_other_part h' i : h' ≠ h → LoadBlockPart h' i bs' = LoadBlockPart h' i bs.
Proof. intros Hne. unfold LoadBlockPart. cbn [bs_parts saved]. by rewrite Hout. Qed.
Lemma saved_other_block h' : h' ≠ h → LoadBlock h' bs' = LoadBlock h' bs.
Proof.
  intros Hne. unfold LoadBlock. rewrite saved_other_meta by done. destruct (LoadBlockMeta h' bs) as [[bm'|]| |]; [|done..]. cbn [outcome_bind].
  rewrite (load_parts_same _ h' _ bs' bs); [done|]. intros i. by apply Hout.
Qed.
Lemma saved_LoadBlockByHash : LoadBlockByHash (slice hash) bs' = Ok (Some block).
Proof. unfold LoadBlockByHash. cbn [bs_hashes saved]. rewrite lookup_insert_eq. apply saved_LoadBlock. Qed.
Lemma saved_other_hash x : x ≠ slice hash → bs_hashes bs !! x ≠ Some h → LoadBlockByHash x bs' = LoadBlockByHash x bs.
Proof.
  intros Hne Hh. unfold LoadBlockByHash. cbn [bs_hashes saved]. rewrite lookup_insert_ne by done.
  destruct (bs_hashes bs !! x) as [h'|]; [|done]. apply saved_other_block. congruence.
Qed.
End saved.

(** C16: SaveBlock of the block after the last one returns.  The store then answers with the saved block under its
    height and its hash, with its meta and every part of it, with its last commit under the height below and with
    the seen commit under its own (a commit that fails its own checks was saved all the same, and makes the reader panic);
    it reaches up to the saved height, and what it answers for the other heights and hashes has not changed. *)
Theorem SaveBlock_LoadBlock block ps l seen bs :
  storable block ps l → bs_base bs ≤ 0 ∨ h_Height (b_Header block) = i64 (bs_height bs + 1) →
  let h := h_Height (b_Header block) in
  ∃ bs' hash bm lc, SaveBlock (Some block) ps seen bs = Ok (tt, bs') ∧
    Block_Hash (Some block) = Ok hash ∧ NewBlockMeta block ps = Ok bm ∧ b_LastCommit block = Some lc ∧
    LoadBlock h bs' = Ok (Some block) ∧ LoadBlockByHash (slice hash) bs' = Ok (Some block) ∧ LoadBlockMeta h bs' = Ok (Some bm) ∧
    (∀ j p, l !! j = Some p → LoadBlockPart h (Z.of_nat j) bs' = Ok (Some p)) ∧
    LoadBlockCommit (i64 (h - 1)) bs' = (if decide (sound_commit lc) then Ok (Some lc) else Panic) ∧
    LoadSeenCommit h bs' = (if decide (sound_commit seen) then Ok (Some seen) else Panic) ∧
    bs_height bs' = h ∧ bs_base bs' = (if decide (bs_base bs = 0) then h else bs_base bs) ∧
    (∀ h', h' ≠ h → LoadBlock h' bs' = LoadBlock h' bs ∧ LoadBlockMeta h' bs' = LoadBlockMeta h' bs ∧
      (∀ i, LoadBlockPart h' i bs' = LoadBlockPart h' i bs) ∧ LoadSeenCommit h' bs' = LoadSeenCommit h' bs) ∧
    (∀ h', h' ≠ i64 (h - 1) → LoadBlockCommit h' bs' = LoadBlockCommit h' bs) ∧
    (∀ x, x ≠ slice hash → bs_hashes bs !! x ≠ Some h → LoadBlockByHash x bs' = LoadBlockByHash x bs).
Proof.
  intros S Hn h. destruct (SaveBlock_total block ps l seen bs S Hn) as [bs' E].
  destruct (SaveBlock_saved block ps l seen bs tt bs' S E) as (hash & bm & lc & parts & Eh & Em & Ec & -> & P1 & P2).
  exists (saved block lc seen bm hash parts bs), hash, bm, lc.
  split_and!; [done|done|done|done|by eapply saved_LoadBlock|by eapply saved_LoadBlockByHash|by eapply saved_LoadBlockMeta|
    intros j p; by eapply saved_LoadBlockPart|apply load_commit_insert|apply load_commit_insert|done|done|..].
  - intros h' Hne. split_and!; [by apply saved_other_block|by apply saved_other_meta|intros i; by apply saved_other_part|by apply load_commit_other].
  - intros h' Hne. by apply load_commit_other.
  - intros x. by apply saved_other_hash.
Qed.

(** ** Pruning *)
Lemma delete_parts_lookup n : ∀ h p m key, key.1 ≠ h → delete_parts n h p m !! key = m !! key.
Proof.
  induction n as [|n IH]; intros h p m key Hk; [done|]. cbn [delete_parts]. rewrite IH by done. apply lookup_delete_ne.
  intros <-. done.
Qed.

(** The number of heights that have a block among the [n] from [h] on. *)
Fixpoint stored (bs : BlockStore) (h : Z) (n : nat) : Z :=
  match n with O => 0 | S n' => (if decide (bs_metas bs !! h = None) then 0 else 1) + stored bs (h + 1) n' end.

Lemma stored_ext n : ∀ bs1 bs2 h, (∀ x, h ≤ x → bs_metas bs1 !! x = bs_metas bs2 !! x) → stored bs1 h n = stored bs2 h n.
Proof.
  induction n as [|n IH]; intros bs1 bs2 h H; [done|]. cbn [stored]. rewrite H by lia. rewrite (IH bs1 bs2); [done|]. intros x Hx. apply H. lia.
Qed.

(** The records of the heights pass their checks. *)
Definition sound_metas (bs : BlockStore) (P : Z → Prop) : Prop :=
  ∀ x bm, P x → bs_metas bs !! x = Some bm → BlockMeta_ValidateBasic bm = Ok true.

Lemma prune_heights_total n : ∀ h pruned bs, sound_metas bs (λ x, h ≤ x < h + Z.of_nat n) → ∃ m bs', prune_heights n h pruned bs = Ok (m, bs').
Proof.
  induction n as [|n IH]; intros h pruned bs Hs; [by do 2 eexists|]. cbn [prune_heights]. unfold bind, LoadBlockMeta, modify.
  destruct (bs_metas bs !! h) as [bm|] eqn:E.
  - rewrite (Hs h bm) by (done || lia). cbn [outcome_bind]. apply IH. intros x b Hx Hb. cbn in Hb. rewrite lookup_delete_ne in Hb by lia.
    apply (Hs x b); [lia|done].
  - cbn [outcome_bind]. apply IH. intros x b Hx Hb. apply (Hs x b); [lia|done].
Qed.

Lemma prune_heights_run n : ∀ h pruned bs m bs', prune_heights n h pruned bs = Ok (m, bs') →
  m = pruned + stored bs h n ∧ bs_base bs' = bs_base bs ∧ bs_height bs' = bs_height bs ∧
  (∀ x, h ≤ x < h + Z.of_nat n → bs_metas bs' !! x = None) ∧
  (∀ x, ¬ (h ≤ x < h + Z.of_nat n) → bs_metas bs' !! x = bs_metas bs !! x ∧ bs_commits bs' !! x = bs_commits bs !! x ∧
     bs_seen bs' !! x = bs_seen bs !! x) ∧
  (∀ key, ¬ (h ≤ key.1 < h + Z.of_nat n) → bs_parts bs' !! key = bs_parts bs !! key).
Proof.
  induction n as [|n IH]; intros h pruned bs m bs' E; cbn [prune_heights] in E.
  { apply ret_Ok in E as [-> <-]. cbn [stored]. split_and!; try done; lia. }
  apply bind_Ok in E as (meta & s1 & Em & E). apply obind_Ok in Em as (mm & Em & [= -> ->]).
  unfold LoadBlockMeta in Em. destruct meta as [bm|].
  - apply bind_Ok in E as ([] & s2 & ->%modify_Ok & E). destruct (IH _ _ _ _ _ E) as (I1 & I2 & I3 & I4 & I5 & I6).
    rewrite (stored_ext n _ s1) in I1 by (intros x Hx; cbn; apply lookup_delete_ne; lia). cbn [bs_base bs_height bs_metas bs_parts bs_commits bs_seen delete_height] in *.
    split_and!; [|done|done|..].
    + cbn [stored]. rewrite decide_False by (by intros H; rewrite H in Em). lia.
    + intros x Hx. destruct (decide (x = h)) as [->|Hne]; [|apply I4; lia].
      destruct (I5 h ltac:(lia)) as (-> & _). by rewrite lookup_delete_eq.
    + intros x Hx. destruct (I5 x ltac:(lia)) as (-> & -> & ->). by rewrite !lookup_delete_ne by lia.
    + intros key Hk. rewrite I6 by lia. apply delete_parts_lookup. lia.
  - destruct (IH _ _ _ _ _ E) as (I1 & I2 & I3 & I4 & I5 & I6).
    assert (Hnone : bs_metas s1 !! h = None) by (destruct (bs_metas s1 !! h); [|done]; apply obind_Ok in Em as ([] & _ & Em); done).
    split_and!; [cbn [stored]; rewrite decide_True by done; lia|done|done|..].
    + intros x Hx. destruct (decide (x = h)) as [->|Hne]; [|apply I4; lia]. by destruct (I5 h ltac:(lia)) as (-> & _).
    + intros x Hx. apply I5. lia.
    + intros key Hk. apply I6. lia.
Qed.

(** PruneBlocks refuses a height that is not positive, beyond the store or below its base, and changes nothing
    then.  Otherwise it returns, if the records of the heights in between pass their checks: the store starts at the new
    base, has no block below it, and every block from the base on, with its commits, is still there; the result is the
    number of blocks there were. *)
Theorem PruneBlocks_exact h bs : sound_metas bs (λ x, bs_base bs ≤ x < h) → ∃ r bs', PruneBlocks h bs = Ok (r, bs') ∧
  if decide (0 < h ∧ bs_base bs ≤ h ≤ bs_height bs) then
    r = inl (stored bs (bs_base bs) (Z.to_nat (h - bs_base bs))) ∧ bs_base bs' = h ∧ bs_height bs' = bs_height bs ∧
    (∀ x, bs_base bs ≤ x < h → LoadBlock x bs' = Ok None) ∧
    (∀ x, h ≤ x → LoadBlock x bs' = LoadBlock x bs ∧ LoadBlockCommit x bs' = LoadBlockCommit x bs ∧ LoadSeenCommit x bs' = LoadSeenCommit x bs)
  else bs' = bs ∧ ∃ e, r = inr e.
Proof.
  intros Hs. unfold PruneBlocks, bind at 1, gets. cbn [outcome_bind id].
  case_decide as Hh; [do 2 eexists; split; [done|]; rewrite decide_False by lia; eauto|].
  case_decide as Hb; [do 2 eexists; split; [done|]; rewrite decide_False by lia; eauto|].
  case_decide as Hl; [do 2 eexists; split; [done|]; rewrite decide_False by lia; eauto|].
  destruct (prune_heights_total (Z.to_nat (h - bs_base bs)) (bs_base bs) 0 bs) as (n & s1 & E1).
  { intros x bm Hx. apply Hs. lia. }
  unfold bind. rewrite E1. do 2 eexists. split; [done|]. rewrite decide_True by lia.
  destruct (prune_heights_run _ _ _ _ _ _ E1) as (-> & I2 & I3 & I4 & I5 & I6). rewrite Z2Nat.id in I4, I5, I6 by lia.
  cbn. split_and!; [done|done|done|..].
  - intros x Hx. unfold LoadBlock, LoadBlockMeta. cbn. by rewrite I4 by lia.
  - intros x Hx. destruct (I5 x ltac:(lia)) as (E2 & E3 & E4). unfold LoadBlockCommit, LoadSeenCommit, load_commit. cbn. rewrite E3, E4.
    split_and!; [|done|done]. unfold LoadBlock, LoadBlockMeta. cbn. rewrite E2.
    destruct (bs_metas bs !! x) as [bm|]; [|done]. destruct (BlockMeta_ValidateBasic bm) as [[]| |]; [|done..]. cbn [outcome_bind].
    rewrite (load_parts_same _ x _ _ bs); [done|]. intros i. apply I6. cbn. lia.
Qed.
End store.
