(* ===== verification/TmBlockFacts.v ===== *)
(** What the hash of a header covers, and two things it or the hash of evidence does not. *)

From S2P Require Import Prelude TmBits TmValidators TmTypes TmCommit TmVotes TmHeightVotes TmMerkle TmPartSet TmBlock TmConsVotes.

(** ** The root of a list of byte strings determines the list *)
Section roots.
Context (Sum : bytes → bytes) (Sum_length : ∀ x, length (Sum x) = 32%nat) (U : bytes → Prop) (HU : no_collision Sum U).

Lemma split_at_Ok {A} k (l l1 l2 : list A) : split_at k l = Ok (l1, l2) →
  l1 = take (Z.to_nat k) l ∧ l2 = drop (Z.to_nat k) l ∧ l = l1 ++ l2.
Proof. unfold split_at. case_decide; [|done]. intros [= <- <-]. split_and!; [done..|]. by rewrite take_drop. Qed.

Lemma hash_slices_length f l h : hash_slices Sum f l = Ok h → length h = 32%nat.
Proof.
  destruct f, l as [|x [|y l]]; cbn [hash_slices]; try (intros [= <-]; apply Sum_length); try done.
  intros (k & _ & E)%obind_Ok. apply obind_Ok in E as ([l1 l2] & _ & E). apply obind_Ok in E as (h1 & _ & E).
  apply obind_Ok in E as (h2 & _ & E). injection E as <-. apply Sum_length.
Qed.

(** What is hashed last, and from what it is made. *)
Inductive hashed (f : nat) (l : list bytes) : bytes → Prop :=
| hashed_nil : l = [] → hashed f l []
| hashed_leaf x : l = [x] → hashed f l (leafPrefix ++ x)
| hashed_inner g a b h1 h2 : f = S g → l = a ++ b → hash_slices Sum g a = Ok h1 → hash_slices Sum g b = Ok h2 →
    (∀ x, x ∈ slices_inputs Sum g a → x ∈ slices_inputs Sum f l) → (∀ x, x ∈ slices_inputs Sum g b → x ∈ slices_inputs Sum f l) →
    hashed f l (innerPrefix ++ h1 ++ h2).

Lemma hash_slices_view f l h : hash_slices Sum f l = Ok h → ∃ i, h = Sum i ∧ i ∈ slices_inputs Sum f l ∧ hashed f l i.
Proof.
  destruct l as [|x [|y l]].
  - intros E. exists []. split_and!; [by destruct f; injection E as <-|destruct f; by left|by apply hashed_nil].
  - intros E. exists (leafPrefix ++ x). split_and!; [by destruct f; injection E as <-|destruct f; by left|by apply hashed_leaf].
  - destruct f as [|f]; [done|]. set (k1 := x :: y :: l). intros E. change (hash_slices Sum (S f) k1) with
      (let! k := getSplitPoint (Z.of_nat (length k1)) in let! (a, b) := split_at k k1 in
       let! ha := hash_slices Sum f a in let! hb := hash_slices Sum f b in Ok (innerHash Sum ha hb)) in E.
    apply obind_Ok in E as (k & Ek & E). apply obind_Ok in E as ([a b] & Es & E). apply split_at_Ok in Es as (Ea & Eb & Eab).
    apply obind_Ok in E as (h1 & H1 & E). apply obind_Ok in E as (h2 & H2 & E). injection E as <-. exists (innerPrefix ++ h1 ++ h2).
    assert (Hin : slices_inputs Sum (S f) k1 = (innerPrefix ++ h1 ++ h2) :: slices_inputs Sum f a ++ slices_inputs Sum f b).
    { unfold k1. cbn [slices_inputs]. fold k1. by rewrite Ek, <-Ea, <-Eb, H1, H2. }
    split_and!; [done|rewrite Hin; by left|]. eapply hashed_inner; [done|exact Eab|done|done|..]; intros z Hz; rewrite Hin; right; apply elem_of_app; auto.
Qed.

Lemma hash_slices_inj f : ∀ f' l l' h, hash_slices Sum f l = Ok h → hash_slices Sum f' l' = Ok h →
  (∀ x, x ∈ slices_inputs Sum f l → U x) → (∀ x, x ∈ slices_inputs Sum f' l' → U x) → l = l'.
Proof.
  induction f as [|f IH]; intros f' l l' h E E' HI HI'; apply hash_slices_view in E as (i & -> & Hi & V);
    apply hash_slices_view in E' as (i' & Ei & Hi' & V'); apply HU in Ei; auto; subst i'; destruct V; inversion V'; subst; try done; try congruence.
  match goal with H : S f = S _ |- _ => injection H as <- end.
  match goal with H : ?c ++ ?d = ?a ++ ?b |- _ => apply app_inj_1 in H as [-> ->]; [|by erewrite !hash_slices_length by eassumption] end.
  f_equal; eapply IH; eauto.
Qed.

Lemma HashFromByteSlices_inj l l' h : HashFromByteSlices Sum l = Ok h → HashFromByteSlices Sum l' = Ok h →
  (∀ x, x ∈ hash_inputs Sum l → U x) → (∀ x, x ∈ hash_inputs Sum l' → U x) → l = l'.
Proof. unfold HashFromByteSlices, hash_inputs. apply hash_slices_inj. Qed.
End roots.

(** ** What a header hash covers *)
Definition hashed_fields (h : BlockHeader) :=
  (h_Version h, h_ChainID h, h_Height h, h_Time h, h_LastBlockID h,
   (slice (h_LastCommitHash h), slice (h_DataHash h), h_ValidatorsHash h, h_NextValidatorsHash h, h_ConsensusHash h, h_AppHash h),
   (h_LastResultsHash h, slice (h_EvidenceHash h), h_ProposerAddress h)).

(** The encodings of the fields are injective, and not empty for a value that is not empty. *)
Class CodecLaws (BC : BlockCodec) : Prop := {
  cl_string : ∀ a b, StringValue_Marshal a = StringValue_Marshal b → a = b;
  cl_string_ne : ∀ a, a ≠ [] → StringValue_Marshal a ≠ [];
  cl_int : ∀ a b, Int64Value_Marshal a = Int64Value_Marshal b → a = b;
  cl_int_ne : ∀ a, a ≠ 0 → Int64Value_Marshal a ≠ [];
  cl_bytes : ∀ a b, BytesValue_Marshal a = BytesValue_Marshal b → a = b;
  cl_bytes_ne : ∀ a, a ≠ [] → BytesValue_Marshal a ≠ [];
  cl_version : ∀ a b, Version_Marshal a = Version_Marshal b → a = b;
  cl_time : ∀ a b x, StdTimeMarshal a = Some x → StdTimeMarshal b = Some x → a = b;
  cl_id : ∀ a b, BlockID_Marshal a = BlockID_Marshal b → a = b;
  cl_size : ∀ x, length (Sum x) = 32%nat;
}.

Section header.
Context {BC : BlockCodec} {CL : CodecLaws BC}.

Lemma encode_bytes_inj a b : cdcEncode_bytes a = cdcEncode_bytes b → a = b.
Proof.
  unfold cdcEncode_bytes. repeat case_decide; subst; try done.
  - intros E. symmetry in E. by apply cl_bytes_ne in E.
  - intros E. by apply cl_bytes_ne in E.
  - apply cl_bytes.
Qed.
Lemma encode_string_inj a b : cdcEncode_string a = cdcEncode_string b → a = b.
Proof.
  unfold cdcEncode_string. repeat case_decide; subst; try done.
  - intros E. symmetry in E. by apply cl_string_ne in E.
  - intros E. by apply cl_string_ne in E.
  - apply cl_string.
Qed.
Lemma encode_int_inj a b : cdcEncode_int64 a = cdcEncode_int64 b → a = b.
Proof.
  unfold cdcEncode_int64. repeat case_decide; subst; try done.
  - intros E. symmetry in E. by apply cl_int_ne in E.
  - intros E. by apply cl_int_ne in E.
  - apply cl_int.
Qed.

(** The byte strings hashed for a header. *)
Definition header_inputs (h : BlockHeader) : list bytes :=
  match StdTimeMarshal (h_Time h) with Some pbt => hash_inputs Sum (header_fields h pbt) | None => [] end.

(** The hash of a header binds its fields. *)
Lemma Header_Hash_inj U h1 h2 r : no_collision Sum U → (∀ x, x ∈ header_inputs h1 → U x) → (∀ x, x ∈ header_inputs h2 → U x) →
  Header_Hash (Some h1) = Ok (Some r) → Header_Hash (Some h2) = Ok (Some r) → hashed_fields h1 = hashed_fields h2.
Proof.
  unfold Header_Hash, header_inputs. intros HU H1 H2 E1 E2. case_decide; [done|]. case_decide; [done|].
  destruct (StdTimeMarshal (h_Time h1)) as [t1|] eqn:T1; [|done]. destruct (StdTimeMarshal (h_Time h2)) as [t2|] eqn:T2; [|done].
  apply obind_Ok in E1 as (x1 & E1 & [= <-]). apply obind_Ok in E2 as (x2 & E2 & [= ->]).
  assert (header_fields h1 t1 = header_fields h2 t2) as Ef by (eapply (HashFromByteSlices_inj Sum cl_size _ HU); [exact E1|exact E2|exact H1|exact H2]).
  unfold header_fields in Ef. injection Ef as V C H3 T L LC D VH NV CH A LR Ev PA. unfold hashed_fields.
  apply cl_version in V. apply encode_string_inj in C. apply encode_int_inj in H3. apply cl_id in L.
  apply encode_bytes_inj in LC, D, VH, NV, CH, A, LR, Ev, PA. subst t2. pose proof (cl_time _ _ _ T1 T2). congruence.
Qed.

Lemma Header_Hash_fields h1 h2 r1 r2 : hashed_fields h1 = hashed_fields h2 →
  Header_Hash (Some h1) = Ok (Some r1) → Header_Hash (Some h2) = Ok (Some r2) → r1 = r2.
Proof.
  intros Ef E1 E2. injection Ef as V C H3 T L LC D VH NV CH A LR Ev PA.
  unfold Header_Hash in E1, E2. rewrite VH, T in E1. case_decide; [done|]. destruct (StdTimeMarshal (h_Time h2)) as [t|]; [|done].
  assert (header_fields h1 t = header_fields h2 t) as Ef by (unfold header_fields; by rewrite V, C, H3, L, LC, D, VH, NV, CH, A, LR, Ev, PA).
  rewrite Ef in E1. congruence.
Qed.

(** C20: Two headers that have a hash have the same one exactly if they agree in every field but DelayTime and DeliverTime,
    unless two of the strings hashed for them collide: the hash binds the whole header, except for those two fields,
    which can be changed without changing the hash of the block. *)
Theorem header_hash_covers h1 h2 r1 r2 :
  Header_Hash (Some h1) = Ok (Some r1) → Header_Hash (Some h2) = Ok (Some r2) →
  no_collision Sum (λ x, x ∈ header_inputs h1 ++ header_inputs h2) → r1 = r2 ↔ hashed_fields h1 = hashed_fields h2.
Proof.
  intros E1 E2 HU. split.
  - intros <-. eapply (Header_Hash_inj _ h1 h2 r1 HU); [intros x Hx; apply elem_of_app; by left|intros x Hx; apply elem_of_app; by right|exact E1|exact E2].
  - intros Ef. by eapply Header_Hash_fields.
Qed.

(** The hash of light-client-attack evidence leaves out the last byte of the hash of its conflicting block: evidence
    against two blocks whose hashes differ only there, at the same common height, has the same hash. *)
Theorem attack_evidence_hash_truncated l1 l2 h1 h2 :
  Header_Hash (lb ← l_ConflictingBlock l1; lb_header lb) = Ok (Some h1) →
  Header_Hash (lb ← l_ConflictingBlock l2; lb_header lb) = Ok (Some h2) →
  take 31 h1 = take 31 h2 → length h1 = length h2 → l_CommonHeight l1 = l_CommonHeight l2 → lcae_Hash l1 = lcae_Hash l2.
Proof.
  intros E1 E2 Ht Hl Hc. unfold lcae_Hash. rewrite E1, E2, Hc. cbn [outcome_bind].
  change (slice (Some h1)) with h1. change (slice (Some h2)) with h2. unfold copy_array. by rewrite Ht, Hl.
Qed.
End header.

(** ** Samples *)
Definition plain_codec : BlockCodec := {|
  Sum := sample_Sum; StringValue_Marshal := λ s, 1 :: s; Int64Value_Marshal := λ n, [n]; BytesValue_Marshal := λ b, 2 :: b;
  Version_Marshal := λ v, [ver_Block v; ver_App v]; StdTimeMarshal := λ t, Some [t];
  BlockID_Marshal := λ b, psh_Total (bid_PartSetHeader b) :: Z.of_nat (length (bid_Hash b)) :: bid_Hash b ++ psh_Hash (bid_PartSetHeader b);
  CommitSig_Marshal := cs_Signature; SimpleValidator_Marshal := λ k p, p :: k; PutVarint := λ n, [n];
  Evidence_Marshal := λ _, Ok []; Block_Marshal := λ _, Ok []; Block_Unmarshal := λ _, None |}.
#[local] Existing Instance plain_codec.

#[local] Instance plain_laws : CodecLaws plain_codec.
Proof.
  split; cbn; try congruence.
  - intros [] [] E. cbn in E. congruence.
  - intros [h1 [t1 p1]] [h2 [t2 p2]] E. cbn in E. injection E as -> El E. apply app_inj_1 in E as [-> ->]; [done|lia].
Qed.

Definition plain_header (time delay deliver : Z) : BlockHeader :=
  mkHeader (mkConsensusVersion 11 0) [7] 5 time delay deliver BlockID_nil None None [3] [3] [4] [5] [] None [6].

Lemma plain_hash time delay deliver : ∃ r, Header_Hash (Some (plain_header time delay deliver)) = Ok (Some r).
Proof.
  unfold Header_Hash. rewrite decide_False by done. cbn [StdTimeMarshal plain_codec].
  destruct (HashFromByteSlices_total Sum (header_fields (plain_header time delay deliver) [h_Time (plain_header time delay deliver)])) as [r E].
  exists r. rewrite E. done.
Qed.

(** Each string is hashed once. *)
Definition no_collision_table (Sum : bytes → bytes) (l : list bytes) : bool :=
  let tab := (λ x, (Sum x, x)) <$> l in
  forallb (λ a, forallb (λ b, negb (bool_decide (a.1 = b.1)) || bool_decide (a.2 = b.2)) tab) tab.

Lemma no_collision_table_ok Sum l : no_collision_table Sum l = true → no_collision Sum (λ x, x ∈ l).
Proof.
  unfold no_collision_table. rewrite forallb_forall. intros H x y Hx Hy E.
  specialize (H (Sum x, x)). rewrite forallb_forall in H. specialize (λ Hin, H Hin (Sum y, y)). cbn in H.
  rewrite bool_decide_eq_true_2 in H by done.
  eapply bool_decide_eq_true_1, H; apply list_elem_of_In, list_elem_of_fmap; eauto.
Qed.

Lemma plain_same : no_collision_table Sum (header_inputs (plain_header 9 0 0) ++ header_inputs (plain_header 9 1 2)) = true.
Proof. vm_compute. reflexivity. Qed.
Lemma plain_other : no_collision_table Sum (header_inputs (plain_header 9 0 0) ++ header_inputs (plain_header 8 0 0)) = true.
Proof. vm_compute. reflexivity. Qed.

(** Headers that differ in the two fields only, and one with another time. *)
Lemma header_hash_covers_witness : ∃ r1 r2 r3, Header_Hash (Some (plain_header 9 0 0)) = Ok (Some r1) ∧
  Header_Hash (Some (plain_header 9 1 2)) = Ok (Some r2) ∧ Header_Hash (Some (plain_header 8 0 0)) = Ok (Some r3) ∧ r1 = r2 ∧ r1 ≠ r3.
Proof.
  destruct (plain_hash 9 0 0) as [r1 E1]. destruct (plain_hash 9 1 2) as [r2 E2]. destruct (plain_hash 8 0 0) as [r3 E3].
  exists r1, r2, r3. split; [exact E1|]. split; [exact E2|]. split; [exact E3|]. split.
  - exact (proj2 (header_hash_covers _ _ _ _ E1 E2 (no_collision_table_ok _ _ plain_same)) eq_refl).
  - intros E. pose proof (proj1 (header_hash_covers _ _ _ _ E1 E3 (no_collision_table_ok _ _ plain_other)) E) as Hf. discriminate Hf.
Defined.

(** Evidence against two blocks whose hashes differ in the last byte. *)
Definition tail_Sum (bs : bytes) : bytes := replicate 31 0 ++ [foldl (λ a b, (31 * a + b) mod 251) 7 bs].
Definition tail_codec : BlockCodec := {|
  Sum := tail_Sum; StringValue_Marshal := λ s, 1 :: s; Int64Value_Marshal := λ n, [n]; BytesValue_Marshal := λ b, 2 :: b;
  Version_Marshal := λ v, [ver_Block v; ver_App v]; StdTimeMarshal := λ t, Some [t]; BlockID_Marshal := bid_Hash;
  CommitSig_Marshal := cs_Signature; SimpleValidator_Marshal := λ k p, p :: k; PutVarint := λ n, [n];
  Evidence_Marshal := λ _, Ok []; Block_Marshal := λ _, Ok []; Block_Unmarshal := λ _, None |}.
Definition tail_evidence (time : Z) : LightClientAttackEvidence :=
  mkLCAE (Some (mkLightBlock (Some (mkSignedHeader (Some (plain_header time 0 0)) None)) None)) 4 None 0 0.

Lemma attack_evidence_hash_truncated_witness : ∃ h1 h2,
  @Header_Hash tail_codec (Some (plain_header 9 0 0)) = Ok (Some h1) ∧ @Header_Hash tail_codec (Some (plain_header 8 0 0)) = Ok (Some h2) ∧ h1 ≠ h2 ∧
  @lcae_Hash tail_codec (tail_evidence 9) = @lcae_Hash tail_codec (tail_evidence 8).
Proof.
  do 2 eexists. split; [vm_compute; reflexivity|]. split; [vm_compute; reflexivity|]. split; [discriminate|].
  eapply (attack_evidence_hash_truncated (BC := tail_codec)); try (vm_compute; reflexivity).
Defined.
