(* ===== verification/TmConsFlaws.v ===== *)
(** Inputs that stop the consensus state machine: what a peer, a proposer or a missing key can make panic. *)

From S2P Require Import Prelude TmBits TmValidators TmPriority TmValUpdate TmTypes TmCommit TmVotes TmVoteInv TmVoteSafety.
From S2P Require Import TmMerkle TmPartSet TmPrivval TmHeightVotes TmBlock TmStore TmState TmConsensus TmConsVotes.

Section flaws.
Context {CR : Crypto} {BC : BlockCodec} {HO : Host}.

(** An error while adding a part leaves the block and the flag alone. *)
Lemma part_error_keeps h r part s added e s' : addProposalBlockPart h r part s = Ok ((added, Some e), s') →
  cs_ProposalBlock s' = cs_ProposalBlock s ∧ cs_flag s' = cs_flag s.
Proof.
  unfold addProposalBlockPart. intros E. apply bind_Ok in E as (s0 & s1 & [-> <-]%gets_Ok & E). cbn [id] in E.
  case_decide; [by apply ret_Ok in E as [? _]|]. destruct (cs_ProposalBlockParts s) as [ps|]; (destruct part as [part|]; [|done]); [|by apply ret_Ok in E as [? _]].
  apply bind_Ok in E as ([[a er] ps'] & s1 & [_ <-]%lift_Ok & E).
  apply bind_Ok in E as ([] & s1 & ->%modify_Ok & E). destruct er; [by apply ret_Ok in E as [_ <-]|].
  case_decide; [by apply ret_Ok in E as [_ <-]|]. destruct (_ && _); [|by apply ret_Ok in E as [? _]].
  apply bind_Ok in E as (bz & s2 & [_ <-]%lift_Ok & E). apply bind_Ok in E as (b & s2 & [_ <-]%lift_Ok & E).
  destruct b; [|by apply ret_Ok in E as [_ <-]]. apply bind_Ok in E as ([] & s2 & _ & E). by apply ret_Ok in E as [? _].
Qed.

(** C40: A proposer can stop every node: the part that completes the first part set of a height makes the node panic if the
    parts do not decode to a valid block or are too large, since the block is then used for its statistics although
    there is none. *)
Theorem undecodable_block_stops h r part peer s e s' ps :
  addProposalBlockPart h r (Some part) s = Ok ((true, Some e), s') → cs_ProposalBlockParts s' = Some ps → ps_IsComplete ps = true →
  cs_ProposalBlock s = None → cs_flag s = false → handleMsg (BlockPartMessage h r (Some part)) peer s = Panic.
Proof.
  intros E Ep Hc Hb Hf. destruct (part_error_keeps _ _ _ _ _ _ _ E) as [Eb Ef]. unfold handleMsg. rewrite (bind_run _ _ _ _ _ E).
  unfold bind, gets, modify. cbn [outcome_bind id]. rewrite Ep, Hc. cbn [andb]. rewrite Ef, Hf. cbn [outcome_bind].
  change (cs_ProposalBlock (set_flag true s')) with (cs_ProposalBlock s'). by rewrite Eb, Hb.
Qed.

(** A peer can stop a node that waits for its first height: any precommit of the height before, signed or not, makes it
    panic, since there is no last commit to add it to. *)
Theorem early_precommit_stops v peer s :
  cs_LastCommit s = None → cs_Step s = RoundStepNewHeight → i64 (v_Height v + 1) = cs_Height s → v_Type v = PrecommitType →
  handleMsg (VoteMessage v) peer s = Panic.
Proof.
  intros Hl Hs Hh Ht. unfold handleMsg, tryAddVote, cs_addVote. unfold bind at 1 2 3, gets at 1. cbn [outcome_bind id].
  rewrite decide_True by done. unfold add_last_precommit, bind, gets. cbn [outcome_bind id]. rewrite decide_False by (intros Hc; by apply Hc).
  rewrite Hl. done.
Qed.

(** A node whose key is not known never enters a round: enterNewRound either does nothing or panics (the address of the
    missing key is taken for a log line), so the node stops with its first timeout. *)
Theorem keyless_node_stops height round s u s' : cs_pubkey s = None → enterNewRound height round s = Ok (u, s') →
  s' = s ∧ (cs_Height s ≠ height ∨ round < cs_Round s ∨ (round = cs_Round s ∧ cs_Step s ≠ RoundStepNewHeight)).
Proof.
  intros Hk E. unfold enterNewRound in E. apply bind_Ok in E as (s0 & s1 & [-> <-]%gets_Ok & E). cbn [id] in E.
  case_decide as Hg; [apply ret_Ok in E as [_ <-]; split; [done|lia]|]. exfalso.
  apply bind_Ok in E as (vals & s1 & _ & E). apply bind_Ok in E as (vals' & s2 & _ & E). apply bind_Ok in E as ([] & s3 & _ & E).
  apply bind_Ok in E as ([] & s4 & _ & E). apply bind_Ok in E as (p & s5 & _ & E). apply bind_Ok in E as ([] & s6 & E & _).
  by rewrite Hk in E.
Qed.
End flaws.
