(* ===== verification/TmConsSample.v ===== *)
(** A concrete network: four validators of equal power, three of them correct nodes that run the consensus state
    machine with the executor of [TmExec], the fourth silent.  The nodes decide and apply the first block. *)

From S2P Require Import Prelude TmBits TmValidators TmPriority TmValUpdate TmTypes TmCommit TmVotes TmVoteInv TmVoteSafety.
From S2P Require Import TmMerkle TmPartSet TmPrivval TmHeightVotes TmBlock TmStore TmState TmConsensus TmConsVotes TmConsInv TmConsStep TmConsSafety.
From S2P Require Import TmExec TmStoreFacts TmExecFacts TmConsFlaws.

#[local] Existing Instance merge_GoSort.

(** ** The parameters *)
Definition net_key (i : Z) : bytes := replicate 32 i.

(** A signature is the key. *)
Definition net_crypto : Crypto := {|
  VerifySignature := λ k _ sig, bool_decide (sig = k);
  key_Address := λ k, take 20 k;
  MarshalVote := sample_MarshalVote; UnmarshalVote := sample_UnmarshalVote;
  MarshalProposal := sample_MarshalProposal; UnmarshalProposal := sample_UnmarshalProposal |}.
#[local] Existing Instance net_crypto.

Definition net_Sum (bs : bytes) : bytes := replicate 31 0 ++ [foldl (λ a b, (31 * a + b) mod 65521) 7 bs].

Definition net_codec (block : option Block) : BlockCodec := {|
  Sum := net_Sum;
  StringValue_Marshal := id; Int64Value_Marshal := λ n, [n]; BytesValue_Marshal := id;
  Version_Marshal := λ v, [ver_Block v; ver_App v]; StdTimeMarshal := λ t, Some [t];
  BlockID_Marshal := λ b, bid_Hash b ++ [psh_Total (bid_PartSetHeader b)] ++ psh_Hash (bid_PartSetHeader b);
  CommitSig_Marshal := cs_Signature; SimpleValidator_Marshal := λ k p, p :: k; PutVarint := λ n, [n];
  Evidence_Marshal := λ _, Ok []; Block_Marshal := λ b, Ok [h_Height (b_Header b); h_Time (b_Header b)];
  Block_Unmarshal := λ _, block |}.

Definition net_services : Services := {|
  PendingEvidence := λ _ _, ([], 0); CheckEvidence := λ _ _, Ok true; evpool_Update := λ _ _ _, Ok tt;
  ReapMaxBytesMaxGas := λ _ _ _, []; FlushAppConn := λ _, true; mempool_Update := λ _ _ _, true;
  BeginBlockSync := λ _ _, true; EndBlockSync := λ _ h, if decide (h < MaxInt64) then Some (mkEndBlock [] None) else None;
  CommitSync := λ _, Some ([9], 0); SaveABCIResponses := λ _ _, true; LoadValidators := λ _ _, None; store_Save := λ _ _, true;
  block_times := λ _, (0, 0); HashedParams_Marshal := λ a b, [a; b]; ResponseDeliverTx_Marshal := [0];
  EvidenceList_Size := λ _, Ok 0 |}.
#[local] Existing Instance net_services.

(** ** The chain *)
Definition net_validators : list Validator := (λ i, mkValidator (mkValInfo (take 20 (net_key i)) (Some (net_key i)) 1) 0) <$> [1; 2; 3; 4].
Definition net_set : ValidatorSet := mkValidatorSet net_validators None 4.
Definition net_params : ConsensusParams := mkParams 22020096 (-1) 1000 100000 172800000000000 1048576 [ABCIPubKeyTypeEd25519] 0.
Definition net_chain : bytes := [7].
Definition net_state : smState :=
  mkState (mkConsensusVersion BlockProtocol 0) net_chain 1 0 BlockID_nil 5 (Some net_set) (Some net_set)
    (Some (mkValidatorSet [] None 0)) 1 net_params 1 [] [].

(** The block the first proposer makes; the decoder of the parameters gives it back. *)
Definition net_block : option Block :=
  match @State_MakeBlock (net_codec None) net_services _ net_state 1 0 0 [] (mkCommit 0 0 BlockID_nil []) [] (take 20 (net_key 1)) with
  | Ok (b, _) => Some b
  | _ => None
  end.
#[local] Instance net_BC : BlockCodec := net_codec net_block.

Definition net_host (k : bytes) : Host := {|
  Sign := λ _, Some k; clock := λ n, 100 + Z.of_nat n; bus_ok := λ _, true; wal_ok := λ _, true;
  config := mkConfig false true 0 1000; blockExec := exec |}.

Definition net_keys : list bytes := net_key <$> [1; 2; 3].

(** ** A run *)
Definition net_node (k : bytes) : outcome CState := start (HO := net_host k) net_state empty_store (Some NewFilePV) (Some k).

Fixpoint net_start (ks : list bytes) : outcome (gmap bytes CState) :=
  match ks with
  | [] => Ok ∅
  | k :: ks' => let! s := net_node k in let! m := net_start ks' in Ok (<[k := s]> m)
  end.

(** Whether an event may be delivered. *)
Definition may_deliver (w : World) (s : CState) (ev : Event) : bool :=
  match ev with
  | EvMsg (VoteMessage v) _ =>
      bool_decide (Vote_ValidateBasic v = None) && bool_decide (0 ≤ psh_Total (bid_PartSetHeader (v_BlockID v)) < two32) &&
      existsb (λ kv, bool_decide (kv.1 = v_Signature v) && bool_decide (kv.2 = v)) (w_sent w)
  | EvTimeout ti => existsb (λ o, match o with OTimeout t => bool_decide (t = ti) | _ => false end) (cs_out s)
  | _ => true
  end.

Definition net_step (w : World) (kev : bytes * Event) : outcome World :=
  let (k, ev) := kev in
  match w_nodes w !! k with
  | None => Panic
  | Some s =>
      if may_deliver w s ev then let! (_, s') := receive_once (HO := net_host k) None ev s in Ok (advance k s s' w) else Panic
  end.

Fixpoint net_run (l : list (bytes * Event)) (w : World) : outcome World :=
  match l with
  | [] => Ok w
  | e :: l' => let! w' := net_step w e in net_run l' w'
  end.

(** All messages so far, to all nodes. *)
Definition net_messages (w : World) : list Msg :=
  k ← net_keys; omap (λ o, match o with OMsg m => Some m | _ => None end) (from_option cs_out [] (w_nodes w !! k)).
Definition net_flood (w : World) : outcome World :=
  net_run (m ← net_messages w; (λ k, (k, EvMsg m [])) <$> net_keys) w.

(** The first timeout of every node, then three rounds of messages: the proposal, the prevotes and the precommits. *)
Definition net_world : outcome World :=
  let! nodes := net_start net_keys in
  let! w0 := net_run ((λ k, (k, EvTimeout (mkTimeout 1 0 RoundStepNewHeight))) <$> net_keys) (mkWorld nodes []) in
  let! w1 := net_flood w0 in
  let! w2 := net_flood w1 in
  net_flood w2.

(** ** The run is one of the network *)
Definition net_correct : gset bytes := list_to_set net_keys.
Local Abbreviation net_reach := (wreach net_host net_correct net_chain (λ _, net_validators) 1).

Lemma net_steady : Steady.
Proof. split; intros n h r E; cbn in E; case_decide; simplify_eq; done. Qed.

Lemma net_keeps k : KeepsState (@blockExec (net_host k)) (good_state net_chain (λ _, net_validators)).
Proof. apply exec_keeps, net_steady. Qed.

Lemma net_valset : valset_ok net_validators net_set.
Proof.
  split_and!; [split|..]; cbn.
  - apply (bool_decide_unpack _). vm_compute. exact I.
  - repeat constructor.
  - done.
  - by right.
  - repeat constructor; done.
  - done.
Qed.

Lemma net_good : good_state net_chain (λ _, net_validators) net_state.
Proof.
  split; cbn; [done|unfold MaxInt64; lia|lia|..]; intros v [= <-]; apply net_valset.
Qed.

Lemma may_deliver_ok w s ev : may_deliver w s ev = true → deliverable net_correct net_chain 1 w s ev.
Proof.
  destruct ev as [[| |v] p|ti|]; try done; cbn.
  - intros H. apply andb_true_iff in H as [H (kv & Hin & Hkv)%existsb_exists]. apply andb_true_iff in H as [H1 H2].
    apply bool_decide_eq_true in H1, H2. apply andb_true_iff in Hkv as [E1 E2]. apply bool_decide_eq_true in E1, E2.
    split; [done|]. intros k msg _ _ Hm Hsig. apply bool_decide_eq_true in Hsig. exists v. split; [|done].
    rewrite <-Hsig, <-E1, <-E2. apply list_elem_of_In. by destruct kv.
  - intros (o & Hin & Ho)%existsb_exists. destruct o; try done. apply bool_decide_eq_true in Ho as <-. by apply list_elem_of_In.
Qed.

Lemma net_step_reach w e w' : net_reach w → net_step w e = Ok w' → net_reach w'.
Proof.
  intros R E. destruct e as [k ev]. unfold net_step in E. destruct (w_nodes w !! k) as [s|] eqn:Hk; [|done].
  destruct (may_deliver w s ev) eqn:Hd; [|done]. apply obind_Ok in E as ([[] s'] & E & [= <-]).
  eapply wr_receive; [exact R|exact Hk| |by apply may_deliver_ok|exact E]. done.
Qed.

Lemma net_run_reach l : ∀ w w', net_reach w → net_run l w = Ok w' → net_reach w'.
Proof.
  induction l as [|e l IH]; intros w w' R E; cbn [net_run] in E; [by injection E as <-|].
  apply obind_Ok in E as (w1 & E1 & E). eapply IH; [|exact E]. by eapply net_step_reach.
Qed.

Lemma net_start_nodes ks : ∀ m, net_start ks = Ok m → ∀ k s, m !! k = Some s → net_node k = Ok s.
Proof.
  induction ks as [|k0 ks IH]; intros m E k s Hk; cbn [net_start] in E; [injection E as <-; by rewrite lookup_empty in Hk|].
  apply obind_Ok in E as (s0 & E0 & E). apply obind_Ok in E as (m' & Em & E). injection E as <-.
  destruct (decide (k = k0)) as [->|Hne]; [rewrite lookup_insert_eq in Hk; congruence|].
  rewrite lookup_insert_ne in Hk by done. by eapply IH.
Qed.

Lemma net_world_reach w : net_world = Ok w → net_reach w.
Proof.
  unfold net_world. intros (nodes & En & E)%obind_Ok. apply obind_Ok in E as (w0 & E0 & E). apply obind_Ok in E as (w1 & E1 & E).
  apply obind_Ok in E as (w2 & E2 & E). unfold net_flood in E, E1, E2.
  assert (R0 : net_reach (mkWorld nodes [])).
  { apply wr_start. intros k s Hk. pose proof (net_start_nodes _ _ En k s Hk) as Hn.
    exists net_state, empty_store, NewFilePV. split; [apply net_good|exact Hn]. }
  eapply net_run_reach; [|exact E]. eapply net_run_reach; [|exact E2]. eapply net_run_reach; [|exact E1].
  eapply net_run_reach; [exact R0|exact E0].
Qed.

(** The first block two nodes apply. *)
Definition applied_at (h : Z) (s : CState) : option (BlockID * Block) :=
  head (omap (λ o, match o with OApply h' id b => if decide (h' = h) then Some (id, b) else None | _ => None end) (cs_out s)).

Lemma applied_at_elem h s id b : applied_at h s = Some (id, b) → OApply h id b ∈ cs_out s.
Proof.
  unfold applied_at. intros E%head_Some_elem_of. apply list_elem_of_omap in E as (o & Ho & E). destruct o; try done.
  case_decide; simplify_eq. done.
Qed.

Definition applied_in (o : outcome World) (k : bytes) : option (BlockID * Block) :=
  match o with Ok w => s ← w_nodes w !! k; applied_at 1 s | _ => None end.

Lemma applied_in_some o k : applied_in o k ≠ None → ∃ w s id b, o = Ok w ∧ w_nodes w !! k = Some s ∧ OApply 1 id b ∈ cs_out s.
Proof.
  destruct o as [w| |]; [|done|done]. cbn. destruct (w_nodes w !! k) as [s|] eqn:Es; [|done].
  cbn. destruct (applied_at 1 s) as [[id b]|] eqn:A; [|done]. apply applied_at_elem in A. intros _. by exists w, s, id, b.
Qed.

Lemma net_marshal_inj cv cv' : sample_MarshalVote cv = sample_MarshalVote cv' → cv = cv'.
Proof. intros E. apply (f_equal sample_UnmarshalVote) in E. rewrite !sample_vote_roundtrip in E. congruence. Qed.

(** Nodes 1 and 2 apply a block at height 1 with the same hash, while one of the four validators is faulty. *)
Lemma agreement_witness : ∃ w s1 s2 id1 b1 id2 b2, net_world = Ok w ∧
  w_nodes w !! net_key 1 = Some s1 ∧ w_nodes w !! net_key 2 = Some s2 ∧
  OApply 1 id1 b1 ∈ cs_out s1 ∧ OApply 1 id2 b2 ∈ cs_out s2 ∧ bid_Hash id1 = bid_Hash id2.
Proof.
  destruct (applied_in_some net_world (net_key 1)) as (w & s1 & id1 & b1 & Ew & E1 & A1); [vm_compute; discriminate|].
  destruct (applied_in_some net_world (net_key 2)) as (w' & s2 & id2 & b2 & Ew' & E2 & A2); [vm_compute; discriminate|].
  pose proof (eq_trans (eq_sym Ew) Ew') as Eq. injection Eq as <-. exists w, s1, s2, id1, b1, id2, b2.
  split; [exact Ew|]. split; [exact E1|]. split; [exact E2|]. split; [exact A1|]. split; [exact A2|].
  refine (agreement net_host net_correct net_chain (λ _, net_validators) 1 (KS := net_keeps) _ w _ s1 _ s2 1 id1 b1 id2 b2
            (net_world_reach w Ew) _ _ _ E1 E2 A1 A2).
  - apply net_marshal_inj.
  - lia.
  - repeat constructor.
  - vm_compute. discriminate.
Defined.

(** The first prevote of node 1 in the run. *)
Definition first_vote (o : outcome World) : option (bytes * Vote) := match o with Ok w => head (w_sent w) | _ => None end.

Lemma first_vote_some o kv : first_vote o = Some kv → ∃ w, o = Ok w ∧ kv ∈ w_sent w.
Proof. destruct o as [w| |]; cbn; [|done|done]. intros E%head_Some_elem_of. by exists w. Qed.

Lemma no_equivocation_witness : ∃ w k v, net_world = Ok w ∧ (k, v) ∈ w_sent w ∧ ∀ u, (k, u) ∈ w_sent w →
  v_Height u = v_Height v → v_Round u = v_Round v → v_Type u = v_Type v → u = v.
Proof.
  assert (H : bool_decide (first_vote net_world = None) = false) by (vm_compute; reflexivity). apply bool_decide_eq_false in H.
  destruct (first_vote net_world) as [[k v]|] eqn:E; [|destruct H; reflexivity].
  destruct (first_vote_some net_world (k, v) E) as (w & Ew & Hin). exists w, k, v. split; [exact Ew|]. split; [exact Hin|].
  intros u Hu. exact (no_equivocation net_host net_correct net_chain (λ _, net_validators) 1 (KS := net_keeps) w k u v (net_world_reach w Ew) Hu Hin).
Defined.

Lemma net_Sum_size bs : len (Sum bs) = HashSize.
Proof. reflexivity. Qed.





(** ** The store with the first block *)
Definition net_made : option (Block * PartSet) :=
  match State_MakeBlock net_state 1 0 0 [] (mkCommit 0 0 BlockID_nil []) [] (take 20 (net_key 1)) with Ok r => Some r | _ => None end.
Definition net_seen : Commit := mkCommit 1 0 (sample_id 1) [NewCommitSigAbsent].

Definition storableb (block : Block) (ps : PartSet) : bool :=
  forallb (λ o, match o with Some _ => true | None => false end) (ps_parts ps) && bool_decide (ps_total ps = Z.of_nat (length (TmPartSet.held ps))) &&
  bool_decide (psh_ValidateBasic (Header (Some ps)) = None) && ps_IsComplete ps && forallb (λ p, bool_decide (Part_ValidateBasic p = None)) (TmPartSet.held ps).

Lemma all_held {A} (l : list (option A)) : forallb (λ o, match o with Some _ => true | None => false end) l = true → l = Some <$> omap id l.
Proof. induction l as [|[x|] l IH]; [done| |done]. cbn. intros H. by rewrite <-IH. Qed.

Lemma net_storable b ps : net_made = Some (b, ps) → storable b ps (TmPartSet.held ps).
Proof.
  intros E. assert (H : match net_made with Some (b, ps) => storableb b ps | None => false end = true) by (vm_compute; reflexivity).
  assert (V : match net_made with Some (b, ps) => Block_ValidateBasic (Some b) | None => Panic end = Ok None) by (vm_compute; reflexivity).
  assert (U : match net_made with Some (b, ps) => net_block = Some b | None => False end) by (vm_compute; reflexivity).
  rewrite E in H, V, U. unfold storableb in H. rewrite !andb_true_iff, !bool_decide_eq_true in H.
  destruct H as ((((H1%all_held & H2) & H3) & H5) & H4). split; [exact V|by split| |exact U|exact H3|exact H5].
  intros p Hp%list_elem_of_In. rewrite forallb_forall in H4. specialize (H4 p Hp). by apply bool_decide_eq_true in H4.
Qed.

Lemma SaveBlock_LoadBlock_witness : ∃ b ps bs' bm, net_made = Some (b, ps) ∧ SaveBlock (Some b) ps net_seen empty_store = Ok (tt, bs') ∧
  LoadBlock 1 bs' = Ok (Some b) ∧ LoadBlockMeta 1 bs' = Ok (Some bm) ∧ LoadSeenCommit 1 bs' = Ok (Some net_seen) ∧ LoadSeenCommit 2 bs' = Ok None.
Proof.
  assert (H : match net_made with Some (b, ps) => bool_decide (h_Height (b_Header b) = 1) | None => false end = true) by (vm_compute; reflexivity).
  destruct net_made as [[b ps]|] eqn:E; [|discriminate H]. apply bool_decide_eq_true in H.
  destruct (SaveBlock_LoadBlock net_Sum_size b ps (TmPartSet.held ps) net_seen empty_store (net_storable b ps E))
    as (bs' & hash & bm & lc & Es & _ & _ & _ & L1 & _ & L2 & _ & _ & L3 & _ & _ & L4 & _);
    [left; done|]. rewrite H in L1, L2, L3, L4. exists b, ps, bs', bm. destruct (L4 2 ltac:(done)) as (_ & _ & _ & L5).
  split; [reflexivity|]. split; [exact Es|]. split; [exact L1|]. split; [exact L2|]. split; [|exact L5].
  rewrite L3. reflexivity.
Defined.

(** The block is pruned once the store has grown to height 2. *)
Definition net_grown (bs : BlockStore) : BlockStore :=
  mkBlockStore (bs_base bs) 2 (bs_metas bs) (bs_parts bs) (bs_commits bs) (bs_seen bs) (bs_hashes bs).
Definition net_stored : option BlockStore :=
  match net_made with
  | Some (b, ps) => match SaveBlock (Some b) ps net_seen empty_store with Ok (_, bs) => Some (net_grown bs) | _ => None end
  | None => None
  end.

(** The checks of the records of some heights, evaluated. *)
Definition sound_metasb (bs : BlockStore) : bool :=
  forallb (λ p, match BlockMeta_ValidateBasic p.2 with Ok b => b | _ => false end) (map_to_list (bs_metas bs)).

Lemma sound_metasb_ok bs P : sound_metasb bs = true → sound_metas bs P.
Proof.
  unfold sound_metasb. rewrite forallb_forall. intros H x bm _ Hx. specialize (H (x, bm)). cbn in H.
  destruct (BlockMeta_ValidateBasic bm) as [[]| |]; [done|..]; discriminate H; by apply list_elem_of_In, elem_of_map_to_list.
Qed.

Lemma PruneBlocks_exact_witness : ∃ bs bs', net_stored = Some bs ∧ PruneBlocks 2 bs = Ok (inl 1, bs') ∧ LoadBlock 1 bs' = Ok None ∧ bs_base bs' = 2.
Proof.
  assert (H : match net_stored with Some bs => bool_decide (bs_base bs = 1 ∧ bs_height bs = 2 ∧ stored bs 1 1 = 1) && sound_metasb bs | None => false end = true)
    by (vm_compute; reflexivity).
  destruct net_stored as [bs|] eqn:E; [|discriminate H]. apply andb_true_iff in H as [H Hs]. apply bool_decide_eq_true in H as (Hb & Hh & Hn).
  destruct (PruneBlocks_exact 2 bs (sound_metasb_ok bs _ Hs)) as (r & bs' & R & P). rewrite decide_True in P by lia.
  destruct P as (-> & B & _ & L & _). rewrite Hb in R, L. change (Z.to_nat (2 - 1)) with 1%nat in R. rewrite Hn in R. exists bs, bs'.
  split_and!; [reflexivity|exact R|apply L; lia|exact B].
Defined.

(** ** Nodes that stop *)

(** The world after the first timeouts: the proposer has sent its proposal and the parts of its block. *)
Definition net_proposed : outcome World :=
  let! nodes := net_start net_keys in
  net_run ((λ k, (k, EvTimeout (mkTimeout 1 0 RoundStepNewHeight))) <$> net_keys) (mkWorld nodes []).
Definition is_proposal (m : Msg) : bool := match m with ProposalMessage _ => true | _ => false end.
Definition net_sent : list Msg := match net_proposed with Ok w => net_messages w | _ => [] end.
Definition net_part : option (Z * Z * Part) :=
  head (omap (λ m, match m with BlockPartMessage h r (Some p) => Some (h, r, p) | _ => None end) net_sent).

(** Node 2 with the proposal, and a decoder that refuses the block. *)
Definition net_BC_bad : BlockCodec := net_codec None.
Definition net_host_bad : Host := let bc := net_BC_bad in {|
  Sign := λ _, Some (net_key 2); clock := λ n, 100 + Z.of_nat n; bus_ok := λ _, true; wal_ok := λ _, true;
  config := mkConfig false true 0 1000; blockExec := @exec _ bc _ _ |}.
Definition net_waiting : outcome CState :=
  let! s := start (HO := net_host_bad) net_state empty_store (Some NewFilePV) (Some (net_key 2)) in
  let! (_, s) := receive_once (BC := net_BC_bad) (HO := net_host_bad) None (EvTimeout (mkTimeout 1 0 RoundStepNewHeight)) s in
  let! (_, s) := match find is_proposal net_sent with
                 | Some m => receive_once (BC := net_BC_bad) (HO := net_host_bad) None (EvMsg m []) s
                 | None => Panic
                 end in
  Ok s.

Lemma undecodable_block_stops_witness : ∃ s h r part, net_waiting = Ok s ∧ net_part = Some (h, r, part) ∧
  handleMsg (BC := net_BC_bad) (HO := net_host_bad) (BlockPartMessage h r (Some part)) [] s = Panic.
Proof.
  destruct net_waiting as [s| |] eqn:Es; [|vm_compute in Es; discriminate Es..].
  destruct net_part as [[[h r] part]|] eqn:Ep; [|vm_compute in Ep; discriminate Ep].
  exists s, h, r, part. split; [reflexivity|]. split; [reflexivity|].
  assert (R : match net_waiting, net_part with
              | Ok s, Some (h, r, part) =>
                  match addProposalBlockPart (BC := net_BC_bad) h r (Some part) s with
                  | Ok ((true, Some _), s') =>
                      match cs_ProposalBlockParts s', cs_ProposalBlock s with
                      | Some ps, None => ps_IsComplete ps && negb (cs_flag s)
                      | _, _ => false
                      end
                  | _ => false
                  end
              | _, _ => false
              end = true) by (vm_compute; reflexivity).
  rewrite Es, Ep in R.
  destruct (addProposalBlockPart (BC := net_BC_bad) h r (Some part) s) as [[[[|] [e|]] s']| |] eqn:Ea; try discriminate R.
  destruct (cs_ProposalBlockParts s') as [ps|] eqn:Eps; [|discriminate R]. destruct (cs_ProposalBlock s) eqn:Eb; [discriminate R|].
  apply andb_true_iff in R as [Rc Rf]. apply negb_true_iff in Rf.
  exact (undecodable_block_stops (BC := net_BC_bad) (HO := net_host_bad) h r part [] s e s' ps Ea Eps Rc Eb Rf).
Defined.

(** A precommit of height 0 with a signature that nobody made; it passes the checks on receipt. *)
Definition net_early : Vote := mkVote PrecommitType 0 0 BlockID_nil 0 (replicate 20 0) 0 [0].

Lemma early_precommit_stops_witness : Vote_ValidateBasic net_early = None ∧ ∃ s, net_node (net_key 2) = Ok s ∧
  handleMsg (HO := net_host (net_key 2)) (VoteMessage net_early) [] s = Panic.
Proof.
  assert (R : match net_node (net_key 2) with
              | Ok s => bool_decide (cs_LastCommit s = None ∧ cs_Step s = RoundStepNewHeight ∧ cs_Height s = 1)
              | _ => false
              end = true) by (vm_compute; reflexivity).
  destruct (net_node (net_key 2)) as [s| |] eqn:E; [|discriminate R..]. apply bool_decide_eq_true in R as (R1 & R2 & R3).
  split; [reflexivity|]. exists s. split; [reflexivity|].
  apply (early_precommit_stops (HO := net_host (net_key 2)) net_early [] s R1 R2); [rewrite R3; reflexivity|reflexivity].
Defined.

(** A node without a key: enterNewRound of a later height is ignored, the one of its own height does not return. *)
Lemma keyless_node_stops_witness : ∃ s, start (HO := net_host []) net_state empty_store None None = Ok s ∧
  (∃ u s', enterNewRound (HO := net_host []) 2 0 s = Ok (u, s') ∧ s' = s ∧
           (cs_Height s ≠ 2 ∨ 0 < cs_Round s ∨ (0 = cs_Round s ∧ cs_Step s ≠ RoundStepNewHeight))) ∧
  enterNewRound (HO := net_host []) 1 0 s = Panic.
Proof.
  assert (R : match start (HO := net_host []) net_state empty_store None None with
              | Ok s => bool_decide (cs_pubkey s = None) && match enterNewRound (HO := net_host []) 2 0 s with Ok _ => true | _ => false end &&
                        match enterNewRound (HO := net_host []) 1 0 s with Panic => true | _ => false end
              | _ => false
              end = true) by (vm_compute; reflexivity).
  destruct (start (HO := net_host []) net_state empty_store None None) as [s| |] eqn:E; [|discriminate R..].
  apply andb_true_iff in R as [R R3]. apply andb_true_iff in R as [R1 R2]. apply bool_decide_eq_true in R1.
  exists s. split; [reflexivity|].
  destruct (enterNewRound (HO := net_host []) 1 0 s) as [?| |]; [discriminate R3| |discriminate R3]. split; [|reflexivity].
  destruct (enterNewRound (HO := net_host []) 2 0 s) as [[u s']| |] eqn:Er; [|discriminate R2..]. exists u, s'. split; [reflexivity|].
  exact (keyless_node_stops (HO := net_host []) 2 0 s u s' R1 Er).
Defined.
