(* ===== verification/TmLight.v ===== *)
(** The light client's verifier (src/sourcecodes/tendermint/light/verifier.go), and what a client that only follows it
    can rely on: from a genuine header it reaches genuine headers, each committed by the validators of the chain.

    Times are integers (nanoseconds); a trust level is a fraction of two [uint64]. *)

From S2P Require Import Prelude TmBits TmValidators TmPriority TmValUpdate TmTypes TmCommit TmVotes TmVoteInv TmVoteSafety.
From S2P Require Import TmMerkle TmPartSet TmPrivval TmHeightVotes TmBlock TmStore TmState TmConsensus TmConsVotes TmConsInv TmConsStep TmConsSafety.
From S2P Require Import TmStoreFacts TmBlockFacts.

(** ** Data *)
Record Fraction := mkFraction { Numerator : Z; Denominator : Z }.

Definition DefaultTrustLevel : Fraction := mkFraction 1 3.

Inductive header_error :=
| ErrBasic (e : block_error) | ErrHeightNotGreater | ErrTimeNotAfter | ErrFromFuture | ErrSuppliedValidators
| ErrLightCommit (e : commit_error) | ErrHeaderChain | ErrTimeNotBefore | ErrLastBlockHash.

Inductive light_error :=
| ErrAdjacentHeights | ErrNonAdjacentHeights | ErrOldHeaderExpired (expired now : Z) | ErrInvalidHeader (e : header_error)
| ErrNewValSetCantBeTrusted (got needed : Z) | ErrTrusting (e : commit_error) | ErrNextValidatorsMismatch.

Section light.
Context {CR : Crypto} {BC : BlockCodec}.

(** A field of a signed header without header, or the commit of one without commit: a nil dereference. *)
Definition header_of (sh : SignedHeader) : outcome BlockHeader := match sh_Header sh with Some h => Ok h | None => Panic end.
Definition commit_of (sh : SignedHeader) : outcome Commit := match sh_Commit sh with Some c => Ok c | None => Panic end.

(** ** Operations *)
Definition HeaderExpired (h : BlockHeader) (trustingPeriod now : Z) : bool := bool_decide (h_Time h + trustingPeriod ≤ now).

(** The result is false for an error. *)
Definition ValidateTrustLevel (lvl : Fraction) : bool :=
  negb (bool_decide (u64 (Numerator lvl * 3) < Denominator lvl) || bool_decide (Denominator lvl < Numerator lvl) ||
        bool_decide (Denominator lvl = 0)).

Definition verifyNewHeaderAndVals (untrustedHeader : SignedHeader) (untrustedVals : ValidatorSet) (trustedHeader : BlockHeader)
    (now maxClockDrift : Z) : outcome (option header_error) :=
  let! e := SignedHeader_ValidateBasic (h_ChainID trustedHeader) untrustedHeader in
  match e with
  | Some e => Ok (Some (ErrBasic e))
  | None =>
      let! uh := header_of untrustedHeader in
      if decide (h_Height uh ≤ h_Height trustedHeader) then Ok (Some ErrHeightNotGreater)
      else if decide (h_Time uh ≤ h_Time trustedHeader) then Ok (Some ErrTimeNotAfter)
      else if decide (now + maxClockDrift ≤ h_Time uh) then Ok (Some ErrFromFuture)
      else
        let! vh := ValidatorSet_Hash untrustedVals in
        Ok (check (bool_decide (h_ValidatorsHash uh ≠ vh)) ErrSuppliedValidators)
  end.

(** The totals the sets cache are not kept. *)
Definition verify_commit (th : BlockHeader) (untrustedHeader : SignedHeader) (untrustedVals : ValidatorSet) : outcome (option light_error) :=
  let! uh := header_of untrustedHeader in
  let! c := commit_of untrustedHeader in
  let! (e, _) := VerifyCommitLight VerifySignature MarshalVote (h_ChainID th) (c_BlockID c) (h_Height uh) c untrustedVals in
  Ok (match e with Some e => Some (ErrInvalidHeader (ErrLightCommit e)) | None => None end).

Definition VerifyNonAdjacent (trustedHeader : SignedHeader) (trustedVals : ValidatorSet) (untrustedHeader : SignedHeader)
    (untrustedVals : ValidatorSet) (trustingPeriod now maxClockDrift : Z) (trustLevel : Fraction) : outcome (option light_error) :=
  let! uh := header_of untrustedHeader in
  let! th := header_of trustedHeader in
  if decide (h_Height uh = i64 (h_Height th + 1)) then Ok (Some ErrAdjacentHeights)
  else if HeaderExpired th trustingPeriod now then Ok (Some (ErrOldHeaderExpired (h_Time th + trustingPeriod) now))
  else
    let! e := verifyNewHeaderAndVals untrustedHeader untrustedVals th now maxClockDrift in
    match e with
    | Some e => Ok (Some (ErrInvalidHeader e))
    | None =>
        let! c := commit_of untrustedHeader in
        let! (e, _) := VerifyCommitLightTrusting VerifySignature MarshalVote (h_ChainID th) c (Numerator trustLevel) (Denominator trustLevel) trustedVals in
        match e with
        | Some (ErrNotEnoughVotingPowerSigned got needed) => Ok (Some (ErrNewValSetCantBeTrusted got needed))
        | Some e => Ok (Some (ErrTrusting e))
        | None => verify_commit th untrustedHeader untrustedVals
        end
    end.

Definition VerifyAdjacent (trustedHeader untrustedHeader : SignedHeader) (untrustedVals : ValidatorSet)
    (trustingPeriod now maxClockDrift : Z) : outcome (option light_error) :=
  let! uh := header_of untrustedHeader in
  let! th := header_of trustedHeader in
  if decide (h_Height uh ≠ i64 (h_Height th + 1)) then Ok (Some ErrNonAdjacentHeights)
  else if HeaderExpired th trustingPeriod now then Ok (Some (ErrOldHeaderExpired (h_Time th + trustingPeriod) now))
  else
    let! e := verifyNewHeaderAndVals untrustedHeader untrustedVals th now maxClockDrift in
    match e with
    | Some e => Ok (Some (ErrInvalidHeader e))
    | None =>
        if decide (h_ValidatorsHash uh ≠ h_NextValidatorsHash th) then Ok (Some ErrNextValidatorsMismatch)
        else verify_commit th untrustedHeader untrustedVals
    end.

Definition light_Verify (trustedHeader : SignedHeader) (trustedVals : ValidatorSet) (untrustedHeader : SignedHeader)
    (untrustedVals : ValidatorSet) (trustingPeriod now maxClockDrift : Z) (trustLevel : Fraction) : outcome (option light_error) :=
  let! uh := header_of untrustedHeader in
  let! th := header_of trustedHeader in
  if decide (h_Height uh ≠ i64 (h_Height th + 1))
  then VerifyNonAdjacent trustedHeader trustedVals untrustedHeader untrustedVals trustingPeriod now maxClockDrift trustLevel
  else VerifyAdjacent trustedHeader untrustedHeader untrustedVals trustingPeriod now maxClockDrift.

Definition VerifyBackwards (untrustedHeader trustedHeader : BlockHeader) : outcome (option light_error) :=
  match Header_ValidateBasic untrustedHeader with
  | Some e => Ok (Some (ErrInvalidHeader (ErrBasic e)))
  | None =>
      if decide (h_ChainID untrustedHeader ≠ h_ChainID trustedHeader) then Ok (Some (ErrInvalidHeader ErrHeaderChain))
      else if decide (h_Time trustedHeader ≤ h_Time untrustedHeader) then Ok (Some (ErrInvalidHeader ErrTimeNotBefore))
      else
        let! h := Header_Hash (Some untrustedHeader) in
        Ok (check (bool_decide (slice h ≠ bid_Hash (h_LastBlockID trustedHeader))) (ErrInvalidHeader ErrLastBlockHash))
  end.
End light.

(** ** Soundness *)

(** What the hash of a validator covers. *)
Definition pubs (l : list Validator) : list (option bytes * Z) := (λ v : Validator, (PubKey v, VotingPower v)) <$> l.

Lemma pubs_powers l l' : pubs l = pubs l' → powers l = powers l'.
Proof.
  intros E. apply (f_equal (fmap snd)) in E. unfold pubs in E. by rewrite <-!list_fmap_compose in E.
Qed.
Lemma pubs_power l l' : pubs l = pubs l' → power l = power l'.
Proof. intros E%pubs_powers. unfold power. by rewrite E. Qed.
Lemma pubs_lookup l l' i (v : Validator) : pubs l = pubs l' → l !! i = Some v → ∃ v' : Validator, l' !! i = Some v' ∧ PubKey v' = PubKey v.
Proof.
  intros E Hv. apply (f_equal (lookup i)) in E. unfold pubs in E. rewrite !list_lookup_fmap, Hv in E.
  destruct (l' !! i) as [v'|]; [|done]. cbn in E. injection E as E _. by exists v'.
Qed.

Lemma pubs_weight l : ∀ l' P, pubs l = pubs l' → weight l P = weight l' P.
Proof.
  induction l as [|v l IH]; intros [|v' l'] P E; try done. rewrite !weight_cons. cbn in E. injection E as _ Ep E.
  rewrite Ep. by rewrite (IH l' (P ∘ S) E).
Qed.
Lemma pubs_positive l l' : pubs l = pubs l' → positive l → positive l'.
Proof.
  intros E H. apply pubs_powers in E. unfold positive in *. rewrite <-(Forall_fmap (λ v : Validator, VotingPower v) (λ p, 0 < p)) in *.
  unfold powers in E. by rewrite <-E.
Qed.

(** Some index of a set heavier than another is not in the other. *)
Lemma weight_escape l P Q : positive l → weight l Q < weight l P → ∃ i, (i < length l)%nat ∧ P i = true ∧ Q i = false.
Proof.
  intros Hp Hlt. destruct (decide (Exists (λ i, P i = true ∧ Q i = false) (seq 0 (length l)))) as [He|Hn].
  - apply Exists_exists in He as (i & Hi%elem_of_seq & He). exists i. split; [lia|done].
  - exfalso. apply Forall_Exists_neg in Hn. assert (weight l P ≤ weight l Q); [|lia]. apply weight_mono; [done|].
    intros i Hi HP. rewrite Forall_forall in Hn. specialize (Hn i ltac:(apply elem_of_seq; lia)).
    destruct (Q i); [done|]. destruct Hn. done.
Qed.

Section sound.
Context {CR : Crypto} {BC : BlockCodec} {CL : CodecLaws BC}.
Context (simple_inj : ∀ k p k' p', SimpleValidator_Marshal k p = SimpleValidator_Marshal k' p' → k = k' ∧ p = p').
(** The chain: its name, the validators of every height, which of them are correct; and the strings that are hashed. *)
Context (chain : bytes) (vals_at : Z → list Validator) (correct : gset bytes) (U : bytes → Prop) (HU : no_collision Sum U).

Definition list_hash (l : list Validator) : outcome bytes := let! bzs := marshal_all Validator_Bytes l in HashFromByteSlices Sum bzs.
Definition list_inputs (l : list Validator) : list bytes :=
  match marshal_all Validator_Bytes l with Ok bzs => hash_inputs Sum bzs | _ => [] end.

Lemma marshal_validators_inj l : ∀ l' bs, marshal_all Validator_Bytes l = Ok bs → marshal_all Validator_Bytes l' = Ok bs → pubs l = pubs l'.
Proof.
  induction l as [|v l IH]; intros l' bs E E'; cbn [marshal_all] in E.
  - injection E as <-. destruct l'; [done|]. cbn [marshal_all] in E'. apply obind_Ok in E' as (? & _ & E'). by apply obind_Ok in E' as (? & _ & ?).
  - apply obind_Ok in E as (b & Eb & E). apply obind_Ok in E as (bs1 & E1 & [= <-]). destruct l' as [|v' l']; [done|]. cbn [marshal_all] in E'.
    apply obind_Ok in E' as (b' & Eb' & E'). apply obind_Ok in E' as (bs2 & E2 & [= -> ->]). unfold Validator_Bytes in Eb, Eb'.
    unfold pubs. rewrite !fmap_cons. fold (pubs l) (pubs l'). rewrite (IH l' bs1 E1 E2). f_equal.
    destruct (PubKey v), (PubKey v'); try done. injection Eb as <-. injection Eb' as Eb'. apply simple_inj in Eb' as [-> ->]. done.
Qed.

Lemma list_hash_inj l l' h : list_hash l = Ok h → list_hash l' = Ok h → (∀ x, x ∈ list_inputs l → U x) → (∀ x, x ∈ list_inputs l' → U x) →
  pubs l = pubs l'.
Proof.
  unfold list_hash, list_inputs. intros (bs & E & Eh)%obind_Ok (bs' & E' & Eh')%obind_Ok H H'. rewrite E in H. rewrite E' in H'.
  assert (bs = bs') as <- by (eapply (HashFromByteSlices_inj Sum cl_size U HU); eauto). by eapply marshal_validators_inj.
Qed.

(** A header of the chain. *)
Record genuine (h : BlockHeader) : Prop := {
  gen_chain : h_ChainID h = chain;
  gen_vals : list_hash (vals_at (h_Height h)) = Ok (h_ValidatorsHash h);
  gen_next : list_hash (vals_at (h_Height h + 1)) = Ok (h_NextValidatorsHash h);
}.

Lemma genuine_fields h h' : hashed_fields h = hashed_fields h' → genuine h' → genuine h.
Proof. unfold hashed_fields. intros [= V C H3 T L LC D VH NV CH A LR Ev PA] [G1 G2 G3]. split; congruence. Qed.

(** What the theorems take from the chain: correct validators precommit only blocks of genuine headers (or nil), and
    at every height the others have at most a third of the power. *)
Class Chain : Prop := {
  ch_honest : ∀ k msg sig v, k ∈ correct → VerifySignature k msg sig = true → VoteSignBytes MarshalVote chain v = Ok msg →
    v_Type v = PrecommitType → IsZero (v_BlockID v) = false →
    ∃ h, Header_Hash (Some h) = Ok (Some (bid_Hash (v_BlockID v))) ∧ genuine h ∧ (∀ x, x ∈ header_inputs h → U x);
  ch_positive : ∀ h, positive (vals_at h);
  ch_max : ∀ h, power (vals_at h) ≤ MaxTotalVotingPower;
  ch_faulty : ∀ h, 3 * weight (vals_at h) (faulty correct (vals_at h)) ≤ power (vals_at h);
  ch_inputs : ∀ h x, x ∈ list_inputs (vals_at h) → U x;
}.
Context {CH : Chain}.

Local Abbreviation sig_ok := (sig_ok VerifySignature MarshalVote chain).

(** A correct validator's signature in a commit makes the block of the commit a genuine one. *)
Lemma correct_signer l c i idx cs : sig_ok l c i idx → c_Signatures c !! idx = Some cs → ForBlock cs = true →
  IsZero (c_BlockID c) = false → faulty correct l i = false →
  ∃ h, Header_Hash (Some h) = Ok (Some (bid_Hash (c_BlockID c))) ∧ genuine h ∧ (∀ x, x ∈ header_inputs h → U x).
Proof.
  intros (v & cs' & k & msg & Hv & Hcs' & Hk & Hm & Hs) Hcs Hf Hz Hfa. rewrite Hcs in Hcs'. injection Hcs' as <-.
  unfold faulty in Hfa. rewrite Hv, Hk in Hfa. apply negb_false_iff, bool_decide_eq_true in Hfa.
  unfold Commit_VoteSignBytes in Hm. apply obind_Ok in Hm as (vt & Hvt & Hm). unfold GetVote in Hvt.
  apply obind_Ok in Hvt as (cs' & Hg & Hvt). apply slice_get_Ok in Hg as [_ Hg]. rewrite Nat2Z.id, Hcs in Hg. injection Hg as <-.
  apply obind_Ok in Hvt as (b & Hb & [= <-]). unfold cs_BlockID in Hb. unfold ForBlock in Hf. apply bool_decide_eq_true in Hf.
  rewrite Hf in Hb. cbn in Hb. injection Hb as <-. apply (ch_honest k msg (cs_Signature cs) _ Hfa Hs Hm eq_refl Hz).
Qed.

(** The checks on the untrusted header. *)
Lemma new_header_Ok u uvals th now drift : verifyNewHeaderAndVals u uvals th now drift = Ok None → ∃ uh c,
  sh_Header u = Some uh ∧ sh_Commit u = Some c ∧ IsZero (c_BlockID c) = false ∧ h_ChainID uh = h_ChainID th ∧ c_Height c = h_Height uh ∧
  (∃ o, Header_Hash (Some uh) = Ok o ∧ slice o = bid_Hash (c_BlockID c)) ∧ h_Height th < h_Height uh ∧ h_Time th < h_Time uh < now + drift ∧
  list_hash (Validators uvals) = Ok (h_ValidatorsHash uh).
Proof.
  unfold verifyNewHeaderAndVals. intros (e & Ee & E)%obind_Ok. destruct e; [done|]. unfold SignedHeader_ValidateBasic in Ee.
  destruct (sh_Header u) as [uh|] eqn:Eu; [|done]. destruct (sh_Commit u) as [c|]; [|done].
  destruct (Header_ValidateBasic uh) eqn:Eb; [done|]. destruct (Commit_ValidateBasic c) eqn:Ec; [done|].
  case_decide as Hch; [done|]. case_decide as Hh; [done|]. apply obind_Ok in Ee as (o & Eo & Ee).
  unfold check in Ee. case_bool_decide as Hs; [done|]. unfold header_of in E. rewrite Eu in E. cbn [outcome_bind] in E.
  case_decide; [done|]. case_decide; [done|]. case_decide; [done|]. apply obind_Ok in E as (vh & Ev & E). unfold check in E.
  case_bool_decide as Hv; [done|]. rewrite <-Hv in Ev. exists uh, c. split_and!; try done; [|by exists o|lia..].
  assert (0 < h_Height uh).
  { unfold Header_ValidateBasic, check in Eb. cbn [first_error] in Eb. repeat (case_bool_decide; [done|]). cbn [first_error] in Eb. lia. }
  unfold Commit_ValidateBasic in Ec. do 2 (case_decide; [done|]). rewrite decide_True in Ec by lia. destruct (IsZero (c_BlockID c)); done.
Qed.

Definition cached (vals : ValidatorSet) : Prop := totalVotingPower vals = 0 ∨ totalVotingPower vals = power (Validators vals).

Lemma pubs_wf vals y : pubs (Validators vals) = pubs (vals_at y) → cached vals → wf_powers vals.
Proof.
  intros E Hc. split; [|by rewrite (pubs_power _ _ E); apply ch_max|done].
  apply (pubs_positive (vals_at y)); [done|apply ch_positive].
Qed.

Lemma pubs_faulty l l' i : pubs l = pubs l' → faulty correct l i = faulty correct l' i.
Proof.
  intros E. apply (f_equal (lookup i)) in E. unfold pubs in E. rewrite !list_lookup_fmap in E. unfold faulty.
  destruct (l !! i) as [v|], (l' !! i) as [v'|]; try done. cbn in E. by injection E as -> _.
Qed.

Lemma sig_ok_pubs l l' c i idx : pubs l = pubs l' → sig_ok l c i idx → sig_ok l' c i idx.
Proof.
  intros E (v & cs & k & msg & Hv & Hcs & Hk & H). destruct (pubs_lookup _ _ _ _ E Hv) as (v' & Hv' & Ek).
  exists v', cs, k, msg. split_and!; [done|done|congruence|apply H..].
Qed.

(** A part of a set of the chain with more than a third of its power has a correct member. *)
Lemma correct_member l y P : pubs l = pubs (vals_at y) → power l < 3 * weight l P →
  ∃ i, (i < length l)%nat ∧ P i = true ∧ faulty correct l i = false.
Proof.
  intros E HP. apply weight_escape; [apply (pubs_positive (vals_at y)); [done|apply ch_positive]|].
  pose proof (ch_faulty y) as Hf. rewrite <-(pubs_power _ _ E), <-(pubs_weight _ _ _ E) in Hf.
  rewrite (weight_ext l _ (faulty correct l)) in Hf by (intros j _; symmetry; by apply pubs_faulty). lia.
Qed.

(** The header of a commit a correct validator signed is genuine. *)
Lemma header_genuine uh c o l i idx cs : Header_Hash (Some uh) = Ok o → slice o = bid_Hash (c_BlockID c) → (∀ x, x ∈ header_inputs uh → U x) →
  sig_ok l c i idx → c_Signatures c !! idx = Some cs → ForBlock cs = true → IsZero (c_BlockID c) = false → faulty correct l i = false →
  genuine uh ∧ Header_Hash (Some uh) = Ok (Some (bid_Hash (c_BlockID c))).
Proof.
  intros Eo Hs Hu S1 S2 S3 Hz Hf. destruct (correct_signer l c i idx cs S1 S2 S3 Hz Hf) as (h & Eh & G & Hh).
  assert (o = Some (bid_Hash (c_BlockID c))) as ->.
  { destruct o as [r|]; [by cbn in Hs; subst r|]. exfalso. cbn in Hs. rewrite <-Hs in Eh. unfold Header_Hash in Eh. case_decide; [done|].
    destruct (StdTimeMarshal _); [|done]. apply obind_Ok in Eh as (r & Er & [= ->]). apply (hash_slices_length Sum cl_size) in Er. done. }
  split; [|done]. eapply genuine_fields; [|exact G]. eapply (Header_Hash_inj U uh h); [exact HU|exact Hu|exact Hh|exact Eo|exact Eh].
Qed.

(** ** What a client holds *)
Definition known (sh : SignedHeader) (vals : ValidatorSet) : Prop :=
  ∃ h, sh_Header sh = Some h ∧ genuine h ∧ cached vals ∧
    (pubs (Validators vals) = pubs (vals_at (h_Height h)) ∨ pubs (Validators vals) = pubs (vals_at (h_Height h + 1))).

(** The header has a commit by more than two thirds of the validators of its height. *)
Definition committed (sh : SignedHeader) : Prop :=
  ∃ h c, sh_Header sh = Some h ∧ sh_Commit sh = Some c ∧ Header_Hash (Some h) = Ok (Some (bid_Hash (c_BlockID c))) ∧ c_Height c = h_Height h ∧
    ∃ P, 2 * power (vals_at (h_Height h)) < 3 * weight (vals_at (h_Height h)) P ∧
      ∀ i, P i = true → for_block (c_Signatures c) i = true ∧ sig_ok (vals_at (h_Height h)) c i i.

Lemma light_commit_sound th uh c u uvals y : sh_Header u = Some uh → sh_Commit u = Some c → h_ChainID th = chain →
  pubs (Validators uvals) = pubs (vals_at y) → cached uvals → verify_commit th u uvals = Ok None →
  ∃ P, 2 * power (Validators uvals) < 3 * weight (Validators uvals) P ∧
    ∀ i, P i = true → for_block (c_Signatures c) i = true ∧ sig_ok (Validators uvals) c i i.
Proof.
  intros Eu Ec Hch Ep Hc E. unfold verify_commit, header_of, commit_of in E. rewrite Eu, Ec in E. cbn [outcome_bind] in E.
  apply obind_Ok in E as ([e s'] & Ev & E). destruct e; [done|]. rewrite Hch in Ev.
  apply VerifyCommitLight_sound in Ev as (_ & n & Hn & Hk); [|by eapply pubs_wf].
  eexists. split; [exact Hn|]. intros i [Hi%bool_decide_eq_true Hf]%andb_true_iff. split; [done|by apply Hk].
Qed.

(** What was hashed for an untrusted header and the validators sent with it. *)
Definition seen (u : SignedHeader) (uvals : ValidatorSet) : Prop :=
  ∀ x, (∃ uh, sh_Header u = Some uh ∧ x ∈ header_inputs uh) ∨ x ∈ list_inputs (Validators uvals) → U x.

Definition level_ok (lvl : Fraction) : Prop := 0 ≤ Numerator lvl < 2 ^ 63 ∧ 0 ≤ Denominator lvl < 2 ^ 63 ∧ ValidateTrustLevel lvl = true.

Lemma level_third lvl : level_ok lvl → 0 < Numerator lvl ∧ 0 < Denominator lvl ≤ 3 * Numerator lvl.
Proof.
  intros ((Hn0 & Hn) & (Hd0 & Hd) & E). unfold ValidateTrustLevel in E. rewrite negb_true_iff, !orb_false_iff, !bool_decide_eq_false in E.
  destruct E as ((H1 & H2) & H3). assert (0 < Denominator lvl) by lia. assert (0 < Numerator lvl).
  { destruct (decide (Numerator lvl = 0)) as [E|]; [|lia]. rewrite E in H1. change (u64 (0 * 3)) with 0 in H1. lia. }
  split; [done|]. split; [done|]. unfold u64, two64 in H1. destruct (decide (Numerator lvl * 3 < 2 ^ 64)); [rewrite Z.mod_small in H1 by lia; lia|lia].
Qed.

(** A genuine header with the validators sent for it, and their commit. *)
Lemma header_done u uvals uh c o th : sh_Header u = Some uh → sh_Commit u = Some c → Header_Hash (Some uh) = Ok o →
  slice o = bid_Hash (c_BlockID c) → c_Height c = h_Height uh → h_ChainID th = chain → genuine uh → Header_Hash (Some uh) = Ok (Some (bid_Hash (c_BlockID c))) →
  list_hash (Validators uvals) = Ok (h_ValidatorsHash uh) → cached uvals → seen u uvals →
  verify_commit th u uvals = Ok None → known u uvals ∧ committed u.
Proof.
  intros Eu Ec Eo Hs Hh Hch G Ehh Hl Hc Hseen Ev.
  assert (Ep : pubs (Validators uvals) = pubs (vals_at (h_Height uh))).
  { eapply list_hash_inj; [exact Hl|apply (gen_vals uh G)|intros x Hx; apply Hseen; by right|apply ch_inputs]. }
  destruct (light_commit_sound th uh c u uvals _ Eu Ec Hch Ep Hc Ev) as (P & HP & HS). split.
  - exists uh. split_and!; try done. by left.
  - exists uh, c. split_and!; try done. exists P. split.
    + by rewrite <-(pubs_power _ _ Ep), <-(pubs_weight _ _ _ Ep).
    + intros i Hi. destruct (HS i Hi) as [H1 H2]. split; [done|]. by eapply sig_ok_pubs.
Qed.

(** One verification from what a client holds. *)
Lemma light_Verify_step t tvals u uvals period now drift lvl : known t tvals → cached uvals → seen u uvals → level_ok lvl →
  light_Verify t tvals u uvals period now drift lvl = Ok None → known u uvals ∧ committed u.
Proof.
  intros (th & Et & Gt & Hct & Hpt) Hc Hseen Hl E. unfold light_Verify, VerifyNonAdjacent, VerifyAdjacent, header_of in E. rewrite Et in E.
  destruct (sh_Header u) as [uh|] eqn:Eu; [|done]. cbn [outcome_bind] in E.
  assert (Hin : ∀ x, x ∈ header_inputs uh → U x) by (intros x Hx; apply Hseen; left; by exists uh).
  case_decide as Hadj.
  - rewrite decide_False in E by done. destruct (HeaderExpired _ _ _); [done|]. apply obind_Ok in E as (e & En & E). destruct e; [done|].
    apply new_header_Ok in En as (uh' & c & Eu' & Ec & Hz & Hch & Hh & (o & Eo & Hs) & Hlt & _ & Hv). rewrite Eu in Eu'. injection Eu' as <-.
    unfold commit_of in E. rewrite Ec in E. cbn [outcome_bind] in E. apply obind_Ok in E as ([e s'] & Etr & E).
    destruct e as [e|]; [by destruct e|]. rewrite (gen_chain th Gt) in Etr. destruct (level_third lvl Hl) as (L1 & L2 & L3).
    assert (∃ y, pubs (Validators tvals) = pubs (vals_at y)) as [y Ep] by (destruct Hpt; eauto).
    apply VerifyCommitLightTrusting_sound in Etr as (P & HP & HS); [|by eapply pubs_wf|apply Hl|destruct Hl as (_ & Hd & _); lia].
    destruct (correct_member (Validators tvals) y P Ep) as (i & _ & Hi & Hf).
    { pose proof (power_nonneg _ (wp_pos _ (pubs_wf _ _ Ep Hct))). nia. }
    destruct (HS i Hi) as (idx & cs & v & S1 & S2 & _ & _ & S3).
    destruct (header_genuine uh c o _ i idx cs Eo Hs Hin S3 S1 S2 Hz Hf) as [G Ehh].
    eapply (header_done u uvals uh c o th); [exact Eu|exact Ec|exact Eo|exact Hs|exact Hh|apply Gt|exact G|exact Ehh|exact Hv|exact Hc|exact Hseen|exact E].
  - destruct (HeaderExpired _ _ _); [done|]. apply obind_Ok in E as (e & En & E). destruct e; [done|].
    apply new_header_Ok in En as (uh' & c & Eu' & Ec & Hz & Hch & Hh & (o & Eo & Hs) & Hlt & _ & Hv). rewrite Eu in Eu'. injection Eu' as <-.
    case_decide as Hn; [done|]. pose proof (gen_next th Gt) as Gn. rewrite <-Hn in Gn.
    assert (Ep : pubs (Validators uvals) = pubs (vals_at (h_Height th + 1))).
    { eapply list_hash_inj; [exact Hv|exact Gn|intros x Hx; apply Hseen; by right|apply ch_inputs]. }
    destruct (light_commit_sound th uh c u uvals _ Eu Ec (gen_chain th Gt) Ep Hc E) as (P & HP & HS).
    destruct (correct_member (Validators uvals) _ P Ep) as (i & _ & Hi & Hf).
    { pose proof (power_nonneg _ (wp_pos _ (pubs_wf _ _ Ep Hc))). lia. }
    destruct (HS i Hi) as [Hfb Hsig]. unfold for_block in Hfb. destruct (c_Signatures c !! i) as [cs|] eqn:Ecs; [|done].
    destruct (header_genuine uh c o _ i i cs Eo Hs Hin Hsig Ecs Hfb Hz Hf) as [G Ehh].
    eapply (header_done u uvals uh c o th); [exact Eu|exact Ec|exact Eo|exact Hs|exact Hh|apply Gt|exact G|exact Ehh|exact Hv|exact Hc|exact Hseen|exact E].
Qed.

(** The light blocks a client reaches from one it trusts. *)
Inductive followed (t : SignedHeader) (tvals : ValidatorSet) : SignedHeader → ValidatorSet → Prop :=
| followed_refl : followed t tvals t tvals
| followed_step s svals u uvals period now drift lvl : followed t tvals s svals → cached uvals → seen u uvals → level_ok lvl →
    light_Verify s svals u uvals period now drift lvl = Ok None → followed t tvals u uvals.

(** C4: A light client that starts from a header of the chain, with the validators of its height, and moves on with Verify, in
    steps of any length and with any trust level that ValidateTrustLevel allows, only reaches headers of the chain: each one
    names the validators of its height and the next, and each but the first was committed by validators of the chain
    with more than two thirds of the power of its height, whatever headers, commits and validators it was sent. *)
Theorem light_client_sound t tvals u uvals : known t tvals → followed t tvals u uvals →
  known u uvals ∧ ((u = t ∧ uvals = tvals) ∨ committed u).
Proof.
  intros Ht F. induction F as [|s svals u uvals period now drift lvl F [IH _] Hc Hs Hl E]; [by split; [|left]|].
  destruct (light_Verify_step s svals u uvals period now drift lvl IH Hc Hs Hl E) as [H1 H2]. split; [done|by right].
Qed.
End sound.

(** ** A concrete chain: one validator, the same at all heights, and a header of height 3 verified from one of height 1 *)
Definition lc_key : bytes := replicate 32 1.
Definition lc_vals : ValidatorSet := mkValidatorSet [mkValidator (mkValInfo (replicate 20 9) (Some lc_key) 10) 0] None 10.
Definition lc_vals_hash : bytes := match list_hash (BC := plain_codec) (Validators lc_vals) with Ok h => h | _ => [] end.
Definition lc_header (height time : Z) : BlockHeader :=
  mkHeader (mkConsensusVersion 11 0) [7] height time 0 0 BlockID_nil None None lc_vals_hash lc_vals_hash [] [] [] None (replicate 20 9).
Definition lc_id : BlockID :=
  mkBlockID (match @Header_Hash plain_codec (Some (lc_header 3 30)) with Ok (Some h) => h | _ => [] end) (mkPartSetHeader 1 (replicate 32 4)).
Definition lc_commit : Commit := mkCommit 3 0 lc_id [mkCommitSig BlockIDFlagCommit (replicate 20 9) 31 lc_key].

(** The validator has signed the message of the commit and nothing else. *)
Definition lc_vote : Vote := mkVote PrecommitType 3 0 lc_id 31 (replicate 20 9) 0 lc_key.
Definition lc_message : bytes := match VoteSignBytes sample_MarshalVote [7] lc_vote with Ok m => m | _ => [] end.
Definition lc_crypto : Crypto := {|
  VerifySignature := λ k msg sig, bool_decide (msg = lc_message ∧ sig = k);
  key_Address := λ k, take 20 k;
  MarshalVote := sample_MarshalVote; UnmarshalVote := sample_UnmarshalVote;
  MarshalProposal := sample_MarshalProposal; UnmarshalProposal := sample_UnmarshalProposal |}.
Definition lc_trusted : SignedHeader := mkSignedHeader (Some (lc_header 1 10)) None.
Definition lc_new : SignedHeader := mkSignedHeader (Some (lc_header 3 30)) (Some lc_commit).
Definition lc_hashed : list bytes := @header_inputs plain_codec (lc_header 3 30) ++ list_inputs (BC := plain_codec) (Validators lc_vals).

Lemma lc_vals_ok : list_hash (BC := plain_codec) (Validators lc_vals) = Ok lc_vals_hash.
Proof. vm_compute. reflexivity. Qed.
Lemma lc_message_ok : VoteSignBytes sample_MarshalVote [7] lc_vote = Ok lc_message.
Proof. vm_compute. reflexivity. Qed.
Lemma lc_id_ok : @Header_Hash plain_codec (Some (lc_header 3 30)) = Ok (Some (bid_Hash lc_id)).
Proof. vm_compute. reflexivity. Qed.

Lemma lc_genuine height time : genuine (BC := plain_codec) [7] (λ _, Validators lc_vals) (lc_header height time).
Proof. split; [reflexivity|exact lc_vals_ok|exact lc_vals_ok]. Qed.

Lemma lc_marshal_inj cv cv' : sample_MarshalVote cv = sample_MarshalVote cv' → cv = cv'.
Proof. intros E. apply (f_equal sample_UnmarshalVote) in E. rewrite !sample_vote_roundtrip in E. congruence. Qed.

Lemma lc_chain : Chain (CR := lc_crypto) (BC := plain_codec) [7] (λ _, Validators lc_vals) {[lc_key]} (λ x, x ∈ lc_hashed).
Proof.
  split.
  - intros k msg sig v _ [-> _]%bool_decide_eq_true Hm _ _. cbn [MarshalVote lc_crypto] in Hm.
    destruct (sign_bytes_about (CR := lc_crypto) [7] lc_marshal_inj v lc_vote lc_message Hm lc_message_ok) as (_ & _ & _ & <-).
    exists (lc_header 3 30). split; [exact lc_id_ok|]. split; [apply lc_genuine|]. intros x Hx. apply elem_of_app. by left.
  - intros _. repeat constructor.
  - intros _. vm_compute. discriminate.
  - intros _. vm_compute. discriminate.
  - intros _ x Hx. apply elem_of_app. by right.
Qed.

Lemma lc_simple k p k' p' : @SimpleValidator_Marshal plain_codec k p = @SimpleValidator_Marshal plain_codec k' p' → k = k' ∧ p = p'.
Proof. by intros [= -> ->]. Qed.
Lemma lc_table : no_collision_table sample_Sum lc_hashed = true.
Proof. vm_compute. reflexivity. Qed.
Lemma lc_fresh : no_collision (@Sum plain_codec) (λ x, x ∈ lc_hashed).
Proof. exact (no_collision_table_ok _ _ lc_table). Qed.
Lemma lc_known : known (BC := plain_codec) [7] (λ _, Validators lc_vals) lc_trusted lc_vals.
Proof. exists (lc_header 1 10). split; [reflexivity|]. split; [apply lc_genuine|]. split; [by right|by left]. Qed.
Lemma lc_verified : light_Verify (CR := lc_crypto) (BC := plain_codec) lc_trusted lc_vals lc_new lc_vals 1000 100 5 DefaultTrustLevel = Ok None.
Proof. vm_compute. reflexivity. Qed.
Lemma lc_followed : followed (CR := lc_crypto) (BC := plain_codec) (λ x, x ∈ lc_hashed) lc_trusted lc_vals lc_new lc_vals.
Proof.
  eapply followed_step; [apply followed_refl|by right| | |exact lc_verified].
  - intros x [(uh & [= <-] & Hx)|Hx]; apply elem_of_app; [by left|by right].
  - split; [done|]. split; [done|]. vm_compute. reflexivity.
Qed.

Lemma light_client_sound_witness : light_Verify (CR := lc_crypto) (BC := plain_codec) lc_trusted lc_vals lc_new lc_vals 1000 100 5 DefaultTrustLevel = Ok None ∧
  committed (CR := lc_crypto) (BC := plain_codec) [7] (λ _, Validators lc_vals) lc_new.
Proof.
  split; [exact lc_verified|].
  destruct (light_client_sound (CR := lc_crypto) (BC := plain_codec) (CL := plain_laws) lc_simple [7] (λ _, Validators lc_vals) {[lc_key]}
    (λ x, x ∈ lc_hashed) lc_fresh (CH := lc_chain) lc_trusted lc_vals lc_new lc_vals lc_known lc_followed) as [_ [[H _]|H]]; [discriminate H|exact H].
Defined.
