(* ===== verification/TmEvidence.v ===== *)
(** Evidence of misbehaviour (src/sourcecodes/tendermint/types/evidence.go) and its verification
    (evidence/verify.go): duplicate votes and attacks on light clients.

    Validator sets come from the state store, which is a parameter; headers and commits from the block store. *)

From S2P Require Import Prelude TmBits TmValidators TmPriority TmValUpdate TmTypes TmCommit TmVotes TmVoteInv TmVoteSafety.
From S2P Require Import TmMerkle TmPartSet TmPrivval TmHeightVotes TmBlock TmStore TmState TmConsensus TmConsVotes TmConsInv TmConsStep TmConsSafety.
From S2P Require Import TmLight.

(** [time.Time.Sub] saturates. *)
Definition time_Sub (t u : Z) : Z := Z.max MinInt64 (Z.min MaxInt64 (t - u)).

Inductive ev_error :=
| ErrNotValidator | ErrHRSMismatch | ErrAddressMismatch | ErrSameBlockID | ErrAddressKey | ErrValidatorPower | ErrTotalPower
| ErrSignatureA | ErrSignatureB
| ErrSkipping (e : commit_error) | ErrNotDerived | ErrConflictingCommit (e : commit_error) | ErrTimeMonotone | ErrSameHeader
| ErrAmnesiaValidators | ErrByzantineCount | ErrByzantineAddress | ErrByzantinePower
| ErrNoHeader | ErrNoCommit | ErrEvidenceTime | ErrTooOld | ErrNoValidators | ErrLatestBefore.

Section evidence.
Context {CR : Crypto} {BC : BlockCodec} {GS : GoSort}.

(** ** Evidence *)

(** [None] for a nil result. *)
Definition NewDuplicateVoteEvidence (vote1 vote2 : option Vote) (blockTime : Z) (valSet : option ValidatorSet) :
    outcome (option DuplicateVoteEvidence) :=
  match vote1, vote2, valSet with
  | Some vote1, Some vote2, Some valSet =>
      match GetByAddress valSet (v_ValidatorAddress vote1) with
      | (_, None) => Ok None
      | (_, Some val) =>
          let '(voteA, voteB) := match bytes_Compare (Key (v_BlockID vote1)) (Key (v_BlockID vote2)) with
                                 | Lt => (vote1, vote2)
                                 | _ => (vote2, vote1)
                                 end in
          let! (total, _) := TotalVotingPower valSet in
          Ok (Some (mkDVE (Some voteA) (Some voteB) total (VotingPower val) blockTime))
      end
  | _, _, _ => Ok None
  end.

(** Access to a nil vote panics. *)
Definition Evidence_Height (ev : Evidence) : outcome Z :=
  match ev with
  | EvDuplicateVote dve => match dve_VoteA dve with Some v => Ok (v_Height v) | None => Panic end
  | EvLightClientAttack l => Ok (l_CommonHeight l)
  end.
Definition Evidence_Time (ev : Evidence) : Z :=
  match ev with EvDuplicateVote dve => dve_Timestamp dve | EvLightClientAttack l => l_Timestamp l end.
Definition Evidence_Hash (ev : Evidence) : outcome bytes :=
  match ev with
  | EvDuplicateVote _ => let! bz := Evidence_Marshal ev in Ok (Sum bz)
  | EvLightClientAttack l => lcae_Hash l
  end.

(** Evidence decoded from the fields of its protobuf form: the list of validators is never nil. *)
Definition lcae_FromProto (conflictingBlock : LightBlock) (commonHeight : Z) (byzantine : list Validator) (total timestamp : Z) :
    outcome (LightClientAttackEvidence * option block_error) :=
  let l := mkLCAE (Some conflictingBlock) commonHeight (Some byzantine) total timestamp in
  let! e := lcae_ValidateBasic l in Ok (l, e).

Definition ConflictingHeaderIsInvalid (trusted conflicting : BlockHeader) : bool :=
  bool_decide (h_ValidatorsHash trusted ≠ h_ValidatorsHash conflicting) || bool_decide (h_NextValidatorsHash trusted ≠ h_NextValidatorsHash conflicting) ||
  bool_decide (h_ConsensusHash trusted ≠ h_ConsensusHash conflicting) || bool_decide (h_AppHash trusted ≠ h_AppHash conflicting) ||
  bool_decide (h_LastResultsHash trusted ≠ h_LastResultsHash conflicting).

(** The validators of the common set that signed the conflicting block. *)
Definition lunatic_validators (commonVals : ValidatorSet) (sigs : list CommitSig) : list (option Validator) :=
  omap (λ cs, if ForBlock cs then Some <$> (GetByAddress commonVals (cs_ValidatorAddress cs)).2 else None) sigs.

(** The validators that signed both commits; nil for a signer the conflicting set does not have. *)
Fixpoint equivocation_validators (conflictingVals : ValidatorSet) (i : Z) (sigsA sigsB : list CommitSig) : outcome (list (option Validator)) :=
  match sigsA with
  | [] => Ok []
  | sigA :: sigsA' =>
      if Absent sigA then equivocation_validators conflictingVals (i + 1) sigsA' sigsB else
      let! sigB := slice_get sigsB i in
      if Absent sigB then equivocation_validators conflictingVals (i + 1) sigsA' sigsB else
      let! rest := equivocation_validators conflictingVals (i + 1) sigsA' sigsB in
      Ok ((GetByAddress conflictingVals (cs_ValidatorAddress sigA)).2 :: rest)
  end.

(** [sort.Sort] compares every element of a list of two or more, and a comparison with nil panics. *)
Definition sort_validators (l : list (option Validator)) : outcome (list (option Validator)) :=
  if decide (None ∈ l ∧ (2 ≤ length l)%nat) then Panic
  else if decide (None ∈ l) then Ok l
  else Ok (Some <$> go_sort ByVotingPower_less (omap id l)).

Definition GetByzantineValidators (conflicting : BlockHeader) (conflictingCommit : Commit) (conflictingVals commonVals : ValidatorSet)
    (trusted : BlockHeader) (trustedCommit : Commit) : outcome (list (option Validator)) :=
  if ConflictingHeaderIsInvalid trusted conflicting then sort_validators (lunatic_validators commonVals (c_Signatures conflictingCommit))
  else if decide (c_Round trustedCommit = c_Round conflictingCommit) then
    let! l := equivocation_validators conflictingVals 0 (c_Signatures conflictingCommit) (c_Signatures trustedCommit) in sort_validators l
  else Ok [].

(** ** Verification *)
Definition VerifyDuplicateVote (e : DuplicateVoteEvidence) (chainID : bytes) (valSet : ValidatorSet) : outcome (option ev_error) :=
  match dve_VoteA e, dve_VoteB e with
  | Some a, Some b =>
      match (GetByAddress valSet (v_ValidatorAddress a)).2 with
      | None => Ok (Some ErrNotValidator)
      | Some val =>
          if decide (v_Height a ≠ v_Height b ∨ v_Round a ≠ v_Round b ∨ v_Type a ≠ v_Type b) then Ok (Some ErrHRSMismatch)
          else if decide (v_ValidatorAddress a ≠ v_ValidatorAddress b) then Ok (Some ErrAddressMismatch)
          else if Equals (v_BlockID a) (v_BlockID b) then Ok (Some ErrSameBlockID)
          else
            match PubKey val with
            | None => Panic
            | Some k =>
                if decide (key_Address k ≠ v_ValidatorAddress a) then Ok (Some ErrAddressKey)
                else if decide (VotingPower val ≠ dve_ValidatorPower e) then Ok (Some ErrValidatorPower)
                else
                  let! (total, _) := TotalVotingPower valSet in
                  if decide (total ≠ dve_TotalVotingPower e) then Ok (Some ErrTotalPower) else
                  let! msgA := VoteSignBytes MarshalVote chainID a in
                  if negb (VerifySignature k msgA (v_Signature a)) then Ok (Some ErrSignatureA) else
                  let! msgB := VoteSignBytes MarshalVote chainID b in
                  Ok (if VerifySignature k msgB (v_Signature b) then None else Some ErrSignatureB)
            end
      end
  | _, _ => Panic
  end.

(** The listed validators against the computed ones. *)
Fixpoint check_byzantine (validators : list (option Validator)) (listed : list Validator) : outcome (option ev_error) :=
  match validators, listed with
  | [], _ => Ok None
  | None :: _, _ | _, [] => Panic
  | Some val :: validators', ev :: listed' =>
      if decide (Address ev ≠ Address val) then Ok (Some ErrByzantineAddress)
      else if decide (VotingPower ev ≠ VotingPower val) then Ok (Some ErrByzantinePower)
      else check_byzantine validators' listed'
  end.

Definition validateABCIEvidence (ev : LightClientAttackEvidence) (conflicting : BlockHeader) (conflictingCommit : Commit)
    (conflictingVals commonVals : ValidatorSet) (trusted : BlockHeader) (trustedCommit : Commit) : outcome (option ev_error) :=
  let! (total, _) := TotalVotingPower commonVals in
  if decide (l_TotalVotingPower ev ≠ total) then Ok (Some ErrTotalPower) else
  let! validators := GetByzantineValidators conflicting conflictingCommit conflictingVals commonVals trusted trustedCommit in
  if decide (validators = [] ∧ l_ByzantineValidators ev ≠ None) then Ok (Some ErrAmnesiaValidators)
  else if decide (length validators ≠ length (default [] (l_ByzantineValidators ev))) then Ok (Some ErrByzantineCount)
  else check_byzantine validators (default [] (l_ByzantineValidators ev)).

(** The parts of the conflicting block, which must all be there. *)
Definition conflicting_parts (e : LightClientAttackEvidence) : outcome (BlockHeader * Commit * ValidatorSet) :=
  match l_ConflictingBlock e with
  | Some lb =>
      match lb_SignedHeader lb, lb_ValidatorSet lb with
      | Some sh, Some vals => match sh_Header sh, sh_Commit sh with Some h, Some c => Ok (h, c, vals) | _, _ => Panic end
      | _, _ => Panic
      end
  | None => Panic
  end.

(** Only the evidence may lack parts: the headers come from [getSignedHeader]. *)
Definition VerifyLightClientAttack (e : LightClientAttackEvidence) (common : BlockHeader) (trusted : BlockHeader) (trustedCommit : Commit)
    (commonVals : ValidatorSet) : outcome (option ev_error) :=
  let! (h, c, vals) := conflicting_parts e in
  let! r := (if decide (h_Height common ≠ h_Height h) then
               let! (r, _) := VerifyCommitLightTrusting VerifySignature MarshalVote (h_ChainID trusted) c
                                (Numerator DefaultTrustLevel) (Denominator DefaultTrustLevel) commonVals in
               Ok (ErrSkipping <$> r)
             else Ok (if ConflictingHeaderIsInvalid trusted h then Some ErrNotDerived else None)) in
  match r with
  | Some r => Ok (Some r)
  | None =>
      let! (r, _) := VerifyCommitLight VerifySignature MarshalVote (h_ChainID trusted) (c_BlockID c) (h_Height h) c vals in
      match r with
      | Some r => Ok (Some (ErrConflictingCommit r))
      | None =>
          let! (total, _) := TotalVotingPower commonVals in
          if decide (l_TotalVotingPower e ≠ total) then Ok (Some ErrTotalPower) else
          if decide (h_Height trusted < h_Height h ∧ h_Time trusted < h_Time h) then Ok (Some ErrTimeMonotone) else
          let! ht := Header_Hash (Some trusted) in
          let! hc := Header_Hash (Some h) in
          if decide (slice ht = slice hc) then Ok (Some ErrSameHeader)
          else validateABCIEvidence e h c vals commonVals trusted trustedCommit
      end
  end.

Definition getSignedHeader (bs : BlockStore) (height : Z) : outcome ((BlockHeader * Commit) + ev_error) :=
  let! meta := LoadBlockMeta height bs in
  match meta with
  | None => Ok (inr ErrNoHeader)
  | Some bm =>
      let! commit := LoadBlockCommit height bs in
      Ok (match commit with None => inr ErrNoCommit | Some c => inl (bm_Header bm, c) end)
  end.

(** The header to compare the conflicting one with: that of its height, or the latest one. *)
Definition trusted_header (bs : BlockStore) (evHeight : Z) (h : BlockHeader) (common : BlockHeader * Commit) :
    outcome ((BlockHeader * Commit) + ev_error) :=
  if decide (evHeight = h_Height h) then Ok (inl common) else
  let! t := getSignedHeader bs (h_Height h) in
  match t with
  | inl t => Ok (inl t)
  | inr _ =>
      let! t := getSignedHeader bs (bs_height bs) in
      Ok (match t with
          | inr e => inr e
          | inl t => if decide (h_Time t.1 < h_Time h) then inr ErrLatestBefore else inl t
          end)
  end.

Definition verify (LoadValidators : Z → option ValidatorSet) (bs : BlockStore) (state : smState) (ev : Evidence) : outcome (option ev_error) :=
  let params := sm_ConsensusParams state in
  let! evHeight := Evidence_Height ev in
  let ageNumBlocks := i64 (sm_LastBlockHeight state - evHeight) in
  let! meta := LoadBlockMeta evHeight bs in
  match meta with
  | None => Ok (Some ErrNoHeader)
  | Some bm =>
      let evTime := h_Time (bm_Header bm) in
      if decide (Evidence_Time ev ≠ evTime) then Ok (Some ErrEvidenceTime)
      else if decide (cp_MaxAgeDuration params < time_Sub (sm_LastBlockTime state) evTime ∧ cp_MaxAgeNumBlocks params < ageNumBlocks)
      then Ok (Some ErrTooOld)
      else
        match ev with
        | EvDuplicateVote dve =>
            match LoadValidators evHeight with
            | None => Ok (Some ErrNoValidators)
            | Some valSet => VerifyDuplicateVote dve (sm_ChainID state) valSet
            end
        | EvLightClientAttack l =>
            let! common := getSignedHeader bs evHeight in
            match common, LoadValidators evHeight with
            | inr e, _ => Ok (Some e)
            | _, None => Ok (Some ErrNoValidators)
            | inl common, Some commonVals =>
                let! (h, _, _) := conflicting_parts l in
                let! t := trusted_header bs evHeight h common in
                match t with
                | inr e => Ok (Some e)
                | inl t => VerifyLightClientAttack l common.1 t.1 t.2 commonVals
                end
            end
        end
  end.
End evidence.

(** ** What accepted evidence shows *)
Section accepted.
Context {CR : Crypto} {BC : BlockCodec} {GS : GoSort}.

Lemma GetByAddress_elem vals a i (v : Validator) : GetByAddress vals a = (i, Some v) → v ∈ Validators vals ∧ Address v = a.
Proof.
  unfold GetByAddress. intros (_ & Hv & Ha)%find_address_index. split; [by eapply list_elem_of_lookup_2|done].
Qed.

(** Accepted evidence of a duplicate vote holds two votes of one step for different blocks, signed with the key of a validator. *)
Lemma VerifyDuplicateVote_sound e chainID vals : VerifyDuplicateVote e chainID vals = Ok None →
  ∃ a b (v : Validator) k msgA msgB, dve_VoteA e = Some a ∧ dve_VoteB e = Some b ∧ v ∈ Validators vals ∧ Address v = v_ValidatorAddress a ∧
    PubKey v = Some k ∧ v_Height a = v_Height b ∧ v_Round a = v_Round b ∧ v_Type a = v_Type b ∧ v_BlockID a ≠ v_BlockID b ∧
    VoteSignBytes MarshalVote chainID a = Ok msgA ∧ VerifySignature k msgA (v_Signature a) = true ∧
    VoteSignBytes MarshalVote chainID b = Ok msgB ∧ VerifySignature k msgB (v_Signature b) = true.
Proof.
  unfold VerifyDuplicateVote. destruct (dve_VoteA e) as [a|]; [|done]. destruct (dve_VoteB e) as [b|]; [|done].
  destruct (GetByAddress vals (v_ValidatorAddress a)) as [i [v|]] eqn:Eg; [|done]. cbn [snd]. apply GetByAddress_elem in Eg as [Hv Ha].
  case_decide as H1; [done|]. case_decide as H2; [done|]. destruct (Equals (v_BlockID a) (v_BlockID b)) eqn:He; [done|].
  destruct (PubKey v) as [k|] eqn:Ek; [|done]. case_decide; [done|]. case_decide; [done|]. intros ([total s] & _ & E)%obind_Ok.
  case_decide; [done|]. apply obind_Ok in E as (mA & EA & E). destruct (VerifySignature k mA (v_Signature a)) eqn:VA; [|done]. cbn [negb] in E.
  apply obind_Ok in E as (mB & EB & E). destruct (VerifySignature k mB (v_Signature b)) eqn:VB; [|done].
  exists a, b, v, k, mA, mB. split_and!; try done; try (apply dec_stable; tauto).
  intros Hid. rewrite (proj2 (Equals_eq _ _) Hid) in He. done.
Qed.

(** A vote that passed the check of the vote set, as evidence. *)
Lemma Vote_Verify_signed v chainID k : Vote_Verify VerifySignature key_Address MarshalVote v chainID (Some k) = Ok None →
  key_Address k = v_ValidatorAddress v ∧ ∃ msg, VoteSignBytes MarshalVote chainID v = Ok msg ∧ VerifySignature k msg (v_Signature v) = true.
Proof.
  unfold Vote_Verify. case_decide as Ha; [done|]. intros (msg & Em & E)%obind_Ok. split; [done|]. exists msg. split; [done|].
  destruct (VerifySignature k msg (v_Signature v)); done.
Qed.

(** The two votes in order. *)
Lemma VerifyDuplicateVote_complete a b chainID vals i (v : Validator) k t : wf_powers vals → GetByAddress vals (v_ValidatorAddress a) = (i, Some v) →
  PubKey v = Some k → Vote_Verify VerifySignature key_Address MarshalVote a chainID (Some k) = Ok None →
  Vote_Verify VerifySignature key_Address MarshalVote b chainID (Some k) = Ok None →
  v_Height a = v_Height b → v_Round a = v_Round b → v_Type a = v_Type b → v_BlockID a ≠ v_BlockID b →
  VerifyDuplicateVote (mkDVE (Some a) (Some b) (power (Validators vals)) (VotingPower v) t) chainID vals = Ok None.
Proof.
  intros Hw Hg Hk (Ka & mA & EA & VA)%Vote_Verify_signed (Kb & mB & EB & VB)%Vote_Verify_signed Hh Hr Ht Hb.
  unfold VerifyDuplicateVote. cbn [dve_VoteA dve_VoteB dve_ValidatorPower dve_TotalVotingPower]. rewrite Hg. cbn [snd].
  rewrite decide_False by tauto. rewrite decide_False by congruence.
  assert (Equals (v_BlockID a) (v_BlockID b) = false) as ->.
  { destruct (Equals (v_BlockID a) (v_BlockID b)) eqn:E; [|done]. by apply Equals_eq in E. }
  rewrite Hk. rewrite decide_False by congruence. rewrite decide_False by congruence. rewrite (TotalVotingPower_powers vals Hw). cbn [outcome_bind].
  rewrite decide_False by congruence. rewrite EA. cbn [outcome_bind]. rewrite VA. cbn [negb]. rewrite EB. cbn [outcome_bind]. by rewrite VB.
Qed.

(** C29: Two votes of a validator for different blocks at one step, as a vote set reports them, give evidence: it is built, passes its
    basic checks and is accepted against the same validators, in whichever order the votes are given. *)
Theorem duplicate_vote_evidence_accepted a b chainID vals i (v : Validator) k t : wf_powers vals →
  GetByAddress vals (v_ValidatorAddress a) = (i, Some v) → PubKey v = Some k →
  Vote_Verify VerifySignature key_Address MarshalVote a chainID (Some k) = Ok None →
  Vote_Verify VerifySignature key_Address MarshalVote b chainID (Some k) = Ok None →
  Vote_ValidateBasic a = None → Vote_ValidateBasic b = None → proper_id (v_BlockID a) → proper_id (v_BlockID b) →
  v_Height a = v_Height b → v_Round a = v_Round b → v_Type a = v_Type b → v_BlockID a ≠ v_BlockID b →
  ∃ dve, NewDuplicateVoteEvidence (Some a) (Some b) t (Some vals) = Ok (Some dve) ∧ dve_ValidateBasic dve = None ∧
    VerifyDuplicateVote dve chainID vals = Ok None ∧ Evidence_Height (EvDuplicateVote dve) = Ok (v_Height a) ∧ dve_Timestamp dve = t.
Proof.
  intros Hw Hg Hk Va Vb Ba Bb Pa Pb Hh Hr Ht Hb. unfold NewDuplicateVoteEvidence. rewrite Hg, (TotalVotingPower_powers vals Hw). cbn [outcome_bind].
  pose proof (Vote_Verify_signed _ _ _ Va) as (Ka & _). pose proof (Vote_Verify_signed _ _ _ Vb) as (Kb & _).
  destruct (bytes_Compare (Key (v_BlockID a)) (Key (v_BlockID b))) eqn:Ec.
  - apply bytes_Compare_eq in Ec. destruct Hb. by apply Key_inj.
  - eexists. split; [done|]. unfold dve_ValidateBasic. cbn [dve_VoteA dve_VoteB]. rewrite Ba, Bb, Ec.
    split_and!; [done| |done|done]. by eapply VerifyDuplicateVote_complete.
  - eexists. split; [done|]. unfold dve_ValidateBasic. cbn [dve_VoteA dve_VoteB]. rewrite Ba, Bb, bytes_Compare_antisym, Ec. cbn [CompOpp].
    split_and!; [done| |cbn; congruence|done]. eapply VerifyDuplicateVote_complete; try done. by rewrite <-Kb, Ka.
Qed.

(** C39: Evidence of an amnesia attack (a header with the right fields, committed in another round) that was decoded from a message or
    a block is never accepted, since the list of validators in it is empty but not nil. *)
Theorem amnesia_evidence_refused lb height byzantine total t l h c vals common trusted trustedCommit commonVals :
  lcae_FromProto lb height byzantine total t = Ok (l, None) → conflicting_parts l = Ok (h, c, vals) →
  ConflictingHeaderIsInvalid trusted h = false → c_Round trustedCommit ≠ c_Round c →
  VerifyLightClientAttack l common trusted trustedCommit commonVals ≠ Ok None.
Proof.
  unfold lcae_FromProto. intros (e & _ & [= <- ->])%obind_Ok Ep Hi Hr. unfold VerifyLightClientAttack. rewrite Ep. cbn [outcome_bind].
  intros (r & _ & E)%obind_Ok. destruct r; [done|]. apply obind_Ok in E as ([r s] & _ & E). destruct r; [done|].
  apply obind_Ok in E as ([p s'] & _ & E). case_decide; [done|]. case_decide; [done|]. apply obind_Ok in E as (ht & _ & E).
  apply obind_Ok in E as (hc & _ & E). case_decide; [done|]. unfold validateABCIEvidence in E. apply obind_Ok in E as ([p' s''] & _ & E).
  case_decide; [done|]. unfold GetByzantineValidators in E. rewrite Hi, decide_False in E by done. cbn [outcome_bind] in E.
  by rewrite decide_True in E by (by split).
Qed.
End accepted.

Section network.
Context {CR : Crypto} {BC : BlockCodec} (hosts : bytes → Host).
Context (correct : gset bytes) (chain : bytes) (vals_at : Z → list Validator) (base : Z) {KS : ∀ k, KeepsState (@blockExec (hosts k)) (good_state chain vals_at)}.
Context (marshal_inj : ∀ cv cv', MarshalVote cv = MarshalVote cv' → cv = cv').

(** C8: Evidence of a duplicate vote never accuses a correct node: in every run of the network, when evidence is accepted whose votes
    nobody forged, the validator it names is not a correct node, whatever made up the evidence. *)
Theorem evidence_accuses_faulty w e vals : wreach hosts correct chain vals_at base w →
  (∀ v, dve_VoteA e = Some v ∨ dve_VoteB e = Some v → base ≤ v_Height v ∧ authentic correct chain base (w_sent w) v) →
  VerifyDuplicateVote e chain vals = Ok None →
  ∃ a (v : Validator) k, dve_VoteA e = Some a ∧ v ∈ Validators vals ∧ Address v = v_ValidatorAddress a ∧ PubKey v = Some k ∧ k ∉ correct.
Proof.
  intros W%wreach_WI Hauth (a & b & v & k & mA & mB & Ea & Eb & Hv & Ha & Hk & Hh & Hr & Ht & Hid & MA & VA & MB & VB)%VerifyDuplicateVote_sound; [|done].
  exists a, v, k. split_and!; try done. intros Hc.
  destruct (Hauth a (or_introl Ea)) as [Ba Aa]. destruct (Hauth b (or_intror Eb)) as [Bb Ab].
  destruct (Aa k mA Hc Ba MA VA) as (a' & Sa & Ma). destruct (Ab k mB Hc Bb MB VB) as (b' & Sb & Mb).
  destruct (sign_bytes_about chain marshal_inj a a' mA MA Ma) as (T1 & H1 & R1 & I1).
  destruct (sign_bytes_about chain marshal_inj b b' mB MB Mb) as (T2 & H2 & R2 & I2).
  destruct (votes_ordered correct chain vals_at base w W k a' b' Sa Sb) as [E|[E|E]]; [congruence|congruence|..]; unfold vote_before in E; rewrite T1, R1, T2, R2, Hr, Ht in E; lia.
Qed.
End network.
