(* ===== verification/TmEvPool.v ===== *)
(** The evidence pool (src/sourcecodes/tendermint/evidence/pool.go).

    The database holds pending evidence under (height, hash), which the iterator visits in the order of the keys, and the keys of
    committed evidence; what is written is read back, with the checks of the decoding.  A failing database is left out.  The state
    store and the size of a list of evidence are parameters; the block store is an argument, since the node changes it. *)

From S2P Require Import Prelude TmBits TmValidators TmPriority TmValUpdate TmTypes TmCommit TmVotes TmVoteInv TmVoteSafety.
From S2P Require Import TmMerkle TmPartSet TmPrivval TmHeightVotes TmBlock TmStore TmState TmConsensus TmConsVotes TmConsInv TmConsStep TmConsSafety.
From S2P Require Import TmLight TmEvidence.

(** ** Data *)

(** The key [keySuffix] prints: the height in sixteen hexadecimal digits, then the hash, so that keys are ordered like the pairs (for
    heights that are not negative). *)
Definition evkey : Type := Z * bytes.
Definition evkey_less (a b : evkey) : bool :=
  if decide (a.1 = b.1) then bytes_less a.2 b.2 else bool_decide (a.1 < b.1).

Record Pool := mkPool {
  ep_pending : list (evkey * Evidence);   (* in the order of the keys *)
  ep_committed : list evkey;
  ep_list : list Evidence;
  ep_size : Z;
  ep_state : smState;
  ep_buffer : list (Vote * Vote);
  ep_pruningHeight : Z; ep_pruningTime : Z;
}.

Definition set_pending (l : list (evkey * Evidence)) (n : Z) (p : Pool) : Pool :=
  mkPool l (ep_committed p) (ep_list p) n (ep_state p) (ep_buffer p) (ep_pruningHeight p) (ep_pruningTime p).
Definition set_committed (l : list evkey) (p : Pool) : Pool :=
  mkPool (ep_pending p) l (ep_list p) (ep_size p) (ep_state p) (ep_buffer p) (ep_pruningHeight p) (ep_pruningTime p).
Definition set_list (l : list Evidence) (p : Pool) : Pool :=
  mkPool (ep_pending p) (ep_committed p) l (ep_size p) (ep_state p) (ep_buffer p) (ep_pruningHeight p) (ep_pruningTime p).
Definition set_pool_state (s : smState) (p : Pool) : Pool :=
  mkPool (ep_pending p) (ep_committed p) (ep_list p) (ep_size p) s (ep_buffer p) (ep_pruningHeight p) (ep_pruningTime p).
Definition set_buffer (l : list (Vote * Vote)) (p : Pool) : Pool :=
  mkPool (ep_pending p) (ep_committed p) (ep_list p) (ep_size p) (ep_state p) l (ep_pruningHeight p) (ep_pruningTime p).
Definition set_pruning (h t : Z) (p : Pool) : Pool :=
  mkPool (ep_pending p) (ep_committed p) (ep_list p) (ep_size p) (ep_state p) (ep_buffer p) h t.

(** ** The database: a key is set, looked up and deleted *)
Fixpoint db_set (k : evkey) (ev : Evidence) (l : list (evkey * Evidence)) : list (evkey * Evidence) :=
  match l with
  | [] => [(k, ev)]
  | (k', ev') :: l' =>
      if decide (k = k') then (k, ev) :: l'
      else if evkey_less k k' then (k, ev) :: (k', ev') :: l' else (k', ev') :: db_set k ev l'
  end.
Definition db_has (k : evkey) (l : list (evkey * Evidence)) : bool := bool_decide (k ∈ l.*1).
Definition db_delete (k : evkey) (l : list (evkey * Evidence)) : list (evkey * Evidence) := filter (λ p, p.1 ≠ k) l.

Inductive pool_error := ErrInvalidEvidence (e : ev_error) | ErrAlreadyCommitted | ErrDuplicateEvidence | ErrVerifyEvidence (e : ev_error).

(** What the pool is run with. *)
Class PoolEnv := { ep_LoadValidators : Z → option ValidatorSet; ep_ListSize : list Evidence → Z }.

Section pool.
Context {CR : Crypto} {BC : BlockCodec} {GS : GoSort} {PE : PoolEnv}.
Local Abbreviation P := (M Pool).

Definition evMapKey (ev : Evidence) : outcome bytes := Evidence_Hash ev.
Definition keySuffix (ev : Evidence) : outcome evkey := let! h := Evidence_Height ev in let! hash := Evidence_Hash ev in Ok (h, hash).

Definition isPending (ev : Evidence) : P bool := k <- lift (keySuffix ev) ;; p <- gets id ;; ret (db_has k (ep_pending p)).
Definition isCommitted (ev : Evidence) : P bool := k <- lift (keySuffix ev) ;; p <- gets id ;; ret (bool_decide (k ∈ ep_committed p)).

(** What is read back: a list of validators that was nil is empty. *)
Definition decoded (ev : Evidence) : Evidence :=
  match ev with
  | EvDuplicateVote dve => EvDuplicateVote dve
  | EvLightClientAttack l =>
      EvLightClientAttack (mkLCAE (l_ConflictingBlock l) (l_CommonHeight l) (Some (default [] (l_ByzantineValidators l))) (l_TotalVotingPower l) (l_Timestamp l))
  end.

Definition addPendingEvidence (ev : Evidence) : P unit :=
  k <- lift (keySuffix ev) ;; modify (λ p, set_pending (db_set k (decoded ev) (ep_pending p)) (u32 (ep_size p + 1)) p).
Definition removePendingEvidence (ev : Evidence) : P unit :=
  k <- lift (keySuffix ev) ;; modify (λ p, set_pending (db_delete k (ep_pending p)) (u32 (ep_size p - 1)) p).

Definition isExpired (height time : Z) (p : Pool) : bool :=
  let params := sm_ConsensusParams (ep_state p) in
  bool_decide (cp_MaxAgeNumBlocks params < i64 (sm_LastBlockHeight (ep_state p) - height)) &&
  bool_decide (cp_MaxAgeDuration params < time_Sub (sm_LastBlockTime (ep_state p)) time).

(** The elements of the list whose hash is in the map. *)
Fixpoint filter_hashes (hashes : list bytes) (l : list Evidence) : outcome (list Evidence) :=
  match l with
  | [] => Ok []
  | ev :: l' =>
      let! h := evMapKey ev in
      let! rest := filter_hashes hashes l' in
      Ok (if decide (h ∈ hashes) then rest else ev :: rest)
  end.
Definition removeEvidenceFromList (hashes : list bytes) : P unit :=
  p <- gets id ;; l <- lift (filter_hashes hashes (ep_list p)) ;; modify (set_list l).
Definition remove_some (hashes : list bytes) : P unit := if decide (hashes = []) then ret tt else removeEvidenceFromList hashes.

(** [listEvidence] within [maxBytes] (-1 for no bound), from what was listed before; [None] stands for an error of the decoding,
    which loses the list. *)
Fixpoint list_from (maxBytes : Z) (l : list (evkey * Evidence)) (got : list Evidence) (total : Z) : outcome (option (list Evidence) * Z) :=
  match l with
  | [] => Ok (Some got, total)
  | (_, ev) :: l' =>
      let size := ep_ListSize (got ++ [ev]) in
      if decide (maxBytes ≠ -1 ∧ maxBytes < size) then Ok (Some got, total) else
      let! e := Evidence_ValidateBasic ev in
      match e with Some _ => Ok (None, total) | None => list_from maxBytes l' (got ++ [ev]) size end
  end.
Definition listEvidence (maxBytes : Z) (p : Pool) : outcome (option (list Evidence) * Z) := list_from maxBytes (ep_pending p) [] 0.

Definition pool_PendingEvidence (maxBytes : Z) (p : Pool) : outcome (list Evidence * Z) :=
  if decide (ep_size p = 0) then Ok ([], 0) else
  let! (l, size) := listEvidence maxBytes p in Ok (default [] l, size).

(** The loop of [removeExpiredPendingEvidence] over the entries the iterator started with: evidence that does not decode is skipped. *)
Fixpoint remove_expired (l : list (evkey * Evidence)) (hashes : list bytes) : P (Z * Z) :=
  match l with
  | [] =>
      remove_some hashes ;;;
      p <- gets id ;; ret (sm_LastBlockHeight (ep_state p), sm_LastBlockTime (ep_state p))
  | (_, ev) :: l' =>
      e <- lift (Evidence_ValidateBasic ev) ;;
      match e with
      | Some _ => remove_expired l' hashes
      | None =>
          h <- lift (Evidence_Height ev) ;;
          p <- gets id ;;
          if isExpired h (Evidence_Time ev) p then
            removePendingEvidence ev ;;;
            k <- lift (evMapKey ev) ;;
            remove_expired l' (k :: hashes)
          else
            remove_some hashes ;;;
            let params := sm_ConsensusParams (ep_state p) in
            ret (i64 (i64 (h + cp_MaxAgeNumBlocks params) + 1), Evidence_Time ev + cp_MaxAgeDuration params + 1000000000)
      end
  end.
Definition removeExpiredPendingEvidence : P (Z * Z) := p <- gets id ;; remove_expired (ep_pending p) [].

(** ** Operations *)
Definition NewPool (state : smState) (pending : list (evkey * Evidence)) (committed : list evkey) : outcome (option Pool) :=
  let! ((h, t), p) := removeExpiredPendingEvidence (mkPool pending committed [] 0 state [] 0 0) in
  let! (l, _) := listEvidence (-1) p in
  Ok (match l with
      | None => None
      | Some l => Some (set_pruning h t (set_list (ep_list p ++ l) (set_pending (ep_pending p) (u32 (Z.of_nat (length l))) p)))
      end).

Definition AddEvidence (bs : BlockStore) (ev : Evidence) : P (option pool_error) :=
  pending <- isPending ev ;;
  if (pending : bool) then ret None else
  committed <- isCommitted ev ;;
  if (committed : bool) then ret None else
  p <- gets id ;;
  e <- lift (verify ep_LoadValidators bs (ep_state p) ev) ;;
  match e with
  | Some e => ret (Some (ErrInvalidEvidence e))
  | None => addPendingEvidence ev ;;; modify (λ p, set_list (ep_list p ++ [ev]) p) ;;; ret None
  end.

Definition ReportConflictingVotes (voteA voteB : Vote) : P unit := modify (λ p, set_buffer (ep_buffer p ++ [(voteA, voteB)]) p).

Definition is_light (ev : Evidence) : bool := match ev with EvLightClientAttack _ => true | _ => false end.

(** The loop of [CheckEvidence], with the hashes of the evidence before. *)
Fixpoint check_list (bs : BlockStore) (l : list Evidence) (hashes : list bytes) : P (option pool_error) :=
  match l with
  | [] => ret None
  | ev :: l' =>
      pending <- isPending ev ;;
      r <- (if is_light ev || negb pending then
              committed <- isCommitted ev ;;
              if (committed : bool) then ret (Some ErrAlreadyCommitted) else
              p <- gets id ;;
              e <- lift (verify ep_LoadValidators bs (ep_state p) ev) ;;
              match e with
              | Some e => ret (Some (ErrVerifyEvidence e))
              | None => addPendingEvidence ev ;;; ret None
              end
            else ret None) ;;
      match r with
      | Some e => ret (Some e)
      | None =>
          h <- lift (Evidence_Hash ev) ;;
          if decide (h ∈ hashes) then ret (Some ErrDuplicateEvidence) else check_list bs l' (h :: hashes)
      end
  end.
Definition CheckEvidence (bs : BlockStore) (evList : list Evidence) : P (option pool_error) := check_list bs evList [].

(** The loop of [markEvidenceAsCommitted], with the hashes of the evidence removed. *)
Fixpoint mark_list (l : list Evidence) (hashes : list bytes) : P (list bytes) :=
  match l with
  | [] => ret hashes
  | ev :: l' =>
      pending <- isPending ev ;;
      hashes <- (if (pending : bool) then removePendingEvidence ev ;;; h <- lift (evMapKey ev) ;; ret (h :: hashes) else ret hashes) ;;
      k <- lift (keySuffix ev) ;;
      modify (λ p, set_committed (if decide (k ∈ ep_committed p) then ep_committed p else k :: ep_committed p) p) ;;;
      mark_list l' hashes
  end.
Definition markEvidenceAsCommitted (evidence : list Evidence) : P unit := hashes <- mark_list evidence [] ;; remove_some hashes.

(** The evidence for two votes, if what it takes can be loaded; a nil result is used all the same. *)
Definition buffer_evidence (bs : BlockStore) (state : smState) (voteA voteB : Vote) : outcome (option (option DuplicateVoteEvidence)) :=
  if decide (v_Height voteA = sm_LastBlockHeight state) then
    let! dve := NewDuplicateVoteEvidence (Some voteA) (Some voteB) (sm_LastBlockTime state) (sm_LastValidators state) in Ok (Some dve)
  else if decide (v_Height voteA < sm_LastBlockHeight state) then
    match ep_LoadValidators (v_Height voteA) with
    | None => Ok None
    | Some valSet =>
        let! meta := LoadBlockMeta (v_Height voteA) bs in
        match meta with
        | None => Ok None
        | Some bm => let! dve := NewDuplicateVoteEvidence (Some voteA) (Some voteB) (h_Time (bm_Header bm)) (Some valSet) in Ok (Some dve)
        end
    end
  else Ok None.

Definition add_votes (bs : BlockStore) (state : smState) (votes : Vote * Vote) : P unit :=
  r <- lift (buffer_evidence bs state votes.1 votes.2) ;;
  match r with
  | None => ret tt
  | Some None => panic
  | Some (Some dve) =>
      let ev := EvDuplicateVote dve in
      pending <- isPending ev ;;
      if (pending : bool) then ret tt else
      committed <- isCommitted ev ;;
      if (committed : bool) then ret tt else
      addPendingEvidence ev ;;; modify (λ p, set_list (ep_list p ++ [ev]) p)
  end.
Fixpoint add_all_votes (bs : BlockStore) (state : smState) (l : list (Vote * Vote)) : P unit :=
  match l with [] => ret tt | v :: l' => add_votes bs state v ;;; add_all_votes bs state l' end.
Definition processConsensusBuffer (bs : BlockStore) (state : smState) : P unit :=
  p <- gets id ;; add_all_votes bs state (ep_buffer p) ;;; modify (set_buffer []).

Definition pool_Update (bs : BlockStore) (state : smState) (ev : list Evidence) : P unit :=
  p <- gets id ;;
  if decide (sm_LastBlockHeight state ≤ sm_LastBlockHeight (ep_state p)) then panic else
  processConsensusBuffer bs state ;;;
  modify (set_pool_state state) ;;;
  markEvidenceAsCommitted ev ;;;
  p <- gets id ;;
  if decide (0 < ep_size p ∧ ep_pruningHeight p < sm_LastBlockHeight state ∧ ep_pruningTime p < sm_LastBlockTime state) then
    r <- removeExpiredPendingEvidence ;; modify (set_pruning r.1 r.2)
  else ret tt.
End pool.

(** ** The database *)
Lemma evkey_less_irrefl k : evkey_less k k = false.
Proof. unfold evkey_less. rewrite decide_True by done. apply bytes_less_irrefl. Qed.
Lemma evkey_less_trans a b c : evkey_less a b = true → evkey_less b c = true → evkey_less a c = true.
Proof.
  unfold evkey_less. repeat case_decide; rewrite ?bool_decide_eq_true; try lia; [apply bytes_less_trans|..]; congruence.
Qed.
Lemma evkey_less_total a b : evkey_less a b = false → a = b ∨ evkey_less b a = true.
Proof.
  destruct a as [h x], b as [h' x']. unfold evkey_less. cbn. case_decide as E; [subst h'|].
  - rewrite decide_True by done. intros Hx. destruct (bytes_less x' x) eqn:Hx'; [by right|]. left. f_equal. by apply bytes_less_total.
  - rewrite bool_decide_eq_false, decide_False by done. intros Hx. right. apply bool_decide_eq_true. lia.
Qed.

Lemma db_set_elem k ev l x : x ∈ db_set k ev l → x = (k, ev) ∨ x ∈ l.
Proof.
  induction l as [|[k' ev'] l IH]; cbn [db_set]; [intros ->%list_elem_of_singleton; by left|].
  repeat case_match; rewrite ?elem_of_cons; [tauto|tauto|]. intros [->|Hx%IH]; tauto.
Qed.
Lemma db_set_keys k ev l x : x ∈ (db_set k ev l).*1 ↔ x = k ∨ x ∈ l.*1.
Proof.
  induction l as [|[k' ev'] l IH]; cbn [db_set]; [cbn; by rewrite list_elem_of_singleton, elem_of_nil; tauto|].
  case_decide as E; [subst k'|case_match]; cbn; rewrite ?elem_of_cons, ?IH; cbn; tauto.
Qed.

Local Abbreviation sorted := (StronglySorted (λ a b, evkey_less a b = true)).

Lemma db_set_sorted k ev l : sorted l.*1 → sorted (db_set k ev l).*1.
Proof.
  induction l as [|[k' ev'] l IH]; cbn [db_set fmap list_fmap fst]; [intros _; repeat constructor|].
  intros [Hs Hf]%StronglySorted_inv. case_decide as E; [subst k'; by constructor|].
  destruct (evkey_less k k') eqn:El; cbn [fmap list_fmap fst].
  - constructor; [by constructor|]. constructor; [done|]. eapply Forall_impl; [exact Hf|]. intros x. by apply evkey_less_trans.
  - constructor; [by apply IH|]. apply Forall_forall. intros x [->|Hx]%db_set_keys; [|by rewrite Forall_forall in Hf; apply Hf].
    destruct (evkey_less_total k k' El); [done|done].
Qed.

Lemma db_delete_elem k l x : x ∈ db_delete k l ↔ x ∈ l ∧ x.1 ≠ k.
Proof. unfold db_delete. rewrite list_elem_of_filter. tauto. Qed.
Lemma db_delete_keys k l x : x ∈ (db_delete k l).*1 ↔ x ∈ l.*1 ∧ x ≠ k.
Proof.
  rewrite !list_elem_of_fmap. split.
  - intros (y & -> & [H1 H2]%db_delete_elem). split; [by exists y|done].
  - intros ((y & -> & Hy) & Hk). exists y. split; [done|]. by apply db_delete_elem.
Qed.
Lemma db_delete_sorted k l : sorted l.*1 → sorted (db_delete k l).*1.
Proof.
  induction l as [|[k' ev'] l IH]; [done|]. intros [Hs Hf]%StronglySorted_inv. unfold db_delete. rewrite filter_cons.
  case_decide; [|by apply IH]. cbn. constructor; [by apply IH|]. apply Forall_forall. intros x [Hx _]%db_delete_keys.
  rewrite Forall_forall in Hf. by apply Hf.
Qed.
Lemma db_has_true k l : db_has k l = true ↔ k ∈ l.*1.
Proof. apply bool_decide_eq_true. Qed.

(** ** The invariant of the pool *)
Section invariant.
Context {CR : Crypto} {BC : BlockCodec} {GS : GoSort} {PE : PoolEnv}.

(** The pending evidence is kept in order under its own keys, which are not committed; what is gossiped is pending, but for the hashes
    that are being removed. *)
Record PI (hashes : list bytes) (p : Pool) : Prop := {
  pi_sorted : sorted (ep_pending p).*1;
  pi_keys : ∀ k ev, (k, ev) ∈ ep_pending p → keySuffix ev = Ok k;
  pi_apart : ∀ k, k ∈ (ep_pending p).*1 → k ∉ ep_committed p;
  pi_list : ∀ ev, ev ∈ ep_list p → ∃ k, keySuffix ev = Ok k ∧ (k ∈ (ep_pending p).*1 ∨ k.2 ∈ hashes);
}.

Lemma keySuffix_decoded ev : keySuffix (decoded ev) = keySuffix ev.
Proof. by destruct ev. Qed.
Lemma keySuffix_hash ev k : keySuffix ev = Ok k → Evidence_Hash ev = Ok k.2.
Proof. unfold keySuffix. intros (h & _ & (x & E & [= <-])%obind_Ok)%obind_Ok. done. Qed.

Lemma isPending_Ok ev p b p' : isPending ev p = Ok (b, p') → p' = p ∧ ∃ k, keySuffix ev = Ok k ∧ b = db_has k (ep_pending p).
Proof. unfold isPending. intros E. back. split; [done|]. by eexists. Qed.
Lemma isCommitted_Ok ev p b p' : isCommitted ev p = Ok (b, p') → p' = p ∧ ∃ k, keySuffix ev = Ok k ∧ b = bool_decide (k ∈ ep_committed p).
Proof. unfold isCommitted. intros E. back. split; [done|]. by eexists. Qed.

Lemma PI_pending hs k ev n p : PI hs p → keySuffix ev = Ok k → k ∉ ep_committed p → PI hs (set_pending (db_set k (decoded ev) (ep_pending p)) n p).
Proof.
  intros [Hs Hk Ha Hl] Ek Hc. split; cbn [set_pending ep_pending ep_committed ep_list].
  - by apply db_set_sorted.
  - intros k' ev' [[= -> ->]|H]%db_set_elem; [by rewrite keySuffix_decoded|by apply Hk].
  - intros x [->|Hx]%db_set_keys; [done|by apply Ha].
  - intros ev' (k' & E & Hx)%Hl. exists k'. split; [done|]. rewrite db_set_keys. tauto.
Qed.
Lemma PI_delete hs k n p : PI hs p → PI (k.2 :: hs) (set_pending (db_delete k (ep_pending p)) n p).
Proof.
  intros [Hs Hk Ha Hl]. split; cbn [set_pending ep_pending ep_committed ep_list].
  - by apply db_delete_sorted.
  - intros k' ev' [H _]%db_delete_elem. by apply Hk.
  - intros x [Hx _]%db_delete_keys. by apply Ha.
  - intros ev' (k' & E & Hx)%Hl. exists k'. split; [done|]. rewrite db_delete_keys, elem_of_cons.
    destruct (decide (k' = k)) as [->|]; [by right; left|tauto].
Qed.
Lemma PI_list hs ev k p : PI hs p → keySuffix ev = Ok k → k ∈ (ep_pending p).*1 → PI hs (set_list (ep_list p ++ [ev]) p).
Proof.
  intros [Hs Hk Ha Hl] Ek Hc. split; [done..|]. cbn. intros ev' [H| ->%list_elem_of_singleton]%elem_of_app; [by apply Hl|]. exists k. tauto.
Qed.
Lemma PI_committed hs k p : PI hs p → k ∉ (ep_pending p).*1 → PI hs (set_committed (k :: ep_committed p) p).
Proof.
  intros [Hs Hk Ha Hl] Hc. split; [done..| |done]. cbn. intros x Hx [-> |H]%elem_of_cons; [done|]. by apply (Ha x Hx).
Qed.

Lemma filter_hashes_elem hs l l' ev : filter_hashes hs l = Ok l' → ev ∈ l' → ev ∈ l ∧ ∀ h, Evidence_Hash ev = Ok h → h ∉ hs.
Proof.
  revert l'. induction l as [|x l IH]; intros l'; cbn [filter_hashes]; [intros [= <-] []%elem_of_nil|].
  intros (h & Eh & (rest & Er & [= <-])%obind_Ok)%obind_Ok. rewrite elem_of_cons. case_decide as Hd.
  - intros H. destruct (IH _ Er H). tauto.
  - intros [->|H]%elem_of_cons; [|destruct (IH _ Er H); tauto]. split; [by left|]. unfold evMapKey in Eh. intros y. rewrite Eh. by intros [= ->].
Qed.
Lemma remove_some_PI hs p u p' : PI hs p → remove_some hs p = Ok (u, p') → PI [] p' ∧ ep_committed p' = ep_committed p ∧ ep_state p' = ep_state p.
Proof.
  intros H. unfold remove_some. case_decide as E; [subst hs; intros Er; back; done|]. unfold removeEvidenceFromList. intros Er. back.
  destruct H as [Hs Hk Ha Hl]. split; [|done]. split; [done..|]. cbn. intros ev Hin.
  destruct (filter_hashes_elem _ _ _ _ H1 Hin) as [He Hn]. destruct (Hl ev He) as (k & Ek & Hk'). exists k. split; [done|].
  destruct Hk' as [?|Hh]; [by left|]. by destruct (Hn _ (keySuffix_hash _ _ Ek)).
Qed.

(** ** Every operation keeps it *)

(** What an operation does to the committed evidence: nothing. *)
Definition same_committed (p p' : Pool) : Prop := ep_committed p' = ep_committed p.

Lemma remove_expired_PI l hs p r p' : PI hs p → remove_expired l hs p = Ok (r, p') → PI [] p' ∧ same_committed p p'.
Proof.
  revert hs p. induction l as [|[k ev] l IH]; intros hs p H; cbn [remove_expired].
  - intros (u & p1 & Er & E)%bind_Ok. destruct (remove_some_PI _ _ _ _ H Er) as (? & ? & _). back. done.
  - intros (e & p1 & [Ee <-]%lift_Ok & E)%bind_Ok. destruct e; [by eapply IH|].
    apply bind_Ok in E as (h & p1 & [Eh <-]%lift_Ok & E). apply bind_Ok in E as (q & p1 & [-> <-]%gets_Ok & E). unfold id in E.
    destruct (isExpired h (Evidence_Time ev) p).
    + apply bind_Ok in E as (u & p1 & Er & E). apply bind_Ok in E as (x & p2 & [Ex <-]%lift_Ok & E).
      unfold removePendingEvidence in Er. apply bind_Ok in Er as (k1 & p2 & [Ek <-]%lift_Ok & ->%modify_Ok).
      apply keySuffix_hash in Ek. unfold evMapKey in Ex. rewrite Ek in Ex. injection Ex as <-. eapply IH in E; [done|by apply PI_delete].
    + apply bind_Ok in E as (u & p1 & Er & E). destruct (remove_some_PI _ _ _ _ H Er) as (? & ? & _). by apply ret_Ok in E as [_ <-].
Qed.

Lemma list_from_PI maxBytes l got total got' total' : list_from maxBytes l got total = Ok (Some got', total') →
  ∃ n, got' = got ++ take n l.*2.
Proof.
  revert got total. induction l as [|[k ev] l IH]; intros got total; cbn [list_from]; [intros [= <- <-]; exists 0%nat; by rewrite app_nil_r|].
  case_decide; [intros [= <- <-]; exists 0%nat; by rewrite app_nil_r|]. intros (e & _ & E)%obind_Ok. destruct e; [done|].
  apply IH in E as [n ->]. exists (S n). by rewrite <-app_assoc.
Qed.

Lemma PI_pruning hs h t p : PI hs p → PI hs (set_pruning h t p).
Proof. by intros []. Qed.
Lemma PI_state hs st p : PI hs p → PI hs (set_pool_state st p).
Proof. by intros []. Qed.
Lemma PI_buffer hs l p : PI hs p → PI hs (set_buffer l p).
Proof. by intros []. Qed.

(** Starting from what a pool left in the database. *)
Lemma NewPool_PI st pending committed p : PI [] (mkPool pending committed [] 0 st [] 0 0) → NewPool st pending committed = Ok (Some p) →
  PI [] p ∧ ep_committed p = committed.
Proof.
  intros H0. unfold NewPool. intros ([[h t] p1] & Er & E)%obind_Ok. unfold removeExpiredPendingEvidence in Er.
  apply bind_Ok in Er as (q & p2 & [-> <-]%gets_Ok & Er). destruct (remove_expired_PI _ _ _ _ _ H0 Er) as [[Hs Hk Ha Hl] Hc].
  apply obind_Ok in E as ([[l|] n] & El & [= <-]). apply list_from_PI in El as [m ->]. cbn [app]. split; [|done]. apply PI_pruning.
  split; cbn [set_list set_pending ep_pending ep_committed ep_list]; [done..|]. intros ev [H|H]%elem_of_app; [by apply Hl|].
  apply elem_of_take in H as (i & Hi & _). apply list_elem_of_lookup_2, list_elem_of_fmap in Hi as ([k ev'] & -> & Hi).
  exists k. split; [by apply Hk|]. left. apply list_elem_of_fmap. by exists (k, ev').
Qed.

(** Evidence that is not committed is added. *)
Lemma addPendingEvidence_PI ev k p u p' : PI [] p → keySuffix ev = Ok k → k ∉ ep_committed p → addPendingEvidence ev p = Ok (u, p') →
  PI [] p' ∧ same_committed p p' ∧ ep_state p' = ep_state p ∧ ∀ x, x ∈ (ep_pending p').*1 ↔ x = k ∨ x ∈ (ep_pending p).*1.
Proof.
  intros H Ek Hc. unfold addPendingEvidence. intros (k1 & p1 & [Ek1 <-]%lift_Ok & ->%modify_Ok)%bind_Ok. rewrite Ek in Ek1. injection Ek1 as <-.
  split; [by apply PI_pending|]. split; [done|]. split; [done|]. intros x. apply db_set_keys.
Qed.
Lemma add_listed_PI ev k p u p' : PI [] p → keySuffix ev = Ok k → k ∉ ep_committed p →
  (addPendingEvidence ev ;;; modify (λ p, set_list (ep_list p ++ [ev]) p)) p = Ok (u, p') → PI [] p' ∧ same_committed p p'.
Proof.
  intros H Ek Hc (u1 & p1 & Ea & ->%modify_Ok)%bind_Ok. destruct (addPendingEvidence_PI _ _ _ _ _ H Ek Hc Ea) as (H1 & Hc1 & _ & Hx).
  split; [|done]. apply (PI_list _ ev k); [done|done|]. apply Hx. by left.
Qed.

Lemma AddEvidence_PI bs ev p r p' : PI [] p → AddEvidence bs ev p = Ok (r, p') → PI [] p' ∧ same_committed p p'.
Proof.
  intros H. unfold AddEvidence. intros (b & p1 & (-> & k & Ek & ->)%isPending_Ok & E)%bind_Ok. destruct (db_has k (ep_pending p)); [by back|].
  apply bind_Ok in E as (b & p1 & (-> & k1 & Ek1 & ->)%isCommitted_Ok & E). case_bool_decide as Hc; [by back|].
  apply bind_Ok in E as (q & p1 & [-> <-]%gets_Ok & E). apply bind_Ok in E as (e & p1 & [Ev <-]%lift_Ok & E). destruct e; [by back|].
  apply bind_Ok in E as (u & p1 & E1 & E). apply bind_Ok in E as (u2 & p2 & E2 & [_ <-]%ret_Ok).
  eapply add_listed_PI; [done|exact Ek1|done|]. rewrite (bind_run _ _ _ _ _ E1). exact E2.
Qed.

Lemma add_votes_PI bs st v p u p' : PI [] p → add_votes bs st v p = Ok (u, p') → PI [] p' ∧ same_committed p p'.
Proof.
  intros H. unfold add_votes. intros (r & p1 & [Er <-]%lift_Ok & E)%bind_Ok. destruct r as [[dve|]|]; [|done|by back].
  apply bind_Ok in E as (b & p1 & (-> & k & Ek & ->)%isPending_Ok & E). destruct (db_has k (ep_pending p)); [by back|].
  apply bind_Ok in E as (b & p1 & (-> & k1 & Ek1 & ->)%isCommitted_Ok & E). case_bool_decide as Hc; [by back|].
  by eapply add_listed_PI.
Qed.
Lemma add_all_votes_PI bs st l p u p' : PI [] p → add_all_votes bs st l p = Ok (u, p') → PI [] p' ∧ same_committed p p'.
Proof.
  revert p. induction l as [|v l IH]; intros p H; cbn [add_all_votes]; [intros E; by back|].
  intros (u1 & p1 & E1 & E)%bind_Ok. destruct (add_votes_PI _ _ _ _ _ _ H E1) as [H1 C1]. destruct (IH _ H1 E) as [H2 C2].
  split; [done|]. unfold same_committed in *. congruence.
Qed.

(** The check of one item: whatever it answers, the pool is sound; when it passes, the evidence is not committed and is pending now. *)
Lemma check_item_PI bs ev k p r p' : PI [] p → keySuffix ev = Ok k →
  (if is_light ev || negb (db_has k (ep_pending p)) then
     committed <- isCommitted ev ;;
     if (committed : bool) then ret (Some ErrAlreadyCommitted) else
     p <- gets id ;;
     e <- lift (verify ep_LoadValidators bs (ep_state p) ev) ;;
     match e with Some e => ret (Some (ErrVerifyEvidence e)) | None => addPendingEvidence ev ;;; ret None end
   else ret None) p = Ok (r, p') →
  PI [] p' ∧ same_committed p p' ∧ (r = None → (k ∉ ep_committed p) ∧ k ∈ ((ep_pending p').*1)).
Proof.
  intros H Ek. destruct (is_light ev || negb (db_has k (ep_pending p))) eqn:Eb.
  - intros (b & p1 & (-> & k1 & Ek1 & ->)%isCommitted_Ok & E)%bind_Ok. rewrite Ek in Ek1. injection Ek1 as <-.
    case_bool_decide as Hc; [by apply ret_Ok in E as [<- <-]|].
    apply bind_Ok in E as (q & p1 & [-> <-]%gets_Ok & E). apply bind_Ok in E as (e & p1 & [Ev <-]%lift_Ok & E).
    destruct e; [by apply ret_Ok in E as [<- <-]|]. apply bind_Ok in E as (u & p1 & E1 & [<- <-]%ret_Ok).
    destruct (addPendingEvidence_PI _ _ _ _ _ H Ek Hc E1) as (H1 & Hc1 & _ & Hx). split; [done|]. split; [done|]. intros _. split; [done|].
    apply Hx. by left.
  - intros [<- <-]%ret_Ok. split; [done|]. split; [done|]. intros _. apply orb_false_iff in Eb as [_ Eb%negb_false_iff%db_has_true].
    split; [by apply (pi_apart _ _ H)|done].
Qed.

Lemma check_list_PI bs l hs p r p' : PI [] p → check_list bs l hs p = Ok (r, p') → PI [] p' ∧ same_committed p p' ∧
  (r = None → ∃ ks, Forall2 (λ ev k, keySuffix ev = Ok k) l ks ∧ NoDup (snd <$> ks) ∧ ∀ k, k ∈ ks → (k ∉ ep_committed p) ∧ k.2 ∉ hs).
Proof.
  revert hs p. induction l as [|ev l IH]; intros hs p H; cbn [check_list].
  - intros [<- <-]%ret_Ok. split; [done|]. split; [done|]. intros _. exists []. split; [constructor|]. split; [constructor|]. intros k []%elem_of_nil.
  - intros (b & p1 & (-> & k & Ek & ->)%isPending_Ok & (r1 & p2 & E1 & E)%bind_Ok)%bind_Ok.
    destruct (check_item_PI _ _ _ _ _ _ H Ek E1) as (H1 & C1 & N1). destruct r1 as [e|]; [by apply ret_Ok in E as [<- <-]|].
    destruct (N1 eq_refl) as [Hk _]. apply bind_Ok in E as (h & p3 & [Eh <-]%lift_Ok & E). rewrite (keySuffix_hash _ _ Ek) in Eh. injection Eh as <-.
    case_decide as Hd; [by apply ret_Ok in E as [<- <-]|]. destruct (IH _ _ H1 E) as (H2 & C2 & N2). unfold same_committed in *.
    split; [done|]. split; [congruence|]. intros Hr. destruct (N2 Hr) as (ks & F & Nd & Hks). exists (k :: ks). split; [by constructor|]. split.
    + cbn. constructor; [|done]. intros (x & Ex & Hx)%list_elem_of_fmap. destruct (Hks x Hx) as [_ Hn]. rewrite <-Ex in Hn. apply Hn. by left.
    + intros x [->|Hx]%elem_of_cons; [done|]. destruct (Hks x Hx) as [Hc Hn]. rewrite C1 in Hc. split; [done|]. intros ?. apply Hn. by right.
Qed.

(** Committing evidence. *)
Definition commits (l : list Evidence) (p p' : Pool) : Prop :=
  (∀ k, k ∈ ep_committed p → k ∈ ep_committed p') ∧ (∀ ev k, ev ∈ l → keySuffix ev = Ok k → k ∈ ep_committed p').

Lemma mark_list_PI l hs p hs' p' : PI hs p → mark_list l hs p = Ok (hs', p') → PI hs' p' ∧ commits l p p'.
Proof.
  revert hs p. induction l as [|ev l IH]; intros hs p H; cbn [mark_list].
  - intros [<- <-]%ret_Ok. split; [done|]. split; [done|]. intros ev k []%elem_of_nil.
  - intros (b & p1 & (-> & k & Ek & ->)%isPending_Ok & (hs1 & q & E1 & E)%bind_Ok)%bind_Ok.
    assert (PI hs1 q ∧ same_committed p q ∧ k ∉ (ep_pending q).*1) as (H1 & C1 & N1).
    { destruct (db_has k (ep_pending p)) eqn:Eb.
      - unfold removePendingEvidence in E1. apply bind_Ok in E1 as (u & p2 & (k1 & p3 & [Ek1 <-]%lift_Ok & ->%modify_Ok)%bind_Ok & E1).
        rewrite Ek in Ek1. injection Ek1 as <-. apply bind_Ok in E1 as (h & p3 & [Eh <-]%lift_Ok & [<- <-]%ret_Ok). unfold evMapKey in Eh.
        rewrite (keySuffix_hash _ _ Ek) in Eh. injection Eh as <-. split; [by apply PI_delete|]. split; [done|]. intros [_ Hn]%db_delete_keys. done.
      - apply ret_Ok in E1 as [<- <-]. split; [done|]. split; [done|]. intros Hin%db_has_true. congruence. }
    apply bind_Ok in E as (k1 & p2 & [Ek1 <-]%lift_Ok & E). rewrite Ek in Ek1. injection Ek1 as <-. apply bind_Ok in E as (u & p2 & ->%modify_Ok & E).
    eapply IH in E as (H2 & S2 & M2).
    + split; [done|]. split; [intros x Hx; apply S2; unfold same_committed in C1; rewrite <-C1 in Hx; cbn; case_decide; [exact Hx|by right]|].
      intros ev' k' [->|Hin]%elem_of_cons Ek'; [|by eapply M2]. rewrite Ek in Ek'. injection Ek' as <-. apply S2. cbn. case_decide; [done|by left].
    + case_decide; [|by apply PI_committed]. by destruct H1.
Qed.

Lemma pool_Update_PI bs st l p u p' : PI [] p → pool_Update bs st l p = Ok (u, p') → PI [] p' ∧ commits l p p'.
Proof.
  intros H. unfold pool_Update. intros (q & p1 & [-> <-]%gets_Ok & E)%bind_Ok. case_decide; [done|].
  apply bind_Ok in E as (u1 & p1 & E1 & E). unfold processConsensusBuffer in E1. apply bind_Ok in E1 as (q & p2 & [-> <-]%gets_Ok & E1).
  apply bind_Ok in E1 as (u2 & p2 & E2 & ->%modify_Ok). destruct (add_all_votes_PI _ _ _ _ _ _ H E2) as [H2 C2].
  apply bind_Ok in E as (u3 & p3 & ->%modify_Ok & E). apply bind_Ok in E as (u4 & p4 & E4 & E). unfold markEvidenceAsCommitted in E4.
  apply bind_Ok in E4 as (hs & p5 & E5 & E4). eapply mark_list_PI in E5 as (H5 & S5 & M5); [|by apply PI_state, PI_buffer].
  destruct (remove_some_PI _ _ _ _ H5 E4) as (H4 & C4 & _). cbn in S5. rewrite C2 in S5. unfold commits.
  apply bind_Ok in E as (q & p6 & [-> <-]%gets_Ok & E). unfold id in E. case_decide.
  - apply bind_Ok in E as (r & p6 & E6 & ->%modify_Ok). unfold removeExpiredPendingEvidence in E6.
    apply bind_Ok in E6 as (q & p7 & [-> <-]%gets_Ok & E6). destruct (remove_expired_PI _ _ _ _ _ H4 E6) as [H6 C6].
    split; [by apply PI_pruning|]. cbn. rewrite C6, C4. done.
  - apply ret_Ok in E as [_ <-]. split; [done|]. rewrite C4. done.
Qed.

(** ** Runs of the pool *)

(** The pool of a node with the evidence of the blocks it was updated with, over restarts on the same database. *)
Inductive pool_run : list Evidence → Pool → Prop :=
| run_start st p : NewPool st [] [] = Ok (Some p) → pool_run [] p
| run_restart st hist p p' : pool_run hist p → NewPool st (ep_pending p) (ep_committed p) = Ok (Some p') → pool_run hist p'
| run_add bs ev hist p r p' : pool_run hist p → AddEvidence bs ev p = Ok (r, p') → pool_run hist p'
| run_report a b hist p u p' : pool_run hist p → ReportConflictingVotes a b p = Ok (u, p') → pool_run hist p'
| run_check bs l hist p r p' : pool_run hist p → CheckEvidence bs l p = Ok (r, p') → pool_run hist p'
| run_update bs st l hist p u p' : pool_run hist p → pool_Update bs st l p = Ok (u, p') → pool_run (hist ++ l) p'.

Lemma pool_run_PI hist p : pool_run hist p → PI [] p ∧ ∀ ev k, ev ∈ hist → keySuffix ev = Ok k → k ∈ ep_committed p.
Proof.
  induction 1 as [st p E|st hist p p' _ [IH Hh] E|bs ev hist p r p' _ [IH Hh] E|a b hist p u p' _ [IH Hh] E|bs l hist p r p' _ [IH Hh] E|bs st l hist p u p' _ [IH Hh] E].
  - apply NewPool_PI in E as [H ->].
    + split; [done|]. intros ev k []%elem_of_nil.
    + split; cbn; [constructor|intros k ev []%elem_of_nil|intros k []%elem_of_nil|intros ev []%elem_of_nil].
  - apply NewPool_PI in E as [H ->]; [done|]. destruct IH as [Hs Hk Ha _]. split; [done..|]. intros ev []%elem_of_nil.
  - destruct (AddEvidence_PI _ _ _ _ _ IH E) as [H C]. split; [done|]. rewrite C. done.
  - apply modify_Ok in E as ->. split; [by apply PI_buffer|done].
  - destruct (check_list_PI _ _ _ _ _ _ IH E) as (H & C & _). split; [done|]. rewrite C. done.
  - destruct (pool_Update_PI _ _ _ _ _ _ IH E) as (H & S & M). split; [done|]. intros ev k [Hin|Hin]%elem_of_app Ek; [|by eapply M].
    apply S. by eapply Hh.
Qed.

Lemma list_from_size maxBytes l got total got' total' : maxBytes ≠ -1 → total ≤ maxBytes → total = ep_ListSize got →
  list_from maxBytes l got total = Ok (Some got', total') → total' ≤ maxBytes ∧ total' = ep_ListSize got'.
Proof.
  intros Hm. revert got total. induction l as [|[k ev] l IH]; intros got total Ht Eq; cbn [list_from]; [by intros [= <- <-]|].
  case_decide as Hd; [by intros [= <- <-]|]. intros (e & _ & E)%obind_Ok. destruct e; [done|]. apply IH in E; [done|lia|done].
Qed.

Lemma list_from_lost maxBytes l got total total' : maxBytes ≠ -1 → total ≤ maxBytes →
  list_from maxBytes l got total = Ok (None, total') → total' ≤ maxBytes.
Proof.
  intros Hm. revert got total. induction l as [|[k ev] l IH]; intros got total Ht; cbn [list_from]; [done|].
  case_decide as Hd; [done|]. intros (e & _ & E)%obind_Ok. destruct e; [by injection E as <-|]. apply IH in E; [done|lia].
Qed.

(** What the pool offers for a block is the first of the pending evidence in the order of height and hash, without repetition,
    within the size asked for, and none of it was committed before. *)
Theorem pending_evidence_proposable hist p maxBytes l size : pool_run hist p → ep_ListSize [] = 0 → 0 ≤ maxBytes →
  pool_PendingEvidence maxBytes p = Ok (l, size) →
  ∃ ks, Forall2 (λ ev k, keySuffix ev = Ok k) l ks ∧ ks `prefix_of` (ep_pending p).*1 ∧ StronglySorted (λ a b, evkey_less a b = true) ks ∧
    size ≤ maxBytes ∧ (l ≠ [] → size = ep_ListSize l) ∧ ∀ ev k, ev ∈ hist → keySuffix ev = Ok k → k ∉ ks.
Proof.
  intros [H Hh]%pool_run_PI Hz Hm E.
  assert (∃ n, l = take n (ep_pending p).*2 ∧ size ≤ maxBytes ∧ (l ≠ [] → size = ep_ListSize l)) as (n & -> & Hs & Hl).
  { unfold pool_PendingEvidence in E. case_decide; [injection E as <- <-; by exists 0%nat|].
    apply obind_Ok in E as ([[got|] total] & E & [= <- <-]); cbn [default].
    - pose proof (list_from_PI _ _ _ _ _ _ E) as [n ->]. exists n. split; [done|].
      apply list_from_size in E as [Hs Hl]; [done|lia|lia|done].
    - exists 0%nat. split; [done|]. split; [|done]. apply list_from_lost in E; [done|lia|lia]. }
  exists (take n (ep_pending p).*1). rewrite <-!fmap_take. split_and!; try done.
  - rewrite Forall2_fmap_l, Forall2_fmap_r. apply Forall_Forall2_diag, Forall_forall. intros [k ev] (i & Hi & _)%elem_of_take.
    by apply (pi_keys _ _ H), list_elem_of_lookup_2 with i.
  - exists (drop n (ep_pending p)).*1. by rewrite <-fmap_app, take_drop.
  - eapply StronglySorted_app_1_l. rewrite <-fmap_app, take_drop. apply H.
  - rewrite fmap_take. exact Hl.
  - intros ev k Hin Ek (x & -> & (i & Hi & _)%elem_of_take)%list_elem_of_fmap. eapply (pi_apart _ _ H); [|by eapply Hh].
    apply list_elem_of_fmap. exists x. split; [done|]. by eapply list_elem_of_lookup_2.
Qed.

(** C12: No evidence is committed twice: whatever happened to the pool, restarts included, the evidence of a block that passes
    [CheckEvidence] is not among the evidence of the blocks the pool was updated with, and no two items of it are the same. *)
Theorem evidence_committed_once hist p bs l p' : pool_run hist p → CheckEvidence bs l p = Ok (None, p') →
  ∃ ks, Forall2 (λ ev k, keySuffix ev = Ok k) l ks ∧ NoDup (snd <$> ks) ∧ ∀ ev k, ev ∈ hist → keySuffix ev = Ok k → k ∉ ks.
Proof.
  intros [H Hh]%pool_run_PI E. destruct (check_list_PI _ _ _ _ _ _ H E) as (_ & _ & N). destruct (N eq_refl) as (ks & F & Nd & Hk).
  exists ks. split; [done|]. split; [done|]. intros ev k Hin Ek Hks. destruct (Hk k Hks) as [Hc _]. apply Hc. by eapply Hh.
Qed.
End invariant.
