(* ===== verification/TmEvSample.v ===== *)
(** Concrete evidence: two votes of the fourth validator of the network, and an amnesia attack on the chain of the light client. *)

From S2P Require Import Prelude TmBits TmValidators TmPriority TmValUpdate TmTypes TmCommit TmVotes TmVoteInv TmVoteSafety.
From S2P Require Import TmMerkle TmPartSet TmPrivval TmHeightVotes TmBlock TmStore TmState TmConsensus TmConsVotes TmConsInv TmConsStep TmConsSafety.
From S2P Require Import TmExec TmStoreFacts TmBlockFacts TmExecFacts TmConsFlaws TmConsSample TmLight TmEvidence TmEvPool.

#[local] Existing Instance merge_GoSort.
#[local] Existing Instance net_crypto.

(** ** Votes of validator 4 for two blocks *)
Definition es_id (i : Z) : BlockID := mkBlockID (replicate 32 i) (mkPartSetHeader 1 (replicate 32 i)).
Definition es_vote (i round : Z) : Vote := mkVote PrevoteType 1 round (es_id i) 7 (take 20 (net_key 4)) 3 (net_key 4).
Definition es_evidence (round : Z) : DuplicateVoteEvidence := mkDVE (Some (es_vote 5 round)) (Some (es_vote 6 round)) 4 1 100.

Lemma duplicate_vote_evidence_accepted_witness : ∃ dve, NewDuplicateVoteEvidence (Some (es_vote 6 0)) (Some (es_vote 5 0)) 100 (Some net_set) = Ok (Some dve) ∧
  dve_ValidateBasic dve = None ∧ VerifyDuplicateVote dve net_chain net_set = Ok None ∧ Evidence_Height (EvDuplicateVote dve) = Ok 1 ∧ dve_Timestamp dve = 100.
Proof.
  refine (duplicate_vote_evidence_accepted (es_vote 6 0) (es_vote 5 0) net_chain net_set 3 (mkValidator (mkValInfo (take 20 (net_key 4)) (Some (net_key 4)) 1) 0)
    (net_key 4) 100 _ _ _ _ _ _ _ _ _ _ _ _ _).
  all: try (vm_compute; reflexivity).
  - split; vm_compute; [repeat constructor|discriminate|by right].
  - split; [right; vm_compute; reflexivity|vm_compute; split; [discriminate|reflexivity]].
  - split; [right; vm_compute; reflexivity|vm_compute; split; [discriminate|reflexivity]].
  - vm_compute. discriminate.
Defined.

(** The network has run; the evidence is accepted, and validator 4 is not one of the correct nodes. *)
Lemma evidence_accuses_faulty_witness : ∃ w, net_world = Ok w ∧ VerifyDuplicateVote (es_evidence 0) net_chain net_set = Ok None ∧
  ∃ a (v : Validator) k, dve_VoteA (es_evidence 0) = Some a ∧ v ∈ Validators net_set ∧ Address v = v_ValidatorAddress a ∧ PubKey v = Some k ∧ k ∉ net_correct.
Proof.
  destruct (applied_in_some net_world (net_key 1)) as (w & s1 & id1 & b1 & Ew & _ & _); [vm_compute; discriminate|].
  assert (Ev : VerifyDuplicateVote (es_evidence 0) net_chain net_set = Ok None) by (vm_compute; reflexivity).
  exists w. split; [exact Ew|]. split; [exact Ev|].
  refine (evidence_accuses_faulty (BC := net_codec net_block) net_host net_correct net_chain (λ _, net_validators) 1 (KS := net_keeps) _ w (es_evidence 0) net_set
    (net_world_reach w Ew) _ Ev).
  - apply net_marshal_inj.
  - intros v Hv. assert (v_Height v = 1 ∧ v_Signature v = net_key 4) as [Hh Hs] by (destruct Hv as [[= <-]|[= <-]]; split; reflexivity).
    split; [rewrite Hh; done|]. intros k msg Hk _ _ Hsig%bool_decide_eq_true. rewrite Hs in Hsig. subst k. exfalso. revert Hk. vm_compute. discriminate.
Defined.

(** ** An amnesia attack: the validator of the light client's chain has committed a second header of height 3 in another round *)
Definition es_vals : ValidatorSet := mkValidatorSet (Validators lc_vals) (Some (mkValInfo (replicate 20 9) (Some lc_key) 10)) 10.
Definition es_lcae (byzantine : option (list Validator)) : LightClientAttackEvidence :=
  mkLCAE (Some (mkLightBlock (Some lc_new) (Some es_vals))) 3 byzantine 10 40.
Definition es_trusted : BlockHeader := lc_header 3 40.
Definition es_round : Commit := mkCommit 3 1 lc_id (c_Signatures lc_commit).

(** With a nil list the evidence is accepted; decoded, it is not. *)
Lemma amnesia_evidence_refused_witness :
  VerifyLightClientAttack (CR := lc_crypto) (BC := plain_codec) (es_lcae None) es_trusted es_trusted es_round lc_vals = Ok None ∧
  VerifyLightClientAttack (CR := lc_crypto) (BC := plain_codec) (es_lcae (Some [])) es_trusted es_trusted es_round lc_vals ≠ Ok None.
Proof.
  split; [vm_compute; reflexivity|].
  refine (amnesia_evidence_refused (CR := lc_crypto) (BC := plain_codec) (mkLightBlock (Some lc_new) (Some es_vals)) 3 [] 10 40 (es_lcae (Some []))
    (lc_header 3 30) lc_commit es_vals es_trusted es_trusted es_round lc_vals _ _ _ _); vm_compute; [reflexivity..|discriminate].
Defined.

(** ** The pool: evidence is committed, two more votes are reported, and their evidence is offered and passes the check *)
#[local] Instance es_codec : BlockCodec := {|
  Sum := net_Sum; StringValue_Marshal := id; Int64Value_Marshal := λ n, [n]; BytesValue_Marshal := id;
  Version_Marshal := λ v, [ver_Block v; ver_App v]; StdTimeMarshal := λ t, Some [t];
  BlockID_Marshal := λ b, bid_Hash b; CommitSig_Marshal := cs_Signature; SimpleValidator_Marshal := λ k p, p :: k; PutVarint := λ n, [n];
  Evidence_Marshal := λ ev, Ok (match ev with EvDuplicateVote e => from_option (λ v, [v_Height v; v_Round v]) [] (dve_VoteA e) | _ => [] end);
  Block_Marshal := λ _, Ok []; Block_Unmarshal := λ _, None |}.
#[local] Instance es_env : PoolEnv := {| ep_LoadValidators := λ _, None; ep_ListSize := λ l, 10 * Z.of_nat (length l) |}.

Definition es_state : smState :=
  mkState (mkConsensusVersion BlockProtocol 0) net_chain 1 1 (es_id 5) 100 (Some net_set) (Some net_set) (Some net_set) 1 net_params 1 [] [].
Definition es_first : outcome Pool := let! p := NewPool net_state [] [] in match p with Some p => Ok p | None => Panic end.
Definition es_pool : outcome Pool :=
  let! p := es_first in
  let! (_, p) := ReportConflictingVotes (es_vote 6 2) (es_vote 5 2) p in
  let! (_, p) := pool_Update empty_store es_state [EvDuplicateVote (es_evidence 0)] p in
  Ok p.

Lemma es_pool_run p : es_pool = Ok p → pool_run [EvDuplicateVote (es_evidence 0)] p.
Proof.
  unfold es_pool, es_first. intros (p0 & (o & E0 & Eo)%obind_Ok & E)%obind_Ok. destruct o as [p0'|]; [|done]. injection Eo as ->.
  apply obind_Ok in E as ([u p1] & E1 & E). apply obind_Ok in E as ([u2 p2] & E2 & [= <-]).
  change [EvDuplicateVote (es_evidence 0)] with ([] ++ [EvDuplicateVote (es_evidence 0)]). eapply run_update; [|exact E2].
  eapply run_report; [|exact E1]. eapply run_start, E0.
Qed.

Definition es_ready : Pool := match es_pool with Ok p => p | _ => mkPool [] [] [] 0 net_state [] 0 0 end.
Lemma es_ready_ok : es_pool = Ok es_ready.
Proof. vm_compute. reflexivity. Qed.
Definition es_checked : Pool := match CheckEvidence empty_store [EvDuplicateVote (es_evidence 2)] es_ready with Ok (_, p) => p | _ => es_ready end.
Lemma es_checked_ok : CheckEvidence empty_store [EvDuplicateVote (es_evidence 2)] es_ready = Ok (None, es_checked).
Proof. vm_compute. reflexivity. Qed.
Lemma es_offered_ok : pool_PendingEvidence 25 es_ready = Ok ([EvDuplicateVote (es_evidence 2)], 10).
Proof. vm_compute. reflexivity. Qed.

Lemma evidence_committed_once_witness : CheckEvidence empty_store [EvDuplicateVote (es_evidence 2)] es_ready = Ok (None, es_checked) ∧
  ∃ k, keySuffix (EvDuplicateVote (es_evidence 2)) = Ok k ∧ keySuffix (EvDuplicateVote (es_evidence 0)) ≠ Ok k.
Proof.
  split; [exact es_checked_ok|].
  destruct (evidence_committed_once _ es_ready empty_store _ es_checked (es_pool_run es_ready es_ready_ok) es_checked_ok) as (ks & F & _ & H).
  apply Forall2_cons_inv_l in F as (k & ks' & Ek & _ & ->). exists k. split; [exact Ek|]. intros E0. exact (H _ k (list_elem_of_here _ _) E0 (list_elem_of_here _ _)).
Defined.

Lemma pending_evidence_proposable_witness : pool_PendingEvidence 25 es_ready = Ok ([EvDuplicateVote (es_evidence 2)], 10) ∧
  ∃ ks, Forall2 (λ ev k, keySuffix ev = Ok k) [EvDuplicateVote (es_evidence 2)] ks ∧ ks `prefix_of` (ep_pending es_ready).*1.
Proof.
  split; [exact es_offered_ok|].
  destruct (pending_evidence_proposable _ es_ready 25 _ 10 (es_pool_run es_ready es_ready_ok) eq_refl (Zle_0_pos 25) es_offered_ok) as (ks & F & Hp & _).
  exists ks. split; [exact F|exact Hp].
Defined.
