(* ===== verification/TmLightStore.v ===== *)
(** The light client's store (src/sourcecodes/tendermint/light/store/db/db.go).

    The database maps a prefix and a height to a light block, and the one key [size] to the number the last writer had; several stores
    may share it.  Prefixes have no slash, so that every key of a prefix is parsed.  A light block has all its parts: providers return
    blocks that passed ValidateBasic.  A failing database and the encodings are left out. *)

From S2P Require Import Prelude TmBits TmValidators TmPriority TmValUpdate TmTypes TmCommit TmVotes TmVoteInv TmVoteSafety.
From S2P Require Import TmMerkle TmPartSet TmPrivval TmHeightVotes TmBlock.

Definition u16 (z : Z) : Z := z mod 65536.

(** ** Data *)
Record LBlock := mkLBlock { fb_Header : BlockHeader; fb_Commit : Commit; fb_Vals : ValidatorSet }.
Definition fb_Height (b : LBlock) : Z := h_Height (fb_Header b).
Definition fb_Signed (b : LBlock) : SignedHeader := mkSignedHeader (Some (fb_Header b)) (Some (fb_Commit b)).

Record LightDB := mkLightDB { ldb_blocks : gmap (bytes * Z) LBlock; ldb_size : option Z }.
Record LStore := mkLStore { ls_db : LightDB; ls_prefix : bytes; ls_size : Z }.

(** ** Operations *)
Definition NewLStore (db : LightDB) (prefix : bytes) : LStore := mkLStore db prefix (default 0 (ldb_size db)).

Definition SaveLightBlock (lb : LBlock) : M LStore unit :=
  if decide (fb_Height lb ≤ 0) then panic else
  modify (λ s, let size := u16 (ls_size s + 1) in
               mkLStore (mkLightDB (<[(ls_prefix s, fb_Height lb) := lb]> (ldb_blocks (ls_db s))) (Some size)) (ls_prefix s) size).

Definition DeleteLightBlock (height : Z) : M LStore unit :=
  if decide (height ≤ 0) then panic else
  modify (λ s, let size := u16 (ls_size s - 1) in
               mkLStore (mkLightDB (delete (ls_prefix s, height) (ldb_blocks (ls_db s))) (Some size)) (ls_prefix s) size).

(** [None] for ErrLightBlockNotFound. *)
Definition get_LightBlock (height : Z) (s : LStore) : outcome (option LBlock) :=
  if decide (height ≤ 0) then Panic else Ok (ldb_blocks (ls_db s) !! (ls_prefix s, height)).

(** The heights of the store in the order of the keys. *)
Definition heights (s : LStore) : list Z :=
  merge_sort Z.le (omap (λ kv, if decide (kv.1.1 = ls_prefix s) then Some kv.1.2 else None) (map_to_list (ldb_blocks (ls_db s)))).

Definition LastLightBlockHeight (s : LStore) : Z := default (-1) (last (heights s)).
Definition FirstLightBlockHeight (s : LStore) : Z := default (-1) (head (heights s)).

Definition LightBlockBefore (height : Z) (s : LStore) : outcome (option LBlock) :=
  if decide (height ≤ 0) then Panic else
  match last (filter (λ h, h < height) (heights s)) with
  | Some h => get_LightBlock h s
  | None => Ok None
  end.

Definition delete_heights (l : list Z) (s : LStore) : gmap (bytes * Z) LBlock :=
  foldr (λ h m, delete (ls_prefix s, h) m) (ldb_blocks (ls_db s)) l.
Definition light_Prune (size : Z) (s : LStore) : LStore :=
  if decide (ls_size s ≤ size) then s else
  let l := take (Z.to_nat (u16 (ls_size s - size))) (heights s) in
  let size' := u16 (ls_size s - u16 (Z.of_nat (length l))) in
  mkLStore (mkLightDB (delete_heights l s) (Some size')) (ls_prefix s) size'.

(** ** The heights *)

(** The blocks are kept under their heights, which are positive. *)
Definition keyed (m : gmap (bytes * Z) LBlock) : Prop := ∀ p h b, m !! (p, h) = Some b → fb_Height b = h ∧ 0 < h.

Lemma heights_elem s h : h ∈ heights s ↔ is_Some (ldb_blocks (ls_db s) !! (ls_prefix s, h)).
Proof.
  unfold heights. rewrite merge_sort_Permutation, list_elem_of_omap. split.
  - intros ([[p h'] b] & Hin%elem_of_map_to_list & E). cbn in E. case_decide; simplify_eq. by exists b.
  - intros [b Hb]. exists ((ls_prefix s, h), b). split; [by apply elem_of_map_to_list|]. cbn. by rewrite decide_True.
Qed.

Lemma heights_nodup s : NoDup (heights s).
Proof.
  unfold heights. rewrite merge_sort_Permutation. pose proof (NoDup_fst_map_to_list (ldb_blocks (ls_db s))) as H. revert H.
  induction (map_to_list (ldb_blocks (ls_db s))) as [|[[p h] b] l IH]; intros H; [constructor|]. cbn in H. apply NoDup_cons in H as [Hn Hd].
  cbn [omap list_omap fst snd]. case_decide as Hp; [|by apply IH]. cbn in Hp. subst p. constructor; [|by apply IH].
  intros ([[p' h'] b'] & Hin & E)%list_elem_of_omap. cbn in E. case_decide as Hp; [|done]. injection E as ->. apply Hn, list_elem_of_fmap. eexists. split; [|exact Hin]. cbn in *. by subst.
Qed.

Lemma heights_sorted s : StronglySorted Z.lt (heights s).
Proof.
  assert (StronglySorted Z.le (heights s)) as Hs by (apply StronglySorted_merge_sort; apply _).
  pose proof (heights_nodup s) as Hn. induction Hs as [|h l Hs IH Hf]; [constructor|]. apply NoDup_cons in Hn as [Hh Hn].
  constructor; [by apply IH|]. apply Forall_forall. intros x Hx. rewrite Forall_forall in Hf. specialize (Hf x Hx).
  assert (x ≠ h) by (intros ->; done). lia.
Qed.

Lemma get_LightBlock_Ok h s o : get_LightBlock h s = Ok o → 0 < h ∧ o = ldb_blocks (ls_db s) !! (ls_prefix s, h).
Proof. unfold get_LightBlock. case_decide; [done|]. intros [= <-]. split; [lia|done]. Qed.

Lemma LightBlockBefore_Ok h s b : LightBlockBefore h s = Ok (Some b) → ∃ h', h' < h ∧ ldb_blocks (ls_db s) !! (ls_prefix s, h') = Some b.
Proof.
  unfold LightBlockBefore. case_decide; [done|]. destruct (last (filter (λ x, x < h) (heights s))) as [h'|] eqn:E; [|done].
  intros [_ Eb]%get_LightBlock_Ok. apply last_Some_elem_of, list_elem_of_filter in E as [Hlt _]. by exists h'.
Qed.

Lemma delete_heights_lookup l s k : delete_heights l s !! k = if decide (k.1 = ls_prefix s ∧ k.2 ∈ l) then None else ldb_blocks (ls_db s) !! k.
Proof.
  destruct k as [p h]. unfold delete_heights. cbn [fst snd]. induction l as [|x l IH]; cbn [foldr].
  - rewrite decide_False; [done|]. intros [_ []%elem_of_nil].
  - destruct (decide ((ls_prefix s, x) = (p, h))) as [E|Hne].
    + injection E as <- <-. rewrite lookup_delete_eq, decide_True; [done|]. split; [done|by left].
    + rewrite lookup_delete_ne by done. rewrite IH. apply decide_ext. rewrite elem_of_cons. split; [tauto|].
      intros [-> [->|?]]; [done|tauto].
Qed.

(** Pruning only removes. *)
Lemma light_Prune_sub n s k b : ldb_blocks (ls_db (light_Prune n s)) !! k = Some b → ldb_blocks (ls_db s) !! k = Some b.
Proof. unfold light_Prune. case_decide; [done|]. cbn. rewrite delete_heights_lookup. by case_decide. Qed.
Lemma light_Prune_prefix n s : ls_prefix (light_Prune n s) = ls_prefix s.
Proof. unfold light_Prune. by case_decide. Qed.

(** ** Pruning *)
Lemma sorted_unique l l' : StronglySorted Z.lt l → StronglySorted Z.lt l' → (∀ x, x ∈ l ↔ x ∈ l') → l = l'.
Proof.
  assert (∀ k, StronglySorted Z.lt k → NoDup k) as Hn.
  { intros k H. induction H as [|x k H IH Hf]; constructor; [|done]. rewrite Forall_forall in Hf. intros Hx. specialize (Hf x Hx). lia. }
  intros H H' E. assert (AntiSymm eq Z.lt) by (intros x y; lia). apply (StronglySorted_unique Z.lt); [done|done|]. by apply NoDup_Permutation; [apply Hn|apply Hn|].
Qed.

(** The counter of a store tells how many blocks it has. *)
Definition accurate (s : LStore) : Prop := ls_size s = Z.of_nat (length (heights s)) ∧ ls_size s < 65536.

Lemma heights_delete l s n size : heights (mkLStore (mkLightDB (delete_heights (take n (heights s)) s) size) (ls_prefix s) l) = drop n (heights s).
Proof.
  pose proof (heights_sorted s) as Hs. rewrite <-(take_drop n (heights s)) in Hs. apply sorted_unique; [apply heights_sorted|by eapply StronglySorted_app_1_r|].
  intros x. rewrite heights_elem. cbn. rewrite delete_heights_lookup. cbn. pose proof (heights_nodup s) as Hn.
  rewrite <-(take_drop n (heights s)) in Hn. apply NoDup_app in Hn as (_ & Hn & _). pose proof (heights_elem s x) as Hx.
  rewrite <-(take_drop n (heights s)), elem_of_app in Hx at 1. case_decide as Hd.
  - split; [by intros [? ?]|]. intros Hdr. destruct Hd as [_ Ht]. by destruct (Hn x Ht).
  - rewrite <-Hx. split; [|by right]. intros [Ht|?]; [|done]. destruct Hd. done.
Qed.

(** Pruning a store with an accurate counter leaves exactly the [n] highest of its blocks (all, when it has no more), and an
    accurate counter; blocks of other prefixes stay. *)
Theorem light_Prune_exact n s : accurate s → 0 ≤ n →
  heights (light_Prune n s) = drop (length (heights s) - Z.to_nat n) (heights s) ∧ accurate (light_Prune n s) ∧
  ∀ p h, p ≠ ls_prefix s → ldb_blocks (ls_db (light_Prune n s)) !! (p, h) = ldb_blocks (ls_db s) !! (p, h).
Proof.
  intros [Ha Hb] Hn. unfold light_Prune. case_decide as Hd.
  - replace (length (heights s) - Z.to_nat n)%nat with 0%nat by lia. done.
  - assert (u16 (ls_size s - n) = ls_size s - n) as -> by (unfold u16; rewrite Z.mod_small; lia).
    replace (Z.to_nat (ls_size s - n)) with (length (heights s) - Z.to_nat n)%nat by lia.
    split; [apply heights_delete|]. split.
    + unfold accurate. rewrite heights_delete, length_drop. cbn [ls_size]. rewrite length_take.
      unfold u16. rewrite (Z.mod_small (Z.of_nat _)) by lia. rewrite Z.mod_small by lia. lia.
    + intros p h Hp. cbn. rewrite delete_heights_lookup, decide_False; [done|]. cbn. tauto.
Qed.

(** ** Stores that share a database: one that is opened again takes the counter of whichever store wrote last. *)
Lemma shared_counter s s' lb u s'' prefix : SaveLightBlock lb s' = Ok (u, s'') → ls_db s' = ls_db s → prefix ≠ ls_prefix s' →
  ls_size (NewLStore (ls_db s'') prefix) = u16 (ls_size s' + 1) ∧
  ∀ h, ldb_blocks (ls_db (NewLStore (ls_db s'') prefix)) !! (prefix, h) = ldb_blocks (ls_db s) !! (prefix, h).
Proof.
  unfold SaveLightBlock. case_decide; [done|]. intros [= _ <-] E Hp. split; [done|]. intros h. cbn. rewrite lookup_insert_ne, E; [done|]. congruence.
Qed.
