(* ===== verification/TmClient.v ===== *)
(** The light client (src/sourcecodes/tendermint/light/client.go) and its detector of attacks (light/detector.go).

    Providers are numbers; what a provider answers may depend on how many requests were made before, so that nothing is assumed of it.
    Requests that the code makes concurrently are made one after the other; the order in which their answers are read is a
    schedule.  Loops that may go on for ever take fuel.  A provider returns blocks that passed ValidateBasic.  The logger, the mutex, the
    waiting of the detector and the number of retries are left out. *)

From S2P Require Import Prelude TmBits TmValidators TmPriority TmValUpdate TmTypes TmCommit TmVotes TmVoteInv TmVoteSafety.
From S2P Require Import TmMerkle TmPartSet TmPrivval TmHeightVotes TmBlock TmStore TmState TmConsensus TmConsVotes TmConsInv TmConsStep TmConsSafety.
From S2P Require Import TmStoreFacts TmBlockFacts TmLight TmEvidence TmLightStore.

(** ** Data *)
Inductive provider_error := ErrNoResponse | ErrLightBlockNotFound | ErrHeightTooHigh | ErrContext | ErrBadProvider.
#[global] Instance provider_error_eq_dec : EqDecision provider_error.
Proof. solve_decision. Defined.

Inductive client_error :=
| ErrProvider (e : provider_error) | ErrNoWitnesses | ErrLight (e : light_error) | ErrVerificationFailed (from to : Z) (reason : client_error)
| ErrSingleTrace | ErrFailedHeaderCrossReferencing | ErrLightClientAttack | ErrConflictingHeaders (block : LBlock) (witness : nat)
| ErrTargetBelow | ErrTraceTime | ErrFirstBlock | ErrNoDivergence
| ErrNotFound | ErrNoHeaders | ErrUnverified | ErrNegative | ErrOtherHeader
| ErrRefusedCleanup | ErrBlockBasic (e : block_error) | ErrOptionsHash | ErrInvalidCommit (e : commit_error)
| ErrTrustOptions | ErrTrustLevel | ErrWitnessChain.

Inductive mode := sequential | skipping.

(** Evidence as it is reported, where a validator may be nil. *)
Record AttackReport := mkReport {
  ar_Conflicting : LBlock; ar_CommonHeight : Z; ar_Byzantine : list (option Validator); ar_TotalVotingPower : Z; ar_Timestamp : Z }.

Record Client := mkClient {
  cl_chainID : bytes; cl_trustingPeriod : Z; cl_mode : mode; cl_trustLevel : Fraction; cl_maxClockDrift : Z; cl_pruningSize : Z;
  cl_primary : nat; cl_witnesses : list nat;
  cl_store : LStore; cl_latest : option LBlock;
  cl_calls : nat;                                (* requests and schedules so far *)
  cl_reports : list (nat * AttackReport);        (* evidence sent to providers *)
}.
Definition set_providers (p : nat) (w : list nat) (c : Client) : Client :=
  mkClient (cl_chainID c) (cl_trustingPeriod c) (cl_mode c) (cl_trustLevel c) (cl_maxClockDrift c) (cl_pruningSize c) p w
    (cl_store c) (cl_latest c) (cl_calls c) (cl_reports c).
Definition set_trusted (s : LStore) (l : option LBlock) (c : Client) : Client :=
  mkClient (cl_chainID c) (cl_trustingPeriod c) (cl_mode c) (cl_trustLevel c) (cl_maxClockDrift c) (cl_pruningSize c) (cl_primary c) (cl_witnesses c)
    s l (cl_calls c) (cl_reports c).
Definition count_call (c : Client) : Client :=
  mkClient (cl_chainID c) (cl_trustingPeriod c) (cl_mode c) (cl_trustLevel c) (cl_maxClockDrift c) (cl_pruningSize c) (cl_primary c) (cl_witnesses c)
    (cl_store c) (cl_latest c) (S (cl_calls c)) (cl_reports c).
Definition add_report (r : nat * AttackReport) (c : Client) : Client :=
  mkClient (cl_chainID c) (cl_trustingPeriod c) (cl_mode c) (cl_trustLevel c) (cl_maxClockDrift c) (cl_pruningSize c) (cl_primary c) (cl_witnesses c)
    (cl_store c) (cl_latest c) (cl_calls c) (cl_reports c ++ [r]).

Record TrustOptions := mkTrustOptions { to_Period : Z; to_Height : Z; to_Hash : bytes }.

(** What a client is run with: the providers, their chains, the schedule of concurrent answers, the answers to the prompts. *)
Class Providers := {
  provider_LightBlock : nat → nat → Z → LBlock + provider_error;
  provider_ChainID : nat → bytes;
  schedule : nat → list nat;
  confirmationFn : nat → bool;
}.

(** Messages of several senders in the order the schedule names the senders, then the rest. *)
Fixpoint interleave {A} (sched : list nat) (l : list (list A)) : list A :=
  match sched with
  | [] => concat l
  | i :: sched' =>
      match l !! i with
      | Some (x :: rest) => x :: interleave sched' (<[i := rest]> l)
      | _ => interleave sched' l
      end
  end.

(** What a comparison with a witness sends. *)
Inductive witness_msg := MsgMatched | MsgConflict (b : LBlock) (i : nat) | MsgBad (i : nat) | MsgError (e : provider_error).

Definition benign (e : provider_error) : bool := match e with ErrNoResponse | ErrLightBlockNotFound | ErrHeightTooHigh => true | _ => false end.

(** The swap with the last of [removeWitnesses]. *)
Definition swap_remove (i : nat) (l : list nat) : outcome (list nat) :=
  match last l, l !! i with
  | Some x, Some _ => Ok (removelast (<[i := x]> l))
  | _, _ => Panic
  end.
Fixpoint swap_remove_all (idxs : list nat) (l : list nat) : outcome (list nat) :=
  match idxs with [] => Ok l | i :: idxs' => let! l' := swap_remove i l in swap_remove_all idxs' l' end.
(** The indexes from the highest on; [None] for ErrNoWitnesses. *)
Definition removeWitnesses (indexes : list nat) (witnesses : list nat) : outcome (option (list nat)) :=
  if decide (length witnesses ≤ length indexes)%nat then Ok None
  else let! l := swap_remove_all (reverse (merge_sort Nat.le indexes)) witnesses in Ok (Some l).

Section client.
Context {CR : Crypto} {BC : BlockCodec} {GS : GoSort} {PV : Providers}.
Local Abbreviation C := (M Client).
Local Abbreviation result A := (A + client_error)%type.

Definition fb_Hash (b : LBlock) : outcome bytes := let! h := Header_Hash (Some (fb_Header b)) in Ok (slice h).

(** A request to a provider. *)
Definition ask (p : nat) (height : Z) : C (LBlock + provider_error) :=
  c <- gets id ;; modify count_call ;;; ret (provider_LightBlock p (cl_calls c) height).
Definition next_schedule : C (list nat) := c <- gets id ;; modify count_call ;;; ret (schedule (cl_calls c)).
Definition confirm : C bool := c <- gets id ;; modify count_call ;;; ret (confirmationFn (cl_calls c)).

(** ** Providers *)
Fixpoint ask_all (l : list nat) (i : nat) (height : Z) : C (list (nat * (LBlock + provider_error))) :=
  match l with
  | [] => ret []
  | p :: l' => r <- ask p height ;; rest <- ask_all l' (S i) height ;; ret ((i, r) :: rest)
  end.

(** The answers in the order they come: the first block makes its witness the primary. *)
Fixpoint find_loop (remove : bool) (l : list (nat * (LBlock + provider_error))) (toRemove : list nat) (lastError : option provider_error) : C (result LBlock) :=
  match l with
  | [] =>
      c <- gets id ;;
      r <- lift (removeWitnesses toRemove (cl_witnesses c)) ;;
      match r with None => ret tt | Some w => modify (set_providers (cl_primary c) w) end ;;;
      match lastError with Some e => ret (inr (ErrProvider e)) | None => panic end
  | (i, inl lb) :: _ =>
      c <- gets id ;;
      let witnesses := if remove then cl_witnesses c else cl_witnesses c ++ [cl_primary c] in
      match witnesses !! i with
      | None => panic
      | Some p =>
          modify (set_providers p witnesses) ;;;
          r <- lift (removeWitnesses (toRemove ++ [i]) witnesses) ;;
          match r with
          | None => ret (inr ErrNoWitnesses)
          | Some w => modify (set_providers p w) ;;; ret (inl lb)
          end
      end
  | (i, inr e) :: l' => find_loop remove l' (if benign e then toRemove else toRemove ++ [i]) (Some e)
  end.
Definition findNewPrimary (height : Z) (remove : bool) : C (result LBlock) :=
  c <- gets id ;;
  if decide (cl_witnesses c = []) then ret (inr ErrNoWitnesses) else
  answers <- ask_all (cl_witnesses c) 0 height ;;
  sched <- next_schedule ;;
  find_loop remove (interleave sched ((λ a, [a]) <$> answers)) [] None.

Definition lightBlockFromPrimary (height : Z) : C (result LBlock) :=
  c <- gets id ;;
  r <- ask (cl_primary c) height ;;
  match r with
  | inl l => ret (inl l)
  | inr ErrContext => ret (inr (ErrProvider ErrContext))
  | inr e => findNewPrimary height (negb (benign e))
  end.

(** ** Comparison with witnesses *)
Definition getTargetBlockOrLatest (height : Z) (witness : nat) : C ((bool * LBlock) + provider_error) :=
  r <- ask witness 0 ;;
  match r with
  | inr e => ret (inr e)
  | inl lb =>
      if decide (fb_Height lb = height) then ret (inl (true, lb))
      else if decide (height < fb_Height lb) then
        r <- ask witness height ;; ret (match r with inl lb => inl (true, lb) | inr e => inr e end)
      else ret (inl (false, lb))
  end.

(** The hashes: without a return after a conflict, a match is reported as well. *)
Definition compare_hashes (h lb : LBlock) (i : nat) : C (list witness_msg) :=
  a <- lift (fb_Hash h) ;; b <- lift (fb_Hash lb) ;;
  ret (if decide (a = b) then [MsgMatched] else [MsgConflict lb i; MsgMatched]).

(** What follows once the witness has been waited for. *)
Definition compare_again (h : LBlock) (witness : nat) (i : nat) : C (list witness_msg) :=
  r <- getTargetBlockOrLatest (fb_Height h) witness ;;
  match r with
  | inr ErrContext => ret [MsgError ErrContext]
  | inr _ => ret [MsgBad i]
  | inl (true, lb) => compare_hashes h lb i
  | inl (false, lb) => ret (if decide (h_Time (fb_Header h) ≤ h_Time (fb_Header lb)) then [MsgConflict lb i] else [MsgError ErrNoResponse])
  end.
Definition compareNewHeaderWithWitness (h : LBlock) (witness : nat) (i : nat) : C (list witness_msg) :=
  r <- ask witness (fb_Height h) ;;
  match r with
  | inl lb => compare_hashes h lb i
  | inr ErrHeightTooHigh =>
      r <- getTargetBlockOrLatest (fb_Height h) witness ;;
      match r with
      | inr e => ret [MsgError e]
      | inl (true, lb) => compare_hashes h lb i
      | inl (false, lb) => if decide (h_Time (fb_Header h) ≤ h_Time (fb_Header lb)) then ret [MsgConflict lb i] else compare_again h witness i
      end
  | inr ErrBadProvider => ret [MsgBad i]
  | inr e => ret [MsgError e]
  end.
Fixpoint compare_all (h : LBlock) (l : list nat) (i : nat) : C (list (list witness_msg)) :=
  match l with
  | [] => ret []
  | w :: l' => m <- compareNewHeaderWithWitness h w i ;; rest <- compare_all h l' (S i) ;; ret (m :: rest)
  end.

(** As many messages are read as there are witnesses. *)
Definition collect (h : LBlock) (witnesses : list nat) : C (list witness_msg) :=
  msgs <- compare_all h witnesses 0 ;; sched <- next_schedule ;; ret (take (length witnesses) (interleave sched msgs)).

Fixpoint first_loop (l : list witness_msg) (toRemove : list nat) : C (list nat + client_error) :=
  match l with
  | [] => ret (inl toRemove)
  | MsgMatched :: l' => first_loop l' toRemove
  | MsgConflict b i :: _ => ret (inr (ErrConflictingHeaders b i))
  | MsgBad i :: l' => first_loop l' (toRemove ++ [i])
  | MsgError ErrContext :: _ => ret (inr (ErrProvider ErrContext))
  | MsgError _ :: l' => first_loop l' toRemove
  end.
Definition compareFirstHeaderWithWitnesses (h : LBlock) : C (option client_error) :=
  c <- gets id ;;
  if decide (cl_witnesses c = []) then ret (Some ErrNoWitnesses) else
  msgs <- collect h (cl_witnesses c) ;;
  r <- first_loop msgs [] ;;
  match r with
  | inr e => ret (Some e)
  | inl toRemove =>
      r <- lift (removeWitnesses toRemove (cl_witnesses c)) ;;
      match r with None => ret tt | Some w => modify (set_providers (cl_primary c) w) end ;;; ret None
  end.

(** ** Verification by skipping *)
Definition verifySkippingNumerator : Z := 9.
Definition verifySkippingDenominator : Z := 16.
Definition pivot (verified target : Z) : Z :=
  i64 (verified + Z.quot (i64 (i64 (target - verified) * verifySkippingNumerator)) verifySkippingDenominator).

(** [depth] is an index into the cache, whose first block is the one to verify. *)
Fixpoint skip_loop (fuel : nat) (source : nat) (now : Z) (verified : LBlock) (cache : list LBlock) (depth : nat) (trace : list LBlock) : C (result (list LBlock)) :=
  match fuel with
  | O => diverge
  | S fuel' =>
      match cache !! depth with
      | None => panic
      | Some b =>
          c <- gets id ;;
          e <- lift (light_Verify (fb_Signed verified) (fb_Vals verified) (fb_Signed b) (fb_Vals b) (cl_trustingPeriod c) now (cl_maxClockDrift c) (cl_trustLevel c)) ;;
          match e with
          | None =>
              if decide (depth = 0%nat) then ret (inl (trace ++ [b]))
              else skip_loop fuel' source now b (take depth cache) 0 (trace ++ [b])
          | Some (ErrNewValSetCantBeTrusted got needed) =>
              if decide (S depth = length cache) then
                let p := pivot (fb_Height verified) (fb_Height b) in
                r <- ask source p ;;
                match r with
                | inl interim => skip_loop fuel' source now verified (cache ++ [interim; interim]) (S depth) trace
                | inr e => if benign e then ret (inr (ErrLight (ErrNewValSetCantBeTrusted got needed)))
                           else ret (inr (ErrVerificationFailed (fb_Height verified) p (ErrProvider e)))
                end
              else skip_loop fuel' source now verified cache (S depth) trace
          | Some e => ret (inr (ErrVerificationFailed (fb_Height verified) (fb_Height b) (ErrLight e)))
          end
      end
  end.
Definition verifySkipping (fuel : nat) (source : nat) (trusted new : LBlock) (now : Z) : C (result (list LBlock)) :=
  skip_loop fuel source now trusted [new] 0 [trusted].

(** ** The detector *)
Definition newLightClientAttackEvidence (conflicted trusted common : LBlock) : outcome AttackReport :=
  let from := if ConflictingHeaderIsInvalid (fb_Header trusted) (fb_Header conflicted) then common else trusted in
  let! (total, _) := TotalVotingPower (fb_Vals from) in
  let! byzantine := GetByzantineValidators (fb_Header conflicted) (fb_Commit conflicted) (fb_Vals conflicted) (fb_Vals common) (fb_Header trusted) (fb_Commit trusted) in
  Ok (mkReport conflicted (fb_Height from) byzantine total (h_Time (fb_Header from))).

(** The loop over the trace; [previous] is the block verified before, of the source. *)
Fixpoint examine_loop (fuel : nat) (trace : list LBlock) (target : LBlock) (source : nat) (now : Z) (previous : option LBlock) (sourceTrace : list LBlock) :
    C (result (list LBlock * LBlock)) :=
  match trace with
  | [] => ret (inr ErrNoDivergence)
  | traceBlock :: trace' =>
      if decide (fb_Height target < fb_Height traceBlock) then
        if decide (h_Time (fb_Header target) < h_Time (fb_Header traceBlock)) then ret (inr ErrTraceTime) else
        match previous with
        | None => panic
        | Some prev =>
            if decide (fb_Height prev = fb_Height target) then ret (inl (sourceTrace, traceBlock)) else
            r <- verifySkipping fuel source prev target now ;;
            ret (match r with inl t => inl (t, traceBlock) | inr e => inr e end)
        end
      else
        r <- (if decide (fb_Height traceBlock = fb_Height target) then ret (inl target) else ask source (fb_Height traceBlock)) ;;
        match r with
        | inr e => ret (inr (ErrProvider e))
        | inl sourceBlock =>
            match previous with
            | None =>
                a <- lift (fb_Hash sourceBlock) ;; b <- lift (fb_Hash traceBlock) ;;
                if decide (a = b) then examine_loop fuel trace' target source now (Some sourceBlock) sourceTrace else ret (inr ErrFirstBlock)
            | Some prev =>
                r <- verifySkipping fuel source prev sourceBlock now ;;
                match r with
                | inr e => ret (inr e)
                | inl sourceTrace' =>
                    a <- lift (fb_Hash sourceBlock) ;; b <- lift (fb_Hash traceBlock) ;;
                    if decide (a = b) then examine_loop fuel trace' target source now (Some sourceBlock) sourceTrace' else ret (inl (sourceTrace', traceBlock))
                end
            end
        end
  end.
Definition examineConflictingHeaderAgainstTrace (fuel : nat) (trace : list LBlock) (target : LBlock) (source : nat) (now : Z) : C (result (list LBlock * LBlock)) :=
  match trace with
  | [] => panic
  | first :: _ => if decide (fb_Height target < fb_Height first) then ret (inr ErrTargetBelow) else examine_loop fuel trace target source now None []
  end.

(** Evidence from a trace of one side against a block of the other, sent to the first. *)
Definition send_evidence (trace : list LBlock) (block : LBlock) (receiver : nat) : C unit :=
  match trace, last trace with
  | common :: _, Some trusted => ev <- lift (newLightClientAttackEvidence block trusted common) ;; modify (add_report (receiver, ev))
  | _, _ => panic
  end.

Definition handleConflictingHeaders (fuel : nat) (primaryTrace : list LBlock) (challenging : LBlock) (i : nat) (now : Z) : C (option client_error) :=
  c <- gets id ;;
  match cl_witnesses c !! i with
  | None => panic
  | Some witness =>
      r <- examineConflictingHeaderAgainstTrace fuel primaryTrace challenging witness now ;;
      match r with
      | inr _ => ret None
      | inl (witnessTrace, primaryBlock) =>
          send_evidence witnessTrace primaryBlock witness ;;;
          r <- examineConflictingHeaderAgainstTrace fuel witnessTrace primaryBlock (cl_primary c) now ;;
          match r with
          | inr _ => ret (Some ErrLightClientAttack)
          | inl (primaryTrace', witnessBlock) => send_evidence primaryTrace' witnessBlock (cl_primary c) ;;; ret (Some ErrLightClientAttack)
          end
      end
  end.

Fixpoint detect_loop (fuel : nat) (primaryTrace : list LBlock) (now : Z) (l : list witness_msg) (matched : bool) (toRemove : list nat) : C ((bool * list nat) + client_error) :=
  match l with
  | [] => ret (inl (matched, toRemove))
  | MsgMatched :: l' => detect_loop fuel primaryTrace now l' true toRemove
  | MsgConflict b i :: l' =>
      e <- handleConflictingHeaders fuel primaryTrace b i now ;;
      match e with Some e => ret (inr e) | None => detect_loop fuel primaryTrace now l' matched (toRemove ++ [i]) end
  | MsgBad i :: l' => detect_loop fuel primaryTrace now l' matched (toRemove ++ [i])
  | MsgError ErrContext :: _ => ret (inr (ErrProvider ErrContext))
  | MsgError _ :: l' => detect_loop fuel primaryTrace now l' matched toRemove
  end.
Definition detectDivergence (fuel : nat) (primaryTrace : list LBlock) (now : Z) : C (option client_error) :=
  match last primaryTrace with
  | None => ret (Some ErrSingleTrace)
  | Some h =>
      if decide (length primaryTrace < 2)%nat then ret (Some ErrSingleTrace) else
      c <- gets id ;;
      if decide (cl_witnesses c = []) then ret (Some ErrNoWitnesses) else
      msgs <- collect h (cl_witnesses c) ;;
      r <- detect_loop fuel primaryTrace now msgs false [] ;;
      match r with
      | inr e => ret (Some e)
      | inl (matched, toRemove) =>
          r <- lift (removeWitnesses toRemove (cl_witnesses c)) ;;
          match r with
          | None => ret (Some ErrNoWitnesses)
          | Some w => modify (set_providers (cl_primary c) w) ;;; ret (if (matched : bool) then None else Some ErrFailedHeaderCrossReferencing)
          end
      end
  end.

(** ** The trusted store *)
Definition LastTrustedHeight (c : Client) : Z := LastLightBlockHeight (cl_store c).
Definition FirstTrustedHeight (c : Client) : Z := FirstLightBlockHeight (cl_store c).

Definition on_store {A} (m : M LStore A) : C A := zoom cl_store (λ s c, set_trusted s (cl_latest c) c) m.

Definition restoreTrustedLightBlock : C (option client_error) :=
  c <- gets id ;;
  let lastHeight := LastTrustedHeight c in
  if decide (0 < lastHeight) then
    r <- lift (get_LightBlock lastHeight (cl_store c)) ;;
    match r with
    | None => ret (Some ErrNotFound)
    | Some b => modify (set_trusted (cl_store c) (Some b)) ;;; ret None
    end
  else ret None.

Definition Cleanup : C unit := modify (λ c, set_trusted (light_Prune 0 (cl_store c)) None c).

(** The blocks before the given one down to [height] are deleted. *)
Fixpoint cleanup_loop (fuel : nat) (height prevHeight : Z) : C unit :=
  match fuel with
  | O => diverge
  | S fuel' =>
      c <- gets id ;;
      r <- lift (LightBlockBefore prevHeight (cl_store c)) ;;
      match r with
      | None => ret tt
      | Some b => if decide (fb_Height b ≤ height) then ret tt else on_store (DeleteLightBlock (fb_Height b)) ;;; cleanup_loop fuel' height (fb_Height b)
      end
  end.
Definition cleanupAfter (height : Z) : C (option client_error) :=
  c <- gets id ;;
  match cl_latest c with
  | None => panic
  | Some latest =>
      cleanup_loop (S (length (heights (cl_store c)))) height (fb_Height latest) ;;;
      modify (λ c, set_trusted (cl_store c) None c) ;;; restoreTrustedLightBlock
  end.

Definition updateTrustedLightBlock (l : LBlock) : C unit :=
  on_store (SaveLightBlock l) ;;;
  modify (λ c, if decide (0 < cl_pruningSize c) then set_trusted (light_Prune (cl_pruningSize c) (cl_store c)) (cl_latest c) c else c) ;;;
  modify (λ c, match cl_latest c with
               | Some t => if decide (fb_Height t < fb_Height l) then set_trusted (cl_store c) (Some l) c else c
               | None => set_trusted (cl_store c) (Some l) c
               end).

Definition compareWithLatestHeight (height : Z) (c : Client) : Z + client_error :=
  let latestHeight := LastTrustedHeight c in
  if decide (latestHeight = -1) then inr ErrNoHeaders
  else if decide (latestHeight < height) then inr ErrUnverified
  else if decide (height = 0) then inl latestHeight
  else if decide (height < 0) then inr ErrNegative
  else inl height.
Definition TrustedLightBlock (height : Z) (c : Client) : outcome (LBlock + client_error) :=
  match compareWithLatestHeight height c with
  | inr e => Ok (inr e)
  | inl h => let! r := get_LightBlock h (cl_store c) in Ok (match r with Some b => inl b | None => inr ErrNotFound end)
  end.

(** ** Verification *)

(** Whether a replacement for the primary has the same block. *)
Definition replace_primary (h : BlockHeader) : C (option LBlock) :=
  r <- findNewPrimary (h_Height h) true ;;
  match r with
  | inr _ => ret None
  | inl b =>
      x <- lift (Header_Hash (Some (fb_Header b))) ;; y <- lift (Header_Hash (Some h)) ;;
      ret (if decide (slice x = slice y) then Some b else None)
  end.

Fixpoint sequential_loop (n fuel : nat) (now : Z) (new verified : LBlock) (height : Z) (trace : list LBlock) : C (option client_error) :=
  match n with
  | O => diverge
  | S n' =>
      if decide (fb_Height new < height) then detectDivergence fuel trace now else
      r <- (if decide (height = fb_Height new) then ret (inl new) else lightBlockFromPrimary height) ;;
      match r with
      | inr e => ret (Some (ErrVerificationFailed (fb_Height verified) height e))
      | inl interim =>
          c <- gets id ;;
          e <- lift (VerifyAdjacent (fb_Signed verified) (fb_Signed interim) (fb_Vals interim) (cl_trustingPeriod c) now (cl_maxClockDrift c)) ;;
          match e with
          | None => sequential_loop n' fuel now new interim (i64 (height + 1)) (trace ++ [interim])
          | Some e =>
              let err := ErrVerificationFailed (fb_Height verified) (fb_Height interim) (ErrLight e) in
              match e with
              | ErrInvalidHeader _ =>
                  if decide (fb_Height interim = fb_Height new) then ret (Some err) else
                  r <- replace_primary (fb_Header new) ;;
                  match r with None => ret (Some err) | Some _ => sequential_loop n' fuel now new verified height trace end
              | _ => ret (Some err)
              end
          end
      end
  end.
Definition verifySequential (fuel : nat) (trusted new : LBlock) (now : Z) : C (option client_error) :=
  sequential_loop fuel fuel now new trusted (i64 (fb_Height trusted + 1)) [trusted].

(** [errors.Unwrap] of an error that wraps nothing is nil, which is taken for success, with no trace. *)
Fixpoint verifySkippingAgainstPrimary (n fuel : nat) (trusted new : LBlock) (now : Z) : C (option client_error) :=
  match n with
  | O => diverge
  | S n' =>
      c <- gets id ;;
      r <- verifySkipping fuel (cl_primary c) trusted new now ;;
      match r with
      | inl trace => detectDivergence fuel trace now
      | inr (ErrVerificationFailed from to (ErrLight (ErrInvalidHeader e))) =>
          let err := ErrVerificationFailed from to (ErrLight (ErrInvalidHeader e)) in
          if decide (to = fb_Height new) then ret (Some err) else
          r <- replace_primary (fb_Header new) ;;
          match r with None => ret (Some err) | Some b => verifySkippingAgainstPrimary n' fuel trusted b now end
      | inr (ErrVerificationFailed from to e) => ret (Some (ErrVerificationFailed from to e))
      | inr _ => detectDivergence fuel [] now
      end
  end.

Fixpoint backwards (fuel : nat) (verified new : BlockHeader) : C (option client_error) :=
  match fuel with
  | O => diverge
  | S fuel' =>
      if decide (h_Height verified ≤ h_Height new) then ret None else
      r <- lightBlockFromPrimary (i64 (h_Height verified - 1)) ;;
      match r with
      | inr e => ret (Some e)
      | inl interim =>
          e <- lift (VerifyBackwards (fb_Header interim) verified) ;;
          match e with
          | None => backwards fuel' (fb_Header interim) new
          | Some e =>
              r <- replace_primary new ;;
              match r with None => ret (Some (ErrLight e)) | Some b => backwards fuel' verified (fb_Header b) end
          end
      end
  end.

Definition verifyLightBlock (fuel : nat) (new : LBlock) (now : Z) : C (option client_error) :=
  c <- gets id ;;
  let verifyFunc := match cl_mode c with sequential => verifySequential fuel | skipping => verifySkippingAgainstPrimary fuel fuel end in
  match cl_latest c with
  | None => panic
  | Some latest =>
      e <- (if decide (fb_Height latest ≤ fb_Height new) then verifyFunc latest new now
            else if decide (fb_Height new < FirstTrustedHeight c) then
              r <- lift (get_LightBlock (FirstTrustedHeight c) (cl_store c)) ;;
              match r with None => ret (Some ErrNotFound) | Some first => backwards fuel (fb_Header first) (fb_Header new) end
            else
              r <- lift (LightBlockBefore (fb_Height new) (cl_store c)) ;;
              match r with None => ret (Some ErrNotFound) | Some closest => verifyFunc closest new now end) ;;
      match e with
      | Some e => ret (Some e)
      | None => updateTrustedLightBlock new ;;; ret None
      end
  end.

(** ** What a user calls *)

(** [inl None] when there is nothing new. *)
Definition client_Update (fuel : nat) (now : Z) : C (option LBlock + client_error) :=
  c <- gets id ;;
  let lastTrustedHeight := LastTrustedHeight c in
  if decide (lastTrustedHeight = -1) then ret (inl None) else
  r <- lightBlockFromPrimary 0 ;;
  match r with
  | inr e => ret (inr e)
  | inl latest =>
      if decide (lastTrustedHeight < fb_Height latest) then
        e <- verifyLightBlock fuel latest now ;; ret (match e with Some e => inr e | None => inl (Some latest) end)
      else ret (inl None)
  end.

Definition VerifyLightBlockAtHeight (fuel : nat) (height now : Z) : C (LBlock + client_error) :=
  if decide (height ≤ 0) then ret (inr ErrNegative) else
  c <- gets id ;;
  h <- lift (TrustedLightBlock height c) ;;
  match h with
  | inl b => ret (inl b)
  | inr _ =>
      r <- lightBlockFromPrimary height ;;
      match r with
      | inr e => ret (inr e)
      | inl l => e <- verifyLightBlock fuel l now ;; ret (match e with Some e => inr e | None => inl l end)
      end
  end.

Definition VerifyHeader (fuel : nat) (newHeader : BlockHeader) (now : Z) : C (option client_error) :=
  if decide (h_Height newHeader ≤ 0) then ret (Some ErrNegative) else
  c <- gets id ;;
  h <- lift (TrustedLightBlock (h_Height newHeader) c) ;;
  match h with
  | inl b =>
      x <- lift (fb_Hash b) ;; y <- lift (Header_Hash (Some newHeader)) ;; ret (if decide (x = slice y) then None else Some ErrOtherHeader)
  | inr _ =>
      r <- lightBlockFromPrimary (h_Height newHeader) ;;
      match r with
      | inr e => ret (Some e)
      | inl l =>
          x <- lift (fb_Hash l) ;; y <- lift (Header_Hash (Some newHeader)) ;;
          if decide (x = slice y) then verifyLightBlock fuel l now else ret (Some ErrOtherHeader)
      end
  end.

(** ** Setting up *)
Definition TrustOptions_ValidateBasic (o : TrustOptions) : bool :=
  negb (bool_decide (to_Period o ≤ 0) || bool_decide (to_Height o ≤ 0) || bool_decide (len (to_Hash o) ≠ 32)).

Definition checkTrustedHeaderUsingOptions (o : TrustOptions) : C (option client_error) :=
  c <- gets id ;;
  match cl_latest c with
  | None => panic
  | Some latest =>
      r <- (if decide (fb_Height latest < to_Height o) then
              r <- lightBlockFromPrimary (fb_Height latest) ;;
              match r with inr e => ret (inr (Some e)) | inl h => x <- lift (fb_Hash h) ;; ret (inl x) end
            else if decide (to_Height o = fb_Height latest) then ret (inl (to_Hash o))
            else
              ok <- confirm ;;
              if (ok : bool) then
                e <- cleanupAfter (to_Height o) ;; ret (match e with Some e => inr (Some e) | None => inl (to_Hash o) end)
              else ret (inr None)) ;;
      match r with
      | inr e => ret e
      | inl primaryHash =>
          c <- gets id ;;
          match cl_latest c with
          | None => panic
          | Some latest =>
              x <- lift (fb_Hash latest) ;;
              if decide (primaryHash = x) then ret None else
              ok <- confirm ;;
              if (ok : bool) then Cleanup ;;; ret None else ret (Some ErrRefusedCleanup)
          end
      end
  end.

Definition initializeWithTrustOptions (o : TrustOptions) : C (option client_error) :=
  r <- lightBlockFromPrimary (to_Height o) ;;
  match r with
  | inr e => ret (Some e)
  | inl l =>
      c <- gets id ;;
      e <- lift (LightBlock_ValidateBasic (cl_chainID c) (mkLightBlock (Some (fb_Signed l)) (Some (fb_Vals l)))) ;;
      match e with
      | Some e => ret (Some (ErrBlockBasic e))
      | None =>
          x <- lift (fb_Hash l) ;;
          if decide (x ≠ to_Hash o) then ret (Some ErrOptionsHash) else
          r <- lift (VerifyCommitLight VerifySignature MarshalVote (cl_chainID c) (c_BlockID (fb_Commit l)) (fb_Height l) (fb_Commit l) (fb_Vals l)) ;;
          match r.1 with
          | Some e => ret (Some (ErrInvalidCommit e))
          | None =>
              e <- compareFirstHeaderWithWitnesses l ;;
              match e with Some e => ret (Some e) | None => updateTrustedLightBlock l ;;; ret None end
          end
      end
  end.

Definition NewClientFromTrustedStore (chainID : bytes) (trustingPeriod : Z) (m : mode) (trustLevel : Fraction) (maxClockDrift pruningSize : Z)
    (primary : nat) (witnesses : list nat) (trustedStore : LStore) : outcome (Client + client_error) :=
  if decide (witnesses = []) then Ok (inr ErrNoWitnesses)
  else if existsb (λ w, bool_decide (provider_ChainID w ≠ chainID)) witnesses then Ok (inr ErrWitnessChain)
  else if negb (ValidateTrustLevel trustLevel) then Ok (inr ErrTrustLevel)
  else
    let! (e, c) := restoreTrustedLightBlock
                     (mkClient chainID trustingPeriod m trustLevel maxClockDrift pruningSize primary witnesses trustedStore None 0 []) in
    Ok (match e with Some e => inr e | None => inl c end).

Definition NewClient (chainID : bytes) (o : TrustOptions) (m : mode) (trustLevel : Fraction) (maxClockDrift pruningSize : Z)
    (primary : nat) (witnesses : list nat) (trustedStore : LStore) : outcome (Client + client_error) :=
  if negb (TrustOptions_ValidateBasic o) then Ok (inr ErrTrustOptions) else
  let! r := NewClientFromTrustedStore chainID (to_Period o) m trustLevel maxClockDrift pruningSize primary witnesses trustedStore in
  match r with
  | inr e => Ok (inr e)
  | inl c =>
      let! (e, c) := match cl_latest c with Some _ => checkTrustedHeaderUsingOptions o c | None => Ok (None, c) end in
      match e with
      | Some e => Ok (inr e)
      | None =>
          if (match cl_latest c with Some b => bool_decide (fb_Height b < to_Height o) | None => true end) then
            let! (e, c) := initializeWithTrustOptions o c in Ok (match e with Some e => inr e | None => inl c end)
          else Ok (inl c)
      end
  end.
End client.
