(* ===== verification/TmClientFacts.v ===== *)
(** What a light client holds: in every run, whatever the providers answer, the headers of the blocks of its store are of
    the chain and committed by more than two thirds of the power of their height, as long as it does not verify backwards. *)

From S2P Require Import Prelude TmBits TmValidators TmPriority TmValUpdate TmTypes TmCommit TmVotes TmVoteInv TmVoteSafety.
From S2P Require Import TmMerkle TmPartSet TmPrivval TmHeightVotes TmBlock TmStore TmState TmConsensus TmConsVotes TmConsInv TmConsStep TmConsSafety.
From S2P Require Import TmStoreFacts TmBlockFacts TmLight TmEvidence TmLightStore TmClient.

(** ** What the requests leave alone *)

(** The providers, the requests and the reports may change, nothing else. *)
Definition frame (c c' : Client) : Prop :=
  cl_chainID c' = cl_chainID c ∧ cl_trustingPeriod c' = cl_trustingPeriod c ∧ cl_mode c' = cl_mode c ∧ cl_trustLevel c' = cl_trustLevel c ∧
  cl_maxClockDrift c' = cl_maxClockDrift c ∧ cl_pruningSize c' = cl_pruningSize c ∧ cl_store c' = cl_store c ∧ cl_latest c' = cl_latest c.
#[global] Instance frame_preorder : PreOrder frame.
Proof. split; [intros c; by split_and!|]. intros a b c (?&?&?&?&?&?&?&?) (?&?&?&?&?&?&?&?). unfold frame. split_and!; congruence. Qed.

Create HintDb client discriminated.
Ltac fr1 :=
  match goal with
  | |- ∀ _, _ => intros ?
  | |- respects ?R (bind _ _) => apply (respects_bind R)
  | |- respects ?R (ret _) => apply (respects_ret R)
  | |- respects ?R (gets _) => apply (respects_gets R)
  | |- respects ?R (lift _) => apply (respects_lift R)
  | |- respects ?R panic => apply (respects_panic R)
  | |- respects ?R diverge => apply (respects_diverge R)
  | |- respects frame (modify _) => apply respects_modify; intros ?; by split_and!
  | |- respects _ (let (_, _) := ?x in _) => destruct x
  | |- respects _ (if ?x then _ else _) => destruct x
  | |- respects _ (match ?x with _ => _ end) => destruct x
  | |- respects _ _ => eauto with client
  end.
Ltac fr := repeat fr1.

Section frames.
Context {CR : Crypto} {BC : BlockCodec} {GS : GoSort} {PV : Providers}.

Lemma ask_frame p h : respects frame (ask p h). Proof. unfold ask. fr. Qed.
Lemma next_schedule_frame : respects frame next_schedule. Proof. unfold next_schedule. fr. Qed.
Hint Resolve ask_frame next_schedule_frame : client.
Lemma ask_all_frame l : ∀ i h, respects frame (ask_all l i h). Proof. induction l; intros i h; cbn [ask_all]; fr. Qed.
Lemma find_loop_frame r l : ∀ t e, respects frame (find_loop r l t e).
Proof. induction l as [|[i [b|e']] l IH]; intros t e; cbn [find_loop]; fr. Qed.
Hint Resolve ask_all_frame find_loop_frame : client.
Lemma findNewPrimary_frame h r : respects frame (findNewPrimary h r). Proof. unfold findNewPrimary. fr. Qed.
Hint Resolve findNewPrimary_frame : client.
Lemma lightBlockFromPrimary_frame h : respects frame (lightBlockFromPrimary h). Proof. unfold lightBlockFromPrimary. fr. Qed.
Lemma getTarget_frame h w : respects frame (getTargetBlockOrLatest h w). Proof. unfold getTargetBlockOrLatest. fr. Qed.
Lemma compare_hashes_frame h b i : respects frame (compare_hashes h b i). Proof. unfold compare_hashes. fr. Qed.
Hint Resolve lightBlockFromPrimary_frame getTarget_frame compare_hashes_frame : client.
Lemma compare_again_frame h w i : respects frame (compare_again h w i). Proof. unfold compare_again. fr. Qed.
Hint Resolve compare_again_frame : client.
Lemma compare_frame h w i : respects frame (compareNewHeaderWithWitness h w i). Proof. unfold compareNewHeaderWithWitness. fr. Qed.
Hint Resolve compare_frame : client.
Lemma compare_all_frame h l : ∀ i, respects frame (compare_all h l i). Proof. induction l; intros i; cbn [compare_all]; fr. Qed.
Hint Resolve compare_all_frame : client.
Lemma collect_frame h l : respects frame (collect h l). Proof. unfold collect. fr. Qed.
Lemma first_loop_frame l : ∀ t, respects frame (first_loop l t). Proof. induction l; intros t; cbn [first_loop]; fr. Qed.
Hint Resolve collect_frame first_loop_frame : client.
Lemma compareFirst_frame h : respects frame (compareFirstHeaderWithWitnesses h). Proof. unfold compareFirstHeaderWithWitnesses. fr. Qed.
Lemma skip_loop_frame n : ∀ s now v cache d t, respects frame (skip_loop n s now v cache d t). Proof. induction n; intros; cbn [skip_loop]; fr. Qed.
Lemma verifySkipping_frame n s t b now : respects frame (verifySkipping n s t b now). Proof. apply skip_loop_frame. Qed.
Hint Resolve compareFirst_frame verifySkipping_frame : client.
Lemma examine_loop_frame n tr : ∀ b s now p st, respects frame (examine_loop n tr b s now p st). Proof. induction tr; intros; cbn [examine_loop]; fr. Qed.
Hint Resolve examine_loop_frame : client.
Lemma examine_frame n tr b s now : respects frame (examineConflictingHeaderAgainstTrace n tr b s now).
Proof. unfold examineConflictingHeaderAgainstTrace. fr. Qed.
Lemma send_frame tr b r : respects frame (send_evidence tr b r). Proof. unfold send_evidence. fr. Qed.
Hint Resolve examine_frame send_frame : client.
Lemma handle_frame n tr b i now : respects frame (handleConflictingHeaders n tr b i now). Proof. unfold handleConflictingHeaders. fr. Qed.
Hint Resolve handle_frame : client.
Lemma detect_loop_frame n tr now l : ∀ m t, respects frame (detect_loop n tr now l m t). Proof. induction l; intros; cbn [detect_loop]; fr. Qed.
Hint Resolve detect_loop_frame : client.
Lemma detectDivergence_frame n tr now : respects frame (detectDivergence n tr now). Proof. unfold detectDivergence. fr. Qed.
Lemma replace_primary_frame h : respects frame (replace_primary h). Proof. unfold replace_primary. fr. Qed.
Hint Resolve detectDivergence_frame replace_primary_frame : client.
Lemma sequential_loop_frame n : ∀ fuel now b v h t, respects frame (sequential_loop n fuel now b v h t).
Proof. induction n; intros; cbn [sequential_loop]; fr. Qed.
Lemma skippingAgainstPrimary_frame n : ∀ fuel t b now, respects frame (verifySkippingAgainstPrimary n fuel t b now).
Proof. induction n; intros; cbn [verifySkippingAgainstPrimary]; fr. Qed.
Lemma backwards_frame n : ∀ v b, respects frame (backwards n v b).
Proof. induction n; intros; cbn [backwards]; fr. Qed.
End frames.
#[export] Hint Resolve ask_frame next_schedule_frame findNewPrimary_frame lightBlockFromPrimary_frame verifySkipping_frame detectDivergence_frame : client.
#[export] Hint Resolve compareFirst_frame replace_primary_frame sequential_loop_frame skippingAgainstPrimary_frame backwards_frame : client.

(** ** The answers of the providers *)
Lemma interleave_elem {A} sched : ∀ (l : list (list A)) x, x ∈ interleave sched l → ∃ k, k ∈ l ∧ x ∈ k.
Proof.
  induction sched as [|i sched IH]; intros l x; cbn [interleave].
  - intros Hx%list_elem_of_In%in_concat. destruct Hx as (k & Hk & Hx). exists k. by rewrite !list_elem_of_In.
  - destruct (l !! i) as [[|y rest]|] eqn:E; [by apply IH| |by apply IH]. intros [->|Hx]%elem_of_cons.
    + exists (y :: rest). split; [by eapply list_elem_of_lookup_2|by left].
    + apply IH in Hx as (k & Hk & Hx). apply list_elem_of_lookup in Hk as [j Hk].
      destruct (decide (i = j)) as [<-|Hne].
      * rewrite list_lookup_insert_eq in Hk by (by eapply lookup_lt_Some). injection Hk as <-.
        exists (y :: rest). split; [by eapply list_elem_of_lookup_2|by right].
      * rewrite list_lookup_insert_ne in Hk by done. exists k. split; [by eapply list_elem_of_lookup_2|done].
Qed.

Section answers.
Context {CR : Crypto} {BC : BlockCodec} {GS : GoSort} {PV : Providers}.
(** Whatever holds of the blocks providers return for a height. *)
Context (Q : Z → LBlock → Prop) (HQ : ∀ p n h b, provider_LightBlock p n h = inl b → Q h b).

Lemma ask_Q p h c b c' : ask p h c = Ok (inl b, c') → Q h b.
Proof. unfold ask. intros E. back. by eapply HQ. Qed.

Lemma ask_all_Q l : ∀ i h c r c', ask_all l i h c = Ok (r, c') → ∀ j b, (j, inl b) ∈ r → Q h b.
Proof.
  induction l as [|p l IH]; intros i h c r c'; cbn [ask_all]; [intros [<- _]%ret_Ok j b []%elem_of_nil|].
  intros (a & c1 & Ea & (rest & c2 & Er & [<- _]%ret_Ok)%bind_Ok)%bind_Ok j b [E|Hin]%elem_of_cons.
  - injection E as -> <-. by eapply ask_Q.
  - by eapply IH.
Qed.

Lemma find_loop_Q remove l : ∀ t e h c b c', (∀ j b, (j, inl b) ∈ l → Q h b) → find_loop remove l t e c = Ok (inl b, c') → Q h b.
Proof.
  induction l as [|[i [b0|e0]] l IH]; intros t e h c b c' Hl; cbn [find_loop].
  - intros (x & c1 & [-> <-]%gets_Ok & (r & c2 & [_ <-]%lift_Ok & (u & c3 & _ & E)%bind_Ok)%bind_Ok)%bind_Ok. destruct e; [by apply ret_Ok in E as [? _]|done].
  - intros (x & c1 & [-> <-]%gets_Ok & E)%bind_Ok. destruct (_ !! i) as [p|]; [|done].
    apply bind_Ok in E as (u & c1 & _ & (r & c2 & _ & E)%bind_Ok). destruct r; [|by apply ret_Ok in E as [? _]].
    apply bind_Ok in E as (u' & c3 & _ & [[= <-] _]%ret_Ok). eapply Hl. by left.
  - intros E. eapply IH; [|exact E]. intros j b' Hin. eapply Hl. by right.
Qed.

Lemma findNewPrimary_Q h remove c b c' : findNewPrimary h remove c = Ok (inl b, c') → Q h b.
Proof.
  unfold findNewPrimary. intros (x & c1 & [-> <-]%gets_Ok & E)%bind_Ok. case_decide; [by apply ret_Ok in E as [? _]|].
  apply bind_Ok in E as (r & c1 & Ea & (sched & c2 & _ & E)%bind_Ok). eapply find_loop_Q; [|exact E].
  intros j b' (k & (a & -> & Hk)%list_elem_of_fmap & <-%list_elem_of_singleton)%interleave_elem. by eapply ask_all_Q.
Qed.

Lemma lightBlockFromPrimary_Q h c b c' : lightBlockFromPrimary h c = Ok (inl b, c') → Q h b.
Proof.
  unfold lightBlockFromPrimary. intros (x & c1 & [-> <-]%gets_Ok & (r & c2 & Ea & E)%bind_Ok)%bind_Ok. destruct r as [b0|e].
  - apply ret_Ok in E as [[= <-] <-]. by eapply ask_Q.
  - destruct e; [eapply findNewPrimary_Q, E|eapply findNewPrimary_Q, E|eapply findNewPrimary_Q, E|by apply ret_Ok in E as [? _]|eapply findNewPrimary_Q, E].
Qed.

Lemma replace_primary_Q h c b c' : replace_primary h c = Ok (Some b, c') →
  Q (h_Height h) b ∧ ∃ x y, Header_Hash (Some (fb_Header b)) = Ok x ∧ Header_Hash (Some h) = Ok y ∧ slice x = slice y.
Proof.
  unfold replace_primary. intros (r & c1 & Ef & E)%bind_Ok. destruct r as [b0|]; [|by apply ret_Ok in E as [? _]].
  apply bind_Ok in E as (x & c2 & [Ex <-]%lift_Ok & (y & c3 & [Ey <-]%lift_Ok & [E _]%ret_Ok)%bind_Ok). case_decide; [|done]. injection E as <-.
  split; [by eapply findNewPrimary_Q|]. by exists x, y.
Qed.
End answers.

Lemma i64_min z : MinInt64 ≤ i64 z.
Proof. unfold i64, MinInt64. pose proof (Z.mod_pos_bound (z + 2 ^ 63) (2 ^ 64)). lia. Qed.
Lemma i64_le z : MinInt64 ≤ z → i64 z ≤ z.
Proof. unfold i64, MinInt64, two64. intros H. pose proof (Z.mod_le (z + 2 ^ 63) (2 ^ 64)). lia. Qed.

(** ** Soundness *)
Section sound.
Context {CR : Crypto} {BC : BlockCodec} {CL : CodecLaws BC} {GS : GoSort} {PV : Providers}.
Context (simple_inj : ∀ k p k' p', SimpleValidator_Marshal k p = SimpleValidator_Marshal k' p' → k = k' ∧ p = p').
Context (chain : bytes) (vals_at : Z → list Validator) (correct : gset bytes) (U : bytes → Prop) (HU : no_collision Sum U).
Context {CH : Chain chain vals_at correct U}.

Definition known_block (b : LBlock) : Prop := known chain vals_at (fb_Signed b) (fb_Vals b).

(** What a provider checks of a block before it returns it; the total of the validators is computed, and the strings hashed are those
    that do not collide. *)
Record fresh (b : LBlock) : Prop := {
  fr_basic : LightBlock_ValidateBasic chain (mkLightBlock (Some (fb_Signed b)) (Some (fb_Vals b))) = Ok None;
  fr_cached : cached (fb_Vals b);
  fr_seen : seen U (fb_Signed b) (fb_Vals b);
}.
Context (HP : ∀ p n h b, provider_LightBlock p n h = inl b → fresh b ∧ (h ≠ 0 → fb_Height b = h)).

Lemma fresh_vals b : fresh b → list_hash (Validators (fb_Vals b)) = Ok (h_ValidatorsHash (fb_Header b)).
Proof.
  intros [H _ _]. unfold LightBlock_ValidateBasic in H. cbn [lb_SignedHeader lb_ValidatorSet fb_Signed sh_Header] in H.
  apply obind_Ok in H as (e & _ & H). destruct e; [done|]. destruct (ValidatorSet_ValidateBasic _); [done|].
  apply obind_Ok in H as (h & Eh & H). unfold check in H. case_bool_decide as Hv; [done|]. rewrite Hv. exact Eh.
Qed.

(** A block the client has reason to trust: its header is of the chain, its validators are those of its height, and validators with more than
    two thirds of the power of that height have signed a commit for the header. *)
Record trusted_block (b : LBlock) : Prop := {
  tb_header : genuine chain vals_at (fb_Header b);
  tb_cached : cached (fb_Vals b);
  tb_vals : pubs (Validators (fb_Vals b)) = pubs (vals_at (fb_Height b));
  tb_commit : ∃ c, committed chain vals_at (mkSignedHeader (Some (fb_Header b)) (Some c));
}.
Lemma trusted_known b : trusted_block b → known_block b.
Proof. intros [G C V _]. exists (fb_Header b). split; [done|]. split; [done|]. split; [done|by left]. Qed.


(** A block with a header of the chain carries the validators of its height. *)
Lemma genuine_vals b : fresh b → genuine chain vals_at (fb_Header b) → pubs (Validators (fb_Vals b)) = pubs (vals_at (fb_Height b)).
Proof.
  intros Hf G. eapply (list_hash_inj simple_inj U HU); [by apply fresh_vals|apply G|intros x Hx; apply (fr_seen b Hf); by right|destruct CH as [_ _ _ _ Hin]; apply Hin].
Qed.
Lemma fresh_hashed b z : fresh b → z ∈ header_inputs (fb_Header b) → U z.
Proof. intros Hf Hz. apply (fr_seen b Hf). left. by exists (fb_Header b). Qed.

Lemma header_hash_length h r : Header_Hash (Some h) = Ok (Some r) → length r = 32%nat.
Proof.
  unfold Header_Hash. case_decide; [done|]. destruct (StdTimeMarshal _); [|done]. intros (r' & Er & [= <-])%obind_Ok.
  by apply (hash_slices_length Sum cl_size) in Er.
Qed.

(** A block with the hash of a header of the chain has what the hash covers of it. *)
Lemma same_hash h b r y : (∀ z, z ∈ header_inputs h → U z) → fresh b →
  Header_Hash (Some h) = Ok (Some r) → Header_Hash (Some (fb_Header b)) = Ok y → slice y = r →
  hashed_fields (fb_Header b) = hashed_fields h ∧ Header_Hash (Some (fb_Header b)) = Ok (Some r).
Proof.
  intros Hi Hf Ex Ey Hs. pose proof (header_hash_length h r Ex) as Hr.
  assert (y = Some r) as ->. { destruct y as [r'|]; cbn in Hs; [by subst|]. by rewrite <-Hs in Hr. }
  split; [|done]. eapply (Header_Hash_inj U (fb_Header b) h); [exact HU| |exact Hi|exact Ey|exact Ex].
  intros z. by apply fresh_hashed.
Qed.

(** A block with the hash of a trusted one may be trusted. *)
Lemma trusted_replaced b b' : trusted_block b → fresh b → fresh b' →
  (∃ x y, Header_Hash (Some (fb_Header b)) = Ok x ∧ Header_Hash (Some (fb_Header b')) = Ok y ∧ slice x = slice y) → trusted_block b'.
Proof.
  intros [G _ _ (c & h & c' & [= <-] & [= <-] & Er & Hh & HW)] Hf Hf' (x & y & Ex & Ey & Hs). rewrite Er in Ex. injection Ex as <-.
  destruct (same_hash (fb_Header b) b' _ y (λ z, fresh_hashed b z Hf) Hf' Er Ey (eq_sym Hs)) as [Ef Er'].
  assert (G' : genuine chain vals_at (fb_Header b')) by (by eapply genuine_fields).
  assert (h_Height (fb_Header b') = h_Height (fb_Header b)) as Eh by (unfold hashed_fields in Ef; congruence).
  split; [done|apply Hf'|by apply genuine_vals|]. exists c, (fb_Header b'), c. split_and!; [done|done|exact Er'|by rewrite Eh|by rewrite Eh].
Qed.

Lemma verify_proven t b period now drift lvl : known_block t → fresh b → level_ok lvl →
  light_Verify (fb_Signed t) (fb_Vals t) (fb_Signed b) (fb_Vals b) period now drift lvl = Ok None → trusted_block b.
Proof.
  intros Ht Hf Hl E. destruct (light_Verify_step simple_inj chain vals_at correct U HU _ _ _ _ _ _ _ _ Ht (fr_cached b Hf) (fr_seen b Hf) Hl E) as [Hk Hc].
  destruct Hk as (h & [= <-] & G & _). split; [done|apply Hf|by apply genuine_vals|by exists (fb_Commit b)].
Qed.
Lemma adjacent_proven t b period now drift : known_block t → fresh b →
  VerifyAdjacent (fb_Signed t) (fb_Signed b) (fb_Vals b) period now drift = Ok None → trusted_block b.
Proof.
  intros Ht Hf E. apply (verify_proven t b period now drift DefaultTrustLevel Ht Hf); [by vm_compute|].
  unfold light_Verify, fb_Signed at 1 2, header_of. cbn [sh_Header outcome_bind].
  destruct (decide (h_Height (fb_Header b) ≠ i64 (h_Height (fb_Header t) + 1))) as [Hd|Hd]; [|exact E]. exfalso.
  unfold VerifyAdjacent, fb_Signed at 1 2, header_of in E. cbn [sh_Header outcome_bind] in E. by rewrite decide_True in E by done.
Qed.

Local Abbreviation Q := (λ h b, fresh b ∧ (h ≠ 0 → fb_Height b = h)).

Lemma skip_loop_sound n : ∀ s now v cache d tr c tr' c', known_block v → Forall fresh cache → level_ok (cl_trustLevel c) →
  skip_loop n s now v cache d tr c = Ok (inl tr', c') → ∃ new, cache !! 0%nat = Some new ∧ trusted_block new.
Proof.
  induction n as [|n IH]; intros s now v cache d tr c tr' c' Hv Hc Hl; cbn [skip_loop]; [done|].
  destruct (cache !! d) as [b|] eqn:Eb; [|done]. assert (Hb : fresh b) by (by eapply Forall_lookup_1).
  intros (x & c1 & [-> <-]%gets_Ok & (e & c2 & [Ee <-]%lift_Ok & E)%bind_Ok)%bind_Ok. unfold id in Ee. destruct e as [e|].
  - destruct e as [| | | |got needed| |]; try (by apply ret_Ok in E as [? _]). case_decide.
    + apply bind_Ok in E as (r & c1 & Er & E). destruct r as [ib|pe]; [|destruct (benign pe); by apply ret_Ok in E as [? _]].
      pose proof (ask_frame _ _ _ _ _ Er) as Hfr. pose proof (ask_Q Q HP _ _ _ _ _ Er) as [Hi _]. eapply IH in E as (new & En & Hn).
      * exists new. split; [|done]. destruct cache; [done|]. exact En.
      * done.
      * apply Forall_app_2; [done|]. apply Forall_cons_2; [done|]. by apply Forall_singleton.
      * destruct Hfr as (_ & _ & _ & -> & _). done.
    + eapply IH in E as (new & En & Hn); [by exists new|done..].
  - assert (Hp : trusted_block b) by (by eapply verify_proven). case_decide as Hd; [subst d; by exists b|].
    eapply IH in E as (new & En & Hn); [exists new; split; [|done]|by apply trusted_known|by apply Forall_take|done]. destruct cache, d; done.
Qed.

Lemma verifySkipping_sound n s t b now c tr c' : known_block t → fresh b → level_ok (cl_trustLevel c) →
  verifySkipping n s t b now c = Ok (inl tr, c') → trusted_block b.
Proof. intros Ht Hb Hl E. apply skip_loop_sound in E as (new & [= <-] & Hn); [done|done|by apply Forall_singleton|done]. Qed.

Lemma detect_empty fuel now c e c' : detectDivergence fuel [] now c = Ok (e, c') → e ≠ None.
Proof. cbn [detectDivergence last]. by intros [<- _]%ret_Ok. Qed.
Lemma detect_single fuel b now c e c' : detectDivergence fuel [b] now c = Ok (e, c') → e ≠ None.
Proof. cbn. by intros [<- _]%ret_Ok. Qed.

Lemma skipping_sound n : ∀ fuel t b now c c', known_block t → fresh b → level_ok (cl_trustLevel c) →
  verifySkippingAgainstPrimary n fuel t b now c = Ok (None, c') → trusted_block b.
Proof.
  induction n as [|n IH]; intros fuel t b now c c' Ht Hb Hl; cbn [verifySkippingAgainstPrimary]; [done|].
  intros (x & c0 & [-> <-]%gets_Ok & (r & c1 & Er & E)%bind_Ok)%bind_Ok. pose proof (verifySkipping_frame _ _ _ _ _ _ _ _ Er) as Hf1.
  destruct r as [tr|e]; [by eapply verifySkipping_sound|].
  destruct e as [| | |from to reason| | | | | | | | | | | | | | | | | | | |]; try (by apply detect_empty in E).
  destruct reason as [| |le| | | | | | | | | | | | | | | | | | | | |]; try (by apply ret_Ok in E as [? _]). destruct le; try (by apply ret_Ok in E as [? _]).
  case_decide; [by apply ret_Ok in E as [? _]|]. apply bind_Ok in E as (r & c2 & Er2 & E). destruct r as [b'|]; [|by apply ret_Ok in E as [? _]].
  pose proof (replace_primary_frame _ _ _ _ Er2) as Hf2. destruct (replace_primary_Q Q HP _ _ _ _ Er2) as [[Hb' _] Hh].
  apply (trusted_replaced b' b); [|done|done|done]. eapply IH; [exact Ht|exact Hb'| |exact E].
  destruct Hf1 as (_ & _ & _ & L1 & _). destruct Hf2 as (_ & _ & _ & L2 & _). by rewrite L2, L1.
Qed.

Lemma sequential_sound n : ∀ fuel now new v h tr c c', known_block v → fresh new → MinInt64 ≤ h →
  (fb_Height new < h → trusted_block new ∨ ∃ b, tr = [b]) → sequential_loop n fuel now new v h tr c = Ok (None, c') → trusted_block new.
Proof.
  induction n as [|n IH]; intros fuel now new v h tr c c' Hv Hn Hm Hh; cbn [sequential_loop]; [done|]. case_decide as Hd.
  - intros E. destruct (Hh Hd) as [?|[b ->]]; [done|]. by apply detect_single in E.
  - intros (r & c1 & Er & E)%bind_Ok. destruct r as [ib|]; [|by apply ret_Ok in E as [? _]].
    assert (fresh ib ∧ (h = fb_Height new → ib = new)) as [Hi Hin].
    { destruct (decide (h = fb_Height new)); [apply ret_Ok in Er as [[= <-] _]; done|]. pose proof (lightBlockFromPrimary_Q Q HP _ _ _ _ Er) as [? _]. done. }
    apply bind_Ok in E as (x & c2 & [-> <-]%gets_Ok & (e & c3 & [Ee <-]%lift_Ok & E)%bind_Ok). destruct e as [e|].
    + destruct e; try (by apply ret_Ok in E as [? _]). case_decide; [by apply ret_Ok in E as [? _]|].
      apply bind_Ok in E as (r & c3 & _ & E). destruct r; [|by apply ret_Ok in E as [? _]]. by eapply IH in E.
    + assert (Hp : trusted_block ib) by (eapply adjacent_proven; [exact Hv|exact Hi|exact Ee]). eapply IH in E; [done|by apply trusted_known|done|apply i64_min|].
      intros Hlt. left. destruct (decide (h = fb_Height new)) as [E1|Hne]; [by rewrite <-(Hin E1)|]. pose proof (i64_le (h + 1) ltac:(lia)). lia.
Qed.

(** The function that verifies forwards. *)
Lemma forwards_sound fuel t new now c c' : known_block t → fresh new → level_ok (cl_trustLevel c) →
  (match cl_mode c with sequential => verifySequential fuel | skipping => verifySkippingAgainstPrimary fuel fuel end) t new now c = Ok (None, c') →
  trusted_block new ∧ frame c c'.
Proof.
  intros Ht Hn Hl E. destruct (cl_mode c).
  - split; [|by eapply sequential_loop_frame]. eapply sequential_sound; [exact Ht|exact Hn|apply i64_min| |exact E]. intros _. right. by exists t.
  - split; [|by eapply skippingAgainstPrimary_frame]. by eapply skipping_sound.
Qed.

(** ** The invariant of a client *)
Definition trusted_store (s : LStore) : Prop := ∀ h b, ldb_blocks (ls_db s) !! (ls_prefix s, h) = Some b → trusted_block b.
Record CI (c : Client) : Prop := {
  ci_store : trusted_store (cl_store c);
  ci_latest : ∀ b, cl_latest c = Some b → trusted_block b;
  ci_level : level_ok (cl_trustLevel c);
}.

Lemma CI_frame c c' : frame c c' → CI c → CI c'.
Proof. intros (_ & _ & _ & L & _ & _ & S & T) [H1 H2 H3]. split; by rewrite ?L, ?S, ?T. Qed.
Lemma CI_trusted c s l : CI c → trusted_store s → (∀ b, l = Some b → trusted_block b) → CI (set_trusted s l c).
Proof. intros [_ _ H] Hs Hl. by split. Qed.

(** A part of a trusted store is trusted. *)
Definition substore (s s' : LStore) : Prop := ls_prefix s' = ls_prefix s ∧ ∀ k b, ldb_blocks (ls_db s') !! k = Some b → ldb_blocks (ls_db s) !! k = Some b.
Lemma trusted_sub s s' : substore s s' → trusted_store s → trusted_store s'.
Proof. intros [Hp Hs] H h b Hb. rewrite Hp in Hb. eapply H. by apply Hs. Qed.
Lemma prune_sub n s : substore s (light_Prune n s).
Proof. split; [apply light_Prune_prefix|apply light_Prune_sub]. Qed.

Lemma update_CI b c u c' : CI c → trusted_block b → updateTrustedLightBlock b c = Ok (u, c') → CI c'.
Proof.
  intros H Hb. unfold updateTrustedLightBlock, on_store, SaveLightBlock. intros (u1 & c1 & E1 & (u2 & c2 & ->%modify_Ok & ->%modify_Ok)%bind_Ok)%bind_Ok.
  assert (CI c1) as H1.
  { unfold zoom in E1. case_decide; [done|]. injection E1 as _ <-. apply CI_trusted; [done| |apply H]. intros h b'. cbn.
    intros [[_ <-]|[_ Hl]]%lookup_insert_Some; [done|]. by apply (ci_store c H) in Hl. }
  assert (CI (if decide (0 < cl_pruningSize c1) then set_trusted (light_Prune (cl_pruningSize c1) (cl_store c1)) (cl_latest c1) c1 else c1)) as H2.
  { clear E1. case_decide; [|done]. apply CI_trusted; [done|eapply trusted_sub; [apply prune_sub|apply H1]|apply H1]. }
  clear E1. revert H2. generalize (if decide (0 < cl_pruningSize c1) then set_trusted (light_Prune (cl_pruningSize c1) (cl_store c1)) (cl_latest c1) c1 else c1).
  intros c2 H2. destruct (cl_latest c2) as [t|]; [case_decide; [|done]|]; (apply CI_trusted; [done|apply H2|by intros ? [= <-]]).
Qed.

Lemma verifyLightBlock_CI fuel b now c e c' : CI c → fresh b → FirstTrustedHeight c ≤ fb_Height b → verifyLightBlock fuel b now c = Ok (e, c') →
  CI c' ∧ (e = None → trusted_block b).
Proof.
  intros H Hb Hfirst. unfold verifyLightBlock. intros (x & c0 & [-> <-]%gets_Ok & E)%bind_Ok. unfold id in E.
  destruct (cl_latest c) as [latest|] eqn:El; [|done]. apply bind_Ok in E as (r & c1 & E1 & E).
  assert (CI c1 ∧ (r = None → trusted_block b)) as [H1 Hr].
  { destruct (decide (fb_Height latest ≤ fb_Height b)).
    - destruct r as [r|].
      + split; [|done]. eapply CI_frame; [|exact H]. destruct (cl_mode c); [by eapply sequential_loop_frame|by eapply skippingAgainstPrimary_frame].
      + apply forwards_sound in E1 as [Hp Hf]; [|by apply trusted_known, (ci_latest c H)|done|apply H]. split; [by eapply CI_frame|]. intros _. apply Hp.
    - rewrite decide_False in E1 by lia. apply bind_Ok in E1 as (o & c2 & [Eo <-]%lift_Ok & E1). destruct o as [closest|]; [|by apply ret_Ok in E1 as [<- <-]].
      destruct r as [r|].
      + split; [|done]. eapply CI_frame; [|exact H]. destruct (cl_mode c); [by eapply sequential_loop_frame|by eapply skippingAgainstPrimary_frame].
      + apply LightBlockBefore_Ok in Eo as (h' & _ & Eo). apply forwards_sound in E1 as [Hp Hf]; [|by eapply trusted_known, (ci_store c H)|done|apply H].
        split; [by eapply CI_frame|]. intros _. apply Hp. }
  destruct r as [r|]; [by apply ret_Ok in E as [<- <-]|]. specialize (Hr eq_refl). apply bind_Ok in E as (u & c2 & E2 & [<- <-]%ret_Ok).
  split; [by eapply update_CI|done].
Qed.

Lemma first_le_last c : LastTrustedHeight c ≠ -1 → FirstTrustedHeight c ≤ LastTrustedHeight c.
Proof.
  unfold LastTrustedHeight, FirstTrustedHeight, LastLightBlockHeight, FirstLightBlockHeight. pose proof (heights_sorted (cl_store c)) as Hs.
  destruct (heights (cl_store c)) as [|h l]; [done|]. intros _. apply StronglySorted_inv in Hs as [_ Hf]. cbn [head default].
  destruct (last (h :: l)) as [h'|] eqn:E; [|by apply last_None in E]. cbn. apply last_Some_elem_of in E.
  rewrite Forall_forall in Hf. apply elem_of_cons in E as [->|E]; [lia|]. specialize (Hf h' E). lia.
Qed.
Lemma first_frame c c' : frame c c' → FirstTrustedHeight c' = FirstTrustedHeight c.
Proof. intros (_ & _ & _ & _ & _ & _ & S & _). unfold FirstTrustedHeight. by rewrite S. Qed.

Lemma client_Update_CI fuel now c r c' : CI c → client_Update fuel now c = Ok (r, c') → CI c' ∧ (∀ b, r = inl (Some b) → trusted_block b).
Proof.
  intros H. unfold client_Update. intros (x & c0 & [-> <-]%gets_Ok & E)%bind_Ok. unfold id in E. case_decide as Hd1; [by apply ret_Ok in E as [<- <-]|].
  apply bind_Ok in E as (a & c1 & Ea & E). pose proof (lightBlockFromPrimary_frame _ _ _ _ Ea) as Hf. pose proof (CI_frame _ _ Hf H) as H1.
  destruct a as [l|e]; [|by apply ret_Ok in E as [<- <-]]. destruct (lightBlockFromPrimary_Q Q HP _ _ _ _ Ea) as [Hl _].
  case_decide as Hd2; [|by apply ret_Ok in E as [<- <-]]. apply bind_Ok in E as (e & c2 & Ev & [<- <-]%ret_Ok).
  apply verifyLightBlock_CI in Ev as [H2 Hk]; [|done|done|rewrite (first_frame _ _ Hf); pose proof (first_le_last c Hd1); lia].
  split; [done|]. intros b. destruct e; [done|]. intros [= <-]. by apply Hk.
Qed.

Lemma TrustedLightBlock_trusted h c b : CI c → TrustedLightBlock h c = Ok (inl b) → trusted_block b.
Proof.
  intros H. unfold TrustedLightBlock. destruct (compareWithLatestHeight h c) as [h'|]; [|done]. intros (o & Eo & E)%obind_Ok.
  apply get_LightBlock_Ok in Eo as [_ ->]. destruct (ldb_blocks _ !! _) as [b'|] eqn:Eb; [|done]. injection E as <-. by eapply (ci_store c H).
Qed.

Lemma VerifyAtHeight_CI fuel h now c r c' : CI c → FirstTrustedHeight c ≤ h → VerifyLightBlockAtHeight fuel h now c = Ok (r, c') →
  CI c' ∧ (∀ b, r = inl b → trusted_block b).
Proof.
  intros H Hh. unfold VerifyLightBlockAtHeight. case_decide as Hd; [by intros [<- <-]%ret_Ok|].
  intros (x & c0 & [-> <-]%gets_Ok & (t & c9 & [Et <-]%lift_Ok & E)%bind_Ok)%bind_Ok. unfold id in Et.
  destruct t as [b|]; [apply ret_Ok in E as [<- <-]; split; [done|]; intros ? [= <-]; by eapply TrustedLightBlock_trusted|].
  apply bind_Ok in E as (a & c1 & Ea & E). pose proof (lightBlockFromPrimary_frame _ _ _ _ Ea) as Hf. pose proof (CI_frame _ _ Hf H) as H1.
  destruct a as [l|e]; [|by apply ret_Ok in E as [<- <-]]. destruct (lightBlockFromPrimary_Q Q HP _ _ _ _ Ea) as [Hl Hhl].
  apply bind_Ok in E as (e & c2 & Ev & [<- <-]%ret_Ok).
  apply verifyLightBlock_CI in Ev as [H2 Hk]; [|done|done|rewrite (first_frame _ _ Hf), Hhl; lia].
  split; [done|]. intros b. destruct e; [done|]. intros [= <-]. by apply Hk.
Qed.

Lemma VerifyHeader_CI fuel h now c e c' : CI c → FirstTrustedHeight c ≤ h_Height h → VerifyHeader fuel h now c = Ok (e, c') → CI c'.
Proof.
  intros H Hh. unfold VerifyHeader. case_decide as Hd; [by intros [<- <-]%ret_Ok|].
  intros (x & c0 & [-> <-]%gets_Ok & (t & c9 & [Et <-]%lift_Ok & E)%bind_Ok)%bind_Ok.
  destruct t as [b|]; [apply bind_Ok in E as (y & c1 & [_ <-]%lift_Ok & (z & c2 & [_ <-]%lift_Ok & [_ <-]%ret_Ok)%bind_Ok); done|].
  apply bind_Ok in E as (a & c1 & Ea & E). pose proof (lightBlockFromPrimary_frame _ _ _ _ Ea) as Hf. pose proof (CI_frame _ _ Hf H) as H1.
  destruct a as [l|er]; [|by apply ret_Ok in E as [<- <-]]. destruct (lightBlockFromPrimary_Q Q HP _ _ _ _ Ea) as [Hl Hhl].
  apply bind_Ok in E as (y & c2 & [_ <-]%lift_Ok & (z & c3 & [_ <-]%lift_Ok & E)%bind_Ok). case_decide as Hd3; [|by apply ret_Ok in E as [<- <-]].
  apply verifyLightBlock_CI in E as [H2 _]; [done|done|done|rewrite (first_frame _ _ Hf), Hhl; lia].
Qed.

(** ** Setting up *)
Lemma restore_CI c e c' : CI c → restoreTrustedLightBlock c = Ok (e, c') → CI c'.
Proof.
  intros H. unfold restoreTrustedLightBlock. intros (x & c0 & [-> <-]%gets_Ok & E)%bind_Ok. case_decide as Hd4; [|by apply ret_Ok in E as [_ <-]].
  apply bind_Ok in E as (o & c1 & [Eo <-]%lift_Ok & E). destruct o as [b|]; [|by apply ret_Ok in E as [_ <-]].
  apply bind_Ok in E as (u & c1 & ->%modify_Ok & [_ <-]%ret_Ok). apply get_LightBlock_Ok in Eo as [_ Eo].
  apply CI_trusted; [done|apply H|]. intros b' [= <-]. by eapply (ci_store c H).
Qed.

Lemma cleanup_loop_CI n : ∀ h p c u c', CI c → cleanup_loop n h p c = Ok (u, c') → CI c'.
Proof.
  induction n as [|n IH]; intros h p c u c' H; cbn [cleanup_loop]; [done|].
  intros (x & c0 & [-> <-]%gets_Ok & (o & c1 & [_ <-]%lift_Ok & E)%bind_Ok)%bind_Ok. destruct o as [b|]; [|by apply ret_Ok in E as [_ <-]].
  case_decide as Hd5; [by apply ret_Ok in E as [_ <-]|]. apply bind_Ok in E as (u1 & c1 & E1 & E). eapply IH; [|exact E].
  unfold on_store, zoom, DeleteLightBlock in E1. clear E. case_decide as Hd6; [done|]. injection E1 as _ <-. apply CI_trusted; [done| |apply H].
  eapply trusted_sub; [|apply (ci_store c H)]. split; [done|]. cbn. intros k b' [_ Hb]%lookup_delete_Some. done.
Qed.

Lemma cleanupAfter_CI h c e c' : CI c → cleanupAfter h c = Ok (e, c') → CI c'.
Proof.
  intros H. unfold cleanupAfter. intros (x & c0 & [-> <-]%gets_Ok & E)%bind_Ok. unfold id in E. destruct (cl_latest c) as [latest|]; [|done].
  apply bind_Ok in E as (u & c1 & E1 & (u2 & c2 & ->%modify_Ok & E)%bind_Ok). apply cleanup_loop_CI in E1; [|done].
  eapply restore_CI; [|exact E]. apply CI_trusted; [done|apply E1|done].
Qed.

Lemma check_options_CI o c e c' : CI c → checkTrustedHeaderUsingOptions o c = Ok (e, c') → CI c'.
Proof.
  intros H. unfold checkTrustedHeaderUsingOptions. intros (x & c0 & [-> <-]%gets_Ok & E)%bind_Ok. unfold id in E.
  destruct (cl_latest c) as [latest|]; [|done]. apply bind_Ok in E as (r & c1 & E1 & E).
  assert (CI c1) as H1.
  { clear E. repeat case_decide.
    - apply bind_Ok in E1 as (a & c2 & Ea & E1). pose proof (CI_frame _ _ (lightBlockFromPrimary_frame _ _ _ _ Ea) H) as H2.
      destruct a; [|by apply ret_Ok in E1 as [_ <-]]. by apply bind_Ok in E1 as (y & c3 & [_ <-]%lift_Ok & [_ <-]%ret_Ok).
    - by apply ret_Ok in E1 as [_ <-].
    - apply bind_Ok in E1 as (ok & c2 & Eo & E1). assert (CI c2) as H2 by (eapply CI_frame; [|exact H]; revert Eo; unfold confirm; intros Eo; back; by split_and!).
      destruct ok; [|by apply ret_Ok in E1 as [_ <-]]. apply bind_Ok in E1 as (e1 & c3 & Ec & [_ <-]%ret_Ok). by eapply cleanupAfter_CI. }
  destruct r as [hash|e1]; [|by apply ret_Ok in E as [_ <-]]. apply bind_Ok in E as (x & c2 & [-> <-]%gets_Ok & E). unfold id in E.
  destruct (cl_latest c1) as [latest1|]; [|done]. apply bind_Ok in E as (y & c2 & [_ <-]%lift_Ok & E). case_decide as Hd7; [by apply ret_Ok in E as [_ <-]|].
  apply bind_Ok in E as (ok & c2 & Eo & E). assert (CI c2) as H2 by (eapply CI_frame; [|exact H1]; revert Eo; unfold confirm; intros Eo; back; by split_and!).
  destruct ok; [|by apply ret_Ok in E as [_ <-]]. apply bind_Ok in E as (u & c3 & ->%modify_Ok & [_ <-]%ret_Ok).
  apply CI_trusted; [done|eapply trusted_sub; [apply prune_sub|apply H2]|done].
Qed.

(** The options name a header of the chain. *)
Definition honest_options (o : TrustOptions) : Prop :=
  ∃ h, genuine chain vals_at h ∧ (∀ z, z ∈ header_inputs h → U z) ∧ Header_Hash (Some h) = Ok (Some (to_Hash o)).

(** What a provider checked of a block it returned. *)
Lemma fresh_signed b : fresh b → h_ChainID (fb_Header b) = chain ∧ c_Height (fb_Commit b) = fb_Height b ∧
  ∃ x, Header_Hash (Some (fb_Header b)) = Ok x ∧ slice x = bid_Hash (c_BlockID (fb_Commit b)).
Proof.
  intros [H _ _]. unfold LightBlock_ValidateBasic in H. cbn [lb_SignedHeader lb_ValidatorSet] in H. apply obind_Ok in H as (e & E & H).
  destruct e; [done|]. clear H. unfold SignedHeader_ValidateBasic, fb_Signed in E. cbn [sh_Header sh_Commit] in E.
  destruct (Header_ValidateBasic _); [done|]. destruct (Commit_ValidateBasic _); [done|]. case_decide as Hc; [done|]. case_decide as Hh; [done|].
  apply obind_Ok in E as (x & Ex & E). unfold check in E. case_bool_decide as Hs; [done|].
  split; [by destruct (decide (h_ChainID (fb_Header b) = chain))|]. split; [unfold fb_Height; lia|].
  exists x. split; [done|]. by destruct (decide (slice x = bid_Hash (c_BlockID (fb_Commit b)))).
Qed.
Lemma basic_chain b chainID : fresh b → LightBlock_ValidateBasic chainID (mkLightBlock (Some (fb_Signed b)) (Some (fb_Vals b))) = Ok None → chainID = chain.
Proof.
  intros (Ec & _)%fresh_signed H. unfold LightBlock_ValidateBasic in H. cbn [lb_SignedHeader lb_ValidatorSet] in H. apply obind_Ok in H as (e & E & H).
  destruct e; [done|]. clear H. unfold SignedHeader_ValidateBasic, fb_Signed in E. cbn [sh_Header sh_Commit] in E.
  destruct (Header_ValidateBasic _); [done|]. destruct (Commit_ValidateBasic _); [done|]. case_decide as Hc; [done|]. rewrite Ec in Hc. by destruct (decide (chain = chainID)).
Qed.

(** The first block, whose commit is verified with the validators it came with. *)
Lemma first_trusted b r s : fresh b → genuine chain vals_at (fb_Header b) → Header_Hash (Some (fb_Header b)) = Ok (Some r) →
  VerifyCommitLight VerifySignature MarshalVote chain (c_BlockID (fb_Commit b)) (fb_Height b) (fb_Commit b) (fb_Vals b) = Ok (None, s) → trusted_block b.
Proof.
  intros Hf G Er E. destruct (fresh_signed b Hf) as (Hc & Hh & x & Ex & Hs). rewrite Er in Ex. injection Ex as <-. cbn in Hs. subst r.
  assert (Hv : verify_commit (fb_Header b) (fb_Signed b) (fb_Vals b) = Ok None).
  { unfold verify_commit, header_of, commit_of, fb_Signed. cbn [sh_Header sh_Commit outcome_bind]. rewrite Hc. unfold fb_Height in E. by rewrite E. }
  destruct (header_done simple_inj chain vals_at correct U HU (fb_Signed b) (fb_Vals b) (fb_Header b) (fb_Commit b) _ (fb_Header b)
    eq_refl eq_refl Er eq_refl Hh Hc G Er (fresh_vals b Hf) (fr_cached b Hf) (fr_seen b Hf) Hv) as [_ Hcm].
  split; [done|apply Hf|by apply genuine_vals|by exists (fb_Commit b)].
Qed.

Lemma initialize_CI o c e c' : CI c → honest_options o → initializeWithTrustOptions o c = Ok (e, c') → CI c'.
Proof.
  intros H (h & G & Hi & Eh). unfold initializeWithTrustOptions. intros (a & c1 & Ea & E)%bind_Ok.
  pose proof (CI_frame _ _ (lightBlockFromPrimary_frame _ _ _ _ Ea) H) as H1. destruct a as [l|er]; [|by apply ret_Ok in E as [_ <-]].
  destruct (lightBlockFromPrimary_Q Q HP _ _ _ _ Ea) as [Hl _]. apply bind_Ok in E as (x & c2 & [-> <-]%gets_Ok & (eb & c9 & [Eb <-]%lift_Ok & E)%bind_Ok).
  destruct eb; [by apply ret_Ok in E as [_ <-]|]. apply bind_Ok in E as (y & c2 & [Ey <-]%lift_Ok & E). case_decide as Hd; [by apply ret_Ok in E as [_ <-]|].
  apply bind_Ok in E as ([ev sv] & c2 & [Ev <-]%lift_Ok & E). cbn [fst] in E. destruct ev; [by apply ret_Ok in E as [_ <-]|].
  apply bind_Ok in E as (ef & c2 & Ef & E). pose proof (CI_frame _ _ (compareFirst_frame _ _ _ _ Ef) H1) as H2.
  destruct ef; [by apply ret_Ok in E as [_ <-]|]. apply bind_Ok in E as (u & c3 & Eu & [_ <-]%ret_Ok). eapply update_CI; [exact H2| |exact Eu].
  unfold fb_Hash in Ey. apply obind_Ok in Ey as (z & Ez & [= <-]). destruct (same_hash h l (to_Hash o) z Hi Hl Eh Ez) as [Efl Er]; [by destruct (decide (slice z = to_Hash o))|].
  rewrite (basic_chain l _ Hl Eb) in Ev. eapply first_trusted; [exact Hl| |exact Er|exact Ev]. by eapply genuine_fields.
Qed.

Lemma NewClient_CI chainID o m lvl drift prune primary witnesses store c : trusted_store store → level_ok lvl → honest_options o →
  NewClient chainID o m lvl drift prune primary witnesses store = Ok (inl c) → CI c.
Proof.
  intros Hs Hl Ho. unfold NewClient. destruct (TrustOptions_ValidateBasic o); [|done]. cbn [negb]. intros (r & Er & E)%obind_Ok.
  destruct r as [c0|]; [|done]. assert (CI c0) as H0.
  { unfold NewClientFromTrustedStore in Er. case_decide as Hd8; [done|]. destruct (existsb _ _); [done|]. destruct (negb _); [done|].
    apply obind_Ok in Er as ([e c1] & Er & Ee). destruct e; [done|]. injection Ee as ->. eapply restore_CI; [|exact Er]. by split. }
  apply obind_Ok in E as ([e c1] & E1 & E). assert (CI c1) as H1.
  { destruct (cl_latest c0); [by eapply check_options_CI|]. by injection E1 as _ <-. }
  destruct e; [done|]. destruct (match cl_latest c1 with Some b => _ | None => _ end).
  - apply obind_Ok in E as ([e c2] & E2 & E). destruct e; [done|]. injection E as ->. by eapply initialize_CI.
  - by injection E as ->.
Qed.

(** ** Runs *)

(** A client that was set up with a header of the chain on a store of trusted blocks, and is asked for heights from its first one on. *)
Inductive client_run : Client → Prop :=
| run_new chainID o m lvl drift prune primary witnesses store c : trusted_store store → level_ok lvl → honest_options o →
    NewClient chainID o m lvl drift prune primary witnesses store = Ok (inl c) → client_run c
| run_update fuel now c r c' : client_run c → client_Update fuel now c = Ok (r, c') → client_run c'
| run_height fuel h now c r c' : client_run c → FirstTrustedHeight c ≤ h → VerifyLightBlockAtHeight fuel h now c = Ok (r, c') → client_run c'
| run_header fuel h now c e c' : client_run c → FirstTrustedHeight c ≤ h_Height h → VerifyHeader fuel h now c = Ok (e, c') → client_run c'.

Lemma client_run_CI c : client_run c → CI c.
Proof.
  induction 1 as [chainID o m lvl drift prune primary witnesses store c Hs Hl Ho E|fuel now c r c' _ IH E|fuel h now c r c' _ IH Hh E|fuel h now c e c' _ IH Hh E].
  - by eapply NewClient_CI.
  - by apply client_Update_CI in E as [? _].
  - by apply VerifyAtHeight_CI in E as [? _].
  - by eapply VerifyHeader_CI.
Qed.

(** C3: A light client is not fooled: whatever its primary and its witnesses answer, in whichever order and however often they are
    replaced, every block in its store, the latest block it trusts, and every block it returns are trusted blocks: the header names the
    validators of its height and the next, the block carries the validators of its height, and validators with more than two thirds of the
    power of that height have signed a commit for the header.  (When the primary is replaced on the way, that commit is the one the new
    primary sent for the same header, which need not be the one kept with the block.)  The client was set up with the hash of a header of
    the chain, on a store of trusted blocks, and is not asked for heights below its first one. *)
Theorem light_client_store_sound c : client_run c →
  (∀ h b, ldb_blocks (ls_db (cl_store c)) !! (ls_prefix (cl_store c), h) = Some b → trusted_block b) ∧
  (∀ b, cl_latest c = Some b → trusted_block b) ∧
  (∀ fuel now b c', client_Update fuel now c = Ok (inl (Some b), c') → trusted_block b) ∧
  (∀ fuel h now b c', FirstTrustedHeight c ≤ h → VerifyLightBlockAtHeight fuel h now c = Ok (inl b, c') → trusted_block b).
Proof.
  intros H%client_run_CI. split_and!; [apply H|apply H|..].
  - intros fuel now b c' E. destruct (client_Update_CI _ _ _ _ _ H E) as [_ Hk]. by apply Hk.
  - intros fuel h now b c' Hh E. destruct (VerifyAtHeight_CI _ _ _ _ _ _ H Hh E) as [_ Hk]. by apply Hk.
Qed.
End sound.
