(* ===== verification/TmClientRuns.v ===== *)
(** How the light client ends: verification by skipping returns; and what its backwards verification, its detector and the replacement of
    its primary let pass. *)

From S2P Require Import Prelude TmBits TmValidators TmPriority TmValUpdate TmTypes TmCommit TmVotes TmVoteInv TmVoteSafety.
From S2P Require Import TmMerkle TmPartSet TmPrivval TmHeightVotes TmBlock TmStore TmState TmConsensus TmConsVotes TmConsInv TmConsStep TmConsSafety.
From S2P Require Import TmStoreFacts TmBlockFacts TmLight TmEvidence TmLightStore TmClient TmClientFacts.

(** ** Computations that come to an end *)
Definition halts {A} (o : outcome A) : Prop := o ≠ Diverge.
Create HintDb halts discriminated.
Lemma halts_Ok {A} (a : A) : halts (Ok a). Proof. done. Qed.
Lemma halts_Panic {A} : halts (A := A) Panic. Proof. done. Qed.
Lemma halts_bind {A B} (o : outcome A) (k : A → outcome B) : halts o → (∀ a, halts (k a)) → halts (outcome_bind o k).
Proof. intros Ho Hk. destruct o; [apply Hk|done|by destruct Ho]. Qed.
Ltac hl1 :=
  match goal with
  | |- ∀ _, _ => intros ?
  | |- halts (Ok _) => apply halts_Ok
  | |- halts Panic => apply halts_Panic
  | |- halts (outcome_bind _ _) => apply halts_bind
  | |- halts (let (_, _) := ?x in _) => destruct x
  | |- halts (if ?x then _ else _) => destruct x
  | |- halts (match ?x with _ => _ end) => destruct x
  | |- halts _ => eauto with halts
  end.
Ltac hl := repeat hl1.

Section halting.
Context {CR : Crypto} {BC : BlockCodec}.

Lemma slice_get_halts {A} (l : list A) i : halts (slice_get l i). Proof. unfold slice_get. hl. Qed.
Lemma marshal_all_halts {A} (f : A → outcome bytes) l : (∀ x, halts (f x)) → halts (marshal_all f l).
Proof. intros Hf. induction l; cbn [marshal_all]; hl. Qed.
Lemma Hash_halts l : halts (HashFromByteSlices Sum l).
Proof. destruct (HashFromByteSlices_total Sum l) as [h ->]. done. Qed.
Lemma Validator_Bytes_halts v : halts (Validator_Bytes v). Proof. unfold Validator_Bytes. hl. Qed.
Hint Resolve slice_get_halts marshal_all_halts Hash_halts Validator_Bytes_halts : halts.
Lemma ValidatorSet_Hash_halts v : halts (ValidatorSet_Hash v). Proof. unfold ValidatorSet_Hash. hl. Qed.
Lemma Header_Hash_halts h : halts (Header_Hash h). Proof. unfold Header_Hash. hl. Qed.
Hint Resolve ValidatorSet_Hash_halts Header_Hash_halts : halts.
Lemma Signed_halts chain sh : halts (SignedHeader_ValidateBasic chain sh). Proof. unfold SignedHeader_ValidateBasic. hl. Qed.
Lemma sign_bytes_halts chain c i : halts (Commit_VoteSignBytes MarshalVote chain c i).
Proof. unfold Commit_VoteSignBytes, GetVote, VoteSignBytes, CanonicalizeVote, CanonicalizeBlockID, cs_BlockID. hl. Qed.
Lemma val_Verify_halts v m s : halts (val_Verify VerifySignature v m s). Proof. unfold val_Verify. hl. Qed.
Hint Resolve Signed_halts sign_bytes_halts val_Verify_halts : halts.
Lemma sum_powers_halts l : ∀ a, halts (sum_powers a l). Proof. induction l as [|v l IH]; intros t; cbn [sum_powers]; hl. Qed.
Lemma TotalVotingPower_halts vals : halts (TotalVotingPower vals).
Proof.
  unfold TotalVotingPower, updateTotalVotingPower, bind, gets, modify, lift, ret. cbn [outcome_bind]. case_decide; [|done].
  pose proof (sum_powers_halts (Validators vals) 0) as Hs. cbn [outcome_bind]. destruct (sum_powers 0 (Validators vals)); done.
Qed.
Lemma tally_light_halts vals chain c needed sigs : ∀ i t, halts (tally_light VerifySignature MarshalVote vals chain c needed i sigs t).
Proof. induction sigs as [|cs sigs IH]; intros i t; cbn [tally_light]; hl. Qed.
Lemma tally_trusting_halts vals chain c needed sigs : ∀ i s t, halts (tally_trusting VerifySignature MarshalVote vals chain c needed i sigs s t).
Proof. induction sigs as [|cs sigs IH]; intros i s t; cbn [tally_trusting]; hl. Qed.
Hint Resolve TotalVotingPower_halts tally_light_halts tally_trusting_halts : halts.
Lemma VerifyCommitLight_halts chain id h c vals : halts (VerifyCommitLight VerifySignature MarshalVote chain id h c vals).
Proof. unfold VerifyCommitLight, bind, gets, lift, ret. cbn [outcome_bind]. destruct (commit_checks _ _ _ _); hl. Qed.
Lemma VerifyCommitLightTrusting_halts chain c n d vals : halts (VerifyCommitLightTrusting VerifySignature MarshalVote chain c n d vals).
Proof. unfold VerifyCommitLightTrusting, bind, gets, lift, ret. case_decide; [done|]. cbn [outcome_bind]. apply halts_bind; [hl|]. intros [t s]. destruct (safeMul _ _) as [p []]; hl. Qed.
Hint Resolve VerifyCommitLight_halts VerifyCommitLightTrusting_halts : halts.
Lemma header_of_halts sh : halts (header_of sh). Proof. unfold header_of. hl. Qed.
Lemma commit_of_halts sh : halts (commit_of sh). Proof. unfold commit_of. hl. Qed.
Hint Resolve header_of_halts commit_of_halts : halts.
Lemma new_header_halts u vals t now d : halts (verifyNewHeaderAndVals u vals t now d). Proof. unfold verifyNewHeaderAndVals. hl. Qed.
Lemma verify_commit_halts t u vals : halts (verify_commit t u vals). Proof. unfold verify_commit. hl. Qed.
Hint Resolve new_header_halts verify_commit_halts : halts.
Lemma light_Verify_halts t tv u uv p now d l : halts (light_Verify t tv u uv p now d l).
Proof. unfold light_Verify, VerifyNonAdjacent, VerifyAdjacent. hl. Qed.
End halting.

(** ** Verification by skipping returns *)
Section skipping.
Context {CR : Crypto} {BC : BlockCodec} {GS : GoSort} {PV : Providers}.
(** Providers answer a request for a height with a block of that height. *)
Context (HH : ∀ p n h b, provider_LightBlock p n h = inl b → h ≠ 0 → fb_Height b = h).

Lemma ask_run p h c : ask p h c = Ok (provider_LightBlock p (cl_calls c) h, count_call c).
Proof. reflexivity. Qed.

Lemma new_header_greater u vals t now d : verifyNewHeaderAndVals u vals t now d = Ok None → ∃ h, sh_Header u = Some h ∧ h_Height t < h_Height h.
Proof.
  unfold verifyNewHeaderAndVals. intros (e & _ & E)%obind_Ok. destruct e; [done|]. unfold header_of in E. destruct (sh_Header u) as [h|]; [|done].
  cbn [outcome_bind] in E. case_decide; [done|]. exists h. split; [done|lia].
Qed.

(** What the answers of the verifier say of the heights. *)
Lemma light_Verify_heights v b p now d l e : light_Verify (fb_Signed v) (fb_Vals v) (fb_Signed b) (fb_Vals b) p now d l = Ok e →
  (e = None → fb_Height v < fb_Height b) ∧
  (∀ got needed, e = Some (ErrNewValSetCantBeTrusted got needed) → fb_Height v < fb_Height b ∧ fb_Height b ≠ i64 (fb_Height v + 1)).
Proof.
  unfold light_Verify, fb_Signed at 1 2, header_of. cbn [sh_Header outcome_bind]. case_decide as Hd.
  - unfold VerifyNonAdjacent, fb_Signed at 1 2, header_of. cbn [sh_Header outcome_bind]. rewrite decide_False by tauto.
    destruct (HeaderExpired _ _ _); [intros [= <-]; split; [done|]; by intros ? ? [=]|]. intros (e1 & E1 & E)%obind_Ok. destruct e1 as [x|]; [injection E as <-; split; [done|]; by intros ? ? [=]|].
    apply new_header_greater in E1 as (h & [= <-] & Hlt). unfold fb_Height. split; [done|]. intros got needed _. split; [exact Hlt|exact Hd].
  - unfold VerifyAdjacent, fb_Signed at 1 2, header_of. cbn [sh_Header outcome_bind]. rewrite decide_False by tauto.
    destruct (HeaderExpired _ _ _); [intros [= <-]; split; [done|]; by intros ? ? [=]|]. intros (e1 & E1 & E)%obind_Ok. destruct e1 as [x|]; [injection E as <-; split; [done|]; by intros ? ? [=]|].
    apply new_header_greater in E1 as (h & [= <-] & Hlt). unfold fb_Height. split; [done|]. intros got needed ->.
    case_decide; [done|]. unfold verify_commit in E. apply obind_Ok in E as (uh & _ & E). apply obind_Ok in E as (cm & _ & E).
    apply obind_Ok in E as ([r s] & _ & E). by destruct r.
Qed.

(** The pivot lies strictly between. *)
Lemma pivot_between v t : 0 < v → v + 1 < t → 9 * t < 2 ^ 63 → v < pivot v t < t.
Proof.
  intros Hv Ht Hb. unfold pivot, verifySkippingNumerator, verifySkippingDenominator.
  rewrite (i64_id (t - v)) by lia. rewrite (i64_id ((t - v) * 9)) by lia. rewrite Z.quot_div_nonneg by lia.
  assert (1 ≤ (t - v) * 9 / 16) by (apply Z.div_le_lower_bound; lia). assert ((t - v) * 9 / 16 < t - v) by (apply Z.div_lt_upper_bound; lia).
  rewrite i64_id by lia. lia.
Qed.

(** One turn of the loop. *)
Lemma skip_loop_step n source now v cache d tr c b : cache !! d = Some b → skip_loop (S n) source now v cache d tr c = 
  match light_Verify (fb_Signed v) (fb_Vals v) (fb_Signed b) (fb_Vals b) (cl_trustingPeriod c) now (cl_maxClockDrift c) (cl_trustLevel c) with
  | Ok None => if decide (d = 0%nat) then Ok (inl (tr ++ [b]), c) else skip_loop n source now b (take d cache) 0 (tr ++ [b]) c
  | Ok (Some (ErrNewValSetCantBeTrusted got needed)) =>
      if decide (S d = length cache) then
          match provider_LightBlock source (cl_calls c) (pivot (fb_Height v) (fb_Height b)) with
        | inl ib => skip_loop n source now v (cache ++ [ib; ib]) (S d) tr (count_call c)
        | inr e => if benign e then Ok (inr (ErrLight (ErrNewValSetCantBeTrusted got needed)), count_call c)
                     else Ok (inr (ErrVerificationFailed (fb_Height v) (pivot (fb_Height v) (fb_Height b)) (ErrProvider e)), count_call c)
          end
        else skip_loop n source now v cache (S d) tr c
  | Ok (Some e) => Ok (inr (ErrVerificationFailed (fb_Height v) (fb_Height b) (ErrLight e)), c)
  | Panic => Panic | Diverge => Diverge end.
Proof.
  intros Eb. cbn [skip_loop]. rewrite Eb. unfold bind, gets, lift, id. cbn [outcome_bind]. destruct (light_Verify _ _ _ _ _ _ _ _) as [e| |]; [|done|done].
    cbn [outcome_bind]. destruct e as [e|]; [|by destruct (decide (d = 0%nat))]. destruct e; try reflexivity. destruct (decide (S d = length cache)); [|reflexivity]. rewrite ask_run. cbn [outcome_bind].
    destruct (provider_LightBlock _ _ _) as [ib|pe]; [reflexivity|]. by destruct (benign pe).
Qed.

Lemma skip_loop_halts H : 9 * H < 2 ^ 63 → ∀ a m k source now v cache d tr c lst, 0 < fb_Height v → Forall (λ b, fb_Height b ≤ H) cache →
  (d < length cache)%nat → last cache = Some lst → Z.to_nat (H - fb_Height v) = a → Z.to_nat (fb_Height lst - fb_Height v) = m → (length cache - d = k)%nat →
  ∃ n0, ∀ n, (n0 ≤ n)%nat → halts (skip_loop n source now v cache d tr c).
Proof.
  intros HH9 a. induction (lt_wf a) as [a _ IHa]. intros m. induction (lt_wf m) as [m _ IHm]. intros k. induction (lt_wf k) as [k _ IHk].
  intros source now v cache d tr c lst Hv Hc Hd Hl Ea Em Ek. destruct (lookup_lt_is_Some_2 cache d Hd) as [b Eb].
  assert (Hb : fb_Height b ≤ H) by (rewrite Forall_lookup in Hc; by apply (Hc d)).
  pose proof (light_Verify_halts (fb_Signed v) (fb_Vals v) (fb_Signed b) (fb_Vals b) (cl_trustingPeriod c) now (cl_maxClockDrift c) (cl_trustLevel c)) as Hh.
  assert (Hstep := λ n, skip_loop_step n source now v cache d tr c b Eb).
  pose proof (light_Verify_heights v b (cl_trustingPeriod c) now (cl_maxClockDrift c) (cl_trustLevel c)) as Hheights.
  destruct (light_Verify _ _ _ _ _ _ _ _) as [e| |]; [|by exists 1%nat; intros [|n] Hn; [lia|rewrite Hstep]|by destruct Hh].
  destruct (Hheights e eq_refl) as [HN HT]. clear Hheights Hh. destruct e as [e|].
  - destruct e as [| | | |got needed| |]; try (by exists 1%nat; intros [|n] Hn; [lia|rewrite Hstep]).
    destruct (HT got needed eq_refl) as [Hlt Hadj]. rewrite i64_id in Hadj by lia. case_decide as Hend.
    + assert (lst = b) as ->. { rewrite last_lookup, <-Hend in Hl. cbn in Hl. congruence. }
      pose proof (pivot_between (fb_Height v) (fb_Height b) Hv ltac:(lia) ltac:(lia)) as Hp.
      destruct (provider_LightBlock source (cl_calls c) (pivot (fb_Height v) (fb_Height b))) as [ib|pe] eqn:Ep.
      * assert (Hib : fb_Height ib = pivot (fb_Height v) (fb_Height b)) by (eapply HH; [exact Ep|lia]).
        destruct (IHm (Z.to_nat (fb_Height ib - fb_Height v)) ltac:(lia) (length (cache ++ [ib; ib]) - S d)%nat source now v (cache ++ [ib; ib]) (S d) tr (count_call c) ib) as [n0 Hn0]; try done.
        { apply Forall_app_2; [done|]. repeat constructor; lia. }
        { rewrite length_app. cbn. lia. }
        { rewrite last_app. done. }
        exists (S n0). intros [|n] Hn; [lia|]. rewrite Hstep. apply Hn0. lia.
      * exists 1%nat. intros [|n] Hn; [lia|]. rewrite Hstep. by destruct (benign pe).
    + destruct (IHk (length cache - S d)%nat ltac:(lia) source now v cache (S d) tr c lst) as [n0 Hn0]; try done; [lia|].
      exists (S n0). intros [|n] Hn; [lia|]. rewrite Hstep. apply Hn0. lia.
  - specialize (HN eq_refl). case_decide as Hd0; [by exists 1%nat; intros [|n] Hn; [lia|rewrite Hstep]|].
    destruct (last (take d cache)) as [lst'|] eqn:El; [|apply last_None in El; destruct cache, d; done].
    destruct (IHa (Z.to_nat (H - fb_Height b)) ltac:(lia) (Z.to_nat (fb_Height lst' - fb_Height b)) (length (take d cache) - 0)%nat source now b (take d cache) 0%nat (tr ++ [b]) c lst') as [n0 Hn0]; try done; [lia|by apply Forall_take|rewrite length_take; lia|].
    exists (S n0). intros [|n] Hn; [lia|]. rewrite Hstep. apply Hn0. lia.
Qed.

(** C21: Verification by skipping comes to an end: with providers that answer a request for a height with a block of that height, and for a
    positive trusted height and a new height below 2^63 / 9 (which keeps the computation of the pivots from overflowing), enough fuel lets it
    return, however far the block is and whatever blocks or errors the source sends. *)
Theorem verifySkipping_returns source t b now c : 0 < fb_Height t → 9 * fb_Height b < 2 ^ 63 →
  ∃ n0, ∀ n, (n0 ≤ n)%nat → verifySkipping n source t b now c ≠ Diverge.
Proof.
  intros Ht Hb. eapply (skip_loop_halts (fb_Height b)); try done; [by apply Forall_singleton|cbn; lia].
Qed.

(** At greater heights the product overflows: between these two heights the pivot is 0, which providers take for their latest block. *)
Lemma pivot_overflows : pivot 3 2049638230412172398 = 0.
Proof. vm_compute. reflexivity. Qed.

(** A block that cannot be trusted yet, from a source that answers with it again when asked for the pivot, keeps the loop going for ever. *)
Lemma skip_loop_stuck source t b now period drift lvl got needed :
  light_Verify (fb_Signed t) (fb_Vals t) (fb_Signed b) (fb_Vals b) period now drift lvl = Ok (Some (ErrNewValSetCantBeTrusted got needed)) →
  (∀ n, provider_LightBlock source n (pivot (fb_Height t) (fb_Height b)) = inl b) →
  ∀ n cache d tr c, cl_trustingPeriod c = period → cl_maxClockDrift c = drift → cl_trustLevel c = lvl → Forall (eq b) cache → (d < length cache)%nat →
  skip_loop n source now t cache d tr c = Diverge.
Proof.
  intros HV Hp. induction n as [|n IH]; intros cache d tr c E1 E2 E3 Hc Hd; [done|].
  destruct (lookup_lt_is_Some_2 cache d Hd) as [b' Eb]. assert (b = b') as <- by (by eapply Forall_lookup_1 in Eb).
  rewrite (skip_loop_step n source now t cache d tr c b Eb), E1, E2, E3, HV. case_decide as Hl; [|apply IH; try done; lia].
  rewrite Hp. apply IH; try done; [apply Forall_app_2; [done|by repeat constructor]|]. rewrite length_app. cbn. lia.
Qed.
Lemma verifySkipping_stuck source t b now c got needed n :
  light_Verify (fb_Signed t) (fb_Vals t) (fb_Signed b) (fb_Vals b) (cl_trustingPeriod c) now (cl_maxClockDrift c) (cl_trustLevel c) =
    Ok (Some (ErrNewValSetCantBeTrusted got needed)) →
  (∀ n, provider_LightBlock source n (pivot (fb_Height t) (fb_Height b)) = inl b) → verifySkipping n source t b now c = Diverge.
Proof. intros HV Hp. eapply skip_loop_stuck; try done; [by apply Forall_singleton|cbn; lia]. Qed.
End skipping.

(** ** Where the client is fooled *)
Section flaws.
Context {CR : Crypto} {BC : BlockCodec} {GS : GoSort} {PV : Providers}.

Lemma first_lowest c h b : ldb_blocks (ls_db (cl_store c)) !! (ls_prefix (cl_store c), h) = Some b → FirstTrustedHeight c ≤ h.
Proof.
  intros Hb. assert (h ∈ heights (cl_store c)) as Hin by (apply heights_elem; by exists b). unfold FirstTrustedHeight, FirstLightBlockHeight.
  pose proof (heights_sorted (cl_store c)) as Hs. destruct (heights (cl_store c)) as [|x l]; [by apply elem_of_nil in Hin|]. cbn.
  apply StronglySorted_inv in Hs as [_ Hf]. rewrite Forall_forall in Hf. apply elem_of_cons in Hin as [->|Hin]; [lia|]. specialize (Hf h Hin). lia.
Qed.

Lemma below_first_untrusted h c : 0 < h → h < FirstTrustedHeight c → TrustedLightBlock h c = Ok (inr ErrNotFound).
Proof.
  intros Hh Hf. assert (LastTrustedHeight c ≠ -1) as Hl.
  { intros E. unfold LastTrustedHeight, LastLightBlockHeight in E. unfold FirstTrustedHeight, FirstLightBlockHeight in Hf.
    pose proof (heights_sorted (cl_store c)) as Hs. destruct (heights (cl_store c)) as [|x l]; [cbn in Hf; lia|]. cbn in Hf.
    destruct (last (x :: l)) as [y|] eqn:Ey; [|by apply last_None in Ey]. cbn in E. subst y. apply last_Some_elem_of in Ey.
    apply StronglySorted_inv in Hs as [_ Hs]. rewrite Forall_forall in Hs. apply elem_of_cons in Ey as [Ex|Ey]; [lia|]. specialize (Hs _ Ey). lia. }
  pose proof (first_le_last c Hl) as Hle. unfold TrustedLightBlock, compareWithLatestHeight. cbv zeta.
  rewrite (decide_False (P := LastTrustedHeight c = -1)) by done. do 3 rewrite decide_False by lia.
  unfold get_LightBlock. rewrite decide_False by lia. cbn [outcome_bind].
  destruct (ldb_blocks _ !! _) as [b|] eqn:Eb; [|done]. apply first_lowest in Eb. lia.
Qed.

(** Saving a block below the latest one. *)
Definition saved (b : LBlock) (s : LStore) : LStore :=
  mkLStore (mkLightDB (<[(ls_prefix s, fb_Height b) := b]> (ldb_blocks (ls_db s))) (Some (u16 (ls_size s + 1)))) (ls_prefix s) (u16 (ls_size s + 1)).
Lemma save_below_run b c latest : cl_latest c = Some latest → cl_pruningSize c = 0 → 0 < fb_Height b → fb_Height b ≤ fb_Height latest →
  updateTrustedLightBlock b c = Ok (tt, set_trusted (saved b (cl_store c)) (Some latest) c).
Proof.
  intros El Hp Hb Hle. unfold updateTrustedLightBlock, on_store, SaveLightBlock. rewrite decide_False by lia.
  unfold bind, zoom, modify. cbn [outcome_bind cl_pruningSize set_trusted]. rewrite Hp, decide_False by lia.
  cbn [cl_latest set_trusted]. rewrite El. by rewrite decide_False by lia.
Qed.

(** C37: Backwards verification does not look at the block it is asked to verify: a primary that answers the first request for the height
    below the first trusted one with any block, and the second with the block of the chain, makes the client return and store the former. *)
Theorem backwards_unverified fuel h now c latest first forged b : 0 < h → h + 1 < 2 ^ 63 → cl_latest c = Some latest → h < fb_Height latest →
  FirstTrustedHeight c = h + 1 → ldb_blocks (ls_db (cl_store c)) !! (ls_prefix (cl_store c), h + 1) = Some first → fb_Height first = h + 1 →
  provider_LightBlock (cl_primary c) (cl_calls c) h = inl forged → fb_Height forged = h →
  provider_LightBlock (cl_primary c) (S (cl_calls c)) h = inl b → fb_Height b = h → VerifyBackwards (fb_Header b) (fb_Header first) = Ok None →
  cl_pruningSize c = 0 →
  ∃ c', VerifyLightBlockAtHeight (S (S fuel)) h now c = Ok (inl forged, c') ∧
    ldb_blocks (ls_db (cl_store c')) !! (ls_prefix (cl_store c'), h) = Some forged.
Proof.
  intros Hh Hmax El Hlt Ef Efirst Hfirst P1 Hforged P2 Hb Ev Hp. unfold VerifyLightBlockAtHeight. rewrite decide_False by lia.
  rewrite (bind_run _ _ c c c) by reflexivity. rewrite (bind_run _ _ c (inr ErrNotFound) c).
  2:{ unfold lift. rewrite below_first_untrusted by lia. reflexivity. }
  rewrite (bind_run _ _ c (inl forged) (count_call c)).
  2:{ unfold lightBlockFromPrimary. rewrite (bind_run _ _ c c c) by reflexivity. rewrite (bind_run _ _ _ _ _ (ask_run _ _ _)). by rewrite P1. }
  assert (Eb : backwards (S (S fuel)) (fb_Header first) (fb_Header forged) (count_call c) = Ok (None, count_call (count_call c))).
  { cbn [backwards]. unfold fb_Height in Hfirst, Hforged, Hb. rewrite decide_False by lia. rewrite Hfirst, (i64_id (h + 1 - 1)) by lia. replace (h + 1 - 1) with h by lia.
    rewrite (bind_run _ _ _ (inl b) (count_call (count_call c))).
    2:{ unfold lightBlockFromPrimary. rewrite (bind_run _ _ _ (count_call c) (count_call c)) by reflexivity. rewrite (bind_run _ _ _ _ _ (ask_run _ _ _)). cbn [cl_primary cl_calls count_call]. by rewrite P2. }
    rewrite (bind_run _ _ _ None (count_call (count_call c))) by (unfold lift; by rewrite Ev). rewrite decide_True by lia. reflexivity. }
  rewrite (bind_run _ _ _ None (set_trusted (saved forged (cl_store c)) (cl_latest c) (count_call (count_call c)))).
  - eexists. split; [reflexivity|]. cbn. rewrite <-Hforged at 1. apply lookup_insert_eq.
  - unfold verifyLightBlock. rewrite (bind_run _ _ _ (count_call c) (count_call c)) by reflexivity. change (cl_latest (count_call c)) with (cl_latest c). rewrite El.
    rewrite (bind_run _ _ _ None (count_call (count_call c))).
    + rewrite (bind_run _ _ _ _ _ (save_below_run forged (count_call (count_call c)) latest El Hp ltac:(lia) ltac:(lia))). reflexivity.
    + rewrite decide_False by lia. change (FirstTrustedHeight (count_call c)) with (FirstTrustedHeight c). rewrite Ef, decide_True by lia.
      rewrite (bind_run _ _ _ (Some first) (count_call c)); [exact Eb|]. unfold lift, get_LightBlock. rewrite decide_False by lia. cbn. by rewrite Efirst.
Qed.

(** A comparison with a witness that has another block of the height. *)
Lemma compare_run h w i lb x y c : provider_LightBlock w (cl_calls c) (fb_Height h) = inl lb → fb_Hash h = Ok x → fb_Hash lb = Ok y → x ≠ y →
  compareNewHeaderWithWitness h w i c = Ok ([MsgConflict lb i; MsgMatched], count_call c).
Proof.
  intros P Ex Ey Hne. unfold compareNewHeaderWithWitness. rewrite (bind_run _ _ _ _ _ (ask_run _ _ _)), P. unfold compare_hashes, bind, lift, ret.
  rewrite Ex, Ey. cbn [outcome_bind]. by rewrite decide_False.
Qed.

(** C38: One witness makes the detector deaf to the others: it sends another block than the primary, which it cannot defend, and the
    comparison reports a conflict and then a match, which uses up the place of the second witness; so a header is trusted although no
    witness has it, and the honest objection of the second witness is not read. *)
Theorem detector_deafened fuel t0 trace h now c w0 w1 lb0 lb1 x y0 y1 : last (t0 :: trace) = Some h → fb_Height t0 < fb_Height h →
  cl_witnesses c = [w0; w1] → schedule (S (S (cl_calls c))) = [0%nat; 0%nat] →
  provider_LightBlock w0 (cl_calls c) (fb_Height h) = inl lb0 → provider_LightBlock w1 (S (cl_calls c)) (fb_Height h) = inl lb1 →
  fb_Hash h = Ok x → fb_Hash lb0 = Ok y0 → fb_Hash lb1 = Ok y1 → x ≠ y0 → x ≠ y1 → fb_Height lb0 = fb_Height h →
  provider_LightBlock w0 (S (S (S (cl_calls c)))) (fb_Height t0) = inr ErrNoResponse →
  ∃ c', detectDivergence fuel (t0 :: trace) now c = Ok (None, c') ∧ cl_witnesses c' = [w1] ∧ cl_reports c' = cl_reports c.
Proof.
  intros El Ht Ew Es P0 P1 Ex Ey0 Ey1 N0 N1 Hlb P2. unfold detectDivergence. rewrite El.
  rewrite decide_False by (destruct trace; [cbn in El; injection El as ->; lia|cbn; lia]).
  rewrite (bind_run _ _ c c c) by reflexivity. rewrite Ew, decide_False by done.
  rewrite (bind_run _ _ _ [MsgConflict lb0 0; MsgMatched] (count_call (count_call (count_call c)))).
  2:{ unfold collect. cbn [compare_all]. rewrite (bind_run _ _ _ [[MsgConflict lb0 0; MsgMatched]; [MsgConflict lb1 1; MsgMatched]] (count_call (count_call c))).
      - unfold next_schedule, bind, gets, modify, ret, id. cbn [outcome_bind cl_calls count_call]. rewrite Es. reflexivity.
      - rewrite (bind_run _ _ _ _ _ (compare_run h w0 0 lb0 x y0 c P0 Ex Ey0 N0)).
        rewrite (bind_run _ _ _ [[MsgConflict lb1 1; MsgMatched]] (count_call (count_call c))); [reflexivity|].
        by rewrite (bind_run _ _ _ _ _ (compare_run h w1 1 lb1 x y1 (count_call c) P1 Ex Ey1 N1)). }
  rewrite (bind_run _ _ _ (inl (true, [0%nat])) (count_call (count_call (count_call (count_call c))))).
  - rewrite (bind_run _ _ _ (Some [w1]) (count_call (count_call (count_call (count_call c))))).
    + eexists. split; [reflexivity|]. split; reflexivity.
    + unfold lift. assert (removeWitnesses [0%nat] [w0; w1] = Ok (Some [w1])) as -> by (vm_compute; reflexivity). reflexivity.
  - cbn [detect_loop]. rewrite (bind_run _ _ _ None (count_call (count_call (count_call (count_call c))))); [reflexivity|].
    unfold handleConflictingHeaders. rewrite (bind_run _ _ _ (count_call (count_call (count_call c))) (count_call (count_call (count_call c)))) by reflexivity.
    change (cl_witnesses (count_call (count_call (count_call c)))) with (cl_witnesses c). rewrite Ew. cbn [lookup list_lookup].
    rewrite (bind_run _ _ _ (inr (ErrProvider ErrNoResponse)) (count_call (count_call (count_call (count_call c))))); [reflexivity|].
    unfold examineConflictingHeaderAgainstTrace. rewrite decide_False by lia. cbn [examine_loop]. rewrite decide_False by lia. rewrite decide_False by lia.
    rewrite (bind_run _ _ _ _ _ (ask_run _ _ _)). cbn [cl_calls count_call]. by rewrite P2.
Qed.

Lemma interleave_single {A} (x : A) sched : interleave sched [[x]] = [x].
Proof.
  assert (∀ s, interleave s [@nil A] = []) as Hn by (intros s; induction s as [|[|i] s IH]; [done|exact IH|exact IH]).
  induction sched as [|[|i] sched IH]; [done| |exact IH]. cbn. by rewrite Hn.
Qed.

(** The only witness of a client becomes its primary and stays its witness, while the call fails. *)
Lemma lone_witness_kept h c w b : cl_witnesses c = [w] → provider_LightBlock w (cl_calls c) h = inl b →
  ∃ c', findNewPrimary h true c = Ok (inr ErrNoWitnesses, c') ∧ cl_primary c' = w ∧ cl_witnesses c' = [w].
Proof.
  intros Ew P. unfold findNewPrimary. rewrite (bind_run _ _ c c c) by reflexivity. rewrite Ew, decide_False by done.
  rewrite (bind_run _ _ _ [(0%nat, inl b)] (count_call c)).
  2:{ cbn [ask_all]. rewrite (bind_run _ _ _ _ _ (ask_run _ _ _)), P. reflexivity. }
  rewrite (bind_run _ _ _ (schedule (cl_calls (count_call c))) (count_call (count_call c))) by reflexivity. cbn [fmap list_fmap]. rewrite interleave_single.
  cbn [find_loop]. rewrite (bind_run _ _ _ (count_call (count_call c)) (count_call (count_call c))) by reflexivity.
  change (cl_witnesses (count_call (count_call c))) with (cl_witnesses c). rewrite Ew. cbn [lookup list_lookup]. eexists. split; [reflexivity|]. done.
Qed.

(** Rolling back never removes the latest block, which is restored. *)
Lemma cleanup_loop_keeps n : ∀ h p c u c' k b, keyed (ldb_blocks (ls_db (cl_store c))) → p ≤ k → cleanup_loop n h p c = Ok (u, c') →
  ldb_blocks (ls_db (cl_store c)) !! (ls_prefix (cl_store c), k) = Some b →
  ldb_blocks (ls_db (cl_store c')) !! (ls_prefix (cl_store c'), k) = Some b.
Proof.
  induction n as [|n IH]; intros h p c u c' k b Hk Hp; cbn [cleanup_loop]; [done|].
  intros (x & c0 & [-> <-]%gets_Ok & (o & c1 & [Eo <-]%lift_Ok & E)%bind_Ok)%bind_Ok Hb. destruct o as [b'|]; [|by apply ret_Ok in E as [_ <-]].
  case_decide; [by apply ret_Ok in E as [_ <-]|]. apply bind_Ok in E as (u1 & c1 & E1 & E). apply LightBlockBefore_Ok in Eo as (h' & Hlt & Eo). unfold id in Eo.
  destruct (Hk _ _ _ Eo) as [Hh _]. unfold on_store, zoom, DeleteLightBlock in E1. rewrite Hh in E, E1. case_decide; [done|]. injection E1 as _ <-.
  eapply IH in E; [exact E| |lia|].
  - cbn. intros p' h2 b2 [_ H2]%lookup_delete_Some. by apply (Hk p' h2 b2).
  - cbn. rewrite lookup_delete_ne; [done|]. intros [= ->]. lia.
Qed.
Lemma cleanupAfter_keeps_latest h c e c' latest : keyed (ldb_blocks (ls_db (cl_store c))) → cl_latest c = Some latest →
  ldb_blocks (ls_db (cl_store c)) !! (ls_prefix (cl_store c), fb_Height latest) = Some latest → cleanupAfter h c = Ok (e, c') →
  ldb_blocks (ls_db (cl_store c')) !! (ls_prefix (cl_store c'), fb_Height latest) = Some latest.
Proof.
  intros Hk El Hl. unfold cleanupAfter. intros (x & c0 & [-> <-]%gets_Ok & E)%bind_Ok. unfold id in E. rewrite El in E.
  apply bind_Ok in E as (u & c1 & E1 & (u2 & c2 & ->%modify_Ok & E)%bind_Ok). eapply cleanup_loop_keeps in E1; [|done|reflexivity|exact Hl].
  unfold restoreTrustedLightBlock in E. apply bind_Ok in E as (x & c2 & [-> <-]%gets_Ok & E). case_decide; [|by apply ret_Ok in E as [_ <-]].
  apply bind_Ok in E as (o & c2 & [_ <-]%lift_Ok & E). destruct o; [|by apply ret_Ok in E as [_ <-]].
  by apply bind_Ok in E as (u3 & c3 & ->%modify_Ok & [_ <-]%ret_Ok).
Qed.
End flaws.
