(* ===== verification/TmClientSample.v ===== *)
(** A concrete light client: a chain of one validator with committed headers of heights 3 and 5, two providers that have both, and others
    that lie. *)

From S2P Require Import Prelude TmBits TmValidators TmPriority TmValUpdate TmTypes TmCommit TmVotes TmVoteInv TmVoteSafety.
From S2P Require Import TmMerkle TmPartSet TmPrivval TmHeightVotes TmBlock TmStore TmState TmConsensus TmConsVotes TmConsInv TmConsStep TmConsSafety.
From S2P Require Import TmStoreFacts TmBlockFacts TmLight TmEvidence TmLightStore TmClient TmClientFacts TmClientRuns.

#[local] Existing Instance merge_GoSort.
#[local] Existing Instance plain_codec.

(** ** The chain *)
Definition cs_vals : ValidatorSet := mkValidatorSet (Validators lc_vals) (Some (mkValInfo (replicate 20 9) (Some lc_key) 10)) 10.
Definition cs_id (height time : Z) : BlockID :=
  mkBlockID (match Header_Hash (Some (lc_header height time)) with Ok (Some h) => h | _ => [] end) (mkPartSetHeader 1 (replicate 32 4)).
Definition cs_commit (height time : Z) : Commit := mkCommit height 0 (cs_id height time) [mkCommitSig BlockIDFlagCommit (replicate 20 9) (time + 1) lc_key].
Definition cs_block (height time : Z) : LBlock := mkLBlock (lc_header height time) (cs_commit height time) cs_vals.
Definition cs_vote (height time : Z) : Vote := mkVote PrecommitType height 0 (cs_id height time) (time + 1) (replicate 20 9) 0 lc_key.
Definition cs_message (height time : Z) : bytes := match VoteSignBytes sample_MarshalVote [7] (cs_vote height time) with Ok m => m | _ => [] end.

(** The validator has signed for the two headers and nothing else. *)
Definition cs_m3 : bytes := Eval vm_compute in cs_message 3 30.
Definition cs_m5 : bytes := Eval vm_compute in cs_message 5 50.
#[local] Instance cs_crypto : Crypto := {|
  VerifySignature := λ k msg sig, bool_decide ((msg = cs_m3 ∨ msg = cs_m5) ∧ sig = k);
  key_Address := λ k, take 20 k;
  MarshalVote := sample_MarshalVote; UnmarshalVote := sample_UnmarshalVote;
  MarshalProposal := sample_MarshalProposal; UnmarshalProposal := sample_UnmarshalProposal |}.

Definition cs_hashed : list bytes := header_inputs (lc_header 3 30) ++ header_inputs (lc_header 5 50) ++ list_inputs (Validators lc_vals).
Lemma cs_table : no_collision_table sample_Sum cs_hashed = true.
Proof. vm_compute. reflexivity. Qed.
Lemma cs_fresh_hashes : no_collision Sum (λ x, x ∈ cs_hashed).
Proof. exact (no_collision_table_ok _ _ cs_table). Qed.

Lemma cs_sig3 : VoteSignBytes sample_MarshalVote [7] (cs_vote 3 30) = Ok cs_m3.
Proof. vm_compute. reflexivity. Qed.
Lemma cs_sig5 : VoteSignBytes sample_MarshalVote [7] (cs_vote 5 50) = Ok cs_m5.
Proof. vm_compute. reflexivity. Qed.
Lemma cs_id3 : Header_Hash (Some (lc_header 3 30)) = Ok (Some (bid_Hash (cs_id 3 30))).
Proof. vm_compute. reflexivity. Qed.
Lemma cs_id5 : Header_Hash (Some (lc_header 5 50)) = Ok (Some (bid_Hash (cs_id 5 50))).
Proof. vm_compute. reflexivity. Qed.

Lemma cs_chain : Chain [7] (λ _, Validators lc_vals) {[lc_key]} (λ x, x ∈ cs_hashed).
Proof.
  split.
  - intros k msg sig v _ [[-> | ->] _]%bool_decide_eq_true Hm _ _; cbn [MarshalVote cs_crypto] in Hm.
    + destruct (sign_bytes_about (CR := cs_crypto) [7] lc_marshal_inj v (cs_vote 3 30) cs_m3 Hm cs_sig3) as (_ & _ & _ & <-).
      exists (lc_header 3 30). split; [exact cs_id3|]. split; [apply lc_genuine|]. intros x Hx. apply elem_of_app. by left.
    + destruct (sign_bytes_about (CR := cs_crypto) [7] lc_marshal_inj v (cs_vote 5 50) cs_m5 Hm cs_sig5) as (_ & _ & _ & <-).
      exists (lc_header 5 50). split; [exact cs_id5|]. split; [apply lc_genuine|]. intros x Hx. apply elem_of_app. right. apply elem_of_app. by left.
  - intros _. repeat constructor.
  - intros _. vm_compute. discriminate.
  - intros _. vm_compute. discriminate.
  - intros _ x Hx. do 2 (apply elem_of_app; right). done.
Qed.

(** ** Honest providers *)
Definition honest_block (h : Z) : LBlock + provider_error :=
  if decide (h = 3) then inl (cs_block 3 30) else if decide (h = 5 ∨ h = 0) then inl (cs_block 5 50) else inr ErrLightBlockNotFound.
Definition cs_providers : Providers := {|
  provider_LightBlock := λ _ _, honest_block; provider_ChainID := λ _, [7]; schedule := λ _, []; confirmationFn := λ _, true |}.

Lemma cs_basic3 : LightBlock_ValidateBasic [7] (mkLightBlock (Some (fb_Signed (cs_block 3 30))) (Some cs_vals)) = Ok None.
Proof. vm_compute. reflexivity. Qed.
Lemma cs_basic5 : LightBlock_ValidateBasic [7] (mkLightBlock (Some (fb_Signed (cs_block 5 50))) (Some cs_vals)) = Ok None.
Proof. vm_compute. reflexivity. Qed.

Lemma cs_honest (p n : nat) h b : honest_block h = inl b → fresh [7] (λ x, x ∈ cs_hashed) b ∧ (h ≠ 0 → fb_Height b = h).
Proof.
  unfold honest_block. case_decide; [|case_decide; [|discriminate]]; intros [= <-]; subst; (split; [|intros ?; cbn; lia]).
  - split; [exact cs_basic3|by right|]. intros x [(uh & [= <-] & Hx)|Hx]; [apply elem_of_app; by left|do 2 (apply elem_of_app; right); exact Hx].
  - split; [exact cs_basic5|by right|]. intros x [(uh & [= <-] & Hx)|Hx]; [apply elem_of_app; right; apply elem_of_app; by left|do 2 (apply elem_of_app; right); exact Hx].
Qed.

(** ** A run: the client is set up at height 3 and moves on to 5 *)
Definition cs_empty : LStore := NewLStore (mkLightDB ∅ None) [].
Definition cs_options : TrustOptions := mkTrustOptions 1000 3 (bid_Hash (cs_id 3 30)).
Definition cs_new : outcome (Client + client_error) :=
  NewClient (PV := cs_providers) [7] cs_options skipping DefaultTrustLevel 5 10 0 [1%nat] cs_empty.
Definition left_of {A B} (o : outcome (A + B)) : option A := match o with Ok (inl c) => Some c | _ => None end.
Definition moved_of {A B S} (o : outcome ((option A + B) * S)) : option (A * S) := match o with Ok (inl (Some b), s) => Some (b, s) | _ => None end.
Definition cs_first : option Client := left_of cs_new.
Definition cs_moved : option (LBlock * Client) :=
  c ← cs_first; moved_of (client_Update (PV := cs_providers) 5 60 c).

Lemma cs_options_honest : honest_options [7] (λ _, Validators lc_vals) (λ x, x ∈ cs_hashed) cs_options.
Proof. exists (lc_header 3 30). split; [apply lc_genuine|]. split; [|exact cs_id3]. intros x Hx. apply elem_of_app. by left. Qed.

Local Abbreviation cs_run := (client_run (PV := cs_providers) [7] (λ _, Validators lc_vals) (λ x, x ∈ cs_hashed)).
Lemma left_some {A B} (o : outcome (A + B)) c : left_of o = Some c → o = Ok (inl c).
Proof. destruct o as [[a|]| |]; try done. by intros [= ->]. Qed.
Lemma moved_some {A B S} (o : outcome ((option A + B) * S)) b s : moved_of o = Some (b, s) → o = Ok (inl (Some b), s).
Proof. destruct o as [[[[a|]|] s']| |]; try done. by intros [= -> ->]. Qed.
Lemma cs_first_run c : cs_first = Some c → cs_run c.
Proof.
  intros E. pose proof (left_some cs_new c E) as E'. refine (run_new _ _ _ _ _ _ _ _ _ _ _ _ c _ _ cs_options_honest E').
  - intros h b. cbn. by rewrite lookup_empty.
  - vm_compute. by split_and!.
Qed.
Lemma cs_moved_run b c : cs_moved = Some (b, c) → cs_run c.
Proof.
  unfold cs_moved. intros (c0 & E0 & E)%bind_Some. exact (run_update _ _ _ _ _ c0 _ c (cs_first_run c0 E0) (moved_some _ b c E)).
Qed.

(** The client ends with the two blocks in its store, and they are trusted blocks. *)
Definition cs_stored (h : Z) : option LBlock := bc ← cs_moved; ldb_blocks (ls_db (cl_store bc.2)) !! (ls_prefix (cl_store bc.2), h).
Lemma cs_moved_some : match cs_stored 3, cs_stored 5 with Some a, Some b => fb_Height a + fb_Height b | _, _ => 0 end = 8.
Proof. vm_compute. reflexivity. Qed.

Lemma both_some {A} (f : A → A → Z) (o o' : option A) : match o, o' with Some a, Some b => f a b | _, _ => 0 end = 8 → ∃ a b, o = Some a ∧ o' = Some b ∧ f a b = 8.
Proof. destruct o as [a|], o' as [b|]; try done. by exists a, b. Qed.

Lemma light_client_store_sound_witness : ∃ b5 c a b, cs_moved = Some (b5, c) ∧ cs_stored 3 = Some a ∧ cs_stored 5 = Some b ∧
  trusted_block (CR := cs_crypto) [7] (λ _, Validators lc_vals) a ∧ trusted_block (CR := cs_crypto) [7] (λ _, Validators lc_vals) b.
Proof.
  pose proof cs_moved_some as Hm. apply (both_some (λ a b, fb_Height a + fb_Height b)) in Hm as (a & b & E3 & E5 & _).
  pose proof E3 as E3'. pose proof E5 as E5'. unfold cs_stored in E3', E5'.
  apply bind_Some in E3' as ([b5 c] & E & E3'). apply bind_Some in E5' as ([b5' c'] & Em' & E5'). assert ((b5', c') = (b5, c)) as Eq by congruence.
  injection Eq as -> ->. exists b5, c, a, b.
  destruct (light_client_store_sound (PV := cs_providers) (CR := cs_crypto) (CL := plain_laws) lc_simple [7] (λ _, Validators lc_vals) {[lc_key]} (λ x, x ∈ cs_hashed)
    cs_fresh_hashes (CH := cs_chain) cs_honest c (cs_moved_run b5 c E)) as (Hs & _).
  split; [exact E|]. split; [exact E3|]. split; [exact E5|]. split; [exact (Hs 3 a E3')|exact (Hs 5 b E5')].
Defined.

(** ** Skipping by way of a pivot: the validators change between the heights 3 and 5 *)
Definition sk_key : bytes := replicate 32 2.
Definition sk_list : list Validator := [mkValidator (mkValInfo (replicate 20 9) (Some lc_key) 10) 0; mkValidator (mkValInfo (replicate 20 8) (Some sk_key) 30) 0].
Definition sk_vals : ValidatorSet := mkValidatorSet sk_list None 40.
Definition sk_hash : bytes := match list_hash sk_list with Ok h => h | _ => [] end.
Definition sk_header (height time : Z) (vals next : bytes) : BlockHeader :=
  mkHeader (mkConsensusVersion 11 0) [7] height time 0 0 BlockID_nil None None vals next [] [] [] None (replicate 20 9).
Definition sk_block (h : BlockHeader) (sigs : list CommitSig) (vals : ValidatorSet) : LBlock :=
  mkLBlock h (mkCommit (h_Height h) 0 (mkBlockID (match Header_Hash (Some h) with Ok (Some x) => x | _ => [] end) (mkPartSetHeader 1 (replicate 32 4))) sigs) vals.
Definition sk_block4 : LBlock := sk_block (sk_header 4 40 lc_vals_hash sk_hash) [mkCommitSig BlockIDFlagCommit (replicate 20 9) 41 lc_key] cs_vals.
Definition sk_sigs : list CommitSig := [NewCommitSigAbsent; mkCommitSig BlockIDFlagCommit (replicate 20 8) 51 sk_key].
Definition sk_block5 : LBlock := sk_block (sk_header 5 50 sk_hash sk_hash) sk_sigs sk_vals.
Definition sk_crypto : Crypto := {|
  VerifySignature := λ k msg sig, bool_decide (sig = k); key_Address := λ k, take 20 k;
  MarshalVote := sample_MarshalVote; UnmarshalVote := sample_UnmarshalVote;
  MarshalProposal := sample_MarshalProposal; UnmarshalProposal := sample_UnmarshalProposal |}.
Definition sk_answer (h : Z) : LBlock + provider_error :=
  if decide (h = 4) then inl sk_block4 else if decide (h = 5 ∨ h = 0) then inl sk_block5 else inr ErrLightBlockNotFound.
Definition sk_providers : Providers := {|
  provider_LightBlock := λ _ _, sk_answer; provider_ChainID := λ _, [7]; schedule := λ _, []; confirmationFn := λ _, true |}.
Definition sk_client : Client := mkClient [7] 1000 skipping DefaultTrustLevel 5 0 0 [1%nat] cs_empty (Some (cs_block 3 30)) 0 [].
Lemma sk_heights (p n : nat) h b : sk_answer h = inl b → h ≠ 0 → fb_Height b = h.
Proof. unfold sk_answer. case_decide; [|case_decide; [|discriminate]]; intros [= <-] Hh; cbn; lia. Qed.
Definition trace_heights (o : outcome ((list LBlock + client_error) * Client)) : option (list Z) :=
  match o with Ok (inl tr, _) => Some (fb_Height <$> tr) | _ => None end.
Local Abbreviation sk_run n := (verifySkipping (CR := sk_crypto) (PV := sk_providers) n 0 (cs_block 3 30) sk_block5 60 sk_client).

(** Two turns are not enough, three reach the block through the pivot, and more fuel never hurts. *)
Lemma verifySkipping_returns_witness : sk_run 2 = Diverge ∧ trace_heights (sk_run 3) = Some [3; 4; 5] ∧ ∃ n0, ∀ n, (n0 ≤ n)%nat → sk_run n ≠ Diverge.
Proof.
  split; [vm_compute; reflexivity|]. split; [vm_compute; reflexivity|].
  exact (verifySkipping_returns (CR := sk_crypto) (PV := sk_providers) sk_heights 0 (cs_block 3 30) sk_block5 60 sk_client eq_refl eq_refl).
Defined.

(** A block of a height from which the pivot overflows, signed by nobody the client knows: a provider that has it as its latest block answers
    requests for a height truthfully, and keeps the client asking for ever. *)
Definition far_block : LBlock := sk_block (sk_header 2049638230412172398 50 sk_hash sk_hash) sk_sigs sk_vals.
Definition far_providers : Providers := {|
  provider_LightBlock := λ _ _ h, if decide (h = 0 ∨ h = 2049638230412172398) then inl far_block else inr ErrLightBlockNotFound;
  provider_ChainID := λ _, [7]; schedule := λ _, []; confirmationFn := λ _, true |}.
Lemma far_heights (p n : nat) h b : provider_LightBlock (Providers := far_providers) p n h = inl b → h ≠ 0 → fb_Height b = h.
Proof. cbn. case_decide as Hd; [|discriminate]. intros [= <-] Hh. by destruct Hd as [?| ->]. Qed.
Lemma skipping_never_returns n : verifySkipping (CR := sk_crypto) (PV := far_providers) n 0 (cs_block 3 30) far_block 60 sk_client = Diverge.
Proof. apply (verifySkipping_stuck (CR := sk_crypto) (PV := far_providers) 0 (cs_block 3 30) far_block 60 sk_client 0 3); vm_compute; reflexivity. Qed.

(** ** A primary that answers the same request with two blocks *)
Definition cs_header4 : BlockHeader :=
  mkHeader (mkConsensusVersion 11 0) [7] 4 40 0 0 (cs_id 3 30) None None lc_vals_hash lc_vals_hash [] [] [] None (replicate 20 9).
Definition cs_block4 : LBlock := mkLBlock cs_header4 (cs_commit 3 30) cs_vals.
Definition cs_forged : LBlock := cs_block 3 31.
Definition cs_two_faced : Providers := {|
  provider_LightBlock := λ _ n _, if decide (n = 0%nat) then inl cs_forged else inl (cs_block 3 30);
  provider_ChainID := λ _, [7]; schedule := λ _, []; confirmationFn := λ _, true |}.
Definition cs_late : Client :=
  mkClient [7] 1000 skipping DefaultTrustLevel 5 0 0 [1%nat] (mkLStore (mkLightDB {[([], 4) := cs_block4; ([], 5) := cs_block 5 50]} (Some 2)) [] 2) (Some (cs_block 5 50)) 0 [].

Lemma cs_late_first : FirstTrustedHeight cs_late = 3 + 1.
Proof. vm_compute. reflexivity. Qed.
Lemma cs_backwards : VerifyBackwards (lc_header 3 30) cs_header4 = Ok None.
Proof. vm_compute. reflexivity. Qed.
Lemma cs_late_block : ldb_blocks (ls_db (cl_store cs_late)) !! (ls_prefix (cl_store cs_late), 3 + 1) = Some cs_block4.
Proof. apply lookup_insert_eq. Qed.

(** The forged block has another hash than the header the first trusted block names. *)
Lemma backwards_unverified_witness : fb_Hash cs_forged ≠ Ok (bid_Hash (h_LastBlockID cs_header4)) ∧
  ∃ c', VerifyLightBlockAtHeight (PV := cs_two_faced) 2 3 60 cs_late = Ok (inl cs_forged, c') ∧
    ldb_blocks (ls_db (cl_store c')) !! (ls_prefix (cl_store c'), 3) = Some cs_forged.
Proof.
  split; [vm_compute; discriminate|].
  exact (backwards_unverified (PV := cs_two_faced) 0 3 60 cs_late (cs_block 5 50) cs_block4 cs_forged (cs_block 3 30)
    eq_refl eq_refl eq_refl eq_refl cs_late_first cs_late_block eq_refl eq_refl eq_refl eq_refl eq_refl cs_backwards eq_refl).
Defined.

(** ** A witness that drowns out another *)
Definition cs_drowned : Providers := {|
  provider_LightBlock := λ p n _, if decide (p = 1%nat ∧ n = 0%nat) then inl (cs_block 5 51) else if decide (p = 2%nat) then inl (cs_block 5 52) else inr ErrNoResponse;
  provider_ChainID := λ _, [7]; schedule := λ _, [0%nat; 0%nat]; confirmationFn := λ _, true |}.
Definition cs_two : Client := mkClient [7] 1000 skipping DefaultTrustLevel 5 0 0 [1%nat; 2%nat] cs_empty (Some (cs_block 3 30)) 0 [].
Definition cs_hash (height time : Z) : bytes := bid_Hash (cs_id height time).
Lemma cs_hash50 : fb_Hash (cs_block 5 50) = Ok (cs_hash 5 50). Proof. vm_compute. reflexivity. Qed.
Lemma cs_hash51 : fb_Hash (cs_block 5 51) = Ok (cs_hash 5 51). Proof. vm_compute. reflexivity. Qed.
Lemma cs_hash52 : fb_Hash (cs_block 5 52) = Ok (cs_hash 5 52). Proof. vm_compute. reflexivity. Qed.
Lemma cs_hash_ne1 : cs_hash 5 50 ≠ cs_hash 5 51. Proof. vm_compute. discriminate. Qed.
Lemma cs_hash_ne2 : cs_hash 5 50 ≠ cs_hash 5 52. Proof. vm_compute. discriminate. Qed.

Lemma detector_deafened_witness : ∃ c', detectDivergence (PV := cs_drowned) 5 [cs_block 3 30; cs_block 5 50] 60 cs_two = Ok (None, c') ∧
  cl_witnesses c' = [2%nat] ∧ cl_reports c' = [].
Proof.
  exact (detector_deafened (PV := cs_drowned) 5 (cs_block 3 30) [cs_block 5 50] (cs_block 5 50) 60 cs_two 1 2 (cs_block 5 51) (cs_block 5 52)
    (cs_hash 5 50) (cs_hash 5 51) (cs_hash 5 52) eq_refl eq_refl eq_refl eq_refl eq_refl eq_refl cs_hash50 cs_hash51 cs_hash52 cs_hash_ne1 cs_hash_ne2 eq_refl eq_refl).
Defined.

(** ** Pruning *)
Definition cs_three : LStore := mkLStore (mkLightDB {[([], 3) := cs_block 3 30; ([], 4) := cs_block4; ([], 5) := cs_block 5 50; ([1], 3) := cs_forged]} (Some 3)) [] 3.
Lemma light_Prune_exact_witness : heights (light_Prune 2 cs_three) = [4; 5] ∧ ls_size (light_Prune 2 cs_three) = 2.
Proof.
  destruct (light_Prune_exact 2 cs_three) as (E & [Ha _] & _); [split; vm_compute; reflexivity|lia|].
  rewrite Ha, E. vm_compute. split; reflexivity.
Defined.
