(* ===== verification/TmStateStore.v ===== *)
(** The state store (src/sourcecodes/tendermint/state/store.go): the state of the chain and, by height, the validators, the consensus
    parameters and the responses of the application.

    The database is one map per key prefix.  Sets of validators are stored as their protobuf form and checked when they are read back; a
    failing database and the encodings themselves are left out.  The responses are the results of the transactions. *)

From S2P Require Import Prelude TmBits TmValidators TmPriority TmValUpdate TmTypes TmCommit TmVotes TmVoteInv TmVoteSafety.
From S2P Require Import TmMerkle TmPartSet TmPrivval TmHeightVotes TmBlock TmStore TmState TmExec.

(** ** Data *)
Inductive store_error :=
| ErrProtoValidator | ErrNilPubKey | ErrInvalidSet (e : val_error) | ErrNoValSetForHeight (height : Z) | ErrNoStoredValidators | ErrLastHeightChanged
| ErrPruneHeights | ErrNoConsensusParams | ErrABCIResponsesNotPersisted | ErrNoABCIResponsesForHeight (height : Z) | ErrNoLastResponse | ErrOtherHeight
| ErrStateBlockID.

(** The protobuf form of a set: its total is not stored. *)
Record ValSetProto := mkValSetProto { vp_Validators : list Validator; vp_Proposer : option ValInfo }.
Record ValidatorsInfo := mkValidatorsInfo { vi_LastHeightChanged : Z; vi_ValidatorSet : option ValSetProto }.
Record ConsensusParamsInfo := mkParamsInfo { pi_LastHeightChanged : Z; pi_Params : ConsensusParams }.
(** The state with its sets; the fields of the state for them are not used. *)
Record StateProto := mkStateProto { sp_State : smState; sp_Validators : ValSetProto; sp_Next : ValSetProto; sp_Last : option ValSetProto }.
Definition responses : Type := list (option bytes).

Record StateDB := mkStateDB {
  sd_state : option StateProto;
  sd_vals : gmap Z ValidatorsInfo;
  sd_params : gmap Z ConsensusParamsInfo;
  sd_responses : gmap Z responses;
  sd_last : option (Z * responses);
}.
Definition set_sd_state (x : StateProto) (d : StateDB) : StateDB := mkStateDB (Some x) (sd_vals d) (sd_params d) (sd_responses d) (sd_last d).
Definition set_sd_vals (m : gmap Z ValidatorsInfo) (d : StateDB) : StateDB := mkStateDB (sd_state d) m (sd_params d) (sd_responses d) (sd_last d).
Definition set_sd_params (m : gmap Z ConsensusParamsInfo) (d : StateDB) : StateDB := mkStateDB (sd_state d) (sd_vals d) m (sd_responses d) (sd_last d).
Definition set_sd_responses (m : gmap Z responses) (d : StateDB) : StateDB := mkStateDB (sd_state d) (sd_vals d) (sd_params d) m (sd_last d).
Definition set_sd_last (x : Z * responses) (d : StateDB) : StateDB := mkStateDB (sd_state d) (sd_vals d) (sd_params d) (sd_responses d) (Some x).

#[global] Instance ConsensusParams_eq_dec : EqDecision ConsensusParams.
Proof. solve_decision. Defined.
Definition empty_params : ConsensusParams := mkParams 0 0 0 0 0 0 [] 0.

(** ** The protobuf form of a set of validators *)
Definition ValidatorSet_ToProto (vals : option ValidatorSet) : ValSetProto + store_error :=
  if IsNilOrEmpty vals then inl (mkValSetProto [] None) else
  match vals with
  | None => inl (mkValSetProto [] None)
  | Some s =>
      if existsb (λ v : Validator, bool_decide (PubKey v = None)) (Validators s) then inr ErrNilPubKey else
      match Proposer s with
      | None => inr ErrProtoValidator
      | Some p => if decide (PubKey p = None) then inr ErrNilPubKey else inl (mkValSetProto (Validators s) (Some p))
      end
  end.

Definition ValidatorSetFromProto (vp : ValSetProto) : outcome (ValidatorSet + store_error) :=
  match vp_Proposer vp with
  | None => Ok (inr ErrProtoValidator)
  | Some p =>
      let! (_, vals) := TotalVotingPower (mkValidatorSet (vp_Validators vp) (Some p) 0) in
      Ok (match ValidatorSet_ValidateBasic (Some vals) with Some e => inr (ErrInvalidSet e) | None => inl vals end)
  end.

(** The value of an answer, or its error. *)
Definition or_error {A B} (m : outcome (A + store_error)) (k : A → outcome (B + store_error)) : outcome (B + store_error) :=
  let! r := m in match r with inl a => k a | inr e => Ok (inr e) end.
Local Infix ">>=s" := or_error (at level 60, right associativity).

(** ** Validators *)
Definition valSetCheckpointInterval : Z := 100000.
Definition lastStoredHeightFor (height lastHeightChanged : Z) : Z := Z.max (height - Z.rem height valSetCheckpointInterval) lastHeightChanged.

Definition SafeConvertInt32 (a : Z) : outcome Z := if decide (- 2 ^ 31 ≤ a < 2 ^ 31) then Ok a else Panic.

Definition state_LoadValidators (height : Z) (d : StateDB) : outcome (ValidatorSet + store_error) :=
  match sd_vals d !! height with
  | None => Ok (inr (ErrNoValSetForHeight height))
  | Some valInfo =>
      match vi_ValidatorSet valInfo with
      | Some vp => ValidatorSetFromProto vp
      | None =>
          let lastStoredHeight := lastStoredHeightFor height (vi_LastHeightChanged valInfo) in
          match sd_vals d !! lastStoredHeight ≫= vi_ValidatorSet with
          | None => Ok (inr ErrNoStoredValidators)
          | Some vp =>
              ValidatorSetFromProto vp >>=s λ vs,
              let! times := SafeConvertInt32 (i64 (height - lastStoredHeight)) in
              let! (_, vs') := IncrementProposerPriority times vs in
              match ValidatorSet_ToProto (Some vs') with
              | inr e => Ok (inr e)
              | inl vp' => ValidatorSetFromProto vp'
              end
          end
      end
  end.

Definition saveValidatorsInfo (height lastHeightChanged : Z) (valSet : option ValidatorSet) : M StateDB (option store_error) :=
  if decide (height < lastHeightChanged) then ret (Some ErrLastHeightChanged) else
  if decide (height = lastHeightChanged ∨ Z.rem height valSetCheckpointInterval = 0) then
    match ValidatorSet_ToProto valSet with
    | inr e => ret (Some e)
    | inl pv => modify (λ d, set_sd_vals (<[height := mkValidatorsInfo lastHeightChanged (Some pv)]> (sd_vals d)) d) ;;; ret None
    end
  else modify (λ d, set_sd_vals (<[height := mkValidatorsInfo lastHeightChanged None]> (sd_vals d)) d) ;;; ret None.

(** ** Consensus parameters *)
Definition LoadConsensusParams (height : Z) (d : StateDB) : ConsensusParams + store_error :=
  match sd_params d !! height with
  | None => inr ErrNoConsensusParams
  | Some pi =>
      if decide (pi_Params pi = empty_params) then
        match sd_params d !! pi_LastHeightChanged pi with None => inr ErrNoConsensusParams | Some pi2 => inl (pi_Params pi2) end
      else inl (pi_Params pi)
  end.
Definition saveConsensusParamsInfo (nextHeight changeHeight : Z) (params : ConsensusParams) : M StateDB unit :=
  modify (λ d, set_sd_params (<[nextHeight := mkParamsInfo changeHeight (if decide (changeHeight = nextHeight) then params else empty_params)]> (sd_params d)) d).

(** ** The state *)

(** A state whose sets have no protobuf form makes [Bytes] panic. *)
Definition State_ToProto (state : smState) : outcome StateProto :=
  match ValidatorSet_ToProto (sm_Validators state), ValidatorSet_ToProto (sm_NextValidators state) with
  | inl vals, inl next =>
      if decide (1 ≤ sm_LastBlockHeight state) then
        match ValidatorSet_ToProto (sm_LastValidators state) with inl l => Ok (mkStateProto state vals next (Some l)) | inr _ => Panic end
      else Ok (mkStateProto state vals next None)
  | _, _ => Panic
  end.
Definition State_FromProto (pb : StateProto) : outcome (smState + store_error) :=
  let s := sp_State pb in
  match BlockID_ValidateBasic (sm_LastBlockID s) with
  | Some _ => Ok (inr ErrStateBlockID)
  | None =>
      ValidatorSetFromProto (sp_Validators pb) >>=s λ vals,
      ValidatorSetFromProto (sp_Next pb) >>=s λ next,
      (if decide (1 ≤ sm_LastBlockHeight s)
       then match sp_Last pb with Some l => ValidatorSetFromProto l | None => Ok (inr ErrProtoValidator) end
       else Ok (inl (mkValidatorSet [] None 0))) >>=s λ last,
      Ok (inl (mkState (sm_Version s) (sm_ChainID s) (sm_InitialHeight s) (sm_LastBlockHeight s) (sm_LastBlockID s) (sm_LastBlockTime s)
                 (Some next) (Some vals) (Some last) (sm_LastHeightValidatorsChanged s) (sm_ConsensusParams s)
                 (sm_LastHeightConsensusParamsChanged s) (sm_LastResultsHash s) (sm_AppHash s)))
  end.

Definition store_Load (d : StateDB) : outcome (smState + store_error) :=
  match sd_state d with None => Ok (inl empty_state) | Some pb => State_FromProto pb end.

(** What [Save] and [Bootstrap] end with. *)
Definition save_state (state : smState) : M StateDB (option store_error) :=
  pb <- lift (State_ToProto state) ;; modify (set_sd_state pb) ;;; ret None.

(** The first error ends the sequence. *)
Definition and_then (m k : M StateDB (option store_error)) : M StateDB (option store_error) :=
  e <- m ;; match e with Some e => ret (Some e) | None => k end.

Definition state_Save (state : smState) : M StateDB (option store_error) :=
  let first := bool_decide (i64 (sm_LastBlockHeight state + 1) = 1) in
  let nextHeight := if first then sm_InitialHeight state else i64 (sm_LastBlockHeight state + 1) in
  and_then (if first then saveValidatorsInfo nextHeight nextHeight (sm_Validators state) else ret None) (
  and_then (saveValidatorsInfo (i64 (nextHeight + 1)) (sm_LastHeightValidatorsChanged state) (sm_NextValidators state)) (
  saveConsensusParamsInfo nextHeight (sm_LastHeightConsensusParamsChanged state) (sm_ConsensusParams state) ;;; save_state state)).

Definition state_Bootstrap (state : smState) : M StateDB (option store_error) :=
  let height := i64 (sm_LastBlockHeight state + 1) in
  let height := if decide (height = 1) then sm_InitialHeight state else height in
  and_then (if bool_decide (1 < height) && negb (IsNilOrEmpty (sm_LastValidators state))
            then saveValidatorsInfo (height - 1) (height - 1) (sm_LastValidators state) else ret None) (
  and_then (saveValidatorsInfo height height (sm_Validators state)) (
  and_then (saveValidatorsInfo (i64 (height + 1)) (i64 (height + 1)) (sm_NextValidators state)) (
  saveConsensusParamsInfo height (sm_LastHeightConsensusParamsChanged state) (sm_ConsensusParams state) ;;; save_state state))).

(** ** Pruning *)

(** A batch of writes. *)
Inductive db_op := SetVals (h : Z) (vi : ValidatorsInfo) | DelVals (h : Z) | SetParams (h : Z) (pi : ConsensusParamsInfo) | DelParams (h : Z) | DelResponses (h : Z).
Definition apply_op (d : StateDB) (op : db_op) : StateDB :=
  match op with
  | SetVals h vi => set_sd_vals (<[h := vi]> (sd_vals d)) d
  | DelVals h => set_sd_vals (delete h (sd_vals d)) d
  | SetParams h pi => set_sd_params (<[h := pi]> (sd_params d)) d
  | DelParams h => set_sd_params (delete h (sd_params d)) d
  | DelResponses h => set_sd_responses (delete h (sd_responses d)) d
  end.
Definition write_batch (batch : list db_op) (d : StateDB) : StateDB := foldl apply_op d batch.

(** What is written for the validators of a height: a kept one gets its full set. *)
Definition prune_vals (keep : list Z) (h : Z) (d : StateDB) : outcome (list db_op + store_error) :=
  if decide (h ∈ keep) then
    match sd_vals d !! h ≫= vi_ValidatorSet with
    | Some _ => Ok (inl [])
    | None =>
        state_LoadValidators h d >>=s λ vip,
        match ValidatorSet_ToProto (Some vip) with
        | inr e => Ok (inr e)
        | inl pvi => match sd_vals d !! h with None => Panic | Some _ => Ok (inl [SetVals h (mkValidatorsInfo h (Some pvi))]) end
        end
    end
  else Ok (inl [DelVals h]).
Definition prune_params (keep : list Z) (h : Z) (d : StateDB) : list db_op + store_error :=
  if decide (h ∈ keep) then
    match sd_params d !! h with
    | None => inr ErrNoConsensusParams
    | Some p =>
        if decide (pi_Params p = empty_params) then
          match LoadConsensusParams h d with inr e => inr e | inl ps => inl [SetParams h (mkParamsInfo h ps)] end
        else inl []
    end
  else inl [DelParams h].

(** [n] heights from [h] down; every thousandth flushes the batch. *)
Fixpoint prune_loop (n : nat) (h : Z) (keepVals keepParams : list Z) (batch : list db_op) (pruned : Z) : M StateDB (option store_error) :=
  match n with
  | O => modify (write_batch batch) ;;; ret None
  | S n' =>
      d <- gets id ;;
      r <- lift (prune_vals keepVals h d) ;;
      match r with
      | inr e => ret (Some e)
      | inl ops =>
          match prune_params keepParams h d with
          | inr e => ret (Some e)
          | inl ops' =>
              let batch := batch ++ ops ++ ops' ++ [DelResponses h] in
              let pruned := u64 (pruned + 1) in
              if decide (pruned mod 1000 = 0 ∧ 0 < pruned)
              then modify (write_batch batch) ;;; prune_loop n' (h - 1) keepVals keepParams [] pruned
              else prune_loop n' (h - 1) keepVals keepParams batch pruned
          end
      end
  end.
Definition PruneStates (from to : Z) : M StateDB (option store_error) :=
  if decide (from ≤ 0 ∨ to ≤ 0) then ret (Some ErrPruneHeights)
  else if decide (to ≤ from) then ret (Some ErrPruneHeights)
  else
    d <- gets id ;;
    match sd_vals d !! to, sd_params d !! to with
    | None, _ => ret (Some (ErrNoValSetForHeight to))
    | _, None => ret (Some ErrNoConsensusParams)
    | Some valInfo, Some paramsInfo =>
        let keepVals := match vi_ValidatorSet valInfo with
                        | None => [vi_LastHeightChanged valInfo; lastStoredHeightFor to (vi_LastHeightChanged valInfo)]
                        | Some _ => []
                        end in
        let keepParams := if decide (pi_Params paramsInfo = empty_params) then [pi_LastHeightChanged paramsInfo] else [] in
        prune_loop (Z.to_nat (to - from)) (to - 1) keepVals keepParams [] 0
    end.

(** ** Responses *)
Definition LoadABCIResponses (discard : bool) (height : Z) (d : StateDB) : responses + store_error :=
  if discard then inr ErrABCIResponsesNotPersisted
  else match sd_responses d !! height with None => inr (ErrNoABCIResponsesForHeight height) | Some r => inl r end.
Definition LoadLastABCIResponse (height : Z) (d : StateDB) : responses + store_error :=
  match sd_last d with
  | None => inr ErrNoLastResponse
  | Some (h, r) => if decide (height ≠ h) then inr ErrOtherHeight else inl r
  end.
Definition store_SaveABCIResponses (discard : bool) (height : Z) (r : responses) : M StateDB unit :=
  let r := Some <$> omap id r in
  (if discard then ret tt else modify (λ d, set_sd_responses (<[height := r]> (sd_responses d)) d)) ;;; modify (set_sd_last (height, r)).
