(* ===== verification/TmStateFacts.v ===== *)
(** What the state store gives back: the validators of every height that was saved, up to their priorities, also after old heights
    were pruned. *)

From S2P Require Import Prelude TmBits TmValidators TmPriority TmValUpdate TmTypes TmCommit TmVotes TmVoteInv TmVoteSafety.
From S2P Require Import TmMerkle TmPartSet TmPrivval TmHeightVotes TmBlock TmStore TmState TmConsensus TmConsVotes TmExec TmStateStore.

(** ** Sets that can be stored and incremented *)
Record good_set (s : ValidatorSet) : Prop := {
  gs_wf : wf_vals s;
  gs_ne : Validators s ≠ [];
  gs_spread : spread_ok s;
  gs_room : room (Validators s);
  gs_valid : ValidatorSet_ValidateBasic (Some s) = None;
}.

Lemma validate_all_infos l : ∀ l' i, infos l = infos l' → validate_all i l = validate_all i l'.
Proof.
  induction l as [|v l IH]; intros [|v' l'] i E; try done. unfold infos in E. cbn in E. injection E as Ev E. cbn [validate_all].
  rewrite Ev. destruct (Validator_ValidateBasic _); [done|]. by apply IH.
Qed.
Lemma validate_all_elem l : ∀ i v, validate_all i l = None → v ∈ infos l → Validator_ValidateBasic (Some v) = None.
Proof.
  induction l as [|x l IH]; intros i v; cbn [validate_all infos fmap list_fmap]; [intros _ []%elem_of_nil|].
  destruct (Validator_ValidateBasic (Some (val_info x))) eqn:E; [done|]. intros Hl [->|Hv]%elem_of_cons; [done|]. by eapply IH.
Qed.
Lemma basic_parts s : ValidatorSet_ValidateBasic (Some s) = None ↔
  Validators s ≠ [] ∧ validate_all 0 (Validators s) = None ∧ Validator_ValidateBasic (Proposer s) = None.
Proof.
  unfold ValidatorSet_ValidateBasic, IsNilOrEmpty. case_bool_decide; [naive_solver|].
  destruct (validate_all 0 (Validators s)); [naive_solver|]. destruct (Validator_ValidateBasic (Proposer s)); naive_solver.
Qed.
Lemma basic_key v : Validator_ValidateBasic v = None → ∃ i, v = Some i ∧ PubKey i ≠ None.
Proof. destruct v as [v|]; [|done]. cbn. destruct (PubKey v) eqn:E; [|done]. intros _. exists v. by rewrite E. Qed.

Definition proto_of (s : ValidatorSet) : ValSetProto := mkValSetProto (Validators s) (Proposer s).

Lemma ToProto_good s : ValidatorSet_ValidateBasic (Some s) = None → ValidatorSet_ToProto (Some s) = inl (proto_of s).
Proof.
  intros (Hne & Hv & Hp)%basic_parts. unfold ValidatorSet_ToProto, IsNilOrEmpty. rewrite bool_decide_eq_false_2 by done.
  assert (existsb (λ v : Validator, bool_decide (PubKey v = None)) (Validators s) = false) as ->.
  { apply not_true_is_false. intros (v & Hin & Hk)%existsb_exists. apply bool_decide_eq_true in Hk. apply list_elem_of_In in Hin.
    assert (val_info v ∈ infos (Validators s)) as Hi by (apply list_elem_of_fmap; by exists v).
    apply (validate_all_elem _ _ _ Hv) in Hi. apply basic_key in Hi as (i & [= <-] & Hn). done. }
  apply basic_key in Hp as (p & Ep & Hk). unfold proto_of. rewrite Ep. by rewrite decide_False.
Qed.

(** What is read back: the same set with its total. *)
Lemma FromProto_good s : wf_vals s → ValidatorSet_ValidateBasic (Some s) = None →
  ValidatorSetFromProto (proto_of s) = Ok (inl (mkValidatorSet (Validators s) (Proposer s) (power (Validators s)))).
Proof.
  intros Hw Hb. pose proof Hb as (Hne & Hv & Hp)%basic_parts. apply basic_key in Hp as (p & Ep & Hk). unfold ValidatorSetFromProto, proto_of.
  cbn [vp_Proposer vp_Validators]. rewrite Ep. rewrite TotalVotingPower_Ok.
  - cbn [outcome_bind]. unfold set_total. cbn [Validators Proposer].
    assert (ValidatorSet_ValidateBasic (Some (mkValidatorSet (Validators s) (Some p) (power (Validators s)))) = None) as H2; [|by rewrite H2].
    apply basic_parts. cbn [Validators Proposer]. rewrite <-Ep. by apply basic_parts in Hb.
  - destruct Hw as [H1 H2 H3 _]. split; [done..|by left].
Qed.

Lemma good_total s : good_set s → good_set (mkValidatorSet (Validators s) (Proposer s) (power (Validators s))).
Proof.
  intros [Hw Hne Hs Hr Hb]. split; cbn; try done.
  destruct Hw as [H1 H2 H3 _]. split; [done..|by right].
Qed.

(** The stored set, incremented and stored again. *)
Lemma increment_good s times : good_set s → 0 < times →
  ∃ s', IncrementProposerPriority times s = Ok (tt, s') ∧ good_set s' ∧ infos (Validators s') = infos (Validators s).
Proof.
  intros [Hw Hne Hs Hr Hb] Ht. destruct (IncrementProposerPriority_runs s times Hw Hne Hs Hr Ht) as (s' & p & E & B & S & R & I & P & Hp & _).
  exists s'. split; [done|]. split; [|done]. apply basic_parts in Hb as (_ & Hv & _).
  split; [apply B|apply B|done|done|]. apply basic_parts. split; [apply B|]. split.
  - by rewrite (validate_all_infos _ _ _ I).
  - rewrite P. by eapply validate_all_elem.
Qed.

(** ** Loading validators *)

(** A record is sound for the validators of its height: it has them, or they are at the height it points to. *)
Definition has_set (d : StateDB) (h : Z) (l : list ValInfo) : Prop :=
  ∃ vi s, sd_vals d !! h = Some vi ∧ vi_ValidatorSet vi = Some (proto_of s) ∧ good_set s ∧ infos (Validators s) = l.
Definition vals_at_height (d : StateDB) (h : Z) (l : list ValInfo) : Prop :=
  has_set d h l ∨ ∃ vi, sd_vals d !! h = Some vi ∧ vi_ValidatorSet vi = None ∧
    0 < h - lastStoredHeightFor h (vi_LastHeightChanged vi) < 2 ^ 31 ∧ has_set d (lastStoredHeightFor h (vi_LastHeightChanged vi)) l.

Lemma LoadValidators_at d h l : vals_at_height d h l → ∃ vs, state_LoadValidators h d = Ok (inl vs) ∧ good_set vs ∧ infos (Validators vs) = l.
Proof.
  unfold state_LoadValidators, or_error. intros [(vi & s & Ev & Es & G & <-)|(vi & Ev & En & Hb & vi2 & s & Ev2 & Es & G & <-)]; rewrite Ev.
  - rewrite Es, FromProto_good by apply G. eexists. split; [done|]. split; [by apply good_total|done].
  - rewrite En, Ev2. cbn [mbind option_bind]. rewrite Es, FromProto_good by apply G. cbn [outcome_bind].
    unfold SafeConvertInt32. rewrite i64_id by lia. rewrite decide_True by lia. cbn [outcome_bind].
    destruct (increment_good _ (h - lastStoredHeightFor h (vi_LastHeightChanged vi)) (good_total s G)) as (s' & E & G' & I); [lia|].
    rewrite E. cbn [outcome_bind]. rewrite ToProto_good by apply G'. rewrite FromProto_good by apply G'.
    eexists. split; [done|]. split; [by apply good_total|done].
Qed.

(** ** The records of a chain *)
Local Abbreviation interval := valSetCheckpointInterval.

(** The database between the heights [lo] and [top], the validators having changed at [lhc] for the last time: every height has its
    validators, the records point to the last change, and what the next heights will point to is there. *)
Record chain_db (V : Z → list ValInfo) (lo top lhc : Z) (d : StateDB) : Prop := {
  cd_range : 0 < lo ≤ top ∧ 0 < lhc ≤ top;
  cd_vals : ∀ h, lo ≤ h ≤ top → vals_at_height d h (V h);
  cd_change : ∀ h vi, lo ≤ h ≤ top → sd_vals d !! h = Some vi →
    vi_LastHeightChanged vi ≤ h ∧ ∀ k vk, lo ≤ k ≤ h → vi_LastHeightChanged vi ≤ k → sd_vals d !! k = Some vk → vi_LastHeightChanged vk = vi_LastHeightChanged vi;
  cd_full : ∀ h vi, lo ≤ h ≤ top → sd_vals d !! h = Some vi → vi_ValidatorSet vi ≠ None → h = vi_LastHeightChanged vi ∨ Z.rem h interval = 0;
  cd_last : ∀ vi, sd_vals d !! top = Some vi → vi_LastHeightChanged vi = lhc;
  cd_tail : ∀ h, lhc ≤ h ≤ top → (lo ≤ h ∧ (h = lhc ∨ Z.rem h interval = 0)) ∨ h = lastStoredHeightFor lo lhc → has_set d h (V top);
}.

Lemma rem_bounds h : 0 < h → 0 ≤ Z.rem h interval < interval.
Proof. intros Hh. apply Z.rem_bound_pos; [lia|]. unfold interval. lia. Qed.
Lemma checkpoint_rem h : 0 < h → Z.rem (h - Z.rem h interval) interval = 0.
Proof.
  intros Hh. replace (h - Z.rem h interval) with (Z.quot h interval * interval).
  - apply Z.rem_mul. unfold interval. lia.
  - pose proof (Z.quot_rem' h interval). lia.
Qed.
(** Heights between a checkpoint and the next share it. *)
Lemma checkpoint_same h k : 0 < h → h - Z.rem h interval < k ≤ h → k - Z.rem k interval = h - Z.rem h interval.
Proof.
  intros Hh Hk. pose proof (rem_bounds h Hh). assert (0 < k) by (rewrite Z.rem_mod_nonneg in * by (unfold interval; lia); pose proof (Z.mod_le h interval); lia).
  rewrite !Z.rem_mod_nonneg in * by (unfold interval; lia).
  assert (k / interval = h / interval) as E.
  { pose proof (Z.div_mod h interval). pose proof (Z.div_mod k interval). pose proof (Z.mod_pos_bound k interval). unfold interval in *. nia. }
  pose proof (Z.div_mod h interval). pose proof (Z.div_mod k interval). unfold interval in *. lia.
Qed.

(** Other keys do not matter. *)
Lemma has_set_other d d' h l : sd_vals d' !! h = sd_vals d !! h → has_set d h l → has_set d' h l.
Proof. intros E (vi & s & Ev & H). exists vi, s. by rewrite E. Qed.

Lemma cd_at V lo top lhc d h : chain_db V lo top lhc d → lo ≤ h ≤ top → ∃ vi, sd_vals d !! h = Some vi.
Proof. intros H Hh. destruct (cd_vals _ _ _ _ _ H h Hh) as [(vi & s & E & _)|(vi & E & _)]; by exists vi. Qed.
Lemma cd_top V lo top lhc d : chain_db V lo top lhc d → ∃ vi, sd_vals d !! top = Some vi.
Proof. intros H. apply (cd_at _ _ _ _ _ _ H). destruct (cd_range _ _ _ _ _ H). lia. Qed.

Definition update_at {A} (f : Z → A) (h : Z) (a : A) : Z → A := λ x, if decide (x = h) then a else f x.

(** The pointer of the next height. *)
Lemma next_pointer V lo top lhc d : chain_db V lo top lhc d → Z.rem (top + 1) interval ≠ 0 → 
  0 < top + 1 - lastStoredHeightFor (top + 1) lhc < 2 ^ 31 ∧ has_set d (lastStoredHeightFor (top + 1) lhc) (V top).
Proof.
  intros H Hr. destruct (cd_range _ _ _ _ _ H) as [Hlo Hlhc]. pose proof (rem_bounds (top + 1) ltac:(lia)) as Hb. pose proof (checkpoint_rem (top + 1) ltac:(lia)) as Hc.
  unfold lastStoredHeightFor at 1 2. split; [unfold interval in *; lia|]. unfold lastStoredHeightFor.
  apply (cd_tail _ _ _ _ _ H); [lia|]. destruct (decide (lo ≤ Z.max (top + 1 - Z.rem (top + 1) interval) lhc)) as [Hle|Hlt].
  - left. split; [done|]. destruct (Z.max_spec (top + 1 - Z.rem (top + 1) interval) lhc) as [[_ ->]|[_ ->]]; [by left|by right].
  - right. unfold lastStoredHeightFor. rewrite (checkpoint_same (top + 1) lo) by lia. done.
Qed.

Lemma save_first_vals h s d : 0 < h → good_set s →
  ∃ d', saveValidatorsInfo h h (Some s) d = Ok (None, d') ∧ chain_db (λ _, infos (Validators s)) h h h d'.
Proof.
  intros Hh G. unfold saveValidatorsInfo. rewrite decide_False by lia. rewrite decide_True by by left. rewrite ToProto_good by apply G.
  eexists. split; [done|]. set (d' := set_sd_vals _ d). assert (Hn : sd_vals d' !! h = Some (mkValidatorsInfo h (Some (proto_of s)))) by apply lookup_insert_eq.
  assert (has_set d' h (infos (Validators s))) as Hs by by eexists _, s.
  split; [lia|..].
  - intros k Hk. left. by replace k with h by lia.
  - intros k vi Hk. replace k with h by lia. rewrite Hn. intros [= <-]. cbn [vi_LastHeightChanged]. split; [lia|]. intros j vj Hj _. replace j with h by lia. rewrite Hn. by intros [= <-].
  - intros k vi Hk. replace k with h by lia. rewrite Hn. intros [= <-] _. by left.
  - intros vi. rewrite Hn. by intros [= <-].
  - intros k Hk _. by replace k with h by lia.
Qed.

Lemma chain_db_ext V V' lo top lhc d : (∀ h, V' h = V h) → chain_db V lo top lhc d → chain_db V' lo top lhc d.
Proof. intros E [H1 H2 H3 H4 H5 H6]. split; try done; intros *; rewrite E; auto. Qed.

Lemma save_chain V lo top lhc lhc' d s : chain_db V lo top lhc d → good_set s →
  lhc' = top + 1 ∨ (lhc' = lhc ∧ infos (Validators s) = V top) →
  ∃ d', saveValidatorsInfo (top + 1) lhc' (Some s) d = Ok (None, d') ∧ chain_db (update_at V (top + 1) (infos (Validators s))) lo (top + 1) lhc' d' ∧
    sd_params d' = sd_params d.
Proof.
  intros H G Hl. destruct (cd_range _ _ _ _ _ H) as [Hlo Hlhc]. unfold saveValidatorsInfo. rewrite decide_False by lia. rewrite ToProto_good by apply G.
  set (x := if decide (top + 1 = lhc' ∨ Z.rem (top + 1) interval = 0) then Some (proto_of s) else None).
  exists (set_sd_vals (<[top + 1 := mkValidatorsInfo lhc' x]> (sd_vals d)) d). split; [unfold x; by case_decide|]. split; [|done].
  set (d' := set_sd_vals _ d). assert (Hn : sd_vals d' !! (top + 1) = Some (mkValidatorsInfo lhc' x)) by apply lookup_insert_eq.
  assert (Ho : ∀ h, h ≠ top + 1 → sd_vals d' !! h = sd_vals d !! h) by (intros h Hh; by apply lookup_insert_ne).
  assert (Hset : x ≠ None → has_set d' (top + 1) (infos (Validators s))).
  { intros Hx. exists (mkValidatorsInfo lhc' x), s. split; [done|]. split; [|done]. unfold x in *. by case_decide. }
  assert (Hat : vals_at_height d' (top + 1) (infos (Validators s))).
  { destruct (decide (x = None)) as [Hx|Hx]; [|by left; apply Hset]. right. exists (mkValidatorsInfo lhc' x). split; [done|]. split; [done|].
    unfold x in Hx. case_decide as Hd; [done|]. destruct Hl as [->|[-> Hi]]; [tauto|]. cbn [vi_LastHeightChanged].
    destruct (next_pointer _ _ _ _ _ H) as [Hb Hs]; [tauto|]. split; [done|]. rewrite Hi. eapply has_set_other; [|exact Hs]. apply Ho. lia. }
  split.
  - lia.
  - intros h Hh. unfold update_at. case_decide as Hd; [by subst h|]. destruct (cd_vals _ _ _ _ _ H h) as [Hs|(vi & Ev & En & Hb & Hs)]; [lia| |].
    + left. eapply has_set_other; [|exact Hs]. by apply Ho.
    + right. exists vi. rewrite Ho by done. split_and!; try done; try lia. eapply has_set_other; [|exact Hs]. apply Ho. lia.
  - intros h vi Hh Ev. destruct (decide (h = top + 1)) as [->|Hne].
    + rewrite Hn in Ev. injection Ev as <-. cbn [vi_LastHeightChanged]. split; [lia|]. intros k vk Hk Hlk Evk.
      destruct (decide (k = top + 1)) as [->|Hnk]; [rewrite Hn in Evk; by injection Evk as <-|]. rewrite Ho in Evk by done.
      destruct Hl as [->|[-> _]]; [lia|]. destruct (cd_top _ _ _ _ _ H) as [vt Et]. pose proof (cd_last _ _ _ _ _ H vt Et) as El.
      destruct (cd_change _ _ _ _ _ H top vt) as [_ Hc]; [lia|done|]. rewrite El in Hc. by apply (Hc k vk); [lia|lia|].
    + rewrite Ho in Ev by done. destruct (cd_change _ _ _ _ _ H h vi) as [Hle Hc]; [lia|done|]. split; [done|].
      intros k vk Hk Hlk Evk. rewrite Ho in Evk by lia. by apply (Hc k vk).
  - intros h vi Hh Ev Hf. destruct (decide (h = top + 1)) as [->|Hne].
    + rewrite Hn in Ev. injection Ev as <-. cbn in Hf |- *. unfold x in Hf. by case_decide.
    + rewrite Ho in Ev by done. apply (cd_full _ _ _ _ _ H h); [lia|done..].
  - intros vi Ev. rewrite Hn in Ev. by injection Ev as <-.
  - intros h Hh Hcase. unfold update_at. rewrite decide_True by done. destruct (decide (h = top + 1)) as [->|Hne].
    + apply Hset. unfold x. rewrite decide_True; [done|]. destruct Hcase as [[_ [->|?]]|Heq]; [by left|by right|].
      destruct Hl as [->|[-> _]]; [by left|]. right. unfold lastStoredHeightFor in Heq. pose proof (rem_bounds lo ltac:(lia)). lia.
    + destruct Hl as [->|[-> Hi]]; [lia|]. rewrite Hi. eapply has_set_other; [by apply Ho|]. apply (cd_tail _ _ _ _ _ H); [lia|done].
Qed.

(** ** The loop of the pruning: nothing but deletions, of the heights that are not kept *)
Section prune.
Context (kv kp : list Z).

Definition dels (h : Z) : list db_op :=
  (if decide (h ∈ kv) then [] else [DelVals h]) ++ (if decide (h ∈ kp) then [] else [DelParams h]) ++ [DelResponses h].
Fixpoint all_dels (n : nat) (h : Z) : list db_op := match n with O => [] | S n' => dels h ++ all_dels n' (h - 1) end.

(** Deletions that spare the kept heights. *)
Definition spares (op : db_op) : Prop :=
  match op with DelVals h => h ∉ kv | DelParams h => h ∉ kp | DelResponses _ => True | _ => False end.
Lemma dels_spare h : Forall spares (dels h).
Proof. unfold dels. repeat apply Forall_app_2; repeat case_decide; repeat constructor; done. Qed.

Definition same_kept (d d' : StateDB) : Prop :=
  (∀ h, h ∈ kv → sd_vals d' !! h = sd_vals d !! h) ∧ (∀ h, h ∈ kp → sd_params d' !! h = sd_params d !! h).
Lemma batch_spares ops : Forall spares ops → ∀ d, same_kept d (write_batch ops d).
Proof.
  induction 1 as [|op ops Hop _ IH]; intros d; [by split|]. change (write_batch (op :: ops) d) with (write_batch ops (apply_op d op)).
  destruct (IH (apply_op d op)) as [IH1 IH2]. split; intros h Hh.
  - rewrite IH1 by done. destruct op; cbn in *; try done. apply lookup_delete_ne. by intros ->.
  - rewrite IH2 by done. destruct op; cbn in *; try done. apply lookup_delete_ne. by intros ->.
Qed.

(** The kept heights have what is needed for them. *)
Definition kept_full (from to : Z) (d : StateDB) : Prop :=
  (∀ h, from ≤ h < to → h ∈ kv → sd_vals d !! h ≫= vi_ValidatorSet ≠ None) ∧
  (∀ h, from ≤ h < to → h ∈ kp → ∃ p, sd_params d !! h = Some p ∧ pi_Params p ≠ empty_params).
Lemma kept_full_spares from to ops d : Forall spares ops → kept_full from to d → kept_full from to (write_batch ops d).
Proof. intros [S1 S2]%(λ H, batch_spares _ H d) [K1 K2]. split; intros h Hh Hk; [rewrite S1 by done|rewrite S2 by done]; auto. Qed.

Lemma prune_step_ops from to d h : kept_full from to d → from ≤ h < to →
  ∃ ops ops', prune_vals kv h d = Ok (inl ops) ∧ prune_params kp h d = inl ops' ∧ ops ++ ops' ++ [DelResponses h] = dels h.
Proof.
  intros [K1 K2] Hh. unfold prune_vals, prune_params, dels. case_decide as Hv.
  - destruct (sd_vals d !! h ≫= vi_ValidatorSet) eqn:E; [|by destruct (K1 h Hh Hv)]. case_decide as Hp; [|by eexists _, _].
    destruct (K2 h Hh Hp) as (p & -> & Hp'). rewrite decide_False by done. by eexists _, _.
  - case_decide as Hp; [|by eexists _, _]. destruct (K2 h Hh Hp) as (p & -> & Hp'). rewrite decide_False by done. by eexists _, _.
Qed.

Lemma write_batch_app a b d : write_batch (a ++ b) d = write_batch b (write_batch a d).
Proof. apply foldl_app. Qed.

Lemma prune_loop_dels from to n : ∀ h batch pruned d, Z.of_nat n = h + 1 - from → h < to → Forall spares batch → kept_full from to d →
  prune_loop n h kv kp batch pruned d = Ok (None, write_batch (batch ++ all_dels n h) d).
Proof.
  induction n as [|n IH]; intros h batch pruned d Hn Ht Hb K; cbn [prune_loop all_dels].
  - unfold bind, modify, outcome_bind, ret. by rewrite app_nil_r.
  - unfold bind, modify, gets, lift, outcome_bind, id. destruct (prune_step_ops from to d h K) as (ops & ops' & -> & -> & E); [lia|].
    rewrite E. rewrite app_assoc. case_decide.
    + rewrite IH; [|lia|lia|constructor|apply kept_full_spares; [|done]; apply Forall_app_2; [done|apply dels_spare]].
      by rewrite (write_batch_app (batch ++ dels h)).
    + apply IH; [lia|lia| |done]. apply Forall_app_2; [done|apply dels_spare].
Qed.

(** What is left. *)
Lemma apply_dels d h k : sd_vals (write_batch (dels h) d) !! k = (if decide (k = h ∧ k ∉ kv) then None else sd_vals d !! k) ∧
  sd_params (write_batch (dels h) d) !! k = (if decide (k = h ∧ k ∉ kp) then None else sd_params d !! k) ∧ sd_state (write_batch (dels h) d) = sd_state d.
Proof.
  unfold dels. split; [|split]; destruct (decide (h ∈ kv)), (decide (h ∈ kp)); cbn; try done; destruct (decide (k = h)) as [->|Hne];
    rewrite ?lookup_delete_eq, ?lookup_delete_ne by done; case_decide; naive_solver.
Qed.
Lemma next_range {A} (P : Prop) `{Decision P} n h k (x : option A) :
  (if decide (h - 1 - Z.of_nat n < k ≤ h - 1 ∧ P) then None else if decide (k = h ∧ P) then None else x) =
  (if decide (h - Z.of_nat (S n) < k ≤ h ∧ P) then None else x).
Proof.
  destruct (decide (h - 1 - Z.of_nat n < k ≤ h - 1)), (decide (k = h)), (decide (h - Z.of_nat (S n) < k ≤ h)); try lia;
    repeat case_decide; tauto.
Qed.
Lemma apply_all_dels n : ∀ h k d, let d' := write_batch (all_dels n h) d in
  sd_vals d' !! k = (if decide (h - Z.of_nat n < k ≤ h ∧ k ∉ kv) then None else sd_vals d !! k) ∧
  sd_params d' !! k = (if decide (h - Z.of_nat n < k ≤ h ∧ k ∉ kp) then None else sd_params d !! k) ∧ sd_state d' = sd_state d.
Proof.
  induction n as [|n IH]; intros h k d; cbn [all_dels].
  - cbn. rewrite !decide_False by lia. done.
  - cbv zeta. rewrite write_batch_app. destruct (IH (h - 1) k (write_batch (dels h) d)) as (-> & -> & ->).
    destruct (apply_dels d h k) as (-> & -> & ->). split_and!; [by apply next_range..|done].
Qed.
End prune.

(** ** The parameters of a chain: a record has them, or the record of their last change does *)
Record param_db (P : Z → ConsensusParams) (lo top lpc : Z) (d : StateDB) : Prop := {
  pd_range : 0 < lo ≤ top;
  pd_vals : ∀ h, lo ≤ h ≤ top → P h ≠ empty_params ∧ ∃ pi, sd_params d !! h = Some pi ∧ pi_LastHeightChanged pi ≤ h ∧
    pi_Params pi = (if decide (pi_LastHeightChanged pi = h) then P h else empty_params) ∧
    ∃ pi2, sd_params d !! pi_LastHeightChanged pi = Some pi2 ∧ pi_Params pi2 = P h;
  pd_change : ∀ h k pi pk, lo ≤ k ≤ h → h ≤ top → sd_params d !! h = Some pi → sd_params d !! k = Some pk → pi_LastHeightChanged pi ≤ k →
    pi_LastHeightChanged pk = pi_LastHeightChanged pi;
  pd_last : ∀ pi, sd_params d !! top = Some pi → pi_LastHeightChanged pi = lpc;
}.

Lemma LoadConsensusParams_at P lo top lpc d h : param_db P lo top lpc d → lo ≤ h ≤ top → LoadConsensusParams h d = inl (P h).
Proof.
  intros H Hh. destruct (pd_vals _ _ _ _ _ H h Hh) as (Hne & pi & E & _ & Ep & pi2 & E2 & Ep2). unfold LoadConsensusParams. rewrite E, Ep.
  destruct (decide (pi_LastHeightChanged pi = h)); [by rewrite decide_False|]. by rewrite decide_True, E2, Ep2.
Qed.

Lemma params_first h params d : 0 < h → params ≠ empty_params → ∀ d', saveConsensusParamsInfo h h params d = Ok (tt, d') →
  param_db (λ _, params) h h h d'.
Proof.
  intros Hh Hp d' [= <-]. split; [lia|..]; unfold saveConsensusParamsInfo; cbn [sd_params set_sd_params].
  - intros k Hk. replace k with h by lia. rewrite lookup_insert_eq. split; [done|]. eexists. split; [done|]. cbn. rewrite !decide_True by done.
    split; [lia|]. split; [done|]. eexists. by rewrite lookup_insert_eq.
  - intros k j pi pk Hj Hk. replace k with h by lia. replace j with h by lia. rewrite lookup_insert_eq. by intros [= <-] [= <-].
  - intros pi. rewrite lookup_insert_eq. by intros [= <-].
Qed.

Lemma params_next P lo top lpc lpc' params d : param_db P lo top lpc d → params ≠ empty_params →
  lpc' = top + 1 ∨ (lpc' = lpc ∧ params = P top) →
  ∀ d', saveConsensusParamsInfo (top + 1) lpc' params d = Ok (tt, d') → param_db (update_at P (top + 1) params) lo (top + 1) lpc' d'.
Proof.
  intros H Hp Hl d' [= <-]. pose proof (pd_range _ _ _ _ _ H) as Hr. set (x := mkParamsInfo _ _). set (d' := set_sd_params _ d).
  assert (Hn : sd_params d' !! (top + 1) = Some x) by apply lookup_insert_eq.
  assert (Ho : ∀ h, h ≠ top + 1 → sd_params d' !! h = sd_params d !! h) by (intros h Hh; by apply lookup_insert_ne).
  destruct (pd_vals _ _ _ _ _ H top) as (_ & pt & Et & Hlt & _ & pt2 & Et2 & Ept2); [lia|].
  pose proof (pd_last _ _ _ _ _ H pt Et) as El. split; [lia|..].
  - intros h Hh. unfold update_at. case_decide as Hd.
    + subst h. split; [done|]. exists x. split; [done|]. cbn. split; [lia|]. split; [done|].
      destruct Hl as [->|[-> ->]]; [exists x; split; [done|]; cbn; by rewrite decide_True|]. exists pt2. rewrite Ho by lia. by rewrite <-El.
    + destruct (pd_vals _ _ _ _ _ H h) as (Hne & pi & E & Hle & Ep & pi2 & E2 & Ep2); [lia|]. split; [done|]. exists pi.
      split; [by rewrite Ho|]. split; [done|]. split; [done|]. exists pi2. rewrite Ho by lia. done.
  - intros h k pi pk Hk Hh Ei Ek Hle. destruct (decide (h = top + 1)) as [->|Hne].
    + rewrite Hn in Ei. injection Ei as <-. cbn in *. destruct (decide (k = top + 1)) as [->|Hnk]; [rewrite Hn in Ek; by injection Ek as <-|].
      rewrite Ho in Ek by done. destruct Hl as [->|[-> _]]; [lia|]. rewrite <-El. apply (pd_change _ _ _ _ _ H top k); try done; lia.
    + rewrite Ho in Ei by done. rewrite Ho in Ek by lia. apply (pd_change _ _ _ _ _ H h k); try done; lia.
  - intros pi Ei. rewrite Hn in Ei. by injection Ei as <-.
Qed.

(** ** Pruning a chain *)

(** What the pruning to [to] keeps. *)
Definition keep_vals (to : Z) (vi : ValidatorsInfo) : list Z :=
  match vi_ValidatorSet vi with None => [vi_LastHeightChanged vi; lastStoredHeightFor to (vi_LastHeightChanged vi)] | Some _ => [] end.
Definition keep_params (pi : ConsensusParamsInfo) : list Z := if decide (pi_Params pi = empty_params) then [pi_LastHeightChanged pi] else [].

Lemma change_full V lo top lhc d h vi : chain_db V lo top lhc d → lo ≤ h ≤ top → sd_vals d !! h = Some vi → vi_LastHeightChanged vi = h →
  has_set d h (V h).
Proof.
  intros H Hh E El. destruct (cd_vals _ _ _ _ _ H h Hh) as [?|(vi' & E' & _ & Hb & _)]; [done|]. rewrite E in E'. injection E' as <-.
  unfold lastStoredHeightFor in Hb. lia.
Qed.
Lemma has_set_full d h l : has_set d h l → sd_vals d !! h ≫= vi_ValidatorSet ≠ None.
Proof. intros (vi & s & -> & E & _). cbn. by rewrite E. Qed.

Lemma kept_vals_full V lo top lhc d to vi : chain_db V lo top lhc d → lo < to ≤ top → sd_vals d !! to = Some vi →
  ∀ h, lo ≤ h < to → h ∈ keep_vals to vi → sd_vals d !! h ≫= vi_ValidatorSet ≠ None.
Proof.
  intros H Ht E h Hh. unfold keep_vals. destruct (vi_ValidatorSet vi) eqn:Es; [intros []%elem_of_nil|]. intros [->|[->|[]%elem_of_nil]%elem_of_cons]%elem_of_cons.
  - destruct (cd_vals _ _ _ _ _ H (vi_LastHeightChanged vi)) as [?|(v & Ev & _ & Hb & _)]; [lia|by eapply has_set_full|].
    destruct (cd_change _ _ _ _ _ H to vi) as [_ Hc]; [lia|done|]. eapply has_set_full, change_full; [done|lia|done|]. apply (Hc (vi_LastHeightChanged vi)); [lia|lia|done].
  - destruct (cd_vals _ _ _ _ _ H to) as [(v & s & Ev & Ef & _)|(v & Ev & _ & _ & Hs)]; [lia|congruence|].
    rewrite E in Ev. injection Ev as <-. by eapply has_set_full.
Qed.

Lemma kept_params_full P lo top lpc d to pi : param_db P lo top lpc d → lo < to ≤ top → sd_params d !! to = Some pi →
  ∀ h, lo ≤ h < to → h ∈ keep_params pi → ∃ p, sd_params d !! h = Some p ∧ pi_Params p ≠ empty_params.
Proof.
  intros H Ht E h Hh. unfold keep_params. case_decide; [|intros []%elem_of_nil]. intros ->%list_elem_of_singleton.
  destruct (pd_vals _ _ _ _ _ H (pi_LastHeightChanged pi)) as (Hne & p & Ep & _ & Epp & _); [lia|]. exists p. split; [done|]. rewrite Epp.
  rewrite decide_True; [done|]. apply (pd_change _ _ _ _ _ H to (pi_LastHeightChanged pi)); try done; lia.
Qed.

(** A height below [to] that a height from [to] on needs is kept. *)
Lemma needed_kept V lo top lhc d to vi h vh : chain_db V lo top lhc d → lo < to → to ≤ h ≤ top → sd_vals d !! to = Some vi → sd_vals d !! h = Some vh →
  lastStoredHeightFor h (vi_LastHeightChanged vh) < to → lastStoredHeightFor h (vi_LastHeightChanged vh) ∈ keep_vals to vi.
Proof.
  intros H Ht Hh E Eh Hlt. destruct (cd_range _ _ _ _ _ H) as [Hlo _].
  assert (vi_LastHeightChanged vh < to ∧ h - Z.rem h interval < to) as [Hl Hc] by (unfold lastStoredHeightFor in Hlt; lia).
  destruct (cd_change _ _ _ _ _ H h vh) as [_ Hch]; [lia|done|]. pose proof (Hch to vi ltac:(lia) ltac:(lia) E) as El.
  pose proof (checkpoint_same h to ltac:(lia) ltac:(lia)) as Ec. unfold keep_vals. destruct (vi_ValidatorSet vi) eqn:Es.
  - destruct (cd_full _ _ _ _ _ H to vi) as [Hf|Hf]; [lia|done|congruence|lia|lia].
  - rewrite El. unfold lastStoredHeightFor. rewrite Ec. apply elem_of_cons. right. apply elem_of_cons. by left.
Qed.

Lemma prune_vals_chain V lo top lhc d d' to vi : chain_db V lo top lhc d → lo < to ≤ top → sd_vals d !! to = Some vi →
  (∀ k, sd_vals d' !! k = if decide (lo ≤ k < to ∧ k ∉ keep_vals to vi) then None else sd_vals d !! k) → chain_db V to top lhc d'.
Proof.
  intros H Ht E Hd. destruct (cd_range _ _ _ _ _ H) as [Hlo Hlhc]. assert (Hsame : ∀ k, to ≤ k → sd_vals d' !! k = sd_vals d !! k).
  { intros k Hk. rewrite Hd. rewrite decide_False; [done|]. lia. }
  assert (Hptr : ∀ h vh, to ≤ h ≤ top → sd_vals d !! h = Some vh → 
    sd_vals d' !! lastStoredHeightFor h (vi_LastHeightChanged vh) = sd_vals d !! lastStoredHeightFor h (vi_LastHeightChanged vh)).
  { intros h vh Hh Eh. destruct (decide (to ≤ lastStoredHeightFor h (vi_LastHeightChanged vh))); [by apply Hsame|].
    rewrite Hd, decide_False; [done|]. intros [_ []]. eapply needed_kept; try done; lia. }
  split; [lia|..].
  - intros h Hh. destruct (cd_vals _ _ _ _ _ H h) as [Hs|(vh & Eh & En & Hb & Hs)]; [lia| |].
    + left. eapply has_set_other; [|done]. apply Hsame. lia.
    + right. exists vh. rewrite Hsame by lia. split_and!; try done; try lia. eapply has_set_other; [|done]. by apply Hptr.
  - intros h vh Hh Eh. rewrite Hsame in Eh by lia. destruct (cd_change _ _ _ _ _ H h vh) as [Hle Hc]; [lia|done|]. split; [done|].
    intros k vk Hk Hl Ek. rewrite Hsame in Ek by lia. apply (Hc k); [lia|done..].
  - intros h vh Hh Eh. rewrite Hsame in Eh by lia. apply (cd_full _ _ _ _ _ H h); [lia|done].
  - intros vt. rewrite Hsame by lia. apply (cd_last _ _ _ _ _ H).
  - intros h Hh Hcase. assert (has_set d h (V top)) as Hs.
    { apply (cd_tail _ _ _ _ _ H); [done|]. destruct Hcase as [[? ?]|Heq]; [left; split; [lia|done]|].
      unfold lastStoredHeightFor in *. pose proof (checkpoint_rem to ltac:(lia)). destruct (decide (lo ≤ h)) as [Hle|Hgt].
      - left. split; [done|]. destruct (Z.max_spec (to - Z.rem to interval) lhc) as [[_ Em]|[_ Em]]; rewrite Em in Heq; subst h; [by left|by right].
      - right. rewrite (checkpoint_same to lo) by lia. done. }
    eapply has_set_other; [|done]. destruct (decide (to ≤ h)); [by apply Hsame|]. destruct Hcase as [[? ?]|Heq]; [lia|].
    destruct (cd_top _ _ _ _ _ H) as [vt Et]. pose proof (cd_last _ _ _ _ _ H vt Et) as El.
    destruct (cd_change _ _ _ _ _ H top vt) as [_ Hc]; [lia|done|]. pose proof (Hc to vi ltac:(lia) ltac:(lia) E) as Eto.
    rewrite Heq. rewrite <-El, <-Eto. apply Hptr; [lia|done].
Qed.

Lemma prune_params_chain P lo top lpc d d' to pi : param_db P lo top lpc d → lo < to ≤ top → sd_params d !! to = Some pi →
  (∀ k, sd_params d' !! k = if decide (lo ≤ k < to ∧ k ∉ keep_params pi) then None else sd_params d !! k) → param_db P to top lpc d'.
Proof.
  intros H Ht E Hd. pose proof (pd_range _ _ _ _ _ H) as Hr. assert (Hsame : ∀ k, to ≤ k → sd_params d' !! k = sd_params d !! k).
  { intros k Hk. rewrite Hd. rewrite decide_False; [done|]. lia. }
  split; [lia|..].
  - intros h Hh. destruct (pd_vals _ _ _ _ _ H h) as (Hne & ph & Eh & Hle & Ep & p2 & E2 & Ep2); [lia|]. split; [done|]. exists ph.
    rewrite Hsame by lia. split_and!; try done. exists p2. split; [|done]. rewrite <-E2. destruct (decide (to ≤ pi_LastHeightChanged ph)); [by apply Hsame|].
    rewrite Hd, decide_False; [done|]. intros [_ []]. pose proof (pd_change _ _ _ _ _ H h to ph pi ltac:(lia) ltac:(lia) Eh E ltac:(lia)) as El.
    destruct (pd_vals _ _ _ _ _ H to) as (_ & pt & Et & _ & Ept & _); [lia|]. rewrite E in Et. injection Et as <-.
    unfold keep_params. rewrite decide_True; [rewrite El; by apply elem_of_cons; left|]. rewrite Ept. rewrite decide_False; [done|]. lia.
  - intros h k ph pk Hk Hh. rewrite !Hsame by lia. apply (pd_change _ _ _ _ _ H); lia.
  - intros pt. rewrite Hsame by lia. apply (pd_last _ _ _ _ _ H).
Qed.

Lemma PruneStates_chain V P lo top lhc lpc d to : chain_db V lo (top + 1) lhc d → param_db P lo top lpc d → lo < to ≤ top →
  ∃ d', PruneStates lo to d = Ok (None, d') ∧ chain_db V to (top + 1) lhc d' ∧ param_db P to top lpc d' ∧ sd_state d' = sd_state d.
Proof.
  intros H HP Ht. destruct (cd_range _ _ _ _ _ H) as [Hlo _]. destruct (cd_at _ _ _ _ _ to H) as [vi Ev]; [lia|].
  destruct (pd_vals _ _ _ _ _ HP to) as (_ & pi & Ep & _); [lia|].
  unfold PruneStates. rewrite !decide_False by lia. unfold bind, gets, outcome_bind, id. rewrite Ev, Ep.
  change (match vi_ValidatorSet vi with Some _ => _ | None => _ end) with (keep_vals to vi). change (if decide (pi_Params pi = _) then _ else _) with (keep_params pi).
  rewrite (prune_loop_dels (keep_vals to vi) (keep_params pi) lo to); [|lia|lia|by apply Forall_nil|].
  2: { split; [eapply kept_vals_full; [done|lia|done]|by eapply kept_params_full]. }
  eexists. split; [done|]. rewrite app_nil_l.
  assert (Hd := λ k, apply_all_dels (keep_vals to vi) (keep_params pi) (Z.to_nat (to - lo)) (to - 1) k d). cbn zeta in Hd.
  split; [eapply prune_vals_chain; [done|lia|done|]|split; [eapply prune_params_chain; [done|lia|done|]|apply (Hd 0)]];
   intros k; destruct (Hd k) as (D1 & D2 & _); [rewrite D1|rewrite D2]; apply decide_ext; apply and_iff_compat_r; lia.
Qed.
