(* ===== verification/TmStateRuns.v ===== *)
(** The state store against its specification: a history of the chain that remembers, for every height that was not pruned, the validators
    and the parameters of that height, and the last state. *)

From S2P Require Import Prelude TmBits TmValidators TmPriority TmValUpdate TmTypes TmCommit TmVotes TmVoteInv TmVoteSafety.
From S2P Require Import TmMerkle TmPartSet TmPrivval TmHeightVotes TmBlock TmStore TmState TmConsensus TmConsVotes TmConsInv TmExec TmStateStore TmStateFacts.

(** ** The state itself *)
Record storable (st : smState) : Prop := {
  so_vals : ∃ v, sm_Validators st = Some v ∧ good_set v;
  so_next : ∃ v, sm_NextValidators st = Some v ∧ good_set v;
  so_last : 1 ≤ sm_LastBlockHeight st → ∃ v, sm_LastValidators st = Some v ∧ good_set v;
  so_id : BlockID_ValidateBasic (sm_LastBlockID st) = None;
  so_params : sm_ConsensusParams st ≠ empty_params;
}.

(** A state as it is read back: the totals of its sets are computed, and the first one has an empty set for the last validators. *)
Definition with_total (s : ValidatorSet) : ValidatorSet := mkValidatorSet (Validators s) (Proposer s) (power (Validators s)).
Definition reloaded (st : smState) : smState :=
  mkState (sm_Version st) (sm_ChainID st) (sm_InitialHeight st) (sm_LastBlockHeight st) (sm_LastBlockID st) (sm_LastBlockTime st)
    (with_total <$> sm_NextValidators st) (with_total <$> sm_Validators st)
    (if decide (1 ≤ sm_LastBlockHeight st) then with_total <$> sm_LastValidators st else Some (mkValidatorSet [] None 0))
    (sm_LastHeightValidatorsChanged st) (sm_ConsensusParams st) (sm_LastHeightConsensusParamsChanged st) (sm_LastResultsHash st) (sm_AppHash st).

Lemma State_roundtrip st : storable st → ∃ pb, State_ToProto st = Ok pb ∧ State_FromProto pb = Ok (inl (reloaded st)).
Proof.
  intros [(v & Ev & Gv) (n & En & Gn) Hl Hid _]. unfold State_ToProto. rewrite Ev, En, !ToProto_good by (apply Gv || apply Gn).
  destruct (decide (1 ≤ sm_LastBlockHeight st)) as [Hh|Hh].
  - destruct (Hl Hh) as (l & El & Gl). rewrite El, ToProto_good by apply Gl. eexists. split; [done|]. unfold State_FromProto, or_error. cbn [sp_State sp_Validators sp_Next sp_Last].
    rewrite Hid, !FromProto_good by (apply Gv || apply Gn || apply Gl). cbn [outcome_bind]. rewrite decide_True by done.
    cbn [outcome_bind]. unfold reloaded. rewrite Ev, En, El, decide_True by done. done.
  - eexists. split; [done|]. unfold State_FromProto, or_error. cbn [sp_State sp_Validators sp_Next sp_Last].
    rewrite Hid, !FromProto_good by (apply Gv || apply Gn). cbn [outcome_bind]. rewrite decide_False by done. cbn [outcome_bind].
    unfold reloaded. rewrite Ev, En, decide_False by done. done.
Qed.

(** ** The specification *)
Record Hist := mkHist { hi_vals : Z → list ValInfo; hi_params : Z → ConsensusParams; hi_lo : Z; hi_state : smState }.

Inductive store_op := OpSave (st : smState) | OpBootstrap (st : smState) | OpPrune (from to : Z).
Definition run_op (op : store_op) : M StateDB (option store_error) :=
  match op with OpSave st => state_Save st | OpBootstrap st => state_Bootstrap st | OpPrune from to => PruneStates from to end.
Fixpoint run_ops (ops : list store_op) : M StateDB (option store_error) :=
  match ops with [] => ret None | op :: ops' => and_then (run_op op) (run_ops ops') end.

Definition set_infos (s : option ValidatorSet) : list ValInfo := default [] ((λ s, infos (Validators s)) <$> s).

(** The state before the first block. *)
Record first_state (st : smState) : Prop := {
  fs_height : sm_LastBlockHeight st = 0;
  fs_initial : 0 < sm_InitialHeight st < 2 ^ 63 - 1;
  fs_vals : sm_LastHeightValidatorsChanged st = sm_InitialHeight st;
  fs_params : sm_LastHeightConsensusParamsChanged st = sm_InitialHeight st;
  fs_next : set_infos (sm_NextValidators st) = set_infos (sm_Validators st);
  fs_storable : storable st;
}.
Definition first_hist (st : smState) : Hist :=
  mkHist (λ _, set_infos (sm_Validators st)) (λ _, sm_ConsensusParams st) (sm_InitialHeight st) st.

(** The state a node that joins by state sync starts from. *)
Record synced_state (st : smState) : Prop := {
  sy_height : 1 ≤ sm_LastBlockHeight st < 2 ^ 63 - 2;
  sy_initial : 0 < sm_InitialHeight st;
  sy_vals : sm_LastHeightValidatorsChanged st = next_height st + 1;
  sy_params : sm_LastHeightConsensusParamsChanged st = next_height st;
  sy_storable : storable st;
}.
Definition synced_hist (st : smState) : Hist :=
  mkHist (update_at (λ _, set_infos (sm_Validators st)) (next_height st + 1) (set_infos (sm_NextValidators st))) (λ _, sm_ConsensusParams st) (next_height st) st.

Inductive hist_start : store_op → Hist → Prop :=
| start_first st : first_state st → hist_start (OpSave st) (first_hist st)
| start_synced st : synced_state st → hist_start (OpBootstrap st) (synced_hist st).

Section runs.
Context {CR : Crypto} {BC : BlockCodec} {SV : Services} {GS : GoSort}.

(** The next state is the one that executing a block gives; the heights below [to] are forgotten. *)
Inductive hist_step : Hist → store_op → Hist → Prop :=
| hs_save V P lo st id header txs resp ups st0 appHash :
    updateState st id header txs resp ups = Ok (Some st0) → h_Height header = next_height st → next_height st + 2 < 2 ^ 63 →
    BlockID_ValidateBasic id = None → (ups ≠ [] → ∀ n, sm_NextValidators st0 = Some n → good_set n) →
    hist_step (mkHist V P lo st) (OpSave (set_AppHash appHash st0))
      (mkHist (update_at V (next_height st + 2) (set_infos (sm_NextValidators st0))) (update_at P (next_height st + 1) (sm_ConsensusParams st0)) lo
         (set_AppHash appHash st0))
| hs_prune V P lo st to : lo < to ≤ next_height st → hist_step (mkHist V P lo st) (OpPrune lo to) (mkHist V P to st).

Inductive hist_run : list store_op → Hist → Prop :=
| hr_start op a : hist_start op a → hist_run [op] a
| hr_step ops op a a' : hist_run ops a → hist_step a op a' → hist_run (ops ++ [op]) a'.

(** ** The simulation *)
Record refines (a : Hist) (d : StateDB) : Prop := {
  rf_vals : chain_db (hi_vals a) (hi_lo a) (next_height (hi_state a) + 1) (sm_LastHeightValidatorsChanged (hi_state a)) d;
  rf_params : param_db (hi_params a) (hi_lo a) (next_height (hi_state a)) (sm_LastHeightConsensusParamsChanged (hi_state a)) d;
  rf_params_last : hi_params a (next_height (hi_state a)) = sm_ConsensusParams (hi_state a);
  rf_vals_last : hi_vals a (next_height (hi_state a) + 1) = set_infos (sm_NextValidators (hi_state a));
  rf_height : 0 ≤ sm_LastBlockHeight (hi_state a) ∧ 0 < sm_InitialHeight (hi_state a) ∧ next_height (hi_state a) + 1 < 2 ^ 63;
  rf_storable : storable (hi_state a);
  rf_state : ∃ pb, State_ToProto (hi_state a) = Ok pb ∧ sd_state d = Some pb;
}.

(** What [updateState] makes of the fields the store looks at. *)
Lemma updateState_fields st id header txs resp ups st0 : storable st → updateState st id header txs resp ups = Ok (Some st0) →
  (ups ≠ [] → ∀ n, sm_NextValidators st0 = Some n → good_set n) → BlockID_ValidateBasic id = None →
  storable st0 ∧ sm_LastBlockHeight st0 = h_Height header ∧ sm_InitialHeight st0 = sm_InitialHeight st ∧
  ((ups ≠ [] ∧ sm_LastHeightValidatorsChanged st0 = i64 (h_Height header + 2)) ∨
   (sm_LastHeightValidatorsChanged st0 = sm_LastHeightValidatorsChanged st ∧ set_infos (sm_NextValidators st0) = set_infos (sm_NextValidators st))) ∧
  (sm_LastHeightConsensusParamsChanged st0 = i64 (h_Height header + 1) ∨
   (sm_LastHeightConsensusParamsChanged st0 = sm_LastHeightConsensusParamsChanged st ∧ sm_ConsensusParams st0 = sm_ConsensusParams st)).
Proof.
  intros [(v & Ev & Gv) (n & En & Gn) _ _ Hp] E Hups Hid. unfold updateState, need in E. rewrite En, Ev in E. cbn [outcome_bind] in E.
  apply obind_Ok in E as ([err nv] & Ec & E). destruct err; [done|]. apply obind_Ok in E as ([[] nv'] & Ei & E).
  destruct (_ && _) eqn:Hval in E; [done|]. apply obind_Ok in E as (rh & _ & E). injection E as <-.
  assert (good_set nv' ∧ (ups = [] → infos (Validators nv') = infos (Validators n))) as [Gnv Hinf].
  { destruct (decide (ups = [])) as [Hu|Hu].
    - injection Ec as <-. destruct (increment_good n 1 Gn) as (s & Es & Gs & Hs); [lia|]. rewrite Es in Ei. by injection Ei as <-.
    - split; [by apply (Hups Hu nv')|done]. }
  cbn. split; [|split; [done|split; [done|split]]].
  - split; cbn; [by eexists|by eexists|by eexists|done|]. destruct (eb_ConsensusParamUpdates resp) as [u|]; [|done].
    cbn in Hval. apply negb_false_iff in Hval. unfold ValidateConsensusParams in Hval. apply bool_decide_eq_true in Hval. intros Heq. rewrite Heq in Hval. cbn in Hval. lia.
  - destruct (decide (ups = [])) as [Hu|Hu]; [right|left]; [split; [done|]|split; [done|f_equal; lia]]. rewrite En. cbn. by apply Hinf.
  - destruct (eb_ConsensusParamUpdates resp); [by left|by right].
Qed.

Lemma save_state_ok st d : storable st → ∃ pb, State_ToProto st = Ok pb ∧ save_state st d = Ok (None, set_sd_state pb d).
Proof. intros H. destruct (State_roundtrip st H) as (pb & E & _). exists pb. split; [done|]. unfold save_state, bind, lift. by rewrite E. Qed.

(** Writing the state leaves the records. *)
Lemma chain_db_vals V lo top lhc d d' : sd_vals d' = sd_vals d → chain_db V lo top lhc d → chain_db V lo top lhc d'.
Proof. destruct d, d'. cbn. intros ->. intros [H1 H2 H3 H4 H5 H6]. by split. Qed.
Lemma param_db_params P lo top lpc d d' : sd_params d' = sd_params d → param_db P lo top lpc d → param_db P lo top lpc d'.
Proof. destruct d, d'. cbn. intros ->. intros [H1 H2 H3 H4]. by split. Qed.

Lemma save_first st d : first_state st → ∃ d', state_Save st d = Ok (None, d') ∧ refines (first_hist st) d'.
Proof.
  intros [Hh Hi Hv Hp Hn Hs]. pose proof Hs as [(v & Ev & Gv) (n & En & Gn) _ _ Hne]. assert (next_height st = sm_InitialHeight st) as Hnh.
  { unfold next_height. rewrite Hh. by rewrite decide_True. }
  destruct (save_first_vals (sm_InitialHeight st) v d) as (d1 & E1 & C1); [lia|done|].
  destruct (save_chain _ _ _ _ (sm_InitialHeight st) d1 n C1 Gn) as (d2 & E2 & C2 & _).
  { right. split; [done|]. rewrite En, Ev in Hn. done. }
  destruct (saveConsensusParamsInfo (sm_InitialHeight st) (sm_InitialHeight st) (sm_ConsensusParams st) d2) as [[[] d3]| |] eqn:E3; try done.
  pose proof (params_first (sm_InitialHeight st) _ d2 ltac:(lia) Hne d3 E3) as P3. destruct (save_state_ok st d3 Hs) as (pb & Epb & E4).
  exists (set_sd_state pb d3). split.
  - unfold state_Save, and_then. rewrite Hh, bool_decide_eq_true_2 by done. rewrite Hv, Hp, Ev, En. unfold bind at 1. rewrite E1. cbn [outcome_bind].
    unfold bind at 1. rewrite i64_id by lia. rewrite E2. cbn [outcome_bind]. unfold bind at 1. rewrite E3. by cbn [outcome_bind].
  - injection E3 as <-. unfold first_hist. split; cbn [hi_vals hi_params hi_lo hi_state]; rewrite ?Hnh; try done; try lia.
    + rewrite Hv. eapply chain_db_vals; [|eapply chain_db_ext; [|exact C2]]; [done|]. intros h. unfold update_at. rewrite Ev. rewrite En, Ev in Hn. change (infos (Validators n) = infos (Validators v)) in Hn. rewrite Hn. destruct (decide (h = sm_InitialHeight st + 1)); reflexivity.
    + rewrite Hp. eapply param_db_params; [|exact P3]. done.
    + by exists pb.
Qed.

Lemma bootstrap_start st d : synced_state st → ∃ d', state_Bootstrap st d = Ok (None, d') ∧ refines (synced_hist st) d'.
Proof.
  intros [Hh Hi Hv Hp Hs]. pose proof Hs as [(v & Ev & Gv) (n & En & Gn) Hl _ Hne]. destruct Hl as (l & El & Gl); [lia|].
  assert (next_height st = sm_LastBlockHeight st + 1) as Hnh. { unfold next_height. rewrite i64_id by lia. by rewrite decide_False by lia. }
  set (h := next_height st) in *.
  destruct (save_first_vals (h - 1) l d) as (d0 & E0 & _); [lia|done|]. destruct (save_first_vals h v d0) as (d1 & E1 & C1); [lia|done|].
  destruct (save_chain _ _ _ _ (h + 1) d1 n C1 Gn) as (d2 & E2 & C2 & _); [by left|].
  destruct (saveConsensusParamsInfo h h (sm_ConsensusParams st) d2) as [[[] d3]| |] eqn:E3; try done.
  pose proof (params_first h _ d2 ltac:(lia) Hne d3 E3) as P3. destruct (save_state_ok st d3 Hs) as (pb & Epb & E4).
  exists (set_sd_state pb d3). split.
  - unfold state_Bootstrap, and_then. change (if decide (i64 (sm_LastBlockHeight st + 1) = 1) then sm_InitialHeight st else i64 (sm_LastBlockHeight st + 1)) with h.
    rewrite bool_decide_eq_true_2 by lia. rewrite El. unfold IsNilOrEmpty. rewrite bool_decide_eq_false_2 by apply Gl. cbn [negb andb].
    unfold bind at 1. rewrite E0. cbn [outcome_bind]. unfold bind at 1. rewrite Ev, E1. cbn [outcome_bind]. unfold bind at 1. rewrite i64_id by lia.
    rewrite En, E2. cbn [outcome_bind]. unfold bind at 1. rewrite Hp, E3. by cbn [outcome_bind].
  - injection E3 as <-. unfold synced_hist. split; cbn [hi_vals hi_params hi_lo hi_state]; fold h; try done; try lia.
    + rewrite Hv. apply (chain_db_vals _ _ _ _ d2); [done|]. rewrite Ev, En. exact C2.
    + rewrite Hp. eapply param_db_params; [|exact P3]. done.
    + unfold update_at. by rewrite decide_True.
    + by exists pb.
Qed.

Lemma save_next a st' a' d : refines a d → hist_step a (OpSave st') a' → ∃ d', state_Save st' d = Ok (None, d') ∧ refines a' d'.
Proof.
  intros [RV RP RL RN (Hh & Hi & Hb) RS _] Hstep. inversion Hstep as [V P lo st id header txs resp ups st0 app Eu Hd Hmax Hid Hups|]; subst; clear Hstep.
  cbn [hi_vals hi_params hi_lo hi_state] in *. destruct (updateState_fields _ _ _ _ _ _ _ RS Eu Hups Hid) as (S0 & Hh0 & Hi0 & Hv & Hp).
  pose proof (pd_range _ _ _ _ _ RP) as Hr. rewrite Hd in *. set (h := next_height st) in *. set (st' := set_AppHash app st0).
  assert (storable st') as S' by by destruct S0. destruct S0 as [_ (n & En & Gn) _ _ Hne].
  assert (next_height st' = h + 1) as Hnh. { unfold next_height. cbn. rewrite Hh0, i64_id by lia. rewrite decide_False by lia. done. }
  destruct (save_chain _ _ _ _ (sm_LastHeightValidatorsChanged st0) d n RV Gn) as (d1 & E1 & C1 & Ep1).
  { destruct Hv as [[_ Hv]|[-> Hv]]; [left; rewrite Hv; rewrite i64_id; lia|right]. split; [done|]. rewrite En in Hv. by rewrite RN, <-Hv. }
  destruct (saveConsensusParamsInfo (h + 1) (sm_LastHeightConsensusParamsChanged st0) (sm_ConsensusParams st0) d1) as [[[] d2]| |] eqn:E2; try done.
  assert (param_db (update_at P (h + 1) (sm_ConsensusParams st0)) lo (h + 1) (sm_LastHeightConsensusParamsChanged st0) d2) as P2.
  { eapply params_next; [by eapply param_db_params|done| |exact E2]. destruct Hp as [Hp|[-> Hp]]; [left; rewrite Hp; rewrite i64_id; lia|right]. by rewrite Hp, RL. }
  destruct (save_state_ok st' d2 S') as (pb & Epb & E3). exists (set_sd_state pb d2). split.
  - unfold state_Save, and_then. replace (sm_LastBlockHeight st') with h by done. rewrite i64_id by lia. rewrite bool_decide_eq_false_2 by lia.
    unfold bind at 1, ret at 1. cbn [outcome_bind]. rewrite i64_id by lia. unfold bind at 1. change (sm_NextValidators st') with (sm_NextValidators st0). rewrite En. change (sm_LastHeightValidatorsChanged st') with (sm_LastHeightValidatorsChanged st0). rewrite E1.
    cbn [outcome_bind]. unfold bind at 1. change (saveConsensusParamsInfo _ _ _ d1) with (saveConsensusParamsInfo (h + 1) (sm_LastHeightConsensusParamsChanged st0) (sm_ConsensusParams st0) d1).
    rewrite E2. by cbn [outcome_bind].
  - injection E2 as <-. split; cbn [hi_vals hi_params hi_lo hi_state]; rewrite ?Hnh.
    + apply (chain_db_vals _ _ _ _ d1); [done|]. replace (h + 2) with (h + 1 + 1) by lia. rewrite En. exact C1.
    + eapply param_db_params; [|exact P2]. done.
    + unfold update_at. by rewrite decide_True.
    + unfold update_at. by rewrite decide_True by lia.
    + cbn. lia.
    + done.
    + by exists pb.
Qed.

Lemma prune_next a from to a' d : refines a d → hist_step a (OpPrune from to) a' → ∃ d', PruneStates from to d = Ok (None, d') ∧ refines a' d'.
Proof.
  intros [RV RP RL RN RH RS RT] Hstep. inversion Hstep as [|V P lo st to' Hto]; subst; clear Hstep. cbn [hi_vals hi_params hi_lo hi_state] in *.
  destruct (PruneStates_chain _ _ _ _ _ _ _ to RV RP Hto) as (d' & E & C & Pc & Es). exists d'. split; [done|]. split; cbn [hi_vals hi_params hi_lo hi_state]; try done. by rewrite Es.
Qed.

Lemma run_ops_snoc ops op d d1 : run_ops ops d = Ok (None, d1) → run_ops (ops ++ [op]) d = run_op op d1.
Proof.
  revert d. induction ops as [|o ops IH]; intros d; cbn [run_ops app].
  - intros [= <-]. unfold and_then, bind. destruct (run_op op d) as [[[e|] d2]| |]; done.
  - unfold and_then, bind. destruct (run_op o d) as [[[e|] d2]| |]; cbn; [done|apply IH|done..].
Qed.

Lemma run_refines ops a d0 : hist_run ops a → ∃ d, run_ops ops d0 = Ok (None, d) ∧ refines a d.
Proof.
  induction 1 as [op a Hs|ops op a a' Hr IH Hstep].
  - assert (∃ d, run_op op d0 = Ok (None, d) ∧ refines a d) as (d & E & R) by (destruct Hs; [by apply save_first|by apply bootstrap_start]).
    exists d. split; [|done]. etrans; [exact (run_ops_snoc [] op d0 d0 eq_refl)|exact E].
  - destruct IH as (d & E & R). assert (∃ d', run_op op d = Ok (None, d') ∧ refines a' d') as (d' & E' & R').
    { destruct op as [st'|st'|from to]; [by eapply save_next|inversion Hstep|by eapply prune_next]. }
    exists d'. split; [|done]. by rewrite (run_ops_snoc _ _ _ _ E).
Qed.

(** C17: The state store implements its specification, on any database it starts from: saving the first state of a chain, or
    the state of a node that joins by state sync, and then the state that executing each block gives, with prunings in between, never fails; and afterwards, for every height that was not pruned up to the
    next two, [LoadValidators] answers with the validators of that height (up to priorities, and ready to be incremented), although
    most heights only store a pointer, [LoadConsensusParams] with its parameters, and [Load] with the last state. *)
Theorem state_store_refines ops a d0 : hist_run ops a →
  ∃ d, run_ops ops d0 = Ok (None, d) ∧
    (∀ h, hi_lo a ≤ h ≤ next_height (hi_state a) + 1 →
       ∃ vs, state_LoadValidators h d = Ok (inl vs) ∧ good_set vs ∧ infos (Validators vs) = hi_vals a h) ∧
    (∀ h, hi_lo a ≤ h ≤ next_height (hi_state a) → LoadConsensusParams h d = inl (hi_params a h)) ∧
    store_Load d = Ok (inl (reloaded (hi_state a))).
Proof.
  intros Hr. destruct (run_refines ops a d0 Hr) as (d & E & [RV RP _ _ _ RS (pb & Ep & Es)]). exists d. split; [done|]. split; [|split].
  - intros h Hh. apply LoadValidators_at. by eapply cd_vals.
  - intros h Hh. by eapply LoadConsensusParams_at.
  - unfold store_Load. rewrite Es. destruct (State_roundtrip _ RS) as (pb' & Ep' & El). rewrite Ep in Ep'. by injection Ep' as <-.
Qed.
End runs.
