(* ===== verification/TmGenesis.v ===== *)
(** The genesis of a chain: src/sourcecodes/tendermint/types/genesis.go, MakeGenesisState of state/state.go and the loading of the state or
    the genesis of state/store.go.  A document that names its validators properly gives a first state that the state store accepts.

    The state of the application and the names of the validators are not kept in the state and are left out, as is the reading of the
    file.  A key may be absent, and a list of validators may be absent or empty. *)

From S2P Require Import Prelude TmBits TmValidators TmPriority TmValUpdate TmTypes TmCommit TmVotes TmVoteInv TmVoteSafety.
From S2P Require Import TmMerkle TmPartSet TmPrivval TmHeightVotes TmBlock TmStore TmState TmConsensus TmConsVotes TmConsInv TmExec TmStateStore TmStateFacts TmStateRuns.

(** ** Data *)
Inductive genesis_error := ErrNoChainID | ErrLongChainID | ErrNegativeInitialHeight | ErrBadParams | ErrNoPower | ErrIncorrectAddress.
Record GenesisValidator := mkGenesisValidator { gv_Address : bytes; gv_PubKey : option bytes; gv_Power : Z }.
(** [gd_Time] is [None] for the zero time. *)
Record GenesisDoc := mkGenesisDoc {
  gd_Time : option Z; gd_ChainID : bytes; gd_InitialHeight : Z; gd_Params : option ConsensusParams; gd_Validators : option (list GenesisValidator);
  gd_AppHash : bytes }.
Definition set_gd_height (h : Z) (g : GenesisDoc) : GenesisDoc := mkGenesisDoc (gd_Time g) (gd_ChainID g) h (gd_Params g) (gd_Validators g) (gd_AppHash g).
Definition set_gd_params (p : ConsensusParams) (g : GenesisDoc) : GenesisDoc :=
  mkGenesisDoc (gd_Time g) (gd_ChainID g) (gd_InitialHeight g) (Some p) (gd_Validators g) (gd_AppHash g).
Definition set_gd_validators (l : list GenesisValidator) (g : GenesisDoc) : GenesisDoc :=
  mkGenesisDoc (gd_Time g) (gd_ChainID g) (gd_InitialHeight g) (gd_Params g) (Some l) (gd_AppHash g).
Definition set_gd_time (t : Z) (g : GenesisDoc) : GenesisDoc :=
  mkGenesisDoc (Some t) (gd_ChainID g) (gd_InitialHeight g) (gd_Params g) (gd_Validators g) (gd_AppHash g).

Definition DefaultConsensusParams : ConsensusParams :=
  mkParams 22020096 (-1) 1000 100000 (48 * 3600 * 10 ^ 9) 1048576 [ABCIPubKeyTypeEd25519] 0.

Section genesis.
Context {CR : Crypto} {GS : GoSort}.

(** ** Operations *)

(** The validators with their addresses, up to the first error. *)
Fixpoint complete_vals (l : list GenesisValidator) : outcome (list GenesisValidator * option genesis_error) :=
  match l with
  | [] => Ok ([], None)
  | v :: l' =>
      if decide (gv_Power v = 0) then Ok (v :: l', Some ErrNoPower) else
      match gv_PubKey v with
      | None => Panic
      | Some k =>
          if decide (gv_Address v ≠ [] ∧ key_Address k ≠ gv_Address v) then Ok (v :: l', Some ErrIncorrectAddress) else
          let v' := if decide (gv_Address v = []) then mkGenesisValidator (key_Address k) (gv_PubKey v) (gv_Power v) else v in
          let! (r, e) := complete_vals l' in Ok (v' :: r, e)
      end
  end.

Definition ValidateAndComplete (now : Z) : M GenesisDoc (option genesis_error) :=
  g <- gets id ;;
  if decide (gd_ChainID g = []) then ret (Some ErrNoChainID) else
  if decide (MaxChainIDLen < len (gd_ChainID g)) then ret (Some ErrLongChainID) else
  if decide (gd_InitialHeight g < 0) then ret (Some ErrNegativeInitialHeight) else
  (if decide (gd_InitialHeight g = 0) then modify (set_gd_height 1) else ret tt) ;;;
  ok <- match gd_Params g with
        | None => modify (set_gd_params DefaultConsensusParams) ;;; ret true
        | Some p => ret (ValidateConsensusParams p)
        end ;;
  if negb ok then ret (Some ErrBadParams) else
  e <- match gd_Validators g with
       | None => ret None
       | Some l => r <- lift (complete_vals l) ;; modify (set_gd_validators (fst r)) ;;; ret (snd r)
       end ;;
  match e with
  | Some e => ret (Some e)
  | None => (match gd_Time g with None => modify (set_gd_time now) | Some _ => ret tt end) ;;; ret None
  end.

Definition InitStateVersion : Consensus := mkConsensusVersion BlockProtocol 0.

(** [NewValidator] asks the key for its address. *)
Definition genesis_validators (l : list GenesisValidator) : outcome (list Validator) :=
  need (mapM (λ v, (λ k, NewValidator key_Address k (gv_Power v)) <$> gv_PubKey v) l).

Definition MakeGenesisState (now : Z) (genDoc : GenesisDoc) : outcome (smState + genesis_error) :=
  let! (err, g) := ValidateAndComplete now genDoc in
  match err with
  | Some e => Ok (inr e)
  | None =>
      let! (validatorSet, nextValidatorSet) :=
        match gd_Validators g with
        | None => let! v := NewValidatorSet [] in let! n := NewValidatorSet [] in Ok (v, n)
        | Some l =>
            let! validators := genesis_validators l in
            let! v := NewValidatorSet validators in
            let! n := NewValidatorSet validators in
            let! n := CopyIncrementProposerPriority n 1 in Ok (v, n)
        end in
      let! last := NewValidatorSet [] in
      let! time := need (gd_Time g) in
      let! params := need (gd_Params g) in
      Ok (inl (mkState InitStateVersion (gd_ChainID g) (gd_InitialHeight g) 0 BlockID_nil time (Some nextValidatorSet) (Some validatorSet)
                 (Some last) (gd_InitialHeight g) params (gd_InitialHeight g) [] (gd_AppHash g)))
  end.

Definition LoadFromDBOrGenesisDoc (now : Z) (genDoc : GenesisDoc) (d : StateDB) : outcome (smState + (store_error + genesis_error)) :=
  let! r := store_Load d in
  match r with
  | inr e => Ok (inr (inl e))
  | inl st => if negb (IsEmpty st) then Ok (inl st) else
      let! r := MakeGenesisState now genDoc in Ok (match r with inl st => inl st | inr e => inr (inr e) end)
  end.

(** ** New sets *)
Lemma validate_all_intro l : ∀ i, (∀ v, v ∈ infos l → Validator_ValidateBasic (Some v) = None) → validate_all i l = None.
Proof.
  induction l as [|v l IH]; intros i H; [done|]. cbn [validate_all]. rewrite H by (apply elem_of_cons; by left).
  apply IH. intros w Hw. apply H. apply elem_of_cons. by right.
Qed.

Lemma room_perm l l' : infos l ≡ₚ infos l' → room l' → room l.
Proof. intros Hp. destruct (infos_perm_wf l l' Hp) as (E & _ & _ & El). unfold room. by rewrite E, El. Qed.

Lemma NewValidatorSet_good valz : valz ≠ [] → valid_changes valz false [] → room valz →
  (∀ v, v ∈ infos valz → Validator_ValidateBasic (Some v) = None) →
  ∃ s, NewValidatorSet valz = Ok s ∧ good_set s ∧ infos (Validators s) ≡ₚ infos valz.
Proof.
  intros Hne Hv Hroom Hb. set (s0 := mkValidatorSet [] None 0). assert (wf_vals s0) as Hw0.
  { split; [constructor|constructor|vm_compute; discriminate|by left]. }
  destruct (update_success s0 valz false Hw0) as (s1 & E1 & B1 & I1 & _ & _); [intros v []%elem_of_nil|done|done|].
  assert (infos (Validators s1) ≡ₚ infos valz) as Hi.
  { rewrite I1. unfold applied. cbn [Validators s0]. rewrite filter_nil, app_nil_r. rewrite list_filter_all; [done|].
    intros v Hin. exact (proj1 (Forall_forall _ _) (vc_allowed _ _ _ Hv eq_refl) v Hin). }
  assert (room (Validators s1)) as Hr1 by (by eapply room_perm).
  destruct (IncrementProposerPriority_runs s1 1) as (s2 & p & E2 & B2 & S2 & R2 & I2 & P2 & Hp & _); [apply B1|apply B1|by apply balanced_spread|done|lia|].
  exists s2. assert (infos (Validators s2) ≡ₚ infos valz) as Hi2 by by rewrite I2. split.
  - unfold NewValidatorSet. fold s0. rewrite E1. cbn [outcome_bind]. destruct valz; [done|]. by rewrite E2.
  - split; [|done]. split; [apply B2|apply B2|done|done|]. apply basic_parts. split; [apply B2|]. split.
    + apply validate_all_intro. intros v Hin. apply Hb. by rewrite <-Hi2.
    + rewrite P2. apply Hb. by rewrite <-Hi.
Qed.

(** Anything else panics. *)
Lemma NewValidatorSet_bad valz : valz ≠ [] → ¬ valid_changes valz false [] → NewValidatorSet valz = Panic.
Proof.
  intros Hne Hv. set (s0 := mkValidatorSet [] None 0). assert (wf_vals s0) as Hw0.
  { split; [constructor|constructor|vm_compute; discriminate|by left]. }
  destruct (update_failure s0 valz false Hw0 Hne Hv) as (e & s1 & E & _). unfold NewValidatorSet. fold s0. rewrite E. done.
Qed.

(** ** A document that passes the checks *)
Record accepted (g : GenesisDoc) (l : list GenesisValidator) : Prop := {
  ac_chain : gd_ChainID g ≠ [] ∧ len (gd_ChainID g) ≤ MaxChainIDLen;
  ac_height : 0 ≤ gd_InitialHeight g;
  ac_params : ∀ p, gd_Params g = Some p → ValidateConsensusParams p = true;
  ac_vals : gd_Validators g = Some l;
  ac_val : ∀ v, v ∈ l → gv_Power v ≠ 0 ∧ ∃ k, gv_PubKey v = Some k ∧ (gv_Address v = [] ∨ gv_Address v = key_Address k);
}.

Lemma complete_vals_ok l : (∀ v, v ∈ l → gv_Power v ≠ 0 ∧ ∃ k, gv_PubKey v = Some k ∧ (gv_Address v = [] ∨ gv_Address v = key_Address k)) →
  ∃ l', complete_vals l = Ok (l', None) ∧ genesis_validators l' = genesis_validators l.
Proof.
  unfold genesis_validators. induction l as [|v l IH]; intros H; [by exists []|].
  destruct (H v) as (Hp & k & Hk & Ha); [apply elem_of_cons; by left|]. destruct IH as (l' & E & El); [intros w Hw; apply H, elem_of_cons; by right|].
  cbn [complete_vals]. rewrite decide_False by done. rewrite Hk. rewrite decide_False by (destruct Ha as [->| ->]; tauto). rewrite E. cbn [outcome_bind].
  eexists. split; [done|]. cbn [mapM].
  match goal with |- need (?f ?x ≫= _) = _ => assert (f x = Some (NewValidator key_Address k (gv_Power v))) as -> by (case_decide; by rewrite ?Hk) end.
  rewrite Hk. cbn [mbind option_bind fmap option_fmap option_map]. destruct (mapM _ l'), (mapM _ l); try done. by injection El as ->.
Qed.

Lemma genesis_basic l valz : genesis_validators l = Ok valz → (∀ k, len (key_Address k) = AddressSize) → valid_changes valz false [] →
  ∀ v, v ∈ infos valz → Validator_ValidateBasic (Some v) = None.
Proof.
  intros E Hk Hv v (w & -> & Hw)%list_elem_of_fmap. unfold genesis_validators, need in E. destruct (mapM _ l) as [ws|] eqn:Em; [|done]. injection E as ->.
  pose proof (proj1 (Forall_forall _ _) (vc_range _ _ _ Hv) w Hw) as Hr. cbn in Hr.
  apply mapM_Some in Em. apply list_elem_of_lookup in Hw as [i Hi]. destruct (Forall2_lookup_r _ _ _ _ _ Em Hi) as (x & _ & Ex). cbn in Ex. destruct (gv_PubKey x) as [k|]; [|done]. injection Ex as <-.
  cbn in *. rewrite decide_False by lia. rewrite decide_False; [done|]. pose proof (Hk k). unfold len in *. tauto.
Qed.

Lemma ValidateAndComplete_ok now g l : accepted g l → ∃ g' l', ValidateAndComplete now g = Ok (None, g') ∧
  gd_ChainID g' = gd_ChainID g ∧ gd_InitialHeight g' = Z.max 1 (gd_InitialHeight g) ∧ gd_Validators g' = Some l' ∧ genesis_validators l' = genesis_validators l ∧
  gd_Time g' = Some (default now (gd_Time g)) ∧ ∃ p, gd_Params g' = Some p ∧ ValidateConsensusParams p = true.
Proof.
  intros [[Hc1 Hc2] Hh Hp Hv Hl]. destruct (complete_vals_ok l Hl) as (l' & El & Eg). unfold ValidateAndComplete, bind, gets, ret, modify, lift, id.
  cbn [outcome_bind]. rewrite decide_False by done. rewrite !decide_False by lia. rewrite Hv, El.
  destruct g as [t c h p vs a]. cbn in *. destruct (decide (h = 0)) as [->|Hn], p as [p|], t as [t|]; cbn; rewrite ?Hp by done; cbn;
    (eexists _, l'; split; [done|]; cbn; split_and!; try done; try lia; eexists; split; [done|]; try (by apply Hp); by vm_compute).
Qed.

(** C30: The first state of a chain.  From a document that passes the checks of [ValidateAndComplete] and names at least one validator,
    [MakeGenesisState] makes a state with these validators that the state store can save and that a restart reads back, whatever the document
    is by then, provided the validators are distinct, have positive powers and a total in bounds.  These conditions are not among the
    checks: when they fail the node panics instead of refusing the document. *)
Theorem genesis_state now g l valz : accepted g l → genesis_validators l = Ok valz → valz ≠ [] → gd_InitialHeight g < 2 ^ 63 - 1 →
  (∀ k, len (key_Address k) = AddressSize) →
  (valid_changes valz false [] → room valz → ∃ st, MakeGenesisState now g = Ok (inl st) ∧ first_state st ∧ set_infos (sm_Validators st) ≡ₚ infos valz ∧
     ∀ d, ∃ d', state_Save st d = Ok (None, d') ∧ ∀ now' g', LoadFromDBOrGenesisDoc now' g' d' = Ok (inl (reloaded st))) ∧
  (¬ valid_changes valz false [] → MakeGenesisState now g = Panic).
Proof.
  intros Ha Eg Hne Hmax Hk. destruct (ValidateAndComplete_ok now g l Ha) as (g' & l' & E & Ec & Eh & Ev & Eg' & Et & p & Ep & Hp).
  unfold MakeGenesisState. rewrite E. cbn [outcome_bind]. rewrite Ev, Eg', Eg, Et, Ep. cbn [outcome_bind need]. split.
  - intros Hv Hr. destruct (NewValidatorSet_good valz Hne Hv Hr) as (s & Es & G & I); [by eapply genesis_basic|]. rewrite Es. cbn [outcome_bind].
    unfold CopyIncrementProposerPriority. destruct (increment_good s 1 G) as (n & En & Gn & In); [lia|]. rewrite En. cbn [outcome_bind].
    change (NewValidatorSet []) with (Ok (mkValidatorSet [] None 0)). cbn [outcome_bind]. eexists. split; [done|].
    match goal with |- first_state ?x ∧ _ => set (st := x) end. assert (first_state st) as F.
    { split; cbn; try done; [pose proof (ac_height _ _ Ha); lia|].
      split; cbn; [by eexists|by eexists|lia|done|]. intros ->. by vm_compute in Hp. }
    split; [done|]. split; [done|]. intros d. destruct (save_first st d F) as (d' & Es' & R). exists d'. split; [done|]. intros now' g0.
    destruct (rf_state _ _ R) as (pb & Epb & Ed). destruct (State_roundtrip st (fs_storable _ F)) as (pb' & Epb' & El). 
    unfold LoadFromDBOrGenesisDoc, store_Load. cbn [hi_state first_hist] in Epb. rewrite Ed. rewrite Epb in Epb'. injection Epb' as <-. rewrite El. done.
  - intros Hv. by rewrite NewValidatorSet_bad.
Qed.
End genesis.
