(* ===== verification/TmStateSample.v ===== *)
(** A concrete run of the state store: the first state of four validators, a block that adds a fifth validator and changes the parameters,
    a block that changes nothing, and a pruning; and two genesis documents. *)

From S2P Require Import Prelude TmBits TmValidators TmPriority TmValUpdate TmTypes TmCommit TmVotes TmVoteInv TmVoteSafety.
From S2P Require Import TmMerkle TmPartSet TmPrivval TmHeightVotes TmBlock TmStore TmState TmConsensus TmConsVotes TmConsInv TmExec TmConsSample TmStateStore TmStateFacts TmStateRuns TmGenesis.

#[local] Existing Instances merge_GoSort net_crypto net_services net_BC.

(** ** The states *)
Definition ss_set : ValidatorSet := mkValidatorSet net_validators (head (infos net_validators)) 4.
Definition ss_next : ValidatorSet := match IncrementProposerPriority 1 ss_set with Ok (_, s) => s | _ => ss_set end.
Definition ss_first : smState :=
  mkState (mkConsensusVersion BlockProtocol 0) net_chain 1 0 BlockID_nil 5 (Some ss_next) (Some ss_set)
    (Some (mkValidatorSet [] None 0)) 1 net_params 1 [] [].
Definition ss_header (height : Z) : BlockHeader :=
  mkHeader (mkConsensusVersion 11 0) net_chain height (height * 10) 0 0 BlockID_nil None None [] [] [] [] [] None (take 20 (net_key 1)).
Definition ss_id : BlockID := mkBlockID (replicate 32 5) (mkPartSetHeader 1 (replicate 32 4)).
Definition ss_new : list Validator := [mkValidator (mkValInfo (take 20 (net_key 5)) (Some (net_key 5)) 3) 0].
Definition ss_resp : ResponseEndBlock := mkEndBlock [] (Some (mkParamUpdates (Some (1048576, -1)) None None None)).
Definition ss_after (st : smState) (height : Z) (resp : ResponseEndBlock) (ups : list Validator) : smState :=
  match updateState st ss_id (ss_header height) [] resp ups with Ok (Some st') => st' | _ => st end.
Definition ss_state1 : smState := Eval vm_compute in ss_after ss_first 1 ss_resp ss_new.
Definition ss_state2 : smState := Eval vm_compute in ss_after (set_AppHash [1] ss_state1) 2 (mkEndBlock [] None) [].
Definition ss_ops : list store_op := [OpSave ss_first; OpSave (set_AppHash [1] ss_state1); OpSave (set_AppHash [2] ss_state2); OpPrune 1 2].

(** ** What the theorem asks of them *)
Definition good_check (s : ValidatorSet) : bool :=
  bool_decide (NoDup (addresses (Validators s))) && bool_decide (Forall (λ v : Validator, 0 < VotingPower v) (Validators s)) &&
  bool_decide (power (Validators s) ≤ 1000) && bool_decide (totalVotingPower s = power (Validators s)) && bool_decide (Validators s ≠ []) &&
  bool_decide (Forall (λ v, -1000 ≤ ProposerPriority v ≤ 1000) (Validators s)) && bool_decide (length (Validators s) ≤ 10)%nat &&
  match ValidatorSet_ValidateBasic (Some s) with None => true | _ => false end.
Lemma good_check_ok s : good_check s = true → good_set s.
Proof.
  unfold good_check. intros H. repeat (apply andb_true_iff in H as [H ?]).
  repeat match goal with E : bool_decide _ = true |- _ => apply bool_decide_eq_true in E end.
  assert (Hmax : 1000 ≤ MaxTotalVotingPower) by (vm_compute; discriminate). split.
  - split; [done|done|lia|by right].
  - done.
  - exists (-1000), 1000. split; [intros v Hv; match goal with F : Forall (λ v, -1000 ≤ _ ≤ _) _ |- _ => exact (proj1 (Forall_forall _ _) F v Hv) end|]. unfold is_i64, MaxInt64, MinInt64. lia.
  - unfold room, MaxInt64. nia.
  - by destruct (ValidatorSet_ValidateBasic (Some s)).
Qed.

Lemma ss_first_ok : first_state ss_first.
Proof.
  split; [done|cbn; lia|done|done|vm_compute; reflexivity|].
  split; [eexists; split; [reflexivity|]; apply good_check_ok; vm_compute; reflexivity..|cbn; lia|vm_compute; reflexivity|discriminate].
Qed.

Definition ss_hist1 : Hist :=
  mkHist (update_at (hi_vals (first_hist ss_first)) 3 (set_infos (sm_NextValidators ss_state1)))
    (update_at (hi_params (first_hist ss_first)) 2 (sm_ConsensusParams ss_state1)) 1 (set_AppHash [1] ss_state1).
Definition ss_hist2 : Hist :=
  mkHist (update_at (hi_vals ss_hist1) 4 (set_infos (sm_NextValidators ss_state2))) (update_at (hi_params ss_hist1) 3 (sm_ConsensusParams ss_state2)) 1
    (set_AppHash [2] ss_state2).
Definition ss_hist3 : Hist := mkHist (hi_vals ss_hist2) (hi_params ss_hist2) 2 (set_AppHash [2] ss_state2).

Lemma ss_update1 : updateState ss_first ss_id (ss_header 1) [] ss_resp ss_new = Ok (Some ss_state1).
Proof. vm_compute. reflexivity. Qed.
Lemma ss_update2 : updateState (set_AppHash [1] ss_state1) ss_id (ss_header 2) [] (mkEndBlock [] None) [] = Ok (Some ss_state2).
Proof. vm_compute. reflexivity. Qed.

Lemma ss_run : hist_run ss_ops ss_hist3.
Proof.
  refine (hr_step [_; _; _] (OpPrune 1 2) ss_hist2 _ (hr_step [_; _] _ ss_hist1 _ (hr_step [_] _ _ _ (hr_start _ _ (start_first _ ss_first_ok)) _) _) _).
  - refine (hs_save _ _ _ _ _ _ _ _ _ _ [1] ss_update1 _ _ _ _); [reflexivity|vm_compute; reflexivity..|].
    intros _ n [= <-]. apply good_check_ok. vm_compute. reflexivity.
  - refine (hs_save _ _ _ _ _ _ _ _ _ _ [2] ss_update2 _ _ _ _); [reflexivity|vm_compute; reflexivity..|]. done.
  - apply hs_prune. vm_compute. split; [reflexivity|discriminate].
Qed.

Lemma state_store_refines_witness : hist_run ss_ops ss_hist3 ∧
  ∃ d, run_ops ss_ops (mkStateDB None ∅ ∅ ∅ None) = Ok (None, d) ∧
    (∀ h, 2 ≤ h ≤ 4 → ∃ vs, state_LoadValidators h d = Ok (inl vs) ∧ good_set vs ∧ infos (Validators vs) = hi_vals ss_hist3 h) ∧
    (∀ h, 2 ≤ h ≤ 3 → LoadConsensusParams h d = inl (hi_params ss_hist3 h)) ∧ store_Load d = Ok (inl (reloaded (set_AppHash [2] ss_state2))).
Proof.
  split; [exact ss_run|]. exact (state_store_refines ss_ops ss_hist3 (mkStateDB None ∅ ∅ ∅ None) ss_run).
Defined.

(** ** A genesis with two validators, and one with a negative power *)
Definition gs_crypto : Crypto := {|
  VerifySignature := λ k _ sig, bool_decide (sig = k);
  key_Address := λ k, take 20 (k ++ replicate 20 0);
  MarshalVote := sample_MarshalVote; UnmarshalVote := sample_UnmarshalVote;
  MarshalProposal := sample_MarshalProposal; UnmarshalProposal := sample_UnmarshalProposal |}.
Definition gs_list (power : Z) : list GenesisValidator :=
  [mkGenesisValidator [] (Some (net_key 1)) 10; mkGenesisValidator (replicate 20 2) (Some (net_key 2)) power].
Definition gs_doc (power : Z) : GenesisDoc := mkGenesisDoc None net_chain 0 None (Some (gs_list power)) [].
Definition gs_valz (power : Z) : list Validator := (λ '(i, p), NewValidator (key_Address (Crypto := gs_crypto)) (net_key i) p) <$> [(1, 10); (2, power)].

Lemma gs_accepted power : power ≠ 0 → accepted (CR := gs_crypto) (gs_doc power) (gs_list power).
Proof.
  intros Hp. split; [split; [done|vm_compute; discriminate]|cbn; lia|done|done|].
  intros v [->|[->|[]%elem_of_nil]%elem_of_cons]%elem_of_cons; (split; [done|]); eexists; (split; [done|]); [by left|by right].
Qed.
Lemma gs_size k : len (key_Address (Crypto := gs_crypto) k) = AddressSize.
Proof. unfold len. cbn [key_Address gs_crypto]. rewrite length_take, length_app, length_replicate. unfold AddressSize. lia. Qed.

Lemma genesis_state_witness :
  (∃ st, MakeGenesisState (CR := gs_crypto) 8 (gs_doc 5) = Ok (inl st) ∧ first_state st ∧ set_infos (sm_Validators st) ≡ₚ infos (gs_valz 5) ∧
     ∀ d, ∃ d', state_Save st d = Ok (None, d') ∧ ∀ now' g', LoadFromDBOrGenesisDoc (CR := gs_crypto) now' g' d' = Ok (inl (reloaded st))) ∧
  MakeGenesisState (CR := gs_crypto) 8 (gs_doc (-5)) = Panic.
Proof.
  split.
  - apply (genesis_state (CR := gs_crypto) 8 (gs_doc 5) (gs_list 5) (gs_valz 5)); [by apply gs_accepted|reflexivity|done|reflexivity|exact gs_size| |vm_compute; discriminate].
    split; [apply (bool_decide_unpack _); vm_compute; exact I|apply (bool_decide_unpack _); vm_compute; exact I|apply (bool_decide_unpack _); vm_compute; exact I|intros _; apply (bool_decide_unpack _); vm_compute; exact I| |done|vm_compute; discriminate].
    intros v Hv Hp. exfalso. revert Hp. apply (proj1 (Forall_forall (λ v : Validator, VotingPower v ≠ 0) (gs_valz 5))); [|done]. apply (bool_decide_unpack _). vm_compute. exact I.
  - apply (genesis_state (CR := gs_crypto) 8 (gs_doc (-5)) (gs_list (-5)) (gs_valz (-5))); [by apply gs_accepted|reflexivity|done|reflexivity|exact gs_size|].
    intros Hv. pose proof (vc_range _ _ _ Hv) as Hr. apply Forall_cons in Hr as [_ Hr]. apply Forall_cons in Hr as [Hr _]. vm_compute in Hr. by destruct Hr.
Defined.
