(* ===== verification/TmCList.v ===== *)
(** The concurrent list of src/sourcecodes/tendermint/libs/clist/clist.go: elements linked both ways, which readers keep and follow while
    others are removed.

    Elements live in a heap and are named by numbers.  A wait group and the channel next to it are done and closed together: they
    are one flag, and finishing them twice panics.  The mutexes are left out. *)

From S2P Require Import Prelude.

Section clist.
Context {A : Type}.

Record CElement := mkElem {
  ce_prev : option nat; ce_prevCh : bool; ce_next : option nat; ce_nextCh : bool; ce_removed : bool; ce_Value : A }.
Record CList := mkCList {
  cl_heap : gmap nat CElement; cl_fresh : nat; cl_waitCh : bool; cl_head : option nat; cl_tail : option nat; cl_len : Z; cl_maxLen : Z }.
Local Abbreviation L := (M CList).

Definition set_heap (h : gmap nat CElement) (c : CList) : CList := mkCList h (cl_fresh c) (cl_waitCh c) (cl_head c) (cl_tail c) (cl_len c) (cl_maxLen c).
Definition set_waitCh (b : bool) (c : CList) : CList := mkCList (cl_heap c) (cl_fresh c) b (cl_head c) (cl_tail c) (cl_len c) (cl_maxLen c).
Definition set_head (e : option nat) (c : CList) : CList := mkCList (cl_heap c) (cl_fresh c) (cl_waitCh c) e (cl_tail c) (cl_len c) (cl_maxLen c).
Definition set_tail (e : option nat) (c : CList) : CList := mkCList (cl_heap c) (cl_fresh c) (cl_waitCh c) (cl_head c) e (cl_len c) (cl_maxLen c).
Definition set_len (n : Z) (c : CList) : CList := mkCList (cl_heap c) (cl_fresh c) (cl_waitCh c) (cl_head c) (cl_tail c) n (cl_maxLen c).

(** ** Elements *)
Definition get (e : nat) : L CElement := c <- gets id ;; match cl_heap c !! e with Some x => ret x | None => panic end.
Definition put (e : nat) (x : CElement) : L unit := modify (λ c, set_heap (<[e := x]> (cl_heap c)) c).

Definition Next (e : nat) : L (option nat) := x <- get e ;; ret (ce_next x).
Definition Prev (e : nat) : L (option nat) := x <- get e ;; ret (ce_prev x).
Definition Value (e : nat) : L A := x <- get e ;; ret (ce_Value x).
Definition Removed (e : nat) : L bool := x <- get e ;; ret (ce_removed x).

(** What the blocking readers wait for: [None] while they wait. *)
Definition NextWait (e : nat) : L (option (option nat)) :=
  x <- get e ;; ret (if bool_decide (ce_next x ≠ None) || ce_removed x then Some (ce_next x) else None).
Definition PrevWait (e : nat) : L (option (option nat)) :=
  x <- get e ;; ret (if bool_decide (ce_prev x ≠ None) || ce_removed x then Some (ce_prev x) else None).

Definition DetachNext (e : nat) : L unit :=
  x <- get e ;; if negb (ce_removed x) then panic else put e (mkElem (ce_prev x) (ce_prevCh x) None (ce_nextCh x) (ce_removed x) (ce_Value x)).
Definition DetachPrev (e : nat) : L unit :=
  x <- get e ;; if negb (ce_removed x) then panic else put e (mkElem None (ce_prevCh x) (ce_next x) (ce_nextCh x) (ce_removed x) (ce_Value x)).

(** A fresh channel when the link goes away; closing it when there is one. *)
Definition channel (old new : option nat) (ch : bool) : outcome bool :=
  match old, new with
  | Some _, None => Ok false
  | None, Some _ => if ch then Panic else Ok true
  | _, _ => Ok ch
  end.
Definition SetNext (e : nat) (newNext : option nat) : L unit :=
  x <- get e ;; ch <- lift (channel (ce_next x) newNext (ce_nextCh x)) ;;
  put e (mkElem (ce_prev x) (ce_prevCh x) newNext ch (ce_removed x) (ce_Value x)).
Definition SetPrev (e : nat) (newPrev : option nat) : L unit :=
  x <- get e ;; ch <- lift (channel (ce_prev x) newPrev (ce_prevCh x)) ;;
  put e (mkElem newPrev ch (ce_next x) (ce_nextCh x) (ce_removed x) (ce_Value x)).

Definition SetRemoved (e : nat) : L unit :=
  x <- get e ;;
  if bool_decide (ce_prev x = None) && ce_prevCh x then panic else
  if bool_decide (ce_next x = None) && ce_nextCh x then panic else
  put e (mkElem (ce_prev x) (ce_prevCh x || bool_decide (ce_prev x = None)) (ce_next x) (ce_nextCh x || bool_decide (ce_next x = None)) true (ce_Value x)).

(** ** Lists *)
Definition Init : L unit := modify (λ c, mkCList (cl_heap c) (cl_fresh c) false None None 0 (cl_maxLen c)).
Definition newWithMax (maxLength : Z) : CList := mkCList ∅ 0 false None None 0 maxLength.

Definition Len : L Z := gets cl_len.
Definition Front : L (option nat) := gets cl_head.
Definition Back : L (option nat) := gets cl_tail.

Definition PushBack (v : A) : L nat :=
  c <- gets id ;;
  let e := cl_fresh c in
  modify (λ c, mkCList (<[e := mkElem None false None false false v]> (cl_heap c)) (S e) (cl_waitCh c) (cl_head c) (cl_tail c) (cl_len c) (cl_maxLen c)) ;;;
  (if decide (cl_len c = 0) then (if cl_waitCh c then panic else modify (set_waitCh true)) else ret tt) ;;;
  if decide (cl_maxLen c ≤ cl_len c) then panic else
  modify (set_len (cl_len c + 1)) ;;;
  match cl_tail c with
  | None => modify (set_head (Some e)) ;;; modify (set_tail (Some e))
  | Some t => SetPrev e (Some t) ;;; SetNext t (Some e) ;;; modify (set_tail (Some e))
  end ;;;
  ret e.

Definition Remove (e : nat) : L A :=
  prev <- Prev e ;; next <- Next e ;; c <- gets id ;;
  if bool_decide (cl_head c = None) || bool_decide (cl_tail c = None) then panic else
  if bool_decide (prev = None) && bool_decide (cl_head c ≠ Some e) then panic else
  if bool_decide (next = None) && bool_decide (cl_tail c ≠ Some e) then panic else
  (if decide (cl_len c = 1) then modify (set_waitCh false) else ret tt) ;;;
  modify (set_len (cl_len c - 1)) ;;;
  match prev with None => modify (set_head next) | Some p => SetNext p next end ;;;
  match next with None => modify (set_tail prev) | Some n => SetPrev n prev end ;;;
  SetRemoved e ;;; Value e.

(** ** The list it stands for *)

(** A segment of linked elements, between [p] and [nx]. *)
Fixpoint dll (h : gmap nat CElement) (p : option nat) (l : list nat) (nx : option nat) : Prop :=
  match l with
  | [] => True
  | x :: l' =>
      (∃ e, h !! x = Some e ∧ ce_prev e = p ∧ ce_next e = from_option Some nx (head l') ∧ ce_removed e = false) ∧ dll h (Some x) l' nx
  end.
(** The channels tell whether there is something to wait for. *)
Definition chan_ok (e : CElement) : Prop :=
  ce_prevCh e = bool_decide (ce_prev e ≠ None ∨ ce_removed e = true) ∧ ce_nextCh e = bool_decide (ce_next e ≠ None ∨ ce_removed e = true).

Record repr (c : CList) (l : list nat) : Prop := {
  rp_nodup : NoDup l;
  rp_dll : dll (cl_heap c) None l None;
  rp_head : cl_head c = head l;
  rp_tail : cl_tail c = last l;
  rp_len : cl_len c = Z.of_nat (length l);
  rp_wait : cl_waitCh c = bool_decide (l ≠ []);
  rp_fresh : ∀ x, is_Some (cl_heap c !! x) → (x < cl_fresh c)%nat;
  rp_chan : ∀ x e, cl_heap c !! x = Some e → chan_ok e;
  rp_removed : ∀ x e, cl_heap c !! x = Some e → x ∉ l → ce_removed e = true;
}.

Lemma dll_app h l1 : ∀ p l2 nx, dll h p (l1 ++ l2) nx ↔ dll h p l1 (from_option Some nx (head l2)) ∧ dll h (from_option Some p (last l1)) l2 nx.
Proof.
  induction l1 as [|x l1 IH]; intros p l2 nx; [cbn; tauto|]. cbn [app dll]. rewrite IH. rewrite last_cons.
  replace (from_option Some nx (head (l1 ++ l2))) with (from_option Some (from_option Some nx (head l2)) (head l1)) by by destruct l1.
  replace (from_option Some (Some x) (last l1)) with (from_option Some p (match last l1 with Some y => Some y | None => Some x end)) by by destruct (last l1).
  tauto.
Qed.
Lemma dll_frame h h' l : ∀ p nx, (∀ x, x ∈ l → h' !! x = h !! x) → dll h p l nx → dll h' p l nx.
Proof.
  induction l as [|x l IH]; intros p nx Hs; [done|]. cbn [dll]. intros [(e & E & H) Hl]. split.
  - exists e. rewrite Hs by (apply elem_of_cons; by left). done.
  - apply IH; [|done]. intros y Hy. apply Hs, elem_of_cons. by right.
Qed.
Lemma dll_in h p l nx x : dll h p l nx → x ∈ l → ∃ e, h !! x = Some e ∧ ce_removed e = false.
Proof.
  revert p. induction l as [|y l IH]; intros p; [intros _ []%elem_of_nil|]. intros [(e & E & _ & _ & R) Hl] [->|Hx]%elem_of_cons; [by exists e|by eapply IH].
Qed.

(** An element that is in the list, with a new link. *)
Definition with_next (n : option nat) (e : CElement) : CElement := mkElem (ce_prev e) (ce_prevCh e) n (bool_decide (n ≠ None)) (ce_removed e) (ce_Value e).
Definition with_prev (p : option nat) (e : CElement) : CElement := mkElem p (bool_decide (p ≠ None)) (ce_next e) (ce_nextCh e) (ce_removed e) (ce_Value e).
Lemma with_next_ok n e : ce_removed e = false → chan_ok e → chan_ok (with_next n e).
Proof. intros R [H1 H2]. split; [done|]. cbn. rewrite R. apply bool_decide_ext. naive_solver. Qed.
Lemma with_prev_ok n e : ce_removed e = false → chan_ok e → chan_ok (with_prev n e).
Proof. intros R [H1 H2]. split; [|done]. cbn. rewrite R. apply bool_decide_ext. naive_solver. Qed.

Lemma channel_ok old new ch : ch = bool_decide (old ≠ None) → channel old new ch = Ok (bool_decide (new ≠ None)).
Proof. intros ->. by destruct old, new. Qed.
Lemma chan_live e : chan_ok e → ce_removed e = false → ce_prevCh e = bool_decide (ce_prev e ≠ None) ∧ ce_nextCh e = bool_decide (ce_next e ≠ None).
Proof. intros [-> ->] R. rewrite R. split; apply bool_decide_ext; naive_solver. Qed.

Lemma SetNext_run c x e n : cl_heap c !! x = Some e → chan_ok e → ce_removed e = false → SetNext x n c = Ok (tt, set_heap (<[x := with_next n e]> (cl_heap c)) c).
Proof.
  intros E C R. destruct (chan_live e C R) as [_ Hc]. unfold SetNext, get, bind, gets, outcome_bind, id. rewrite E. cbn [ret].
  unfold lift. rewrite (channel_ok _ n _ Hc). done.
Qed.
Lemma SetPrev_run c x e n : cl_heap c !! x = Some e → chan_ok e → ce_removed e = false → SetPrev x n c = Ok (tt, set_heap (<[x := with_prev n e]> (cl_heap c)) c).
Proof.
  intros E C R. destruct (chan_live e C R) as [Hc _]. unfold SetPrev, get, bind, gets, outcome_bind, id. rewrite E. cbn [ret].
  unfold lift. rewrite (channel_ok _ n _ Hc). done.
Qed.

(** Changing the links at the ends of a segment. *)
Lemma dll_set_last h p l y nx n e : dll h p (l ++ [y]) nx → y ∉ l → h !! y = Some e → dll (<[y := with_next n e]> h) p (l ++ [y]) n.
Proof.
  intros [H1 [(e' & E' & Hp & _ & R) _]]%dll_app Hy E. rewrite E in E'. injection E' as <-. apply dll_app. split.
  - eapply dll_frame; [|exact H1]. intros z Hz. apply lookup_insert_ne. by intros ->.
  - split; [|done]. exists (with_next n e). rewrite lookup_insert_eq. done.
Qed.
Lemma dll_set_head h p l y nx n e : dll h p (y :: l) nx → y ∉ l → h !! y = Some e → dll (<[y := with_prev n e]> h) n (y :: l) nx.
Proof.
  intros [(e' & E' & _ & Hn & R) Hl] Hy E. rewrite E in E'. injection E' as <-. split.
  - exists (with_prev n e). rewrite lookup_insert_eq. done.
  - eapply dll_frame; [|exact Hl]. intros z Hz. apply lookup_insert_ne. by intros ->.
Qed.

(** ** The operations *)

(** Elements keep their values, and removed ones their way on. *)
Definition keeps (c c' : CList) : Prop := cl_maxLen c' = cl_maxLen c ∧ ∀ x e, cl_heap c !! x = Some e →
  ∃ e', cl_heap c' !! x = Some e' ∧ ce_Value e' = ce_Value e ∧ (ce_removed e = true → ce_removed e' = true ∧ ce_next e' = ce_next e).
#[global] Instance keeps_preorder : PreOrder keeps.
Proof.
  split; [intros c; split; [done|]; intros x e E; by exists e|]. intros c1 c2 c3 [M1 K1] [M2 K2]. split; [congruence|]. intros x e E.
  destruct (K1 x e E) as (e2 & E2 & V2 & R2). destruct (K2 x e2 E2) as (e3 & E3 & V3 & R3). exists e3. split; [done|]. split; [congruence|].
  intros R. destruct (R2 R) as [R2' N2]. destruct (R3 R2') as [R3' N3]. split; [done|congruence].
Qed.

Lemma last_split (l : list nat) y : last l = Some y → ∃ l0, l = l0 ++ [y].
Proof. intros H. apply last_Some in H. done. Qed.
Lemma repr_fresh c l : repr c l → cl_heap c !! cl_fresh c = None ∧ cl_fresh c ∉ l.
Proof.
  intros H. assert (cl_heap c !! cl_fresh c = None) as He.
  { destruct (cl_heap c !! cl_fresh c) eqn:E; [|done]. assert (cl_fresh c < cl_fresh c)%nat by (apply (rp_fresh _ _ H); by eexists). lia. }
  split; [done|]. intros Hin. destruct (dll_in _ _ _ _ _ (rp_dll _ _ H) Hin) as (x & Ex & _). congruence.
Qed.
Lemma snoc_notin (l : list nat) t : NoDup (l ++ [t]) → t ∉ l.
Proof. intros (_ & Hn & _)%NoDup_app Hin. by apply (Hn t Hin), list_elem_of_singleton. Qed.
Lemma NoDup_snoc_fresh (l : list nat) e : NoDup l → e ∉ l → NoDup (l ++ [e]).
Proof. intros Hn He. apply NoDup_app. split_and!; [done|intros z Hz ->%list_elem_of_singleton; done|apply NoDup_singleton]. Qed.

(** The first element of a list. *)
Lemma PushBack_first c v : repr c [] → cl_len c < cl_maxLen c →
  ∃ c', PushBack v c = Ok (cl_fresh c, c') ∧ repr c' [cl_fresh c] ∧ cl_heap c' = <[cl_fresh c := mkElem None false None false false v]> (cl_heap c) ∧ cl_maxLen c' = cl_maxLen c.
Proof.
  intros H Hm. destruct (repr_fresh c [] H) as [He _]. destruct H as [Hnd Hd Hh Ht Hl Hw Hf Hc Hr]. cbn in Hl.
  unfold PushBack, bind, gets, modify, outcome_bind, id. rewrite Hw, Ht. cbn. rewrite Hl. rewrite decide_True by done. cbn. rewrite decide_False by lia. cbn.
  eexists. split; [done|]. split; [|done]. split; cbn; try done.
  - apply NoDup_singleton.
  - split; [|done]. eexists. rewrite lookup_insert_eq. done.
  - intros z [ez Ez]. destruct (decide (z = cl_fresh c)) as [->|Hze]; [lia|]. rewrite lookup_insert_ne in Ez by done. specialize (Hf z ltac:(by eexists)). lia.
  - intros z ez. destruct (decide (z = cl_fresh c)) as [->|Hze]; [rewrite lookup_insert_eq; by intros [= <-]|]. rewrite lookup_insert_ne by done. apply Hc.
  - intros z ez. destruct (decide (z = cl_fresh c)) as [->|Hze]; [intros _ []; by apply list_elem_of_singleton|]. rewrite lookup_insert_ne by done. intros Ez _.
    apply (Hr z); [done|]. intros []%elem_of_nil.
Qed.

(** A further one, behind [t]. *)
Lemma PushBack_next c l t et v (x := mkElem (Some t) true None false false v) : repr c (l ++ [t]) → cl_len c < cl_maxLen c → cl_heap c !! t = Some et →
  ∃ c', PushBack v c = Ok (cl_fresh c, c') ∧ repr c' ((l ++ [t]) ++ [cl_fresh c]) ∧
    (∀ z, cl_heap c' !! z = if decide (z = t) then Some (with_next (Some (cl_fresh c)) et) else if decide (z = cl_fresh c) then Some x else cl_heap c !! z) ∧
    cl_maxLen c' = cl_maxLen c.
Proof.
  intros H Hm Et. destruct (repr_fresh c _ H) as [He Hel]. destruct H as [Hnd Hd Hh Ht Hl Hw Hf Hc Hr].
  destruct (dll_in _ _ _ _ t Hd) as (et' & Et' & Rt); [apply elem_of_app; right; by apply list_elem_of_singleton|]. rewrite Et in Et'. injection Et' as <-.
  assert (t ≠ cl_fresh c) as Hte by congruence. rewrite last_snoc in Ht.
  unfold PushBack, bind, gets, modify, outcome_bind, id. rewrite Ht, Hl. rewrite decide_False by (rewrite length_app; cbn; lia). cbn [ret]. rewrite decide_False by lia.
  rewrite (SetPrev_run _ (cl_fresh c) (mkElem None false None false false v)) by (done || apply lookup_insert_eq).
  rewrite (SetNext_run _ t et); [|cbn; by rewrite !lookup_insert_ne by done|by eapply Hc|done]. cbn [ret]. eexists. split; [done|]. cbn [cl_heap set_heap set_tail set_len].
  set (h := <[t := _]> _). assert (Hs : ∀ z, h !! z = if decide (z = t) then Some (with_next (Some (cl_fresh c)) et) else if decide (z = cl_fresh c) then Some x else cl_heap c !! z).
  { intros z. unfold h. destruct (decide (z = t)) as [->|]; [apply lookup_insert_eq|]. rewrite lookup_insert_ne by done.
    destruct (decide (z = cl_fresh c)) as [->|]; [apply lookup_insert_eq|]. by rewrite !lookup_insert_ne by done. }
  split; [|done]. split; cbn [cl_heap cl_head cl_tail cl_len cl_waitCh cl_fresh set_tail set_heap set_len]; fold h.
  - by apply NoDup_snoc_fresh.
  - apply dll_app. cbn [head from_option]. rewrite last_snoc. split; [|split; [|done]].
    + unfold h. eapply dll_set_last; [|by apply snoc_notin|by rewrite !lookup_insert_ne by done]. eapply dll_frame; [|exact Hd]. intros z Hz. cbn. rewrite !lookup_insert_ne by (intros E; rewrite E in Hel; done). done.
    + exists x. rewrite Hs. rewrite decide_False by done. rewrite decide_True by done. done.
  - rewrite Hh. by destruct l.
  - by rewrite last_snoc.
  - rewrite !length_app. cbn. lia.
  - rewrite Hw. rewrite !bool_decide_eq_true_2; [done|by destruct l..].
  - intros z. rewrite Hs. repeat case_decide; subst; [specialize (Hf t ltac:(by eexists)); lia|lia|]. intros Hz. specialize (Hf z Hz). lia.
  - intros z ez. rewrite Hs. repeat case_decide; [intros [= <-]; apply with_next_ok; [done|by eapply Hc]|by intros [= <-]|apply Hc].
  - intros z ez. rewrite Hs. repeat case_decide; subst; [intros _ []; set_solver|intros _ []; set_solver|]. intros Ez Hz. apply (Hr z); [done|]. set_solver.
Qed.

Lemma PushBack_repr c l v : repr c l → cl_len c < cl_maxLen c →
  ∃ c' e, PushBack v c = Ok (cl_fresh c, c') ∧ repr c' (l ++ [cl_fresh c]) ∧ cl_heap c' !! cl_fresh c = Some e ∧ ce_Value e = v ∧ cl_fresh c ∉ l ∧ keeps c c'.
Proof.
  intros H Hm. destruct (repr_fresh c l H) as [He Hel]. destruct (last l) as [t|] eqn:El.
  - apply last_split in El as [l0 ->]. destruct (dll_in _ _ _ _ t (rp_dll _ _ H)) as (et & Et & Rt); [set_solver|].
    destruct (PushBack_next c l0 t et v H Hm Et) as (c' & E & R & Hs & Hmax). eexists c', _. split; [done|]. split; [done|]. rewrite Hs.
    rewrite decide_False by congruence. rewrite decide_True by done. split; [done|]. split; [done|]. split; [done|]. split; [done|].
    intros z ez Ez. rewrite Hs. repeat case_decide; [|congruence|by exists ez]. subst z. rewrite Et in Ez. injection Ez as <-.
    eexists. split; [done|]. split; [done|]. congruence.
  - apply last_None in El as ->. destruct (PushBack_first c v H Hm) as (c' & E & R & Hs & Hmax). eexists c', _. split; [done|]. split; [done|]. rewrite Hs, lookup_insert_eq.
    split; [done|]. split; [done|]. split; [done|]. split; [done|]. intros z ez Ez. rewrite Hs, lookup_insert_ne by congruence. by exists ez.
Qed.

(** Removal: the neighbours are linked, and the element is marked. *)
Definition alt_next (h : gmap nat CElement) (l1 : list nat) (n : option nat) : gmap nat CElement :=
  match last l1 with Some y => alter (with_next n) y h | None => h end.
Definition alt_prev (h : gmap nat CElement) (l2 : list nat) (n : option nat) : gmap nat CElement :=
  match head l2 with Some y => alter (with_prev n) y h | None => h end.
Definition mark (e : CElement) : CElement := mkElem (ce_prev e) true (ce_next e) true true (ce_Value e).

Lemma insert_alter (f : CElement → CElement) x e (h : gmap nat CElement) : h !! x = Some e → <[x := f e]> h = alter f x h.
Proof.
  intros E. apply map_eq. intros z. destruct (decide (z = x)) as [->|]; [by rewrite lookup_insert_eq, lookup_alter_eq, E|].
  by rewrite lookup_insert_ne, lookup_alter_ne by done.
Qed.
Lemma alt_next_other h l1 n z : z ∉ l1 → alt_next h l1 n !! z = h !! z.
Proof. intros Hz. unfold alt_next. destruct (last l1) as [y|] eqn:E; [|done]. apply lookup_alter_ne. apply last_Some_elem_of in E. set_solver. Qed.
Lemma alt_prev_other h l2 n z : z ∉ l2 → alt_prev h l2 n !! z = h !! z.
Proof. intros Hz. unfold alt_prev. destruct l2 as [|y l2]; [done|]. apply lookup_alter_ne. set_solver. Qed.

Lemma dll_alt_next h p l1 nx n : dll h p l1 nx → NoDup l1 → dll (alt_next h l1 n) p l1 n.
Proof.
  intros H Hn. unfold alt_next. destruct (last l1) as [y|] eqn:E; [|by apply last_None in E as ->]. apply last_split in E as [l0 ->].
  destruct (dll_in _ _ _ _ y H) as (e & Ey & _); [set_solver|]. rewrite <-(insert_alter _ _ e) by done. eapply dll_set_last; [done|by apply snoc_notin|done].
Qed.
Lemma dll_alt_prev h p l2 nx n : dll h p l2 nx → NoDup l2 → dll (alt_prev h l2 n) n l2 nx.
Proof.
  intros H Hn. unfold alt_prev. destruct l2 as [|y l2]; [done|]. cbn [head]. destruct (dll_in _ _ _ _ y H) as (e & Ey & _); [set_solver|].
  rewrite <-(insert_alter _ _ e) by done. apply NoDup_cons in Hn as [Hy _]. by eapply dll_set_head.
Qed.

(** What every element becomes. *)
Definition live_ok (e : CElement) : Prop := ce_removed e = false ∧ chan_ok e.
Definition same_value (e e' : CElement) : Prop := ce_Value e' = ce_Value e ∧ (ce_removed e = true → e' = e) ∧ (live_ok e → live_ok e').
Lemma alt_next_elem h l1 n z e : (∀ y, y ∈ l1 → ∃ e, h !! y = Some e ∧ live_ok e) → h !! z = Some e → ∃ e', alt_next h l1 n !! z = Some e' ∧ same_value e e'.
Proof.
  intros Hl Ez. unfold alt_next. destruct (last l1) as [y|] eqn:E; [|by exists e]. destruct (decide (z = y)) as [->|]; [|exists e; by rewrite lookup_alter_ne].
  destruct (Hl y) as (e0 & E0 & R & C); [by apply last_Some_elem_of|]. rewrite Ez in E0. injection E0 as <-. rewrite lookup_alter_eq, Ez. eexists. split; [done|].
  split; [done|]. split; [congruence|]. intros _. split; [done|by apply with_next_ok].
Qed.
Lemma alt_prev_elem h l2 n z e : (∀ y, y ∈ l2 → ∃ e, h !! y = Some e ∧ live_ok e) → h !! z = Some e → ∃ e', alt_prev h l2 n !! z = Some e' ∧ same_value e e'.
Proof.
  intros Hl Ez. unfold alt_prev. destruct l2 as [|y l2]; [by exists e|]. cbn [head]. destruct (decide (z = y)) as [->|]; [|exists e; by rewrite lookup_alter_ne].
  destruct (Hl y) as (e0 & E0 & R & C); [set_solver|]. rewrite Ez in E0. injection E0 as <-. rewrite lookup_alter_eq, Ez. eexists. split; [done|].
  split; [done|]. split; [congruence|]. intros _. split; [done|by apply with_prev_ok].
Qed.

Lemma relink_prev c l1 n : (∀ y, y ∈ l1 → ∃ e, cl_heap c !! y = Some e ∧ live_ok e) →
  (match last l1 with None => modify (set_head n) | Some p => SetNext p n end) c =
  Ok (tt, mkCList (alt_next (cl_heap c) l1 n) (cl_fresh c) (cl_waitCh c) (match last l1 with None => n | Some _ => cl_head c end) (cl_tail c) (cl_len c) (cl_maxLen c)).
Proof.
  intros Hl. unfold alt_next. destruct (last l1) as [y|] eqn:E; [|done]. destruct (Hl y) as (e & Ey & R & C); [by apply last_Some_elem_of|].
  rewrite (SetNext_run c y e) by done. by rewrite (insert_alter (with_next n)) by done.
Qed.
Lemma relink_next c l2 n : (∀ y, y ∈ l2 → ∃ e, cl_heap c !! y = Some e ∧ live_ok e) →
  (match head l2 with None => modify (set_tail n) | Some p => SetPrev p n end) c =
  Ok (tt, mkCList (alt_prev (cl_heap c) l2 n) (cl_fresh c) (cl_waitCh c) (cl_head c) (match head l2 with None => n | Some _ => cl_tail c end) (cl_len c) (cl_maxLen c)).
Proof.
  intros Hl. unfold alt_prev. destruct l2 as [|y l2]; [done|]. cbn [head]. destruct (Hl y) as (e & Ey & R & C); [set_solver|].
  rewrite (SetPrev_run c y e) by done. by rewrite (insert_alter (with_prev n)) by done.
Qed.

Lemma mark_ok e : chan_ok (mark e).
Proof. split; cbn; symmetry; apply bool_decide_eq_true_2; by right. Qed.
Lemma SetRemoved_run c x e : cl_heap c !! x = Some e → live_ok e → SetRemoved x c = Ok (tt, set_heap (<[x := mark e]> (cl_heap c)) c).
Proof.
  intros E [R C]. destruct (chan_live e C R) as [H1 H2]. unfold SetRemoved, get, bind, gets, outcome_bind, id. rewrite E. cbn [ret]. rewrite H1, H2. unfold mark.
  destruct (ce_prev e), (ce_next e); done.
Qed.

Lemma from_option_id (o : option nat) : from_option Some None o = o.
Proof. by destruct o. Qed.

Lemma head_removed (l1 l2 : list nat) x : match last l1 with None => head l2 | Some _ => head (l1 ++ x :: l2) end = head (l1 ++ l2).
Proof. destruct l1 as [|y l1]; [done|]. rewrite last_cons. by destruct (last l1). Qed.
Lemma last_removed (l1 l2 : list nat) x : match head l2 with None => last l1 | Some _ => last (l1 ++ x :: l2) end = last (l1 ++ l2).
Proof. rewrite !last_app, last_cons. destruct l2 as [|z l2]; [by destruct (last l1)|]. rewrite last_cons. cbn. by destruct (last l2). Qed.
Lemma wait_removed (l1 l2 : list nat) x :
  (if decide (Z.of_nat (length (l1 ++ x :: l2)) = 1) then false else bool_decide (l1 ++ x :: l2 ≠ [])) = bool_decide (l1 ++ l2 ≠ []).
Proof.
  rewrite length_app. cbn [length]. destruct (decide (l1 ++ l2 = [])) as [E|E].
  - apply app_nil in E as [-> ->]. done.
  - rewrite decide_False; [|destruct l1, l2; cbn in *; [done|lia..]]. rewrite !bool_decide_eq_true_2; [done|done|by destruct l1].
Qed.

Section remove.
Context (c : CList) (l1 l2 : list nat) (x : nat) (e : CElement) (H : repr c (l1 ++ x :: l2)) (Ex : cl_heap c !! x = Some e).
Let h2 := alt_prev (alt_next (cl_heap c) l1 (head l2)) l2 (last l1).
Definition removed_list : CList :=
  mkCList (<[x := mark e]> h2) (cl_fresh c) (if decide (cl_len c = 1) then false else cl_waitCh c) (match last l1 with None => head l2 | Some _ => cl_head c end)
    (match head l2 with None => last l1 | Some _ => cl_tail c end) (cl_len c - 1) (cl_maxLen c).

Lemma remove_parts : NoDup l1 ∧ NoDup l2 ∧ x ∉ l1 ∧ x ∉ l2 ∧ (∀ y, y ∈ l1 → y ∉ l2) ∧
  dll (cl_heap c) None l1 (Some x) ∧ dll (cl_heap c) (Some x) l2 None ∧ ce_prev e = last l1 ∧ ce_next e = head l2 ∧ live_ok e.
Proof.
  pose proof (rp_nodup _ _ H) as (N1 & Nd & N2)%NoDup_app. apply NoDup_cons in N2 as [Nx N2].
  pose proof (rp_dll _ _ H) as [D1 [(e' & E' & P & N & R) D2]]%dll_app. rewrite Ex in E'. injection E' as <-.
  split_and!; try done; [intros Hx; apply (Nd x Hx); set_solver|intros y Hy Hy2; apply (Nd y Hy); set_solver|by destruct (last l1)|by destruct l2|].
  split; [done|by eapply rp_chan].
Qed.
Lemma remove_live l : l = l1 ∨ l = l2 → ∀ y, y ∈ l → ∃ e, cl_heap c !! y = Some e ∧ live_ok e.
Proof.
  intros Hl y Hy. destruct (dll_in _ _ _ _ y (rp_dll _ _ H)) as (ey & Ey & R); [destruct Hl; set_solver|]. exists ey. split; [done|]. split; [done|by eapply rp_chan].
Qed.
Lemma remove_h2 z ez : cl_heap c !! z = Some ez → ∃ e', h2 !! z = Some e' ∧ same_value ez e'.
Proof.
  intros Ez. destruct (alt_next_elem _ l1 (head l2) z ez (remove_live l1 (or_introl eq_refl)) Ez) as (e1 & E1 & V1 & R1 & L1).
  destruct (alt_prev_elem (alt_next (cl_heap c) l1 (head l2)) l2 (last l1) z e1) as (e2 & E2 & V2 & R2 & L2); [|done|].
  - intros y Hy. destruct (remove_live l2 (or_intror eq_refl) y Hy) as (ey & Ey & Ly).
    destruct (alt_next_elem _ l1 (head l2) y ey (remove_live l1 (or_introl eq_refl)) Ey) as (e1' & E1' & _ & _ & L1'). exists e1'. auto.
  - exists e2. split; [done|]. split; [congruence|]. split; [|auto]. intros Hr. pose proof (R1 Hr) as ->. auto.
Qed.
Lemma remove_h2_x : h2 !! x = Some e.
Proof. destruct remove_parts as (_ & _ & X1 & X2 & _). unfold h2. by rewrite alt_prev_other, alt_next_other. Qed.

Lemma Remove_run : Remove x c = Ok (ce_Value e, removed_list).
Proof.
  destruct remove_parts as (N1 & N2 & X1 & X2 & Nd & D1 & D2 & P & N & Le). pose proof (rp_head _ _ H) as Hh. pose proof (rp_tail _ _ H) as Ht.
  unfold Remove, Prev, Next, get. unfold bind at 1 2 3 4 5 6 7. unfold gets, outcome_bind, id. rewrite Ex. cbn [ret]. rewrite Ex. cbn [ret]. rewrite P, N.
  assert (bool_decide (cl_head c = None) || bool_decide (cl_tail c = None) = false) as ->.
  { rewrite Hh, Ht, !bool_decide_eq_false_2; [done|rewrite last_None; by destruct l1|by destruct l1]. }
  assert (bool_decide (last l1 = None) && bool_decide (cl_head c ≠ Some x) = false) as ->.
  { rewrite Hh. destruct l1; [cbn; by rewrite bool_decide_eq_false_2 by naive_solver|]. by rewrite (bool_decide_eq_false_2 (last _ = None)) by by rewrite last_None. }
  assert (bool_decide (head l2 = None) && bool_decide (cl_tail c ≠ Some x) = false) as ->.
  { rewrite Ht, last_app, last_cons. destruct l2; [cbn; by rewrite bool_decide_eq_false_2 by naive_solver|done]. }
  set (c1 := set_len (cl_len c - 1) (if decide (cl_len c = 1) then set_waitCh false c else c)).
  assert (Hc1 : cl_heap c1 = cl_heap c) by (unfold c1; by case_decide).
  assert (E0 : ((if decide (cl_len c = 1) then modify (set_waitCh false) else ret tt) ;;; modify (set_len (cl_len c - 1))) c = Ok (tt, c1)) by (unfold c1; by case_decide).
  assert (E1 := relink_prev c1 l1 (head l2)). rewrite Hc1 in E1. specialize (E1 (remove_live l1 (or_introl eq_refl))).
  set (c2 := mkCList _ _ _ _ _ _ _) in E1. assert (E2 := relink_next c2 l2 (last l1)).
  set (c3 := mkCList _ _ _ _ _ _ _) in E2. 
  assert (E3 := SetRemoved_run c3 x e remove_h2_x Le).
  unfold bind in E0 |- *. unfold outcome_bind in *.
  destruct ((if decide (cl_len c = 1) then modify (set_waitCh false) else ret tt) c) as [[[] c0]| |]; [|done..]. rewrite E0, E1, E2, E3; [|].
  2: { intros y Hy. destruct (remove_live l2 (or_intror eq_refl) y Hy) as (ey & Ey & Ly).
       destruct (alt_next_elem _ l1 (head l2) y ey (remove_live l1 (or_introl eq_refl)) Ey) as (e1' & E1' & _ & _ & L1'). exists e1'. auto. }
  unfold Value, get, bind, gets, id, outcome_bind. cbn [cl_heap set_heap]. rewrite lookup_insert_eq. cbn [ret]. f_equal. f_equal.
  unfold removed_list, c3, c2, c1, set_heap. cbn. by case_decide.
Qed.

Lemma removed_heap z : cl_heap removed_list !! z = if decide (z = x) then Some (mark e) else h2 !! z.
Proof. unfold removed_list. cbn. destruct (decide (z = x)) as [->|]; [by rewrite lookup_insert_eq|by rewrite lookup_insert_ne by done]. Qed.
Lemma removed_keeps : keeps c removed_list.
Proof.
  destruct remove_parts as (_ & _ & _ & _ & _ & _ & _ & _ & _ & [R _]). split; [done|]. intros z ez Ez. rewrite removed_heap. case_decide as Hz.
  - subst z. rewrite Ex in Ez. injection Ez as <-. eexists. split; [done|]. split; [done|congruence].
  - destruct (remove_h2 z ez Ez) as (e' & E' & V & Rm & _). exists e'. split; [done|]. split; [done|]. intros Hr. by rewrite (Rm Hr).
Qed.
Lemma removed_dom z : is_Some (cl_heap removed_list !! z) → is_Some (cl_heap c !! z).
Proof.
  rewrite removed_heap. case_decide as Hz; [subst; by eexists|]. unfold h2, alt_prev, alt_next.
  destruct (head l2), (last l1); rewrite ?lookup_alter_is_Some; done.
Qed.
Lemma removed_repr : repr removed_list (l1 ++ l2).
Proof.
  destruct remove_parts as (N1 & N2 & X1 & X2 & Nd & D1 & D2 & P & N & Le). pose proof (rp_head _ _ H) as Hh. pose proof (rp_tail _ _ H) as Ht. pose proof (rp_len _ _ H) as Hl.
  assert (Hother : ∀ z, z ≠ x → cl_heap removed_list !! z = h2 !! z) by (intros z Hz; rewrite removed_heap; by case_decide). split.
  - by apply NoDup_app.
  - apply dll_app. split.
    + rewrite from_option_id. eapply dll_frame; [|eapply (dll_alt_next _ _ _ _ (head l2) D1 N1)]. intros z Hz. rewrite Hother by (intros ->; done). unfold h2. by rewrite alt_prev_other by auto.
    + rewrite from_option_id. eapply dll_frame; [intros z Hz; apply Hother; intros ->; done|].
      unfold h2. eapply dll_alt_prev; [|done]. eapply dll_frame; [|exact D2]. intros z Hz. apply alt_next_other. intros Hz1. by apply (Nd z).
  - unfold removed_list. cbn. rewrite Hh. apply head_removed.
  - unfold removed_list. cbn. rewrite Ht. apply last_removed.
  - unfold removed_list. cbn. rewrite Hl, !length_app. cbn. lia.
  - unfold removed_list. cbn. rewrite Hl, (rp_wait _ _ H). apply wait_removed.
  - intros z Hz. apply (rp_fresh _ _ H). by apply removed_dom.
  - intros z ez Ez. rewrite removed_heap in Ez. case_decide as Hz; [injection Ez as <-; apply mark_ok|].
    assert (is_Some (cl_heap c !! z)) as [e0 E0] by (apply removed_dom; rewrite Hother by done; by eexists). destruct (remove_h2 z e0 E0) as (e' & E' & _ & Rm & Lv).
    rewrite Ez in E'. injection E' as <-. destruct (ce_removed e0) eqn:R0; [rewrite Rm by done; by eapply rp_chan|]. destruct Lv as [_ Lv]; [split; [done|by eapply rp_chan]|done].
  - intros z ez Ez Hz. rewrite removed_heap in Ez. case_decide as Hzx; [by injection Ez as <-|].
    assert (is_Some (cl_heap c !! z)) as [e0 E0] by (apply removed_dom; rewrite Hother by done; by eexists). destruct (remove_h2 z e0 E0) as (e' & E' & _ & Rm & _).
    rewrite Ez in E'. injection E' as <-. assert (ce_removed e0 = true) as R0 by (apply (rp_removed _ _ H z); [done|set_solver]). by rewrite Rm.
Qed.
End remove.

Lemma Remove_repr c l1 x l2 e : repr c (l1 ++ x :: l2) → cl_heap c !! x = Some e →
  ∃ c', Remove x c = Ok (ce_Value e, c') ∧ repr c' (l1 ++ l2) ∧ keeps c c' ∧ cl_heap c' !! x = Some (mark e) ∧ ce_next e = head l2 ∧ cl_fresh c' = cl_fresh c.
Proof.
  intros H Ex. exists (removed_list c l1 l2 x e). split; [by apply Remove_run|]. split; [by apply removed_repr|]. split; [by apply removed_keeps|].
  split; [rewrite removed_heap; by case_decide|]. split; [by apply (remove_parts c l1 l2 x e)|done].
Qed.

(** An element that was removed and detached cannot be removed again. *)
Lemma Remove_twice c l x e : repr c l → cl_heap c !! x = Some e → x ∉ l → ce_prev e = None → Remove x c = Panic.
Proof.
  intros H Ex Hx P. unfold Remove, Prev, Next, get, bind, gets, outcome_bind, id. rewrite Ex. cbn [ret]. rewrite Ex. cbn [ret]. rewrite P.
  destruct (_ || _); [done|]. rewrite bool_decide_eq_true_2 by done. rewrite bool_decide_eq_true_2; [done|].
  rewrite (rp_head _ _ H). intros Hh. apply Hx. destruct l; [done|]. injection Hh as ->. set_solver.
Qed.

Lemma DetachPrev_repr c l x e : repr c l → cl_heap c !! x = Some e → ce_removed e = true → x ∉ l →
  ∃ c', DetachPrev x c = Ok (tt, c') ∧ repr c' l ∧ keeps c c' ∧ cl_fresh c' = cl_fresh c ∧
    cl_heap c' !! x = Some (mkElem None (ce_prevCh e) (ce_next e) (ce_nextCh e) (ce_removed e) (ce_Value e)).
Proof.
  intros [Hnd Hd Hh Ht Hl Hw Hf Hc Hr] Ex R Hx. unfold DetachPrev, get, put, bind, gets, modify, outcome_bind, id. rewrite Ex. cbn [ret]. rewrite R. cbn [negb].
  eexists. split; [done|]. split; [split; cbn; try done|split; [split; [done|]|split; [done|cbn; by rewrite lookup_insert_eq]]].
  - eapply dll_frame; [|done]. intros z Hz. apply lookup_insert_ne. by intros ->.
  - intros z [ez Ez]. destruct (decide (z = x)) as [->|Hz]; [apply Hf; by eexists|]. rewrite lookup_insert_ne in Ez by done. apply Hf. by eexists.
  - intros z ez. destruct (decide (z = x)) as [->|Hz]; [|rewrite lookup_insert_ne by done; apply Hc]. rewrite lookup_insert_eq. intros [= <-].
    destruct (Hc x e Ex) as [C1 C2]. split; cbn; [rewrite C1, R; by rewrite !bool_decide_eq_true_2 by by right|by rewrite C2, R].
  - intros z ez. destruct (decide (z = x)) as [->|Hz]; [rewrite lookup_insert_eq; by intros [= <-]|]. rewrite lookup_insert_ne by done. apply Hr.
  - intros z ez Ez. cbn [cl_heap set_heap]. destruct (decide (z = x)) as [->|Hz]; [|exists ez; by rewrite lookup_insert_ne]. rewrite lookup_insert_eq. rewrite Ex in Ez. injection Ez as <-. by eexists.
Qed.

(** ** Walking along the list *)
Lemma repr_next c l1 x l2 e : repr c (l1 ++ x :: l2) → cl_heap c !! x = Some e → ce_next e = head l2 ∧ ce_prev e = last l1 ∧ ce_removed e = false.
Proof. intros H E. destruct (remove_parts c l1 l2 x e H E) as (_ & _ & _ & _ & _ & _ & _ & P & N & [R _]). done. Qed.
Lemma repr_in c l x : repr c l → x ∈ l → ∃ e, cl_heap c !! x = Some e.
Proof. intros H Hx. destruct (dll_in _ _ _ _ x (rp_dll _ _ H) Hx) as (e & E & _). by exists e. Qed.
Lemma newWithMax_repr n : repr (newWithMax n) [].
Proof. split; try done; cbn; [apply NoDup_nil_2|intros x [e E]; by rewrite lookup_empty in E]. Qed.

(** The list refines a sequence: PushBack appends a new element unless the list is full, Front, Back, Len, Next and Prev read the sequence,
    Remove takes an element out of it, and a reader that stands on the removed element finds the one that followed.  The blocking
    readers wait exactly while their channel is open. *)
Theorem clist_refines c l : repr c l →
  (Front c = Ok (head l, c) ∧ Back c = Ok (last l, c) ∧ Len c = Ok (Z.of_nat (length l), c)) ∧
  (∀ v, if decide (cl_len c < cl_maxLen c)
        then ∃ c', PushBack v c = Ok (cl_fresh c, c') ∧ repr c' (l ++ [cl_fresh c]) ∧ cl_fresh c ∉ l ∧ Value (cl_fresh c) c' = Ok (v, c') ∧ keeps c c'
        else PushBack v c = Panic) ∧
  (∀ l1 x l2, l = l1 ++ x :: l2 → Next x c = Ok (head l2, c) ∧ Prev x c = Ok (last l1, c) ∧
     ∃ v c', Value x c = Ok (v, c) ∧ Remove x c = Ok (v, c') ∧ repr c' (l1 ++ l2) ∧ Removed x c' = Ok (true, c') ∧ Next x c' = Ok (head l2, c') ∧ keeps c c') ∧
  (∀ x e, cl_heap c !! x = Some e → ∃ w w', NextWait x c = Ok (w, c) ∧ PrevWait x c = Ok (w', c) ∧ (w = None ↔ ce_nextCh e = false) ∧ (w' = None ↔ ce_prevCh e = false)).
Proof.
  intros H. split; [|split; [|split]].
  - unfold Front, Back, Len, gets. by rewrite (rp_head _ _ H), (rp_tail _ _ H), (rp_len _ _ H).
  - intros v. case_decide as Hm.
    + destruct (PushBack_repr c l v H Hm) as (c' & e & E & R & Ee & Ev & Hn & K). exists c'. split_and!; try done.
      unfold Value, get, bind, gets, outcome_bind, id. by rewrite Ee, <-Ev.
    + unfold PushBack, bind, gets, modify, outcome_bind, id. rewrite (rp_wait _ _ H). pose proof (rp_len _ _ H) as Hl.
      destruct (decide (cl_len c = 0)) as [E0|E0]; [rewrite bool_decide_eq_false_2 by (destruct l; cbn in *; [tauto|lia])|cbn [ret]]; by rewrite decide_True by lia.
  - intros l1 x l2 ->. destruct (repr_in c _ x H) as (e & Ex); [set_solver|]. destruct (repr_next c l1 x l2 e H Ex) as (N & P & R).
    destruct (Remove_repr c l1 x l2 e H Ex) as (c' & E & R' & K & Ex' & _). split; [|split; [|exists (ce_Value e), c'; split_and!; try done]];
      unfold Next, Prev, Value, Removed, get, bind, gets, outcome_bind, id; rewrite ?Ex, ?Ex'; cbn; by rewrite ?N, ?P.
  - intros x e Ex. destruct (rp_chan _ _ H x e Ex) as [Cp Cn]. unfold NextWait, PrevWait, get, bind, gets, outcome_bind, id. rewrite Ex, Cp, Cn. cbn [ret].
    eexists _, _. split; [done|]. split; [done|]. rewrite !bool_decide_eq_false. destruct (ce_next e), (ce_prev e), (ce_removed e); cbn; naive_solver.
Qed.
End clist.
Arguments CElement : clear implicits.
Arguments CList : clear implicits.
