(* ===== verification/TmMempool.v ===== *)
(** The mempool: src/sourcecodes/tendermint/mempool/v0/clist_mempool.go over mempool/cache.go, with the checks of mempool/mempool.go.

    Transactions are checked by the application, which answers in the order it is asked ([mp_queue], the connection): a new transaction
    is added once the answer is there, and after a block those that are left are checked again.  [CheckTx] and [recheckTxs] only
    append to the queue, [app_response] is what the connection does with the next answer.  Elements of the list are named by numbers,
    the peers that sent a transaction are kept beside them.  An element of the cache is named by its key.  The metrics, the logger and
    the mutexes are left out. *)

From S2P Require Import Prelude TmBits TmValidators TmTypes TmCList.

(** ** The cache *)
Record LRUTxCache := mkLRU { lru_size : Z; lru_map : gset bytes; lru_list : list bytes }.

Definition NewLRUTxCache (cacheSize : Z) : LRUTxCache := mkLRU cacheSize ∅ [].
Definition lru_Reset (c : LRUTxCache) : LRUTxCache := mkLRU (lru_size c) ∅ [].
Definition lru_del (key : bytes) (l : list bytes) : list bytes := filter (λ k, k ≠ key) l.
Definition lru_Push (key : bytes) (c : LRUTxCache) : bool * LRUTxCache :=
  if decide (key ∈ lru_map c) then (false, mkLRU (lru_size c) (lru_map c) (lru_del key (lru_list c) ++ [key])) else
  let c := if decide (lru_size c ≤ Z.of_nat (length (lru_list c)))
           then match lru_list c with [] => c | front :: rest => mkLRU (lru_size c) (lru_map c ∖ {[front]}) rest end
           else c in
  (true, mkLRU (lru_size c) ({[key]} ∪ lru_map c) (lru_list c ++ [key])).
Definition lru_Remove (key : bytes) (c : LRUTxCache) : LRUTxCache :=
  mkLRU (lru_size c) (lru_map c ∖ {[key]}) (if decide (key ∈ lru_map c) then lru_del key (lru_list c) else lru_list c).
Definition lru_Has (key : bytes) (c : LRUTxCache) : bool := bool_decide (key ∈ lru_map c).

(** ** Data *)
Record MempoolConfig := mkMempoolConfig {
  mc_Recheck : bool; mc_Size : Z; mc_MaxTxsBytes : Z; mc_CacheSize : Z; mc_KeepInvalid : bool; mc_MaxTxBytes : Z }.
Inductive mempool_error := ErrMempoolIsFull | ErrTxTooLarge | ErrPreCheck | ErrProxyApp | ErrTxInCache | ErrTxNotFound.
Record mempoolTx := mkMempoolTx { mt_height : Z; mt_gasWanted : Z; mt_tx : bytes }.
Definition PreCheckFunc : Type := bytes → bool.
Definition PostCheckFunc : Type := bytes → Z → bool.
(** What the application was asked; its answers with a code and the gas, or an answer of another kind. *)
Inductive app_request := ReqFirst (tx : bytes) (peerID : Z) | ReqRecheck (tx : bytes).
Definition app_answer : Type := option (Z * Z).
Definition CodeTypeOK : Z := 0.

Record Mempool := mkMempool {
  mp_config : MempoolConfig; mp_height : Z; mp_txsBytes : Z; mp_notified : bool; mp_txsAvailable : option bool;
  mp_preCheck : option PreCheckFunc; mp_postCheck : option PostCheckFunc; mp_txs : CList mempoolTx;
  mp_cursor : option nat; mp_end : option nat; mp_txsMap : gmap bytes nat; mp_cache : option LRUTxCache;
  mp_senders : gmap nat (gset Z); mp_testtxList : list bytes; mp_queue : list app_request }.
Local Abbreviation P := (M Mempool).

Definition set_height (x : Z) (m : Mempool) : Mempool :=
  mkMempool (mp_config m) x (mp_txsBytes m) (mp_notified m) (mp_txsAvailable m) (mp_preCheck m) (mp_postCheck m) (mp_txs m) (mp_cursor m) (mp_end m) (mp_txsMap m) (mp_cache m) (mp_senders m) (mp_testtxList m) (mp_queue m).
Definition set_txsBytes (x : Z) (m : Mempool) : Mempool :=
  mkMempool (mp_config m) (mp_height m) x (mp_notified m) (mp_txsAvailable m) (mp_preCheck m) (mp_postCheck m) (mp_txs m) (mp_cursor m) (mp_end m) (mp_txsMap m) (mp_cache m) (mp_senders m) (mp_testtxList m) (mp_queue m).
Definition set_notified (x : bool) (m : Mempool) : Mempool :=
  mkMempool (mp_config m) (mp_height m) (mp_txsBytes m) x (mp_txsAvailable m) (mp_preCheck m) (mp_postCheck m) (mp_txs m) (mp_cursor m) (mp_end m) (mp_txsMap m) (mp_cache m) (mp_senders m) (mp_testtxList m) (mp_queue m).
Definition set_txsAvailable (x : option bool) (m : Mempool) : Mempool :=
  mkMempool (mp_config m) (mp_height m) (mp_txsBytes m) (mp_notified m) x (mp_preCheck m) (mp_postCheck m) (mp_txs m) (mp_cursor m) (mp_end m) (mp_txsMap m) (mp_cache m) (mp_senders m) (mp_testtxList m) (mp_queue m).
Definition set_preCheck (x : option PreCheckFunc) (m : Mempool) : Mempool :=
  mkMempool (mp_config m) (mp_height m) (mp_txsBytes m) (mp_notified m) (mp_txsAvailable m) x (mp_postCheck m) (mp_txs m) (mp_cursor m) (mp_end m) (mp_txsMap m) (mp_cache m) (mp_senders m) (mp_testtxList m) (mp_queue m).
Definition set_postCheck (x : option PostCheckFunc) (m : Mempool) : Mempool :=
  mkMempool (mp_config m) (mp_height m) (mp_txsBytes m) (mp_notified m) (mp_txsAvailable m) (mp_preCheck m) x (mp_txs m) (mp_cursor m) (mp_end m) (mp_txsMap m) (mp_cache m) (mp_senders m) (mp_testtxList m) (mp_queue m).
Definition set_txs (x : CList mempoolTx) (m : Mempool) : Mempool :=
  mkMempool (mp_config m) (mp_height m) (mp_txsBytes m) (mp_notified m) (mp_txsAvailable m) (mp_preCheck m) (mp_postCheck m) x (mp_cursor m) (mp_end m) (mp_txsMap m) (mp_cache m) (mp_senders m) (mp_testtxList m) (mp_queue m).
Definition set_cursor (x : option nat) (m : Mempool) : Mempool :=
  mkMempool (mp_config m) (mp_height m) (mp_txsBytes m) (mp_notified m) (mp_txsAvailable m) (mp_preCheck m) (mp_postCheck m) (mp_txs m) x (mp_end m) (mp_txsMap m) (mp_cache m) (mp_senders m) (mp_testtxList m) (mp_queue m).
Definition set_end (x : option nat) (m : Mempool) : Mempool :=
  mkMempool (mp_config m) (mp_height m) (mp_txsBytes m) (mp_notified m) (mp_txsAvailable m) (mp_preCheck m) (mp_postCheck m) (mp_txs m) (mp_cursor m) x (mp_txsMap m) (mp_cache m) (mp_senders m) (mp_testtxList m) (mp_queue m).
Definition set_txsMap (x : gmap bytes nat) (m : Mempool) : Mempool :=
  mkMempool (mp_config m) (mp_height m) (mp_txsBytes m) (mp_notified m) (mp_txsAvailable m) (mp_preCheck m) (mp_postCheck m) (mp_txs m) (mp_cursor m) (mp_end m) x (mp_cache m) (mp_senders m) (mp_testtxList m) (mp_queue m).
Definition set_cache (x : option LRUTxCache) (m : Mempool) : Mempool :=
  mkMempool (mp_config m) (mp_height m) (mp_txsBytes m) (mp_notified m) (mp_txsAvailable m) (mp_preCheck m) (mp_postCheck m) (mp_txs m) (mp_cursor m) (mp_end m) (mp_txsMap m) x (mp_senders m) (mp_testtxList m) (mp_queue m).
Definition set_senders (x : gmap nat (gset Z)) (m : Mempool) : Mempool :=
  mkMempool (mp_config m) (mp_height m) (mp_txsBytes m) (mp_notified m) (mp_txsAvailable m) (mp_preCheck m) (mp_postCheck m) (mp_txs m) (mp_cursor m) (mp_end m) (mp_txsMap m) (mp_cache m) x (mp_testtxList m) (mp_queue m).
Definition set_queue (x : list app_request) (m : Mempool) : Mempool :=
  mkMempool (mp_config m) (mp_height m) (mp_txsBytes m) (mp_notified m) (mp_txsAvailable m) (mp_preCheck m) (mp_postCheck m) (mp_txs m) (mp_cursor m) (mp_end m) (mp_txsMap m) (mp_cache m) (mp_senders m) (mp_testtxList m) x.

(** An operation on the list. *)
Definition on_txs {A} (k : M (CList mempoolTx) A) : P A := λ m, outcome_bind (k (mp_txs m)) (λ '(a, c), Ok (a, set_txs c m)).

Section mempool.
Context (Key : bytes → bytes) (ComputeProtoSizeForTxs : list bytes → Z).

(** ** The checks of a block's limits *)
Definition PreCheckMaxBytes (maxBytes : Z) : PreCheckFunc := λ tx, negb (bool_decide (maxBytes < ComputeProtoSizeForTxs [tx])).
Definition PostCheckMaxGas (maxGas : Z) : PostCheckFunc := λ _ gasWanted,
  if decide (maxGas = -1) then true else if decide (gasWanted < 0) then false else negb (bool_decide (maxGas < gasWanted)).

(** ** A new mempool: the transactions for tests are random ([rand_tx]), up to a size *)
Fixpoint generate (rand_tx : nat → bytes) (fuel i : nat) (acc : list bytes) : outcome (list bytes) :=
  match fuel with
  | O => Diverge
  | S fuel' =>
      let acc := acc ++ [rand_tx i] in
      if decide (1000000 ≤ ComputeProtoSizeForTxs acc) then Ok acc else generate rand_tx fuel' (S i) acc
  end.
Definition MaxLength : Z := 2 ^ 63 - 1.
Definition NewCListMempool (rand_tx : nat → bytes) (fuel : nat) (cfg : MempoolConfig) (height : Z) (pre : option PreCheckFunc) (post : option PostCheckFunc) : outcome Mempool :=
  let! testtxList := generate rand_tx fuel 0 [] in
  Ok (mkMempool cfg height 0 false None pre post (newWithMax MaxLength) None None ∅
        (if decide (0 < mc_CacheSize cfg) then Some (NewLRUTxCache (mc_CacheSize cfg)) else None) ∅ testtxList []).

(** ** The cache of a mempool *)
Definition cache_Push (tx : bytes) : P bool :=
  m <- gets id ;;
  match mp_cache m with
  | None => ret true
  | Some c => let '(b, c') := lru_Push (Key tx) c in modify (set_cache (Some c')) ;;; ret b
  end.
Definition cache_Remove (tx : bytes) : P unit := modify (λ m, set_cache (lru_Remove (Key tx) <$> mp_cache m) m).

(** ** Operations *)
Definition EnableTxsAvailable : P unit := modify (set_txsAvailable (Some false)).
Definition Size : P Z := on_txs Len.
Definition SizeBytes : P Z := gets mp_txsBytes.

Definition isFull (txSize : Z) : P bool :=
  memSize <- Size ;; txsBytes <- SizeBytes ;; cfg <- gets mp_config ;;
  ret (bool_decide (mc_Size cfg ≤ memSize) || bool_decide (mc_MaxTxsBytes cfg < i64 (txSize + txsBytes))).

Definition CheckTx (appError : bool) (tx : bytes) (senderID : Z) : P (option mempool_error) :=
  full <- isFull (len tx) ;;
  if full then ret (Some ErrMempoolIsFull) else
  m <- gets id ;;
  if decide (mc_MaxTxBytes (mp_config m) < len tx) then ret (Some ErrTxTooLarge) else
  if match mp_preCheck m with Some f => negb (f tx) | None => false end then ret (Some ErrPreCheck) else
  if appError then ret (Some ErrProxyApp) else
  new <- cache_Push tx ;;
  if negb new then
    match mp_txsMap m !! Key tx with
    | Some e => modify (λ m, set_senders (<[e := {[senderID]} ∪ default ∅ (mp_senders m !! e)]> (mp_senders m)) m)
    | None => ret tt
    end ;;;
    ret (Some ErrTxInCache)
  else modify (λ m, set_queue (mp_queue m ++ [ReqFirst tx senderID]) m) ;;; ret None.

Definition addTx (memTx : mempoolTx) (peerID : Z) : P unit :=
  e <- on_txs (PushBack memTx) ;;
  modify (λ m, set_senders (<[e := {[peerID]}]> (mp_senders m)) m) ;;;
  modify (λ m, set_txsMap (<[Key (mt_tx memTx) := e]> (mp_txsMap m)) m) ;;;
  modify (λ m, set_txsBytes (i64 (mp_txsBytes m + len (mt_tx memTx))) m).

Definition removeTx (tx : bytes) (elem : nat) (removeFromCache : bool) : P unit :=
  on_txs (Remove elem) ;;; on_txs (DetachPrev elem) ;;;
  modify (λ m, set_txsMap (delete (Key tx) (mp_txsMap m)) m) ;;;
  modify (λ m, set_txsBytes (i64 (mp_txsBytes m - len tx)) m) ;;;
  if removeFromCache then cache_Remove tx else ret tt.

Definition RemoveTxByKey (txKey : bytes) : P (option mempool_error) :=
  m <- gets id ;;
  match mp_txsMap m !! txKey with
  | Some e => memTx <- on_txs (Value e) ;; removeTx (mt_tx memTx) e false ;;; ret None
  | None => ret (Some ErrTxNotFound)
  end.

(** The channel has room for one. *)
Definition notifyTxsAvailable : P unit :=
  n <- Size ;;
  if decide (n = 0) then panic else
  m <- gets id ;;
  match mp_txsAvailable m with
  | Some _ => if mp_notified m then ret tt else modify (set_notified true) ;;; modify (set_txsAvailable (Some true))
  | None => ret tt
  end.

Definition post_ok (tx : bytes) (gas : Z) : P bool :=
  m <- gets id ;; ret (match mp_postCheck m with Some f => f tx gas | None => true end).

Definition resCbFirstTime (tx : bytes) (peerID : Z) (res : app_answer) : P unit :=
  match res with
  | None => ret tt
  | Some (code, gas) =>
      ok <- post_ok tx gas ;;
      cfg <- gets mp_config ;;
      if bool_decide (code = CodeTypeOK) && ok then
        full <- isFull (len tx) ;;
        if full then cache_Remove tx else
        h <- gets mp_height ;;
        addTx (mkMempoolTx h gas tx) peerID ;;; notifyTxsAvailable
      else if mc_KeepInvalid cfg then ret tt else cache_Remove tx
  end.

(** The loop of [resCbRecheck] that looks for the transaction: whether it was found, with the cursor on it. *)
Fixpoint find_cursor (fuel : nat) (tx : bytes) : P bool :=
  match fuel with
  | O => λ _, Diverge
  | S fuel' =>
      m <- gets id ;;
      match mp_cursor m with
      | None => panic
      | Some e =>
          memTx <- on_txs (Value e) ;;
          if decide (tx = mt_tx memTx) then ret true else
          if decide (mp_cursor m = mp_end m) then modify (set_cursor None) ;;; ret false else
          next <- on_txs (Next e) ;; modify (set_cursor next) ;;; find_cursor fuel' tx
      end
  end.

Definition resCbRecheck (tx : bytes) (res : app_answer) : P unit :=
  match res with
  | None => ret tt
  | Some (code, gas) =>
      m <- gets id ;;
      found <- find_cursor (S (size (cl_heap (mp_txs m)))) tx ;;
      if negb found then ret tt else
      ok <- post_ok tx gas ;;
      m <- gets id ;;
      match mp_cursor m with
      | None => panic
      | Some e =>
          (if bool_decide (code = CodeTypeOK) && ok then ret tt else removeTx tx e (negb (mc_KeepInvalid (mp_config m)))) ;;;
          (if decide (mp_cursor m = mp_end m) then modify (set_cursor None) else next <- on_txs (Next e) ;; modify (set_cursor next)) ;;;
          c <- gets mp_cursor ;;
          match c with
          | Some _ => ret tt
          | None => n <- Size ;; if decide (0 < n) then notifyTxsAvailable else ret tt
          end
      end
  end.

Definition globalCb (tx : bytes) (res : app_answer) : P unit :=
  c <- gets mp_cursor ;; match c with None => ret tt | Some _ => resCbRecheck tx res end.
Definition reqResCb (tx : bytes) (peerID : Z) (res : app_answer) : P unit :=
  c <- gets mp_cursor ;; match c with Some _ => panic | None => resCbFirstTime tx peerID res end.

(** The next answer of the application: the callback for all answers, then the one for the request. *)
Definition app_response (res : app_answer) : P unit :=
  m <- gets id ;;
  match mp_queue m with
  | [] => ret tt
  | req :: queue =>
      modify (set_queue queue) ;;;
      match req with
      | ReqFirst tx peerID => globalCb tx res ;;; reqResCb tx peerID res
      | ReqRecheck tx => globalCb tx res
      end
  end.

(** The transactions from an element on. *)
Fixpoint walk (fuel : nat) (e : option nat) : P (list bytes) :=
  match e with
  | None => ret []
  | Some e =>
      match fuel with
      | O => λ _, Diverge
      | S fuel' => memTx <- on_txs (Value e) ;; next <- on_txs (Next e) ;; l <- walk fuel' next ;; ret (mt_tx memTx :: l)
      end
  end.
Definition list_fuel : P nat := m <- gets id ;; ret (size (cl_heap (mp_txs m))).

Definition recheckTxs : P unit :=
  n <- Size ;;
  if decide (n = 0) then panic else
  front <- on_txs Front ;; back <- on_txs Back ;;
  modify (set_cursor front) ;;; modify (set_end back) ;;;
  fuel <- list_fuel ;; l <- walk fuel front ;;
  modify (λ m, set_queue (mp_queue m ++ (ReqRecheck <$> l)) m).

(** The results of the transactions may be missing. *)
Fixpoint update_txs (txs : list bytes) (codes : list Z) : P unit :=
  match txs with
  | [] => ret tt
  | tx :: txs' =>
      match codes with
      | [] => panic
      | code :: codes' =>
          cfg <- gets mp_config ;;
          (if decide (code = CodeTypeOK) then cache_Push tx ;;; ret tt else if mc_KeepInvalid cfg then ret tt else cache_Remove tx) ;;;
          m <- gets id ;;
          match mp_txsMap m !! Key tx with Some e => removeTx tx e false | None => ret tt end ;;;
          update_txs txs' codes'
      end
  end.
Definition Update (height : Z) (txs : list bytes) (codes : list Z) (pre : option PreCheckFunc) (post : option PostCheckFunc) : P unit :=
  modify (set_height height) ;;; modify (set_notified false) ;;;
  match pre with Some _ => modify (set_preCheck pre) | None => ret tt end ;;;
  match post with Some _ => modify (set_postCheck post) | None => ret tt end ;;;
  update_txs txs codes ;;;
  n <- Size ;; cfg <- gets mp_config ;;
  if decide (0 < n) then (if mc_Recheck cfg then recheckTxs else notifyTxsAvailable) else ret tt.

Fixpoint flush_loop (fuel : nat) (e : option nat) : P unit :=
  match e with
  | None => ret tt
  | Some e =>
      match fuel with
      | O => λ _, Diverge
      | S fuel' => on_txs (Remove e) ;;; on_txs (DetachPrev e) ;;; next <- on_txs (Next e) ;; flush_loop fuel' next
      end
  end.
Definition Flush : P unit :=
  modify (set_txsBytes 0) ;;; modify (λ m, set_cache (lru_Reset <$> mp_cache m) m) ;;;
  fuel <- list_fuel ;; front <- on_txs Front ;; flush_loop fuel front ;;; modify (set_txsMap ∅).

(** The transactions for tests, whatever the limits. *)
Definition ReapMaxBytesMaxGas (maxBytes maxGas : Z) : P (list bytes) :=
  m <- gets id ;; match mp_testtxList m with [] => panic | l => ret (removelast l) end.

Fixpoint reap_loop (fuel : nat) (e : option nat) (txs : list bytes) (max : Z) : P (list bytes) :=
  match e with
  | None => ret txs
  | Some e =>
      if decide (Z.of_nat (length txs) ≤ max) then
        match fuel with
        | O => λ _, Diverge
        | S fuel' => memTx <- on_txs (Value e) ;; next <- on_txs (Next e) ;; reap_loop fuel' next (txs ++ [mt_tx memTx]) max
        end
      else ret txs
  end.
Definition ReapMaxTxs (max : Z) : P (list bytes) :=
  n <- Size ;; let max := if decide (max < 0) then n else max in
  fuel <- list_fuel ;; front <- on_txs Front ;; reap_loop fuel front [] max.
End mempool.
