(* ===== verification/TmMempoolFacts.v ===== *)
(** The invariant of the mempool: however transactions, answers of the application and blocks arrive, it stays within its limits, counts
    its bytes exactly, and never panics. *)

From S2P Require Import Prelude TmBits TmValidators TmTypes TmCList TmMempool.

(** ** Lists of elements *)
Abbreviation txlist := (CList mempoolTx).
Definition elem_tx (c : txlist) (x : nat) : option mempoolTx := ce_Value <$> cl_heap c !! x.
Definition txs_in (c : txlist) (l : list nat) : list mempoolTx := omap (elem_tx c) l.
Definition raw (ts : list mempoolTx) : list bytes := mt_tx <$> ts.
Fixpoint total (ts : list mempoolTx) : Z := match ts with [] => 0 | t :: ts' => len (mt_tx t) + total ts' end.

Lemma txs_in_app c l1 l2 : txs_in c (l1 ++ l2) = txs_in c l1 ++ txs_in c l2.
Proof. apply omap_app. Qed.
Lemma total_app a b : total (a ++ b) = total a + total b.
Proof. induction a as [|t a IH]; cbn; lia. Qed.
Lemma total_nonneg a : 0 ≤ total a.
Proof. induction a as [|t a IH]; cbn; [lia|]. unfold len. lia. Qed.

Lemma elem_tx_keeps c c' x : keeps c c' → is_Some (cl_heap c !! x) → elem_tx c' x = elem_tx c x.
Proof. intros [_ K] [e E]. destruct (K x e E) as (e' & E' & V & _). unfold elem_tx. rewrite E, E'. cbn. by rewrite V. Qed.
Lemma txs_in_keeps c c' l : keeps c c' → (∀ x, x ∈ l → is_Some (cl_heap c !! x)) → txs_in c' l = txs_in c l.
Proof.
  intros K. induction l as [|x l IH]; intros H; [done|]. unfold txs_in. cbn. rewrite (elem_tx_keeps c c') by (done || (apply H; set_solver)).
  fold (txs_in c' l) (txs_in c l). rewrite IH by (intros y Hy; apply H; set_solver). done.
Qed.
Lemma repr_elem c l x : repr c l → x ∈ l → ∃ t, elem_tx c x = Some t.
Proof. intros R Hx. destruct (repr_in c l x R Hx) as [e E]. exists (ce_Value e). unfold elem_tx. by rewrite E. Qed.
Lemma repr_is_Some (c : txlist) l x : repr c l → x ∈ l → is_Some (cl_heap c !! x).
Proof. intros R Hx. destruct (repr_in c l x R Hx) as [e E]. by exists e. Qed.
Lemma txs_in_cons c x l t : elem_tx c x = Some t → txs_in c (x :: l) = t :: txs_in c l.
Proof. intros E. unfold txs_in. cbn. by rewrite E. Qed.
Lemma txs_in_length c l : repr c l → length (txs_in c l) = length l.
Proof.
  intros R. assert (∀ k, (∀ x, x ∈ k → x ∈ l) → length (txs_in c k) = length k) as H; [|by apply H].
  induction k as [|x k IH]; intros Hk; [done|]. destruct (repr_elem c l x R) as [t Et]; [apply Hk; set_solver|]. rewrite (txs_in_cons c x k t Et). cbn. f_equal. apply IH. set_solver.
Qed.

(** ** The pool *)
Definition small (tx : bytes) : Prop := len tx < 2 ^ 62.

Section facts.
(** [U]: the transactions there are. *)
Context (Key : bytes → bytes) (U : bytes → Prop).

Record pool (m : Mempool) (l : list nat) : Prop := {
  po_repr : repr (mp_txs m) l;
  po_max : cl_maxLen (mp_txs m) = MaxLength;
  po_cfg : mc_Size (mp_config m) ≤ MaxLength ∧ mc_MaxTxsBytes (mp_config m) < 2 ^ 62;
  po_bytes : mp_txsBytes m = total (txs_in (mp_txs m) l);
  po_size : Z.of_nat (length l) ≤ Z.max 0 (mc_Size (mp_config m));
  po_limit : mp_txsBytes m ≤ Z.max 0 (mc_MaxTxsBytes (mp_config m));
  po_map : ∀ k x, mp_txsMap m !! k = Some x → x ∈ l ∧ ∃ t, elem_tx (mp_txs m) x = Some t ∧ Key (mt_tx t) = k;
  po_known : Forall (λ t, U (mt_tx t)) (txs_in (mp_txs m) l);
}.

Lemma po_bytes_bound m l : pool m l → 0 ≤ mp_txsBytes m < 2 ^ 62.
Proof. intros H. rewrite (po_bytes _ _ H) at 1. pose proof (total_nonneg (txs_in (mp_txs m) l)). pose proof (po_limit _ _ H). destruct (po_cfg _ _ H). lia. Qed.

(** The fields the pool does not depend on. *)
Lemma pool_ext m m' l : mp_txs m' = mp_txs m → mp_config m' = mp_config m → mp_txsBytes m' = mp_txsBytes m → mp_txsMap m' = mp_txsMap m → pool m l → pool m' l.
Proof. intros E1 E2 E3 E4 []. split; rewrite ?E1, ?E2, ?E3, ?E4; done. Qed.

Lemma Size_run m l : pool m l → Size m = Ok (Z.of_nat (length l), set_txs (mp_txs m) m).
Proof. intros H. unfold Size, on_txs, Len, gets, outcome_bind. by rewrite (rp_len _ _ (po_repr _ _ H)). Qed.
Lemma set_txs_same m : set_txs (mp_txs m) m = m.
Proof. by destruct m. Qed.

Lemma isFull_run m l n : pool m l → 0 ≤ n < 2 ^ 62 →
  isFull n m = Ok (bool_decide (mc_Size (mp_config m) ≤ Z.of_nat (length l)) || bool_decide (mc_MaxTxsBytes (mp_config m) < n + mp_txsBytes m), m).
Proof.
  intros H Hn. unfold isFull, bind. rewrite (Size_run m l H), set_txs_same. unfold SizeBytes, gets, outcome_bind, ret.
  pose proof (po_bytes_bound m l H). by rewrite i64_id by lia.
Qed.

Lemma on_txs_run {A} (k : M txlist A) m a c : k (mp_txs m) = Ok (a, c) → on_txs k m = Ok (a, set_txs c m).
Proof. intros E. unfold on_txs. by rewrite E. Qed.

Lemma removeTx_run m l1 x l2 t fromCache : pool m (l1 ++ x :: l2) → elem_tx (mp_txs m) x = Some t →
  ∃ m', removeTx Key (mt_tx t) x fromCache m = Ok (tt, m') ∧ pool m' (l1 ++ l2) ∧ txs_in (mp_txs m') (l1 ++ l2) = txs_in (mp_txs m) (l1 ++ l2) ∧
    mp_txsMap m' = delete (Key (mt_tx t)) (mp_txsMap m) ∧ mp_cursor m' = mp_cursor m ∧ mp_end m' = mp_end m ∧ mp_queue m' = mp_queue m ∧ mp_config m' = mp_config m ∧
    mp_cache m' = (if fromCache then lru_Remove (Key (mt_tx t)) <$> mp_cache m else mp_cache m) ∧ Next x (mp_txs m') = Ok (head l2, mp_txs m') ∧
    keeps (mp_txs m) (mp_txs m').
Proof.
  intros H Et. pose proof (po_repr _ _ H) as R. destruct (repr_in _ _ x R) as [e Ex]; [set_solver|].
  assert (ce_Value e = t) as Ev. { unfold elem_tx in Et. rewrite Ex in Et. by injection Et as <-. }
  destruct (Remove_repr _ l1 x l2 e R Ex) as (c1 & E1 & R1 & K1 & X1 & N & F1).
  assert (x ∉ l1 ++ l2) as Hx. { pose proof (rp_nodup _ _ R) as (_ & Nd & Nx)%NoDup_app. apply NoDup_cons in Nx as [Nx _]. intros [Hi|Hi]%elem_of_app; [|done]. apply (Nd x Hi). set_solver. }
  destruct (DetachPrev_repr c1 (l1 ++ l2) x (mark e) R1 X1) as (c2 & E2 & R2 & K2 & F2 & X2); [done|done|].
  assert (keeps (mp_txs m) c2) as K by by etrans. assert (Hin : ∀ y, y ∈ l1 ++ l2 → is_Some (cl_heap (mp_txs m) !! y)) by (intros y Hy; apply (repr_is_Some _ _ _ R); set_solver).
  assert (txs_in c2 (l1 ++ l2) = txs_in (mp_txs m) (l1 ++ l2)) as Ht by by apply txs_in_keeps.
  assert (total (txs_in (mp_txs m) (l1 ++ x :: l2)) = len (mt_tx t) + total (txs_in (mp_txs m) (l1 ++ l2))) as Hsum.
  { rewrite !txs_in_app, (txs_in_cons _ x l2 t Et), !total_app. cbn. lia. }
  pose proof (po_bytes_bound _ _ H) as Hb. pose proof (po_bytes _ _ H) as Hbytes. pose proof (total_nonneg (txs_in (mp_txs m) (l1 ++ l2))) as Hnn. pose proof (po_limit _ _ H) as Hlim.
  assert (0 ≤ len (mt_tx t)) as Hlen by (unfold len; lia).
  unfold removeTx, bind. rewrite (on_txs_run (Remove x) m _ _ E1). cbn [outcome_bind]. rewrite (on_txs_run (DetachPrev x) (set_txs c1 m) tt c2 E2). cbn [outcome_bind modify].
  match goal with |- context [(if fromCache then _ else _) ?z] => set (m1 := z) end.
  assert (∃ m', (if fromCache then cache_Remove Key (mt_tx t) else ret tt) m1 = Ok (tt, m') ∧ mp_txs m' = c2 ∧ mp_config m' = mp_config m ∧
    mp_txsBytes m' = i64 (mp_txsBytes m - len (mt_tx t)) ∧ mp_txsMap m' = delete (Key (mt_tx t)) (mp_txsMap m) ∧ mp_cursor m' = mp_cursor m ∧ mp_end m' = mp_end m ∧ mp_queue m' = mp_queue m ∧
    mp_cache m' = (if fromCache then lru_Remove (Key (mt_tx t)) <$> mp_cache m else mp_cache m)) as (m' & E' & M1 & M2 & M3 & M4 & M5 & M6 & M7 & M8)
    by (destruct fromCache; eexists; split_and!; done).
  exists m'. rewrite M1. split; [done|]. split; [|split_and!; try done].
  2: { unfold Next, get, bind, gets, outcome_bind, id. rewrite X2. cbn. by rewrite N. }
  rewrite i64_id in M3 by lia. split; rewrite ?M1, ?M2, ?M3, ?M4.
  - done.
  - destruct K as [-> _]. apply H.
  - apply H.
  - rewrite Ht. lia.
  - pose proof (po_size _ _ H) as Hs. rewrite length_app in Hs |- *. cbn in Hs. lia.
  - lia.
  - intros k y Hk. apply lookup_delete_Some in Hk as [Hk Hy]. destruct (po_map _ _ H k y Hy) as (Hyl & ty & Ety & Ek).
    assert (y ≠ x) as Hyx by (intros ->; rewrite Et in Ety; injection Ety as <-; done). split; [set_solver|]. exists ty. split; [|done]. rewrite <-Ety. apply elem_tx_keeps; [done|].
    apply (repr_is_Some _ _ _ R). set_solver.
  - rewrite Ht. pose proof (po_known _ _ H) as Hk. rewrite !txs_in_app in Hk |- *. rewrite (txs_in_cons _ x l2 t Et) in Hk. apply Forall_app in Hk as [? Hk]. apply Forall_cons in Hk as [_ ?]. by apply Forall_app.
Qed.

Lemma addTx_run m l t peer : pool m l → small (mt_tx t) → U (mt_tx t) → Z.of_nat (length l) < mc_Size (mp_config m) → len (mt_tx t) + mp_txsBytes m ≤ mc_MaxTxsBytes (mp_config m) →
  ∃ m' e, addTx Key t peer m = Ok (tt, m') ∧ pool m' (l ++ [e]) ∧ e ∉ l ∧ txs_in (mp_txs m') (l ++ [e]) = txs_in (mp_txs m) l ++ [t] ∧
    mp_txsMap m' = <[Key (mt_tx t) := e]> (mp_txsMap m) ∧ elem_tx (mp_txs m') e = Some t ∧
    mp_cursor m' = mp_cursor m ∧ mp_end m' = mp_end m ∧ mp_queue m' = mp_queue m ∧ mp_config m' = mp_config m ∧ mp_cache m' = mp_cache m ∧ keeps (mp_txs m) (mp_txs m').
Proof.
  intros H Hs Hu Hn Hb. pose proof (po_repr _ _ H) as R. pose proof (po_bytes_bound _ _ H) as Hbb. destruct (po_cfg _ _ H) as [Hc1 Hc2].
  assert (0 ≤ len (mt_tx t)) as Hlen by (unfold len; lia).
  destruct (PushBack_repr _ l t R) as (c & e & E & R' & Ee & Ev & He & K); [rewrite (rp_len _ _ R), (po_max _ _ H); lia|]. set (x := cl_fresh (mp_txs m)) in *.
  unfold addTx, bind. rewrite (on_txs_run (PushBack t) m _ _ E). cbn [outcome_bind modify]. eexists _, x. split; [done|].
  assert (elem_tx c x = Some t) as Ex by (unfold elem_tx; rewrite Ee; cbn; by rewrite Ev).
  assert (txs_in c (l ++ [x]) = txs_in (mp_txs m) l ++ [t]) as Ht.
  { rewrite txs_in_app. f_equal; [apply txs_in_keeps; [done|]; intros y Hy; by apply (repr_is_Some _ _ _ R)|]. unfold txs_in. cbn. by rewrite Ex. }
  split; [|by split_and!]. split; cbn [mp_txs mp_config mp_txsBytes mp_txsMap set_txs set_txsBytes set_txsMap set_senders].
  - done.
  - destruct K as [-> _]. apply H.
  - done.
  - rewrite Ht, total_app, i64_id by lia. rewrite (po_bytes _ _ H). cbn. lia.
  - rewrite length_app. cbn. lia.
  - rewrite i64_id by lia. lia.
  - intros k y Hk. destruct (decide (k = Key (mt_tx t))) as [->|Hne].
    + rewrite lookup_insert_eq in Hk. injection Hk as <-. split; [set_solver|]. by exists t.
    + rewrite lookup_insert_ne in Hk by done. destruct (po_map _ _ H k y Hk) as (Hyl & ty & Ety & Ek). split; [set_solver|]. exists ty. split; [|done].
      rewrite <-Ety. apply elem_tx_keeps; [done|]. by apply (repr_is_Some _ _ _ R).
  - rewrite Ht. apply Forall_app_2; [apply H|by apply Forall_singleton].
Qed.

(** ** Reading the list *)
Lemma Value_run m l x t : pool m l → elem_tx (mp_txs m) x = Some t → on_txs (Value x) m = Ok (t, m).
Proof.
  intros H Et. unfold elem_tx in Et. destruct (cl_heap (mp_txs m) !! x) as [e|] eqn:E; [|done]. injection Et as <-.
  unfold on_txs, Value, get, bind, gets, outcome_bind, id. rewrite E. cbn. by rewrite set_txs_same.
Qed.
Lemma Next_run m l1 x l2 : pool m (l1 ++ x :: l2) → on_txs (Next x) m = Ok (head l2, m).
Proof.
  intros H. destruct (repr_in _ _ x (po_repr _ _ H)) as [e E]; [set_solver|]. destruct (repr_next _ l1 x l2 e (po_repr _ _ H) E) as (N & _).
  unfold on_txs, Next, get, bind, gets, outcome_bind, id. rewrite E. cbn. by rewrite N, set_txs_same.
Qed.
Lemma fuel_enough m l : pool m l → (length l ≤ size (cl_heap (mp_txs m)))%nat.
Proof.
  intros H. pose proof (po_repr _ _ H) as R. rewrite <-size_dom, <-(size_list_to_set (C := gset nat) l) by apply R. apply subseteq_size. intros x Hx%elem_of_list_to_set.
  apply elem_of_dom. by apply (repr_is_Some _ _ _ R).
Qed.
Lemma walk_run m l2 : ∀ l1 fuel, pool m (l1 ++ l2) → (length l2 ≤ fuel)%nat → walk fuel (head l2) m = Ok (raw (txs_in (mp_txs m) l2), m).
Proof.
  induction l2 as [|x l2 IH]; intros l1 fuel H Hf; cbn [head]; [by destruct fuel|]. destruct fuel as [|fuel]; [cbn in Hf; lia|].
  destruct (repr_elem _ _ x (po_repr _ _ H)) as [t Et]; [set_solver|]. cbn [walk]. unfold bind. rewrite (Value_run _ _ _ _ H Et). cbn [outcome_bind]. rewrite (Next_run _ _ _ _ H). cbn [outcome_bind].
  rewrite (IH (l1 ++ [x])); [|by rewrite <-app_assoc|cbn in Hf; lia]. cbn [outcome_bind ret]. by rewrite (txs_in_cons _ x l2 t Et).
Qed.
Lemma reap_run m l2 max : ∀ l1 fuel txs, pool m (l1 ++ l2) → (length l2 ≤ fuel)%nat →
  reap_loop fuel (head l2) txs max m = Ok (txs ++ take (Z.to_nat (max + 1) - length txs) (raw (txs_in (mp_txs m) l2)), m).
Proof.
  induction l2 as [|x l2 IH]; intros l1 fuel txs H Hf; cbn [head]; [destruct fuel; cbn; by rewrite take_nil, app_nil_r|]. destruct fuel as [|fuel]; [cbn in Hf; lia|].
  destruct (repr_elem _ _ x (po_repr _ _ H)) as [t Et]; [set_solver|]. rewrite (txs_in_cons _ x l2 t Et). cbn [reap_loop]. case_decide as Hm.
  - unfold bind. rewrite (Value_run _ _ _ _ H Et). cbn [outcome_bind]. rewrite (Next_run _ _ _ _ H). cbn [outcome_bind].
    rewrite (IH (l1 ++ [x])); [|by rewrite <-app_assoc|cbn in Hf; lia]. rewrite length_app. cbn [length raw fmap list_fmap].
    replace (Z.to_nat (max + 1) - length txs)%nat with (S (Z.to_nat (max + 1) - (length txs + 1)))%nat by lia. cbn [take]. by rewrite <-app_assoc.
  - replace (Z.to_nat (max + 1) - length txs)%nat with 0%nat by lia. cbn. by rewrite app_nil_r.
Qed.

Lemma notify_run m l : pool m l → l ≠ [] → ∃ m', notifyTxsAvailable m = Ok (tt, m') ∧ pool m' l ∧ mp_txs m' = mp_txs m ∧ mp_txsMap m' = mp_txsMap m ∧ mp_cache m' = mp_cache m ∧
  mp_cursor m' = mp_cursor m ∧ mp_end m' = mp_end m ∧ mp_queue m' = mp_queue m ∧ mp_config m' = mp_config m.
Proof.
  intros H Hl. unfold notifyTxsAvailable, bind. rewrite (Size_run m l H), set_txs_same. cbn [outcome_bind]. rewrite decide_False by (destruct l; [done|cbn; lia]).
  unfold gets, id, outcome_bind. assert (∀ m', mp_txs m' = mp_txs m → mp_config m' = mp_config m → mp_txsBytes m' = mp_txsBytes m → mp_txsMap m' = mp_txsMap m → pool m' l) as Hp by (intros; by eapply pool_ext).
  destruct (mp_txsAvailable m); [destruct (mp_notified m)|]; (eexists; split; [done|]; split; [by apply Hp|done]).
Qed.

(** ** The state, with the requests that are under way *)
Definition first_ok (r : app_request) : Prop := match r with ReqFirst tx _ => small tx ∧ U tx | ReqRecheck _ => False end.
Record inv (m : Mempool) (l : list nat) : Prop := {
  in_pool : pool m l;
  in_queue : ∃ firsts, Forall first_ok firsts ∧
    match mp_cursor m with
    | None => mp_queue m = firsts
    | Some e => ∃ l1 l2, l = l1 ++ e :: l2 ∧ mp_end m = last l ∧ mp_queue m = (ReqRecheck <$> raw (txs_in (mp_txs m) (e :: l2))) ++ firsts
    end;
}.

(** ** New transactions *)
Record same_pool (m m' : Mempool) : Prop := {
  sp_txs : mp_txs m' = mp_txs m; sp_cfg : mp_config m' = mp_config m; sp_bytes : mp_txsBytes m' = mp_txsBytes m; sp_map : mp_txsMap m' = mp_txsMap m;
  sp_cursor : mp_cursor m' = mp_cursor m; sp_end : mp_end m' = mp_end m }.
Lemma same_pool_pool m m' l : same_pool m m' → pool m l → pool m' l.
Proof. intros []. by apply pool_ext. Qed.

Definition pushed (key : bytes) (c c' : option LRUTxCache) : Prop :=
  match c with None => c' = None | Some c => key ∉ lru_map c ∧ c' = Some (lru_Push key c).2 end.

Lemma cache_Push_run m tx : ∃ b m', cache_Push Key tx m = Ok (b, m') ∧ same_pool m m' ∧ mp_queue m' = mp_queue m ∧ mp_preCheck m' = mp_preCheck m ∧
  (if b then pushed (Key tx) (mp_cache m) (mp_cache m') else lru_map <$> mp_cache m' = lru_map <$> mp_cache m) ∧
  mp_cache m' = (λ c, (lru_Push (Key tx) c).2) <$> mp_cache m.
Proof.
  unfold cache_Push, bind, gets, outcome_bind, id, ret, modify. destruct (mp_cache m) as [c|] eqn:Ec.
  - unfold pushed. destruct (decide (Key tx ∈ lru_map c)) as [Hk|Hk].
    + assert (lru_Push (Key tx) c = (false, mkLRU (lru_size c) (lru_map c) (lru_del (Key tx) (lru_list c) ++ [Key tx]))) as E by (unfold lru_Push; by rewrite decide_True).
      cbn [fmap option_fmap option_map]. rewrite E. eexists false, _. by split_and!.
    + assert ((lru_Push (Key tx) c).1 = true) as E by (unfold lru_Push; by rewrite decide_False). destruct (lru_Push (Key tx) c) as [b c'] eqn:Ep. cbn in E. subst b.
      eexists true, _. split; [done|]. cbn [fmap option_fmap option_map]. rewrite Ep. by split_and!.
  - eexists true, m. rewrite Ec. by split_and!.
Qed.

Lemma CheckTx_run m l appErr tx sender : pool m l → small tx → ∃ r m', CheckTx Key appErr tx sender m = Ok (r, m') ∧ same_pool m m' ∧
  match r with
  | None => mp_queue m' = mp_queue m ++ [ReqFirst tx sender] ∧ pushed (Key tx) (mp_cache m) (mp_cache m')
  | Some _ => mp_queue m' = mp_queue m ∧ lru_map <$> mp_cache m' = lru_map <$> mp_cache m
  end.
Proof.
  intros H Hs. unfold CheckTx, bind. rewrite (isFull_run m l _ H) by (unfold small, len in *; lia). cbn [outcome_bind]. destruct (_ || _); [eexists (Some _), m; by split_and!|].
  unfold gets at 1. cbn [outcome_bind id]. case_decide; [eexists (Some _), m; by split_and!|]. destruct (match mp_preCheck m with Some _ => _ | None => _ end); [eexists (Some _), m; by split_and!|].
  destruct appErr; [eexists (Some _), m; by split_and!|]. destruct (cache_Push_run m tx) as (b & m1 & E & Sp & Q & _ & Hc & _). rewrite E. cbn [outcome_bind]. destruct b; cbn [negb].
  - cbn. eexists None, _. split; [done|]. destruct Sp. split; [by split|]. cbn. by rewrite Q.
  - destruct Sp. destruct (mp_txsMap m !! Key tx); cbn; (eexists (Some _), _; split; [done|]; split; [by split|done]).
Qed.

Lemma CheckTx_inv m l appErr tx sender : inv m l → small tx → U tx → ∃ r m', CheckTx Key appErr tx sender m = Ok (r, m') ∧ inv m' l.
Proof.
  intros [H (firsts & Hf & Hq)] Hs Hu. destruct (CheckTx_run m l appErr tx sender H Hs) as (r & m' & E & Sp & Hr). exists r, m'. split; [done|]. split; [by eapply same_pool_pool|].
  exists (if r then firsts else firsts ++ [ReqFirst tx sender]). destruct Sp as [S1 S2 S3 S4 S5 S6]. split; [destruct r; [done|]; apply Forall_app_2; [done|by apply Forall_singleton]|].
  rewrite S5, S6, S1. destruct (mp_cursor m) as [e|]; [destruct Hq as (l1 & l2 & -> & He & Hq); exists l1, l2; split; [done|]; split; [done|]|];
    destruct r; destruct Hr as [Hr _]; rewrite Hr, Hq; [done| |done|done]; by rewrite app_assoc.
Qed.

(** ** Answers of the application *)
Record same_rest (m m' : Mempool) : Prop := {
  sr_cfg : mp_config m' = mp_config m; sr_cursor : mp_cursor m' = mp_cursor m; sr_end : mp_end m' = mp_end m; sr_queue : mp_queue m' = mp_queue m }.

Definition first_result (m m' : Mempool) (l l' : list nat) (tx : bytes) : Prop :=
  (l' = l ∧ mp_txs m' = mp_txs m ∧ mp_txsMap m' = mp_txsMap m ∧ (mp_cache m' = mp_cache m ∨ mp_cache m' = lru_Remove (Key tx) <$> mp_cache m)) ∨
  (∃ e t, l' = l ++ [e] ∧ mt_tx t = tx ∧ txs_in (mp_txs m') l' = txs_in (mp_txs m) l ++ [t] ∧ elem_tx (mp_txs m') e = Some t ∧
     mp_txsMap m' = <[Key tx := e]> (mp_txsMap m) ∧ mp_cache m' = mp_cache m ∧ e ∉ l ∧ keeps (mp_txs m) (mp_txs m')).

Lemma resCbFirst_run m l tx peer code gas : pool m l → small tx → U tx →
  ∃ m' l', resCbFirstTime Key tx peer (Some (code, gas)) m = Ok (tt, m') ∧ pool m' l' ∧ same_rest m m' ∧ first_result m m' l l' tx.
Proof.
  intros H Hs Hu. unfold resCbFirstTime, bind, post_ok. unfold bind, gets at 1 2, ret, outcome_bind at 1 2 3. cbn [id]. destruct (_ && _).
  - rewrite (isFull_run m l _ H) by (unfold small, len in *; lia). cbn [outcome_bind]. destruct (_ || _) eqn:Hfull.
    + eexists _, l. split; [done|]. split; [by apply (pool_ext m)|]. split; [by split|]. left. split_and!; try done. by right.
    + apply orb_false_iff in Hfull as [F1 F2]. apply bool_decide_eq_false in F1, F2. cbn.
      destruct (addTx_run m l (mkMempoolTx (mp_height m) gas tx) peer H Hs Hu) as (m1 & e & E1 & P1 & He & T1 & M1 & X1 & C1 & N1 & Q1 & G1 & Ca1 & K1); [lia|cbn; lia|].
      rewrite E1. cbn [outcome_bind]. destruct (notify_run m1 (l ++ [e]) P1) as (m2 & E2 & P2 & T2 & M2 & Ca2 & C2 & N2 & Q2 & G2); [by destruct l|].
      exists m2, (l ++ [e]). split; [done|]. split; [done|]. split; [split; congruence|]. right. exists e, (mkMempoolTx (mp_height m) gas tx). rewrite T2.
      split_and!; try done; [by rewrite M2|congruence].
  - destruct (mc_KeepInvalid _).
    + eexists _, l. split; [done|]. split; [done|]. split; [by split|]. left. split_and!; try done. by left.
    + eexists _, l. split; [done|]. split; [by apply (pool_ext m)|]. split; [by split|]. left. split_and!; try done. by right.
Qed.

Definition recheck_result (m m' : Mempool) (l1 : list nat) (e : nat) (l2 l' : list nat) (tx : bytes) : Prop :=
  txs_in (mp_txs m') l2 = txs_in (mp_txs m) l2 ∧
  ((l' = l1 ++ e :: l2 ∧ mp_txs m' = mp_txs m ∧ mp_txsMap m' = mp_txsMap m ∧ mp_cache m' = mp_cache m) ∨
   (l' = l1 ++ l2 ∧ txs_in (mp_txs m') (l1 ++ l2) = txs_in (mp_txs m) (l1 ++ l2) ∧ mp_txsMap m' = delete (Key tx) (mp_txsMap m) ∧ keeps (mp_txs m) (mp_txs m') ∧
    mp_cache m' = (if mc_KeepInvalid (mp_config m) then mp_cache m else lru_Remove (Key tx) <$> mp_cache m))).

Lemma last_iff (l1 : list nat) e l2 : NoDup (l1 ++ e :: l2) → Some e = last (l1 ++ e :: l2) ↔ l2 = [].
Proof.
  intros Hn. rewrite last_app, last_cons. split; [|by intros ->]. destruct l2 as [|y l2]; [done|]. intros Hl. exfalso.
  apply NoDup_app in Hn as (_ & _ & [He _]%NoDup_cons). apply He. destruct (last (y :: l2)) as [z|] eqn:Ez; [|by apply last_None in Ez].
  injection Hl as <-. by apply last_Some_elem_of.
Qed.

(** The end of [resCbRecheck]. *)
Lemma recheck_end m l k : pool m l →
  ∃ m', (c <- gets mp_cursor ;; match c with Some _ => ret tt | None => n <- Size ;; if decide (0 < n) then notifyTxsAvailable else ret tt end) (set_cursor k m) = Ok (tt, m') ∧
    pool m' l ∧ mp_txs m' = mp_txs m ∧ mp_txsMap m' = mp_txsMap m ∧ mp_cache m' = mp_cache m ∧ mp_config m' = mp_config m ∧ mp_cursor m' = k ∧ mp_end m' = mp_end m ∧ mp_queue m' = mp_queue m.
Proof.
  intros H. assert (pool (set_cursor k m) l) as H1 by by apply (pool_ext m). unfold bind, gets, outcome_bind at 1. cbn [mp_cursor set_cursor]. destruct k as [k|].
  - eexists. split; [done|]. by split_and!.
  - rewrite (Size_run _ l H1), set_txs_same. cbn [outcome_bind]. case_decide as Hn.
    + destruct (notify_run _ l H1) as (m' & E & P1 & T1 & M1 & C1 & U1 & N1 & Q1 & G1); [by intros ->|]. exists m'. rewrite E. by split_and!.
    + eexists. split; [done|]. by split_and!.
Qed.

Lemma resCbRecheck_run m l1 e l2 t code gas : pool m (l1 ++ e :: l2) → mp_cursor m = Some e → mp_end m = last (l1 ++ e :: l2) → elem_tx (mp_txs m) e = Some t →
  ∃ m' l', resCbRecheck Key (mt_tx t) (Some (code, gas)) m = Ok (tt, m') ∧ pool m' l' ∧ mp_config m' = mp_config m ∧ mp_cursor m' = head l2 ∧ mp_end m' = mp_end m ∧
    mp_queue m' = mp_queue m ∧ recheck_result m m' l1 e l2 l' (mt_tx t).
Proof.
  intros H Hc He Et. pose proof (rp_nodup _ _ (po_repr _ _ H)) as Hnd. unfold resCbRecheck, bind at 1 2 3 4. unfold gets at 1. cbn [outcome_bind id]. cbn [find_cursor].
  unfold bind at 1 2. unfold gets at 1. cbn [outcome_bind id]. rewrite Hc, (Value_run _ _ _ _ H Et). cbn [outcome_bind]. rewrite decide_True by done. cbn [ret outcome_bind negb].
  unfold post_ok, bind at 1. unfold gets at 1 2. cbn [outcome_bind id ret]. rewrite Hc. set (good := _ && _).
  assert (∃ m1 l', (if good then ret tt else removeTx Key (mt_tx t) e (negb (mc_KeepInvalid (mp_config m)))) m = Ok (tt, m1) ∧ pool m1 l' ∧ mp_config m1 = mp_config m ∧ mp_end m1 = mp_end m ∧
    mp_queue m1 = mp_queue m ∧ Next e (mp_txs m1) = Ok (head l2, mp_txs m1) ∧ recheck_result m m1 l1 e l2 l' (mt_tx t)) as (m1 & l' & E1 & P1 & G1 & N1 & Q1 & X1 & R1).
  { destruct good.
    - exists m, (l1 ++ e :: l2). split; [done|]. split_and!; try done; [|split; [done|by left]]. pose proof (Next_run m l1 e l2 H) as Hn. unfold on_txs in Hn.
      destruct (Next e (mp_txs m)) as [[k c]| |]; [|done..]. cbn in Hn. injection Hn as -> Hn. apply (f_equal mp_txs) in Hn. cbn in Hn. by subst c.
    - destruct (removeTx_run m l1 e l2 t (negb (mc_KeepInvalid (mp_config m))) H Et) as (m1 & E1 & P1 & T1 & M1 & C1 & N1 & Q1 & G1 & Ca1 & X1 & K1).
      exists m1, (l1 ++ l2). split; [done|]. split_and!; try done. split.
      + apply txs_in_keeps; [done|]. intros y Hy. apply (repr_is_Some _ _ _ (po_repr _ _ H)). set_solver.
      + right. split_and!; try done. rewrite Ca1. by destruct (mc_KeepInvalid _). }
  unfold bind at 1. rewrite E1. cbn [outcome_bind]. unfold bind at 1.
  assert ((if decide (Some e = mp_end m) then modify (set_cursor None) else next <- on_txs (Next e) ;; modify (set_cursor next)) m1 = Ok (tt, set_cursor (head l2) m1)) as E2.
  { rewrite He. case_decide as Hl.
    - apply last_iff in Hl as ->; done.
    - unfold bind. rewrite (on_txs_run _ _ _ _ X1), set_txs_same. done. }
  rewrite E2. cbn [outcome_bind]. destruct (recheck_end m1 l' (head l2) P1) as (m' & E3 & P3 & T3 & M3 & C3 & G3 & U3 & N3 & Q3).
  exists m', l'. split; [exact E3|]. split_and!; try done; [congruence..|]. unfold recheck_result in *. by rewrite T3, M3, C3.
Qed.

(** The next answer is for a new transaction, or for the one that is checked again. *)
Definition response_case (m m' : Mempool) (l l' : list nat) : Prop :=
  (m' = m ∧ l' = l) ∨
  (∃ tx peer, mp_queue m = ReqFirst tx peer :: mp_queue m' ∧ U tx ∧ first_result m m' l l' tx) ∨
  (∃ l1 e l2 t, l = l1 ++ e :: l2 ∧ elem_tx (mp_txs m) e = Some t ∧ mp_queue m = ReqRecheck (mt_tx t) :: mp_queue m' ∧ recheck_result m m' l1 e l2 l' (mt_tx t)).

Lemma response_recheck m l1 e l2 t firsts code gas : pool m (l1 ++ e :: l2) → mp_cursor m = Some e → mp_end m = last (l1 ++ e :: l2) → elem_tx (mp_txs m) e = Some t → Forall first_ok firsts →
  mp_queue m = ReqRecheck (mt_tx t) :: (ReqRecheck <$> raw (txs_in (mp_txs m) l2)) ++ firsts →
  ∃ m' l', app_response Key (Some (code, gas)) m = Ok (tt, m') ∧ inv m' l' ∧ response_case m m' (l1 ++ e :: l2) l'.
Proof.
  intros H Hc He Et Hf Hq. unfold app_response, bind at 1, gets at 1. cbn [outcome_bind id]. rewrite Hq.
  unfold bind at 1, modify at 1. cbn [outcome_bind]. unfold globalCb, bind at 1, gets at 1. cbn [outcome_bind mp_cursor set_queue]. rewrite Hc.
  set (m0 := set_queue _ m). assert (pool m0 (l1 ++ e :: l2)) as H0 by by apply (pool_ext m).
  destruct (resCbRecheck_run m0 l1 e l2 t code gas H0 Hc He Et) as (m' & l' & E & P' & G & C & N & Q & R). pose proof R as (T2 & R'). exists m', l'. split; [done|]. split; [split; [done|]|].
  - exists firsts. split; [done|]. rewrite C, N, Q. destruct l2 as [|e' l2]; [done|]. cbn [head]. change (mp_end m0) with (mp_end m). change (mp_txs m0) with (mp_txs m) in *. rewrite He.
    destruct R' as [(-> & _)|(-> & _)]; [exists (l1 ++ [e]), l2|exists l1, l2]; rewrite <-?app_assoc, T2; split_and!; try done. rewrite !last_app, !last_cons. by destruct (last l2).
  - right; right. exists l1, e, l2, t. rewrite Q. split_and!; try done; apply R.
Qed.
Lemma app_response_run m l code gas : inv m l → ∃ m' l', app_response Key (Some (code, gas)) m = Ok (tt, m') ∧ inv m' l' ∧ response_case m m' l l'.
Proof.
  intros [H (firsts & Hf & Hq)]. destruct (mp_cursor m) as [e|] eqn:Hc.
  - destruct Hq as (l1 & l2 & -> & He & Hq). destruct (repr_elem _ _ e (po_repr _ _ H)) as [t Et]; [set_solver|]. rewrite (txs_in_cons _ e l2 t Et) in Hq. by eapply response_recheck.
  - unfold app_response, bind at 1, gets at 1. cbn [outcome_bind id]. destruct firsts as [|r firsts]; rewrite Hq.
    + exists m, l. split; [done|]. split; [split; [done|]; exists []; by rewrite Hc|by left].
    + apply Forall_cons in Hf as [Hr Hf]. destruct r as [tx peer|tx]; [|done]. destruct Hr as [Hs Hu]. unfold bind at 1 2, modify at 1. cbn [outcome_bind].
      unfold globalCb, reqResCb, bind, gets. cbn [outcome_bind mp_cursor set_queue]. rewrite Hc. cbn [ret outcome_bind mp_cursor set_queue]. rewrite Hc.
      set (m0 := set_queue firsts m). assert (pool m0 l) as H0 by by apply (pool_ext m).
      destruct (resCbFirst_run m0 l tx peer code gas H0 Hs Hu) as (m' & l' & E & P' & [G C N Q] & R). exists m', l'. split; [done|]. split; [split; [done|]; exists firsts; rewrite C|].
      * change (mp_cursor m0) with (mp_cursor m). rewrite Hc, Q. done.
      * right; left. exists tx, peer. rewrite Hq, Q. done.
Qed.

(** ** Blocks *)
Lemma cache_step_run m l tx code : pool m l →
  ∃ m', (if decide (code = CodeTypeOK) then cache_Push Key tx ;;; ret tt else if mc_KeepInvalid (mp_config m) then ret tt else cache_Remove Key tx) m = Ok (tt, m') ∧
    same_pool m m' ∧ mp_queue m' = mp_queue m ∧
    (mp_cache m' = (λ c, (lru_Push (Key tx) c).2) <$> mp_cache m ∨ mp_cache m' = mp_cache m ∨ mp_cache m' = lru_Remove (Key tx) <$> mp_cache m).
Proof.
  intros H. case_decide.
  - destruct (cache_Push_run m tx) as (b & m1 & E & Sp & Q & _ & _ & Hc). exists m1. unfold bind. rewrite E. split; [done|]. split; [done|]. split; [done|]. by left.
  - destruct (mc_KeepInvalid _); (eexists; split; [done|]; split; [by split|]; split; [done|]); right; [by left|by right].
Qed.

(** Starting the second check. *)
Lemma recheckTxs_run m l : pool m l → l ≠ [] → ∃ m', recheckTxs m = Ok (tt, m') ∧ pool m' l ∧ mp_txs m' = mp_txs m ∧ mp_txsMap m' = mp_txsMap m ∧ mp_cache m' = mp_cache m ∧
  mp_cursor m' = head l ∧ mp_end m' = last l ∧ mp_queue m' = mp_queue m ++ (ReqRecheck <$> raw (txs_in (mp_txs m) l)) ∧ mp_config m' = mp_config m.
Proof.
  intros H Hl. pose proof (po_repr _ _ H) as R. unfold recheckTxs. unfold bind at 1. rewrite (Size_run m l H), set_txs_same. cbn [outcome_bind]. rewrite decide_False by (destruct l; [done|cbn; lia]).
  unfold bind at 1. rewrite (on_txs_run Front m (head l) (mp_txs m)) by (unfold Front, gets; by rewrite (rp_head _ _ R)). cbn [outcome_bind]. rewrite set_txs_same.
  unfold bind at 1. rewrite (on_txs_run Back m (last l) (mp_txs m)) by (unfold Back, gets; by rewrite (rp_tail _ _ R)). cbn [outcome_bind]. rewrite set_txs_same.
  unfold bind at 1 2 3, modify at 1 2. cbn [outcome_bind]. set (m1 := set_end _ _). assert (pool m1 l) as H1 by by apply (pool_ext m).
  unfold list_fuel, bind at 1, gets at 1. cbn [outcome_bind ret id]. unfold bind at 1. rewrite (walk_run m1 l []); [|done|exact (fuel_enough m1 l H1)]. cbn [outcome_bind]. unfold modify.
  eexists. split; [done|]. split; [by apply (pool_ext m)|done].
Qed.

(** A block in two parts. *)
Definition update_tail : M Mempool unit :=
  n <- Size ;; cfg <- gets mp_config ;; if decide (0 < n) then (if mc_Recheck cfg then recheckTxs else notifyTxsAvailable) else ret tt.
Lemma Update_prefix height txs codes pre post m :
  ∃ m2, Update Key height txs codes pre post m = (update_txs Key txs codes ;;; update_tail) m2 ∧ same_pool m m2 ∧ mp_queue m2 = mp_queue m ∧ mp_cache m2 = mp_cache m.
Proof. unfold Update, bind, modify, ret. destruct pre, post; cbn [outcome_bind]; (eexists; split; [done|]; split; [by split|done]). Qed.
Lemma update_tail_run m l : pool m l → mp_queue m = [] → mp_cursor m = None →
  ∃ m', update_tail m = Ok (tt, m') ∧ inv m' l ∧ mp_txs m' = mp_txs m ∧ mp_txsMap m' = mp_txsMap m ∧ mp_cache m' = mp_cache m ∧
    (mp_queue m' = [] ∨ mp_queue m' = ReqRecheck <$> raw (txs_in (mp_txs m) l)).
Proof.
  intros H Hq Hc. unfold update_tail. unfold bind at 1. rewrite (Size_run m l H), set_txs_same. cbn [outcome_bind]. unfold bind at 1, gets at 1. cbn [outcome_bind]. case_decide as Hn.
  - assert (l ≠ []) as Hne by (by intros ->). destruct (mc_Recheck _).
    + destruct (recheckTxs_run m l H Hne) as (m' & E & P' & T & M & Ca & C & N & Q & G). exists m'. rewrite Hq in Q. split; [done|]. split; [|split_and!; try done; by right].
      split; [done|]. exists []. split; [done|]. rewrite C, N, Q, T. destruct l as [|e l]; [done|]. cbn [head app]. exists [], l. rewrite app_nil_r. done.
    + destruct (notify_run m l H Hne) as (m' & E & P' & T & M & Ca & C & N & Q & G). exists m'. rewrite Hq in Q. split; [done|]. split; [|split_and!; try done; by left].
      split; [done|]. exists []. split; [done|]. by rewrite C, Hc.
  - exists m. split; [done|]. split; [|split_and!; try done; by left]. split; [done|]. exists []. split; [done|]. by rewrite Hc.
Qed.

(** ** The other operations *)
(** RemoveTxByKey leaves the mempool alone or removes one transaction. *)
Definition removed (m m' : Mempool) (l l' : list nat) : Prop :=
  (m' = m ∧ l' = l) ∨
  ∃ l1 x l2 t, l = l1 ++ x :: l2 ∧ l' = l1 ++ l2 ∧ elem_tx (mp_txs m) x = Some t ∧ txs_in (mp_txs m') (l1 ++ l2) = txs_in (mp_txs m) (l1 ++ l2) ∧
    mp_txsMap m' = delete (Key (mt_tx t)) (mp_txsMap m) ∧ mp_cache m' = mp_cache m ∧ mp_queue m' = mp_queue m ∧ mp_cursor m' = mp_cursor m ∧ keeps (mp_txs m) (mp_txs m').
Lemma RemoveTxByKey_run m l key : pool m l → ∃ r m' l', RemoveTxByKey Key key m = Ok (r, m') ∧ pool m' l' ∧ removed m m' l l'.
Proof.
  intros H. unfold RemoveTxByKey, bind at 1, gets at 1. cbn [outcome_bind id]. destruct (mp_txsMap m !! key) as [x|] eqn:Ek.
  - destruct (po_map _ _ H _ _ Ek) as (Hin & t & Et & _). apply list_elem_of_split in Hin as (l1 & l2 & ->). unfold bind at 1. rewrite (Value_run _ _ _ _ H Et). cbn [outcome_bind].
    destruct (removeTx_run m l1 x l2 t false H Et) as (m' & E & P' & T & M & C & _ & Q & _ & Ca & _ & K). unfold bind. rewrite E. cbn [outcome_bind]. exists None, m', (l1 ++ l2). split; [done|]. split; [done|].
    right. exists l1, x, l2, t. by split_and!.
  - exists (Some ErrTxNotFound), m, l. split; [done|]. split; [done|]. by left.
Qed.
Lemma RemoveTxByKey_inv m l key : inv m l → mp_cursor m = None → ∃ r m' l', RemoveTxByKey Key key m = Ok (r, m') ∧ inv m' l' ∧ removed m m' l l'.
Proof.
  intros [H (firsts & Hf & Hq)] Hc. rewrite Hc in Hq. destruct (RemoveTxByKey_run m l key H) as (r & m' & l' & E & P & R). exists r, m', l'. split; [done|]. split; [|done]. split; [done|]. exists firsts.
  destruct R as [[-> ->]|(l1 & x & l2 & t & _ & _ & _ & _ & _ & _ & Q & C & _)]; [by rewrite Hc|]. by rewrite C, Hc, Q.
Qed.

Lemma flush_run l : ∀ fuel m, repr (mp_txs m) l → (length l ≤ fuel)%nat → ∃ c, flush_loop fuel (head l) m = Ok (tt, set_txs c m) ∧ repr c [] ∧ keeps (mp_txs m) c.
Proof.
  induction l as [|x l IH]; intros fuel m R Hf; cbn [head].
  - exists (mp_txs m). rewrite set_txs_same. by destruct fuel.
  - destruct fuel as [|fuel]; [cbn in Hf; lia|]. destruct (repr_in _ _ x R) as [e Ex]; [set_solver|]. destruct (Remove_repr _ [] x l e R Ex) as (c1 & E1 & R1 & K1 & X1 & N & _). cbn [app] in R1.
    pose proof (rp_nodup _ _ R) as [Hx _]%NoDup_cons. destruct (DetachPrev_repr c1 l x (mark e) R1 X1) as (c2 & E2 & R2 & K2 & _ & X2); [done|done|].
    cbn [flush_loop]. unfold bind. rewrite (on_txs_run (Remove x) m _ _ E1). cbn [outcome_bind]. rewrite (on_txs_run (DetachPrev x) (set_txs c1 m) tt c2 E2). cbn [outcome_bind].
    rewrite (on_txs_run (Next x) _ (head l) c2); [|unfold Next, get, bind, gets, outcome_bind, id; cbn; rewrite X2; cbn; by rewrite N]. cbn [outcome_bind].
    destruct (IH fuel (set_txs c2 (set_txs c2 (set_txs c1 m)))) as (c & E & R' & K); [done|cbn in Hf; lia|]. exists c. rewrite E. split; [done|]. split; [done|]. etrans; [exact K1|]. etrans; [exact K2|exact K].
Qed.
Lemma Flush_run m l : pool m l → ∃ m', Flush m = Ok (tt, m') ∧ pool m' [] ∧ mp_queue m' = mp_queue m ∧ mp_cursor m' = mp_cursor m ∧ mp_cache m' = lru_Reset <$> mp_cache m.
Proof.
  intros H. unfold Flush. unfold bind at 1 2, modify at 1 2. cbn [outcome_bind]. set (m0 := set_cache _ _). unfold list_fuel, bind at 1 2, gets at 1. cbn [outcome_bind ret id].
  pose proof (po_repr _ _ H) as R. unfold bind at 1. rewrite (on_txs_run Front m0 (head l) (mp_txs m)) by (unfold Front, gets; cbn; by rewrite (rp_head _ _ R)). cbn [outcome_bind].
  destruct (flush_run l (size (cl_heap (mp_txs m0))) (set_txs (mp_txs m) m0) R (fuel_enough m l H)) as (c & E & R' & [K _]). unfold bind. rewrite E. cbn [outcome_bind].
  eexists. split; [done|]. split; [|done]. split; cbn; [done|rewrite K; apply H|apply H|done|lia|lia|intros k x Hk; by rewrite lookup_empty in Hk|by apply Forall_nil].
Qed.
Lemma Flush_inv m l : inv m l → mp_cursor m = None → ∃ m', Flush m = Ok (tt, m') ∧ inv m' [] ∧ mp_queue m' = mp_queue m ∧ mp_cache m' = lru_Reset <$> mp_cache m.
Proof.
  intros [H (firsts & Hf & Hq)] Hc. rewrite Hc in Hq. destruct (Flush_run m l H) as (m' & E & P & Q & C & Ca). exists m'. split; [done|]. split; [|done]. split; [done|]. exists firsts. by rewrite C, Hc, Q.
Qed.

Lemma ReapMaxTxs_run m l max : pool m l →
  ReapMaxTxs max m = Ok (take (Z.to_nat ((if decide (max < 0) then Z.of_nat (length l) else max) + 1)) (raw (txs_in (mp_txs m) l)), m).
Proof.
  intros H. unfold ReapMaxTxs. unfold bind at 1. rewrite (Size_run m l H), set_txs_same. cbn [outcome_bind]. unfold list_fuel, bind at 1 2, gets at 1. cbn [outcome_bind ret id].
  unfold bind at 1. rewrite (on_txs_run Front m (head l) (mp_txs m)) by (unfold Front, gets; by rewrite (rp_head _ _ (po_repr _ _ H))). cbn [outcome_bind]. rewrite set_txs_same.
  rewrite (reap_run m l _ []); [|done|exact (fuel_enough m l H)]. cbn [length app]. by rewrite Nat.sub_0_r.
Qed.

Lemma queue_cursor m l : inv m l → mp_queue m = [] → mp_cursor m = None.
Proof.
  intros [H (firsts & _ & Hq)] E. destruct (mp_cursor m) as [e|]; [|done]. destruct Hq as (l1 & l2 & -> & _ & Hq). exfalso. rewrite E in Hq.
  destruct (repr_elem _ _ e (po_repr _ _ H)) as [t Et]; [set_solver|]. by rewrite (txs_in_cons _ e l2 t Et) in Hq.
Qed.

(** No two of the transactions have the same key. *)
Context (Hkey : ∀ a b, U a → U b → Key a = Key b → a = b).

Lemma map_entry m l tx x : pool m l → U tx → mp_txsMap m !! Key tx = Some x → ∃ l1 l2 t, l = l1 ++ x :: l2 ∧ elem_tx (mp_txs m) x = Some t ∧ mt_tx t = tx.
Proof.
  intros H Hu Hx. destruct (po_map _ _ H _ _ Hx) as (Hin & t & Et & Ek). apply list_elem_of_split in Hin as (l1 & l2 & ->). exists l1, l2, t. split; [done|]. split; [done|].
  apply Hkey; [|done|done]. pose proof (po_known _ _ H) as Hk. rewrite txs_in_app, (txs_in_cons _ x l2 t Et) in Hk. apply Forall_app in Hk as [_ Hk]. by apply Forall_cons in Hk as [? _].
Qed.

Lemma update_txs_inv txs : ∀ codes m l, pool m l → Forall U txs → (length txs ≤ length codes)%nat →
  ∃ m' l', update_txs Key txs codes m = Ok (tt, m') ∧ pool m' l' ∧ same_rest m m'.
Proof.
  induction txs as [|tx txs IH]; intros codes m l H Hu Hl; [exists m, l; by split_and!|]. apply Forall_cons in Hu as [Hx Hu]. destruct codes as [|code codes]; [cbn in Hl; lia|].
  cbn [update_txs]. unfold bind at 1, gets at 1. cbn [outcome_bind]. destruct (cache_step_run m l tx code H) as (m1 & E1 & S1 & Q1 & _). unfold bind at 1. rewrite E1. cbn [outcome_bind].
  pose proof (same_pool_pool _ _ _ S1 H) as H1. unfold bind at 1, gets at 1. cbn [outcome_bind id]. destruct S1 as [_ S2 _ _ S5 S6].
  destruct (mp_txsMap m1 !! Key tx) as [x|] eqn:Em.
  - destruct (map_entry m1 l tx x H1 Hx Em) as (l1 & l2 & t & -> & Et & <-). destruct (removeTx_run m1 l1 x l2 t false H1 Et) as (m2 & E2 & P2 & _ & _ & C2 & N2 & Q2 & G2 & _).
    unfold bind at 1. rewrite E2. cbn [outcome_bind]. destruct (IH codes m2 (l1 ++ l2) P2 Hu) as (m' & l' & E & P' & [G C N Q]); [cbn in Hl; lia|]. exists m', l'. split; [done|]. split; [done|]. split; congruence.
  - unfold bind at 1. cbn [ret outcome_bind]. destruct (IH codes m1 l H1 Hu) as (m' & l' & E & P' & [G C N Q]); [cbn in Hl; lia|]. exists m', l'. split; [done|]. split; [done|]. split; congruence.
Qed.

Lemma Update_inv m l height txs codes pre post : inv m l → mp_queue m = [] → mp_cursor m = None → Forall U txs → (length txs ≤ length codes)%nat →
  ∃ m' l', Update Key height txs codes pre post m = Ok (tt, m') ∧ inv m' l'.
Proof.
  intros [H _] Hq Hc Hu Hl. destruct (Update_prefix height txs codes pre post m) as (m2 & -> & S2 & Q2 & _).
  destruct (update_txs_inv txs codes m2 l (same_pool_pool _ _ _ S2 H) Hu Hl) as (m3 & l3 & E3 & P3 & [G3 C3 N3 Q3]). destruct S2 as [_ _ _ _ S5 _]. unfold bind. rewrite E3. cbn [outcome_bind].
  destruct (update_tail_run m3 l3 P3) as (m' & E & I & _); [congruence..|]. by exists m', l3.
Qed.

(** ** Runs *)
Inductive mempool_op :=
| OpCheckTx (appError : bool) (tx : bytes) (senderID : Z) | OpResponse (code gas : Z) | OpRemoveTxByKey (key : bytes) | OpFlush | OpReapMaxTxs (max : Z)
| OpUpdate (height : Z) (txs : list bytes) (codes : list Z) (pre : option PreCheckFunc) (post : option PostCheckFunc) | OpEnable.
Definition void {A} (k : M Mempool A) : M Mempool unit := k ;;; ret tt.
Definition run_mempool_op (op : mempool_op) : M Mempool unit :=
  match op with
  | OpCheckTx appError tx senderID => void (CheckTx Key appError tx senderID)
  | OpResponse code gas => app_response Key (Some (code, gas))
  | OpRemoveTxByKey key => void (RemoveTxByKey Key key)
  | OpFlush => Flush
  | OpReapMaxTxs max => void (ReapMaxTxs max)
  | OpUpdate height txs codes pre post => Update Key height txs codes pre post
  | OpEnable => EnableTxsAvailable
  end.

(** What the callers of the mempool keep to: a block comes after the connection was flushed, and has a result per transaction. *)
Definition may_call (m : Mempool) (op : mempool_op) : Prop :=
  match op with
  | OpCheckTx _ tx _ => small tx ∧ U tx
  | OpUpdate _ txs codes _ _ => mp_queue m = [] ∧ Forall U txs ∧ (length txs ≤ length codes)%nat
  | _ => True
  end.
(** What they do not keep to, but the mempool needs: transactions are removed by key and all at once only while none is checked again. *)
Definition may_run (m : Mempool) (op : mempool_op) : Prop :=
  match op with
  | OpCheckTx _ tx _ => small tx ∧ U tx
  | OpRemoveTxByKey _ | OpFlush => mp_cursor m = None
  | OpUpdate _ txs codes _ _ => mp_queue m = [] ∧ Forall U txs ∧ (length txs ≤ length codes)%nat
  | _ => True
  end.

Lemma op_inv m l op : inv m l → may_run m op → ∃ m' l', run_mempool_op op m = Ok (tt, m') ∧ inv m' l'.
Proof.
  intros I Hm. destruct op as [err tx s|code gas|key| |max|h txs codes pre post|]; cbn [run_mempool_op may_run] in *; unfold void.
  - destruct Hm as [Hs Hu]. destruct (CheckTx_inv m l err tx s I Hs Hu) as (r & m' & E & I'). exists m', l. unfold bind. by rewrite E.
  - destruct (app_response_run m l code gas I) as (m' & l' & E & I' & _). by exists m', l'.
  - destruct (RemoveTxByKey_inv m l key I Hm) as (r & m' & l' & E & I' & _). exists m', l'. unfold bind. by rewrite E.
  - destruct (Flush_inv m l I Hm) as (m' & E & I' & _). by exists m', [].
  - exists m, l. unfold bind. by rewrite (ReapMaxTxs_run m l max (in_pool _ _ I)).
  - destruct Hm as (Hq & Hu & Hl). apply Update_inv with l; [done|done|by eapply queue_cursor|done|done].
  - eexists _, l. split; [done|]. destruct I as [H (firsts & Hf & Hq)]. split; [by apply (pool_ext m)|]. by exists firsts.
Qed.

Lemma op_returns m l op : inv m l → may_call m op → ∃ m', run_mempool_op op m = Ok (tt, m').
Proof.
  intros I Hm. assert (may_run m op → ∃ m', run_mempool_op op m = Ok (tt, m')) as Hr by (intros Hr; destruct (op_inv m l op I Hr) as (m' & _ & E & _); by exists m').
  destruct op as [err tx s|code gas|key| |max|h txs codes pre post|]; try (by apply Hr); cbn [run_mempool_op]; unfold void.
  - destruct (RemoveTxByKey_run m l key (in_pool _ _ I)) as (r & m' & _ & E & _). exists m'. unfold bind. by rewrite E.
  - destruct (Flush_run m l (in_pool _ _ I)) as (m' & E & _). by exists m'.
Qed.

Inductive mempool_run (m0 : Mempool) : Mempool → Prop :=
| mr_start : mempool_run m0 m0
| mr_step m op m' : mempool_run m0 m → may_run m op → run_mempool_op op m = Ok (tt, m') → mempool_run m0 m'.

Context (CPS : list bytes → Z).
Lemma new_inv rand fuel cfg h pre post m : NewCListMempool CPS rand fuel cfg h pre post = Ok m → mc_Size cfg ≤ MaxLength → mc_MaxTxsBytes cfg < 2 ^ 62 → inv m [].
Proof.
  unfold NewCListMempool. destruct (generate CPS rand fuel 0 []) as [ts| |]; [|done..]. cbn [outcome_bind]. intros [= <-] H1 H2. split; [|by exists []]. split; cbn; [apply newWithMax_repr|done|done|done|lia|lia|intros k x Hk; by rewrite lookup_empty in Hk|by apply Forall_nil].
Qed.
Lemma run_inv m0 m : (∃ l, inv m0 l) → mempool_run m0 m → ∃ l, inv m l.
Proof.
  intros H0. induction 1 as [|m op m' _ [l I] Hm E]; [done|]. destruct (op_inv m l op I Hm) as (m1 & l1 & E1 & I1). rewrite E in E1. injection E1 as <-. by exists l1.
Qed.

(** C13: The mempool, in every run from a new one of transactions of peers and clients, answers of the application in the order of the
    questions, blocks once the connection was flushed, and removals by key and flushes while nothing is checked again (a flush
    during a second check makes a later answer panic: [flush_while_rechecking]): the next operation, be it a removal or a flush during a second
    check, neither panics nor hangs; the number of transactions and of bytes stays within
    the configured limits, the bytes are counted exactly, and the index points to transactions of the list. *)
Theorem mempool_invariant rand fuel cfg h pre post m0 m op :
  NewCListMempool CPS rand fuel cfg h pre post = Ok m0 → mc_Size cfg ≤ MaxLength → mc_MaxTxsBytes cfg < 2 ^ 62 → mempool_run m0 m → may_call m op →
  (∃ m', run_mempool_op op m = Ok (tt, m')) ∧
  ∃ l, repr (mp_txs m) l ∧ Z.of_nat (length l) ≤ Z.max 0 (mc_Size (mp_config m)) ∧ mp_txsBytes m = total (txs_in (mp_txs m) l) ∧ mp_txsBytes m ≤ Z.max 0 (mc_MaxTxsBytes (mp_config m)) ∧
    ∀ k x, mp_txsMap m !! k = Some x → x ∈ l ∧ ∃ t, elem_tx (mp_txs m) x = Some t ∧ Key (mt_tx t) = k.
Proof.
  intros E H1 H2 Hr Hm. destruct (run_inv m0 m) as [l I]; [exists []; by eapply new_inv|done|]. split; [by apply (op_returns m l)|].
  exists l. destruct I as [[] _]. done.
Qed.
End facts.
