(* ===== verification/TmMempoolRuns.v ===== *)
(** What a block does to the mempool: as long as the cache does not forget a transaction that is waiting, every transaction is in the
    list once and a block takes out its transactions and no others.  Once the cache is full this fails. *)

From S2P Require Import Prelude TmBits TmValidators TmTypes TmCList TmMempool TmMempoolFacts.

Definition firsts (q : list app_request) : list bytes := omap (λ r, match r with ReqFirst tx _ => Some tx | ReqRecheck _ => None end) q.
Lemma firsts_app a b : firsts (a ++ b) = firsts a ++ firsts b.
Proof. apply omap_app. Qed.
Lemma firsts_rechecks l : firsts (ReqRecheck <$> l) = [].
Proof. induction l; [done|]. by cbn. Qed.

Lemma elem_raw c l tx : tx ∈ raw (txs_in c l) ↔ ∃ x t, x ∈ l ∧ elem_tx c x = Some t ∧ mt_tx t = tx.
Proof.
  unfold raw, txs_in. rewrite list_elem_of_fmap. split.
  - intros (t & -> & (x & Hx & Et)%list_elem_of_omap). by exists x, t.
  - intros (x & t & Hx & Et & <-). exists t. split; [done|]. apply list_elem_of_omap. by exists x.
Qed.

Section runs.
Context (Key : bytes → bytes) (U : bytes → Prop) (Hkey : ∀ a b, U a → U b → Key a = Key b → a = b).
Local Abbreviation pool := (pool Key U).
Local Abbreviation inv := (inv Key U).

Lemma pool_U m l tx : pool m l → tx ∈ raw (txs_in (mp_txs m) l) → U tx.
Proof. intros H (t & -> & Ht)%list_elem_of_fmap. exact (proj1 (Forall_forall _ _) (po_known _ _ _ _ H) t Ht). Qed.
Lemma inv_firsts_U m l tx : inv m l → tx ∈ firsts (mp_queue m) → U tx.
Proof.
  intros [_ (fs & Hf & Hq)]. assert (mp_queue m = fs ∨ ∃ l, mp_queue m = (ReqRecheck <$> l) ++ fs) as Hq'.
  { destruct (mp_cursor m); [|by left]. destruct Hq as (l1 & l2 & _ & _ & Hq). right. by eexists. }
  assert (firsts (mp_queue m) = firsts fs) as ->. { destruct Hq' as [->|[k ->]]; [done|]. by rewrite firsts_app, firsts_rechecks. }
  intros (r & Hr & E)%list_elem_of_omap. pose proof (proj1 (Forall_forall _ _) Hf r Hr) as Ho. destruct r; [|done]. injection E as <-. apply Ho.
Qed.

(** ** Every transaction once, and known to the cache *)
Definition covers (m : Mempool) (l : list nat) (c : LRUTxCache) : Prop :=
  ∀ tx, tx ∈ raw (txs_in (mp_txs m) l) ∨ tx ∈ firsts (mp_queue m) → Key tx ∈ lru_map c.
Record uniq (m : Mempool) (l : list nat) : Prop := {
  un_map : ∀ x t, x ∈ l → elem_tx (mp_txs m) x = Some t → mp_txsMap m !! Key (mt_tx t) = Some x;
  un_cache : ∃ c, mp_cache m = Some c ∧ covers m l c;
  un_firsts : NoDup (firsts (mp_queue m));
  un_disjoint : ∀ tx, tx ∈ firsts (mp_queue m) → tx ∉ raw (txs_in (mp_txs m) l);
}.

Lemma uniq_same m l x y t t' : uniq m l → x ∈ l → y ∈ l → elem_tx (mp_txs m) x = Some t → elem_tx (mp_txs m) y = Some t' → Key (mt_tx t) = Key (mt_tx t') → x = y.
Proof. intros H Hx Hy Et Et' Ek. pose proof (un_map _ _ H x t Hx Et) as E1. rewrite Ek, (un_map _ _ H y t' Hy Et') in E1. by injection E1. Qed.
Lemma uniq_nodup m l : pool m l → uniq m l → NoDup (raw (txs_in (mp_txs m) l)).
Proof.
  intros P H. pose proof (rp_nodup _ _ (po_repr _ _ _ _ P)) as Hn. assert (∀ k, NoDup k → (∀ x, x ∈ k → x ∈ l) → NoDup (raw (txs_in (mp_txs m) k))) as G; [|by apply G].
  induction k as [|x k IH]; intros Hk Hin; [apply NoDup_nil_2|]. apply NoDup_cons in Hk as [Hx Hk]. destruct (repr_elem _ _ x (po_repr _ _ _ _ P)) as [t Et]; [apply Hin; set_solver|].
  rewrite (txs_in_cons _ x k t Et). cbn. apply NoDup_cons. split; [|apply IH; [done|set_solver]]. intros (y & t' & Hy & Et' & E)%elem_raw.
  assert (y = x) as -> by (apply (uniq_same m l y x t' t H); [apply Hin; set_solver|apply Hin; set_solver|done|done|by rewrite E]). done.
Qed.

(** What an operation may do to the cache when [key] leaves. *)
Definition forgets_only (key : bytes) (c c' : option LRUTxCache) : Prop :=
  ∃ a a', c = Some a ∧ c' = Some a' ∧ ∀ k, k ∈ lru_map a → k ≠ key → k ∈ lru_map a'.
Lemma forgets_same key a c' : (c' = Some a ∨ c' = lru_Remove key <$> Some a) → forgets_only key (Some a) c'.
Proof. intros [->|E]; [by exists a, a|]. exists a, (lru_Remove key a). split; [done|]. split; [done|]. intros k Hk Hne. cbn. set_solver. Qed.

Lemma uniq_remove m m' l1 x l2 t : pool m (l1 ++ x :: l2) → (∀ tx, tx ∈ firsts (mp_queue m) → U tx) → uniq m (l1 ++ x :: l2) → elem_tx (mp_txs m) x = Some t →
  txs_in (mp_txs m') (l1 ++ l2) = txs_in (mp_txs m) (l1 ++ l2) → keeps (mp_txs m) (mp_txs m') → mp_txsMap m' = delete (Key (mt_tx t)) (mp_txsMap m) →
  forgets_only (Key (mt_tx t)) (mp_cache m) (mp_cache m') → firsts (mp_queue m') = firsts (mp_queue m) → uniq m' (l1 ++ l2).
Proof.
  intros P HU H Et Ht K Hm (a & a' & Ea & Ea' & Hc) Hq. pose proof (rp_nodup _ _ (po_repr _ _ _ _ P)) as Hn.
  assert (Hx : x ∉ l1 ++ l2). { apply NoDup_app in Hn as (_ & Nd & [Nx _]%NoDup_cons). intros [Hi|Hi]%elem_of_app; [|done]. apply (Nd x Hi). set_solver. }
  assert (Hsub : ∀ tx, tx ∈ raw (txs_in (mp_txs m) (l1 ++ l2)) → tx ∈ raw (txs_in (mp_txs m) (l1 ++ x :: l2)) ∧ Key tx ≠ Key (mt_tx t)).
  { intros tx (y & ty & Hy & Ey & <-)%elem_raw. split; [apply elem_raw; exists y, ty; split_and!; try done; set_solver|]. intros Ek. assert (y = x) as ->; [|done].
    apply (uniq_same m _ y x ty t H); try done; set_solver. }
  split; rewrite ?Hq.
  - intros y ty Hy Ey. rewrite (elem_tx_keeps _ _ _ K) in Ey by (apply (repr_is_Some _ _ _ (po_repr _ _ _ _ P)); set_solver). rewrite Hm, lookup_delete_ne.
    + apply (un_map _ _ H); [set_solver|done].
    + intros Ek. assert (y = x) as -> by (apply (uniq_same m _ y x ty t H); try done; set_solver). done.
  - exists a'. split; [done|]. destruct (un_cache _ _ H) as (c & Ec & Cov). rewrite Ea in Ec. injection Ec as <-. intros tx [Htx|Htx].
    + rewrite Ht in Htx. destruct (Hsub tx Htx) as [Hin Hne]. apply Hc; [|done]. apply Cov. by left.
    + rewrite Hq in Htx. apply Hc; [apply Cov; by right|]. intros Ek. apply (un_disjoint _ _ H tx Htx). assert (tx = mt_tx t) as ->.
      { apply Hkey; [by apply HU| |done]. apply (pool_U m _ _ P), elem_raw. exists x, t. split_and!; try done. set_solver. }
      apply elem_raw. exists x, t. split_and!; try done. set_solver.
  - apply H.
  - intros tx Htx Hin. rewrite Ht in Hin. apply Hsub in Hin as [Hin _]. by apply (un_disjoint _ _ H tx Htx).
Qed.

(** ** The operations keep it *)
Definition has_room (m : Mempool) (n : nat) : Prop := match mp_cache m with Some c => Z.of_nat (length (lru_list c)) + Z.of_nat n ≤ lru_size c | None => False end.

Lemma lru_Push_room key c : key ∉ lru_map c → Z.of_nat (length (lru_list c)) < lru_size c → lru_Push key c = (true, mkLRU (lru_size c) ({[key]} ∪ lru_map c) (lru_list c ++ [key])).
Proof. intros Hk Hr. unfold lru_Push. rewrite decide_False by done. by rewrite decide_False by lia. Qed.

Lemma uniq_CheckTx m l err tx sender r m' : inv m l → uniq m l → small tx → has_room m 1 → CheckTx Key err tx sender m = Ok (r, m') → uniq m' l.
Proof.
  intros I H Hs Hr E. destruct (CheckTx_run Key U m l err tx sender (in_pool _ _ _ _ I) Hs) as (r' & m1 & E1 & [S1 _ _ S4 _ _] & Hc). rewrite E in E1. injection E1 as <- <-.
  destruct (un_cache _ _ H) as (c & Ec & Cov). destruct r as [e|].
  - destruct Hc as [Hq Hc]. rewrite Ec in Hc. destruct (mp_cache m') as [c'|] eqn:Ec'; [|done]. injection Hc as Hc. destruct H as [H1 _ H3 H4]. split; rewrite ?S1, ?S4, ?Hq; try done.
    exists c'. split; [done|]. unfold covers in *. rewrite S1, Hq, Hc. done.
  - destruct Hc as [Hq Hc]. unfold pushed in Hc. rewrite Ec in Hc. destruct Hc as [Hk Hc]. unfold has_room in Hr. rewrite Ec in Hr. rewrite lru_Push_room in Hc by (done || lia). cbn in Hc.
    assert (Hnew : tx ∉ raw (txs_in (mp_txs m) l) ∧ tx ∉ firsts (mp_queue m)) by (split; intros Hin; apply Hk, Cov; auto). destruct Hnew as [Hn1 Hn2].
    assert (Hf : firsts (mp_queue m') = firsts (mp_queue m) ++ [tx]) by (rewrite Hq, firsts_app; done). destruct H as [H1 _ H3 H4]. split; rewrite ?S1, ?S4, ?Hf; try done.
    + eexists. split; [done|]. unfold covers in *. rewrite S1, Hf. cbn. intros tx' [Ht|[Ht| ->%list_elem_of_singleton]%elem_of_app]; [apply elem_of_union_r, Cov; by left|apply elem_of_union_r, Cov; by right|set_solver].
    + apply NoDup_app. split_and!; [done|intros tx' Ht ->%list_elem_of_singleton; done|apply NoDup_singleton].
    + intros tx' [Ht| ->%list_elem_of_singleton]%elem_of_app; [by apply H4|done].
Qed.

Lemma uniq_first m m' l l' tx peer : inv m l → uniq m l → mp_queue m = ReqFirst tx peer :: mp_queue m' → U tx → first_result Key m m' l l' tx → uniq m' l'.
Proof.
  intros I H Hq Hu Hr. destruct (un_cache _ _ H) as (c & Ec & Cov). assert (Hf : firsts (mp_queue m) = tx :: firsts (mp_queue m')) by by rewrite Hq.
  pose proof (un_firsts _ _ H) as Hn. rewrite Hf in Hn. apply NoDup_cons in Hn as [Hn1 Hn2]. pose proof (un_disjoint _ _ H) as Hd. rewrite Hf in Hd.
  assert (Htx : tx ∉ raw (txs_in (mp_txs m) l)) by (apply Hd; set_solver). pose proof (in_pool _ _ _ _ I) as P.
  destruct Hr as [(-> & Ht & Hm & Hc)|(e & t & -> & <- & Ht & Ee & Hm & Hc & He & K)].
  - assert (forgets_only (Key tx) (mp_cache m) (mp_cache m')) as (a & a' & Ea & Ea' & Hk) by (rewrite Ec in Hc |- *; by apply forgets_same). rewrite Ec in Ea. injection Ea as <-.
    split; rewrite ?Ht, ?Hm; try done; [apply H| |intros tx' Htx'; apply Hd; set_solver].
    exists a'. split; [done|]. unfold covers in *. rewrite Ht. intros tx' Htx'. apply Hk; [apply Cov; rewrite Hf; set_solver|]. intros Ek.
    assert (tx' = tx) as ->; [|set_solver]. apply Hkey; [|done|done]. destruct Htx' as [Hi|Hi]; [by eapply pool_U|]. apply (inv_firsts_U m l); [done|]. rewrite Hf. set_solver.
  - assert (Hraw : ∀ tx', tx' ∈ raw (txs_in (mp_txs m') (l ++ [e])) → tx' ∈ raw (txs_in (mp_txs m) l) ∨ tx' = mt_tx t). { intros tx'. rewrite Ht. unfold raw. rewrite fmap_app. cbn. set_solver. }
    split.
    + intros x tx' [Hx| ->%list_elem_of_singleton]%elem_of_app Ex; rewrite Hm; [|rewrite Ee in Ex; injection Ex as <-; apply lookup_insert_eq].
      rewrite (elem_tx_keeps _ _ _ K) in Ex by (by apply (repr_is_Some _ _ _ (po_repr _ _ _ _ P))). rewrite lookup_insert_ne; [by apply (un_map _ _ H)|]. intros Ek. apply Htx.
      apply elem_raw. exists x, tx'. split_and!; try done. apply Hkey; [|done|done]. apply (pool_U m l _ P), elem_raw. by exists x, tx'.
    + exists c. split; [congruence|]. unfold covers in *. intros tx' [Hi|Hi]; [|apply Cov; rewrite Hf; set_solver]. destruct (Hraw tx' Hi) as [?| ->]; apply Cov; rewrite ?Hf; set_solver.
    + done.
    + intros tx' Hi Hi'. destruct (Hraw tx' Hi') as [?| ->]; [|done]. by apply (Hd tx'); [set_solver|].
Qed.

Lemma uniq_response m m' l l' : inv m l → uniq m l → response_case Key U m m' l l' → uniq m' l'.
Proof.
  intros I H [[-> ->]|[(tx & peer & Hq & Hu & Hr)|(l1 & e & l2 & t & -> & Et & Hq & _ & Hr)]]; [done|by eapply uniq_first|].
  destruct Hr as [(-> & Ht & Hm & Hc)|(-> & Ht & Hm & K & Hc)].
  - assert (Hf : firsts (mp_queue m') = firsts (mp_queue m)) by by rewrite Hq. destruct H as [H1 (c & Ec & Cov) H3 H4]. split; rewrite ?Ht, ?Hm, ?Hf; try done.
    exists c. split; [congruence|]. unfold covers in *. by rewrite Ht, Hf.
  - pose proof (un_cache _ _ H) as (c & Ec & _). eapply uniq_remove; [apply I|intros tx; by apply (inv_firsts_U m (l1 ++ e :: l2))|done..| |by rewrite Hq].
    rewrite Ec in Hc |- *. apply forgets_same. rewrite Hc. destruct (mc_KeepInvalid _); auto.
Qed.

(** ** A block *)
Lemma cache_step_room m m' tx n : has_room m (S n) →
  mp_cache m' = (λ c, (lru_Push (Key tx) c).2) <$> mp_cache m ∨ mp_cache m' = mp_cache m ∨ mp_cache m' = lru_Remove (Key tx) <$> mp_cache m →
  forgets_only (Key tx) (mp_cache m) (mp_cache m') ∧ has_room m' n.
Proof.
  unfold has_room. destruct (mp_cache m) as [c|]; [|done]. intros Hr Hc.
  assert (Hdel : ∀ l, (length (lru_del (Key tx) l) ≤ length l)%nat) by (intros l; apply length_filter). specialize (Hdel (lru_list c)). destruct Hc as [Hc|[Hc|Hc]]; rewrite Hc; cbn.
  - unfold lru_Push. case_decide as Hk; [|rewrite decide_False by lia]; cbn; rewrite length_app; cbn; (split; [|lia]); (eexists c, _; split; [done|]; split; [done|]); cbn; set_solver.
  - split; [|lia]. by apply forgets_same; left.
  - split; [by apply forgets_same; right|]. case_decide; lia.
Qed.

Lemma filter_step (P Q : bytes → Prop) `{!∀ x, Decision (P x), !∀ x, Decision (Q x)} (l : list bytes) : filter P (filter Q l) = filter (λ x, P x ∧ Q x) l.
Proof. apply list_filter_filter. Qed.

Lemma raw_remove m l1 x l2 t : pool m (l1 ++ x :: l2) → uniq m (l1 ++ x :: l2) → elem_tx (mp_txs m) x = Some t →
  raw (txs_in (mp_txs m) (l1 ++ l2)) = filter (λ tx, tx ≠ mt_tx t) (raw (txs_in (mp_txs m) (l1 ++ x :: l2))).
Proof.
  intros P H Et. pose proof (uniq_nodup m _ P H) as Hn. rewrite !txs_in_app, (txs_in_cons _ x l2 t Et) in *. unfold raw in *. rewrite !fmap_app in *. cbn [fmap list_fmap] in *.
  apply NoDup_app in Hn as (_ & N1 & [N2 _]%NoDup_cons). rewrite filter_app, filter_cons, decide_False by (intros []; done).
  f_equal; symmetry; apply list_filter_all; intros y Hy E; rewrite E in Hy; [apply (N1 _ Hy); set_solver|done].
Qed.
Lemma raw_absent m l tx : pool m l → uniq m l → mp_txsMap m !! Key tx = None → raw (txs_in (mp_txs m) l) = filter (λ y, y ≠ tx) (raw (txs_in (mp_txs m) l)).
Proof.
  intros P H Hm. symmetry. apply list_filter_all. intros y (x & t & Hx & Et & <-)%elem_raw E. by rewrite <-E, (un_map _ _ H x t Hx Et) in Hm.
Qed.

Lemma update_txs_uniq txs : ∀ codes m l, pool m l → mp_queue m = [] → uniq m l → Forall U txs → (length txs ≤ length codes)%nat → has_room m (length txs) →
  ∃ m' l', update_txs Key txs codes m = Ok (tt, m') ∧ pool m' l' ∧ same_rest m m' ∧ uniq m' l' ∧ raw (txs_in (mp_txs m') l') = filter (λ tx, tx ∉ txs) (raw (txs_in (mp_txs m) l)).
Proof.
  induction txs as [|tx txs IH]; intros codes m l H Hq Hun Hu Hl Hr.
  { exists m, l. split; [done|]. split; [done|]. split; [done|]. split; [done|]. symmetry. apply list_filter_all. intros y _ []%elem_of_nil. }
  apply Forall_cons in Hu as [Hx Hu]. destruct codes as [|code codes]; [cbn in Hl; lia|]. cbn [length] in Hr.
  cbn [update_txs]. unfold bind at 1, gets at 1. cbn [outcome_bind]. destruct (cache_step_run Key U m l tx code H) as (m1 & E1 & S1 & Q1 & Hc). unfold bind at 1. rewrite E1. cbn [outcome_bind].
  destruct (cache_step_room m m1 tx (length txs) Hr Hc) as [Hfo Hr1]. pose proof (same_pool_pool Key U _ _ _ S1 H) as H1. unfold bind at 1, gets at 1. cbn [outcome_bind id].
  destruct S1 as [S1 S2 _ S4 S5 S6]. rewrite S4.
  assert (∃ m2 l2, (match mp_txsMap m !! Key tx with Some e => removeTx Key tx e false | None => ret tt end) m1 = Ok (tt, m2) ∧ pool m2 l2 ∧ same_rest m m2 ∧ uniq m2 l2 ∧ mp_cache m2 = mp_cache m1 ∧
    raw (txs_in (mp_txs m2) l2) = filter (λ y, y ≠ tx) (raw (txs_in (mp_txs m) l))) as (m2 & l2 & E2 & P2 & R2 & U2 & C2 & T2).
  { destruct (mp_txsMap m !! Key tx) as [x|] eqn:Em.
    - rewrite <-S4 in Em. destruct (map_entry Key U Hkey m1 l tx x H1 Hx Em) as (l1 & l2 & t & -> & Et & <-). destruct (removeTx_run Key U m1 l1 x l2 t false H1 Et) as (m2 & E2 & P2 & T2 & M2 & D2 & N2 & Q2 & G2 & C2 & _ & K2).
      rewrite S1 in T2, K2, Et. rewrite S4 in M2. exists m2, (l1 ++ l2). split; [done|]. split; [done|]. split; [split; congruence|]. split; [|split; [done|rewrite T2; by apply raw_remove]].
      eapply (uniq_remove m); [done| |done|done|done|done|done|by rewrite C2|by rewrite Q2, Q1]. intros y. rewrite Hq. by intros []%elem_of_nil.
    - exists m1, l. split; [done|]. split; [done|]. split; [by split|]. split; [|split; [done|rewrite S1; by apply raw_absent]]. destruct Hun as [V1 (c & Ec & Cov) V3 V4].
      split; rewrite ?S1, ?S4, ?Q1; try done. destruct Hfo as (a & a' & Ea & Ea' & Hk). exists a'. split; [done|]. rewrite Ec in Ea. injection Ea as <-. unfold covers in *. rewrite S1, Q1.
      intros y Hy. apply Hk; [by apply Cov|]. intros Ek. destruct Hy as [(z & t & Hz & Et & <-)%elem_raw|Hy]; [by rewrite <-Ek, (V1 z t Hz Et) in Em|]. rewrite Hq in Hy. by apply elem_of_nil in Hy. }
  unfold bind at 1. rewrite E2. cbn [outcome_bind]. destruct R2 as [G2 D2 N2 Q2]. destruct (IH codes m2 l2 P2) as (m' & l' & E & P' & [G D N Q] & U' & T'); [congruence|done|done|cbn in Hl; lia| |].
  { unfold has_room in *. by rewrite C2. }
  exists m', l'. split; [done|]. split; [done|]. split; [split; congruence|]. split; [done|]. rewrite T', T2, filter_step. apply list_filter_iff. intros y. rewrite not_elem_of_cons. tauto.
Qed.

Lemma uniq_Update m l height txs codes pre post : inv m l → uniq m l → mp_queue m = [] → Forall U txs → (length txs ≤ length codes)%nat → has_room m (length txs) →
  ∃ m' l', Update Key height txs codes pre post m = Ok (tt, m') ∧ inv m' l' ∧ uniq m' l' ∧ raw (txs_in (mp_txs m') l') = filter (λ tx, tx ∉ txs) (raw (txs_in (mp_txs m) l)).
Proof.
  intros I Hun Hq Hu Hl Hr. pose proof (queue_cursor Key U m l I Hq) as Hc. destruct I as [H _]. destruct (Update_prefix Key height txs codes pre post m) as (m2 & -> & S2 & Q2 & Ca2).
  pose proof (same_pool_pool Key U _ _ _ S2 H) as H2. destruct S2 as [S1 _ _ S4 S5 _].
  assert (uniq m2 l) as U2. { destruct Hun as [V1 (c & Ec & Cov) V3 V4]. split; rewrite ?S1, ?S4, ?Q2; try done. exists c. unfold covers in *. rewrite S1, Q2. split; [congruence|done]. }
  destruct (update_txs_uniq txs codes m2 l H2) as (m3 & l3 & E3 & P3 & [G3 C3 N3 Q3] & U3 & T3); [congruence|done|done|done|by unfold has_room; rewrite Ca2|].
  unfold bind. rewrite E3. cbn [outcome_bind]. destruct (update_tail_run Key U m3 l3 P3) as (m' & E & I & T & M & Ca & Q); [congruence..|]. exists m', l3. split; [done|]. split; [done|]. split.
  - assert (firsts (mp_queue m') = [] ∧ firsts (mp_queue m3) = []) as [F1 F2] by (rewrite Q3, Q2, Hq; split; [|done]; destruct Q as [->| ->]; [done|apply firsts_rechecks]).
    destruct U3 as [V1 (c & Ec & Cov) V3 V4]. split; rewrite ?T, ?M, ?F1; [done| |apply NoDup_nil_2|intros tx []%elem_of_nil].
    exists c. split; [congruence|]. unfold covers in *. rewrite F2 in Cov. by rewrite T, F1.
  - by rewrite T, T3, S1.
Qed.

Lemma uniq_removed m m' l l' : inv m l → uniq m l → removed Key m m' l l' → uniq m' l'.
Proof.
  intros I H [[-> ->]|(l1 & x & l2 & t & -> & -> & Et & T & M & C & Q & _ & K)]; [done|].
  pose proof (un_cache _ _ H) as (c & Ec & _). eapply uniq_remove; [apply I|intros tx; by apply (inv_firsts_U m (l1 ++ x :: l2))|done..| |by rewrite Q].
  rewrite C, Ec. apply forgets_same. by left.
Qed.
Lemma uniq_flushed m m' l : uniq m l → mp_queue m' = [] → mp_cache m' = lru_Reset <$> mp_cache m → uniq m' [].
Proof.
  intros H Hq Hc. destruct (un_cache _ _ H) as (c & Ec & _). split; rewrite ?Hq.
  - by intros x t []%elem_of_nil.
  - exists (lru_Reset c). split; [by rewrite Hc, Ec|]. unfold covers. rewrite Hq. by intros tx [[]%elem_of_nil|[]%elem_of_nil].
  - apply NoDup_nil_2.
  - by intros tx []%elem_of_nil.
Qed.

(** ** Runs in which the cache has room, and nothing is waiting for an answer when the mempool is flushed *)
Definition calm_op (m : Mempool) (op : mempool_op) : Prop :=
  match op with
  | OpCheckTx _ _ _ => has_room m 1
  | OpUpdate _ txs _ _ _ => has_room m (length txs)
  | OpFlush => mp_queue m = []
  | _ => True
  end.
Inductive calm_run (m0 : Mempool) : Mempool → Prop :=
| cr_start : calm_run m0 m0
| cr_step m op m' : calm_run m0 m → may_run U m op → calm_op m op → run_mempool_op Key op m = Ok (tt, m') → calm_run m0 m'.

Lemma calm_uniq m0 m : (∃ l, inv m0 l ∧ uniq m0 l) → calm_run m0 m → ∃ l, inv m l ∧ uniq m l.
Proof.
  intros H0. induction 1 as [|m op m' _ (l & I & Hun) Hm Hc E]; [done|]. destruct op as [err tx s|code gas|key| |max|h txs codes pre post|]; cbn [run_mempool_op may_run calm_op] in *; unfold void in *; try done.
  - destruct Hm as [Hs Hu]. destruct (CheckTx_inv Key U m l err tx s I Hs Hu) as (r & m1 & E1 & I1). unfold bind in E. rewrite E1 in E. injection E as <-. exists l. split; [done|]. exact (uniq_CheckTx m l err tx s r m1 I Hun Hs Hc E1).
  - destruct (app_response_run Key U m l code gas I) as (m1 & l1 & E1 & I1 & Hr). rewrite E in E1. injection E1 as <-. exists l1. split; [done|]. exact (uniq_response m m' l l1 I Hun Hr).
  - destruct (RemoveTxByKey_inv Key U m l key I Hm) as (r & m1 & l1 & E1 & I1 & R1). unfold bind in E. rewrite E1 in E. injection E as <-. exists l1. split; [done|]. exact (uniq_removed m m1 l l1 I Hun R1).
  - destruct (Flush_inv Key U m l I Hm) as (m1 & E1 & I1 & Q1 & C1). rewrite E in E1. injection E1 as <-. exists []. split; [done|]. apply (uniq_flushed m m' l Hun); congruence.
  - unfold bind in E. rewrite (ReapMaxTxs_run Key U m l max (in_pool _ _ _ _ I)) in E. injection E as <-. by exists l.
  - destruct Hm as (Hq & Hu & Hl). destruct (uniq_Update m l h txs codes pre post I Hun Hq Hu Hl Hc) as (m1 & l1 & E1 & I1 & U1 & _). rewrite E in E1. injection E1 as <-. by exists l1.
  - injection E as <-. exists l. destruct I as [H (fs & Hf & Hq)]. split; [split; [by apply (pool_ext Key U m)|by exists fs]|]. by destruct Hun.
Qed.
Context (CPS : list bytes → Z).
Lemma new_uniq rand fuel cfg h pre post m : NewCListMempool CPS rand fuel cfg h pre post = Ok m → 0 < mc_CacheSize cfg → uniq m [].
Proof.
  unfold NewCListMempool. destruct (generate CPS rand fuel 0 []) as [ts| |]; [|done..]. cbn [outcome_bind]. intros [= <-] Hc. split; cbn.
  - intros x t []%elem_of_nil.
  - rewrite decide_True by done. eexists. split; [done|]. intros tx [[]%elem_of_nil|[]%elem_of_nil].
  - apply NoDup_nil_2.
  - intros tx []%elem_of_nil.
Qed.

(** C31: While the cache has room, in a run from a new mempool with a cache in which the mempool is flushed only when no answer
    is outstanding and transactions are removed by key only while none is checked again, the list holds every
    transaction once, and a block takes exactly its transactions out of the list and leaves the others in their order.  (A flush with an answer
    outstanding lets a transaction in twice: [flush_doubles].) *)
Theorem block_clears_mempool rand fuel cfg h0 pre0 post0 m0 m h txs codes pre post :
  NewCListMempool CPS rand fuel cfg h0 pre0 post0 = Ok m0 → mc_Size cfg ≤ MaxLength → mc_MaxTxsBytes cfg < 2 ^ 62 → 0 < mc_CacheSize cfg → calm_run m0 m →
  mp_queue m = [] → Forall U txs → (length txs ≤ length codes)%nat → has_room m (length txs) →
  ∃ m' l l', Update Key h txs codes pre post m = Ok (tt, m') ∧ repr (mp_txs m) l ∧ repr (mp_txs m') l' ∧ NoDup (raw (txs_in (mp_txs m) l)) ∧
    raw (txs_in (mp_txs m') l') = filter (λ tx, tx ∉ txs) (raw (txs_in (mp_txs m) l)).
Proof.
  intros E H1 H2 H3 Hr Hq Hu Hl Hroom. destruct (calm_uniq m0 m) as (l & I & Hun); [exists []; split; [by eapply new_inv|by eapply new_uniq]|done|].
  destruct (uniq_Update m l h txs codes pre post I Hun Hq Hu Hl Hroom) as (m' & l' & E' & I' & _ & T). exists m', l, l'. split; [done|]. split; [apply I|]. split; [apply I'|]. split; [|done].
  apply uniq_nodup; [apply I|done].
Qed.
End runs.
