(* ===== verification/TmMempoolSample.v ===== *)
(** Runs of the mempool: one in which a block clears its transaction, one in which the cache is too small and the transaction stays, and one
    in which the mempool is flushed while transactions are checked again. *)

From S2P Require Import Prelude TmBits TmValidators TmTypes TmCList TmMempool TmMempoolFacts TmMempoolRuns.

Definition ms_size (l : list bytes) : Z := 500000 * Z.of_nat (length l).
Definition ms_config (recheck : bool) (cacheSize : Z) : MempoolConfig := mkMempoolConfig recheck 10 100 cacheSize false 50.
Definition ms_new (recheck : bool) (cacheSize : Z) : outcome Mempool := NewCListMempool ms_size (λ n, [Z.of_nat n]) 5 (ms_config recheck cacheSize) 1 None None.
Definition ms_a : bytes := [7; 7].
Definition ms_b : bytes := [8].

Fixpoint run_mempool_ops (ops : list mempool_op) (m : Mempool) : outcome Mempool :=
  match ops with [] => Ok m | op :: ops' => let! (_, m') := run_mempool_op id op m in run_mempool_ops ops' m' end.
Definition ms_run (recheck : bool) (cacheSize : Z) (ops : list mempool_op) : outcome Mempool := let! m := ms_new recheck cacheSize in run_mempool_ops ops m.
(** The transactions in the list. *)
Definition ms_content (o : outcome Mempool) : outcome (list bytes) := let! m := o in let! (l, _) := ReapMaxTxs (-1) m in Ok l.

Definition ms_block (tx : bytes) : mempool_op := OpUpdate 2 [tx] [CodeTypeOK] None None.
Definition ms_fill : list mempool_op := [OpCheckTx false ms_a 1; OpResponse CodeTypeOK 0; OpCheckTx false ms_b 1; OpResponse CodeTypeOK 0].

(** With a cache of one transaction, the same transaction is taken in twice; a block with it removes one of the two, and no later block
    removes the other, which the index no longer knows. *)
Theorem committed_tx_stays :
  ms_content (ms_run false 1 (ms_fill ++ [OpCheckTx false ms_a 1; OpResponse CodeTypeOK 0])) = Ok [ms_a; ms_b; ms_a] ∧
  ms_content (ms_run false 1 (ms_fill ++ [OpCheckTx false ms_a 1; OpResponse CodeTypeOK 0; ms_block ms_a])) = Ok [ms_a; ms_b] ∧
  ms_content (ms_run false 1 (ms_fill ++ [OpCheckTx false ms_a 1; OpResponse CodeTypeOK 0; ms_block ms_a; ms_block ms_a])) = Ok [ms_a; ms_b].
Proof. vm_compute. done. Qed.

(** One transaction more than was asked for. *)
Lemma reap_one_too_many : (let! m := ms_run false 9 ms_fill in let! (l, _) := ReapMaxTxs 1 m in Ok l) = Ok [ms_a; ms_b].
Proof. vm_compute. done. Qed.

(** An answer that comes after the mempool was flushed removes an element a second time. *)
Lemma flush_while_rechecking : ms_run true 9 (ms_fill ++ [OpUpdate 2 [] [] None None; OpFlush; OpResponse 1 0]) = Panic.
Proof. vm_compute. done. Qed.

(** A transaction that comes again after the mempool was flushed with its first answer outstanding is taken in twice, although the cache
    has room; a block with it removes one of the two. *)
Lemma flush_doubles (ops := [OpCheckTx false ms_a 1; OpFlush; OpCheckTx false ms_a 1; OpResponse CodeTypeOK 0; OpResponse CodeTypeOK 0]) :
  ms_content (ms_run true 9 ops) = Ok [ms_a; ms_a] ∧ ms_content (ms_run true 9 (ops ++ [ms_block ms_a])) = Ok [ms_a].
Proof. vm_compute. done. Qed.

(** ** Witnesses *)
Definition ms_start : Mempool := match ms_new true 9 with Ok m => m | _ => mkMempool (ms_config true 9) 0 0 false None None None (newWithMax 0) None None ∅ None ∅ [] [] end.
Definition ms_state (n : nat) : Mempool := match run_mempool_ops (take n ms_fill) ms_start with Ok m => m | _ => ms_start end.

Lemma ms_start_ok : NewCListMempool ms_size (λ n, [Z.of_nat n]) 5 (ms_config true 9) 1 None None = Ok ms_start.
Proof. vm_compute. reflexivity. Qed.
Lemma ms_may n op : ms_fill !! n = Some op → may_run (λ _, True) (ms_state n) op ∧ has_room (ms_state n) 1.
Proof.
  intros E. do 4 (destruct n as [|n]; [injection E as <-; (split; [done || (split; [vm_compute; reflexivity|done])|vm_compute; discriminate])|]). done.
Qed.
Lemma ms_step n op : ms_fill !! n = Some op → run_mempool_op id op (ms_state n) = Ok (tt, ms_state (S n)).
Proof. intros E. do 4 (destruct n as [|n]; [injection E as <-; vm_compute; reflexivity|]). done. Qed.

Lemma ms_calm : calm_run id (λ _, True) ms_start (ms_state 4).
Proof.
  assert (∀ n, (n ≤ 4)%nat → calm_run id (λ _, True) ms_start (ms_state n)) as H; [|by apply H].
  induction n as [|n IH]; intros Hn; [apply cr_start|]. destruct (lookup_lt_is_Some_2 ms_fill n) as [op E]; [cbn; lia|].
  destruct (ms_may n op E) as [Hm Hr]. apply (cr_step _ _ _ (ms_state n) op); [apply IH; lia|done| |by apply ms_step]. do 4 (destruct n as [|n]; [by injection E as <-|]). done.
Qed.
Lemma ms_runs : mempool_run id (λ _, True) ms_start (ms_state 4).
Proof.
  assert (∀ n, (n ≤ 4)%nat → mempool_run id (λ _, True) ms_start (ms_state n)) as H; [|by apply H].
  induction n as [|n IH]; intros Hn; [apply mr_start|]. destruct (lookup_lt_is_Some_2 ms_fill n) as [op E]; [cbn; lia|].
  destruct (ms_may n op E) as [Hm _]. apply (mr_step _ _ _ (ms_state n) op); [apply IH; lia|done|by apply ms_step].
Qed.

Lemma mempool_invariant_witness :
  (∃ m', run_mempool_op id (ms_block ms_a) (ms_state 4) = Ok (tt, m')) ∧
  ∃ l, repr (mp_txs (ms_state 4)) l ∧ Z.of_nat (length l) ≤ Z.max 0 (mc_Size (mp_config (ms_state 4))) ∧ mp_txsBytes (ms_state 4) = total (txs_in (mp_txs (ms_state 4)) l) ∧
    mp_txsBytes (ms_state 4) ≤ Z.max 0 (mc_MaxTxsBytes (mp_config (ms_state 4))) ∧
    ∀ k x, mp_txsMap (ms_state 4) !! k = Some x → x ∈ l ∧ ∃ t, elem_tx (mp_txs (ms_state 4)) x = Some t ∧ id (mt_tx t) = k.
Proof.
  apply (mempool_invariant id (λ _, True) (λ a b _ _ E, E) ms_size (λ n, [Z.of_nat n]) 5 (ms_config true 9) 1 None None ms_start (ms_state 4) (ms_block ms_a) ms_start_ok);
    [vm_compute; discriminate|vm_compute; reflexivity|exact ms_runs|]. split; [vm_compute; reflexivity|]. split; [by repeat constructor|cbn; lia].
Defined.

Lemma block_clears_mempool_witness :
  ∃ m' l l', Update id 2 [ms_a] [CodeTypeOK] None None (ms_state 4) = Ok (tt, m') ∧ repr (mp_txs (ms_state 4)) l ∧ repr (mp_txs m') l' ∧ NoDup (raw (txs_in (mp_txs (ms_state 4)) l)) ∧
    raw (txs_in (mp_txs m') l') = filter (λ tx, tx ∉ [ms_a]) (raw (txs_in (mp_txs (ms_state 4)) l)).
Proof.
  apply (block_clears_mempool id (λ _, True) (λ a b _ _ E, E) ms_size (λ n, [Z.of_nat n]) 5 (ms_config true 9) 1 None None ms_start (ms_state 4) 2 [ms_a] [CodeTypeOK] None None ms_start_ok);
    [vm_compute; discriminate|vm_compute; reflexivity|vm_compute; reflexivity|exact ms_calm|vm_compute; reflexivity|by repeat constructor|cbn; lia|vm_compute; discriminate].
Defined.
